(* ===== verification/_CoqProject ===== *)
-Q . S2P
Prelude.v
Token.v
Types.v
IntegerValue.v
StringView.v
StringDecode.v
Arena.v
Source.v
Lexer.v
Literal.v
Ast.v
ParserState.v
ParserExpr.v
ParserDecl.v
ParserStmt.v
Parser.v
ParserTree.v
ParserSpec.v
ParserRules.v
ParserExprSpec.v
ParserDeclSpec.v
ParserStmtSpec.v
ParserSafety.v
ParserPrecedence.v
Target.v
Layout.v
CogIr.v
CogIrBuilder.v
CogIrInvariant.v
CogIrTheory.v
CogIrVerify.v
CogIrTyping.v
CogIrSafety.v
TypeRelations.v
FlowState.v
SemContext.v
Modules.v
ModulesTheory.v
ConstantEvaluation.v
ConstantFloat.v
ConstantInvariant.v
ConstantArithmetic.v
ConstantTyping.v
ConstantNames.v
ConstantSafety.v
ConstantTheory.v
ConstantExact.v
FlowCheck.v
FlowInvariant.v
FlowTotal.v
FlowRun.v
FlowTrack.v
FlowExpression.v
FlowDefer.v
FlowAssign.v
FlowStatement.v
FlowSwitch.v
FlowSafety.v
RuntimeMemory.v
RuntimeHeap.v
RuntimeArena.v
RuntimeFixedArena.v
RuntimeDebug.v
RuntimeDebugReports.v
RuntimeStore.v
