(* ===== verification/Prelude.v ===== *)
(** Verification of the coglet compiler.

    Coglet is a systems language; the compiler is a C program.  It turns a source file
    into tokens ([src/lexer.c]), a syntax tree ([src/parser.c]), an annotated tree
    ([src/semantic_anal.c]), a module of CogIR, a typed intermediate representation in
    basic-block form ([src/ir/]), and then C text or LLVM code ([src/backends/]).  This
    library models the parts of it that are algorithms on data of their own, and the memory
    of its run-time library, and proves that they are correct.  File names below are those of [src/src/].

    * How the code is represented

    Each C function is one Gallina function of the same name.  Integers of a fixed
    width are integers or binary naturals whose wrap-around is written out ([u64],
    [u32]); a C string is the list of its characters; a structure is a record and a
    tagged union an inductive type.  A function that can hit an [assert] or exit the
    process returns an [outcome]; one that can fail returns an option; one that changes
    a structure through a pointer takes it and returns it; the lexer is a state monad
    with faults.  All definitions can be evaluated.

    * The parts

    - Prelude.v: outcomes, machine integers, characters, tactics, shared lemmas.
    - Token.v ([include/lexer.h], [TokenType]) and Types.v ([include/types.h]): the
      enumerations and records that the front end shares.
    - IntegerValue.v ([semantic_anal.c]): the exact integers of the constant evaluator.
      Their meaning is an integer, [value_of]; the theorems say that fixed-width
      conversion, bitwise operators, shifts, wrapping builtins, checked operators,
      casts and division guards compute the operation of that name on integers, or
      refuse exactly when the language says so.  The 64-bit arithmetic of the
      magnitudes is that of the code.
    - StringView.v ([include/utils/string_view.h]), StringDecode.v ([string_decode.c]),
      Source.v ([source.c]), Arena.v ([utils/arena.c]): the supporting libraries.  Views
      agree with the strings they denote; decoding inverts encoding; file identifiers
      are stable and spans join; regions handed out by an arena are disjoint, aligned
      and inside their block, and a reset restores the arena of the mark.
    - Lexer.v ([lexer.c]): the scanner.  No call reads outside the buffer, overflows or
      loops; the tokens tile the buffer; each class of token has the text and the kind
      the language gives it (the longest operator, the keyword, the string whose escapes
      are complete), at its line and column.
    - Literal.v ([parse_integer_u64] of [parser.c]): the value of an integer token, and
      its rejection beyond 64 bits; with the lexer, end to end.
    - Ast.v ([include/ast.h], [ast.c]): the syntax tree, its constructors and
      [ast_clone], with the trees it copies faithfully.
    - ParserState.v, ParserExpr.v, ParserDecl.v, ParserStmt.v and Parser.v ([parser.c]):
      the parser, all of its grammar.  A function of the parser is a computation on the
      [Parser] structure that may fault ([P]).  ParserState.v has the tokens, the
      diagnostics and the recovery from errors; the next three the types and expressions,
      the declarations and the statements, each against a record [Grammar] of the
      functions it calls recursively; Parser.v ties the knot ([grammar]) and parses whole
      files ([parse_file]), so a text can be evaluated to its tree.
    - ParserTree.v: the shape of a tree that later phases rely on ([well_formed]).
      ParserSpec.v and ParserRules.v: a weakest-precondition calculus for [P], the
      invariant of the parser ([inv]) and the contract of a grammar function ([good]).
      ParserExprSpec.v, ParserDeclSpec.v and ParserStmtSpec.v prove every function against
      the contracts of the functions it calls; ParserSafety.v concludes that parsing always
      ends, reports inside the file, and yields a well-formed tree when it reports nothing.
    - ParserPrecedence.v: the operator table of [docs/grammar.md] as a grammar on lists of
      tokens ([expr]), which the parser implements ([parser_implements_table]): precedence,
      associativity, assignments, postfix operators, calls.
    - Target.v ([target/target_config.c], [target/target_info.c]) and Layout.v
      ([target/target_layout.c]): the facts of the targets and the sizes, alignments and
      offsets of types.  The layout function obeys the ABI rules (a declarative relation
      on layouts), always answers, and refuses types that contain themselves.
    - CogIr.v ([include/ir/cog_ir.h]) and CogIrBuilder.v ([ir/cog_ir.c]): the data model
      of CogIR and every operation that builds a module.
    - CogIrInvariant.v and CogIrTheory.v: [module_ok], the invariant of modules, and
      [grows], what a call may change; every operation preserves the one and satisfies
      the other ([preserves]).  [builder_step] has one constructor per operation of the
      interface and [built] holds of the modules reachable by any sequence of calls:
      identifiers keep their meaning, types and constants are hash-consed, a value has
      one definition, a closed block stays closed, a frozen module is final.  Clients
      need [module_ok] and [grows] only.
    - CogIrVerify.v ([ir/cog_ir_verify.c]): the verifier, as the report it makes.
    - CogIrTyping.v: the typing rules of the instructions, a declarative specification
      ([op_rule], [well_typed]); the verifier accepts an instruction exactly when its
      rule holds.
    - CogIrSafety.v: an abstract machine for CogIR; verified functions of built modules
      never get stuck.  A rejected module always has a diagnostic.
    - TypeRelations.v ([semantic_anal.c]): the predicates on types that the analyser's
      typing rules are made of, on a store of types.  Equality is equality of spelling;
      conversions never grant access to memory; what is accepted as an initializer is
      what code generation is told how to convert; the exhaustiveness of a [switch].
    - SemContext.v ([semantic_anal.c], [include/semantic_anal.h], [include/semantic_info.h]):
      the context of semantic analysis, with the functions on scopes, symbols, and the
      records of declarations and expressions, in a monad with assertions ([M]).
    - Modules.v: modules, imports, qualified names and dotted paths, from
      [prepare_program_modules] to [semantic_qualified_enum_member], and the scopes an
      analysis starts with.  ModulesTheory.v: qualifiers are unambiguous, the longest one
      decides, and privacy is respected.
    - ConstantEvaluation.v: the evaluator of constant expressions ([eval_const_expr]), the
      probing one ([try_eval_const_expr]), the checks that read constant operands,
      [static_assert] and the check of constant declarations, which evaluate each other.
      ConstantFloat.v: floating-point results and their conversion to integers.
      ConstantInvariant.v: the invariant of contexts ([context_ok]), what an evaluation may
      change ([extends]) and triples for it ([evaluates]).  ConstantArithmetic.v: each
      integer operator against arithmetic on [Z]; ConstantTyping.v: operators keep values
      within their types; ConstantNames.v: names, enumeration members, builtins, and
      [CheckerLaws].  ConstantSafety.v follows the evaluator and the checks of declarations;
      ConstantTheory.v concludes that evaluation is sound, that the check of every constant
      ends, cycles included, and that probing is silent; ConstantExact.v that on integers
      and booleans the evaluator computes what a reference evaluator in [Z] computes.
    - FlowState.v and FlowCheck.v ([semantic_anal.c], "definite-assignment / ownership
      flow state" and the checkers of function bodies): the analysis that rejects reads of
      uninitialised or moved variables and assignments that would leak an owner.
      FlowState.v has the states and their merges; FlowCheck.v the scopes and the
      checkers from [check_function_body] down to identifiers, in a state monad with
      assertions.  FlowInvariant.v and FlowTotal.v prove that no assertion fails: the
      check of every function body returns.  FlowRun.v gives the tree a meaning, an
      evaluation relation with faults; FlowTrack.v relates flow states to environments;
      FlowExpression.v, FlowDefer.v, FlowAssign.v, FlowStatement.v and FlowSwitch.v say
      what accepted expressions, deferred statements, assignments, loops and switches do;
      FlowSafety.v concludes that accepted functions do not fault.
    - RuntimeMemory.v, RuntimeHeap.v, RuntimeArena.v, RuntimeFixedArena.v, RuntimeDebug.v
      ([src/stdlib/runtime/coglet_runtime_mem.c], beside [src/src/]): the allocators that
      compiled programs are linked with.  An address is an integer; an allocator is a record
      of three functions on its state and the bytes of memory ([Allocator]), and may run out
      of memory or be undefined.  [LawfulAllocator] is what one promises, and the heap, the
      arena, the arena in a buffer and the debugging allocator are instances, two of them
      over any lawful parent.  RuntimeArena.v also shows that a scratch scope restores the
      arena; RuntimeDebugReports.v what the debugging allocator reports, and that it reports
      nothing else.  RuntimeStore.v has the specification, a store of allocations with their
      bytes, and the refinement: a program that is correct on the store is correct on every
      one of them.

    * Interaction

    Flow analysis asks TypeRelations.v which types own resources, which conditions are
    boolean and which cases are exhaustive, and knows the constant evaluator only as a
    class, [ConstantEvaluator] (FlowCheck.v), with its laws in [EvaluatorLaws] (FlowRun.v).
    Constant evaluation needs the resolution of written types and the check of an
    expression's type, which are not modelled: they are the class [Checker]
    (ConstantEvaluation.v), with its laws in [CheckerLaws] (ConstantNames.v) and an instance,
    [simple_checker] (ConstantTheory.v).  It calls the integers of IntegerValue.v, the
    relations of TypeRelations.v and the lookups of Modules.v.
    The lexer makes spans of a source file (Source.v); the parser reads its tokens one ahead,
    copies the lexer to look further, reads numbers from tokens (Literal.v) and decodes the
    names of external functions (StringDecode.v).  The flow analysis works on the annotated
    tree of semantic analysis, which FlowCheck.v has in a form of its own.  CogIR
    modules copy the source files and hold a target (Target.v).  The builder's invariant
    is the interface to the verifier: the proofs of CogIrSafety.v start from it.

    * Bounds and fuel

    Loops of the lexer take the length of the buffer plus one as fuel; [lexer_next_ok]
    and [lex_tiles] prove that it is never used up.  A buffer is shorter than [2^31]
    characters, since the lexer counts lines and columns in [int] ([buffer_ok]).  The
    parser's loops and recursions have the characters that are not consumed yet as fuel
    ([remaining]), plus one; [parse_file_total] proves that it is never used up.  The
    layout recursion has fuel [LAYOUT_FUEL], two more than twice the depth the code
    allows; [target_layout_terminates] proves that it suffices.  Tables of a module are
    bounded by the 32-bit identifiers, as in the code.  The recursions on types have fuel
    [TYPE_FUEL], one more than the number of types, which is enough for types that do not
    contain themselves ([structured]; [type_equal_correct] says that equality answers);
    the doubling of a capacity takes at most [GROW_FUEL] steps.  The checks of constant
    declarations nest at most as deep as there are declarations whose check can still start
    ([pending_count]), which [check_constant_declaration] gives as fuel;
    [constant_declaration_settles] proves that it is enough.

    * What the theorems show to be wrong

    [set_terminator_incomplete_switch] (CogIrTheory.v): a refused [switch] terminates
    its block all the same, and the verifier then reads a null pointer
    ([incomplete_switch_unreadable], CogIrSafety.v).  [entry_parameters_unverified]
    (CogIrSafety.v): parameters of an entry block pass the verifier.
    [string_view_substr_overflow] (StringView.v) and [arena_alloc_wraps] (Arena.v):
    additions that wrap.  [touching_literals] and [commented_literals] (ParserSafety.v):
    adjacent string literals that lose text.  [grouped_increment] and [grouped_null_operand]
    (ParserSafety.v), [ast_clone_exact] (Ast.v): a grouped declaration whose initializer
    has an increment loses it, and copies have members that nothing sets.  [deferred_move_faults] and [conditional_return_faults]
    (FlowSafety.v): functions that are accepted although they use a moved owner.
    [case_declaration_aborts] (FlowTotal.v): a declaration as the body of a case.
    [minimum_negation_aborts] (ConstantExact.v): [-(-9223372036854775808)] fails an assertion.
    [aarch64_linux_char_signed] (Target.v): the signedness of
    [char].  [fixed_create_wraps] (RuntimeFixedArena.v): a buffer at the end of the address
    space.  [good_resize] (RuntimeDebugReports.v): a resize to another alignment is not
    reported.

    * What is not modelled

    The rest of semantic analysis: the resolution of written types, the typing rules of
    operators, calls and literals, generics, the declarations of types and functions; what
    it stores in the tree; the dump of CogIR;
    the translation to CogIR, which walks that tree; the C backend; the LLVM backend,
    whose every line calls a library that is not in the repository; the driver, the
    toolchain and the command line, which are input, output and processes; the input,
    output and mathematics of the run-time library.  Within the modelled parts:
    printing to streams, the bytes stored in an arena of the compiler, the formatting of
    diagnostics of the verifier.  [malloc] is a parameter of RuntimeHeap.v, with the law that
    a block it returns is disjoint from those that are live ([MallocLaws]).  The tree keeps floating-point literals exact; ConstantEvaluation.v rounds
    them. *)
From Stdlib Require Export ZArith Lia Bool Ascii String.
From stdpp Require Export base tactics numbers list gmap strings.

#[global] Open Scope Z_scope.

Declare Scope coglet_scope.
Delimit Scope coglet_scope with coglet.
#[global] Open Scope coglet_scope.

(** ** Outcomes of C code that may abort

    A function whose body contains [assert] or [UNREACHABLE] either returns or
    aborts the process. *)
Inductive outcome (A : Type) : Type :=
| Returned (a : A)
| Aborted.
Arguments Returned {A} a.
Arguments Aborted {A}.

Definition obind {A B} (m : outcome A) (k : A -> outcome B) : outcome B :=
  match m with
  | Returned a => k a
  | Aborted => Aborted
  end.

(** [assert(b)] *)
Definition c_assert (b : bool) : outcome unit :=
  if b then Returned tt else Aborted.

(** A call [if (!f(..., &x)) return 0;]: failure of the callee makes the caller
    return failure. *)
Definition otry {A B} (m : outcome (option A)) (k : A -> outcome (option B))
    : outcome (option B) :=
  obind m (fun o => match o with
                    | Some a => k a
                    | None => Returned None
                    end).

Notation "'let!' x := m 'in' k" := (obind m (fun x => k))
  (at level 10, x name, m at level 100, k at level 200) : coglet_scope.
Notation "'let?' x := m 'in' k" := (otry m (fun x => k))
  (at level 10, x name, m at level 100, k at level 200) : coglet_scope.
Notation "'assert!' b ; k" := (obind (c_assert b) (fun _ => k))
  (at level 10, b at level 100, k at level 200) : coglet_scope.

(** ** Fixed-width unsigned arithmetic

    A [w]-bit unsigned C integer is a [Z] in [0, 2^w); every operation that can
    leave the range wraps explicitly. *)
Definition UINT64_MAX : Z := 2 ^ 64 - 1.
Definition UINT32_MAX : Z := 2 ^ 32 - 1.
Definition INT_MAX : Z := 2 ^ 31 - 1.
Definition SIZE_MAX : Z := UINT64_MAX.

Definition u64 (z : Z) : Z := z mod 2 ^ 64.
Definition u32 (z : Z) : Z := z mod 2 ^ 32.

(** Conversion to [int] (two's complement, as every supported target does). *)
Definition to_int (z : Z) : Z := (z + 2 ^ 31) mod 2 ^ 32 - 2 ^ 31.

(** [~x] on [uint64_t]. *)
Definition not64 (z : Z) : Z := u64 (Z.lnot z).

(** ** Characters

    [char] values are [ascii]; the comparisons the code makes only involve codes
    below 128, where signed and unsigned [char] agree. *)
Definition code (c : ascii) : Z := Z.of_nat (nat_of_ascii c).
Definition NUL : ascii := "000"%char.
Definition NL : ascii := "010"%char.
Definition DQUOTE : ascii := "034"%char.

(** A C string literal, without its terminator. *)
Definition cstr (s : string) : list ascii := list_ascii_of_string s.

Definition ascii_in (lo hi c : ascii) : bool :=
  (code lo <=? code c) && (code c <=? code hi).

(** ** Automation *)
Create HintDb coglet discriminated.
Create Rewrite HintDb coglet_rw.

Lemma obind_returned {A B} (a : A) (k : A -> outcome B) :
  obind (Returned a) k = k a.
Proof. reflexivity. Qed.

Lemma otry_some {A B} (a : A) (k : A -> outcome (option B)) :
  otry (Returned (Some a)) k = k a.
Proof. reflexivity. Qed.

Lemma otry_none {A B} (k : A -> outcome (option B)) :
  otry (Returned None) k = Returned None.
Proof. reflexivity. Qed.

#[export] Hint Rewrite @obind_returned @otry_some @otry_none : coglet_rw.

(** Case analysis on the boolean tests of the goal, as arithmetic facts. *)
Ltac split_tests :=
  repeat match goal with
  | |- context [Z.leb ?a ?b] => destruct (Z.leb_spec a b)
  | |- context [Z.ltb ?a ?b] => destruct (Z.ltb_spec a b)
  | |- context [Z.eqb ?a ?b] => destruct (Z.eqb_spec a b)
  end; simpl; try lia; try reflexivity.

(** Boolean hypotheses to propositions. *)
Ltac to_props :=
  repeat match goal with
  | H : andb _ _ = true |- _ => apply andb_true_iff in H; destruct H
  | H : orb _ _ = false |- _ => apply orb_false_iff in H; destruct H
  | H : negb _ = true |- _ => apply negb_true_iff in H
  | H : negb _ = false |- _ => apply negb_false_iff in H
  | H : Z.leb _ _ = true |- _ => apply Z.leb_le in H
  | H : Z.leb _ _ = false |- _ => apply Z.leb_gt in H
  | H : Z.ltb _ _ = true |- _ => apply Z.ltb_lt in H
  | H : Z.ltb _ _ = false |- _ => apply Z.ltb_ge in H
  | H : Z.eqb _ _ = true |- _ => apply Z.eqb_eq in H
  | H : Z.eqb _ _ = false |- _ => apply Z.eqb_neq in H
  end.

(** A [Forall] over an explicit list (possibly behind an append), element by element. *)
Ltac forall_cons :=
  repeat match goal with
  | |- Forall _ [] => apply Forall_nil; exact I
  | |- Forall _ (_ :: _) => apply Forall_cons; split
  | |- Forall _ (_ ++ _) => apply Forall_app; split
  end.

(** ** Generic lemmas *)

Lemma u64_small z : 0 <= z < 2 ^ 64 -> u64 z = z.
Proof. apply Z.mod_small. Qed.

Lemma u64_range z : 0 <= u64 z < 2 ^ 64.
Proof. apply Z.mod_pos_bound. lia. Qed.

Lemma u32_small z : 0 <= z < 2 ^ 32 -> u32 z = z.
Proof. apply Z.mod_small. Qed.

Lemma to_int_small z : 0 <= z <= INT_MAX -> to_int z = z.
Proof. unfold to_int, INT_MAX. intros. rewrite Z.mod_small; lia. Qed.

Lemma land_ones_mod z w : 0 <= w -> Z.land z (2 ^ w - 1) = z mod 2 ^ w.
Proof.
  intros Hw. replace (2 ^ w - 1) with (Z.ones w) by (rewrite Z.ones_equiv; lia).
  by apply Z.land_ones.
Qed.

Lemma pow2_pos w : 0 <= w -> 0 < 2 ^ w.
Proof. intros. by apply Z.pow_pos_nonneg. Qed.

(** Reduction modulo a larger power of two first changes nothing. *)
Lemma mod_pow2_mod z w v : 0 <= w <= v -> (z mod 2 ^ v) mod 2 ^ w = z mod 2 ^ w.
Proof.
  intros Hw. apply Z.mod_mod_divide.
  exists (2 ^ (v - w)). rewrite <- Z.pow_add_r by lia. f_equal. lia.
Qed.

Lemma testbit_high_mod z w i : 0 <= z < 2 ^ w -> w <= i -> Z.testbit z i = false.
Proof.
  intros Hz Hi. destruct (decide (w < 0)) as [Hw|Hw].
  { rewrite Z.pow_neg_r in Hz; lia. }
  rewrite <- (Z.mod_small z (2 ^ w)) by lia. apply Z.mod_pow2_bits_high. lia.
Qed.

(** The sign bit of a [w]-bit pattern decides which half it lies in. *)
Lemma land_sign_bit p w :
  0 < w -> 0 <= p < 2 ^ w ->
  (Z.land p (2 ^ (w - 1)) =? 0) = (p <? 2 ^ (w - 1)).
Proof.
  intros Hw Hp.
  assert (Hbit : Z.land p (2 ^ (w - 1)) =
                 if Z.testbit p (w - 1) then 2 ^ (w - 1) else 0).
  { apply Z.bits_inj'. intros n Hn. rewrite Z.land_spec.
    destruct (decide (n = w - 1)) as [->|Hne].
    - rewrite Z.pow2_bits_true by lia. rewrite andb_true_r.
      destruct (Z.testbit p (w - 1)).
      + by rewrite Z.pow2_bits_true by lia.
      + by rewrite Z.bits_0.
    - rewrite Z.pow2_bits_false by lia. rewrite andb_false_r.
      destruct (Z.testbit p (w - 1)).
      + by rewrite Z.pow2_bits_false by lia.
      + by rewrite Z.bits_0. }
  rewrite Hbit.
  assert (Hpow : 2 ^ w = 2 * 2 ^ (w - 1)).
  { rewrite <- Z.pow_succ_r by lia. f_equal. lia. }
  pose proof (pow2_pos (w - 1) ltac:(lia)) as Hpos.
  assert (Htb : Z.testbit p (w - 1) = negb (p <? 2 ^ (w - 1))).
  { rewrite Z.testbit_odd, Z.shiftr_div_pow2 by lia.
    destruct (Z.ltb_spec p (2 ^ (w - 1))).
    - rewrite Z.div_small by lia. reflexivity.
    - replace (p / 2 ^ (w - 1)) with 1; [reflexivity|].
      apply Z.div_unique with (p - 2 ^ (w - 1)); lia. }
  rewrite Htb. destruct (Z.ltb_spec p (2 ^ (w - 1))); simpl; split_tests.
Qed.
