(* ===== verification/Token.v ===== *)
(** Token kinds of the lexer ([src/include/lexer.h], [TokenType]): the enumeration in
    declaration order, with its numbering and decidable equality. *)
From S2P Require Import Prelude.

Inductive TokenType : Set :=
| TOK_EOF | TOK_ERROR | TOK_NUMBER_INT | TOK_NUMBER_FLOAT | TOK_STRING | TOK_CHAR
| TOK_IDENT | TOK_TRUE | TOK_FALSE | TOK_NULL | TOK_IF | TOK_ELSE | TOK_WHILE | TOK_FOR
| TOK_RETURN | TOK_DEFER | TOK_DISCARD | TOK_STATIC_ASSERT | TOK_VOID | TOK_STRUCT
| TOK_RESOURCE | TOK_UNION | TOK_BREAK | TOK_CONTINUE | TOK_ENUM | TOK_SWITCH | TOK_CASE
| TOK_DEFAULT | TOK_CAST | TOK_TRUNCATE | TOK_IN | TOK_REINTERPRET | TOK_MOVE
| TOK_READONLY | TOK_VOLATILE | TOK_OPAQUE | TOK_CFN | TOK_SIZE_OF | TOK_ALIGN_OF
| TOK_ASM | TOK_S8 | TOK_S16 | TOK_S32 | TOK_S64 | TOK_U8 | TOK_U16 | TOK_U32 | TOK_U64
| TOK_ISIZE | TOK_USIZE | TOK_F32 | TOK_F64 | TOK_BOOL | TOK_INT_KW | TOK_UINT_KW
| TOK_PLUS | TOK_MINUS | TOK_STAR | TOK_SLASH | TOK_PERCENT | TOK_PLUS_PLUS
| TOK_MINUS_MINUS | TOK_PLUS_EQUAL | TOK_MINUS_EQUAL | TOK_STAR_EQUAL | TOK_SLASH_EQUAL
| TOK_PERCENT_EQUAL | TOK_EQUAL | TOK_EQUAL_EQUAL | TOK_BANG | TOK_BANG_EQUAL | TOK_LESS
| TOK_LESS_EQUAL | TOK_GREATER | TOK_GREATER_EQUAL | TOK_SHIFT_LEFT | TOK_SHIFT_RIGHT
| TOK_SHIFT_LEFT_EQUAL | TOK_SHIFT_RIGHT_EQUAL | TOK_AND_AND | TOK_OR_OR | TOK_AND
| TOK_OR | TOK_XOR | TOK_TILDE | TOK_AND_EQUAL | TOK_OR_EQUAL | TOK_XOR_EQUAL
| TOK_LPAREN | TOK_RPAREN | TOK_LBRACE | TOK_RBRACE | TOK_LBRACKET | TOK_RBRACKET
| TOK_SEMICOLON | TOK_COMMA | TOK_DOT | TOK_ELLIPSIS | TOK_ARROW | TOK_COLON
| TOK_COLON_COLON | TOK_COLON_EQUAL | TOK_HASH.

(** The enumerators in order: position [n] holds the enumerator of value [n]. *)
Definition all_tokens : list TokenType :=
  [TOK_EOF; TOK_ERROR; TOK_NUMBER_INT; TOK_NUMBER_FLOAT; TOK_STRING; TOK_CHAR;
   TOK_IDENT; TOK_TRUE; TOK_FALSE; TOK_NULL; TOK_IF; TOK_ELSE; TOK_WHILE; TOK_FOR;
   TOK_RETURN; TOK_DEFER; TOK_DISCARD; TOK_STATIC_ASSERT; TOK_VOID; TOK_STRUCT;
   TOK_RESOURCE; TOK_UNION; TOK_BREAK; TOK_CONTINUE; TOK_ENUM; TOK_SWITCH; TOK_CASE;
   TOK_DEFAULT; TOK_CAST; TOK_TRUNCATE; TOK_IN; TOK_REINTERPRET; TOK_MOVE;
   TOK_READONLY; TOK_VOLATILE; TOK_OPAQUE; TOK_CFN; TOK_SIZE_OF; TOK_ALIGN_OF; TOK_ASM;
   TOK_S8; TOK_S16; TOK_S32; TOK_S64; TOK_U8; TOK_U16; TOK_U32; TOK_U64; TOK_ISIZE;
   TOK_USIZE; TOK_F32; TOK_F64; TOK_BOOL; TOK_INT_KW; TOK_UINT_KW; TOK_PLUS; TOK_MINUS;
   TOK_STAR; TOK_SLASH; TOK_PERCENT; TOK_PLUS_PLUS; TOK_MINUS_MINUS; TOK_PLUS_EQUAL;
   TOK_MINUS_EQUAL; TOK_STAR_EQUAL; TOK_SLASH_EQUAL; TOK_PERCENT_EQUAL; TOK_EQUAL;
   TOK_EQUAL_EQUAL; TOK_BANG; TOK_BANG_EQUAL; TOK_LESS; TOK_LESS_EQUAL; TOK_GREATER;
   TOK_GREATER_EQUAL; TOK_SHIFT_LEFT; TOK_SHIFT_RIGHT; TOK_SHIFT_LEFT_EQUAL;
   TOK_SHIFT_RIGHT_EQUAL; TOK_AND_AND; TOK_OR_OR; TOK_AND; TOK_OR; TOK_XOR; TOK_TILDE;
   TOK_AND_EQUAL; TOK_OR_EQUAL; TOK_XOR_EQUAL; TOK_LPAREN; TOK_RPAREN; TOK_LBRACE;
   TOK_RBRACE; TOK_LBRACKET; TOK_RBRACKET; TOK_SEMICOLON; TOK_COMMA; TOK_DOT;
   TOK_ELLIPSIS; TOK_ARROW; TOK_COLON; TOK_COLON_COLON; TOK_COLON_EQUAL; TOK_HASH].

(** [token_type_name] ([src/lexer.c]): the name used by token dumps. *)
Definition token_type_name (t : TokenType) : string :=
  match t with
  | TOK_EOF => "EOF" | TOK_ERROR => "ERROR" | TOK_NUMBER_INT => "NUMBER_INT"
  | TOK_NUMBER_FLOAT => "NUMBER_FLOAT" | TOK_STRING => "STRING" | TOK_CHAR => "CHAR"
  | TOK_IDENT => "IDENT" | TOK_TRUE => "TRUE" | TOK_FALSE => "FALSE"
  | TOK_NULL => "NULL" | TOK_IF => "IF" | TOK_ELSE => "ELSE" | TOK_WHILE => "WHILE"
  | TOK_FOR => "FOR" | TOK_IN => "IN" | TOK_RETURN => "RETURN" | TOK_DEFER => "DEFER"
  | TOK_DISCARD => "DISCARD" | TOK_STATIC_ASSERT => "STATIC_ASSERT"
  | TOK_VOID => "VOID" | TOK_STRUCT => "STRUCT" | TOK_RESOURCE => "RESOURCE"
  | TOK_UNION => "UNION" | TOK_BREAK => "BREAK" | TOK_CONTINUE => "CONTINUE"
  | TOK_ENUM => "ENUM" | TOK_SWITCH => "SWITCH" | TOK_CASE => "CASE"
  | TOK_DEFAULT => "DEFAULT" | TOK_CAST => "CAST" | TOK_TRUNCATE => "TRUNCATE"
  | TOK_REINTERPRET => "REINTERPRET" | TOK_MOVE => "MOVE" | TOK_READONLY => "READONLY"
  | TOK_VOLATILE => "VOLATILE" | TOK_OPAQUE => "OPAQUE" | TOK_CFN => "CFN"
  | TOK_SIZE_OF => "SIZE_OF" | TOK_ALIGN_OF => "ALIGN_OF" | TOK_ASM => "ASM"
  | TOK_S8 => "S8" | TOK_S16 => "S16" | TOK_S32 => "S32" | TOK_S64 => "S64"
  | TOK_U8 => "U8" | TOK_U16 => "U16" | TOK_U32 => "U32" | TOK_U64 => "U64"
  | TOK_ISIZE => "ISIZE" | TOK_USIZE => "USIZE" | TOK_F32 => "F32" | TOK_F64 => "F64"
  | TOK_BOOL => "BOOL" | TOK_INT_KW => "INT_KW" | TOK_UINT_KW => "UINT_KW"
  | TOK_PLUS => "PLUS" | TOK_MINUS => "MINUS" | TOK_STAR => "STAR"
  | TOK_SLASH => "SLASH" | TOK_PERCENT => "PERCENT" | TOK_PLUS_PLUS => "PLUS_PLUS"
  | TOK_MINUS_MINUS => "MINUS_MINUS" | TOK_PLUS_EQUAL => "PLUS_EQUAL"
  | TOK_MINUS_EQUAL => "MINUS_EQUAL" | TOK_STAR_EQUAL => "STAR_EQUAL"
  | TOK_SLASH_EQUAL => "SLASH_EQUAL" | TOK_PERCENT_EQUAL => "PERCENT_EQUAL"
  | TOK_EQUAL => "EQUAL" | TOK_EQUAL_EQUAL => "EQUAL_EQUAL" | TOK_BANG => "BANG"
  | TOK_BANG_EQUAL => "BANG_EQUAL" | TOK_LESS => "LESS"
  | TOK_LESS_EQUAL => "LESS_EQUAL" | TOK_GREATER => "GREATER"
  | TOK_GREATER_EQUAL => "GREATER_EQUAL" | TOK_SHIFT_LEFT => "SHIFT_LEFT"
  | TOK_SHIFT_RIGHT => "SHIFT_RIGHT" | TOK_SHIFT_LEFT_EQUAL => "SHIFT_LEFT_EQUAL"
  | TOK_SHIFT_RIGHT_EQUAL => "SHIFT_RIGHT_EQUAL" | TOK_AND_AND => "AND_AND"
  | TOK_OR_OR => "OR_OR" | TOK_AND => "AND" | TOK_OR => "OR" | TOK_XOR => "XOR"
  | TOK_TILDE => "TILDE" | TOK_AND_EQUAL => "AND_EQUAL" | TOK_OR_EQUAL => "OR_EQUAL"
  | TOK_XOR_EQUAL => "XOR_EQUAL" | TOK_LPAREN => "LPAREN" | TOK_RPAREN => "RPAREN"
  | TOK_LBRACE => "LBRACE" | TOK_RBRACE => "RBRACE" | TOK_LBRACKET => "LBRACKET"
  | TOK_RBRACKET => "RBRACKET" | TOK_SEMICOLON => "SEMICOLON" | TOK_COMMA => "COMMA"
  | TOK_DOT => "DOT" | TOK_ELLIPSIS => "ELLIPSIS" | TOK_ARROW => "ARROW"
  | TOK_COLON => "COLON" | TOK_COLON_COLON => "COLON_COLON"
  | TOK_COLON_EQUAL => "COLON_EQUAL" | TOK_HASH => "HASH"
  end%string.

(** The C value of an enumerator. *)
Definition token_index (t : TokenType) : nat :=
  match t with
  | TOK_EOF => 0 | TOK_ERROR => 1 | TOK_NUMBER_INT => 2 | TOK_NUMBER_FLOAT => 3
  | TOK_STRING => 4 | TOK_CHAR => 5 | TOK_IDENT => 6 | TOK_TRUE => 7 | TOK_FALSE => 8
  | TOK_NULL => 9 | TOK_IF => 10 | TOK_ELSE => 11 | TOK_WHILE => 12 | TOK_FOR => 13
  | TOK_RETURN => 14 | TOK_DEFER => 15 | TOK_DISCARD => 16 | TOK_STATIC_ASSERT => 17
  | TOK_VOID => 18 | TOK_STRUCT => 19 | TOK_RESOURCE => 20 | TOK_UNION => 21
  | TOK_BREAK => 22 | TOK_CONTINUE => 23 | TOK_ENUM => 24 | TOK_SWITCH => 25
  | TOK_CASE => 26 | TOK_DEFAULT => 27 | TOK_CAST => 28 | TOK_TRUNCATE => 29
  | TOK_IN => 30 | TOK_REINTERPRET => 31 | TOK_MOVE => 32 | TOK_READONLY => 33
  | TOK_VOLATILE => 34 | TOK_OPAQUE => 35 | TOK_CFN => 36 | TOK_SIZE_OF => 37
  | TOK_ALIGN_OF => 38 | TOK_ASM => 39 | TOK_S8 => 40 | TOK_S16 => 41 | TOK_S32 => 42
  | TOK_S64 => 43 | TOK_U8 => 44 | TOK_U16 => 45 | TOK_U32 => 46 | TOK_U64 => 47
  | TOK_ISIZE => 48 | TOK_USIZE => 49 | TOK_F32 => 50 | TOK_F64 => 51 | TOK_BOOL => 52
  | TOK_INT_KW => 53 | TOK_UINT_KW => 54 | TOK_PLUS => 55 | TOK_MINUS => 56
  | TOK_STAR => 57 | TOK_SLASH => 58 | TOK_PERCENT => 59 | TOK_PLUS_PLUS => 60
  | TOK_MINUS_MINUS => 61 | TOK_PLUS_EQUAL => 62 | TOK_MINUS_EQUAL => 63
  | TOK_STAR_EQUAL => 64 | TOK_SLASH_EQUAL => 65 | TOK_PERCENT_EQUAL => 66
  | TOK_EQUAL => 67 | TOK_EQUAL_EQUAL => 68 | TOK_BANG => 69 | TOK_BANG_EQUAL => 70
  | TOK_LESS => 71 | TOK_LESS_EQUAL => 72 | TOK_GREATER => 73 | TOK_GREATER_EQUAL => 74
  | TOK_SHIFT_LEFT => 75 | TOK_SHIFT_RIGHT => 76 | TOK_SHIFT_LEFT_EQUAL => 77
  | TOK_SHIFT_RIGHT_EQUAL => 78 | TOK_AND_AND => 79 | TOK_OR_OR => 80 | TOK_AND => 81
  | TOK_OR => 82 | TOK_XOR => 83 | TOK_TILDE => 84 | TOK_AND_EQUAL => 85
  | TOK_OR_EQUAL => 86 | TOK_XOR_EQUAL => 87 | TOK_LPAREN => 88 | TOK_RPAREN => 89
  | TOK_LBRACE => 90 | TOK_RBRACE => 91 | TOK_LBRACKET => 92 | TOK_RBRACKET => 93
  | TOK_SEMICOLON => 94 | TOK_COMMA => 95 | TOK_DOT => 96 | TOK_ELLIPSIS => 97
  | TOK_ARROW => 98 | TOK_COLON => 99 | TOK_COLON_COLON => 100 | TOK_COLON_EQUAL => 101
  | TOK_HASH => 102
  end%nat.

Lemma all_tokens_index t : all_tokens !! token_index t = Some t.
Proof. by destruct t. Qed.

Lemma token_index_inj t1 t2 : token_index t1 = token_index t2 -> t1 = t2.
Proof.
  intros H. apply (f_equal (fun i => all_tokens !! i)) in H.
  rewrite !all_tokens_index in H. by inversion H.
Qed.

#[global] Instance TokenType_eq_dec : EqDecision TokenType.
Proof.
  refine (fun t1 t2 =>
    match decide (token_index t1 = token_index t2) with
    | left H => left (token_index_inj _ _ H)
    | right H => right _
    end).
  abstract (intros ->; by apply H).
Defined.
