(* ===== verification/Types.v ===== *)
(** Semantic types of the front end ([src/include/types.h]).

    Types are heap objects that refer to each other by pointer and may be cyclic
    (a struct reached again through one of its fields), so a [Type *] is an index
    into a store of [Type] records and [None] is the null pointer. *)
From S2P Require Import Prelude.

Inductive TypeKind : Set :=
| TYPE_VOID | TYPE_BOOL
| TYPE_S8 | TYPE_S16 | TYPE_S32 | TYPE_S64
| TYPE_U8 | TYPE_U16 | TYPE_U32 | TYPE_U64
| TYPE_F32 | TYPE_F64
| TYPE_UNTYPED_INT | TYPE_UNTYPED_FLOAT
| TYPE_NULL
| TYPE_POINTER | TYPE_OPAQUE_POINTER | TYPE_ARRAY | TYPE_SLICE
| TYPE_NAMED
| TYPE_STRUCT | TYPE_ENUM
| TYPE_FUNCTION.

#[global] Instance TypeKind_eq_dec : EqDecision TypeKind.
Proof. solve_decision. Defined.

Inductive PointerAccess : Set := POINTER_ACCESS_MUTABLE | POINTER_ACCESS_READONLY.

#[global] Instance PointerAccess_eq_dec : EqDecision PointerAccess.
Proof. solve_decision. Defined.

Inductive FunctionAbi : Set := FUNCTION_ABI_COGLET | FUNCTION_ABI_C.

#[global] Instance FunctionAbi_eq_dec : EqDecision FunctionAbi.
Proof. solve_decision. Defined.

Inductive CCallingConvention : Set :=
| C_CALL_DEFAULT | C_CALL_CDECL | C_CALL_STDCALL | C_CALL_SYSV64 | C_CALL_WIN64.

#[global] Instance CCallingConvention_eq_dec : EqDecision CCallingConvention.
Proof. solve_decision. Defined.

(** Exact compile-time integers: sign and [uint64_t] magnitude. *)
Record IntegerValue : Set := mkIntegerValue {
  magnitude : Z;
  is_negative : bool;
}.

#[global] Instance IntegerValue_eq_dec : EqDecision IntegerValue.
Proof. solve_decision. Defined.

(** A [Type *]: an index into the type store, [None] for [NULL]. *)
Abbreviation TypePtr := (option nat).

Record StructField : Set := mkStructField {
  sf_name : string;
  sf_type : TypePtr;
}.

Record EnumMember : Set := mkEnumMember {
  em_name : string;
  em_value : IntegerValue;
}.

(** The members of [struct Type] that give a type its meaning; the origin of
    a generic specialisation is front-end bookkeeping and is not represented. *)
Record Type_ : Set := mkType {
  kind : TypeKind;
  element : TypePtr;
  pointer_access : PointerAccess;
  pointer_is_volatile : bool;
  array_size : Z;
  named_module : string;
  named_name : string;
  type_arguments : list TypePtr;
  struct_name : string;
  fields : list StructField;
  struct_is_repr_c : bool;
  struct_is_resource : bool;
  struct_repr_c_packed : bool;
  struct_repr_c_align : Z;
  struct_is_union : bool;
  struct_is_incomplete : bool;
  parameters : list TypePtr;
  return_type : TypePtr;
  function_abi : FunctionAbi;
  function_call_conv : CCallingConvention;
  function_is_variadic : bool;
  enum_name : string;
  enum_is_repr_c : bool;
  enum_backing_type : TypePtr;
  enum_members : list EnumMember;
}.

(** A fresh type of the given kind, as [new_type] of [semantic_anal.c] allocates it. *)
Definition type_of_kind (k : TypeKind) : Type_ :=
  {| kind := k; element := None; pointer_access := POINTER_ACCESS_MUTABLE;
     pointer_is_volatile := false; array_size := -1; named_module := "";
     named_name := ""; type_arguments := []; struct_name := "";
     fields := []; struct_is_repr_c := false; struct_is_resource := false;
     struct_repr_c_packed := false; struct_repr_c_align := 0;
     struct_is_union := false; struct_is_incomplete := false; parameters := [];
     return_type := None; function_abi := FUNCTION_ABI_COGLET;
     function_call_conv := C_CALL_DEFAULT; function_is_variadic := false;
     enum_name := ""; enum_is_repr_c := false; enum_backing_type := None;
     enum_members := [] |}.

(** The type store. *)
Abbreviation TypeStore := (list Type_).
