(* ===== verification/IntegerValue.v ===== *)
(** Constant integer arithmetic of the semantic analyser
    ([src/semantic_anal.c], from [integer_type_info] to
    [classify_integer_division]).

    Integer constants are sign-and-magnitude pairs with a [uint64_t] magnitude.
    Each operation is translated with its wrap-around, its masks and its
    assertions, and is shown to compute the mathematical operation on [Z] (or to
    refuse exactly when the result is not representable). *)
From S2P Require Import Prelude Token Types.

(** ** Representation facts *)

Record IntegerTypeInfo : Set := mkIntegerTypeInfo {
  bit_width : Z;
  is_signed : bool;
}.

Definition integer_type_info (kind : TypeKind) : option IntegerTypeInfo :=
  match kind with
  | TYPE_S8 => Some (mkIntegerTypeInfo 8 true)
  | TYPE_S16 => Some (mkIntegerTypeInfo 16 true)
  | TYPE_S32 => Some (mkIntegerTypeInfo 32 true)
  | TYPE_S64 => Some (mkIntegerTypeInfo 64 true)
  | TYPE_U8 => Some (mkIntegerTypeInfo 8 false)
  | TYPE_U16 => Some (mkIntegerTypeInfo 16 false)
  | TYPE_U32 => Some (mkIntegerTypeInfo 32 false)
  | TYPE_U64 => Some (mkIntegerTypeInfo 64 false)
  | TYPE_VOID | TYPE_BOOL | TYPE_F32 | TYPE_F64 | TYPE_UNTYPED_INT
  | TYPE_UNTYPED_FLOAT | TYPE_NULL | TYPE_POINTER | TYPE_OPAQUE_POINTER
  | TYPE_ARRAY | TYPE_SLICE | TYPE_NAMED | TYPE_STRUCT | TYPE_ENUM
  | TYPE_FUNCTION => None
  end.

Definition is_concrete_integer_kind (kind : TypeKind) : bool :=
  bool_decide (is_Some (integer_type_info kind)).

Definition is_signed_integer_kind (kind : TypeKind) : bool :=
  match integer_type_info kind with
  | Some info => is_signed info
  | None => false
  end.

Definition is_unsigned_integer_kind (kind : TypeKind) : bool :=
  match integer_type_info kind with
  | Some info => negb (is_signed info)
  | None => false
  end.

Definition integer_kind_bit_width (kind : TypeKind) : option Z :=
  match integer_type_info kind with
  | Some info => Some (bit_width info)
  | None => None
  end.

Definition is_integer_kind (kind : TypeKind) : bool :=
  is_concrete_integer_kind kind || bool_decide (kind = TYPE_UNTYPED_INT).

(** ** Values *)

Definition integer_value_make (mag : Z) (neg : bool) : IntegerValue :=
  mkIntegerValue mag (negb (mag =? 0) && neg).

Definition integer_value_negated (v : IntegerValue) : IntegerValue :=
  integer_value_make (magnitude v) (negb (is_negative v)).

Definition integer_values_equal (a b : IntegerValue) : bool :=
  (magnitude a =? magnitude b) && eqb (is_negative a) (is_negative b).

Definition integer_value_compare (a b : IntegerValue) : Z :=
  if negb (eqb (is_negative a) (is_negative b)) then
    if is_negative a then -1 else 1
  else if magnitude a =? magnitude b then 0
  else if is_negative a then
    if magnitude b <? magnitude a then -1 else 1
  else if magnitude a <? magnitude b then -1 else 1.

(** [UINT64_C(1) << n] *)
Definition one_shl (n : Z) : Z := u64 (Z.shiftl 1 n).

Definition integer_width_mask (width : Z) : outcome Z :=
  assert! (1 <=? width);
  assert! (width <=? 64);
  Returned (if width =? 64 then UINT64_MAX else u64 (one_shl width - 1)).

Definition integer_value_fits_type (v : IntegerValue) (kind : TypeKind)
    : outcome bool :=
  if bool_decide (kind = TYPE_UNTYPED_INT) then
    Returned (negb (is_negative v) || (magnitude v <=? one_shl 63))
  else
    match integer_type_info kind with
    | None => Returned false
    | Some info =>
        if negb (is_signed info) then
          if is_negative v then Returned false
          else
            let! mask := integer_width_mask (bit_width info) in
            Returned (magnitude v <=? mask)
        else
          let minimum_magnitude := one_shl (bit_width info - 1) in
          if is_negative v then Returned (magnitude v <=? minimum_magnitude)
          else Returned (magnitude v <? minimum_magnitude)
    end.

Definition integer_value_to_bit_pattern (v : IntegerValue) (kind : TypeKind)
    : outcome (option Z) :=
  match integer_kind_bit_width kind with
  | None => Returned None
  | Some width =>
      let! fits := integer_value_fits_type v kind in
      if negb fits then Returned None
      else
        let! mask := integer_width_mask width in
        Returned (Some
          (if is_negative v then Z.land (u64 (not64 (magnitude v) + 1)) mask
           else Z.land (magnitude v) mask))
  end.

Definition integer_value_from_bit_pattern (pattern : Z) (kind : TypeKind)
    : outcome (option IntegerValue) :=
  match integer_kind_bit_width kind with
  | None => Returned None
  | Some width =>
      let! mask := integer_width_mask width in
      let pattern := Z.land pattern mask in
      if is_signed_integer_kind kind
         && negb (Z.land pattern (one_shl (width - 1)) =? 0)
      then
        Returned (Some
          (integer_value_make (Z.land (u64 (not64 pattern + 1)) mask) true))
      else Returned (Some (integer_value_make pattern false))
  end.

Definition truncate_integer_value (v : IntegerValue) (target_kind : TypeKind)
    : outcome (option IntegerValue) :=
  match integer_kind_bit_width target_kind with
  | None => Returned None
  | Some width =>
      let! mask := integer_width_mask width in
      let pattern := Z.land (magnitude v) mask in
      let pattern :=
        if is_negative v then Z.land (u64 (0 - pattern)) mask else pattern in
      integer_value_from_bit_pattern pattern target_kind
  end.

(** ** Bit-pattern operators *)

Definition integer_value_bitwise_not (operand : IntegerValue) (kind : TypeKind)
    : outcome (option IntegerValue) :=
  match integer_kind_bit_width kind with
  | None => Returned None
  | Some width =>
      let? pattern := integer_value_to_bit_pattern operand kind in
      let! mask := integer_width_mask width in
      integer_value_from_bit_pattern (Z.land (not64 pattern) mask) kind
  end.

Definition integer_values_bitwise (left right : IntegerValue) (kind : TypeKind)
    (operation : TokenType) : outcome (option IntegerValue) :=
  let? left_pattern := integer_value_to_bit_pattern left kind in
  let? right_pattern := integer_value_to_bit_pattern right kind in
  match operation with
  | TOK_AND =>
      integer_value_from_bit_pattern (Z.land left_pattern right_pattern) kind
  | TOK_OR =>
      integer_value_from_bit_pattern (Z.lor left_pattern right_pattern) kind
  | TOK_XOR =>
      integer_value_from_bit_pattern (Z.lxor left_pattern right_pattern) kind
  | _ => Returned None
  end.

Inductive ShiftCountStatus : Set :=
| SHIFT_COUNT_VALID (out_count : Z)
| SHIFT_COUNT_NEGATIVE
| SHIFT_COUNT_OUT_OF_RANGE.

Definition classify_shift_count (v : IntegerValue) (width : Z)
    : ShiftCountStatus :=
  if is_negative v then SHIFT_COUNT_NEGATIVE
  else if width <=? magnitude v then SHIFT_COUNT_OUT_OF_RANGE
  else SHIFT_COUNT_VALID (u32 (magnitude v)).

Definition integer_value_shift (operand : IntegerValue) (kind : TypeKind)
    (operation : TokenType) (count : Z) : outcome (option IntegerValue) :=
  match integer_kind_bit_width kind with
  | None => Returned None
  | Some width =>
      if width <=? count then Returned None
      else
        let? pattern := integer_value_to_bit_pattern operand kind in
        let! mask := integer_width_mask width in
        match operation with
        | TOK_SHIFT_LEFT =>
            integer_value_from_bit_pattern
              (Z.land (u64 (Z.shiftl pattern count)) mask) kind
        | TOK_SHIFT_RIGHT =>
            let result_pattern := Z.shiftr pattern count in
            let result_pattern :=
              if negb (count =? 0) && is_signed_integer_kind kind
                 && negb (Z.land pattern (one_shl (width - 1)) =? 0)
              then Z.lor result_pattern (Z.lxor mask (Z.shiftr mask count))
              else result_pattern in
            integer_value_from_bit_pattern result_pattern kind
        | _ => Returned None
        end
  end.

(** ** Wrapping builtins *)

Inductive BuiltinKind : Set :=
| BUILTIN_NONE
| BUILTIN_WRAPPING_ADD | BUILTIN_WRAPPING_SUB | BUILTIN_WRAPPING_MUL
| BUILTIN_WRAPPING_NEG
| BUILTIN_SIZE_OF | BUILTIN_ALIGN_OF | BUILTIN_SLICE.

Definition evaluate_wrapping_integer_binary (builtin : BuiltinKind)
    (left right : IntegerValue) (operation_kind : TypeKind)
    : outcome (option IntegerValue) :=
  assert! is_concrete_integer_kind operation_kind;
  match integer_kind_bit_width operation_kind with
  | None => Returned None
  | Some width =>
      let? left_pattern := integer_value_to_bit_pattern left operation_kind in
      let? right_pattern := integer_value_to_bit_pattern right operation_kind in
      let! result_pattern :=
        match builtin with
        | BUILTIN_WRAPPING_ADD => Returned (u64 (left_pattern + right_pattern))
        | BUILTIN_WRAPPING_SUB => Returned (u64 (left_pattern - right_pattern))
        | BUILTIN_WRAPPING_MUL => Returned (u64 (left_pattern * right_pattern))
        | BUILTIN_WRAPPING_NEG | BUILTIN_SIZE_OF | BUILTIN_ALIGN_OF
        | BUILTIN_SLICE | BUILTIN_NONE => Aborted
        end in
      let! mask := integer_width_mask width in
      integer_value_from_bit_pattern (Z.land result_pattern mask) operation_kind
  end.

Definition evaluate_wrapping_integer_negation (operand : IntegerValue)
    (operation_kind : TypeKind) : outcome (option IntegerValue) :=
  assert! is_concrete_integer_kind operation_kind;
  match integer_kind_bit_width operation_kind with
  | None => Returned None
  | Some width =>
      let? operand_pattern :=
        integer_value_to_bit_pattern operand operation_kind in
      let! mask := integer_width_mask width in
      integer_value_from_bit_pattern
        (Z.land (u64 (0 - operand_pattern)) mask) operation_kind
  end.

(** ** Exact arithmetic *)

Inductive CheckedIntegerCastStatus : Set :=
| CHECKED_INTEGER_CAST_VALID
| CHECKED_INTEGER_CAST_OUT_OF_RANGE.

Definition classify_checked_integer_cast (v : IntegerValue)
    (target_kind : TypeKind) : outcome CheckedIntegerCastStatus :=
  assert! is_concrete_integer_kind target_kind;
  let! fits := integer_value_fits_type v target_kind in
  Returned (if negb fits then CHECKED_INTEGER_CAST_OUT_OF_RANGE
            else CHECKED_INTEGER_CAST_VALID).

Definition default_integer_kind_for_value (v : IntegerValue)
    : outcome (option TypeKind) :=
  let! s32 := integer_value_fits_type v TYPE_S32 in
  if s32 then Returned (Some TYPE_S32) else
  let! s64 := integer_value_fits_type v TYPE_S64 in
  if s64 then Returned (Some TYPE_S64) else
  let! fits_u64 := integer_value_fits_type v TYPE_U64 in
  if fits_u64 then Returned (Some TYPE_U64) else
  Returned None.

Definition integer_value_add (left right : IntegerValue) : option IntegerValue :=
  if eqb (is_negative left) (is_negative right) then
    if UINT64_MAX - magnitude left <? magnitude right then None
    else Some (integer_value_make (u64 (magnitude left + magnitude right))
                                  (is_negative left))
  else if magnitude right <=? magnitude left then
    Some (integer_value_make (magnitude left - magnitude right)
                             (is_negative left))
  else
    Some (integer_value_make (magnitude right - magnitude left)
                             (is_negative right)).

Definition integer_value_subtract (left right : IntegerValue)
    : option IntegerValue :=
  integer_value_add left (integer_value_negated right).

Definition integer_value_multiply (left right : IntegerValue)
    : option IntegerValue :=
  if negb (magnitude left =? 0)
     && (UINT64_MAX / magnitude left <? magnitude right)
  then None
  else Some (integer_value_make (u64 (magnitude left * magnitude right))
               (negb (eqb (is_negative left) (is_negative right)))).

Inductive CheckedIntegerArithmeticStatus : Set :=
| CHECKED_INTEGER_ARITHMETIC_VALID
| CHECKED_INTEGER_ARITHMETIC_OVERFLOW.

Definition classify_checked_integer_result (v : IntegerValue)
    (operation_kind : TypeKind) : outcome CheckedIntegerArithmeticStatus :=
  assert! is_concrete_integer_kind operation_kind;
  let! fits := integer_value_fits_type v operation_kind in
  Returned (if negb fits then CHECKED_INTEGER_ARITHMETIC_OVERFLOW
            else CHECKED_INTEGER_ARITHMETIC_VALID).

(** The status and, when it is [VALID], the value written to [*out]. *)
Definition checked_out (v : IntegerValue) (status : CheckedIntegerArithmeticStatus)
    : CheckedIntegerArithmeticStatus * option IntegerValue :=
  match status with
  | CHECKED_INTEGER_ARITHMETIC_VALID => (status, Some v)
  | _ => (status, None)
  end.

Definition evaluate_checked_integer_binary (operation : TokenType)
    (left right : IntegerValue) (operation_kind : TypeKind)
    : outcome (CheckedIntegerArithmeticStatus * option IntegerValue) :=
  assert! is_concrete_integer_kind operation_kind;
  let! left_fits := integer_value_fits_type left operation_kind in
  assert! left_fits;
  let! right_fits := integer_value_fits_type right operation_kind in
  assert! right_fits;
  let! exact_result :=
    match operation with
    | TOK_PLUS => Returned (integer_value_add left right)
    | TOK_MINUS => Returned (integer_value_subtract left right)
    | TOK_STAR => Returned (integer_value_multiply left right)
    | _ => Aborted
    end in
  match exact_result with
  | None => Returned (CHECKED_INTEGER_ARITHMETIC_OVERFLOW, None)
  | Some v =>
      let! status := classify_checked_integer_result v operation_kind in
      Returned (checked_out v status)
  end.

Definition evaluate_checked_integer_negation (operand : IntegerValue)
    (operation_kind : TypeKind)
    : outcome (CheckedIntegerArithmeticStatus * option IntegerValue) :=
  assert! is_signed_integer_kind operation_kind;
  let v := integer_value_negated operand in
  let! status := classify_checked_integer_result v operation_kind in
  Returned (checked_out v status).

Definition signed_integer_min_magnitude (kind : TypeKind) : option Z :=
  match integer_type_info kind with
  | Some info => if is_signed info then Some (one_shl (bit_width info - 1)) else None
  | None => None
  end.

Inductive IntegerDivisionStatus : Set :=
| INTEGER_DIVISION_VALID
| INTEGER_DIVISION_ZERO_DIVISOR
| INTEGER_DIVISION_SIGNED_OVERFLOW.

Definition classify_integer_division (left right : IntegerValue)
    (result_kind : TypeKind) : outcome IntegerDivisionStatus :=
  assert! is_concrete_integer_kind result_kind;
  if magnitude right =? 0 then Returned INTEGER_DIVISION_ZERO_DIVISOR
  else
    match signed_integer_min_magnitude result_kind with
    | Some minimum_magnitude =>
        if is_negative left && (magnitude left =? minimum_magnitude)
           && is_negative right && (magnitude right =? 1)
        then Returned INTEGER_DIVISION_SIGNED_OVERFLOW
        else Returned INTEGER_DIVISION_VALID
    | None => Returned INTEGER_DIVISION_VALID
    end.

(** ** Specification *)

(** The integer a sign-and-magnitude pair denotes. *)
Definition value_of (v : IntegerValue) : Z :=
  if is_negative v then - magnitude v else magnitude v.

(** The representation invariant of [IntegerValue]: a [uint64_t] magnitude and no
    negative zero. *)
Definition canonical (v : IntegerValue) : Prop :=
  0 <= magnitude v < 2 ^ 64 /\ (is_negative v = true -> magnitude v <> 0).

(** The canonical representation of an integer. *)
Definition of_value (z : Z) : IntegerValue :=
  mkIntegerValue (Z.abs z) (z <? 0).

Definition type_min (info : IntegerTypeInfo) : Z :=
  if is_signed info then - 2 ^ (bit_width info - 1) else 0.

Definition type_max (info : IntegerTypeInfo) : Z :=
  if is_signed info then 2 ^ (bit_width info - 1) - 1
  else 2 ^ bit_width info - 1.

Definition in_range (info : IntegerTypeInfo) (z : Z) : Prop :=
  type_min info <= z <= type_max info.

#[global] Instance in_range_dec info z : Decision (in_range info z).
Proof. unfold in_range. apply _. Defined.

(** Reduction of an integer into the range of a type, modulo [2 ^ width]. *)
Definition wrap (info : IntegerTypeInfo) (z : Z) : Z :=
  if is_signed info
  then (z + 2 ^ (bit_width info - 1)) mod 2 ^ bit_width info
       - 2 ^ (bit_width info - 1)
  else z mod 2 ^ bit_width info.

(** ** Lemmas on the specification *)

Definition valid_info (info : IntegerTypeInfo) : Prop :=
  1 < bit_width info <= 64.

Lemma integer_type_info_valid k info :
  integer_type_info k = Some info -> valid_info info.
Proof. destruct k; intros [= <-]; unfold valid_info; simpl; lia. Qed.

#[export] Hint Resolve integer_type_info_valid : coglet.

Lemma pow2_half w : 1 < w -> 2 ^ w = 2 * 2 ^ (w - 1) /\ 0 < 2 ^ (w - 1).
Proof.
  intros. split.
  - rewrite <- Z.pow_succ_r by lia. f_equal. lia.
  - apply pow2_pos. lia.
Qed.

(** The power-of-two facts of a valid width, for [lia]. *)
Ltac width_facts info :=
  match goal with
  | H : valid_info info |- _ =>
      let Ha := fresh "Hpow" in let Hb := fresh "Hhalf" in
      let Hc := fresh "Hle" in
      destruct (pow2_half (bit_width info) ltac:(unfold valid_info in H; lia))
        as [Ha Hb];
      assert (Hc : 2 ^ bit_width info <= 2 ^ 64)
        by (apply Z.pow_le_mono_r; unfold valid_info in H; lia)
  end.

Lemma of_value_canonical z : - 2 ^ 64 < z < 2 ^ 64 -> canonical (of_value z).
Proof.
  intros Hz. split; simpl; [lia|]. intros H. to_props. lia.
Qed.

Lemma value_of_of_value z : value_of (of_value z) = z.
Proof. unfold value_of, of_value; simpl. destruct (Z.ltb_spec z 0); lia. Qed.

Lemma canonical_of_value v : canonical v -> v = of_value (value_of v).
Proof.
  destruct v as [m n]. unfold canonical, of_value, value_of; simpl. intros [Hm Hn].
  destruct n.
  - rewrite Z.abs_opp, Z.abs_eq by lia. specialize (Hn eq_refl).
    f_equal. symmetry. apply Z.ltb_lt. lia.
  - rewrite Z.abs_eq by lia. f_equal. symmetry. apply Z.ltb_ge. lia.
Qed.

Lemma value_of_bound v : canonical v -> - 2 ^ 64 < value_of v < 2 ^ 64.
Proof. destruct v as [m n]; unfold canonical, value_of; simpl. destruct n; lia. Qed.

Lemma value_of_make m n : 0 <= m -> value_of (integer_value_make m n) = if n then - m else m.
Proof.
  intros. unfold value_of, integer_value_make; simpl.
  destruct n; rewrite ?andb_true_r, ?andb_false_r; [|done].
  destruct (Z.eqb_spec m 0); simpl; lia.
Qed.

Lemma make_of_value m n :
  0 <= m -> integer_value_make m n = of_value (if n then - m else m).
Proof.
  intros. unfold integer_value_make, of_value.
  destruct n; rewrite ?andb_true_r, ?andb_false_r.
  - rewrite Z.abs_opp, Z.abs_eq by lia. f_equal.
    destruct (Z.eqb_spec m 0), (Z.ltb_spec (- m) 0); simpl; lia || done.
  - rewrite Z.abs_eq by lia. f_equal. symmetry. apply Z.ltb_ge. lia.
Qed.

Lemma value_of_negated v :
  canonical v -> integer_value_negated v = of_value (- value_of v).
Proof.
  intros Hc. unfold integer_value_negated.
  rewrite make_of_value by (destruct Hc; lia).
  unfold value_of. destruct (is_negative v); simpl; f_equal; lia.
Qed.

Lemma in_range_bound info z :
  valid_info info -> in_range info z -> - 2 ^ 64 < z < 2 ^ 64.
Proof.
  intros Hv. width_facts info. unfold in_range, type_min, type_max.
  destruct (is_signed info); lia.
Qed.

Lemma wrap_in_range info z : valid_info info -> in_range info (wrap info z).
Proof.
  intros Hv. width_facts info. unfold in_range, wrap, type_min, type_max.
  destruct (is_signed info).
  - pose proof (Z.mod_pos_bound (z + 2 ^ (bit_width info - 1))
                  (2 ^ bit_width info) ltac:(lia)). lia.
  - pose proof (Z.mod_pos_bound z (2 ^ bit_width info) ltac:(lia)). lia.
Qed.

Lemma wrap_id info z : valid_info info -> in_range info z -> wrap info z = z.
Proof.
  intros Hv. width_facts info. unfold in_range, wrap, type_min, type_max.
  destruct (is_signed info); intros; rewrite Z.mod_small; lia.
Qed.

Lemma wrap_mod info z :
  valid_info info -> wrap info (z mod 2 ^ bit_width info) = wrap info z.
Proof.
  intros Hv. width_facts info. unfold wrap. destruct (is_signed info).
  - by rewrite Zplus_mod_idemp_l.
  - by rewrite Z.mod_mod by lia.
Qed.

(** Two integers with the same residue wrap to the same value. *)
Lemma wrap_congr info a b :
  valid_info info -> a mod 2 ^ bit_width info = b mod 2 ^ bit_width info ->
  wrap info a = wrap info b.
Proof. intros Hv H. by rewrite <- (wrap_mod info a), H, wrap_mod. Qed.

(** [in_range] for a two's complement type in terms of the bits above the sign. *)
Lemma signed_range_shiftr w z :
  0 <= w -> (- 2 ^ w <= z <= 2 ^ w - 1) <-> (Z.shiftr z w = 0 \/ Z.shiftr z w = -1).
Proof.
  intros Hw. rewrite Z.shiftr_div_pow2 by lia. pose proof (pow2_pos w Hw).
  split.
  - intros Hz. destruct (decide (0 <= z)).
    + left. apply Z.div_small. lia.
    + right. symmetry. apply Z.div_unique with (z + 2 ^ w); lia.
  - intros Hd. pose proof (Z.div_mod z (2 ^ w) ltac:(lia)).
    pose proof (Z.mod_pos_bound z (2 ^ w) ltac:(lia)). destruct Hd as [Hd|Hd];
      rewrite Hd in *; lia.
Qed.

Lemma unsigned_range_shiftr w z :
  0 <= w -> (0 <= z <= 2 ^ w - 1) <-> Z.shiftr z w = 0.
Proof.
  intros Hw. rewrite Z.shiftr_div_pow2 by lia. pose proof (pow2_pos w Hw).
  split.
  - intros Hz. apply Z.div_small. lia.
  - intros Hd. pose proof (Z.div_mod z (2 ^ w) ltac:(lia)).
    pose proof (Z.mod_pos_bound z (2 ^ w) ltac:(lia)). rewrite Hd in *. lia.
Qed.

(** The range of a type is closed under a bitwise operator that maps the sign
    fills 0 and -1 to sign fills. *)
Lemma in_range_bitwise info (op : Z -> Z -> Z) a b :
  valid_info info ->
  (forall x y n, Z.shiftr (op x y) n = op (Z.shiftr x n) (Z.shiftr y n)) ->
  op 0 0 = 0 ->
  (op 0 (-1) = 0 \/ op 0 (-1) = -1) -> (op (-1) 0 = 0 \/ op (-1) 0 = -1) ->
  (op (-1) (-1) = 0 \/ op (-1) (-1) = -1) ->
  in_range info a -> in_range info b -> in_range info (op a b).
Proof.
  intros Hv Hsh H00 H01 H10 H11. unfold in_range, type_min, type_max, valid_info in *.
  destruct (is_signed info).
  - rewrite !signed_range_shiftr by lia. rewrite Hsh.
    intros [-> | ->] [-> | ->]; auto.
  - rewrite !unsigned_range_shiftr by lia. rewrite Hsh. by intros -> ->.
Qed.

(** Bitwise operators commute with reduction modulo a power of two. *)
Lemma bitwise_mod_pow2 (op : Z -> Z -> Z) (f : bool -> bool -> bool) a b w :
  0 <= w ->
  (forall x y n, Z.testbit (op x y) n = f (Z.testbit x n) (Z.testbit y n)) ->
  f false false = false ->
  op (a mod 2 ^ w) (b mod 2 ^ w) = op a b mod 2 ^ w.
Proof.
  intros Hw Hop Hf. apply Z.bits_inj'. intros n Hn. rewrite Hop.
  destruct (decide (n < w)).
  - by rewrite !Z.mod_pow2_bits_low, Hop by lia.
  - by rewrite !Z.mod_pow2_bits_high by lia.
Qed.

(** ** Lemmas on the operations *)

Lemma one_shl_pow n : 0 <= n < 64 -> one_shl n = 2 ^ n.
Proof.
  intros. unfold one_shl. rewrite Z.shiftl_1_l. apply u64_small.
  split; [apply Z.pow_nonneg; lia | apply Z.pow_lt_mono_r; lia].
Qed.

Lemma integer_width_mask_pow w :
  1 <= w <= 64 -> integer_width_mask w = Returned (2 ^ w - 1).
Proof.
  intros Hw. unfold integer_width_mask.
  rewrite (proj2 (Z.leb_le 1 w)), (proj2 (Z.leb_le w 64)) by lia. simpl.
  destruct (Z.eqb_spec w 64) as [->|]; [done|].
  rewrite one_shl_pow by lia. rewrite u64_small; [done|].
  assert (2 ^ w <= 2 ^ 64) by (apply Z.pow_le_mono_r; lia).
  pose proof (pow2_pos w ltac:(lia)). lia.
Qed.

Lemma integer_width_mask_info info :
  valid_info info ->
  integer_width_mask (bit_width info) = Returned (2 ^ bit_width info - 1).
Proof. intros Hv. apply integer_width_mask_pow. unfold valid_info in Hv. lia. Qed.

Lemma one_shl_info info :
  valid_info info -> one_shl (bit_width info - 1) = 2 ^ (bit_width info - 1).
Proof. intros Hv. apply one_shl_pow. unfold valid_info in Hv. lia. Qed.

Lemma kind_not_untyped k info :
  integer_type_info k = Some info -> k <> TYPE_UNTYPED_INT.
Proof. by destruct k. Qed.

Section with_kind.

Context (k : TypeKind) (info : IntegerTypeInfo).
Hypothesis Hk : integer_type_info k = Some info.

Let Hv : valid_info info := integer_type_info_valid k info Hk.

Lemma concrete_kind : is_concrete_integer_kind k = true.
Proof. unfold is_concrete_integer_kind. rewrite Hk. apply bool_decide_eq_true. eauto. Qed.

Lemma kind_width : integer_kind_bit_width k = Some (bit_width info).
Proof. unfold integer_kind_bit_width. by rewrite Hk. Qed.

Lemma fits_spec v :
  canonical v ->
  integer_value_fits_type v k = Returned (bool_decide (in_range info (value_of v))).
Proof using Hv.
  intros [Hm Hz]. unfold integer_value_fits_type.
  rewrite bool_decide_eq_false_2 by (eapply kind_not_untyped; eauto).
  rewrite Hk, integer_width_mask_info, one_shl_info by done. width_facts info.
  destruct (bool_decide_reflect (in_range info (value_of v))) as [Hr|Hr];
    unfold in_range, type_min, type_max, value_of in Hr;
    destruct (is_signed info), (is_negative v); simpl in *; f_equal;
    try (specialize (Hz eq_refl));
    first [apply Z.leb_le | apply Z.ltb_lt | apply Z.leb_gt | apply Z.ltb_ge | idtac];
    try done; lia.
Qed.

Lemma fits_true v :
  canonical v -> in_range info (value_of v) ->
  integer_value_fits_type v k = Returned true.
Proof using Hv. intros. rewrite fits_spec by done. f_equal. by apply bool_decide_eq_true. Qed.

(** Two's complement negation of a magnitude, masked to [w] bits. *)
Lemma neg_pattern m w :
  0 <= w <= 64 -> u64 (not64 m + 1) mod 2 ^ w = (- m) mod 2 ^ w.
Proof.
  intros Hw. unfold u64, not64.
  rewrite mod_pow2_mod by lia.
  replace (Z.lnot m) with (- m - 1) by (unfold Z.lnot; lia).
  unfold u64. rewrite <- (mod_pow2_mod _ w 64) by lia.
  rewrite Zplus_mod_idemp_l. rewrite mod_pow2_mod by lia. f_equal. lia.
Qed.

Lemma to_bit_pattern_spec v :
  canonical v ->
  integer_value_to_bit_pattern v k =
    Returned (if bool_decide (in_range info (value_of v))
              then Some (value_of v mod 2 ^ bit_width info) else None).
Proof using Hv.
  intros Hc. unfold integer_value_to_bit_pattern.
  rewrite kind_width, fits_spec, integer_width_mask_info by done.
  destruct (bool_decide _); simpl; [|done]. do 2 f_equal.
  unfold valid_info in Hv. unfold value_of. destruct Hc as [Hm _].
  rewrite !land_ones_mod by lia.
  destruct (is_negative v); [by apply neg_pattern; lia | done].
Qed.

Lemma to_bit_pattern_fits v :
  canonical v -> in_range info (value_of v) ->
  integer_value_to_bit_pattern v k =
    Returned (Some (value_of v mod 2 ^ bit_width info)).
Proof using Hv. intros. rewrite to_bit_pattern_spec by done. by rewrite bool_decide_eq_true_2. Qed.

Lemma from_bit_pattern_spec p :
  integer_value_from_bit_pattern p k = Returned (Some (of_value (wrap info p))).
Proof using Hv.
  unfold integer_value_from_bit_pattern.
  rewrite kind_width, integer_width_mask_info by done. simpl.
  unfold is_signed_integer_kind. rewrite Hk, one_shl_info by done.
  rewrite !land_ones_mod by (unfold valid_info in Hv; lia).
  rewrite <- (wrap_mod info p) by done. width_facts info.
  pose proof (Z.mod_pos_bound p (2 ^ bit_width info) ltac:(lia)) as Hp.
  set (q := p mod 2 ^ bit_width info) in *.
  assert (Hq : 0 <= q < 2 ^ 64) by lia.
  unfold wrap. destruct (is_signed info); simpl.
  - rewrite land_sign_bit by (unfold valid_info in Hv; lia).
    destruct (Z.ltb_spec q (2 ^ (bit_width info - 1))); simpl; do 2 f_equal.
    + rewrite make_of_value by lia. rewrite Z.mod_small by lia. f_equal. lia.
    + rewrite neg_pattern by (unfold valid_info in Hv; lia).
      assert (Hneg : (- q) mod 2 ^ bit_width info = 2 ^ bit_width info - q).
      { rewrite Z_mod_nz_opp_full; rewrite ?(Z.mod_small q) by lia; lia. }
      rewrite Hneg, make_of_value by lia. f_equal.
      assert (Hm : (q + 2 ^ (bit_width info - 1)) mod 2 ^ bit_width info
                   = q - 2 ^ (bit_width info - 1)).
      { symmetry. apply Z.mod_unique with 1; lia. }
      lia.
  - rewrite make_of_value by lia. rewrite (Z.mod_small q) by lia. done.
Qed.

End with_kind.

(** Exact operations: the representation of the result, or [None] when its
    magnitude needs more than 64 bits. *)
Definition exact (z : Z) : option IntegerValue :=
  if Z.abs z <? 2 ^ 64 then Some (of_value z) else None.

Lemma exact_some z v : exact z = Some v -> v = of_value z /\ - 2 ^ 64 < z < 2 ^ 64.
Proof.
  unfold exact. destruct (Z.ltb_spec (Z.abs z) (2 ^ 64)); intros [= <-].
  split; [done | lia].
Qed.

Lemma integer_value_add_exact a b :
  canonical a -> canonical b ->
  integer_value_add a b = exact (value_of a + value_of b).
Proof.
  intros [Ha _] [Hb _]. unfold integer_value_add, exact, value_of, UINT64_MAX.
  destruct (is_negative a), (is_negative b); simpl;
    repeat match goal with
    | |- context [Z.leb ?x ?y] => destruct (Z.leb_spec x y)
    | |- context [Z.ltb ?x ?y] => destruct (Z.ltb_spec x y)
    end; try lia; try done; f_equal;
    rewrite ?u64_small by lia; rewrite make_of_value by lia; f_equal; lia.
Qed.

Lemma negated_canonical v : canonical v -> canonical (integer_value_negated v).
Proof.
  intros Hc. rewrite value_of_negated by done. apply of_value_canonical.
  pose proof (value_of_bound v Hc). lia.
Qed.

Lemma integer_value_subtract_exact a b :
  canonical a -> canonical b ->
  integer_value_subtract a b = exact (value_of a - value_of b).
Proof.
  intros Ha Hb. unfold integer_value_subtract.
  rewrite integer_value_add_exact by auto using negated_canonical.
  by rewrite value_of_negated, value_of_of_value, Z.add_opp_r.
Qed.

Lemma integer_value_multiply_exact a b :
  canonical a -> canonical b ->
  integer_value_multiply a b = exact (value_of a * value_of b).
Proof.
  intros [Ha _] [Hb _]. unfold integer_value_multiply, exact.
  assert (Habs : Z.abs (value_of a * value_of b) = magnitude a * magnitude b).
  { rewrite Z.abs_mul. unfold value_of.
    destruct (is_negative a), (is_negative b); rewrite ?Z.abs_opp, !Z.abs_eq by lia; done. }
  rewrite Habs.
  assert (Hover : negb (magnitude a =? 0) && (UINT64_MAX / magnitude a <? magnitude b)
                  = negb (magnitude a * magnitude b <? 2 ^ 64)).
  { destruct (Z.eqb_spec (magnitude a) 0) as [->|Hnz]; simpl negb; simpl andb; [done|].
    pose proof (Z.mul_div_le UINT64_MAX (magnitude a) ltac:(lia)).
    pose proof (Z.mul_succ_div_gt UINT64_MAX (magnitude a) ltac:(lia)).
    unfold UINT64_MAX in *.
    destruct (Z.ltb_spec ((2 ^ 64 - 1) / magnitude a) (magnitude b)),
      (Z.ltb_spec (magnitude a * magnitude b) (2 ^ 64)); simpl; nia || done. }
  rewrite Hover. destruct (Z.ltb_spec (magnitude a * magnitude b) (2 ^ 64)); simpl; [|done].
  f_equal. rewrite u64_small by nia. rewrite make_of_value by nia. f_equal.
  unfold value_of. destruct (is_negative a), (is_negative b); simpl; lia.
Qed.

(** Logical complement of a pattern is [-1 - z] modulo [2 ^ w]. *)
Lemma not_pattern z w :
  0 <= w <= 64 -> not64 (z mod 2 ^ w) mod 2 ^ w = Z.lnot z mod 2 ^ w.
Proof.
  intros Hw. unfold not64, u64. rewrite mod_pow2_mod by lia.
  replace (Z.lnot (z mod 2 ^ w)) with (-1 - z mod 2 ^ w) by (unfold Z.lnot; lia).
  replace (Z.lnot z) with (-1 - z) by (unfold Z.lnot; lia).
  by rewrite Zminus_mod_idemp_r.
Qed.

(** Filling the vacated high bits of a shifted negative pattern. *)
Lemma sign_fill_pattern q w n :
  0 < n < w -> 0 <= q < 2 ^ w -> 2 ^ (w - 1) <= q ->
  Z.lor (Z.shiftr q n) (Z.lxor (2 ^ w - 1) (Z.shiftr (2 ^ w - 1) n))
  = Z.shiftr (q - 2 ^ w) n mod 2 ^ w.
Proof.
  intros Hn Hq Hs. replace (2 ^ w - 1) with (Z.ones w) by (rewrite Z.ones_equiv; lia).
  assert (Hsub : forall i, 0 <= i ->
            Z.testbit (q - 2 ^ w) i = if decide (i < w) then Z.testbit q i else true).
  { intros i Hi. case_decide.
    - rewrite <- (Z.mod_pow2_bits_low (q - 2 ^ w) w) by lia.
      replace (q - 2 ^ w) with (q + (-1) * 2 ^ w) by lia.
      rewrite Z_mod_plus_full. by rewrite Z.mod_pow2_bits_low by lia.
    - rewrite Z.testbit_odd, Z.shiftr_div_pow2 by lia.
      assert (2 ^ w <= 2 ^ i) by (apply Z.pow_le_mono_r; lia).
      replace ((q - 2 ^ w) / 2 ^ i) with (-1); [done|].
      apply Z.div_unique with (q - 2 ^ w + 2 ^ i); lia. }
  apply Z.bits_inj'. intros i Hi.
  rewrite Z.lor_spec, Z.lxor_spec, !Z.shiftr_spec by lia.
  destruct (decide (i < w)).
  - rewrite Z.mod_pow2_bits_low, Z.shiftr_spec, Hsub by lia.
    rewrite (Z.ones_spec_low w i) by lia. case_decide.
    + rewrite (Z.ones_spec_low w (i + n)) by lia. by rewrite orb_false_r.
    + rewrite (Z.ones_spec_high w (i + n)) by lia. by rewrite orb_true_r.
  - rewrite Z.mod_pow2_bits_high by lia.
    rewrite !(Z.ones_spec_high w) by lia.
    by rewrite (testbit_high_mod q w) by lia.
Qed.

(** The value of an in-range negative number is its pattern minus [2 ^ w]. *)
Lemma signed_pattern info z :
  valid_info info -> is_signed info = true -> in_range info z ->
  z = if z mod 2 ^ bit_width info <? 2 ^ (bit_width info - 1)
      then z mod 2 ^ bit_width info
      else z mod 2 ^ bit_width info - 2 ^ bit_width info.
Proof.
  intros Hv Hs Hr. width_facts info. unfold in_range, type_min, type_max in Hr.
  rewrite Hs in Hr. destruct (decide (0 <= z)).
  - rewrite Z.mod_small by lia. split_tests.
  - assert (Hm : z mod 2 ^ bit_width info = z + 2 ^ bit_width info).
    { symmetry. apply Z.mod_unique with (-1); lia. }
    rewrite Hm. split_tests.
Qed.

(** The quotient of two in-range integers leaves the range only for [MIN / -1]. *)
Lemma quot_range info a b :
  valid_info info -> in_range info a -> in_range info b -> b <> 0 ->
  in_range info (Z.quot a b) <->
    ~ (is_signed info = true /\ a = type_min info /\ b = -1).
Proof.
  intros Hv Ha Hb Hnz. width_facts info. unfold in_range, type_min, type_max in *.
  assert (Habs : Z.abs (Z.quot a b) <= Z.abs a).
  { rewrite <- Z.quot_abs by done. apply Z.quot_le_upper_bound; nia. }
  destruct (is_signed info).
  - split.
    + intros Hr [_ [-> ->]]. change (-1) with (- (1)) in Hr.
      rewrite Z.quot_opp_r, Z.quot_1_r in Hr by lia. lia.
    + intros Hn. destruct (decide (b = -1)) as [->|Hb1].
      { change (-1) with (- (1)). rewrite Z.quot_opp_r, Z.quot_1_r by lia.
        assert (a <> - 2 ^ (bit_width info - 1)) by (intros ->; apply Hn; auto). lia. }
      destruct (decide (Z.abs (Z.quot a b) < 2 ^ (bit_width info - 1))); [lia|].
      assert (Z.abs a = 2 ^ (bit_width info - 1)) as Hmin by lia.
      assert (b = 1) as ->.
      { destruct (decide (Z.abs b < 2)); [lia|].
        rewrite <- Z.quot_abs in * by done.
        assert (Z.abs a ÷ Z.abs b <= Z.abs a ÷ 2) by
          (apply Z.quot_le_compat_l; lia).
        rewrite Z.quot_div_nonneg in * by lia.
        assert (Z.abs a / 2 < Z.abs a) by (apply Z.div_lt; lia).
        rewrite !Z.quot_div_nonneg in * by lia. lia. }
      rewrite Z.quot_1_r. lia.
  - split; [intros _ [? _]; done|]. intros _.
    rewrite Z.abs_eq in Habs by (apply Z.quot_pos; lia).
    split; [apply Z.quot_pos; lia | lia].
Qed.

Section operations.

Context (k : TypeKind) (info : IntegerTypeInfo).
Hypothesis Hk : integer_type_info k = Some info.

Let Hv : valid_info info := integer_type_info_valid k info Hk.

Lemma classify_result_spec v :
  canonical v ->
  classify_checked_integer_result v k =
    Returned (if bool_decide (in_range info (value_of v))
              then CHECKED_INTEGER_ARITHMETIC_VALID
              else CHECKED_INTEGER_ARITHMETIC_OVERFLOW).
Proof using Hk.
  intros Hc. unfold classify_checked_integer_result.
  rewrite (concrete_kind k info), (fits_spec k info) by done. simpl.
  by destruct (bool_decide _).
Qed.

Lemma range_bound v : in_range info v -> - 2 ^ 64 < v < 2 ^ 64.
Proof using Hv. by apply in_range_bound. Qed.

(** The checked result of an exact computation. *)
Definition checked (z : Z) : CheckedIntegerArithmeticStatus * option IntegerValue :=
  if bool_decide (in_range info z)
  then (CHECKED_INTEGER_ARITHMETIC_VALID, Some (of_value z))
  else (CHECKED_INTEGER_ARITHMETIC_OVERFLOW, None).

Lemma checked_exact z :
  match exact z with
  | None => Returned (CHECKED_INTEGER_ARITHMETIC_OVERFLOW, None)
  | Some v =>
      let! status := classify_checked_integer_result v k in
      Returned (checked_out v status)
  end = Returned (checked z).
Proof using Hv.
  unfold exact, checked. destruct (Z.ltb_spec (Z.abs z) (2 ^ 64)).
  - rewrite classify_result_spec, value_of_of_value by (apply of_value_canonical; lia).
    simpl. by destruct (bool_decide _).
  - rewrite bool_decide_eq_false_2; [done|].
    intros Hr. apply range_bound in Hr. lia.
Qed.

Lemma shift_left_spec v count :
  canonical v -> in_range info (value_of v) -> 0 <= count < bit_width info ->
  integer_value_shift v k TOK_SHIFT_LEFT count
  = Returned (Some (of_value (wrap info (value_of v * 2 ^ count)))).
Proof using Hv.
  intros Hc Hr Hn. unfold integer_value_shift.
  rewrite (kind_width k info), (to_bit_pattern_fits k info),
    integer_width_mask_info by done.
  rewrite (proj2 (Z.leb_gt _ _)) by lia. simpl.
  rewrite (from_bit_pattern_spec k info) by done. do 3 f_equal.
  unfold valid_info in Hv. rewrite land_ones_mod, Z.shiftl_mul_pow2 by lia.
  unfold u64. rewrite mod_pow2_mod by lia. rewrite Zmult_mod_idemp_l. by apply wrap_mod.
Qed.

Lemma shift_right_range z count :
  0 <= count -> in_range info z -> in_range info (Z.shiftr z count).
Proof using Hv.
  intros Hc Hr. width_facts info. rewrite Z.shiftr_div_pow2 by lia.
  pose proof (pow2_pos count Hc).
  unfold in_range, type_min, type_max in *.
  split.
  - apply Z.div_le_lower_bound; [lia|]. destruct (is_signed info); nia.
  - apply Z.div_le_upper_bound; [lia|]. destruct (is_signed info); nia.
Qed.

Lemma shift_right_spec v count :
  canonical v -> in_range info (value_of v) -> 0 <= count < bit_width info ->
  integer_value_shift v k TOK_SHIFT_RIGHT count
  = Returned (Some (of_value (value_of v / 2 ^ count))).
Proof using Hv.
  intros Hc Hr Hn. unfold integer_value_shift.
  rewrite (kind_width k info), (to_bit_pattern_fits k info),
    integer_width_mask_info by done.
  rewrite (proj2 (Z.leb_gt _ _)) by lia. simpl.
  rewrite !(from_bit_pattern_spec k info) by done. do 3 f_equal.
  rewrite <- Z.shiftr_div_pow2 by lia.
  rewrite <- (wrap_id info (Z.shiftr (value_of v) count))
    by (done || apply shift_right_range; lia || done).
  unfold is_signed_integer_kind. rewrite Hk, one_shl_info by done.
  width_facts info. unfold valid_info in Hv.
  set (z := value_of v) in *.
  pose proof (Z.mod_pos_bound z (2 ^ bit_width info) ltac:(lia)) as Hq.
  rewrite land_sign_bit by lia.
  destruct (is_signed info) eqn:Hs; rewrite ?andb_true_r, ?andb_false_r; simpl.
  - pose proof (signed_pattern info z Hv Hs Hr) as Hz.
    destruct (Z.ltb_spec (z mod 2 ^ bit_width info) (2 ^ (bit_width info - 1)));
      rewrite ?andb_false_r, ?andb_true_r.
    { by rewrite Hz at 2. }
    destruct (Z.eqb_spec count 0) as [->|]; simpl.
    { rewrite !Z.shiftr_0_r. by apply wrap_mod. }
    rewrite sign_fill_pattern by lia. rewrite wrap_mod by done. by rewrite <- Hz.
  - f_equal. f_equal. unfold in_range, type_min, type_max in Hr. rewrite Hs in Hr.
    by rewrite Z.mod_small by lia.
Qed.

End operations.

(** ** Properties *)



(** [truncate] keeps the low bits of any integer constant, in range or not:
    the result is the value of the target kind congruent to it modulo
    [2 ^ width]. *)
Lemma truncate_integer_value_wraps k info v :
  integer_type_info k = Some info -> canonical v ->
  truncate_integer_value v k = Returned (Some (of_value (wrap info (value_of v)))).
Proof.
  intros Hk [Hm Hz]. pose proof (integer_type_info_valid k info Hk) as Hv.
  unfold truncate_integer_value.
  rewrite (kind_width k info), integer_width_mask_info by done. simpl.
  rewrite (from_bit_pattern_spec k info) by done. do 3 f_equal.
  apply wrap_congr; [done|]. unfold value_of, valid_info in *.
  rewrite !land_ones_mod by lia. destruct (is_negative v).
  - rewrite Z.mod_mod by (pose proof (pow2_pos (bit_width info)); lia).
    unfold u64. rewrite mod_pow2_mod by lia.
    rewrite Zminus_mod_idemp_r. f_equal.
  - by rewrite Z.mod_mod by (pose proof (pow2_pos (bit_width info)); lia).
Qed.

(** The bitwise operators of the constant evaluator are the two's complement
    operators on the mathematical values, for signed and unsigned kinds. *)
Lemma integer_values_bitwise_correct k info a b :
  integer_type_info k = Some info -> canonical a -> canonical b ->
  in_range info (value_of a) -> in_range info (value_of b) ->
  integer_values_bitwise a b k TOK_AND
    = Returned (Some (of_value (Z.land (value_of a) (value_of b))))
  /\ integer_values_bitwise a b k TOK_OR
    = Returned (Some (of_value (Z.lor (value_of a) (value_of b))))
  /\ integer_values_bitwise a b k TOK_XOR
    = Returned (Some (of_value (Z.lxor (value_of a) (value_of b)))).
Proof.
  intros Hk Ha Hb Hra Hrb. pose proof (integer_type_info_valid k info Hk) as Hv.
  assert (0 <= bit_width info) by (unfold valid_info in Hv; lia).
  unfold integer_values_bitwise.
  rewrite !(to_bit_pattern_fits k info) by done. rewrite !otry_some.
  rewrite !(from_bit_pattern_spec k info) by done.
  split_and!; do 3 f_equal.
  - rewrite (bitwise_mod_pow2 Z.land andb) by (auto using Z.land_spec).
    rewrite wrap_mod by done. apply wrap_id; [done|].
    apply (in_range_bitwise info Z.land); auto using Z.shiftr_land.
  - rewrite (bitwise_mod_pow2 Z.lor orb) by (auto using Z.lor_spec).
    rewrite wrap_mod by done. apply wrap_id; [done|].
    apply (in_range_bitwise info Z.lor); auto using Z.shiftr_lor.
  - rewrite (bitwise_mod_pow2 Z.lxor xorb) by (auto using Z.lxor_spec).
    rewrite wrap_mod by done. apply wrap_id; [done|].
    apply (in_range_bitwise info Z.lxor); auto using Z.shiftr_lxor.
Qed.

(** Complement, shifts and their bounds. On an in-range operand [~] is [-1 - z]
    wrapped to the kind, a left shift multiplies by a power of two modulo
    [2 ^ width], a right shift is floor division for signed and unsigned kinds
    alike, and a count outside [0, width) is refused. *)
Lemma integer_value_shift_correct k info v count :
  integer_type_info k = Some info -> canonical v -> in_range info (value_of v) ->
  0 <= count ->
  integer_value_bitwise_not v k
    = Returned (Some (of_value (wrap info (-1 - value_of v))))
  /\ (count < bit_width info ->
      integer_value_shift v k TOK_SHIFT_LEFT count
        = Returned (Some (of_value (wrap info (value_of v * 2 ^ count))))
      /\ integer_value_shift v k TOK_SHIFT_RIGHT count
        = Returned (Some (of_value (value_of v / 2 ^ count))))
  /\ (bit_width info <= count ->
      integer_value_shift v k TOK_SHIFT_LEFT count = Returned None
      /\ integer_value_shift v k TOK_SHIFT_RIGHT count = Returned None).
Proof.
  intros Hk Hc Hr Hn. pose proof (integer_type_info_valid k info Hk) as Hv.
  split_and!.
  - unfold integer_value_bitwise_not.
    rewrite (kind_width k info), (to_bit_pattern_fits k info),
      integer_width_mask_info by done. simpl.
    rewrite (from_bit_pattern_spec k info) by done. do 3 f_equal.
    unfold valid_info in Hv. rewrite land_ones_mod by lia.
    rewrite not_pattern by lia. rewrite wrap_mod by done.
    f_equal. unfold Z.lnot. lia.
  - intros. split; [by apply shift_left_spec | by eapply shift_right_spec].
  - intros. unfold integer_value_shift. rewrite (kind_width k info) by done.
    by rewrite (proj2 (Z.leb_le _ _)) by lia.
Qed.

(** The wrapping builtins never fail on in-range operands and compute the
    mathematical result modulo [2 ^ width]. *)
Lemma wrapping_builtins_correct k info a b :
  integer_type_info k = Some info -> canonical a -> canonical b ->
  in_range info (value_of a) -> in_range info (value_of b) ->
  evaluate_wrapping_integer_binary BUILTIN_WRAPPING_ADD a b k
    = Returned (Some (of_value (wrap info (value_of a + value_of b))))
  /\ evaluate_wrapping_integer_binary BUILTIN_WRAPPING_SUB a b k
    = Returned (Some (of_value (wrap info (value_of a - value_of b))))
  /\ evaluate_wrapping_integer_binary BUILTIN_WRAPPING_MUL a b k
    = Returned (Some (of_value (wrap info (value_of a * value_of b))))
  /\ evaluate_wrapping_integer_negation a k
    = Returned (Some (of_value (wrap info (- value_of a)))).
Proof.
  intros Hk Ha Hb Hra Hrb. pose proof (integer_type_info_valid k info Hk) as Hv.
  unfold evaluate_wrapping_integer_binary, evaluate_wrapping_integer_negation.
  rewrite (concrete_kind k info), (kind_width k info) by done.
  simpl. rewrite !(to_bit_pattern_fits k info), integer_width_mask_info by done. simpl.
  rewrite !(from_bit_pattern_spec k info) by done.
  unfold valid_info in Hv. rewrite !land_ones_mod by lia.
  unfold u64. rewrite !mod_pow2_mod by lia.
  split_and!; do 3 f_equal; rewrite wrap_mod by done; apply wrap_congr; try done.
  - symmetry. apply Zplus_mod.
  - symmetry. apply Zminus_mod.
  - symmetry. apply Zmult_mod.
  - rewrite Zminus_mod_idemp_r. f_equal.
Qed.

(** Checked negation needs only that the kind is signed: its operand may lie outside. *)
Lemma checked_negation_correct k info a :
  integer_type_info k = Some info -> is_signed info = true -> canonical a ->
  evaluate_checked_integer_negation a k = Returned (checked info (- value_of a)).
Proof.
  intros Hk Hs Ha.
  unfold evaluate_checked_integer_negation, is_signed_integer_kind. rewrite Hk, Hs. simpl.
  rewrite <- (checked_exact k info Hk). unfold exact.
  rewrite value_of_negated by done.
  pose proof (value_of_bound a Ha). by rewrite (proj2 (Z.ltb_lt _ _)) by lia.
Qed.

(** Checked arithmetic: on operands that fit the kind, addition, subtraction and
    multiplication never abort; they yield the mathematical result
    when it fits the kind and report overflow otherwise, also when the exact result
    exceeds the evaluator's own 64-bit magnitude. *)
Lemma checked_arithmetic_correct k info a b :
  integer_type_info k = Some info -> canonical a -> canonical b ->
  in_range info (value_of a) -> in_range info (value_of b) ->
  evaluate_checked_integer_binary TOK_PLUS a b k
    = Returned (checked info (value_of a + value_of b))
  /\ evaluate_checked_integer_binary TOK_MINUS a b k
    = Returned (checked info (value_of a - value_of b))
  /\ evaluate_checked_integer_binary TOK_STAR a b k
    = Returned (checked info (value_of a * value_of b)).
Proof.
  intros Hk Ha Hb Hra Hrb. unfold evaluate_checked_integer_binary.
  rewrite (concrete_kind k info) by done. simpl.
  rewrite !(fits_true k info) by done. simpl.
  rewrite integer_value_add_exact, integer_value_subtract_exact,
    integer_value_multiply_exact by done.
  split_and!; by apply checked_exact.
Qed.

(** Division and remainder are admitted exactly when the quotient exists and fits
    the kind: the classifier reports a zero divisor, the single overflowing case
    [MIN / -1] of signed kinds, and nothing else. *)
Lemma classify_integer_division_correct k info a b :
  integer_type_info k = Some info -> canonical a -> canonical b ->
  in_range info (value_of a) -> in_range info (value_of b) ->
  classify_integer_division a b k =
    Returned (if decide (value_of b = 0) then INTEGER_DIVISION_ZERO_DIVISOR
              else if decide (in_range info (Z.quot (value_of a) (value_of b)))
              then INTEGER_DIVISION_VALID else INTEGER_DIVISION_SIGNED_OVERFLOW).
Proof.
  intros Hk Ha Hb Hra Hrb. pose proof (integer_type_info_valid k info Hk) as Hv.
  unfold classify_integer_division, signed_integer_min_magnitude.
  rewrite (concrete_kind k info), Hk, one_shl_info by done. simpl.
  assert (Hz : magnitude b = 0 <-> value_of b = 0).
  { unfold value_of. destruct (is_negative b); lia. }
  destruct (Z.eqb_spec (magnitude b) 0) as [H0|H0]; case_decide; try tauto.
  pose proof (quot_range info (value_of a) (value_of b) Hv Hra Hrb ltac:(done)) as Hq.
  destruct (is_signed info) eqn:Hs.
  - assert (Htest : is_negative a && (magnitude a =? 2 ^ (bit_width info - 1))
                    && is_negative b && (magnitude b =? 1) = true
                    <-> value_of a = type_min info /\ value_of b = -1).
    { unfold type_min. rewrite Hs. width_facts info. destruct Ha, Hb. unfold value_of.
      rewrite !andb_true_iff, !Z.eqb_eq.
      destruct (is_negative a), (is_negative b); intuition lia. }
    destruct (_ && _) eqn:Ht.
    + rewrite decide_False; [done|]. rewrite Hq. tauto.
    + rewrite decide_True; [done|]. apply Hq. intros [_ Hmin].
      apply Htest in Hmin. done.
  - rewrite decide_True; [done|]. apply Hq. intros [Hs' _]. congruence.
Qed.

