(* ===== verification/StringView.v ===== *)
(** Non-owning string views ([src/include/utils/string_view.h]).

    A view is a pointer and a length.  The pointer is represented by the bytes that
    can be read through it ([None] is [NULL]); [data + n] is [drop n].  Reads are
    partial, so a view longer than its memory is visible as a failed read. *)
From S2P Require Import Prelude.

Record StringView : Set := mkStringView {
  sv_data : option (list ascii);
  sv_length : Z;
}.

(** [view.data[index]] *)
Definition char_at (p : option (list ascii)) (i : nat) : option ascii :=
  p ≫= fun mem => mem !! i.

(** [data + n] *)
Definition advance_ptr (p : option (list ascii)) (n : Z) : option (list ascii) :=
  drop (Z.to_nat n) <$> p.

(** The values a loop [for (i = 0; i < n; i++)] gives to [i]. *)
Definition indices (n : Z) : list nat := seq 0 (Z.to_nat n).

Definition string_view (p : option (list ascii)) (n : Z) : StringView :=
  mkStringView p n.

(** The characters of a C string before its terminator. *)
Fixpoint cstr_length (str : list ascii) : nat :=
  match str with
  | [] => 0
  | c :: rest => if decide (c = NUL) then 0%nat else S (cstr_length rest)
  end.

Definition string_view_from_cstr (str : list ascii) : StringView :=
  string_view (Some str) (Z.of_nat (cstr_length str)).

Definition string_view_empty : StringView := string_view None 0.

Definition string_view_is_empty (view : StringView) : bool := sv_length view =? 0.

Definition string_view_at (view : StringView) (index : nat) : option ascii :=
  char_at (sv_data view) index.

(** *** Slicing *)

Definition string_view_substr (view : StringView) (start len : Z) : StringView :=
  if sv_length view <=? start then string_view_empty
  else
    let len := if sv_length view <? u64 (start + len) then sv_length view - start else len in
    string_view (advance_ptr (sv_data view) start) len.

Definition string_view_slice (view : StringView) (start stop : Z) : StringView :=
  if (sv_length view <=? start) || (stop <=? start) then string_view_empty
  else
    let stop := if sv_length view <? stop then sv_length view else stop in
    string_view (advance_ptr (sv_data view) start) (stop - start).

(** *** Comparison and searching *)

Definition chars_equal (a b : option ascii) : bool := bool_decide (a = b).

Definition string_view_equals (a b : StringView) : bool :=
  if negb (sv_length a =? sv_length b) then false
  else forallb (fun i => chars_equal (char_at (sv_data a) i) (char_at (sv_data b) i))
               (indices (sv_length a)).

Definition string_view_equals_cstr (view : StringView) (str : list ascii) : bool :=
  string_view_equals view (string_view_from_cstr str).

Definition string_view_contains (view : StringView) (c : ascii) : bool :=
  existsb (fun i => chars_equal (char_at (sv_data view) i) (Some c)) (indices (sv_length view)).

Definition string_view_find (view : StringView) (c : ascii) : Z :=
  match list_find (fun i => char_at (sv_data view) i = Some c) (indices (sv_length view)) with
  | Some (i, _) => Z.of_nat i
  | None => SIZE_MAX
  end.

Definition string_view_starts_with (view prefix : StringView) : bool :=
  if sv_length view <? sv_length prefix then false
  else forallb (fun i => chars_equal (char_at (sv_data view) i) (char_at (sv_data prefix) i))
               (indices (sv_length prefix)).

Definition string_view_ends_with (view suffix : StringView) : bool :=
  if sv_length view <? sv_length suffix then false
  else
    let offset := Z.to_nat (sv_length view - sv_length suffix) in
    forallb (fun i => chars_equal (char_at (sv_data view) (offset + i))
                                  (char_at (sv_data suffix) i))
            (indices (sv_length suffix)).

(** *** Trimming *)

Definition is_trim_space (c : option ascii) : bool :=
  match c with
  | Some c => bool_decide (c = " "%char) || bool_decide (c = "009"%char)
              || bool_decide (c = NL)
  | None => false
  end.

(** [while (start < view.length && space(view.data[start])) start++;] *)
Fixpoint trim_left_from (view : StringView) (fuel start : nat) : nat :=
  match fuel with
  | O => start
  | S fuel =>
      if (Z.of_nat start <? sv_length view) && is_trim_space (char_at (sv_data view) start)
      then trim_left_from view fuel (S start) else start
  end.

Definition string_view_trim_left (view : StringView) : StringView :=
  let start := Z.of_nat (trim_left_from view (Z.to_nat (sv_length view)) 0) in
  string_view_substr view start (sv_length view - start).

(** [while (end > 0 && space(view.data[end - 1])) end--;] *)
Fixpoint trim_right_from (view : StringView) (stop : nat) : nat :=
  match stop with
  | O => O
  | S n => if is_trim_space (char_at (sv_data view) n) then trim_right_from view n else stop
  end.

Definition string_view_trim_right (view : StringView) : StringView :=
  string_view_slice view 0 (Z.of_nat (trim_right_from view (Z.to_nat (sv_length view)))).

Definition string_view_trim (view : StringView) : StringView :=
  string_view_trim_right (string_view_trim_left view).

(** *** Copying: the returned count and the buffer afterwards. *)
Definition string_view_copy (view : StringView) (buffer : list ascii) (buffer_size : Z)
    : Z * list ascii :=
  if buffer_size =? 0 then (0, buffer)
  else
    let count := if buffer_size <=? sv_length view then buffer_size - 1 else sv_length view in
    let buffer :=
      fold_left (fun buf i => match char_at (sv_data view) i with
                              | Some c => <[i := c]> buf
                              | None => buf
                              end) (indices count) buffer in
    (count, <[Z.to_nat count := NUL]> buffer).

(** ** Specification *)

(** The string a view denotes. *)
Definition contents (v : StringView) : list ascii :=
  take (Z.to_nat (sv_length v)) (default [] (sv_data v)).

(** A usable view: its length fits [size_t] and its memory. *)
Definition wf (v : StringView) : Prop :=
  0 <= sv_length v < 2 ^ 64
  /\ (Z.to_nat (sv_length v) <= length (default [] (sv_data v)))%nat.

Definition trim_space (c : ascii) : Prop := is_trim_space (Some c) = true.

(** ** Lemmas *)

Lemma contents_length v : wf v -> length (contents v) = Z.to_nat (sv_length v).
Proof. intros [_ H]. unfold contents. rewrite length_take. lia. Qed.

Lemma char_at_contents v i :
  (i < Z.to_nat (sv_length v))%nat -> char_at (sv_data v) i = contents v !! i.
Proof.
  intros Hi. unfold contents, char_at. destruct (sv_data v) as [mem|]; simpl.
  - by rewrite lookup_take_lt.
  - by rewrite take_nil.
Qed.

Lemma forallb_indices (f : nat -> bool) n :
  forallb f (indices n) = true <-> forall i, (i < Z.to_nat n)%nat -> f i = true.
Proof.
  unfold indices. rewrite forallb_forall. split.
  - intros H i Hi. apply H, in_seq. lia.
  - intros H i Hi%in_seq. apply H. lia.
Qed.

Lemma forallb_chars_equal (f g : nat -> option ascii) (l1 l2 : list ascii) n :
  length l1 = Z.to_nat n -> length l2 = Z.to_nat n ->
  (forall i, (i < Z.to_nat n)%nat -> f i = l1 !! i) ->
  (forall i, (i < Z.to_nat n)%nat -> g i = l2 !! i) ->
  forallb (fun i => chars_equal (f i) (g i)) (indices n) = true <-> l1 = l2.
Proof.
  intros H1 H2 Hf Hg. rewrite forallb_indices. unfold chars_equal. split.
  - intros H. apply list_eq_same_length with (n := Z.to_nat n); [done..|].
    intros i x y Hi Hx Hy. specialize (H i Hi). rewrite bool_decide_eq_true in H.
    rewrite Hf, Hg in H by done. congruence.
  - intros -> i Hi. rewrite bool_decide_eq_true, Hf, Hg by done. done.
Qed.

Lemma substr_wf v s n :
  wf v -> 0 <= s -> 0 <= n -> s + n < 2 ^ 64 ->
  wf (string_view_substr v s n)
  /\ contents (string_view_substr v s n)
     = take (Z.to_nat n) (drop (Z.to_nat s) (contents v)).
Proof.
  intros [Hlen Hmem] Hs Hn Hov. unfold string_view_substr.
  destruct (Z.leb_spec (sv_length v) s).
  { split; [split; simpl; lia|]. unfold contents; simpl.
    rewrite drop_ge; [by rewrite take_nil|]. rewrite length_take. lia. }
  rewrite u64_small by lia.
  assert (Hd : default [] (advance_ptr (sv_data v) s) = drop (Z.to_nat s) (default [] (sv_data v))).
  { unfold advance_ptr. destruct (sv_data v); simpl; [done | by rewrite drop_nil]. }
  split; [split; simpl; rewrite ?Hd, ?length_drop; destruct (Z.ltb_spec (sv_length v) (s + n)); lia|].
  unfold contents; simpl. rewrite Hd, skipn_firstn_comm, take_take.
  f_equal. destruct (Z.ltb_spec (sv_length v) (s + n)); lia.
Qed.

Lemma slice_wf v s e :
  wf v -> 0 <= s -> 0 <= e ->
  wf (string_view_slice v s e)
  /\ contents (string_view_slice v s e)
     = take (Z.to_nat (e - s)) (drop (Z.to_nat s) (contents v)).
Proof.
  intros [Hlen Hmem] Hs He. unfold string_view_slice.
  destruct (Z.leb_spec (sv_length v) s); simpl.
  { split; [split; simpl; lia|]. unfold contents; simpl.
    rewrite drop_ge; [by rewrite take_nil|]. rewrite length_take. lia. }
  destruct (Z.leb_spec e s).
  { split; [split; simpl; lia|]. unfold contents; simpl.
    by replace (Z.to_nat (e - s)) with 0%nat by lia. }
  assert (Hd : default [] (advance_ptr (sv_data v) s) = drop (Z.to_nat s) (default [] (sv_data v))).
  { unfold advance_ptr. destruct (sv_data v); simpl; [done | by rewrite drop_nil]. }
  split; [split; simpl; rewrite ?Hd, ?length_drop; destruct (Z.ltb_spec (sv_length v) e); lia|].
  unfold contents; simpl. rewrite Hd, skipn_firstn_comm, take_take.
  f_equal. destruct (Z.ltb_spec (sv_length v) e); lia.
Qed.

Lemma trim_left_from_spec v fuel start :
  wf v -> (start + fuel = Z.to_nat (sv_length v))%nat ->
  let r := trim_left_from v fuel start in
  (start <= r <= Z.to_nat (sv_length v))%nat
  /\ Forall trim_space (take (r - start) (drop start (contents v)))
  /\ (forall c, contents v !! r = Some c -> ~ trim_space c).
Proof.
  intros Hwf. revert start. induction fuel as [|fuel IH]; intros start Hsum; simpl.
  { rewrite Nat.sub_diag. split_and!; [lia | lia | constructor |].
    intros c Hc. apply lookup_lt_Some in Hc. rewrite contents_length in Hc by done. lia. }
  assert (Hlt : Z.of_nat start < sv_length v) by lia.
  rewrite (proj2 (Z.ltb_lt _ _)) by done. simpl.
  rewrite char_at_contents by lia.
  destruct (lookup_lt_is_Some_2 (contents v) start) as [c Hc].
  { rewrite contents_length by done. lia. }
  rewrite Hc. destruct (is_trim_space (Some c)) eqn:Hsp.
  - destruct (IH (S start) ltac:(lia)) as ([Hr1 Hr2] & Hall & Hstop).
    split_and!; [lia | lia | | done].
    erewrite drop_S by done.
    replace (trim_left_from v fuel (S start) - start)%nat
      with (S (trim_left_from v fuel (S start) - S start)) by lia.
    simpl. by constructor.
  - rewrite Nat.sub_diag. split_and!; [lia | lia | constructor |].
    intros c' Hc'. rewrite Hc in Hc'. injection Hc' as <-. unfold trim_space. congruence.
Qed.

Lemma trim_right_from_spec v n :
  wf v -> (n <= Z.to_nat (sv_length v))%nat ->
  let r := trim_right_from v n in
  (r <= n)%nat
  /\ Forall trim_space (drop r (take n (contents v)))
  /\ (forall m c, r = S m -> contents v !! m = Some c -> ~ trim_space c).
Proof.
  intros Hwf. induction n as [|n IH]; intros Hn; simpl.
  { split_and!; [lia | constructor | intros; lia]. }
  rewrite char_at_contents by lia.
  destruct (lookup_lt_is_Some_2 (contents v) n) as [c Hc].
  { rewrite contents_length by done. lia. }
  rewrite Hc. destruct (is_trim_space (Some c)) eqn:Hsp.
  - destruct (IH ltac:(lia)) as (Hr & Hall & Hstop).
    split_and!; [lia | | done].
    rewrite (take_S_r _ _ c) by done.
    rewrite drop_app_le by (rewrite length_take, contents_length by done; lia).
    apply Forall_app; split; [done|]. by repeat constructor.
  - split_and!; [lia | | ].
    + rewrite drop_ge; [constructor|]. rewrite length_take. lia.
    + intros m c' [= <-] Hc'. rewrite Hc in Hc'. injection Hc' as <-.
      unfold trim_space. congruence.
Qed.

(** ** Properties *)

(** Slices and comparisons of views are the operations on the strings they
    denote: [slice] selects a range (clamped to the view), [substr] does so when
    [start + length] does not overflow, the results are again well formed, and
    [equals], [starts_with] and [ends_with] decide equality, prefix and suffix. *)
Theorem string_view_operations a b s e :
  wf a -> wf b -> 0 <= s -> 0 <= e -> s + e < 2 ^ 64 ->
  (wf (string_view_slice a s e)
   /\ contents (string_view_slice a s e)
      = take (Z.to_nat (e - s)) (drop (Z.to_nat s) (contents a)))
  /\ (wf (string_view_substr a s e)
      /\ contents (string_view_substr a s e)
         = take (Z.to_nat e) (drop (Z.to_nat s) (contents a)))
  /\ (string_view_equals a b = true <-> contents a = contents b)
  /\ (string_view_starts_with a b = true <-> contents b `prefix_of` contents a)
  /\ (string_view_ends_with a b = true <-> contents b `suffix_of` contents a).
Proof.
  intros Ha Hb Hs He Hov.
  pose proof (contents_length a Ha) as HLa. pose proof (contents_length b Hb) as HLb.
  pose proof Ha as [Hla _]. pose proof Hb as [Hlb _].
  split; [by apply slice_wf|]. split; [by apply substr_wf|]. split_and!.
  - unfold string_view_equals. destruct (Z.eqb_spec (sv_length a) (sv_length b)) as [Heq|Hne]; simpl.
    + rewrite forallb_chars_equal with (l1 := contents a) (l2 := contents b);
        [done | lia | lia | |]; intros i Hi; apply char_at_contents; lia.
    + split; [done|]. intros Heq. rewrite Heq in HLa. lia.
  - unfold string_view_starts_with. destruct (Z.ltb_spec (sv_length a) (sv_length b)).
    { split; [done|]. intros Hp%prefix_length. lia. }
    rewrite forallb_chars_equal with (l1 := take (Z.to_nat (sv_length b)) (contents a))
      (l2 := contents b); [| rewrite length_take; lia | lia | |].
    + rewrite <- HLb. split.
      * intros Heq. exists (drop (length (contents b)) (contents a)).
        rewrite <- Heq at 1. symmetry. apply take_drop.
      * intros [k Hk]. rewrite Hk. apply take_app_length.
    + intros i Hi. rewrite lookup_take_lt by done. apply char_at_contents. lia.
    + intros i Hi. apply char_at_contents. lia.
  - unfold string_view_ends_with. destruct (Z.ltb_spec (sv_length a) (sv_length b)).
    { split; [done|]. intros Hp%suffix_length. lia. }
    rewrite forallb_chars_equal
      with (l1 := drop (Z.to_nat (sv_length a - sv_length b)) (contents a)) (l2 := contents b);
      [| rewrite length_drop; lia | lia | |].
    + split.
      * intros Heq. exists (take (Z.to_nat (sv_length a - sv_length b)) (contents a)).
        rewrite <- Heq. symmetry. apply take_drop.
      * intros [k Hk]. rewrite Hk in HLa |- *. rewrite length_app in HLa.
        apply drop_app_length'. lia.
    + intros i Hi. rewrite lookup_drop. apply char_at_contents. lia.
    + intros i Hi. apply char_at_contents. lia.
Qed.

Lemma string_view_operations_witness :
  contents (string_view_slice (string_view_from_cstr (cstr "std.io")) 4 9)
  = cstr "io".
Proof.
  exact (proj2 (proj1 (string_view_operations (string_view_from_cstr (cstr "std.io"))
           (string_view_from_cstr (cstr "io")) 4 9
           ltac:(split; simpl; lia) ltac:(split; simpl; lia)
           ltac:(lia) ltac:(lia) ltac:(lia)))).
Defined.

(** Trimming removes exactly the surrounding white space: the contents are
    white space, the trimmed string and white space again, and the trimmed string
    neither starts nor ends with white space. *)
Theorem string_view_trim_correct v :
  wf v ->
  wf (string_view_trim v) /\
  exists l r,
    contents v = l ++ contents (string_view_trim v) ++ r
    /\ Forall trim_space l /\ Forall trim_space r
    /\ (forall c, head (contents (string_view_trim v)) = Some c -> ~ trim_space c)
    /\ (forall c, last (contents (string_view_trim v)) = Some c -> ~ trim_space c).
Proof.
  intros Hwf. pose proof Hwf as [Hlen _]. pose proof (contents_length v Hwf) as HL.
  unfold string_view_trim. set (w := string_view_trim_left v).
  destruct (trim_left_from_spec v (Z.to_nat (sv_length v)) 0 Hwf ltac:(lia))
    as ([_ Hs] & Hl & Hstop).
  set (s := trim_left_from v (Z.to_nat (sv_length v)) 0) in *.
  destruct (substr_wf v (Z.of_nat s) (sv_length v - Z.of_nat s)) as [Hww Hwc];
    [done | lia..|].
  change (string_view_substr v (Z.of_nat s) (sv_length v - Z.of_nat s)) with w in Hww, Hwc.
  assert (Hw : contents w = drop s (contents v)).
  { rewrite Hwc, Nat2Z.id, take_ge; [done|]. rewrite length_drop. lia. }
  pose proof (contents_length w Hww) as HLw.
  destruct (trim_right_from_spec w (Z.to_nat (sv_length w)) Hww ltac:(lia))
    as (Hr & Hrs & Hrstop).
  set (r := trim_right_from w (Z.to_nat (sv_length w))) in *.
  destruct (slice_wf w 0 (Z.of_nat r) Hww ltac:(lia) ltac:(lia)) as [Htw Htc].
  change (string_view_slice w 0 (Z.of_nat r)) with (string_view_trim_right w) in Htw, Htc.
  assert (Ht : contents (string_view_trim_right w) = take r (contents w)).
  { rewrite Htc, Z.sub_0_r, Nat2Z.id. done. }
  split; [done|]. exists (take s (contents v)), (drop r (contents w)). split_and!.
  - rewrite Ht, take_drop, Hw. symmetry. apply take_drop.
  - rewrite Nat.sub_0_r in Hl. done.
  - by rewrite <- HLw, take_ge in Hrs by lia.
  - intros c Hc. apply Hstop. rewrite Ht, Hw in Hc.
    destruct r as [|r']; [done|].
    destruct (drop s (contents v)) as [|c' rest] eqn:Hd; [done|].
    injection Hc as <-. rewrite <- (Nat.add_0_r s), <- lookup_drop, Hd. done.
  - intros c Hc. rewrite Ht in Hc. rewrite last_lookup, length_take in Hc.
    destruct r as [|r']; [done|].
    rewrite HLw, Nat.min_l in Hc by lia. simpl in Hc.
    rewrite lookup_take_lt in Hc by lia. by eapply Hrstop.
Qed.

Lemma string_view_trim_correct_witness :
  wf (string_view_trim (string_view_from_cstr (cstr "  std.io ")))
  /\ contents (string_view_trim (string_view_from_cstr (cstr "  std.io "))) = cstr "std.io".
Proof.
  split; [|reflexivity].
  apply (string_view_trim_correct (string_view_from_cstr (cstr "  std.io "))).
  split; simpl; lia.
Defined.

(** [substr] does not guard [start + length] against wrap-around: with
    [length = SIZE_MAX] and a positive [start] the clamp is skipped and the result
    claims [SIZE_MAX] bytes. *)
Example string_view_substr_overflow :
  sv_length (string_view_substr (string_view_from_cstr (cstr "abc")) 1 SIZE_MAX) = SIZE_MAX
  /\ ~ wf (string_view_substr (string_view_from_cstr (cstr "abc")) 1 SIZE_MAX).
Proof.
  split; [reflexivity|]. intros [_ H].
  apply inj_le in H. rewrite Z2Nat.id in H by (vm_compute; discriminate).
  vm_compute in H. by apply H.
Qed.
