(* ===== verification/StringDecode.v ===== *)
(** Decoding of string literal payloads ([src/string_decode.c]).

    The payload of a string token is analysed once ([string_analyze]) and decoded
    into a caller-provided buffer ([string_decode_into]).  The indices and the [int]
    [decoded_length] are bounded by the payload length and are naturals: a payload is
    shorter than [2^31] characters, as the lexer's [int] token lengths require;
    [invalid_offset] keeps its [-1] sentinel as [SIZE_MAX]. *)
From S2P Require Import Prelude.

Record StringDecodeInfo : Set := mkStringDecodeInfo {
  ok : bool;
  decoded_length : nat;
  invalid_offset : Z;
  invalid_escape : ascii;
}.

(** The characters accepted after a backslash, and what they denote. *)
Definition escape_value (c : ascii) : option ascii :=
  if decide (c = "n"%char) then Some NL
  else if decide (c = "t"%char) then Some "009"%char
  else if decide (c = "r"%char) then Some "013"%char
  else if decide (c = "\"%char) then Some "\"%char
  else if decide (c = DQUOTE) then Some DQUOTE
  else if decide (c = "0"%char) then Some NUL
  else None.

(** The loop of [string_analyze] from offset [i], with [rest] the bytes from [i] on
    and [n] the running [info.decoded_length]. *)
Fixpoint analyze_from (rest : list ascii) (i n : nat) : StringDecodeInfo :=
  match rest with
  | [] => mkStringDecodeInfo true n SIZE_MAX NUL
  | c :: rest =>
      if decide (c = "\"%char) then
        match rest with
        | [] => mkStringDecodeInfo false n (Z.of_nat i) NUL
        | e :: rest =>
            match escape_value e with
            | Some _ => analyze_from rest (S (S i)) (S n)
            | None => mkStringDecodeInfo false n (Z.of_nat (S i)) e
            end
        end
      else analyze_from rest (S i) (S n)
  end.

Definition string_analyze (s : list ascii) : StringDecodeInfo := analyze_from s 0 0.

(** The loop of [string_decode_into]: [out] is the write index into [dest]. *)
Fixpoint decode_from (rest : list ascii) (out : nat) (dest : list ascii) : list ascii :=
  match rest with
  | [] => dest
  | c :: rest =>
      if decide (c = "\"%char) then
        match rest with
        | [] => dest
        | e :: rest =>
            match escape_value e with
            | Some v => decode_from rest (S out) (<[out := v]> dest)
            | None => dest
            end
        end
      else decode_from rest (S out) (<[out := c]> dest)
  end.

Definition string_decode_into (s dest : list ascii) : StringDecodeInfo * list ascii :=
  let info := string_analyze s in
  if negb (ok info) then (info, dest) else (info, decode_from s 0 dest).

(** ** Specification *)

(** [decodes s d]: [d] is the string the payload [s] spells. *)
Inductive decodes : list ascii -> list ascii -> Prop :=
| decodes_nil : decodes [] []
| decodes_plain c s d : c <> "\"%char -> decodes s d -> decodes (c :: s) (c :: d)
| decodes_escape e v s d :
    escape_value e = Some v -> decodes s d -> decodes ("\"%char :: e :: s) (v :: d).

(** How a source spells a byte string: the inverse of decoding. *)
Definition encode_char (c : ascii) : list ascii :=
  if decide (c = NL) then cstr "\n"
  else if decide (c = "009"%char) then cstr "\t"
  else if decide (c = "013"%char) then cstr "\r"
  else if decide (c = "\"%char) then cstr "\\"
  else if decide (c = DQUOTE) then ["\"%char; DQUOTE]
  else if decide (c = NUL) then cstr "\0"
  else [c].

Definition encode (d : list ascii) : list ascii := flat_map encode_char d.

(** ** Lemmas *)

Lemma decodes_length s d : decodes s d -> (length d <= length s)%nat.
Proof. induction 1; simpl; lia. Qed.

Lemma analyze_from_decodes s d :
  decodes s d -> forall i n,
  analyze_from s i n = mkStringDecodeInfo true (n + length d) SIZE_MAX NUL.
Proof.
  induction 1; intros i n; simpl.
  - by rewrite Nat.add_0_r.
  - rewrite decide_False by done. rewrite IHdecodes. f_equal. lia.
  - rewrite H. rewrite IHdecodes. f_equal. lia.
Qed.

(** Induction on a payload in the steps of the loops: one plain character or one
    escape pair at a time. *)
Lemma payload_ind (P : list ascii -> Prop) :
  P [] -> P ["\"%char] ->
  (forall c s, c <> "\"%char -> P s -> P (c :: s)) ->
  (forall e s, P s -> P ("\"%char :: e :: s)) ->
  forall s, P s.
Proof.
  intros Hnil Hbs Hplain Hesc s.
  remember (length s) as n eqn:Hn. revert s Hn.
  induction n as [n IH] using lt_wf_ind. intros s ->.
  destruct s as [|c s]; [done|].
  destruct (decide (c = "\"%char)) as [->|Hc].
  - destruct s as [|e s]; [done|]. apply Hesc. by eapply IH; [|done]; simpl; lia.
  - apply Hplain; [done|]. by eapply IH; [|done]; simpl; lia.
Qed.

Lemma analyze_from_ok s : forall i n,
  ok (analyze_from s i n) = true -> exists d, decodes s d.
Proof.
  induction s as [| |c s Hc IH|e s IH] using payload_ind; intros i n; simpl.
  - exists []. constructor.
  - done.
  - rewrite decide_False by done. intros [d Hd]%IH. exists (c :: d). by constructor.
  - destruct (escape_value e) eqn:He; simpl; [|done].
    intros [d Hd]%IH. eexists. by econstructor.
Qed.

(** Where the analysis of an undecodable payload stops. *)
Lemma analyze_from_fail s : forall i n,
  ok (analyze_from s i n) = false ->
  exists p e rest, s = p ++ "\"%char :: rest
    /\ (exists d, decodes p d /\ decoded_length (analyze_from s i n) = (n + length d)%nat)
    /\ ((rest = [] /\ invalid_offset (analyze_from s i n) = Z.of_nat (i + length p)
         /\ invalid_escape (analyze_from s i n) = NUL)
        \/ (exists r, rest = e :: r /\ escape_value e = None
            /\ invalid_offset (analyze_from s i n) = Z.of_nat (i + length p + 1)
            /\ invalid_escape (analyze_from s i n) = e)).
Proof.
  induction s as [| |c s Hc IH|e s IH] using payload_ind; intros i n; simpl.
  - done.
  - intros _. exists [], NUL, []. split; [done|]. split.
    + exists []. split; [constructor|]. simpl. lia.
    + left. split_and!; [done | simpl; lia | done].
  - rewrite decide_False by done. intros H.
    destruct (IH (S i) (S n) H) as (p & e & rest & Hs & (d & Hd & Hlen) & Hcase).
    exists (c :: p), e, rest. split; [by rewrite Hs|]. split.
    + exists (c :: d). split; [by constructor|]. rewrite Hlen. simpl. lia.
    + simpl. destruct Hcase as [(? & Ho & ?)|(r & ? & ? & Ho & ?)].
      * left. split_and!; [done | rewrite Ho; lia | done].
      * right. exists r. split_and!; [done | done | rewrite Ho; lia | done].
  - destruct (escape_value e) as [v|] eqn:He; simpl.
    + intros H.
      destruct (IH (S (S i)) (S n) H) as (p & e' & rest & Hs & (d & Hd & Hlen) & Hcase).
      exists ("\"%char :: e :: p), e', rest. split; [by rewrite Hs|]. split.
      * exists (v :: d). split; [by constructor|]. rewrite Hlen. simpl. lia.
      * simpl. destruct Hcase as [(? & Ho & ?)|(r & ? & ? & Ho & ?)].
        -- left. split_and!; [done | rewrite Ho; lia | done].
        -- right. exists r. split_and!; [done | done | rewrite Ho; lia | done].
    + intros _. exists [], e, (e :: s). split; [done|]. split.
      * exists []. split; [constructor|]. simpl. lia.
      * right. exists s. split_and!; [done | done | simpl; lia | done].
Qed.

Lemma decode_from_decodes s d :
  decodes s d -> forall out dest, (out + length d <= length dest)%nat ->
  decode_from s out dest = take out dest ++ d ++ drop (out + length d) dest.
Proof.
  assert (Hstep : forall (v : ascii) (d dest : list ascii) out,
    (out + S (length d) <= length dest)%nat ->
    take (S out) (<[out := v]> dest) ++ d ++ drop (S out + length d) (<[out := v]> dest)
    = take out dest ++ (v :: d) ++ drop (out + S (length d)) dest).
  { intros v d' dest out Hlen.
    rewrite (take_S_r _ _ v) by (apply list_lookup_insert_eq; lia).
    rewrite take_insert_ge, drop_insert_lt by lia.
    rewrite <- app_assoc. simpl. by replace (out + S (length d'))%nat
      with (S (out + length d')) by lia. }
  induction 1; intros out dest Hlen; simpl.
  - rewrite Nat.add_0_r. symmetry. apply take_drop.
  - rewrite decide_False by done.
    rewrite IHdecodes by (rewrite length_insert; simpl in *; lia). by apply Hstep.
  - rewrite H. rewrite IHdecodes by (rewrite length_insert; simpl in *; lia).
    by apply Hstep.
Qed.

Lemma encode_char_decodes c s d : decodes s d -> decodes (encode_char c ++ s) (c :: d).
Proof.
  intros Hd. unfold encode_char.
  repeat (case_decide; [subst c; by apply decodes_escape|]).
  by apply decodes_plain.
Qed.

Lemma encode_decodes d : decodes (encode d) d.
Proof. induction d; simpl; [constructor | by apply encode_char_decodes]. Qed.

(** ** Properties *)

(** C39. [string_analyze] accepts exactly the decodable payloads, [string_decode_into]
    then writes exactly [decoded_length] bytes (at most the payload length), they are
    the denoted string, and nothing else of the buffer changes; on a malformed payload
    the buffer is untouched and the report points at the offending escape: the
    dangling backslash or the character after it. *)
Theorem string_decode_into_correct s dest :
  (length s <= length dest)%nat ->
  (forall d, decodes s d ->
     string_decode_into s dest
     = (mkStringDecodeInfo true (length d) SIZE_MAX NUL, d ++ drop (length d) dest)
     /\ (length d <= length s)%nat)
  /\ ((forall d, ~ decodes s d) ->
      exists info p rest, string_decode_into s dest = (info, dest) /\ ok info = false
        /\ s = p ++ "\"%char :: rest /\ (exists d, decodes p d)
        /\ match rest with
           | [] => invalid_offset info = Z.of_nat (length p) /\ invalid_escape info = NUL
           | e :: _ => escape_value e = None
                       /\ invalid_offset info = Z.of_nat (length p + 1)
                       /\ invalid_escape info = e
           end).
Proof.
  intros Hroom. unfold string_decode_into, string_analyze. split.
  - intros d Hd. pose proof (decodes_length s d Hd).
    rewrite (analyze_from_decodes s d Hd). simpl.
    rewrite (decode_from_decodes s d Hd) by (simpl; lia). done.
  - intros Hno. destruct (ok (analyze_from s 0 0)) eqn:Hok.
    { destruct (analyze_from_ok s 0 0 Hok) as [d Hd]. by destruct (Hno d). }
    destruct (analyze_from_fail s 0 0 Hok)
      as (p & e & rest & Hs & (d & Hd & _) & Hcase).
    exists (analyze_from s 0 0), p, rest. split_and!; [done..|by exists d|].
    destruct Hcase as [(-> & ? & ?)|(r & -> & ? & Ho & ?)]; [done|].
    split_and!; [done | by rewrite Ho | done].
Qed.

Lemma string_decode_into_correct_witness :
  string_decode_into (cstr "a\n") (cstr "....")
  = (mkStringDecodeInfo true 2 SIZE_MAX NUL, ["a"%char; NL; "."%char; "."%char]).
Proof.
  apply (proj1 (string_decode_into_correct (cstr "a\n") (cstr "....") ltac:(simpl; lia))
           ["a"%char; NL]).
  apply decodes_plain; [discriminate|]. by apply decodes_escape; [|constructor].
Defined.

(** Decoding inverts the spelling of string literals: every byte string has a
    spelling that the analyser accepts and that decodes to it. *)
Theorem encode_decode_roundtrip d dest :
  (length (encode d) <= length dest)%nat ->
  string_decode_into (encode d) dest
  = (mkStringDecodeInfo true (length d) SIZE_MAX NUL, d ++ drop (length d) dest).
Proof.
  intros Hroom. pose proof (encode_decodes d) as Hd.
  pose proof (decodes_length _ _ Hd).
  unfold string_decode_into, string_analyze. rewrite (analyze_from_decodes _ _ Hd). simpl.
  by rewrite (decode_from_decodes _ _ Hd) by (simpl; lia).
Qed.

Lemma encode_decode_roundtrip_witness :
  string_decode_into (encode [NL; NUL; "\"%char]) (cstr "......")
  = (mkStringDecodeInfo true 3 SIZE_MAX NUL, [NL; NUL; "\"%char] ++ cstr "...").
Proof. apply (encode_decode_roundtrip [NL; NUL; "\"%char] (cstr "......")). simpl. lia. Defined.
