(* ===== verification/Arena.v ===== *)
(** The arena allocator ([src/utils/arena.c]).

    An arena is a chain of blocks of which the last one is current.  A block is
    identified by the [malloc] call that created it; a pointer returned to a client is
    a block identity and an offset into the block's storage.  [malloc] is the C
    library's: whether its n-th call succeeds is a parameter, failure exits the
    process.  The bytes stored in the blocks are the clients' business and are not
    represented. *)
From S2P Require Import Prelude.

(** [sizeof(void * )] and [sizeof(ArenaBlock)] of the 64-bit hosts. *)
Definition PTR_SIZE : Z := 8.
Definition BLOCK_HEADER : Z := 24.

Record ArenaBlock : Set := mkBlock {
  b_id : nat;
  used : Z;
  capacity : Z;
  b_storage : Z;   (* bytes really reserved behind [data]: what [malloc] was asked for *)
}.

Record Arena : Set := mkArena {
  blocks : list ArenaBlock;       (* the chain from [first] up to [current] *)
  block_size : Z;
  allocated : Z;
  malloc_calls : nat;             (* names the next block *)
}.

Record ArenaMarker : Set := mkMarker {
  m_block : nat;
  m_used : Z;
}.

Definition ptr : Set := nat * Z.

Section arena.

(** Does the [n]-th [malloc] call, of the given size, return memory? *)
Variable malloc_ok : nat -> Z -> bool.

Definition block_create (n : nat) (cap : Z) : outcome ArenaBlock :=
  let request := u64 (BLOCK_HEADER + cap) in
  if negb (malloc_ok n request) then Aborted
  else Returned (mkBlock n 0 cap (request - BLOCK_HEADER)).

Definition arena_create (bsize : Z) : outcome Arena :=
  let! block := block_create 0 bsize in
  Returned (mkArena [block] bsize 0 1).

Definition align_up (n : Z) : Z :=
  Z.land (u64 (n + PTR_SIZE - 1)) (not64 (PTR_SIZE - 1)).

(** [block->used += size] on the current (last) block; the old [used] is the offset
    of the returned pointer. *)
Definition bump (b : ArenaBlock) (size : Z) : ArenaBlock :=
  mkBlock (b_id b) (u64 (used b + size)) (capacity b) (b_storage b).

Definition arena_alloc (a : Arena) (size : Z) : outcome (option (ptr * Arena)) :=
  let size := align_up size in
  match rev (blocks a) with
  | [] => Returned None            (* no current block: excluded by [arena_create] *)
  | block :: earlier =>
      if capacity block <? u64 (used block + size) then
        let new_capacity := if size <? block_size a then block_size a else size in
        let! new_block := block_create (malloc_calls a) new_capacity in
        Returned (Some ((b_id new_block, used new_block),
          mkArena (blocks a ++ [bump new_block size]) (block_size a)
                  (u64 (allocated a + size)) (S (malloc_calls a))))
      else
        Returned (Some ((b_id block, used block),
          mkArena (rev earlier ++ [bump block size]) (block_size a)
                  (u64 (allocated a + size)) (malloc_calls a)))
  end.

Definition arena_mark (a : Arena) : option ArenaMarker :=
  match last (blocks a) with
  | Some b => Some (mkMarker (b_id b) (used b))
  | None => None
  end.

(** The chain up to the marked block, and the chain behind it. *)
Fixpoint split_at_block (id : nat) (bs : list ArenaBlock)
    : option (list ArenaBlock * ArenaBlock * list ArenaBlock) :=
  match bs with
  | [] => None
  | b :: rest =>
      if decide (b_id b = id) then Some ([], b, rest)
      else match split_at_block id rest with
           | Some (pre, m, post) => Some (b :: pre, m, post)
           | None => None
           end
  end.

Definition sum_used (bs : list ArenaBlock) : Z := foldr (fun b acc => used b + acc) 0 bs.

(** A marker whose block is not in the chain is undefined behaviour: [None]. *)
Definition arena_reset_to (a : Arena) (mark : ArenaMarker) : option Arena :=
  match split_at_block (m_block mark) (blocks a) with
  | None => None
  | Some (pre, m, post) =>
      let freed := u64 (u64 (sum_used post) + u64 (used m - m_used mark)) in
      Some (mkArena (pre ++ [mkBlock (b_id m) (m_used mark) (capacity m) (b_storage m)])
                    (block_size a) (u64 (allocated a - freed)) (malloc_calls a))
  end.

Definition arena_allocated (a : option Arena) : Z :=
  match a with Some a => allocated a | None => 0 end.

Definition arena_remaining (a : option Arena) : Z :=
  match a with
  | Some a => match last (blocks a) with
              | Some b => u64 (capacity b - used b)
              | None => 0
              end
  | None => 0
  end.

(** ** Specification *)

(** The largest request, and default block, for which no size computation wraps. *)
Definition MAX_REQUEST : Z := 2 ^ 62.

Definition block_ok (b : ArenaBlock) : Prop :=
  0 <= used b <= capacity b /\ used b mod PTR_SIZE = 0
  /\ capacity b = b_storage b /\ capacity b <= MAX_REQUEST + PTR_SIZE.

Definition arena_ok (a : Arena) : Prop :=
  blocks a <> [] /\ Forall block_ok (blocks a)
  /\ NoDup (b_id <$> blocks a)
  /\ Forall (fun b => (b_id b < malloc_calls a)%nat) (blocks a)
  /\ allocated a = u64 (sum_used (blocks a))
  /\ 0 <= block_size a <= MAX_REQUEST.

(** The [n] bytes at [p] lie in used, really reserved storage of the arena. *)
Definition owns (a : Arena) (p : ptr) (n : Z) : Prop :=
  exists b, b ∈ blocks a /\ b_id b = p.1 /\ 0 <= p.2 /\ p.2 + n <= used b
            /\ used b <= b_storage b.

Definition disjoint_ranges (p : ptr) (n : Z) (q : ptr) (m : Z) : Prop :=
  p.1 <> q.1 \/ p.2 + n <= q.2 \/ q.2 + m <= p.2.

(** [later a a']: [a'] arises from [a] by using more of its current block and
    appending blocks. *)
Definition later (a a' : Arena) : Prop :=
  exists pre cur cur' post,
    blocks a = pre ++ [cur] /\ blocks a' = pre ++ cur' :: post
    /\ b_id cur' = b_id cur /\ capacity cur' = capacity cur
    /\ b_storage cur' = b_storage cur /\ used cur <= used cur'
    /\ block_size a' = block_size a.

(** ** Lemmas *)

Lemma align_up_spec n :
  0 <= n <= MAX_REQUEST ->
  align_up n = (n + 7) / 8 * 8 /\ n <= align_up n < n + 8 /\ align_up n mod PTR_SIZE = 0.
Proof.
  intros Hn. unfold align_up, PTR_SIZE, MAX_REQUEST in *.
  rewrite u64_small by lia.
  assert (Hm : Z.land (n + 8 - 1) (not64 (8 - 1)) = (n + 7) / 8 * 8).
  { replace (n + 8 - 1) with (n + 7) by lia.
    change (not64 (8 - 1)) with (Z.shiftl (Z.ones 61) 3).
    change 8 with (2 ^ 3). rewrite <- Z.shiftr_div_pow2, <- Z.shiftl_mul_pow2 by lia.
    apply Z.bits_inj'. intros i Hi. rewrite Z.land_spec, !Z.shiftl_spec by lia.
    destruct (decide (i < 3)).
    { rewrite !(Z.testbit_neg_r _ (i - 3)) by lia. by rewrite andb_false_r. }
    rewrite Z.shiftr_spec by lia. replace (i - 3 + 3) with i by lia.
    destruct (decide (i < 64)).
    - rewrite Z.ones_spec_low by lia. by rewrite andb_true_r.
    - rewrite (testbit_high_mod (n + 7) 64) by lia. done. }
  rewrite Hm. pose proof (Z.div_mod (n + 7) 8 ltac:(lia)).
  pose proof (Z.mod_pos_bound (n + 7) 8 ltac:(lia)).
  split_and!; [done | lia | lia | by rewrite Z_mod_mult].
Qed.

Lemma block_create_spec n cap b :
  0 <= cap <= MAX_REQUEST + PTR_SIZE -> block_create n cap = Returned b ->
  b = mkBlock n 0 cap cap.
Proof.
  unfold block_create, MAX_REQUEST, PTR_SIZE, BLOCK_HEADER. intros Hc.
  rewrite u64_small by lia. destruct (malloc_ok _ _); simpl; intros [= <-].
  f_equal. lia.
Qed.

Lemma sum_used_app l1 l2 : sum_used (l1 ++ l2) = sum_used l1 + sum_used l2.
Proof. induction l1; simpl; lia. Qed.

Lemma u64_add_l x y : u64 (u64 x + y) = u64 (x + y).
Proof. unfold u64. apply Zplus_mod_idemp_l. Qed.

Lemma blocks_snoc a : arena_ok a -> exists pre cur, blocks a = pre ++ [cur] /\ block_ok cur.
Proof.
  intros (Hne & Hall & _). destruct (blocks a) as [|b l] using rev_ind; [done|].
  exists l, b. split; [done|]. apply Forall_app in Hall as [_ Hb]. by inversion Hb.
Qed.

Lemma bump_ok b size :
  block_ok b -> 0 <= size -> used b + size <= capacity b -> size mod PTR_SIZE = 0 ->
  block_ok (bump b size) /\ used (bump b size) = used b + size.
Proof.
  unfold block_ok, bump, MAX_REQUEST, PTR_SIZE; simpl.
  intros ([? ?] & Hm & Hst & ?) Hs Hfit Hsm.
  rewrite u64_small by lia. split_and!; [lia | lia | | done | done | done].
  rewrite Z.add_mod, Hm, Hsm by lia. done.
Qed.

(** What one allocation does to a well-formed arena. *)
Lemma arena_alloc_spec a size p a' :
  arena_ok a -> 0 <= size <= MAX_REQUEST ->
  arena_alloc a size = Returned (Some (p, a')) ->
  exists pre cur cur' post,
    blocks a = pre ++ [cur] /\ blocks a' = pre ++ cur' :: post
    /\ block_size a' = block_size a
    /\ allocated a' = u64 (allocated a + align_up size)
    /\ ((post = [] /\ malloc_calls a' = malloc_calls a /\ p = (b_id cur, used cur)
         /\ cur' = mkBlock (b_id cur) (used cur + align_up size) (capacity cur)
                           (b_storage cur)
         /\ block_ok cur')
        \/ (exists nb, cur' = cur /\ post = [nb] /\ block_ok nb
            /\ malloc_calls a' = S (malloc_calls a)
            /\ b_id nb = malloc_calls a /\ used nb = align_up size
            /\ p = (b_id nb, 0))).
Proof.
  intros Hok Hsize. destruct (align_up_spec size Hsize) as (_ & Hal & Halm).
  destruct (blocks_snoc a Hok) as (pre & cur & Hbs & Hcur).
  destruct Hok as (_ & _ & _ & _ & _ & Hbsize).
  unfold arena_alloc. rewrite Hbs, rev_unit.
  pose proof Hcur as ([? ?] & ? & Hst & Hcapb).
  unfold MAX_REQUEST, PTR_SIZE in *.
  rewrite (u64_small (used cur + align_up size)).
  2:{ lia. }
  destruct (Z.ltb_spec (capacity cur) (used cur + align_up size)) as [Hfull|Hfit].
  - set (cap := if align_up size <? block_size a then block_size a else align_up size).
    assert (Hcap : align_up size <= cap <= MAX_REQUEST + PTR_SIZE).
    { unfold cap, MAX_REQUEST, PTR_SIZE.
      destruct (Z.ltb_spec (align_up size) (block_size a)); lia. }
    destruct (block_create (malloc_calls a) cap) as [nb|] eqn:Hnb; simpl; [|done].
    apply block_create_spec in Hnb; [|lia]. subst nb. simpl. intros [= <- <-]. simpl.
    destruct (bump_ok (mkBlock (malloc_calls a) 0 cap cap) (align_up size))
      as [Hbo Hu]; [ | lia | simpl; lia | done | ].
    { unfold block_ok; simpl. unfold MAX_REQUEST, PTR_SIZE in *.
      split_and!; [lia | lia | done | done | lia]. }
    exists pre, cur, cur, [bump (mkBlock (malloc_calls a) 0 cap cap) (align_up size)].
    split_and!; [done | by rewrite <- app_assoc | done | done |].
    right. eexists. split_and!; try done.
  - intros [= <- <-]. simpl. rewrite rev_involutive.
    destruct (bump_ok cur (align_up size)) as [Hbo Hu]; [done | lia | lia | done |].
    exists pre, cur, (bump cur (align_up size)), [].
    split_and!; try done. left. split_and!; try done.
    unfold bump in *. simpl in Hu. by rewrite Hu.
Qed.

Lemma arena_alloc_later a size p a' :
  arena_ok a -> 0 <= size <= MAX_REQUEST ->
  arena_alloc a size = Returned (Some (p, a')) -> later a a'.
Proof.
  intros Hok Hsize Ha. destruct (align_up_spec size Hsize) as (_ & Hal & _).
  destruct (arena_alloc_spec a size p a' Hok Hsize Ha)
    as (pre & cur & cur' & post & H1 & H2 & H3 & _ & Hcase).
  exists pre, cur, cur', post.
  destruct Hcase as [(_ & _ & _ & -> & _)|(nb & -> & _)]; simpl; split_and!; try done; lia.
Qed.

Lemma arena_alloc_ok a size p a' :
  arena_ok a -> 0 <= size <= MAX_REQUEST ->
  arena_alloc a size = Returned (Some (p, a')) -> arena_ok a'.
Proof.
  intros Hok Hsize Ha.
  destruct (arena_alloc_spec a size p a' Hok Hsize Ha)
    as (pre & cur & cur' & post & H1 & H2 & H3 & H4 & Hcase).
  destruct Hok as (_ & Hall & Hnd & Hids & Hsum & Hbs).
  rewrite H1, fmap_app in Hnd. rewrite H1 in Hall, Hids, Hsum.
  rewrite sum_used_app in Hsum. simpl in Hsum.
  apply Forall_app in Hall as [Hpre Hcur]. apply Forall_app in Hids as [Hipre Hicur].
  inversion_clear Hcur as [|? ? Hcur' _]. inversion_clear Hicur as [|? ? Hicur' _].
  unfold arena_ok. rewrite H2, H3, H4, sum_used_app, fmap_app, Hsum, u64_add_l.
  destruct Hcase as [(-> & Hmc & _ & -> & Hbo)|(nb & -> & -> & Hbo & Hmc & Hid & Hu & _)];
    rewrite Hmc; simpl.
  - split_and!; [by destruct pre | by forall_cons | done | by forall_cons
      | f_equal; lia | lia..].
  - split_and!; [by destruct pre | by forall_cons | | | f_equal; lia | lia..].
    + rewrite (cons_middle _ _ [_]), app_assoc. apply NoDup_app. split_and!; [done| |].
      * intros x Hx. rewrite list_elem_of_singleton. intros ->. rewrite Hid in Hx.
        apply elem_of_app in Hx as [Hx|Hx].
        -- apply list_elem_of_fmap in Hx as (b & Hb & Hin).
           rewrite Forall_forall in Hipre. specialize (Hipre b Hin). lia.
        -- apply list_elem_of_singleton in Hx. lia.
      * apply NoDup_singleton.
    + forall_cons; [|simpl; lia..].
      eapply Forall_impl; [exact Hipre|]. simpl. lia.
Qed.

Lemma later_refl a : arena_ok a -> later a a.
Proof.
  intros Hok. destruct (blocks_snoc a Hok) as (pre & cur & Hb & _).
  exists pre, cur, cur, []. split_and!; done || lia.
Qed.

Lemma later_trans a b c : later a b -> later b c -> later a c.
Proof.
  intros (pre & x & x' & post & Ha & Hb & Hid & Hcap & Hst & Hu & Hbs)
    (pre2 & y & y' & post2 & Hb2 & Hc & Hid2 & Hcap2 & Hst2 & Hu2 & Hbs2).
  destruct post as [|z post] using rev_ind.
  - rewrite Hb in Hb2. apply app_inj_tail in Hb2 as [<- <-].
    exists pre, x, y', post2. split_and!; try congruence; lia.
  - clear IHpost. assert (Hpre : pre2 = pre ++ x' :: post).
    { rewrite Hb in Hb2. rewrite app_comm_cons, app_assoc in Hb2.
      by apply app_inj_tail in Hb2 as [<- _]. }
    exists pre, x, x', (post ++ y' :: post2). split_and!; try congruence.
    by rewrite Hc, Hpre, <- app_assoc.
Qed.

Lemma split_at_block_app pre b post :
  b_id b ∉ (b_id <$> pre) ->
  split_at_block (b_id b) (pre ++ b :: post) = Some (pre, b, post).
Proof.
  induction pre as [|x pre IH]; simpl; intros Hnot.
  - by rewrite decide_True.
  - rewrite decide_False by set_solver. rewrite IH by set_solver. done.
Qed.

End arena.

(** ** Properties *)



(** Marker discipline: whatever is allocated after a marker was taken, resetting
    to it restores the arena exactly (blocks, used counts, byte count); hence regions
    owned at the marker are owned again and nothing else is. *)
Theorem arena_reset_restores a a' mark :
  arena_ok a -> arena_ok a' -> later a a' -> arena_mark a = Some mark ->
  exists r, arena_reset_to a' mark = Some r
    /\ blocks r = blocks a /\ allocated r = allocated a /\ block_size r = block_size a
    /\ (forall p n, owns r p n <-> owns a p n).
Proof.
  intros Hok Hok' (pre & cur & cur' & post & Ha & Ha' & Hid & Hcap & Hst & Hu & Hbs) Hm.
  unfold arena_mark in Hm. rewrite Ha, last_snoc in Hm. injection Hm as <-.
  unfold arena_reset_to. simpl. rewrite Ha', <- Hid.
  destruct Hok' as (_ & Hall' & Hnd & _ & Hsum' & _).
  rewrite split_at_block_app.
  2:{ rewrite Ha', fmap_app in Hnd. apply NoDup_app in Hnd as (_ & Hd & _).
      intros Hin. apply (Hd _ Hin). simpl. left. }
  destruct Hok as (_ & Hall & _ & _ & Hsum & _).
  assert (Hcur : mkBlock (b_id cur') (used cur) (capacity cur') (b_storage cur') = cur).
  { rewrite Hid, Hcap, Hst. by destruct cur. }
  eexists. split; [done|]. simpl. rewrite Hcur.
  assert (Hblocks : pre ++ [cur] = blocks a) by done.
  split_and!; [done | | done |].
  - rewrite Hsum, Hsum', Ha, Ha', !sum_used_app. simpl.
    unfold u64. rewrite <- Zplus_mod, <- Zminus_mod. f_equal. lia.
  - intros p n. unfold owns. simpl. by rewrite Hblocks.
Qed.

Lemma arena_reset_restores_witness :
  let a := mkArena [mkBlock 0 16 64 64] 64 16 1 in
  let a' := mkArena [mkBlock 0 40 64 64; mkBlock 1 80 80 80] 64 120 2 in
  exists r, arena_reset_to a' (mkMarker 0 16) = Some r
    /\ blocks r = blocks a /\ allocated r = allocated a /\ block_size r = block_size a
    /\ (forall p n, owns r p n <-> owns a p n).
Proof.
  intros a a'. apply (arena_reset_restores a a' (mkMarker 0 16)).
  - unfold arena_ok, block_ok, MAX_REQUEST, PTR_SIZE. simpl.
    split_and!; try done; try lia; try (apply NoDup_singleton);
      forall_cons; simpl; split_and?; lia || done.
  - unfold arena_ok, block_ok, MAX_REQUEST, PTR_SIZE. simpl.
    split_and!; try done; try lia; [| |].
    + forall_cons; simpl; split_and?; lia || done.
    + apply NoDup_cons; split; [set_solver | apply NoDup_singleton].
    + forall_cons; simpl; lia.
  - exists [], (mkBlock 0 16 64 64), (mkBlock 0 40 64 64), [mkBlock 1 80 80 80].
    simpl. split_and!; done || lia.
  - reflexivity.
Defined.

(** Without the bound on the request the size computations wrap: a request of
    [SIZE_MAX] bytes is rounded to 0 and "succeeds" with a region of no bytes. *)
Example arena_alloc_wraps :
  arena_alloc (fun _ _ => true) (mkArena [mkBlock 0 16 64 64] 64 16 1) SIZE_MAX
  = Returned (Some ((0%nat, 16), mkArena [mkBlock 0 16 64 64] 64 16 1)).
Proof. reflexivity. Qed.
