(* ===== verification/Source.v ===== *)
(** Source files and spans ([src/source.c], [src/include/source.h]).

    The manager's linked list of files is a list in registration order; file ids are
    [uint32_t].  Buffers are C strings, represented without their terminator. *)
From S2P Require Import Prelude.

Definition SOURCE_FILE_ID_INVALID : Z := UINT32_MAX.

Record SourceSpan : Set := mkSpan {
  file_id : Z;
  start_offset : Z;
  end_offset : Z;
  sp_line : Z;
  sp_column : Z;
}.

#[global] Instance SourceSpan_eq_dec : EqDecision SourceSpan.
Proof. solve_decision. Defined.

Record SourceFile : Set := mkSourceFile {
  sf_id : Z;
  sf_filename : string;
  sf_source : list ascii;
  sf_length : Z;
}.

Record SourceManager : Set := mkSourceManager {
  files : list SourceFile;
  file_count : Z;
  next_id : Z;
}.

Definition source_manager_init : SourceManager := mkSourceManager [] 0 0.

Definition source_manager_add (manager : SourceManager) (filename : string)
    (source : list ascii) : outcome (Z * SourceManager) :=
  assert! negb (next_id manager =? SOURCE_FILE_ID_INVALID);
  let file := mkSourceFile (next_id manager) filename source (Z.of_nat (length source)) in
  Returned (sf_id file,
            mkSourceManager (files manager ++ [file]) (u64 (file_count manager + 1))
                            (u32 (next_id manager + 1))).

(** The list walk of [source_manager_get]. *)
Fixpoint find_file (fs : list SourceFile) (id : Z) : option SourceFile :=
  match fs with
  | [] => None
  | f :: rest => if sf_id f =? id then Some f else find_file rest id
  end.

Definition source_manager_get (manager : option SourceManager) (id : Z)
    : option SourceFile :=
  match manager with
  | None => None
  | Some m => if id =? SOURCE_FILE_ID_INVALID then None else find_file (files m) id
  end.

Definition source_span_invalid : SourceSpan := mkSpan SOURCE_FILE_ID_INVALID 0 0 0 0.

Definition source_span_make (id start stop line column : Z) : SourceSpan :=
  mkSpan id start (if stop <? start then start else stop) line column.

Definition source_span_is_valid (span : SourceSpan) : bool :=
  negb (file_id span =? SOURCE_FILE_ID_INVALID)
  && (0 <? sp_line span) && (0 <? sp_column span).

Definition source_span_join (first second : SourceSpan) : SourceSpan :=
  if negb (source_span_is_valid first) then second
  else if negb (source_span_is_valid second) then first
  else if negb (file_id first =? file_id second) then first
  else
    let result :=
      if start_offset second <? start_offset first
      then mkSpan (file_id first) (start_offset second) (end_offset first)
                  (sp_line second) (sp_column second)
      else first in
    if end_offset result <? end_offset second
    then mkSpan (file_id result) (start_offset result) (end_offset second)
                (sp_line result) (sp_column result)
    else result.

(** ** Specification *)

(** The manager invariant: the ids are 0, 1, 2, ... in registration order. *)
Definition manager_ok (m : SourceManager) : Prop :=
  (forall i f, files m !! i = Some f -> sf_id f = Z.of_nat i
               /\ sf_length f = Z.of_nat (length (sf_source f)))
  /\ next_id m = Z.of_nat (length (files m))
  /\ 0 <= next_id m <= SOURCE_FILE_ID_INVALID
  /\ file_count m = next_id m.

Definition span_ok (s : SourceSpan) : Prop := 0 <= start_offset s <= end_offset s.

(** [covers s t]: span [s] includes the bytes of [t]. *)
Definition covers (s t : SourceSpan) : Prop :=
  start_offset s <= start_offset t /\ end_offset t <= end_offset s.

(** ** Lemmas *)

Lemma find_file_lookup fs k n :
  (forall i f, fs !! i = Some f -> sf_id f = Z.of_nat (k + i)) ->
  (k <= n)%nat -> find_file fs (Z.of_nat n) = fs !! (n - k)%nat.
Proof.
  revert k. induction fs as [|f fs IH]; intros k Hids Hk; simpl.
  - by rewrite lookup_nil.
  - pose proof (Hids 0%nat f eq_refl) as Hf. rewrite Nat.add_0_r in Hf. rewrite Hf.
    destruct (Z.eqb_spec (Z.of_nat k) (Z.of_nat n)).
    + by replace (n - k)%nat with 0%nat by lia.
    + rewrite (IH (S k)); [by replace (n - k)%nat with (S (n - S k)) by lia | | lia].
      intros i g Hg. rewrite (Hids (S i) g Hg). f_equal. lia.
Qed.

Lemma source_manager_get_ok m n :
  manager_ok m -> (Z.of_nat n < SOURCE_FILE_ID_INVALID) ->
  source_manager_get (Some m) (Z.of_nat n) = files m !! n.
Proof.
  intros (Hids & _) Hn. simpl.
  rewrite (proj2 (Z.eqb_neq _ _)) by lia.
  rewrite (find_file_lookup _ 0); [by rewrite Nat.sub_0_r | | lia].
  intros i f Hf. by apply Hids.
Qed.

Lemma manager_init_ok : manager_ok source_manager_init.
Proof.
  split; [intros i f; simpl; by rewrite lookup_nil|].
  unfold source_manager_init, SOURCE_FILE_ID_INVALID, UINT32_MAX. simpl. lia.
Qed.

Lemma manager_add_ok m name src id m' :
  manager_ok m -> source_manager_add m name src = Returned (id, m') ->
  manager_ok m' /\ id = next_id m
  /\ files m' = files m ++ [mkSourceFile id name src (Z.of_nat (length src))].
Proof.
  intros (Hids & Hnext & Hb & Hc). unfold source_manager_add.
  destruct (Z.eqb_spec (next_id m) SOURCE_FILE_ID_INVALID); simpl; intros [= <- <-].
  split; [|done]. unfold manager_ok, SOURCE_FILE_ID_INVALID, UINT32_MAX in *. simpl.
  rewrite length_app, u32_small, u64_small by lia. simpl.
  split_and!; [|lia..]. intros i f [Hf|[Hi Hf]]%lookup_app_Some; [by apply Hids|].
  apply list_lookup_singleton_Some in Hf as [Hi' <-]. simpl. lia.
Qed.

(** ** Properties *)

(** File identities are stable: registering a file gives it a fresh id under
    which it is found, every earlier id still finds the same file, and the id order
    is the registration order. *)
Theorem source_manager_add_get m name src :
  manager_ok m -> next_id m <> SOURCE_FILE_ID_INVALID ->
  exists id m', source_manager_add m name src = Returned (id, m')
    /\ manager_ok m'
    /\ source_manager_get (Some m) id = None
    /\ source_manager_get (Some m') id
       = Some (mkSourceFile id name src (Z.of_nat (length src)))
    /\ (forall id0 f, source_manager_get (Some m) id0 = Some f ->
        id0 < id /\ source_manager_get (Some m') id0 = Some f).
Proof.
  intros Hok Hne. unfold source_manager_add at 1. rewrite (proj2 (Z.eqb_neq _ _)) by done.
  cbn [c_assert negb obind sf_id]. eexists _, _. split; [done|].
  assert (Hadd : source_manager_add m name src = Returned (next_id m,
    mkSourceManager (files m ++ [mkSourceFile (next_id m) name src (Z.of_nat (length src))])
      (u64 (file_count m + 1)) (u32 (next_id m + 1)))).
  { unfold source_manager_add. by rewrite (proj2 (Z.eqb_neq _ _)) by done. }
  destruct (manager_add_ok _ _ _ _ _ Hok Hadd) as (Hok' & _ & _).
  set (m' := mkSourceManager _ _ _) in *. split; [done|].
  pose proof Hok as (Hids & Hnext & Hb & _).
  assert (Hlt : Z.of_nat (length (files m)) < SOURCE_FILE_ID_INVALID) by lia.
  rewrite Hnext. rewrite !source_manager_get_ok by done. split_and!.
  - by apply lookup_ge_None.
  - simpl. by rewrite lookup_app_r, Nat.sub_diag, Hnext by lia.
  - intros id0 f Hf. simpl in Hf. destruct (Z.eqb_spec id0 SOURCE_FILE_ID_INVALID); [done|].
    assert (Hin : exists i, files m !! i = Some f /\ sf_id f = id0).
    { clear -Hf. induction (files m) as [|g l IH]; simpl in Hf; [done|].
      destruct (Z.eqb_spec (sf_id g) id0) as [Heq|].
      - injection Hf as <-. by exists 0%nat.
      - destruct (IH Hf) as (i & Hi & ?). by exists (S i). }
    destruct Hin as (i & Hi & Hid). pose proof (proj1 (Hids i f Hi)) as Hidi.
    pose proof (lookup_lt_Some _ _ _ Hi). rewrite Hidi in Hid. subst id0.
    split; [lia|]. rewrite source_manager_get_ok by (done || lia). simpl.
    by rewrite lookup_app_l by lia.
Qed.

Lemma source_manager_add_get_witness :
  exists id m', source_manager_add source_manager_init "a.cog" (cstr "x") = Returned (id, m')
    /\ manager_ok m'
    /\ source_manager_get (Some source_manager_init) id = None
    /\ source_manager_get (Some m') id = Some (mkSourceFile id "a.cog" (cstr "x") 1)
    /\ (forall id0 f, source_manager_get (Some source_manager_init) id0 = Some f ->
        id0 < id /\ source_manager_get (Some m') id0 = Some f).
Proof.
  apply (source_manager_add_get source_manager_init "a.cog" (cstr "x")).
  - exact manager_init_ok.
  - vm_compute. discriminate.
Defined.

(** Joining two valid spans of one file gives the smallest well-formed span
    covering both, positioned at the earlier start; an invalid span is neutral. *)
Theorem source_span_join_correct s t :
  span_ok s -> span_ok t ->
  source_span_is_valid s = true -> source_span_is_valid t = true ->
  file_id s = file_id t ->
  let j := source_span_join s t in
  span_ok j /\ source_span_is_valid j = true /\ file_id j = file_id s
  /\ covers j s /\ covers j t
  /\ (forall u, covers u s -> covers u t -> covers u j)
  /\ ((start_offset j = start_offset s /\ sp_line j = sp_line s /\ sp_column j = sp_column s)
      \/ (start_offset j = start_offset t /\ sp_line j = sp_line t
          /\ sp_column j = sp_column t))
  /\ source_span_join s source_span_invalid = s
  /\ source_span_join source_span_invalid s = s.
Proof.
  intros [Hs0 Hs1] [Ht0 Ht1] Hvs Hvt Hf. cbv zeta. unfold source_span_join.
  rewrite Hvs, Hvt, Hf, Z.eqb_refl. simpl.
  unfold source_span_is_valid in Hvs, Hvt. to_props.
  destruct s as [fs ss es ls cs], t as [ft st et lt ct]; simpl in *.
  unfold span_ok, covers, source_span_is_valid. simpl.
  destruct (Z.ltb_spec st ss); simpl; destruct (Z.ltb_spec es et); simpl;
    split_and!; try done; try lia; try (intros ? [] []; lia);
    try (left; split_and!; done || lia); try (right; split_and!; done || lia);
    rewrite !andb_true_iff, negb_true_iff, Z.eqb_neq, !Z.ltb_lt; lia.
Qed.

Lemma source_span_join_correct_witness :
  let j := source_span_join (mkSpan 0 5 9 1 6) (mkSpan 0 2 7 1 3) in
  span_ok j /\ j = mkSpan 0 2 9 1 3.
Proof.
  intros j. split; [|reflexivity].
  apply (source_span_join_correct (mkSpan 0 5 9 1 6) (mkSpan 0 2 7 1 3));
    first [reflexivity | split; simpl; lia].
Defined.
