(* ===== verification/Lexer.v ===== *)
(** The lexer ([src/lexer.c], [src/include/lexer.h]).

    The source buffer is a C string: a list of characters none of which is NUL,
    followed by the terminator.  Pointers into it are offsets.  A lexer function is
    a computation on the [Lexer] structure that fails with a [fault] when the C code
    would read outside the buffer or overflow an [int]; [OutOfFuel] marks a loop that
    ran longer than the buffer allows.  [lexer_next_ok] shows that none of the three
    ever happens. *)
From S2P Require Import Prelude Token Source StringDecode.

Record Token : Set := mkToken {
  type : TokenType;
  start : nat;              (* offset of [start] in the source buffer *)
  tok_length : Z;
  tok_line : Z;
  tok_column : Z;
  span : SourceSpan;
}.

Record Lexer : Set := mkLexer {
  filename : string;
  source_id : Z;
  source_start : list ascii;
  current : nat;
  line : Z;
  column : Z;
  line_start : nat;
  error_msg : option string;
}.

(** ** Computations *)

Inductive fault : Set := OutOfBounds | SignedOverflow | OutOfFuel.

Inductive result (A : Type) : Type :=
| Ok (a : A) (lx : Lexer)
| Fault (f : fault).
Arguments Ok {A} a lx.
Arguments Fault {A} f.

Definition M (A : Type) : Type := Lexer -> result A.

#[global] Instance M_ret : MRet M := fun _ a lx => Ok a lx.

#[global] Instance M_bind : MBind M := fun _ _ k m lx =>
  match m lx with
  | Ok a lx' => k a lx'
  | Fault f => Fault f
  end.

Definition throw {A} (f : fault) : M A := fun _ => Fault f.

(** [while (c) b] for at most [fuel] iterations. *)
Fixpoint loop (fuel : nat) (c : M bool) (b : M unit) : M unit :=
  match fuel with
  | O => throw OutOfFuel
  | S fuel => x ← c; if (x : bool) then b ;; loop fuel c b else mret tt
  end.

(** Every iteration of the lexer's loops consumes a character, so one iteration per
    character and one more to leave the loop suffice. *)
Definition while (c : M bool) (b : M unit) : M unit := fun lx =>
  loop (S (length (source_start lx))) c b lx.

(** ** Initialisation *)

Definition lexer_init_with_source_id (id : Z) (name : string) (source : list ascii)
    : Lexer :=
  {| filename := name; source_id := id; source_start := source; current := 0;
     line := 1; column := 1; line_start := 0; error_msg := None |}.

Definition lexer_init (name : string) (source : list ascii) : Lexer :=
  lexer_init_with_source_id 0 name source.

(** ** Character access *)

(** [source_start[i]]: the terminator is readable, anything beyond is not. *)
Definition read (i : nat) : M ascii := fun lx =>
  match source_start lx !! i with
  | Some c => Ok c lx
  | None => if decide (i = length (source_start lx)) then Ok NUL lx
            else Fault OutOfBounds
  end.

Definition peek : M ascii := fun lx => read (current lx) lx.

Definition is_at_end : M bool := c ← peek; mret (bool_decide (c = NUL)).

Definition peek_next : M ascii :=
  e ← is_at_end; if (e : bool) then mret NUL else (fun lx => read (S (current lx)) lx).

(** [int] increment: overflow is undefined. *)
Definition int_incr (z : Z) : M Z := if z =? INT_MAX then throw SignedOverflow else mret (z + 1).

Definition get_line : M Z := fun lx => Ok (line lx) lx.
Definition get_column : M Z := fun lx => Ok (column lx) lx.
Definition get_current : M nat := fun lx => Ok (current lx) lx.

Definition set_position (cur : nat) (l c : Z) : M unit := fun lx =>
  Ok tt {| filename := filename lx; source_id := source_id lx;
           source_start := source_start lx; current := cur; line := l; column := c;
           line_start := line_start lx; error_msg := error_msg lx |}.

Definition set_error_msg (msg : string) : M unit := fun lx =>
  Ok tt {| filename := filename lx; source_id := source_id lx;
           source_start := source_start lx; current := current lx; line := line lx;
           column := column lx; line_start := line_start lx; error_msg := Some msg |}.

Definition advance : M ascii :=
  c ← peek;
  cur ← get_current;
  l ← get_line;
  col ← get_column;
  if decide (c = NL) then
    l' ← int_incr l;
    set_position (S cur) l' 1 ;; mret c
  else
    col' ← int_incr col;
    set_position (S cur) l col' ;; mret c.

Definition advance_ : M unit := advance ;; mret tt.

Definition match_ (expected : ascii) : M bool :=
  e ← is_at_end;
  if (e : bool) then mret false else
  c ← peek;
  if decide (c = expected) then advance ;; mret true else mret false.

(** ** Tokens *)

Definition make_token (ty : TokenType) (st : nat) (len l col : Z) : M Token := fun lx =>
  let start_offset := Z.of_nat st in
  let end_offset := u64 (start_offset + (if 0 <? len then len else 0)) in
  Ok (mkToken ty st len l col
        (source_span_make (source_id lx) start_offset end_offset l col)) lx.

Definition error_token (st : nat) (len l col : Z) (message : string) : M Token :=
  set_error_msg message ;; make_token TOK_ERROR st len l col.

(** [(int)(lx->current - start)] *)
Definition length_from (st : nat) : M Z :=
  cur ← get_current; mret (to_int (Z.of_nat cur - Z.of_nat st)).

(** ** White space and comments *)

Definition is_space (c : ascii) : bool :=
  bool_decide (c = " "%char) || bool_decide (c = "009"%char)
  || bool_decide (c = "013"%char) || bool_decide (c = NL).

(** The [for (;;)] loop; [Some error] is the [return 0] path. *)
Fixpoint skip_loop (fuel : nat) : M (option Token) :=
  match fuel with
  | O => throw OutOfFuel
  | S fuel =>
      c ← peek;
      if is_space c then advance ;; skip_loop fuel else
      n ← peek_next;
      if decide (c = "/"%char /\ n = "/"%char) then
        while (d ← peek; e ← is_at_end; mret (negb (bool_decide (d = NL)) && negb e))
              advance_ ;;
        skip_loop fuel
      else if decide (c = "/"%char /\ n = "*"%char) then
        comment_start ← get_current;
        comment_line ← get_line;
        comment_column ← get_column;
        advance ;; advance ;;
        while (e ← is_at_end; d ← peek; n ← peek_next;
               mret (negb e && negb (bool_decide (d = "*"%char) && bool_decide (n = "/"%char))))
              advance_ ;;
        e ← is_at_end;
        if (e : bool) then
          t ← error_token comment_start 2 comment_line comment_column
                "unterminated block comment";
          mret (Some t)
        else advance ;; advance ;; skip_loop fuel
      else mret None
  end.

Definition skip_whitespace_and_comments : M (option Token) := fun lx =>
  skip_loop (S (length (source_start lx))) lx.

(** ** Character classes *)

Definition is_digit (c : ascii) : bool := ascii_in "0" "9" c.

Definition integer_digit_value (c : ascii) : Z :=
  if ascii_in "0" "9" c then code c - code "0"
  else if ascii_in "a" "f" c then 10 + code c - code "a"
  else if ascii_in "A" "F" c then 10 + code c - code "A"
  else -1.

Definition is_integer_digit_for_radix (c : ascii) (radix : Z) : bool :=
  let value := integer_digit_value c in (0 <=? value) && (value <? radix).

Definition is_alpha (c : ascii) : bool :=
  ascii_in "a" "z" c || ascii_in "A" "Z" c || bool_decide (c = "_"%char).

Definition is_ident_char (c : ascii) : bool := is_alpha c || is_digit c.

(** [while (p(peek(lx))) advance(lx);] *)
Definition advance_while (p : ascii -> bool) : M unit :=
  while (c ← peek; mret (p c)) advance_.

(** ** Identifiers and keywords *)

Definition keywords : list (string * TokenType) :=
  [("if", TOK_IF); ("else", TOK_ELSE); ("while", TOK_WHILE); ("for", TOK_FOR);
   ("in", TOK_IN); ("return", TOK_RETURN); ("defer", TOK_DEFER);
   ("discard", TOK_DISCARD); ("static_assert", TOK_STATIC_ASSERT);
   ("struct", TOK_STRUCT); ("resource", TOK_RESOURCE); ("union", TOK_UNION);
   ("break", TOK_BREAK); ("continue", TOK_CONTINUE); ("enum", TOK_ENUM);
   ("switch", TOK_SWITCH); ("case", TOK_CASE); ("default", TOK_DEFAULT);
   ("void", TOK_VOID); ("true", TOK_TRUE); ("false", TOK_FALSE); ("cast", TOK_CAST);
   ("truncate", TOK_TRUNCATE); ("reinterpret", TOK_REINTERPRET); ("move", TOK_MOVE);
   ("readonly", TOK_READONLY); ("volatile", TOK_VOLATILE); ("opaque", TOK_OPAQUE);
   ("cfn", TOK_CFN); ("null", TOK_NULL); ("size_of", TOK_SIZE_OF);
   ("align_of", TOK_ALIGN_OF); ("asm", TOK_ASM);
   ("s8", TOK_S8); ("s16", TOK_S16); ("s32", TOK_S32); ("s64", TOK_S64);
   ("u8", TOK_U8); ("u16", TOK_U16); ("u32", TOK_U32); ("u64", TOK_U64);
   ("isize", TOK_ISIZE); ("usize", TOK_USIZE); ("f32", TOK_F32); ("f64", TOK_F64);
   ("bool", TOK_BOOL); ("int", TOK_INT_KW); ("uint", TOK_UINT_KW)]%string.

(** [memcmp(start, word, length) == 0] compares the text of the lexeme. *)
Fixpoint find_keyword (table : list (string * TokenType)) (text : list ascii)
    : TokenType :=
  match table with
  | [] => TOK_IDENT
  | (word, ty) :: rest =>
      if (length (cstr word) =? length text)%nat && bool_decide (text = cstr word)
      then ty else find_keyword rest text
  end.

Definition identifier_type (text : list ascii) : TokenType := find_keyword keywords text.

(** The [length] bytes at [start]. *)
Definition lexeme (st : nat) (len : Z) : M (list ascii) := fun lx =>
  Ok (take (Z.to_nat len) (drop st (source_start lx))) lx.

Definition scan_identifier (st : nat) (start_line start_column : Z) : M Token :=
  advance_while is_ident_char ;;
  len ← length_from st;
  text ← lexeme st len;
  make_token (identifier_type text) st len start_line start_column.

(** ** Numbers *)

(** The [error_token] call shared by the number scanners: the error covers
    everything consumed so far. *)
Definition error_here (st : nat) (start_line start_column : Z) (message : string)
    : M Token :=
  len ← length_from st; error_token st len start_line start_column message.

Definition token_here (ty : TokenType) (st : nat) (start_line start_column : Z) : M Token :=
  len ← length_from st; make_token ty st len start_line start_column.

(** The exponent part of a hexadecimal float, after [p]/[P] was seen. *)
Definition scan_hex_exponent (st : nat) (start_line start_column : Z) : M Token :=
  advance ;;
  s ← peek;
  (if decide (s = "+"%char \/ s = "-"%char) then advance_ else mret tt) ;;
  d ← peek;
  if negb (is_digit d) then
    advance_while is_ident_char ;;
    error_here st start_line start_column
      "expected digits after hexadecimal floating-point exponent"
  else
    advance_while is_digit ;;
    t ← peek;
    if is_ident_char t then
      advance_while is_ident_char ;;
      error_here st start_line start_column
        "invalid digit in hexadecimal floating-point literal"
    else token_here TOK_NUMBER_FLOAT st start_line start_column.

(** [significand_digits == 0] is the only use of the digit counter: it holds when
    neither digit loop consumed anything. *)
Definition scan_hex_number (st : nat) (start_line start_column : Z) : M Token :=
  advance ;;
  before ← get_current;
  advance_while (fun c => is_integer_digit_for_radix c 16) ;;
  after ← get_current;
  let digits := (after - before)%nat in
  c ← peek;
  (if decide (c = "."%char) then
     advance ;;
     before ← get_current;
     advance_while (fun c => is_integer_digit_for_radix c 16) ;;
     after ← get_current;
     mret (true, (digits + (after - before))%nat)
   else mret (false, digits)) ≫= fun '(saw_point, significand_digits) =>
  if (significand_digits =? 0)%nat then
    advance_while (fun c => is_ident_char c || bool_decide (c = "."%char)) ;;
    error_here st start_line start_column "expected hexadecimal digits after prefix"
  else
    c ← peek;
    if decide (c = "p"%char \/ c = "P"%char) then
      scan_hex_exponent st start_line start_column
    else if (saw_point : bool) then
      advance_while is_ident_char ;;
      error_here st start_line start_column
        "expected p/P exponent in hexadecimal floating-point literal"
    else if is_ident_char c then
      advance_while is_ident_char ;;
      error_here st start_line start_column
        "invalid digit in hexadecimal integer literal"
    else token_here TOK_NUMBER_INT st start_line start_column.

Definition scan_prefixed_integer (st : nat) (start_line start_column radix : Z)
    (missing_digits_message invalid_digit_message : string) : M Token :=
  advance ;;
  before ← get_current;
  advance_while (fun c => is_integer_digit_for_radix c radix) ;;
  after ← get_current;
  if (after - before =? 0)%nat then
    advance_while is_ident_char ;;
    error_here st start_line start_column missing_digits_message
  else
    c ← peek;
    if is_ident_char c then
      advance_while is_ident_char ;;
      error_here st start_line start_column invalid_digit_message
    else token_here TOK_NUMBER_INT st start_line start_column.

Definition scan_decimal (st : nat) (start_line start_column : Z) : M Token :=
  advance_while is_digit ;;
  c ← peek; n ← peek_next;
  (if decide (c = "."%char) then
     if is_digit n then advance ;; advance_while is_digit ;; mret true else mret false
   else mret false) ≫= fun is_float : bool =>
  e ← peek;
  if decide (e = "e"%char \/ e = "E"%char) then
    advance ;;
    s ← peek;
    (if decide (s = "+"%char \/ s = "-"%char) then advance_ else mret tt) ;;
    d ← peek;
    if negb (is_digit d) then
      error_here st start_line start_column "expected digits after exponent"
    else
      advance_while is_digit ;;
      token_here TOK_NUMBER_FLOAT st start_line start_column
  else
    token_here (if is_float then TOK_NUMBER_FLOAT else TOK_NUMBER_INT)
               st start_line start_column.

(** [first] is [start[0]], the digit [lexer_next] has already consumed. *)
Definition scan_number (first : ascii) (st : nat) (start_line start_column : Z) : M Token :=
  c ← peek;
  if decide (first = "0"%char /\ (c = "x"%char \/ c = "X"%char)) then
    scan_hex_number st start_line start_column
  else if decide (first = "0"%char /\ (c = "b"%char \/ c = "B"%char)) then
    scan_prefixed_integer st start_line start_column 2
      "expected binary digits after prefix" "invalid digit in binary integer literal"
  else if decide (first = "0"%char /\ (c = "o"%char \/ c = "O"%char)) then
    scan_prefixed_integer st start_line start_column 8
      "expected octal digits after prefix" "invalid digit in octal integer literal"
  else scan_decimal st start_line start_column.

(** ** Strings and characters *)

Definition scan_string (st : nat) (start_line start_column : Z) : M Token :=
  while (c ← peek; e ← is_at_end; mret (negb (bool_decide (c = DQUOTE)) && negb e))
        (c ← peek; n ← peek_next;
         (if decide (c = "\"%char /\ n <> NUL) then advance_ else mret tt) ;;
         advance_) ;;
  e ← is_at_end;
  if (e : bool) then
    error_token st 1 start_line start_column "unterminated string"
  else
    advance ;;
    token_here TOK_STRING st start_line start_column.

Definition scan_char (st : nat) (start_line start_column : Z) : M Token :=
  e ← is_at_end;
  if (e : bool) then
    error_token st 1 start_line start_column "unterminated character literal"
  else
    c ← peek;
    (if decide (c = "\"%char) then
       advance ;;
       e ← is_at_end;
       if (e : bool) then
         t ← error_token st 1 start_line start_column "unterminated character literal";
         mret (Some t)
       else advance ;; mret None
     else advance ;; mret None) ≫= fun early : option Token =>
    match early with
    | Some t => mret t
    | None =>
        q ← peek;
        if decide (q <> "'"%char) then
          error_token st 1 start_line start_column
            "expected closing quote for character literal"
        else
          advance ;;
          token_here TOK_CHAR st start_line start_column
    end.

(** ** Operators and punctuation: the [switch (c)] of [lexer_next]. *)

Section switch.

Context (st : nat) (start_line start_column : Z).

Definition tok (ty : TokenType) (n : Z) : M Token :=
  make_token ty st n start_line start_column.

Definition scan_punctuation (c : ascii) (rest : M Token) : M Token :=
  if decide (c = "("%char) then tok TOK_LPAREN 1
  else if decide (c = ")"%char) then tok TOK_RPAREN 1
  else if decide (c = "{"%char) then tok TOK_LBRACE 1
  else if decide (c = "}"%char) then tok TOK_RBRACE 1
  else if decide (c = "["%char) then tok TOK_LBRACKET 1
  else if decide (c = "]"%char) then tok TOK_RBRACKET 1
  else if decide (c = "#"%char) then tok TOK_HASH 1
  else if decide (c = ";"%char) then tok TOK_SEMICOLON 1
  else if decide (c = ","%char) then tok TOK_COMMA 1
  else if decide (c = "."%char) then
    p ← peek; n ← peek_next;
    if decide (p = "."%char /\ n = "."%char) then
      advance ;; advance ;; tok TOK_ELLIPSIS 3
    else tok TOK_DOT 1
  else rest.

(** [case c: if (match(lx, '=')) return tok(with, 2); return tok(alone, 1);] *)
Definition or_equal (with_eq alone : TokenType) : M Token :=
  m ← match_ "=";
  if (m : bool) then tok with_eq 2 else tok alone 1.

(** [case c: if (match(lx, c)) return tok(twice, 2);] followed by the above. *)
Definition doubled_or_equal (c : ascii) (twice with_eq alone : TokenType) : M Token :=
  m ← match_ c;
  if (m : bool) then tok twice 2 else or_equal with_eq alone.

Definition scan_arithmetic (c : ascii) (rest : M Token) : M Token :=
  if decide (c = "+"%char) then
    doubled_or_equal "+" TOK_PLUS_PLUS TOK_PLUS_EQUAL TOK_PLUS
  else if decide (c = "-"%char) then
    m ← match_ "-";
    if (m : bool) then tok TOK_MINUS_MINUS 2 else
    m ← match_ "=";
    if (m : bool) then tok TOK_MINUS_EQUAL 2 else
    m ← match_ ">";
    if (m : bool) then tok TOK_ARROW 2 else tok TOK_MINUS 1
  else if decide (c = "*"%char) then or_equal TOK_STAR_EQUAL TOK_STAR
  else if decide (c = "/"%char) then or_equal TOK_SLASH_EQUAL TOK_SLASH
  else if decide (c = "%"%char) then or_equal TOK_PERCENT_EQUAL TOK_PERCENT
  else rest.

Definition scan_definition (c : ascii) (rest : M Token) : M Token :=
  if decide (c = ":"%char) then
    doubled_or_equal ":" TOK_COLON_COLON TOK_COLON_EQUAL TOK_COLON
  else if decide (c = "="%char) then or_equal TOK_EQUAL_EQUAL TOK_EQUAL
  else if decide (c = "!"%char) then or_equal TOK_BANG_EQUAL TOK_BANG
  else rest.

(** [<] and [>]: shift, shift-assign, comparison or the bare operator. *)
Definition scan_angle_case (c : ascii) (shift_eq shift cmp_eq cmp : TokenType) : M Token :=
  m ← match_ c;
  if (m : bool) then
    m ← match_ "=";
    if (m : bool) then tok shift_eq 3 else tok shift 2
  else or_equal cmp_eq cmp.

Definition scan_angle (c : ascii) (rest : M Token) : M Token :=
  if decide (c = "<"%char) then
    scan_angle_case "<" TOK_SHIFT_LEFT_EQUAL TOK_SHIFT_LEFT TOK_LESS_EQUAL TOK_LESS
  else if decide (c = ">"%char) then
    scan_angle_case ">" TOK_SHIFT_RIGHT_EQUAL TOK_SHIFT_RIGHT TOK_GREATER_EQUAL TOK_GREATER
  else rest.

Definition scan_logical (c : ascii) : M Token :=
  if decide (c = "&"%char) then doubled_or_equal "&" TOK_AND_AND TOK_AND_EQUAL TOK_AND
  else if decide (c = "|"%char) then doubled_or_equal "|" TOK_OR_OR TOK_OR_EQUAL TOK_OR
  else if decide (c = "^"%char) then or_equal TOK_XOR_EQUAL TOK_XOR
  else if decide (c = "~"%char) then tok TOK_TILDE 1
  else error_token st 1 start_line start_column "unexpected character".

Definition scan_symbol (c : ascii) : M Token :=
  scan_punctuation c (scan_arithmetic c (scan_definition c (scan_angle c (scan_logical c)))).

End switch.

Definition lexer_next : M Token :=
  comment_error ← skip_whitespace_and_comments;
  match (comment_error : option Token) with
  | Some t => mret t
  | None =>
      st ← get_current;
      start_line ← get_line;
      start_column ← get_column;
      e ← is_at_end;
      if (e : bool) then make_token TOK_EOF st 0 start_line start_column else
      c ← advance;
      if is_alpha c then scan_identifier st start_line start_column
      else if is_digit c then scan_number c st start_line start_column
      else if decide (c = DQUOTE) then scan_string st start_line start_column
      else if decide (c = "'"%char) then scan_char st start_line start_column
      else scan_symbol st start_line start_column c
  end.

(** The token stream of a client that, like the parser's [advance], goes on after an
    error token: at most [fuel] calls of [lexer_next], up to [TOK_EOF]. *)
Fixpoint lex_all (fuel : nat) : M (list Token) :=
  match fuel with
  | O => throw OutOfFuel
  | S fuel =>
      t ← lexer_next;
      if decide (type t = TOK_EOF) then mret [t]
      else ts ← lex_all fuel; mret (t :: ts)
  end.

(** Every token but the last consumes a character. *)
Definition lex (source : list ascii) : result (list Token) :=
  lex_all (S (length source)) (lexer_init "<input>" source).

(** The types of the tokens of a source, for examples. *)
Definition lex_types (source : list ascii) : option (list TokenType) :=
  match lex source with
  | Ok ts _ => Some (type <$> ts)
  | Fault _ => None
  end.

Example lex_example :
  lex_types (cstr "main::() -> s32 { return x <<= 0x1F + 1.5e3; } // end")
  = Some [TOK_IDENT; TOK_COLON_COLON; TOK_LPAREN; TOK_RPAREN; TOK_ARROW; TOK_S32;
          TOK_LBRACE; TOK_RETURN; TOK_IDENT; TOK_SHIFT_LEFT_EQUAL; TOK_NUMBER_INT;
          TOK_PLUS; TOK_NUMBER_FLOAT; TOK_SEMICOLON; TOK_RBRACE; TOK_EOF].
Proof. vm_compute. reflexivity. Qed.

(** ** Specification *)

(** [wp m Q lx]: run from [lx], [m] does not fail and establishes [Q]. *)
Definition wp {A} (m : M A) (Q : A -> Lexer -> Prop) (lx : Lexer) : Prop :=
  match m lx with
  | Ok a lx' => Q a lx'
  | Fault _ => False
  end.

(** The position a human reader gives to offset [p]: lines and columns count
    from 1, a new line starts after each newline character. *)
Definition newline (c : ascii) : bool := bool_decide (c = NL).

Definition line_at (s : list ascii) (p : nat) : Z :=
  1 + Z.of_nat (length (List.filter newline (take p s))).

(** Characters since the last newline, given the text before in reverse. *)
Fixpoint since_newline (before : list ascii) : nat :=
  match before with
  | [] => 0
  | c :: before => if newline c then 0%nat else S (since_newline before)
  end.

Definition column_at (s : list ascii) (p : nat) : Z :=
  1 + Z.of_nat (since_newline (reverse (take p s))).

(** A C string that fits the [int] counters of the lexer. *)
Definition buffer_ok (src : list ascii) : Prop :=
  NUL ∉ src /\ Z.of_nat (length src) < INT_MAX.

(** The character at an offset up to and including the terminator. *)
Definition char_of (src : list ascii) (p : nat) : ascii := default NUL (src !! p).

(** The text between two offsets. *)
Definition slice (src : list ascii) (p q : nat) : list ascii := take (q - p) (drop p src).

(** The operator and punctuation tokens by spelling, longer spellings first. *)
Definition operators : list (string * TokenType) :=
  [("...", TOK_ELLIPSIS); ("<<=", TOK_SHIFT_LEFT_EQUAL); (">>=", TOK_SHIFT_RIGHT_EQUAL);
   ("++", TOK_PLUS_PLUS); ("+=", TOK_PLUS_EQUAL); ("--", TOK_MINUS_MINUS);
   ("-=", TOK_MINUS_EQUAL); ("->", TOK_ARROW); ("*=", TOK_STAR_EQUAL);
   ("/=", TOK_SLASH_EQUAL); ("%=", TOK_PERCENT_EQUAL); ("::", TOK_COLON_COLON);
   (":=", TOK_COLON_EQUAL); ("==", TOK_EQUAL_EQUAL); ("!=", TOK_BANG_EQUAL);
   ("<<", TOK_SHIFT_LEFT); ("<=", TOK_LESS_EQUAL); (">>", TOK_SHIFT_RIGHT);
   (">=", TOK_GREATER_EQUAL); ("&&", TOK_AND_AND); ("&=", TOK_AND_EQUAL);
   ("||", TOK_OR_OR); ("|=", TOK_OR_EQUAL); ("^=", TOK_XOR_EQUAL);
   ("(", TOK_LPAREN); (")", TOK_RPAREN); ("{", TOK_LBRACE); ("}", TOK_RBRACE);
   ("[", TOK_LBRACKET); ("]", TOK_RBRACKET); ("#", TOK_HASH); (";", TOK_SEMICOLON);
   (",", TOK_COMMA); (".", TOK_DOT); ("+", TOK_PLUS); ("-", TOK_MINUS); ("*", TOK_STAR);
   ("/", TOK_SLASH); ("%", TOK_PERCENT); (":", TOK_COLON); ("=", TOK_EQUAL);
   ("!", TOK_BANG); ("<", TOK_LESS); (">", TOK_GREATER); ("&", TOK_AND); ("|", TOK_OR);
   ("^", TOK_XOR); ("~", TOK_TILDE)]%string.

(** The text from [p] on begins with [w]. *)
Fixpoint spelled (src : list ascii) (p : nat) (w : list ascii) : bool :=
  match w with
  | [] => true
  | c :: w => (char_of src p =? c)%char && spelled src (S p) w
  end.

(** The longest operator at [p]: its token type and the offset after it. *)
Fixpoint operator_at (table : list (string * TokenType)) (src : list ascii) (p : nat)
    : option (TokenType * nat) :=
  match table with
  | [] => None
  | (w, ty) :: table =>
      if spelled src p (cstr w) then Some (ty, length (cstr w) + p)%nat
      else operator_at table src p
  end.

Section lexing.

(** The buffer under the lexer and its identity. *)
Context (src : list ascii) (fid : Z).
Hypothesis Hsrc : buffer_ok src.

(** The lexer stands at offset [p] of the buffer, inside it, with the line and column
    of that offset. *)
Definition at_pos (p : nat) (lx : Lexer) : Prop :=
  source_start lx = src /\ source_id lx = fid /\ current lx = p
  /\ (p <= length src)%nat /\ line lx = line_at src p /\ column lx = column_at src p.

(** A token of [lexer_next] that starts at [st], with the lexer left at [q]: its
    text lies in the buffer between [st] and [q] and, unless it is an error, ends at
    [q]; its line, column and span are those of [st]. *)
Definition token_at (st q : nat) (t : Token) (lx : Lexer) : Prop :=
  at_pos q lx /\ start t = st
  /\ 0 <= tok_length t /\ Z.of_nat st + tok_length t <= Z.of_nat q
  /\ (type t <> TOK_ERROR -> Z.of_nat st + tok_length t = Z.of_nat q)
  /\ (type t = TOK_ERROR -> 0 < tok_length t /\ is_Some (error_msg lx))
  /\ tok_line t = line_at src st /\ tok_column t = column_at src st
  /\ span t = mkSpan fid (Z.of_nat st) (Z.of_nat st + tok_length t)
                (line_at src st) (column_at src st).

(** *** Rules *)

Lemma wp_ret {A} (a : A) Q lx : Q a lx -> wp (mret a) Q lx.
Proof. done. Qed.

Lemma wp_bind {A B} (m : M A) (k : A -> M B) Q lx :
  wp m (fun a => wp (k a) Q) lx -> wp (m ≫= k) Q lx.
Proof. unfold wp, mbind, M_bind. by destruct (m lx). Qed.

Lemma wp_mono {A} (m : M A) (Q Q' : A -> Lexer -> Prop) lx :
  wp m Q lx -> (forall a lx', Q a lx' -> Q' a lx') -> wp m Q' lx.
Proof. unfold wp. destruct (m lx); auto. Qed.

Lemma char_of_lt p c : src !! p = Some c -> char_of src p = c.
Proof. unfold char_of. by intros ->. Qed.

(** Only the terminator reads as NUL. *)
Lemma char_of_end p : (p <= length src)%nat -> char_of src p = NUL <-> p = length src.
Proof.
  intros Hp. unfold char_of. destruct (src !! p) as [c|] eqn:Hc; simpl.
  - pose proof (lookup_lt_Some _ _ _ Hc). split; [|lia]. intros ->.
    destruct Hsrc as [Hn _]. destruct Hn. by eapply list_elem_of_lookup_2.
  - apply lookup_ge_None in Hc. split; [lia | done].
Qed.

Lemma char_not_nul p : (p <= length src)%nat -> char_of src p <> NUL -> (p < length src)%nat.
Proof. intros Hp Hc. pose proof (char_of_end p Hp). lia || (destruct (decide (p = length src)); [tauto | lia]). Qed.

Lemma read_ok i lx :
  source_start lx = src -> (i <= length src)%nat -> read i lx = Ok (char_of src i) lx.
Proof.
  intros Hs Hi. unfold read, char_of. rewrite Hs.
  destruct (src !! i) eqn:Hc; [done|]. apply lookup_ge_None in Hc.
  by rewrite decide_True by lia.
Qed.

Lemma wp_peek p lx Q : at_pos p lx -> Q (char_of src p) lx -> wp peek Q lx.
Proof.
  intros (Hs & _ & Hc & Hp & _) HQ. unfold wp, peek. rewrite read_ok; by rewrite ?Hc.
Qed.

Lemma wp_is_at_end p lx Q :
  at_pos p lx -> Q (bool_decide (p = length src)) lx -> wp is_at_end Q lx.
Proof.
  intros Hat HQ. apply wp_bind. eapply wp_peek; [done|]. apply wp_ret.
  destruct Hat as (_ & _ & _ & Hp & _).
  by rewrite (bool_decide_ext _ (p = length src)) by (by apply char_of_end).
Qed.

Lemma wp_peek_next p lx Q :
  at_pos p lx -> Q (char_of src (S p)) lx -> wp peek_next Q lx.
Proof.
  intros Hat HQ. apply wp_bind. eapply wp_is_at_end; [done|].
  destruct Hat as (Hs & _ & Hc & Hp & _). case_bool_decide as He.
  - apply wp_ret. unfold char_of in HQ. rewrite lookup_ge_None_2 in HQ by lia. done.
  - unfold wp. rewrite Hc, read_ok by (done || lia). done.
Qed.

Lemma line_at_le p : (p <= length src)%nat -> 1 <= line_at src p <= 1 + Z.of_nat p.
Proof.
  intros Hp. unfold line_at.
  pose proof (List.filter_length_le newline (take p src)) as H.
  rewrite length_take in H. lia.
Qed.

Lemma since_newline_le l : (since_newline l <= length l)%nat.
Proof. induction l; simpl; [lia|]. destruct (newline a); lia. Qed.

Lemma column_at_le p : (p <= length src)%nat -> 1 <= column_at src p <= 1 + Z.of_nat p.
Proof.
  intros Hp. unfold column_at. pose proof (since_newline_le (reverse (take p src))) as H.
  rewrite length_reverse, length_take in H. lia.
Qed.

Lemma line_at_S p c :
  src !! p = Some c -> line_at src (S p) = if decide (c = NL) then line_at src p + 1 else line_at src p.
Proof.
  intros Hc. unfold line_at. rewrite (take_S_r _ _ c) by done.
  rewrite List.filter_app, length_app. simpl. unfold newline at 2.
  case_bool_decide; case_decide; simpl; done || lia.
Qed.

Lemma column_at_S p c :
  src !! p = Some c -> column_at src (S p) = if decide (c = NL) then 1 else column_at src p + 1.
Proof.
  intros Hc. unfold column_at. rewrite (take_S_r _ _ c) by done.
  rewrite reverse_snoc. simpl. unfold newline.
  case_bool_decide; case_decide; done || lia.
Qed.

Lemma wp_advance p lx Q :
  at_pos p lx -> (p < length src)%nat ->
  (forall lx', at_pos (S p) lx' -> Q (char_of src p) lx') -> wp advance Q lx.
Proof.
  intros Hat Hlt HQ. apply wp_bind. eapply wp_peek; [done|].
  destruct (lookup_lt_is_Some_2 src p Hlt) as [c Hc].
  rewrite (char_of_lt p c Hc) in *.
  destruct Hat as (Hs & Hid & Hcur & Hp & Hl & Hcol).
  pose proof (line_at_le p Hp). pose proof (column_at_le p Hp).
  destruct Hsrc as [_ Hlen].
  unfold wp, mbind, M_bind, get_current, get_line, get_column, int_incr, mret, M_ret, throw.
  pose proof (line_at_S p c Hc) as HlS. pose proof (column_at_S p c Hc) as HcS.
  case_decide; rewrite (proj2 (Z.eqb_neq _ _)) by lia; simpl; apply HQ;
    unfold at_pos; simpl; split_and!; (done || lia || congruence).
Qed.

Lemma wp_advance_ p lx Q :
  at_pos p lx -> (p < length src)%nat ->
  (forall lx', at_pos (S p) lx' -> Q tt lx') -> wp advance_ Q lx.
Proof.
  intros. apply wp_bind. eapply wp_advance; [done..|]. intros. apply wp_ret. auto.
Qed.

Lemma wp_match p e lx Q :
  at_pos p lx -> e <> NUL ->
  (char_of src p = e -> (p < length src)%nat -> forall lx', at_pos (S p) lx' -> Q true lx') ->
  (char_of src p <> e -> Q false lx) -> wp (match_ e) Q lx.
Proof.
  intros Hat He Ht Hf. apply wp_bind. eapply wp_is_at_end; [done|].
  pose proof Hat as (_ & _ & _ & Hp & _). case_bool_decide as Hend.
  - apply wp_ret, Hf. rewrite (proj2 (char_of_end p Hp)) by done. congruence.
  - apply wp_bind. eapply wp_peek; [done|]. case_decide as Hc.
    + apply wp_bind. eapply wp_advance; [done | lia |]. intros lx' Hat'.
      apply wp_ret, Ht; [done | lia | done].
    + apply wp_ret. by apply Hf.
Qed.

Lemma wp_get_current p lx Q : at_pos p lx -> Q p lx -> wp get_current Q lx.
Proof. intros (_ & _ & Hc & _). unfold wp, get_current. by rewrite Hc. Qed.

Lemma wp_get_line p lx Q : at_pos p lx -> Q (line_at src p) lx -> wp get_line Q lx.
Proof. intros (_ & _ & _ & _ & Hc & _). unfold wp, get_line. by rewrite Hc. Qed.

Lemma wp_get_column p lx Q : at_pos p lx -> Q (column_at src p) lx -> wp get_column Q lx.
Proof. intros (_ & _ & _ & _ & _ & Hc). unfold wp, get_column. by rewrite Hc. Qed.

Lemma wp_length_from p st lx Q :
  at_pos p lx -> (st <= p)%nat -> Q (Z.of_nat (p - st)) lx -> wp (length_from st) Q lx.
Proof.
  intros Hat Hst HQ. apply wp_bind. eapply wp_get_current; [done|]. apply wp_ret.
  destruct Hat as (_ & _ & _ & Hp & _). destruct Hsrc as [_ Hlen].
  rewrite to_int_small by lia. by replace (Z.of_nat p - Z.of_nat st) with (Z.of_nat (p - st)) by lia.
Qed.

(** A loop whose condition is a function of the position and whose body moves the
    lexer forward terminates, keeping any position invariant of the body. *)
Lemma wp_while (I : nat -> Prop) (cond : nat -> bool) (c : M bool) (b : M unit) p lx Q :
  at_pos p lx -> I p ->
  (forall q lx R, at_pos q lx -> I q -> R (cond q) lx -> wp c R lx) ->
  (forall q lx R, at_pos q lx -> I q -> cond q = true ->
     (forall q' lx', at_pos q' lx' -> (q < q')%nat -> I q' -> R tt lx') -> wp b R lx) ->
  (forall q lx', at_pos q lx' -> (p <= q)%nat -> I q -> cond q = false -> Q tt lx') ->
  wp (while c b) Q lx.
Proof.
  intros Hat HI Hc Hb HQ. unfold wp at 1, while.
  pose proof Hat as (Hs & _ & _ & Hp & _). rewrite Hs.
  assert (Hfuel : (length src - p < S (length src))%nat) by lia.
  fold (wp (loop (S (length src)) c b) Q lx).
  set (fuel := S (length src)) in *. clearbody fuel. clear Hp.
  revert p lx Hat HI HQ Hs Hfuel. induction fuel as [|fuel IH]; intros p lx Hat HI HQ Hs Hfuel.
  { lia. }
  simpl. apply wp_bind. eapply Hc; [done..|]. destruct (cond p) eqn:Hcond.
  - apply wp_bind. eapply Hb; [done..|]. intros q' lx' Hat' Hlt HI'.
    pose proof Hat' as (Hs' & _ & _ & Hp' & _).
    eapply IH; [done | done | | done | lia].
    intros q lx'' ? ? ? ?. apply (HQ q lx''); (done || lia).
  - apply wp_ret, (HQ p); (done || lia).
Qed.

(** [advance_while p] stops at the first character that fails [p]. *)
Lemma wp_advance_while (f : ascii -> bool) p lx Q :
  f NUL = false -> at_pos p lx ->
  (forall q lx', at_pos q lx' -> (p <= q)%nat ->
     (forall i, (p <= i < q)%nat -> f (char_of src i) = true) ->
     f (char_of src q) = false -> Q tt lx') ->
  wp (advance_while f) Q lx.
Proof.
  intros Hnul Hat HQ.
  apply (wp_while (fun q => forall i, (p <= i < q)%nat -> f (char_of src i) = true)
           (fun q => f (char_of src q))) with p; [done | lia | | |].
  - intros q lx' R Hat' _ HR. apply wp_bind. eapply wp_peek; [done|]. by apply wp_ret.
  - intros q lx' R Hat' HI Hf HR. pose proof Hat' as (_ & _ & _ & Hq & _).
    apply wp_advance_ with q; [done | |].
    { apply char_not_nul; [done|]. intros Hc. rewrite Hc in Hf. congruence. }
    intros lx'' Hat''. apply (HR (S q)); [done | lia |].
    intros i Hi. destruct (decide (i = q)) as [->|]; [done|]. apply HI. lia.
  - intros q lx' ? ? HI ?. by apply (HQ q).
Qed.

Lemma wp_make_token ty st q len lx Q :
  at_pos q lx -> ty <> TOK_ERROR -> 0 <= len -> Z.of_nat st + len = Z.of_nat q ->
  (forall t, type t = ty -> token_at st q t lx -> Q t lx) ->
  wp (make_token ty st len (line_at src st) (column_at src st)) Q lx.
Proof.
  intros Hat Hty Hlen Hq HQ. unfold wp, make_token.
  pose proof Hat as (_ & Hid & _ & Hle & _). destruct Hsrc as [_ Hb].
  apply HQ; [done|]. unfold token_at. simpl.
  split_and!; try done; try lia.
  unfold source_span_make. rewrite Hid. unfold INT_MAX in Hb.
  replace (if 0 <? len then len else 0) with len by (destruct (Z.ltb_spec 0 len); lia).
  rewrite u64_small by lia. by rewrite (proj2 (Z.ltb_ge _ _)) by lia.
Qed.

Lemma wp_error_token st q len msg lx Q :
  at_pos q lx -> 0 < len -> Z.of_nat st + len <= Z.of_nat q ->
  (forall t lx', type t = TOK_ERROR -> token_at st q t lx' -> Q t lx') ->
  wp (error_token st len (line_at src st) (column_at src st) msg) Q lx.
Proof.
  intros Hat Hlen Hq HQ. apply wp_bind. unfold wp at 1, set_error_msg. unfold wp, make_token.
  pose proof Hat as (Hs & Hid & Hcur & Hle & Hl & Hc). destruct Hsrc as [_ Hb].
  apply HQ; [done|]. unfold token_at. simpl.
  assert (Hspan : u64 (Z.of_nat st + (if 0 <? len then len else 0)) = Z.of_nat st + len).
  { rewrite (proj2 (Z.ltb_lt _ _)) by lia. unfold INT_MAX in Hb. apply u64_small. lia. }
  rewrite Hspan. unfold source_span_make. rewrite (proj2 (Z.ltb_ge _ _)) by lia. rewrite Hid.
  split_and!; try done; lia.
Qed.

Lemma wp_token_here ty st q lx Q :
  at_pos q lx -> ty <> TOK_ERROR -> (st <= q)%nat ->
  (forall t, type t = ty -> token_at st q t lx -> Q t lx) ->
  wp (token_here ty st (line_at src st) (column_at src st)) Q lx.
Proof.
  intros Hat Hty Hst HQ. apply wp_bind. eapply wp_length_from; [done..|].
  eapply wp_make_token; [done | done | lia | lia | done].
Qed.

Lemma wp_error_here st q msg lx Q :
  at_pos q lx -> (st < q)%nat ->
  (forall t lx', type t = TOK_ERROR -> token_at st q t lx' -> Q t lx') ->
  wp (error_here st (line_at src st) (column_at src st) msg) Q lx.
Proof.
  intros Hat Hst HQ. apply wp_bind. eapply wp_length_from; [done | lia |].
  eapply wp_error_token; [done | lia | lia | done].
Qed.

Lemma at_pos_le p lx : at_pos p lx -> (p <= length src)%nat.
Proof. by intros (_ & _ & _ & ? & _). Qed.

Lemma not_end p lx : at_pos p lx -> char_of src p <> NUL -> (p < length src)%nat.
Proof. intros Hat. apply char_not_nul. by eapply at_pos_le. Qed.

(** Side condition of [wp_advance]: some test has shown that the current character is
    not the terminator. *)
Ltac before_end :=
  solve [eapply not_end; [eassumption |];
  let E := fresh in intros E;
  match goal with
  | H : char_of src _ = _ |- _ => rewrite E in H; discriminate H
  | H : char_of src _ = _ \/ _ |- _ => rewrite E in H; destruct H as [H|H]; discriminate H
  | H : char_of src _ = _ /\ _ |- _ => rewrite E in H; destruct H as [H _]; discriminate H
  | H : _ /\ char_of src _ = _ |- _ => rewrite E in H; destruct H as [_ H]; discriminate H
  | H : _ (char_of src _) = true |- _ => rewrite E in H; discriminate H
  end
  | match goal with H : at_pos ?p _ |- (?p < _)%nat => apply at_pos_le in H end; lia].

(** Symbolic execution of one statement. *)
Ltac wp_step :=
  lazymatch goal with
  | |- wp (_ ≫= _) _ _ => apply wp_bind
  | |- wp (mret _) _ _ => apply wp_ret
  | |- wp peek _ _ => eapply wp_peek; [eassumption |]
  | |- wp peek_next _ _ => eapply wp_peek_next; [eassumption |]
  | |- wp is_at_end _ _ => eapply wp_is_at_end; [eassumption |]
  | |- wp get_current _ _ => eapply wp_get_current; [eassumption |]
  | |- wp get_line _ _ => eapply wp_get_line; [eassumption |]
  | |- wp get_column _ _ => eapply wp_get_column; [eassumption |]
  | |- wp advance _ _ =>
      eapply wp_advance; [eassumption | try before_end |
        let lx := fresh "lx" in let H := fresh "Hat" in intros lx H]
  | |- wp advance_ _ _ =>
      eapply wp_advance_; [eassumption | try before_end |
        let lx := fresh "lx" in let H := fresh "Hat" in intros lx H]
  | |- wp (advance_while _) _ _ =>
      eapply wp_advance_while; [reflexivity | eassumption |
        let q := fresh "q" in let lx := fresh "lx" in let H := fresh "Hat" in
        let Hle := fresh "Hle" in let Hall := fresh "Hall" in let Hend := fresh "Hend" in
        intros q lx H Hle Hall Hend]
  end.

Ltac wp_steps := repeat (wp_step; cbn beta).

(** What every scanner promises of a token starting at [st] when called at [p]: a
    token reaching from [st] to some later [q], not an end-of-file token, with a
    property of its kind of token. *)
Definition scanned (st p : nat) (P : nat -> Token -> Prop) (m : M Token) : Prop :=
  forall lx Q, at_pos p lx -> (st < p)%nat ->
  (forall q t lx', (p <= q)%nat -> type t <> TOK_EOF -> token_at st q t lx' -> P q t -> Q t lx') ->
  wp m Q lx.

(** One conditional of the code: split on its test. *)
Ltac wp_if :=
  lazymatch goal with
  | |- wp (if decide _ then _ else _) _ _ => case_decide
  | |- wp (if negb ?b then _ else _) _ _ =>
      let H := fresh "Hb" in destruct b eqn:H; cbn [negb]
  | |- wp (if bool_decide _ then _ else _) _ _ => case_bool_decide
  | |- wp (if Nat.eqb ?a ?b then _ else _) _ _ => destruct (Nat.eqb_spec a b)
  | |- wp (if ?b then _ else _) _ _ => let H := fresh "Hb" in destruct b eqn:H
  | |- wp (match_ _) _ _ =>
      eapply wp_match; [eassumption | discriminate |
        let lx := fresh "lx" in let H := fresh "Hat" in let Hc := fresh "Hc" in
        intros Hc _ lx H | let Hc := fresh "Hc" in intros Hc]
  end.

Ltac wp_run := repeat (first [wp_step | wp_if]; cbn beta match).

(** What a scanner of numbers returns. *)
Definition number_token (integer : Prop) (t : Token) : Prop :=
  type t = TOK_ERROR \/ type t = TOK_NUMBER_FLOAT \/ (type t = TOK_NUMBER_INT /\ integer).

(** Leaving a scanner with a token of known type or an error. *)
Ltac finish_token :=
  lazymatch goal with
  | |- wp (token_here _ _ _ _) _ _ =>
      eapply wp_token_here; [eassumption | discriminate | lia |];
      let t := fresh "t" in let Ht := fresh "Ht" in let Hok := fresh "Hok" in
      intros t Ht Hok
  | |- wp (error_here _ _ _ _) _ _ =>
      eapply wp_error_here; [eassumption | lia |];
      let t := fresh "t" in let lx := fresh "lx" in
      let Ht := fresh "Ht" in let Hok := fresh "Hok" in intros t lx Ht Hok
  | |- wp (error_token _ _ _ _ _) _ _ =>
      eapply wp_error_token; [eassumption | lia | lia |];
      let t := fresh "t" in let lx := fresh "lx" in
      let Ht := fresh "Ht" in let Hok := fresh "Hok" in intros t lx Ht Hok
  | |- wp (tok _ _ _ _ _) _ _ =>
      eapply wp_make_token; [eassumption | discriminate | lia | lia |];
      let t := fresh "t" in let Ht := fresh "Ht" in let Hok := fresh "Hok" in
      intros t Ht Hok
  end;
  match goal with
  | H : forall q t lx', _ |- _ => eapply H; [| | eassumption |];
      [lia | congruence
      | first [congruence | solve [unfold number_token; tauto] | idtac]]
  end.

Lemma find_keyword_in table text :
  find_keyword table text = TOK_IDENT
  \/ exists w, (w, find_keyword table text) ∈ table /\ text = cstr w.
Proof.
  induction table as [|[w ty] table IH]; simpl; [by left|].
  destruct (length (cstr w) =? length text)%nat; simpl.
  - case_bool_decide; simpl.
    + right. exists w. split; [left | done].
    + destruct IH as [|(w' & ? & ?)]; [by left|]. right. exists w'. split; [by right | done].
  - destruct IH as [|(w' & ? & ?)]; [by left|]. right. exists w'. split; [by right | done].
Qed.

Lemma find_keyword_ident table text :
  Forall (fun '(_, ty) => ty <> TOK_IDENT) table ->
  find_keyword table text = TOK_IDENT -> Forall (fun '(w, _) => text <> cstr w) table.
Proof.
  induction 1 as [|[w ty] table Hty _ IH]; simpl; [by constructor|]. intros Hf.
  destruct (length (cstr w) =? length text)%nat eqn:Hlen; simpl in Hf.
  - case_bool_decide; [done|]. constructor; auto.
  - constructor; [|auto]. intros ->. by rewrite Nat.eqb_refl in Hlen.
Qed.

Lemma keywords_not_ident : Forall (fun '(_, ty) => ty <> TOK_IDENT) keywords.
Proof. unfold keywords. forall_cons; discriminate. Qed.

Lemma keywords_proper :
  Forall (fun '(_, ty) => ty <> TOK_ERROR /\ ty <> TOK_EOF) keywords.
Proof. unfold keywords. forall_cons; split; discriminate. Qed.

Lemma identifier_type_proper text :
  identifier_type text <> TOK_ERROR /\ identifier_type text <> TOK_EOF.
Proof.
  unfold identifier_type. destruct (find_keyword_in keywords text) as [->|(w & Hw & _)].
  - split; discriminate.
  - pose proof keywords_proper as H. rewrite Forall_forall in H. by apply (H _ Hw).
Qed.

Lemma scan_identifier_ok st p :
  scanned st p (fun q t =>
    (forall i, (p <= i < q)%nat -> is_ident_char (char_of src i) = true)
    /\ is_ident_char (char_of src q) = false
    /\ type t = identifier_type (slice src st q))
  (scan_identifier st (line_at src st) (column_at src st)).
Proof.
  intros lx Q Hat Hst HQ. unfold scan_identifier. wp_steps.
  eapply wp_length_from; [eassumption | lia |]. wp_step.
  unfold wp at 1, lexeme. pose proof Hat0 as (Hs & _). rewrite Hs, Nat2Z.id.
  fold (slice src st q). destruct (identifier_type_proper (slice src st q)).
  eapply wp_make_token; [eassumption | done | lia | lia |]. intros t Ht Hok.
  eapply HQ; [| | exact Hok | done]; [lia | congruence].
Qed.

(** A digit of a radix, as a predicate on positions. *)
Definition radix_digits (radix : Z) (p q : nat) : Prop :=
  (p < q)%nat
  /\ forall i, (p <= i < q)%nat -> is_integer_digit_for_radix (char_of src i) radix = true.

Lemma number_token_mono (P Q : Prop) t : (P -> Q) -> number_token P t -> number_token Q t.
Proof. unfold number_token. tauto. Qed.

Lemma scan_prefixed_integer_ok st p radix m1 m2 :
  is_ident_char (char_of src p) = true ->
  scanned st p (fun q t => number_token (radix_digits radix (S p) q) t)
    (scan_prefixed_integer st (line_at src st) (column_at src st) radix m1 m2).
Proof.
  intros Hp lx Q Hat Hst HQ. unfold scan_prefixed_integer. wp_steps. destruct (Nat.eqb_spec (q - S p) 0).
  - wp_steps. finish_token.
  - wp_steps. destruct (is_ident_char (char_of src q)).
    + wp_steps. finish_token.
    + finish_token. right; right. split; [done|]. split; [lia | done].
Qed.


Lemma scan_hex_exponent_ok st p :
  char_of src p = "p"%char \/ char_of src p = "P"%char ->
  scanned st p (fun q t => number_token False t)
    (scan_hex_exponent st (line_at src st) (column_at src st)).
Proof.
  intros Hp lx Q Hat Hst HQ. unfold scan_hex_exponent. wp_run; finish_token.
Qed.

Lemma scan_hex_number_ok st p :
  char_of src p = "x"%char \/ char_of src p = "X"%char ->
  scanned st p (fun q t => number_token (radix_digits 16 (S p) q) t)
    (scan_hex_number st (line_at src st) (column_at src st)).
Proof.
  intros Hp lx Q Hat Hst HQ. unfold scan_hex_number. wp_steps.
  case_decide as Hdot; wp_steps.
  - wp_if; wp_run; try finish_token.
    eapply scan_hex_exponent_ok; [done | eassumption | lia |].
    intros q' t lx' ? ? ? HP. eapply HQ; [| | eassumption |]; [lia | done |].
    revert HP. by apply number_token_mono.
  - wp_if; wp_run; try finish_token.
    + eapply scan_hex_exponent_ok; [done | eassumption | lia |].
      intros q' t lx' ? ? ? HP. eapply HQ; [| | eassumption |]; [lia | done |].
      revert HP. by apply number_token_mono.
    + right; right. split; [done|]. split; [lia | done].
Qed.

Lemma scan_decimal_ok st p :
  scanned st p (fun q t =>
      number_token (forall i, (p <= i < q)%nat -> is_digit (char_of src i) = true) t)
    (scan_decimal st (line_at src st) (column_at src st)).
Proof.
  intros lx Q Hat Hst HQ. unfold scan_decimal. wp_steps.
  wp_run; try finish_token. all: auto.
Qed.

(** The text of an integer literal: decimal digits, or [0], a radix letter and at
    least one digit of that radix. *)
Definition radix_prefix (c : ascii) : option Z :=
  if decide (c = "x"%char \/ c = "X"%char) then Some 16
  else if decide (c = "b"%char \/ c = "B"%char) then Some 2
  else if decide (c = "o"%char \/ c = "O"%char) then Some 8
  else None.

Definition int_literal_at (st q : nat) : Prop :=
  (forall i, (st <= i < q)%nat -> is_digit (char_of src i) = true)
  \/ exists radix, char_of src st = "0"%char
       /\ radix_prefix (char_of src (S st)) = Some radix
       /\ radix_digits radix (S (S st)) q.

Lemma scan_number_ok st :
  is_digit (char_of src st) = true ->
  scanned st (S st) (fun q t => number_token (int_literal_at st q) t)
    (scan_number (char_of src st) st (line_at src st) (column_at src st)).
Proof.
  intros Hd lx Q Hat Hst HQ. unfold scan_number. wp_steps.
  assert (Hpre : forall r c, char_of src st = "0"%char -> char_of src (S st) = c ->
    radix_prefix c = Some r -> forall q t,
    number_token (radix_digits r (S (S st)) q) t ->
    number_token (int_literal_at st q) t).
  { intros r c H0 <- Hr q t. apply number_token_mono. intros Ht. right. by exists r. }
  case_decide as H1; [|case_decide as H2; [|case_decide as H3]].
  - eapply scan_hex_number_ok; [apply H1 | done..|].
    intros q t lx' Hq Ht Hok HP. eapply HQ; [done..|].
    eapply Hpre; [apply H1 | done | | done]. unfold radix_prefix. by rewrite decide_True by apply H1.
  - eapply scan_prefixed_integer_ok; [by destruct H2 as [_ [-> | ->]] | done..|].
    intros q t lx' Hq Ht Hok HP. eapply HQ; [done..|].
    eapply Hpre; [apply H2 | done | | done]. by destruct H2 as [_ [-> | ->]].
  - eapply scan_prefixed_integer_ok; [by destruct H3 as [_ [-> | ->]] | done..|].
    intros q t lx' Hq Ht Hok HP. eapply HQ; [done..|].
    eapply Hpre; [apply H3 | done | | done]. by destruct H3 as [_ [-> | ->]].
  - eapply scan_decimal_ok; [done..|].
    intros q t lx' Hq Ht Hok HP. eapply HQ; [done..|].
    revert HP. apply number_token_mono. intros HP. left. intros i Hi'.
    destruct (decide (i = st)) as [->|]; [done|]. apply HP. lia.
Qed.

(** *** Strings *)

(** A payload made of plain characters and two-character escapes: no closing quote
    and no dangling backslash. *)
Inductive escape_units : list ascii -> Prop :=
| units_nil : escape_units []
| units_plain c s : c <> "\"%char -> c <> DQUOTE -> escape_units s -> escape_units (c :: s)
| units_escape e s : escape_units s -> escape_units ("\"%char :: e :: s).

Lemma escape_units_app s1 s2 : escape_units s1 -> escape_units s2 -> escape_units (s1 ++ s2).
Proof. induction 1; simpl; eauto using escape_units. Qed.

Lemma slice_snoc p q :
  (p <= q)%nat -> (q < length src)%nat ->
  slice src p (S q) = slice src p q ++ [char_of src q].
Proof.
  intros Hp Hq. unfold slice. replace (S q - p)%nat with (S (q - p)) by lia.
  destruct (lookup_lt_is_Some_2 src q Hq) as [c Hc]. rewrite (char_of_lt q c Hc).
  apply take_S_r. rewrite lookup_drop. by replace (p + (q - p))%nat with q by lia.
Qed.

(** Analysing such a payload never finds the dangling backslash. *)
Lemma escape_units_analyze s i n :
  escape_units s ->
  ok (analyze_from s i n) = true
  \/ (s !! (Z.to_nat (invalid_offset (analyze_from s i n)) - i)%nat
        = Some (invalid_escape (analyze_from s i n))
      /\ escape_value (invalid_escape (analyze_from s i n)) = None).
Proof.
  intros Hs. destruct (ok (analyze_from s i n)) eqn:Hok; [by left | right].
  destruct (analyze_from_fail s i n Hok) as (q & e & rest & -> & (d & Hd & _) & Hcase).
  destruct Hcase as [(-> & _ & _)|(r & -> & He & Ho & ->)].
  - exfalso. clear Hok. revert Hs. induction Hd as [|c s' d Hc Hd IH|c v s' d Hc Hd IH]; intros Hs.
    + inversion Hs; done.
    + inversion Hs; subst; [auto | done].
    + inversion Hs; subst; [done | auto].
  - split; [|done]. rewrite Ho.
    replace (Z.to_nat (Z.of_nat (i + length q + 1)) - i)%nat with (length q + 1)%nat by lia.
    rewrite lookup_app_r by lia. by replace (length q + 1 - length q)%nat with 1%nat by lia.
Qed.

Lemma slice_nil p : slice src p p = [].
Proof. unfold slice. by rewrite Nat.sub_diag. Qed.

Lemma scan_string_ok st p :
  scanned st p (fun q t => type t = TOK_ERROR \/ type t = TOK_STRING /\
      exists e, q = S e /\ (p <= e)%nat /\ char_of src e = DQUOTE
                /\ escape_units (slice src p e))
    (scan_string st (line_at src st) (column_at src st)).
Proof.
  intros lx Q Hat Hst HQ. unfold scan_string. wp_step.
  eapply (wp_while (fun q => (p <= q)%nat /\ (escape_units (slice src p q) \/ q = length src))
    (fun q => negb (bool_decide (char_of src q = DQUOTE)) && negb (bool_decide (q = length src))));
    [eassumption | split; [done|]; left; rewrite slice_nil; constructor | | |].
  - intros q lx' R Hat' _ HR. wp_steps. done.
  - intros q lx' R Hat' [Hpq HI] Hc HR. to_props. rewrite !bool_decide_eq_false in *.
    pose proof (at_pos_le q lx' Hat') as Hq.
    destruct HI as [HI|]; [|done]. wp_steps. case_decide as Hesc.
    + wp_step. pose proof (at_pos_le _ _ Hat0).
      assert (S q <> length src).
      { intros He. destruct Hesc as [_ Hn]. apply Hn. by apply char_of_end; lia. }
      wp_step. apply (HR (S (S q))); [done | lia |]. split; [lia|]. left.
      rewrite !slice_snoc by lia. rewrite <- app_assoc. apply escape_units_app; [done|].
      simpl. destruct Hesc as [-> _]. apply units_escape, units_nil.
    + wp_steps. apply (HR (S q)); [done | lia |]. split; [lia|].
      destruct (decide (char_of src q = "\"%char)) as [Hb|Hb].
      * right. destruct (decide (char_of src (S q) = NUL)) as [Hn|Hn]; [|tauto].
        apply char_of_end in Hn; lia.
      * left. rewrite slice_snoc by lia. apply escape_units_app; [done|]. by repeat constructor.
  - intros q lx' Hat' Hle [Hpq HI] Hc. wp_steps.
    destruct (bool_decide_reflect (q = length src)) as [He|He].
    + finish_token.
    + assert (Hq : char_of src q = DQUOTE).
      { rewrite andb_false_iff, !negb_false_iff, bool_decide_eq_true in Hc. naive_solver. }
      wp_steps. finish_token. right. split; [done|]. exists q. split_and!; [done | lia | done |].
      destruct HI; [done | lia].
Qed.

(** A character literal holds one character or one two-character escape. *)
Lemma scan_char_ok st p :
  scanned st p (fun q t => type t = TOK_ERROR \/ type t = TOK_CHAR /\
      ((q = S (S p) /\ char_of src p <> "\"%char /\ char_of src (S p) = "'"%char)
      \/ (q = S (S (S p)) /\ char_of src p = "\"%char /\ char_of src (S (S p)) = "'"%char)))
    (scan_char st (line_at src st) (column_at src st)).
Proof.
  intros lx Q Hat Hst HQ. unfold scan_char.
  wp_run; try match goal with H : ~ _ <> _ |- _ => apply dec_stable in H end;
    finish_token; intros; tauto.
Qed.

(** *** Operators *)

(** Only the spellings that begin with the character at [p] matter. *)
Definition begins_with (c : ascii) (row : string * TokenType) : bool :=
  match cstr (fst row) with
  | [] => true
  | d :: _ => (c =? d)%char
  end.

Lemma operator_at_filter table p :
  operator_at table src p
  = operator_at (List.filter (begins_with (char_of src p)) table) src p.
Proof.
  induction table as [|[w ty] table IH]; [done|]. unfold begins_with at 1. simpl.
  destruct (cstr w) as [|d w'] eqn:Hw; simpl; rewrite ?Hw; [done|].
  destruct (char_of src p =? d)%char eqn:Hd; simpl; rewrite ?Hw; simpl; rewrite ?Hd; simpl; [|done].
  by rewrite IH.
Qed.

(** Evaluate [operator_at] from what the branches taken say of the characters. *)
Ltac eval_operator :=
  rewrite operator_at_filter;
  match goal with
  | H : char_of src ?p = _ |- context [begins_with (char_of src ?p)] => rewrite H
  end;
  match goal with
  | |- context [List.filter ?f ?l] =>
      let v := eval vm_compute in (List.filter f l) in change (List.filter f l) with v
  end;
  cbn [operator_at cstr list_ascii_of_string spelled];
  repeat match goal with
  | H : char_of src ?p = _ |- _ => rewrite H
  | H : char_of src ?p <> ?c |- context [(char_of src ?p =? ?c)%char] =>
      rewrite (proj2 (Ascii.eqb_neq (char_of src p) c) H)
  end; cbn.

Lemma operator_at_none table p :
  Forall (fun row => begins_with (char_of src p) row = false) table ->
  operator_at table src p = None.
Proof.
  intros Hall. rewrite operator_at_filter. induction Hall as [|row table Hrow _ IH]; [done|].
  simpl. by rewrite Hrow.
Qed.

Lemma scan_symbol_ok st :
  scanned st (S st) (fun q t =>
      match operator_at operators src st with
      | Some (ty, e) => type t = ty /\ q = e
      | None => type t = TOK_ERROR
      end)
    (scan_symbol st (line_at src st) (column_at src st) (char_of src st)).
Proof.
  intros lx Q Hat Hst HQ.
  unfold scan_symbol, scan_punctuation, scan_arithmetic, scan_definition, scan_angle,
    scan_logical, scan_angle_case, doubled_or_equal, or_equal.
  wp_run; finish_token; try (eval_operator; split; [done | lia]).
  - destruct H9 as [Hd1 Hd2]. eval_operator. auto.
  - rewrite operator_at_filter, H8. cbn. rewrite H8, !andb_true_r. cbn.
    rewrite (proj2 (andb_false_iff _ _)); [by auto|]. rewrite !Ascii.eqb_neq.
    destruct (decide (char_of src (S st) = "."%char)); tauto.
  - rewrite operator_at_none; [done|]. unfold operators.
    forall_cons; apply Ascii.eqb_neq; assumption.
Qed.

(** *** White space and comments *)

Definition two_at (c d : ascii) (p : nat) : Prop :=
  char_of src p = c /\ char_of src (S p) = d.

#[local] Instance two_at_dec c d p : Decision (two_at c d p).
Proof. unfold two_at. apply _. Defined.

(** The text between two offsets is white space and complete comments.  A line comment
    runs to the newline or the end of the buffer, a block comment to the first [*/]
    after its opening, so comments do not nest. *)
Inductive trivia : nat -> nat -> Prop :=
| trivia_nil p : trivia p p
| trivia_space p q : is_space (char_of src p) = true -> trivia (S p) q -> trivia p q
| trivia_line p e q :
    two_at "/" "/" p -> (p < e)%nat -> (e = length src \/ char_of src e = NL) ->
    (forall i, (p <= i < e)%nat -> char_of src i <> NL) ->
    trivia e q -> trivia p q
| trivia_block p e q :
    two_at "/" "*" p -> (S (S p) <= e)%nat -> two_at "*" "/" e ->
    (forall i, (S (S p) <= i < e)%nat -> ~ two_at "*" "/" i) ->
    trivia (S (S e)) q -> trivia p q.

(** A block comment opens at [p] and is never closed. *)
Definition unterminated_comment (p : nat) : Prop :=
  two_at "/" "*" p
  /\ forall i, (S (S p) <= i < length src)%nat -> ~ two_at "*" "/" i.

(** Nothing to skip at [p]. *)
Definition token_start (p : nat) : Prop :=
  is_space (char_of src p) = false /\ ~ two_at "/" "/" p /\ ~ two_at "/" "*" p.

Lemma wp_skip_loop fuel p lx Q :
  at_pos p lx -> (length src - p < fuel)%nat ->
  (forall q lx', at_pos q lx' -> (p <= q)%nat -> trivia p q -> token_start q -> Q None lx') ->
  (forall st t lx', (p <= st)%nat -> trivia p st -> unterminated_comment st ->
     type t = TOK_ERROR -> token_at st (length src) t lx' -> Q (Some t) lx') ->
  wp (skip_loop fuel) Q lx.
Proof.
  revert p lx. induction fuel as [|fuel IH]; intros p lx Hat Hfuel Hnone Hsome; [lia|].
  (* the rest of the text, after [e] *)
  assert (Hrec : forall e lx', at_pos e lx' -> (p < e)%nat ->
            (forall q, trivia e q -> trivia p q) -> wp (skip_loop fuel) Q lx').
  { intros e lx' Hat' Hlt Htr. pose proof (at_pos_le _ _ Hat').
    eapply IH; [eassumption | lia | |].
    - intros q lx'' ? ? ? ?. apply (Hnone q); (done || lia || auto).
    - intros q t lx'' ? ? ? ? ?. apply (Hsome q t); (done || lia || auto). }
  clear IH. cbn [skip_loop]. wp_step. wp_step. wp_if.
  { wp_steps. eapply Hrec; [eassumption | lia |]. intros q. by apply trivia_space. }
  wp_steps. case_decide as Hl; [|case_decide as Hbl].
  - wp_step.
    apply (wp_while (fun e => forall i, (p <= i < e)%nat -> char_of src i <> NL)
      (fun e => negb (bool_decide (char_of src e = NL)) && negb (bool_decide (e = length src))))
      with p; [done | lia | | |].
    + intros e lx' R Hat' _ HR. by wp_steps.
    + intros e lx' R Hat' HI Hc HR. to_props. rewrite !bool_decide_eq_false in *.
      pose proof (at_pos_le _ _ Hat'). wp_step. apply (HR (S e)); [done | lia |].
      intros i Hi. destruct (decide (i = e)) as [->|]; [done | apply HI; lia].
    + intros e lx' Hat' Hle HI Hc.
      rewrite andb_false_iff, !negb_false_iff, !bool_decide_eq_true in Hc.
      assert (p < e)%nat.
      { destruct (decide (e = p)) as [->|]; [|lia]. destruct Hl as [Hl _].
        destruct Hc as [Hc|Hc]; [rewrite Hl in Hc; discriminate Hc|].
        apply char_of_end in Hc; [|lia]. rewrite Hl in Hc. discriminate Hc. }
      eapply Hrec; [eassumption | done |]. intros q. apply trivia_line; try done. tauto.
  - wp_steps.
    apply (wp_while (fun e => forall i, (S (S p) <= i < e)%nat -> ~ two_at "*" "/" i)
      (fun e => negb (bool_decide (e = length src))
                && negb (bool_decide (char_of src e = "*"%char)
                         && bool_decide (char_of src (S e) = "/"%char))))
      with (S (S p)); [done | lia | | |].
    + intros e lx' R Hat' _ HR. by wp_steps.
    + intros e lx' R Hat' HI Hc HR. to_props. rewrite !bool_decide_eq_false in *.
      pose proof (at_pos_le _ _ Hat'). wp_step. apply (HR (S e)); [done | lia |].
      intros i Hi. destruct (decide (i = e)) as [->|]; [|apply HI; lia].
      unfold two_at. rewrite andb_false_iff, !bool_decide_eq_false in *. tauto.
    + intros e lx' Hat' Hle HI Hc.
      rewrite andb_false_iff, !negb_false_iff, andb_true_iff, !bool_decide_eq_true in Hc.
      wp_steps. destruct (bool_decide_reflect (e = length src)) as [->|He].
      * wp_step. eapply wp_error_token; [done | lia | lia |].
        intros t lx'' Ht Hok. apply wp_ret, (Hsome p t); (done || constructor || split; done).
      * assert (Hend : two_at "*" "/" e) by (unfold two_at; tauto). clear Hc.
        pose proof Hend as [? ?]. wp_steps.
        eapply Hrec; [eassumption | lia |]. intros q. by apply trivia_block.
  - apply wp_ret, (Hnone p); [done | lia | constructor | split_and!; done].
Qed.

Lemma wp_skip p lx Q :
  at_pos p lx ->
  (forall q lx', at_pos q lx' -> (p <= q)%nat -> trivia p q -> token_start q -> Q None lx') ->
  (forall st t lx', (p <= st)%nat -> trivia p st -> unterminated_comment st ->
     type t = TOK_ERROR -> token_at st (length src) t lx' -> Q (Some t) lx') ->
  wp skip_whitespace_and_comments Q lx.
Proof.
  intros Hat. pose proof Hat as (Hs & _). unfold wp, skip_whitespace_and_comments.
  rewrite Hs. by eapply wp_skip_loop; [|lia].
Qed.

(** *** The whole lexer *)

(** The token from [st] to [q], by its first character. *)
Definition identifier_at (st q : nat) (t : Token) : Prop :=
  (forall i, (st <= i < q)%nat -> is_ident_char (char_of src i) = true)
  /\ is_ident_char (char_of src q) = false
  /\ type t = identifier_type (slice src st q).

Definition string_at (st q : nat) (t : Token) : Prop :=
  type t = TOK_ERROR
  \/ type t = TOK_STRING
     /\ exists e, q = S e /\ (st < e)%nat /\ char_of src e = DQUOTE
                  /\ escape_units (slice src (S st) e).

Definition char_literal_at (st q : nat) (t : Token) : Prop :=
  type t = TOK_ERROR
  \/ type t = TOK_CHAR
     /\ exists e, q = S e /\ char_of src e = "'"%char
          /\ (if decide (char_of src (S st) = "\"%char) then e = S (S (S st)) else e = S (S st)).

Definition operator_token_at (st q : nat) (t : Token) : Prop :=
  match operator_at operators src st with
  | Some (ty, e) => type t = ty /\ q = e
  | None => type t = TOK_ERROR
  end.

Definition token_text (st q : nat) (t : Token) : Prop :=
  let c := char_of src st in
  if is_alpha c then identifier_at st q t
  else if is_digit c then number_token (int_literal_at st q) t
  else if decide (c = DQUOTE) then string_at st q t
  else if decide (c = "'"%char) then char_literal_at st q t
  else operator_token_at st q t.

(** What one call of [lexer_next] at offset [p] may answer. *)
Inductive next_token (p : nat) (t : Token) (lx : Lexer) : Prop :=
| next_eof :
    trivia p (length src) -> type t = TOK_EOF -> tok_length t = 0 ->
    token_at (length src) (length src) t lx -> next_token p t lx
| next_unterminated st :
    (p <= st)%nat -> trivia p st -> unterminated_comment st -> (st < length src)%nat ->
    type t = TOK_ERROR -> token_at st (length src) t lx -> next_token p t lx
| next_text st q :
    (p <= st < q)%nat -> trivia p st -> token_start st -> type t <> TOK_EOF ->
    token_at st q t lx -> token_text st q t -> next_token p t lx.

Lemma wp_lexer_next p lx Q :
  at_pos p lx -> (forall t lx', next_token p t lx' -> Q t lx') -> wp lexer_next Q lx.
Proof.
  intros Hat HQ. apply wp_bind. eapply wp_skip; [done | |].
  - intros st lx' Hat' Hle Htr Hst. wp_steps.
    destruct (bool_decide_reflect (st = length src)) as [->|Hne].
    + eapply wp_make_token; [done | done | lia | lia |]. intros t Ht Hok.
      apply HQ, next_eof; try done.
      destruct Hok as (_ & _ & _ & _ & Hlen & _). rewrite Ht in Hlen.
      specialize (Hlen ltac:(discriminate)). lia.
    + pose proof (at_pos_le _ _ Hat'). wp_step. wp_step.
      assert (Hout : forall q t lx'', (S st <= q)%nat -> type t <> TOK_EOF ->
        token_at st q t lx'' -> token_text st q t -> Q t lx'').
      { intros. apply HQ. eapply next_text; eauto; lia. }
      revert Hout. unfold token_text. intros Hout.
      destruct (is_alpha (char_of src st)) eqn:Halpha;
        [|destruct (is_digit (char_of src st)) eqn:Hdigit;
          [|case_decide; [|case_decide]]].
      * eapply scan_identifier_ok; [done | lia |]. intros q t lx'' Hq Ht Hok [Hall Hend].
        apply (Hout q); [done..|]. split; [|done].
        intros i Hi. destruct (decide (i = st)) as [->|]; [|apply Hall; lia].
        unfold is_ident_char. by rewrite Halpha.
      * eapply scan_number_ok; [done | done | lia |]. intros q t lx'' ? ? ? ?. by apply (Hout q).
      * eapply scan_string_ok; [done | lia |]. intros q t lx'' ? ? ? HP. apply (Hout q); [done..|].
        destruct HP as [HP|(HP & e & ? & ? & ?)]; [by left | right].
        split; [done|]. exists e. split_and!; tauto || lia.
      * eapply scan_char_ok; [done | lia |]. intros q t lx'' ? ? ? HP. apply (Hout q); [done..|].
        destruct HP as [HP|(HP & [(-> & Hn & Hc)|(-> & He & Hc)])]; [by left | right | right].
        -- split; [done|]. eexists. split_and!; [done..|]. by rewrite decide_False.
        -- split; [done|]. eexists. split_and!; [done..|]. by rewrite decide_True.
      * eapply scan_symbol_ok; [done | lia |]. intros q t lx'' ? ? ? ?. by apply (Hout q).
  - intros st t lx' Hle Htr Hun Ht Hok. apply wp_ret, HQ.
    eapply next_unterminated; try done. destruct Hun as [[Hc _] _].
    destruct Hok as (Hat' & _ & _ & Hlen & _ & Herr & _). destruct (Herr Ht). lia.
Qed.
Lemma trivia_le p q : trivia p q -> (p <= q)%nat.
Proof. induction 1; lia. Qed.

(** What every token has in common. *)
Lemma next_token_shape p t lx :
  next_token p t lx ->
  exists q, trivia p (start t) /\ token_at (start t) q t lx
    /\ (type t = TOK_EOF <-> start t = length src)
    /\ (type t <> TOK_EOF -> (start t < q)%nat).
Proof.
  intros [Htr Ht _ Hok | st Hle Htr _ Hlt Ht Hok | st q Hle Htr _ Ht Hok _];
    pose proof Hok as (Hat & -> & _); apply at_pos_le in Hat; eexists;
    (split_and!; [done | exact Hok | split; intros; congruence || lia | intros; congruence || lia]).
Qed.

(** Tokens and the trivia between them, from [p] to the end of the buffer.  Only an
    error token may be shorter than the text it stands for. *)
Inductive tiles : nat -> list Token -> Prop :=
| tiles_eof p t :
    trivia p (length src) -> type t = TOK_EOF -> start t = length src -> tiles p [t]
| tiles_token p t q ts :
    trivia p (start t) -> type t <> TOK_EOF -> 0 < tok_length t ->
    Z.of_nat (start t) + tok_length t <= Z.of_nat q ->
    (type t <> TOK_ERROR -> Z.of_nat (start t) + tok_length t = Z.of_nat q) ->
    tiles q ts -> tiles p (t :: ts).

Lemma wp_lex_all fuel p lx Q :
  at_pos p lx -> (length src - p < fuel)%nat ->
  (forall ts lx', tiles p ts -> Q ts lx') -> wp (lex_all fuel) Q lx.
Proof.
  revert p lx Q. induction fuel as [|fuel IH]; intros p lx Q Hat Hfuel HQ; [lia|].
  simpl. apply wp_bind. eapply wp_lexer_next; [done|]. intros t lx' Ht.
  destruct (next_token_shape p t lx' Ht) as (q & Htr & Hok & Heof & Hlt).
  pose proof (trivia_le _ _ Htr) as Hle. case_decide as Hty.
  - apply wp_ret, HQ. pose proof (proj1 Heof Hty) as Hst.
    apply tiles_eof; [by rewrite <- Hst | done..].
  - specialize (Hlt Hty). pose proof Hok as (Hat' & _ & Hpos & Hend & Hex & Herr & _).
    pose proof (at_pos_le _ _ Hat').
    apply wp_bind. eapply IH; [done | lia |]. intros ts lx'' Hts. apply wp_ret, HQ.
    apply (tiles_token p t q ts); try done.
    destruct (decide (type t = TOK_ERROR)) as [He|He]; [by apply Herr | specialize (Hex He); lia].
Qed.

End lexing.

#[global] Instance buffer_ok_dec src : Decision (buffer_ok src).
Proof. unfold buffer_ok. apply _. Defined.

Lemma lexer_init_at_pos name src : at_pos src 0 0 (lexer_init name src).
Proof. unfold at_pos. simpl. split_and!; try done. lia. Qed.

(** ** Properties *)

(** The answer of one call, from the rules above. *)
Lemma lexer_next_answer src fid p lx :
  buffer_ok src -> at_pos src fid p lx ->
  exists t lx', lexer_next lx = Ok t lx' /\ next_token src fid p t lx'.
Proof.
  intros Hsrc Hat.
  pose proof (wp_lexer_next src fid Hsrc p lx (next_token src fid p) Hat ltac:(done)) as H.
  unfold wp in H. destruct (lexer_next lx) as [t lx'|]; [eauto | done].
Qed.

Lemma lexer_next_is src fid p lx t lx' :
  buffer_ok src -> at_pos src fid p lx -> lexer_next lx = Ok t lx' ->
  next_token src fid p t lx'.
Proof.
  intros Hsrc Hat Hn. destruct (lexer_next_answer src fid p lx Hsrc Hat) as (? & ? & Hn' & H).
  congruence.
Qed.

Lemma char_of_length src : char_of src (length src) = NUL.
Proof. unfold char_of. by rewrite lookup_ge_None_2 by lia. Qed.

(** The answer for a token whose first character is known. *)
Lemma next_token_text src fid p t lx :
  buffer_ok src -> next_token src fid p t lx -> char_of src (start t) <> "/"%char ->
  char_of src (start t) <> NUL -> token_text src (start t) (current lx) t.
Proof.
  intros Hsrc [_ _ _ Hok | st _ _ [[Hc _] _] _ _ Hok | st q _ _ _ _ Hok Htext] Hsl Hnul;
    pose proof Hok as ((_ & _ & Hcur & _) & Hst & _); subst.
  - rewrite Hst in Hnul. by rewrite char_of_length in Hnul.
  - congruence.
  - done.
Qed.

(** Longer spellings come first in the operator table. *)
Fixpoint longest_first (table : list (string * TokenType)) : bool :=
  match table with
  | [] => true
  | (w, _) :: table =>
      forallb (fun row => length (cstr (fst row)) <=? length (cstr w))%nat table
      && longest_first table
  end.

Lemma operator_at_longest table src p ty e :
  longest_first table = true -> operator_at table src p = Some (ty, e) ->
  (exists w, (w, ty) ∈ table /\ spelled src p (cstr w) = true /\ e = (p + length (cstr w))%nat)
  /\ forall w' ty', (w', ty') ∈ table -> spelled src p (cstr w') = true ->
       (p + length (cstr w') <= e)%nat.
Proof.
  induction table as [|[w tyw] table IH]; simpl; [done|]. intros Hs Ho. to_props.
  destruct (spelled src p (cstr w)) eqn:Hw.
  - inversion Ho; subst. split.
    + exists w. split_and!; [left | done | lia].
    + intros w' ty' [Hin|Hin]%elem_of_cons Hsp; [inversion Hin; lia|].
      rewrite forallb_forall in H. apply list_elem_of_In in Hin.
      specialize (H _ Hin). apply Nat.leb_le in H. simpl in H. lia.
  - destruct (IH ltac:(done) Ho) as [(w' & Hin & Hsp & He) Hmax]. split.
    + exists w'. split_and!; [by right | done | done].
    + intros w'' ty' [Hin'|Hin']%elem_of_cons Hsp'; [congruence | eauto].
Qed.

Lemma operator_at_None table src p w ty :
  operator_at table src p = None -> (w, ty) ∈ table -> spelled src p (cstr w) = false.
Proof.
  induction table as [|[w' ty'] table IH]; simpl; [by intros _ ?%elem_of_nil|].
  destruct (spelled src p (cstr w')) eqn:Hw; [done|].
  intros Ho [Hin|Hin]%elem_of_cons; [by inversion Hin | auto].
Qed.

Lemma operators_proper : Forall (fun '(_, ty) => ty <> TOK_ERROR) operators.
Proof. unfold operators. forall_cons; discriminate. Qed.

(** C12. One call of [lexer_next] on a buffer that fits the [int] counters returns a
    token: it never reads outside the buffer, overflows a counter or loops; the lexer
    stays inside the buffer, skips only white space and comments, moves forward unless
    the answer is [TOK_EOF], which it is exactly at the end of the buffer, and
    leaves a message when the answer is [TOK_ERROR]. *)
Theorem lexer_next_ok src fid p lx :
  buffer_ok src -> at_pos src fid p lx ->
  exists t lx' q, lexer_next lx = Ok t lx' /\ at_pos src fid q lx'
    /\ trivia src p (start t)
    /\ (type t = TOK_EOF <-> start t = length src)
    /\ (type t <> TOK_EOF -> (p < q)%nat)
    /\ (type t = TOK_ERROR -> is_Some (error_msg lx')).
Proof.
  intros Hsrc Hat. destruct (lexer_next_answer src fid p lx Hsrc Hat) as (t & lx' & Hn & Ht).
  destruct (next_token_shape src fid p t lx' Ht) as (q & Htr & Hok & Heof & Hlt).
  pose proof (trivia_le _ _ _ Htr). pose proof Hok as (Hat' & _ & _ & _ & _ & Herr & _).
  exists t, lx', q. split_and!; try done.
  - intros Hty. specialize (Hlt Hty). lia.
  - intros Hty. by apply Herr.
Qed.

Lemma lexer_next_ok_witness :
  let src := cstr "/* a */ x" in
  exists t lx' q, lexer_next (lexer_init "f" src) = Ok t lx' /\ at_pos src 0 q lx'
    /\ trivia src 0 (start t)
    /\ (type t = TOK_EOF <-> start t = length src)
    /\ (type t <> TOK_EOF -> (0 < q)%nat)
    /\ (type t = TOK_ERROR -> is_Some (error_msg lx')).
Proof.
  apply (lexer_next_ok (cstr "/* a */ x") 0 0).
  - by apply (bool_decide_unpack _).
  - apply lexer_init_at_pos.
Defined.

(** Every token carries its provenance: its text starts at [start] and lies
    before the lexer's new position, reaching it unless the token is an error; line
    and column are those a reader counts for [start], and the span is the byte
    range of the text in this source. *)
Theorem lexer_next_position src fid p lx t lx' :
  buffer_ok src -> at_pos src fid p lx -> lexer_next lx = Ok t lx' ->
  0 <= tok_length t
  /\ Z.of_nat (start t) + tok_length t <= Z.of_nat (current lx')
  /\ (type t <> TOK_ERROR -> Z.of_nat (start t) + tok_length t = Z.of_nat (current lx'))
  /\ tok_line t = line_at src (start t) /\ tok_column t = column_at src (start t)
  /\ line lx' = line_at src (current lx') /\ column lx' = column_at src (current lx')
  /\ span t = mkSpan fid (Z.of_nat (start t)) (Z.of_nat (start t) + tok_length t)
                (line_at src (start t)) (column_at src (start t)).
Proof.
  intros Hsrc Hat Hn. pose proof (lexer_next_is _ _ _ _ _ _ Hsrc Hat Hn) as Ht.
  destruct (next_token_shape src fid p t lx' Ht) as (q & _ & Hok & _).
  destruct Hok as ((_ & _ & Hcur & _ & Hl & Hc) & _ & ? & ? & ? & _ & ? & ? & ?).
  by rewrite Hcur.
Qed.

Lemma lexer_next_position_witness :
  let src := NL :: cstr " ab" in
  exists t lx', lexer_next (lexer_init "f" src) = Ok t lx'
    /\ tok_line t = line_at src (start t) /\ tok_column t = column_at src (start t).
Proof.
  intros src. destruct (lexer_next (lexer_init "f" src)) as [t lx'|] eqn:Hn;
    [|vm_compute in Hn; discriminate Hn].
  exists t, lx'. split; [done|].
  pose proof (lexer_next_position src 0 0 (lexer_init "f" src) t lx'
    ltac:(by apply (bool_decide_unpack _)) (lexer_init_at_pos _ _) Hn)
    as (_ & _ & _ & Hl & Hc & _). by split.
Defined.



(** A token that starts with a letter or underscore is the longest run of
    identifier characters, and its type is that of the keyword it spells, or
    [TOK_IDENT] when no keyword has that spelling. *)
Theorem lexer_identifier src fid p lx t lx' :
  buffer_ok src -> at_pos src fid p lx -> lexer_next lx = Ok t lx' ->
  is_alpha (char_of src (start t)) = true ->
  let text := slice src (start t) (current lx') in
  Z.of_nat (start t) + tok_length t = Z.of_nat (current lx')
  /\ (forall i, (start t <= i < current lx')%nat -> is_ident_char (char_of src i) = true)
  /\ is_ident_char (char_of src (current lx')) = false
  /\ ((exists w, (w, type t) ∈ keywords /\ text = cstr w)
      \/ (type t = TOK_IDENT /\ Forall (fun '(w, _) => text <> cstr w) keywords)).
Proof.
  intros Hsrc Hat Hn Halpha text. pose proof (lexer_next_is _ _ _ _ _ _ Hsrc Hat Hn) as Ht.
  assert (Htext : token_text src (start t) (current lx') t).
  { eapply next_token_text; eauto; intros Hc; by rewrite Hc in Halpha. }
  unfold token_text in Htext. rewrite Halpha in Htext.
  destruct Htext as (Hall & Hend & Hty). fold text in Hty.
  destruct (next_token_shape src fid p t lx' Ht) as (q & _ & Hok & _).
  destruct Hok as ((_ & _ & Hcur & _) & _ & _ & _ & Hex & _).
  destruct (identifier_type_proper text) as [Hne _].
  split_and!; [rewrite Hcur; apply Hex; congruence | done | done |].
  unfold identifier_type in Hty. destruct (find_keyword_in keywords text) as [Hi|Hk].
  - right. rewrite Hty. split; [done|].
    by apply find_keyword_ident; [apply keywords_not_ident |].
  - left. by rewrite Hty.
Qed.

Lemma lexer_identifier_witness :
  let src := cstr "iff" in
  exists t lx', lexer_next (lexer_init "f" src) = Ok t lx'
    /\ ((exists w, (w, type t) ∈ keywords /\ slice src (start t) (current lx') = cstr w)
        \/ (type t = TOK_IDENT
            /\ Forall (fun '(w, _) => slice src (start t) (current lx') <> cstr w) keywords)).
Proof.
  intros src. destruct (lexer_next (lexer_init "f" src)) as [t lx'|] eqn:Hn;
    [|vm_compute in Hn; discriminate Hn].
  exists t, lx'. split; [done|].
  refine (proj2 (proj2 (proj2 (lexer_identifier src 0 0 _ t lx' _ (lexer_init_at_pos _ _) Hn _)))).
  - by apply (bool_decide_unpack _).
  - vm_compute in Hn. by inversion Hn.
Defined.

(** A token that starts with a double quote is a string or an unterminated-string
    error.  The payload of a string, between its quotes, never ends in a dangling
    backslash: [string_analyze] either accepts it or reports a character that is in
    the payload and is no escape, so the parser's "unterminated escape sequence"
    diagnostics cannot be reached from a token. *)
Theorem lexer_string_payload src fid p lx t lx' :
  buffer_ok src -> at_pos src fid p lx -> lexer_next lx = Ok t lx' ->
  char_of src (start t) = DQUOTE ->
  type t = TOK_ERROR
  \/ type t = TOK_STRING /\ 2 <= tok_length t
     /\ let payload := slice src (start t + 1) (start t + Z.to_nat (tok_length t) - 1) in
        let info := string_analyze payload in
        ok info = true
        \/ (payload !! Z.to_nat (invalid_offset info) = Some (invalid_escape info)
            /\ escape_value (invalid_escape info) = None /\ invalid_escape info <> NUL).
Proof.
  intros Hsrc Hat Hn Hq. pose proof (lexer_next_is _ _ _ _ _ _ Hsrc Hat Hn) as Ht.
  assert (Htext : token_text src (start t) (current lx') t).
  { eapply next_token_text; eauto; by rewrite Hq. }
  unfold token_text in Htext. rewrite Hq in Htext. simpl in Htext.
  destruct (next_token_shape src fid p t lx' Ht) as (q & _ & Hok & _).
  destruct Hok as ((_ & _ & Hcur & Hle & _) & _ & _ & _ & Hex & _).
  destruct Htext as [|(Hty & e & He & Hlt & _ & Hunits)]; [by left | right].
  rewrite Hty in Hex. specialize (Hex ltac:(discriminate)).
  split; [done|]. split; [lia|].
  replace (start t + Z.to_nat (tok_length t) - 1)%nat with e by lia.
  replace (start t + 1)%nat with (S (start t)) by lia.
  set (payload := slice src (S (start t)) e) in *. simpl.
  destruct (escape_units_analyze payload 0 0 Hunits) as [|(Hl & Hv)]; [by left | right].
  rewrite Nat.sub_0_r in Hl. split_and!; [done | done |].
  destruct Hsrc as [Hnul _]. intros Hc. unfold string_analyze in Hc. rewrite Hc in Hl. apply Hnul.
  unfold payload, slice in Hl. rewrite lookup_take_Some, lookup_drop in Hl.
  by eapply list_elem_of_lookup_2, (proj1 Hl).
Qed.

Lemma lexer_string_payload_witness :
  let src := [DQUOTE; "\"%char; DQUOTE; DQUOTE] in
  exists t lx', lexer_next (lexer_init "f" src) = Ok t lx'
    /\ (type t = TOK_ERROR \/ type t = TOK_STRING /\ 2 <= tok_length t).
Proof.
  intros src. destruct (lexer_next (lexer_init "f" src)) as [t lx'|] eqn:Hn;
    [|vm_compute in Hn; discriminate Hn].
  exists t, lx'. split; [done|].
  destruct (lexer_string_payload src 0 0 (lexer_init "f" src) t lx') as [H|(H & Hl & _)];
    [by apply (bool_decide_unpack _) | apply lexer_init_at_pos | done | | by left | by right].
  vm_compute in Hn. by inversion Hn.
Defined.

(** A token that starts with none of the characters of a word, number, string or
    character literal is the longest operator spelled there; where no operator is
    spelled the answer is an error, as it is for a block comment that is never
    closed. *)
Theorem lexer_operator src fid p lx t lx' :
  buffer_ok src -> at_pos src fid p lx -> lexer_next lx = Ok t lx' ->
  let c := char_of src (start t) in
  is_ident_char c = false -> c <> DQUOTE -> c <> "'"%char -> c <> NUL ->
  (type t = TOK_ERROR
   /\ (unterminated_comment src (start t)
       \/ forall w ty, (w, ty) ∈ operators -> spelled src (start t) (cstr w) = false))
  \/ exists w, (w, type t) ∈ operators /\ spelled src (start t) (cstr w) = true
       /\ tok_length t = Z.of_nat (length (cstr w))
       /\ forall w' ty', (w', ty') ∈ operators -> spelled src (start t) (cstr w') = true ->
            (length (cstr w') <= length (cstr w))%nat.
Proof.
  intros Hsrc Hat Hn c Hid Hq Ha Hnul.
  pose proof (lexer_next_is _ _ _ _ _ _ Hsrc Hat Hn) as Ht. subst c.
  unfold is_ident_char in Hid. apply orb_false_iff in Hid. destruct Hid as [Hal Hdig].
  destruct Ht as [_ _ _ Hok | st _ _ Hun _ Hty Hok | st q _ _ _ _ Hok Htext];
    pose proof Hok as (_ & Hst & _ & _ & Hex & _); rewrite Hst in *.
  - by rewrite char_of_length in Hnul.
  - left. split; [done | by left].
  - unfold token_text in Htext. rewrite Hal, Hdig, !decide_False in Htext by done.
    unfold operator_token_at in Htext.
    destruct (operator_at operators src st) as [[ty e]|] eqn:Hop.
    + right. destruct Htext as [Hty ->].
      destruct (operator_at_longest operators src st ty e eq_refl Hop)
        as [(w & Hin & Hsp & He) Hmax].
      exists w. rewrite Hty. split_and!; [done | done | |].
      * assert (Hne : type t <> TOK_ERROR).
        { rewrite Hty. pose proof operators_proper as Hp. rewrite Forall_forall in Hp.
          by apply (Hp _ Hin). }
        specialize (Hex Hne). lia.
      * intros w' ty' Hin' Hsp'. specialize (Hmax w' ty' Hin' Hsp'). lia.
    + left. split; [done | right]. intros w ty Hin. by eapply operator_at_None.
Qed.

Lemma lexer_operator_witness :
  let src := cstr "<<==" in
  exists t lx', lexer_next (lexer_init "f" src) = Ok t lx'
    /\ (type t = TOK_ERROR \/ exists w, (w, type t) ∈ operators
                                /\ tok_length t = Z.of_nat (length (cstr w))).
Proof.
  intros src. destruct (lexer_next (lexer_init "f" src)) as [t lx'|] eqn:Hn;
    [|vm_compute in Hn; discriminate Hn].
  exists t, lx'. split; [done|].
  assert (Hst : start t = 0%nat) by (vm_compute in Hn; by inversion Hn).
  destruct (lexer_operator src 0 0 (lexer_init "f" src) t lx') as [[H _]|(w & H & _ & Hl & _)];
    rewrite ?Hst; try done; [by apply (bool_decide_unpack _) | apply lexer_init_at_pos | by left |].
  right. by exists w.
Defined.
