(* ===== verification/Literal.v ===== *)
(** Integer literals ([parse_integer_u64], [src/parser.c]): the value the parser gives
    to the text of a [TOK_NUMBER_INT] token.

    The parser keeps its own copy of [integer_digit_value], identical to the lexer's;
    the model shares the one of Lexer.v. *)
From S2P Require Import Prelude Token Source Lexer.

(** The [switch (token.start[1])]: radix and first digit. *)
Definition literal_radix (text : list ascii) : Z * nat :=
  match text with
  | c0 :: c1 :: _ =>
      if decide (c0 = "0"%char) then
        if decide (c1 = "x"%char \/ c1 = "X"%char) then (16, 2%nat)
        else if decide (c1 = "b"%char \/ c1 = "B"%char) then (2, 2%nat)
        else if decide (c1 = "o"%char \/ c1 = "O"%char) then (8, 2%nat)
        else (10, 0%nat)
      else (10, 0%nat)
  | _ => (10, 0%nat)
  end.

(** The digit loop; [u64] marks the wrap-around the overflow check must exclude. *)
Fixpoint accumulate (radix : Z) (digits : list ascii) (value : Z) : option Z :=
  match digits with
  | [] => Some value
  | c :: digits =>
      let parsed_digit := integer_digit_value c in
      if (parsed_digit <? 0) || (radix <=? parsed_digit) then None
      else if (UINT64_MAX - parsed_digit) / radix <? value then None
      else accumulate radix digits (u64 (u64 (value * radix) + parsed_digit))
  end.

(** [text] is [token.start[0 .. token.length)]; the callers pass a non-null [out]. *)
Definition parse_integer_u64 (text : list ascii) : option Z :=
  if (length text =? 0)%nat then None
  else
    let '(radix, digit_start) := literal_radix text in
    if (length text <=? digit_start)%nat then None
    else accumulate radix (drop digit_start text) 0.

(** ** Specification *)

(** Positional notation. *)
Fixpoint positional (radix : Z) (digits : list ascii) : Z :=
  match digits with
  | [] => 0
  | c :: digits =>
      integer_digit_value c * radix ^ Z.of_nat (length digits) + positional radix digits
  end.

Definition literal_value (text : list ascii) : Z :=
  let '(radix, digit_start) := literal_radix text in
  positional radix (drop digit_start text).

(** The literals of the language: decimal digits, or a radix prefix and digits. *)
Definition well_formed (text : list ascii) : bool :=
  let '(radix, digit_start) := literal_radix text in
  (digit_start <? length text)%nat
  && forallb (fun c => is_integer_digit_for_radix c radix) (drop digit_start text).

Lemma positional_nonneg radix digits :
  0 < radix -> Forall (fun c => is_integer_digit_for_radix c radix = true) digits ->
  0 <= positional radix digits.
Proof.
  intros Hr. induction 1 as [|c digits Hc _ IH]; simpl; [done|].
  unfold is_integer_digit_for_radix in Hc. to_props.
  pose proof (Z.pow_pos_nonneg radix (Z.of_nat (length digits)) Hr ltac:(lia)). nia.
Qed.

(** The loop computes the value when it fits and fails exactly when it does not. *)
Lemma accumulate_spec radix digits value :
  2 <= radix -> 0 <= value <= UINT64_MAX ->
  accumulate radix digits value
  = if forallb (fun c => is_integer_digit_for_radix c radix) digits then
      let v := value * radix ^ Z.of_nat (length digits) + positional radix digits in
      if v <=? UINT64_MAX then Some v else None
    else None.
Proof.
  intros Hr. revert value. induction digits as [|c digits IH]; intros value Hv.
  - cbn [accumulate forallb positional length]. rewrite Z.mul_1_r, Z.add_0_r.
    by rewrite (proj2 (Z.leb_le _ _)) by lia.
  - cbn [accumulate forallb positional length].
    set (d := integer_digit_value c).
    assert (Hdig : is_integer_digit_for_radix c radix = (0 <=? d) && (d <? radix)) by done.
    rewrite Hdig.
    replace ((d <? 0) || (radix <=? d)) with (negb ((0 <=? d) && (d <? radix))) by lia.
    destruct ((0 <=? d) && (d <? radix)) eqn:Hd; cbn [negb andb]; [|done].
    to_props.
    assert (Hpow : 0 < radix ^ Z.of_nat (length digits)) by (apply Z.pow_pos_nonneg; lia).
    rewrite Nat2Z.inj_succ, Z.pow_succ_r by lia.
    set (pw := radix ^ Z.of_nat (length digits)) in *.
    destruct (Z.ltb_spec ((UINT64_MAX - d) / radix) value) as [Hover|Hfit].
    + destruct (forallb _ digits) eqn:Hall; [|done].
      rewrite <- Is_true_true, forallb_True in Hall.
      assert (0 <= positional radix digits).
      { apply positional_nonneg; [lia|]. eapply Forall_impl; [exact Hall|].
        intros ?. apply Is_true_true. }
      assert (UINT64_MAX < value * radix + d).
      { pose proof (Z.mul_succ_div_gt (UINT64_MAX - d) radix ltac:(lia)). nia. }
      rewrite (proj2 (Z.leb_gt _ _)); [done|]. nia.
    + assert (value * radix + d <= UINT64_MAX).
      { pose proof (Z.mul_div_le (UINT64_MAX - d) radix ltac:(lia)). nia. }
      unfold UINT64_MAX in *.
      rewrite (u64_small (value * radix)) by nia. rewrite u64_small by nia.
      rewrite IH by nia. destruct (forallb _ digits); [|done].
      replace ((value * radix + d) * pw + positional radix digits)
        with (value * (radix * pw) + (d * pw + positional radix digits)) by ring.
      done.
Qed.

Lemma parse_integer_u64_value text :
  parse_integer_u64 text
  = if well_formed text && (literal_value text <=? UINT64_MAX) then Some (literal_value text)
    else None.
Proof.
  unfold parse_integer_u64, well_formed, literal_value.
  assert (Hr : 2 <= fst (literal_radix text)).
  { unfold literal_radix. destruct text as [|? [|? ?]]; simpl; [lia.. |].
    repeat case_decide; simpl; lia. }
  destruct (literal_radix text) as [radix digit_start] eqn:Hlr. simpl in Hr.
  destruct (Nat.eqb_spec (length text) 0) as [Hz|Hz].
  { rewrite Hz. by destruct digit_start. }
  destruct (Nat.leb_spec (length text) digit_start).
  { rewrite (proj2 (Nat.ltb_ge _ _)) by lia. done. }
  rewrite (proj2 (Nat.ltb_lt _ _)) by lia.
  rewrite accumulate_spec by (done || unfold UINT64_MAX; lia).
  simpl. by destruct (forallb _ _).
Qed.

Lemma parse_integer_u64_range text v :
  parse_integer_u64 text = Some v -> 0 <= v <= UINT64_MAX.
Proof.
  rewrite parse_integer_u64_value. unfold well_formed, literal_value.
  assert (Hr : 2 <= fst (literal_radix text)).
  { unfold literal_radix. repeat (case_match; simpl; try lia). }
  destruct (literal_radix text) as [radix k]. simpl in Hr.
  destruct (k <? length text)%nat; simpl; [|done].
  destruct (forallb _ _) eqn:Hall; simpl; [|done].
  rewrite <- Is_true_true, forallb_True in Hall.
  assert (0 <= positional radix (drop k text)).
  { apply positional_nonneg; [lia|]. eapply Forall_impl; [exact Hall|].
    intros ?. apply Is_true_true. }
  destruct (Z.leb_spec (positional radix (drop k text)) UINT64_MAX); [|done]. intros [= <-]. lia.
Qed.

(** The text the lexer leaves in an integer token. *)
Lemma slice_Forall (P : ascii -> Prop) src p q :
  (q <= length src)%nat -> (forall i, (p <= i < q)%nat -> P (char_of src i)) ->
  Forall P (slice src p q).
Proof.
  intros Hq Hall. apply Forall_lookup. intros i c Hc. unfold slice in Hc.
  rewrite lookup_take_Some, lookup_drop in Hc. destruct Hc as [Hc Hi].
  rewrite <- (char_of_lt src _ _ Hc). apply Hall. lia.
Qed.

Lemma slice_cons src p q :
  (p < q)%nat -> (q <= length src)%nat ->
  slice src p q = char_of src p :: slice src (S p) q.
Proof.
  intros Hp Hq. unfold slice. destruct (lookup_lt_is_Some_2 src p ltac:(lia)) as [c Hc].
  rewrite (drop_S _ _ _ Hc). replace (q - p)%nat with (S (q - S p)) by lia. simpl.
  by rewrite (char_of_lt src p c Hc).
Qed.


Lemma is_digit_decimal c : is_digit c = true -> is_integer_digit_for_radix c 10 = true.
Proof.
  unfold is_digit, is_integer_digit_for_radix, integer_digit_value. intros Hd. rewrite Hd.
  unfold ascii_in in Hd. to_props. change (code "9") with 57 in *. change (code "0") with 48 in *.
  lia.
Qed.

Lemma radix_prefix_not_digit c : is_digit c = true -> radix_prefix c = None.
Proof.
  intros Hd. unfold radix_prefix.
  repeat (rewrite decide_False by (intros [-> | ->]; vm_compute in Hd; discriminate Hd)).
  done.
Qed.

Lemma literal_radix_prefix c0 c1 text :
  literal_radix (c0 :: c1 :: text)
  = match (if decide (c0 = "0"%char) then radix_prefix c1 else None) with
    | Some radix => (radix, 2%nat)
    | None => (10, 0%nat)
    end.
Proof. unfold literal_radix, radix_prefix. by repeat case_decide. Qed.

Lemma forallb_Forall {A} (f : A -> bool) l : Forall (fun x => f x = true) l -> forallb f l = true.
Proof. induction 1 as [|x l Hx _ IH]; simpl; [done|]. by rewrite Hx. Qed.

Lemma int_literal_well_formed src st q :
  (st < q)%nat -> (q <= length src)%nat -> int_literal_at src st q ->
  well_formed (slice src st q) = true.
Proof.
  intros Hlt Hq Hlit. unfold well_formed.
  destruct Hlit as [Hdec|(radix & H0 & Hpre & Hrq & Hall)].
  - assert (Hr : literal_radix (slice src st q) = (10, 0%nat)).
    { rewrite slice_cons by lia. destruct (decide (S st = q)) as [<-|].
      - by rewrite slice_nil.
      - rewrite slice_cons, literal_radix_prefix by lia.
        rewrite radix_prefix_not_digit by (apply Hdec; lia). by case_decide. }
    rewrite Hr. simpl. rewrite (slice_cons src st q) at 1 by lia. simpl.
    apply forallb_Forall, slice_Forall; [done|]. intros i Hi. by apply is_digit_decimal, Hdec.
  - rewrite (slice_cons src st), (slice_cons src (S st)) by lia.
    rewrite literal_radix_prefix, decide_True, Hpre by done. cbn [drop length].
    apply andb_true_iff. split.
    + rewrite (slice_cons src (S (S st))) by lia. done.
    + apply forallb_Forall, slice_Forall; [done|]. intros i Hi. by apply Hall.
Qed.

(** Integer tokens come from the number scanner alone. *)
Lemma keywords_no_number : Forall (fun '(_, ty) => ty <> TOK_NUMBER_INT) keywords.
Proof. unfold keywords. forall_cons; discriminate. Qed.

Lemma operators_no_number : Forall (fun '(_, ty) => ty <> TOK_NUMBER_INT) operators.
Proof. unfold operators. forall_cons; discriminate. Qed.

Lemma token_text_integer src st q t :
  token_text src st q t -> type t = TOK_NUMBER_INT -> int_literal_at src st q.
Proof.
  unfold token_text. intros Htext Hty. destruct (is_alpha _).
  { destruct Htext as (_ & _ & Hid). rewrite Hty in Hid. unfold identifier_type in Hid.
    destruct (find_keyword_in keywords (slice src st q)) as [Hk|(w & Hk & _)];
      [congruence|]. rewrite <- Hid in Hk.
    pose proof keywords_no_number as Hno. rewrite Forall_forall in Hno. by destruct (Hno _ Hk). }
  destruct (is_digit _).
  { destruct Htext as [Ht|[Ht|[_ Ht]]]; congruence || done. }
  case_decide; [destruct Htext as [|[]]; congruence|].
  case_decide; [destruct Htext as [|[]]; congruence|].
  unfold operator_token_at in Htext.
  destruct (operator_at operators src st) as [[ty e]|] eqn:Ho; [|congruence].
  destruct (operator_at_longest operators _ _ _ _ eq_refl Ho) as [(w & Hin & _) _].
  destruct Htext as [Ht _]. pose proof operators_no_number as Hno.
  rewrite Forall_forall in Hno. destruct (Hno _ Hin). congruence.
Qed.

(** ** Properties *)

(** [parse_integer_u64] accepts exactly the well-formed literals whose value fits
    64 bits and returns that value: the overflow check made before each step is exact,
    and a radix prefix without digits, a digit outside the radix or an empty text is
    refused. *)
Theorem parse_integer_u64_correct text :
  (forall v, parse_integer_u64 text = Some v <->
     well_formed text = true /\ v = literal_value text /\ v <= UINT64_MAX)
  /\ (parse_integer_u64 text = None <->
     well_formed text = false \/ UINT64_MAX < literal_value text).
Proof.
  rewrite parse_integer_u64_value.
  destruct (well_formed text); simpl; [|naive_solver].
  destruct (Z.leb_spec (literal_value text) UINT64_MAX); split; intros;
    split; intros; naive_solver lia.
Qed.

(** C35. From characters to values: every integer token of the lexer is a well-formed
    literal, so the parser gives it its mathematical value and rejects it only when
    that value exceeds [UINT64_MAX]. *)
Theorem lexer_integer_value src fid p lx t lx' :
  buffer_ok src -> at_pos src fid p lx -> lexer_next lx = Ok t lx' ->
  type t = TOK_NUMBER_INT ->
  let text := slice src (start t) (start t + Z.to_nat (tok_length t)) in
  well_formed text = true
  /\ parse_integer_u64 text
     = if literal_value text <=? UINT64_MAX then Some (literal_value text) else None.
Proof.
  intros Hsrc Hat Hn Hty. pose proof (lexer_next_is _ _ _ _ _ _ Hsrc Hat Hn) as Ht.
  assert (Hwf : exists q, (start t < q)%nat /\ (q <= length src)%nat
      /\ Z.of_nat (start t) + tok_length t = Z.of_nat q /\ int_literal_at src (start t) q).
  { destruct Ht as [_ ? _ _ | ? _ _ _ _ ? _ | st q Hle _ _ _ Hok Htext]; [congruence.. |].
    pose proof Hok as (Hat' & -> & _ & _ & Hex & _). apply at_pos_le in Hat'.
    exists q. rewrite Hty in Hex. split_and!; [lia | done | by apply Hex |].
    by apply (token_text_integer src st q t). }
  destruct Hwf as (q & Hlt & Hq & Hlen & Hlit). simpl.
  replace (start t + Z.to_nat (tok_length t))%nat with q by lia.
  pose proof (int_literal_well_formed src (start t) q Hlt Hq Hlit) as Hwf.
  split; [done|]. by rewrite parse_integer_u64_value, Hwf.
Qed.

Lemma lexer_integer_value_witness :
  let src := cstr "0xff;" in
  exists t lx', lexer_next (lexer_init "f" src) = Ok t lx'
    /\ parse_integer_u64 (slice src (start t) (start t + Z.to_nat (tok_length t))) = Some 255.
Proof.
  intros src. destruct (lexer_next (lexer_init "f" src)) as [t lx'|] eqn:Hn;
    [|vm_compute in Hn; discriminate Hn].
  exists t, lx'. split; [done|].
  assert (Ht : type t = TOK_NUMBER_INT /\ start t = 0%nat /\ tok_length t = 4)
    by (vm_compute in Hn; by inversion Hn).
  destruct Ht as (Hty & Hst & Hlen).
  destruct (lexer_integer_value src 0 0 (lexer_init "f" src) t lx'
    ltac:(by apply (bool_decide_unpack _)) (lexer_init_at_pos _ _) Hn Hty) as [_ ->].
  by rewrite Hst, Hlen.
Defined.
