(* ===== verification/Ast.v ===== *)
(** The syntax tree ([src/include/ast.h], [src/ast.c]).

    A [Node *] is a tree.  What later phases store in a node ([resolved_type], the selection of
    a compile-time conditional, [is_exhaustive], resolved values) is not part of it: the
    constructors clear it.  A [StringView] is its text, a counted array a list, and [line] the
    line of the span.  A parsed [Type *] is a tree too. *)
From S2P Require Import Prelude Token Types Source Lexer.

Abbreviation Text := (list ascii).

(** ** Types as they are written *)

Inductive SourceType : Set :=
| TyKind (kind : TypeKind)                                   (* a type without components *)
| TyNamed (named_module named_name : Text) (type_arguments : list SourceType)
| TyPointer (pointer_access : PointerAccess) (pointer_is_volatile : bool) (element : SourceType)
| TyOpaquePointer (pointer_access : PointerAccess) (pointer_is_volatile : bool)
| TySlice (pointer_access : PointerAccess) (element : SourceType)
| TyArray (array_size : Z) (element : SourceType)
| TyFunction (function_abi : FunctionAbi) (function_call_conv : CCallingConvention)
    (parameters : list SourceType) (function_is_variadic : bool) (return_type : option SourceType).

(** ** Nodes *)

Inductive FunctionLinkage : Set := FUNCTION_LINKAGE_COGLET | FUNCTION_LINKAGE_EXTERN_C.

#[global] Instance FunctionLinkage_eq_dec : EqDecision FunctionLinkage.
Proof. solve_decision. Defined.

Inductive CastKind : Set := CAST_CHECKED | CAST_TRUNCATING | CAST_REINTERPRET.

(** A floating-point literal before rounding: [mantissa * base ^ exponent]. *)
Record FloatValue : Set := mkFloat { mantissa : Z; base : Z; exponent : Z }.

Inductive NumberLiteral : Set := LITERAL_INTEGER (value : Z) | LITERAL_FLOAT (value : FloatValue).

Record GenericTypeParameter : Set := mkTypeParameter {
  gp_name : Text;
  gp_is_pack : bool;
  gp_constraint : Text;
}.

Record StructOperatorDecl : Set := mkOperator {
  op_token : TokenType;
  op_is_unary : bool;
  op_method_name : Text;
  op_span : SourceSpan;
}.

(** The flags and names of a function declaration. *)
Record FuncInfo : Set := mkFunc {
  func_name : Text;
  func_type_parameters : list GenericTypeParameter;
  func_return_type : option SourceType;
  func_linkage : FunctionLinkage;
  func_is_repr_c : bool;
  func_is_discardable : bool;
  func_c_call_conv : CCallingConvention;
  func_is_variadic : bool;
  func_external_name : Text;
}.

(** Those of a structure declaration. *)
Record StructInfo : Set := mkStruct {
  struct_decl_name : Text;
  struct_type_parameters : list GenericTypeParameter;
  struct_operators : list StructOperatorDecl;
  struct_decl_is_repr_c : bool;
  struct_is_resource_ : bool;
  struct_repr_c_packed_ : bool;
  struct_repr_c_align_ : Z;
  struct_is_union_ : bool;
  struct_is_incomplete_ : bool;
}.

(** [NullNode] is the null pointer where a node is expected (see [ast_clone]). *)
Inductive Node : Set :=
| NullNode
| mkNode (node_as : NodeAs) (node_span : SourceSpan) (node_exported : bool)
with NodeAs : Set :=
| NODE_NUMBER (value : NumberLiteral)
| NODE_IDENT (name : Text)
| NODE_STRING (literal : Text)
| NODE_CHAR (literal : Text)
| NODE_BOOL (value : bool)
| NODE_NULL
| NODE_CAST (cast_kind : CastKind) (target_type : SourceType) (expression : Node)
| NODE_UNARY (op : TokenType) (operand : Node)
| NODE_BINARY (op : TokenType) (lhs rhs : Node)
| NODE_INC_DEC (op : TokenType) (target : Node) (is_prefix : bool)
| NODE_BLOCK (statements : list Node)
| NODE_ASSIGN (target value : Node)
| NODE_COMPOUND_ASSIGN (op : TokenType) (target value : Node)
| NODE_EXPR_STMT (expr : Node)
| NODE_STATIC_ASSERT (condition : Node) (message : option Node)
| NODE_ASM (template_text output_constraint : Text) (output : Node) (inputs : list (Text * Node))
    (is_volatile : bool)
| NODE_PACK_FOR (item_name : Text) (pack body : Node)
| NODE_CALL (callee : Node) (type_arguments : list SourceType) (arguments : list Node)
| NODE_PACK_EXPANSION (operand : Node)
| NODE_FIELD (object : Node) (name dotted_path : Text)
| NODE_INDEX (object index : Node)
| NODE_TYPE_REF (source_type : SourceType)
| NODE_PROGRAM (statements : list Node)
| NODE_MODULE_DECL (name : Text)
| NODE_IMPORT_DECL (name alias : Text)
| NODE_VAR_DECL (var_type : option SourceType) (name : Text) (initializer : option Node)
| NODE_VAR_DECL_GROUP (declarations : list Node)
| NODE_FUNC_DECL (info : FuncInfo) (params : list Node) (body : option Node)
| NODE_FUNC_PARAM_DECL (var_type : SourceType) (name : Text) (is_pack : bool)
| NODE_STRUCT_DECL (info : StructInfo) (fields methods : list Node)
| NODE_STRUCT_FIELD_DECL (var_type : SourceType) (name : Text)
| NODE_ENUM_DECL (name : Text) (backing_type : option SourceType) (members : list Node)
    (is_repr_c : bool)
| NODE_ENUM_MEMBER (name : Text) (value : option Node)
| NODE_STRUCT_INIT (module_name name : Text) (type_arguments : list SourceType)
    (fields : list Node)
| NODE_FIELD_INIT (name : Text) (value : Node)
| NODE_CONST_DECL (const_type : option SourceType) (name : Text) (value : Node)
| NODE_ARRAY_LITERAL (elements : list Node) (is_zero_initializer : bool)
| NODE_IF (condition then_branch : Node) (else_branch : option Node) (is_compile_time : bool)
| NODE_IF_EXPR (condition then_value else_value : Node)
| NODE_SWITCH (expression : Node) (cases : list Node)
| NODE_SWITCH_CASE (value : option Node) (body : Node) (is_default : bool)
| NODE_RETURN (value : option Node)
| NODE_DEFER (statement : Node)
| NODE_WHILE (condition body : Node)
| NODE_FOR (condition post : option Node) (body : Node)
| NODE_BREAK
| NODE_CONTINUE
| NODE_ERROR (token : Token).

(** [node->span]; the parser never asks it of a null pointer. *)
Definition span_of (n : Node) : SourceSpan :=
  match n with mkNode _ s _ => s | NullNode => source_span_invalid end.

Definition as_of (n : Node) : option NodeAs :=
  match n with mkNode a _ _ => Some a | NullNode => None end.

(** ** Constructors

    [ast_new_X(arena, ..., span)].  A counted array is empty in a new node and the caller pushes
    its elements; here the list the caller pushes is an argument, and so are the members that
    the caller sets right after the call ([is_pack], [is_variadic], the flags of a structure). *)

Definition new_node (a : NodeAs) (span : SourceSpan) : Node := mkNode a span false.

Definition ast_new_integer (value : Z) := new_node (NODE_NUMBER (LITERAL_INTEGER value)).
Definition ast_new_float (value : FloatValue) := new_node (NODE_NUMBER (LITERAL_FLOAT value)).
Definition ast_new_ident (name : Text) := new_node (NODE_IDENT name).
Definition ast_new_compound_assign (op : TokenType) (target value : Node) :=
  new_node (NODE_COMPOUND_ASSIGN op target value).
Definition ast_new_string (literal : Text) := new_node (NODE_STRING literal).
Definition ast_new_char (literal : Text) := new_node (NODE_CHAR literal).
Definition ast_new_null := new_node NODE_NULL.
Definition ast_new_bool (value : bool) := new_node (NODE_BOOL value).
Definition ast_new_cast (kind : CastKind) (target_type : SourceType) (expression : Node) :=
  new_node (NODE_CAST kind target_type expression).
Definition ast_new_unary (op : TokenType) (operand : Node) := new_node (NODE_UNARY op operand).
Definition ast_new_inc_dec (op : TokenType) (target : Node) (is_prefix : bool) :=
  new_node (NODE_INC_DEC op target is_prefix).
Definition ast_new_binary (op : TokenType) (left right : Node) :=
  new_node (NODE_BINARY op left right).
Definition ast_new_assign (target value : Node) := new_node (NODE_ASSIGN target value).
Definition ast_new_if (cond then_b : Node) (else_b : option Node) :=
  new_node (NODE_IF cond then_b else_b false).
Definition ast_new_compile_if (cond then_b : Node) (else_b : option Node) :=
  new_node (NODE_IF cond then_b else_b true).
Definition ast_new_if_expr (cond then_value else_value : Node) :=
  new_node (NODE_IF_EXPR cond then_value else_value).
Definition ast_new_expr_stmt (expr : Node) := new_node (NODE_EXPR_STMT expr).
Definition ast_new_static_assert (condition : Node) (message : option Node) :=
  new_node (NODE_STATIC_ASSERT condition message).
Definition ast_new_asm (template_text output_constraint : Text) (output : Node)
    (inputs : list (Text * Node)) (is_volatile : bool) :=
  new_node (NODE_ASM template_text output_constraint output inputs is_volatile).
Definition ast_new_block (statements : list Node) := new_node (NODE_BLOCK statements).
Definition ast_new_pack_expansion (operand : Node) := new_node (NODE_PACK_EXPANSION operand).
Definition ast_new_pack_for (item_name : Text) (pack body : Node) :=
  new_node (NODE_PACK_FOR item_name pack body).
Definition ast_new_call (callee : Node) (type_arguments : list SourceType)
    (arguments : list Node) :=
  new_node (NODE_CALL callee type_arguments arguments).

(** The canonical spelling of a chain of identifiers. *)
Definition dotted_prefix (object : Node) : Text :=
  match as_of object with
  | Some (NODE_IDENT name) => name
  | Some (NODE_FIELD _ _ dotted_path) => dotted_path
  | _ => []
  end.

Definition ast_new_field (object : Node) (name : Text) (span : SourceSpan) : Node :=
  let prefix := dotted_prefix object in
  new_node (NODE_FIELD object name
              (if negb (length prefix =? 0)%nat && (0 <? length name)%nat
               then prefix ++ "."%char :: name else [])) span.

Definition ast_new_index (object index : Node) := new_node (NODE_INDEX object index).

(** [is_exported] is not set here; it is only read of declarations. *)
Definition ast_new_error (t : Token) : Node := mkNode (NODE_ERROR t) (span t) false.

Definition ast_new_program (statements : list Node) := new_node (NODE_PROGRAM statements).
Definition ast_new_module_decl (name : Text) := new_node (NODE_MODULE_DECL name).
Definition ast_new_import_decl (name alias : Text) := new_node (NODE_IMPORT_DECL name alias).
Definition ast_new_var_decl (type : option SourceType) (name : Text)
    (initializer : option Node) :=
  new_node (NODE_VAR_DECL type name initializer).
Definition ast_new_var_decl_group (declarations : list Node) :=
  new_node (NODE_VAR_DECL_GROUP declarations).
Definition ast_new_struct_field_decl (type : SourceType) (name : Text) :=
  new_node (NODE_STRUCT_FIELD_DECL type name).
Definition ast_new_type_ref (source_type : SourceType) := new_node (NODE_TYPE_REF source_type).
Definition ast_new_func_param_decl (type : SourceType) (name : Text) (is_pack : bool) :=
  new_node (NODE_FUNC_PARAM_DECL type name is_pack).
Definition ast_new_return (value : option Node) := new_node (NODE_RETURN value).
Definition ast_new_defer (statement : Node) := new_node (NODE_DEFER statement).
Definition ast_new_while (cond body : Node) := new_node (NODE_WHILE cond body).
Definition ast_new_for (cond post : option Node) (body : Node) :=
  new_node (NODE_FOR cond post body).
Definition ast_new_break := new_node NODE_BREAK.
Definition ast_new_continue := new_node NODE_CONTINUE.
Definition ast_new_switch (expression : Node) (cases : list Node) :=
  new_node (NODE_SWITCH expression cases).
Definition ast_new_switch_case (value : option Node) (body : Node) (is_default : bool) :=
  new_node (NODE_SWITCH_CASE value body is_default).
Definition ast_new_func_decl (name : Text) (return_type : option SourceType)
    (params : list Node) (is_variadic : bool) :=
  new_node (NODE_FUNC_DECL (mkFunc name [] return_type FUNCTION_LINKAGE_COGLET false false
                              C_CALL_DEFAULT is_variadic []) params None).
Definition ast_new_struct_decl (name : Text) (is_resource is_union is_incomplete : bool)
    (operators : list StructOperatorDecl) (fields methods : list Node) :=
  new_node (NODE_STRUCT_DECL (mkStruct name [] operators false is_resource false 0 is_union
                                is_incomplete) fields methods).
Definition ast_new_struct_init (module_name name : Text) (type_arguments : list SourceType)
    (fields : list Node) :=
  new_node (NODE_STRUCT_INIT module_name name type_arguments fields).
Definition ast_new_enum_decl (name : Text) (backing_type : option SourceType)
    (members : list Node) :=
  new_node (NODE_ENUM_DECL name backing_type members false).
Definition ast_new_enum_member (name : Text) (value : option Node) :=
  new_node (NODE_ENUM_MEMBER name value).
Definition ast_new_field_init (name : Text) (value : Node) :=
  new_node (NODE_FIELD_INIT name value).
Definition ast_new_const_decl (type : option SourceType) (name : Text) (value : Node) :=
  new_node (NODE_CONST_DECL type name value).
Definition ast_new_array_literal (elements : list Node) :=
  new_node (NODE_ARRAY_LITERAL elements false).
Definition ast_new_zero_array_initializer := new_node (NODE_ARRAY_LITERAL [] true).

Create HintDb ast_new discriminated.
#[export] Hint Unfold ast_new_integer ast_new_float ast_new_ident ast_new_compound_assign
  ast_new_string ast_new_char ast_new_null ast_new_bool ast_new_cast ast_new_unary ast_new_inc_dec
  ast_new_binary ast_new_assign ast_new_if ast_new_compile_if ast_new_if_expr ast_new_expr_stmt
  ast_new_static_assert ast_new_asm ast_new_block ast_new_pack_expansion ast_new_pack_for
  ast_new_call ast_new_field ast_new_index ast_new_program ast_new_module_decl ast_new_import_decl
  ast_new_var_decl ast_new_var_decl_group ast_new_struct_field_decl ast_new_type_ref
  ast_new_func_param_decl ast_new_return ast_new_defer ast_new_while ast_new_for ast_new_break
  ast_new_continue ast_new_switch ast_new_switch_case ast_new_func_decl ast_new_struct_decl
  ast_new_struct_init ast_new_enum_decl ast_new_enum_member ast_new_field_init ast_new_const_decl
  ast_new_array_literal ast_new_zero_array_initializer : ast_new.

(** ** Copies *)

(** The contents of members that [ast_clone] does not set ([arena_alloc] does not clear the
    memory it returns). *)
Record Garbage : Set := mkGarbage { any_flag : bool; any_text : Text }.

Section Clone.
Context (garbage : Garbage).

Fixpoint ast_clone (n : Node) : Node :=
  match n with
  | NullNode => NullNode
  | mkNode a s exported =>
      let keep (a : NodeAs) := mkNode a s exported in
      match a with
      | NODE_NUMBER _ | NODE_IDENT _ | NODE_STRING _ | NODE_CHAR _ | NODE_BOOL _
      | NODE_TYPE_REF _ | NODE_MODULE_DECL _ | NODE_IMPORT_DECL _ _
      | NODE_FUNC_PARAM_DECL _ _ _ | NODE_STRUCT_FIELD_DECL _ _
      | NODE_NULL | NODE_BREAK | NODE_CONTINUE | NODE_ERROR _ => n
      | NODE_UNARY op o => keep (NODE_UNARY op (ast_clone o))
      | NODE_BINARY op l r => keep (NODE_BINARY op (ast_clone l) (ast_clone r))
      | NODE_ASSIGN t v => keep (NODE_ASSIGN (ast_clone t) (ast_clone v))
      | NODE_COMPOUND_ASSIGN op t v => keep (NODE_COMPOUND_ASSIGN op (ast_clone t) (ast_clone v))
      | NODE_CAST k t e => keep (NODE_CAST k t (ast_clone e))
      | NODE_IF c t e _ =>
          keep (NODE_IF (ast_clone c) (ast_clone t) (option_map ast_clone e) (any_flag garbage))
      | NODE_IF_EXPR c t e => keep (NODE_IF_EXPR (ast_clone c) (ast_clone t) (ast_clone e))
      | NODE_EXPR_STMT e => keep (NODE_EXPR_STMT (ast_clone e))
      | NODE_ASM _ _ output inputs _ =>
          keep (NODE_ASM (any_text garbage) (any_text garbage) (ast_clone output)
                  (map (fun p => (p.1, ast_clone p.2)) inputs) (any_flag garbage))
      | NODE_STATIC_ASSERT c m => keep (NODE_STATIC_ASSERT (ast_clone c) (option_map ast_clone m))
      | NODE_BLOCK ss => keep (NODE_BLOCK (map ast_clone ss))
      | NODE_CALL f ts args => keep (NODE_CALL (ast_clone f) ts (map ast_clone args))
      | NODE_PACK_EXPANSION o => keep (NODE_PACK_EXPANSION (ast_clone o))
      | NODE_PACK_FOR i p b => keep (NODE_PACK_FOR i (ast_clone p) (ast_clone b))
      | NODE_FIELD o x path => keep (NODE_FIELD (ast_clone o) x path)
      | NODE_INDEX o i => keep (NODE_INDEX (ast_clone o) (ast_clone i))
      | NODE_PROGRAM ss => keep (NODE_PROGRAM (map ast_clone ss))
      | NODE_VAR_DECL t x i => keep (NODE_VAR_DECL t x (option_map ast_clone i))
      | NODE_VAR_DECL_GROUP ds => keep (NODE_VAR_DECL_GROUP (map ast_clone ds))
      | NODE_FUNC_DECL f ps b =>
          keep (NODE_FUNC_DECL f (map ast_clone ps) (option_map ast_clone b))
      | NODE_STRUCT_DECL i fs ms => keep (NODE_STRUCT_DECL i (map ast_clone fs) (map ast_clone ms))
      | NODE_STRUCT_INIT m x ts fs => keep (NODE_STRUCT_INIT m x ts (map ast_clone fs))
      | NODE_FIELD_INIT x v => keep (NODE_FIELD_INIT x (ast_clone v))
      | NODE_ENUM_DECL x t ms r => keep (NODE_ENUM_DECL x t (map ast_clone ms) r)
      | NODE_ENUM_MEMBER x v => keep (NODE_ENUM_MEMBER x (option_map ast_clone v))
      | NODE_RETURN v => keep (NODE_RETURN (option_map ast_clone v))
      | NODE_DEFER d => keep (NODE_DEFER (ast_clone d))
      | NODE_WHILE c b => keep (NODE_WHILE (ast_clone c) (ast_clone b))
      | NODE_FOR c p b =>
          keep (NODE_FOR (option_map ast_clone c) (option_map ast_clone p) (ast_clone b))
      | NODE_SWITCH e cs => keep (NODE_SWITCH (ast_clone e) (map ast_clone cs))
      | NODE_SWITCH_CASE v b d => keep (NODE_SWITCH_CASE (option_map ast_clone v) (ast_clone b) d)
      | NODE_ARRAY_LITERAL es z => keep (NODE_ARRAY_LITERAL (map ast_clone es) z)
      (* no case for these: a message on stderr and a null pointer *)
      | NODE_INC_DEC _ _ _ | NODE_CONST_DECL _ _ _ => NullNode
      end
  end.
End Clone.

(** ** Trees *)

Definition optional (o : option Node) : list Node :=
  match o with Some n => [n] | None => [] end.

(** The subtrees of a node. *)
Definition children (a : NodeAs) : list Node :=
  match a with
  | NODE_NUMBER _ | NODE_IDENT _ | NODE_STRING _ | NODE_CHAR _ | NODE_BOOL _ | NODE_NULL
  | NODE_TYPE_REF _ | NODE_MODULE_DECL _ | NODE_IMPORT_DECL _ _ | NODE_FUNC_PARAM_DECL _ _ _
  | NODE_STRUCT_FIELD_DECL _ _ | NODE_BREAK | NODE_CONTINUE | NODE_ERROR _ => []
  | NODE_CAST _ _ e | NODE_UNARY _ e | NODE_INC_DEC _ e _ | NODE_EXPR_STMT e
  | NODE_PACK_EXPANSION e | NODE_FIELD e _ _ | NODE_FIELD_INIT _ e | NODE_CONST_DECL _ _ e
  | NODE_DEFER e => [e]
  | NODE_BINARY _ l r | NODE_ASSIGN l r | NODE_COMPOUND_ASSIGN _ l r | NODE_INDEX l r
  | NODE_WHILE l r | NODE_PACK_FOR _ l r => [l; r]
  | NODE_BLOCK ss | NODE_PROGRAM ss | NODE_VAR_DECL_GROUP ss | NODE_ENUM_DECL _ _ ss _
  | NODE_STRUCT_INIT _ _ _ ss | NODE_ARRAY_LITERAL ss _ => ss
  | NODE_STATIC_ASSERT c m => c :: optional m
  | NODE_ASM _ _ o inputs _ => o :: map snd inputs
  | NODE_CALL f _ args => f :: args
  | NODE_VAR_DECL _ _ i | NODE_ENUM_MEMBER _ i | NODE_RETURN i => optional i
  | NODE_FUNC_DECL _ ps b => ps ++ optional b
  | NODE_STRUCT_DECL _ fs ms => fs ++ ms
  | NODE_IF c t e _ => c :: t :: optional e
  | NODE_IF_EXPR c t e => [c; t; e]
  | NODE_SWITCH e cs => e :: cs
  | NODE_SWITCH_CASE v b _ => optional v ++ [b]
  | NODE_FOR c p b => optional c ++ optional p ++ [b]
  end.

(** [P] holds of every node of a tree. *)
Inductive everywhere (P : NodeAs -> SourceSpan -> Prop) : Node -> Prop :=
| everywhere_node a s e :
    P a s -> Forall (everywhere P) (children a) -> everywhere P (mkNode a s e).

(** Induction on a tree and its subtrees. *)
Lemma Node_ind' (P : Node -> Prop) :
  P NullNode -> (forall a s e, Forall P (children a) -> P (mkNode a s e)) -> forall n, P n.
Proof.
  intros Hnull Hnode. fix IH 1. intros [|a s e]; [exact Hnull|]. apply Hnode.
  destruct a; cbn [children];
    repeat match goal with
    | |- Forall P [] => constructor
    | |- Forall P (_ :: _) => constructor; [apply IH|]
    | |- Forall P (_ ++ _) => apply Forall_app; split
    | |- Forall P (optional ?o) => destruct o as [n|]; cbn [optional]
    | |- Forall P (map snd ?l) =>
        induction l as [|[c n] l IHl]; constructor; [apply IH | exact IHl]
    | |- Forall P ?l => induction l as [|n l IHl]; constructor; [apply IH | exact IHl]
    end.
Qed.

(** The nodes that [ast_clone] copies as they are. *)
Definition copied (a : NodeAs) : bool :=
  match a with
  | NODE_INC_DEC _ _ _ | NODE_CONST_DECL _ _ _ | NODE_IF _ _ _ _ | NODE_ASM _ _ _ _ _ => false
  | _ => true
  end.

Lemma map_id_forall {A} (f : A -> A) l : Forall (fun x => f x = x) l -> map f l = l.
Proof. induction 1 as [|x l Hx _ IH]; cbn; congruence. Qed.

Lemma map_fixed {A} (f : A -> A) l : map f l = l <-> Forall (fun x => f x = x) l.
Proof.
  split; [|apply map_id_forall]. induction l as [|x l IH]; cbn; [by constructor|].
  intros [= Hx Hl]. constructor; [congruence | auto].
Qed.

Lemma option_map_fixed (f : Node -> Node) o :
  option_map f o = o <-> Forall (fun x => f x = x) (optional o).
Proof.
  destruct o as [n|]; cbn; [|split; [by constructor | done]].
  rewrite Forall_singleton. split; congruence.
Qed.

Lemma inputs_fixed (f : Node -> Node) (inputs : list (Text * Node)) :
  map (fun p => (p.1, f p.2)) inputs = inputs <-> Forall (fun x => f x = x) (map snd inputs).
Proof.
  induction inputs as [|[c n] inputs IH]; cbn; [by split; constructor|].
  rewrite Forall_cons, <- IH. split; [intros [= ? ?]; split; congruence | intros [-> ->]; done].
Qed.

(** The copy is the node exactly when the copies of its children are the children and
    [ast_clone] copies the node itself. *)
Lemma ast_clone_node a s e :
  (forall garbage, ast_clone garbage (mkNode a s e) = mkNode a s e)
  <-> copied a = true /\ Forall (fun n => forall garbage, ast_clone garbage n = n) (children a).
Proof.
  assert (Hall : forall ns : list Node, Forall (fun n => forall garbage, ast_clone garbage n = n) ns
    <-> forall garbage, Forall (fun n => ast_clone garbage n = n) ns).
  { intros ns. rewrite Forall_forall. setoid_rewrite Forall_forall. naive_solver. }
  rewrite Hall. clear Hall. split.
  - intros H. pose proof (H (mkGarbage true [NUL])) as Ht. pose proof (H (mkGarbage false [])) as Hf.
    destruct a; cbn in Ht, Hf; try discriminate; try (split; [done|]).
    all: try (exfalso; congruence).
    all: intros garbage; specialize (H garbage); cbn in H; clear Ht Hf;
      cbn [children]; try (injection H; clear H; intros); rewrite ?Forall_app, ?Forall_cons, <- ?option_map_fixed, <- ?map_fixed;
      split_and?; done.
  - intros [Hc H] garbage. specialize (H garbage). destruct a; try discriminate Hc; cbn [children] in H;
      rewrite ?Forall_app, ?Forall_cons, <- ?option_map_fixed, <- ?map_fixed in H;
      cbn [ast_clone]; destruct_and?; congruence.
Qed.

(** C37. [ast_clone] returns a copy of its argument, whatever the memory it gets from the arena
    contains, exactly for the trees without an increment, a constant declaration, a conditional
    statement and an [asm] statement: for the first two it answers with a null pointer, and of
    the others it leaves members unset. *)
Theorem ast_clone_exact n :
  everywhere (fun _ _ => True) n ->
  (forall garbage, ast_clone garbage n = n) <-> everywhere (fun a _ => copied a = true) n.
Proof.
  induction n as [|a s e IH] using Node_ind'; [by inversion 1|].
  inversion 1 as [? ? ? _ Hc]; subst. rewrite ast_clone_node.
  assert (Hch : Forall (fun n => forall garbage, ast_clone garbage n = n) (children a)
                <-> Forall (everywhere (fun a _ => copied a = true)) (children a)).
  { clear H. induction IH as [|n ns Hn _ IHns]; [by split; constructor|].
    apply Forall_cons in Hc as [Hc Hcs]. rewrite !Forall_cons, IHns, Hn by done. done. }
  rewrite Hch. split; [intros []; by constructor | by inversion 1].
Qed.

Lemma ast_clone_exact_witness :
  let x := mkNode (NODE_IDENT (cstr "x")) source_span_invalid false in
  let n := mkNode (NODE_RETURN (Some (mkNode (NODE_INC_DEC TOK_PLUS_PLUS x false)
                                        source_span_invalid false))) source_span_invalid false in
  (forall garbage, ast_clone garbage n = n) <-> everywhere (fun a _ => copied a = true) n.
Proof.
  intros x n. apply (ast_clone_exact n). repeat constructor.
Defined.

(** The operand of a copied increment is gone: what follows the copy is a null pointer. *)
Example clone_increment garbage op target is_prefix s e :
  ast_clone garbage (mkNode (NODE_INC_DEC op target is_prefix) s e) = NullNode.
Proof. reflexivity. Qed.

Example clone_conditional : exists garbage s,
  let x := mkNode (NODE_IDENT (cstr "x")) s false in
  ast_clone garbage (mkNode (NODE_IF x x None false) s false) = mkNode (NODE_IF x x None true) s false.
Proof. by exists (mkGarbage true []), source_span_invalid. Qed.
