(* ===== verification/ParserState.v ===== *)
(** The parser's state and token helpers ([src/parser.c], "lexer helpers" and "precedence";
    [src/include/parser.h]).

    A parser function is a computation on the [Parser] structure; it faults where the lexer
    does, where an assertion fails, or when a recursion or a loop runs longer than the rest of
    the buffer allows ([FuelExhausted], which never happens).  The arenas and the target
    configuration are not consulted by the grammar and are left out. *)
From S2P Require Import Prelude Token Types Source Lexer Ast.

(** [DiagnosticPhase]; every diagnostic of the parser is an error. *)
Inductive DiagnosticPhase : Set := DIAGNOSTIC_PHASE_LEXER | DIAGNOSTIC_PHASE_PARSER.

Record Diagnostic : Set := mkDiagnostic {
  phase : DiagnosticPhase;
  diagnostic_span : SourceSpan;
  message : string;
}.

Record Parser : Set := mkParser {
  p_lexer : Lexer;
  p_current : Token;
  p_previous : Token;
  had_error : bool;
  diagnostics : list Diagnostic;
  suppress_struct_init : bool;
}.

(** ** Computations *)

Inductive ParserFault : Set := LexerFault (f : fault) | AssertionFailed | FuelExhausted.

Inductive presult (A : Type) : Type :=
| POk (a : A) (p : Parser)
| PFault (f : ParserFault).
Arguments POk {A} a p.
Arguments PFault {A} f.

Definition P (A : Type) : Type := Parser -> presult A.

#[global] Instance P_ret : MRet P := fun _ a p => POk a p.

#[global] Instance P_bind : MBind P := fun _ _ k m p =>
  match m p with
  | POk a p' => k a p'
  | PFault f => PFault f
  end.

Definition pthrow {A} (f : ParserFault) : P A := fun _ => PFault f.
Definition get {A} (f : Parser -> A) : P A := fun p => POk (f p) p.
Definition modify (f : Parser -> Parser) : P unit := fun p => POk tt (f p).
Definition passert (b : bool) : P unit := if b then mret tt else pthrow AssertionFailed.

Definition set_current (t : Token) : P unit := modify (fun p =>
  mkParser (p_lexer p) t (p_previous p) (had_error p) (diagnostics p) (suppress_struct_init p)).
Definition set_previous (t : Token) : P unit := modify (fun p =>
  mkParser (p_lexer p) (p_current p) t (had_error p) (diagnostics p) (suppress_struct_init p)).
Definition set_suppress (b : bool) : P unit := modify (fun p =>
  mkParser (p_lexer p) (p_current p) (p_previous p) (had_error p) (diagnostics p) b).

(** [lexer_next(&p->lexer)] *)
Definition next_token_ : P Token := fun p =>
  match lexer_next (p_lexer p) with
  | Ok t lx => POk t (mkParser lx (p_current p) (p_previous p) (had_error p) (diagnostics p)
                               (suppress_struct_init p))
  | Fault f => PFault (LexerFault f)
  end.

(** [m] on a copy of the lexer: the parser is as before. *)
Definition lookahead {A} (m : Lexer.M A) : P A := fun p =>
  match m (p_lexer p) with
  | Ok a _ => POk a p
  | Fault f => PFault (LexerFault f)
  end.

(** The characters not consumed yet: what the lexer has not read and the current token. *)
Definition token_weight (t : Token) : nat :=
  if bool_decide (type t = TOK_EOF) then 0%nat else Z.to_nat (tok_length t).
Definition unread (lx : Lexer) : nat := (length (source_start lx) - Lexer.current lx)%nat.
Definition remaining (p : Parser) : nat := (unread (p_lexer p) + token_weight (p_current p))%nat.

(** A loop whose body goes on with [inl] or stops with [inr]; every iteration that goes on
    consumes a character. *)
Fixpoint iterate {A B} (fuel : nat) (body : A -> P (A + B)) (a : A) : P B :=
  match fuel with
  | O => pthrow FuelExhausted
  | S fuel => r ← body a; match r with inl a => iterate fuel body a | inr b => mret b end
  end.

Definition loop {A B} (body : A -> P (A + B)) (a : A) : P B := fun p =>
  iterate (S (remaining p)) body a p.

(** ** Diagnostics *)

Definition add_diagnostic (t : Token) (msg : string) : P unit := modify (fun p =>
  mkParser (p_lexer p) (p_current p) (p_previous p) true
    (diagnostics p ++ [mkDiagnostic
       (if bool_decide (type t = TOK_ERROR) then DIAGNOSTIC_PHASE_LEXER else DIAGNOSTIC_PHASE_PARSER)
       (span t) msg])
    (suppress_struct_init p)).

Definition error_at (t : Token) (msg : string) : P unit := add_diagnostic t msg.
Definition error_here (msg : string) : P unit := t ← get p_current; error_at t msg.
Definition error_before (msg : string) : P unit := t ← get p_previous; error_at t msg.

Definition token_debug_display_name (t : TokenType) : string :=
  match t with
  | TOK_EOF => "end of file" | TOK_ERROR => "invalid token" | TOK_NUMBER_INT => "integer"
  | TOK_NUMBER_FLOAT => "floating-point number" | TOK_STRING => "string literal"
  | TOK_CHAR => "character literal" | TOK_IDENT => "identifier" | TOK_TRUE => "'true'"
  | TOK_FALSE => "'false'" | TOK_NULL => "'null'" | TOK_IF => "'if'" | TOK_ELSE => "'else'"
  | TOK_WHILE => "'while'" | TOK_FOR => "'for'" | TOK_IN => "'in'" | TOK_RETURN => "'return'"
  | TOK_DEFER => "'defer'" | TOK_DISCARD => "'discard'" | TOK_STATIC_ASSERT => "'static_assert'"
  | TOK_VOID => "'void'" | TOK_STRUCT => "'struct'" | TOK_RESOURCE => "'resource'"
  | TOK_UNION => "'union'" | TOK_ENUM => "'enum'" | TOK_BREAK => "'break'"
  | TOK_CONTINUE => "'continue'" | TOK_SWITCH => "'switch'" | TOK_CASE => "'case'"
  | TOK_DEFAULT => "'default'" | TOK_CAST => "'cast'" | TOK_TRUNCATE => "'truncate'"
  | TOK_REINTERPRET => "'reinterpret'" | TOK_MOVE => "'move'" | TOK_READONLY => "'readonly'"
  | TOK_VOLATILE => "'volatile'" | TOK_OPAQUE => "'opaque'" | TOK_CFN => "'cfn'"
  | TOK_SIZE_OF => "'size_of'" | TOK_ALIGN_OF => "'align_of'" | TOK_ASM => "'asm'"
  | TOK_BOOL => "'bool'" | TOK_INT_KW => "'int'" | TOK_UINT_KW => "'uint'" | TOK_S8 => "'s8'"
  | TOK_S16 => "'s16'" | TOK_S32 => "'s32'" | TOK_S64 => "'s64'" | TOK_U8 => "'u8'"
  | TOK_U16 => "'u16'" | TOK_U32 => "'u32'" | TOK_U64 => "'u64'" | TOK_ISIZE => "'isize'"
  | TOK_USIZE => "'usize'" | TOK_F32 => "'f32'" | TOK_F64 => "'f64'" | TOK_PLUS => "'+'"
  | TOK_MINUS => "'-'" | TOK_STAR => "'*'" | TOK_SLASH => "'/'" | TOK_PERCENT => "'%'"
  | TOK_PLUS_PLUS => "'++'" | TOK_MINUS_MINUS => "'--'" | TOK_PLUS_EQUAL => "'+='"
  | TOK_MINUS_EQUAL => "'-='" | TOK_STAR_EQUAL => "'*='" | TOK_SLASH_EQUAL => "'/='"
  | TOK_PERCENT_EQUAL => "'%='" | TOK_AND_EQUAL => "'&='" | TOK_OR_EQUAL => "'|='"
  | TOK_XOR_EQUAL => "'^='" | TOK_SHIFT_LEFT_EQUAL => "'<<='" | TOK_SHIFT_RIGHT_EQUAL => "'>>='"
  | TOK_EQUAL => "'='" | TOK_EQUAL_EQUAL => "'=='" | TOK_BANG => "'!'" | TOK_BANG_EQUAL => "'!='"
  | TOK_LESS => "'<'" | TOK_LESS_EQUAL => "'<='" | TOK_GREATER => "'>'"
  | TOK_GREATER_EQUAL => "'>='" | TOK_AND_AND => "'&&'" | TOK_OR_OR => "'||'" | TOK_AND => "'&'"
  | TOK_OR => "'|'" | TOK_XOR => "'^'" | TOK_TILDE => "'~'" | TOK_SHIFT_LEFT => "'<<'"
  | TOK_SHIFT_RIGHT => "'>>'" | TOK_LPAREN => "'('" | TOK_RPAREN => "')'" | TOK_LBRACE => "'{'"
  | TOK_RBRACE => "'}'" | TOK_LBRACKET => "'['" | TOK_RBRACKET => "']'" | TOK_SEMICOLON => "';'"
  | TOK_COMMA => "','" | TOK_DOT => "'.'" | TOK_ELLIPSIS => "'...'" | TOK_ARROW => "'->'"
  | TOK_COLON => "':'" | TOK_COLON_COLON => "'::'" | TOK_COLON_EQUAL => "':='" | TOK_HASH => "'#'"
  end%string.

(** ** Tokens *)

(** The loop of [advance]: tokens of kind [TOK_ERROR] are reported and skipped. *)
Fixpoint next_good (fuel : nat) : P unit :=
  match fuel with
  | O => pthrow FuelExhausted
  | S fuel =>
      t ← next_token_;
      set_current t ;;
      if bool_decide (type t = TOK_ERROR) then
        msg ← get (fun p => error_msg (p_lexer p));
        add_diagnostic t (default "invalid token"%string msg) ;;
        next_good fuel
      else mret tt
  end.

Definition advance : P unit :=
  t ← get p_current;
  set_previous t ;;
  n ← get (fun p => unread (p_lexer p));
  next_good (S n).

Definition check (ty : TokenType) : P bool := get (fun p => bool_decide (type (p_current p) = ty)).

Definition peek_next_token_type : P TokenType := lookahead (t ← lexer_next; mret (type t)).

Definition match_ (ty : TokenType) : P bool :=
  c ← check ty; if (c : bool) then advance ;; mret true else mret false.

(** The message of [consume], which fits the 128 bytes of its buffer ([consume_message_fits]). *)
Definition consume_message (expected found : TokenType) : string :=
  ("expected " ++ token_debug_display_name expected ++ " before " ++ token_debug_display_name found)%string.

Definition consume (expected : TokenType) : P bool :=
  c ← check expected;
  if (c : bool) then advance ;; mret true
  else
    t ← get p_current;
    error_at t (consume_message expected (type t)) ;;
    mret false.

Definition with_token (t : Token) (ty : TokenType) (st : nat) (len : Z) : Token :=
  mkToken ty st len (tok_line t) (tok_column t) (span t).

(** [>>] inside a generic argument list counts as two closing tokens. *)
Definition match_generic_greater : P bool :=
  g ← match_ TOK_GREATER;
  if (g : bool) then mret true
  else
    s ← check TOK_SHIFT_RIGHT;
    if (s : bool) then
      pair ← get p_current;
      set_previous (with_token pair TOK_GREATER (start pair) 1) ;;
      set_current (with_token pair TOK_GREATER (S (start pair)) 1) ;;
      mret true
    else mret false.

Definition consume_generic_greater (msg : string) : P bool :=
  g ← match_generic_greater;
  if (g : bool) then mret true else error_here msg ;; mret false.

(** The tokens at which [synchronize] stops although they are not consumed. *)
Definition starts_statement (ty : TokenType) : bool :=
  match ty with
  | TOK_IF | TOK_WHILE | TOK_FOR | TOK_RETURN | TOK_DEFER | TOK_DISCARD | TOK_STATIC_ASSERT
  | TOK_RESOURCE => true
  | _ => false
  end.

Definition synchronize : P unit :=
  advance ;;
  loop (fun _ =>
    cur ← get p_current; prev ← get p_previous;
    if bool_decide (type cur = TOK_EOF) || bool_decide (type prev = TOK_SEMICOLON)
       || bool_decide (type cur = TOK_RBRACE) || starts_statement (type cur)
    then mret (inr tt) else advance ;; mret (inl tt)) tt.

(** [while (!check(a) && ...) advance(p);] *)
Definition skip_until (stop : TokenType -> bool) : P unit :=
  loop (fun _ =>
    t ← get p_current;
    if stop (type t) || bool_decide (type t = TOK_EOF) then mret (inr tt)
    else advance ;; mret (inl tt)) tt.

Definition token_text (t : Token) : P Text :=
  get (fun p => slice (source_start (p_lexer p)) (start t) (start t + Z.to_nat (tok_length t))).

Definition token_text_equals (t : Token) (text : string) : P bool :=
  s ← token_text t;
  mret (bool_decide (type t = TOK_IDENT) && bool_decide (s = cstr text)).

(** ** Error nodes *)

Definition error_node : P Node := t ← get p_current; mret (ast_new_error t).
Definition sync_error : P Node := synchronize ;; error_node.

(** [if (!consume(p, ty)) { synchronize(p); return ast_new_error(p->arena, p->current); }] *)
Definition expect (ty : TokenType) (k : P Node) : P Node :=
  ok ← consume ty; if (ok : bool) then k else sync_error.

(** A computation that may return early from its caller with an error node. *)
Definition recover {A} : P (Node + A) := e ← sync_error; mret (inl e).
Definition recover_at {A} (t : Token) : P (Node + A) := synchronize ;; mret (inl (ast_new_error t)).
Definition require {A} (ty : TokenType) (k : P (Node + A)) : P (Node + A) :=
  ok ← consume ty; if (ok : bool) then k else recover.

(** [p->suppress_struct_init = b] around [m]. *)
Definition with_suppress {A} (b : bool) (m : P A) : P A :=
  saved ← get suppress_struct_init;
  set_suppress b ;;
  a ← m;
  set_suppress saved ;;
  mret a.

(** ** Precedence *)

Definition PREC_NONE : nat := 0.
Definition PREC_LOGICAL_OR : nat := 1.

Definition get_precedence (ty : TokenType) : nat :=
  match ty with
  | TOK_OR_OR => PREC_LOGICAL_OR
  | TOK_AND_AND => 2
  | TOK_EQUAL_EQUAL | TOK_BANG_EQUAL => 3
  | TOK_LESS | TOK_LESS_EQUAL | TOK_GREATER | TOK_GREATER_EQUAL => 4
  | TOK_OR => 5
  | TOK_XOR => 6
  | TOK_AND => 7
  | TOK_SHIFT_LEFT | TOK_SHIFT_RIGHT => 8
  | TOK_PLUS | TOK_MINUS => 9
  | TOK_STAR | TOK_SLASH | TOK_PERCENT => 10
  | _ => PREC_NONE
  end%nat.

(** ** Initialisation *)

(** [parser_init_common], for a file of the source manager. *)
Definition parser_init_common (file : SourceFile) : presult unit :=
  let eof := mkToken TOK_EOF 0 0 0 0 source_span_invalid in
  advance (mkParser (lexer_init_with_source_id (sf_id file) (sf_filename file) (sf_source file))
             eof eof false [] false).

(** ** The buffer of [consume] *)

Lemma display_name_length t : (String.length (token_debug_display_name t) <= 48)%nat.
Proof. apply Nat.leb_le. by destruct t. Qed.

Lemma string_append_length s t :
  String.length (s ++ t)%string = (String.length s + String.length t)%nat.
Proof.
  induction s as [|c s IH]; [done|].
  change (S (String.length (s ++ t)%string) = S (String.length s + String.length t)).
  by rewrite IH.
Qed.

(** Every message of [consume] fits its buffer of 128 bytes, terminator included. *)
Lemma consume_message_fits expected found :
  (String.length (consume_message expected found) < 128)%nat.
Proof.
  unfold consume_message. rewrite !string_append_length. cbn [String.length].
  pose proof (display_name_length expected). pose proof (display_name_length found). lia.
Qed.
