(* ===== verification/ParserExpr.v ===== *)
(** Types, literals and expressions of the parser ([src/parser.c]).

    The functions of the grammar call each other in cycles, and every cycle consumes a token.
    [Grammar] has the calls that close a cycle: a function takes the grammar that answers them,
    and Parser.v ties the knot with the number of characters left as fuel. *)
From S2P Require Import Prelude Token Types Source Lexer Literal StringDecode Ast ParserState.

Record Grammar : Type := mkGrammar {
  g_type : P SourceType;
  g_assignment : P Node;
  g_binary : nat -> P Node;
  g_unary : P Node;
  g_if_expression : P Node;
  g_block : P Node;
  g_statement : P Node;
  g_if_statement : P Node;
  g_compile_if_after_keyword : Token -> P Node;
  g_attribute_decl : P Node;
}.

(** [parse_expression(p)] *)
Abbreviation g_expression := g_assignment.

(** ** Literals *)

Record ParsedStringLiteral : Set := mkLiteral { literal_text : Text; literal_span : SourceSpan }.

(** The rest of the buffer behind the characters [p] accepts. *)
Fixpoint drop_while (p : ascii -> bool) (s : Text) : Text :=
  match s with
  | [] => []
  | c :: s' => if p c then drop_while p s' else s
  end.

Definition is_blank (c : ascii) : bool :=
  bool_decide (c = " "%char) || bool_decide (c = "009"%char) || bool_decide (c = "013"%char)
  || bool_decide (c = NL).

(** The payload of a literal after its opening quote, and what follows it. *)
Fixpoint payload (s : Text) : Text * Text :=
  match s with
  | [] => ([], [])
  | c :: s' =>
      if bool_decide (c = DQUOTE) then ([], s)
      else if bool_decide (c = "\"%char) then
        match s' with
        | [] => ([c], [])
        | d :: s'' => let '(t, rest) := payload s'' in (c :: d :: t, rest)
        end
      else let '(t, rest) := payload s' in (c :: t, rest)
  end.

(** The loop that reads the consumed literals again, from [s] on; [after] characters of the
    buffer lie behind the last one. *)
Fixpoint reread (fuel : nat) (after : nat) (s : Text) : Text :=
  match fuel with
  | O => []
  | S fuel =>
      if (length s <=? after)%nat then []
      else match drop_while is_blank s with
      | c :: s' =>
          if bool_decide (c = DQUOTE) then
            let '(part, rest) := payload s' in
            part ++ reread fuel after
                      (match rest with
                       | d :: rest' => if bool_decide (d = DQUOTE) then rest' else rest
                       | [] => rest
                       end)
          else []
      | [] => []
      end
  end.

Definition parse_adjacent_string_literals : P ParsedStringLiteral :=
  first ← get p_previous;
  '(last, len) ← loop (fun '(last, len) =>
    c ← check TOK_STRING;
    if (c : bool) then
      next ← get p_current;
      advance ;;
      mret (inl (next, len + (tok_length next - 2)))
    else mret (inr (last, len))) (first, tok_length first - 2);
  src ← get (fun p => source_start (p_lexer p));
  let sp := source_span_join (span first) (span last) in
  let first_end := (start first + Z.to_nat (tok_length first))%nat in
  let last_end := (start last + Z.to_nat (tok_length last))%nat in
  if (start last =? first_end)%nat
  then mret (mkLiteral (slice src (S (start first)) (S (start first) + Z.to_nat len)) sp)
  else mret (mkLiteral
    (slice src (S (start first)) (S (start first) + Z.to_nat (tok_length first - 2))
     ++ reread (S (length src)) (length src - last_end) (drop first_end src)) sp).

(** *** Floating point: [strtod] on the text of a token *)

Definition take_digits (radix : Z) (s : Text) : Text * Text :=
  (fix go s := match s with
               | c :: s' => if is_integer_digit_for_radix c radix
                            then let '(d, rest) := go s' in (c :: d, rest) else ([], s)
               | [] => ([], [])
               end) s.

(** The exponent after its letter: sign and digits. *)
Definition scan_exponent (s : Text) : option Z :=
  let '(sign, s) := match s with
                    | "+"%char :: s' => (1, s')
                    | "-"%char :: s' => (-1, s')
                    | _ => (1, s)
                    end in
  let '(d, rest) := take_digits 10 s in
  match d, rest with
  | _ :: _, [] => Some (sign * positional 10 d)
  | _, _ => None
  end.

(** The number that the whole text spells, in the digits of [radix]; [base] and [scale] turn a
    digit behind the point into a power of the base. *)
Definition strtod_radix (radix base scale : Z) (letters : list ascii) (s : Text) : option FloatValue :=
  let '(whole, s) := take_digits radix s in
  let '(part, s) := match s with "."%char :: s' => take_digits radix s' | _ => ([], s) end in
  let digits := whole ++ part in
  let e0 := - scale * Z.of_nat (length part) in
  if (length digits =? 0)%nat then None
  else match s with
  | [] => Some (mkFloat (positional radix digits) base e0)
  | c :: s => if bool_decide (c ∈ letters)
              then e ← scan_exponent s; Some (mkFloat (positional radix digits) base (e0 + e))
              else None
  end.

Definition strtod (s : Text) : option FloatValue :=
  match s with
  | "0"%char :: x :: s' =>
      if bool_decide (x = "x"%char \/ x = "X"%char)
      then strtod_radix 16 2 4 ["p"%char; "P"%char] s'
      else strtod_radix 10 10 1 ["e"%char; "E"%char] s
  | _ => strtod_radix 10 10 1 ["e"%char; "E"%char] s
  end.

(** The smallest magnitude that a [double] rounds to infinity. *)
Definition DOUBLE_OVERFLOW : Z := 2 ^ 1024 - 2 ^ 970.

Definition float_is_finite (v : FloatValue) : bool :=
  if mantissa v =? 0 then true
  else if 1100 <=? exponent v then false
  else if 0 <=? exponent v then mantissa v * base v ^ exponent v <? DOUBLE_OVERFLOW
  else mantissa v <? DOUBLE_OVERFLOW * base v ^ (- exponent v).

Definition parse_float_token (t : Token) : P (option FloatValue) :=
  s ← token_text t;
  mret (match strtod s with
        | Some v => if float_is_finite v then Some v else None
        | None => None
        end).

(** ** Names *)

Record ParsedDottedName : Set := mkDotted {
  dn_full : Text;
  dn_prefix : Text;
  dn_leaf : Text;
  dn_span : SourceSpan;
}.

Definition parse_dotted_name_from_first (first : Token) : P ParsedDottedName :=
  x ← token_text first;
  '(full, leaf, count, last) ← loop (fun '(full, leaf, count, last) =>
    d ← match_ TOK_DOT;
    if negb d then mret (inr (full, leaf, count, last))
    else
      ok ← consume TOK_IDENT;
      if negb ok then mret (inr (full, leaf, count, last))
      else
        part ← get p_previous;
        y ← token_text part;
        mret (inl (full ++ "."%char :: y, y, S count, part))) (x, x, 1%nat, first);
  mret (mkDotted full
          (if (1 <? count)%nat then take (length full - length leaf - 1) full else [])
          leaf (source_span_join (span first) (span last))).

(** The loop of [split_dotted_leaf]: [i] characters are left to look at. *)
Fixpoint find_last_dot (full : Text) (i : nat) : option nat :=
  match i with
  | O => None
  | S j => if bool_decide (full !! j = Some "."%char) then Some i else find_last_dot full j
  end.

(** Module and name, or [None] for a failure. *)
Definition split_dotted_leaf (full : Text) : option (Text * Text) :=
  if (length full =? 0)%nat then None
  else match find_last_dot full (length full) with
  | Some i => if (i =? 1)%nat || (i =? length full)%nat then None
              else Some (take (i - 1) full, drop i full)
  | None => Some ([], full)
  end.

Definition calling_conventions : list (string * CCallingConvention) :=
  [("cdecl", C_CALL_CDECL); ("stdcall", C_CALL_STDCALL); ("sysv64", C_CALL_SYSV64);
   ("win64", C_CALL_WIN64)]%string.

Fixpoint find_convention (table : list (string * CCallingConvention)) (t : Token)
    : P (option CCallingConvention) :=
  match table with
  | [] =>
      error_at t "unsupported C calling convention; expected 'cdecl', 'stdcall', 'sysv64', or 'win64'" ;;
      mret None
  | (name, conv) :: table =>
      eq ← token_text_equals t name;
      if (eq : bool) then mret (Some conv) else find_convention table t
  end.

Definition parse_c_calling_convention_token (t : Token) : P (option CCallingConvention) :=
  find_convention calling_conventions t.

(** ** Types *)

Section Types.
Context (g : Grammar).

Definition make_void_type : SourceType := TyKind TYPE_VOID.

(** The qualifiers seen, each with its last token. *)
Record Qualifiers : Set := mkQualifiers {
  readonly_token : option Token;
  volatile_token : option Token;
}.

Definition parse_qualifiers : P Qualifiers :=
  loop (fun q =>
    r ← match_ TOK_READONLY;
    if (r : bool) then
      t ← get p_previous;
      (if bool_decide (is_Some (readonly_token q))
       then error_at t "duplicate 'readonly' pointer qualifier" else mret tt) ;;
      mret (inl (mkQualifiers (Some t) (volatile_token q)))
    else
      v ← match_ TOK_VOLATILE;
      if (v : bool) then
        t ← get p_previous;
        (if bool_decide (is_Some (volatile_token q))
         then error_at t "duplicate 'volatile' pointer qualifier" else mret tt) ;;
        mret (inl (mkQualifiers (readonly_token q) (Some t)))
      else mret (inr q)) (mkQualifiers None None).

Definition access_of (q : Qualifiers) (first_layer : bool) : PointerAccess :=
  if bool_decide (is_Some (readonly_token q)) && first_layer
  then POINTER_ACCESS_READONLY else POINTER_ACCESS_MUTABLE.
Definition volatile_of (q : Qualifiers) (first_layer : bool) : bool :=
  bool_decide (is_Some (volatile_token q)) && first_layer.

(** The parameters of a [cfn] type: the types, and whether [...] ends them. *)
Definition parse_function_type_parameters : P (list SourceType * bool) :=
  loop (fun parameters =>
    e ← match_ TOK_ELLIPSIS;
    if (e : bool) then
      (if (length parameters =? 0)%nat
       then error_before "C variadic function types require at least one fixed parameter"
       else mret tt) ;;
      mret (inr (parameters, true))
    else
      t ← g_type g;
      c ← match_ TOK_COMMA;
      mret (if (c : bool) then inl (parameters ++ [t]) else inr (parameters ++ [t], false))) [].

(** The [call=...] option: [inl] when the type ends here after an error. *)
Definition parse_function_type_convention : P (CCallingConvention + CCallingConvention) :=
  t ← get p_current;
  named ← token_text_equals t "call";
  follows ← (if (named : bool) then n ← peek_next_token_type; mret (bool_decide (n = TOK_EQUAL))
             else mret false);
  if negb follows then mret (inr C_CALL_DEFAULT)
  else
    advance ;;
    consume TOK_EQUAL ;;
    ok ← consume TOK_IDENT;
    if negb ok then mret (inl C_CALL_DEFAULT)
    else
      t ← get p_previous;
      conv ← parse_c_calling_convention_token t;
      match conv with
      | None => mret (inl C_CALL_DEFAULT)
      | Some conv =>
          close ← check TOK_RPAREN;
          if (close : bool) then mret (inr conv)
          else ok ← consume TOK_COMMA; mret (if (ok : bool) then inr conv else inl conv)
      end.

(** After [cfn]: [inl] when [parse_type] returns at once. *)
Definition parse_function_type : P (SourceType + SourceType) :=
  let bare conv := TyFunction FUNCTION_ABI_C conv [] false None in
  ok ← consume TOK_LPAREN;
  if negb ok then mret (inl (bare C_CALL_DEFAULT))
  else
    c ← parse_function_type_convention;
    match c with
    | inl conv => mret (inl (bare conv))
    | inr conv =>
        close ← check TOK_RPAREN;
        '(parameters, variadic) ←
          (if (close : bool) then mret ([], false) else parse_function_type_parameters);
        consume TOK_RPAREN ;;
        arrow ← match_ TOK_ARROW;
        ret ← (if (arrow : bool) then g_type g else mret make_void_type);
        mret (inr (TyFunction FUNCTION_ABI_C conv parameters variadic (Some ret)))
    end.

Definition parse_explicit_type_arguments (subject : string) : P (option (list SourceType)) :=
  ok ← consume TOK_LESS;
  if negb ok then
    error_here ("expected '<' after '::' in " ++ subject)%string ;; mret None
  else
    empty ← check TOK_GREATER;
    if (empty : bool) then
      error_here (subject ++ " requires at least one type argument")%string ;;
      advance ;; mret None
    else
      args ← loop (fun args =>
        t ← g_type g;
        c ← match_ TOK_COMMA;
        mret (if (c : bool) then inl (args ++ [t]) else inr (args ++ [t]))) [];
      ok ← consume_generic_greater "expected '>' after generic type arguments";
      mret (if (ok : bool) then Some args else None).

(** The keywords of types without components. *)
Definition keyword_type (ty : TokenType) : option TypeKind :=
  match ty with
  | TOK_S8 => Some TYPE_S8 | TOK_S16 => Some TYPE_S16 | TOK_S32 => Some TYPE_S32
  | TOK_S64 | TOK_INT_KW => Some TYPE_S64
  | TOK_U8 => Some TYPE_U8 | TOK_U16 => Some TYPE_U16 | TOK_U32 => Some TYPE_U32
  | TOK_U64 | TOK_UINT_KW => Some TYPE_U64
  | TOK_F32 => Some TYPE_F32 | TOK_F64 => Some TYPE_F64
  | TOK_BOOL => Some TYPE_BOOL | TOK_VOID => Some TYPE_VOID
  | _ => None
  end.

(** A named type, whose first identifier has been consumed. *)
Definition parse_named_type : P SourceType :=
  first ← get p_previous;
  name ← parse_dotted_name_from_first first;
  generic ← match_ TOK_COLON_COLON;
  args ← (if (generic : bool) then parse_explicit_type_arguments "generic type" else mret None);
  mret (TyNamed (dn_prefix name) (dn_leaf name) (default [] args)).

(** What comes before the stars: the type with the number of pointer layers it has, or [inl]
    when [parse_type] returns it at once. *)
Definition parse_base_type (q : Qualifiers) : P (SourceType + SourceType * nat) :=
  t ← get p_current;
  match type t with
  | TOK_CFN =>
      advance ;; r ← parse_function_type;
      mret (match r with inl t => inl t | inr t => inr (t, 0%nat) end)
  | TOK_OPAQUE =>
      advance ;;
      star ← match_ TOK_STAR;
      if negb star then error_at t "'opaque' must be followed by '*'" ;; mret (inl make_void_type)
      else mret (inr (TyOpaquePointer (access_of q true) (volatile_of q true), 1%nat))
  | TOK_ISIZE | TOK_USIZE =>
      advance ;; x ← token_text t; mret (inr (TyNamed [] x [], 0%nat))
  | TOK_IDENT => advance ;; n ← parse_named_type; mret (inr (n, 0%nat))
  | ty =>
      match keyword_type ty with
      | Some k => advance ;; mret (inr (TyKind k, 0%nat))
      | None => error_at t "expected type" ;; mret (inl make_void_type)
      end
  end.

Definition parse_pointers (q : Qualifiers) (base : SourceType) (layers : nat)
    : P (SourceType * nat) :=
  loop (fun '(base, layers) =>
    star ← match_ TOK_STAR;
    if (star : bool) then
      let first := (layers =? 0)%nat in
      mret (inl (TyPointer (access_of q first) (volatile_of q first) base, S layers))
    else mret (inr (base, layers))) (base, layers).

(** The number of elements of an array, -1 after an error. *)
Definition parse_array_size : P Z :=
  n ← match_ TOK_NUMBER_INT;
  if negb n then error_here "expected array size" ;; mret (-1)
  else
    t ← get p_previous;
    x ← token_text t;
    match parse_integer_u64 x with
    | None => error_at t "array size exceeds u64 range" ;; mret (-1)
    | Some size =>
        if INT_MAX <? size then error_at t "array size exceeds compiler limit" ;; mret (-1)
        else mret size
    end.

Definition error_at_qualifier (o : option Token) (msg : string) : P unit :=
  match o with Some t => error_at t msg | None => mret tt end.

(** The suffix of an array or a slice. *)
Definition parse_brackets (q : Qualifiers) (base : SourceType) (layers : nat) : P SourceType :=
  open ← match_ TOK_LBRACKET;
  if negb open then mret base
  else
    close ← match_ TOK_RBRACKET;
    if (close : bool) then
      (if (layers =? 0)%nat
       then error_at_qualifier (volatile_token q) "'volatile' is not supported on slice types"
       else mret tt) ;;
      mret (TySlice (access_of q (layers =? 0)%nat) base)
    else
      size ← parse_array_size;
      consume TOK_RBRACKET ;;
      mret (TyArray size base).

Definition is_slice (t : SourceType) : bool := match t with TySlice _ _ => true | _ => false end.

Definition parse_type : P SourceType :=
  q ← parse_qualifiers;
  b ← parse_base_type q;
  match b with
  | inl t => mret t
  | inr (base, layers) =>
      '(base, layers) ← parse_pointers q base layers;
      base ← parse_brackets q base layers;
      (if (layers =? 0)%nat && negb (is_slice base) then
         error_at_qualifier (readonly_token q) "'readonly' must qualify a pointer or slice type" ;;
         error_at_qualifier (volatile_token q) "'volatile' must qualify a pointer type"
       else mret tt) ;;
      mret base
  end.
End Types.

(** ** Expressions *)

Definition is_assignable (n : Node) : bool :=
  match as_of n with
  | Some (NODE_IDENT _) | Some (NODE_FIELD _ _ _) | Some (NODE_INDEX _ _) => true
  | Some (NODE_UNARY op _) => bool_decide (op = TOK_STAR)
  | _ => false
  end.

Definition make_inc_dec (expr : Node) (op : TokenType) (is_prefix : bool) (op_span : SourceSpan)
    : P Node :=
  (if is_assignable expr then mret tt else error_before "invalid increment target") ;;
  mret (ast_new_inc_dec op expr is_prefix (source_span_join op_span (span_of expr))).

Section Expressions.
Context (g : Grammar).

Definition parse_type_layout_query : P Node :=
  keyword ← get p_current;
  passert (bool_decide (type keyword = TOK_SIZE_OF) || bool_decide (type keyword = TOK_ALIGN_OF)) ;;
  advance ;;
  x ← token_text keyword;
  let callee := ast_new_ident x (span keyword) in
  generic ← match_ TOK_COLON_COLON;
  if (generic : bool) then
    error_before (if bool_decide (type keyword = TOK_SIZE_OF)
                  then "'size_of' uses size_of(T), not generic syntax"
                  else "'align_of' uses align_of(T), not generic syntax") ;;
    skip_until (fun ty => bool_decide (ty = TOK_SEMICOLON) || bool_decide (ty = TOK_RBRACE)) ;;
    mret (ast_new_error keyword)
  else
    expect TOK_LPAREN (
      empty ← match_ TOK_RPAREN;
      if (empty : bool) then
        close ← get p_previous;
        mret (ast_new_call callee [] [] (source_span_join (span keyword) (span close)))
      else
        queried ← g_type g;
        expect TOK_RPAREN (
          close ← get p_previous;
          mret (ast_new_call callee [queried] []
                  (source_span_join (span keyword) (span close))))).

Definition parse_if_expression : P Node :=
  keyword ← get p_previous;
  condition ← with_suppress true (g_expression g);
  expect TOK_LBRACE (
    then_value ← g_expression g;
    expect TOK_RBRACE (
      has_else ← consume TOK_ELSE;
      if negb has_else then error_here "if expression requires an else branch" ;; sync_error
      else
        let finish (else_value : Node) : P Node :=
          mret (ast_new_if_expr condition then_value else_value
                  (source_span_join (span keyword) (span_of else_value))) in
        chained ← match_ TOK_IF;
        if (chained : bool) then else_value ← g_if_expression g; finish else_value
        else
          expect TOK_LBRACE (
            else_value ← g_expression g;
            expect TOK_RBRACE (finish else_value)))).

Definition cast_kind_of (ty : TokenType) : option CastKind :=
  match ty with
  | TOK_CAST => Some CAST_CHECKED
  | TOK_TRUNCATE => Some CAST_TRUNCATING
  | TOK_REINTERPRET => Some CAST_REINTERPRET
  | _ => None
  end.

Definition parse_conversion_expression : P Node :=
  keyword ← get p_current;
  match cast_kind_of (type keyword) with
  | None => pthrow AssertionFailed
  | Some kind =>
      advance ;;
      expect TOK_LPAREN (
        target_type ← g_type g;
        expect TOK_COMMA (
          expression ← g_assignment g;
          expect TOK_RPAREN (
            mret (ast_new_cast kind target_type expression
                    (source_span_join (span keyword) (span_of expression))))))
  end.

Definition parse_zero_array_initializer : P Node :=
  open ← get p_previous;
  n ← match_ TOK_NUMBER_INT;
  if negb n then error_here "zero initializer must be spelled '{0}'" ;; sync_error
  else
    zero ← get p_previous;
    x ← token_text zero;
    (if bool_decide (x = ["0"%char]) then mret tt
     else error_at zero "zero initializer must be spelled '{0}'") ;;
    expect TOK_RBRACE (
      close ← get p_previous;
      mret (ast_new_zero_array_initializer (source_span_join (span open) (span close)))).

Definition parse_array_literal : P Node :=
  open ← get p_previous;
  empty ← check TOK_RBRACKET;
  elements ← (if (empty : bool) then mret [] else
    loop (fun elements =>
      e ← g_assignment g;
      c ← match_ TOK_COMMA;
      close ← check TOK_RBRACKET;
      mret (if (c : bool) && negb close then inl (elements ++ [e]) else inr (elements ++ [e]))) []);
  consume TOK_RBRACKET ;;
  mret (ast_new_array_literal elements (span open)).

(** Struct initializers; [inl] is the node an error in the fields returns. *)
Definition parse_struct_init_fields : P (Node + list Node) :=
  loop (fun fields =>
    ok ← consume TOK_IDENT;
    if negb ok then e ← sync_error; mret (inr (inl e))
    else
      name ← get p_previous;
      x ← token_text name;
      ok ← consume TOK_EQUAL;
      if negb ok then e ← sync_error; mret (inr (inl e))
      else
        value ← g_assignment g;
        let fields := fields ++ [ast_new_field_init x value (span name)] in
        c ← match_ TOK_COMMA;
        close ← check TOK_RBRACE;
        mret (if (c : bool) && negb close then inl fields else inr (inr fields))) [].

Definition finish_struct_init_named (module_name type_name : Text) (type_arguments : list SourceType)
    (sp : SourceSpan) : P Node :=
  consume TOK_LBRACE ;;
  empty ← check TOK_RBRACE;
  fields ← (if (empty : bool) then mret (inr []) else parse_struct_init_fields);
  match fields with
  | inl e => mret e
  | inr fields =>
      consume TOK_RBRACE ;;
      mret (ast_new_struct_init module_name type_name type_arguments fields sp)
  end.

Definition finish_struct_init (type_name : Token) : P Node :=
  x ← token_text type_name;
  finish_struct_init_named [] x [] (span type_name).

(** *** Postfix operators *)

(** One more argument, and whether a comma follows it. *)
Definition next_argument (args : list Node) : P (list Node + list Node) :=
  arg ← g_expression g;
  dots ← match_ TOK_ELLIPSIS;
  arg ← (if (dots : bool) then mret (ast_new_pack_expansion arg (span_of arg)) else mret arg);
  c ← match_ TOK_COMMA;
  mret (if (c : bool) then inl (args ++ [arg]) else inr (args ++ [arg])).

Definition finish_call (callee : Node) (type_arguments : list SourceType) : P Node :=
  arguments ← with_suppress false (
    empty ← check TOK_RPAREN;
    if (empty : bool) then mret [] else loop next_argument []);
  consume TOK_RPAREN ;;
  mret (ast_new_call callee type_arguments arguments (span_of callee)).

Definition generic_callee_dotted_name (callee : Node) : option (Text * Text) :=
  match as_of callee with
  | Some (NODE_IDENT x) => Some ([], x)
  | Some (NODE_FIELD _ _ path) =>
      if negb (length path =? 0)%nat then split_dotted_leaf path else None
  | _ => None
  end.

Definition finish_generic_call (callee : Node) : P Node :=
  arguments ← parse_explicit_type_arguments g "generic application";
  match arguments with
  | None => error_node
  | Some arguments =>
      call ← match_ TOK_LPAREN;
      if (call : bool) then finish_call callee arguments
      else
        brace ← check TOK_LBRACE;
        suppressed ← get suppress_struct_init;
        dot ← check TOK_DOT;
        match generic_callee_dotted_name callee with
        | Some (module_name, type_name) =>
            if (brace : bool) && negb suppressed then
              finish_struct_init_named module_name type_name arguments (span_of callee)
            else if (dot : bool) then
              mret (ast_new_type_ref (TyNamed module_name type_name arguments)
                      (span_of callee))
            else
              error_here "generic type arguments must be followed by a call or struct initializer" ;;
              error_node
        | None =>
            error_here "generic type arguments must be followed by a call or struct initializer" ;;
            error_node
        end
  end.

Definition finish_field (object : Node) : P Node :=
  ok ← match_ TOK_IDENT;
  if negb ok then error_here "expected field name" ;; error_node
  else
    name ← get p_previous;
    x ← token_text name;
    mret (ast_new_field object x (span name)).

Definition finish_index (object : Node) : P Node :=
  index ← with_suppress false (g_expression g);
  consume TOK_RBRACKET ;;
  mret (ast_new_index object index (source_span_join (span_of object) (span_of index))).

(** [a.b.T { ... }]: the initializer of a qualified type. *)
Definition maybe_qualified_init (expr : Node) : P Node :=
  brace ← check TOK_LBRACE;
  suppressed ← get suppress_struct_init;
  match as_of expr with
  | Some (NODE_FIELD _ _ path) =>
      if (brace : bool) && negb suppressed && negb (length path =? 0)%nat then
        match split_dotted_leaf path with
        | Some (module_name, type_name) =>
            if negb (length module_name =? 0)%nat
            then finish_struct_init_named module_name type_name [] (span_of expr)
            else mret expr
        | None => mret expr
        end
      else mret expr
  | _ => mret expr
  end.

Definition parse_postfix_from (expr : Node) : P Node :=
  loop (fun expr =>
    t ← get p_current;
    match type t with
    | TOK_COLON_COLON => advance ;; e ← finish_generic_call expr; mret (inl e)
    | TOK_LPAREN => advance ;; e ← finish_call expr []; mret (inl e)
    | TOK_DOT => advance ;; e ← finish_field expr; e ← maybe_qualified_init e; mret (inl e)
    | TOK_LBRACKET => advance ;; e ← finish_index expr; mret (inl e)
    | TOK_PLUS_PLUS | TOK_MINUS_MINUS =>
        advance ;;
        op ← get p_previous;
        e ← make_inc_dec expr (type t) false (span op);
        mret (inl e)
    | _ => mret (inr expr)
    end) expr.

(** *** Primary expressions *)

Definition literal_node (a : Text -> SourceSpan -> Node) (t : Token) : P Node :=
  x ← token_text t; mret (a x (span t)).

Definition parse_integer : P Node :=
  t ← get p_previous;
  x ← token_text t;
  match parse_integer_u64 x with
  | Some value => mret (ast_new_integer value (span t))
  | None =>
      error_at t "integer literal exceeds u64 range" ;;
      mret (ast_new_integer 0 (span t))
  end.

Definition parse_float : P Node :=
  t ← get p_previous;
  v ← parse_float_token t;
  match v with
  | Some value => mret (ast_new_float value (span t))
  | None =>
      error_at t "floating-point literal is out of range" ;;
      mret (ast_new_float (mkFloat 0 10 0) (span t))
  end.

Definition parse_string : P Node :=
  literal ← parse_adjacent_string_literals;
  mret (ast_new_string (literal_text literal) (literal_span literal)).

Definition parse_char : P Node :=
  t ← get p_previous;
  x ← token_text t;
  mret (ast_new_char (take (length x - 2) (drop 1 x)) (span t)).

Definition parse_name : P Node :=
  t ← get p_previous;
  brace ← check TOK_LBRACE;
  suppressed ← get suppress_struct_init;
  if (brace : bool) && negb suppressed then finish_struct_init t
  else literal_node ast_new_ident t.

Definition parse_parenthesized : P Node :=
  expr ← with_suppress false (g_expression g);
  consume TOK_RPAREN ;;
  mret expr.

(** A literal without a payload. *)
Definition constant_node (a : SourceSpan -> Node) : P Node :=
  t ← get p_previous; mret (a (span t)).

Definition parse_primary : P Node :=
  t ← get p_current;
  match type t with
  | TOK_IF => advance ;; parse_if_expression
  | TOK_NUMBER_INT => advance ;; parse_integer
  | TOK_NUMBER_FLOAT => advance ;; parse_float
  | TOK_STRING => advance ;; parse_string
  | TOK_CHAR => advance ;; parse_char
  | TOK_SIZE_OF | TOK_ALIGN_OF => parse_type_layout_query
  | TOK_CAST | TOK_TRUNCATE | TOK_REINTERPRET => parse_conversion_expression
  | TOK_IDENT => advance ;; parse_name
  | TOK_LPAREN => advance ;; parse_parenthesized
  | TOK_TRUE => advance ;; constant_node (ast_new_bool true)
  | TOK_FALSE => advance ;; constant_node (ast_new_bool false)
  | TOK_NULL => advance ;; constant_node ast_new_null
  | TOK_LBRACKET => advance ;; parse_array_literal
  | TOK_LBRACE => advance ;; parse_zero_array_initializer
  | _ => error_at t "expected expression" ;; error_node
  end.

Definition parse_postfix : P Node := e ← parse_primary; parse_postfix_from e.

(** *** Operators *)

Definition is_prefix_operator (ty : TokenType) : bool :=
  match ty with
  | TOK_PLUS_PLUS | TOK_MINUS_MINUS | TOK_MINUS | TOK_BANG | TOK_TILDE | TOK_MOVE | TOK_AND
  | TOK_STAR => true
  | _ => false
  end.

Definition parse_unary : P Node :=
  op ← get p_current;
  if is_prefix_operator (type op) then
    advance ;;
    rhs ← g_unary g;
    if bool_decide (type op = TOK_PLUS_PLUS) || bool_decide (type op = TOK_MINUS_MINUS)
    then make_inc_dec rhs (type op) true (span op)
    else mret (ast_new_unary (type op) rhs (source_span_join (span op) (span_of rhs)))
  else parse_postfix.

Definition parse_binary_from (l : Node) (min_prec : nat) : P Node :=
  loop (fun l =>
    op ← get p_current;
    let prec := get_precedence (type op) in
    if (prec <? min_prec)%nat then mret (inr l)
    else
      advance ;;
      r ← g_binary g (S prec);
      mret (inl (ast_new_binary (type op) l r
                   (source_span_join (span_of l) (span_of r))))) l.

Definition parse_binary (min_prec : nat) : P Node :=
  l ← parse_unary; parse_binary_from l min_prec.

Definition is_assignment_operator (ty : TokenType) : bool :=
  match ty with
  | TOK_EQUAL | TOK_PLUS_EQUAL | TOK_MINUS_EQUAL | TOK_STAR_EQUAL | TOK_SLASH_EQUAL
  | TOK_PERCENT_EQUAL | TOK_AND_EQUAL | TOK_OR_EQUAL | TOK_XOR_EQUAL | TOK_SHIFT_LEFT_EQUAL
  | TOK_SHIFT_RIGHT_EQUAL => true
  | _ => false
  end.

Definition parse_assignment_from (l : Node) : P Node :=
  t ← get p_current;
  if negb (is_assignment_operator (type t)) then mret l
  else
    advance ;;
    (if is_assignable l then mret tt else error_before "invalid assignment target") ;;
    r ← g_assignment g;
    let sp := source_span_join (span_of l) (span_of r) in
    mret (if bool_decide (type t = TOK_EQUAL) then ast_new_assign l r sp
          else ast_new_compound_assign (type t) l r sp).

Definition parse_assignment : P Node :=
  d ← match_ TOK_DISCARD;
  if (d : bool) then
    op ← get p_previous;
    operand ← g_assignment g;
    mret (ast_new_unary TOK_DISCARD operand (source_span_join (span op) (span_of operand)))
  else
    e ← parse_binary PREC_LOGICAL_OR;
    parse_assignment_from e.
End Expressions.
