(* ===== verification/ParserDecl.v ===== *)
(** Declarations of the parser ([src/parser.c]): variables, functions, generics, structures and
    enumerations. *)
From S2P Require Import Prelude Token Types Source Lexer Literal StringDecode Ast ParserState ParserExpr.

Section Declarations.
Context (g : Grammar).

(** ** Variables and constants *)

(** The names of a grouped declaration after the first; [inl] after an error. *)
Definition parse_group_names (first_name : Token) : P (Node + list Token) :=
  loop (fun names =>
    c ← match_ TOK_COMMA;
    if negb c then mret (inr (inr names))
    else
      i ← check TOK_IDENT;
      if negb i then
        error_here "expected variable name after ','" ;;
        e ← sync_error; mret (inr (inl e))
      else name ← get p_current; advance ;; mret (inl (names ++ [name]))) [first_name].

Fixpoint group_declarations (garbage : Garbage) (type : SourceType) (initializer : option Node)
    (names : list Token) : P (list Node) :=
  match names with
  | [] => mret []
  | name :: names =>
      x ← token_text name;
      let decl := ast_new_var_decl (Some type) x initializer (span name) in
      decls ← group_declarations garbage type initializer names;
      mret (decl :: decls)
  end.

(** The copy of an initializer: [ast_clone] of an increment or a constant is a null pointer,
    which is a declaration without initializer. *)
Definition cloned_initializer (garbage : Garbage) (initializer : option Node) : option Node :=
  match initializer with
  | Some n => match ast_clone garbage n with NullNode => None | copy => Some copy end
  | None => None
  end.

Definition optional_initializer : P (option Node) :=
  eq ← match_ TOK_EQUAL;
  if (eq : bool) then e ← g_assignment g; mret (Some e) else mret None.

Definition finish_grouped_typed_var_decl (garbage : Garbage) (first_name : Token) : P Node :=
  names ← parse_group_names first_name;
  match names with
  | inl e => mret e
  | inr names =>
      expect TOK_COLON (
        type ← g_type g;
        c ← match_ TOK_COLON;
        if (c : bool) then
          error_before "grouped declarations cannot declare constants" ;; sync_error
        else
          initializer ← optional_initializer;
          expect TOK_SEMICOLON (
            first ← group_declarations garbage type initializer (take 1 names);
            others ← group_declarations garbage type (cloned_initializer garbage initializer)
                       (drop 1 names);
            mret (ast_new_var_decl_group (first ++ others) (span first_name))))
  end.

Definition const_decl (type : option SourceType) (name : Token) : P Node :=
  value ← g_assignment g;
  expect TOK_SEMICOLON (
    x ← token_text name;
    mret (ast_new_const_decl type x value (span name))).

Definition finish_typed_decl (name : Token) : P Node :=
  type ← g_type g;
  c ← match_ TOK_COLON;
  if (c : bool) then const_decl (Some type) name
  else
    initializer ← optional_initializer;
    expect TOK_SEMICOLON (
      x ← token_text name;
      mret (ast_new_var_decl (Some type) x initializer (span name))).

Definition finish_inferred_const_decl (name : Token) : P Node := const_decl None name.

Definition finish_inferred_var_decl (name : Token) : P Node :=
  initializer ← g_assignment g;
  expect TOK_SEMICOLON (
    x ← token_text name;
    mret (ast_new_var_decl None x (Some initializer) (span name))).

(** ** Functions *)

(** The names of a parameter group; [None] for a failure. *)
Definition parse_parameter_names : P (option (list Token)) :=
  ok ← consume TOK_IDENT;
  if negb ok then mret None
  else
    first ← get p_previous;
    loop (fun names =>
      c ← match_ TOK_COMMA;
      if negb c then mret (inr (Some names))
      else
        ok ← consume TOK_IDENT;
        if negb ok then mret (inr None)
        else
          name ← get p_previous;
          colon ← check TOK_COLON;
          mret (if (colon : bool) then inr (Some (names ++ [name])) else inl (names ++ [name]))) [first].

Fixpoint parameter_nodes (type : SourceType) (is_pack : bool) (names : list Token) : P (list Node) :=
  match names with
  | [] => mret []
  | name :: names =>
      x ← token_text name;
      params ← parameter_nodes type is_pack names;
      mret (ast_new_func_param_decl type x is_pack (span name) :: params)
  end.

(** The parameters the group adds. *)
Definition parse_parameter_group : P (option (list Node)) :=
  names ← parse_parameter_names;
  match names with
  | None => mret None
  | Some names =>
      ok ← consume TOK_COLON;
      if negb ok then mret None
      else
        is_pack ← match_ TOK_ELLIPSIS;
        type ← g_type g;
        if (is_pack : bool) && (1 <? length names)%nat then
          error_before "variadic generic parameter groups may contain only one name" ;; mret None
        else
          eq ← match_ TOK_EQUAL;
          (if (eq : bool) then
             error_before "default parameters are not supported" ;; g_assignment g ;; mret tt
           else mret tt) ;;
          params ← parameter_nodes type is_pack names;
          mret (Some params)
  end.

(** The parameters, and whether [...] ends them; [inl] after an error. *)
Definition parse_parameters : P (Node + list Node * bool) :=
  loop (fun params =>
    dots ← match_ TOK_ELLIPSIS;
    if (dots : bool) then
      (if (length params =? 0)%nat
       then error_before "C variadic declarations require at least one fixed parameter"
       else mret tt) ;;
      mret (inr (inr (params, true)))
    else
      group ← parse_parameter_group;
      match group with
      | None => e ← sync_error; mret (inr (inl e))
      | Some more =>
          c ← match_ TOK_COMMA;
          mret (if (c : bool) then inl (params ++ more) else inr (inr (params ++ more, false)))
      end) [].

(** What the functions that complete a declaration change in it. *)
Definition update_func (f : FuncInfo -> FuncInfo) (n : Node) : Node :=
  match n with
  | mkNode (NODE_FUNC_DECL info ps b) s e => mkNode (NODE_FUNC_DECL (f info) ps b) s e
  | _ => n
  end.
Definition with_body (body : Node) (n : Node) : Node :=
  match n with
  | mkNode (NODE_FUNC_DECL info ps _) s e => mkNode (NODE_FUNC_DECL info ps (Some body)) s e
  | _ => n
  end.
Definition update_struct (f : StructInfo -> StructInfo) (n : Node) : Node :=
  match n with
  | mkNode (NODE_STRUCT_DECL info fs ms) s e => mkNode (NODE_STRUCT_DECL (f info) fs ms) s e
  | _ => n
  end.

Definition is_error (n : Node) : bool :=
  match as_of n with Some (NODE_ERROR _) => true | _ => false end.
Definition is_func_decl (n : Node) : bool :=
  match as_of n with Some (NODE_FUNC_DECL _ _ _) => true | _ => false end.

Definition parse_function_signature_rest (name : Token) (sp : SourceSpan) : P Node :=
  expect TOK_LPAREN (
    x ← token_text name;
    empty ← check TOK_RPAREN;
    params ← (if (empty : bool) then mret (inr ([], false)) else parse_parameters);
    match params with
    | inl e => mret e
    | inr (params, variadic) =>
        expect TOK_RPAREN (
          arrow ← match_ TOK_ARROW;
          ret ← (if (arrow : bool) then g_type g else mret make_void_type);
          mret (ast_new_func_decl x (Some ret) params variadic sp))
    end).

Definition parse_function_body (func : Node) : P Node :=
  brace ← check TOK_LBRACE;
  if negb brace then error_here "expected function body" ;; sync_error
  else body ← g_block g; mret (with_body body func).

Definition parse_proc_decl_rest (name : Token) (sp : SourceSpan) : P Node :=
  func ← parse_function_signature_rest name sp;
  if is_error func then mret func else parse_function_body func.

Definition set_type_parameters (ps : list GenericTypeParameter) (i : FuncInfo) : FuncInfo :=
  mkFunc (func_name i) ps (func_return_type i) (func_linkage i) (func_is_repr_c i)
    (func_is_discardable i) (func_c_call_conv i) (func_is_variadic i) (func_external_name i).

(** ** Generic parameters *)

(** After the [<]; [None] for a failure. *)
Definition parse_generic_type_parameter_list_after_less (subject : string)
    : P (option (list GenericTypeParameter)) :=
  empty ← check TOK_GREATER;
  if (empty : bool) then
    error_here (subject ++ " requires at least one type parameter")%string ;; advance ;; mret None
  else
    params ← loop (fun params =>
      is_pack ← match_ TOK_ELLIPSIS;
      ok ← consume TOK_IDENT;
      if negb ok then synchronize ;; mret (inr None)
      else
        parameter ← get p_previous;
        x ← token_text parameter;
        colon ← match_ TOK_COLON;
        constraint ← (if (colon : bool) then
                        ok ← consume TOK_IDENT;
                        if negb ok then synchronize ;; mret None
                        else t ← get p_previous; y ← token_text t; mret (Some y)
                      else mret (Some []));
        match constraint with
        | None => mret (inr None)
        | Some y =>
            let params := params ++ [mkTypeParameter x is_pack y] in
            c ← match_ TOK_COMMA;
            if (is_pack : bool) then
              if (c : bool) then
                error_before "variadic generic type parameter must be last" ;;
                skip_until (fun ty => bool_decide (ty = TOK_GREATER)) ;;
                match_ TOK_GREATER ;;
                mret (inr None)
              else mret (inr (Some params))
            else mret (if (c : bool) then inl params else inr (Some params))
        end) [];
    match params with
    | None => mret None
    | Some params =>
        ok ← consume_generic_greater "expected '>' after generic type parameters";
        if negb ok then synchronize ;; mret None else mret (Some params)
    end.

(** ** Structures *)

Definition operator_ok (is_unary : bool) (op : TokenType) : bool :=
  if is_unary then bool_decide (op = TOK_MINUS)
  else match op with TOK_PLUS | TOK_MINUS | TOK_STAR | TOK_SLASH => true | _ => false end.

(** The mappings of an [operators] block added to [operators]; [None] for a failure. *)
Definition parse_struct_operator_block (operators : list StructOperatorDecl)
    : P (option (list StructOperatorDecl)) :=
  let fail : P (list StructOperatorDecl + option (list StructOperatorDecl)) :=
    synchronize ;; mret (inr None) in
  ok ← consume TOK_LBRACE;
  if negb ok then mret None
  else loop (fun operators =>
    close ← check TOK_RBRACE; eof ← check TOK_EOF;
    if (close : bool) || (eof : bool) then
      ok ← consume TOK_RBRACE; mret (inr (if (ok : bool) then Some operators else None))
    else
      t ← get p_current;
      is_unary ← token_text_equals t "unary";
      (if (is_unary : bool) then advance else mret tt) ;;
      op ← get p_current;
      if negb (operator_ok is_unary (type op)) then
        error_here (if (is_unary : bool) then "expected unary '-' operator mapping"
                    else "expected '+', '-', '*', or '/' operator mapping") ;;
        fail
      else
        advance ;;
        ok ← consume TOK_EQUAL;
        if negb ok then fail
        else
          ok ← consume TOK_IDENT;
          if negb ok then fail
          else
            method ← get p_previous;
            ok ← consume TOK_SEMICOLON;
            if negb ok then fail
            else
              x ← token_text method;
              mret (inl (operators ++ [mkOperator (type op) is_unary x (span op)]))) operators.

(** The members of a structure so far. *)
Record Members : Set := mkMembers {
  m_fields : list Node;
  m_methods : list Node;
  m_operators : list StructOperatorDecl;
}.

Definition add_field (n : Node) (m : Members) : Members :=
  mkMembers (m_fields m ++ [n]) (m_methods m) (m_operators m).
Definition add_method (n : Node) (m : Members) : Members :=
  mkMembers (m_fields m) (m_methods m ++ [n]) (m_operators m).

(** A method after its [::]. *)
Definition parse_struct_method (member : Token) : P (Node + Node) :=
  less ← match_ TOK_LESS;
  params ← (if (less : bool) then parse_generic_type_parameter_list_after_less "generic method"
            else mret (Some []));
  match params with
  | None => t ← get p_previous; mret (inl (ast_new_error t))
  | Some params =>
      paren ← check TOK_LPAREN;
      if negb paren then
        error_here "struct member declaration must be a field or function" ;;
        e ← sync_error; mret (inl e)
      else
        method ← parse_proc_decl_rest member (span member);
        mret (inr (update_func (set_type_parameters params) method))
  end.

(** One member; [inl] is the node an error returns. *)
Definition parse_struct_member (m : Members) : P (Node + Members) :=
  hash ← check TOK_HASH;
  if (hash : bool) then
    method ← g_attribute_decl g;
    if is_error method then mret (inl method)
    else if negb (is_func_decl method) then
      error_before "struct attributes may only introduce methods" ;;
      t ← get p_previous; mret (inl (ast_new_error t))
    else mret (inr (add_method method m))
  else
    ok ← consume TOK_IDENT;
    if negb ok then e ← sync_error; mret (inl e)
    else
      member ← get p_previous;
      is_operators ← token_text_equals member "operators";
      brace ← check TOK_LBRACE;
      if (is_operators : bool) && (brace : bool) then
        ops ← parse_struct_operator_block (m_operators m);
        match ops with
        | None => e ← error_node; mret (inl e)
        | Some ops => mret (inr (mkMembers (m_fields m) (m_methods m) ops))
        end
      else
        colon ← match_ TOK_COLON;
        if (colon : bool) then
          type ← g_type g;
          consume TOK_SEMICOLON ;;
          x ← token_text member;
          mret (inr (add_field (ast_new_struct_field_decl type x (span member)) m))
        else
          colons ← match_ TOK_COLON_COLON;
          if (colons : bool) then
            r ← parse_struct_method member;
            mret (match r with inl e => inl e | inr method => inr (add_method method m) end)
          else
            error_here "expected ':' for a field or '::' for a method" ;;
            e ← sync_error; mret (inl e).

Definition parse_struct_decl_rest (name : Token) (sp : SourceSpan) : P Node :=
  is_union ← check TOK_UNION;
  is_resource ← check TOK_RESOURCE;
  consume (if (is_union : bool) then TOK_UNION
           else if (is_resource : bool) then TOK_RESOURCE else TOK_STRUCT) ;;
  x ← token_text name;
  let decl (m : Members) (incomplete : bool) :=
    ast_new_struct_decl x is_resource is_union incomplete (m_operators m) (m_fields m)
      (m_methods m) sp in
  semi ← match_ TOK_SEMICOLON;
  if (semi : bool) then mret (decl (mkMembers [] [] []) true)
  else
    consume TOK_LBRACE ;;
    members ← loop (fun m =>
      close ← check TOK_RBRACE; eof ← check TOK_EOF;
      if (close : bool) || (eof : bool) then mret (inr (inr m))
      else
        r ← parse_struct_member m;
        mret (match r with inl e => inr (inl e) | inr m => inl m end)) (mkMembers [] [] []);
    match members with
    | inl e => mret e
    | inr m => consume TOK_RBRACE ;; mret (decl m false)
    end.

Definition set_struct_type_parameters (ps : list GenericTypeParameter) (i : StructInfo)
    : StructInfo :=
  mkStruct (struct_decl_name i) ps (struct_operators i) (struct_decl_is_repr_c i)
    (struct_is_resource_ i) (struct_repr_c_packed_ i) (struct_repr_c_align_ i)
    (struct_is_union_ i) (struct_is_incomplete_ i).

Definition parse_generic_decl_rest (name : Token) (sp : SourceSpan) : P Node :=
  ok ← consume TOK_LESS;
  if negb ok then error_node
  else
    params ← parse_generic_type_parameter_list_after_less "generic declaration";
    match params with
    | None => t ← get p_previous; mret (ast_new_error t)
    | Some params =>
        t ← get p_current;
        match type t with
        | TOK_LPAREN =>
            func ← parse_function_signature_rest name sp;
            if is_error func then mret func
            else parse_function_body (update_func (set_type_parameters params) func)
        | TOK_STRUCT | TOK_RESOURCE =>
            decl ← parse_struct_decl_rest name sp;
            mret (update_struct (set_struct_type_parameters params) decl)
        | TOK_UNION => error_here "generic unions are not supported" ;; sync_error
        | _ => error_here "generic declaration must be a function or struct" ;; sync_error
        end
    end.

(** ** Enumerations *)

Definition parse_enum_member : P Node :=
  ok ← consume TOK_IDENT;
  if negb ok then error_node
  else
    name ← get p_previous;
    x ← token_text name;
    eq ← match_ TOK_EQUAL;
    value ← (if (eq : bool) then e ← g_expression g; mret (Some e) else mret None);
    mret (ast_new_enum_member x value (span name)).

Definition parse_enum_members : P (list Node) :=
  loop (fun members =>
    close ← check TOK_RBRACE; eof ← check TOK_EOF;
    if (close : bool) || (eof : bool) then mret (inr members)
    else
      member ← parse_enum_member;
      let members := members ++ [member] in
      c ← match_ TOK_COMMA;
      if (c : bool) then mret (inl members)
      else
        close ← check TOK_RBRACE;
        (if (close : bool) then mret tt
         else error_here "expected ',' or '}' after enum member" ;; synchronize) ;;
        mret (inr members)) [].

Definition parse_enum_decl_rest (name : Token) (sp : SourceSpan) : P Node :=
  consume TOK_ENUM ;;
  paren ← match_ TOK_LPAREN;
  let rest (backing_type : option SourceType) : P Node :=
    expect TOK_LBRACE (
      x ← token_text name;
      members ← parse_enum_members;
      consume TOK_RBRACE ;;
      mret (ast_new_enum_decl x backing_type members sp)) in
  if (paren : bool) then type ← g_type g; expect TOK_RPAREN (rest (Some type))
  else rest None.

Definition parse_decl_after_name (name : Token) : P Node :=
  t ← get p_current;
  match type t with
  | TOK_LESS => parse_generic_decl_rest name (span name)
  | TOK_LPAREN => parse_proc_decl_rest name (span name)
  | TOK_STRUCT | TOK_RESOURCE | TOK_UNION => parse_struct_decl_rest name (span name)
  | TOK_ENUM => parse_enum_decl_rest name (span name)
  | _ => finish_inferred_const_decl name
  end.
End Declarations.
