(* ===== verification/ParserStmt.v ===== *)
(** Attributes and statements of the parser ([src/parser.c]). *)
From S2P Require Import Prelude Token Types Source Lexer Literal StringDecode Ast ParserState ParserExpr ParserDecl.

(** The text between the quotes of a string token. *)
Definition quoted_text (t : Token) : P Text :=
  x ← token_text t; mret (take (Z.to_nat (tok_length t) - 2) (drop 1 x)).

Section Statements.
Context (garbage : Garbage) (g : Grammar).

(** ** Attributes *)

(** The name, or [None] for a failure.  The decoder writes every byte of its result. *)
Definition decode_extern_name (t : Token) : P (option Text) :=
  passert (bool_decide (type t = TOK_STRING)) ;;
  raw ← quoted_text t;
  let info := string_analyze raw in
  if negb (ok info) then
    error_at t (if bool_decide (invalid_escape info = NUL)
                then "unterminated escape sequence in extern symbol name"
                else "invalid escape sequence in extern symbol name") ;;
    mret None
  else if (decoded_length info =? 0)%nat then
    error_at t "extern symbol name cannot be empty" ;; mret None
  else
    let n := decoded_length info in
    let decoded := take n (string_decode_into raw (replicate (S n) NUL)).2 in
    if bool_decide (NUL ∈ decoded) then
      error_at t "extern symbol name cannot contain NUL" ;; mret None
    else mret (Some decoded).

Definition set_discardable (i : FuncInfo) : FuncInfo :=
  mkFunc (func_name i) (func_type_parameters i) (func_return_type i) (func_linkage i)
    (func_is_repr_c i) true (func_c_call_conv i) (func_is_variadic i) (func_external_name i).
Definition set_repr_c (conv : CCallingConvention) (i : FuncInfo) : FuncInfo :=
  mkFunc (func_name i) (func_type_parameters i) (func_return_type i) (func_linkage i)
    true (func_is_discardable i) conv (func_is_variadic i) (func_external_name i).
Definition set_extern (name : Text) (conv : CCallingConvention) (i : FuncInfo) : FuncInfo :=
  mkFunc (func_name i) (func_type_parameters i) (func_return_type i) FUNCTION_LINKAGE_EXTERN_C
    (func_is_repr_c i) (func_is_discardable i) conv (func_is_variadic i) name.
Definition set_struct_repr_c (packed : bool) (align : Z) (i : StructInfo) : StructInfo :=
  mkStruct (struct_decl_name i) (struct_type_parameters i) (struct_operators i) true
    (struct_is_resource_ i) packed align (struct_is_union_ i) (struct_is_incomplete_ i).
Definition set_enum_repr_c (n : Node) : Node :=
  match n with
  | mkNode (NODE_ENUM_DECL x t ms _) s e => mkNode (NODE_ENUM_DECL x t ms true) s e
  | _ => n
  end.

Definition func_info (n : Node) : option FuncInfo :=
  match as_of n with Some (NODE_FUNC_DECL info _ _) => Some info | _ => None end.

(** [#discardable], after its name. *)
Definition parse_discardable (attribute : Token) : P Node :=
  nested ← check TOK_HASH;
  let finish (decl : Node) : P Node :=
    if is_error decl then mret decl
    else match func_info decl with
    | None =>
        error_at attribute "#discardable applies only to function declarations" ;;
        mret (ast_new_error attribute)
    | Some info =>
        if func_is_discardable info then
          error_at attribute "duplicate #discardable attribute" ;;
          mret (ast_new_error attribute)
        else mret (update_func set_discardable decl)
    end in
  if (nested : bool) then decl ← g_attribute_decl g; finish decl
  else
    expect TOK_IDENT (
      name ← get p_previous;
      expect TOK_COLON_COLON (decl ← parse_decl_after_name g name; finish decl)).

(** The options of [#repr(c)]: [saw_X] is [is_Some] of the option's value. *)
Record ReprOptions : Set := mkRepr {
  repr_packed : option bool;
  repr_align : option Z;
  repr_call_conv : option CCallingConvention;
}.

Definition saw_layout_option (o : ReprOptions) : bool :=
  bool_decide (is_Some (repr_packed o)) || bool_decide (is_Some (repr_align o)).
Definition saw_call (o : ReprOptions) : bool := bool_decide (is_Some (repr_call_conv o)).

(** The calling convention after [call]. *)
Definition parse_call_option : P (Node + CCallingConvention) :=
  require TOK_EQUAL (require TOK_IDENT (
    t ← get p_previous;
    conv ← parse_c_calling_convention_token t;
    match conv with
    | None => synchronize ;; t ← get p_previous; mret (inl (ast_new_error t))
    | Some conv => mret (inr conv)
    end)).

Definition parse_align_option (o : ReprOptions) : P (Node + ReprOptions) :=
  require TOK_EQUAL (require TOK_NUMBER_INT (
    t ← get p_previous;
    x ← token_text t;
    match parse_integer_u64 x with
    | Some align =>
        if INT_MAX <? align then
          error_at t "#repr(c) alignment exceeds compiler limit" ;; recover_at t
        else if align =? 0 then
          error_at t "#repr(c) alignment must be greater than zero" ;; recover_at t
        else mret (inr (mkRepr (repr_packed o) (Some align) (repr_call_conv o)))
    | None => error_at t "#repr(c) alignment exceeds compiler limit" ;; recover_at t
    end)).

Definition parse_repr_option (o : ReprOptions) : P (Node + ReprOptions) :=
  require TOK_IDENT (
    option_ ← get p_previous;
    packed ← token_text_equals option_ "packed";
    align ← token_text_equals option_ "align";
    call ← token_text_equals option_ "call";
    if (packed : bool) then
      if bool_decide (is_Some (repr_packed o)) then
        error_at option_ "duplicate #repr(c) option 'packed'" ;; recover_at option_
      else mret (inr (mkRepr (Some true) (repr_align o) (repr_call_conv o)))
    else if (align : bool) then
      if bool_decide (is_Some (repr_align o)) then
        error_at option_ "duplicate #repr(c) option 'align'" ;; recover_at option_
      else parse_align_option o
    else if (call : bool) then
      if saw_call o then
        error_at option_ "duplicate #repr(c) option 'call'" ;; recover_at option_
      else
        r ← parse_call_option;
        mret (match r with
              | inl e => inl e
              | inr conv => inr (mkRepr (repr_packed o) (repr_align o) (Some conv))
              end)
    else
      error_at option_ "unknown #repr(c) option; expected 'packed', 'align', or 'call'" ;;
      recover_at option_).

(** [while (match(p, TOK_COMMA)) { ... }]: a list of options, each read by [step]. *)
Definition parse_options {A} (step : A -> P (Node + A)) (init : A) : P (Node + A) :=
  loop (fun o =>
    c ← match_ TOK_COMMA;
    if negb c then mret (inr (inr o))
    else r ← step o; mret (match r with inl e => inr (inl e) | inr o => inl o end)) init.

Definition fail_here (msg : string) : P Node := error_here msg ;; sync_error.

Definition parse_repr_declaration (o : ReprOptions) (name : Token) : P Node :=
  t ← get p_current;
  let is_struct := bool_decide (type t = TOK_STRUCT) || bool_decide (type t = TOK_UNION) in
  if is_struct then
    if saw_call o then fail_here "#repr(c) option 'call' applies only to function declarations"
    else
      decl ← parse_struct_decl_rest g name (span name);
      mret (update_struct (set_struct_repr_c (default false (repr_packed o))
                             (default 0 (repr_align o))) decl)
  else if saw_layout_option o then
    fail_here "#repr(c) layout options apply only to struct or union declarations"
  else if saw_call o && negb (bool_decide (type t = TOK_LPAREN)) then
    fail_here "#repr(c) option 'call' applies only to function declarations"
  else if bool_decide (type t = TOK_ENUM) then
    decl ← parse_enum_decl_rest g name (span name); mret (set_enum_repr_c decl)
  else if bool_decide (type t = TOK_LPAREN) then
    decl ← parse_proc_decl_rest g name (span name);
    mret (update_func (set_repr_c (default C_CALL_DEFAULT (repr_call_conv o))) decl)
  else fail_here "#repr(c) applies only to struct, union, enum, or function declarations".

(** [#X(c]: the ABI name and the options behind it, up to the [::] of the declaration. *)
Definition parse_abi_attribute {A} (unsupported : string) (step : A -> P (Node + A)) (init : A)
    (k : A -> Token -> P Node) : P Node :=
  expect TOK_LPAREN (expect TOK_IDENT (
    abi ← get p_previous;
    c ← token_text_equals abi "c";
    if negb c then error_at abi unsupported ;; synchronize ;; mret (ast_new_error abi)
    else
      o ← parse_options step init;
      match o with
      | inl e => mret e
      | inr o =>
          expect TOK_RPAREN (expect TOK_IDENT (
            name ← get p_previous;
            expect TOK_COLON_COLON (k o name)))
      end)).

Definition parse_repr : P Node :=
  parse_abi_attribute "unsupported representation ABI; expected 'c'"
    parse_repr_option (mkRepr None None None) parse_repr_declaration.

(** The options of [#extern(c)]. *)
Record ExternOptions : Set := mkExtern {
  external_name : option Text;
  extern_call_conv : option CCallingConvention;
}.

Definition parse_name_option (o : ExternOptions) : P (Node + ExternOptions) :=
  require TOK_EQUAL (require TOK_STRING (
    t ← get p_previous;
    name ← decode_extern_name t;
    match name with
    | None => synchronize ;; t ← get p_previous; mret (inl (ast_new_error t))
    | Some name => mret (inr (mkExtern (Some name) (extern_call_conv o)))
    end)).

Definition parse_extern_option (o : ExternOptions) : P (Node + ExternOptions) :=
  require TOK_IDENT (
    option_ ← get p_previous;
    name ← token_text_equals option_ "name";
    call ← token_text_equals option_ "call";
    if (name : bool) then
      if bool_decide (is_Some (external_name o)) then
        error_at option_ "duplicate #extern(c) option 'name'" ;; recover_at option_
      else parse_name_option o
    else if (call : bool) then
      if bool_decide (is_Some (extern_call_conv o)) then
        error_at option_ "duplicate #extern(c) option 'call'" ;; recover_at option_
      else
        r ← parse_call_option;
        mret (match r with
              | inl e => inl e
              | inr conv => inr (mkExtern (external_name o) (Some conv))
              end)
    else
      error_at option_ "unknown #extern(c) option; expected 'name' or 'call'" ;;
      recover_at option_).

Definition parse_extern_declaration (o : ExternOptions) (name : Token) : P Node :=
  paren ← check TOK_LPAREN;
  if negb paren then fail_here "#extern(c) applies only to function declarations"
  else
    func ← parse_function_signature_rest g name (span name);
    if is_error func then mret func
    else
      expect TOK_SEMICOLON (
        mret (update_func (set_extern (default [] (external_name o))
                             (default C_CALL_DEFAULT (extern_call_conv o))) func)).

Definition parse_extern : P Node :=
  parse_abi_attribute "unsupported extern ABI; expected 'c'"
    parse_extern_option (mkExtern None None) parse_extern_declaration.

Definition parse_attribute_decl : P Node :=
  hash ← consume TOK_HASH;
  if negb hash then error_node
  else
    expect TOK_IDENT (
      attribute ← get p_previous;
      discardable ← token_text_equals attribute "discardable";
      repr ← token_text_equals attribute "repr";
      extern ← token_text_equals attribute "extern";
      if (discardable : bool) then parse_discardable attribute
      else if (repr : bool) then parse_repr
      else if (extern : bool) then parse_extern
      else
        error_at attribute "unknown declaration attribute; expected '#extern(c)', '#repr(c)', or '#discardable'" ;;
        synchronize ;; mret (ast_new_error attribute)).

(** ** Blocks and expression statements *)

(** [while (!check(p, TOK_RBRACE) && !check(p, TOK_EOF))] with a list that grows. *)
Definition until_brace (step : list Node -> P (list Node)) : P (list Node) :=
  loop (fun nodes =>
    close ← check TOK_RBRACE; eof ← check TOK_EOF;
    if (close : bool) || (eof : bool) then mret (inr nodes)
    else nodes ← step nodes; mret (inl nodes)) [].

Definition parse_block : P Node :=
  expect TOK_LBRACE (
    open ← get p_previous;
    statements ← until_brace (fun nodes => n ← g_statement g; mret (nodes ++ [n]));
    consume TOK_RBRACE ;;
    mret (ast_new_block statements (span open))).

Definition parse_expr_statement : P Node :=
  t ← get p_current;
  expr ← parse_assignment g;
  expect TOK_SEMICOLON (
    mret (ast_new_expr_stmt expr (source_span_join (span t) (span_of expr)))).

(** The lookahead of [generic_suffix_starts_expression]: the tokens up to the end of a nested
    list, whose depth changes by [delta]; [false] when the input ends or is invalid. *)
Fixpoint skip_nested (delta : TokenType -> Z) (fuel : nat) (depth : Z) : Lexer.M bool :=
  if depth <=? 0 then mret true
  else match fuel with
  | O => throw OutOfFuel
  | S fuel =>
      t ← lexer_next;
      if bool_decide (type t = TOK_EOF) || bool_decide (type t = TOK_ERROR) then mret false
      else skip_nested delta fuel (depth + delta (type t))
  end.

Definition generic_delta (ty : TokenType) : Z :=
  match ty with TOK_LESS => 1 | TOK_GREATER => -1 | TOK_SHIFT_RIGHT => -2 | _ => 0 end.
Definition paren_delta (ty : TokenType) : Z :=
  match ty with TOK_LPAREN => 1 | TOK_RPAREN => -1 | _ => 0 end.

Definition generic_suffix_starts_expression : P bool :=
  less ← check TOK_LESS;
  if negb less then mret false
  else
    n ← get (fun p => S (unread (p_lexer p)));
    lookahead (
      closed ← skip_nested generic_delta n 1;
      if negb closed then mret false
      else
        after_generic ← lexer_next;
        match type after_generic with
        | TOK_DOT | TOK_LBRACE => mret true
        | TOK_LPAREN =>
            closed ← skip_nested paren_delta n 1;
            if negb closed then mret false
            else
              after_parens ← lexer_next;
              mret (negb (bool_decide (type after_parens = TOK_ARROW))
                    && negb (bool_decide (type after_parens = TOK_LBRACE)))
        | _ => mret false
        end).

(** An expression statement whose first operand is [base]. *)
Definition finish_expr_statement (base : Node) (name : Token) : P Node :=
  postfixed ← parse_postfix_from g base;
  binary ← parse_binary_from g postfixed PREC_LOGICAL_OR;
  full ← parse_assignment_from g binary;
  expect TOK_SEMICOLON (mret (ast_new_expr_stmt full (span name))).

(** [name::<...> ...]: an expression statement that begins with a generic application. *)
Definition parse_generic_name_statement (name : Token) : P Node :=
  x ← token_text name;
  base ← finish_generic_call g (ast_new_ident x (span name));
  finish_expr_statement base name.

(** An expression statement that begins with a name or a structure initializer. *)
Definition parse_name_statement (name : Token) : P Node :=
  x ← token_text name;
  brace ← check TOK_LBRACE;
  suppressed ← get suppress_struct_init;
  base ← (if (brace : bool) && negb suppressed then finish_struct_init g name
          else mret (ast_new_ident x (span name)));
  finish_expr_statement base name.

(** What follows the name of a declaration or an expression statement. *)
Definition parse_after_leading_name (name : Token) : P Node :=
  t ← get p_current;
  match type t with
  | TOK_COMMA => finish_grouped_typed_var_decl g garbage name
  | TOK_COLON_EQUAL => advance ;; finish_inferred_var_decl g name
  | TOK_COLON_COLON =>
      advance ;;
      less ← check TOK_LESS;
      expression ← generic_suffix_starts_expression;
      if (less : bool) && (expression : bool) then parse_generic_name_statement name
      else parse_decl_after_name g name
  | TOK_COLON => advance ;; finish_typed_decl g name
  | _ => parse_name_statement name
  end.

Definition parse_decl_or_expr_statement : P Node :=
  ident ← check TOK_IDENT;
  if (ident : bool) then name ← get p_current; advance ;; parse_after_leading_name name
  else parse_expr_statement.

(** ** Simple statements, whose keyword has been consumed *)

Definition parse_return_statement : P Node :=
  keyword ← get p_previous;
  empty ← check TOK_SEMICOLON;
  value ← (if (empty : bool) then mret None else e ← g_expression g; mret (Some e));
  expect TOK_SEMICOLON (mret (ast_new_return value (span keyword))).

(** The operands after the second colon; [inl] after an error. *)
Definition parse_asm_inputs : P (Node + list (Text * Node)) :=
  loop (fun inputs =>
    r ← require TOK_STRING (
      t ← get p_previous;
      constraint ← quoted_text t;
      require TOK_LPAREN (
        input ← g_assignment g;
        require TOK_RPAREN (mret (inr (inputs ++ [(constraint, input)])))));
    match r with
    | inl e => mret (inr (inl e))
    | inr inputs => c ← match_ TOK_COMMA; mret (if (c : bool) then inl inputs else inr (inr inputs))
    end) [].

Definition parse_asm_statement : P Node :=
  keyword ← get p_previous;
  is_volatile ← match_ TOK_VOLATILE;
  open ← consume TOK_LPAREN;
  if negb open then error_node
  else
    expect TOK_STRING (
      template ← parse_adjacent_string_literals;
      expect TOK_COLON (expect TOK_STRING (
        t ← get p_previous;
        output_constraint ← quoted_text t;
        expect TOK_LPAREN (
          output ← g_assignment g;
          expect TOK_RPAREN (
            colon ← match_ TOK_COLON;
            inputs ← (if (colon : bool) then parse_asm_inputs else mret (inr []));
            match inputs with
            | inl e => mret e
            | inr inputs =>
                expect TOK_RPAREN (expect TOK_SEMICOLON (
                  close ← get p_previous;
                  mret (ast_new_asm (literal_text template) output_constraint output inputs
                                    is_volatile
                          (source_span_join (span keyword) (span close)))))
            end))))).

Definition parse_static_assert_statement : P Node :=
  keyword ← get p_previous;
  expect TOK_LPAREN (
    t ← get p_current;
    if bool_decide (type t = TOK_RPAREN) || bool_decide (type t = TOK_COMMA) then
      fail_here "static_assert requires a condition expression"
    else
      condition ← g_expression g;
      comma ← match_ TOK_COMMA;
      let finish (message : option Node) : P Node :=
        expect TOK_RPAREN (expect TOK_SEMICOLON (
          close ← get p_previous;
          mret (ast_new_static_assert condition message
                  (source_span_join (span keyword) (span close))))) in
      if (comma : bool) then
        expect TOK_STRING (
          t ← get p_previous;
          x ← quoted_text t;
          finish (Some (ast_new_string x (span t))))
      else finish None).

Definition parse_defer_statement : P Node :=
  keyword ← get p_previous;
  brace ← check TOK_LBRACE;
  let finish (statement : Node) : P Node :=
    mret (ast_new_defer statement (source_span_join (span keyword) (span_of statement))) in
  if (brace : bool) then statement ← g_block g; finish statement
  else
    expr ← g_expression g;
    expect TOK_SEMICOLON (finish (ast_new_expr_stmt expr (span_of expr))).

(** [break] and [continue] *)
Definition parse_jump_statement (a : SourceSpan -> Node) : P Node :=
  keyword ← get p_previous;
  expect TOK_SEMICOLON (mret (a (span keyword))).

(** ** Control flow *)

(** A body that is not a block becomes the only statement of one. *)
Definition parse_scoped_control_body : P Node :=
  statement ← g_statement g;
  mret (match as_of statement with
        | Some (NODE_BLOCK _) => statement
        | _ => ast_new_block [statement] (span_of statement)
        end).

(** [parse_expression_before_block] and its copies. *)
Definition parse_expression_before_block : P Node := with_suppress true (g_expression g).

Definition parse_if_statement : P Node :=
  keyword ← get p_previous;
  condition ← parse_expression_before_block;
  then_branch ← parse_scoped_control_body;
  has_else ← match_ TOK_ELSE;
  let finish (else_branch : option Node) : P Node :=
    mret (ast_new_if condition then_branch else_branch
            (source_span_join (span keyword) (span_of (default then_branch else_branch)))) in
  if (has_else : bool) then
    chained ← match_ TOK_IF;
    else_branch ← (if (chained : bool) then g_if_statement g else parse_scoped_control_body);
    finish (Some else_branch)
  else finish None.

Definition parse_while_statement : P Node :=
  keyword ← get p_previous;
  condition ← parse_expression_before_block;
  body ← parse_scoped_control_body;
  mret (ast_new_while condition body (source_span_join (span keyword) (span_of body))).

(** The nesting at a token of a parenthesized [for] clause. *)
Record Depths : Set := mkDepths {
  paren_depth : nat;
  bracket_depth : nat;
  brace_depth : nat;
}.

Definition top_level (d : Depths) : bool :=
  (paren_depth d =? 0)%nat && (bracket_depth d =? 0)%nat && (brace_depth d =? 0)%nat.

(** What one token does: [inr] is the answer. *)
Definition depths_step (ty : TokenType) (d : Depths) : Depths + bool :=
  let '(mkDepths pd kd bd) := d in
  match ty with
  | TOK_EOF => inr false
  | TOK_LPAREN => inl (mkDepths (S pd) kd bd)
  | TOK_RPAREN => if top_level d then inr false else inl (mkDepths (pred pd) kd bd)
  | TOK_LBRACKET => inl (mkDepths pd (S kd) bd)
  | TOK_RBRACKET => inl (mkDepths pd (pred kd) bd)
  | TOK_LBRACE => inl (mkDepths pd kd (S bd))
  | TOK_RBRACE => inl (mkDepths pd kd (pred bd))
  | TOK_SEMICOLON => if top_level d then inr true else inl d
  | _ => inl d
  end.

Fixpoint semicolon_ahead (fuel : nat) (ty : TokenType) (d : Depths) : Lexer.M bool :=
  match fuel with
  | O => throw OutOfFuel
  | S fuel =>
      match depths_step ty d with
      | inr answer => mret answer
      | inl d => t ← lexer_next; semicolon_ahead fuel (type t) d
      end
  end.

Definition parenthesized_for_has_top_level_semicolon : P bool :=
  t ← get p_current;
  n ← get (fun p => unread (p_lexer p));
  lookahead (semicolon_ahead (S (S n)) (type t) (mkDepths 0 0 0)).

Definition for_initializer_is_allowed (n : Node) : bool :=
  match as_of n with
  | Some (NODE_VAR_DECL _ _ _) | Some (NODE_VAR_DECL_GROUP _) | Some (NODE_CONST_DECL _ _ _)
  | Some (NODE_EXPR_STMT _) => true
  | _ => false
  end.

Definition parse_c_style_for_statement (sp : SourceSpan) : P Node :=
  empty ← match_ TOK_SEMICOLON;
  init ← (if (empty : bool) then mret None
          else
            init_start ← get p_current;
            init ← parse_decl_or_expr_statement;
            (if negb (is_error init) && negb (for_initializer_is_allowed init) then
               error_at init_start "for initializer must be a local value declaration or expression statement"
             else mret tt) ;;
            mret (Some init));
  no_condition ← check TOK_SEMICOLON;
  condition ← (if (no_condition : bool) then mret None else e ← g_expression g; mret (Some e));
  ok ← consume TOK_SEMICOLON;
  if negb ok then error_node
  else
    no_post ← check TOK_RPAREN;
    post ← (if (no_post : bool) then mret None else e ← g_expression g; mret (Some e));
    ok ← consume TOK_RPAREN;
    if negb ok then error_node
    else
      body ← parse_scoped_control_body;
      let loop_span := source_span_join sp (span_of body) in
      let loop_ := ast_new_for condition post body loop_span in
      mret (match init with
            | None => loop_
            | Some init => ast_new_block [init; loop_] loop_span
            end).

(** [for (item in pack)], from [item] on. *)
Definition parse_pack_for (sp : SourceSpan) : P Node :=
  item ← get p_current;
  advance ;;
  advance ;;
  ok ← consume TOK_IDENT;
  if negb ok then error_here "expected generic pack name after 'in'" ;; error_node
  else
    pack ← get p_previous;
    ok ← consume TOK_RPAREN;
    if negb ok then error_node
    else
      body ← parse_scoped_control_body;
      x ← token_text item;
      y ← token_text pack;
      mret (ast_new_pack_for x (ast_new_ident y (span pack)) body
              (source_span_join sp (span_of body))).

(** The condition of a [while]-like [for], and the expression behind its colon. *)
Definition parse_for_clauses : P (option Node * option Node) :=
  condition ← g_expression g;
  colon ← match_ TOK_COLON;
  if (colon : bool) then post ← g_expression g; mret (Some condition, Some post)
  else mret (Some condition, None).

Definition parse_for_statement : P Node :=
  keyword ← get p_previous;
  let finish (clauses : option Node * option Node) : P Node :=
    body ← parse_scoped_control_body;
    mret (ast_new_for clauses.1 clauses.2 body
            (source_span_join (span keyword) (span_of body))) in
  open ← match_ TOK_LPAREN;
  if (open : bool) then
    ident ← check TOK_IDENT;
    next ← peek_next_token_type;
    if (ident : bool) && bool_decide (next = TOK_IN) then parse_pack_for (span keyword)
    else
      c_style ← parenthesized_for_has_top_level_semicolon;
      if (c_style : bool) then parse_c_style_for_statement (span keyword)
      else
        clauses ← with_suppress true (
          close ← check TOK_RPAREN;
          if (close : bool) then mret (None, None) else parse_for_clauses);
        ok ← consume TOK_RPAREN;
        if negb ok then error_node else finish clauses
  else
    brace ← check TOK_LBRACE;
    clauses ← (if (brace : bool) then mret (None, None) else with_suppress true parse_for_clauses);
    finish clauses.

Definition parse_switch_case : P Node :=
  let finish (keyword : Token) (value : option Node) (is_default : bool) : P Node :=
    expect TOK_COLON (
      body ← g_statement g;
      mret (ast_new_switch_case value body is_default (span keyword))) in
  case ← match_ TOK_CASE;
  if (case : bool) then
    keyword ← get p_previous;
    value ← g_expression g;
    finish keyword (Some value) false
  else
    default_ ← match_ TOK_DEFAULT;
    if (default_ : bool) then keyword ← get p_previous; finish keyword None true
    else error_here "expected 'case' or 'default'" ;; error_node.

Definition parse_switch_statement : P Node :=
  keyword ← get p_current;
  consume TOK_SWITCH ;;
  expression ← parse_expression_before_block;
  expect TOK_LBRACE (
    cases ← until_brace (fun cases =>
      case ← check TOK_CASE; default_ ← check TOK_DEFAULT;
      if negb case && negb default_ then
        error_here "expected 'case' or 'default' in switch" ;; synchronize ;; mret cases
      else n ← parse_switch_case; mret (cases ++ [n]));
    consume TOK_RBRACE ;;
    mret (ast_new_switch expression cases (span keyword))).

(** ** Compile-time conditionals *)

Definition is_compile_if_keyword (keyword : TokenType) : P bool :=
  hash ← check TOK_HASH;
  if negb hash then mret false
  else next ← peek_next_token_type; mret (bool_decide (next = keyword)).

Definition is_compile_if_named_directive (name : string) : P bool :=
  hash ← check TOK_HASH;
  if negb hash then mret false
  else lookahead (
    t ← lexer_next;
    if bool_decide (type t = TOK_IDENT) && bool_decide (tok_length t = Z.of_nat (String.length name))
    then x ← lexeme (start t) (tok_length t); mret (bool_decide (x = cstr name))
    else mret false).

Definition is_compile_if_end : P bool := is_compile_if_named_directive "endif".

Definition parse_compile_if_body : P Node :=
  first ← get p_current;
  statements ← loop (fun nodes =>
    eof ← check TOK_EOF; close ← check TOK_RBRACE;
    is_elif ← is_compile_if_named_directive "elif";
    is_else ← is_compile_if_keyword TOK_ELSE;
    is_end ← is_compile_if_end;
    if (eof : bool) || (close : bool) || (is_elif : bool) || (is_else : bool) || (is_end : bool)
    then mret (inr nodes)
    else n ← g_statement g; mret (inl (nodes ++ [n]))) [];
  mret (ast_new_block statements (span first)).

Definition consume_compile_if_end : P bool :=
  is_end ← is_compile_if_end;
  if negb is_end then mret false else advance ;; consume TOK_IDENT.

Definition parse_compile_if_after_keyword (keyword : Token) : P Node :=
  condition ← parse_expression_before_block;
  then_branch ← parse_compile_if_body;
  is_elif ← is_compile_if_named_directive "elif";
  is_else ← is_compile_if_keyword TOK_ELSE;
  let finish (else_branch : option Node) : P Node :=
    mret (ast_new_compile_if condition then_branch else_branch
            (source_span_join (span keyword) (span_of (default then_branch else_branch)))) in
  if (is_elif : bool) then
    advance ;;
    elif ← get p_current;
    advance ;;
    else_branch ← g_compile_if_after_keyword g elif;
    finish (Some else_branch)
  else if (is_else : bool) then
    advance ;;
    advance ;;
    else_branch ← parse_compile_if_body;
    ok ← consume_compile_if_end;
    if negb ok then
      error_here "expected '#endif' after compile-time #else block" ;; error_node
    else finish (Some else_branch)
  else
    ok ← consume_compile_if_end;
    if negb ok then
      error_here "expected '#elif', '#else', or '#endif' after compile-time #if block" ;; error_node
    else finish None.

Definition parse_compile_if_statement : P Node :=
  advance ;;
  ok ← consume TOK_IF;
  if negb ok then fail_here "expected 'if' after '#' in compile-time conditional"
  else keyword ← get p_previous; parse_compile_if_after_keyword keyword.

(** ** Statements *)

Definition parse_plain_statement : P Node :=
  t ← get p_current;
  match type t with
  | TOK_HASH => parse_attribute_decl
  | TOK_IF => advance ;; parse_if_statement
  | TOK_WHILE => advance ;; parse_while_statement
  | TOK_FOR => advance ;; parse_for_statement
  | TOK_RETURN => advance ;; parse_return_statement
  | TOK_DEFER => advance ;; parse_defer_statement
  | TOK_STATIC_ASSERT => advance ;; parse_static_assert_statement
  | TOK_ASM => advance ;; parse_asm_statement
  | TOK_SWITCH => parse_switch_statement
  | TOK_BREAK => advance ;; parse_jump_statement ast_new_break
  | TOK_CONTINUE => advance ;; parse_jump_statement ast_new_continue
  | TOK_LBRACE => parse_block
  | _ => parse_decl_or_expr_statement
  end.

Definition parse_statement : P Node :=
  is_if ← is_compile_if_keyword TOK_IF;
  if (is_if : bool) then parse_compile_if_statement
  else
    is_elif ← is_compile_if_named_directive "elif";
    is_else ← is_compile_if_keyword TOK_ELSE;
    is_end ← is_compile_if_end;
    if (is_elif : bool) || (is_else : bool) || (is_end : bool) then
      error_here "unexpected compile-time conditional directive" ;;
      advance ;;
      t ← get p_previous; mret (ast_new_error t)
    else parse_plain_statement.
End Statements.
