(* ===== verification/Parser.v ===== *)
(** The program and the knot of the grammar ([src/parser.c], [parse_program]). *)
From S2P Require Import Prelude Token Types Source Lexer Ast ParserState ParserExpr ParserDecl ParserStmt.

(** Calls nested at most [fuel] deep, where a level is a cycle of the grammar. *)
Fixpoint grammar (garbage : Garbage) (fuel : nat) : Grammar :=
  match fuel with
  | O => mkGrammar (pthrow FuelExhausted) (pthrow FuelExhausted) (fun _ => pthrow FuelExhausted)
           (pthrow FuelExhausted) (pthrow FuelExhausted) (pthrow FuelExhausted)
           (pthrow FuelExhausted) (pthrow FuelExhausted) (fun _ => pthrow FuelExhausted)
           (pthrow FuelExhausted)
  | S fuel =>
      let g := grammar garbage fuel in
      mkGrammar (parse_type g) (parse_assignment g) (parse_binary g) (parse_unary g)
        (parse_if_expression g) (parse_block g) (parse_statement garbage g)
        (parse_if_statement g) (parse_compile_if_after_keyword g) (parse_attribute_decl g)
  end.

(** ** The program *)

Section Program.
Context (g : Grammar).

Definition node_is_exportable_declaration (n : Node) : bool :=
  match as_of n with
  | Some (NODE_VAR_DECL _ _ _) | Some (NODE_VAR_DECL_GROUP _) | Some (NODE_FUNC_DECL _ _ _)
  | Some (NODE_STRUCT_DECL _ _ _) | Some (NODE_ENUM_DECL _ _ _ _)
  | Some (NODE_CONST_DECL _ _ _) => true
  | _ => false
  end.

Definition set_exported (n : Node) : Node :=
  match n with mkNode a s _ => mkNode a s true | NullNode => NullNode end.

Definition mark_exported (n : Node) : Node :=
  match n with
  | mkNode (NODE_VAR_DECL_GROUP ds) s _ => mkNode (NODE_VAR_DECL_GROUP (map set_exported ds)) s true
  | _ => set_exported n
  end.

Definition mark_exported_declaration (n : Node) : P Node :=
  passert (node_is_exportable_declaration n) ;; mret (mark_exported n).

Definition set_span (s : SourceSpan) (n : Node) : Node :=
  match n with mkNode a _ e => mkNode a s e | NullNode => NullNode end.

(** [module a.b;] and [import a.b as c;], whose keyword is the current token. *)
Definition parse_directive : P Node :=
  keyword ← get p_current;
  is_module ← token_text_equals keyword "module";
  advance ;;
  ok ← consume TOK_IDENT;
  if negb ok then error_node
  else
    first ← get p_previous;
    name ← parse_dotted_name_from_first first;
    let directive_span := source_span_join (span keyword) (dn_span name) in
    let finish (alias : Text) (sp : SourceSpan) : P Node :=
      expect TOK_SEMICOLON (
        mret (if (is_module : bool) then ast_new_module_decl (dn_full name) sp
              else ast_new_import_decl (dn_full name) alias sp)) in
    t ← get p_current;
    is_as ← token_text_equals t "as";
    if negb is_module && is_as then
      advance ;;
      expect TOK_IDENT (
        alias ← get p_previous;
        x ← token_text alias;
        finish x (source_span_join directive_span (span alias)))
    else finish [] directive_span.

Definition parse_export : P Node :=
  keyword ← get p_current;
  advance ;;
  decl ← g_statement g;
  if negb (node_is_exportable_declaration decl) then
    error_at keyword "export must prefix a top-level declaration" ;; mret decl
  else
    decl ← mark_exported_declaration decl;
    mret (set_span (source_span_join (span keyword) (span_of decl)) decl).

Definition parse_top_level : P Node :=
  t ← get p_current;
  is_module ← token_text_equals t "module";
  is_import ← token_text_equals t "import";
  is_export ← token_text_equals t "export";
  next ← peek_next_token_type;
  if ((is_module : bool) || (is_import : bool)) && bool_decide (next = TOK_IDENT)
  then parse_directive
  else if (is_export : bool) && (bool_decide (next = TOK_IDENT) || bool_decide (next = TOK_HASH))
  then parse_export
  else g_statement g.

Definition parse_declarations : P Node :=
  first ← get p_current;
  statements ← loop (fun nodes =>
    eof ← check TOK_EOF;
    if (eof : bool) then mret (inr nodes)
    else n ← parse_top_level; mret (inl (nodes ++ [n]))) [];
  mret (ast_new_program statements (span first)).
End Program.

Definition parse_program (garbage : Garbage) : P Node := fun p =>
  parse_declarations (grammar garbage (S (remaining p))) p.

(** [parser_init_with_file] and [parse_program]. *)
Definition parse_file (garbage : Garbage) (file : SourceFile) : presult Node :=
  match parser_init_common file with
  | POk _ p => parse_program garbage p
  | PFault f => PFault f
  end.
