(* ===== verification/ParserTree.v ===== *)
(** What the parser promises of the tree it returns: every child of a node is of the sort that
    the later phases expect there, no node stands for an error, and every span lies in the
    file. *)
From S2P Require Import Prelude Token Types Source Lexer Literal Ast ParserState ParserExpr ParserDecl.

(** ** Sorts *)

Definition node_is (f : NodeAs -> bool) (n : Node) : bool :=
  match n with mkNode a _ _ => f a | NullNode => false end.

Definition expression_node (a : NodeAs) : bool :=
  match a with
  | NODE_NUMBER _ | NODE_IDENT _ | NODE_STRING _ | NODE_CHAR _ | NODE_BOOL _ | NODE_NULL
  | NODE_CAST _ _ _ | NODE_UNARY _ _ | NODE_BINARY _ _ _ | NODE_INC_DEC _ _ _
  | NODE_ASSIGN _ _ | NODE_COMPOUND_ASSIGN _ _ _ | NODE_CALL _ _ _ | NODE_FIELD _ _ _
  | NODE_INDEX _ _ | NODE_TYPE_REF _ | NODE_STRUCT_INIT _ _ _ _ | NODE_ARRAY_LITERAL _ _
  | NODE_IF_EXPR _ _ _ => true
  | _ => false
  end.

Definition statement_node (a : NodeAs) : bool :=
  match a with
  | NODE_BLOCK _ | NODE_EXPR_STMT _ | NODE_STATIC_ASSERT _ _ | NODE_ASM _ _ _ _ _
  | NODE_PACK_FOR _ _ _ | NODE_VAR_DECL _ _ _ | NODE_VAR_DECL_GROUP _ | NODE_FUNC_DECL _ _ _
  | NODE_STRUCT_DECL _ _ _ | NODE_ENUM_DECL _ _ _ _ | NODE_CONST_DECL _ _ _
  | NODE_IF _ _ _ _ | NODE_SWITCH _ _ | NODE_RETURN _ | NODE_DEFER _ | NODE_WHILE _ _
  | NODE_FOR _ _ _ | NODE_BREAK | NODE_CONTINUE => true
  | _ => false
  end.

Definition is_expression : Node -> bool := node_is expression_node.
Definition is_statement : Node -> bool := node_is statement_node.
Definition is_argument : Node -> bool :=
  node_is (fun a => match a with NODE_PACK_EXPANSION _ => true | _ => expression_node a end).
Definition is_top_level : Node -> bool :=
  node_is (fun a => match a with
                    | NODE_MODULE_DECL _ | NODE_IMPORT_DECL _ _ => true
                    | _ => statement_node a
                    end).
Definition is_block : Node -> bool :=
  node_is (fun a => match a with NODE_BLOCK _ => true | _ => false end).
Definition is_if : Node -> bool :=
  node_is (fun a => match a with NODE_IF _ _ _ _ => true | _ => false end).
Definition is_expr_stmt : Node -> bool :=
  node_is (fun a => match a with NODE_EXPR_STMT _ => true | _ => false end).
Definition is_string : Node -> bool :=
  node_is (fun a => match a with NODE_STRING _ => true | _ => false end).
Definition is_ident : Node -> bool :=
  node_is (fun a => match a with NODE_IDENT _ => true | _ => false end).
Definition is_param : Node -> bool :=
  node_is (fun a => match a with NODE_FUNC_PARAM_DECL _ _ _ => true | _ => false end).
Definition is_struct_field : Node -> bool :=
  node_is (fun a => match a with NODE_STRUCT_FIELD_DECL _ _ => true | _ => false end).
Definition is_func : Node -> bool :=
  node_is (fun a => match a with NODE_FUNC_DECL _ _ _ => true | _ => false end).
Definition is_enum_member : Node -> bool :=
  node_is (fun a => match a with NODE_ENUM_MEMBER _ _ => true | _ => false end).
Definition is_field_init : Node -> bool :=
  node_is (fun a => match a with NODE_FIELD_INIT _ _ => true | _ => false end).
Definition is_switch_case : Node -> bool :=
  node_is (fun a => match a with NODE_SWITCH_CASE _ _ _ => true | _ => false end).

Definition if_any (f : Node -> bool) (o : option Node) : bool :=
  match o with Some n => f n | None => true end.

(** ** The shape of a node *)

Definition is_unary_operator (op : TokenType) : bool :=
  match op with
  | TOK_MINUS | TOK_BANG | TOK_TILDE | TOK_MOVE | TOK_AND | TOK_STAR | TOK_DISCARD => true
  | _ => false
  end.

Definition is_compound_operator (op : TokenType) : bool :=
  is_assignment_operator op && negb (bool_decide (op = TOK_EQUAL)).

Definition is_increment_operator (op : TokenType) : bool :=
  bool_decide (op = TOK_PLUS_PLUS) || bool_decide (op = TOK_MINUS_MINUS).

(** The declarations of a group after the first have a copy of its initializer. *)
Definition group_shape (garbage : Garbage) (file : SourceSpan -> Prop) (ds : list Node) : Prop :=
  exists t x i s e rest,
    ds = mkNode (NODE_VAR_DECL (Some t) x i) s e :: rest /\ rest <> []
    /\ Forall (fun d => exists x' s' e',
         d = mkNode (NODE_VAR_DECL (Some t) x' (cloned_initializer garbage i)) s' e'
         /\ file s') rest.

Definition node_shape (garbage : Garbage) (file : SourceSpan -> Prop) (a : NodeAs) : Prop :=
  match a with
  | NODE_NUMBER (LITERAL_INTEGER v) => 0 <= v <= UINT64_MAX
  | NODE_CAST _ _ e | NODE_FIELD e _ _ | NODE_FIELD_INIT _ e
  | NODE_CONST_DECL _ _ e | NODE_PACK_EXPANSION e | NODE_EXPR_STMT e => is_expression e
  | NODE_UNARY op e => is_unary_operator op && is_expression e
  | NODE_BINARY op l r => (0 <? get_precedence op)%nat && is_expression l && is_expression r
  | NODE_INC_DEC op t _ => is_increment_operator op && is_assignable t && is_expression t
  | NODE_ASSIGN t v => is_assignable t && is_expression t && is_expression v
  | NODE_COMPOUND_ASSIGN op t v =>
      is_compound_operator op && is_assignable t && is_expression t && is_expression v
  | NODE_BLOCK ss => forallb is_statement ss
  | NODE_STATIC_ASSERT c m => is_expression c && if_any is_string m
  | NODE_ASM _ _ o inputs _ => is_expression o && forallb (fun i => is_expression i.2) inputs
  | NODE_PACK_FOR _ p b => is_ident p && is_block b
  | NODE_CALL f ts args => is_expression f && forallb is_argument args
  | NODE_INDEX o i => is_expression o && is_expression i
  | NODE_PROGRAM ss => forallb is_top_level ss
  | NODE_VAR_DECL t _ i =>
      (bool_decide (is_Some t) || bool_decide (is_Some i)) && if_any is_expression i
  | NODE_VAR_DECL_GROUP ds => group_shape garbage file ds
  | NODE_FUNC_DECL info ps b =>
      bool_decide (is_Some (func_return_type info)) && forallb is_param ps
      && (negb (func_is_variadic info) || (0 <? length ps)%nat)
      && match b with
         | Some b => is_block b && bool_decide (func_linkage info = FUNCTION_LINKAGE_COGLET)
         | None => bool_decide (func_linkage info = FUNCTION_LINKAGE_EXTERN_C)
         end
  | NODE_STRUCT_DECL info fs ms =>
      forallb is_struct_field fs && forallb is_func ms
      && (negb (struct_is_incomplete_ info) || ((length fs =? 0) && (length ms =? 0))%nat)
  | NODE_ENUM_DECL _ _ ms _ => forallb is_enum_member ms
  | NODE_ENUM_MEMBER _ v | NODE_RETURN v => if_any is_expression v
  | NODE_STRUCT_INIT _ _ _ fs => forallb is_field_init fs
  | NODE_ARRAY_LITERAL es zero => forallb is_expression es && (negb zero || (length es =? 0)%nat)
  | NODE_IF c t e _ =>
      is_expression c && is_block t && if_any (fun n => is_block n || is_if n) e
  | NODE_IF_EXPR c t e => is_expression c && is_expression t && is_expression e
  | NODE_SWITCH e cs => is_expression e && forallb is_switch_case cs
  | NODE_SWITCH_CASE v b d =>
      if_any is_expression v && is_statement b && Bool.eqb d (negb (bool_decide (is_Some v)))
  | NODE_DEFER s => is_block s || is_expr_stmt s
  | NODE_WHILE c b => is_expression c && is_block b
  | NODE_FOR c p b => if_any is_expression c && if_any is_expression p && is_block b
  | NODE_ERROR _ => False
  | _ => True
  end.

(** The children that are parsed: a group has the copies checked by its shape. *)
Definition parsed_children (a : NodeAs) : list Node :=
  match a with
  | NODE_VAR_DECL_GROUP ds => take 1 ds
  | _ => children a
  end.

Inductive well_formed (garbage : Garbage) (file : SourceSpan -> Prop) : Node -> Prop :=
| well_formed_node a s e :
    node_shape garbage file a -> file s ->
    Forall (well_formed garbage file) (parsed_children a) ->
    well_formed garbage file (mkNode a s e).
