(* ===== verification/ParserSpec.v ===== *)
(** The parser's invariant and the rules for computations that keep it.

    [Spec m pre post]: from a state that satisfies the invariant and [pre], [m] does not fault,
    keeps the invariant, does not give characters back and forgets no diagnostic, and
    establishes [post]. *)
From S2P Require Import Prelude Token Types Source Lexer Literal Ast ParserState ParserExpr.

Definition pwp {A} (m : P A) (Q : A -> Parser -> Prop) (p : Parser) : Prop :=
  match m p with
  | POk a p' => Q a p'
  | PFault _ => False
  end.

Definition errors (p : Parser) : nat := length (diagnostics p).

(** Less than [n] characters are left. *)
Definition within (n : nat) (p : Parser) : Prop := (remaining p < n)%nat.

(** ** Structural rules *)

Lemma pwp_bind {A B} (m : P A) (k : A -> P B) Q p :
  pwp m (fun a p' => pwp (k a) Q p') p -> pwp (m ≫= k) Q p.
Proof. unfold pwp, mbind, P_bind. by destruct (m p). Qed.

Lemma pwp_ret {A} (a : A) (Q : A -> Parser -> Prop) p : Q a p -> pwp (mret a) Q p.
Proof. done. Qed.

Lemma pwp_get {A} (f : Parser -> A) (Q : A -> Parser -> Prop) p : Q (f p) p -> pwp (get f) Q p.
Proof. done. Qed.

Lemma pwp_modify f (Q : unit -> Parser -> Prop) p : Q tt (f p) -> pwp (modify f) Q p.
Proof. done. Qed.

Lemma pwp_check ty (Q : bool -> Parser -> Prop) p :
  Q (bool_decide (type (p_current p) = ty)) p -> pwp (check ty) Q p.
Proof. done. Qed.

Lemma pwp_passert b (Q : unit -> Parser -> Prop) p : b = true -> Q tt p -> pwp (passert b) Q p.
Proof. by intros ->. Qed.

Lemma pwp_mono {A} (m : P A) (Q Q' : A -> Parser -> Prop) p :
  pwp m Q p -> (forall a p', Q a p' -> Q' a p') -> pwp m Q' p.
Proof. unfold pwp. destruct (m p); eauto. Qed.

(** A result that is an error node, after a diagnostic, or what [post] says. *)
Definition or_error {A} (post : Parser -> A -> Parser -> Prop) (p : Parser) (r : Node + A)
    (p' : Parser) : Prop :=
  match r with inl _ => (errors p < errors p')%nat | inr a => post p a p' end.

(** ** Tokens and spans *)

Section Spec.
Context (src : list ascii) (fid : Z) (Hsrc : buffer_ok src).

Definition in_file (s : SourceSpan) : Prop :=
  file_id s = fid /\ 0 <= start_offset s <= end_offset s
  /\ end_offset s <= Z.of_nat (length src).

Lemma in_file_join s t : in_file s -> in_file t -> in_file (source_span_join s t).
Proof.
  unfold in_file, source_span_join. intros (? & ? & ?) (? & ? & ?).
  repeat case_match; simpl in *; to_props; split_and!; try congruence; lia.
Qed.

(** The tokens of which the parser takes characters off both ends, or a half. *)
Definition two_characters (ty : TokenType) : bool :=
  match ty with TOK_STRING | TOK_CHAR | TOK_SHIFT_RIGHT => true | _ => false end.

Record token_in (t : Token) : Prop := {
  token_in_span : in_file (span t);
  token_in_end : Z.of_nat (start t) + tok_length t <= Z.of_nat (length src);
  token_in_length : 0 <= tok_length t;
  token_in_proper : type t <> TOK_EOF -> 0 < tok_length t;
  token_in_two : two_characters (type t) = true -> 2 <= tok_length t;
}.

Lemma length_cstr s : length (cstr s) = String.length s.
Proof. unfold cstr. induction s as [|c s IH]; simpl; [done | by rewrite IH]. Qed.

Lemma operator_at_two table p :
  Forall (fun '(w, ty) => two_characters ty = true -> (2 <= String.length w)%nat) table ->
  match operator_at table src p with
  | Some (ty, e) => two_characters ty = true -> (2 + p <= e)%nat
  | None => True
  end.
Proof.
  induction 1 as [|[w ty] table Hw _ IH]; simpl; [done|]. destruct (spelled _ _ _); [|done].
  intros H%Hw. rewrite length_cstr. lia.
Qed.

Lemma operators_two :
  Forall (fun '(w, ty) => two_characters ty = true -> (2 <= String.length w)%nat) operators.
Proof. unfold operators. forall_cons; simpl; (done || lia). Qed.

Lemma identifier_type_two text : two_characters (identifier_type text) = false.
Proof.
  unfold identifier_type. destruct (find_keyword_in keywords text) as [->|(w & Hw & _)]; [done|].
  assert (H : Forall (fun '(_, ty) => two_characters ty = false) keywords)
    by (unfold keywords; forall_cons; done).
  rewrite Forall_forall in H. apply (H _ Hw).
Qed.

Lemma next_token_two p t lx :
  next_token src fid p t lx -> two_characters (type t) = true -> 2 <= tok_length t.
Proof.
  intros [_ -> _ _ | st _ _ _ _ -> _ | st q Hpq _ _ _ Hok Htext] Htwo; [done..|].
  destruct Hok as (_ & _ & _ & _ & Hex & _).
  assert (Hlen : type t <> TOK_ERROR -> tok_length t = Z.of_nat q - Z.of_nat st)
    by (intros; specialize (Hex ltac:(done)); lia).
  unfold Lexer.token_text in Htext.
  destruct (is_alpha (char_of src st)); [destruct Htext as (_ & _ & Ht); by rewrite Ht, identifier_type_two in Htwo|].
  destruct (is_digit (char_of src st)).
  { destruct Htext as [Ht|[Ht|[Ht _]]]; by rewrite Ht in Htwo. }
  repeat case_decide.
  - destruct Htext as [Ht|(Ht & e & -> & He & _)]; [by rewrite Ht in Htwo|].
    rewrite Hlen by congruence. lia.
  - destruct Htext as [Ht|(Ht & e & -> & _ & He)]; [by rewrite Ht in Htwo|].
    rewrite Hlen by congruence. case_decide; subst; lia.
  - unfold operator_token_at in Htext. pose proof (operator_at_two operators st operators_two) as H2.
    destruct (operator_at operators src st) as [[ty e]|]; [|by rewrite Htext in Htwo].
    destruct Htext as [Ht ->]. rewrite Ht in Htwo. specialize (H2 Htwo).
    rewrite Hlen; [lia|]. intros He. rewrite He in Ht. by subst ty.
Qed.

Lemma token_at_in p st q t lx :
  next_token src fid p t lx ->
  token_at src fid st q t lx -> (type t <> TOK_EOF -> (st < q)%nat) -> token_in t.
Proof.
  intros Hn (Hat & Hst & H0 & Hle & Hex & Herr & _ & _ & Hspan) Hlt.
  pose proof (at_pos_le _ _ _ _ Hat).
  split; [|lia..| |exact (next_token_two _ _ _ Hn)].
  - rewrite Hspan. unfold in_file. simpl. lia.
  - intros Ht. specialize (Hlt Ht). destruct (decide (type t = TOK_ERROR)) as [He|He].
    + by apply Herr.
    + specialize (Hex He). lia.
Qed.

(** ** The invariant *)

Record inv (p : Parser) : Prop := {
  inv_position : exists q, at_pos src fid q (p_lexer p)
    /\ Z.of_nat (start (p_current p)) + tok_length (p_current p) <= Z.of_nat q;
  inv_current : token_in (p_current p);
  inv_proper : type (p_current p) <> TOK_ERROR;
  inv_diagnostics : Forall (fun d => in_file (diagnostic_span d)) (diagnostics p);
  inv_eof : type (p_current p) = TOK_EOF -> unread (p_lexer p) = 0%nat;
  inv_had_error : had_error p = negb (errors p =? 0)%nat;
}.

(** Nothing is left exactly at the end of the file. *)
Lemma remaining_eof p : inv p -> type (p_current p) = TOK_EOF <-> remaining p = 0%nat.
Proof.
  intros [_ Hin _ _ Heof _]. unfold remaining, token_weight. case_bool_decide as Ht.
  - rewrite Heof by done. split; done || lia.
  - pose proof (token_in_proper _ Hin Ht). split; [done | lia].
Qed.

(** Progress made by the second of two computations, if the first has left something. *)
Lemma progress_later p p0 p1 :
  inv p -> inv p0 -> (remaining p0 <= remaining p)%nat -> (remaining p1 <= remaining p0)%nat ->
  (type (p_current p0) <> TOK_EOF -> (remaining p1 < remaining p0)%nat) ->
  type (p_current p) <> TOK_EOF -> (remaining p1 < remaining p)%nat.
Proof.
  intros Hp%remaining_eof Hp0%remaining_eof Hle Hle1 Hlt Hne.
  destruct (decide (type (p_current p0) = TOK_EOF)) as [He|He]; [|specialize (Hlt He); lia].
  assert (remaining p <> 0%nat) by tauto. assert (remaining p0 = 0%nat) by tauto. lia.
Qed.

(** [p'] comes after [p]. *)
Record after (p p' : Parser) : Prop := {
  after_inv : inv p';
  after_remaining : (remaining p' <= remaining p)%nat;
  after_errors : (errors p <= errors p')%nat;
  after_suppress : suppress_struct_init p' = suppress_struct_init p;
  after_previous : token_in (p_previous p) -> token_in (p_previous p');
}.

Lemma after_refl p : inv p -> after p p.
Proof. intros. by split. Qed.

Lemma after_trans p1 p2 p3 : after p1 p2 -> after p2 p3 -> after p1 p3.
Proof. intros [] []. split; [done | lia | lia | congruence | auto]. Qed.

Definition Spec {A} (m : P A) (pre : Parser -> Prop) (post : Parser -> A -> Parser -> Prop) : Prop :=
  forall p, inv p -> pre p -> pwp m (fun a p' => after p p' /\ post p a p') p.

Lemma pwp_call {A} (m : P A) pre post (Q : A -> Parser -> Prop) p :
  Spec m pre post -> inv p -> pre p ->
  (forall a p', after p p' -> post p a p' -> Q a p') -> pwp m Q p.
Proof.
  intros Hm Hinv Hpre HQ. eapply pwp_mono; [by apply Hm|]. simpl. intros a p' [? ?]. by apply HQ.
Qed.

Lemma Spec_mono {A} (m : P A) (pre pre' : Parser -> Prop) (post post' : Parser -> A -> Parser -> Prop) :
  Spec m pre post -> (forall p, pre' p -> pre p) -> (forall p a p', post p a p' -> post' p a p') ->
  Spec m pre' post'.
Proof.
  intros Hm Hpre Hpost p Hinv Hp. eapply pwp_mono; [apply Hm; auto|]. simpl. intros a p' [? ?]. auto.
Qed.

(** A loop with the invariant [I]; [Q] is the loop's postcondition. *)
Lemma pwp_loop {A B} (I : A -> Parser -> Prop) (body : A -> P (A + B)) a (Q : B -> Parser -> Prop) p :
  inv p -> I a p ->
  (forall a p1, after p p1 -> I a p1 ->
   pwp (body a) (fun r p2 => after p1 p2 /\
     match r with
     | inl a' => I a' p2 /\ (remaining p2 < remaining p1)%nat
     | inr b => Q b p2
     end) p1) ->
  pwp (loop body a) Q p.
Proof.
  intros Hinv HI Hbody. unfold pwp, loop.
  enough (forall fuel a p1, (remaining p1 < fuel)%nat -> after p p1 -> I a p1 ->
          pwp (iterate fuel body a) Q p1) as H.
  { apply (H (S (remaining p)) a p); [lia | by apply after_refl | done]. }
  clear a HI. induction fuel as [|fuel IH]; intros a p1 Hfuel Hafter HI; [lia|].
  simpl. apply pwp_bind. eapply pwp_mono; [by apply Hbody|].
  intros [a'|b] p2 [Hafter2 H]; [|by apply pwp_ret].
  destruct H as [HI' Hlt]. apply IH; [lia | by eapply after_trans | done].
Qed.

(** ** Primitive operations *)

Lemma pwp_set_suppress b (Q : unit -> Parser -> Prop) p :
  inv p ->
  (forall p', inv p' -> remaining p' = remaining p -> errors p' = errors p ->
   suppress_struct_init p' = b -> p_previous p' = p_previous p -> p_current p' = p_current p ->
   Q tt p') ->
  pwp (set_suppress b) Q p.
Proof. intros [] HQ. apply HQ; done. Qed.

Lemma add_diagnostic_spec t msg :
  Spec (add_diagnostic t msg) (fun _ => token_in t)
    (fun p _ p' => (errors p < errors p')%nat /\ p_current p' = p_current p
                   /\ p_previous p' = p_previous p).
Proof.
  intros p Hinv Ht. pose proof Hinv as [].
  unfold pwp, add_diagnostic, modify, errors. simpl.
  split; [|rewrite length_app; simpl; split_and!; done || lia].
  split; simpl; [|done|unfold errors; simpl; rewrite length_app; simpl; lia|done|done].
  split; simpl; try done.
  - apply Forall_app. split; [done|]. apply Forall_singleton. simpl. apply Ht.
  - unfold errors. simpl. rewrite length_app. simpl. by rewrite Nat.add_comm.
Qed.

Lemma error_at_spec t msg :
  Spec (error_at t msg) (fun _ => token_in t)
    (fun p _ p' => (errors p < errors p')%nat /\ p_current p' = p_current p
                   /\ p_previous p' = p_previous p).
Proof. apply add_diagnostic_spec. Qed.

Lemma error_here_spec msg :
  Spec (error_here msg) (fun _ => True)
    (fun p _ p' => (errors p < errors p')%nat /\ p_current p' = p_current p
                   /\ p_previous p' = p_previous p).
Proof.
  intros p Hinv _. unfold error_here. apply pwp_bind, pwp_get.
  apply add_diagnostic_spec; [done | apply Hinv].
Qed.

Lemma error_before_spec msg :
  Spec (error_before msg) (fun p => token_in (p_previous p))
    (fun p _ p' => (errors p < errors p')%nat /\ p_current p' = p_current p
                   /\ p_previous p' = p_previous p).
Proof.
  intros p Hinv Ht. unfold error_before. apply pwp_bind, pwp_get.
  by apply add_diagnostic_spec.
Qed.

Lemma unread_at q lx : at_pos src fid q lx -> unread lx = (length src - q)%nat.
Proof. intros (Hs & _ & Hc & _). unfold unread. by rewrite Hs, Hc. Qed.

Lemma pwp_next_token q (Q : Token -> Parser -> Prop) p :
  at_pos src fid q (p_lexer p) ->
  (forall t lx, next_token src fid q t lx ->
   Q t (mkParser lx (p_current p) (p_previous p) (had_error p) (diagnostics p)
          (suppress_struct_init p))) ->
  pwp next_token_ Q p.
Proof.
  intros Hat HQ. destruct (lexer_next_answer src fid q _ Hsrc Hat) as (t & lx & Hn & Ht).
  unfold pwp, next_token_. rewrite Hn. by apply HQ.
Qed.

Lemma error_token_message q t lx :
  next_token src fid q t lx -> type t = TOK_ERROR -> is_Some (error_msg lx).
Proof.
  intros Ht He. destruct (next_token_shape _ _ _ _ _ Ht) as (? & _ & (_ & _ & _ & _ & _ & Herr & _) & _).
  by apply Herr.
Qed.

Lemma next_good_ok fuel q p (Q : unit -> Parser -> Prop) :
  at_pos src fid q (p_lexer p) ->
  Forall (fun d => in_file (diagnostic_span d)) (diagnostics p) ->
  had_error p = negb (errors p =? 0)%nat ->
  (length src - q < fuel)%nat ->
  (forall p', inv p' -> (remaining p' <= length src - q)%nat -> (errors p <= errors p')%nat ->
   suppress_struct_init p' = suppress_struct_init p -> p_previous p' = p_previous p -> Q tt p') ->
  pwp (next_good fuel) Q p.
Proof.
  revert q p. induction fuel as [|fuel IH]; intros q p Hat Hdiag Herr Hfuel HQ; [lia|].
  simpl. apply pwp_bind. eapply pwp_next_token; [done|]. intros t lx Ht.
  destruct (next_token_shape _ _ _ _ _ Ht) as (q' & Htr & Htok & Heof & Hlt).
  pose proof (trivia_le _ _ _ Htr) as Hle. pose proof (token_at_in _ _ _ _ _ Ht Htok Hlt) as Hin.
  pose proof Htok as (Hat' & _ & H0 & Hend & _). pose proof (at_pos_le _ _ _ _ Hat') as Hq'.
  apply pwp_bind. unfold pwp, set_current, modify. simpl.
  case_bool_decide as He.
  - apply pwp_bind, pwp_get, pwp_bind. unfold pwp, add_diagnostic, modify. simpl.
    apply (IH q'); simpl; [done | | | |].
    + apply Forall_app. split; [done|]. apply Forall_singleton. simpl. apply Hin.
    + unfold errors. simpl. rewrite length_app. simpl. by rewrite Nat.add_comm.
    + assert (type t <> TOK_EOF) as Hne by congruence. specialize (Hlt Hne). lia.
    + unfold errors. simpl. rewrite length_app. simpl. intros p' ? ? ? ? ?. apply HQ; try done; [|unfold errors]; lia.
  - apply HQ; [split| | | |]; simpl; try done.
    + exists q'. split; [done | lia].
    + rewrite (unread_at q') by done. intros Hty. apply Heof in Hty. lia.
    + unfold remaining. simpl. rewrite (unread_at q') by done. unfold token_weight.
      destruct Htok as (_ & Hst & _). case_bool_decide; lia.
Qed.

Lemma advance_spec :
  Spec advance (fun _ => True) (fun p _ p' => p_previous p' = p_current p
    /\ token_in (p_previous p')
    /\ (type (p_current p) <> TOK_EOF -> (remaining p' < remaining p)%nat)).
Proof.
  intros p Hinv _. pose proof Hinv as [(q & Hat & Hcur) Hin Hproper Hdiag _ Herr].
  unfold advance. apply pwp_bind, pwp_get, pwp_bind, pwp_modify, pwp_bind, pwp_get.
  cbn [p_lexer]. rewrite (unread_at q) by done.
  assert (Hrem : remaining p = (length src - q + token_weight (p_current p))%nat).
  { unfold remaining. by rewrite (unread_at q). }
  eapply (next_good_ok _ q); simpl; [done..|lia|].
  intros p' Hinv' Hle He Hs Hp. cbn in Hle, He, Hs, Hp. rewrite Hp.
  split; [split; auto; [lia | by rewrite Hp]|]. split_and!; [done | done|].
  intros Hne. pose proof (token_in_proper _ Hin Hne).
  unfold token_weight in Hrem. rewrite bool_decide_eq_false_2 in Hrem by done. lia.
Qed.

Lemma pwp_token_text t (Q : Text -> Parser -> Prop) p :
  (forall x, Q x p) -> pwp (token_text t) Q p.
Proof. intros HQ. apply pwp_get, HQ. Qed.

Lemma pwp_token_text_equals t w (Q : bool -> Parser -> Prop) p :
  (forall b, (b = true -> type t = TOK_IDENT) -> Q b p) -> pwp (token_text_equals t w) Q p.
Proof.
  intros HQ. unfold token_text_equals. apply pwp_bind, pwp_get, pwp_ret, HQ.
  intros [H%bool_decide_eq_true _]%andb_true_iff. done.
Qed.

(** A computation on a copy of the lexer, which answers from every position. *)
Lemma pwp_lookahead {A} (m : Lexer.M A) (Q : A -> Parser -> Prop) p :
  inv p ->
  (forall q, at_pos src fid q (p_lexer p) -> Lexer.wp m (fun a _ => Q a p) (p_lexer p)) ->
  pwp (lookahead m) Q p.
Proof.
  intros [(q & Hat & _)] HQ. specialize (HQ q Hat). unfold pwp, lookahead, Lexer.wp in *.
  by destruct (m (p_lexer p)).
Qed.

Lemma pwp_peek_next (Q : TokenType -> Parser -> Prop) p :
  inv p -> (forall ty, Q ty p) -> pwp peek_next_token_type Q p.
Proof.
  intros Hinv HQ. apply pwp_lookahead; [done|]. intros q Hat.
  apply Lexer.wp_bind. eapply wp_lexer_next; [done..|]. intros t lx Ht. apply Lexer.wp_ret, HQ.
Qed.

(** [with_suppress b m]: [m] runs with the flag, and the flag is put back. *)
Lemma pwp_with_suppress {A} b (m : P A) (Q : A -> Parser -> Prop) p :
  inv p ->
  (forall p1, inv p1 -> remaining p1 = remaining p -> errors p1 = errors p ->
   p_current p1 = p_current p ->
   (token_in (p_previous p) -> token_in (p_previous p1)) ->
   pwp m (fun a p2 => inv p2 /\
     forall p3, inv p3 -> remaining p3 = remaining p2 -> errors p3 = errors p2 ->
     suppress_struct_init p3 = suppress_struct_init p ->
     (token_in (p_previous p2) -> token_in (p_previous p3)) ->
     p_current p3 = p_current p2 -> Q a p3) p1) ->
  pwp (with_suppress b m) Q p.
Proof.
  intros Hinv HQ. unfold with_suppress. apply pwp_bind, pwp_get, pwp_bind.
  apply pwp_set_suppress; [done|]. intros p1 ? ? ? _ Hprev ?. apply pwp_bind.
  eapply pwp_mono; [apply HQ; [done..| by rewrite Hprev]|]. simpl. intros a p2 [Hinv2 HQ2].
  apply pwp_bind, pwp_set_suppress; [done|]. intros p3 ? ? ? ? Hprev3 ?.
  apply pwp_ret, HQ2; [done..| by rewrite Hprev3 | done].
Qed.
End Spec.

(** ** Automation

    [pstep] applies the rule for the head of the computation, a [Spec] of [pspec] when it is a
    call; [psteps] goes on until a postcondition or a loop is left. *)
Create HintDb pspec discriminated.
#[export] Hint Constants Opaque : pspec.
Create HintDb pfile discriminated.
#[export] Hint Resolve in_file_join token_in_span inv_current : pfile.

#[export] Hint Resolve advance_spec error_at_spec error_here_spec error_before_spec : pspec.

(** What an [after] gives, as facts about numbers and flags. *)
Ltac learn_after H :=
  let H1 := fresh "Hinv" in pose proof (after_inv _ _ _ _ H) as H1;
  let H2 := fresh "Hrem" in pose proof (after_remaining _ _ _ _ H) as H2;
  let H3 := fresh "Herr" in pose proof (after_errors _ _ _ _ H) as H3;
  let H4 := fresh "Hsup" in pose proof (after_suppress _ _ _ _ H) as H4;
  let H5 := fresh "Hprev" in pose proof (after_previous _ _ _ _ H) as H5;
  clear H; try specialize (H5 ltac:(assumption)).

Ltac psimp :=
  repeat match goal with
  | H : _ /\ _ |- _ => destruct H
  | H : exists _, _ |- _ => destruct H
  | H : ?r = inl _ |- _ => is_var r; subst r
  | H : ?p' = ?p |- _ => is_var p'; match type of p' with Parser => subst p' end
  | H : if true then _ else _ |- _ => cbn iota in H
  | H : if false then _ else _ |- _ => cbn iota in H
  | H : match inl _ with _ => _ end |- _ => cbn beta iota in H
  | H : match inr _ with _ => _ end |- _ => cbn beta iota in H
  | H : match Some _ with _ => _ end |- _ => cbn beta iota in H
  | H : match None with _ => _ end |- _ => cbn beta iota in H
  | H : token_in ?s ?f ?t -> _, H' : token_in ?s ?f ?t |- _ => specialize (H H')
  | H : or_error _ _ _ _ |- _ => unfold or_error in H
  | H : true = true -> _ |- _ => specialize (H eq_refl)
  | H : false = true -> _ |- _ => clear H
  | H : type _ = _ -> _ |- _ => specialize (H ltac:(congruence))
  | H : type _ <> TOK_EOF -> _ |- _ => specialize (H ltac:(congruence))
  | H : ?P, H' : ?P |- _ => match type of P with Prop => clear H' end
  | H : ?x = ?x |- _ => clear H
  | H : (?x <= ?x)%nat |- _ => clear H
  | H : ?P -> ?P |- _ => clear H
  end.

Ltac pcase b :=
  lazymatch b with
  | negb ?c => pcase c
  | andb ?c _ => pcase c
  | orb ?c _ => pcase c
  | bool_decide ?P => destruct (bool_decide_reflect P)
  | Nat.ltb ?x ?y => destruct (Nat.ltb_spec x y)
  | Nat.eqb ?x ?y => destruct (Nat.eqb_spec x y)
  | Z.ltb ?x ?y => destruct (Z.ltb_spec x y)
  | Z.eqb ?x ?y => destruct (Z.eqb_spec x y)
  | _ => first [is_var b; destruct b | destruct b eqn:?]
  end; cbn [negb andb orb]; psimp.

(** Preconditions and other side conditions. *)
Ltac ppre :=
  cbv beta; lazymatch goal with
  | |- True => exact I
  | |- _ /\ _ => split; ppre
  | |- token_in _ _ _ => solve [assumption | eauto 3 with pfile nocore | congruence]
  | |- in_file _ _ _ => solve [eauto 6 with pfile nocore]
  | |- _ = true => try solve [assumption | reflexivity | congruence]
  | |- _ \/ _ => try solve [tauto]
  | |- within _ _ => unfold within in *; lia
  | |- (_ < _)%nat => lia
  | |- (_ <= _)%nat => lia
  | |- _ => try solve [assumption | discriminate | congruence | lia | eauto 4 with pfile nocore]
  end.

Ltac pcall :=
  match goal with Hinv : inv ?src ?fid ?p |- pwp ?m _ ?p => eapply (pwp_call src fid m) end;
  [ solve [eauto 4 with pspec nocore] | assumption | ppre
  | let a := fresh "r" in let p := fresh "p" in let H := fresh "Hafter" in
    intros a p H; cbv beta; learn_after H; intros; psimp ].

(** Redefined when the rules are proved. *)
Ltac pexpect := fail.
Ltac prequire := fail.

Ltac pstep :=
  lazymatch goal with
  | |- pwp (mbind _ _) _ _ => apply pwp_bind
  | |- pwp (mret (if ?b then _ else _)) _ _ => pcase b
  | |- pwp (mret (match ?x with _ => _ end)) _ _ =>
      first [is_var x; destruct x | destruct x eqn:?]; psimp
  | |- pwp (mret _) _ _ => apply pwp_ret
  | |- pwp (get _) _ _ => apply pwp_get
  | |- pwp (check _) _ _ => apply pwp_check
  | |- pwp (token_text _) _ _ => apply pwp_token_text; intros ?
  | |- pwp (token_text_equals _ _) _ _ => apply pwp_token_text_equals; intros ? ?
  | |- pwp peek_next_token_type _ _ =>
      eapply pwp_peek_next; [eassumption | eassumption | intros ?]
  | |- pwp (passert _) _ _ => apply pwp_passert
  | |- pwp (with_suppress _ _) _ _ =>
      eapply pwp_with_suppress; [eassumption|]; intros; psimp
  | |- inv _ _ _ /\ (forall _, _) => split; [assumption | intros; psimp]
  | |- pwp (if ?b then _ else _) _ _ => pcase b
  | |- pwp (match ?x with _ => _ end) _ _ => first [is_var x; destruct x | destruct x eqn:?]; psimp
  | |- pwp (loop _ _) _ _ => fail
  | |- pwp (expect _ _) _ _ => pexpect
  | |- pwp (require _ _) _ _ => prequire
  | |- pwp _ _ _ => pcall
  end; cbv beta.
Ltac psteps := repeat pstep.

Ltac use_clean :=
  repeat match goal with
  | H : errors ?b = errors ?a -> _ |- _ =>
      let E := fresh in assert (E : errors b = errors a) by lia; specialize (H E); clear E
  end; psimp.

(** An [after] between two states of the context. *)
Ltac pafter :=
  lazymatch goal with
  | |- after _ _ ?p ?p => apply after_refl; assumption
  | |- after _ _ _ _ => split; [assumption | lia | lia | congruence | intros; psimp; solve [assumption | eauto 4 with pfile nocore | congruence]]
  end.

Section Tokens.
Context (src : list ascii) (fid : Z) (Hsrc : buffer_ok src).

Lemma match_spec ty :
  Spec src fid (match_ ty) (fun _ => ty <> TOK_EOF) (fun p b p' =>
    if b then type (p_current p) = ty /\ p_previous p' = p_current p
              /\ token_in src fid (p_previous p') /\ (remaining p' < remaining p)%nat
    else type (p_current p) <> ty /\ p' = p).
Proof.
  intros p Hinv Hty. unfold match_. psteps; (split; [pafter|done]).
Qed.

Lemma consume_spec ty :
  Spec src fid (consume ty) (fun _ => ty <> TOK_EOF) (fun p b p' =>
    (if b then type (p_current p) = ty /\ p_previous p' = p_current p
               /\ token_in src fid (p_previous p') /\ (remaining p' < remaining p)%nat
     else type (p_current p) <> ty /\ (errors p < errors p')%nat /\ p_current p' = p_current p)
    /\ (type (p_current p) = ty ->
        token_in src fid (p_previous p') /\ (remaining p' < remaining p)%nat)).
Proof. intros p Hinv Hty. unfold consume. psteps; (split; [pafter|split; done]). Qed.
End Tokens.
#[export] Hint Resolve match_spec consume_spec : pspec.

Section Recovery.
Context (src : list ascii) (fid : Z) (Hsrc : buffer_ok src).

(** Half of a [>>] token. *)
Lemma token_half t :
  token_in src fid t -> type t = TOK_SHIFT_RIGHT ->
  token_in src fid (with_token t TOK_GREATER (start t) 1)
  /\ token_in src fid (with_token t TOK_GREATER (S (start t)) 1).
Proof.
  intros [? ? ? _ H2] Ht. rewrite Ht in H2. specialize (H2 eq_refl).
  split; split; simpl; try done; lia.
Qed.

Lemma match_generic_greater_spec :
  Spec src fid match_generic_greater (fun _ => True) (fun p b p' =>
    if b then token_in src fid (p_previous p') /\ (remaining p' < remaining p)%nat
    else p' = p).
Proof.
  intros p Hinv _. unfold match_generic_greater. psteps; try (split; [pafter|done]).
  apply pwp_modify, pwp_bind, pwp_modify, pwp_ret.
  destruct (token_half (p_current p)) as [H1 H2]; [apply Hinv | done |].
  destruct Hinv as [(q & Hat & Hq) Hin Hproper Hdiag Heof Hhad].
  pose proof (token_in_two _ _ _ Hin) as Htwo. rewrite e in Htwo. specialize (Htwo eq_refl).
  assert (Hlt : (1 < token_weight (p_current p))%nat).
  { unfold token_weight. rewrite bool_decide_eq_false_2 by congruence. lia. }
  split; [split|split]; simpl; try done; unfold remaining, token_weight in *; simpl; try lia.
  split; simpl; try done. exists q. split; [done | lia].
Qed.

Lemma consume_generic_greater_spec msg :
  Spec src fid (consume_generic_greater msg) (fun _ => True) (fun p b p' =>
    if b then token_in src fid (p_previous p') /\ (remaining p' < remaining p)%nat
    else (errors p < errors p')%nat).
Proof.
  pose proof match_generic_greater_spec. intros p Hinv _. unfold consume_generic_greater.
  psteps; (split; [pafter|done]).
Qed.

(** Skipping tokens. *)
Lemma skip_loop_spec (stop : Parser -> bool) p (Q : unit -> Parser -> Prop) :
  inv src fid p ->
  (forall p', type (p_current p') = TOK_EOF -> stop p' = true) ->
  (forall p', after src fid p p' -> Q tt p') ->
  pwp (loop (fun _ => s ← get stop; if (s : bool) then mret (inr tt) else advance ;; mret (inl tt)) tt)
    Q p.
Proof.
  intros Hinv Heof HQ. apply (pwp_loop src fid (fun _ _ => True)); [done..|].
  intros [] p1 H1 _. learn_after H1. psteps.
  - split; [pafter|]. apply HQ. pafter.
  - assert (type (p_current p1) <> TOK_EOF) by (intros He; rewrite Heof in *; done).
    psimp. split; [pafter | done].
Qed.

Lemma synchronize_spec :
  Spec src fid synchronize (fun _ => True) (fun p _ p' =>
    type (p_current p) <> TOK_EOF -> (remaining p' < remaining p)%nat).
Proof.
  intros p Hinv _. unfold synchronize. psteps.
  apply (skip_loop_spec (fun p =>
    bool_decide (type (p_current p) = TOK_EOF) || bool_decide (type (p_previous p) = TOK_SEMICOLON)
    || bool_decide (type (p_current p) = TOK_RBRACE) || starts_statement (type (p_current p))));
    [done | by intros p' -> | intros p' H'].
  learn_after H'. split; [pafter|]. intros Hne. psimp. lia.
Qed.

Lemma skip_until_spec stop :
  Spec src fid (skip_until stop) (fun _ => True) (fun _ _ _ => True).
Proof.
  intros p Hinv _. unfold skip_until.
  apply (skip_loop_spec (fun p => stop (type (p_current p))
                                   || bool_decide (type (p_current p) = TOK_EOF)));
    [done | intros p' ->; apply orb_true_r | intros p' H'].
  by split.
Qed.

Lemma error_node_spec :
  Spec src fid error_node (fun _ => True) (fun p n p' => n = ast_new_error (p_current p) /\ p' = p).
Proof. intros p Hinv _. unfold error_node. psteps. split; [pafter | done]. Qed.
End Recovery.
#[export] Hint Resolve match_generic_greater_spec consume_generic_greater_spec synchronize_spec
  skip_until_spec error_node_spec : pspec.

Section Expect.
Context (src : list ascii) (fid : Z) (Hsrc : buffer_ok src).

Lemma sync_error_spec :
  Spec src fid sync_error (fun _ => True) (fun p _ p' =>
    type (p_current p) <> TOK_EOF -> (remaining p' < remaining p)%nat).
Proof. intros p Hinv _. unfold sync_error. psteps. split; [pafter | done]. Qed.

Lemma pwp_expect ty k (Q : Node -> Parser -> Prop) p :
  inv src fid p -> ty <> TOK_EOF ->
  (forall p', after src fid p p' -> type (p_current p) = ty -> p_previous p' = p_current p ->
   token_in src fid (p_previous p') -> (remaining p' < remaining p)%nat -> pwp k Q p') ->
  (forall n p', after src fid p p' -> (errors p < errors p')%nat ->
   (type (p_current p) <> TOK_EOF -> (remaining p' < remaining p)%nat) -> Q n p') ->
  pwp (expect ty k) Q p.
Proof.
  pose proof sync_error_spec. intros Hinv Hty Hk Hfail. unfold expect. psteps.
  - apply Hk; try done. 
  - apply Hfail; [pafter | lia|]. intros. psimp. lia.
Qed.

Lemma pwp_require {A} ty (k : P (Node + A)) (Q : Node + A -> Parser -> Prop) p :
  inv src fid p -> ty <> TOK_EOF ->
  (forall p', after src fid p p' -> type (p_current p) = ty -> p_previous p' = p_current p ->
   token_in src fid (p_previous p') -> (remaining p' < remaining p)%nat -> pwp k Q p') ->
  (forall n p', after src fid p p' -> (errors p < errors p')%nat -> Q (inl n) p') ->
  pwp (require ty k) Q p.
Proof.
  pose proof sync_error_spec. intros Hinv Hty Hk Hfail. unfold require, recover. psteps.
  - apply Hk; try done.
  - apply Hfail; [pafter | lia].
Qed.

Lemma recover_at_spec {A} t :
  Spec src fid (recover_at (A := A) t) (fun _ => True) (fun _ r _ => exists n, r = inl n).
Proof. intros p Hinv _. unfold recover_at. psteps. split; [pafter | eauto]. Qed.
End Expect.
#[export] Hint Resolve sync_error_spec recover_at_spec : pspec.

Ltac pexpect ::=
  eapply pwp_expect;
  [ eassumption | eassumption | try discriminate
  | let p := fresh "p" in let H := fresh "Hafter" in intros p H; learn_after H; intros; psimp
  | let n := fresh "n" in let p := fresh "p" in let H := fresh "Hafter" in
    intros n p H; learn_after H; intros; psimp ].
Ltac prequire ::=
  eapply pwp_require;
  [ eassumption | eassumption | try discriminate
  | let p := fresh "p" in let H := fresh "Hafter" in intros p H; learn_after H; intros; psimp
  | let n := fresh "n" in let p := fresh "p" in let H := fresh "Hafter" in
    intros n p H; learn_after H; intros; psimp ].
