(* ===== verification/ParserRules.v ===== *)
(** The contract of the grammar's functions, and the tactics of its proofs.

    A function that parses a node of some sort [f] [yields] it: when no diagnostic was reported
    meanwhile, the node is well formed and of that sort.  [good n g] is the contract of the
    calls that close a cycle, for a parser with less than [n] characters left. *)
From S2P Require Import Prelude Token Types Source Lexer Literal Ast ParserState ParserExpr ParserDecl ParserTree ParserSpec.

Section Contract.
Context (garbage : Garbage) (src : list ascii) (fid : Z).

Abbreviation wf := (well_formed garbage (in_file src fid)).

Definition sorted (f : Node -> bool) (n : Node) : Prop := wf n /\ f n = true.

Definition yields (f : Node -> bool) (p : Parser) (n : Node) (p' : Parser) : Prop :=
  errors p' = errors p -> sorted f n.

(** The same, for a function that completes a node it is given: [given] is what the node has
    to satisfy. *)
Definition yields_from (given : Prop) (f : Node -> bool) (p : Parser) (n : Node) (p' : Parser)
    : Prop := errors p' = errors p -> given -> sorted f n.

Definition yields_option (f : Node -> bool) (p : Parser) (o : option Node) (p' : Parser) : Prop :=
  errors p' = errors p -> match o with Some n => sorted f n | None => True end.

Definition yields_list (f : Node -> bool) (p : Parser) (ns : list Node) (p' : Parser) : Prop :=
  errors p' = errors p -> Forall (sorted f) ns.

(** The contract of [g] for less than [n] characters.  The functions that are called behind
    their keyword get one less. *)
Record good (n : nat) (g : Grammar) : Prop := {
  good_type : Spec src fid (g_type g) (within n) (fun _ _ _ => True);
  good_assignment : Spec src fid (g_assignment g) (within n) (yields is_expression);
  good_binary k : Spec src fid (g_binary g (S k)) (within n) (yields is_expression);
  good_unary : Spec src fid (g_unary g) (within n) (yields is_expression);
  good_if_expression : Spec src fid (g_if_expression g)
    (fun p => within (pred n) p /\ token_in src fid (p_previous p)) (yields is_expression);
  good_block : Spec src fid (g_block g) (within n) (yields is_block);
  good_statement : Spec src fid (g_statement g) (within n) (fun p s p' =>
    yields is_statement p s p'
    /\ (type (p_current p) <> TOK_EOF -> (remaining p' < remaining p)%nat));
  good_if_statement : Spec src fid (g_if_statement g)
    (fun p => within (pred n) p /\ token_in src fid (p_previous p)) (yields is_if);
  good_compile_if keyword : Spec src fid (g_compile_if_after_keyword g keyword)
    (fun p => within (pred n) p /\ token_in src fid keyword) (yields is_if);
  good_attribute_decl : Spec src fid (g_attribute_decl g) (within n) (fun p s p' =>
    yields is_statement p s p'
    /\ (type (p_current p) = TOK_HASH ->
        token_in src fid (p_previous p') /\ (remaining p' < remaining p)%nat));
}.

Lemma wf_span n : wf n -> in_file src fid (span_of n).
Proof. by destruct 1. Qed.

Lemma sorted_span f n : sorted f n -> in_file src fid (span_of n).
Proof. intros [? _]. by apply wf_span. Qed.

Lemma wf_node a s e :
  node_shape garbage (in_file src fid) a -> in_file src fid s -> Forall wf (parsed_children a) ->
  wf (mkNode a s e).
Proof. by constructor. Qed.

Lemma sorted_wf f ns : Forall (sorted f) ns -> Forall wf ns.
Proof. intros H. eapply Forall_impl; [exact H|]. by intros n [? _]. Qed.

Lemma sorted_forallb f ns : Forall (sorted f) ns -> forallb f ns = true.
Proof. induction 1 as [|n ns [_ H] _ IH]; simpl; [done | by rewrite H, IH]. Qed.

Lemma statement_not_error n : sorted is_statement n -> is_error n = false.
Proof. intros [_ H]. by destruct n as [|[] ? ?]. Qed.

Lemma sorted_mono f f' n : (f n = true -> f' n = true) -> sorted f n -> sorted f' n.
Proof. intros H [? ?]. split; auto. Qed.
End Contract.

#[export] Hint Resolve good_type good_assignment good_binary good_unary good_if_expression
  good_block good_statement good_if_statement good_compile_if good_attribute_decl : pspec.
#[export] Hint Resolve wf_span sorted_span : pfile.

(** Leaving a function: what its contract says of the result. *)
Ltac split_sorted :=
  repeat match goal with
  | H : sorted _ _ _ _ _ |- _ => destruct H
  | H : Is_true _ |- _ => apply Is_true_true in H
  end.

(** What is known of the nodes at hand, besides their sorts. *)
Ltac split_sorted_copy :=
  repeat match goal with
  | H : sorted _ _ _ _ ?n |- _ => destruct H
  end.

(** A child of a sort that includes the one it was parsed as. *)
Ltac psort :=
  first [ done
        | assumption
        | match goal with
          | H : ?f ?n = true |- ?f' ?n = true => by destruct n as [|[] ? ?]
          end ].

Ltac pchildren :=
  cbn [parsed_children children optional app map fst snd];
  repeat match goal with
  | |- Forall _ [] => apply Forall_nil; exact I
  | |- Forall _ (_ :: _) => apply Forall_cons; split
  | |- Forall _ (_ ++ _) => apply Forall_app; split
  | H : Forall (sorted _ _ _ _) ?ns |- Forall _ ?ns => exact (sorted_wf _ _ _ _ _ H)
  end; try assumption.

Ltac unfold_yields :=
  unfold yields, yields_from, yields_option, yields_list in *.

(** Booleans about the children of a node, by their sorts, and a node from its parts. *)
Ltac pshape :=
  repeat (rewrite ?andb_True, ?andb_true_iff; split_and!);
  rewrite ?Is_true_true;
  lazymatch goal with
  | |- forallb _ [] = true => reflexivity
  | |- forallb ?f ?ns = true =>
      match goal with
      | H : well_formed ?garbage (in_file ?src ?fid) _ |- _ =>
          apply (sorted_forallb garbage src fid)
      | H : Forall (sorted ?garbage ?src ?fid _) _ |- _ =>
          apply (sorted_forallb garbage src fid)
      end;
      forall_cons; first [assumption | split; [pwf | psort]]
  | |- _ = true =>
      repeat match goal with
      | H : ?f ?n = true |- context [?f ?n] => rewrite H
      end; rewrite ?orb_true_r; psort
  | |- _ => first [done | lia | idtac]
  end
with pwf :=
  lazymatch goal with
  | |- well_formed _ _ (mkNode _ _ _) =>
      apply wf_node; [cbn [node_shape if_any]; pshape | cbn [span_of default from_option id]; ppre | pchildren; pwf]
  | |- _ => try assumption
  end.

Ltac pnode :=
  autounfold with ast_new in *; unfold new_node in *; split_sorted;
  (split; [pwf | try psort]).

Ltac pclean :=
  unfold_yields; intros;
  first [exfalso; lia | use_clean];
  repeat match goal with
  | H : sorted _ _ _ _ ?n -> _, H' : sorted _ _ _ _ ?n |- _ => specialize (H H')
  | H : in_file ?src ?fid ?s -> _ |- _ =>
      let H' := fresh in
      assert (H' : in_file src fid s) by
        (split_sorted_copy; ppre);
      specialize (H H'); clear H'
  end; psimp.

Ltac pyield :=
  first [ solve [pclean]
        | lazymatch goal with
          | |- yields_list _ _ _ _ _ _ _ =>
              pclean; forall_cons; solve [assumption | pnode]
          | |- _ => solve [pclean; pnode]
          end ].

Ltac pleaf :=
  cbv beta iota;
  lazymatch goal with
  | |- _ /\ _ => split; pleaf
  | |- after _ _ _ _ => pafter
  | |- or_error _ _ _ _ => unfold or_error; pleaf
  | |- errors _ = errors _ -> _ => 
      unfold_yields; intros; first [exfalso; lia | use_clean; first [pleaf | forall_cons; pleaf]]
  | |- _ => first [done | lia | solve [ppre] | pyield]
  end.
Ltac pdone := split; [pafter | pleaf].

(** A loop with the invariant [I]: the goals left are the first iteration and the body. *)
Ltac ploop I :=
  lazymatch goal with
  | Hinv : inv ?src ?fid ?p |- pwp (loop _ _) _ ?p =>
      eapply (pwp_loop src fid I);
      [ exact Hinv | try pleaf
      | let a := fresh "a" in let p1 := fresh "p" in let H1 := fresh "Hafter" in
        let HI := fresh "HI" in
        intros a p1 H1 HI; learn_after H1; cbv beta iota in HI; psimp ]
  end.

(** The steps up to the next loop, and what follows a loop. *)
Ltac prun :=
  psteps; try pdone; try (split; [pafter|]; progress psteps; try pdone).
