(* ===== verification/ParserExprSpec.v ===== *)
(** The types and expressions of ParserExpr.v keep the contract of ParserRules.v. *)
From S2P Require Import Prelude Token Types Source Lexer Literal Ast ParserState ParserExpr ParserDecl ParserTree ParserSpec ParserRules.

Section Lexical.
Context (src : list ascii) (fid : Z) (Hsrc : buffer_ok src).

Lemma parse_adjacent_string_literals_spec :
  Spec src fid parse_adjacent_string_literals (fun p => token_in src fid (p_previous p))
    (fun p l p' => in_file src fid (literal_span l)).
Proof.
  intros p Hinv Hprev. unfold parse_adjacent_string_literals. psteps.
  eapply (pwp_loop src fid (fun '(last, _) _ => token_in src fid last)); [done..|].
  intros [last len] p1 H1 Hlast. learn_after H1. psteps.
  - split; [pafter|]. split; [ppre | lia].
  - split; [pafter|]. psteps; (split; [pafter | ppre]).
Qed.

Lemma parse_dotted_name_from_first_spec first :
  Spec src fid (parse_dotted_name_from_first first) (fun _ => token_in src fid first)
    (fun _ d _ => in_file src fid (dn_span d)).
Proof.
  intros p Hinv Hfirst. unfold parse_dotted_name_from_first. psteps.
  eapply (pwp_loop src fid (fun '(_, _, _, last) _ => token_in src fid last)); [done..|].
  intros [[[full leaf] count] last] p1 H1 Hlast. learn_after H1. psteps.
  all: split; [pafter|]; try (split; [done | lia]).
  all: psteps; (split; [pafter|]); cbn [dn_span]; ppre.
Qed.

Lemma parse_float_token_spec t :
  Spec src fid (parse_float_token t) (fun _ => True) (fun _ _ _ => True).
Proof. intros p Hinv _. unfold parse_float_token. psteps; (split; [pafter | done]). Qed.

Lemma parse_c_calling_convention_token_spec t :
  Spec src fid (parse_c_calling_convention_token t) (fun _ => token_in src fid t)
    (fun p r p' => p_previous p' = p_previous p
       /\ match r with Some _ => True | None => (errors p < errors p')%nat end).
Proof.
  intros p Hinv Ht. unfold parse_c_calling_convention_token.
  induction calling_conventions as [|[name conv] table IH]; cbn [find_convention].
  - psteps. split; [pafter | done].
  - psteps; [|exact IH]. split; [pafter | done].
Qed.

Lemma parse_qualifiers_spec :
  Spec src fid parse_qualifiers (fun _ => True) (fun _ q _ =>
    (forall t, readonly_token q = Some t -> token_in src fid t)
    /\ (forall t, volatile_token q = Some t -> token_in src fid t)).
Proof.
  intros p Hinv _. unfold parse_qualifiers.
  eapply (pwp_loop src fid (fun q _ =>
    (forall t, readonly_token q = Some t -> token_in src fid t)
    /\ (forall t, volatile_token q = Some t -> token_in src fid t))); [done..|].
  intros q p1 H1 [Hr Hv]. learn_after H1.
  psteps; (split; [pafter|]); try (split; [|lia]); split_and!; cbn; try done;
    try (intros ? [= <-]; assumption); try pafter.
Qed.

Lemma error_at_qualifier_spec o msg :
  Spec src fid (error_at_qualifier o msg)
    (fun _ => forall t, o = Some t -> token_in src fid t)
    (fun p _ p' => p_current p' = p_current p).
Proof.
  intros p Hinv Ho. unfold error_at_qualifier. destruct o as [t|].
  - specialize (Ho t eq_refl). psteps. split; [pafter | done].
  - psteps. split; [pafter | done].
Qed.
End Lexical.
#[export] Hint Resolve parse_adjacent_string_literals_spec parse_dotted_name_from_first_spec
  parse_float_token_spec parse_c_calling_convention_token_spec parse_qualifiers_spec
  error_at_qualifier_spec : pspec.

Section Types.
Context (garbage : Garbage) (src : list ascii) (fid : Z) (Hsrc : buffer_ok src).
Context (n : nat) (g : Grammar) (Hg : good garbage src fid n g).

Lemma parse_function_type_parameters_spec :
  Spec src fid (parse_function_type_parameters g) (within n) (fun _ _ _ => True).
Proof.
  intros p Hinv Hn. unfold parse_function_type_parameters.
  ploop (fun (_ : list SourceType) (_ : Parser) => True); psteps; pdone.
Qed.

Lemma parse_function_type_convention_spec :
  Spec src fid parse_function_type_convention (fun _ => True) (fun _ _ _ => True).
Proof.
  intros p Hinv _. unfold parse_function_type_convention.
  psteps; (split; [pafter | done]).
Qed.

Lemma parse_explicit_type_arguments_spec subject :
  Spec src fid (parse_explicit_type_arguments g subject) (within n)
    (fun p r p' => match r with Some _ => True | None => (errors p < errors p')%nat end).
Proof.
  intros p Hinv Hn. unfold parse_explicit_type_arguments. psteps; try pdone.
  ploop (fun (_ : list SourceType) (_ : Parser) => True); psteps; try pdone.
  all: split; [pafter|]; psteps; pdone.
Qed.

End Types.
#[export] Hint Resolve parse_function_type_parameters_spec parse_function_type_convention_spec
  parse_explicit_type_arguments_spec : pspec.

Section MoreTypes.
Context (garbage : Garbage) (src : list ascii) (fid : Z) (Hsrc : buffer_ok src).
Context (n : nat) (g : Grammar) (Hg : good garbage src fid n g).

Lemma parse_function_type_spec :
  Spec src fid (parse_function_type g) (within n) (fun _ _ _ => True).
Proof. intros p Hinv Hn. unfold parse_function_type. psteps; pdone. Qed.

Lemma parse_named_type_spec :
  Spec src fid (parse_named_type g)
    (fun p => within n p /\ token_in src fid (p_previous p)) (fun _ _ _ => True).
Proof. intros p Hinv [Hn Hprev]. unfold parse_named_type. psteps; pdone. Qed.
#[local] Hint Resolve parse_function_type_spec parse_named_type_spec : pspec.

Lemma parse_base_type_spec q :
  Spec src fid (parse_base_type g q) (within (S n)) (fun _ _ _ => True).
Proof. intros p Hinv Hn. unfold parse_base_type. psteps; pdone. Qed.

Lemma parse_pointers_spec q base layers :
  Spec src fid (parse_pointers q base layers) (fun _ => True) (fun _ _ _ => True).
Proof.
  intros p Hinv _. unfold parse_pointers.
  ploop (fun (_ : SourceType * nat) (_ : Parser) => True). psteps; pdone.
Qed.

Lemma parse_array_size_spec :
  Spec src fid parse_array_size (fun _ => True) (fun _ _ _ => True).
Proof. intros p Hinv _. unfold parse_array_size. psteps; pdone. Qed.
#[local] Hint Resolve parse_base_type_spec parse_pointers_spec parse_array_size_spec : pspec.

Lemma parse_brackets_spec q base layers :
  Spec src fid (parse_brackets q base layers)
    (fun _ => forall t, volatile_token q = Some t -> token_in src fid t) (fun _ _ _ => True).
Proof. intros p Hinv Hq. unfold parse_brackets. psteps; pdone. Qed.
#[local] Hint Resolve parse_brackets_spec : pspec.

Lemma parse_type_spec :
  Spec src fid (parse_type g) (within (S n)) (fun _ _ _ => True).
Proof. intros p Hinv Hn. unfold parse_type. psteps; pdone. Qed.
End MoreTypes.
#[export] Hint Resolve parse_type_spec : pspec.

Section Operands.
Context (garbage : Garbage) (src : list ascii) (fid : Z) (Hsrc : buffer_ok src).
Context (n : nat) (g : Grammar) (Hg : good garbage src fid n g).
Abbreviation sorted := (sorted garbage src fid).
Abbreviation yields := (yields garbage src fid).
Abbreviation yields_from := (yields_from garbage src fid).
Abbreviation yields_list := (yields_list garbage src fid).

Lemma make_inc_dec_spec expr op is_prefix sp :
  Spec src fid (make_inc_dec expr op is_prefix sp)
    (fun p => token_in src fid (p_previous p) /\ is_increment_operator op = true
              /\ in_file src fid sp)
    (yields_from (sorted is_expression expr) is_expression).
Proof. intros p Hinv (Hprev & Hop & Hsp). unfold make_inc_dec. psteps; pdone. Qed.

Lemma parse_type_layout_query_spec :
  Spec src fid (parse_type_layout_query g)
    (fun p => within (S n) p /\ (type (p_current p) = TOK_SIZE_OF \/ type (p_current p) = TOK_ALIGN_OF))
    (yields is_expression).
Proof.
  intros p Hinv [Hn Hty]. unfold parse_type_layout_query. psteps; try pdone.
  destruct Hty as [-> | ->]; by rewrite ?orb_true_r.
Qed.

Lemma parse_if_expression_spec :
  Spec src fid (parse_if_expression g)
    (fun p => within n p /\ token_in src fid (p_previous p)) (yields is_expression).
Proof. intros p Hinv [Hn Hprev]. unfold parse_if_expression. psteps; pdone. Qed.

Lemma parse_conversion_expression_spec :
  Spec src fid (parse_conversion_expression g)
    (fun p => within (S n) p /\ cast_kind_of (type (p_current p)) <> None) (yields is_expression).
Proof.
  intros p Hinv [Hn Hty]. unfold parse_conversion_expression.
  assert (type (p_current p) <> TOK_EOF) by (intros He; by rewrite He in Hty).
  psteps; try pdone. done.
Qed.

Lemma parse_zero_array_initializer_spec :
  Spec src fid parse_zero_array_initializer
    (fun p => token_in src fid (p_previous p)) (yields is_expression).
Proof. intros p Hinv Hprev. unfold parse_zero_array_initializer. psteps; pdone. Qed.

Lemma parse_array_literal_spec :
  Spec src fid (parse_array_literal g)
    (fun p => within n p /\ token_in src fid (p_previous p)) (yields is_expression).
Proof.
  intros p Hinv [Hn Hprev]. unfold parse_array_literal. prun.
  ploop (yields_list is_expression p); prun.
Qed.

Lemma parse_struct_init_fields_spec :
  Spec src fid (parse_struct_init_fields g) (within n) (or_error (yields_list is_field_init)).
Proof.
  intros p Hinv Hn. unfold parse_struct_init_fields, or_error.
  ploop (yields_list is_field_init p). prun.
Qed.
#[local] Hint Resolve make_inc_dec_spec parse_type_layout_query_spec parse_if_expression_spec
  parse_conversion_expression_spec parse_zero_array_initializer_spec parse_array_literal_spec
  parse_struct_init_fields_spec : pspec.

Lemma finish_struct_init_named_spec m x ts sp :
  Spec src fid (finish_struct_init_named g m x ts sp)
    (fun p => within (S n) p /\ type (p_current p) = TOK_LBRACE)
    (yields_from (in_file src fid sp) is_expression).
Proof.
  intros p Hinv (Hn & Hty). unfold finish_struct_init_named. prun.
Qed.
#[local] Hint Resolve finish_struct_init_named_spec : pspec.

Lemma finish_struct_init_spec t :
  Spec src fid (finish_struct_init g t)
    (fun p => within (S n) p /\ type (p_current p) = TOK_LBRACE /\ token_in src fid t)
    (yields is_expression).
Proof. intros p Hinv (Hn & Hty & Ht). unfold finish_struct_init. psteps. pdone. Qed.

Lemma finish_call_spec callee ts :
  Spec src fid (finish_call g callee ts) (within n)
    (yields_from (sorted is_expression callee) is_expression).
Proof.
  intros p Hinv Hn. unfold finish_call. psteps; try pdone.
  ploop (yields_list is_argument p); unfold next_argument; prun.
Qed.

Lemma finish_field_spec object :
  Spec src fid (finish_field object) (fun _ => True)
    (yields_from (sorted is_expression object) is_expression).
Proof. intros p Hinv _. unfold finish_field. psteps; pdone. Qed.

Lemma finish_index_spec object :
  Spec src fid (finish_index g object) (within n)
    (yields_from (sorted is_expression object) is_expression).
Proof. intros p Hinv Hn. unfold finish_index. psteps; pdone. Qed.
#[local] Hint Resolve finish_struct_init_spec finish_call_spec finish_field_spec finish_index_spec
  : pspec.

Lemma finish_generic_call_spec callee :
  Spec src fid (finish_generic_call g callee) (within n)
    (yields_from (sorted is_expression callee) is_expression).
Proof. intros p Hinv Hn. unfold finish_generic_call. psteps; pdone. Qed.

Lemma maybe_qualified_init_spec expr :
  Spec src fid (maybe_qualified_init g expr) (within n)
    (yields_from (sorted is_expression expr) is_expression).
Proof. intros p Hinv Hn. unfold maybe_qualified_init. psteps; pdone. Qed.
#[local] Hint Resolve finish_generic_call_spec maybe_qualified_init_spec : pspec.

Lemma parse_postfix_from_spec expr :
  Spec src fid (parse_postfix_from g expr) (within (S n))
    (yields_from (sorted is_expression expr) is_expression).
Proof.
  intros p Hinv Hn. unfold parse_postfix_from.
  ploop (yields_from (sorted is_expression expr) is_expression p); prun.
Qed.
#[local] Hint Resolve parse_postfix_from_spec : pspec.

Lemma number_node v sp : 0 <= v <= UINT64_MAX -> in_file src fid sp ->
  sorted is_expression (ast_new_integer v sp).
Proof. intros Hv Hsp. split; [|done]. by apply wf_node; [|ppre|constructor]. Qed.

Lemma parse_integer_spec :
  Spec src fid parse_integer (fun p => token_in src fid (p_previous p)) (yields is_expression).
Proof.
  intros p Hinv Hprev. unfold parse_integer. psteps; try pdone.
  split; [pafter|]. intros _. apply number_node; [|ppre].
  by apply (parse_integer_u64_range x).
Qed.

Lemma parse_float_spec :
  Spec src fid parse_float (fun p => token_in src fid (p_previous p)) (yields is_expression).
Proof. intros p Hinv Hprev. unfold parse_float. psteps; pdone. Qed.

Lemma parse_string_spec :
  Spec src fid parse_string (fun p => token_in src fid (p_previous p)) (yields is_expression).
Proof. intros p Hinv Hprev. unfold parse_string. psteps; pdone. Qed.

Lemma parse_char_spec :
  Spec src fid parse_char (fun p => token_in src fid (p_previous p)) (yields is_expression).
Proof. intros p Hinv Hprev. unfold parse_char. psteps; pdone. Qed.

Lemma parse_name_spec :
  Spec src fid (parse_name g) (fun p => within n p /\ token_in src fid (p_previous p))
    (yields is_expression).
Proof. intros p Hinv [Hn Hprev]. unfold parse_name, literal_node. psteps; pdone. Qed.

Lemma parse_parenthesized_spec :
  Spec src fid (parse_parenthesized g) (within n) (yields is_expression).
Proof. intros p Hinv Hn. unfold parse_parenthesized. psteps; pdone. Qed.
#[local] Hint Resolve parse_integer_spec parse_float_spec parse_string_spec parse_char_spec
  parse_name_spec parse_parenthesized_spec : pspec.

Lemma parse_primary_spec :
  Spec src fid (parse_primary g) (within (S n)) (yields is_expression).
Proof.
  intros p Hinv Hn. unfold parse_primary, constant_node. psteps; try pdone.
  all: first [by rewrite Heqt | by left | by right].
Qed.
#[local] Hint Resolve parse_primary_spec : pspec.

Lemma parse_postfix_spec :
  Spec src fid (parse_postfix g) (within (S n)) (yields is_expression).
Proof. intros p Hinv Hn. unfold parse_postfix. psteps; pdone. Qed.
#[local] Hint Resolve parse_postfix_spec : pspec.

Lemma parse_unary_spec :
  Spec src fid (parse_unary g) (within (S n)) (yields is_expression).
Proof.
  intros p Hinv Hn. unfold parse_unary. apply pwp_bind, pwp_get.
  destruct (is_prefix_operator (type (p_current p))) eqn:Hop; [|psteps; pdone].
  assert (type (p_current p) <> TOK_EOF) by (intros He; by rewrite He in Hop).
  psteps; try pdone; try (match goal with H : type _ = _ |- _ => by rewrite H end).
  assert (is_unary_operator (type (p_current p)) = true)
    by (clear - Hop n0 n1; destruct (type (p_current p)); done || congruence).
  pdone.
Qed.
#[local] Hint Resolve parse_unary_spec : pspec.

Lemma parse_binary_from_spec l k :
  Spec src fid (parse_binary_from g l (S k)) (within (S n))
    (yields_from (sorted is_expression l) is_expression).
Proof.
  intros p Hinv Hn. unfold parse_binary_from.
  ploop (yields_from (sorted is_expression l) is_expression p).
  apply pwp_bind, pwp_get. destruct (Nat.ltb_spec (get_precedence (type (p_current p0))) (S k));
    [prun|].
  assert (type (p_current p0) <> TOK_EOF) by (intros He; rewrite He in *; cbn in *; unfold PREC_NONE in *; lia).
  assert (0 <? get_precedence (type (p_current p0)) = true)%nat by (apply Nat.ltb_lt; lia).
  prun.
Qed.
#[local] Hint Resolve parse_binary_from_spec : pspec.

Lemma parse_binary_spec k :
  Spec src fid (parse_binary g (S k)) (within (S n)) (yields is_expression).
Proof. intros p Hinv Hn. unfold parse_binary. psteps; pdone. Qed.
#[local] Hint Resolve parse_binary_spec : pspec.

Lemma parse_assignment_from_spec l :
  Spec src fid (parse_assignment_from g l) (within (S n))
    (yields_from (sorted is_expression l) is_expression).
Proof.
  intros p Hinv Hn. unfold parse_assignment_from. apply pwp_bind, pwp_get.
  destruct (is_assignment_operator (type (p_current p))) eqn:Hop; cbn [negb]; [|psteps; pdone].
  assert (type (p_current p) <> TOK_EOF) by (intros He; by rewrite He in Hop).
  destruct (bool_decide_reflect (type (p_current p) = TOK_EQUAL)) as [He|He]; [psteps; pdone|].
  assert (is_compound_operator (type (p_current p)) = true)
    by (unfold is_compound_operator; rewrite Hop; by rewrite bool_decide_eq_false_2).
  psteps; pdone.
Qed.
#[local] Hint Resolve parse_assignment_from_spec : pspec.

Lemma parse_assignment_spec :
  Spec src fid (parse_assignment g) (within (S n)) (yields is_expression).
Proof. intros p Hinv Hn. unfold parse_assignment, PREC_LOGICAL_OR. psteps; pdone. Qed.
End Operands.
#[export] Hint Resolve parse_if_expression_spec finish_struct_init_spec finish_generic_call_spec
  parse_postfix_from_spec parse_unary_spec parse_binary_from_spec parse_binary_spec
  parse_assignment_from_spec parse_assignment_spec : pspec.
