(* ===== verification/ParserDeclSpec.v ===== *)
(** The declarations of ParserDecl.v keep the contract of ParserRules.v. *)
From S2P Require Import Prelude Token Types Source Lexer Literal Ast ParserState ParserExpr ParserDecl ParserTree ParserSpec ParserRules ParserExprSpec.

Section Declarations.
Context (garbage : Garbage) (src : list ascii) (fid : Z) (Hsrc : buffer_ok src).
Context (n : nat) (g : Grammar) (Hg : good garbage src fid n g).
Abbreviation sorted := (sorted garbage src fid).
Abbreviation yields := (yields garbage src fid).
Abbreviation yields_from := (yields_from garbage src fid).
Abbreviation yields_list := (yields_list garbage src fid).
Abbreviation yields_option := (yields_option garbage src fid).

(** ** Variables and constants *)

Lemma parse_group_names_spec first :
  Spec src fid (parse_group_names first) (fun _ => token_in src fid first)
    (or_error (fun p names p' => exists rest, names = first :: rest
       /\ Forall (token_in src fid) rest
       /\ (type (p_current p) = TOK_COMMA -> errors p' = errors p -> rest <> []))).
Proof.
  intros p Hinv Hfirst. unfold parse_group_names, or_error.
  ploop (fun names p' => exists rest, names = first :: rest /\ Forall (token_in src fid) rest
    /\ (type (p_current p) = TOK_COMMA -> p' = p \/ rest <> [])).
  { exists []. split_and!; [done..|]. intros _. by left. }
  psteps; try pdone.
  - split; [pafter|]. split; [|lia]. exists (x ++ [p_current p1]). subst a.
    split; [done|]. split; [apply Forall_app; split; [done|]; apply Forall_singleton; ppre|].
    intros _. right. by destruct x.
  - split; [pafter|]. split; [pafter|]. exists x. split_and!; [done..|]. intros Hc _.
    destruct (H1 Hc) as [->|]; done.
Qed.

Definition group_decl (type : SourceType) (initializer : option Node) (d : Node) : Prop :=
  exists x s e, d = mkNode (NODE_VAR_DECL (Some type) x initializer) s e /\ in_file src fid s.

Lemma group_declarations_spec type initializer names :
  Spec src fid (group_declarations garbage type initializer names)
    (fun _ => Forall (token_in src fid) names)
    (fun p ds p' => p' = p /\ length ds = length names
                    /\ Forall (group_decl type initializer) ds).
Proof.
  intros p Hinv Hnames. revert p Hinv. induction Hnames as [|t names Ht _ IH]; intros p Hinv;
    cbn [group_declarations]; psteps; [pdone|].
  eapply pwp_mono; [by apply IH|]. cbv beta. intros ds p' (Hafter & -> & Hlen & Hds).
  psteps. split; [pafter|]. split_and!; [done | cbn; lia|].
  constructor; [|done]. eexists _, _, _. split; [done | ppre].
Qed.

Lemma optional_initializer_spec :
  Spec src fid (optional_initializer g) (within (S n)) (yields_option is_expression).
Proof. intros p Hinv Hn. unfold optional_initializer. psteps; pdone. Qed.
#[local] Hint Resolve parse_group_names_spec group_declarations_spec optional_initializer_spec
  : pspec.

Lemma group_node type initializer first rest sp :
  group_decl type initializer first ->
  Forall (group_decl type (cloned_initializer garbage initializer)) rest -> rest <> [] ->
  match initializer with Some i => sorted is_expression i | None => True end ->
  in_file src fid sp ->
  sorted is_statement (new_node (NODE_VAR_DECL_GROUP (first :: rest)) sp).
Proof.
  intros (x & s & e & -> & Hs) Hrest Hne Hinit Hsp. split; [|done]. apply wf_node; [|done|].
  - exists type, x, initializer, s, e, rest. split_and!; [done..|].
    eapply Forall_impl; [exact Hrest|]. intros d (x' & s' & e' & -> & ?). by eexists _, _, _.
  - apply Forall_singleton, wf_node; [|done|].
    + destruct initializer as [i|]; [|done]. destruct Hinit as [_ Hi]. cbn. by rewrite Hi.
    + destruct initializer as [i|]; [|by constructor]. apply Forall_singleton, Hinit.
Qed.

Lemma finish_grouped_typed_var_decl_spec first :
  Spec src fid (finish_grouped_typed_var_decl g garbage first)
    (fun p => within n p /\ token_in src fid first /\ type (p_current p) = TOK_COMMA)
    (yields is_statement).
Proof.
  intros p Hinv (Hn & Hfirst & Hty). unfold finish_grouped_typed_var_decl. psteps; try pdone.
  1, 2: subst; cbn; auto.
  split; [pafter|]. pclean. subst l.
  destruct r1 as [|d [|? ?]]; [done| |done]. apply group_node with r r0; try ppre.
  - by apply Forall_singleton.
  - destruct x, r2; done.
Qed.

Lemma const_decl_spec type name :
  Spec src fid (const_decl g type name)
    (fun p => within n p /\ token_in src fid name) (yields is_statement).
Proof. intros p Hinv [Hn Hname]. unfold const_decl. psteps; pdone. Qed.
#[local] Hint Resolve const_decl_spec : pspec.

Lemma finish_typed_decl_spec name :
  Spec src fid (finish_typed_decl g name)
    (fun p => within n p /\ token_in src fid name) (yields is_statement).
Proof.
  intros p Hinv [Hn Hname]. unfold finish_typed_decl. psteps; try pdone.
  split; [pafter|]. pclean. destruct r0; pnode.
Qed.

Lemma finish_inferred_const_decl_spec name :
  Spec src fid (finish_inferred_const_decl g name)
    (fun p => within n p /\ token_in src fid name) (yields is_statement).
Proof. apply const_decl_spec. Qed.

Lemma finish_inferred_var_decl_spec name :
  Spec src fid (finish_inferred_var_decl g name)
    (fun p => within n p /\ token_in src fid name) (yields is_statement).
Proof. intros p Hinv [Hn Hname]. unfold finish_inferred_var_decl. psteps; pdone. Qed.

(** ** Functions *)

Lemma parse_parameter_names_spec :
  Spec src fid parse_parameter_names (fun _ => True) (fun p r p' =>
    match r with
    | Some names => Forall (token_in src fid) names /\ (0 < length names)%nat
                    /\ (remaining p' < remaining p)%nat
    | None => (errors p < errors p')%nat
    end).
Proof.
  intros p Hinv _. unfold parse_parameter_names. psteps; try pdone.
  ploop (fun names p1 => Forall (token_in src fid) names /\ (0 < length names)%nat
    /\ (remaining p1 < remaining p)%nat).
  { split_and!; [apply Forall_singleton; ppre | cbn; lia | lia]. }
  psteps; try pdone.
  all: split; [pafter|]; rewrite ?length_app; cbn [length];
    split_and!; first [apply Forall_app; split; [done | apply Forall_singleton; ppre] | lia | pafter].
Qed.

Lemma parameter_nodes_spec type is_pack names :
  Spec src fid (parameter_nodes type is_pack names) (fun _ => Forall (token_in src fid) names)
    (fun p ps p' => p' = p /\ length ps = length names /\ Forall (sorted is_param) ps).
Proof.
  intros p Hinv Hnames. revert p Hinv. induction Hnames as [|t names Ht _ IH]; intros p Hinv;
    cbn [parameter_nodes]; psteps; [split; [pafter | split_and!; [done..|by constructor]]|].
  eapply pwp_mono; [by apply IH|]. cbv beta. intros ps p' (Hafter & -> & Hlen & Hps).
  psteps. split; [pafter|]. split_and!; [done | cbn; lia|].
  constructor; [|done]. split; [|done]. apply wf_node; [done | ppre | by constructor].
Qed.
#[local] Hint Resolve finish_typed_decl_spec finish_inferred_const_decl_spec
  finish_inferred_var_decl_spec parse_parameter_names_spec parameter_nodes_spec : pspec.

Lemma parse_parameter_group_spec :
  Spec src fid (parse_parameter_group g) (within (S n)) (fun p r p' =>
    match r with
    | Some ps => (errors p' = errors p -> Forall (sorted is_param) ps /\ (0 < length ps)%nat)
                 /\ (remaining p' < remaining p)%nat
    | None => (errors p < errors p')%nat
    end).
Proof.
  intros p Hinv Hn. unfold parse_parameter_group. psteps; pdone.
Qed.
#[local] Hint Resolve parse_parameter_group_spec : pspec.

Lemma parse_parameters_spec :
  Spec src fid (parse_parameters g) (within (S n)) (or_error (fun p r p' =>
    errors p' = errors p -> Forall (sorted is_param) r.1 /\ (r.2 = true -> (0 < length r.1)%nat))).
Proof.
  intros p Hinv Hn. unfold parse_parameters, or_error.
  ploop (yields_list is_param p); prun.
  all: split; [pafter|]; split; [pafter|]; unfold_yields; intros; use_clean; cbn;
    (split; [forall_cons; done | intros; done || lia]).
Qed.
#[local] Hint Resolve parse_parameters_spec : pspec.

(** A function declaration that has no body yet. *)
Definition signature (f : Node) : Prop :=
  exists info ps s e, f = mkNode (NODE_FUNC_DECL info ps None) s e
    /\ is_Some (func_return_type info) /\ func_linkage info = FUNCTION_LINKAGE_COGLET
    /\ (func_is_variadic info = true -> (0 < length ps)%nat)
    /\ Forall (sorted is_param) ps /\ in_file src fid s.

Lemma parse_function_signature_rest_spec name sp :
  Spec src fid (parse_function_signature_rest g name sp)
    (fun p => within (S n) p /\ in_file src fid sp)
    (fun p f p' => errors p' = errors p -> signature f).
Proof.
  intros p Hinv [Hn Hsp]. unfold parse_function_signature_rest. psteps; try pdone.
  all: split; [pafter|]; intros; use_clean; eexists _, _, _, _; split_and!; (done || eauto).
Qed.
#[local] Hint Resolve parse_function_signature_rest_spec : pspec.

Lemma signature_not_error f : signature f -> is_error f = false.
Proof. by intros (? & ? & ? & ? & -> & _). Qed.

Lemma signature_body f body : signature f -> sorted is_block body -> sorted is_func (with_body body f).
Proof.
  intros (info & ps & s & e & -> & Hret & Hlink & Hvar & Hps & Hs) [Hwf Hblock]. split; [|done].
  apply wf_node; [|done|]; cbn [node_shape parsed_children children optional].
  - rewrite Hblock, Hlink, (bool_decide_eq_true_2 _ Hret), (sorted_forallb _ _ _ _ _ Hps). simpl.
    destruct (func_is_variadic info); [|done]. simpl. rewrite andb_true_r.
    apply Is_true_true, Nat.ltb_lt. auto.
  - apply Forall_app. split; [exact (sorted_wf _ _ _ _ _ Hps) | by apply Forall_singleton].
Qed.

(** A change of a declaration that its shape does not depend on. *)
Definition neutral (h : FuncInfo -> FuncInfo) : Prop :=
  forall i, func_return_type (h i) = func_return_type i /\ func_linkage (h i) = func_linkage i
            /\ func_is_variadic (h i) = func_is_variadic i.

Lemma signature_update h f : neutral h -> signature f -> signature (update_func h f).
Proof.
  intros Hh (info & ps & s & e & -> & H). destruct (Hh info) as (H1 & H2 & H3).
  exists (h info), ps, s, e. by rewrite H1, H2, H3.
Qed.

Lemma sorted_update h f : neutral h -> sorted is_func f -> sorted is_func (update_func h f).
Proof.
  intros Hh [Hwf Hf]. destruct Hwf as [[] s e Hshape Hs Hc]; try discriminate Hf.
  split; [|done]. apply wf_node; [|done|exact Hc].
  destruct (Hh info) as (H1 & H2 & H3). cbn [node_shape] in *. by rewrite H1, H2, H3.
Qed.

Lemma neutral_type_parameters ps : neutral (set_type_parameters ps).
Proof. done. Qed.

Lemma is_func_statement f : sorted is_func f -> sorted is_statement f.
Proof. apply sorted_mono. by destruct f as [|[] ? ?]. Qed.

Lemma parse_function_body_spec func :
  Spec src fid (parse_function_body g func) (within n)
    (yields_from (signature func) is_func).
Proof.
  intros p Hinv Hn. unfold parse_function_body. psteps; try pdone.
  split; [pafter|]. pclean. by apply signature_body.
Qed.
#[local] Hint Resolve parse_function_body_spec : pspec.

Lemma parse_proc_decl_rest_spec name sp :
  Spec src fid (parse_proc_decl_rest g name sp)
    (fun p => within n p /\ in_file src fid sp) (yields is_func).
Proof.
  intros p Hinv [Hn Hsp]. unfold parse_proc_decl_rest. psteps.
  - split; [pafter|]. pclean. by rewrite signature_not_error in *.
  - split; [pafter|]. pclean. auto.
Qed.
#[local] Hint Resolve parse_proc_decl_rest_spec : pspec.

(** ** Generic parameters and structures *)

Lemma parse_generic_type_parameter_list_after_less_spec subject :
  Spec src fid (parse_generic_type_parameter_list_after_less subject)
    (fun p => token_in src fid (p_previous p))
    (fun p r p' => match r with Some _ => True | None => (errors p < errors p')%nat end).
Proof.
  intros p Hinv Hprev. unfold parse_generic_type_parameter_list_after_less. prun.
  ploop (fun (_ : list GenericTypeParameter) (_ : Parser) => True). prun.
Qed.

Lemma parse_struct_operator_block_spec operators :
  Spec src fid (parse_struct_operator_block operators) (fun _ => True)
    (fun p r p' => match r with Some _ => True | None => (errors p < errors p')%nat end).
Proof.
  intros p Hinv _. unfold parse_struct_operator_block. prun.
  ploop (fun (_ : list StructOperatorDecl) (_ : Parser) => True). prun.
  all: destruct r; psimp; pdone.
Qed.
#[local] Hint Resolve parse_generic_type_parameter_list_after_less_spec
  parse_struct_operator_block_spec : pspec.

Definition members_ok (m : Members) : Prop :=
  Forall (sorted is_struct_field) (m_fields m) /\ Forall (sorted is_func) (m_methods m).

Lemma parse_struct_method_spec member :
  Spec src fid (parse_struct_method g member)
    (fun p => within n p /\ token_in src fid member /\ token_in src fid (p_previous p))
    (or_error (yields is_func)).
Proof.
  intros p Hinv (Hn & Hm & Hprev). unfold parse_struct_method. psteps; try pdone.
  all: split; [pafter|]; unfold or_error; pclean; apply sorted_update; done.
Qed.
#[local] Hint Resolve parse_struct_method_spec : pspec.

Lemma add_field_ok n' m :
  sorted is_struct_field n' -> members_ok m -> members_ok (add_field n' m).
Proof. intros Hn [Hf Hm]. split; [|done]. apply Forall_app. auto. Qed.

Lemma add_method_ok n' m : sorted is_func n' -> members_ok m -> members_ok (add_method n' m).
Proof. intros Hn [Hf Hm]. split; [done|]. apply Forall_app. auto. Qed.

Lemma is_func_decl_sorted f : sorted is_statement f -> is_func_decl f = true -> sorted is_func f.
Proof. intros [Hwf _] H. split; [done|]. by destruct f as [|[] ? ?]. Qed.

Lemma error_reported (p p' : Parser) f :
  (errors p <= errors p')%nat -> yields is_statement p f p' -> is_error f = true ->
  (errors p < errors p')%nat.
Proof.
  intros Hle Hy He. destruct (decide (errors p' = errors p)) as [Heq|]; [|lia].
  by rewrite (statement_not_error _ _ _ _ (Hy Heq)) in He.
Qed.

Lemma parse_struct_member_spec m :
  Spec src fid (parse_struct_member g m)
    (fun p => within n p /\ type (p_current p) <> TOK_EOF)
    (fun p r p' => (remaining p' < remaining p)%nat /\
      or_error (fun p m' p' => errors p' = errors p -> members_ok m -> members_ok m') p r p').
Proof.
  intros p Hinv [Hn Hty]. unfold parse_struct_member, or_error. psteps; try pdone.
  all: split; [pafter|]; split; [lia|].
  1: by eapply error_reported.
  all: intros Herrors Hm; unfold_yields; use_clean;
    first [ apply add_field_ok; [|done]; pnode; fail
          | apply add_method_ok; [|done]; try done; by apply is_func_decl_sorted ].
Qed.
#[local] Hint Resolve parse_struct_member_spec : pspec.

Definition is_struct : Node -> bool :=
  node_is (fun a => match a with NODE_STRUCT_DECL _ _ _ => true | _ => false end).
Definition is_enum : Node -> bool :=
  node_is (fun a => match a with NODE_ENUM_DECL _ _ _ _ => true | _ => false end).

Lemma is_struct_statement f : sorted is_struct f -> sorted is_statement f.
Proof. apply sorted_mono. by destruct f as [|[] ? ?]. Qed.
Lemma is_enum_statement f : sorted is_enum f -> sorted is_statement f.
Proof. apply sorted_mono. by destruct f as [|[] ? ?]. Qed.

Lemma members_node info m s :
  members_ok m -> in_file src fid s ->
  (struct_is_incomplete_ info = true -> m_fields m = [] /\ m_methods m = []) ->
  sorted is_struct (new_node (NODE_STRUCT_DECL info (m_fields m) (m_methods m)) s).
Proof.
  intros [Hf Hm] Hs Hi. split; [|done]. apply wf_node; [|done|].
  - cbn [node_shape]. rewrite (sorted_forallb _ _ _ _ _ Hf), (sorted_forallb _ _ _ _ _ Hm). simpl.
    destruct (struct_is_incomplete_ info); [|done]. by destruct (Hi eq_refl) as [-> ->].
  - apply Forall_app. split; [exact (sorted_wf _ _ _ _ _ Hf) | exact (sorted_wf _ _ _ _ _ Hm)].
Qed.

Lemma parse_struct_decl_rest_spec name sp :
  Spec src fid (parse_struct_decl_rest g name sp)
    (fun p => within (S n) p /\ in_file src fid sp
       /\ (type (p_current p) = TOK_STRUCT \/ type (p_current p) = TOK_RESOURCE
           \/ type (p_current p) = TOK_UNION))
    (yields is_struct).
Proof.
  intros p Hinv (Hn & Hsp & Hty). unfold parse_struct_decl_rest.
  apply pwp_bind, pwp_check, pwp_bind, pwp_check.
  assert (Hkw : (if bool_decide (type (p_current p) = TOK_UNION) then TOK_UNION
                 else if bool_decide (type (p_current p) = TOK_RESOURCE) then TOK_RESOURCE
                 else TOK_STRUCT) = type (p_current p)) by (by destruct Hty as [->|[->| ->]]).
  rewrite Hkw. assert (Hne : type (p_current p) <> TOK_EOF) by (by destruct Hty as [->|[->| ->]]).
  clear Hkw Hty. psteps; try pdone.
  ploop (fun m p' => errors p' = errors p -> members_ok m). prun.
  all: split; [pafter|]; pclean; apply members_node; [auto | done | discriminate].
Qed.
#[local] Hint Resolve parse_struct_decl_rest_spec : pspec.

Lemma struct_type_parameters_ok ps f :
  sorted is_struct f -> sorted is_struct (update_struct (set_struct_type_parameters ps) f).
Proof.
  intros [Hwf Hf]. destruct Hwf as [[] s e Hshape Hs Hc]; try discriminate Hf.
  split; [|done]. by apply wf_node.
Qed.

Lemma parse_generic_decl_rest_spec name sp :
  Spec src fid (parse_generic_decl_rest g name sp)
    (fun p => within (S n) p /\ in_file src fid sp) (yields is_statement).
Proof.
  intros p Hinv [Hn Hsp]. unfold parse_generic_decl_rest. psteps; try pdone.
  all: split; [pafter|]; pclean.
  1, 2: by apply is_struct_statement, struct_type_parameters_ok.
  - by rewrite signature_not_error in *.
  - apply is_func_statement. auto using signature_update, neutral_type_parameters.
Qed.

(** ** Enumerations *)

Lemma parse_enum_member_spec :
  Spec src fid (parse_enum_member g) (within (S n)) (yields is_enum_member).
Proof. intros p Hinv Hn. unfold parse_enum_member. psteps; pdone. Qed.
#[local] Hint Resolve parse_enum_member_spec : pspec.

Lemma parse_enum_members_spec :
  Spec src fid (parse_enum_members g) (within (S n)) (yields_list is_enum_member).
Proof.
  intros p Hinv Hn. unfold parse_enum_members. ploop (yields_list is_enum_member p). prun.
Qed.
#[local] Hint Resolve parse_enum_members_spec : pspec.

Lemma parse_enum_decl_rest_spec name sp :
  Spec src fid (parse_enum_decl_rest g name sp)
    (fun p => within (S n) p /\ in_file src fid sp) (yields is_enum).
Proof. intros p Hinv [Hn Hsp]. unfold parse_enum_decl_rest. psteps; try pdone. Qed.

#[local] Hint Resolve parse_generic_decl_rest_spec parse_enum_decl_rest_spec : pspec.

Lemma parse_decl_after_name_spec name :
  Spec src fid (parse_decl_after_name g name)
    (fun p => within n p /\ token_in src fid name) (yields is_statement).
Proof.
  intros p Hinv [Hn Hname]. unfold parse_decl_after_name. psteps; try pdone.
  all: split; [pafter|]; pclean;
    auto using is_func_statement, is_struct_statement, is_enum_statement.
Qed.
End Declarations.
#[export] Hint Resolve parse_group_names_spec group_declarations_spec optional_initializer_spec
  finish_grouped_typed_var_decl_spec finish_typed_decl_spec finish_inferred_const_decl_spec
  finish_inferred_var_decl_spec parse_function_signature_rest_spec parse_proc_decl_rest_spec
  parse_struct_decl_rest_spec parse_enum_decl_rest_spec parse_decl_after_name_spec : pspec.
