(* ===== verification/ParserStmtSpec.v ===== *)
(** The attributes and statements of ParserStmt.v keep the contract of ParserRules.v. *)
From S2P Require Import Prelude Token Types Source Lexer Literal StringDecode Ast ParserState ParserExpr ParserDecl ParserStmt ParserTree ParserSpec ParserRules ParserExprSpec ParserDeclSpec.

Section Attributes.
Context (garbage : Garbage) (src : list ascii) (fid : Z) (Hsrc : buffer_ok src).
Context (n : nat) (g : Grammar) (Hg : good garbage src fid n g).
Abbreviation sorted := (sorted garbage src fid).
Abbreviation yields := (yields garbage src fid).
Abbreviation yields_from := (yields_from garbage src fid).
Abbreviation yields_list := (yields_list garbage src fid).
Abbreviation yields_option := (yields_option garbage src fid).

Lemma quoted_text_spec t : Spec src fid (quoted_text t) (fun _ => True) (fun p _ p' => p' = p).
Proof. intros p Hinv _. unfold quoted_text. psteps. pdone. Qed.
#[local] Hint Resolve quoted_text_spec : pspec.

Lemma decode_extern_name_spec t :
  Spec src fid (decode_extern_name t) (fun _ => token_in src fid t /\ type t = TOK_STRING)
    (fun p r p' => match r with Some _ => True | None => (errors p < errors p')%nat end).
Proof.
  intros p Hinv [Ht Hty]. unfold decode_extern_name. psteps; try pdone.
  by apply bool_decide_eq_true.
Qed.
#[local] Hint Resolve decode_extern_name_spec : pspec.

Lemma func_info_sorted d info :
  sorted is_statement d -> func_info d = Some info -> sorted is_func d.
Proof. intros [Hwf _] H. split; [done|]. by destruct d as [|[] ? ?]. Qed.

Lemma parse_discardable_spec attribute :
  Spec src fid (parse_discardable g attribute)
    (fun p => within n p /\ token_in src fid attribute) (yields is_statement).
Proof.
  intros p Hinv [Hn Ha]. unfold parse_discardable. psteps; try pdone.
  all: split; [pafter|]; pclean; apply (is_func_statement _ _ _); apply sorted_update; [done|];
    by eapply func_info_sorted.
Qed.

(** An option of an attribute: the next state of the options, or an error node. *)
Definition option_post {A} (p : Parser) (r : Node + A) (p' : Parser) : Prop :=
  match r with inl _ => (errors p < errors p')%nat | inr _ => True end.

Ltac option_cases :=
  psteps; unfold option_post in *; psimp;
  try match goal with r : sum _ _ |- _ => destruct r; psimp end; pdone.

Lemma parse_call_option_spec :
  Spec src fid parse_call_option (fun _ => True) option_post.
Proof. intros p Hinv _. unfold parse_call_option, option_post. psteps; pdone. Qed.

Lemma parse_align_option_spec o :
  Spec src fid (parse_align_option o) (fun _ => True) option_post.
Proof. intros p Hinv _. unfold parse_align_option, option_post. psteps; pdone. Qed.
#[local] Hint Resolve parse_call_option_spec parse_align_option_spec : pspec.

Lemma parse_repr_option_spec o :
  Spec src fid (parse_repr_option o) (fun _ => True) option_post.
Proof. intros p Hinv _. unfold parse_repr_option. option_cases. Qed.

Lemma parse_name_option_spec o :
  Spec src fid (parse_name_option o) (fun _ => True) option_post.
Proof. intros p Hinv _. unfold parse_name_option, option_post. psteps; pdone. Qed.
#[local] Hint Resolve parse_name_option_spec : pspec.

Lemma parse_extern_option_spec o :
  Spec src fid (parse_extern_option o) (fun _ => True) option_post.
Proof. intros p Hinv _. unfold parse_extern_option. option_cases. Qed.

Lemma parse_options_spec {A} (step : A -> P (Node + A)) init :
  (forall o, Spec src fid (step o) (fun _ => True) option_post) ->
  Spec src fid (parse_options step init) (fun _ => True) option_post.
Proof.
  intros Hstep p Hinv _. unfold parse_options.
  ploop (fun (_ : A) (_ : Parser) => True). prun; option_cases.
Qed.

Lemma fail_here_spec msg :
  Spec src fid (fail_here msg) (fun _ => True) (fun p _ p' => (errors p < errors p')%nat
    /\ (type (p_current p) <> TOK_EOF -> (remaining p' < remaining p)%nat)).
Proof. intros p Hinv _. unfold fail_here. psteps. split; [pafter|]. split; [lia|]. intros. psimp. lia. Qed.
#[local] Hint Resolve parse_options_spec parse_repr_option_spec parse_extern_option_spec
  fail_here_spec : pspec.

Lemma repr_struct_ok packed align f :
  sorted is_struct f -> sorted is_struct (update_struct (set_struct_repr_c packed align) f).
Proof.
  intros [Hwf Hf]. destruct Hwf as [[] s e Hshape Hs Hc]; try discriminate Hf.
  split; [|done]. by apply wf_node.
Qed.

Lemma repr_enum_ok f : sorted is_enum f -> sorted is_enum (set_enum_repr_c f).
Proof.
  intros [Hwf Hf]. destruct Hwf as [[] s e Hshape Hs Hc]; try discriminate Hf.
  split; [|done]. by apply wf_node.
Qed.

Lemma parse_repr_declaration_spec o name :
  Spec src fid (parse_repr_declaration g o name)
    (fun p => within n p /\ token_in src fid name) (yields is_statement).
Proof.
  intros p Hinv [Hn Hname]. unfold parse_repr_declaration. psteps; try pdone.
  all: split; [pafter|]; pclean.
  all: first [ by apply is_struct_statement, repr_struct_ok
             | by apply is_enum_statement, repr_enum_ok
             | by apply is_func_statement, sorted_update ].
Qed.

Lemma signature_extern name conv f :
  signature garbage src fid f -> sorted is_func (update_func (set_extern name conv) f).
Proof.
  intros (info & ps & s & e & -> & Hret & Hlink & Hvar & Hps & Hs). split; [|done].
  apply wf_node; [|done|]; cbn [node_shape parsed_children children optional set_extern
    func_return_type func_linkage func_is_variadic].
  - rewrite (bool_decide_eq_true_2 _ Hret), (sorted_forallb _ _ _ _ _ Hps). simpl.
    destruct (func_is_variadic info); [|done]. simpl. rewrite andb_true_r.
    apply Is_true_true, Nat.ltb_lt. auto.
  - rewrite app_nil_r. exact (sorted_wf _ _ _ _ _ Hps).
Qed.

Lemma parse_extern_declaration_spec o name :
  Spec src fid (parse_extern_declaration g o name)
    (fun p => within (S n) p /\ token_in src fid name) (yields is_statement).
Proof.
  intros p Hinv [Hn Hname]. unfold parse_extern_declaration. psteps; try pdone.
  all: split; [pafter|]; pclean.
  - by rewrite (signature_not_error garbage src fid) in *.
  - by apply is_func_statement, signature_extern.
Qed.

Lemma parse_abi_attribute_spec {A} unsupported (step : A -> P (Node + A)) init k :
  (forall o, Spec src fid (step o) (fun _ => True) option_post) ->
  (forall o name, Spec src fid (k o name)
     (fun p => within n p /\ token_in src fid name) (yields is_statement)) ->
  Spec src fid (parse_abi_attribute unsupported step init k)
    (within n) (yields is_statement).
Proof.
  intros Hstep Hk p Hinv Hn. unfold parse_abi_attribute. psteps; unfold option_post in *; pdone.
Qed.

Lemma parse_repr_spec : Spec src fid (parse_repr g) (within n) (yields is_statement).
Proof.
  unfold parse_repr. apply parse_abi_attribute_spec; intros.
  - apply parse_repr_option_spec.
  - apply parse_repr_declaration_spec.
Qed.

Lemma parse_extern_spec : Spec src fid (parse_extern g) (within n) (yields is_statement).
Proof.
  unfold parse_extern. apply parse_abi_attribute_spec; intros o.
  { apply parse_extern_option_spec. }
  intros name p Hinv [Hn Hname]. apply parse_extern_declaration_spec; [done|]. split; ppre.
Qed.
#[local] Hint Resolve parse_discardable_spec parse_repr_spec parse_extern_spec : pspec.

Lemma parse_attribute_decl_spec :
  Spec src fid (parse_attribute_decl g) (within (S n)) (fun p s p' =>
    yields is_statement p s p'
    /\ (type (p_current p) = TOK_HASH ->
        token_in src fid (p_previous p') /\ (remaining p' < remaining p)%nat)).
Proof.
  intros p Hinv Hn. unfold parse_attribute_decl. psteps; try pdone.
  all: split; [pafter|]; split; [pyield|]; intros; split; [psimp; assumption | lia].
Qed.
End Attributes.
#[export] Hint Resolve quoted_text_spec fail_here_spec parse_attribute_decl_spec : pspec.

Section Statements.
Context (garbage : Garbage) (src : list ascii) (fid : Z) (Hsrc : buffer_ok src).
Context (n : nat) (g : Grammar) (Hg : good garbage src fid n g).
Abbreviation sorted := (sorted garbage src fid).
Abbreviation yields := (yields garbage src fid).
Abbreviation yields_from := (yields_from garbage src fid).
Abbreviation yields_list := (yields_list garbage src fid).
Abbreviation yields_option := (yields_option garbage src fid).

Lemma until_brace_spec m f step :
  (forall nodes, Spec src fid (step nodes)
     (fun p => within m p /\ type (p_current p) <> TOK_EOF /\ type (p_current p) <> TOK_RBRACE)
     (fun p nodes' p' => (errors p' = errors p -> Forall (sorted f) nodes -> Forall (sorted f) nodes')
        /\ (remaining p' < remaining p)%nat)) ->
  Spec src fid (until_brace step) (within m) (yields_list f).
Proof.
  intros Hstep p Hinv Hm. unfold until_brace.
  ploop (yields_list f p). prun.
  split; [pafter|]. split; [pclean; auto | lia].
Qed.

Lemma parse_block_spec :
  Spec src fid (parse_block g) (within (S n)) (fun p b p' => yields is_block p b p'
    /\ (type (p_current p) <> TOK_EOF -> (remaining p' < remaining p)%nat)).
Proof.
  intros p Hinv Hn. unfold parse_block. psteps; try pdone.
  eapply pwp_call; [apply (until_brace_spec n is_statement)|..]; [|done|ppre|].
  - intros nodes p1 Hinv1 (Hn1 & Hne & _). psteps. split; [pafter|]. split; [|psimp; lia].
    pclean. forall_cons; done.
  - intros nodes p1 Hafter Hnodes. learn_after Hafter. psteps.
    split; [pafter|]. split; [pyield | intros; lia].
Qed.
#[local] Hint Resolve parse_block_spec : pspec.

Lemma parse_expr_statement_spec :
  Spec src fid (parse_expr_statement g) (within (S n)) (fun p s p' =>
    yields is_statement p s p'
    /\ (type (p_current p) <> TOK_EOF -> (remaining p' < remaining p)%nat)).
Proof.
  intros p Hinv Hn. unfold parse_expr_statement. psteps; try pdone.
  split; [pafter|]. split; [pyield|]. by eapply (progress_later src fid p p0).
Qed.

(** ** Lookahead *)

Lemma wp_lookahead_token q lx (Q : Token -> Lexer -> Prop) :
  at_pos src fid q lx ->
  (forall t q' lx', at_pos src fid q' lx' -> (q <= q')%nat ->
   (type t <> TOK_EOF -> (q < q')%nat) -> Q t lx') ->
  Lexer.wp lexer_next Q lx.
Proof.
  intros Hat HQ. eapply wp_lexer_next; [done..|]. intros t lx' Ht.
  destruct (next_token_shape _ _ _ _ _ Ht) as (q' & Htr & Htok & _ & Hlt).
  pose proof (trivia_le _ _ _ Htr). destruct Htok as (Hat' & _ & ? & ? & _).
  apply (HQ t q'); [done | lia|]. intros Hne. specialize (Hlt Hne). lia.
Qed.

Lemma at_pos_unread q lx : at_pos src fid q lx -> unread lx = (length src - q)%nat.
Proof. apply unread_at. Qed.

Lemma wp_skip_nested delta fuel depth q lx (Q : bool -> Lexer -> Prop) :
  at_pos src fid q lx -> (length src - q < fuel)%nat ->
  (forall b q' lx', at_pos src fid q' lx' -> (q <= q')%nat -> Q b lx') ->
  Lexer.wp (skip_nested delta fuel depth) Q lx.
Proof.
  revert depth q lx. induction fuel as [|fuel IH]; intros depth q lx Hat Hfuel HQ; [lia|].
  cbn [skip_nested]. destruct (depth <=? 0); [apply Lexer.wp_ret; eauto|].
  apply Lexer.wp_bind, (wp_lookahead_token q); [done|]. intros t q' lx' Hat' Hle Hlt.
  case_bool_decide as He; cbn [orb]; [apply Lexer.wp_ret; eauto|].
  case_bool_decide; [apply Lexer.wp_ret; eauto|]. specialize (Hlt He).
  pose proof (at_pos_le _ _ _ _ Hat'). apply (IH _ q'); [done | lia|].
  intros b q'' lx'' ? ?. apply (HQ b q''); [done | lia].
Qed.

Lemma generic_suffix_starts_expression_spec :
  Spec src fid generic_suffix_starts_expression (fun _ => True) (fun p _ p' => p' = p).
Proof.
  intros p Hinv _. unfold generic_suffix_starts_expression. psteps; [|pdone].
  apply pwp_lookahead with src fid; [done|]. intros q Hat. rewrite (at_pos_unread q) by done.
  apply Lexer.wp_bind, (wp_skip_nested _ _ _ q); [done | lia|]. intros b q' lx' Hat' Hle.
  destruct b; cbn [negb]; [|apply Lexer.wp_ret; pdone].
  apply Lexer.wp_bind, (wp_lookahead_token q'); [done|]. intros t q2 lx2 Hat2 Hle2 _.
  destruct (type t); try (apply Lexer.wp_ret; pdone).
  apply Lexer.wp_bind, (wp_skip_nested _ _ _ q2); [done | lia|]. intros b q3 lx3 Hat3 Hle3.
  destruct b; cbn [negb]; [|apply Lexer.wp_ret; pdone].
  apply Lexer.wp_bind, (wp_lookahead_token q3); [done|]. intros t' q4 lx4 _ _ _.
  apply Lexer.wp_ret. pdone.
Qed.

Lemma wp_semicolon_ahead fuel ty d q lx (Q : bool -> Lexer -> Prop) :
  at_pos src fid q lx -> (length src - q + (if bool_decide (ty = TOK_EOF) then 0 else 1) < fuel)%nat ->
  (forall b lx', Q b lx') -> Lexer.wp (semicolon_ahead fuel ty d) Q lx.
Proof.
  revert ty d q lx. induction fuel as [|fuel IH]; intros ty d q lx Hat Hfuel HQ; [lia|].
  cbn [semicolon_ahead]. destruct (depths_step ty d) eqn:Hd; [|apply Lexer.wp_ret, HQ].
  case_bool_decide as Hty; [by subst ty; destruct d|].
  apply Lexer.wp_bind, (wp_lookahead_token q); [done|]. intros t q' lx' Hat' Hle Hlt.
  pose proof (at_pos_le _ _ _ _ Hat'). apply (IH _ _ q'); [done | | done].
  case_bool_decide as He; [lia | specialize (Hlt He); lia].
Qed.

Lemma parenthesized_for_has_top_level_semicolon_spec :
  Spec src fid parenthesized_for_has_top_level_semicolon (fun _ => True) (fun p _ p' => p' = p).
Proof.
  intros p Hinv _. unfold parenthesized_for_has_top_level_semicolon. psteps.
  apply pwp_lookahead with src fid; [done|]. intros q Hat. rewrite (at_pos_unread q) by done.
  apply (wp_semicolon_ahead _ _ _ q); [done | case_bool_decide; lia|]. intros. pdone.
Qed.

Lemma is_compile_if_keyword_spec keyword :
  Spec src fid (is_compile_if_keyword keyword) (fun _ => True) (fun p b p' => p' = p
    /\ (b = true -> type (p_current p) = TOK_HASH)).
Proof. intros p Hinv _. unfold is_compile_if_keyword. psteps; pdone. Qed.

Lemma is_compile_if_named_directive_spec name :
  Spec src fid (is_compile_if_named_directive name) (fun _ => True) (fun p b p' => p' = p
    /\ (b = true -> type (p_current p) = TOK_HASH)).
Proof.
  intros p Hinv _. unfold is_compile_if_named_directive. psteps; [|pdone].
  apply pwp_lookahead with src fid; [done|]. intros q Hat.
  apply Lexer.wp_bind, (wp_lookahead_token q); [done|]. intros t q' lx' Hat' Hle _.
  destruct (_ && _); [apply Lexer.wp_bind; unfold Lexer.wp, lexeme|]; apply Lexer.wp_ret; pdone.
Qed.

Lemma is_compile_if_end_spec :
  Spec src fid is_compile_if_end (fun _ => True) (fun p b p' => p' = p
    /\ (b = true -> type (p_current p) = TOK_HASH)).
Proof. apply is_compile_if_named_directive_spec. Qed.
#[local] Hint Resolve is_compile_if_end_spec parse_expr_statement_spec generic_suffix_starts_expression_spec
  parenthesized_for_has_top_level_semicolon_spec is_compile_if_keyword_spec
  is_compile_if_named_directive_spec : pspec.

(** ** Declarations and expression statements *)

Lemma finish_expr_statement_spec base name :
  Spec src fid (finish_expr_statement g base name)
    (fun p => within n p /\ token_in src fid name)
    (yields_from (sorted is_expression base) is_statement).
Proof.
  intros p Hinv [Hn Hname]. unfold finish_expr_statement, PREC_LOGICAL_OR. psteps; pdone.
Qed.
#[local] Hint Resolve finish_expr_statement_spec : pspec.

Lemma ident_node x t :
  token_in src fid t -> sorted is_expression (new_node (NODE_IDENT x) (span t)).
Proof. intros Ht. split; [|done]. apply wf_node; [done | ppre | by constructor]. Qed.

Lemma parse_generic_name_statement_spec name :
  Spec src fid (parse_generic_name_statement g name)
    (fun p => within n p /\ token_in src fid name) (yields is_statement).
Proof.
  intros p Hinv [Hn Hname]. unfold parse_generic_name_statement. psteps.
  split; [pafter|]. pclean. pose proof (ident_node x name Hname). auto.
Qed.

Lemma parse_name_statement_spec name :
  Spec src fid (parse_name_statement g name)
    (fun p => within n p /\ token_in src fid name) (yields is_statement).
Proof.
  intros p Hinv [Hn Hname]. unfold parse_name_statement. psteps; try pdone.
  all: split; [pafter|]; pclean; pose proof (ident_node x name Hname); auto.
Qed.
#[local] Hint Resolve parse_generic_name_statement_spec parse_name_statement_spec : pspec.

Lemma parse_after_leading_name_spec name :
  Spec src fid (parse_after_leading_name garbage g name)
    (fun p => within n p /\ token_in src fid name) (yields is_statement).
Proof.
  intros p Hinv [Hn Hname]. unfold parse_after_leading_name. psteps; try pdone.
Qed.
#[local] Hint Resolve parse_after_leading_name_spec : pspec.

Lemma parse_decl_or_expr_statement_spec :
  Spec src fid (parse_decl_or_expr_statement garbage g) (within (S n)) (fun p s p' =>
    yields is_statement p s p'
    /\ (type (p_current p) <> TOK_EOF -> (remaining p' < remaining p)%nat)).
Proof.
  intros p Hinv Hn. unfold parse_decl_or_expr_statement. psteps; try pdone.
Qed.
#[local] Hint Resolve parse_decl_or_expr_statement_spec : pspec.

(** ** Simple statements *)

Lemma parse_return_statement_spec :
  Spec src fid (parse_return_statement g)
    (fun p => within n p /\ token_in src fid (p_previous p)) (yields is_statement).
Proof.
  intros p Hinv [Hn Hprev]. unfold parse_return_statement. psteps; pdone.
Qed.

Lemma parse_asm_inputs_spec :
  Spec src fid (parse_asm_inputs g) (within n) (or_error (fun p inputs p' =>
    errors p' = errors p -> Forall (fun i => sorted is_expression i.2) inputs)).
Proof.
  intros p Hinv Hn. unfold parse_asm_inputs, or_error.
  ploop (fun (inputs : list (Text * Node)) p' => errors p' = errors p ->
    Forall (fun i => sorted is_expression i.2) inputs).
  prun.
Qed.
#[local] Hint Resolve parse_asm_inputs_spec : pspec.

Lemma asm_node template constraint output inputs volatile sp :
  sorted is_expression output -> Forall (fun i => sorted is_expression i.2) inputs ->
  in_file src fid sp ->
  sorted is_statement (new_node (NODE_ASM template constraint output inputs volatile) sp).
Proof.
  intros [Ho Hoe] Hi Hsp. split; [|done]. apply wf_node; [|done|].
  - cbn [node_shape]. rewrite Hoe. apply Is_true_true, forallb_forall. intros i Hin.
    rewrite Forall_forall in Hi. apply Hi. by apply list_elem_of_In.
  - constructor; [done|]. apply Forall_fmap. eapply Forall_impl; [exact Hi|]. by intros i [].
Qed.

Lemma parse_asm_statement_spec :
  Spec src fid (parse_asm_statement g)
    (fun p => within n p /\ token_in src fid (p_previous p)) (yields is_statement).
Proof.
  intros p Hinv [Hn Hprev]. unfold parse_asm_statement. psteps; try pdone.
  split; [pafter|]. pclean. apply asm_node; [done..|ppre].
Qed.

Lemma parse_static_assert_statement_spec :
  Spec src fid (parse_static_assert_statement g)
    (fun p => within n p /\ token_in src fid (p_previous p)) (yields is_statement).
Proof.
  intros p Hinv [Hn Hprev]. unfold parse_static_assert_statement. psteps; pdone.
Qed.

Lemma parse_defer_statement_spec :
  Spec src fid (parse_defer_statement g)
    (fun p => within n p /\ token_in src fid (p_previous p)) (yields is_statement).
Proof.
  intros p Hinv [Hn Hprev]. unfold parse_defer_statement. psteps; try pdone.
Qed.

Lemma parse_jump_statement_spec a :
  (forall sp, in_file src fid sp -> sorted is_statement (a sp)) ->
  Spec src fid (parse_jump_statement a) (fun p => token_in src fid (p_previous p))
    (yields is_statement).
Proof.
  intros Ha p Hinv Hprev. unfold parse_jump_statement. psteps; try pdone.
  split; [pafter|]. intros _. apply Ha. ppre.
Qed.

(** ** Control flow *)

Lemma scoped_block s :
  sorted is_statement s ->
  sorted is_block (match as_of s with
                   | Some (NODE_BLOCK _) => s
                   | _ => new_node (NODE_BLOCK [s]) (span_of s)
                   end).
Proof.
  intros [Hwf Hs]. assert (Hb : sorted is_block (new_node (NODE_BLOCK [s]) (span_of s))).
  { split; [|done]. apply wf_node; [|ppre|by apply Forall_singleton].
    cbn [node_shape forallb]. by rewrite Hs. }
  destruct s as [|[] ? ?]; done.
Qed.

Lemma parse_scoped_control_body_spec :
  Spec src fid (parse_scoped_control_body g) (within n) (yields is_block).
Proof.
  intros p Hinv Hn. unfold parse_scoped_control_body. apply pwp_bind. pcall. apply pwp_ret.
  split; [pafter|]. pclean. by apply scoped_block.
Qed.

Lemma parse_expression_before_block_spec :
  Spec src fid (parse_expression_before_block g) (within n) (yields is_expression).
Proof. intros p Hinv Hn. unfold parse_expression_before_block. psteps. pdone. Qed.
#[local] Hint Resolve parse_scoped_control_body_spec parse_expression_before_block_spec : pspec.

Lemma parse_if_statement_spec :
  Spec src fid (parse_if_statement g)
    (fun p => within n p /\ token_in src fid (p_previous p)) (yields is_if).
Proof.
  intros p Hinv [Hn Hprev]. unfold parse_if_statement. psteps; try pdone.
Qed.

Lemma parse_while_statement_spec :
  Spec src fid (parse_while_statement g)
    (fun p => within n p /\ token_in src fid (p_previous p)) (yields is_statement).
Proof. intros p Hinv [Hn Hprev]. unfold parse_while_statement. psteps; pdone. Qed.

Lemma parse_c_style_for_statement_spec sp :
  Spec src fid (parse_c_style_for_statement garbage g sp)
    (fun p => within n p /\ in_file src fid sp) (yields is_statement).
Proof.
  intros p Hinv [Hn Hsp]. unfold parse_c_style_for_statement. psteps; try pdone.
Qed.

Lemma parse_pack_for_spec sp :
  Spec src fid (parse_pack_for g sp)
    (fun p => within n p /\ in_file src fid sp) (yields is_statement).
Proof.
  intros p Hinv [Hn Hsp]. unfold parse_pack_for. psteps; pdone.
Qed.

Lemma parse_for_clauses_spec :
  Spec src fid (parse_for_clauses g) (within n) (fun p r p' => errors p' = errors p ->
    match r.1 with Some e => sorted is_expression e | None => True end
    /\ match r.2 with Some e => sorted is_expression e | None => True end).
Proof. intros p Hinv Hn. unfold parse_for_clauses. psteps; pdone. Qed.
#[local] Hint Resolve parse_c_style_for_statement_spec parse_pack_for_spec parse_for_clauses_spec
  : pspec.

Lemma for_node condition post body sp :
  match condition with Some e => sorted is_expression e | None => True end ->
  match post with Some e => sorted is_expression e | None => True end ->
  sorted is_block body -> in_file src fid sp ->
  sorted is_statement (new_node (NODE_FOR condition post body) sp).
Proof.
  intros Hc Hp Hb Hsp. destruct condition, post; pnode.
Qed.

Lemma parse_for_statement_spec :
  Spec src fid (parse_for_statement garbage g)
    (fun p => within n p /\ token_in src fid (p_previous p)) (yields is_statement).
Proof.
  intros p Hinv [Hn Hprev]. unfold parse_for_statement. psteps; try pdone.
  all: split; [pafter|]; pclean; apply for_node; try done; ppre.
Qed.

Lemma parse_switch_case_spec :
  Spec src fid (parse_switch_case g)
    (fun p => within (S n) p /\ (type (p_current p) = TOK_CASE \/ type (p_current p) = TOK_DEFAULT))
    (fun p s p' => yields is_switch_case p s p' /\ (remaining p' < remaining p)%nat).
Proof.
  intros p Hinv [Hn Hty]. unfold parse_switch_case. psteps; try pdone.
  exfalso. tauto.
Qed.
#[local] Hint Resolve parse_switch_case_spec : pspec.

Lemma parse_switch_statement_spec :
  Spec src fid (parse_switch_statement g)
    (fun p => within (S n) p /\ type (p_current p) = TOK_SWITCH)
    (fun p s p' => yields is_statement p s p' /\ (remaining p' < remaining p)%nat).
Proof.
  intros p Hinv [Hn Hty]. unfold parse_switch_statement. psteps; try pdone.
  eapply pwp_call; [apply (until_brace_spec n is_switch_case)|..]; [|done|ppre|].
  - intros nodes p3 Hinv3 (Hn3 & Hne & _). psteps.
    all: split; [pafter|]; split; [pclean; forall_cons; done | psimp; lia].
  - intros nodes p3 Hafter Hnodes. learn_after Hafter. psteps. pdone.
Qed.

(** ** Compile-time conditionals *)

Lemma parse_compile_if_body_spec :
  Spec src fid (parse_compile_if_body g) (within n) (yields is_block).
Proof.
  intros p Hinv Hn. unfold parse_compile_if_body. psteps.
  ploop (yields_list is_statement p). prun.
Qed.
#[local] Hint Resolve parse_compile_if_body_spec : pspec.

Lemma consume_compile_if_end_spec :
  Spec src fid consume_compile_if_end (fun _ => True) (fun _ _ _ => True).
Proof. intros p Hinv _. unfold consume_compile_if_end. psteps; pdone. Qed.
#[local] Hint Resolve consume_compile_if_end_spec : pspec.

Lemma parse_compile_if_after_keyword_spec keyword :
  Spec src fid (parse_compile_if_after_keyword g keyword)
    (fun p => within n p /\ token_in src fid keyword) (yields is_if).
Proof.
  intros p Hinv [Hn Hk]. unfold parse_compile_if_after_keyword. psteps; try pdone.
Qed.
#[local] Hint Resolve parse_compile_if_after_keyword_spec parse_if_statement_spec
  parse_while_statement_spec parse_for_statement_spec parse_return_statement_spec
  parse_defer_statement_spec parse_static_assert_statement_spec parse_asm_statement_spec
  parse_switch_statement_spec : pspec.

Lemma parse_compile_if_statement_spec :
  Spec src fid (parse_compile_if_statement g)
    (fun p => within (S n) p /\ type (p_current p) = TOK_HASH) (fun p s p' =>
    yields is_statement p s p' /\ (remaining p' < remaining p)%nat).
Proof. intros p Hinv [Hn Hty]. unfold parse_compile_if_statement. psteps; pdone. Qed.

(** ** Statements *)

Definition statement_post (p : Parser) (s : Node) (p' : Parser) : Prop :=
  yields is_statement p s p'
  /\ (type (p_current p) <> TOK_EOF -> (remaining p' < remaining p)%nat).

Lemma parse_break_spec :
  Spec src fid (parse_jump_statement ast_new_break) (fun p => token_in src fid (p_previous p))
    (yields is_statement).
Proof. apply parse_jump_statement_spec. intros sp Hsp. pnode. Qed.
Lemma parse_continue_spec :
  Spec src fid (parse_jump_statement ast_new_continue) (fun p => token_in src fid (p_previous p))
    (yields is_statement).
Proof. apply parse_jump_statement_spec. intros sp Hsp. pnode. Qed.
#[local] Hint Resolve parse_break_spec parse_continue_spec parse_compile_if_statement_spec : pspec.

Lemma parse_plain_statement_spec :
  Spec src fid (parse_plain_statement garbage g) (within (S n)) statement_post.
Proof.
  intros p Hinv Hn. unfold parse_plain_statement, statement_post. psteps; pdone.
Qed.
#[local] Hint Resolve parse_plain_statement_spec : pspec.

Lemma parse_statement_spec :
  Spec src fid (parse_statement garbage g) (within (S n)) statement_post.
Proof.
  intros p Hinv Hn. unfold parse_statement. psteps; unfold statement_post in *; psimp; pdone.
Qed.
End Statements.
#[export] Hint Resolve parse_block_spec parse_statement_spec parse_if_statement_spec
  parse_compile_if_after_keyword_spec : pspec.
