(* ===== verification/ParserSafety.v ===== *)
(** The parser on a whole file: it answers for every buffer, and a file without a diagnostic
    has a well-formed tree. *)
From S2P Require Import Prelude Token Types Source Lexer Literal StringDecode Ast ParserState ParserExpr ParserDecl ParserStmt Parser ParserTree ParserSpec ParserRules ParserExprSpec ParserDeclSpec ParserStmtSpec.

Section Safety.
Context (garbage : Garbage) (src : list ascii) (fid : Z) (Hsrc : buffer_ok src).
Abbreviation sorted := (sorted garbage src fid).
Abbreviation yields := (yields garbage src fid).
Abbreviation yields_list := (yields_list garbage src fid).

(** The knot: [n] levels are enough for less than [n] characters. *)
Lemma grammar_good n : good garbage src fid n (grammar garbage n).
Proof.
  induction n as [|n IH].
  { split; intros; intros p Hinv; unfold within; intros; psimp; lia. }
  split; cbn [grammar g_type g_assignment g_binary g_unary g_if_expression g_block g_statement
    g_if_statement g_compile_if_after_keyword g_attribute_decl]; intros.
  - apply (parse_type_spec garbage src fid Hsrc n _ IH).
  - apply (parse_assignment_spec garbage src fid Hsrc n _ IH).
  - apply (parse_binary_spec garbage src fid Hsrc n _ IH).
  - apply (parse_unary_spec garbage src fid Hsrc n _ IH).
  - apply (parse_if_expression_spec garbage src fid Hsrc n _ IH).
  - eapply Spec_mono; [apply (parse_block_spec garbage src fid Hsrc n _ IH) | done | by intros ? ? ? []].
  - apply (parse_statement_spec garbage src fid Hsrc n _ IH).
  - apply (parse_if_statement_spec garbage src fid Hsrc n _ IH).
  - apply (parse_compile_if_after_keyword_spec garbage src fid Hsrc n _ IH).
  - apply (parse_attribute_decl_spec garbage src fid Hsrc n _ IH).
Qed.

(** ** The program *)

Section Program.
Context (n : nat) (g : Grammar) (Hg : good garbage src fid n g).

Lemma parse_directive_spec :
  Spec src fid (parse_directive) (fun p => type (p_current p) = TOK_IDENT) (fun p s p' =>
    yields is_top_level p s p' /\ (remaining p' < remaining p)%nat).
Proof. intros p Hinv Hty. unfold parse_directive. psteps; pdone. Qed.

Lemma wf_exported d :
  well_formed garbage (in_file src fid) d -> well_formed garbage (in_file src fid) (set_exported d).
Proof. destruct 1. by apply wf_node. Qed.

Lemma span_mark_exported d : span_of (mark_exported d) = span_of d.
Proof. by destruct d as [|[] ? ?]. Qed.

Lemma exported_ok d s :
  sorted is_statement d -> node_is_exportable_declaration d = true -> in_file src fid s ->
  sorted is_top_level (set_span s (mark_exported d)).
Proof.
  intros [Hwf _] He Hs. destruct Hwf as [a s' e Hshape Hs' Hc].
  destruct a; try discriminate He; (split; [|done]); try (by apply wf_node).
  apply wf_node; [|done|].
  - destruct Hshape as (t & x & i & sd & ed & rest & -> & Hne & Hrest).
    exists t, x, i, sd, true, (map set_exported rest). split_and!; [done | by intros ?%map_eq_nil|].
    apply Forall_fmap. eapply Forall_impl; [exact Hrest|].
    intros d (x' & s'' & e' & -> & Hf). by exists x', s'', true.
  - destruct Hshape as (t & x & i & sd & ed & rest & -> & _).
    cbn [parsed_children map take] in *. apply Forall_cons in Hc as [Hc _].
    constructor; [exact (wf_exported _ Hc) | by constructor].
Qed.

Lemma parse_export_spec :
  Spec src fid (parse_export g) (fun p => within (S n) p /\ type (p_current p) = TOK_IDENT)
    (fun p s p' => yields is_top_level p s p' /\ (remaining p' < remaining p)%nat).
Proof.
  intros p Hinv [Hn Hty]. unfold parse_export, mark_exported_declaration. psteps; try pdone.
  - done.
  - split; [pafter|]. split; [|lia]. pclean. apply exported_ok; [done..|].
    apply in_file_join; [ppre|]. rewrite span_mark_exported. ppre.
Qed.
#[local] Hint Resolve parse_directive_spec parse_export_spec : pspec.

Lemma parse_top_level_spec :
  Spec src fid (parse_top_level g) (fun p => within n p /\ type (p_current p) <> TOK_EOF)
    (fun p s p' => yields is_top_level p s p' /\ (remaining p' < remaining p)%nat).
Proof.
  intros p Hinv [Hn Hty]. unfold parse_top_level. psteps; try pdone.
Qed.
#[local] Hint Resolve parse_top_level_spec : pspec.

Definition is_program : Node -> bool :=
  node_is (fun a => match a with NODE_PROGRAM _ => true | _ => false end).

Lemma parse_declarations_spec :
  Spec src fid (parse_declarations g) (within n) (fun p r p' =>
    yields is_program p r p' /\ type (p_current p') = TOK_EOF).
Proof.
  intros p Hinv Hn. unfold parse_declarations. psteps.
  ploop (yields_list is_top_level p). prun.
Qed.
End Program.

Lemma pwp_ext {A} (m' m : P A) (Q : A -> Parser -> Prop) p : m p = m' p -> pwp m' Q p -> pwp m Q p.
Proof. unfold pwp. by intros ->. Qed.

Lemma parse_program_spec :
  Spec src fid (parse_program garbage) (fun _ => True) (fun p r p' =>
    yields is_program p r p' /\ type (p_current p') = TOK_EOF).
Proof.
  intros p Hinv _.
  apply (pwp_ext (parse_declarations (grammar garbage (S (remaining p))))); [done|].
  apply (parse_declarations_spec (S (remaining p))); [apply grammar_good | done | unfold within; lia].
Qed.

(** The state after initialisation. *)
Lemma parser_init_ok file (Q : unit -> Parser -> Prop) :
  sf_source file = src -> sf_id file = fid ->
  (forall p, inv src fid p -> (errors p = 0%nat -> had_error p = false) -> Q tt p) ->
  match parser_init_common file with POk _ p => Q tt p | PFault _ => False end.
Proof.
  intros Hs Hf HQ. unfold parser_init_common.
  change (pwp advance (fun _ p => Q tt p) (mkParser
    (lexer_init_with_source_id (sf_id file) (sf_filename file) (sf_source file))
    (mkToken TOK_EOF 0 0 0 0 source_span_invalid) (mkToken TOK_EOF 0 0 0 0 source_span_invalid)
    false [] false)).
  unfold advance. apply pwp_bind, pwp_get, pwp_bind, pwp_modify, pwp_bind, pwp_get.
  cbn [p_lexer p_current p_previous had_error diagnostics suppress_struct_init].
  assert (Hat : at_pos src fid 0 (lexer_init_with_source_id (sf_id file) (sf_filename file) (sf_source file)))
    by (rewrite Hs, Hf; unfold at_pos; simpl; split_and!; done || lia).
  rewrite (unread_at src fid 0 _ Hat).
  apply (next_good_ok src fid Hsrc _ 0); [done | by constructor | done | lia|].
  intros p Hinv _ _ _ _. apply HQ; [done|]. intros He. by rewrite (inv_had_error _ _ _ Hinv), He.
Qed.
End Safety.

(** C3. For every file whose text is a C string that fits the counters of the lexer, parsing
    ends: no assertion fails, the lexer never reads outside the buffer and no loop or recursion
    runs longer than the text.  The parser stops at the end of the file, every diagnostic points
    inside the file, and [had_error] is set exactly when there is a diagnostic. *)
Theorem parse_file_total garbage file :
  buffer_ok (sf_source file) ->
  exists n p, parse_file garbage file = POk n p
    /\ type (p_current p) = TOK_EOF
    /\ Forall (fun d => in_file (sf_source file) (sf_id file) (diagnostic_span d)) (diagnostics p)
    /\ (had_error p = true <-> diagnostics p <> []).
Proof.
  intros Hsrc. unfold parse_file.
  pose proof (parser_init_ok (sf_source file) (sf_id file) Hsrc file
    (fun _ p => inv (sf_source file) (sf_id file) p) eq_refl eq_refl ltac:(auto)) as Hinit.
  destruct (parser_init_common file) as [[] p|]; [|done].
  pose proof (parse_program_spec garbage _ _ Hsrc p Hinit I) as H. unfold pwp in H.
  destruct (parse_program garbage p) as [n p'|]; [|done].
  destruct H as (Hafter & _ & Heof). pose proof (after_inv _ _ _ _ Hafter) as [].
  exists n, p'. split_and!; [done..|]. rewrite inv_had_error. unfold errors.
  by destruct (diagnostics p').
Qed.

Definition sample_file (text : Text) : SourceFile :=
  mkSourceFile 0 "sample.cog" text (Z.of_nat (length text)).

Lemma parse_file_total_witness :
  exists n p, parse_file (mkGarbage false []) (sample_file (cstr "f::() { x = ; }")) = POk n p
    /\ type (p_current p) = TOK_EOF
    /\ Forall (fun d => in_file (cstr "f::() { x = ; }") 0 (diagnostic_span d)) (diagnostics p)
    /\ (had_error p = true <-> diagnostics p <> []).
Proof.
  exact (parse_file_total (mkGarbage false []) (sample_file (cstr "f::() { x = ; }"))
           ltac:(apply (bool_decide_unpack _); vm_compute; exact I)).
Defined.



(** ** What the parser gives for some texts *)

Definition statements_of (text : Text) : list Node :=
  match parse_file (mkGarbage false []) (sample_file text) with
  | POk (mkNode (NODE_PROGRAM ss) _ _) p => if had_error p then [] else ss
  | _ => []
  end.

(** The declarations of a group: names and initializers without spans. *)
Definition group_initializers (text : Text) : list (option NodeAs) :=
  match statements_of text with
  | [mkNode (NODE_VAR_DECL_GROUP ds) _ _] =>
      map (fun d => match d with mkNode (NODE_VAR_DECL _ _ (Some i)) _ _ => as_of i | _ => None end) ds
  | _ => []
  end.

(** [a, b: s32 = x++;]: the second variable has lost its initializer. *)
Example grouped_increment :
  match group_initializers (cstr "a, b: s32 = x++;") with
  | [Some (NODE_INC_DEC TOK_PLUS_PLUS _ false); None] => True
  | _ => False
  end.
Proof. vm_compute. exact I. Qed.

(** [a, b: s32 = -(x++);]: the initializer of the second variable has a null operand. *)
Example grouped_null_operand :
  match group_initializers (cstr "a, b: s32 = -(x++);") with
  | [Some (NODE_UNARY TOK_MINUS (mkNode _ _ _)); Some (NODE_UNARY TOK_MINUS NullNode)] => True
  | _ => False
  end.
Proof. vm_compute. exact I. Qed.

Definition constant_text (text : Text) : option Text :=
  match statements_of text with
  | [mkNode (NODE_CONST_DECL _ _ (mkNode (NODE_STRING s) _ _)) _ _] => Some s
  | _ => None
  end.

Definition quoted (s : string) : Text := DQUOTE :: cstr s ++ [DQUOTE].

(** Adjacent literals are concatenated when white space separates them, ... *)
Example separated_literals :
  constant_text (cstr "x :: " ++ quoted "ab" ++ cstr " " ++ quoted "cd" ++ cstr ";")
  = Some (cstr "abcd").
Proof. vm_compute. reflexivity. Qed.

(** ... but without it the quotes between them are taken for text, and the end is lost; ... *)
Example touching_literals :
  constant_text (cstr "x :: " ++ quoted "ab" ++ quoted "cd" ++ cstr ";")
  = Some (cstr "ab" ++ [DQUOTE; DQUOTE]).
Proof. vm_compute. reflexivity. Qed.

(** ... and a comment between them hides what follows it. *)
Example commented_literals :
  constant_text (cstr "x :: " ++ quoted "ab" ++ cstr " /* c */ " ++ quoted "cd" ++ cstr ";")
  = Some (cstr "ab").
Proof. vm_compute. reflexivity. Qed.
