(* ===== verification/ParserPrecedence.v ===== *)
(** The operators of expressions: the parser implements the table of [docs/grammar.md].

    [expr k ts n] is a grammar on lists of tokens: the tokens [ts] spell the expression [n] at
    level [k], where 0 is assignment, 1 to 10 are the rows of the table of binary operators,
    11 is unary and 12 postfix.  It knows nothing of the parser: associativity is the level
    of the operands, precedence the inclusion of the levels. *)
From S2P Require Import Prelude Token Types Source Lexer Literal Ast ParserState ParserExpr Parser.
From S2P Require Import ParserSpec ParserRules ParserSafety.

(** ** The grammar *)

(** "From lowest to highest precedence" *)
Definition binary_operators : list (list TokenType) :=
  [ [TOK_OR_OR];
    [TOK_AND_AND];
    [TOK_EQUAL_EQUAL; TOK_BANG_EQUAL];
    [TOK_LESS; TOK_LESS_EQUAL; TOK_GREATER; TOK_GREATER_EQUAL];
    [TOK_OR];
    [TOK_XOR];
    [TOK_AND];
    [TOK_SHIFT_LEFT; TOK_SHIFT_RIGHT];
    [TOK_PLUS; TOK_MINUS];
    [TOK_STAR; TOK_SLASH; TOK_PERCENT] ].

Definition prefix_operators : list TokenType :=
  [TOK_MINUS; TOK_BANG; TOK_TILDE; TOK_AND; TOK_STAR; TOK_MOVE].
Definition increments : list TokenType := [TOK_PLUS_PLUS; TOK_MINUS_MINUS].
Definition compound_assignments : list TokenType :=
  [TOK_PLUS_EQUAL; TOK_MINUS_EQUAL; TOK_STAR_EQUAL; TOK_SLASH_EQUAL; TOK_PERCENT_EQUAL;
   TOK_AND_EQUAL; TOK_OR_EQUAL; TOK_XOR_EQUAL; TOK_SHIFT_LEFT_EQUAL; TOK_SHIFT_RIGHT_EQUAL].

Definition ASSIGNMENT : nat := 0.
Definition BINARY (row : nat) : nat := S row.
Definition UNARY : nat := S (length binary_operators).
Definition POSTFIX : nat := S UNARY.

Section Grammar.
Context (src : Text).

Definition spelling (t : Token) : Text :=
  slice src (start t) (start t + Z.to_nat (tok_length t)).

Inductive expr : nat -> list Token -> Node -> Prop :=
(* an expression of a level is one of every lower level *)
| expr_weaken k ts n : (k < POSTFIX)%nat -> expr (S k) ts n -> expr k ts n
(* assignments associate to the right *)
| expr_discard t ts n :
    type t = TOK_DISCARD -> expr ASSIGNMENT ts n ->
    expr ASSIGNMENT (t :: ts)
      (ast_new_unary TOK_DISCARD n (source_span_join (span t) (span_of n)))
| expr_assign lts l t rts r :
    expr (BINARY 0) lts l -> is_assignable l = true -> type t = TOK_EQUAL ->
    expr ASSIGNMENT rts r ->
    expr ASSIGNMENT (lts ++ t :: rts)
      (ast_new_assign l r (source_span_join (span_of l) (span_of r)))
| expr_compound lts l t rts r :
    expr (BINARY 0) lts l -> is_assignable l = true -> type t ∈ compound_assignments ->
    expr ASSIGNMENT rts r ->
    expr ASSIGNMENT (lts ++ t :: rts)
      (ast_new_compound_assign (type t) l r (source_span_join (span_of l) (span_of r)))
(* binary operators associate to the left *)
| expr_binary row ops lts l t rts r :
    binary_operators !! row = Some ops -> type t ∈ ops ->
    expr (BINARY row) lts l -> expr (S (BINARY row)) rts r ->
    expr (BINARY row) (lts ++ t :: rts)
      (ast_new_binary (type t) l r (source_span_join (span_of l) (span_of r)))
| expr_prefix t ts n :
    type t ∈ prefix_operators -> expr UNARY ts n ->
    expr UNARY (t :: ts) (ast_new_unary (type t) n (source_span_join (span t) (span_of n)))
| expr_prefix_increment t ts n :
    type t ∈ increments -> expr UNARY ts n -> is_assignable n = true ->
    expr UNARY (t :: ts) (ast_new_inc_dec (type t) n true (source_span_join (span t) (span_of n)))
| expr_postfix_increment ts n t :
    expr POSTFIX ts n -> is_assignable n = true -> type t ∈ increments ->
    expr POSTFIX (ts ++ [t])
      (ast_new_inc_dec (type t) n false (source_span_join (span t) (span_of n)))
| expr_field ts n dot name :
    expr POSTFIX ts n -> type dot = TOK_DOT -> type name = TOK_IDENT ->
    expr POSTFIX (ts ++ [dot; name]) (ast_new_field n (spelling name) (span name))
| expr_index ts n open its i close :
    expr POSTFIX ts n -> type open = TOK_LBRACKET -> expr ASSIGNMENT its i ->
    type close = TOK_RBRACKET ->
    expr POSTFIX (ts ++ open :: its ++ [close])
      (ast_new_index n i (source_span_join (span_of n) (span_of i)))
| expr_call ts n open ats args close :
    expr POSTFIX ts n -> type open = TOK_LPAREN -> arguments ats args ->
    type close = TOK_RPAREN ->
    expr POSTFIX (ts ++ open :: ats ++ [close]) (ast_new_call n [] args (span_of n))
| expr_parenthesized open ts n close :
    type open = TOK_LPAREN -> expr ASSIGNMENT ts n -> type close = TOK_RPAREN ->
    expr POSTFIX (open :: ts ++ [close]) n
| expr_name t : type t = TOK_IDENT -> expr POSTFIX [t] (ast_new_ident (spelling t) (span t))
| expr_integer t v :
    type t = TOK_NUMBER_INT -> parse_integer_u64 (spelling t) = Some v ->
    expr POSTFIX [t] (ast_new_integer v (span t))
| expr_true t : type t = TOK_TRUE -> expr POSTFIX [t] (ast_new_bool true (span t))
| expr_false t : type t = TOK_FALSE -> expr POSTFIX [t] (ast_new_bool false (span t))
| expr_null t : type t = TOK_NULL -> expr POSTFIX [t] (ast_new_null (span t))
with arguments : list Token -> list Node -> Prop :=
| arguments_none : arguments [] []
| arguments_some ts args : argument_list ts args -> arguments ts args
with argument_list : list Token -> list Node -> Prop :=
| argument_last ts n : expr ASSIGNMENT ts n -> argument_list ts [n]
| argument_more ts n comma rest args :
    expr ASSIGNMENT ts n -> type comma = TOK_COMMA -> argument_list rest args ->
    argument_list (ts ++ comma :: rest) (n :: args).

Scheme expr_mind := Induction for expr Sort Prop
with arguments_mind := Induction for arguments Sort Prop
with argument_list_mind := Induction for argument_list Sort Prop.

Combined Scheme expr_mutind from expr_mind, arguments_mind, argument_list_mind.
End Grammar.

(** ** The tokens the parser reads *)

(** The next tokens of [p] are [ts]; behind them the parser is in [p']. *)
Inductive reads : Parser -> list Token -> Parser -> Prop :=
| reads_nil p : reads p [] p
| reads_cons p t p1 ts p2 :
    p_current p = t -> type t <> TOK_EOF -> advance p = POk tt p1 -> reads p1 ts p2 ->
    reads p (t :: ts) p2.

(** The tokens that extend an expression. *)
Definition postfix_operator (ty : TokenType) : bool :=
  match ty with
  | TOK_COLON_COLON | TOK_LPAREN | TOK_DOT | TOK_LBRACKET | TOK_PLUS_PLUS | TOK_MINUS_MINUS
  | TOK_LBRACE => true
  | _ => false
  end.

Definition extends (ty : TokenType) : bool :=
  postfix_operator ty || (0 <? get_precedence ty)%nat || is_assignment_operator ty.

(** ** Runs of the parser *)

Lemma bind_ok {A B} (m : P A) (k : A -> P B) p a p1 :
  m p = POk a p1 -> (m ≫= k) p = k a p1.
Proof. unfold mbind, P_bind. by intros ->. Qed.

Lemma match_no ty p : type (p_current p) <> ty -> match_ ty p = POk false p.
Proof.
  intros Hne. unfold match_. rewrite (bind_ok _ _ p false p); [done|].
  unfold check, get. by rewrite bool_decide_eq_false_2.
Qed.

Lemma match_yes ty p p1 :
  type (p_current p) = ty -> advance p = POk tt p1 -> match_ ty p = POk true p1.
Proof.
  intros Hty Hadv. unfold match_. rewrite (bind_ok _ _ p true p).
  - by rewrite (bind_ok _ _ p tt p1).
  - unfold check, get. by rewrite bool_decide_eq_true_2.
Qed.

Lemma consume_yes ty p p1 :
  type (p_current p) = ty -> advance p = POk tt p1 -> consume ty p = POk true p1.
Proof.
  intros Hty Hadv. unfold consume. rewrite (bind_ok _ _ p true p).
  - by rewrite (bind_ok _ _ p tt p1).
  - unfold check, get. by rewrite bool_decide_eq_true_2.
Qed.

Lemma iterate_more {A B} (body : A -> P (A + B)) fuel fuel' a p b q :
  iterate fuel body a p = POk b q -> (fuel <= fuel')%nat -> iterate fuel' body a p = POk b q.
Proof.
  revert fuel' a p. induction fuel as [|fuel IH]; intros fuel' a p H Hle; [done|].
  destruct fuel' as [|fuel']; [lia|]. simpl in *. unfold mbind, P_bind in *.
  destruct (body a p) as [[a'|b'] p1|]; [|done..]. apply IH; [done | lia].
Qed.

Lemma loop_stop {A B} (body : A -> P (A + B)) a p b q :
  body a p = POk (inr b) q -> loop body a p = POk b q.
Proof. intros H. unfold loop. simpl. by rewrite (bind_ok _ _ p (inr b) q). Qed.

Lemma loop_step {A B} (body : A -> P (A + B)) a p a' p1 b q :
  body a p = POk (inl a') p1 -> (remaining p1 < remaining p)%nat ->
  loop body a' p1 = POk b q -> loop body a p = POk b q.
Proof.
  intros H Hlt Hloop. unfold loop in *. cbn [iterate].
  rewrite (bind_ok _ _ p (inl a') p1) by done.
  eapply iterate_more; [exact Hloop | lia].
Qed.

(** *** The flag of the initializers, which the lexer does not see *)

Definition suppressing (b : bool) (p : Parser) : Parser :=
  mkParser (p_lexer p) (p_current p) (p_previous p) (had_error p) (diagnostics p) b.

Lemma next_good_suppressing b fuel p :
  next_good fuel (suppressing b p) =
  match next_good fuel p with POk u q => POk u (suppressing b q) | PFault f => PFault f end.
Proof.
  revert p. induction fuel as [|fuel IH]; intros p; [done|].
  cbn [next_good]. unfold mbind, P_bind, next_token_. cbn [suppressing p_lexer].
  destruct (lexer_next (p_lexer p)) as [t lx|f]; [|done]. cbn.
  case_bool_decide; [|done]. cbn. apply (IH (mkParser _ _ _ _ _ _)).
Qed.

Lemma advance_suppressing b p p1 :
  advance p = POk tt p1 -> advance (suppressing b p) = POk tt (suppressing b p1).
Proof.
  intros H. unfold advance, mbind, P_bind, get, set_previous, modify in *. cbn in *.
  pose proof (next_good_suppressing b (S (unread (p_lexer p)))
    (mkParser (p_lexer p) (p_current p) (p_current p) (had_error p) (diagnostics p)
       (suppress_struct_init p))) as E.
  cbn in E. rewrite H in E. exact E.
Qed.

Lemma reads_suppressing b p ts p1 :
  reads p ts p1 -> reads (suppressing b p) ts (suppressing b p1).
Proof.
  induction 1 as [p|p t p1 ts p2 Ht Hne Hadv _ IH]; [constructor|].
  econstructor; [done | done | by apply advance_suppressing | done].
Qed.

Lemma suppressing_twice b b' p : suppressing b (suppressing b' p) = suppressing b p.
Proof. done. Qed.

Lemma suppressing_same p : suppressing (suppress_struct_init p) p = p.
Proof. by destruct p. Qed.

Lemma with_suppress_ok {A} b (m : P A) p a p1 :
  m (suppressing b p) = POk a (suppressing b p1) ->
  with_suppress b m p = POk a (suppressing (suppress_struct_init p) p1).
Proof.
  intros H. unfold with_suppress, mbind, P_bind, get, set_suppress, modify.
  change (mkParser _ _ _ _ _ b) with (suppressing b p). by rewrite H.
Qed.

Lemma reads_app p ts ts' p2 :
  reads p (ts ++ ts') p2 -> exists p1, reads p ts p1 /\ reads p1 ts' p2.
Proof.
  revert p. induction ts as [|t ts IH]; intros p H; [exists p; by split; [constructor|]|].
  inversion H; subst. destruct (IH _ ltac:(eassumption)) as (p' & ? & ?).
  exists p'. split; [by econstructor | done].
Qed.

Lemma reads_cons_inv p t ts p2 :
  reads p (t :: ts) p2 ->
  p_current p = t /\ type t <> TOK_EOF /\ exists p1, advance p = POk tt p1 /\ reads p1 ts p2.
Proof. inversion 1; subst; eauto. Qed.

Lemma reads_nil_inv p p2 : reads p [] p2 -> p2 = p.
Proof. by inversion 1. Qed.

(** ** Facts about the table *)

Lemma row_facts row ops ty :
  binary_operators !! row = Some ops -> ty ∈ ops ->
  get_precedence ty = S row /\ extends ty = true /\ postfix_operator ty = false
  /\ (S row < UNARY)%nat.
Proof.
  intros Hrow. do 10 (destruct row as [|row];
    [injection Hrow as <-; rewrite !elem_of_cons, elem_of_nil; intros H;
     repeat destruct H as [->|H]; try done; by split_and!; try (unfold UNARY; simpl; lia)|]).
  done.
Qed.

Lemma prefix_facts ty :
  ty ∈ prefix_operators ->
  is_prefix_operator ty = true /\ ty <> TOK_PLUS_PLUS /\ ty <> TOK_MINUS_MINUS
  /\ ty <> TOK_DISCARD /\ ty <> TOK_RPAREN.
Proof.
  unfold prefix_operators. rewrite !elem_of_cons, elem_of_nil. intros H.
  by repeat destruct H as [->|H].
Qed.

Lemma increment_facts ty :
  ty ∈ increments ->
  is_prefix_operator ty = true /\ (ty = TOK_PLUS_PLUS \/ ty = TOK_MINUS_MINUS).
Proof.
  unfold increments. rewrite !elem_of_cons, elem_of_nil. intros H.
  repeat destruct H as [->|H]; try done; auto.
Qed.

Lemma assignment_facts ty :
  ty = TOK_EQUAL \/ ty ∈ compound_assignments ->
  is_assignment_operator ty = true /\ postfix_operator ty = false /\ get_precedence ty = 0%nat
  /\ (ty = TOK_EQUAL <-> ty ∉ compound_assignments).
Proof.
  unfold compound_assignments. rewrite !elem_of_cons, elem_of_nil. intros H.
  repeat destruct H as [->|H]; try done; intuition congruence.
Qed.

(** How the tokens of an expression begin. *)
Definition begins (k : nat) (ts : list Token) : Prop :=
  match ts with
  | [] => False
  | t :: _ => type t <> TOK_RPAREN /\ (k <> ASSIGNMENT -> type t <> TOK_DISCARD)
              /\ ((UNARY < k)%nat -> is_prefix_operator (type t) = false)
  end.

Lemma begins_app k ts rest : begins k ts -> begins k (ts ++ rest).
Proof. by destruct ts. Qed.

Lemma begins_weaken k ts : begins (S k) ts -> begins k ts.
Proof.
  destruct ts; [done|]. intros (H0 & H1 & H2).
  split_and!; intros; [done | by apply H1 | apply H2; lia].
Qed.

Lemma first_token src k ts n : expr src k ts n -> begins k ts.
Proof.
  revert k ts n.
  apply (expr_mind src (fun k ts _ _ => begins k ts) (fun _ _ _ => True) (fun _ _ _ => True));
    try done; intros; auto using begins_app.
  - by apply begins_weaken.
  - split_and!; [by rewrite e | done | by intros ?%Nat.nlt_0_r].
  - by apply begins_app, begins_weaken.
  - by apply begins_app, begins_weaken.
  - apply prefix_facts in e as (_ & _ & _ & ? & ?). split_and!; [done | done | lia].
  - apply increment_facts in e as (_ & [Ht | Ht]); (split_and!; [by rewrite Ht | by rewrite Ht | lia]).
  - cbn; by rewrite e.
  - cbn; by rewrite e.
  - cbn; by rewrite e.
  - cbn; by rewrite e.
  - cbn; by rewrite e.
  - cbn; by rewrite e.
Qed.

(** ** One operator *)

Section Steps.
Context (src : Text) (fid : Z) (Hsrc : buffer_ok src) (garbage : Garbage).

Lemma inv_suppressing b p : inv src fid p -> inv src fid (suppressing b p).
Proof. intros []. by split. Qed.

Lemma advance_ok p p1 :
  inv src fid p -> advance p = POk tt p1 ->
  inv src fid p1 /\ p_previous p1 = p_current p
  /\ suppress_struct_init p1 = suppress_struct_init p
  /\ (type (p_current p) <> TOK_EOF -> (remaining p1 < remaining p)%nat).
Proof.
  intros Hinv Hadv. pose proof (advance_spec src fid Hsrc p Hinv I) as H.
  unfold pwp in H. rewrite Hadv in H. destruct H as ([] & ? & ? & ?). done.
Qed.

Lemma reads_ok p ts p1 :
  reads p ts p1 -> inv src fid p ->
  inv src fid p1 /\ suppress_struct_init p1 = suppress_struct_init p
  /\ (remaining p1 + length ts <= remaining p)%nat.
Proof.
  induction 1 as [p|p t p1 ts p2 Ht Hne Hadv _ IH]; intros Hinv; [by split_and!; simpl; try lia|].
  destruct (advance_ok _ _ Hinv Hadv) as (Hinv1 & _ & Hs & Hlt). subst t.
  specialize (Hlt Hne). destruct (IH Hinv1) as (? & ? & ?).
  split_and!; [done | congruence | simpl; lia].
Qed.

Lemma token_text_ok t p : inv src fid p -> token_text t p = POk (spelling src t) p.
Proof. intros [(q & (Hs & _) & _)]. unfold token_text, get, spelling. by rewrite Hs. Qed.

(** What an expression of each level promises: the function of the level reads its tokens and
    makes its node; a function that goes on with a loop goes on behind the expression. *)
Definition assignment_read (ts : list Token) (n : Node) : Prop :=
  forall fuel p p', inv src fid p -> reads p ts p' -> (remaining p <= fuel)%nat ->
  extends (type (p_current p')) = false ->
  parse_assignment (grammar garbage fuel) p = POk n p'.

Definition binary_read (k : nat) (ts : list Token) (n : Node) : Prop :=
  forall fuel p p', inv src fid p -> reads p ts p' -> (remaining p <= fuel)%nat ->
  postfix_operator (type (p_current p')) = false ->
  (get_precedence (type (p_current p')) <= k)%nat ->
  forall m r q, (m <= k)%nat ->
  parse_binary_from (grammar garbage fuel) n m p' = POk r q ->
  parse_binary (grammar garbage fuel) m p = POk r q.

Definition unary_read (ts : list Token) (n : Node) : Prop :=
  forall fuel p p', inv src fid p -> reads p ts p' -> (remaining p <= fuel)%nat ->
  postfix_operator (type (p_current p')) = false ->
  parse_unary (grammar garbage fuel) p = POk n p'.

Definition postfix_read (ts : list Token) (n : Node) : Prop :=
  forall fuel p p', inv src fid p -> reads p ts p' -> (remaining p <= fuel)%nat ->
  type (p_current p') <> TOK_LBRACE ->
  forall r q, parse_postfix_from (grammar garbage fuel) n p' = POk r q ->
  parse_postfix (grammar garbage fuel) p = POk r q.

Definition expression_read (k : nat) (ts : list Token) (n : Node) : Prop :=
  if (k =? ASSIGNMENT)%nat then assignment_read ts n
  else if (k <? UNARY)%nat then binary_read k ts n
  else if (k =? UNARY)%nat then unary_read ts n
  else postfix_read ts n.

(** The arguments of a call, up to its parenthesis. *)
Definition arguments_read (ts : list Token) (args : list Node) : Prop :=
  forall fuel p p' acc, inv src fid p -> reads p ts p' -> (remaining p < fuel)%nat ->
  type (p_current p') = TOK_RPAREN ->
  loop (next_argument (grammar garbage fuel)) acc p = POk (acc ++ args) p'.

(** *** The loops stop *)

Lemma binary_stop g l m p :
  (get_precedence (type (p_current p)) < m)%nat -> parse_binary_from g l m p = POk l p.
Proof.
  intros Hlt. apply loop_stop. unfold mbind, P_bind, get. cbv zeta beta.
  by rewrite (proj2 (Nat.ltb_lt _ _) Hlt).
Qed.

Lemma postfix_stop g e p :
  postfix_operator (type (p_current p)) = false -> parse_postfix_from g e p = POk e p.
Proof.
  intros Hp. apply loop_stop. unfold mbind, P_bind, get. by destruct (type (p_current p)).
Qed.

Lemma assignment_stop g l p :
  is_assignment_operator (type (p_current p)) = false -> parse_assignment_from g l p = POk l p.
Proof. intros Ha. unfold parse_assignment_from, mbind, P_bind, get. by rewrite Ha. Qed.

Lemma extends_false ty :
  extends ty = false ->
  postfix_operator ty = false /\ get_precedence ty = 0%nat /\ is_assignment_operator ty = false.
Proof. by destruct ty. Qed.

Lemma not_brace ty : postfix_operator ty = false -> ty <> TOK_LBRACE.
Proof. by intros H ->. Qed.

(** *** Binary operators and assignments *)

(** A hypothesis that the parser reads [ts ++ t :: ts'], in its three parts. *)
Ltac split_reads H :=
  let p1 := fresh "p1" in let p2 := fresh "p2" in
  let Hl := fresh "Hl" in let Ht := fresh "Ht" in let Hne := fresh "Hne" in
  let Hadv := fresh "Hadv" in let Hr := fresh "Hr" in
  apply reads_app in H as (p1 & Hl & H);
  apply reads_cons_inv in H as (Ht & Hne & p2 & Hadv & Hr).

Lemma weaken_assignment ts n :
  begins (BINARY 0) ts -> binary_read (BINARY 0) ts n -> assignment_read ts n.
Proof.
  intros Hb Hn fuel p p' Hinv Hts Hfuel (Hpost & Hprec & Hass)%extends_false.
  destruct ts as [|t ts]; [done|]. pose proof Hts as (Ht & _ & _)%reads_cons_inv.
  unfold parse_assignment. rewrite (bind_ok _ _ p false p).
  2: { apply match_no. rewrite Ht. by apply Hb. }
  rewrite (bind_ok _ _ p n p'); [by apply assignment_stop|].
  eapply Hn; [done..|lia|done|]. apply binary_stop. rewrite Hprec. unfold PREC_LOGICAL_OR. lia.
Qed.

Lemma weaken_binary row ts n :
  binary_read (S (BINARY row)) ts n -> binary_read (BINARY row) ts n.
Proof.
  intros Hn fuel p p' ? ? ? ? ? m r q ? ?. eapply Hn; try done; lia.
Qed.

Lemma get_precedence_below ty : (get_precedence ty < UNARY)%nat.
Proof. apply Nat.ltb_lt. by destruct ty. Qed.

Lemma weaken_unary ts n : unary_read ts n -> binary_read (pred UNARY) ts n.
Proof.
  intros Hn fuel p p' Hinv Hts Hfuel Hpost _ m r q _ Hq.
  unfold parse_binary. rewrite (bind_ok _ _ p n p'); [done|]. by apply Hn.
Qed.

Lemma binary_operator_read row ops lts l t rts r :
  binary_operators !! row = Some ops -> type t ∈ ops ->
  binary_read (BINARY row) lts l ->
  (if (S (BINARY row) <? UNARY)%nat then binary_read (S (BINARY row)) rts r
   else unary_read rts r) ->
  binary_read (BINARY row) (lts ++ t :: rts)
    (ast_new_binary (type t) l r (source_span_join (span_of l) (span_of r))).
Proof.
  intros Hrow Hop Hl Hr fuel p p' Hinv Hts Hfuel Hpost Hprec m x q Hm Hq.
  destruct (row_facts _ _ _ Hrow Hop) as (Hp & _ & Hpo & Hlt).
  split_reads Hts. destruct (reads_ok _ _ _ Hl0 Hinv) as (Hinv1 & _ & Hrem1).
  destruct (advance_ok _ _ Hinv1 Hadv) as (Hinv2 & _ & _ & Hrem2).
  rewrite Ht in Hrem2. specialize (Hrem2 Hne).
  destruct (reads_ok _ _ _ Hr0 Hinv2) as (_ & _ & Hrem3).
  eapply Hl; [done..|by rewrite Ht|rewrite Ht, Hp; done|done|].
  eapply loop_step; [|instantiate (1 := p'); lia|exact Hq].
  unfold mbind at 1, P_bind at 1, get. cbv zeta. rewrite Ht, Hp.
  rewrite (proj2 (Nat.ltb_ge _ _)) by (unfold BINARY in Hm; lia).
  rewrite (bind_ok _ _ p1 tt p2) by done.
  rewrite (bind_ok _ _ p2 r p'); [done|].
  destruct fuel as [|fuel]; [lia|]. cbn [grammar g_binary].
  destruct (Nat.ltb_spec (S (BINARY row)) UNARY).
  - eapply Hr; [done|exact Hr0|lia|done| |done|]; [unfold BINARY in *; lia|].
    apply binary_stop. unfold BINARY in *. lia.
  - unfold parse_binary. rewrite (bind_ok _ _ p2 r p').
    + apply binary_stop. unfold BINARY in *. lia.
    + eapply Hr; [done|exact Hr0|lia|done].
Qed.

Lemma assignment_operator_read lts l t rts r :
  begins (BINARY 0) lts -> binary_read (BINARY 0) lts l -> is_assignable l = true ->
  type t = TOK_EQUAL \/ type t ∈ compound_assignments ->
  assignment_read rts r ->
  assignment_read (lts ++ t :: rts)
    (let sp := source_span_join (span_of l) (span_of r) in
     if bool_decide (type t = TOK_EQUAL) then ast_new_assign l r sp
     else ast_new_compound_assign (type t) l r sp).
Proof.
  intros Hb Hl Hassignable Hop Hr fuel p p' Hinv Hts Hfuel Hext.
  destruct (assignment_facts _ Hop) as (Hass & Hpo & Hp & _).
  split_reads Hts. destruct (reads_ok _ _ _ Hl0 Hinv) as (Hinv1 & _ & Hrem1).
  destruct (advance_ok _ _ Hinv1 Hadv) as (Hinv2 & _ & _ & Hrem2).
  rewrite Ht in Hrem2. specialize (Hrem2 Hne).
  unfold parse_assignment. rewrite (bind_ok _ _ p false p).
  2: { destruct lts as [|t0 lts]; [done|]. pose proof Hl0 as (Ht0 & _ & _)%reads_cons_inv.
       apply match_no. rewrite Ht0. by apply Hb. }
  rewrite (bind_ok _ _ p l p1).
  2: { eapply Hl; [done..|by rewrite Ht|rewrite Ht, Hp; lia|done|].
       apply binary_stop. rewrite Ht, Hp. unfold PREC_LOGICAL_OR. lia. }
  unfold parse_assignment_from. unfold mbind at 1, P_bind at 1, get. rewrite Ht, Hass. cbn [negb].
  rewrite (bind_ok _ _ p1 tt p2) by done. rewrite Hassignable.
  rewrite (bind_ok _ _ p2 tt p2) by done.
  destruct fuel as [|fuel]; [lia|]. cbn [grammar g_assignment].
  rewrite (bind_ok _ _ p2 r p'); [done|]. apply Hr; [done..|lia|done].
Qed.

Lemma discard_read t ts n :
  type t = TOK_DISCARD -> assignment_read ts n ->
  assignment_read (t :: ts) (ast_new_unary TOK_DISCARD n (source_span_join (span t) (span_of n))).
Proof.
  intros Hty Hn fuel p p' Hinv (Ht & Hne & p1 & Hadv & Hts)%reads_cons_inv Hfuel Hext.
  destruct (advance_ok _ _ Hinv Hadv) as (Hinv1 & Hprev & _ & Hrem).
  rewrite Ht in Hrem. specialize (Hrem Hne).
  unfold parse_assignment. rewrite (bind_ok _ _ p true p1) by (apply match_yes; congruence).
  unfold mbind at 1, P_bind at 1, get. rewrite Hprev, Ht.
  destruct fuel as [|fuel]; [lia|]. cbn [grammar g_assignment].
  rewrite (bind_ok _ _ p1 n p'); [done|]. apply Hn; [done..|lia|done].
Qed.

(** *** Unary operators *)

Lemma weaken_postfix ts n :
  begins POSTFIX ts -> postfix_read ts n -> unary_read ts n.
Proof.
  intros Hb Hn fuel p p' Hinv Hts Hfuel Hpost.
  destruct ts as [|t ts]; [done|]. pose proof Hts as (Ht & _ & _)%reads_cons_inv.
  destruct Hb as (_ & _ & Hb). unfold parse_unary, mbind, P_bind, get.
  rewrite Ht, Hb by (unfold POSTFIX; lia).
  eapply Hn; [done..| by apply not_brace |]. by apply postfix_stop.
Qed.

Lemma prefix_operator_read t ts n :
  is_prefix_operator (type t) = true -> unary_read ts n ->
  (type t = TOK_PLUS_PLUS \/ type t = TOK_MINUS_MINUS -> is_assignable n = true) ->
  unary_read (t :: ts)
    (let sp := source_span_join (span t) (span_of n) in
     if bool_decide (type t = TOK_PLUS_PLUS) || bool_decide (type t = TOK_MINUS_MINUS)
     then ast_new_inc_dec (type t) n true sp else ast_new_unary (type t) n sp).
Proof.
  intros Hp Hn Hinc fuel p p' Hinv (Ht & Hne & p1 & Hadv & Hts)%reads_cons_inv Hfuel Hpost.
  destruct (advance_ok _ _ Hinv Hadv) as (Hinv1 & Hprev & _ & Hrem).
  rewrite Ht in Hrem. specialize (Hrem Hne).
  unfold parse_unary. unfold mbind at 1, P_bind at 1, get. rewrite Ht, Hp.
  rewrite (bind_ok _ _ p tt p1) by done.
  destruct fuel as [|fuel]; [lia|]. cbn [grammar g_unary].
  rewrite (bind_ok _ _ p1 n p'); [|by apply Hn; [..|lia|]].
  cbv zeta. unfold make_inc_dec. repeat case_bool_decide; cbn [orb]; try done;
    by rewrite Hinc by tauto.
Qed.

(** *** Postfix operators and primary expressions *)

(** An operator whose tokens [ops] the body of the loop turns into one more node. *)
Lemma postfix_operator_read ts n ops m :
  postfix_read ts n ->
  (forall fuel p p', inv src fid p -> reads p ops p' -> (remaining p <= fuel)%nat ->
   type (p_current p') <> TOK_LBRACE ->
   type (p_current p) <> TOK_LBRACE /\
   forall r q, parse_postfix_from (grammar garbage fuel) m p' = POk r q ->
   parse_postfix_from (grammar garbage fuel) n p = POk r q) ->
  postfix_read (ts ++ ops) m.
Proof.
  intros Hn Hop fuel p p' Hinv (p1 & Hts & Hops)%reads_app Hfuel Hbrace r q Hq.
  destruct (reads_ok _ _ _ Hts Hinv) as (Hinv1 & _ & Hrem).
  destruct (Hop fuel p1 p' Hinv1 Hops) as [Hb Hstep]; [lia | done|].
  eapply Hn; [done..|]. by apply Hstep.
Qed.

Lemma postfix_increment_read ts n t :
  postfix_read ts n -> is_assignable n = true -> type t ∈ increments ->
  postfix_read (ts ++ [t])
    (ast_new_inc_dec (type t) n false (source_span_join (span t) (span_of n))).
Proof.
  intros Hn Ha Hinc. apply (postfix_operator_read _ _ _ _ Hn).
  intros fuel p p' Hinv (Ht & Hne & p1 & Hadv & ->%reads_nil_inv)%reads_cons_inv Hfuel Hbrace.
  destruct (advance_ok _ _ Hinv Hadv) as (_ & Hprev & _ & Hrem).
  rewrite Ht in *. specialize (Hrem Hne).
  apply increment_facts in Hinc as [_ Hty]. split; [by destruct Hty as [-> | ->]|].
  intros r q Hq. eapply loop_step; [|exact Hrem|exact Hq].
  unfold mbind at 1, P_bind at 1, get. rewrite Ht.
  destruct Hty as [Hty | Hty]; rewrite Hty; rewrite (bind_ok _ _ p tt p1) by done;
    unfold make_inc_dec; rewrite Ha; unfold mbind, P_bind; by rewrite Hprev.
Qed.

Lemma field_read ts n dot name :
  postfix_read ts n -> type dot = TOK_DOT -> type name = TOK_IDENT ->
  postfix_read (ts ++ [dot; name]) (ast_new_field n (spelling src name) (span name)).
Proof.
  intros Hn Hdot Hname. apply (postfix_operator_read _ _ _ _ Hn).
  intros fuel p p' Hinv (Ht & Hne & p1 & Hadv & Hts)%reads_cons_inv Hfuel Hbrace.
  apply reads_cons_inv in Hts as (Ht1 & Hne1 & p2 & Hadv1 & ->%reads_nil_inv).
  destruct (advance_ok _ _ Hinv Hadv) as (Hinv1 & _ & _ & Hrem).
  destruct (advance_ok _ _ Hinv1 Hadv1) as (Hinv2 & Hprev & _ & Hrem1).
  rewrite Ht in *. specialize (Hrem Hne). rewrite Ht1 in *. specialize (Hrem1 Hne1).
  split; [by rewrite Hdot|]. intros r q Hq. eapply loop_step; [|instantiate (1 := p2); lia|exact Hq].
  unfold mbind at 1, P_bind at 1, get. rewrite Ht, Hdot. rewrite (bind_ok _ _ p tt p1) by done.
  rewrite (bind_ok _ _ p1 (ast_new_field n (spelling src name) (span name)) p2).
  - unfold maybe_qualified_init, check, get, mbind, P_bind.
    by rewrite bool_decide_eq_false_2.
  - unfold finish_field. rewrite (bind_ok _ _ p1 true p2) by (apply match_yes; congruence).
    cbn [negb]. unfold mbind at 1, P_bind at 1, get. rewrite Hprev.
    by rewrite (bind_ok _ _ p2 (spelling src name) p2) by by apply token_text_ok.
Qed.

(** An expression between brackets, where initializers are allowed. *)
Lemma bracketed_read fuel ts n p p' :
  assignment_read ts n -> inv src fid p -> reads p ts p' -> (remaining p < fuel)%nat ->
  extends (type (p_current p')) = false ->
  with_suppress false (g_assignment (grammar garbage fuel)) p = POk n p'.
Proof.
  intros Hn Hinv Hts Hfuel Hext. destruct (reads_ok _ _ _ Hts Hinv) as (_ & Hs & _).
  rewrite <- (suppressing_same p'), Hs. apply with_suppress_ok.
  destruct fuel as [|fuel]; [lia|]. cbn [grammar g_assignment].
  apply Hn; [by apply inv_suppressing | by apply reads_suppressing | | done].
  change (remaining (suppressing false p)) with (remaining p). lia.
Qed.

Lemma index_read ts n open its i close :
  postfix_read ts n -> type open = TOK_LBRACKET -> assignment_read its i ->
  type close = TOK_RBRACKET ->
  postfix_read (ts ++ open :: its ++ [close])
    (ast_new_index n i (source_span_join (span_of n) (span_of i))).
Proof.
  intros Hn Hopen Hi Hclose. apply (postfix_operator_read _ _ _ _ Hn).
  intros fuel p p' Hinv (Ht & Hne & p1 & Hadv & Hts)%reads_cons_inv Hfuel Hbrace.
  apply reads_app in Hts as (p2 & Hits & Hts).
  apply reads_cons_inv in Hts as (Ht2 & Hne2 & p3 & Hadv2 & ->%reads_nil_inv).
  destruct (advance_ok _ _ Hinv Hadv) as (Hinv1 & _ & _ & Hrem).
  destruct (reads_ok _ _ _ Hits Hinv1) as (Hinv2 & _ & Hrem1).
  destruct (advance_ok _ _ Hinv2 Hadv2) as (_ & _ & _ & Hrem2).
  rewrite Ht in *. specialize (Hrem Hne). rewrite Ht2 in Hrem2. specialize (Hrem2 Hne2).
  split; [by rewrite Hopen|]. intros r q Hq. eapply loop_step; [|instantiate (1 := p3); lia|exact Hq].
  unfold mbind at 1, P_bind at 1, get. rewrite Ht, Hopen. rewrite (bind_ok _ _ p tt p1) by done.
  unfold finish_index.
  rewrite (bind_ok _ _ p1 (ast_new_index n i (source_span_join (span_of n) (span_of i))) p3); [done|].
  rewrite (bind_ok _ _ p1 i p2).
  - by rewrite (bind_ok _ _ p2 true p3) by (apply consume_yes; congruence).
  - apply (bracketed_read _ its); [done..|lia|]. by rewrite Ht2, Hclose.
Qed.

Lemma argument_last_read ts n : assignment_read ts n -> arguments_read ts [n].
Proof.
  intros Hn fuel p p' acc Hinv Hts Hfuel Hclose. apply loop_stop. unfold next_argument.
  destruct fuel as [|fuel]; [lia|].
  rewrite (bind_ok _ _ p n p') by (cbn [grammar g_assignment]; apply Hn; [done..|lia|by rewrite Hclose]).
  rewrite (bind_ok _ _ p' false p') by (apply match_no; congruence).
  rewrite (bind_ok _ _ p' n p') by done.
  by rewrite (bind_ok _ _ p' false p') by (apply match_no; congruence).
Qed.

Lemma argument_more_read ts n comma rest args :
  assignment_read ts n -> type comma = TOK_COMMA -> arguments_read rest args ->
  arguments_read (ts ++ comma :: rest) (n :: args).
Proof.
  intros Hn Hcomma Hargs fuel p p' acc Hinv Hts Hfuel Hclose.
  split_reads Hts. destruct (reads_ok _ _ _ Hl Hinv) as (Hinv1 & _ & Hrem1).
  destruct (advance_ok _ _ Hinv1 Hadv) as (Hinv2 & _ & _ & Hrem2).
  rewrite Ht in Hrem2. specialize (Hrem2 Hne).
  rewrite cons_middle, app_assoc.
  eapply loop_step; [|instantiate (1 := p2); lia|by apply Hargs; [..|lia|]].
  unfold next_argument. destruct fuel as [|fuel]; [lia|].
  rewrite (bind_ok _ _ p n p1)
    by (cbn [grammar g_assignment]; apply Hn; [done..|lia|by rewrite Ht, Hcomma]).
  rewrite (bind_ok _ _ p1 false p1) by (apply match_no; congruence).
  rewrite (bind_ok _ _ p1 n p1) by done.
  by rewrite (bind_ok _ _ p1 true p2) by (apply match_yes; congruence).
Qed.

(** What an argument list promises: nothing between the parentheses, or arguments. *)
Lemma call_read ts n open ats args close :
  postfix_read ts n -> type open = TOK_LPAREN -> type close = TOK_RPAREN ->
  (ats = [] /\ args = [] \/ begins ASSIGNMENT ats /\ arguments_read ats args) ->
  postfix_read (ts ++ open :: ats ++ [close]) (ast_new_call n [] args (span_of n)).
Proof.
  intros Hn Hopen Hclose Hargs. apply (postfix_operator_read _ _ _ _ Hn).
  intros fuel p p' Hinv (Ht & Hne & p1 & Hadv & Hts)%reads_cons_inv Hfuel Hbrace.
  apply reads_app in Hts as (p2 & Hats & Hts).
  apply reads_cons_inv in Hts as (Ht2 & Hne2 & p3 & Hadv2 & ->%reads_nil_inv).
  destruct (advance_ok _ _ Hinv Hadv) as (Hinv1 & _ & _ & Hrem).
  destruct (reads_ok _ _ _ Hats Hinv1) as (Hinv2 & Hs & Hrem1).
  destruct (advance_ok _ _ Hinv2 Hadv2) as (_ & _ & _ & Hrem2).
  rewrite Ht in *. specialize (Hrem Hne). rewrite Ht2 in Hrem2. specialize (Hrem2 Hne2).
  split; [by rewrite Hopen|]. intros r q Hq. eapply loop_step; [|instantiate (1 := p3); lia|exact Hq].
  unfold mbind at 1, P_bind at 1, get. rewrite Ht, Hopen. rewrite (bind_ok _ _ p tt p1) by done.
  unfold finish_call.
  rewrite (bind_ok _ _ p1 (ast_new_call n [] args (span_of n)) p3); [done|].
  rewrite (bind_ok _ _ p1 args p2).
  { by rewrite (bind_ok _ _ p2 true p3) by (apply consume_yes; congruence). }
  rewrite <- (suppressing_same p2), Hs. apply with_suppress_ok.
  unfold check, get. unfold mbind, P_bind.
  change (p_current (suppressing false p1)) with (p_current p1).
  destruct Hargs as [[-> ->]|[Hb Hargs]].
  - apply reads_nil_inv in Hats as ->. by rewrite bool_decide_eq_true_2 by congruence.
  - destruct ats as [|t ats]; [done|]. pose proof Hats as (Ht1 & _ & _)%reads_cons_inv.
    rewrite bool_decide_eq_false_2 by (rewrite Ht1; by apply Hb).
    rewrite <- (app_nil_l args).
    apply Hargs; [by apply inv_suppressing | by apply reads_suppressing | | cbn; congruence].
    change (remaining (suppressing false p1)) with (remaining p1). lia.
Qed.

(** Primary expressions *)
Lemma primary_read ts n :
  (forall fuel p p', inv src fid p -> reads p ts p' -> (remaining p <= fuel)%nat ->
   type (p_current p') <> TOK_LBRACE -> parse_primary (grammar garbage fuel) p = POk n p') ->
  postfix_read ts n.
Proof.
  intros H fuel p p' Hinv Hts Hfuel Hbrace r q Hq.
  unfold parse_postfix. by rewrite (bind_ok _ _ p n p') by by apply H.
Qed.

(** A primary expression of one token, whose node a function makes after the token. *)
Lemma token_read t n (m : Grammar -> P Node) :
  (forall g p, type (p_current p) = type t -> parse_primary g p = (advance ;; m g) p) ->
  (forall g p, inv src fid p -> p_previous p = t -> type (p_current p) <> TOK_LBRACE ->
   m g p = POk n p) ->
  postfix_read [t] n.
Proof.
  intros Hprimary Hm. apply primary_read.
  intros fuel p p' Hinv (Ht & Hne & p1 & Hadv & ->%reads_nil_inv)%reads_cons_inv _ Hbrace.
  destruct (advance_ok _ _ Hinv Hadv) as (Hinv1 & Hprev & _ & _).
  rewrite Hprimary by congruence. rewrite (bind_ok _ _ p tt p1) by done.
  apply Hm; [done | congruence | done].
Qed.

Lemma parenthesized_read open ts n close :
  type open = TOK_LPAREN -> assignment_read ts n -> type close = TOK_RPAREN ->
  postfix_read (open :: ts ++ [close]) n.
Proof.
  intros Hopen Hn Hclose. apply primary_read.
  intros fuel p p' Hinv (Ht & Hne & p1 & Hadv & Hts)%reads_cons_inv Hfuel Hbrace.
  apply reads_app in Hts as (p2 & Hts & Htail).
  apply reads_cons_inv in Htail as (Ht2 & Hne2 & p3 & Hadv2 & ->%reads_nil_inv).
  destruct (advance_ok _ _ Hinv Hadv) as (Hinv1 & _ & _ & Hrem).
  rewrite Ht in Hrem. specialize (Hrem Hne).
  unfold parse_primary. unfold mbind at 1, P_bind at 1, get. rewrite Ht, Hopen.
  rewrite (bind_ok _ _ p tt p1) by done. unfold parse_parenthesized.
  rewrite (bind_ok _ _ p1 n p2).
  - by rewrite (bind_ok _ _ p2 true p3) by (apply consume_yes; congruence).
  - apply (bracketed_read _ ts); [done..|lia|]. by rewrite Ht2, Hclose.
Qed.

Lemma name_read t :
  type t = TOK_IDENT -> postfix_read [t] (ast_new_ident (spelling src t) (span t)).
Proof.
  intros Hty. apply (token_read _ _ parse_name).
  - intros g p Hp. unfold parse_primary, mbind at 1, P_bind at 1, get. by rewrite Hp, Hty.
  - intros g p Hinv Hprev Hbrace. unfold parse_name, check, mbind, P_bind, get.
    rewrite bool_decide_eq_false_2 by done. cbn [andb negb]. rewrite Hprev.
    unfold literal_node. by rewrite (bind_ok _ _ p (spelling src t) p) by by apply token_text_ok.
Qed.

Lemma integer_read t v :
  type t = TOK_NUMBER_INT -> parse_integer_u64 (spelling src t) = Some v ->
  postfix_read [t] (ast_new_integer v (span t)).
Proof.
  intros Hty Hv. apply (token_read _ _ (fun _ => parse_integer)).
  - intros g p Hp. unfold parse_primary, mbind at 1, P_bind at 1, get. by rewrite Hp, Hty.
  - intros g p Hinv Hprev _. unfold parse_integer. unfold mbind at 1, P_bind at 1, get.
    rewrite Hprev, (bind_ok _ _ p (spelling src t) p) by by apply token_text_ok. by rewrite Hv.
Qed.

Lemma constant_read t a ty :
  type t = ty ->
  (forall g p, type (p_current p) = ty -> parse_primary g p = (advance ;; constant_node a) p) ->
  postfix_read [t] (a (span t)).
Proof.
  intros <- Hp. apply (token_read _ _ (fun _ => constant_node a)); [done|].
  intros g p _ Hprev _. unfold constant_node, mbind, P_bind, get. by rewrite Hprev.
Qed.

Lemma true_read t : type t = TOK_TRUE -> postfix_read [t] (ast_new_bool true (span t)).
Proof.
  intros Hty. apply (constant_read t (ast_new_bool true) _ Hty). intros g p Hp.
  unfold parse_primary, mbind at 1, P_bind at 1, get. by rewrite Hp.
Qed.

Lemma false_read t : type t = TOK_FALSE -> postfix_read [t] (ast_new_bool false (span t)).
Proof.
  intros Hty. apply (constant_read t (ast_new_bool false) _ Hty). intros g p Hp.
  unfold parse_primary, mbind at 1, P_bind at 1, get. by rewrite Hp.
Qed.

Lemma null_read t : type t = TOK_NULL -> postfix_read [t] (ast_new_null (span t)).
Proof.
  intros Hty. apply (constant_read t ast_new_null _ Hty). intros g p Hp.
  unfold parse_primary, mbind at 1, P_bind at 1, get. by rewrite Hp.
Qed.

(** *** All levels *)

Lemma expression_weaken k ts n :
  (k < POSTFIX)%nat -> begins (S k) ts -> expression_read (S k) ts n -> expression_read k ts n.
Proof.
  intros Hk Hb Hn. destruct k as [|row]; [by apply weaken_assignment|].
  change (expression_read (S (S row)) ts n)
    with (if (S (S row) <? UNARY)%nat then binary_read (S (S row)) ts n
          else if (S (S row) =? UNARY)%nat then unary_read ts n else postfix_read ts n) in Hn.
  change (if (S row <? UNARY)%nat then binary_read (S row) ts n
          else if (S row =? UNARY)%nat then unary_read ts n else postfix_read ts n).
  unfold POSTFIX in Hk. destruct (Nat.ltb_spec (S row) UNARY) as [Hlt|Hge].
  - destruct (Nat.ltb_spec (S (S row)) UNARY); [by apply weaken_binary|].
    assert (Hu : S (S row) = UNARY) by lia. rewrite Hu, Nat.eqb_refl in Hn.
    replace (S row) with (pred UNARY) by lia. by apply weaken_unary.
  - assert (Hu : S row = UNARY) by lia. rewrite Hu, Nat.eqb_refl.
    rewrite Hu in Hn, Hb. rewrite (proj2 (Nat.ltb_ge _ _)) in Hn by lia.
    rewrite (proj2 (Nat.eqb_neq _ _)) in Hn by lia. by apply weaken_postfix.
Qed.

Lemma compound_not_equal ty : ty ∈ compound_assignments -> bool_decide (ty = TOK_EQUAL) = false.
Proof.
  intros H. destruct (assignment_facts ty (or_intror H)) as (_ & _ & _ & Heq).
  apply bool_decide_eq_false_2. tauto.
Qed.

Lemma expr_read k ts n : expr src k ts n -> expression_read k ts n.
Proof.
  revert k ts n.
  apply (expr_mind src (fun k ts n _ => expression_read k ts n)
    (fun ats args _ => ats = [] /\ args = [] \/ begins ASSIGNMENT ats /\ arguments_read ats args)
    (fun ats args _ => begins ASSIGNMENT ats /\ arguments_read ats args)).
  - intros k ts n Hk He IH. by apply expression_weaken; [|eapply first_token|].
  - intros t ts n Hty _ IH. by apply discard_read.
  - intros lts l t rts r Hl IHl Ha Hty _ IHr. apply first_token in Hl.
    pose proof (assignment_operator_read lts l t rts r Hl IHl Ha (or_introl Hty) IHr) as H.
    by rewrite bool_decide_eq_true_2 in H.
  - intros lts l t rts r Hl IHl Ha Hty _ IHr. apply first_token in Hl.
    pose proof (assignment_operator_read lts l t rts r Hl IHl Ha (or_intror Hty) IHr) as H.
    by rewrite (compound_not_equal _ Hty) in H.
  - intros row ops lts l t rts r Hrow Hop _ IHl _ IHr.
    destruct (row_facts _ _ _ Hrow Hop) as (_ & _ & _ & Hlt).
    apply Nat.ltb_lt in Hlt as Hb. unfold expression_read in IHl |- *.
    change (BINARY row =? ASSIGNMENT)%nat with false in *. unfold BINARY in *. rewrite Hb in *.
    apply (binary_operator_read row ops); [done..|]. unfold BINARY.
    unfold expression_read in IHr. change (S (S row) =? ASSIGNMENT)%nat with false in IHr.
    destruct (Nat.ltb_spec (S (S row)) UNARY); [done|].
    replace (S (S row)) with UNARY in IHr by lia. by rewrite Nat.eqb_refl in IHr.
  - intros t ts n Hop _ IH. destruct (prefix_facts _ Hop) as (Hp & Hne1 & Hne2 & _).
    pose proof (prefix_operator_read t ts n Hp IH ltac:(tauto)) as H.
    by rewrite !bool_decide_eq_false_2 in H.
  - intros t ts n Hop _ IH Ha. destruct (increment_facts _ Hop) as [Hp Hty].
    pose proof (prefix_operator_read t ts n Hp IH ltac:(done)) as H.
    by destruct Hty as [Hty | Hty]; rewrite Hty in *.
  - intros ts n t _ IH Ha Hop. by apply postfix_increment_read.
  - intros ts n dot name _ IH Hdot Hname. by apply field_read.
  - intros ts n open its i close _ IH Hopen _ IHi Hclose. by apply index_read.
  - intros ts n open ats args close _ IH Hopen _ IHa Hclose. by apply call_read.
  - intros open ts n close Hopen _ IH Hclose. by apply parenthesized_read.
  - apply name_read.
  - apply integer_read.
  - apply true_read.
  - apply false_read.
  - apply null_read.
  - by left.
  - intros ts args _ IH. by right.
  - intros ts n He IH. split; [by eapply first_token | by apply argument_last_read].
  - intros ts n comma rest args He IH Hcomma _ [_ IHargs].
    split; [by eapply begins_app, first_token | by apply argument_more_read].
Qed.
End Steps.

(** ** The parser implements the table *)

(** C5. The parser implements the operator table of the language reference: tokens that spell
    an expression of the grammar [expr], followed by a token that does not extend it, are read
    to the last and parsed to the tree the grammar gives them, with the precedence of every
    operator, the associativity of its row and its span, and without a diagnostic of the
    parser's own. *)
Theorem parser_implements_table src fid garbage ts n fuel p p' :
  buffer_ok src -> inv src fid p -> expr src ASSIGNMENT ts n -> reads p ts p' ->
  extends (type (p_current p')) = false -> (remaining p <= fuel)%nat ->
  parse_assignment (grammar garbage fuel) p = POk n p'.
Proof. intros Hsrc Hinv He Hts Hext Hfuel. by apply (expr_read src fid Hsrc garbage _ _ _ He). Qed.

(** The grammar gives a list of tokens one tree. *)
Corollary expr_unambiguous src fid ts n n' p p' :
  buffer_ok src -> inv src fid p -> reads p ts p' -> extends (type (p_current p')) = false ->
  expr src ASSIGNMENT ts n -> expr src ASSIGNMENT ts n' -> n = n'.
Proof.
  intros Hsrc Hinv Hts Hext H H'.
  pose proof (expr_read src fid Hsrc (mkGarbage false []) _ _ _ H) as Hn.
  pose proof (expr_read src fid Hsrc (mkGarbage false []) _ _ _ H') as Hn'.
  specialize (Hn _ p p' Hinv Hts (Nat.le_refl _) Hext).
  specialize (Hn' _ p p' Hinv Hts (Nat.le_refl _) Hext). congruence.
Qed.

(** *** An expression that C groups differently *)

Definition start_of (text : Text) : Parser :=
  match parser_init_common (sample_file text) with
  | POk _ p => p
  | PFault _ =>
      let eof := mkToken TOK_EOF 0 0 0 0 source_span_invalid in
      mkParser (lexer_init_with_source_id 0 "sample.cog" text) eof eof false [] false
  end.

Lemma start_of_inv text : buffer_ok text -> inv text 0 (start_of text).
Proof.
  intros Htext. unfold start_of.
  pose proof (parser_init_ok text 0 Htext (sample_file text)
    (fun _ p => inv text 0 p) eq_refl eq_refl ltac:(auto)) as H.
  by destruct (parser_init_common (sample_file text)).
Qed.

(** The next [k] tokens. *)
Fixpoint read (k : nat) (p : Parser) : option (list Token * Parser) :=
  match k with
  | O => Some ([], p)
  | S k =>
      if bool_decide (type (p_current p) = TOK_EOF) then None
      else match advance p with
           | POk _ p1 => '(ts, p2) ← read k p1; Some (p_current p :: ts, p2)
           | PFault _ => None
           end
  end.

Lemma read_reads k p ts p' : read k p = Some (ts, p') -> reads p ts p'.
Proof.
  revert p ts. induction k as [|k IH]; intros p ts H; simpl in H.
  - injection H as <- <-. constructor.
  - case_bool_decide as Hne; [done|]. destruct (advance p) as [[] p1|] eqn:Hadv; [|done].
    destruct (read k p1) as [[ts1 p2]|] eqn:Hr; [|done]. injection H as <- <-.
    econstructor; eauto.
Qed.

Definition mask_test : Text := cstr "a & b == 0;".

Definition is_mask_test (n : Node) : Prop :=
  match n with
  | mkNode (NODE_BINARY TOK_EQUAL_EQUAL (mkNode (NODE_BINARY TOK_AND a b) _ _) zero) _ _ =>
      as_of a = Some (NODE_IDENT (cstr "a")) /\ as_of b = Some (NODE_IDENT (cstr "b"))
      /\ as_of zero = Some (NODE_NUMBER (LITERAL_INTEGER 0))
  | _ => False
  end.

(** Goes up a level. *)
Ltac raise := apply expr_weaken; [by apply Nat.ltb_lt|].

Lemma mask_test_expr ts p' :
  read 5 (start_of mask_test) = Some (ts, p') ->
  exists n, expr mask_test ASSIGNMENT ts n /\ is_mask_test n.
Proof.
  intros E. vm_compute in E. injection E as <- _. eexists. split.
  - do 3 raise. lazymatch goal with |- expr _ _ [?a; ?b; ?c; ?d; ?e] _ =>
      eapply (expr_binary _ 2 [TOK_EQUAL_EQUAL; TOK_BANG_EQUAL] [a; b; c] _ d [e]) end;
      [reflexivity | by left | | ].
    + do 4 raise. lazymatch goal with |- expr _ _ [?a; ?b; ?c] _ =>
        eapply (expr_binary _ 6 [TOK_AND] [a] _ b [c]) end; [reflexivity | by left | | ].
      * do 5 raise. by apply expr_name.
      * do 4 raise. by apply expr_name.
    + do 8 raise. by apply (expr_integer _ _ 0).
  - by vm_compute.
Qed.

Lemma parser_implements_table_witness :
  match read 5 (start_of mask_test) with
  | Some (_, p') => exists n,
      parse_assignment (grammar (mkGarbage false []) 12) (start_of mask_test) = POk n p'
      /\ is_mask_test n
  | None => False
  end.
Proof.
  destruct (read 5 (start_of mask_test)) as [[ts p']|] eqn:E; [|vm_compute in E; discriminate E].
  destruct (mask_test_expr ts p' E) as (n & He & Hn). exists n. split; [|exact Hn].
  apply (parser_implements_table mask_test 0 (mkGarbage false []) ts n 12 (start_of mask_test) p').
  - apply (bool_decide_unpack _). vm_compute. exact I.
  - apply start_of_inv. apply (bool_decide_unpack _). vm_compute. exact I.
  - exact He.
  - exact (read_reads 5 _ _ _ E).
  - vm_compute in E. injection E as _ <-. reflexivity.
  - vm_compute. lia.
Defined.
