(* ===== verification/Target.v ===== *)
(** Compilation targets ([src/target/target_config.c], [src/target/target_info.c]).

    [unsigned] members are integers in [0, 2^32).  Facts about the C implementation
    that compiles the compiler ([sizeof], [offsetof], [<float.h>]) are the record
    [HostC], an argument of the definitions that read them. *)
From S2P Require Import Prelude.

(** ** Names of targets *)

Inductive TargetArch : Set := TARGET_ARCH_X86_64 | TARGET_ARCH_AARCH64.
Inductive TargetOs : Set := TARGET_OS_LINUX | TARGET_OS_WINDOWS.
Inductive TargetAbi : Set := TARGET_ABI_SYSV | TARGET_ABI_WINDOWS.

Record TargetConfig : Set := mkConfig {
  arch : TargetArch;
  os : TargetOs;
  abi : TargetAbi;
}.

Definition target_parse_config (value : string) : option TargetConfig :=
  if decide (value = "x86_64-linux"%string) then
    Some (mkConfig TARGET_ARCH_X86_64 TARGET_OS_LINUX TARGET_ABI_SYSV)
  else if decide (value = "aarch64-linux"%string) then
    Some (mkConfig TARGET_ARCH_AARCH64 TARGET_OS_LINUX TARGET_ABI_SYSV)
  else if decide (value = "x86_64-windows"%string) then
    Some (mkConfig TARGET_ARCH_X86_64 TARGET_OS_WINDOWS TARGET_ABI_WINDOWS)
  else if decide (value = "aarch64-windows"%string) then
    Some (mkConfig TARGET_ARCH_AARCH64 TARGET_OS_WINDOWS TARGET_ABI_WINDOWS)
  else None.

(** The preprocessor conditions are arguments: [is_aarch64] for
    [defined(__aarch64__) || defined(_M_ARM64)], [is_win32] for [defined(_WIN32)]. *)
Definition target_config_native (is_aarch64 is_win32 : bool) : TargetConfig :=
  mkConfig (if is_aarch64 then TARGET_ARCH_AARCH64 else TARGET_ARCH_X86_64)
           (if is_win32 then TARGET_OS_WINDOWS else TARGET_OS_LINUX)
           (if is_win32 then TARGET_ABI_WINDOWS else TARGET_ABI_SYSV).

(** ** Facts about a target *)

Inductive TargetFloatFormat : Set :=
| TARGET_FLOAT_FORMAT_UNSUPPORTED
| TARGET_FLOAT_FORMAT_IEEE_BINARY32
| TARGET_FLOAT_FORMAT_IEEE_BINARY64.

#[global] Instance TargetFloatFormat_eq_dec : EqDecision TargetFloatFormat.
Proof. solve_decision. Defined.

Record TargetInfo : Set := mkTarget {
  pointer_bits : Z;
  pointer_align_bytes : Z;
  scalar_align_8_bytes : Z;
  scalar_align_16_bytes : Z;
  scalar_align_32_bytes : Z;
  scalar_align_64_bytes : Z;
  c_char_bits : Z;
  c_char_is_signed : bool;
  c_bool_bits : Z;
  c_short_bits : Z;
  c_int_bits : Z;
  c_long_bits : Z;
  c_long_long_bits : Z;
  c_size_bits : Z;
  c_float_format : TargetFloatFormat;
  c_double_format : TargetFloatFormat;
}.

Definition CHAR_BIT : Z := 8.

(** [target_info_init_common]: every member but [c_long_bits], which the caller sets. *)
Definition target_info_init_common (long_bits : Z) : TargetInfo :=
  {| pointer_bits := 64; pointer_align_bytes := 8;
     scalar_align_8_bytes := 1; scalar_align_16_bytes := 2;
     scalar_align_32_bytes := 4; scalar_align_64_bytes := 8;
     c_char_bits := 8; c_char_is_signed := true; c_bool_bits := 8;
     c_short_bits := 16; c_int_bits := 32; c_long_bits := long_bits;
     c_long_long_bits := 64; c_size_bits := 64;
     c_float_format := TARGET_FLOAT_FORMAT_IEEE_BINARY32;
     c_double_format := TARGET_FLOAT_FORMAT_IEEE_BINARY64 |}.

(** [None] is success, [Some message] the refusal; a null target is [None]. *)
Definition target_info_validate (target : option TargetInfo) : option string :=
  match target with
  | None => Some "target description is null"%string
  | Some t =>
      if (pointer_bits t =? 0) || negb (pointer_bits t mod CHAR_BIT =? 0) then
        Some "pointer width must be a non-zero whole number of bytes"%string
      else if (pointer_align_bytes t =? 0) || (scalar_align_8_bytes t =? 0)
              || (scalar_align_16_bytes t =? 0) || (scalar_align_32_bytes t =? 0)
              || (scalar_align_64_bytes t =? 0) then
        Some "layout alignments must be non-zero"%string
      else if c_char_bits t =? 0 then Some "C char width must be non-zero"%string
      else if c_bool_bits t =? 0 then Some "C _Bool width must be non-zero"%string
      else if (c_short_bits t =? 0) || (c_int_bits t =? 0) || (c_long_bits t =? 0)
              || (c_long_long_bits t =? 0) || (c_size_bits t =? 0) then
        Some "C integer widths must be non-zero"%string
      else if (c_int_bits t <? c_short_bits t) || (c_long_bits t <? c_int_bits t)
              || (c_long_long_bits t <? c_long_bits t) then
        Some "C signed integer widths must be non-decreasing"%string
      else None
  end.

(** [None] is the failure return; a null [config] is [None], [out] is not null. *)
Definition target_info_from_config (config : option TargetConfig) : option TargetInfo :=
  match config with
  | None => None
  | Some c =>
      let out := target_info_init_common
        (match os c with TARGET_OS_LINUX => 64 | TARGET_OS_WINDOWS => 32 end) in
      match target_info_validate (Some out) with
      | None => Some out
      | Some _ => None
      end
  end.

(** The C implementation the compiler is built with: sizes in bytes. *)
Record HostC : Set := mkHost {
  sizeof_ptr : Z; alignof_ptr : Z;
  alignof_uint8 : Z; alignof_uint16 : Z; alignof_uint32 : Z; alignof_uint64 : Z;
  char_min_negative : bool;
  sizeof_bool : Z; sizeof_short : Z; sizeof_int : Z; sizeof_long : Z;
  sizeof_long_long : Z; sizeof_size_t : Z;
  flt_radix : Z;
  sizeof_float : Z; flt_mant_dig : Z; flt_min_exp : Z; flt_max_exp : Z;
  sizeof_double : Z; dbl_mant_dig : Z; dbl_min_exp : Z; dbl_max_exp : Z;
}.

Definition host_float_format (radix bits mantissa_bits min_exponent max_exponent : Z)
    : TargetFloatFormat :=
  if negb (radix =? 2) then TARGET_FLOAT_FORMAT_UNSUPPORTED
  else if (bits =? 32) && (mantissa_bits =? 24) && (min_exponent =? -125)
          && (max_exponent =? 128) then TARGET_FLOAT_FORMAT_IEEE_BINARY32
  else if (bits =? 64) && (mantissa_bits =? 53) && (min_exponent =? -1021)
          && (max_exponent =? 1024) then TARGET_FLOAT_FORMAT_IEEE_BINARY64
  else TARGET_FLOAT_FORMAT_UNSUPPORTED.

Definition target_info_host (h : HostC) : TargetInfo :=
  {| pointer_bits := u32 (u64 (sizeof_ptr h * CHAR_BIT));
     pointer_align_bytes := u32 (alignof_ptr h);
     scalar_align_8_bytes := u32 (alignof_uint8 h);
     scalar_align_16_bytes := u32 (alignof_uint16 h);
     scalar_align_32_bytes := u32 (alignof_uint32 h);
     scalar_align_64_bytes := u32 (alignof_uint64 h);
     c_char_bits := u32 (u64 (1 * CHAR_BIT));
     c_char_is_signed := char_min_negative h;
     c_bool_bits := u32 (u64 (sizeof_bool h * CHAR_BIT));
     c_short_bits := u32 (u64 (sizeof_short h * CHAR_BIT));
     c_int_bits := u32 (u64 (sizeof_int h * CHAR_BIT));
     c_long_bits := u32 (u64 (sizeof_long h * CHAR_BIT));
     c_long_long_bits := u32 (u64 (sizeof_long_long h * CHAR_BIT));
     c_size_bits := u32 (u64 (sizeof_size_t h * CHAR_BIT));
     c_float_format := host_float_format (flt_radix h) (u32 (u64 (sizeof_float h * CHAR_BIT)))
       (flt_mant_dig h) (flt_min_exp h) (flt_max_exp h);
     c_double_format := host_float_format (flt_radix h) (u32 (u64 (sizeof_double h * CHAR_BIT)))
       (dbl_mant_dig h) (dbl_min_exp h) (dbl_max_exp h) |}.

(** [a] or [b] null: not equal. *)
Definition target_info_equal (a b : option TargetInfo) : bool :=
  match a, b with
  | Some a, Some b =>
      (pointer_bits a =? pointer_bits b)
      && (pointer_align_bytes a =? pointer_align_bytes b)
      && (scalar_align_8_bytes a =? scalar_align_8_bytes b)
      && (scalar_align_16_bytes a =? scalar_align_16_bytes b)
      && (scalar_align_32_bytes a =? scalar_align_32_bytes b)
      && (scalar_align_64_bytes a =? scalar_align_64_bytes b)
      && (c_char_bits a =? c_char_bits b)
      && bool_decide (c_char_is_signed a = c_char_is_signed b)
      && (c_bool_bits a =? c_bool_bits b)
      && (c_short_bits a =? c_short_bits b)
      && (c_int_bits a =? c_int_bits b)
      && (c_long_bits a =? c_long_bits b)
      && (c_long_long_bits a =? c_long_long_bits b)
      && (c_size_bits a =? c_size_bits b)
      && bool_decide (c_float_format a = c_float_format b)
      && bool_decide (c_double_format a = c_double_format b)
  | _, _ => false
  end.

(** ** Specification *)

(** A target whose natural alignments divide the sizes they apply to, as the layout of
    arrays needs. *)
Definition natural_target (t : TargetInfo) : Prop :=
  target_info_validate (Some t) = None
  /\ 0 < pointer_align_bytes t /\ (pointer_align_bytes t | pointer_bits t / 8)
  /\ scalar_align_8_bytes t = 1
  /\ (0 < scalar_align_16_bytes t /\ (scalar_align_16_bytes t | 2))
  /\ (0 < scalar_align_32_bytes t /\ (scalar_align_32_bytes t | 4))
  /\ (0 < scalar_align_64_bytes t /\ (scalar_align_64_bytes t | 8))
  /\ 0 < pointer_bits t < 2 ^ 32.

(** Linux on x86-64, as a C compiler for it describes itself. *)
Definition lp64_host : HostC :=
  {| sizeof_ptr := 8; alignof_ptr := 8; alignof_uint8 := 1; alignof_uint16 := 2;
     alignof_uint32 := 4; alignof_uint64 := 8; char_min_negative := true;
     sizeof_bool := 1; sizeof_short := 2; sizeof_int := 4; sizeof_long := 8;
     sizeof_long_long := 8; sizeof_size_t := 8; flt_radix := 2;
     sizeof_float := 4; flt_mant_dig := 24; flt_min_exp := -125; flt_max_exp := 128;
     sizeof_double := 8; dbl_mant_dig := 53; dbl_min_exp := -1021; dbl_max_exp := 1024 |}.

Lemma target_info_equal_spec a b : target_info_equal (Some a) (Some b) = true <-> a = b.
Proof.
  split.
  - destruct a, b. simpl. intros H. to_props. rewrite !bool_decide_eq_true in *. by subst.
  - intros ->. destruct b. simpl. rewrite !Z.eqb_refl, !bool_decide_eq_true_2; done.
Qed.

(** ** Properties *)

(** A configuration determines its target: every configuration
    (and so every name the driver accepts) has a valid, naturally aligned 64-bit target whose [long] is 64
    bits exactly on Linux; the description the compiler derives from an LP64 host C
    implementation is, by [target_info_equal], that of the [x86_64-linux] target, and
    [target_info_equal] is equality of every represented fact. *)
Theorem target_info_from_config_correct :
  (forall config, exists t, target_info_from_config (Some config) = Some t
     /\ natural_target t /\ pointer_bits t = 64
       /\ (c_long_bits t = 64 <-> os config = TARGET_OS_LINUX)
       /\ c_size_bits t = pointer_bits t)
  /\ (forall a b, target_info_equal (Some a) (Some b) = true <-> a = b)
  /\ (exists config, target_parse_config "x86_64-linux" = Some config
       /\ config = target_config_native false false
       /\ target_info_equal (Some (target_info_host lp64_host))
            (target_info_from_config (Some config)) = true).
Proof.
  split_and!.
  - intros [ar o ab]. destruct o; (eexists; split; [reflexivity|]);
      unfold natural_target; simpl;
      split_and!; try done; try lia; try by (exists 1); try by (exists 2).
    all: split; intros; done || discriminate.
  - apply target_info_equal_spec.
  - eexists. split; [reflexivity|]. by split.
Qed.

(** The description of the 64-bit Arm Linux target calls plain [char] signed. *)
Example aarch64_linux_char_signed :
  (c_char_is_signed <$> (target_parse_config "aarch64-linux" ≫= fun c =>
                         target_info_from_config (Some c))) = Some true.
Proof. reflexivity. Qed.
