(* ===== verification/Layout.v ===== *)
(** Object layout ([src/target/target_layout.c]): sizes and alignments of types.

    [uint64_t] quantities are integers in [0, 2^64).  A [Type *] is an index into a
    type store; [stack[0 .. depth)] is the list of the aggregate types being laid
    out, innermost first.  The recursion takes fuel; [Diverged] is the answer when it
    runs out and [Dangling] when a pointer leaves the store.  Messages are complete;
    the code truncates them to the caller's buffer. *)
From S2P Require Import Prelude Types Target.

Record TargetLayout : Set := mkLayout {
  size : Z;
  align : Z;
}.

Inductive layout_result : Set :=
| LaidOut (l : TargetLayout)
| Failed (message : string)
| Dangling
| Diverged.

(** [if (!f(..., &l)) return 0;] *)
Definition lbind (m : layout_result) (k : TargetLayout -> layout_result) : layout_result :=
  match m with
  | LaidOut l => k l
  | Failed message => Failed message
  | Dangling => Dangling
  | Diverged => Diverged
  end.

(** The least multiple of [al] from [value] on; [None] is the failure return. *)
Definition round_up (value al : Z) : option Z :=
  if (al =? 0) || (UINT64_MAX - u64 (al - 1) <? value) then None
  else Some (u64 (u64 (u64 (value + al) - 1) / al * al)).

Definition scalar_align (target : TargetInfo) (bits : Z) : Z :=
  if bits =? 8 then scalar_align_8_bytes target
  else if bits =? 16 then scalar_align_16_bytes target
  else if bits =? 32 then scalar_align_32_bytes target
  else if bits =? 64 then scalar_align_64_bytes target
  else 0.

Definition slice_layout (target : TargetInfo) : layout_result :=
  let pointer := mkLayout (pointer_bits target / 8) (pointer_align_bytes target) in
  let length := mkLayout (pointer_bits target / 8) (scalar_align target (pointer_bits target)) in
  match round_up (size pointer) (align length) with
  | None => Failed "slice layout size overflows"
  | Some offset =>
      if UINT64_MAX - size length <? offset then Failed "slice layout size overflows"
      else
        let sz := u64 (offset + size length) in
        let al := if align length <? align pointer then align pointer else align length in
        match round_up sz al with
        | None => Failed "slice layout size overflows"
        | Some total => LaidOut (mkLayout total al)
        end
  end.

Section fields.

(** The recursive call on a member type. *)
Context (layout_of : TypePtr -> layout_result).

(** The loop over the members of a union. *)
Fixpoint union_fields (fs : list StructField) (sz max_align : Z) : layout_result :=
  match fs with
  | [] => LaidOut (mkLayout sz max_align)
  | f :: fs =>
      lbind (layout_of (sf_type f)) (fun field =>
        union_fields fs (if sz <? size field then size field else sz)
                     (if max_align <? align field then align field else max_align))
  end.

(** The loop over the members of a struct. *)
Fixpoint struct_fields (packed : bool) (fs : list StructField) (sz max_align : Z)
    : layout_result :=
  match fs with
  | [] => LaidOut (mkLayout sz max_align)
  | f :: fs =>
      lbind (layout_of (sf_type f)) (fun field =>
        let field_align := if packed then 1 else align field in
        match round_up sz field_align with
        | None => Failed "struct layout size overflows"
        | Some offset =>
            if UINT64_MAX - size field <? offset then Failed "struct layout size overflows"
            else struct_fields packed fs (u64 (offset + size field))
                   (if max_align <? field_align then field_align else max_align)
        end)
  end.

Definition struct_layout (t : Type_) : layout_result :=
  if struct_is_incomplete t then Failed "incomplete struct has no object layout" else
  lbind (if struct_is_union t then union_fields (fields t) 0 1
         else struct_fields (struct_repr_c_packed t) (fields t) 0 1) (fun r =>
    let max_align := if struct_repr_c_packed t then 1 else align r in
    let max_align :=
      if (0 <? struct_repr_c_align t) && (max_align <? u64 (struct_repr_c_align t))
      then u64 (struct_repr_c_align t) else max_align in
    match round_up (size r) max_align with
    | None => Failed "struct layout size overflows"
    | Some total => LaidOut (mkLayout total max_align)
    end).

Definition array_layout (t : Type_) : layout_result :=
  if array_size t <? 0 then Failed "unsized array has no object layout" else
  lbind (layout_of (element t)) (fun el =>
    if negb (u64 (array_size t) =? 0) && (UINT64_MAX / u64 (array_size t) <? size el)
    then Failed "array layout size overflows"
    else LaidOut (mkLayout (u64 (size el * u64 (array_size t))) (align el))).

End fields.

Fixpoint layout_impl (fuel : nat) (target : TargetInfo) (store : TypeStore)
    (type : TypePtr) (stack : list nat) : layout_result :=
  match fuel with
  | O => Diverged
  | S fuel =>
      match type with
      | None => Failed "layout type is null"
      | Some id =>
          if (256 <=? length stack)%nat then Failed "recursive type layout is too deep"
          else if bool_decide (id ∈ stack) then
            Failed "recursive by-value type has no finite layout"
          else
            match store !! id with
            | None => Dangling
            | Some t =>
                match kind t with
                | TYPE_BOOL | TYPE_S8 | TYPE_U8 =>
                    LaidOut (mkLayout 1 (scalar_align target 8))
                | TYPE_S16 | TYPE_U16 => LaidOut (mkLayout 2 (scalar_align target 16))
                | TYPE_S32 | TYPE_U32 | TYPE_F32 =>
                    LaidOut (mkLayout 4 (scalar_align target 32))
                | TYPE_S64 | TYPE_U64 | TYPE_F64 =>
                    LaidOut (mkLayout 8 (scalar_align target 64))
                | TYPE_POINTER | TYPE_OPAQUE_POINTER =>
                    LaidOut (mkLayout (pointer_bits target / 8) (pointer_align_bytes target))
                | TYPE_FUNCTION =>
                    if negb (bool_decide (function_abi t = FUNCTION_ABI_C)) then
                      Failed "ordinary Coglet function has no object layout"
                    else
                      LaidOut (mkLayout (pointer_bits target / 8) (pointer_align_bytes target))
                | TYPE_ARRAY =>
                    array_layout (fun e => layout_impl fuel target store e (id :: stack)) t
                | TYPE_SLICE => slice_layout target
                | TYPE_ENUM =>
                    match enum_backing_type t with
                    | None => Failed "enum backing type is unavailable"
                    | Some b => layout_impl fuel target store (Some b) stack
                    end
                | TYPE_STRUCT =>
                    struct_layout (fun e => layout_impl fuel target store e (id :: stack)) t
                | TYPE_VOID | TYPE_UNTYPED_INT | TYPE_UNTYPED_FLOAT | TYPE_NULL
                | TYPE_NAMED => Failed "type has no concrete object layout"
                end
            end
      end
  end.

(** At most 256 aggregates are open at once, and one enum may stand between two
    of them. *)
Definition LAYOUT_FUEL : nat := 514.

(** [target] null is [None]; [out] is not null. *)
Definition target_layout_of_type (target : option TargetInfo) (store : TypeStore)
    (type : TypePtr) : layout_result :=
  match target with
  | None => Failed "layout target or output is null"
  | Some t =>
      match target_info_validate (Some t) with
      | Some message => Failed (append "invalid target layout: " message)
      | None => layout_impl LAYOUT_FUEL t store type []
      end
  end.

(** ** Specification *)

(** Layouts the rest of the compiler may rely on: sizes are whole multiples of the
    alignment, so that the elements of an array are all aligned. *)
Definition layout_ok (l : TargetLayout) : Prop :=
  0 < align l < 2 ^ 64 /\ 0 <= size l < 2 ^ 64 /\ (align l | size l).

(** The least multiple of [al] that is at least [v]. *)
Definition rounded (v al o : Z) : Prop := (al | o) /\ v <= o < v + al.

(** Type [b] is part of every object of type [a]. *)
Inductive contains (store : TypeStore) (a b : nat) : Prop :=
| contains_element t :
    store !! a = Some t -> kind t = TYPE_ARRAY -> element t = Some b -> contains store a b
| contains_member t f :
    store !! a = Some t -> kind t = TYPE_STRUCT -> f ∈ fields t -> sf_type f = Some b ->
    contains store a b
| contains_backing t :
    store !! a = Some t -> kind t = TYPE_ENUM -> enum_backing_type t = Some b ->
    contains store a b.

(** Pointers stay inside the store. *)
Definition pointer_ok (store : TypeStore) (p : TypePtr) : Prop :=
  match p with Some id => is_Some (store !! id) | None => True end.

(** What semantic analysis establishes of the store: no dangling pointer, [int] members
    in range, and no enum whose backing type is an enum. *)
Definition store_ok (store : TypeStore) : Prop :=
  forall id t, store !! id = Some t ->
    pointer_ok store (element t)
    /\ Forall (fun f => pointer_ok store (sf_type f)) (fields t)
    /\ pointer_ok store (enum_backing_type t)
    /\ array_size t <= INT_MAX /\ struct_repr_c_align t <= INT_MAX
    /\ forall b tb, enum_backing_type t = Some b -> store !! b = Some tb -> kind tb <> TYPE_ENUM.

(** The C rule for members: each at the least suitable offset after the previous. *)
Inductive placed (packed : bool) : Z -> list TargetLayout -> list Z -> Z -> Prop :=
| placed_nil e : placed packed e [] [] e
| placed_cons e l ls o offsets e' :
    rounded e (if packed then 1 else align l) o ->
    placed packed (o + size l) ls offsets e' ->
    placed packed e (l :: ls) (o :: offsets) e'.

Definition max_of (start : Z) (zs : list Z) : Z := foldl Z.max start zs.

(** The alignment an aggregate of members [ls] is given. *)
Definition aggregate_align (t : Type_) (ls : list TargetLayout) : Z :=
  Z.max (if struct_repr_c_packed t then 1 else max_of 1 (align <$> ls))
        (struct_repr_c_align t).

(** ** Lemmas *)

Lemma round_up_spec v al o :
  0 < al < 2 ^ 64 -> 0 <= v < 2 ^ 64 -> round_up v al = Some o ->
  rounded v al o /\ 0 <= o < 2 ^ 64.
Proof.
  unfold round_up, rounded, UINT64_MAX. intros Hal Hv.
  rewrite (proj2 (Z.eqb_neq al 0)) by lia. cbn [orb]. rewrite (u64_small (al - 1)) by lia.
  destruct (Z.ltb_spec (2 ^ 64 - 1 - (al - 1)) v) as [|Hfit]; [done|]. intros Ho.
  injection Ho as <-.
  assert (Hsum : u64 (u64 (v + al) - 1) = v + al - 1).
  { destruct (decide (v + al = 2 ^ 64)) as [He|].
    - rewrite He. replace (v + al - 1) with (2 ^ 64 - 1) by lia. done.
    - rewrite (u64_small (v + al)) by lia. apply u64_small. lia. }
  rewrite Hsum.
  pose proof (Z.mul_div_le (v + al - 1) al ltac:(lia)).
  pose proof (Z.mul_succ_div_gt (v + al - 1) al ltac:(lia)).
  rewrite u64_small by lia.
  split_and!; [by exists ((v + al - 1) / al) | lia..].
Qed.

Lemma round_up_nonzero v al o : round_up v al = Some o -> al <> 0.
Proof. unfold round_up. intros H ->. discriminate H. Qed.

(** Failure means overflow. *)
Lemma round_up_fails v al :
  0 < al < 2 ^ 64 -> 0 <= v < 2 ^ 64 -> round_up v al = None -> 2 ^ 64 <= v + (al - 1).
Proof.
  unfold round_up, UINT64_MAX. intros Hal Hv.
  rewrite (proj2 (Z.eqb_neq al 0)) by lia. cbn [orb]. rewrite (u64_small (al - 1)) by lia.
  destruct (Z.ltb_spec (2 ^ 64 - 1 - (al - 1)) v); [lia | done].
Qed.

Lemma lbind_laid_out m k l :
  lbind m k = LaidOut l -> exists l', m = LaidOut l' /\ k l' = LaidOut l.
Proof. destruct m; simpl; try done. eauto. Qed.

Lemma natural_scalars target :
  natural_target target ->
  layout_ok (mkLayout 1 (scalar_align target 8))
  /\ layout_ok (mkLayout 2 (scalar_align target 16))
  /\ layout_ok (mkLayout 4 (scalar_align target 32))
  /\ layout_ok (mkLayout 8 (scalar_align target 64))
  /\ layout_ok (mkLayout (pointer_bits target / 8) (pointer_align_bytes target)).
Proof.
  intros (Hval & Hp & Hpd & H8 & [H16 H16d] & [H32 H32d] & [H64 H64d] & Hbits).
  unfold scalar_align; simpl. rewrite H8.
  pose proof (Z.divide_pos_le _ 2 ltac:(lia) H16d).
  pose proof (Z.divide_pos_le _ 4 ltac:(lia) H32d).
  pose proof (Z.divide_pos_le _ 8 ltac:(lia) H64d).
  assert (Hpos : 0 < pointer_bits target / 8 < 2 ^ 32).
  { unfold target_info_validate, CHAR_BIT in Hval.
    destruct ((pointer_bits target =? 0) || _) eqn:Hz; [discriminate Hval|]. to_props.
    pose proof (Z.div_mod (pointer_bits target) 8 ltac:(lia)). lia. }
  pose proof (Z.divide_pos_le _ (pointer_bits target `div` 8) ltac:(lia) Hpd).
  unfold layout_ok; simpl. split_and!; try done; try lia.
Qed.

(** Every size a scalar alignment is asked for is a whole number of bytes. *)
Lemma scalar_align_range target bits :
  natural_target target -> scalar_align target bits <> 0 ->
  0 < scalar_align target bits < 2 ^ 64.
Proof.
  intros (_ & _ & _ & H8 & [H16 H16d] & [H32 H32d] & [H64 H64d] & _).
  pose proof (Z.divide_pos_le _ 2 ltac:(lia) H16d).
  pose proof (Z.divide_pos_le _ 4 ltac:(lia) H32d).
  pose proof (Z.divide_pos_le _ 8 ltac:(lia) H64d).
  unfold scalar_align. split_tests.
Qed.

Lemma slice_layout_ok target l :
  natural_target target -> slice_layout target = LaidOut l -> layout_ok l.
Proof.
  intros Ht. destruct (natural_scalars target Ht) as (_ & _ & _ & _ & (Hpa & Hps & _)).
  simpl in Hpa, Hps. unfold slice_layout. cbn [size align].
  destruct (round_up _ _) as [offset|] eqn:Ho; [|done].
  pose proof (scalar_align_range target _ Ht (round_up_nonzero _ _ _ Ho)) as Hla.
  apply round_up_spec in Ho; [|lia..]. destruct Ho as [_ Hoff].
  destruct (Z.ltb_spec (UINT64_MAX - pointer_bits target / 8) offset) as [|Hfit]; [done|].
  unfold UINT64_MAX in Hfit. rewrite u64_small by lia.
  set (al := if _ <? _ then _ else _). assert (Hal : 0 < al < 2 ^ 64).
  { unfold al. destruct (_ <? _); lia. }
  destruct (round_up _ al) as [total|] eqn:Hr; [|done]. intros [= <-].
  apply round_up_spec in Hr; [|lia..]. destruct Hr as [[Hd _] Hrange].
  unfold layout_ok. simpl. done.
Qed.

Section members.

Context (layout_of : TypePtr -> layout_result).
Hypothesis Hmembers : forall p l, layout_of p = LaidOut l -> layout_ok l.

(** The layouts of the members, in order. *)
Definition member_layouts (fs : list StructField) (ls : list TargetLayout) : Prop :=
  Forall2 (fun f l => layout_of (sf_type f) = LaidOut l) fs ls.

Lemma union_fields_spec fs sz ma r :
  0 <= sz < 2 ^ 64 -> 0 < ma < 2 ^ 64 -> union_fields layout_of fs sz ma = LaidOut r ->
  (exists ls, member_layouts fs ls /\ size r = max_of sz (size <$> ls)
     /\ align r = max_of ma (align <$> ls))
  /\ 0 <= size r < 2 ^ 64 /\ 0 < align r < 2 ^ 64.
Proof.
  revert sz ma. induction fs as [|f fs IH]; intros sz ma Hsz Hma; simpl.
  - intros [= <-]. split; [|done]. exists []. split_and!; [constructor | done..].
  - intros H. apply lbind_laid_out in H. destruct H as (l & Hl & H).
    pose proof (Hmembers _ _ Hl) as (Hla & Hls & _).
    apply IH in H; [|destruct (sz <? size l); lia | destruct (ma <? align l); lia].
    destruct H as [(ls & Hm & Hs & Ha) Hr].
    split; [|done]. exists (l :: ls). split; [by constructor|]. rewrite Hs, Ha. simpl.
    unfold max_of. simpl. split; f_equal; split_tests.
Qed.

Lemma struct_fields_spec packed fs sz ma r :
  0 <= sz < 2 ^ 64 -> 0 < ma < 2 ^ 64 ->
  struct_fields layout_of packed fs sz ma = LaidOut r ->
  (exists ls offsets, member_layouts fs ls /\ placed packed sz ls offsets (size r)
     /\ align r = max_of ma ((fun l => if packed then 1 else align l) <$> ls))
  /\ 0 <= size r < 2 ^ 64 /\ 0 < align r < 2 ^ 64.
Proof.
  revert sz ma. induction fs as [|f fs IH]; intros sz ma Hsz Hma; simpl.
  - intros [= <-]. split; [|done]. exists [], []. split_and!; [constructor.. | done].
  - intros H. apply lbind_laid_out in H. destruct H as (l & Hl & H).
    pose proof (Hmembers _ _ Hl) as (Hla & Hls & _).
    set (fa := if packed then 1 else align l) in *.
    assert (Hfa : 0 < fa < 2 ^ 64) by (unfold fa; destruct packed; lia).
    destruct (round_up sz fa) as [o|] eqn:Ho; [|done].
    apply round_up_spec in Ho; [|lia..]. destruct Ho as [Hround Ho].
    destruct (Z.ltb_spec (UINT64_MAX - size l) o) as [|Hfit]; [done|].
    unfold UINT64_MAX in Hfit. rewrite u64_small in H by lia.
    apply IH in H; [|lia | destruct (ma <? fa); lia].
    destruct H as [(ls & offs & Hm & Hp & Ha) Hr].
    split; [|done]. exists (l :: ls), (o :: offs).
    split_and!; [by constructor | by apply placed_cons |].
    rewrite Ha. unfold max_of. simpl. fold fa. f_equal. split_tests.
Qed.

(** The members of an aggregate are laid out by the C rule, its size is rounded up to
    its alignment. *)
Definition aggregate_rule (t : Type_) (l : TargetLayout) : Prop :=
  exists ls, member_layouts (fields t) ls /\ align l = aggregate_align t ls
    /\ if struct_is_union t then rounded (max_of 0 (size <$> ls)) (align l) (size l)
       else exists offsets e, placed (struct_repr_c_packed t) 0 ls offsets e
              /\ rounded e (align l) (size l).

Lemma struct_layout_spec t l :
  struct_repr_c_align t <= INT_MAX -> struct_layout layout_of t = LaidOut l ->
  aggregate_rule t l /\ layout_ok l.
Proof.
  unfold struct_layout, INT_MAX. intros Hra. destruct (struct_is_incomplete t); [done|].
  intros H. apply lbind_laid_out in H. destruct H as (r & Hr & H).
  set (ma := if struct_repr_c_packed t then 1 else align r) in *.
  assert (Hmembs : (exists ls, member_layouts (fields t) ls
      /\ ma = (if struct_repr_c_packed t then 1 else max_of 1 (align <$> ls))
      /\ if struct_is_union t then size r = max_of 0 (size <$> ls)
         else exists offsets, placed (struct_repr_c_packed t) 0 ls offsets (size r))
      /\ 0 <= size r < 2 ^ 64 /\ 0 < ma < 2 ^ 64).
  { subst ma. destruct (struct_is_union t).
    - apply union_fields_spec in Hr; [|lia..]. destruct Hr as [(ls & Hm & Hs & Ha) [Hr1 Hr2]].
      split; [exists ls; rewrite Ha; by destruct (struct_repr_c_packed t)|].
      split; [done|]. by destruct (struct_repr_c_packed t).
    - apply struct_fields_spec in Hr; [|lia..].
      destruct Hr as [(ls & offs & Hm & Hp & Ha) [Hr1 Hr2]].
      split; [|split; [done|]; by destruct (struct_repr_c_packed t)].
      exists ls. split; [done|]. split; [|by exists offs].
      by destruct (struct_repr_c_packed t). }
  clearbody ma. destruct Hmembs as [(ls & Hm & -> & Hsize) [Hs Hma]].
  set (ma := if struct_repr_c_packed t then 1 else _) in *.
  set (al := if _ && _ then _ else _) in H.
  assert (Hal : al = aggregate_align t ls /\ 0 < al < 2 ^ 64).
  { unfold al, aggregate_align. fold ma. destruct (Z.ltb_spec 0 (struct_repr_c_align t)); simpl.
    - rewrite u64_small by lia. split_tests.
    - lia. }
  destruct Hal as [Hal Hrange].
  destruct (round_up (size r) al) as [total|] eqn:Hround; [|done].
  apply round_up_spec in Hround; [|lia..]. destruct Hround as [Hround Htotal].
  injection H as <-. split.
  - exists ls. simpl. split_and!; [done..|]. destruct (struct_is_union t).
    + by rewrite <- Hsize.
    + destruct Hsize as [offs Hp]. by exists offs, (size r).
  - unfold layout_ok. simpl. split_and!; try lia. apply Hround.
Qed.

(** An array is its element repeated; the product does not wrap. *)
Definition array_rule (t : Type_) (l : TargetLayout) : Prop :=
  0 <= array_size t /\ exists el, layout_of (element t) = LaidOut el
    /\ align l = align el /\ size l = array_size t * size el.

Lemma array_layout_spec t l :
  array_size t <= INT_MAX -> array_layout layout_of t = LaidOut l ->
  array_rule t l /\ layout_ok l.
Proof.
  unfold array_layout, INT_MAX. intros Hn. destruct (Z.ltb_spec (array_size t) 0); [done|].
  intros H'. apply lbind_laid_out in H'. destruct H' as (el & Hel & H').
  pose proof (Hmembers _ _ Hel) as (Hea & Hes & Hed).
  rewrite (u64_small (array_size t)) in H' by lia.
  assert (Hfit : 0 <= size el * array_size t < 2 ^ 64).
  { unfold UINT64_MAX in H'. destruct (Z.eqb_spec (array_size t) 0); simpl in H'; [nia|].
    destruct (Z.ltb_spec ((2 ^ 64 - 1) / array_size t) (size el)); [done|].
    pose proof (Z.mul_div_le (2 ^ 64 - 1) (array_size t) ltac:(lia)). nia. }
  destruct (negb _ && _); [done|]. rewrite u64_small in H' by lia. injection H' as <-.
  split.
  - split; [done|]. exists el. simpl. split_and!; [done..|]. ring.
  - unfold layout_ok. simpl. split_and!; try lia. by apply Z.divide_mul_l.
Qed.

End members.

Lemma layout_impl_ok target store :
  natural_target target -> store_ok store ->
  forall fuel type stack l, layout_impl fuel target store type stack = LaidOut l ->
  layout_ok l.
Proof.
  intros Ht Hstore. pose proof (natural_scalars target Ht) as (H8 & H16 & H32 & H64 & Hp).
  induction fuel as [|fuel IH]; intros type stack l; cbn [layout_impl]; [done|].
  destruct type as [id|]; [|done].
  destruct (256 <=? length stack)%nat; [done|]. destruct (bool_decide (id ∈ stack)); [done|].
  destruct (store !! id) as [t|] eqn:Hid; [|done].
  destruct (Hstore id t Hid) as (_ & _ & _ & Harr & Hra & _).
  destruct (kind t) eqn:Hk; try done; try (by intros [= <-]).
  - apply array_layout_spec; [|done]. intros p l'. apply IH.
  - by apply slice_layout_ok.
  - intros H. eapply struct_layout_spec; [|done|exact H]. intros p l'. apply IH.
  - destruct (enum_backing_type t); [|done]. apply IH.
  - by destruct (bool_decide _); [intros [= <-]|].
Qed.

(** *** More fuel and fewer open types change no layout *)

Section monotone.

Context (layout_of layout_of' : TypePtr -> layout_result).
Hypothesis Hmono : forall p l, layout_of p = LaidOut l -> layout_of' p = LaidOut l.

Lemma lbind_mono m m' k k' r :
  (forall l, m = LaidOut l -> m' = LaidOut l) ->
  (forall l, k l = LaidOut r -> k' l = LaidOut r) ->
  lbind m k = LaidOut r -> lbind m' k' = LaidOut r.
Proof.
  intros Hm Hk H. apply lbind_laid_out in H. destruct H as (l & Hl & H).
  rewrite (Hm l Hl). by apply Hk.
Qed.

Lemma union_fields_mono fs sz ma r :
  union_fields layout_of fs sz ma = LaidOut r -> union_fields layout_of' fs sz ma = LaidOut r.
Proof.
  revert sz ma. induction fs as [|f fs IH]; intros sz ma; [done|]. simpl.
  apply lbind_mono; [apply Hmono | intros l; apply IH].
Qed.

Lemma struct_fields_mono packed fs sz ma r :
  struct_fields layout_of packed fs sz ma = LaidOut r ->
  struct_fields layout_of' packed fs sz ma = LaidOut r.
Proof.
  revert sz ma. induction fs as [|f fs IH]; intros sz ma; [done|]. simpl.
  apply lbind_mono; [apply Hmono |]. intros l.
  destruct (round_up _ _); [|done]. destruct (_ <? _); [done | apply IH].
Qed.

Lemma struct_layout_mono t r :
  struct_layout layout_of t = LaidOut r -> struct_layout layout_of' t = LaidOut r.
Proof.
  unfold struct_layout. destruct (struct_is_incomplete t); [done|].
  apply lbind_mono; [|done]. intros l.
  destruct (struct_is_union t); [apply union_fields_mono | apply struct_fields_mono].
Qed.

Lemma array_layout_mono t r :
  array_layout layout_of t = LaidOut r -> array_layout layout_of' t = LaidOut r.
Proof.
  unfold array_layout. destruct (_ <? 0); [done|]. by apply lbind_mono; [apply Hmono|].
Qed.

End monotone.

Lemma layout_impl_mono target store fuel : forall fuel' type stack stack' l,
  (fuel <= fuel')%nat -> stack' ⊆ stack -> (length stack' <= length stack)%nat ->
  layout_impl fuel target store type stack = LaidOut l ->
  layout_impl fuel' target store type stack' = LaidOut l.
Proof.
  induction fuel as [|fuel IH]; intros [|fuel'] type stack stack' l Hf Hsub Hlen;
    cbn [layout_impl]; try done; [lia|].
  destruct type as [id|]; [|done].
  destruct (Nat.leb_spec 256 (length stack)); [done|].
  rewrite (proj2 (Nat.leb_gt 256 (length stack'))) by lia.
  destruct (bool_decide_reflect (id ∈ stack)) as [|Hid]; [done|].
  rewrite (bool_decide_eq_false_2 (id ∈ stack')) by set_solver.
  assert (Hrec : forall e r, layout_impl fuel target store e (id :: stack) = LaidOut r ->
            layout_impl fuel' target store e (id :: stack') = LaidOut r).
  { intros e r. apply IH; [lia | set_solver | simpl; lia]. }
  destruct (store !! id) as [t|]; [|done]. destruct (kind t); try done.
  - by apply array_layout_mono.
  - by apply struct_layout_mono.
  - destruct (enum_backing_type t); [|done]. apply IH; [lia | done | done].
Qed.

(** *** Termination *)

(** An answer the C code can give. *)
Definition answered (r : layout_result) : Prop :=
  match r with
  | LaidOut _ | Failed _ => True
  | Dangling | Diverged => False
  end.

Section answers.

Context (layout_of : TypePtr -> layout_result).

Lemma answered_lbind m k :
  answered m -> (forall l, answered (k l)) -> answered (lbind m k).
Proof. destruct m; simpl; auto. Qed.

Lemma answered_union_fields fs : forall sz ma,
  Forall (fun f => answered (layout_of (sf_type f))) fs ->
  answered (union_fields layout_of fs sz ma).
Proof.
  induction fs as [|f fs IH]; intros sz ma; [done|]. simpl. intros [Hf Hfs]%Forall_cons.
  by apply answered_lbind; [|intros l; apply IH].
Qed.

Lemma answered_struct_fields packed fs : forall sz ma,
  Forall (fun f => answered (layout_of (sf_type f))) fs ->
  answered (struct_fields layout_of packed fs sz ma).
Proof.
  induction fs as [|f fs IH]; intros sz ma; [done|]. simpl. intros [Hf Hfs]%Forall_cons.
  apply answered_lbind; [done|]. intros l. destruct (round_up _ _); [|done].
  destruct (_ <? _); [done|]. by apply IH.
Qed.

Lemma answered_struct_layout t :
  Forall (fun f => answered (layout_of (sf_type f))) (fields t) ->
  answered (struct_layout layout_of t).
Proof.
  intros Hfs. unfold struct_layout. destruct (struct_is_incomplete t); [done|].
  apply answered_lbind.
  - destruct (struct_is_union t); [by apply answered_union_fields | by apply answered_struct_fields].
  - intros l. by destruct (round_up _ _).
Qed.

Lemma answered_array_layout t :
  answered (layout_of (element t)) -> answered (array_layout layout_of t).
Proof.
  intros He. unfold array_layout. destruct (_ <? 0); [done|].
  apply answered_lbind; [done|]. intros l. by destruct (_ && _).
Qed.

End answers.

Lemma answered_slice_layout target : answered (slice_layout target).
Proof.
  unfold slice_layout. cbn [size align]. destruct (round_up _ _); [|done].
  destruct (_ <? _); [done|]. by destruct (round_up _ _).
Qed.

(** Every recursive call opens an aggregate, except that of an enum, whose backing
    type makes no further enum step. *)
Lemma layout_impl_answered target store :
  store_ok store -> forall fuel type stack,
  pointer_ok store type -> (length stack <= 256)%nat -> (1 <= fuel)%nat ->
  (forall id t, type = Some id -> store !! id = Some t ->
     2 * (256 - length stack) + (if decide (kind t = TYPE_ENUM) then 1 else 0) <= fuel)%nat ->
  answered (layout_impl fuel target store type stack).
Proof.
  intros Hstore. induction fuel as [|fuel IH]; intros type stack Hp Hlen H1 Hfuel; [lia|].
  cbn [layout_impl]. destruct type as [id|]; [|done].
  destruct (Nat.leb_spec 256 (length stack)); [done|].
  destruct (bool_decide (id ∈ stack)); [done|].
  simpl in Hp. destruct (store !! id) as [t|] eqn:Hid; [|by destruct Hp].
  specialize (Hfuel id t eq_refl Hid).
  destruct (Hstore id t Hid) as (Hel & Hfs & Hb & _ & _ & Hflat).
  assert (Hmember : kind t <> TYPE_ENUM -> forall p, pointer_ok store p ->
            answered (layout_impl fuel target store p (id :: stack))).
  { intros Hk p Hpp. rewrite decide_False in Hfuel by done.
    apply IH; [done | simpl; lia | lia |]. intros id' t' _ _. simpl. case_decide; lia. }
  destruct (kind t) eqn:Hk; try done.
  - apply answered_array_layout. by apply Hmember.
  - apply answered_slice_layout.
  - apply answered_struct_layout. eapply Forall_impl; [exact Hfs|].
    intros f Hf. by apply Hmember.
  - destruct (enum_backing_type t) as [b|] eqn:Hback; [|done].
    rewrite decide_True in Hfuel by done.
    apply IH; [done | done | lia |]. intros id' t' [= <-] Ht'.
    rewrite decide_False by (by eapply Hflat). lia.
  - by destruct (bool_decide _).
Qed.

(** *** Types that contain themselves *)

Lemma union_fields_member layout_of fs f : forall sz ma r,
  union_fields layout_of fs sz ma = LaidOut r -> f ∈ fs ->
  exists l, layout_of (sf_type f) = LaidOut l.
Proof.
  induction fs as [|g fs IH]; intros sz ma r H Hf; [by apply elem_of_nil in Hf|].
  simpl in H. apply lbind_laid_out in H. destruct H as (l & Hl & H).
  apply elem_of_cons in Hf. destruct Hf as [->|Hf]; eauto.
Qed.

Lemma struct_fields_member layout_of packed fs f : forall sz ma r,
  struct_fields layout_of packed fs sz ma = LaidOut r -> f ∈ fs ->
  exists l, layout_of (sf_type f) = LaidOut l.
Proof.
  induction fs as [|g fs IH]; intros sz ma r H Hf; [by apply elem_of_nil in Hf|].
  simpl in H. apply lbind_laid_out in H. destruct H as (l & Hl & H).
  destruct (round_up _ _); [|done]. destruct (_ <? _); [done|].
  apply elem_of_cons in Hf. destruct Hf as [->|Hf]; eauto.
Qed.

(** A layout of a type comes with a layout of everything it contains, found with less
    fuel. *)
Lemma layout_impl_contains target store fuel stack a b l :
  layout_impl fuel target store (Some a) stack = LaidOut l -> contains store a b ->
  exists fuel' stack' l', (fuel' < fuel)%nat
    /\ layout_impl fuel' target store (Some b) stack' = LaidOut l'.
Proof.
  destruct fuel as [|fuel]; cbn [layout_impl]; [done|].
  destruct (256 <=? length stack)%nat; [done|]. destruct (bool_decide (a ∈ stack)); [done|].
  intros H [t Ht Hk He | t f Ht Hk Hf Hb | t Ht Hk Hb]; rewrite Ht, Hk in H.
  - unfold array_layout in H. destruct (_ <? 0); [done|].
    apply lbind_laid_out in H. destruct H as (l' & Hl' & _). rewrite He in Hl'.
    exists fuel, (a :: stack), l'. split; [lia | done].
  - unfold struct_layout in H. destruct (struct_is_incomplete t); [done|].
    apply lbind_laid_out in H. destruct H as (r & Hr & _).
    assert (Hm : exists l', layout_impl fuel target store (sf_type f) (a :: stack) = LaidOut l').
    { destruct (struct_is_union t);
        [by apply (union_fields_member _ _ _ _ _ _ Hr Hf)
        |by apply (struct_fields_member _ _ _ _ _ _ _ Hr Hf)]. }
    destruct Hm as [l' Hl']. rewrite Hb in Hl'. exists fuel, (a :: stack), l'. split; [lia | done].
  - rewrite Hb in H. exists fuel, stack, l. split; [lia | done].
Qed.

Lemma layout_impl_acc target store fuel : forall stack a l,
  layout_impl fuel target store (Some a) stack = LaidOut l ->
  Acc (fun x y => contains store y x) a.
Proof.
  induction fuel as [fuel IH] using lt_wf_ind. intros stack a l H. constructor. intros b Hb.
  destruct (layout_impl_contains _ _ _ _ _ _ _ H Hb) as (fuel' & stack' & l' & Hlt & H').
  by eapply IH.
Qed.

Lemma acc_no_cycle store a :
  Acc (fun x y => contains store y x) a -> ~ tc (contains store) a a.
Proof.
  induction 1 as [a _ IH]. intros Hc.
  assert (Hstep : exists b, contains store a b /\ tc (contains store) b b).
  { inversion Hc as [? ? Hab | ? b ? Hab Hba]; subst.
    - by exists a.
    - exists b. split; [done|]. by eapply tc_r. }
  destruct Hstep as (b & Hab & Hbb). by apply (IH b).
Qed.

Lemma target_layout_top target store type :
  target_info_validate (Some target) = None ->
  target_layout_of_type (Some target) store type
  = layout_impl LAYOUT_FUEL target store type [].
Proof. intros Hv. unfold target_layout_of_type. by rewrite Hv. Qed.

Lemma layout_fuel_S : exists fuel, LAYOUT_FUEL = S fuel.
Proof. by exists 513%nat. Qed.

Lemma target_layout_answered target store type :
  store_ok store -> pointer_ok store type ->
  answered (target_layout_of_type (Some target) store type).
Proof.
  intros Hstore Hp. unfold target_layout_of_type. destruct (target_info_validate _); [done|].
  apply layout_impl_answered; [done..| | |]; unfold LAYOUT_FUEL; simpl; try lia.
  intros. case_decide; lia.
Qed.

(** ** Properties *)

(** C20. A layout is usable: on a naturally aligned target every type that gets a
    layout has a non-zero alignment that divides its size; an array is its element
    repeated without wrap-around; the members of a struct lie one after another, each
    at the least offset its alignment allows (any offset when packed), those of a
    union at 0, and the size is the least multiple of the alignment that holds
    them. *)
Theorem target_layout_correct target store id t l :
  natural_target target -> store_ok store -> store !! id = Some t ->
  target_layout_of_type (Some target) store (Some id) = LaidOut l ->
  let layout_of := target_layout_of_type (Some target) store in
  layout_ok l
  /\ (kind t = TYPE_ARRAY -> array_rule layout_of t l)
  /\ (kind t = TYPE_STRUCT -> aggregate_rule layout_of t l)
  /\ (kind t = TYPE_ENUM -> layout_of (enum_backing_type t) = LaidOut l).
Proof.
  intros Ht Hstore Hid H layout_of.
  assert (Hv : target_info_validate (Some target) = None) by apply Ht.
  assert (Htop : forall fuel p stack r, (fuel <= LAYOUT_FUEL)%nat ->
    layout_impl fuel target store p stack = LaidOut r -> layout_of p = LaidOut r).
  { intros fuel p stack r Hf Hr. unfold layout_of. rewrite target_layout_top by done.
    apply (layout_impl_mono target store fuel LAYOUT_FUEL p stack [] r); [exact Hf | | | exact Hr].
    - apply list_subseteq_nil.
    - apply Nat.le_0_l. }
  rewrite target_layout_top in H by done.
  split; [by eapply layout_impl_ok|].
  destruct (Hstore id t Hid) as (_ & _ & _ & Harr & Hra & _).
  destruct (layout_fuel_S) as (fuel & HF). rewrite HF in *. cbn [layout_impl] in H.
  rewrite bool_decide_eq_false_2, Hid in H by set_solver.
  change (256 <=? @length nat [])%nat with false in H. cbv iota in H.
  split_and!; intros Hk; rewrite Hk in H.
  - apply array_layout_mono with (layout_of' := layout_of) in H.
    + eapply array_layout_spec; [|done|exact H].
      intros p r Hr. unfold layout_of in Hr. rewrite target_layout_top in Hr by done.
      by eapply layout_impl_ok.
    + intros p r Hr. by eapply Htop; [apply Nat.le_succ_diag_r | exact Hr].
  - apply struct_layout_mono with (layout_of' := layout_of) in H.
    + eapply struct_layout_spec; [|done|exact H].
      intros p r Hr. unfold layout_of in Hr. rewrite target_layout_top in Hr by done.
      by eapply layout_impl_ok.
    + intros p r Hr. by eapply Htop; [apply Nat.le_succ_diag_r | exact Hr].
  - destruct (enum_backing_type t); [|done]. by eapply Htop; [apply Nat.le_succ_diag_r | exact H].
Qed.

(** [s8], [s32], a struct of one of each, and a struct that contains itself. *)
Definition example_store : TypeStore :=
  [ type_of_kind TYPE_S8; type_of_kind TYPE_S32;
    {| kind := TYPE_STRUCT; element := None; pointer_access := POINTER_ACCESS_MUTABLE;
       pointer_is_volatile := false; array_size := -1; named_module := ""; named_name := "";
       type_arguments := []; struct_name := "pair";
       fields := [mkStructField "a" (Some 0%nat); mkStructField "b" (Some 1%nat)];
       struct_is_repr_c := false; struct_is_resource := false;
       struct_repr_c_packed := false; struct_repr_c_align := 0;
       struct_is_union := false; struct_is_incomplete := false; parameters := [];
       return_type := None; function_abi := FUNCTION_ABI_COGLET;
       function_call_conv := C_CALL_DEFAULT; function_is_variadic := false;
       enum_name := ""; enum_is_repr_c := false; enum_backing_type := None;
       enum_members := [] |};
    {| kind := TYPE_STRUCT; element := None; pointer_access := POINTER_ACCESS_MUTABLE;
       pointer_is_volatile := false; array_size := -1; named_module := ""; named_name := "";
       type_arguments := []; struct_name := "self";
       fields := [mkStructField "me" (Some 3%nat)];
       struct_is_repr_c := false; struct_is_resource := false;
       struct_repr_c_packed := false; struct_repr_c_align := 0;
       struct_is_union := false; struct_is_incomplete := false; parameters := [];
       return_type := None; function_abi := FUNCTION_ABI_COGLET;
       function_call_conv := C_CALL_DEFAULT; function_is_variadic := false;
       enum_name := ""; enum_is_repr_c := false; enum_backing_type := None;
       enum_members := [] |} ]%string.

Lemma example_store_ok : store_ok example_store.
Proof.
  intros id t Hid. unfold example_store in Hid.
  do 4 (destruct id as [|id]; [injection Hid as <-; simpl; split_and!; try done;
    try (forall_cons; simpl; done || (by eexists)) |]).
  done.
Qed.

Lemma natural_target_lp64 : natural_target (target_info_host lp64_host).
Proof.
  unfold natural_target. simpl. split_and!; try done; try by (exists 1); by exists 8.
Qed.

Lemma target_layout_correct_witness :
  let target := target_info_host lp64_host in
  target_layout_of_type (Some target) example_store (Some 2%nat) = LaidOut (mkLayout 8 4)
  /\ layout_ok (mkLayout 8 4).
Proof.
  split; [vm_compute; reflexivity|].
  refine (proj1 (target_layout_correct (target_info_host lp64_host) example_store 2 _ _
    natural_target_lp64 example_store_ok eq_refl _)).
  vm_compute. reflexivity.
Defined.

(** The layout of any type of a well-formed store, cyclic or not, is answered: the
    recursion is at most 514 calls deep, no dangling pointer is followed, and the
    answer is a layout or a diagnostic. *)
Theorem target_layout_terminates target store type :
  store_ok store -> pointer_ok store type ->
  (exists l, target_layout_of_type target store type = LaidOut l)
  \/ (exists message, target_layout_of_type target store type = Failed message).
Proof.
  intros Hstore Hp. destruct target as [target|]; [|right; by eexists].
  pose proof (target_layout_answered target store type Hstore Hp) as H.
  destruct (target_layout_of_type _ _ _); [by left; eexists | by right; eexists | done..].
Qed.

Lemma target_layout_terminates_witness :
  (exists l, target_layout_of_type (Some (target_info_host lp64_host)) example_store (Some 3%nat)
             = LaidOut l)
  \/ (exists message, target_layout_of_type (Some (target_info_host lp64_host)) example_store
                        (Some 3%nat) = Failed message).
Proof.
  apply (target_layout_terminates (Some (target_info_host lp64_host)) example_store).
  - apply example_store_ok.
  - by eexists.
Defined.

(** Types of infinite size are refused: a type that contains itself by value,
    through any mix of arrays, struct and union members and enum backing types, gets a
    diagnostic, and whenever a type gets a layout, nothing it contains is recursive. *)
Theorem recursive_type_has_no_layout target store id :
  store_ok store -> is_Some (store !! id) ->
  (tc (contains store) id id ->
   exists message, target_layout_of_type (Some target) store (Some id) = Failed message)
  /\ (forall l id', target_layout_of_type (Some target) store (Some id) = LaidOut l ->
      rtc (contains store) id id' -> ~ tc (contains store) id' id').
Proof.
  intros Hstore Hid.
  assert (Hacc : forall l, target_layout_of_type (Some target) store (Some id) = LaidOut l ->
            Acc (fun x y => contains store y x) id).
  { intros l H. unfold target_layout_of_type in H.
    destruct (target_info_validate _); [done|]. by eapply layout_impl_acc. }
  split.
  - intros Hc. pose proof (target_layout_answered target store (Some id) Hstore Hid) as Ha.
    destruct (target_layout_of_type _ _ _) as [l| | |] eqn:H; [|by eexists|done..].
    by destruct (acc_no_cycle store id (Hacc l eq_refl)).
  - intros l id' H Hr. apply acc_no_cycle. specialize (Hacc l H). clear H Hid.
    induction Hr as [|a b c Hab _ IH]; [done|]. apply IH. by apply Hacc.
Qed.

Lemma recursive_type_has_no_layout_witness :
  exists message, target_layout_of_type (Some (target_info_host lp64_host)) example_store
                    (Some 3%nat) = Failed message.
Proof.
  apply (recursive_type_has_no_layout (target_info_host lp64_host) example_store 3).
  - apply example_store_ok.
  - by eexists.
  - apply tc_once. eapply contains_member; [reflexivity | reflexivity | left | reflexivity].
Defined.
