(* ===== verification/CogIr.v ===== *)
(** The data model of CogIR ([src/include/ir/cog_ir.h]).

    Identifiers are [uint32_t] indices into the tables of the module, with the
    sentinel [COG_IR_ID_INVALID]; they are binary naturals.  A growable C array with
    its count and capacity is a [table].  An array argument, a pointer and a count,
    is a [carray]: a null pointer is told apart from an array.  A tagged union is an
    inductive type with one constructor per member; a [StringView] is the text it
    denotes. *)
From S2P Require Import Prelude Source Target.

Abbreviation CogIrTypeId := N (only parsing).
Abbreviation CogIrAbiTypeId := N (only parsing).
Abbreviation CogIrConstId := N (only parsing).
Abbreviation CogIrGlobalId := N (only parsing).
Abbreviation CogIrFunctionId := N (only parsing).
Abbreviation CogIrBlockId := N (only parsing).
Abbreviation CogIrValueId := N (only parsing).
Abbreviation CogIrSlotId := N (only parsing).

Definition COG_IR_ID_INVALID : N := 4294967295.

(** ** Arrays *)

Record table (A : Type) : Type := mkTable {
  items : list A;
  capacity : N;
}.
Arguments mkTable {A} items capacity.
Arguments items {A} t.
Arguments capacity {A} t.

Definition empty_table {A} : table A := mkTable [] 0.

Definition count {A} (t : table A) : N := N.of_nat (length (items t)).

Inductive carray (A : Type) : Type :=
| NullArray (n : N)
| Array (xs : list A).
Arguments NullArray {A} n.
Arguments Array {A} xs.

Definition array_count {A} (a : carray A) : N :=
  match a with NullArray n => n | Array xs => N.of_nat (length xs) end.

Definition elements {A} (a : carray A) : list A :=
  match a with NullArray _ => [] | Array xs => xs end.

(** [count && !data] *)
Definition missing_array {A} (a : carray A) : bool :=
  match a with NullArray n => negb (n =? 0)%N | Array _ => false end.

(** ** Enumerations *)

Inductive CogIrTypeKind : Set :=
| COG_IR_TYPE_VOID | COG_IR_TYPE_BOOL | COG_IR_TYPE_INTEGER | COG_IR_TYPE_FLOAT
| COG_IR_TYPE_POINTER | COG_IR_TYPE_OPAQUE_POINTER | COG_IR_TYPE_ARRAY
| COG_IR_TYPE_STRUCT | COG_IR_TYPE_UNION | COG_IR_TYPE_ENUM | COG_IR_TYPE_FUNCTION.

Inductive CogIrAbiRepresentation : Set := COG_IR_ABI_COGLET | COG_IR_ABI_C.

Inductive CogIrCallingConvention : Set :=
| COG_IR_CALL_DEFAULT | COG_IR_CALL_CDECL | COG_IR_CALL_STDCALL | COG_IR_CALL_SYSV64
| COG_IR_CALL_WIN64.

Inductive CogIrLinkage : Set := COG_IR_LINKAGE_INTERNAL | COG_IR_LINKAGE_EXTERNAL.

Inductive CogIrFunctionKind : Set :=
| COG_IR_FUNCTION_DECLARATION | COG_IR_FUNCTION_DEFINITION.

Inductive CogIrCScalarKind : Set :=
| COG_IR_C_SCALAR_NONE | COG_IR_C_SCALAR_CHAR | COG_IR_C_SCALAR_SCHAR
| COG_IR_C_SCALAR_UCHAR | COG_IR_C_SCALAR_SHORT | COG_IR_C_SCALAR_USHORT
| COG_IR_C_SCALAR_INT | COG_IR_C_SCALAR_UINT | COG_IR_C_SCALAR_LONG
| COG_IR_C_SCALAR_ULONG | COG_IR_C_SCALAR_LONGLONG | COG_IR_C_SCALAR_ULONGLONG
| COG_IR_C_SCALAR_SIZE | COG_IR_C_SCALAR_BOOL | COG_IR_C_SCALAR_FLOAT
| COG_IR_C_SCALAR_DOUBLE.

Inductive CogIrAbiTypeKind : Set :=
| COG_IR_ABI_TYPE_SEMANTIC | COG_IR_ABI_TYPE_C_SCALAR | COG_IR_ABI_TYPE_POINTER
| COG_IR_ABI_TYPE_OPAQUE_POINTER | COG_IR_ABI_TYPE_ARRAY | COG_IR_ABI_TYPE_FUNCTION.

Inductive CogIrValueKind : Set :=
| COG_IR_VALUE_FUNCTION_PARAMETER | COG_IR_VALUE_BLOCK_PARAMETER
| COG_IR_VALUE_INSTRUCTION.

Inductive CogIrSlotKind : Set :=
| COG_IR_SLOT_SOURCE_LOCAL | COG_IR_SLOT_SOURCE_PARAMETER | COG_IR_SLOT_COMPILER_TEMP.

Inductive CogIrTrapReason : Set :=
| COG_IR_TRAP_EXPLICIT | COG_IR_TRAP_ARITHMETIC_OVERFLOW | COG_IR_TRAP_DIVISION_BY_ZERO
| COG_IR_TRAP_INVALID_SHIFT | COG_IR_TRAP_INVALID_CAST.

#[global] Instance CogIrTypeKind_eq_dec : EqDecision CogIrTypeKind.
Proof. solve_decision. Defined.
#[global] Instance CogIrAbiRepresentation_eq_dec : EqDecision CogIrAbiRepresentation.
Proof. solve_decision. Defined.
#[global] Instance CogIrCallingConvention_eq_dec : EqDecision CogIrCallingConvention.
Proof. solve_decision. Defined.
#[global] Instance CogIrLinkage_eq_dec : EqDecision CogIrLinkage.
Proof. solve_decision. Defined.
#[global] Instance CogIrFunctionKind_eq_dec : EqDecision CogIrFunctionKind.
Proof. solve_decision. Defined.
#[global] Instance CogIrCScalarKind_eq_dec : EqDecision CogIrCScalarKind.
Proof. solve_decision. Defined.
#[global] Instance CogIrAbiTypeKind_eq_dec : EqDecision CogIrAbiTypeKind.
Proof. solve_decision. Defined.
#[global] Instance CogIrValueKind_eq_dec : EqDecision CogIrValueKind.
Proof. solve_decision. Defined.
#[global] Instance CogIrSlotKind_eq_dec : EqDecision CogIrSlotKind.
Proof. solve_decision. Defined.

(** ** Types *)

Record CogIrAggregateField : Set := mkField {
  field_name : string;
  field_type : CogIrTypeId;
  field_abi_type : CogIrAbiTypeId;
  field_span : SourceSpan;
}.

Record CogIrEnumMember : Set := mkMember {
  member_name : string;
  member_bits : N;
  member_span : SourceSpan;
}.

Record CogIrFunctionType : Set := mkFunctionType {
  result_type : CogIrTypeId;
  parameter_types : list CogIrTypeId;
  ft_abi : CogIrAbiRepresentation;
  calling_convention : CogIrCallingConvention;
  is_variadic : bool;
}.

(** [as.aggregate] *)
Record Aggregate : Set := mkAggregate {
  is_complete : bool;
  is_incomplete : bool;
  agg_fields : list CogIrAggregateField;
  agg_is_repr_c : bool;
  is_packed : bool;
  explicit_alignment : N;
}.

(** [as.enumeration] *)
Record Enumeration : Set := mkEnumeration {
  backing_type : CogIrTypeId;
  members : list CogIrEnumMember;
  enum_repr_c : bool;
  backing_abi_type : CogIrAbiTypeId;
}.

#[global] Instance CogIrAggregateField_eq_dec : EqDecision CogIrAggregateField.
Proof. solve_decision. Defined.
#[global] Instance CogIrEnumMember_eq_dec : EqDecision CogIrEnumMember.
Proof. solve_decision. Defined.
#[global] Instance CogIrFunctionType_eq_dec : EqDecision CogIrFunctionType.
Proof. solve_decision. Defined.
#[global] Instance Aggregate_eq_dec : EqDecision Aggregate.
Proof. solve_decision. Defined.
#[global] Instance Enumeration_eq_dec : EqDecision Enumeration.
Proof. solve_decision. Defined.

(** [kind] and [as] of [CogIrType]. *)
Inductive TypeAs : Set :=
| AsVoid
| AsBool
| AsInteger (bits : N) (is_signed : bool)
| AsFloat (bits : N)
| AsPointer (pointee : CogIrTypeId) (is_readonly is_volatile : bool)
| AsOpaquePointer (is_readonly is_volatile : bool)
| AsArray (element_type : CogIrTypeId) (length : N)
| AsStruct (aggregate : Aggregate)
| AsUnion (aggregate : Aggregate)
| AsEnum (enumeration : Enumeration)
| AsFunction (function : CogIrFunctionType).

#[global] Instance TypeAs_eq_dec : EqDecision TypeAs.
Proof. solve_decision. Defined.

Record CogIrType : Set := mkIrType {
  type_id : CogIrTypeId;
  type_name : string;
  type_span : SourceSpan;
  type_as : TypeAs;
}.

Definition type_kind (t : CogIrType) : CogIrTypeKind :=
  match type_as t with
  | AsVoid => COG_IR_TYPE_VOID
  | AsBool => COG_IR_TYPE_BOOL
  | AsInteger _ _ => COG_IR_TYPE_INTEGER
  | AsFloat _ => COG_IR_TYPE_FLOAT
  | AsPointer _ _ _ => COG_IR_TYPE_POINTER
  | AsOpaquePointer _ _ => COG_IR_TYPE_OPAQUE_POINTER
  | AsArray _ _ => COG_IR_TYPE_ARRAY
  | AsStruct _ => COG_IR_TYPE_STRUCT
  | AsUnion _ => COG_IR_TYPE_UNION
  | AsEnum _ => COG_IR_TYPE_ENUM
  | AsFunction _ => COG_IR_TYPE_FUNCTION
  end.

(** The fields of an ABI type that interning compares (all but [id]). *)
Record AbiDesc : Set := mkAbiDesc {
  abi_kind : CogIrAbiTypeKind;
  runtime_type : CogIrTypeId;
  c_scalar_kind : CogIrCScalarKind;
  element_type : CogIrAbiTypeId;
  abi_parameter_types : list CogIrAbiTypeId;
  return_type : CogIrAbiTypeId;
}.

#[global] Instance AbiDesc_eq_dec : EqDecision AbiDesc.
Proof. solve_decision. Defined.

Record CogIrAbiType : Set := mkAbiType {
  abi_id : CogIrAbiTypeId;
  abi_desc : AbiDesc;
}.

(** ** Constants and globals *)

(** [kind] and [as] of [CogIrConstant]. *)
Inductive ConstAs : Set :=
| ConstZero
| ConstBool (boolean : bool)
| ConstInteger (integer_bits : N)
| ConstFloat32 (float32_bits : N)
| ConstFloat64 (float64_bits : N)
| ConstNull
| ConstArray (elements : list CogIrConstId)
| ConstStruct (elements : list CogIrConstId).

#[global] Instance ConstAs_eq_dec : EqDecision ConstAs.
Proof. solve_decision. Defined.

Record CogIrConstant : Set := mkConstant {
  const_id : CogIrConstId;
  const_type : CogIrTypeId;
  const_as : ConstAs;
}.

Record CogIrGlobal : Set := mkGlobal {
  global_id : CogIrGlobalId;
  global_name : string;
  global_span : SourceSpan;
  global_type : CogIrTypeId;
  global_abi_type : CogIrAbiTypeId;
  global_linkage : CogIrLinkage;
  global_is_compiler_generated : bool;
  global_is_readonly : bool;
  static_initializer : CogIrConstId;
}.

(** ** Functions *)

Record CogIrValue : Set := mkValue {
  value_id : CogIrValueId;
  value_type : CogIrTypeId;
  value_abi_type : CogIrAbiTypeId;
  value_kind : CogIrValueKind;
  value_block : CogIrBlockId;
  ordinal : N;
  value_span : SourceSpan;
}.

Definition COG_IR_PARAMETER_INDEX_INVALID : N := 18446744073709551615.

Record CogIrSlot : Set := mkSlot {
  slot_id : CogIrSlotId;
  slot_kind : CogIrSlotKind;
  parameter_index : N;
  slot_name : string;
  slot_span : SourceSpan;
  slot_type : CogIrTypeId;
  slot_abi_type : CogIrAbiTypeId;
}.

Record CogIrBlockParam : Set := mkBlockParam {
  param_value : CogIrValueId;
  param_type : CogIrTypeId;
  param_name : string;
  param_span : SourceSpan;
}.

Inductive CogIrOp : Set :=
| COG_IR_OP_CONST | COG_IR_OP_FUNCTION_REF | COG_IR_OP_LOCAL_ADDR | COG_IR_OP_GLOBAL_ADDR
| COG_IR_OP_FIELD_ADDR | COG_IR_OP_ARRAY_ELEM_ADDR | COG_IR_OP_PTR_INDEX_ADDR
| COG_IR_OP_LOAD | COG_IR_OP_STORE
| COG_IR_OP_MAKE_STRUCT | COG_IR_OP_MAKE_ARRAY | COG_IR_OP_EXTRACT_FIELD
| COG_IR_OP_EXTRACT_ELEMENT
| COG_IR_OP_IADD_CHECKED | COG_IR_OP_ISUB_CHECKED | COG_IR_OP_IMUL_CHECKED
| COG_IR_OP_IDIV_CHECKED | COG_IR_OP_IREM_CHECKED | COG_IR_OP_INEG_CHECKED
| COG_IR_OP_IADD_WRAP | COG_IR_OP_ISUB_WRAP | COG_IR_OP_IMUL_WRAP | COG_IR_OP_INEG_WRAP
| COG_IR_OP_BIT_AND | COG_IR_OP_BIT_OR | COG_IR_OP_BIT_XOR | COG_IR_OP_BIT_NOT
| COG_IR_OP_SHL_CHECKED_COUNT | COG_IR_OP_SHR_SIGNED_CHECKED_COUNT
| COG_IR_OP_SHR_UNSIGNED_CHECKED_COUNT
| COG_IR_OP_FADD | COG_IR_OP_FSUB | COG_IR_OP_FMUL | COG_IR_OP_FDIV | COG_IR_OP_FNEG
| COG_IR_OP_ICMP_EQ | COG_IR_OP_ICMP_NE | COG_IR_OP_ICMP_SLT | COG_IR_OP_ICMP_SLE
| COG_IR_OP_ICMP_SGT | COG_IR_OP_ICMP_SGE | COG_IR_OP_ICMP_ULT | COG_IR_OP_ICMP_ULE
| COG_IR_OP_ICMP_UGT | COG_IR_OP_ICMP_UGE
| COG_IR_OP_FCMP_EQ | COG_IR_OP_FCMP_NE | COG_IR_OP_FCMP_LT | COG_IR_OP_FCMP_LE
| COG_IR_OP_FCMP_GT | COG_IR_OP_FCMP_GE
| COG_IR_OP_PTR_EQ | COG_IR_OP_PTR_NE | COG_IR_OP_BOOL_NOT
| COG_IR_OP_CAST_CHECKED | COG_IR_OP_INT_TRUNCATE | COG_IR_OP_PTR_REINTERPRET
| COG_IR_OP_PTR_QUALIFY | COG_IR_OP_SIZE_OF | COG_IR_OP_ALIGN_OF
| COG_IR_OP_C_VARARG_PROMOTE | COG_IR_OP_ASM | COG_IR_OP_CALL.

(** [as] of [CogIrInstruction]. *)
Inductive InstructionAs : Set :=
| AsConstant (constant : CogIrConstId)
| AsFunctionRef (function : CogIrFunctionId)
| AsLocalAddr (slot : CogIrSlotId)
| AsGlobalAddr (global : CogIrGlobalId)
| AsFieldAddr (base : CogIrValueId) (field_index : N)
| AsIndexAddr (base index : CogIrValueId)
| AsLoad (address : CogIrValueId) (is_volatile : bool)
| AsStore (address value : CogIrValueId) (is_volatile : bool)
| AsBinary (lhs rhs : CogIrValueId)
| AsUnary (operand : CogIrValueId)
| AsConversion (operand : CogIrValueId) (target_type : CogIrTypeId)
| AsTypeQuery (queried_type : CogIrTypeId)
| AsExtract (aggregate : CogIrValueId) (index : N)
| AsAggregate (values : list CogIrValueId)
| AsAsm (template_text output_constraint : string)
    (inputs : list (string * CogIrValueId)) (is_volatile : bool)
| AsCall (callee : CogIrValueId) (arguments : list CogIrValueId).

Record CogIrInstruction : Set := mkInstruction {
  op : CogIrOp;
  insn_result : CogIrValueId;
  insn_result_type : CogIrTypeId;
  result_is_discarded : bool;
  insn_span : SourceSpan;
  insn_as : InstructionAs;
}.

Record CogIrBranchEdge : Set := mkEdge {
  target : CogIrBlockId;
  arguments : list CogIrValueId;
}.

Record CogIrSwitchCase : Set := mkCase {
  key : CogIrConstId;
  case_edge : CogIrBranchEdge;
}.

(** [kind] and [as] of [CogIrTerminator]. *)
Inductive TerminatorAs : Set :=
| TermNone
| TermBr (edge : CogIrBranchEdge)
| TermCondBr (condition : CogIrValueId) (if_true if_false : CogIrBranchEdge)
| TermSwitch (value : CogIrValueId) (cases : carray CogIrSwitchCase)
    (default_edge : CogIrBranchEdge)
| TermRet (value : option CogIrValueId)
| TermTrap (reason : CogIrTrapReason)
| TermUnreachable.

Record CogIrTerminator : Set := mkTerminator {
  term_span : SourceSpan;
  term_as : TerminatorAs;
}.

Record CogIrBlock : Type := mkBlock {
  block_id : CogIrBlockId;
  block_name : string;
  block_span : SourceSpan;
  block_parameters : table CogIrBlockParam;
  instructions : table CogIrInstruction;
  terminator : CogIrTerminator;
}.

Record CogIrFunctionAbi : Set := mkFunctionAbi {
  fa_abi : CogIrAbiRepresentation;
  fa_calling_convention : CogIrCallingConvention;
  fa_is_variadic : bool;
  external_symbol : string;
  return_abi_type : CogIrAbiTypeId;
  parameter_abi_types : carray CogIrAbiTypeId;
}.

Record CogIrFunction : Type := mkFunction {
  function_id : CogIrFunctionId;
  function_name : string;
  function_span : SourceSpan;
  function_type : CogIrTypeId;
  function_kind : CogIrFunctionKind;
  linkage : CogIrLinkage;
  is_compiler_generated : bool;
  function_abi : CogIrFunctionAbi;
  values : table CogIrValue;
  function_parameters : list CogIrValueId;
  slots : table CogIrSlot;
  blocks : table CogIrBlock;
  entry_block : CogIrBlockId;
}.

(** ** Modules *)

Record CogIrModule : Type := mkModule {
  module_target : TargetInfo;
  sources : SourceManager;
  types : table CogIrType;
  abi_types : table CogIrAbiType;
  constants : table CogIrConstant;
  globals : table CogIrGlobal;
  functions : table CogIrFunction;
  entry_function : CogIrFunctionId;
  init_function : CogIrFunctionId;
  runtime_requirements : N;
  is_frozen : bool;
}.

(** ** Table lookup *)

(** [NULL] for the sentinel and for an index past the end. *)
Definition table_get {A} (t : table A) (id : N) : option A :=
  if (id =? COG_IR_ID_INVALID)%N || (count t <=? id)%N then None
  else items t !! N.to_nat id.

Definition cog_ir_get_type (m : CogIrModule) (id : CogIrTypeId) := table_get (types m) id.
Definition cog_ir_get_abi_type (m : CogIrModule) (id : CogIrAbiTypeId) :=
  table_get (abi_types m) id.
Definition cog_ir_get_constant (m : CogIrModule) (id : CogIrConstId) :=
  table_get (constants m) id.
Definition cog_ir_get_global (m : CogIrModule) (id : CogIrGlobalId) :=
  table_get (globals m) id.
Definition cog_ir_get_function (m : CogIrModule) (id : CogIrFunctionId) :=
  table_get (functions m) id.
Definition cog_ir_get_block (f : CogIrFunction) (id : CogIrBlockId) := table_get (blocks f) id.
Definition cog_ir_get_value (f : CogIrFunction) (id : CogIrValueId) := table_get (values f) id.
Definition cog_ir_get_slot (f : CogIrFunction) (id : CogIrSlotId) := table_get (slots f) id.

(** ** Names *)

Definition cog_ir_type_kind_name (kind : CogIrTypeKind) : string :=
  match kind with
  | COG_IR_TYPE_VOID => "void"
  | COG_IR_TYPE_BOOL => "bool"
  | COG_IR_TYPE_INTEGER => "integer"
  | COG_IR_TYPE_FLOAT => "float"
  | COG_IR_TYPE_POINTER => "pointer"
  | COG_IR_TYPE_OPAQUE_POINTER => "opaque-pointer"
  | COG_IR_TYPE_ARRAY => "array"
  | COG_IR_TYPE_STRUCT => "struct"
  | COG_IR_TYPE_UNION => "union"
  | COG_IR_TYPE_ENUM => "enum"
  | COG_IR_TYPE_FUNCTION => "function"
  end.

(** The enumeration order of the operations. *)
Definition op_index (o : CogIrOp) : nat :=
  match o with
  | COG_IR_OP_CONST => 0 | COG_IR_OP_FUNCTION_REF => 1 | COG_IR_OP_LOCAL_ADDR => 2
  | COG_IR_OP_GLOBAL_ADDR => 3 | COG_IR_OP_FIELD_ADDR => 4
  | COG_IR_OP_ARRAY_ELEM_ADDR => 5 | COG_IR_OP_PTR_INDEX_ADDR => 6
  | COG_IR_OP_LOAD => 7 | COG_IR_OP_STORE => 8 | COG_IR_OP_MAKE_STRUCT => 9
  | COG_IR_OP_MAKE_ARRAY => 10 | COG_IR_OP_EXTRACT_FIELD => 11
  | COG_IR_OP_EXTRACT_ELEMENT => 12 | COG_IR_OP_IADD_CHECKED => 13
  | COG_IR_OP_ISUB_CHECKED => 14 | COG_IR_OP_IMUL_CHECKED => 15
  | COG_IR_OP_IDIV_CHECKED => 16 | COG_IR_OP_IREM_CHECKED => 17
  | COG_IR_OP_INEG_CHECKED => 18 | COG_IR_OP_IADD_WRAP => 19
  | COG_IR_OP_ISUB_WRAP => 20 | COG_IR_OP_IMUL_WRAP => 21 | COG_IR_OP_INEG_WRAP => 22
  | COG_IR_OP_BIT_AND => 23 | COG_IR_OP_BIT_OR => 24 | COG_IR_OP_BIT_XOR => 25
  | COG_IR_OP_BIT_NOT => 26 | COG_IR_OP_SHL_CHECKED_COUNT => 27
  | COG_IR_OP_SHR_SIGNED_CHECKED_COUNT => 28
  | COG_IR_OP_SHR_UNSIGNED_CHECKED_COUNT => 29 | COG_IR_OP_FADD => 30
  | COG_IR_OP_FSUB => 31 | COG_IR_OP_FMUL => 32 | COG_IR_OP_FDIV => 33
  | COG_IR_OP_FNEG => 34 | COG_IR_OP_ICMP_EQ => 35 | COG_IR_OP_ICMP_NE => 36
  | COG_IR_OP_ICMP_SLT => 37 | COG_IR_OP_ICMP_SLE => 38 | COG_IR_OP_ICMP_SGT => 39
  | COG_IR_OP_ICMP_SGE => 40 | COG_IR_OP_ICMP_ULT => 41 | COG_IR_OP_ICMP_ULE => 42
  | COG_IR_OP_ICMP_UGT => 43 | COG_IR_OP_ICMP_UGE => 44 | COG_IR_OP_FCMP_EQ => 45
  | COG_IR_OP_FCMP_NE => 46 | COG_IR_OP_FCMP_LT => 47 | COG_IR_OP_FCMP_LE => 48
  | COG_IR_OP_FCMP_GT => 49 | COG_IR_OP_FCMP_GE => 50 | COG_IR_OP_PTR_EQ => 51
  | COG_IR_OP_PTR_NE => 52 | COG_IR_OP_BOOL_NOT => 53 | COG_IR_OP_CAST_CHECKED => 54
  | COG_IR_OP_INT_TRUNCATE => 55 | COG_IR_OP_PTR_REINTERPRET => 56
  | COG_IR_OP_PTR_QUALIFY => 57 | COG_IR_OP_SIZE_OF => 58 | COG_IR_OP_ALIGN_OF => 59
  | COG_IR_OP_C_VARARG_PROMOTE => 60 | COG_IR_OP_ASM => 61 | COG_IR_OP_CALL => 62
  end%nat.

Definition all_ops : list CogIrOp :=
  [COG_IR_OP_CONST; COG_IR_OP_FUNCTION_REF; COG_IR_OP_LOCAL_ADDR;
   COG_IR_OP_GLOBAL_ADDR; COG_IR_OP_FIELD_ADDR; COG_IR_OP_ARRAY_ELEM_ADDR;
   COG_IR_OP_PTR_INDEX_ADDR; COG_IR_OP_LOAD; COG_IR_OP_STORE; COG_IR_OP_MAKE_STRUCT;
   COG_IR_OP_MAKE_ARRAY; COG_IR_OP_EXTRACT_FIELD; COG_IR_OP_EXTRACT_ELEMENT;
   COG_IR_OP_IADD_CHECKED; COG_IR_OP_ISUB_CHECKED; COG_IR_OP_IMUL_CHECKED;
   COG_IR_OP_IDIV_CHECKED; COG_IR_OP_IREM_CHECKED; COG_IR_OP_INEG_CHECKED;
   COG_IR_OP_IADD_WRAP; COG_IR_OP_ISUB_WRAP; COG_IR_OP_IMUL_WRAP; COG_IR_OP_INEG_WRAP;
   COG_IR_OP_BIT_AND; COG_IR_OP_BIT_OR; COG_IR_OP_BIT_XOR; COG_IR_OP_BIT_NOT;
   COG_IR_OP_SHL_CHECKED_COUNT; COG_IR_OP_SHR_SIGNED_CHECKED_COUNT;
   COG_IR_OP_SHR_UNSIGNED_CHECKED_COUNT; COG_IR_OP_FADD; COG_IR_OP_FSUB;
   COG_IR_OP_FMUL; COG_IR_OP_FDIV; COG_IR_OP_FNEG; COG_IR_OP_ICMP_EQ;
   COG_IR_OP_ICMP_NE; COG_IR_OP_ICMP_SLT; COG_IR_OP_ICMP_SLE; COG_IR_OP_ICMP_SGT;
   COG_IR_OP_ICMP_SGE; COG_IR_OP_ICMP_ULT; COG_IR_OP_ICMP_ULE; COG_IR_OP_ICMP_UGT;
   COG_IR_OP_ICMP_UGE; COG_IR_OP_FCMP_EQ; COG_IR_OP_FCMP_NE; COG_IR_OP_FCMP_LT;
   COG_IR_OP_FCMP_LE; COG_IR_OP_FCMP_GT; COG_IR_OP_FCMP_GE; COG_IR_OP_PTR_EQ;
   COG_IR_OP_PTR_NE; COG_IR_OP_BOOL_NOT; COG_IR_OP_CAST_CHECKED;
   COG_IR_OP_INT_TRUNCATE; COG_IR_OP_PTR_REINTERPRET; COG_IR_OP_PTR_QUALIFY;
   COG_IR_OP_SIZE_OF; COG_IR_OP_ALIGN_OF; COG_IR_OP_C_VARARG_PROMOTE; COG_IR_OP_ASM;
   COG_IR_OP_CALL].

Lemma all_ops_index o : all_ops !! op_index o = Some o.
Proof. by destruct o. Qed.

Lemma op_index_inj o1 o2 : op_index o1 = op_index o2 -> o1 = o2.
Proof.
  intros H. apply (f_equal (fun i => all_ops !! i)) in H. rewrite !all_ops_index in H.
  by inversion H.
Qed.

#[global] Instance CogIrOp_eq_dec : EqDecision CogIrOp.
Proof.
  refine (fun o1 o2 =>
    match decide (op_index o1 = op_index o2) with
    | left H => left (op_index_inj _ _ H)
    | right H => right _
    end).
  abstract (intros ->; by apply H).
Defined.

Definition op_names : list string :=
  ["const"; "function_ref"; "local_addr"; "global_addr"; "field_addr";
   "array_elem_addr"; "ptr_index_addr"; "load"; "store"; "make_struct"; "make_array";
   "extract_field"; "extract_element"; "iadd.checked"; "isub.checked"; "imul.checked";
   "idiv.checked"; "irem.checked"; "ineg.checked"; "iadd.wrap"; "isub.wrap";
   "imul.wrap"; "ineg.wrap"; "bit.and"; "bit.or"; "bit.xor"; "bit.not";
   "shl.checked_count"; "shr.signed.checked_count"; "shr.unsigned.checked_count";
   "fadd"; "fsub"; "fmul"; "fdiv"; "fneg"; "icmp.eq"; "icmp.ne"; "icmp.slt";
   "icmp.sle"; "icmp.sgt"; "icmp.sge"; "icmp.ult"; "icmp.ule"; "icmp.ugt"; "icmp.uge";
   "fcmp.eq"; "fcmp.ne"; "fcmp.lt"; "fcmp.le"; "fcmp.gt"; "fcmp.ge"; "ptr.eq";
   "ptr.ne"; "bool.not"; "cast.checked"; "int.truncate"; "ptr.reinterpret";
   "ptr.qualify"; "size_of"; "align_of"; "c.vararg.promote"; "asm"; "call"]%string.

Definition cog_ir_op_name (o : CogIrOp) : string :=
  default "unknown-op"%string (op_names !! op_index o).

(** The name table follows the enumeration: every operation has a name of its own. *)
Lemma op_names_distinct : NoDup op_names /\ length op_names = length all_ops.
Proof. split; [|reflexivity]. by apply (bool_decide_unpack _). Qed.
