(* ===== verification/CogIrBuilder.v ===== *)
(** The CogIR builder ([src/ir/cog_ir.c]).

    Every operation takes the module and returns its result with the module it leaves
    behind; a returned identifier is [COG_IR_ID_INVALID] on failure, an [int] result
    is a boolean.  The module passed is not null and its arena exists, as for every
    module between [cog_ir_module_init] and [cog_ir_module_destroy]; allocation never
    fails (the arena aborts instead).  Arrays copied without a null check
    ([copy_value_ids]) are lists. *)
From S2P Require Import Prelude Source Target CogIr.

(** ** Growable arrays *)

Definition grow_array {A} (t : table A) : table A :=
  if (count t <? capacity t)%N then t
  else mkTable (items t)
         (if (capacity t =? 0)%N then 8 else (capacity t * 2) mod 2 ^ 64)%N.

(** [grow_array] followed by a write at [count++]. *)
Definition push {A} (t : table A) (x : A) : table A :=
  let t := grow_array t in mkTable (items t ++ [x]) (capacity t).

(** A write through the pointer to entry [id]. *)
Definition put {A} (t : table A) (id : N) (x : A) : table A :=
  mkTable (<[N.to_nat id := x]> (items t)) (capacity t).

(** ** Modules *)

Definition module_mutable (m : CogIrModule) : bool := negb (is_frozen m).

Definition cog_ir_module_init (target : TargetInfo) : CogIrModule :=
  {| module_target := target; sources := source_manager_init; types := empty_table;
     abi_types := empty_table; constants := empty_table; globals := empty_table;
     functions := empty_table; entry_function := COG_IR_ID_INVALID;
     init_function := COG_IR_ID_INVALID; runtime_requirements := 0; is_frozen := false |}.

(** Assignments to one member. *)
Definition with_sources (m : CogIrModule) (s : SourceManager) : CogIrModule :=
  mkModule (module_target m) s (types m) (abi_types m) (constants m) (globals m)
    (functions m) (entry_function m) (init_function m) (runtime_requirements m) (is_frozen m).
Definition with_types (m : CogIrModule) (t : table CogIrType) : CogIrModule :=
  mkModule (module_target m) (sources m) t (abi_types m) (constants m) (globals m)
    (functions m) (entry_function m) (init_function m) (runtime_requirements m) (is_frozen m).
Definition with_abi_types (m : CogIrModule) (t : table CogIrAbiType) : CogIrModule :=
  mkModule (module_target m) (sources m) (types m) t (constants m) (globals m)
    (functions m) (entry_function m) (init_function m) (runtime_requirements m) (is_frozen m).
Definition with_constants (m : CogIrModule) (t : table CogIrConstant) : CogIrModule :=
  mkModule (module_target m) (sources m) (types m) (abi_types m) t (globals m)
    (functions m) (entry_function m) (init_function m) (runtime_requirements m) (is_frozen m).
Definition with_globals (m : CogIrModule) (t : table CogIrGlobal) : CogIrModule :=
  mkModule (module_target m) (sources m) (types m) (abi_types m) (constants m) t
    (functions m) (entry_function m) (init_function m) (runtime_requirements m) (is_frozen m).
Definition with_functions (m : CogIrModule) (t : table CogIrFunction) : CogIrModule :=
  mkModule (module_target m) (sources m) (types m) (abi_types m) (constants m) (globals m)
    t (entry_function m) (init_function m) (runtime_requirements m) (is_frozen m).

(** [filename] and [source] may be null. *)
Definition cog_ir_module_add_source (m : CogIrModule) (filename : option string)
    (source : option (list ascii)) : outcome (option Z * CogIrModule) :=
  match filename, source with
  | Some filename, Some source =>
      if negb (module_mutable m) then Returned (None, m)
      else
        let! r := source_manager_add (sources m) filename source in
        Returned (Some (fst r), with_sources m (snd r))
  | _, _ => Returned (None, m)
  end.

(** The loop of [cog_ir_module_copy_sources]. *)
Fixpoint copy_source_files (m : CogIrModule) (fs : list SourceFile)
    : outcome (bool * CogIrModule) :=
  match fs with
  | [] => Returned (true, m)
  | file :: fs =>
      let! r := cog_ir_module_add_source m (Some (sf_filename file)) (Some (sf_source file)) in
      match fst r with
      | Some copied =>
          if copied =? sf_id file then copy_source_files (snd r) fs
          else Returned (false, snd r)
      | None => Returned (false, snd r)
      end
  end.

Definition cog_ir_module_copy_sources (m : CogIrModule) (from : option SourceManager)
    : outcome (bool * CogIrModule) :=
  match from with
  | None => Returned (false, m)
  | Some from =>
      if negb (module_mutable m) then Returned (false, m)
      else if negb (file_count (sources m) =? 0) then Returned (false, m)
      else copy_source_files m (files from)
  end.

(** ** Runtime requirements *)

Definition COG_IR_RUNTIME_REQUIREMENT_NONE : N := 0.
Definition COG_IR_RUNTIME_REQUIREMENT_IO : N := 1.
Definition COG_IR_RUNTIME_REQUIREMENT_MATH : N := 2.
Definition COG_IR_RUNTIME_REQUIREMENT_MEMORY : N := 4.
Definition COG_IR_RUNTIME_REQUIREMENT_UNKNOWN : N := 8.

Definition ir_string_view_starts_with_cstr (value prefix : string) : bool :=
  String.prefix prefix value.

Definition function_requirement (f : CogIrFunction) : N :=
  let symbol := external_symbol (function_abi f) in
  if negb (bool_decide (linkage f = COG_IR_LINKAGE_EXTERNAL))
     || negb (bool_decide (fa_abi (function_abi f) = COG_IR_ABI_C))
     || negb (ir_string_view_starts_with_cstr symbol "coglet_rt_")
  then COG_IR_RUNTIME_REQUIREMENT_NONE
  else if ir_string_view_starts_with_cstr symbol "coglet_rt_io_" then
    COG_IR_RUNTIME_REQUIREMENT_IO
  else if ir_string_view_starts_with_cstr symbol "coglet_rt_math_" then
    COG_IR_RUNTIME_REQUIREMENT_MATH
  else if ir_string_view_starts_with_cstr symbol "coglet_rt_mem_" then
    COG_IR_RUNTIME_REQUIREMENT_MEMORY
  else COG_IR_RUNTIME_REQUIREMENT_UNKNOWN.

Definition derive_runtime_requirements (m : CogIrModule) : N :=
  foldl (fun requirements f => N.lor requirements (function_requirement f))
        COG_IR_RUNTIME_REQUIREMENT_NONE (items (functions m)).

Definition cog_ir_module_freeze (m : CogIrModule) : CogIrModule :=
  if is_frozen m then m
  else mkModule (module_target m) (sources m) (types m) (abi_types m) (constants m)
         (globals m) (functions m) (entry_function m) (init_function m)
         (derive_runtime_requirements m) true.

Definition cog_ir_module_runtime_requirements (m : CogIrModule) : N :=
  if is_frozen m then runtime_requirements m else COG_IR_RUNTIME_REQUIREMENT_NONE.

(** ** Runtime types *)

(** The first index of the table that satisfies [p]. *)
Fixpoint find_index {A} (p : A -> bool) (xs : list A) : option nat :=
  match xs with
  | [] => None
  | x :: xs => if p x then Some 0%nat else S <$> find_index p xs
  end.

Definition append_type (m : CogIrModule) (name : string) (span : SourceSpan) (a : TypeAs)
    : CogIrTypeId * CogIrModule :=
  if negb (module_mutable m) || (COG_IR_ID_INVALID <=? count (types m))%N then
    (COG_IR_ID_INVALID, m)
  else
    let id := count (types m) in
    (id, with_types m (push (types m) (mkIrType id name span a))).

(** The search loop and the append shared by the structural type builders: the loops
    compare [kind] and every member of [as]. *)
Definition intern_type (m : CogIrModule) (a : TypeAs) : CogIrTypeId * CogIrModule :=
  match find_index (fun t => bool_decide (type_as t = a)) (items (types m)) with
  | Some i => (N.of_nat i, m)
  | None => append_type m "" source_span_invalid a
  end.

Definition fail {A} (m : A) : N * A := (COG_IR_ID_INVALID, m).

Definition cog_ir_type_void (m : CogIrModule) : CogIrTypeId * CogIrModule :=
  if negb (module_mutable m) then fail m else intern_type m AsVoid.

Definition cog_ir_type_bool (m : CogIrModule) : CogIrTypeId * CogIrModule :=
  if negb (module_mutable m) then fail m else intern_type m AsBool.

Definition cog_ir_type_integer (m : CogIrModule) (bits : N) (is_signed : bool)
    : CogIrTypeId * CogIrModule :=
  if negb (module_mutable m)
     || negb (bits =? 8)%N && negb (bits =? 16)%N && negb (bits =? 32)%N && negb (bits =? 64)%N
  then fail m else intern_type m (AsInteger bits is_signed).

Definition cog_ir_type_float (m : CogIrModule) (bits : N) : CogIrTypeId * CogIrModule :=
  if negb (module_mutable m) || negb (bits =? 32)%N && negb (bits =? 64)%N
  then fail m else intern_type m (AsFloat bits).

(** [cog_ir_get_type(module, id)] as a condition. *)
Definition has_type (m : CogIrModule) (id : CogIrTypeId) : bool :=
  bool_decide (is_Some (cog_ir_get_type m id)).
Definition has_abi_type (m : CogIrModule) (id : CogIrAbiTypeId) : bool :=
  bool_decide (is_Some (cog_ir_get_abi_type m id)).
Definition has_constant (m : CogIrModule) (id : CogIrConstId) : bool :=
  bool_decide (is_Some (cog_ir_get_constant m id)).

Definition cog_ir_type_pointer (m : CogIrModule) (pointee : CogIrTypeId)
    (is_readonly is_volatile : bool) : CogIrTypeId * CogIrModule :=
  if negb (module_mutable m) || negb (has_type m pointee)
  then fail m else intern_type m (AsPointer pointee is_readonly is_volatile).

Definition cog_ir_type_opaque_pointer (m : CogIrModule) (is_readonly is_volatile : bool)
    : CogIrTypeId * CogIrModule :=
  if negb (module_mutable m)
  then fail m else intern_type m (AsOpaquePointer is_readonly is_volatile).

Definition cog_ir_type_array (m : CogIrModule) (element : CogIrTypeId) (length : N)
    : CogIrTypeId * CogIrModule :=
  if negb (module_mutable m) || negb (has_type m element)
  then fail m else intern_type m (AsArray element length).

Definition cog_ir_type_function (m : CogIrModule) (result : CogIrTypeId)
    (parameters : carray CogIrTypeId) (abi : CogIrAbiRepresentation)
    (convention : CogIrCallingConvention) (variadic : bool) : CogIrTypeId * CogIrModule :=
  if negb (module_mutable m) || negb (has_type m result) || missing_array parameters
     || negb (forallb (has_type m) (elements parameters))
  then fail m
  else intern_type m
         (AsFunction (mkFunctionType result (elements parameters) abi convention variadic)).

Definition cog_ir_declare_nominal_type (m : CogIrModule) (kind : CogIrTypeKind)
    (name : string) (span : SourceSpan) : CogIrTypeId * CogIrModule :=
  if negb (module_mutable m) then fail m
  else match kind with
       | COG_IR_TYPE_STRUCT =>
           append_type m name span (AsStruct (mkAggregate false false [] false false 0))
       | COG_IR_TYPE_UNION =>
           append_type m name span (AsUnion (mkAggregate false false [] false false 0))
       | COG_IR_TYPE_ENUM =>
           append_type m name span
             (AsEnum (mkEnumeration COG_IR_ID_INVALID [] false COG_IR_ID_INVALID))
       | _ => fail m
       end.

(** [as.aggregate] of a struct or union, and the type with another one. *)
Definition aggregate_of (t : CogIrType) : option Aggregate :=
  match type_as t with
  | AsStruct a | AsUnion a => Some a
  | _ => None
  end.

Definition with_aggregate (t : CogIrType) (a : Aggregate) : CogIrType :=
  mkIrType (type_id t) (type_name t) (type_span t)
    (match type_as t with AsStruct _ => AsStruct a | AsUnion _ => AsUnion a | other => other end).

Definition cog_ir_mark_incomplete_aggregate_type (m : CogIrModule) (id : CogIrTypeId)
    : bool * CogIrModule :=
  if negb (module_mutable m) then (false, m)
  else match cog_ir_get_type m id with
       | None => (false, m)
       | Some t =>
           match aggregate_of t with
           | None => (false, m)
           | Some a =>
               if is_complete a || is_incomplete a then (false, m)
               else (true, with_types m (put (types m) id (with_aggregate t
                      (mkAggregate (is_complete a) true (agg_fields a) true (is_packed a)
                         (explicit_alignment a)))))
           end
       end.

Definition cog_ir_define_aggregate_type (m : CogIrModule) (id : CogIrTypeId)
    (fields : carray CogIrAggregateField) (repr_c packed : bool) (alignment : N)
    : bool * CogIrModule :=
  if negb (module_mutable m) || missing_array fields then (false, m)
  else match cog_ir_get_type m id with
       | None => (false, m)
       | Some t =>
           match aggregate_of t with
           | None => (false, m)
           | Some a =>
               if is_complete a || is_incomplete a then (false, m)
               else if negb (forallb (fun f => has_type m (field_type f)) (elements fields))
               then (false, m)
               else (true, with_types m (put (types m) id (with_aggregate t
                      (mkAggregate true false (elements fields) repr_c packed alignment))))
           end
       end.

Definition cog_ir_define_enum_type (m : CogIrModule) (id backing : CogIrTypeId)
    (mems : carray CogIrEnumMember) (repr_c : bool) (backing_abi : CogIrAbiTypeId)
    : bool * CogIrModule :=
  if negb (module_mutable m) || missing_array mems then (false, m)
  else match cog_ir_get_type m id, cog_ir_get_type m backing with
       | Some t, Some b =>
           match type_as t with
           | AsEnum e =>
               if negb (backing_type e =? COG_IR_ID_INVALID)%N
                  || negb (bool_decide (type_kind b = COG_IR_TYPE_INTEGER))
               then (false, m)
               else if repr_c && negb (has_abi_type m backing_abi) then (false, m)
               else (true, with_types m (put (types m) id
                      (mkIrType (type_id t) (type_name t) (type_span t)
                         (AsEnum (mkEnumeration backing (elements mems) repr_c backing_abi)))))
           | _ => (false, m)
           end
       | _, _ => (false, m)
       end.

(** ** ABI spellings *)

Definition append_abi_type (m : CogIrModule) (d : AbiDesc) : CogIrAbiTypeId * CogIrModule :=
  if negb (module_mutable m) || (COG_IR_ID_INVALID <=? count (abi_types m))%N then fail m
  else
    let id := count (abi_types m) in
    (id, with_abi_types m (push (abi_types m) (mkAbiType id d))).

Definition intern_abi_type (m : CogIrModule) (d : AbiDesc) : CogIrAbiTypeId * CogIrModule :=
  match find_index (fun t => bool_decide (abi_desc t = d)) (items (abi_types m)) with
  | Some i => (N.of_nat i, m)
  | None => append_abi_type m d
  end.

Definition cog_ir_abi_type_semantic (m : CogIrModule) (runtime : CogIrTypeId)
    : CogIrAbiTypeId * CogIrModule :=
  if negb (module_mutable m) || negb (has_type m runtime) then fail m
  else intern_abi_type m (mkAbiDesc COG_IR_ABI_TYPE_SEMANTIC runtime COG_IR_C_SCALAR_NONE
         COG_IR_ID_INVALID [] COG_IR_ID_INVALID).

Definition cog_ir_abi_type_c_scalar (m : CogIrModule) (runtime : CogIrTypeId)
    (scalar : CogIrCScalarKind) : CogIrAbiTypeId * CogIrModule :=
  if negb (module_mutable m) || negb (has_type m runtime)
     || bool_decide (scalar = COG_IR_C_SCALAR_NONE) then fail m
  else intern_abi_type m (mkAbiDesc COG_IR_ABI_TYPE_C_SCALAR runtime scalar
         COG_IR_ID_INVALID [] COG_IR_ID_INVALID).

(** [runtime && runtime->kind == kind] *)
Definition type_has_kind (m : CogIrModule) (id : CogIrTypeId) (kind : CogIrTypeKind) : bool :=
  match cog_ir_get_type m id with
  | Some t => bool_decide (type_kind t = kind)
  | None => false
  end.

Definition cog_ir_abi_type_pointer (m : CogIrModule) (runtime : CogIrTypeId)
    (element : CogIrAbiTypeId) : CogIrAbiTypeId * CogIrModule :=
  if negb (module_mutable m) || negb (type_has_kind m runtime COG_IR_TYPE_POINTER)
     || negb (has_abi_type m element) then fail m
  else intern_abi_type m (mkAbiDesc COG_IR_ABI_TYPE_POINTER runtime COG_IR_C_SCALAR_NONE
         element [] COG_IR_ID_INVALID).

Definition cog_ir_abi_type_opaque_pointer (m : CogIrModule) (runtime : CogIrTypeId)
    : CogIrAbiTypeId * CogIrModule :=
  if negb (module_mutable m) || negb (type_has_kind m runtime COG_IR_TYPE_OPAQUE_POINTER)
  then fail m
  else intern_abi_type m (mkAbiDesc COG_IR_ABI_TYPE_OPAQUE_POINTER runtime
         COG_IR_C_SCALAR_NONE COG_IR_ID_INVALID [] COG_IR_ID_INVALID).

Definition cog_ir_abi_type_array (m : CogIrModule) (runtime : CogIrTypeId)
    (element : CogIrAbiTypeId) : CogIrAbiTypeId * CogIrModule :=
  if negb (module_mutable m) || negb (type_has_kind m runtime COG_IR_TYPE_ARRAY)
     || negb (has_abi_type m element) then fail m
  else intern_abi_type m (mkAbiDesc COG_IR_ABI_TYPE_ARRAY runtime COG_IR_C_SCALAR_NONE
         element [] COG_IR_ID_INVALID).

Definition cog_ir_abi_type_function (m : CogIrModule) (runtime : CogIrTypeId)
    (return_abi : CogIrAbiTypeId) (parameters : carray CogIrAbiTypeId)
    : CogIrAbiTypeId * CogIrModule :=
  match (t ← cog_ir_get_type m runtime; Some (type_as t)) with
  | Some (AsFunction ft) =>
      if negb (module_mutable m) || negb (has_abi_type m return_abi)
         || negb (array_count parameters =? N.of_nat (length (parameter_types ft)))%N
         || missing_array parameters
         || negb (forallb (has_abi_type m) (elements parameters))
      then fail m
      else intern_abi_type m (mkAbiDesc COG_IR_ABI_TYPE_FUNCTION runtime COG_IR_C_SCALAR_NONE
             COG_IR_ID_INVALID (elements parameters) return_abi)
  | _ => fail m
  end.

(** ** Constants *)

Definition append_constant (m : CogIrModule) (type : CogIrTypeId) (a : ConstAs)
    : CogIrConstId * CogIrModule :=
  if negb (module_mutable m) || (COG_IR_ID_INVALID <=? count (constants m))%N then fail m
  else
    let id := count (constants m) in
    (id, with_constants m (push (constants m) (mkConstant id type a))).

(** Called with scalar constants only: the comparison of two aggregates, which the
    loop treats as different, does not arise. *)
Definition intern_scalar_constant (m : CogIrModule) (type : CogIrTypeId) (a : ConstAs)
    : CogIrConstId * CogIrModule :=
  match find_index (fun c => bool_decide (const_as c = a) && (const_type c =? type)%N)
          (items (constants m)) with
  | Some i => (N.of_nat i, m)
  | None => append_constant m type a
  end.

Definition cog_ir_const_zero (m : CogIrModule) (type : CogIrTypeId)
    : CogIrConstId * CogIrModule :=
  if negb (module_mutable m) || negb (has_type m type) then fail m
  else intern_scalar_constant m type ConstZero.

Definition cog_ir_const_bool (m : CogIrModule) (type : CogIrTypeId) (value : bool)
    : CogIrConstId * CogIrModule :=
  if negb (module_mutable m) || negb (type_has_kind m type COG_IR_TYPE_BOOL) then fail m
  else intern_scalar_constant m type (ConstBool value).

Definition cog_ir_const_integer (m : CogIrModule) (type : CogIrTypeId) (bits : N)
    : CogIrConstId * CogIrModule :=
  if negb (module_mutable m)
     || negb (type_has_kind m type COG_IR_TYPE_INTEGER) && negb (type_has_kind m type COG_IR_TYPE_ENUM)
  then fail m
  else intern_scalar_constant m type (ConstInteger bits).

(** [runtime->kind == COG_IR_TYPE_FLOAT && runtime->as.floating.bits == bits] *)
Definition is_float_of_width (m : CogIrModule) (id : CogIrTypeId) (width : N) : bool :=
  match (t ← cog_ir_get_type m id; Some (type_as t)) with
  | Some (AsFloat bits) => (bits =? width)%N
  | _ => false
  end.

Definition cog_ir_const_float32 (m : CogIrModule) (type : CogIrTypeId) (bits : N)
    : CogIrConstId * CogIrModule :=
  if negb (module_mutable m) || negb (is_float_of_width m type 32) then fail m
  else intern_scalar_constant m type (ConstFloat32 bits).

Definition cog_ir_const_float64 (m : CogIrModule) (type : CogIrTypeId) (bits : N)
    : CogIrConstId * CogIrModule :=
  if negb (module_mutable m) || negb (is_float_of_width m type 64) then fail m
  else intern_scalar_constant m type (ConstFloat64 bits).

Definition cog_ir_const_null (m : CogIrModule) (type : CogIrTypeId)
    : CogIrConstId * CogIrModule :=
  if negb (module_mutable m)
     || negb (type_has_kind m type COG_IR_TYPE_POINTER)
        && negb (type_has_kind m type COG_IR_TYPE_OPAQUE_POINTER)
        && negb (type_has_kind m type COG_IR_TYPE_FUNCTION)
  then fail m
  else intern_scalar_constant m type ConstNull.

Definition add_aggregate_constant (m : CogIrModule) (make : list CogIrConstId -> ConstAs)
    (type : CogIrTypeId) (elems : carray CogIrConstId) : CogIrConstId * CogIrModule :=
  if negb (module_mutable m) || negb (has_type m type) || missing_array elems
     || negb (forallb (has_constant m) (elements elems))
  then fail m
  else append_constant m type (make (elements elems)).

Definition cog_ir_const_array (m : CogIrModule) (type : CogIrTypeId)
    (elems : carray CogIrConstId) : CogIrConstId * CogIrModule :=
  if negb (type_has_kind m type COG_IR_TYPE_ARRAY) then fail m
  else add_aggregate_constant m ConstArray type elems.

Definition cog_ir_const_struct (m : CogIrModule) (type : CogIrTypeId)
    (elems : carray CogIrConstId) : CogIrConstId * CogIrModule :=
  if negb (type_has_kind m type COG_IR_TYPE_STRUCT) then fail m
  else add_aggregate_constant m ConstStruct type elems.

(** ** Globals *)

Definition cog_ir_add_global (m : CogIrModule) (name : string) (span : SourceSpan)
    (type : CogIrTypeId) (abi : CogIrAbiTypeId) (link : CogIrLinkage)
    (compiler_generated readonly : bool) (initializer : CogIrConstId)
    : CogIrGlobalId * CogIrModule :=
  if negb (module_mutable m) || negb (has_type m type)
     || negb (abi =? COG_IR_ID_INVALID)%N && negb (has_abi_type m abi)
     || negb (has_constant m initializer) || (COG_IR_ID_INVALID <=? count (globals m))%N
  then fail m
  else
    let id := count (globals m) in
    (id, with_globals m (push (globals m)
           (mkGlobal id name span type abi link compiler_generated readonly initializer))).

(** ** Functions *)

Definition with_values (f : CogIrFunction) (vs : table CogIrValue) : CogIrFunction :=
  mkFunction (function_id f) (function_name f) (function_span f) (function_type f)
    (function_kind f) (linkage f) (is_compiler_generated f) (function_abi f) vs
    (function_parameters f) (slots f) (blocks f) (entry_block f).
Definition with_parameters (f : CogIrFunction) (ps : list CogIrValueId) : CogIrFunction :=
  mkFunction (function_id f) (function_name f) (function_span f) (function_type f)
    (function_kind f) (linkage f) (is_compiler_generated f) (function_abi f) (values f)
    ps (slots f) (blocks f) (entry_block f).
Definition with_slots (f : CogIrFunction) (ss : table CogIrSlot) : CogIrFunction :=
  mkFunction (function_id f) (function_name f) (function_span f) (function_type f)
    (function_kind f) (linkage f) (is_compiler_generated f) (function_abi f) (values f)
    (function_parameters f) ss (blocks f) (entry_block f).
Definition with_blocks (f : CogIrFunction) (bs : table CogIrBlock) (entry : CogIrBlockId)
    : CogIrFunction :=
  mkFunction (function_id f) (function_name f) (function_span f) (function_type f)
    (function_kind f) (linkage f) (is_compiler_generated f) (function_abi f) (values f)
    (function_parameters f) (slots f) bs entry.
Definition with_kind (f : CogIrFunction) (kind : CogIrFunctionKind) : CogIrFunction :=
  mkFunction (function_id f) (function_name f) (function_span f) (function_type f)
    kind (linkage f) (is_compiler_generated f) (function_abi f) (values f)
    (function_parameters f) (slots f) (blocks f) (entry_block f).

Definition with_value_abi (v : CogIrValue) (abi : CogIrAbiTypeId) : CogIrValue :=
  mkValue (value_id v) (value_type v) abi (value_kind v) (value_block v) (ordinal v) (value_span v).

Definition append_value (m : CogIrModule) (f : CogIrFunction) (type : CogIrTypeId)
    (kind : CogIrValueKind) (block : CogIrBlockId) (ord : N) (span : SourceSpan)
    : CogIrValueId * CogIrFunction :=
  if negb (has_type m type) || (COG_IR_ID_INVALID <=? count (values f))%N then fail f
  else
    let id := count (values f) in
    (id, with_values f (push (values f)
           (mkValue id type COG_IR_ID_INVALID kind block ord span))).

(** [function->values[value].abi_type = abi->parameter_abi_types[i]], for parameters
    that are C function pointers. *)
Definition parameter_abi (m : CogIrModule) (abis : list CogIrAbiTypeId) (i : nat)
    (value : CogIrValueId) (f : CogIrFunction) : CogIrFunction :=
  match abis !! i with
  | None => f
  | Some a =>
      match cog_ir_get_abi_type m a, items (values f) !! N.to_nat value with
      | Some t, Some v =>
          if decide (abi_kind (abi_desc t) = COG_IR_ABI_TYPE_FUNCTION)
          then with_values f (put (values f) value (with_value_abi v a)) else f
      | _, _ => f
      end
  end.

(** The loop over the parameters; [false] is the early return, which leaves the
    parameters filled so far. *)
Fixpoint add_parameters (m : CogIrModule) (abis : list CogIrAbiTypeId) (span : SourceSpan)
    (tys : list CogIrTypeId) (i : nat) (f : CogIrFunction) : bool * CogIrFunction :=
  match tys with
  | [] => (true, f)
  | ty :: tys =>
      let '(value, f) := append_value m f ty COG_IR_VALUE_FUNCTION_PARAMETER
                           COG_IR_ID_INVALID (N.of_nat i) span in
      if (value =? COG_IR_ID_INVALID)%N then (false, f)
      else
        add_parameters m abis span tys (S i)
          (parameter_abi m abis i value
             (with_parameters f (function_parameters f ++ [value])))
  end.

(** [abi] disagrees with the function type. *)
Definition abi_mismatch (ft : CogIrFunctionType) (abi : option CogIrFunctionAbi) : bool :=
  match abi with
  | None => false
  | Some a =>
      negb (bool_decide (fa_abi a = ft_abi ft))
      || negb (bool_decide (fa_calling_convention a = calling_convention ft))
      || negb (bool_decide (fa_is_variadic a = is_variadic ft))
      || negb (array_count (parameter_abi_types a) =? N.of_nat (length (parameter_types ft)))%N
      || missing_array (parameter_abi_types a)
  end.

Definition stored_abi (ft : CogIrFunctionType) (abi : option CogIrFunctionAbi)
    : CogIrFunctionAbi :=
  match abi with
  | None => mkFunctionAbi (ft_abi ft) (calling_convention ft) (is_variadic ft) ""
              COG_IR_ID_INVALID (NullArray 0)
  | Some a => mkFunctionAbi (fa_abi a) (fa_calling_convention a) (fa_is_variadic a)
              (external_symbol a) (return_abi_type a) (Array (elements (parameter_abi_types a)))
  end.

(** On the early return the function stays in the table: the caller only sees the
    invalid identifier. *)
Definition cog_ir_add_function (m : CogIrModule) (name : string) (span : SourceSpan)
    (type : CogIrTypeId) (kind : CogIrFunctionKind) (link : CogIrLinkage)
    (compiler_generated : bool) (abi : option CogIrFunctionAbi)
    : CogIrFunctionId * CogIrModule :=
  match (t ← cog_ir_get_type m type; Some (type_as t)) with
  | Some (AsFunction ft) =>
      if negb (module_mutable m) || (COG_IR_ID_INVALID <=? count (functions m))%N
         || abi_mismatch ft abi
      then fail m
      else
        let id := count (functions m) in
        let f := mkFunction id name span type kind link compiler_generated (stored_abi ft abi)
                   empty_table [] empty_table empty_table COG_IR_ID_INVALID in
        let '(ok, f) := add_parameters m
                          (match abi with Some a => elements (parameter_abi_types a)
                                        | None => [] end)
                          span (parameter_types ft) 0 f in
        ((if ok then id else COG_IR_ID_INVALID), with_functions m (push (functions m) f))
  | _ => fail m
  end.

(** [get_function_mut] followed by writes through the pointer. *)
Definition put_function (m : CogIrModule) (id : CogIrFunctionId) (f : CogIrFunction)
    : CogIrModule :=
  with_functions m (put (functions m) id f).

Definition cog_ir_begin_function_definition (m : CogIrModule) (id : CogIrFunctionId)
    : bool * CogIrModule :=
  if negb (module_mutable m) then (false, m)
  else match cog_ir_get_function m id with
       | None => (false, m)
       | Some f =>
           if negb (bool_decide (function_kind f = COG_IR_FUNCTION_DECLARATION))
              || negb (bool_decide (linkage f = COG_IR_LINKAGE_INTERNAL))
              || negb (count (blocks f) =? 0)%N || negb (count (slots f) =? 0)%N
              || negb (entry_block f =? COG_IR_ID_INVALID)%N
           then (false, m)
           else (true, put_function m id (with_kind f COG_IR_FUNCTION_DEFINITION))
       end.

Definition cog_ir_set_entry_function (m : CogIrModule) (id : CogIrFunctionId)
    : bool * CogIrModule :=
  if negb (module_mutable m) || negb (bool_decide (is_Some (cog_ir_get_function m id)))
  then (false, m)
  else (true, mkModule (module_target m) (sources m) (types m) (abi_types m) (constants m)
          (globals m) (functions m) id (init_function m) (runtime_requirements m) (is_frozen m)).

Definition cog_ir_set_init_function (m : CogIrModule) (id : CogIrFunctionId)
    : bool * CogIrModule :=
  if negb (module_mutable m) || negb (bool_decide (is_Some (cog_ir_get_function m id)))
  then (false, m)
  else (true, mkModule (module_target m) (sources m) (types m) (abi_types m) (constants m)
          (globals m) (functions m) (entry_function m) id (runtime_requirements m) (is_frozen m)).

Definition cog_ir_add_slot (m : CogIrModule) (fid : CogIrFunctionId) (kind : CogIrSlotKind)
    (index : N) (name : string) (span : SourceSpan) (type : CogIrTypeId)
    : CogIrSlotId * CogIrModule :=
  if negb (module_mutable m) || negb (has_type m type)
     || negb (Bool.eqb (bool_decide (kind = COG_IR_SLOT_SOURCE_PARAMETER))
                       (negb (index =? COG_IR_PARAMETER_INDEX_INVALID)%N))
  then fail m
  else match cog_ir_get_function m fid with
       | None => fail m
       | Some f =>
           if negb (bool_decide (function_kind f = COG_IR_FUNCTION_DEFINITION))
              || (COG_IR_ID_INVALID <=? count (slots f))%N
           then fail m
           else
             let id := count (slots f) in
             (id, put_function m fid (with_slots f (push (slots f)
                    (mkSlot id kind index name span type COG_IR_ID_INVALID))))
       end.

(** [abi && abi->runtime_type == type] *)
Definition abi_of_runtime (m : CogIrModule) (abi : CogIrAbiTypeId) (type : CogIrTypeId) : bool :=
  match cog_ir_get_abi_type m abi with
  | Some a => (runtime_type (abi_desc a) =? type)%N
  | None => false
  end.

Definition cog_ir_set_slot_abi_type (m : CogIrModule) (fid : CogIrFunctionId)
    (sid : CogIrSlotId) (abi : CogIrAbiTypeId) : bool * CogIrModule :=
  if negb (module_mutable m) then (false, m)
  else match cog_ir_get_function m fid with
       | None => (false, m)
       | Some f =>
           match cog_ir_get_slot f sid with
           | None => (false, m)
           | Some s =>
               if negb (abi_of_runtime m abi (slot_type s)) then (false, m)
               else (true, put_function m fid (with_slots f (put (slots f) sid
                      (mkSlot (slot_id s) (slot_kind s) (parameter_index s) (slot_name s)
                         (slot_span s) (slot_type s) abi))))
           end
       end.

Definition cog_ir_set_value_abi_type (m : CogIrModule) (fid : CogIrFunctionId)
    (vid : CogIrValueId) (abi : CogIrAbiTypeId) : bool * CogIrModule :=
  if negb (module_mutable m) then (false, m)
  else match cog_ir_get_function m fid with
       | None => (false, m)
       | Some f =>
           match cog_ir_get_value f vid with
           | None => (false, m)
           | Some v =>
               if negb (abi_of_runtime m abi (value_type v)) then (false, m)
               else (true, put_function m fid
                             (with_values f (put (values f) vid (with_value_abi v abi))))
           end
       end.

Definition with_instructions (b : CogIrBlock) (insns : table CogIrInstruction) : CogIrBlock :=
  mkBlock (block_id b) (block_name b) (block_span b) (block_parameters b) insns (terminator b).
Definition with_block_parameters (b : CogIrBlock) (ps : table CogIrBlockParam) : CogIrBlock :=
  mkBlock (block_id b) (block_name b) (block_span b) ps (instructions b) (terminator b).
Definition with_terminator (b : CogIrBlock) (t : CogIrTerminator) : CogIrBlock :=
  mkBlock (block_id b) (block_name b) (block_span b) (block_parameters b) (instructions b) t.

Definition put_block (m : CogIrModule) (fid : CogIrFunctionId) (f : CogIrFunction)
    (bid : CogIrBlockId) (b : CogIrBlock) : CogIrModule :=
  put_function m fid (with_blocks f (put (blocks f) bid b) (entry_block f)).

Definition discard_result (i : CogIrInstruction) : CogIrInstruction :=
  mkInstruction (op i) (insn_result i) (insn_result_type i) true (insn_span i) (insn_as i).

Definition cog_ir_mark_value_discarded (m : CogIrModule) (fid : CogIrFunctionId)
    (vid : CogIrValueId) : bool * CogIrModule :=
  if negb (module_mutable m) then (false, m)
  else match cog_ir_get_function m fid with
       | None => (false, m)
       | Some f =>
           match cog_ir_get_value f vid with
           | None => (false, m)
           | Some v =>
               if negb (bool_decide (value_kind v = COG_IR_VALUE_INSTRUCTION)) then (false, m)
               else match cog_ir_get_block f (value_block v) with
                    | None => (false, m)
                    | Some b =>
                        match items (instructions b) !! N.to_nat (ordinal v) with
                        | None => (false, m)
                        | Some i =>
                            if negb (insn_result i =? vid)%N
                               || (insn_result_type i =? COG_IR_ID_INVALID)%N
                            then (false, m)
                            else (true, put_block m fid f (value_block v)
                                   (with_instructions b
                                      (put (instructions b) (ordinal v) (discard_result i))))
                        end
                    end
           end
       end.

(** ** Blocks *)

Definition cog_ir_add_block (m : CogIrModule) (fid : CogIrFunctionId) (name : string)
    (span : SourceSpan) : CogIrBlockId * CogIrModule :=
  if negb (module_mutable m) then fail m
  else match cog_ir_get_function m fid with
       | None => fail m
       | Some f =>
           if negb (bool_decide (function_kind f = COG_IR_FUNCTION_DEFINITION))
              || (COG_IR_ID_INVALID <=? count (blocks f))%N
           then fail m
           else
             let id := count (blocks f) in
             let b := mkBlock id name span empty_table empty_table
                        (mkTerminator source_span_invalid TermNone) in
             (id, put_function m fid
                    (with_blocks f (push (blocks f) b)
                       (if (entry_block f =? COG_IR_ID_INVALID)%N then id else entry_block f)))
       end.

(** When the value table is full the parameter array has been grown already. *)
Definition cog_ir_add_block_parameter (m : CogIrModule) (fid : CogIrFunctionId)
    (bid : CogIrBlockId) (type : CogIrTypeId) (name : string) (span : SourceSpan)
    : CogIrValueId * CogIrModule :=
  if negb (module_mutable m) || negb (has_type m type) then fail m
  else match cog_ir_get_function m fid with
       | None => fail m
       | Some f =>
           match cog_ir_get_block f bid with
           | None => fail m
           | Some b =>
               let ord := count (block_parameters b) in
               let '(value, f') := append_value m f type COG_IR_VALUE_BLOCK_PARAMETER bid ord span in
               if (value =? COG_IR_ID_INVALID)%N then
                 (COG_IR_ID_INVALID,
                  put_block m fid f bid (with_block_parameters b (grow_array (block_parameters b))))
               else
                 (value, put_block m fid f' bid
                    (with_block_parameters b
                       (push (block_parameters b) (mkBlockParam value type name span))))
           end
       end.

Definition is_terminated (b : CogIrBlock) : bool :=
  match term_as (terminator b) with TermNone => false | _ => true end.

(** [*out_result] and the returned flag.  The two failures inside leave the grown
    array, with the count restored. *)
Definition cog_ir_emit (m : CogIrModule) (fid : CogIrFunctionId) (bid : CogIrBlockId)
    (input : option CogIrInstruction) : (bool * CogIrValueId) * CogIrModule :=
  match input with
  | None => ((false, COG_IR_ID_INVALID), m)
  | Some input =>
      if negb (module_mutable m) then ((false, COG_IR_ID_INVALID), m)
      else match cog_ir_get_function m fid with
      | None => ((false, COG_IR_ID_INVALID), m)
      | Some f =>
      match cog_ir_get_block f bid with
      | None => ((false, COG_IR_ID_INVALID), m)
      | Some b =>
          if is_terminated b then ((false, COG_IR_ID_INVALID), m)
          else
            let ord := count (instructions b) in
            let insn result := mkInstruction (op input) result (insn_result_type input)
                                 (result_is_discarded input) (insn_span input) (insn_as input) in
            if (insn_result_type input =? COG_IR_ID_INVALID)%N then
              ((true, COG_IR_ID_INVALID),
               put_block m fid f bid
                 (with_instructions b (push (instructions b) (insn COG_IR_ID_INVALID))))
            else
              let '(value, f') := append_value m f (insn_result_type input)
                                    COG_IR_VALUE_INSTRUCTION bid ord (insn_span input) in
              if (value =? COG_IR_ID_INVALID)%N then
                ((false, COG_IR_ID_INVALID),
                 put_block m fid f bid (with_instructions b (grow_array (instructions b))))
              else
                ((true, value),
                 put_block m fid f' bid
                   (with_instructions b (push (instructions b) (insn value))))
      end
      end
  end.

(** The [SWITCH] case returns after [block->terminator = *input] when the cases are
    missing: the block keeps the terminator although the call fails. *)
Definition cog_ir_set_terminator (m : CogIrModule) (fid : CogIrFunctionId)
    (bid : CogIrBlockId) (input : option CogIrTerminator) : bool * CogIrModule :=
  match input with
  | None => (false, m)
  | Some input =>
      if negb (module_mutable m)
         || (match term_as input with TermNone => true | _ => false end)
      then (false, m)
      else match cog_ir_get_function m fid with
      | None => (false, m)
      | Some f =>
      match cog_ir_get_block f bid with
      | None => (false, m)
      | Some b =>
          if is_terminated b then (false, m)
          else
            (match term_as input with
             | TermSwitch _ cases _ => negb (missing_array cases)
             | _ => true
             end,
             put_block m fid f bid (with_terminator b input))
      end
      end
  end.
