(* ===== verification/CogIrInvariant.v ===== *)
(** The invariant of CogIR modules: what the builder establishes, whatever sequence
    of calls builds a module. *)
From S2P Require Import Prelude Source Target CogIr CogIrBuilder.

(** ** Tables *)

(** The table fits its array and its indices fit an identifier. *)
Definition table_ok {A} (t : table A) : Prop :=
  (count t <= capacity t)%N /\ (count t <= COG_IR_ID_INVALID)%N.

Lemma table_get_items {A} (t : table A) id x :
  table_get t id = Some x -> items t !! N.to_nat id = Some x.
Proof. unfold table_get. by destruct (_ || _). Qed.

Lemma table_get_lt {A} (t : table A) id x : table_get t id = Some x -> (id < count t)%N.
Proof.
  intros H%table_get_items. apply lookup_lt_Some in H. unfold count. lia.
Qed.

Lemma table_get_ok {A} (t : table A) id :
  table_ok t -> table_get t id = items t !! N.to_nat id.
Proof.
  intros [_ Hc]. unfold table_get. unfold count in *.
  destruct (N.eqb_spec id COG_IR_ID_INVALID) as [->|]; simpl.
  - symmetry. apply lookup_ge_None. lia.
  - destruct (N.leb_spec (N.of_nat (length (items t))) id); [|done].
    symmetry. apply lookup_ge_None. lia.
Qed.

Lemma items_push {A} (t : table A) x : items (push t x) = items t ++ [x].
Proof. unfold push, grow_array. simpl. by destruct (_ <? _)%N. Qed.

Lemma items_grow {A} (t : table A) : items (grow_array t) = items t.
Proof. unfold grow_array. by destruct (_ <? _)%N. Qed.

Lemma table_ok_push {A} (t : table A) x :
  table_ok t -> (COG_IR_ID_INVALID <=? count t)%N = false -> table_ok (push t x).
Proof.
  intros [Hcap Hc] Hlt. apply N.leb_gt in Hlt. unfold table_ok, push, grow_array, count in *.
  unfold COG_IR_ID_INVALID in *. cbn [items capacity].
  destruct (N.ltb_spec (N.of_nat (length (items t))) (capacity t)) as [H|H]; cbn [items capacity];
    rewrite length_app; simpl; (split; [|lia]).
  - lia.
  - destruct (N.eqb_spec (capacity t) 0); [lia|]. rewrite N.mod_small; lia.
Qed.

Lemma table_ok_put {A} (t : table A) id x : table_ok t -> table_ok (put t id x).
Proof. unfold table_ok, put, count. cbn [items capacity]. by rewrite length_insert. Qed.

Lemma table_ok_empty {A} : table_ok (@empty_table A).
Proof. unfold table_ok, count, COG_IR_ID_INVALID. simpl. lia. Qed.

Lemma get_push_old {A} (t : table A) x id y :
  table_get t id = Some y -> table_ok (push t x) -> table_get (push t x) id = Some y.
Proof.
  intros H Hok. rewrite table_get_ok, items_push by done.
  by apply lookup_app_l_Some, table_get_items.
Qed.

#[export] Hint Resolve table_ok_push table_ok_put table_ok_empty : coglet.

Lemma count_push {A} (t : table A) x : count (push t x) = (count t + 1)%N.
Proof. unfold count. rewrite items_push, length_app. simpl. lia. Qed.

#[global] Opaque push.

(** Every entry of an updated list comes from an entry, changed or not. *)
Lemma insert_old {A} (R : A -> A -> Prop) (xs : list A) i j x y z :
  xs !! j = Some y -> R y x -> (forall w, R w w) -> xs !! i = Some z ->
  exists z', <[j:=x]> xs !! i = Some z' /\ R z z'.
Proof.
  intros Hj Hyx Hrefl Hi. destruct (decide (j = i)) as [->|Hne].
  - exists x. rewrite list_lookup_insert_eq by (by eapply lookup_lt_Some). split; congruence.
  - exists z. by rewrite list_lookup_insert_ne.
Qed.

(** Entry [i] of every table carries the identifier [i]. *)
Definition numbered {A} (id_of : A -> N) (xs : list A) : Prop :=
  forall i x, xs !! i = Some x -> id_of x = N.of_nat i.

Lemma numbered_snoc {A} (id_of : A -> N) xs x :
  numbered id_of xs -> id_of x = N.of_nat (length xs) -> numbered id_of (xs ++ [x]).
Proof.
  intros Hn Hx i y Hi. apply lookup_snoc_Some in Hi. destruct Hi as [[_ Hi]|[-> <-]]; eauto.
Qed.

Lemma numbered_insert {A} (id_of : A -> N) xs i x y :
  numbered id_of xs -> xs !! i = Some y -> id_of x = id_of y -> numbered id_of (<[i:=x]> xs).
Proof.
  intros Hn Hy Hxy j z Hj. apply list_lookup_insert_Some in Hj.
  destruct Hj as [(<- & <- & _)|[_ Hj]]; [rewrite Hxy|]; eauto.
Qed.

(** ** Types *)

Definition type_exists (ts : table CogIrType) (id : CogIrTypeId) : Prop :=
  is_Some (table_get ts id).

(** The types a type refers to. *)
Definition type_refs (a : TypeAs) : list CogIrTypeId :=
  match a with
  | AsPointer p _ _ => [p]
  | AsArray e _ => [e]
  | AsStruct g | AsUnion g => field_type <$> agg_fields g
  | AsEnum e => if (backing_type e =? COG_IR_ID_INVALID)%N then [] else [backing_type e]
  | AsFunction ft => result_type ft :: parameter_types ft
  | AsVoid | AsBool | AsInteger _ _ | AsFloat _ | AsOpaquePointer _ _ => []
  end.

(** Structural types are identified by their contents, nominal types by their
    declaration. *)
Definition structural (a : TypeAs) : bool :=
  match a with
  | AsStruct _ | AsUnion _ | AsEnum _ => false
  | _ => true
  end.

(** The widths [cog_ir_type_integer] and [cog_ir_type_float] accept. *)
Definition width_ok (a : TypeAs) : Prop :=
  match a with
  | AsInteger bits _ => bits = 8%N \/ bits = 16%N \/ bits = 32%N \/ bits = 64%N
  | AsFloat bits => bits = 32%N \/ bits = 64%N
  | AsStruct g | AsUnion g => is_complete g = true -> is_incomplete g = false
  | _ => True
  end.

Definition types_ok (ts : table CogIrType) : Prop :=
  table_ok ts /\ numbered type_id (items ts)
  /\ (forall i t, items ts !! i = Some t ->
        Forall (type_exists ts) (type_refs (type_as t)) /\ width_ok (type_as t))
  /\ (forall i j t u, items ts !! i = Some t -> items ts !! j = Some u ->
        type_as t = type_as u -> structural (type_as t) = true -> i = j).

(** Later tables keep the types of earlier ones; only a nominal type can change, by
    being defined. *)
Definition types_extend (ts ts' : table CogIrType) : Prop :=
  forall id t, table_get ts id = Some t -> exists t', table_get ts' id = Some t'
    /\ type_kind t' = type_kind t
    /\ (structural (type_as t) = true -> type_as t' = type_as t).

Lemma types_extend_refl ts : types_extend ts ts.
Proof. intros id t H. by exists t. Qed.

Lemma structural_kind t t' :
  type_kind t = type_kind t' -> structural (type_as t) = structural (type_as t').
Proof. unfold type_kind. by destruct (type_as t), (type_as t'). Qed.

Lemma types_extend_trans ts1 ts2 ts3 :
  types_extend ts1 ts2 -> types_extend ts2 ts3 -> types_extend ts1 ts3.
Proof.
  intros H12 H23 id t H. destruct (H12 id t H) as (t2 & H2 & Hk2 & Hs2).
  destruct (H23 id t2 H2) as (t3 & H3 & Hk3 & Hs3). exists t3.
  split_and!; [done | congruence |]. intros Hs. rewrite Hs3, Hs2; [done..|].
  by rewrite (structural_kind t2 t Hk2).
Qed.

Lemma type_exists_extend ts ts' id :
  types_extend ts ts' -> type_exists ts id -> type_exists ts' id.
Proof. intros He [t Ht]. destruct (He id t Ht) as (t' & Ht' & _). by exists t'. Qed.

Lemma types_extend_push ts t : table_ok (push ts t) -> types_extend ts (push ts t).
Proof. intros Hok id u Hu. exists u. split_and!; [by apply get_push_old | done..]. Qed.

(** Appending a type: nominal, or structural and new. *)
Lemma types_ok_push ts t :
  types_ok ts -> (COG_IR_ID_INVALID <=? count ts)%N = false ->
  type_id t = count ts -> Forall (type_exists ts) (type_refs (type_as t)) ->
  width_ok (type_as t) ->
  (structural (type_as t) = true -> forall i u, items ts !! i = Some u -> type_as u <> type_as t) ->
  types_ok (push ts t).
Proof.
  intros (Hok & Hnum & Hrefs & Huniq) Hlt Hid Hr Hw Hnew.
  assert (Hok' : table_ok (push ts t)) by auto with coglet.
  assert (He : types_extend ts (push ts t)) by by apply types_extend_push.
  split_and!; [done | | |]; rewrite items_push.
  - by apply numbered_snoc.
  - intros i u Hu.
    assert (H : Forall (type_exists ts) (type_refs (type_as u)) /\ width_ok (type_as u)).
    { apply lookup_snoc_Some in Hu. destruct Hu as [[_ Hu]|[_ <-]]; eauto. }
    destruct H as [H ?]. split; [|done].
    eapply Forall_impl; [exact H|]. intros id. by apply type_exists_extend.
  - intros i j u v Hu Hv Heq Hs. apply lookup_snoc_Some in Hu, Hv.
    destruct Hu as [[_ Hu]|[-> <-]], Hv as [[_ Hv]|[-> <-]]; [by eapply Huniq | | |done].
    + rewrite Heq in Hs. by destruct (Hnew Hs i u Hu).
    + by destruct (Hnew Hs j v Hv).
Qed.

(** Defining a nominal type. *)
Lemma types_extend_put ts id t t' :
  table_ok ts -> table_get ts id = Some t -> type_kind t' = type_kind t ->
  structural (type_as t) = false -> types_extend ts (put ts id t').
Proof.
  intros Hok Ht Hk Hs i u Hu.
  rewrite (table_get_ok (put ts id t')) by auto with coglet. simpl.
  apply table_get_items in Ht, Hu. destruct (decide (N.to_nat id = N.to_nat i)) as [He|Hne].
  - rewrite He in *. rewrite list_lookup_insert_eq by (by eapply lookup_lt_Some).
    exists t'. split_and!; [done | congruence | congruence].
  - rewrite list_lookup_insert_ne by done. by exists u.
Qed.

Lemma types_ok_put ts id t t' :
  types_ok ts -> table_get ts id = Some t -> type_kind t' = type_kind t ->
  type_id t' = type_id t -> structural (type_as t) = false ->
  Forall (type_exists ts) (type_refs (type_as t')) -> width_ok (type_as t') ->
  types_ok (put ts id t').
Proof.
  intros (Hok & Hnum & Hrefs & Huniq) Ht Hk Hid Hs Hr Hw.
  assert (He : types_extend ts (put ts id t')) by by eapply types_extend_put.
  pose proof (table_get_items _ _ _ Ht) as Hi.
  split_and!; [by auto with coglet | simpl.. ].
  - by eapply numbered_insert.
  - intros i u Hu.
    assert (H : Forall (type_exists ts) (type_refs (type_as u)) /\ width_ok (type_as u)).
    { apply list_lookup_insert_Some in Hu. destruct Hu as [(_ & <- & _)|[_ Hu]]; eauto. }
    destruct H as [H ?]. split; [|done].
    eapply Forall_impl; [exact H|]. intros i'. by apply type_exists_extend.
  - intros i j u v Hu Hv Heq Hsu. apply list_lookup_insert_Some in Hu, Hv.
    pose proof (structural_kind t' t Hk).
    destruct Hu as [(_ & <- & _)|[_ Hu]]; [congruence|].
    destruct Hv as [(_ & <- & _)|[_ Hv]]; [congruence|]. by eapply Huniq.
Qed.

(** ** ABI types, constants, globals *)

Definition abis_ok (ts : table CogIrType) (abis : table CogIrAbiType) : Prop :=
  table_ok abis /\ numbered abi_id (items abis)
  /\ Forall (fun a => type_exists ts (runtime_type (abi_desc a))) (items abis)
  /\ (forall i j a b, items abis !! i = Some a -> items abis !! j = Some b ->
        abi_desc a = abi_desc b -> i = j).

Definition aggregate_elements (a : ConstAs) : option (list CogIrConstId) :=
  match a with
  | ConstArray es | ConstStruct es => Some es
  | _ => None
  end.

Definition constants_ok (ts : table CogIrType) (cs : table CogIrConstant) : Prop :=
  table_ok cs /\ numbered const_id (items cs)
  /\ (forall i c, items cs !! i = Some c ->
        type_exists ts (const_type c)
        /\ forall es, aggregate_elements (const_as c) = Some es ->
             Forall (fun e => (e < N.of_nat i)%N) es)
  /\ (forall i j c d, items cs !! i = Some c -> items cs !! j = Some d ->
        const_type c = const_type d -> const_as c = const_as d ->
        aggregate_elements (const_as c) = None -> i = j).

Definition globals_ok (ts : table CogIrType) (cs : table CogIrConstant)
    (gs : table CogIrGlobal) : Prop :=
  table_ok gs /\ numbered global_id (items gs)
  /\ Forall (fun g => type_exists ts (global_type g) /\ (static_initializer g < count cs)%N)
            (items gs).

(** ** Functions *)

(** Where a value is defined. *)
Definition site_ok (f : CogIrFunction) (id : CogIrValueId) (v : CogIrValue) : Prop :=
  match value_kind v with
  | COG_IR_VALUE_FUNCTION_PARAMETER =>
      function_parameters f !! N.to_nat (ordinal v) = Some id
  | COG_IR_VALUE_BLOCK_PARAMETER =>
      exists b p, items (blocks f) !! N.to_nat (value_block v) = Some b
        /\ items (block_parameters b) !! N.to_nat (ordinal v) = Some p
        /\ param_value p = id /\ param_type p = value_type v
  | COG_IR_VALUE_INSTRUCTION =>
      exists b i, items (blocks f) !! N.to_nat (value_block v) = Some b
        /\ items (instructions b) !! N.to_nat (ordinal v) = Some i
        /\ insn_result i = id /\ insn_result_type i = value_type v
  end.

(** The value [id] is recorded as the one defined at the given place. *)
Definition records (f : CogIrFunction) (id : CogIrValueId) (kind : CogIrValueKind)
    (block : N) (ord : nat) (type : CogIrTypeId) : Prop :=
  exists v, items (values f) !! N.to_nat id = Some v /\ value_kind v = kind
    /\ value_block v = block /\ ordinal v = N.of_nat ord /\ value_type v = type.

Definition instruction_ok (f : CogIrFunction) (bi i : nat) (insn : CogIrInstruction) : Prop :=
  if (insn_result_type insn =? COG_IR_ID_INVALID)%N
  then insn_result insn = COG_IR_ID_INVALID
  else records f (insn_result insn) COG_IR_VALUE_INSTRUCTION (N.of_nat bi) i
         (insn_result_type insn).

Definition block_ok (f : CogIrFunction) (bi : nat) (b : CogIrBlock) : Prop :=
  block_id b = N.of_nat bi
  /\ (forall i p, items (block_parameters b) !! i = Some p ->
        records f (param_value p) COG_IR_VALUE_BLOCK_PARAMETER (N.of_nat bi) i (param_type p))
  /\ (forall i insn, items (instructions b) !! i = Some insn -> instruction_ok f bi i insn).

Definition slot_ok (ts : table CogIrType) (s : CogIrSlot) : Prop :=
  type_exists ts (slot_type s)
  /\ (slot_kind s = COG_IR_SLOT_SOURCE_PARAMETER
      <-> parameter_index s <> COG_IR_PARAMETER_INDEX_INVALID).

Record fn_ok (ts : table CogIrType) (f : CogIrFunction) : Prop := {
  fn_signature : exists t ft, table_get ts (function_type f) = Some t
    /\ type_as t = AsFunction ft
    /\ (forall i id, function_parameters f !! i = Some id -> exists type,
          parameter_types ft !! i = Some type
          /\ records f id COG_IR_VALUE_FUNCTION_PARAMETER COG_IR_ID_INVALID i type);
  fn_tables : table_ok (values f) /\ table_ok (slots f) /\ table_ok (blocks f);
  fn_values_numbered : numbered value_id (items (values f));
  fn_values : forall id v, items (values f) !! id = Some v ->
    type_exists ts (value_type v) /\ site_ok f (N.of_nat id) v;
  fn_slots : numbered slot_id (items (slots f)) /\ Forall (slot_ok ts) (items (slots f));
  fn_blocks : forall bi b, items (blocks f) !! bi = Some b -> block_ok f bi b;
  fn_entry : entry_block f = (if decide (items (blocks f) = []) then COG_IR_ID_INVALID else 0%N);
  fn_declaration : function_kind f = COG_IR_FUNCTION_DECLARATION ->
    items (blocks f) = [] /\ items (slots f) = [];
}.

Definition functions_ok (ts : table CogIrType) (fs : table CogIrFunction) : Prop :=
  table_ok fs /\ numbered function_id (items fs) /\ Forall (fn_ok ts) (items fs).

Record module_ok (m : CogIrModule) : Prop := {
  mod_types : types_ok (types m);
  mod_abis : abis_ok (types m) (abi_types m);
  mod_constants : constants_ok (types m) (constants m);
  mod_globals : globals_ok (types m) (constants m) (globals m);
  mod_functions : functions_ok (types m) (functions m);
}.

(** What a producer of modules promises to the passes that read them, the verifier
    first: whatever it makes satisfies the invariant. *)
Class ModuleProducer (made : CogIrModule -> Prop) : Prop :=
  produced_ok m : made m -> module_ok m.

Lemma produced_function {made} {P : ModuleProducer made} m fid f :
  made m -> cog_ir_get_function m fid = Some f -> fn_ok (types m) f.
Proof.
  intros Hm Hf%table_get_items. destruct (mod_functions _ (produced_ok _ Hm)) as (_ & _ & H).
  rewrite Forall_forall in H. by eapply H, list_elem_of_lookup_2.
Qed.

(** *** Changing the types *)

Lemma abis_ok_extend ts ts' abis :
  types_extend ts ts' -> abis_ok ts abis -> abis_ok ts' abis.
Proof.
  intros He (Hok & Hn & Hr & Hu). split_and!; [done..| |done].
  eapply Forall_impl; [exact Hr|]. intros a. by apply type_exists_extend.
Qed.

Lemma constants_ok_extend ts ts' cs :
  types_extend ts ts' -> constants_ok ts cs -> constants_ok ts' cs.
Proof.
  intros He (Hok & Hn & Hr & Hu). split_and!; [done..| |done].
  intros i c Hc. destruct (Hr i c Hc) as [Ht Hes]. split; [by eapply type_exists_extend | done].
Qed.

Lemma globals_ok_extend ts ts' cs cs' gs :
  types_extend ts ts' -> (count cs <= count cs')%N -> globals_ok ts cs gs -> globals_ok ts' cs' gs.
Proof.
  intros He Hc (Hok & Hn & Hr). split_and!; [done..|].
  eapply Forall_impl; [exact Hr|]. intros g [Ht Hi]. split; [by eapply type_exists_extend | lia].
Qed.

Lemma fn_ok_extend ts ts' f : types_extend ts ts' -> fn_ok ts f -> fn_ok ts' f.
Proof.
  intros He [(t & ft & Ht & Has & Hps) Htab Hn Hv [Hsn Hs] Hb Hent Hd]. split; try done.
  - destruct (He _ t Ht) as (t' & Ht' & _ & Hsame). exists t', ft.
    split_and!; [done | by rewrite Hsame; rewrite ?Has | done].
  - intros id v Hid. destruct (Hv id v Hid) as [? ?]. split; [by eapply type_exists_extend | done].
  - split; [done|]. eapply Forall_impl; [exact Hs|].
    intros s [? ?]. split; [by eapply type_exists_extend | done].
Qed.

Lemma functions_ok_extend ts ts' fs :
  types_extend ts ts' -> functions_ok ts fs -> functions_ok ts' fs.
Proof.
  intros He (Hok & Hn & Hf). split_and!; [done..|].
  eapply Forall_impl; [exact Hf|]. intros f. by apply fn_ok_extend.
Qed.

Lemma module_ok_with_types m ts :
  module_ok m -> types_ok ts -> types_extend (types m) ts -> module_ok (with_types m ts).
Proof.
  intros [_ Ha Hc Hg Hf] Hts He. split; simpl; [done | | | |].
  - by eapply abis_ok_extend.
  - by eapply constants_ok_extend.
  - eapply globals_ok_extend; [done | reflexivity | done].
  - by eapply functions_ok_extend.
Qed.

Lemma module_ok_with_functions m fs :
  module_ok m -> functions_ok (types m) fs -> module_ok (with_functions m fs).
Proof. by intros [? ? ? ? _] Hf; split. Qed.

(** ** What no builder call takes back *)

Definition same_value (v v' : CogIrValue) : Prop :=
  value_id v' = value_id v /\ value_type v' = value_type v /\ value_kind v' = value_kind v
  /\ value_block v' = value_block v /\ ordinal v' = ordinal v.

Definition same_instruction (i i' : CogIrInstruction) : Prop :=
  op i' = op i /\ insn_result i' = insn_result i /\ insn_result_type i' = insn_result_type i
  /\ insn_as i' = insn_as i /\ insn_span i' = insn_span i.

Record block_grows (b b' : CogIrBlock) : Prop := {
  bg_id : block_id b' = block_id b;
  bg_parameters : forall i p, items (block_parameters b) !! i = Some p ->
    items (block_parameters b') !! i = Some p;
  bg_instructions : forall i x, items (instructions b) !! i = Some x ->
    exists x', items (instructions b') !! i = Some x' /\ same_instruction x x';
  bg_terminated : is_terminated b = true ->
    terminator b' = terminator b
    /\ length (items (instructions b')) = length (items (instructions b));
}.

Record fn_grows (f f' : CogIrFunction) : Prop := {
  fg_id : function_id f' = function_id f;
  fg_type : function_type f' = function_type f;
  fg_parameters : function_parameters f' = function_parameters f;
  fg_values : forall i v, items (values f) !! i = Some v ->
    exists v', items (values f') !! i = Some v' /\ same_value v v';
  fg_blocks : forall i b, items (blocks f) !! i = Some b ->
    exists b', items (blocks f') !! i = Some b' /\ block_grows b b';
}.

Record grows (m m' : CogIrModule) : Prop := {
  gr_types : types_extend (types m) (types m');
  gr_abis : items (abi_types m) `prefix_of` items (abi_types m');
  gr_constants : items (constants m) `prefix_of` items (constants m');
  gr_globals : items (globals m) `prefix_of` items (globals m');
  gr_functions : forall i f, items (functions m) !! i = Some f ->
    exists f', items (functions m') !! i = Some f' /\ fn_grows f f';
}.

Lemma same_value_refl v : same_value v v.
Proof. by split_and!. Qed.

Lemma same_instruction_refl i : same_instruction i i.
Proof. by split_and!. Qed.

Lemma block_grows_refl b : block_grows b b.
Proof. split; eauto using same_instruction_refl. Qed.

Lemma fn_grows_refl f : fn_grows f f.
Proof. split; eauto using same_value_refl, block_grows_refl. Qed.

Lemma grows_refl m : grows m m.
Proof. split; eauto using types_extend_refl, fn_grows_refl. Qed.

#[export] Hint Resolve same_value_refl same_instruction_refl block_grows_refl fn_grows_refl
  types_extend_refl grows_refl : coglet.

Lemma block_grows_trans b1 b2 b3 : block_grows b1 b2 -> block_grows b2 b3 -> block_grows b1 b3.
Proof.
  intros [I1 P1 X1 T1] [I2 P2 X2 T2]. split.
  - congruence.
  - auto.
  - intros i x Hx. destruct (X1 i x Hx) as (x2 & Hx2 & S1).
    destruct (X2 i x2 Hx2) as (x3 & Hx3 & S2). exists x3. split; [done|].
    unfold same_instruction in *. naive_solver congruence.
  - intros Ht. destruct (T1 Ht) as [Ht2 Hl2].
    destruct T2 as [Ht3 Hl3]; [unfold is_terminated; by rewrite Ht2|].
    split; congruence.
Qed.

Lemma fn_grows_trans f1 f2 f3 : fn_grows f1 f2 -> fn_grows f2 f3 -> fn_grows f1 f3.
Proof.
  intros [I1 T1 P1 V1 B1] [I2 T2 P2 V2 B2]. split; try congruence.
  - intros i v Hv. destruct (V1 i v Hv) as (v2 & Hv2 & S1).
    destruct (V2 i v2 Hv2) as (v3 & Hv3 & S2). exists v3. split; [done|].
    unfold same_value in *. naive_solver congruence.
  - intros i b Hb. destruct (B1 i b Hb) as (b2 & Hb2 & S1).
    destruct (B2 i b2 Hb2) as (b3 & Hb3 & S2). exists b3. split; [done|].
    by eapply block_grows_trans.
Qed.

Lemma grows_trans m1 m2 m3 : grows m1 m2 -> grows m2 m3 -> grows m1 m3.
Proof.
  intros [T1 A1 C1 G1 F1] [T2 A2 C2 G2 F2]. split.
  - by eapply types_extend_trans.
  - by etrans.
  - by etrans.
  - by etrans.
  - intros i f Hf. destruct (F1 i f Hf) as (f2 & Hf2 & S1).
    destruct (F2 i f2 Hf2) as (f3 & Hf3 & S2). exists f3. split; [done|].
    by eapply fn_grows_trans.
Qed.

(** What a builder call must establish. *)
Definition preserves (m m' : CogIrModule) : Prop := module_ok m -> module_ok m' /\ grows m m'.

Lemma preserves_refl m : preserves m m.
Proof. intros H. auto with coglet. Qed.

#[export] Hint Resolve preserves_refl : coglet.

(** *** Building types *)

Lemma find_index_Some {A} (p : A -> bool) xs i :
  find_index p xs = Some i -> exists x, xs !! i = Some x /\ p x = true.
Proof.
  revert i. induction xs as [|x xs IH]; intros i; simpl; [done|].
  destruct (p x) eqn:Hp; [intros [= <-]; eauto|].
  destruct (find_index p xs) as [j|] eqn:Hj; [|done]. intros [= <-]. by apply IH.
Qed.

Lemma find_index_None {A} (p : A -> bool) xs :
  find_index p xs = None -> forall i x, xs !! i = Some x -> p x = false.
Proof.
  induction xs as [|y xs IH]; intros H i x Hx; [done|]. simpl in H.
  destruct (p y) eqn:Hp; [done|]. destruct (find_index p xs) eqn:Hj; [done|].
  destruct i; simpl in Hx; [congruence | by eapply IH].
Qed.

Lemma preserves_with_types m ts :
  (types_ok (types m) -> types_ok ts /\ types_extend (types m) ts) ->
  preserves m (with_types m ts).
Proof.
  intros Hts Hm. destruct (Hts (mod_types m Hm)) as [Hok He].
  split; [by apply module_ok_with_types|]. split; simpl; eauto with coglet.
Qed.

Lemma append_type_preserves m name span a :
  Forall (type_exists (types m)) (type_refs a) -> width_ok a ->
  (structural a = true -> forall i u, items (types m) !! i = Some u -> type_as u <> a) ->
  preserves m (snd (append_type m name span a)).
Proof.
  intros Hr Hw Hnew. unfold append_type.
  destruct (negb _ || _) eqn:Hg; [by auto with coglet|]. to_props. simpl.
  apply preserves_with_types. intros Hts. split.
  - by apply types_ok_push.
  - apply types_extend_push. destruct Hts. auto with coglet.
Qed.

Lemma intern_type_preserves m a :
  Forall (type_exists (types m)) (type_refs a) -> width_ok a ->
  preserves m (snd (intern_type m a)).
Proof.
  intros Hr Hw. unfold intern_type. destruct (find_index _ _) eqn:Hf; [by auto with coglet|].
  apply append_type_preserves; [done..|]. intros _ i u Hu.
  pose proof (find_index_None _ _ Hf i u Hu) as H. by apply bool_decide_eq_false in H.
Qed.

Lemma has_type_exists m id : has_type m id = true <-> type_exists (types m) id.
Proof. apply bool_decide_eq_true. Qed.

Lemma forallb_has_type m {A} (g : A -> CogIrTypeId) xs :
  forallb (fun x => has_type m (g x)) xs = true -> Forall (type_exists (types m)) (g <$> xs).
Proof.
  rewrite <- Is_true_true, forallb_True. intros H. apply Forall_fmap.
  eapply Forall_impl; [exact H|]. intros x Hx. by apply has_type_exists, Is_true_true.
Qed.

(** Open the guards of a builder call: on failure the module is unchanged. *)
Ltac open_guards :=
  repeat match goal with
  | |- preserves ?m (snd (if ?b then _ else _)) =>
      let H := fresh "Hg" in destruct b eqn:H; [by auto with coglet | to_props]
  | |- preserves ?m (snd (match ?o with Some _ => _ | None => _ end)) =>
      let H := fresh "Ho" in destruct o eqn:H; [|by auto with coglet]
  end.

Lemma cog_ir_type_void_preserves m : preserves m (snd (cog_ir_type_void m)).
Proof. unfold cog_ir_type_void. open_guards. by apply intern_type_preserves. Qed.

Lemma cog_ir_type_bool_preserves m : preserves m (snd (cog_ir_type_bool m)).
Proof. unfold cog_ir_type_bool. open_guards. by apply intern_type_preserves. Qed.

Lemma cog_ir_type_integer_preserves m bits s : preserves m (snd (cog_ir_type_integer m bits s)).
Proof.
  unfold cog_ir_type_integer. open_guards. apply intern_type_preserves; [done|]. simpl.
  rewrite !andb_false_iff, !negb_false_iff, !N.eqb_eq in *. naive_solver.
Qed.

Lemma cog_ir_type_float_preserves m bits : preserves m (snd (cog_ir_type_float m bits)).
Proof.
  unfold cog_ir_type_float. open_guards. apply intern_type_preserves; [done|]. simpl.
  rewrite !andb_false_iff, !negb_false_iff, !N.eqb_eq in *. naive_solver.
Qed.

Lemma cog_ir_type_pointer_preserves m p r v : preserves m (snd (cog_ir_type_pointer m p r v)).
Proof.
  unfold cog_ir_type_pointer. open_guards. apply intern_type_preserves; [|done].
  simpl. by apply Forall_singleton, has_type_exists.
Qed.

Lemma cog_ir_type_opaque_pointer_preserves m r v :
  preserves m (snd (cog_ir_type_opaque_pointer m r v)).
Proof. unfold cog_ir_type_opaque_pointer. open_guards. by apply intern_type_preserves. Qed.

Lemma cog_ir_type_array_preserves m e n : preserves m (snd (cog_ir_type_array m e n)).
Proof.
  unfold cog_ir_type_array. open_guards. apply intern_type_preserves; [|done].
  simpl. by apply Forall_singleton, has_type_exists.
Qed.

Lemma cog_ir_type_function_preserves m r ps a c v :
  preserves m (snd (cog_ir_type_function m r ps a c v)).
Proof.
  unfold cog_ir_type_function. open_guards. apply intern_type_preserves; [|done].
  simpl. constructor; [by apply has_type_exists|].
  rewrite <- list_fmap_id. by apply (forallb_has_type m (fun x => x)).
Qed.

Lemma cog_ir_declare_nominal_type_preserves m k name span :
  preserves m (snd (cog_ir_declare_nominal_type m k name span)).
Proof.
  unfold cog_ir_declare_nominal_type. open_guards.
  destruct k; try (by auto with coglet); by apply append_type_preserves.
Qed.

Lemma with_aggregate_kind t a : type_kind (with_aggregate t a) = type_kind t.
Proof. unfold type_kind, with_aggregate. simpl. by destruct (type_as t). Qed.

Lemma aggregate_of_nominal t a : aggregate_of t = Some a -> structural (type_as t) = false.
Proof. unfold aggregate_of. by destruct (type_as t). Qed.

Lemma with_aggregate_refs t a a' :
  aggregate_of t = Some a -> type_refs (type_as (with_aggregate t a')) = field_type <$> agg_fields a'.
Proof. unfold aggregate_of, with_aggregate. by destruct (type_as t). Qed.

Lemma with_aggregate_width t a a' :
  aggregate_of t = Some a -> width_ok (type_as (with_aggregate t a'))
  <-> (is_complete a' = true -> is_incomplete a' = false).
Proof. unfold aggregate_of, with_aggregate. by destruct (type_as t). Qed.

Lemma define_aggregate_preserves m id t a a' :
  cog_ir_get_type m id = Some t -> aggregate_of t = Some a ->
  (types_ok (types m) -> Forall (type_exists (types m)) (field_type <$> agg_fields a')) ->
  (is_complete a' = true -> is_incomplete a' = false) ->
  preserves m (with_types m (put (types m) id (with_aggregate t a'))).
Proof.
  intros Ht Ha Hr Hw. apply preserves_with_types. intros Hts.
  pose proof (with_aggregate_kind t a') as Hk.
  pose proof (aggregate_of_nominal t a Ha) as Hs. split.
  - eapply types_ok_put; [done..| |].
    + rewrite (with_aggregate_refs t a a' Ha). by apply Hr.
    + by apply (with_aggregate_width t a a' Ha).
  - eapply types_extend_put; [|done..]. by destruct Hts.
Qed.

Lemma cog_ir_mark_incomplete_aggregate_type_preserves m id :
  preserves m (snd (cog_ir_mark_incomplete_aggregate_type m id)).
Proof.
  unfold cog_ir_mark_incomplete_aggregate_type. open_guards. simpl.
  eapply define_aggregate_preserves; [done..| |]; simpl; [|congruence].
  intros (_ & _ & Hr & _). apply table_get_items in Ho. destruct (Hr _ _ Ho) as [Hrefs _].
  revert Hrefs. unfold aggregate_of in Ho0. destruct (type_as c); try done; by injection Ho0 as <-.
Qed.

Lemma cog_ir_define_aggregate_type_preserves m id fs r p al :
  preserves m (snd (cog_ir_define_aggregate_type m id fs r p al)).
Proof.
  unfold cog_ir_define_aggregate_type. open_guards. simpl.
  eapply define_aggregate_preserves; [done..| |]; simpl; [|done].
  intros _. by apply forallb_has_type.
Qed.

Lemma cog_ir_define_enum_type_preserves m id b ms r abi :
  preserves m (snd (cog_ir_define_enum_type m id b ms r abi)).
Proof.
  unfold cog_ir_define_enum_type. open_guards.
  destruct (type_as c) as [| | | | | | | | |e|] eqn:Has; try (by auto with coglet).
  open_guards. simpl. apply preserves_with_types. intros Hts.
  set (t' := mkIrType _ _ _ _).
  assert (Hk : type_kind t' = type_kind c) by (unfold type_kind; simpl; by rewrite Has).
  assert (Hs : structural (type_as c) = false) by by rewrite Has.
  split; [|eapply types_extend_put; [by destruct Hts | done..]].
  eapply types_ok_put; [done..| |done]. simpl. destruct (b =? COG_IR_ID_INVALID)%N; [constructor|].
  apply Forall_singleton. by eexists.
Qed.

(** *** ABI types, constants and globals *)

Lemma prefix_push {A} (t : table A) x : items t `prefix_of` items (push t x).
Proof. rewrite items_push. by apply prefix_app_r. Qed.

Lemma append_abi_type_preserves m d :
  type_exists (types m) (runtime_type d) ->
  (forall i a, items (abi_types m) !! i = Some a -> abi_desc a <> d) ->
  preserves m (snd (append_abi_type m d)).
Proof.
  intros Hr Hnew. unfold append_abi_type. open_guards. simpl. intros [Ht Ha Hc Hg Hf].
  split; [|split; simpl; auto using prefix_push with coglet; eauto with coglet].
  split; simpl; [done| |done..]. destruct Ha as (Hok & Hn & Hrt & Hu).
  split_and!; [by auto with coglet | | |]; rewrite items_push.
  - by apply numbered_snoc.
  - by apply Forall_app; split; [|apply Forall_singleton].
  - intros i j a b Hi Hj Hab. apply lookup_snoc_Some in Hi, Hj.
    destruct Hi as [[_ Hi]|[-> <-]], Hj as [[_ Hj]|[-> <-]]; [by eapply Hu | | |done].
    + by destruct (Hnew i a Hi).
    + by destruct (Hnew j b Hj).
Qed.

Lemma intern_abi_type_preserves m d :
  type_exists (types m) (runtime_type d) -> preserves m (snd (intern_abi_type m d)).
Proof.
  intros Hr. unfold intern_abi_type. destruct (find_index _ _) eqn:Hf; [by auto with coglet|].
  apply append_abi_type_preserves; [done|]. intros i a Ha.
  pose proof (find_index_None _ _ Hf i a Ha) as Hne. by apply bool_decide_eq_false in Hne.
Qed.

Lemma type_has_kind_exists m id k : type_has_kind m id k = true -> type_exists (types m) id.
Proof.
  unfold type_has_kind, type_exists, cog_ir_get_type. destruct (table_get _ _); [eauto | done].
Qed.

Lemma cog_ir_abi_type_semantic_preserves m r : preserves m (snd (cog_ir_abi_type_semantic m r)).
Proof.
  unfold cog_ir_abi_type_semantic. open_guards.
  by apply intern_abi_type_preserves, has_type_exists.
Qed.

Lemma cog_ir_abi_type_c_scalar_preserves m r s :
  preserves m (snd (cog_ir_abi_type_c_scalar m r s)).
Proof.
  unfold cog_ir_abi_type_c_scalar. open_guards.
  by apply intern_abi_type_preserves, has_type_exists.
Qed.

Lemma cog_ir_abi_type_pointer_preserves m r e : preserves m (snd (cog_ir_abi_type_pointer m r e)).
Proof.
  unfold cog_ir_abi_type_pointer. open_guards.
  by eapply intern_abi_type_preserves, type_has_kind_exists.
Qed.

Lemma cog_ir_abi_type_opaque_pointer_preserves m r :
  preserves m (snd (cog_ir_abi_type_opaque_pointer m r)).
Proof.
  unfold cog_ir_abi_type_opaque_pointer. open_guards.
  by eapply intern_abi_type_preserves, type_has_kind_exists.
Qed.

Lemma cog_ir_abi_type_array_preserves m r e : preserves m (snd (cog_ir_abi_type_array m r e)).
Proof.
  unfold cog_ir_abi_type_array. open_guards.
  by eapply intern_abi_type_preserves, type_has_kind_exists.
Qed.

Lemma cog_ir_abi_type_function_preserves m r ret ps :
  preserves m (snd (cog_ir_abi_type_function m r ret ps)).
Proof.
  unfold cog_ir_abi_type_function.
  destruct (cog_ir_get_type m r) as [t|] eqn:Ht; simpl; [|by auto with coglet].
  destruct (type_as t); try (by auto with coglet). open_guards.
  apply intern_abi_type_preserves. by exists t.
Qed.

Lemma append_constant_preserves m type a :
  type_exists (types m) type ->
  (forall es, aggregate_elements a = Some es -> Forall (fun e => (e < count (constants m))%N) es) ->
  (aggregate_elements a = None -> forall i c, items (constants m) !! i = Some c ->
     const_type c = type -> const_as c <> a) ->
  preserves m (snd (append_constant m type a)).
Proof.
  intros Hr Hes Hnew. unfold append_constant. open_guards. simpl. intros [Ht Ha Hc Hg Hf].
  split; [|split; simpl; auto using prefix_push with coglet; eauto with coglet].
  split; simpl; [done..| | |done].
  - destruct Hc as (Hok & Hn & Hrt & Hu).
    split_and!; [by auto with coglet | | |]; rewrite items_push.
    + by apply numbered_snoc.
    + intros i c Hi. apply lookup_snoc_Some in Hi.
      destruct Hi as [[_ Hi]|[-> <-]]; [by apply Hrt | by split].
    + intros i j c d Hi Hj Hty Has Hsc. apply lookup_snoc_Some in Hi, Hj.
      destruct Hi as [[_ Hi]|[-> <-]], Hj as [[_ Hj]|[-> <-]]; [by eapply Hu | | |done].
      * simpl in Has, Hty. rewrite Has in Hsc. by destruct (Hnew Hsc i c Hi).
      * simpl in Hsc. by destruct (Hnew Hsc j d Hj).
  - eapply globals_ok_extend; [by auto with coglet | | done]. rewrite count_push. lia.
Qed.

Lemma intern_scalar_constant_preserves m type a :
  type_exists (types m) type -> aggregate_elements a = None ->
  preserves m (snd (intern_scalar_constant m type a)).
Proof.
  intros Hr Hsc. unfold intern_scalar_constant.
  destruct (find_index _ _) eqn:Hf; [by auto with coglet|].
  apply append_constant_preserves; [done | congruence |]. intros _ i c Hc Hty Has.
  pose proof (find_index_None _ _ Hf i c Hc) as Hne.
  simpl in Hne. by rewrite bool_decide_eq_true_2, Hty, N.eqb_refl in Hne.
Qed.

Lemma cog_ir_const_zero_preserves m t : preserves m (snd (cog_ir_const_zero m t)).
Proof.
  unfold cog_ir_const_zero. open_guards.
  by apply intern_scalar_constant_preserves; [apply has_type_exists|].
Qed.

Lemma cog_ir_const_bool_preserves m t v : preserves m (snd (cog_ir_const_bool m t v)).
Proof.
  unfold cog_ir_const_bool. open_guards.
  by apply intern_scalar_constant_preserves; [eapply type_has_kind_exists|].
Qed.

Lemma cog_ir_const_integer_preserves m t v : preserves m (snd (cog_ir_const_integer m t v)).
Proof.
  unfold cog_ir_const_integer. open_guards. apply intern_scalar_constant_preserves; [|done].
  rewrite andb_false_iff, !negb_false_iff in *.
  destruct H0 as [Hk|Hk]; by eapply type_has_kind_exists.
Qed.

Lemma is_float_of_width_exists m id w :
  is_float_of_width m id w = true -> type_exists (types m) id.
Proof.
  unfold is_float_of_width, type_exists, cog_ir_get_type.
  destruct (table_get _ _); [eauto | done].
Qed.

Lemma cog_ir_const_float32_preserves m t v : preserves m (snd (cog_ir_const_float32 m t v)).
Proof.
  unfold cog_ir_const_float32. open_guards.
  by apply intern_scalar_constant_preserves; [eapply is_float_of_width_exists|].
Qed.

Lemma cog_ir_const_float64_preserves m t v : preserves m (snd (cog_ir_const_float64 m t v)).
Proof.
  unfold cog_ir_const_float64. open_guards.
  by apply intern_scalar_constant_preserves; [eapply is_float_of_width_exists|].
Qed.

Lemma cog_ir_const_null_preserves m t : preserves m (snd (cog_ir_const_null m t)).
Proof.
  unfold cog_ir_const_null. open_guards. apply intern_scalar_constant_preserves; [|done].
  rewrite !andb_false_iff, !negb_false_iff in *.
  destruct H0 as [[Hk|Hk]|Hk]; by eapply type_has_kind_exists.
Qed.

Lemma add_aggregate_constant_preserves m make t es :
  (forall xs, aggregate_elements (make xs) = Some xs) ->
  preserves m (snd (add_aggregate_constant m make t es)).
Proof.
  intros Hmake. unfold add_aggregate_constant. open_guards.
  apply append_constant_preserves.
  - by apply has_type_exists.
  - intros xs Hxs. rewrite Hmake in Hxs. injection Hxs as <-.
    rewrite <- Is_true_true, forallb_True in H0. eapply Forall_impl; [exact H0|].
    intros e He. apply Is_true_true in He. unfold has_constant in He.
    rewrite bool_decide_eq_true in He. destruct He as [c Hc]. by eapply table_get_lt.
  - by rewrite Hmake.
Qed.

Lemma cog_ir_const_array_preserves m t es : preserves m (snd (cog_ir_const_array m t es)).
Proof. unfold cog_ir_const_array. open_guards. by apply add_aggregate_constant_preserves. Qed.

Lemma cog_ir_const_struct_preserves m t es : preserves m (snd (cog_ir_const_struct m t es)).
Proof. unfold cog_ir_const_struct. open_guards. by apply add_aggregate_constant_preserves. Qed.

Lemma cog_ir_add_global_preserves m name span t abi l cg ro init :
  preserves m (snd (cog_ir_add_global m name span t abi l cg ro init)).
Proof.
  unfold cog_ir_add_global. open_guards. simpl. intros [Ht Ha Hc Hgl Hf].
  split; [|split; simpl; auto using prefix_push with coglet; eauto with coglet].
  split; simpl; [done..| |done]. destruct Hgl as (Hok & Hn & Hr).
  split_and!; [by auto with coglet | |]; rewrite items_push.
  - by apply numbered_snoc.
  - apply Forall_app; split; [done|]. apply Forall_singleton. simpl. split.
    + by apply has_type_exists.
    + match goal with H : has_constant _ _ = true |- _ =>
        unfold has_constant in H; rewrite bool_decide_eq_true in H; destruct H as [c Hinit] end.
      by eapply table_get_lt.
Qed.

(** *** Functions *)

Lemma preserves_put_function m fid f f' :
  cog_ir_get_function m fid = Some f ->
  (fn_ok (types m) f -> fn_ok (types m) f' /\ fn_grows f f') ->
  preserves m (put_function m fid f').
Proof.
  intros Hf Hup [Ht Ha Hc Hg (Hok & Hn & Hfs)]. apply table_get_items in Hf.
  assert (H : fn_ok (types m) f) by (rewrite Forall_forall in Hfs; by eapply Hfs, list_elem_of_lookup_2).
  destruct (Hup H) as [Hok' Hgr]. split.
  - split; simpl; [done..|]. split_and!; [by auto with coglet | |]; simpl.
    + eapply numbered_insert; [done..|]. apply Hgr.
    + by apply Forall_insert.
  - split; simpl; auto with coglet. intros i g.
    eapply insert_old; [exact Hf | done | auto with coglet].
Qed.

Lemma records_grows f f' id kind block ord type :
  fn_grows f f' -> records f id kind block ord type -> records f' id kind block ord type.
Proof.
  intros Hg (v & Hv & Hk & Hb & Ho & Ht). destruct (fg_values f f' Hg _ v Hv) as (v' & Hv' & S).
  unfold same_value in S. exists v'. naive_solver congruence.
Qed.

Lemma site_ok_grows f f' id v v' :
  fn_grows f f' -> same_value v v' -> site_ok f id v -> site_ok f' id v'.
Proof.
  intros Hg (Hi & Ht & Hk & Hb & Ho). unfold site_ok. rewrite Hk, Hb, Ho, Ht.
  destruct (value_kind v).
  - by rewrite (fg_parameters f f' Hg).
  - intros (b & p & Hbl & Hp & Hv & Hty). destruct (fg_blocks f f' Hg _ b Hbl) as (b' & Hb' & Gb).
    exists b', p. split_and!; [done | by apply Gb | done..].
  - intros (b & x & Hbl & Hx & Hv & Hty). destruct (fg_blocks f f' Hg _ b Hbl) as (b' & Hb' & Gb).
    destruct (bg_instructions b b' Gb _ x Hx) as (x' & Hx' & _ & Hr & Hrt & _).
    exists b', x'. split_and!; [done | done | congruence..].
Qed.

Lemma instruction_ok_grows f f' bi i x x' :
  fn_grows f f' -> same_instruction x x' -> instruction_ok f bi i x -> instruction_ok f' bi i x'.
Proof.
  intros Hg (_ & Hr & Ht & _). unfold instruction_ok. rewrite Hr, Ht.
  destruct (_ =? _)%N; [done|]. by apply records_grows.
Qed.

Lemma block_ok_grows f f' bi b : fn_grows f f' -> block_ok f bi b -> block_ok f' bi b.
Proof.
  intros Hg (Hid & Hps & His). split_and!; [done | |].
  - intros i p Hp. eapply records_grows; eauto.
  - intros i x Hx. eapply instruction_ok_grows; eauto with coglet.
Qed.

(** A value appended for a definition. *)
Definition new_value (ts : table CogIrType) (f f' : CogIrFunction) (v : CogIrValue) : Prop :=
  (COG_IR_ID_INVALID <=? count (values f))%N = false /\ value_id v = count (values f)
  /\ type_exists ts (value_type v) /\ site_ok f' (count (values f)) v.

(** Rewriting one block, with at most one new value. *)
Lemma fn_update_block ts f bid b b' vs :
  let f' := with_blocks (with_values f vs) (put (blocks f) bid b') (entry_block f) in
  cog_ir_get_block f bid = Some b -> block_grows b b' ->
  (vs = values f \/ exists v, vs = push (values f) v /\ new_value ts f f' v) ->
  (fn_grows f f' -> block_ok f (N.to_nat bid) b -> block_ok f' (N.to_nat bid) b') ->
  fn_ok ts f -> fn_ok ts f' /\ fn_grows f f'.
Proof.
  intros f' Hb Hgb Hvs Hbok [Hsig (Htv & Htsl & Htb) Hn Hv Hs Hbl Hent Hd].
  apply table_get_items in Hb.
  assert (Hg : fn_grows f f').
  { split; simpl; try done.
    - intros i v Hi. exists v. split; [|by auto with coglet].
      destruct Hvs as [-> |(w & -> & _)]; [done|]. rewrite items_push. by apply lookup_app_l_Some.
    - intros i c.
      eapply insert_old; [exact Hb | done | auto with coglet]. }
  split; [|done]. split; simpl; try done.
  - destruct Hsig as (t & ft & Ht & Has & Hps). exists t, ft. split_and!; [done..|].
    intros i id Hi. destruct (Hps i id Hi) as (ty & Hty & Hr). exists ty. split; [done|].
    by eapply records_grows.
  - split_and!; [|done|by auto with coglet].
    destruct Hvs as [-> |(w & -> & Hlt & _)]; auto with coglet.
  - destruct Hvs as [-> |(w & -> & _ & Hid & _)]; [done|]. rewrite items_push.
    by apply numbered_snoc.
  - intros id v Hid. destruct Hvs as [-> |(w & -> & _ & Hw & Hty & Hsite)].
    + destruct (Hv id v Hid). split; [done|]. by eapply site_ok_grows; [| by auto with coglet|].
    + rewrite items_push in Hid. apply lookup_snoc_Some in Hid.
      destruct Hid as [[_ Hid]|[-> <-]]; [|done].
      destruct (Hv id v Hid). split; [done|]. by eapply site_ok_grows; [| by auto with coglet|].
  - intros bi c Hi. apply list_lookup_insert_Some in Hi.
    destruct Hi as [(<- & <- & _)|[_ Hi]]; [by apply Hbok, Hbl|].
    eapply block_ok_grows; [done | by apply Hbl].
  - rewrite Hent. destruct (items (blocks f)) eqn:He; [done|].
    rewrite !decide_False; [done | | done].
    intros Hnil. apply (f_equal length) in Hnil. by rewrite length_insert in Hnil.
  - intros Hk. destruct (Hd Hk) as [He _]. by rewrite He in Hb.
Qed.

(** Rewriting only [values], [slots] or [kind]. *)
Lemma append_value_spec m f ty kind block ord span :
  append_value m f ty kind block ord span
  = if negb (has_type m ty) || (COG_IR_ID_INVALID <=? count (values f))%N
    then (COG_IR_ID_INVALID, f)
    else (count (values f), with_values f (push (values f)
            (mkValue (count (values f)) ty COG_IR_ID_INVALID kind block ord span))).
Proof. done. Qed.

Lemma cog_ir_begin_function_definition_preserves m fid :
  preserves m (snd (cog_ir_begin_function_definition m fid)).
Proof.
  unfold cog_ir_begin_function_definition. open_guards. simpl.
  eapply preserves_put_function; [done|]. intros [Hsig Htab Hn Hv Hs Hbl Hent Hd].
  split; [|split; simpl; eauto with coglet]. split; done.
Qed.

Lemma fn_ok_with_slots ts f ss :
  fn_ok ts f -> table_ok ss -> numbered slot_id (items ss) -> Forall (slot_ok ts) (items ss) ->
  (function_kind f = COG_IR_FUNCTION_DECLARATION -> items ss = []) ->
  fn_ok ts (with_slots f ss) /\ fn_grows f (with_slots f ss).
Proof.
  intros [Hsig (? & ? & ?) Hn Hv Hs Hbl Hent Hd] Hok Hnum Hall Hdecl.
  split; [|split; simpl; eauto with coglet]. split; simpl; try done.
  intros Hk. split; [by apply Hd | by apply Hdecl].
Qed.

Lemma cog_ir_add_slot_preserves m fid k i name span t :
  preserves m (snd (cog_ir_add_slot m fid k i name span t)).
Proof.
  unfold cog_ir_add_slot. open_guards. simpl.
  eapply preserves_put_function; [done|]. intros Hfn.
  pose proof (fn_tables _ _ Hfn) as (_ & Hss & _). pose proof (fn_slots _ _ Hfn) as [Hsn Hsa].
  apply fn_ok_with_slots; rewrite ?items_push; auto with coglet.
  - by apply numbered_snoc.
  - apply Forall_app; split; [done|]. apply Forall_singleton. split; simpl.
    + by apply has_type_exists.
    + match goal with H : Bool.eqb _ _ = true |- _ => apply Bool.eqb_prop in H; rename H into He end.
      rewrite <- (bool_decide_eq_true (k = COG_IR_SLOT_SOURCE_PARAMETER)), He, negb_true_iff, N.eqb_neq. done.
  - rewrite bool_decide_eq_true in *. congruence.
Qed.

Lemma slot_put_ok ts f sid s s' :
  fn_ok ts f -> cog_ir_get_slot f sid = Some s -> slot_id s' = slot_id s ->
  slot_type s' = slot_type s -> slot_kind s' = slot_kind s ->
  parameter_index s' = parameter_index s ->
  fn_ok ts (with_slots f (put (slots f) sid s')) /\ fn_grows f (with_slots f (put (slots f) sid s')).
Proof.
  intros Hfn Hs%table_get_items Hid Hty Hk Hp.
  pose proof (fn_tables _ _ Hfn) as (_ & Hss & _). pose proof (fn_slots _ _ Hfn) as [Hsn Hsa].
  apply fn_ok_with_slots; simpl; auto with coglet.
  - by eapply numbered_insert.
  - apply Forall_insert; [done|]. rewrite Forall_forall in Hsa.
    pose proof (Hsa s (list_elem_of_lookup_2 _ _ _ Hs)) as H. unfold slot_ok in *.
    by rewrite Hty, Hk, Hp.
  - intros Hd. destruct (fn_declaration _ _ Hfn Hd) as [_ He]. by rewrite He in Hs.
Qed.

Lemma cog_ir_set_slot_abi_type_preserves m fid sid abi :
  preserves m (snd (cog_ir_set_slot_abi_type m fid sid abi)).
Proof.
  unfold cog_ir_set_slot_abi_type. open_guards. simpl.
  eapply preserves_put_function; [done|]. intros Hfn. by eapply slot_put_ok.
Qed.

Lemma value_put_ok ts f vid v abi :
  fn_ok ts f -> items (values f) !! N.to_nat vid = Some v ->
  fn_ok ts (with_values f (put (values f) vid (with_value_abi v abi)))
  /\ fn_grows f (with_values f (put (values f) vid (with_value_abi v abi))).
Proof.
  intros Hfn Hv. set (f' := with_values _ _).
  assert (Hg : fn_grows f f').
  { split; simpl; eauto with coglet. intros i w.
    eapply insert_old; [exact Hv | by split_and! | auto with coglet]. }
  destruct Hfn as [Hsig (? & ? & ?) Hn Hval Hs Hbl Hent Hd].
  split; [|done]. split; simpl; try done.
  - destruct Hsig as (t & ft & Ht & Has & Hps). exists t, ft. split_and!; [done..|].
    intros i id Hi. destruct (Hps i id Hi) as (ty & Hty & Hr). exists ty. split; [done|].
    by eapply records_grows.
  - auto with coglet.
  - by eapply numbered_insert.
  - intros id w Hid. apply list_lookup_insert_Some in Hid.
    destruct Hid as [(<- & <- & _)|[_ Hid]].
    + destruct (Hval _ v Hv). split; [done|]. by eapply site_ok_grows.
    + destruct (Hval id w Hid). split; [done|]. eapply site_ok_grows; eauto with coglet.
  - intros bi b Hb. eapply block_ok_grows; eauto.
Qed.

Lemma cog_ir_set_value_abi_type_preserves m fid vid abi :
  preserves m (snd (cog_ir_set_value_abi_type m fid vid abi)).
Proof.
  unfold cog_ir_set_value_abi_type. open_guards. simpl.
  eapply preserves_put_function; [done|]. intros Hfn.
  eapply value_put_ok; [done | by apply table_get_items].
Qed.

(** *** Blocks *)

Lemma preserves_put_block m fid f bid b b' vs :
  let f' := with_blocks (with_values f vs) (put (blocks f) bid b') (entry_block f) in
  cog_ir_get_function m fid = Some f -> cog_ir_get_block f bid = Some b ->
  block_grows b b' ->
  (vs = values f \/ exists v, vs = push (values f) v /\ new_value (types m) f f' v) ->
  (fn_grows f f' -> block_ok f (N.to_nat bid) b -> block_ok f' (N.to_nat bid) b') ->
  preserves m (put_function m fid f').
Proof.
  intros f' Hf Hb Hg Hvs Hbok. eapply preserves_put_function; [done|].
  intros Hfn. by eapply fn_update_block.
Qed.

(** A block whose parameters and instructions only grew arrays or changed flags. *)
Lemma block_ok_same f f' bi b b' :
  fn_grows f f' -> block_grows b b' ->
  items (block_parameters b') = items (block_parameters b) ->
  length (items (instructions b')) = length (items (instructions b)) ->
  block_ok f bi b -> block_ok f' bi b'.
Proof.
  intros Hg Hgb Hps Hlen (Hid & Hpok & Hiok). split_and!.
  - by rewrite (bg_id b b' Hgb).
  - intros i p Hp. rewrite Hps in Hp. eapply records_grows; eauto.
  - intros i x' Hx'. assert (Hi : (i < length (items (instructions b)))%nat).
    { rewrite <- Hlen. by eapply lookup_lt_Some. }
    apply lookup_lt_is_Some_2 in Hi. destruct Hi as [x Hx].
    destruct (bg_instructions b b' Hgb i x Hx) as (y & Hy & Hs). simplify_eq.
    eapply instruction_ok_grows; eauto.
Qed.

Lemma block_grows_grow_parameters b :
  block_grows b (with_block_parameters b (grow_array (block_parameters b))).
Proof. split; simpl; rewrite ?items_grow; eauto with coglet. Qed.

Lemma block_grows_grow_instructions b :
  block_grows b (with_instructions b (grow_array (instructions b))).
Proof. split; simpl; rewrite ?items_grow; eauto with coglet. Qed.

Lemma block_grows_push_parameter b p :
  block_grows b (with_block_parameters b (push (block_parameters b) p)).
Proof.
  split; simpl; eauto with coglet. intros i q Hq. rewrite items_push. by apply lookup_app_l_Some.
Qed.

Lemma block_grows_push_instruction b x :
  is_terminated b = false -> block_grows b (with_instructions b (push (instructions b) x)).
Proof.
  intros Ht. split; simpl; [done | done | | congruence]. intros i y Hy. exists y.
  split; [|by auto with coglet]. rewrite items_push. by apply lookup_app_l_Some.
Qed.

Lemma block_grows_terminator b t :
  is_terminated b = false -> block_grows b (with_terminator b t).
Proof. intros Ht. split; simpl; eauto with coglet. congruence. Qed.

Lemma block_grows_discard b o x :
  items (instructions b) !! N.to_nat o = Some x ->
  block_grows b (with_instructions b (put (instructions b) o (discard_result x))).
Proof.
  intros Hx. split; simpl; [done | done | |].
  - intros i y. eapply insert_old; [exact Hx | by split_and! | auto with coglet].
  - intros _. by rewrite length_insert.
Qed.

Lemma cog_ir_mark_value_discarded_preserves m fid vid :
  preserves m (snd (cog_ir_mark_value_discarded m fid vid)).
Proof.
  unfold cog_ir_mark_value_discarded. open_guards. simpl.
  match goal with Hx : items (instructions _) !! _ = Some _ |- _ =>
    pose proof (block_grows_discard _ _ _ Hx) as Hg' end.
  eapply (preserves_put_block _ _ _ _ _ _ (values c)); [done | done | exact Hg' | by left |].
  intros Hf. eapply block_ok_same; [done | exact Hg' | done |]. simpl. by rewrite length_insert.
Qed.

Lemma cog_ir_add_block_preserves m fid name span :
  preserves m (snd (cog_ir_add_block m fid name span)).
Proof.
  unfold cog_ir_add_block. open_guards. simpl.
  eapply preserves_put_function; [done|].
  intros [Hsig (Hv & Hss & Hbs) Hn Hval Hs Hbl Hent Hd]. rename c into f.
  set (b := mkBlock _ _ _ _ _ _). set (f' := with_blocks _ _ _).
  assert (Hgf : fn_grows f f').
  { split; simpl; eauto with coglet. intros i c Hi. exists c. split; [|by auto with coglet].
    rewrite items_push. by apply lookup_app_l_Some. }
  split; [|done]. split; simpl; try done.
  - auto with coglet.
  - intros id v Hid. destruct (Hval id v Hid). split; [done|]. eapply site_ok_grows; eauto with coglet.
  - intros bi c Hc. rewrite items_push in Hc. apply lookup_snoc_Some in Hc.
    destruct Hc as [[_ Hc]|[-> <-]]; [eapply block_ok_grows; eauto|].
    split_and!; [done | by intros i p Hp | by intros i x Hx].
  - rewrite items_push, Hent. destruct (items (blocks f)) eqn:Hnil; [|done].
    unfold count. by rewrite Hnil.
  - rewrite bool_decide_eq_true in *. congruence.
Qed.

Lemma cog_ir_add_block_parameter_preserves m fid bid ty name span :
  preserves m (snd (cog_ir_add_block_parameter m fid bid ty name span)).
Proof.
  unfold cog_ir_add_block_parameter. open_guards. rename c into f, c0 into b.
  rewrite append_value_spec. destruct (negb _ || _) eqn:Hav; simpl.
  - pose proof (block_grows_grow_parameters b) as Hgb.
    eapply (preserves_put_block _ _ _ _ _ _ (values f)); [done | done | exact Hgb | by left |].
    intros Hf. by eapply block_ok_same; [done | exact Hgb | simpl; by rewrite items_grow |].
  - to_props. destruct (N.eqb_spec (count (values f)) COG_IR_ID_INVALID) as [He|_];
      [rewrite He in *; by rewrite N.leb_refl in *|]. simpl.
    set (p := mkBlockParam _ _ _ _). pose proof (block_grows_push_parameter b p) as Hgb.
    pose proof (table_get_items _ _ _ Ho0) as Hb.
    eapply (preserves_put_block m fid f bid b _ (push (values f) _)); [done | done | exact Hgb | |].
    + right. eexists. split; [done|]. split_and!; [done | done | by apply has_type_exists |].
      simpl. eexists _, p. simpl. rewrite list_lookup_insert_eq by (by eapply lookup_lt_Some).
      split_and!; [done | | done | done]. simpl. rewrite items_push. unfold count.
      rewrite Nat2N.id. by apply list_lookup_middle.
    + intros Hf (Hid & Hps & His). split_and!; [done | |].
      * intros i q Hq. simpl in Hq. rewrite items_push in Hq. apply lookup_snoc_Some in Hq.
        destruct Hq as [[_ Hq]|[-> <-]]; [eapply records_grows; eauto|].
        eexists. simpl. rewrite items_push. unfold count. rewrite Nat2N.id.
        split; [by apply list_lookup_middle|]. simpl. by rewrite N2Nat.id.
      * intros i x Hx. eapply instruction_ok_grows; eauto with coglet.
Qed.

Lemma cog_ir_emit_preserves m fid bid input : preserves m (snd (cog_ir_emit m fid bid input)).
Proof.
  unfold cog_ir_emit. destruct input as [x|]; [|by auto with coglet].
  open_guards. rename c into f, c0 into b.
  pose proof (table_get_items _ _ _ Ho0) as Hb.
  destruct (N.eqb_spec (insn_result_type x) COG_IR_ID_INVALID) as [Hvoid|Hvoid]; simpl.
  - set (y := mkInstruction _ _ _ _ _ _).
    pose proof (block_grows_push_instruction b y ltac:(assumption)) as Hg'.
    eapply (preserves_put_block _ _ _ _ _ _ (values f)); [done | done | exact Hg' | by left |].
    intros Hf (Hid & Hps & His). split_and!; [done | |].
    + intros i q Hq. eapply records_grows; eauto.
    + intros i z Hz. simpl in Hz. rewrite items_push in Hz. apply lookup_snoc_Some in Hz.
      destruct Hz as [[_ Hz]|[-> <-]]; [eapply instruction_ok_grows; eauto with coglet|].
      unfold instruction_ok. simpl. by rewrite Hvoid.
  - rewrite append_value_spec. destruct (negb _ || _) eqn:Hav; simpl.
    + pose proof (block_grows_grow_instructions b) as Hg'.
      eapply (preserves_put_block _ _ _ _ _ _ (values f)); [done | done | exact Hg' | by left |].
      intros Hf. by eapply block_ok_same; [done | exact Hg' | done | simpl; by rewrite items_grow].
    + to_props. destruct (N.eqb_spec (count (values f)) COG_IR_ID_INVALID) as [He|_];
        [rewrite He in *; by rewrite N.leb_refl in *|]. simpl.
      set (y := mkInstruction _ _ _ _ _ _).
      pose proof (block_grows_push_instruction b y ltac:(assumption)) as Hg'.
      eapply (preserves_put_block m fid f bid b _ (push (values f) _));
        [done | done | exact Hg' | |].
      * right. eexists. split; [done|]. split_and!; [done | done | by apply has_type_exists |].
        simpl. eexists _, y. simpl. rewrite list_lookup_insert_eq by (by eapply lookup_lt_Some).
        split_and!; [done | | done | done]. simpl. rewrite items_push. unfold count.
        rewrite Nat2N.id. by apply list_lookup_middle.
      * intros Hf (Hid & Hps & His). split_and!; [done | |].
        -- intros i q Hq. eapply records_grows; eauto.
        -- intros i z Hz. simpl in Hz. rewrite items_push in Hz. apply lookup_snoc_Some in Hz.
           destruct Hz as [[_ Hz]|[-> <-]]; [eapply instruction_ok_grows; eauto with coglet|].
           unfold instruction_ok. simpl. rewrite (proj2 (N.eqb_neq _ _)) by done.
           eexists. simpl. rewrite items_push. unfold count. rewrite Nat2N.id.
           split; [by apply list_lookup_middle|]. simpl. by rewrite N2Nat.id.
Qed.

Lemma cog_ir_set_terminator_preserves m fid bid input :
  preserves m (snd (cog_ir_set_terminator m fid bid input)).
Proof.
  unfold cog_ir_set_terminator. destruct input as [t|]; [|by auto with coglet].
  open_guards. rename c into f, c0 into b. simpl.
  pose proof (block_grows_terminator b t ltac:(assumption)) as Hg'.
  eapply (preserves_put_block _ _ _ _ _ _ (values f)); [done | done | exact Hg' | by left |].
  intros Hf. by eapply block_ok_same; [done | exact Hg' | done | done].
Qed.

(** *** Adding a function *)

(** One parameter: the value and its place in the parameter list, while the function
    has no block. *)
Lemma fn_add_parameter ts f t ft ty span :
  let id := count (values f) in
  let f' := with_parameters
              (with_values f (push (values f)
                 (mkValue id ty COG_IR_ID_INVALID COG_IR_VALUE_FUNCTION_PARAMETER
                    COG_IR_ID_INVALID (N.of_nat (length (function_parameters f))) span)))
              (function_parameters f ++ [id]) in
  fn_ok ts f -> items (blocks f) = [] -> (COG_IR_ID_INVALID <=? id)%N = false ->
  table_get ts (function_type f) = Some t -> type_as t = AsFunction ft ->
  parameter_types ft !! length (function_parameters f) = Some ty -> type_exists ts ty ->
  fn_ok ts f'.
Proof.
  intros id f' [Hsig (Htv & Htsl & Htb) Hn Hv Hs Hbl Hent Hd] Hnil Hlt Ht Has Hty Hex.
  assert (Hnew : items (values f) !! N.to_nat id = None).
  { apply lookup_ge_None. unfold id, count. lia. }
  split; simpl; try done.
  - exists t, ft. split_and!; [done..|]. intros i id' Hi.
    apply lookup_snoc_Some in Hi. destruct Hi as [[_ Hi]|[-> <-]].
    + destruct Hsig as (t' & ft' & Ht' & Has' & Hps). simplify_eq.
      rewrite Has in Has'. injection Has' as <-.
      destruct (Hps i id' Hi) as (ty' & Hty' & v & Hv' & Hr). exists ty'. split; [done|].
      exists v. simpl. rewrite items_push. split; [by apply lookup_app_l_Some | done].
    + exists ty. split; [done|]. eexists. simpl. rewrite items_push. unfold id, count.
      rewrite Nat2N.id. split; [by apply list_lookup_middle|]. done.
  - auto with coglet.
  - rewrite items_push. by apply numbered_snoc.
  - intros i v Hi. rewrite items_push in Hi. apply lookup_snoc_Some in Hi.
    destruct Hi as [[_ Hi]|[-> <-]].
    + destruct (Hv i v Hi) as [Hvt Hsite]. split; [done|]. unfold site_ok in *. simpl.
      rewrite Hnil in *. destruct (value_kind v); [by apply lookup_app_l_Some | done..].
    + split; [done|]. unfold site_ok. simpl. rewrite Nat2N.id. by apply list_lookup_middle.
  - intros bi b Hb. by rewrite Hnil in Hb.
Qed.

Lemma parameter_abi_ok ts m abis i value f :
  fn_ok ts f ->
  fn_ok ts (parameter_abi m abis i value f)
  /\ function_parameters (parameter_abi m abis i value f) = function_parameters f
  /\ function_type (parameter_abi m abis i value f) = function_type f
  /\ function_id (parameter_abi m abis i value f) = function_id f
  /\ blocks (parameter_abi m abis i value f) = blocks f.
Proof.
  intros Hf. unfold parameter_abi. destruct (abis !! i); [|done].
  destruct (cog_ir_get_abi_type _ _); [|done].
  destruct (items (values f) !! N.to_nat value) eqn:Hv; [|done].
  destruct (decide _); [|done]. split_and!; [|done..]. by eapply value_put_ok.
Qed.

Lemma add_parameters_ok m abis span t ft tys :
  type_as t = AsFunction ft -> forall i f ok f',
  fn_ok (types m) f -> items (blocks f) = [] ->
  table_get (types m) (function_type f) = Some t ->
  length (function_parameters f) = i -> drop i (parameter_types ft) = tys ->
  add_parameters m abis span tys i f = (ok, f') ->
  fn_ok (types m) f' /\ function_id f' = function_id f
  /\ (ok = true -> length (function_parameters f') = (i + length tys)%nat).
Proof.
  intros Has. induction tys as [|ty tys IH]; intros i f ok f' Hf Hnil Ht Hlen Hdrop; simpl.
  { intros [= <- <-]. split_and!; [done..|]. intros _. simpl. lia. }
  rewrite append_value_spec. destruct (negb _ || _) eqn:Hg; simpl.
  { intros [= <- <-]. done. }
  to_props. destruct (N.eqb_spec (count (values f)) COG_IR_ID_INVALID) as [He|_];
    [rewrite He in *; by rewrite N.leb_refl in *|].
  assert (Hty : parameter_types ft !! i = Some ty).
  { rewrite <- (Nat.add_0_r i), <- lookup_drop, Hdrop. done. }
  set (v := mkValue _ _ _ _ _ _ _). set (g := with_parameters _ _).
  assert (Hg : fn_ok (types m) g).
  { unfold g, v. rewrite <- Hlen. eapply fn_add_parameter; [done..| |by apply has_type_exists].
    by rewrite Hlen. }
  destruct (parameter_abi_ok (types m) m abis i (count (values f)) g Hg)
    as (Hp & Hpps & Hpt & Hpid & Hpb).
  intros Hadd. apply IH in Hadd; [|done | by rewrite Hpb | by rewrite Hpt | |].
  - destruct Hadd as (Hok & Hid & Hl). split_and!; [done | by rewrite Hid, Hpid |].
    intros Ho. rewrite (Hl Ho). simpl. lia.
  - rewrite Hpps. simpl. rewrite length_app. simpl. lia.
  - rewrite <- (Nat.add_1_r i), <- drop_drop, Hdrop. done.
Qed.

Lemma cog_ir_add_function_preserves m name span t k l cg abi :
  preserves m (snd (cog_ir_add_function m name span t k l cg abi)).
Proof.
  unfold cog_ir_add_function.
  destruct (cog_ir_get_type m t) as [ty|] eqn:Ht; simpl; [|by auto with coglet].
  destruct (type_as ty) as [| | | | | | | | | |ft] eqn:Has; try (by auto with coglet).
  open_guards. set (f := mkFunction _ _ _ _ _ _ _ _ _ _ _ _ _).
  destruct (add_parameters _ _ _ _ _ _) as [ok f'] eqn:Hadd. simpl. intros [Hts Ha Hc Hgl Hfs].
  assert (Hf : fn_ok (types m) f).
  { split; simpl; try done. by exists ty, ft. }
  eapply (add_parameters_ok m _ _ ty ft) in Hadd; [|done..]. destruct Hadd as (Hok & Hid & _).
  destruct Hfs as (Hft & Hn & Hall). split.
  - split; simpl; [done..|]. split_and!; [by auto with coglet | |]; rewrite items_push.
    + by apply numbered_snoc; [|rewrite Hid].
    + apply Forall_app; split; [done | by apply Forall_singleton].
  - split; simpl; auto with coglet. intros i g Hi. exists g. split; [|by auto with coglet].
    rewrite items_push. by apply lookup_app_l_Some.
Qed.

(** *** The remaining calls *)

Lemma preserves_same_tables m m' :
  types m' = types m -> abi_types m' = abi_types m -> constants m' = constants m ->
  globals m' = globals m -> functions m' = functions m -> preserves m m'.
Proof.
  intros Ht Ha Hc Hg Hf [? ? ? ? ?]. split; split; rewrite ?Ht, ?Ha, ?Hc, ?Hg, ?Hf; eauto with coglet.
Qed.

Lemma cog_ir_set_entry_function_preserves m id :
  preserves m (snd (cog_ir_set_entry_function m id)).
Proof. unfold cog_ir_set_entry_function. open_guards. by apply preserves_same_tables. Qed.

Lemma cog_ir_set_init_function_preserves m id :
  preserves m (snd (cog_ir_set_init_function m id)).
Proof. unfold cog_ir_set_init_function. open_guards. by apply preserves_same_tables. Qed.

Lemma cog_ir_module_freeze_preserves m : preserves m (cog_ir_module_freeze m).
Proof.
  unfold cog_ir_module_freeze. destruct (is_frozen m); [by auto with coglet|].
  by apply preserves_same_tables.
Qed.

Lemma cog_ir_module_add_source_preserves m name src r m' :
  cog_ir_module_add_source m name src = Returned (r, m') -> preserves m m'.
Proof.
  unfold cog_ir_module_add_source.
  destruct name as [name|], src as [src|]; try (intros [= <- <-]; by auto with coglet).
  destruct (negb _); [intros [= <- <-]; by auto with coglet|].
  destruct (source_manager_add _ _ _) as [[id sm]|]; [|done]. simpl.
  intros [= <- <-]. by apply preserves_same_tables.
Qed.

Lemma cog_ir_module_copy_sources_preserves m from r m' :
  cog_ir_module_copy_sources m from = Returned (r, m') -> preserves m m'.
Proof.
  unfold cog_ir_module_copy_sources. destruct from as [from|];
    [|intros [= <- <-]; by auto with coglet].
  destruct (negb _); [intros [= <- <-]; by auto with coglet|].
  destruct (negb _); [intros [= <- <-]; by auto with coglet|].
  generalize (files from). intros fs. revert m.
  induction fs as [|file fs IH]; intros m; cbn [copy_source_files]; [intros [= <- <-]; by auto with coglet|].
  destruct (cog_ir_module_add_source _ _ _) as [[o m1]|] eqn:Hadd; [|done].
  apply cog_ir_module_add_source_preserves in Hadd. cbn [obind fst snd].
  destruct o as [c|]; [destruct (_ =? _)|]; [|by intros [= <- <-]..].
  intros Hc%IH Hm. destruct (Hadd Hm) as [Hm1 Hg1]. destruct (Hc Hm1) as [Hm' Hg'].
  split; [done | by eapply grows_trans].
Qed.
