(* ===== verification/CogIrTheory.v ===== *)
(** What the builder guarantees to the passes that read a module: the invariant of
    every module it can build, the stability of what it returned, the interning of
    types and constants, single definition of values, and freezing. *)
From S2P Require Import Prelude Source Target CogIr CogIrBuilder CogIrInvariant.

(** ** Reachable modules *)

(** One call of the builder interface, whatever its arguments and its result. *)
Inductive builder_step (m : CogIrModule) : CogIrModule -> Prop :=
| step_add_source name src r m' :
    cog_ir_module_add_source m name src = Returned (r, m') -> builder_step m m'
| step_copy_sources from r m' :
    cog_ir_module_copy_sources m from = Returned (r, m') -> builder_step m m'
| step_type_void : builder_step m (snd (cog_ir_type_void m))
| step_type_bool : builder_step m (snd (cog_ir_type_bool m))
| step_type_integer bits s : builder_step m (snd (cog_ir_type_integer m bits s))
| step_type_float bits : builder_step m (snd (cog_ir_type_float m bits))
| step_type_pointer p r v : builder_step m (snd (cog_ir_type_pointer m p r v))
| step_type_opaque_pointer r v : builder_step m (snd (cog_ir_type_opaque_pointer m r v))
| step_type_array e n : builder_step m (snd (cog_ir_type_array m e n))
| step_type_function r ps a c v : builder_step m (snd (cog_ir_type_function m r ps a c v))
| step_declare k name span : builder_step m (snd (cog_ir_declare_nominal_type m k name span))
| step_mark_incomplete id : builder_step m (snd (cog_ir_mark_incomplete_aggregate_type m id))
| step_define_aggregate id fs r p al :
    builder_step m (snd (cog_ir_define_aggregate_type m id fs r p al))
| step_define_enum id b ms r abi : builder_step m (snd (cog_ir_define_enum_type m id b ms r abi))
| step_abi_semantic r : builder_step m (snd (cog_ir_abi_type_semantic m r))
| step_abi_c_scalar r s : builder_step m (snd (cog_ir_abi_type_c_scalar m r s))
| step_abi_pointer r e : builder_step m (snd (cog_ir_abi_type_pointer m r e))
| step_abi_opaque_pointer r : builder_step m (snd (cog_ir_abi_type_opaque_pointer m r))
| step_abi_array r e : builder_step m (snd (cog_ir_abi_type_array m r e))
| step_abi_function r ret ps : builder_step m (snd (cog_ir_abi_type_function m r ret ps))
| step_const_zero t : builder_step m (snd (cog_ir_const_zero m t))
| step_const_bool t v : builder_step m (snd (cog_ir_const_bool m t v))
| step_const_integer t v : builder_step m (snd (cog_ir_const_integer m t v))
| step_const_float32 t v : builder_step m (snd (cog_ir_const_float32 m t v))
| step_const_float64 t v : builder_step m (snd (cog_ir_const_float64 m t v))
| step_const_null t : builder_step m (snd (cog_ir_const_null m t))
| step_const_array t es : builder_step m (snd (cog_ir_const_array m t es))
| step_const_struct t es : builder_step m (snd (cog_ir_const_struct m t es))
| step_add_global name span t abi l cg ro init :
    builder_step m (snd (cog_ir_add_global m name span t abi l cg ro init))
| step_add_function name span t k l cg abi :
    builder_step m (snd (cog_ir_add_function m name span t k l cg abi))
| step_begin_definition id : builder_step m (snd (cog_ir_begin_function_definition m id))
| step_set_entry id : builder_step m (snd (cog_ir_set_entry_function m id))
| step_set_init id : builder_step m (snd (cog_ir_set_init_function m id))
| step_add_slot f k i name span t : builder_step m (snd (cog_ir_add_slot m f k i name span t))
| step_set_slot_abi f s a : builder_step m (snd (cog_ir_set_slot_abi_type m f s a))
| step_set_value_abi f v a : builder_step m (snd (cog_ir_set_value_abi_type m f v a))
| step_mark_discarded f v : builder_step m (snd (cog_ir_mark_value_discarded m f v))
| step_add_block f name span : builder_step m (snd (cog_ir_add_block m f name span))
| step_add_block_parameter f b t name span :
    builder_step m (snd (cog_ir_add_block_parameter m f b t name span))
| step_emit f b x : builder_step m (snd (cog_ir_emit m f b x))
| step_set_terminator f b t : builder_step m (snd (cog_ir_set_terminator m f b t))
| step_freeze : builder_step m (cog_ir_module_freeze m).

#[export] Hint Constructors builder_step : builder.

(** The modules the interface can build. *)
Definition built (m : CogIrModule) : Prop :=
  exists target, rtc builder_step (cog_ir_module_init target) m.

#[export] Hint Resolve
  cog_ir_type_void_preserves cog_ir_type_bool_preserves cog_ir_type_integer_preserves
  cog_ir_type_float_preserves cog_ir_type_pointer_preserves
  cog_ir_type_opaque_pointer_preserves cog_ir_type_array_preserves
  cog_ir_type_function_preserves cog_ir_declare_nominal_type_preserves
  cog_ir_mark_incomplete_aggregate_type_preserves cog_ir_define_aggregate_type_preserves
  cog_ir_define_enum_type_preserves cog_ir_abi_type_semantic_preserves
  cog_ir_abi_type_c_scalar_preserves cog_ir_abi_type_pointer_preserves
  cog_ir_abi_type_opaque_pointer_preserves cog_ir_abi_type_array_preserves
  cog_ir_abi_type_function_preserves cog_ir_const_zero_preserves
  cog_ir_const_bool_preserves cog_ir_const_integer_preserves
  cog_ir_const_float32_preserves cog_ir_const_float64_preserves
  cog_ir_const_null_preserves cog_ir_const_array_preserves cog_ir_const_struct_preserves
  cog_ir_add_global_preserves cog_ir_add_function_preserves
  cog_ir_begin_function_definition_preserves cog_ir_set_entry_function_preserves
  cog_ir_set_init_function_preserves cog_ir_add_slot_preserves
  cog_ir_set_slot_abi_type_preserves cog_ir_set_value_abi_type_preserves
  cog_ir_mark_value_discarded_preserves cog_ir_add_block_preserves
  cog_ir_add_block_parameter_preserves cog_ir_emit_preserves
  cog_ir_set_terminator_preserves cog_ir_module_freeze_preserves
  cog_ir_module_add_source_preserves cog_ir_module_copy_sources_preserves : preserves.

Lemma builder_step_preserves m m' : builder_step m m' -> preserves m m'.
Proof. destruct 1; eauto with preserves. Qed.

Lemma builder_steps_preserve m m' : rtc builder_step m m' -> preserves m m'.
Proof.
  induction 1 as [m|m1 m2 m3 Hs _ IH]; [by auto with coglet|].
  intros H1. destruct (builder_step_preserves _ _ Hs H1) as [H2 G2].
  destruct (IH H2) as [H3 G3]. split; [done | by eapply grows_trans].
Qed.

Lemma module_init_ok target : module_ok (cog_ir_module_init target).
Proof.
  split; simpl; split_and!; auto with coglet; intros; simplify_list_eq; try done; by constructor.
Qed.

Lemma built_ok m : built m -> module_ok m.
Proof. intros [target H]. by eapply builder_steps_preserve, module_init_ok. Qed.

#[export] Instance built_producer : ModuleProducer built := built_ok.

Lemma built_steps m m' : built m -> rtc builder_step m m' -> built m'.
Proof. intros [target H] Hs. exists target. by etrans. Qed.

#[export] Hint Resolve built_ok built_steps : coglet.

(** ** Freezing *)

Ltac unfold_builder :=
  unfold cog_ir_type_void, cog_ir_type_bool, cog_ir_type_integer, cog_ir_type_float,
    cog_ir_type_pointer, cog_ir_type_opaque_pointer, cog_ir_type_array, cog_ir_type_function,
    cog_ir_declare_nominal_type, cog_ir_mark_incomplete_aggregate_type,
    cog_ir_define_aggregate_type, cog_ir_define_enum_type, intern_type, append_type,
    cog_ir_abi_type_semantic, cog_ir_abi_type_c_scalar, cog_ir_abi_type_pointer,
    cog_ir_abi_type_opaque_pointer, cog_ir_abi_type_array, cog_ir_abi_type_function,
    intern_abi_type, append_abi_type,
    cog_ir_const_zero, cog_ir_const_bool, cog_ir_const_integer, cog_ir_const_float32,
    cog_ir_const_float64, cog_ir_const_null, cog_ir_const_array, cog_ir_const_struct,
    add_aggregate_constant, intern_scalar_constant, append_constant,
    cog_ir_add_global, cog_ir_add_function, cog_ir_begin_function_definition,
    cog_ir_set_entry_function, cog_ir_set_init_function, cog_ir_add_slot,
    cog_ir_set_slot_abi_type, cog_ir_set_value_abi_type, cog_ir_mark_value_discarded,
    cog_ir_add_block, cog_ir_add_block_parameter, cog_ir_emit, cog_ir_set_terminator,
    fail, module_mutable.

(** A value behind any number of tests. *)
Ltac under_tests :=
  repeat match goal with
  | |- context [match ?x with _ => _ end] => destruct x
  end; simpl; try done.

Lemma add_source_frozen m name src r m' :
  cog_ir_module_add_source m name src = Returned (r, m') ->
  is_frozen m' = is_frozen m /\ (is_frozen m = true -> m' = m).
Proof.
  unfold cog_ir_module_add_source, module_mutable.
  destruct name, src, (is_frozen m) eqn:Hf; simpl;
    try (by intros [= <- <-]); destruct (source_manager_add _ _ _) as [[? ?]|]; try done;
    by intros [= <- <-].
Qed.

Lemma copy_sources_frozen m from r m' :
  cog_ir_module_copy_sources m from = Returned (r, m') ->
  is_frozen m' = is_frozen m /\ (is_frozen m = true -> m' = m).
Proof.
  unfold cog_ir_module_copy_sources, module_mutable.
  destruct from as [from|]; [|by intros [= <- <-]].
  destruct (is_frozen m) eqn:Hf; simpl; [by intros [= <- <-]|].
  destruct (negb _); [by intros [= <- <-]|]. intros H. split; [|done]. revert m Hf H.
  induction (files from) as [|file fs IH]; intros m Hf; cbn [copy_source_files];
    [by intros [= <- <-]|].
  destruct (cog_ir_module_add_source _ _ _) as [[o m1]|] eqn:Hadd; [|done].
  apply add_source_frozen in Hadd. destruct Hadd as [Hadd _]. cbn [obind fst snd].
  destruct o as [c|]; [destruct (_ =? _)|]; [|intros [= <- <-]; congruence..].
  apply IH. congruence.
Qed.

(** Only freezing changes [is_frozen]; a frozen module never changes. *)
Lemma builder_step_frozen m m' :
  builder_step m m' ->
  (m' = cog_ir_module_freeze m \/ is_frozen m' = is_frozen m) /\ (is_frozen m = true -> m' = m).
Proof.
  destruct 1; try (by split; [left|]; unfold cog_ir_module_freeze; intros; simplify_eq).
  1: apply add_source_frozen in H; naive_solver.
  1: apply copy_sources_frozen in H; naive_solver.
  all: try (split; [right; by unfold_builder; under_tests|];
            intros Hf; by unfold_builder; rewrite Hf; simpl; under_tests).
  split; [by left|]. intros Hf. unfold cog_ir_module_freeze. by rewrite Hf.
Qed.

Lemma frozen_stays m m' : rtc builder_step m m' -> is_frozen m = true -> m' = m.
Proof.
  induction 1 as [m|m1 m2 m3 Hs _ IH]; [done|]. intros Hf.
  rewrite (proj2 (builder_step_frozen _ _ Hs) Hf) in IH. by apply IH.
Qed.

(** The cached requirements of a built module are those of its functions. *)
Lemma built_requirements m :
  built m -> is_frozen m = true -> runtime_requirements m = derive_runtime_requirements m.
Proof.
  intros [target H].
  remember (cog_ir_module_init target) as m0 eqn:H0. assert (Hm0 : is_frozen m0 = false) by by subst.
  clear H0. intros Hf. revert Hm0. induction H as [m|m1 m2 m3 Hs Hr IH]; [congruence|].
  intros Hm1. destruct (proj1 (builder_step_frozen _ _ Hs)) as [->|He].
  - apply frozen_stays in Hr; [|unfold cog_ir_module_freeze; by rewrite Hm1].
    subst. unfold cog_ir_module_freeze. rewrite Hm1. done.
  - apply IH; congruence.
Qed.

(** ** Interning *)

(** The builder call for a structural type. *)
Definition build_type (m : CogIrModule) (a : TypeAs) : CogIrTypeId * CogIrModule :=
  match a with
  | AsVoid => cog_ir_type_void m
  | AsBool => cog_ir_type_bool m
  | AsInteger bits s => cog_ir_type_integer m bits s
  | AsFloat bits => cog_ir_type_float m bits
  | AsPointer p r v => cog_ir_type_pointer m p r v
  | AsOpaquePointer r v => cog_ir_type_opaque_pointer m r v
  | AsArray e n => cog_ir_type_array m e n
  | AsFunction ft => cog_ir_type_function m (result_type ft) (Array (parameter_types ft))
                       (ft_abi ft) (calling_convention ft) (is_variadic ft)
  | AsStruct _ | AsUnion _ | AsEnum _ => fail m
  end.

(** What the call requires. *)
Definition type_request_ok (m : CogIrModule) (a : TypeAs) : bool :=
  match a with
  | AsVoid | AsBool | AsOpaquePointer _ _ => true
  | AsInteger bits _ => (bits =? 8)%N || (bits =? 16)%N || (bits =? 32)%N || (bits =? 64)%N
  | AsFloat bits => (bits =? 32)%N || (bits =? 64)%N
  | AsPointer p _ _ => has_type m p
  | AsArray e _ => has_type m e
  | AsFunction ft => has_type m (result_type ft) && forallb (has_type m) (parameter_types ft)
  | AsStruct _ | AsUnion _ | AsEnum _ => false
  end.

Lemma build_type_eq m a :
  build_type m a
  = if module_mutable m && type_request_ok m a then intern_type m a else fail m.
Proof.
  destruct a as [| |bits s|bits|p r v|r v|e n|g|g|e|ft]; simpl; unfold_builder;
    destruct (is_frozen m); simpl; try done.
  - by destruct (bits =? 8)%N, (bits =? 16)%N, (bits =? 32)%N, (bits =? 64)%N.
  - by destruct (bits =? 32)%N, (bits =? 64)%N.
  - by destruct (has_type m p).
  - by destruct (has_type m e).
  - destruct (has_type m (result_type ft)), (forallb _ _); simpl; try done.
    by destruct ft.
Qed.

Lemma intern_type_result m a id m' :
  types_ok (types m) -> intern_type m a = (id, m') -> id <> COG_IR_ID_INVALID ->
  exists t, cog_ir_get_type m' id = Some t /\ type_as t = a.
Proof.
  intros (Hok & _). unfold intern_type. destruct (find_index _ _) as [i|] eqn:Hf.
  - intros [= <- <-] _. apply find_index_Some in Hf. destruct Hf as (t & Ht & Ha).
    apply bool_decide_eq_true in Ha. exists t. split; [|done].
    unfold cog_ir_get_type. rewrite table_get_ok by done. by rewrite Nat2N.id.
  - unfold append_type. destruct (negb _ || _) eqn:Hg; [by intros [= <- <-]|]. to_props.
    intros [= <- <-] _. eexists. unfold cog_ir_get_type. simpl.
    rewrite table_get_ok, items_push by auto with coglet. unfold count. rewrite Nat2N.id.
    split; [by apply list_lookup_middle | done].
Qed.

Lemma intern_type_again m a id t :
  types_ok (types m) -> cog_ir_get_type m id = Some t -> type_as t = a -> structural a = true ->
  intern_type m a = (id, m).
Proof.
  intros (Hok & _ & _ & Huniq) Ht%table_get_items <- Hs. unfold intern_type.
  destruct (find_index _ _) as [i|] eqn:Hf.
  - apply find_index_Some in Hf. destruct Hf as (u & Hu & Ha). apply bool_decide_eq_true in Ha.
    assert (He : i = N.to_nat id) by (eapply Huniq; [done | done | done | by rewrite Ha]).
    f_equal. rewrite He. apply N2Nat.id.
  - pose proof (find_index_None _ _ Hf _ _ Ht) as Hne. by apply bool_decide_eq_false in Hne.
Qed.

Lemma type_request_grows m m' a :
  types_extend (types m) (types m') -> type_request_ok m a = true -> type_request_ok m' a = true.
Proof.
  intros He.
  assert (Hh : forall id, has_type m id = true -> has_type m' id = true).
  { intros id. rewrite !has_type_exists. by apply type_exists_extend. }
  destruct a; simpl; auto. rewrite !andb_true_iff, !forallb_forall. naive_solver.
Qed.

(** The builder call for a scalar constant. *)
Definition build_constant (m : CogIrModule) (type : CogIrTypeId) (a : ConstAs)
    : CogIrConstId * CogIrModule :=
  match a with
  | ConstZero => cog_ir_const_zero m type
  | ConstBool v => cog_ir_const_bool m type v
  | ConstInteger bits => cog_ir_const_integer m type bits
  | ConstFloat32 bits => cog_ir_const_float32 m type bits
  | ConstFloat64 bits => cog_ir_const_float64 m type bits
  | ConstNull => cog_ir_const_null m type
  | ConstArray _ | ConstStruct _ => fail m
  end.

(** The constants a type admits. *)
Definition constant_request_ok (m : CogIrModule) (type : CogIrTypeId) (a : ConstAs) : bool :=
  match a with
  | ConstZero => has_type m type
  | ConstBool _ => type_has_kind m type COG_IR_TYPE_BOOL
  | ConstInteger _ =>
      type_has_kind m type COG_IR_TYPE_INTEGER || type_has_kind m type COG_IR_TYPE_ENUM
  | ConstFloat32 _ => is_float_of_width m type 32
  | ConstFloat64 _ => is_float_of_width m type 64
  | ConstNull =>
      type_has_kind m type COG_IR_TYPE_POINTER || type_has_kind m type COG_IR_TYPE_OPAQUE_POINTER
      || type_has_kind m type COG_IR_TYPE_FUNCTION
  | ConstArray _ | ConstStruct _ => false
  end.

Lemma build_constant_eq m t a :
  build_constant m t a
  = if module_mutable m && constant_request_ok m t a then intern_scalar_constant m t a else fail m.
Proof.
  destruct a; simpl; unfold cog_ir_const_zero, cog_ir_const_bool, cog_ir_const_integer,
    cog_ir_const_float32, cog_ir_const_float64, cog_ir_const_null, module_mutable;
    destruct (is_frozen m); simpl; try done;
    repeat match goal with |- context [if ?b then _ else _] => lazymatch b with
      | context [type_has_kind m t ?k] => destruct (type_has_kind m t k)
      | context [is_float_of_width m t ?k] => destruct (is_float_of_width m t k)
      | context [has_type m t] => destruct (has_type m t) end; simpl; try done end.
Qed.

Lemma intern_constant_result m t a id m' :
  constants_ok (types m) (constants m) -> intern_scalar_constant m t a = (id, m') ->
  id <> COG_IR_ID_INVALID ->
  exists c, cog_ir_get_constant m' id = Some c /\ const_type c = t /\ const_as c = a.
Proof.
  intros (Hok & _). unfold intern_scalar_constant. destruct (find_index _ _) as [i|] eqn:Hf.
  - intros [= <- <-] _. apply find_index_Some in Hf. destruct Hf as (c & Hc & Ha).
    to_props. apply bool_decide_eq_true in H. apply N.eqb_eq in H0. exists c. split_and!; try done.
    unfold cog_ir_get_constant. rewrite table_get_ok by done. by rewrite Nat2N.id.
  - unfold append_constant. destruct (negb _ || _) eqn:Hg; [by intros [= <- <-]|]. to_props.
    intros [= <- <-] _. eexists. unfold cog_ir_get_constant. simpl.
    rewrite table_get_ok, items_push by auto with coglet. unfold count. rewrite Nat2N.id.
    split; [by apply list_lookup_middle | done].
Qed.

Lemma intern_constant_again m id c :
  constants_ok (types m) (constants m) -> cog_ir_get_constant m id = Some c ->
  aggregate_elements (const_as c) = None ->
  intern_scalar_constant m (const_type c) (const_as c) = (id, m).
Proof.
  intros (Hok & _ & _ & Huniq) Hc%table_get_items Hs. unfold intern_scalar_constant.
  destruct (find_index _ _) as [i|] eqn:Hf.
  - apply find_index_Some in Hf. destruct Hf as (d & Hd & Ha). to_props.
    apply bool_decide_eq_true in H. apply N.eqb_eq in H0.
    assert (He : i = N.to_nat id) by (eapply Huniq; [done | done | done.. | by rewrite H]).
    f_equal. rewrite He. apply N2Nat.id.
  - pose proof (find_index_None _ _ Hf _ _ Hc) as Hne. simpl in Hne.
    by rewrite bool_decide_eq_true_2, N.eqb_refl in Hne.
Qed.

Lemma type_kind_grows ts ts' id t :
  types_extend ts ts' -> table_get ts id = Some t ->
  exists t', table_get ts' id = Some t' /\ type_kind t' = type_kind t
    /\ (structural (type_as t) = true -> type_as t' = type_as t).
Proof. intros He. apply He. Qed.

Lemma constant_request_grows m m' t a :
  types_extend (types m) (types m') -> constant_request_ok m t a = true ->
  constant_request_ok m' t a = true.
Proof.
  intros He.
  assert (Hk : forall k, type_has_kind m t k = true -> type_has_kind m' t k = true).
  { intros k. unfold type_has_kind, cog_ir_get_type. destruct (table_get (types m) t) eqn:Ht; [|done].
    destruct (He _ _ Ht) as (t' & -> & -> & _). done. }
  assert (Hw : forall w, is_float_of_width m t w = true -> is_float_of_width m' t w = true).
  { intros w. unfold is_float_of_width, cog_ir_get_type.
    destruct (table_get (types m) t) as [u|] eqn:Ht; [|done]. simpl.
    destruct (type_as u) eqn:Hu; try done. destruct (He _ _ Ht) as (t' & -> & _ & Hs).
    simpl. rewrite Hs by by rewrite Hu. by rewrite Hu. }
  destruct a; simpl; rewrite ?orb_true_iff; auto; [|naive_solver..].
  rewrite !has_type_exists. by apply type_exists_extend.
Qed.

Lemma build_type_steps m a id m1 : build_type m a = (id, m1) -> rtc builder_step m m1.
Proof.
  intros H. replace m1 with (snd (build_type m a)) by by rewrite H.
  destruct a; simpl; try reflexivity; apply rtc_once; constructor.
Qed.

Lemma build_constant_steps m t a id m1 :
  build_constant m t a = (id, m1) -> rtc builder_step m m1.
Proof.
  intros H. replace m1 with (snd (build_constant m t a)) by by rewrite H.
  destruct a; simpl; try reflexivity; apply rtc_once; constructor.
Qed.

Lemma table_full {A} (t : table A) :
  table_ok t -> (COG_IR_ID_INVALID <=? count t)%N = true -> count t = COG_IR_ID_INVALID.
Proof. intros [_ Hc] H%N.leb_le. lia. Qed.

Lemma lookup_valid_id {A} (t : table A) i x :
  table_ok t -> items t !! i = Some x -> N.of_nat i <> COG_IR_ID_INVALID.
Proof. intros [_ Hc] H%lookup_lt_Some. unfold count in Hc. lia. Qed.

Lemma intern_type_invalid m a m1 :
  table_ok (types m) -> is_frozen m = false -> intern_type m a = (COG_IR_ID_INVALID, m1) ->
  m1 = m /\ count (types m) = COG_IR_ID_INVALID.
Proof.
  intros Hok Hf. unfold intern_type. destruct (find_index _ _) as [i|] eqn:Hi.
  - apply find_index_Some in Hi. destruct Hi as (t & Ht & _).
    intros [= Hid _]. by apply (lookup_valid_id _ _ _ Hok) in Ht.
  - unfold append_type, module_mutable. rewrite Hf. simpl.
    destruct (_ <=? _)%N eqn:Hc; [intros [= <-]; by split; [|apply table_full]|]. intros [= H _].
    rewrite H in Hc. by rewrite N.leb_refl in Hc.
Qed.

Lemma intern_constant_invalid m t a m1 :
  table_ok (constants m) -> is_frozen m = false ->
  intern_scalar_constant m t a = (COG_IR_ID_INVALID, m1) ->
  m1 = m /\ count (constants m) = COG_IR_ID_INVALID.
Proof.
  intros Hok Hf. unfold intern_scalar_constant. destruct (find_index _ _) as [i|] eqn:Hi.
  - apply find_index_Some in Hi. destruct Hi as (c & Hc & _).
    intros [= Hid _]. by apply (lookup_valid_id _ _ _ Hok) in Hc.
  - unfold append_constant, module_mutable. rewrite Hf. simpl.
    destruct (_ <=? _)%N eqn:Hc; [intros [= <-]; by split; [|apply table_full]|]. intros [= H _].
    rewrite H in Hc. by rewrite N.leb_refl in Hc.
Qed.

Lemma constants_prefix_get m m' id c :
  grows m m' -> constants_ok (types m') (constants m') ->
  cog_ir_get_constant m id = Some c -> cog_ir_get_constant m' id = Some c.
Proof.
  intros Hg (Hok & _) Hc%table_get_items. unfold cog_ir_get_constant.
  rewrite table_get_ok by done. by eapply prefix_lookup_Some, Hg.
Qed.

(** Two successive calls from a built module. *)
Lemma built_grows m m' : built m -> rtc builder_step m m' -> module_ok m' /\ grows m m'.
Proof. intros Hb Hs. by apply (builder_steps_preserve _ _ Hs), built_ok. Qed.

(** ** A module built by hand *)

Definition demo_target : TargetInfo := target_info_init_common 64.

(** [fn negate_or_zero(x: i32) -> i32], in three blocks. *)
Definition demo_i32 := cog_ir_type_integer (cog_ir_module_init demo_target) 32 true.
Definition demo_bool := cog_ir_type_bool (snd demo_i32).
Definition demo_fn := cog_ir_type_function (snd demo_bool) 0 (Array [0%N])
  COG_IR_ABI_COGLET COG_IR_CALL_DEFAULT false.
Definition demo_zero := cog_ir_const_integer (snd demo_fn) 0 0.
Definition demo_add := cog_ir_add_function (snd demo_zero) "f" source_span_invalid 2
  COG_IR_FUNCTION_DEFINITION COG_IR_LINKAGE_INTERNAL false None.
Definition demo_entry := cog_ir_add_block (snd demo_add) 0 "entry" source_span_invalid.
Definition demo_exit := cog_ir_add_block (snd demo_entry) 0 "exit" source_span_invalid.
Definition demo_param := cog_ir_add_block_parameter (snd demo_exit) 0 1 0 "r" source_span_invalid.
Definition demo_neg_insn : CogIrInstruction :=
  mkInstruction COG_IR_OP_INEG_CHECKED COG_IR_ID_INVALID 0 false source_span_invalid (AsUnary 0).
Definition demo_neg := cog_ir_emit (snd demo_param) 0 0 (Some demo_neg_insn).
Definition demo_br : CogIrTerminator :=
  mkTerminator source_span_invalid (TermBr (mkEdge 1 [2%N])).
Definition demo_jump := cog_ir_set_terminator (snd demo_neg) 0 0 (Some demo_br).
Definition demo_ret : CogIrTerminator := mkTerminator source_span_invalid (TermRet (Some 1%N)).
Definition demo_return := cog_ir_set_terminator (snd demo_jump) 0 1 (Some demo_ret).
Definition demo_puts := cog_ir_add_function (snd demo_return) "puts" source_span_invalid 2
  COG_IR_FUNCTION_DECLARATION COG_IR_LINKAGE_EXTERNAL false None.
Definition demo : CogIrModule := snd demo_puts.

Lemma built_step m m' : built m -> builder_step m m' -> built m'.
Proof. intros [target H] Hs. exists target. by eapply rtc_r. Qed.

Lemma demo_init_built : built (cog_ir_module_init demo_target).
Proof. by exists demo_target. Qed.

Lemma demo_zero_built : built (snd demo_zero).
Proof.
  apply (built_step (snd demo_fn)), step_const_integer.
  apply (built_step (snd demo_bool)), step_type_function.
  apply (built_step (snd demo_i32)), step_type_bool.
  apply (built_step (cog_ir_module_init demo_target)), step_type_integer.
  apply demo_init_built.
Qed.

Lemma demo_param_built : built (snd demo_param).
Proof.
  apply (built_step (snd demo_exit)), step_add_block_parameter.
  apply (built_step (snd demo_entry)), step_add_block.
  apply (built_step (snd demo_add)), step_add_block.
  apply (built_step (snd demo_zero)), step_add_function.
  apply demo_zero_built.
Qed.

Lemma demo_built : built demo.
Proof.
  apply (built_step (snd demo_return)), step_add_function.
  apply (built_step (snd demo_jump)), step_set_terminator.
  apply (built_step (snd demo_neg)), step_set_terminator.
  apply (built_step (snd demo_param)), step_emit.
  apply demo_param_built.
Qed.

Example demo_ids :
  (fst demo_i32, fst demo_bool, fst demo_fn, fst demo_zero, fst demo_add, fst demo_entry,
   fst demo_exit, fst demo_param, fst demo_neg, fst demo_jump, fst demo_return, fst demo_puts)
  = (0, 1, 2, 0, 0, 0, 1, 1, (true, 2), true, true, 1)%N.
Proof. vm_compute. reflexivity. Qed.

(** ** The guarantees *)

(** C1. Every module the builder interface can build, by any sequence of calls with any
    arguments, failed calls included, is well formed ([module_ok]): identifiers index
    the tables they belong to, every type a type, constant, global, value or slot
    refers to exists, structural types, ABI spellings and scalar constants occur once,
    elements of aggregate constants precede them, the values of a function and its
    definition sites correspond, the entry block is the first one, and declarations
    have no body. *)
Theorem builder_invariant m : built m -> module_ok m.
Proof. apply built_ok. Qed.

Lemma builder_invariant_witness : built demo /\ module_ok demo.
Proof. split; [apply demo_built | apply builder_invariant, demo_built]. Defined.



(** C34. Structural types are hash-consed.  A type builder fails, leaving the module alone,
    only when the module is frozen, the request is malformed or the table is full.
    Otherwise the identifier denotes the requested type, and from then on, whatever
    has been called in between, the same request returns the same identifier and
    changes nothing, and no other request returns that identifier. *)
Theorem type_interning m a id m1 :
  built m -> build_type m a = (id, m1) ->
  (id = COG_IR_ID_INVALID -> m1 = m
     /\ (is_frozen m = true \/ type_request_ok m a = false \/ count (types m) = COG_IR_ID_INVALID))
  /\ (id <> COG_IR_ID_INVALID ->
        (exists t, cog_ir_get_type m1 id = Some t /\ type_as t = a)
        /\ forall m2, rtc builder_step m1 m2 -> is_frozen m2 = false ->
             build_type m2 a = (id, m2)
             /\ forall b m3, build_type m2 b = (id, m3) -> b = a).
Proof.
  intros Hb Hbuild. pose proof (mod_types _ (built_ok _ Hb)) as Hok.
  pose proof (build_type_steps _ _ _ _ Hbuild) as Hst1.
  rewrite build_type_eq in Hbuild. unfold module_mutable in Hbuild.
  destruct (is_frozen m) eqn:Hf, (type_request_ok m a) eqn:Hreq; simpl in Hbuild;
    try (injection Hbuild as <- <-; split; [by auto|done]).
  split; [intros ->; apply intern_type_invalid in Hbuild; [tauto | apply Hok | done]|].
  assert (Hs : structural a = true) by by destruct a.
  intros Hid. destruct (intern_type_result _ _ _ _ Hok Hbuild Hid) as (t & Ht & Ha).
  split; [by exists t|]. intros m2 Hst Hf2.
  assert (Hb1 : built m1) by by eapply built_steps. assert (Hb2 : built m2) by by eapply built_steps.
  destruct (built_grows _ _ Hb1 Hst) as [Hok2 Hg].
  destruct (gr_types _ _ Hg _ _ Ht) as (t2 & Ht2 & _ & Hsame).
  rewrite Ha in Hsame. specialize (Hsame Hs). split.
  - rewrite build_type_eq. unfold module_mutable. rewrite Hf2. simpl.
    rewrite (type_request_grows m); [|apply (built_grows _ _ Hb); by etrans | done].
    eapply intern_type_again; [apply Hok2 | done..].
  - intros b m3 Hb3. pose proof (build_type_steps _ _ _ _ Hb3) as Hst3.
    destruct (built_grows _ _ Hb2 Hst3) as [_ Hg3].
    rewrite build_type_eq in Hb3. destruct (_ && _); [|by injection Hb3 as <- _].
    destruct (intern_type_result _ _ _ _ (mod_types _ Hok2) Hb3 Hid) as (u & Hu & Hub).
    destruct (gr_types _ _ Hg3 _ _ Ht2) as (t3 & Ht3 & _ & Hsame3).
    rewrite Hsame in Hsame3. unfold cog_ir_get_type in Hu. rewrite Hu in Ht3.
    injection Ht3 as <-. by rewrite <- Hsame3, Hub.
Qed.

Lemma type_interning_witness :
  fst (build_type (snd demo_zero) (AsArray 0 4)) = 3%N
  /\ forall m2, rtc builder_step (snd (build_type (snd demo_zero) (AsArray 0 4))) m2 ->
       is_frozen m2 = false -> build_type m2 (AsArray 0 4) = (3%N, m2).
Proof.
  split; [vm_compute; reflexivity|]. intros m2 Hs Hf.
  apply (type_interning (snd demo_zero) (AsArray 0 4) 3
           (snd (build_type (snd demo_zero) (AsArray 0 4))));
    [apply demo_zero_built | vm_compute; reflexivity | done | exact Hs | exact Hf].
Defined.

(** Scalar constants are hash-consed in the same way, by type and bits: a constant
    builder fails exactly when the module is frozen, the type does not admit the
    constant or the table is full; otherwise the identifier denotes the constant asked
    for, the same request returns it ever after, and no other request does. *)
Theorem constant_interning m ty a id m1 :
  built m -> build_constant m ty a = (id, m1) ->
  (id = COG_IR_ID_INVALID -> m1 = m
     /\ (is_frozen m = true \/ constant_request_ok m ty a = false
         \/ count (constants m) = COG_IR_ID_INVALID))
  /\ (id <> COG_IR_ID_INVALID ->
        (exists c, cog_ir_get_constant m1 id = Some c /\ const_type c = ty /\ const_as c = a)
        /\ forall m2, rtc builder_step m1 m2 -> is_frozen m2 = false ->
             build_constant m2 ty a = (id, m2)
             /\ forall ty' b m3, build_constant m2 ty' b = (id, m3) -> ty' = ty /\ b = a).
Proof.
  intros Hb Hbuild. pose proof (mod_constants _ (built_ok _ Hb)) as Hok.
  pose proof (build_constant_steps _ _ _ _ _ Hbuild) as Hst1.
  rewrite build_constant_eq in Hbuild. unfold module_mutable in Hbuild.
  destruct (is_frozen m) eqn:Hf, (constant_request_ok m ty a) eqn:Hreq; simpl in Hbuild;
    try (injection Hbuild as <- <-; split; [by auto|done]).
  split; [intros ->; apply intern_constant_invalid in Hbuild; [tauto | apply Hok | done]|].
  assert (Hs : aggregate_elements a = None) by by destruct a.
  intros Hid. destruct (intern_constant_result _ _ _ _ _ Hok Hbuild Hid) as (c & Hc & Hty & Ha).
  split; [by exists c|]. intros m2 Hst Hf2.
  assert (Hb1 : built m1) by by eapply built_steps. assert (Hb2 : built m2) by by eapply built_steps.
  destruct (built_grows _ _ Hb1 Hst) as [Hok2 Hg].
  pose proof (constants_prefix_get _ _ _ _ Hg (mod_constants _ Hok2) Hc) as Hc2. split.
  - rewrite build_constant_eq. unfold module_mutable. rewrite Hf2. simpl.
    rewrite (constant_request_grows m); [|apply (built_grows _ _ Hb); by etrans | done].
    rewrite <- Hty, <- Ha. eapply intern_constant_again; [apply Hok2 | done | by rewrite Ha].
  - intros ty' b m3 Hb3. pose proof (build_constant_steps _ _ _ _ _ Hb3) as Hst3.
    destruct (built_grows _ _ Hb2 Hst3) as [Hok3 Hg3].
    rewrite build_constant_eq in Hb3. destruct (_ && _); [|by injection Hb3 as <- _].
    destruct (intern_constant_result _ _ _ _ _ (mod_constants _ Hok2) Hb3 Hid) as (d & Hd & Hdt & Hda).
    pose proof (constants_prefix_get _ _ _ _ Hg3 (mod_constants _ Hok3) Hc2) as Hc3.
    split; congruence.
Qed.

Lemma constant_interning_witness :
  fst (build_constant (snd demo_zero) 0 (ConstInteger 7)) = 1%N
  /\ forall m2, rtc builder_step (snd (build_constant (snd demo_zero) 0 (ConstInteger 7))) m2 ->
       is_frozen m2 = false -> build_constant m2 0 (ConstInteger 7) = (1%N, m2).
Proof.
  split; [vm_compute; reflexivity|]. intros m2 Hs Hf.
  apply (constant_interning (snd demo_zero) 0 (ConstInteger 7) 1
           (snd (build_constant (snd demo_zero) 0 (ConstInteger 7))));
    [apply demo_zero_built | vm_compute; reflexivity | done | exact Hs | exact Hf].
Defined.

(** *** Freezing and runtime requirements *)

(** A function that stands for the symbol [symbol] of the C runtime. *)
Definition runtime_symbol (f : CogIrFunction) (prefix : string) : Prop :=
  linkage f = COG_IR_LINKAGE_EXTERNAL /\ fa_abi (function_abi f) = COG_IR_ABI_C
  /\ exists rest, external_symbol (function_abi f) = (prefix ++ rest)%string.

Lemma prefix_app p s :
  ir_string_view_starts_with_cstr s p = true <-> exists rest, s = (p ++ rest)%string.
Proof.
  unfold ir_string_view_starts_with_cstr. revert s. induction p as [|c p IH]; intros s; simpl.
  - destruct s; naive_solver.
  - destruct s as [|d s]; simpl; [naive_solver|]. destruct (ascii_dec c d) as [->|Hne].
    + rewrite IH. split; intros [rest Hr]; exists rest; [by subst | by injection Hr].
    + split; [done|]. intros [rest [= -> _]]. done.
Qed.

(** What each requirement says of the module. *)
Definition requires (f : CogIrFunction) (r : N) : Prop :=
  if (r =? COG_IR_RUNTIME_REQUIREMENT_IO)%N then runtime_symbol f "coglet_rt_io_"
  else if (r =? COG_IR_RUNTIME_REQUIREMENT_MATH)%N then runtime_symbol f "coglet_rt_math_"
  else if (r =? COG_IR_RUNTIME_REQUIREMENT_MEMORY)%N then runtime_symbol f "coglet_rt_mem_"
  else runtime_symbol f "coglet_rt_" /\ ~ runtime_symbol f "coglet_rt_io_"
       /\ ~ runtime_symbol f "coglet_rt_math_" /\ ~ runtime_symbol f "coglet_rt_mem_".

Definition REQUIREMENTS : list N :=
  [COG_IR_RUNTIME_REQUIREMENT_IO; COG_IR_RUNTIME_REQUIREMENT_MATH;
   COG_IR_RUNTIME_REQUIREMENT_MEMORY; COG_IR_RUNTIME_REQUIREMENT_UNKNOWN].

Definition runtime_symbolb (f : CogIrFunction) (p : string) : bool :=
  bool_decide (linkage f = COG_IR_LINKAGE_EXTERNAL)
  && bool_decide (fa_abi (function_abi f) = COG_IR_ABI_C)
  && ir_string_view_starts_with_cstr (external_symbol (function_abi f)) p.

Lemma runtime_symbol_spec f p : runtime_symbol f p <-> runtime_symbolb f p = true.
Proof.
  unfold runtime_symbol, runtime_symbolb.
  rewrite !andb_true_iff, !bool_decide_eq_true, prefix_app. tauto.
Qed.

Lemma runtime_symbol_extends f p q rest :
  p = (q ++ rest)%string -> runtime_symbolb f p = true -> runtime_symbolb f q = true.
Proof.
  intros ->. rewrite <- !runtime_symbol_spec. intros (Hl & Ha & r & Hr).
  split_and!; [done..|]. exists (rest ++ r)%string. rewrite Hr. clear Hr.
  induction q as [|c q IH]; [done|]. exact (f_equal (String c) IH).
Qed.

Lemma runtime_symbol_disjoint f p q :
  String.prefix p q = false -> String.prefix q p = false ->
  runtime_symbolb f p = true -> runtime_symbolb f q = false.
Proof.
  intros Hpq Hqp Hp%runtime_symbol_spec. apply not_true_iff_false.
  intros Hq%runtime_symbol_spec. destruct Hp as (_ & _ & r & Hr), Hq as (_ & _ & r' & Hr').
  rewrite Hr in Hr'. clear Hr. revert q Hpq Hqp Hr'.
  induction p as [|c p IH]; intros [|d q]; simpl; try done.
  destruct (ascii_dec c d) as [->|Hne]; [|by intros _ _ [= ->]].
  destruct (ascii_dec d d); [|done]. intros ? ? [= ?]. by eapply IH.
Qed.

Lemma function_requirement_eq f :
  function_requirement f
  = if negb (runtime_symbolb f "coglet_rt_") then COG_IR_RUNTIME_REQUIREMENT_NONE
    else if runtime_symbolb f "coglet_rt_io_" then COG_IR_RUNTIME_REQUIREMENT_IO
    else if runtime_symbolb f "coglet_rt_math_" then COG_IR_RUNTIME_REQUIREMENT_MATH
    else if runtime_symbolb f "coglet_rt_mem_" then COG_IR_RUNTIME_REQUIREMENT_MEMORY
    else COG_IR_RUNTIME_REQUIREMENT_UNKNOWN.
Proof.
  unfold function_requirement, runtime_symbolb.
  by destruct (bool_decide (linkage f = COG_IR_LINKAGE_EXTERNAL)),
    (bool_decide (fa_abi (function_abi f) = COG_IR_ABI_C)).
Qed.

Lemma requires_spec f r : r ∈ REQUIREMENTS -> requires f r <-> function_requirement f = r.
Proof.
  rewrite function_requirement_eq.
  pose proof (runtime_symbol_extends f "coglet_rt_io_" "coglet_rt_" "io_" eq_refl).
  pose proof (runtime_symbol_extends f "coglet_rt_math_" "coglet_rt_" "math_" eq_refl).
  pose proof (runtime_symbol_extends f "coglet_rt_mem_" "coglet_rt_" "mem_" eq_refl).
  pose proof (runtime_symbol_disjoint f "coglet_rt_io_" "coglet_rt_math_" eq_refl eq_refl).
  pose proof (runtime_symbol_disjoint f "coglet_rt_io_" "coglet_rt_mem_" eq_refl eq_refl).
  pose proof (runtime_symbol_disjoint f "coglet_rt_math_" "coglet_rt_mem_" eq_refl eq_refl).
  unfold REQUIREMENTS. rewrite !elem_of_cons, elem_of_nil.
  intros [-> |[-> |[-> |[-> |[]]]]]; unfold requires; simpl; rewrite !runtime_symbol_spec;
    destruct (runtime_symbolb f "coglet_rt_"), (runtime_symbolb f "coglet_rt_io_"),
      (runtime_symbolb f "coglet_rt_math_"), (runtime_symbolb f "coglet_rt_mem_");
    simpl in *; naive_solver.
Qed.

Lemma requirement_bit f r :
  r ∈ REQUIREMENTS ->
  N.testbit (function_requirement f) (N.log2 r) = true <-> function_requirement f = r.
Proof.
  rewrite function_requirement_eq. unfold REQUIREMENTS. rewrite !elem_of_cons, elem_of_nil.
  destruct (runtime_symbolb f "coglet_rt_"), (runtime_symbolb f "coglet_rt_io_"),
    (runtime_symbolb f "coglet_rt_math_"), (runtime_symbolb f "coglet_rt_mem_");
    by intros [-> |[-> |[-> |[-> |[]]]]].
Qed.

Lemma derive_bits fs r acc :
  r ∈ REQUIREMENTS ->
  N.testbit (foldl (fun requirements f => N.lor requirements (function_requirement f)) acc fs)
    (N.log2 r) = true
  <-> N.testbit acc (N.log2 r) = true \/ exists f, f ∈ fs /\ requires f r.
Proof.
  intros Hr. revert acc. induction fs as [|f fs IH]; intros acc; simpl.
  { split; [by left | intros [?|(? & []%elem_of_nil & _)]; done]. }
  rewrite IH, N.lor_spec, orb_true_iff, (requirement_bit f r Hr), <- (requires_spec f r Hr).
  setoid_rewrite elem_of_cons. naive_solver.
Qed.

(** A frozen module is final: no call changes it.  Its cached runtime requirements are
    those of its functions: the bit of a runtime module is set exactly when an external
    C function stands for a symbol of that module, the [UNKNOWN] bit exactly when one
    has the runtime prefix and belongs to none.  A module that is not frozen reports no
    requirement. *)
Theorem freeze_correct m :
  built m ->
  (is_frozen m = true -> forall m', rtc builder_step m m' -> m' = m)
  /\ is_frozen (cog_ir_module_freeze m) = true
  /\ (is_frozen m = false -> cog_ir_module_runtime_requirements m = COG_IR_RUNTIME_REQUIREMENT_NONE)
  /\ (is_frozen m = true -> forall r, r ∈ REQUIREMENTS ->
        N.testbit (cog_ir_module_runtime_requirements m) (N.log2 r) = true
        <-> exists f, f ∈ items (functions m) /\ requires f r).
Proof.
  intros Hb. unfold cog_ir_module_runtime_requirements. split_and!.
  - intros Hf m' Hs. by apply frozen_stays.
  - unfold cog_ir_module_freeze. by destruct (is_frozen m) eqn:Hf.
  - by intros ->.
  - intros Hf r Hr. rewrite Hf, (built_requirements m Hb Hf). unfold derive_runtime_requirements.
    rewrite derive_bits by done. unfold REQUIREMENTS in Hr.
    rewrite !elem_of_cons, elem_of_nil in Hr. split; [|by right].
    intros [H|H]; [|done]. by destruct Hr as [-> |[-> |[-> |[-> |[]]]]].
Qed.

(** A module that calls the IO runtime. *)
Definition demo_cfn := cog_ir_type_function demo 0 (Array [0%N])
  COG_IR_ABI_C COG_IR_CALL_DEFAULT false.
Definition demo_print_abi : CogIrFunctionAbi :=
  mkFunctionAbi COG_IR_ABI_C COG_IR_CALL_DEFAULT false "coglet_rt_io_print" COG_IR_ID_INVALID
    (Array [COG_IR_ID_INVALID]).
Definition demo_io := cog_ir_add_function (snd demo_cfn) "print" source_span_invalid
  (fst demo_cfn) COG_IR_FUNCTION_DECLARATION COG_IR_LINKAGE_EXTERNAL false (Some demo_print_abi).
Definition demo_frozen : CogIrModule := cog_ir_module_freeze (snd demo_io).

Lemma demo_frozen_built : built demo_frozen.
Proof.
  apply (built_step (snd demo_io)), step_freeze.
  apply (built_step (snd demo_cfn)), step_add_function.
  apply (built_step demo), step_type_function. apply demo_built.
Qed.

Lemma freeze_correct_witness :
  cog_ir_module_runtime_requirements demo_frozen = COG_IR_RUNTIME_REQUIREMENT_IO
  /\ exists f, f ∈ items (functions demo_frozen) /\ requires f COG_IR_RUNTIME_REQUIREMENT_IO.
Proof.
  split; [vm_compute; reflexivity|].
  apply (freeze_correct demo_frozen demo_frozen_built);
    [vm_compute; reflexivity | apply elem_of_cons; by left | vm_compute; reflexivity].
Defined.

(** *** Single definition *)

Inductive def_site : Type :=
| DefParameter (i : nat)
| DefBlockParameter (block i : nat)
| DefInstruction (block i : nat).

(** The place [s] of [f] defines the value [id]. *)
Definition defines (f : CogIrFunction) (s : def_site) (id : CogIrValueId) : Prop :=
  match s with
  | DefParameter i => function_parameters f !! i = Some id
  | DefBlockParameter bi i => exists b p, items (blocks f) !! bi = Some b
      /\ items (block_parameters b) !! i = Some p /\ param_value p = id
  | DefInstruction bi i => exists b x, items (blocks f) !! bi = Some b
      /\ items (instructions b) !! i = Some x /\ insn_result x = id
      /\ insn_result_type x <> COG_IR_ID_INVALID
  end.

(** The place a value entry describes. *)
Definition site_of (v : CogIrValue) : def_site :=
  match value_kind v with
  | COG_IR_VALUE_FUNCTION_PARAMETER => DefParameter (N.to_nat (ordinal v))
  | COG_IR_VALUE_BLOCK_PARAMETER =>
      DefBlockParameter (N.to_nat (value_block v)) (N.to_nat (ordinal v))
  | COG_IR_VALUE_INSTRUCTION =>
      DefInstruction (N.to_nat (value_block v)) (N.to_nat (ordinal v))
  end.

Lemma type_exists_valid ts id : type_exists ts id -> id <> COG_IR_ID_INVALID.
Proof. intros [t Ht] ->. unfold table_get in Ht. by rewrite N.eqb_refl in Ht. Qed.

Lemma site_of_defines ts f id v :
  fn_ok ts f -> items (values f) !! id = Some v -> defines f (site_of v) (N.of_nat id).
Proof.
  intros Hf Hv. destruct (fn_values _ _ Hf id v Hv) as [Ht Hs]. unfold site_ok in Hs.
  unfold site_of. destruct (value_kind v); simpl; [done | naive_solver|].
  destruct Hs as (b & x & Hb & Hx & Hr & Hrt). exists b, x. split_and!; [done..|].
  rewrite Hrt. by eapply type_exists_valid.
Qed.

(** Every definition is recorded in the value table. *)
Lemma defines_recorded ts f s id :
  fn_ok ts f -> defines f s id -> exists v, items (values f) !! N.to_nat id = Some v /\ site_of v = s.
Proof.
  intros Hf. unfold site_of. destruct s as [i|bi i|bi i]; simpl.
  - intros Hi. destruct (fn_signature _ _ Hf) as (t & ft & _ & _ & Hps).
    destruct (Hps i id Hi) as (ty & _ & v & Hv & Hk & _ & Ho & _). exists v.
    split; [done|]. by rewrite Hk, Ho, Nat2N.id.
  - intros (b & p & Hb & Hp & <-). destruct (fn_blocks _ _ Hf bi b Hb) as (_ & Hps & _).
    destruct (Hps i p Hp) as (v & Hv & Hk & Hbl & Ho & _). exists v.
    split; [done|]. by rewrite Hk, Hbl, Ho, !Nat2N.id.
  - intros (b & x & Hb & Hx & <- & Hrt). destruct (fn_blocks _ _ Hf bi b Hb) as (_ & _ & His).
    pose proof (His i x Hx) as H. unfold instruction_ok in H.
    rewrite (proj2 (N.eqb_neq _ _) Hrt) in H. destruct H as (v & Hv & Hk & Hbl & Ho & _).
    exists v. split; [done|]. by rewrite Hk, Hbl, Ho, !Nat2N.id.
Qed.

(** C11. Static single assignment: in every function of a built module each value has
    exactly one definition, the place its entry describes, and every parameter, block
    parameter and instruction with a result defines a value of the function. *)
Theorem single_definition m fid f :
  built m -> cog_ir_get_function m fid = Some f ->
  (forall id v, cog_ir_get_value f id = Some v ->
     defines f (site_of v) id /\ forall s, defines f s id -> s = site_of v)
  /\ (forall s id, defines f s id -> is_Some (cog_ir_get_value f id)).
Proof.
  intros Hb Hf. pose proof (produced_function _ _ _ Hb Hf) as Hok. split.
  - intros id v Hv%table_get_items. split.
    + rewrite <- (N2Nat.id id). by eapply site_of_defines.
    + intros s Hs. destruct (defines_recorded _ _ _ _ Hok Hs) as (w & Hw & <-). by simplify_eq.
  - intros s id Hs. destruct (defines_recorded _ _ _ _ Hok Hs) as (v & Hv & _).
    exists v. unfold cog_ir_get_value. by rewrite table_get_ok by apply (fn_tables _ _ Hok).
Qed.

Lemma single_definition_witness :
  exists f, cog_ir_get_function demo 0 = Some f
  /\ forall s, defines f s 2 -> s = DefInstruction 0 0.
Proof.
  destruct (cog_ir_get_function demo 0) as [f|] eqn:Hf; [|vm_compute in Hf; discriminate].
  exists f. split; [done|]. intros s Hs.
  destruct (proj2 (single_definition demo 0 f demo_built Hf) s 2%N Hs) as [v Hv].
  rewrite (proj2 (proj1 (single_definition demo 0 f demo_built Hf) 2%N v Hv) s Hs).
  vm_compute in Hf. injection Hf as <-. vm_compute in Hv. injection Hv as <-. reflexivity.
Defined.

(** *** Emission *)

Lemma table_get_put_eq {A} (t : table A) id x y :
  table_get t id = Some y -> table_get (put t id x) id = Some x.
Proof.
  intros H. pose proof (table_get_items _ _ _ H) as Hi. unfold table_get, count, put in *. simpl.
  rewrite length_insert. destruct (_ || _); [done|].
  by rewrite list_lookup_insert_eq by (by eapply lookup_lt_Some).
Qed.

Lemma table_get_put_ne {A} (t : table A) id j x :
  id <> j -> table_get (put t id x) j = table_get t j.
Proof.
  intros H. unfold table_get, count, put. simpl. rewrite length_insert.
  destruct (_ || _); [done|]. apply list_lookup_insert_ne. lia.
Qed.

(** A module without the capacities of its blocks, which no reader sees. *)
Definition uncap_block (b : CogIrBlock) : CogIrBlock :=
  mkBlock (block_id b) (block_name b) (block_span b) (mkTable (items (block_parameters b)) 0)
    (mkTable (items (instructions b)) 0) (terminator b).
Definition uncap_function (f : CogIrFunction) : CogIrFunction :=
  with_blocks f (mkTable (uncap_block <$> items (blocks f)) (capacity (blocks f))) (entry_block f).
Definition uncap (m : CogIrModule) : CogIrModule :=
  with_functions m (mkTable (uncap_function <$> items (functions m)) (capacity (functions m))).

Lemma uncap_put_block m fid f bid b b' :
  cog_ir_get_function m fid = Some f -> cog_ir_get_block f bid = Some b ->
  uncap_block b' = uncap_block b -> uncap (put_block m fid f bid b') = uncap m.
Proof.
  intros Hf%table_get_items Hb%table_get_items Heq.
  unfold uncap, put_block, put_function, with_functions. simpl. do 2 f_equal.
  rewrite list_fmap_insert. apply list_insert_id. rewrite list_lookup_fmap, Hf. simpl. f_equal.
  unfold uncap_function, with_blocks. simpl. do 2 f_equal.
  rewrite list_fmap_insert, Heq. symmetry. apply list_insert_id.
  by rewrite list_lookup_fmap, Hb.
Qed.

(** Every other block and every other function, in [m'] as in [m]. *)
Definition others_unchanged (m m' : CogIrModule) (fid : CogIrFunctionId) (f f' : CogIrFunction)
    (bid : CogIrBlockId) : Prop :=
  (forall j, j <> fid -> cog_ir_get_function m' j = cog_ir_get_function m j)
  /\ (forall j, j <> bid -> cog_ir_get_block f' j = cog_ir_get_block f j).

Lemma put_block_others m fid f g bid b :
  blocks g = blocks f ->
  others_unchanged m (put_block m fid g bid b) fid f
    (with_blocks g (put (blocks g) bid b) (entry_block g)) bid.
Proof.
  intros Hg. split; intros j Hj; unfold cog_ir_get_function, cog_ir_get_block; simpl.
  - by apply table_get_put_ne.
  - rewrite table_get_put_ne by done. by rewrite Hg.
Qed.

Lemma put_block_get m fid f g bid b b' :
  cog_ir_get_function m fid = Some f -> cog_ir_get_block f bid = Some b -> blocks g = blocks f ->
  let f' := with_blocks g (put (blocks g) bid b') (entry_block g) in
  cog_ir_get_function (put_block m fid g bid b') fid = Some f' /\ cog_ir_get_block f' bid = Some b'.
Proof.
  intros Hf Hb Hg f'. split; unfold cog_ir_get_function, cog_ir_get_block; simpl.
  - by eapply table_get_put_eq.
  - rewrite Hg. by eapply table_get_put_eq.
Qed.

(** The instruction stored for [x], with its result. *)
Definition emitted (x : CogIrInstruction) (r : CogIrValueId) : CogIrInstruction :=
  mkInstruction (op x) r (insn_result_type x) (result_is_discarded x) (insn_span x) (insn_as x).

(** A call that fails without touching the module. *)
Ltac call_fails :=
  intros; simplify_eq; split; [split; [done | intros (? & ? & ? & ? & ?); intuition congruence]|].

(** When [cog_ir_emit] succeeds. *)
Definition can_emit (m : CogIrModule) (f : CogIrFunction) (b : CogIrBlock)
    (x : CogIrInstruction) : Prop :=
  is_frozen m = false /\ is_terminated b = false
  /\ (insn_result_type x = COG_IR_ID_INVALID
      \/ type_exists (types m) (insn_result_type x) /\ (count (values f) < COG_IR_ID_INVALID)%N).

(** C36. Emission succeeds exactly when the module is mutable, the function and the block
    exist, the block is not terminated, and the result type is either none or exists
    with room for a value.  It then appends the instruction, with its result, to that
    block and to nothing else; a result is the next value of the function, of the
    result type, defined there.  When it fails, nothing a reader of the module sees
    has changed. *)
Theorem emit_correct m fid bid x ok r m' :
  cog_ir_emit m fid bid (Some x) = ((ok, r), m') ->
  (ok = true <-> exists f b, cog_ir_get_function m fid = Some f /\ cog_ir_get_block f bid = Some b
                            /\ can_emit m f b x)
  /\ (ok = true -> exists f b f' b',
        cog_ir_get_function m fid = Some f /\ cog_ir_get_block f bid = Some b
        /\ cog_ir_get_function m' fid = Some f' /\ cog_ir_get_block f' bid = Some b'
        /\ items (instructions b') = items (instructions b) ++ [emitted x r]
        /\ items (block_parameters b') = items (block_parameters b)
        /\ terminator b' = terminator b
        /\ items (values f') = items (values f) ++
             (if (insn_result_type x =? COG_IR_ID_INVALID)%N then []
              else [mkValue r (insn_result_type x) COG_IR_ID_INVALID COG_IR_VALUE_INSTRUCTION bid
                      (count (instructions b)) (insn_span x)])
        /\ r = (if (insn_result_type x =? COG_IR_ID_INVALID)%N then COG_IR_ID_INVALID
                else count (values f))
        /\ others_unchanged m m' fid f f' bid)
  /\ (ok = false -> r = COG_IR_ID_INVALID /\ uncap m' = uncap m).
Proof.
  unfold cog_ir_emit, can_emit, module_mutable. destruct (is_frozen m); simpl;
    [by call_fails|].
  destruct (cog_ir_get_function m fid) as [f|] eqn:Hf; [|by call_fails].
  destruct (cog_ir_get_block f bid) as [b|] eqn:Hb; [|by call_fails].
  destruct (is_terminated b) eqn:Ht; [by call_fails|].
  destruct (N.eqb_spec (insn_result_type x) COG_IR_ID_INVALID) as [Hv|Hv].
  - intros [= <- <- <-]. split; [split; [intros _; exists f, b; split_and!; auto | done]|].
    split; [intros _|done]. set (b' := with_instructions _ _).
    destruct (put_block_get m fid f f bid b b') as [Hf' Hb']; [done..|].
    eexists f, b, _, b'. split_and!; try done.
    + unfold b'. simpl. by rewrite items_push.
    + simpl. by rewrite app_nil_r.
    + by apply put_block_others.
  - rewrite append_value_spec. destruct (negb _ || _) eqn:Hg; simpl.
    + intros [= <- <- <-]. split; [split; [done|]|split; [done|]].
      * intros (f1 & b1 & [= <-] & Hb1 & _ & _ & [Hi|[Hty Hc]]); [done|].
        apply has_type_exists in Hty. apply N.leb_gt in Hc. by rewrite Hty, Hc in Hg.
      * intros _. split; [done|]. eapply uncap_put_block; [done..|].
        unfold uncap_block. simpl. by rewrite items_grow.
    + to_props. destruct (N.eqb_spec (count (values f)) COG_IR_ID_INVALID) as [He|_];
        [rewrite He in *; by rewrite N.leb_refl in *|].
      intros [= <- <- <-]. split.
      { split; [intros _|done]. exists f, b. split_and!; try done. right.
        split; [by apply has_type_exists | by apply N.leb_gt]. }
      split; [intros _|done]. set (g := with_values _ _). set (b' := with_instructions _ _).
      destruct (put_block_get m fid f g bid b b') as [Hf' Hb']; [done..|].
      eexists f, b, _, b'. split_and!; try done.
      * unfold b'. simpl. by rewrite items_push.
      * simpl. by rewrite items_push.
      * by apply put_block_others.
Qed.

Lemma emit_correct_witness :
  cog_ir_emit (snd demo_param) 0 0 (Some demo_neg_insn) = ((true, 2%N), snd demo_neg)
  /\ exists f b f' b',
        cog_ir_get_function (snd demo_param) 0 = Some f /\ cog_ir_get_block f 0 = Some b
        /\ cog_ir_get_function (snd demo_neg) 0 = Some f' /\ cog_ir_get_block f' 0 = Some b'
        /\ items (instructions b') = items (instructions b) ++ [emitted demo_neg_insn 2].
Proof.
  assert (H : cog_ir_emit (snd demo_param) 0 0 (Some demo_neg_insn) = ((true, 2%N), snd demo_neg))
    by (vm_compute; reflexivity).
  split; [exact H|].
  destruct (proj1 (proj2 (emit_correct _ _ _ _ _ _ _ H)) eq_refl)
    as (f & b & f' & b' & Hf & Hb & Hf' & Hb' & Hi & _).
  exists f, b, f', b'. auto.
Defined.

(** *** Terminators *)

(** A terminator the block can take: not [NONE], no switch case without its array. *)
Definition terminator_complete (t : CogIrTerminator) : bool :=
  match term_as t with
  | TermNone => false
  | TermSwitch _ cases _ => negb (missing_array cases)
  | _ => true
  end.

(** The block exists and is terminated. *)
Definition closed_block (m : CogIrModule) (fid : CogIrFunctionId) (bid : CogIrBlockId) : Prop :=
  exists f b, cog_ir_get_function m fid = Some f /\ cog_ir_get_block f bid = Some b
    /\ is_terminated b = true.

Lemma closed_block_stays m m' fid bid :
  module_ok m' -> grows m m' -> closed_block m fid bid -> closed_block m' fid bid.
Proof.
  intros Hok Hg (f & b & Hf%table_get_items & Hb%table_get_items & Ht).
  destruct (gr_functions _ _ Hg _ f Hf) as (f' & Hf' & Gf).
  destruct (fg_blocks _ _ Gf _ b Hb) as (b' & Hb' & Gb).
  destruct (mod_functions _ Hok) as (Htab & _ & Hall). rewrite Forall_forall in Hall.
  pose proof (Hall f' (list_elem_of_lookup_2 _ _ _ Hf')) as Hfok.
  exists f', b'. unfold cog_ir_get_function, cog_ir_get_block.
  rewrite !table_get_ok by (done || apply (fn_tables _ _ Hfok)). split_and!; [done..|].
  unfold is_terminated. by rewrite (proj1 (bg_terminated _ _ Gb Ht)).
Qed.

Lemma closed_block_refuses m fid bid :
  closed_block m fid bid ->
  (forall t, cog_ir_set_terminator m fid bid t = (false, m))
  /\ (forall x, cog_ir_emit m fid bid x = ((false, COG_IR_ID_INVALID), m)).
Proof.
  intros (f & b & Hf & Hb & Ht). split.
  - intros [t|]; [|done]. unfold cog_ir_set_terminator. destruct (_ || _); [done|].
    by rewrite Hf, Hb, Ht.
  - intros [x|]; [|done]. unfold cog_ir_emit. destruct (negb _); [done|]. by rewrite Hf, Hb, Ht.
Qed.

(** Once closed, a block refuses every later call. *)
Lemma closed_block_final m fid bid :
  built m -> closed_block m fid bid -> forall m2, rtc builder_step m m2 ->
  (forall t, cog_ir_set_terminator m2 fid bid t = (false, m2))
  /\ (forall x, cog_ir_emit m2 fid bid x = ((false, COG_IR_ID_INVALID), m2)).
Proof.
  intros Hb Hc m2 Hs. destruct (built_grows _ _ Hb Hs) as [Hok Hg].
  by eapply closed_block_refuses, closed_block_stays.
Qed.

Lemma set_terminator_closes m fid bid f b t :
  term_as t <> TermNone -> cog_ir_get_function m fid = Some f -> cog_ir_get_block f bid = Some b ->
  closed_block (put_block m fid f bid (with_terminator b t)) fid bid.
Proof.
  intros Ht Hf Hb. destruct (put_block_get m fid f f bid b (with_terminator b t)) as [Hf' Hb'];
    [done..|]. eexists _, _. split_and!; [done..|]. unfold is_terminated. simpl.
  by destruct (term_as t).
Qed.

(** Setting a terminator succeeds exactly when the module is mutable, the function and
    the block exist, the block has no terminator yet and the new one is complete; the
    block then has that terminator and its instructions, and nothing else changed.
    From then on every attempt to extend or to terminate the block again fails. *)
Theorem set_terminator_correct m fid bid t ok m' :
  built m -> cog_ir_set_terminator m fid bid (Some t) = (ok, m') ->
  (ok = true <-> exists f b, cog_ir_get_function m fid = Some f /\ cog_ir_get_block f bid = Some b
     /\ is_frozen m = false /\ is_terminated b = false /\ terminator_complete t = true)
  /\ (ok = true ->
        (exists f b f' b',
          cog_ir_get_function m fid = Some f /\ cog_ir_get_block f bid = Some b
          /\ cog_ir_get_function m' fid = Some f' /\ cog_ir_get_block f' bid = Some b'
          /\ b' = with_terminator b t /\ others_unchanged m m' fid f f' bid)
        /\ forall m2, rtc builder_step m' m2 ->
             (forall t2, cog_ir_set_terminator m2 fid bid t2 = (false, m2))
             /\ forall x, cog_ir_emit m2 fid bid x = ((false, COG_IR_ID_INVALID), m2)).
Proof.
  intros Hbuilt Hset.
  assert (Hb' : built m').
  { apply (built_step m); [done|]. replace m' with (snd (cog_ir_set_terminator m fid bid (Some t)))
      by by rewrite Hset. constructor. }
  revert Hset. unfold cog_ir_set_terminator, module_mutable, terminator_complete.
  destruct (is_frozen m); simpl; [by call_fails|].
  destruct (match term_as t with TermNone => true | _ => false end) eqn:Hnone.
  { destruct (term_as t); try done. by call_fails. }
  assert (Hsome : term_as t <> TermNone) by (intros He; by rewrite He in Hnone).
  destruct (cog_ir_get_function m fid) as [f|] eqn:Hf; [|by call_fails].
  destruct (cog_ir_get_block f bid) as [b|] eqn:Hb; [|by call_fails].
  destruct (is_terminated b) eqn:Hterm; [by call_fails|].
  intros [= <- <-]. split.
  - split; [intros Hc; exists f, b; split_and!; try done; by destruct (term_as t)|].
    intros (? & ? & _ & _ & _ & _ & Hc). by destruct (term_as t).
  - intros _. destruct (put_block_get m fid f f bid b (with_terminator b t)) as [Hf' Hbl'];
      [done..|]. split.
    + eexists f, b, _, _. split_and!; try done. by apply put_block_others.
    + intros m2. apply closed_block_final; [done|]. by apply set_terminator_closes.
Qed.

Lemma set_terminator_correct_witness :
  cog_ir_set_terminator (snd demo_neg) 0 0 (Some demo_br) = (true, snd demo_jump)
  /\ forall x, cog_ir_emit demo 0 0 x = ((false, COG_IR_ID_INVALID), demo).
Proof.
  assert (Hb : built (snd demo_neg)).
  { apply (built_step (snd demo_param)), step_emit. apply demo_param_built. }
  assert (H : cog_ir_set_terminator (snd demo_neg) 0 0 (Some demo_br) = (true, snd demo_jump))
    by (vm_compute; reflexivity).
  assert (Hs : rtc builder_step (snd demo_jump) demo).
  { apply rtc_l with (snd demo_return); [apply step_set_terminator|].
    apply rtc_once, step_add_function. }
  split; [exact H|].
  exact (proj2 (proj2 (proj2 (set_terminator_correct _ _ _ _ _ _ Hb H) eq_refl) demo Hs)).
Defined.

(** A switch with cases counted but no array is refused after the terminator has been
    written: the call reports failure, yet the block is terminated, by that switch, and
    can never be given another terminator. *)
Theorem set_terminator_incomplete_switch m fid bid f b t v n d :
  built m -> is_frozen m = false -> cog_ir_get_function m fid = Some f ->
  cog_ir_get_block f bid = Some b -> is_terminated b = false ->
  term_as t = TermSwitch v (NullArray n) d -> n <> 0%N ->
  exists m', cog_ir_set_terminator m fid bid (Some t) = (false, m')
    /\ closed_block m' fid bid
    /\ forall m2, rtc builder_step m' m2 ->
         forall t2, cog_ir_set_terminator m2 fid bid t2 = (false, m2).
Proof.
  intros Hb Hfr Hf Hbl Ht Has Hn.
  exists (put_block m fid f bid (with_terminator b t)).
  assert (Hset : cog_ir_set_terminator m fid bid (Some t)
                 = (false, put_block m fid f bid (with_terminator b t))).
  { unfold cog_ir_set_terminator, module_mutable. rewrite Hfr, Has, Hf, Hbl, Ht. simpl.
    by destruct (N.eqb_spec n 0). }
  assert (Hc : closed_block (put_block m fid f bid (with_terminator b t)) fid bid)
    by (apply set_terminator_closes; [by rewrite Has | done..]).
  split_and!; [done..|]. intros m2 Hs. eapply closed_block_final; [|done..].
  eapply built_step; [done|].
  change (put_block m fid f bid (with_terminator b t))
    with (snd (false, put_block m fid f bid (with_terminator b t))).
  rewrite <- Hset. constructor.
Qed.

Definition demo_bad_switch : CogIrTerminator :=
  mkTerminator source_span_invalid (TermSwitch 0 (NullArray 2) (mkEdge 1 [2%N])).

Lemma set_terminator_incomplete_switch_witness :
  exists m', cog_ir_set_terminator (snd demo_neg) 0 0 (Some demo_bad_switch) = (false, m')
    /\ closed_block m' 0 0.
Proof.
  assert (Hb : built (snd demo_neg)).
  { apply (built_step (snd demo_param)), step_emit. apply demo_param_built. }
  destruct (cog_ir_get_function (snd demo_neg) 0) as [f|] eqn:Hf; [|vm_compute in Hf; discriminate].
  destruct (cog_ir_get_block f 0) as [b|] eqn:Hbl;
    [|vm_compute in Hf; injection Hf as <-; vm_compute in Hbl; discriminate].
  assert (Ht : is_terminated b = false)
    by (vm_compute in Hf; injection Hf as <-; vm_compute in Hbl; injection Hbl as <-; reflexivity).
  destruct (set_terminator_incomplete_switch (snd demo_neg) 0 0 f b demo_bad_switch 0 2
              (mkEdge 1 [2%N]) Hb eq_refl Hf Hbl Ht eq_refl ltac:(discriminate))
    as (m' & Hm & Hc & _).
  exists m'. split; [exact Hm | exact Hc].
Defined.

(** *** Adding functions *)

(** The ABI spelling recorded for a parameter: only C function pointers keep theirs. *)
Definition parameter_abi_type (m : CogIrModule) (abis : list CogIrAbiTypeId) (i : nat)
    : CogIrAbiTypeId :=
  match abis !! i with
  | None => COG_IR_ID_INVALID
  | Some a =>
      match cog_ir_get_abi_type m a with
      | Some t => if decide (abi_kind (abi_desc t) = COG_IR_ABI_TYPE_FUNCTION) then a
                  else COG_IR_ID_INVALID
      | None => COG_IR_ID_INVALID
      end
  end.

(** The value of parameter [i]. *)
Definition parameter_entry (m : CogIrModule) (abis : list CogIrAbiTypeId) (span : SourceSpan)
    (i : nat) (ty : CogIrTypeId) : CogIrValue :=
  mkValue (N.of_nat i) ty (parameter_abi_type m abis i) COG_IR_VALUE_FUNCTION_PARAMETER
    COG_IR_ID_INVALID (N.of_nat i) span.

(** The same function but for its values and parameters. *)
Definition same_header (f f' : CogIrFunction) : Prop :=
  function_id f' = function_id f /\ function_name f' = function_name f
  /\ function_type f' = function_type f /\ function_kind f' = function_kind f
  /\ linkage f' = linkage f /\ function_abi f' = function_abi f
  /\ slots f' = slots f /\ blocks f' = blocks f /\ entry_block f' = entry_block f.

Lemma add_parameters_result m abis span tys : forall i f,
  length (items (values f)) = i ->
  Forall (type_exists (types m)) tys -> (N.of_nat (i + length tys) <= COG_IR_ID_INVALID)%N ->
  exists f', add_parameters m abis span tys i f = (true, f')
    /\ items (values f')
       = items (values f) ++ imap (fun k => parameter_entry m abis span (i + k)) tys
    /\ function_parameters f' = function_parameters f ++ (N.of_nat <$> seq i (length tys))
    /\ same_header f f'.
Proof.
  induction tys as [|ty tys IH]; intros i f Hlen Htys Hmax; cbn [add_parameters].
  { exists f. rewrite !app_nil_r. done. }
  apply Forall_cons in Htys. destruct Htys as [Hty%has_type_exists Htys]. simpl in Hmax.
  rewrite append_value_spec, Hty. simpl. unfold count. rewrite Hlen.
  destruct (N.leb_spec COG_IR_ID_INVALID (N.of_nat i)); [lia|]. simpl.
  destruct (N.eqb_spec (N.of_nat i) COG_IR_ID_INVALID); [lia|].
  set (g := with_parameters _ _).
  assert (Hg : items (values (parameter_abi m abis i (N.of_nat i) g))
               = items (values f) ++ [parameter_entry m abis span i ty]
               /\ function_parameters (parameter_abi m abis i (N.of_nat i) g)
                  = function_parameters f ++ [N.of_nat i]
               /\ same_header f (parameter_abi m abis i (N.of_nat i) g)).
  { unfold parameter_abi, parameter_entry, parameter_abi_type.
    destruct (abis !! i) as [a|]; [|by unfold g; simpl; rewrite items_push].
    destruct (cog_ir_get_abi_type m a) as [t|]; [|by unfold g; simpl; rewrite items_push].
    unfold g. simpl. rewrite items_push, Nat2N.id, list_lookup_middle by done.
    destruct (decide _); simpl; rewrite items_push; [|done].
    split_and!; try done. rewrite Nat2N.id, <- Hlen, <- (Nat.add_0_r (length _)).
    by rewrite insert_app_r. }
  destruct Hg as (Hv & Hp & Hh).
  destruct (IH (S i) (parameter_abi m abis i (N.of_nat i) g)) as (f' & Hf' & Hv' & Hp' & Hh').
  - rewrite Hv, length_app. simpl. lia.
  - done.
  - lia.
  - exists f'. rewrite Hf', Hv', Hv, Hp', Hp, <- !app_assoc. simpl. rewrite Nat.add_0_r.
    split_and!; [done | | done |].
    + do 2 f_equal. apply imap_ext. intros k ty' _. unfold compose. by rewrite Nat.add_succ_r.
    + unfold same_header in *. naive_solver congruence.
Qed.

(** The request is one [cog_ir_add_function] accepts. *)
Definition can_add_function (m : CogIrModule) (type : CogIrTypeId)
    (abi : option CogIrFunctionAbi) (ft : CogIrFunctionType) : Prop :=
  is_frozen m = false /\ (count (functions m) < COG_IR_ID_INVALID)%N
  /\ (exists t, cog_ir_get_type m type = Some t /\ type_as t = AsFunction ft)
  /\ abi_mismatch ft abi = false.

(** A function is added exactly for a mutable module with room, an existing function
    type and an ABI description that agrees with it; any other request is refused and
    changes nothing.  The function is the next one of the table; its parameters are
    the values 0, 1, ..., typed by the function type in order, C function pointers
    with their ABI spelling; it has no slot and no block.  (The bound on the number of
    parameters is that of value identifiers.) *)
Theorem add_function_correct m name span ty kind link gen abi :
  built m ->
  (forall ft, can_add_function m ty abi ft ->
     (N.of_nat (length (parameter_types ft)) <= COG_IR_ID_INVALID)%N ->
     exists m' f, cog_ir_add_function m name span ty kind link gen abi = (count (functions m), m')
       /\ cog_ir_get_function m' (count (functions m)) = Some f
       /\ items (functions m') = items (functions m) ++ [f]
       /\ function_name f = name /\ function_type f = ty /\ function_kind f = kind
       /\ linkage f = link /\ function_abi f = stored_abi ft abi
       /\ function_parameters f = N.of_nat <$> seq 0 (length (parameter_types ft))
       /\ items (values f)
          = imap (parameter_entry m (from_option (fun a => elements (parameter_abi_types a)) [] abi)
                    span) (parameter_types ft)
       /\ items (slots f) = [] /\ items (blocks f) = [] /\ entry_block f = COG_IR_ID_INVALID)
  /\ (~ (exists ft, can_add_function m ty abi ft) ->
        cog_ir_add_function m name span ty kind link gen abi = (COG_IR_ID_INVALID, m)).
Proof.
  intros Hb. unfold cog_ir_add_function, can_add_function, module_mutable. split.
  - intros ft (Hfr & Hc & (t & Ht & Has) & Hab) Hmax. rewrite Ht. simpl. rewrite Has, Hfr, Hab.
    destruct (N.leb_spec COG_IR_ID_INVALID (count (functions m))); [lia|]. simpl.
    set (f := mkFunction _ _ _ _ _ _ _ _ _ _ _ _ _).
    destruct (mod_types _ (built_ok _ Hb)) as (_ & _ & Hrefs & _).
    apply table_get_items in Ht. destruct (Hrefs _ _ Ht) as [Hr _]. rewrite Has in Hr.
    apply Forall_cons in Hr. destruct Hr as [_ Hr].
    destruct (add_parameters_result m
      (match abi with Some a => elements (parameter_abi_types a) | None => [] end) span
      (parameter_types ft) 0 f) as (f' & Hadd & Hv & Hp & Hh); [done..|].
    rewrite Hadd. unfold same_header in Hh. destruct Hh as (? & ? & ? & ? & ? & ? & Hs & Hbl & He).
    eexists _, f'. split; [reflexivity|].
    assert (Hok : table_ok (push (functions m) f')).
    { apply table_ok_push; [apply (mod_functions _ (built_ok _ Hb)) | by apply N.leb_gt]. }
    split_and!; try done.
    + unfold cog_ir_get_function. simpl. rewrite table_get_ok, items_push by done. unfold count.
      rewrite Nat2N.id. by apply list_lookup_middle.
    + simpl. by rewrite items_push.
    + by rewrite Hs.
    + by rewrite Hbl.
  - intros Hn. destruct (cog_ir_get_type m ty) as [t|] eqn:Ht; [|done]. simpl.
    destruct (type_as t) as [| | | | | | | | | |ft] eqn:Has; try done.
    destruct (is_frozen m) eqn:Hfr, (COG_IR_ID_INVALID <=? count (functions m))%N eqn:Hc,
      (abi_mismatch ft abi) eqn:Hab; try done.
    exfalso. apply Hn. exists ft. apply N.leb_gt in Hc. split_and!; [done..| |done]. by exists t.
Qed.

Lemma add_function_correct_witness :
  exists m' f, cog_ir_add_function (snd demo_cfn) "print" source_span_invalid (fst demo_cfn)
      COG_IR_FUNCTION_DECLARATION COG_IR_LINKAGE_EXTERNAL false (Some demo_print_abi) = (2%N, m')
    /\ cog_ir_get_function m' 2 = Some f /\ function_parameters f = [0%N].
Proof.
  assert (Hb : built (snd demo_cfn)).
  { apply (built_step demo), step_type_function. apply demo_built. }
  destruct (proj1 (add_function_correct (snd demo_cfn) "print" source_span_invalid (fst demo_cfn)
      COG_IR_FUNCTION_DECLARATION COG_IR_LINKAGE_EXTERNAL false (Some demo_print_abi) Hb)
      (mkFunctionType 0 [0%N] COG_IR_ABI_C COG_IR_CALL_DEFAULT false))
    as (m' & f & Hadd & Hf & _ & _ & _ & _ & _ & _ & Hp & _).
  - split; [vm_compute; reflexivity|]. split; [vm_compute; reflexivity|].
    split; [|vm_compute; reflexivity]. eexists. split; vm_compute; reflexivity.
  - vm_compute. discriminate.
  - exists m', f. split; [exact Hadd|]. split; [exact Hf | exact Hp].
Defined.
