(* ===== verification/CogIrVerify.v ===== *)
(** The CogIR verifier ([src/ir/cog_ir_verify.c]).

    A check answers whether it passed and the diagnostics it added, in order: a
    [report].  The diagnostic list is not null; formatting is left to [vsnprintf]: a
    diagnostic keeps its format string and arguments.  A terminator's and an
    instruction's payload is read through the member its kind or operation names; the
    payload of an instruction built for another operation has no such member and reads
    as the invalid identifier and the empty array. *)
From S2P Require Import Prelude Source Target CogIr CogIrBuilder.

(** ** Reports *)

Inductive fmt_arg : Set :=
| ArgN (n : N)
| ArgS (s : string).

(** A diagnostic of severity [ERROR] and phase [IR]. *)
Record IrDiagnostic : Set := mkDiagnostic {
  diag_span : SourceSpan;
  diag_format : string;
  diag_args : list fmt_arg;
}.

Definition report : Type := bool * list IrDiagnostic.

Definition passed : report := (true, []).

(** [ok = 0] without a diagnostic. *)
Definition silent_if (b : bool) : report := (negb b, []).

(** [ir_error(...)] followed by [ok = 0] or [return 0]. *)
Definition ir_error (span : SourceSpan) (format : string) (args : list fmt_arg) : report :=
  (false, [mkDiagnostic span format args]).

Definition error_if (b : bool) (span : SourceSpan) (format : string) (args : list fmt_arg)
    : report :=
  if b then ir_error span format args else passed.

(** One check after another. *)
Definition and_then (r1 r2 : report) : report := (fst r1 && fst r2, snd r1 ++ snd r2).
Infix "&&&" := and_then : coglet_scope.
#[global] Arguments and_then : simpl never.

(** A check for every element, with its index. *)
Definition check_all {A} (check : nat -> A -> report) (xs : list A) : report :=
  foldr and_then passed (imap check xs).

(** Checks that stop at the first failure. *)
Fixpoint check_until {A} (check : nat -> A -> report) (i : nat) (xs : list A) : report :=
  match xs with
  | [] => passed
  | x :: xs => let r := check i x in if fst r then r &&& check_until check (S i) xs else r
  end.

Definition num (n : nat) : fmt_arg := ArgN (N.of_nat n).

(** ** Helpers *)

Definition register_char (c : ascii) : bool :=
  ascii_in "a" "z" c || ascii_in "A" "Z" c || ascii_in "0" "9" c || Ascii.eqb c "_".

Definition asm_constraint_is_valid_for_ir (constraint : string) (is_output : bool) : bool :=
  let cs := cstr constraint in
  let offset := if is_output then 1%nat else 0%nat in
  if is_output && String.eqb constraint "=r" then true
  else if negb is_output && String.eqb constraint "r" then true
  else if (length cs <? (if is_output then 4 else 3))%nat then false
  else if is_output && negb (bool_decide (cs !! 0%nat = Some "="%char)) then false
  else if negb (bool_decide (cs !! offset = Some "{"%char))
          || negb (bool_decide (cs !! (length cs - 1)%nat = Some "}"%char)) then false
  else if (length cs <=? offset + 2)%nat then false
  else forallb register_char (take (length cs - 1 - (offset + 1)) (drop (offset + 1) cs)).

Definition valid_span (m : CogIrModule) (span : SourceSpan) : bool :=
  if negb (source_span_is_valid span) then file_id span =? SOURCE_FILE_ID_INVALID
  else match source_manager_get (Some (sources m)) (file_id span) with
       | None => false
       | Some file =>
           (start_offset span <=? end_offset span) && (end_offset span <=? sf_length file)
       end.

Definition optional_abi_matches_runtime (m : CogIrModule) (abi : CogIrAbiTypeId)
    (runtime : CogIrTypeId) : bool :=
  if (abi =? COG_IR_ID_INVALID)%N then true else abi_of_runtime m abi runtime.

Definition is_integer_type (m : CogIrModule) (id : CogIrTypeId) : bool :=
  type_has_kind m id COG_IR_TYPE_INTEGER.

Definition is_float_type (m : CogIrModule) (id : CogIrTypeId) : bool :=
  type_has_kind m id COG_IR_TYPE_FLOAT.

Definition is_pointer_comparable_type (m : CogIrModule) (id : CogIrTypeId) : bool :=
  type_has_kind m id COG_IR_TYPE_POINTER || type_has_kind m id COG_IR_TYPE_OPAQUE_POINTER
  || type_has_kind m id COG_IR_TYPE_FUNCTION.

(** [*out], [*readonly] and [*volatile_access]. *)
Definition pointer_pointee (m : CogIrModule) (id : CogIrTypeId)
    : option (CogIrTypeId * bool * bool) :=
  match (t ← cog_ir_get_type m id; Some (type_as t)) with
  | Some (AsPointer pointee ro vol) => Some (pointee, ro, vol)
  | _ => None
  end.

Definition integer_width (m : CogIrModule) (id : CogIrTypeId) : N :=
  match (t ← cog_ir_get_type m id; Some (type_as t)) with
  | Some (AsInteger bits _) => bits
  | Some (AsEnum e) =>
      match (t ← cog_ir_get_type m (backing_type e); Some (type_as t)) with
      | Some (AsInteger bits _) => bits
      | _ => 0%N
      end
  | _ => 0%N
  end.

Definition is_native_c_int_type (m : CogIrModule) (t : CogIrType) : bool :=
  match type_as t with
  | AsInteger bits s => (Z.of_N bits =? c_int_bits (module_target m)) && s
  | _ => false
  end.

Definition c_vararg_promotion_valid (m : CogIrModule) (source target : option CogIrType)
    : bool :=
  match source, target with
  | Some source, Some target =>
      if (type_id source =? type_id target)%N then false
      else match type_as source with
      | AsBool => is_native_c_int_type m target
      | AsFloat bits =>
          (bits =? 32)%N
          && match type_as target with AsFloat bits => (bits =? 64)%N | _ => false end
      | _ =>
          let integer :=
            match type_as source with
            | AsEnum e => if enum_repr_c e then cog_ir_get_type m (backing_type e) else None
            | _ => Some source
            end in
          match (t ← integer; Some (type_as t)) with
          | Some (AsInteger bits _) =>
              (Z.of_N bits <? c_int_bits (module_target m)) && is_native_c_int_type m target
          | _ => false
          end
      end
  | _, _ => false
  end.

Definition c_vararg_argument_type_is_legal (m : CogIrModule) (id : CogIrTypeId) : bool :=
  match (t ← cog_ir_get_type m id; Some (type_as t)) with
  | None => false
  | Some (AsInteger bits _) => c_int_bits (module_target m) <=? Z.of_N bits
  | Some (AsFloat bits) => (bits =? 64)%N
  | Some (AsPointer _ _ _) | Some (AsOpaquePointer _ _) => true
  | Some (AsEnum e) =>
      enum_repr_c e
      && match (t ← cog_ir_get_type m (backing_type e); Some (type_as t)) with
         | Some (AsInteger bits _) => c_int_bits (module_target m) <=? Z.of_N bits
         | _ => false
         end
  | Some (AsFunction ft) => bool_decide (ft_abi ft = COG_IR_ABI_C)
  | Some AsVoid | Some AsBool | Some (AsArray _ _) | Some (AsStruct _) | Some (AsUnion _) =>
      false
  end.

Definition type_has_runtime_object_layout (t : option CogIrType) : bool :=
  match (t ← t; Some (type_as t)) with
  | None => false
  | Some AsVoid => false
  | Some (AsFunction ft) => bool_decide (ft_abi ft = COG_IR_ABI_C)
  | Some (AsStruct a) | Some (AsUnion a) => is_complete a && negb (is_incomplete a)
  | Some AsBool | Some (AsInteger _ _) | Some (AsFloat _) | Some (AsPointer _ _ _)
  | Some (AsOpaquePointer _ _) | Some (AsArray _ _) | Some (AsEnum _) => true
  end.

(** ** Constants *)

(** [!element || element->type != type] *)
Definition constant_not_of_type (m : CogIrModule) (id : CogIrConstId) (type : CogIrTypeId)
    : bool :=
  match cog_ir_get_constant m id with
  | Some c => negb (const_type c =? type)%N
  | None => true
  end.

Definition constant_matches_type (m : CogIrModule) (c : CogIrConstant) : report :=
  match cog_ir_get_type m (const_type c) with
  | None => ir_error source_span_invalid "constant @c%u has invalid type" [ArgN (const_id c)]
  | Some t =>
      let span := type_span t in
      let id := ArgN (const_id c) in
      match const_as c with
      | ConstZero =>
          error_if (bool_decide (type_kind t = COG_IR_TYPE_VOID)) span
            "zero constant @c%u has non-storable type" [id]
      | ConstBool _ =>
          error_if (negb (bool_decide (type_kind t = COG_IR_TYPE_BOOL))) span
            "bool constant @c%u does not have bool type" [id]
      | ConstInteger value =>
          let bits := integer_width m (const_type c) in
          if (bits =? 0)%N then
            ir_error span "integer constant @c%u does not have integer/enum type" [id]
          else
            error_if ((bits <? 64)%N && negb (N.shiftr value bits =? 0)%N) span
              "integer constant @c%u has bits outside its %u-bit type" [id; ArgN bits]
      | ConstFloat32 _ =>
          error_if (negb (is_float_of_width m (const_type c) 32)) span
            "f32 constant @c%u has wrong type" [id]
      | ConstFloat64 _ =>
          error_if (negb (is_float_of_width m (const_type c) 64)) span
            "f64 constant @c%u has wrong type" [id]
      | ConstNull =>
          error_if (negb (is_pointer_comparable_type m (const_type c))) span
            "null constant @c%u has non-nullable type" [id]
      | ConstArray es =>
          match type_as t with
          | AsArray element n =>
              if negb (N.of_nat (length es) =? n)%N then
                ir_error span "array constant @c%u has wrong element count/type" [id]
              else check_until (fun i e =>
                     error_if (constant_not_of_type m e element) span
                       "array constant @c%u element %zu has wrong type" [id; num i]) 0 es
          | _ => ir_error span "array constant @c%u has wrong element count/type" [id]
          end
      | ConstStruct es =>
          match type_as t with
          | AsStruct a =>
              if negb (is_complete a) || negb (length es =? length (agg_fields a))%nat then
                ir_error span "struct constant @c%u has wrong field count/type" [id]
              else check_until (fun i p =>
                     error_if (constant_not_of_type m (fst p) (field_type (snd p))) span
                       "struct constant @c%u field %zu has wrong type" [id; num i])
                     0 (zip es (agg_fields a))
          | _ => ir_error span "struct constant @c%u has wrong field count/type" [id]
          end
      end
  end.

(** ** Values *)

Definition value_available (f : CogIrFunction) (block : CogIrBlockId) (instruction_ordinal : N)
    (id : CogIrValueId) : bool :=
  match cog_ir_get_value f id with
  | None => false
  | Some v =>
      match value_kind v with
      | COG_IR_VALUE_FUNCTION_PARAMETER => true
      | COG_IR_VALUE_BLOCK_PARAMETER => (value_block v =? block)%N
      | COG_IR_VALUE_INSTRUCTION =>
          if negb (value_block v =? block)%N || (instruction_ordinal <=? ordinal v)%N
          then false
          else match items (blocks f) !! N.to_nat (value_block v) with
               | None => false
               | Some producer_block =>
                   match items (instructions producer_block) !! N.to_nat (ordinal v) with
                   | None => false
                   | Some i => negb (result_is_discarded i)
                   end
               end
      end
  end.

(** The ordinal is [(size_t)-1]. *)
Definition terminator_value_available (f : CogIrFunction) (block : CogIrBlockId)
    (id : CogIrValueId) : bool :=
  value_available f block 18446744073709551615 id.

(** The type of a value: [NULL] values have none. *)
Definition type_of_value (f : CogIrFunction) (id : CogIrValueId) : option CogIrTypeId :=
  value_type <$> cog_ir_get_value f id.

Definition verify_edge (f : CogIrFunction) (from : CogIrBlockId) (e : CogIrBranchEdge)
    (span : SourceSpan) : report :=
  match cog_ir_get_block f (target e) with
  | None =>
      ir_error span "branch from block %u targets invalid block %u" [ArgN from; ArgN (target e)]
  | Some b =>
      let ps := items (block_parameters b) in
      if negb (length (arguments e) =? length ps)%nat then
        ir_error span "branch to block %u passes %zu arguments; expected %zu"
          [ArgN (target e); num (length (arguments e)); num (length ps)]
      else check_until (fun i p =>
             error_if (negb (terminator_value_available f from (fst p))
                       || negb (bool_decide (type_of_value f (fst p)
                                             = Some (param_type (snd p)))))
               span "branch argument %zu to block %u is invalid or has wrong type"
               [num i; ArgN (target e)])
             0 (zip (arguments e) ps)
  end.

(** ** Instructions *)

(** [instruction->as.<member>] *)
Definition as_constant (x : CogIrInstruction) : CogIrConstId :=
  match insn_as x with AsConstant c => c | _ => COG_IR_ID_INVALID end.
Definition as_function_ref (x : CogIrInstruction) : CogIrFunctionId :=
  match insn_as x with AsFunctionRef f => f | _ => COG_IR_ID_INVALID end.
Definition as_local_addr (x : CogIrInstruction) : CogIrSlotId :=
  match insn_as x with AsLocalAddr s => s | _ => COG_IR_ID_INVALID end.
Definition as_global_addr (x : CogIrInstruction) : CogIrGlobalId :=
  match insn_as x with AsGlobalAddr g => g | _ => COG_IR_ID_INVALID end.
Definition as_field_addr (x : CogIrInstruction) : CogIrValueId * N :=
  match insn_as x with AsFieldAddr b i => (b, i) | _ => (COG_IR_ID_INVALID, COG_IR_ID_INVALID) end.
Definition as_index_addr (x : CogIrInstruction) : CogIrValueId * CogIrValueId :=
  match insn_as x with AsIndexAddr b i => (b, i) | _ => (COG_IR_ID_INVALID, COG_IR_ID_INVALID) end.
Definition as_load (x : CogIrInstruction) : CogIrValueId * bool :=
  match insn_as x with AsLoad a v => (a, v) | _ => (COG_IR_ID_INVALID, false) end.
Definition as_store (x : CogIrInstruction) : CogIrValueId * CogIrValueId * bool :=
  match insn_as x with
  | AsStore a v vol => (a, v, vol)
  | _ => (COG_IR_ID_INVALID, COG_IR_ID_INVALID, false)
  end.
Definition as_binary (x : CogIrInstruction) : CogIrValueId * CogIrValueId :=
  match insn_as x with AsBinary l r => (l, r) | _ => (COG_IR_ID_INVALID, COG_IR_ID_INVALID) end.
Definition as_unary (x : CogIrInstruction) : CogIrValueId :=
  match insn_as x with AsUnary v => v | _ => COG_IR_ID_INVALID end.
Definition as_conversion (x : CogIrInstruction) : CogIrValueId * CogIrTypeId :=
  match insn_as x with
  | AsConversion v t => (v, t)
  | _ => (COG_IR_ID_INVALID, COG_IR_ID_INVALID)
  end.
Definition as_type_query (x : CogIrInstruction) : CogIrTypeId :=
  match insn_as x with AsTypeQuery t => t | _ => COG_IR_ID_INVALID end.
Definition as_extract (x : CogIrInstruction) : CogIrValueId * N :=
  match insn_as x with AsExtract a i => (a, i) | _ => (COG_IR_ID_INVALID, COG_IR_ID_INVALID) end.
Definition as_aggregate (x : CogIrInstruction) : list CogIrValueId :=
  match insn_as x with AsAggregate vs => vs | _ => [] end.
Definition as_asm (x : CogIrInstruction) : string * list (string * CogIrValueId) :=
  match insn_as x with AsAsm _ out ins _ => (out, ins) | _ => (""%string, []) end.
Definition as_call (x : CogIrInstruction) : CogIrValueId * list CogIrValueId :=
  match insn_as x with AsCall c args => (c, args) | _ => (COG_IR_ID_INVALID, []) end.

(** The member of [as] the type of a value or identifier has. *)
Definition type_as_of (m : CogIrModule) (id : CogIrTypeId) : option TypeAs :=
  t ← cog_ir_get_type m id; Some (type_as t).

Section VerifyInstruction.
Context (m : CogIrModule) (f : CogIrFunction) (block : CogIrBlockId) (ord : nat)
  (x : CogIrInstruction).

Local Abbreviation rtype := (insn_result_type x).
Local Abbreviation span := (insn_span x).
Local Abbreviation opname := (ArgS (cog_ir_op_name (op x))).

(** The type of an operand, and its kind and contents. *)
Definition operand_type (v : CogIrValueId) : option CogIrTypeId := type_of_value f v.
Definition operand_as (v : CogIrValueId) : option TypeAs :=
  t ← operand_type v; type_as_of m t.

(** [REQUIRE_VALUE] *)
Definition REQUIRE_VALUE (v : CogIrValueId) (label : string) : report :=
  error_if (negb (value_available f block (N.of_nat ord) v)) span
    "%s operand of %s in block %u is not available" [ArgS label; opname; ArgN block].

Definition require_binary : report :=
  REQUIRE_VALUE (fst (as_binary x)) "left" &&& REQUIRE_VALUE (snd (as_binary x)) "right".

(** Both operands exist and have the same type. *)
Definition same_operand_types : bool :=
  match operand_type (fst (as_binary x)), operand_type (snd (as_binary x)) with
  | Some l, Some r => (l =? r)%N
  | _, _ => false
  end.

(** The left operand exists and has the result type. *)
Definition operand_is_result (v : CogIrValueId) : bool :=
  bool_decide (operand_type v = Some rtype).

Definition is_kind (v : CogIrValueId) (k : CogIrTypeKind) : bool :=
  match operand_type v with Some t => type_has_kind m t k | None => false end.

Definition result_is_bool : bool := type_has_kind m rtype COG_IR_TYPE_BOOL.

Definition verify_result : report :=
  error_if (negb (valid_span m span)) source_span_invalid
    "instruction %zu in block %u has invalid source span" [num ord; ArgN block]
  &&& (if (rtype =? COG_IR_ID_INVALID)%N then
         error_if (negb (insn_result x =? COG_IR_ID_INVALID)%N) span
           "void instruction %zu in block %u has a result value" [num ord; ArgN block]
         &&& error_if (result_is_discarded x) span
           "void instruction %zu in block %u cannot discard a result" [num ord; ArgN block]
       else
         error_if (negb match cog_ir_get_value f (insn_result x) with
                        | Some r => (value_type r =? rtype)%N
                                    && bool_decide (value_kind r = COG_IR_VALUE_INSTRUCTION)
                                    && (value_block r =? block)%N
                                    && (ordinal r =? N.of_nat ord)%N
                        | None => false
                        end) span
           "instruction %zu in block %u has inconsistent result metadata"
           [num ord; ArgN block]).

Definition verify_const : report :=
  error_if (match cog_ir_get_constant m (as_constant x) with
            | Some c => (rtype =? COG_IR_ID_INVALID)%N || negb (const_type c =? rtype)%N
            | None => true
            end) span "const instruction has invalid constant/result type" [].

Definition verify_function_ref : report :=
  error_if (match cog_ir_get_function m (as_function_ref x) with
            | Some g => negb (rtype =? function_type g)%N
            | None => true
            end) span "function_ref has invalid function/result type" [].

Definition verify_type_query : report :=
  error_if (negb (type_has_runtime_object_layout (cog_ir_get_type m (as_type_query x))
                  && match type_as_of m rtype with
                     | Some (AsInteger bits s) =>
                         (Z.of_N bits =? pointer_bits (module_target m)) && negb s
                     | _ => false
                     end)) span
    "type-layout query requires a layout-capable queried type and usize-width unsigned result"
    [].

Definition verify_local_addr : report :=
  error_if (negb match cog_ir_get_slot f (as_local_addr x), pointer_pointee m rtype with
                 | Some slot, Some (pointee, readonly, _) =>
                     negb readonly && (pointee =? slot_type slot)%N
                 | _, _ => false
                 end) span "local_addr has invalid slot/result pointer type" [].

Definition verify_global_addr : report :=
  error_if (negb match cog_ir_get_global m (as_global_addr x), pointer_pointee m rtype with
                 | Some g, Some (pointee, readonly, _) =>
                     (pointee =? global_type g)%N && Bool.eqb readonly (global_is_readonly g)
                 | _, _ => false
                 end) span "global_addr has invalid global/result pointer type" [].

(** [pointer_pointee] of the type of an address operand. *)
Definition operand_pointee (v : CogIrValueId) : option (CogIrTypeId * bool * bool) :=
  t ← operand_type v; pointer_pointee m t.

Definition verify_load : report :=
  let '(address, is_vol) := as_load x in
  REQUIRE_VALUE address "address"
  &&& error_if (negb match operand_pointee address with
                     | Some (pointee, _, ptr_volatile) =>
                         (pointee =? rtype)%N && negb (ptr_volatile && negb is_vol)
                     | None => false
                     end) span
        "load has invalid pointer/result or loses volatile semantics" [].

Definition verify_store : report :=
  let '(address, value, is_vol) := as_store x in
  REQUIRE_VALUE address "address" &&& REQUIRE_VALUE value "value"
  &&& error_if (negb ((rtype =? COG_IR_ID_INVALID)%N
                      && match operand_pointee address, operand_type value with
                         | Some (pointee, readonly, ptr_volatile), Some vt =>
                             negb readonly && (pointee =? vt)%N
                             && negb (ptr_volatile && negb is_vol)
                         | _, _ => false
                         end)) span
        "store has invalid address/value, readonly target, or loses volatile semantics" [].

Definition verify_integer_binary : report :=
  require_binary
  &&& error_if (negb (is_kind (fst (as_binary x)) COG_IR_TYPE_INTEGER && same_operand_types
                      && operand_is_result (fst (as_binary x)))) span
        "%s requires matching integer operands/result" [opname].

Definition verify_shift : report :=
  require_binary
  &&& match operand_as (fst (as_binary x)) with
      | Some (AsInteger _ s) =>
          if is_kind (snd (as_binary x)) COG_IR_TYPE_INTEGER
             && operand_is_result (fst (as_binary x))
          then
            error_if (bool_decide (op x = COG_IR_OP_SHR_SIGNED_CHECKED_COUNT) && negb s) span
              "signed right shift requires signed left operand" []
            &&& error_if (bool_decide (op x = COG_IR_OP_SHR_UNSIGNED_CHECKED_COUNT) && s) span
                  "unsigned right shift requires unsigned left operand" []
          else ir_error span
                 "%s requires integer operands and a result matching the left operand" [opname]
      | _ => ir_error span
               "%s requires integer operands and a result matching the left operand" [opname]
      end.

Definition verify_integer_unary : report :=
  REQUIRE_VALUE (as_unary x) "operand"
  &&& error_if (negb (is_kind (as_unary x) COG_IR_TYPE_INTEGER && operand_is_result (as_unary x)))
        span "%s requires matching integer operand/result" [opname].

Definition verify_float_binary : report :=
  require_binary
  &&& error_if (negb (is_kind (fst (as_binary x)) COG_IR_TYPE_FLOAT && same_operand_types
                      && operand_is_result (fst (as_binary x)))) span
        "%s requires matching float operands/result" [opname].

Definition verify_fneg : report :=
  REQUIRE_VALUE (as_unary x) "operand"
  &&& error_if (negb (is_kind (as_unary x) COG_IR_TYPE_FLOAT && operand_is_result (as_unary x)))
        span "fneg requires matching float operand/result" [].

(** Between two enumerators of [CogIrOp]. *)
Definition op_between (lo hi : CogIrOp) : bool :=
  (op_index lo <=? op_index (op x))%nat && (op_index (op x) <=? op_index hi)%nat.

Definition verify_icmp : report :=
  let lhs := fst (as_binary x) in
  require_binary
  &&& error_if (negb (same_operand_types
                      && (is_kind lhs COG_IR_TYPE_INTEGER || is_kind lhs COG_IR_TYPE_ENUM
                          || is_kind lhs COG_IR_TYPE_BOOL)
                      && result_is_bool)) span
        "%s has invalid comparison operand/result types" [opname]
  &&& match operand_as lhs with
      | Some (AsInteger _ s) =>
          error_if (op_between COG_IR_OP_ICMP_SLT COG_IR_OP_ICMP_SGE && negb s
                    || op_between COG_IR_OP_ICMP_ULT COG_IR_OP_ICMP_UGE && s) span
            "integer comparison signedness does not match operand type" []
      | _ => passed
      end.

Definition verify_fcmp : report :=
  require_binary
  &&& error_if (negb (is_kind (fst (as_binary x)) COG_IR_TYPE_FLOAT && same_operand_types
                      && result_is_bool)) span
        "%s has invalid float comparison types" [opname].

Definition verify_ptr_compare : report :=
  require_binary
  &&& error_if (negb (same_operand_types
                      && match operand_type (fst (as_binary x)) with
                         | Some t => is_pointer_comparable_type m t
                         | None => false
                         end
                      && result_is_bool)) span
        "%s has invalid pointer comparison types" [opname].

Definition verify_bool_not : report :=
  REQUIRE_VALUE (as_unary x) "operand"
  &&& error_if (negb (is_kind (as_unary x) COG_IR_TYPE_BOOL && operand_is_result (as_unary x)))
        span "bool.not requires bool operand/result" [].

Definition only_adds (source target : bool) : bool := negb source || target.

Definition verify_ptr_qualify : report :=
  let '(operand, to) := as_conversion x in
  REQUIRE_VALUE operand "operand"
  &&& error_if (negb ((to =? rtype)%N
                      && match operand_as operand, type_as_of m to with
                         | Some (AsPointer p ro vol), Some (AsPointer p' ro' vol') =>
                             (p =? p')%N && only_adds ro ro' && only_adds vol vol'
                         | Some (AsOpaquePointer ro vol), Some (AsOpaquePointer ro' vol') =>
                             only_adds ro ro' && only_adds vol vol'
                         | _, _ => false
                         end)) span
        "ptr.qualify must preserve pointer identity and may only add qualifiers" [].

Definition is_numeric (a : TypeAs) : bool :=
  match a with AsInteger _ _ | AsFloat _ => true | _ => false end.

Definition verify_cast_checked : report :=
  let '(operand, to) := as_conversion x in
  REQUIRE_VALUE operand "operand"
  &&& error_if (negb ((to =? rtype)%N
                      && match operand_as operand, type_as_of m rtype with
                         | Some source, Some tgt =>
                             operand_is_result operand
                             || is_numeric source && is_numeric tgt
                             || match source, tgt with
                                | AsEnum _, AsInteger _ _ => true
                                | _, _ => false
                                end
                         | _, _ => false
                         end)) span
        "cast.checked has invalid source/target types" [].

Definition verify_int_truncate : report :=
  let '(operand, to) := as_conversion x in
  REQUIRE_VALUE operand "operand"
  &&& error_if (negb (is_kind operand COG_IR_TYPE_INTEGER
                      && type_has_kind m rtype COG_IR_TYPE_INTEGER && (to =? rtype)%N)) span
        "int.truncate requires integer source and target types" [].

Definition verify_ptr_reinterpret : report :=
  let '(operand, to) := as_conversion x in
  REQUIRE_VALUE operand "operand"
  &&& error_if (negb ((to =? rtype)%N
                      && match operand_as operand, type_as_of m rtype with
                         | Some (AsPointer _ ro vol), Some (AsOpaquePointer ro' vol')
                         | Some (AsOpaquePointer ro vol), Some (AsPointer _ ro' vol') =>
                             only_adds ro ro' && only_adds vol vol'
                         | _, _ => false
                         end)) span
        "ptr.reinterpret must cross typed/opaque raw pointers without discarding qualifiers"
        [].

Definition verify_c_vararg_promote : report :=
  let '(operand, to) := as_conversion x in
  REQUIRE_VALUE operand "operand"
  &&& error_if (negb ((to =? rtype)%N
                      && c_vararg_promotion_valid m
                           (t ← operand_type operand; cog_ir_get_type m t)
                           (cog_ir_get_type m rtype))) span
        "c.vararg.promote does not match a required C default argument promotion" [].

(** One input of an [asm]: its constraint, type and availability. *)
Definition asm_input_ok (is_read_write : bool) (i : nat) (input : string * CogIrValueId)
    : bool :=
  is_kind (snd input) COG_IR_TYPE_INTEGER && operand_is_result (snd input)
  && (is_read_write && (i =? 0)%nat && String.eqb (fst input) "+r"
      || asm_constraint_is_valid_for_ir (fst input) false).

Definition verify_asm : report :=
  let '(output_constraint, inputs) := as_asm x in
  let is_read_write := String.eqb output_constraint "+r" in
  check_all (fun _ input => REQUIRE_VALUE (snd input) "asm input") inputs
  &&& error_if (negb ((is_read_write || asm_constraint_is_valid_for_ir output_constraint true)
                      && type_has_kind m rtype COG_IR_TYPE_INTEGER
                      && negb (is_read_write && (length inputs =? 0)%nat)
                      && forallb (fun p => asm_input_ok is_read_write (fst p) (snd p))
                           (imap pair inputs))) span
        "invalid inline asm operand types or constraints" [].

Definition callee_abi_ok (callee : CogIrValueId) : bool :=
  match cog_ir_get_value f callee with
  | None => false
  | Some c =>
      match cog_ir_get_abi_type m (value_abi_type c) with
      | Some a => bool_decide (abi_kind (abi_desc a) = COG_IR_ABI_TYPE_FUNCTION)
                  && (runtime_type (abi_desc a) =? value_type c)%N
      | None => false
      end
  end.

Definition verify_call_argument (ft : CogIrFunctionType) (i : nat) (argument : CogIrValueId)
    : report :=
  REQUIRE_VALUE argument "call argument"
  &&& match parameter_types ft !! i with
      | Some parameter =>
          error_if (negb (bool_decide (operand_type argument = Some parameter))) span
            "call argument %zu has wrong type" [num i]
      | None =>
          error_if (is_variadic ft && bool_decide (ft_abi ft = COG_IR_ABI_C)
                    && negb match operand_type argument with
                            | Some t => c_vararg_argument_type_is_legal m t
                            | None => false
                            end) span
            "C variadic call argument %zu is not default-promoted or ABI-legal" [num i]
      end.

Definition verify_call_result (ft : CogIrFunctionType) : report :=
  match cog_ir_get_type m (result_type ft) with
  | None => silent_if true
  | Some return_type =>
      if bool_decide (type_kind return_type = COG_IR_TYPE_VOID) then
        error_if (negb (rtype =? COG_IR_ID_INVALID)%N) span
          "void call unexpectedly has a result" []
      else
        error_if (negb (rtype =? result_type ft)%N) span
          "call result type does not match function result" []
  end.

Definition verify_call : report :=
  let '(callee, args) := as_call x in
  REQUIRE_VALUE callee "callee"
  &&& match operand_as callee with
      | Some (AsFunction ft) =>
          let n := length (parameter_types ft) in
          error_if (bool_decide (ft_abi ft = COG_IR_ABI_C) && negb (callee_abi_ok callee)) span
            "C call callee is missing exact function-pointer ABI metadata" []
          &&& error_if ((length args <? n)%nat
                        || negb (is_variadic ft) && negb (length args =? n)%nat) span
                "call argument count does not match function signature" []
          &&& check_all (verify_call_argument ft) args
          &&& verify_call_result ft
      | _ => ir_error span "call callee is not a function value" []
      end.

Definition verify_field_addr : report :=
  let '(base, index) := as_field_addr x in
  REQUIRE_VALUE base "base"
  &&& error_if (negb match operand_pointee base with
                     | Some (aggregate_id, base_ro, base_vol) =>
                         match type_as_of m aggregate_id, pointer_pointee m rtype with
                         | Some (AsStruct a), Some (pointee, ro, vol)
                         | Some (AsUnion a), Some (pointee, ro, vol) =>
                             match agg_fields a !! N.to_nat index with
                             | Some fld =>
                                 (pointee =? field_type fld)%N && Bool.eqb ro base_ro
                                 && Bool.eqb vol base_vol
                             | None => false
                             end
                         | _, _ => false
                         end
                     | None => false
                     end) span
        "field_addr has invalid aggregate field or access qualifiers" [].

Definition verify_array_elem_addr : report :=
  let '(base, index) := as_index_addr x in
  REQUIRE_VALUE base "base" &&& REQUIRE_VALUE index "index"
  &&& error_if (negb match operand_pointee base with
                     | Some (array_id, base_ro, base_vol) =>
                         match type_as_of m array_id, pointer_pointee m rtype with
                         | Some (AsArray element _), Some (pointee, ro, vol) =>
                             is_kind index COG_IR_TYPE_INTEGER && (pointee =? element)%N
                             && Bool.eqb ro base_ro && Bool.eqb vol base_vol
                         | _, _ => false
                         end
                     | None => false
                     end) span
        "array_elem_addr has invalid array base/index/result type" [].

Definition verify_ptr_index_addr : report :=
  let '(base, index) := as_index_addr x in
  REQUIRE_VALUE base "base" &&& REQUIRE_VALUE index "index"
  &&& error_if (negb (is_kind index COG_IR_TYPE_INTEGER && operand_is_result base
                      && is_kind base COG_IR_TYPE_POINTER)) span
        "ptr_index_addr requires typed pointer base, integer index, and matching result pointer"
        [].

Definition verify_make_struct : report :=
  match type_as_of m rtype with
  | Some (AsStruct a) =>
      if negb (is_complete a) || negb (length (as_aggregate x) =? length (agg_fields a))%nat
      then ir_error span "make_struct has invalid result type or field count" []
      else check_all (fun i p =>
             REQUIRE_VALUE (fst p) "field"
             &&& error_if (negb (bool_decide (operand_type (fst p) = Some (field_type (snd p)))))
                   span "make_struct field %zu has wrong type" [num i])
             (zip (as_aggregate x) (agg_fields a))
  | _ => ir_error span "make_struct has invalid result type or field count" []
  end.

Definition verify_make_array : report :=
  match type_as_of m rtype with
  | Some (AsArray element n) =>
      if negb (N.of_nat (length (as_aggregate x)) =? n)%N
      then ir_error span "make_array has invalid result type or element count" []
      else check_all (fun i v =>
             REQUIRE_VALUE v "element"
             &&& error_if (negb (bool_decide (operand_type v = Some element))) span
                   "make_array element %zu has wrong type" [num i])
             (as_aggregate x)
  | _ => ir_error span "make_array has invalid result type or element count" []
  end.

Definition verify_extract_field : report :=
  let '(agg, index) := as_extract x in
  REQUIRE_VALUE agg "aggregate"
  &&& error_if (negb match operand_as agg with
                     | Some (AsStruct a) | Some (AsUnion a) =>
                         match agg_fields a !! N.to_nat index with
                         | Some fld => (rtype =? field_type fld)%N
                         | None => false
                         end
                     | _ => false
                     end) span
        "extract_field has invalid aggregate/index/result type" [].

Definition verify_extract_element : report :=
  let '(agg, index) := as_extract x in
  REQUIRE_VALUE agg "aggregate"
  &&& error_if (negb match operand_as agg with
                     | Some (AsArray element n) => (index <? n)%N && (rtype =? element)%N
                     | _ => false
                     end) span
        "extract_element has invalid array/index/result type" [].

Definition verify_op : report :=
  match op x with
  | COG_IR_OP_CONST => verify_const
  | COG_IR_OP_FUNCTION_REF => verify_function_ref
  | COG_IR_OP_SIZE_OF | COG_IR_OP_ALIGN_OF => verify_type_query
  | COG_IR_OP_LOCAL_ADDR => verify_local_addr
  | COG_IR_OP_GLOBAL_ADDR => verify_global_addr
  | COG_IR_OP_LOAD => verify_load
  | COG_IR_OP_STORE => verify_store
  | COG_IR_OP_IADD_CHECKED | COG_IR_OP_ISUB_CHECKED | COG_IR_OP_IMUL_CHECKED
  | COG_IR_OP_IDIV_CHECKED | COG_IR_OP_IREM_CHECKED
  | COG_IR_OP_IADD_WRAP | COG_IR_OP_ISUB_WRAP | COG_IR_OP_IMUL_WRAP
  | COG_IR_OP_BIT_AND | COG_IR_OP_BIT_OR | COG_IR_OP_BIT_XOR => verify_integer_binary
  | COG_IR_OP_SHL_CHECKED_COUNT | COG_IR_OP_SHR_SIGNED_CHECKED_COUNT
  | COG_IR_OP_SHR_UNSIGNED_CHECKED_COUNT => verify_shift
  | COG_IR_OP_INEG_CHECKED | COG_IR_OP_INEG_WRAP | COG_IR_OP_BIT_NOT => verify_integer_unary
  | COG_IR_OP_FADD | COG_IR_OP_FSUB | COG_IR_OP_FMUL | COG_IR_OP_FDIV => verify_float_binary
  | COG_IR_OP_FNEG => verify_fneg
  | COG_IR_OP_ICMP_EQ | COG_IR_OP_ICMP_NE
  | COG_IR_OP_ICMP_SLT | COG_IR_OP_ICMP_SLE | COG_IR_OP_ICMP_SGT | COG_IR_OP_ICMP_SGE
  | COG_IR_OP_ICMP_ULT | COG_IR_OP_ICMP_ULE | COG_IR_OP_ICMP_UGT | COG_IR_OP_ICMP_UGE =>
      verify_icmp
  | COG_IR_OP_FCMP_EQ | COG_IR_OP_FCMP_NE | COG_IR_OP_FCMP_LT | COG_IR_OP_FCMP_LE
  | COG_IR_OP_FCMP_GT | COG_IR_OP_FCMP_GE => verify_fcmp
  | COG_IR_OP_PTR_EQ | COG_IR_OP_PTR_NE => verify_ptr_compare
  | COG_IR_OP_BOOL_NOT => verify_bool_not
  | COG_IR_OP_PTR_QUALIFY => verify_ptr_qualify
  | COG_IR_OP_CAST_CHECKED => verify_cast_checked
  | COG_IR_OP_INT_TRUNCATE => verify_int_truncate
  | COG_IR_OP_PTR_REINTERPRET => verify_ptr_reinterpret
  | COG_IR_OP_C_VARARG_PROMOTE => verify_c_vararg_promote
  | COG_IR_OP_ASM => verify_asm
  | COG_IR_OP_CALL => verify_call
  | COG_IR_OP_FIELD_ADDR => verify_field_addr
  | COG_IR_OP_ARRAY_ELEM_ADDR => verify_array_elem_addr
  | COG_IR_OP_PTR_INDEX_ADDR => verify_ptr_index_addr
  | COG_IR_OP_MAKE_STRUCT => verify_make_struct
  | COG_IR_OP_MAKE_ARRAY => verify_make_array
  | COG_IR_OP_EXTRACT_FIELD => verify_extract_field
  | COG_IR_OP_EXTRACT_ELEMENT => verify_extract_element
  end.

Definition verify_instruction : report := verify_result &&& verify_op.
End VerifyInstruction.

(** ** Functions *)

(** Names an inductive value takes in a format. *)
Definition value_has_kind (m : CogIrModule) (f : CogIrFunction) (id : CogIrValueId)
    (k : CogIrTypeKind) : bool :=
  match type_of_value f id with Some t => type_has_kind m t k | None => false end.

Section VerifyFunction.
Context (m : CogIrModule) (f : CogIrFunction) (ft : CogIrFunctionType).

Local Abbreviation fid := (ArgN (function_id f)).

Definition verify_signature : report :=
  error_if (negb (valid_span m (function_span f))) source_span_invalid
    "function @f%u has invalid source span" [fid]
  &&& error_if (negb (bool_decide (fa_abi (function_abi f) = ft_abi ft)
                      && bool_decide (fa_calling_convention (function_abi f)
                                      = calling_convention ft)
                      && Bool.eqb (fa_is_variadic (function_abi f)) (is_variadic ft)
                      && (length (function_parameters f) =? length (parameter_types ft))%nat))
        (function_span f)
        "function @f%u ABI/signature metadata disagrees with its function type" [fid]
  &&& error_if (bool_decide (linkage f = COG_IR_LINKAGE_EXTERNAL)
                && negb (bool_decide (function_kind f = COG_IR_FUNCTION_DECLARATION)))
        (function_span f) "external function @f%u must be a declaration" [fid].

Definition verify_value_abi (i : nat) (v : CogIrValue) : report :=
  error_if (negb (optional_abi_matches_runtime m (value_abi_type v) (value_type v)))
    (value_span v) "value %%%zu in function @f%u has ABI metadata for the wrong runtime type"
    [num i; fid].

Definition verify_no_body : report :=
  error_if (negb (count (blocks f) =? 0)%N || negb (count (slots f) =? 0)%N
            || negb (entry_block f =? COG_IR_ID_INVALID)%N) (function_span f)
    "function declaration @f%u unexpectedly has a body" [fid].

Definition verify_entry : report :=
  error_if (negb (bool_decide (is_Some (cog_ir_get_block f (entry_block f))))) (function_span f)
    "function definition @f%u has no valid entry block" [fid].

Definition verify_parameter (i : nat) (id : CogIrValueId) : report :=
  error_if (negb match cog_ir_get_value f id with
                 | Some v =>
                     bool_decide (value_kind v = COG_IR_VALUE_FUNCTION_PARAMETER)
                     && (ordinal v =? N.of_nat i)%N
                     && bool_decide (parameter_types ft !! i = Some (value_type v))
                 | None => false
                 end) (function_span f)
    "function @f%u parameter %zu has invalid value metadata" [fid; num i].

Definition verify_slot (i : nat) (s : CogIrSlot) : report :=
  let valid_parameter :=
    if bool_decide (slot_kind s = COG_IR_SLOT_SOURCE_PARAMETER) then
      (parameter_index s <? N.of_nat (length (function_parameters f)))%N
      && bool_decide (parameter_types ft !! N.to_nat (parameter_index s) = Some (slot_type s))
    else (parameter_index s =? COG_IR_PARAMETER_INDEX_INVALID)%N in
  error_if (negb ((slot_id s =? N.of_nat i)%N && valid_parameter && has_type m (slot_type s)
                  && valid_span m (slot_span s)
                  && optional_abi_matches_runtime m (slot_abi_type s) (slot_type s)))
    (slot_span s) "slot $s%zu in function @f%u is invalid" [num i; fid].

Definition verify_block_parameter (b : CogIrBlock) (p : nat) (param : CogIrBlockParam)
    : report :=
  error_if (negb match cog_ir_get_value f (param_value param) with
                 | Some v =>
                     bool_decide (value_kind v = COG_IR_VALUE_BLOCK_PARAMETER)
                     && (value_block v =? block_id b)%N && (ordinal v =? N.of_nat p)%N
                     && (value_type v =? param_type param)%N && has_type m (param_type param)
                 | None => false
                 end) (param_span param)
    "block %u parameter %zu has invalid value metadata" [ArgN (block_id b); num p].

(** The iterations of the loop over the cases: [before] are the keys already seen. *)
Fixpoint verify_cases (b : CogIrBlock) (span : SourceSpan) (value : CogIrValueId) (i : nat)
    (before : list CogIrConstId) (cs : list CogIrSwitchCase) : report :=
  match cs with
  | [] => passed
  | c :: cs =>
      error_if (negb match cog_ir_get_constant m (key c) with
                     | Some k => bool_decide (type_of_value f value = Some (const_type k))
                     | None => false
                     end) span "switch case %zu has wrong key type" [num i]
      &&& check_all (fun _ k => error_if (k =? key c)%N span
                       "switch has duplicate case constant @c%u" [ArgN (key c)]) before
      &&& verify_edge f (block_id b) (case_edge c) span
      &&& verify_cases b span value (S i) (before ++ [key c]) cs
  end.

Definition verify_return (b : CogIrBlock) (span : SourceSpan) (value : option CogIrValueId)
    : report :=
  match cog_ir_get_type m (result_type ft) with
  | None => silent_if true
  | Some return_type =>
      if bool_decide (type_kind return_type = COG_IR_TYPE_VOID) then
        error_if (bool_decide (is_Some value)) span "void function @f%u returns a value" [fid]
      else
        error_if (negb match value with
                       | Some v => terminator_value_available f (block_id b) v
                                   && bool_decide (type_of_value f v = Some (result_type ft))
                       | None => false
                       end) span
          "function @f%u return value has wrong type or is unavailable" [fid]
  end.

(** The value identifiers tested for availability are those of the entries found:
    [condition->id] and [value->id]. *)
Definition found_available (b : CogIrBlock) (id : CogIrValueId) : bool :=
  match cog_ir_get_value f id with
  | Some v => terminator_value_available f (block_id b) (value_id v)
  | None => false
  end.

Definition verify_terminator (b : CogIrBlock) : report :=
  let span := term_span (terminator b) in
  let checked r :=
    error_if (negb (valid_span m span)) source_span_invalid
      "terminator in block %u has invalid source span" [ArgN (block_id b)] &&& r in
  match term_as (terminator b) with
  | TermNone =>
      ir_error (block_span b) "block %u in function @f%u has no terminator"
        [ArgN (block_id b); fid]
  | TermBr e => checked (verify_edge f (block_id b) e span)
  | TermCondBr condition if_true if_false =>
      checked
        (error_if (negb (found_available b condition
                         && value_has_kind m f condition COG_IR_TYPE_BOOL)) span
           "cond_br condition is not an available bool value" []
         &&& verify_edge f (block_id b) if_true span
         &&& verify_edge f (block_id b) if_false span)
  | TermSwitch value cases default =>
      checked
        (error_if (negb (found_available b value
                         && (value_has_kind m f value COG_IR_TYPE_INTEGER
                             || value_has_kind m f value COG_IR_TYPE_BOOL
                             || value_has_kind m f value COG_IR_TYPE_ENUM))) span
           "switch value is not an available integer, bool, or enum value" []
         &&& verify_cases b span value 0 [] (elements cases)
         &&& verify_edge f (block_id b) default span)
  | TermRet value => checked (verify_return b span value)
  | TermTrap _ | TermUnreachable => checked passed
  end.

Definition verify_block (bi : nat) (b : CogIrBlock) : report :=
  error_if (negb (block_id b =? N.of_nat bi)%N || negb (valid_span m (block_span b)))
    (block_span b) "block %zu in function @f%u has invalid identity/span" [num bi; fid]
  &&& check_all (verify_block_parameter b) (items (block_parameters b))
  &&& check_all (fun i x => verify_instruction m f (block_id b) i x) (items (instructions b))
  &&& verify_terminator b.

Definition verify_definition : report :=
  verify_entry
  &&& check_all verify_parameter (function_parameters f)
  &&& check_all verify_slot (items (slots f))
  &&& check_all verify_block (items (blocks f)).
End VerifyFunction.

Definition verify_function (m : CogIrModule) (f : CogIrFunction) : report :=
  match type_as_of m (function_type f) with
  | Some (AsFunction ft) =>
      verify_signature m f ft
      &&& check_all (verify_value_abi m f) (items (values f))
      &&& (if decide (function_kind f = COG_IR_FUNCTION_DECLARATION) then verify_no_body f
           else verify_definition m f ft)
  | _ =>
      ir_error (function_span f) "function @f%u has invalid function type"
        [ArgN (function_id f)]
  end.

(** ** Modules *)

Definition verify_type (m : CogIrModule) (i : nat) (t : CogIrType) : report :=
  let span := type_span t in
  error_if (negb (type_id t =? N.of_nat i)%N || negb (valid_span m span)) span
    "type %%t%zu has invalid identity/span" [num i]
  &&& match type_as t with
      | AsVoid | AsBool | AsOpaquePointer _ _ => passed
      | AsInteger bits _ =>
          error_if (negb (bits =? 8)%N && negb (bits =? 16)%N && negb (bits =? 32)%N
                    && negb (bits =? 64)%N) span
            "integer type %%t%zu has unsupported width" [num i]
      | AsFloat bits =>
          error_if (negb (bits =? 32)%N && negb (bits =? 64)%N) span
            "float type %%t%zu has unsupported width" [num i]
      | AsPointer pointee _ _ =>
          error_if (negb (has_type m pointee)) span "pointer type %%t%zu has invalid pointee"
            [num i]
      | AsArray element _ =>
          error_if (negb (has_type m element)) span "array type %%t%zu has invalid element type"
            [num i]
      | AsStruct a | AsUnion a =>
          error_if (Bool.eqb (is_complete a) (is_incomplete a)) span
            "nominal aggregate %%t%zu is neither exactly defined nor intentionally incomplete"
            [num i]
          &&& error_if (is_incomplete a && negb (agg_is_repr_c a)) span
                "incomplete aggregate %%t%zu must be repr(c)" [num i]
          &&& check_all (fun j fld =>
                error_if (negb (has_type m (field_type fld)) || negb (valid_span m (field_span fld)))
                  (field_span fld) "field %zu of aggregate %%t%zu is invalid" [num j; num i])
                (agg_fields a)
      | AsEnum e =>
          error_if (negb (is_integer_type m (backing_type e))) span
            "enum type %%t%zu has invalid backing type" [num i]
          &&& error_if (enum_repr_c e && negb (has_abi_type m (backing_abi_type e))) span
                "repr(c) enum %%t%zu lacks valid backing ABI type" [num i]
      | AsFunction ft =>
          error_if (is_variadic ft
                    && (negb (bool_decide (ft_abi ft = COG_IR_ABI_C))
                        || bool_decide (calling_convention ft = COG_IR_CALL_STDCALL))) span
            "variadic function type %%t%zu must use the C ABI and may not use stdcall" [num i]
          &&& error_if (negb (has_type m (result_type ft))) span
                "function type %%t%zu has invalid return type" [num i]
          &&& check_all (fun p ty =>
                error_if (negb (has_type m ty) || type_has_kind m ty COG_IR_TYPE_VOID) span
                  "function type %%t%zu parameter %zu is invalid" [num i; num p])
                (parameter_types ft)
      end.

Definition verify_abi_type (m : CogIrModule) (i : nat) (a : CogIrAbiType) : report :=
  error_if (negb (abi_id a =? N.of_nat i)%N || negb (has_type m (runtime_type (abi_desc a))))
    source_span_invalid "ABI type %%a%zu has invalid identity/runtime type" [num i].

Definition verify_constant (m : CogIrModule) (i : nat) (c : CogIrConstant) : report :=
  if negb (const_id c =? N.of_nat i)%N then silent_if true else constant_matches_type m c.

Definition verify_global (m : CogIrModule) (i : nat) (g : CogIrGlobal) : report :=
  error_if (negb ((global_id g =? N.of_nat i)%N && has_type m (global_type g)
                  && negb (constant_not_of_type m (static_initializer g) (global_type g))
                  && valid_span m (global_span g)
                  && optional_abi_matches_runtime m (global_abi_type g) (global_type g)))
    (global_span g) "global @g%zu has invalid type/initializer/span" [num i]
  &&& error_if (negb (global_is_compiler_generated g)
                && match cog_ir_get_constant m (static_initializer g) with
                   | Some c => negb (bool_decide (const_as c = ConstZero))
                   | None => false
                   end) (global_span g)
        "source global @g%zu must use zero static initialization in CogIR v1" [num i].

Definition verify_module_function (m : CogIrModule) (i : nat) (f : CogIrFunction) : report :=
  if negb (function_id f =? N.of_nat i)%N then silent_if true else verify_function m f.

(** The part the entry and the initializer have in common: an internal definition of
    the default Coglet convention without parameters, whose result satisfies [result]. *)
Definition internal_thunk (m : CogIrModule) (f : CogIrFunction) (result : TypeAs -> bool)
    : bool :=
  bool_decide (function_kind f = COG_IR_FUNCTION_DEFINITION)
  && bool_decide (linkage f = COG_IR_LINKAGE_INTERNAL)
  && match type_as_of m (function_type f) with
     | Some (AsFunction ft) =>
         bool_decide (ft_abi ft = COG_IR_ABI_COGLET)
         && bool_decide (calling_convention ft = COG_IR_CALL_DEFAULT)
         && negb (is_variadic ft) && (length (parameter_types ft) =? 0)%nat
         && match type_as_of m (result_type ft) with Some a => result a | None => false end
     | _ => false
     end.

Definition is_s32 (a : TypeAs) : bool :=
  match a with AsInteger bits s => (bits =? 32)%N && s | _ => false end.

Definition span_of_function (f : option CogIrFunction) : SourceSpan :=
  match f with Some f => function_span f | None => source_span_invalid end.

Definition verify_entry_function (m : CogIrModule) : report :=
  if (entry_function m =? COG_IR_ID_INVALID)%N then passed
  else
    let entry := cog_ir_get_function m (entry_function m) in
    error_if (negb match entry with
                   | Some f => negb (is_compiler_generated f)
                               && negb (entry_function m =? init_function m)%N
                               && internal_thunk m f is_s32
                   | None => false
                   end) (span_of_function entry)
      "module entry function must be an internal Coglet () -> s32 definition distinct from module init"
      [].

Definition verify_init_function (m : CogIrModule) : report :=
  if (init_function m =? COG_IR_ID_INVALID)%N then passed
  else
    let init := cog_ir_get_function m (init_function m) in
    error_if (negb match init with
                   | Some f => is_compiler_generated f
                               && internal_thunk m f (fun a => bool_decide (a = AsVoid))
                   | None => false
                   end) (span_of_function init)
      "module init function must be compiler-generated internal Coglet () -> void definition"
      [].

Definition verify_target (m : CogIrModule) : report :=
  match target_info_validate (Some (module_target m)) with
  | None => passed
  | Some target_message =>
      ir_error source_span_invalid "invalid CogIR target: %s" [ArgS target_message]
  end.

(** A switch left behind without its case array makes the verifier read through a null
    pointer. *)
Definition cases_present (b : CogIrBlock) : bool :=
  match term_as (terminator b) with
  | TermSwitch _ cases _ => negb (missing_array cases)
  | _ => true
  end.

Definition function_readable (m : CogIrModule) (f : CogIrFunction) : bool :=
  match type_as_of m (function_type f) with
  | Some (AsFunction _) =>
      bool_decide (function_kind f = COG_IR_FUNCTION_DECLARATION)
      || forallb cases_present (items (blocks f))
  | _ => true
  end.

Definition verify_module (m : CogIrModule) : report :=
  verify_target m
  &&& check_all (verify_type m) (items (types m))
  &&& check_all (verify_abi_type m) (items (abi_types m))
  &&& check_all (verify_constant m) (items (constants m))
  &&& check_all (verify_global m) (items (globals m))
  &&& check_all (verify_module_function m) (items (functions m))
  &&& verify_entry_function m
  &&& verify_init_function m.

(** [None] is the null read. *)
Definition cog_ir_verify (m : CogIrModule) : option report :=
  if forallb (function_readable m) (items (functions m)) then Some (verify_module m) else None.
