(* ===== verification/CogIrTyping.v ===== *)
(** The typing rules of CogIR instructions, stated declaratively, and the agreement of
    the verifier's checks with them. *)
From S2P Require Import Prelude Source Target CogIr CogIrBuilder CogIrInvariant CogIrVerify.

(** ** Reports *)

Lemma fst_and_then r1 r2 : fst (r1 &&& r2) = true <-> fst r1 = true /\ fst r2 = true.
Proof. unfold and_then. simpl. by rewrite andb_true_iff. Qed.

Lemma snd_and_then r1 r2 : snd (r1 &&& r2) = snd r1 ++ snd r2.
Proof. done. Qed.

#[global] Opaque and_then.

Lemma fst_error_if b span format args : fst (error_if b span format args) = true <-> b = false.
Proof. by destruct b. Qed.

Lemma fst_check_all {A} (check : nat -> A -> report) xs :
  fst (check_all check xs) = true <-> forall i x, xs !! i = Some x -> fst (check i x) = true.
Proof.
  unfold check_all. revert check. induction xs as [|x xs IH]; intros check; cbn [imap foldr].
  - split; [done | intros _; done].
  - rewrite fst_and_then. rewrite (IH (fun i => check (S i))). split.
    + intros [Hx Hxs] [|i] y; simpl; [by intros [= <-] | by apply Hxs].
    + intros H. split; [by apply (H 0%nat) | intros i y Hy; by apply (H (S i))].
Qed.

Lemma fst_check_until {A} (check : nat -> A -> report) xs : forall k,
  fst (check_until check k xs) = true
  <-> forall i x, xs !! i = Some x -> fst (check (k + i)%nat x) = true.
Proof.
  induction xs as [|x xs IH]; intros k; cbn [check_until]; [done|].
  destruct (fst (check k x)) eqn:Hx.
  - rewrite fst_and_then, Hx, IH. split.
    + intros [_ H] [|i] y; simpl; [rewrite Nat.add_0_r; by intros [= <-]|].
      intros Hy. rewrite Nat.add_succ_r. by apply H.
    + intros H. split; [done|]. intros i y Hy. specialize (H (S i) y Hy).
      by rewrite Nat.add_succ_r in H.
  - rewrite Hx. split; [done|]. intros H. specialize (H 0%nat x eq_refl).
    rewrite Nat.add_0_r in H. congruence.
Qed.

(** ** The rules *)

Definition integer_binary_op (o : CogIrOp) : bool :=
  match o with
  | COG_IR_OP_IADD_CHECKED | COG_IR_OP_ISUB_CHECKED | COG_IR_OP_IMUL_CHECKED
  | COG_IR_OP_IDIV_CHECKED | COG_IR_OP_IREM_CHECKED
  | COG_IR_OP_IADD_WRAP | COG_IR_OP_ISUB_WRAP | COG_IR_OP_IMUL_WRAP
  | COG_IR_OP_BIT_AND | COG_IR_OP_BIT_OR | COG_IR_OP_BIT_XOR => true
  | _ => false
  end.

Definition shift_op (o : CogIrOp) : bool :=
  match o with
  | COG_IR_OP_SHL_CHECKED_COUNT | COG_IR_OP_SHR_SIGNED_CHECKED_COUNT
  | COG_IR_OP_SHR_UNSIGNED_CHECKED_COUNT => true
  | _ => false
  end.

Definition integer_unary_op (o : CogIrOp) : bool :=
  match o with
  | COG_IR_OP_INEG_CHECKED | COG_IR_OP_INEG_WRAP | COG_IR_OP_BIT_NOT => true
  | _ => false
  end.

Definition float_binary_op (o : CogIrOp) : bool :=
  match o with
  | COG_IR_OP_FADD | COG_IR_OP_FSUB | COG_IR_OP_FMUL | COG_IR_OP_FDIV => true
  | _ => false
  end.

Definition signed_compare_op (o : CogIrOp) : bool :=
  match o with
  | COG_IR_OP_ICMP_SLT | COG_IR_OP_ICMP_SLE | COG_IR_OP_ICMP_SGT | COG_IR_OP_ICMP_SGE => true
  | _ => false
  end.

Definition unsigned_compare_op (o : CogIrOp) : bool :=
  match o with
  | COG_IR_OP_ICMP_ULT | COG_IR_OP_ICMP_ULE | COG_IR_OP_ICMP_UGT | COG_IR_OP_ICMP_UGE => true
  | _ => false
  end.

Definition integer_compare_op (o : CogIrOp) : bool :=
  match o with
  | COG_IR_OP_ICMP_EQ | COG_IR_OP_ICMP_NE => true
  | _ => signed_compare_op o || unsigned_compare_op o
  end.

Definition float_compare_op (o : CogIrOp) : bool :=
  match o with
  | COG_IR_OP_FCMP_EQ | COG_IR_OP_FCMP_NE | COG_IR_OP_FCMP_LT | COG_IR_OP_FCMP_LE
  | COG_IR_OP_FCMP_GT | COG_IR_OP_FCMP_GE => true
  | _ => false
  end.

Definition pointer_compare_op (o : CogIrOp) : bool :=
  match o with COG_IR_OP_PTR_EQ | COG_IR_OP_PTR_NE => true | _ => false end.

(** The values an instruction reads, in order. *)
Definition operands (x : CogIrInstruction) : list CogIrValueId :=
  match op x with
  | COG_IR_OP_CONST | COG_IR_OP_FUNCTION_REF | COG_IR_OP_LOCAL_ADDR | COG_IR_OP_GLOBAL_ADDR
  | COG_IR_OP_SIZE_OF | COG_IR_OP_ALIGN_OF => []
  | COG_IR_OP_FIELD_ADDR => [fst (as_field_addr x)]
  | COG_IR_OP_ARRAY_ELEM_ADDR | COG_IR_OP_PTR_INDEX_ADDR =>
      [fst (as_index_addr x); snd (as_index_addr x)]
  | COG_IR_OP_LOAD => [fst (as_load x)]
  | COG_IR_OP_STORE => [fst (fst (as_store x)); snd (fst (as_store x))]
  | COG_IR_OP_MAKE_STRUCT | COG_IR_OP_MAKE_ARRAY => as_aggregate x
  | COG_IR_OP_EXTRACT_FIELD | COG_IR_OP_EXTRACT_ELEMENT => [fst (as_extract x)]
  | COG_IR_OP_INEG_CHECKED | COG_IR_OP_INEG_WRAP | COG_IR_OP_BIT_NOT | COG_IR_OP_FNEG
  | COG_IR_OP_BOOL_NOT => [as_unary x]
  | COG_IR_OP_CAST_CHECKED | COG_IR_OP_INT_TRUNCATE | COG_IR_OP_PTR_REINTERPRET
  | COG_IR_OP_PTR_QUALIFY | COG_IR_OP_C_VARARG_PROMOTE => [fst (as_conversion x)]
  | COG_IR_OP_ASM => snd <$> snd (as_asm x)
  | COG_IR_OP_CALL => fst (as_call x) :: snd (as_call x)
  | _ => [fst (as_binary x); snd (as_binary x)]
  end.

(** The last arguments of a variadic call. *)
Definition variadic_argument_ok (m : CogIrModule) (ft : CogIrFunctionType) (t : CogIrTypeId)
    : Prop :=
  is_variadic ft = true
  /\ (ft_abi ft = COG_IR_ABI_C -> c_vararg_argument_type_is_legal m t = true).

(** [op_rule m f x ts r]: the operation of [x], applied to values of types [ts], has a
    result of type [r], or none when [r] is the invalid identifier. *)
Inductive op_rule (m : CogIrModule) (f : CogIrFunction) (x : CogIrInstruction)
    : list CogIrTypeId -> CogIrTypeId -> Prop :=
| rule_const c :
    op x = COG_IR_OP_CONST -> cog_ir_get_constant m (as_constant x) = Some c ->
    const_type c <> COG_IR_ID_INVALID -> op_rule m f x [] (const_type c)
| rule_function_ref g :
    op x = COG_IR_OP_FUNCTION_REF -> cog_ir_get_function m (as_function_ref x) = Some g ->
    op_rule m f x [] (function_type g)
| rule_type_query r bits :
    op x = COG_IR_OP_SIZE_OF \/ op x = COG_IR_OP_ALIGN_OF ->
    type_has_runtime_object_layout (cog_ir_get_type m (as_type_query x)) = true ->
    type_as_of m r = Some (AsInteger bits false) ->
    Z.of_N bits = pointer_bits (module_target m) -> op_rule m f x [] r
| rule_local_addr s r vol :
    op x = COG_IR_OP_LOCAL_ADDR -> cog_ir_get_slot f (as_local_addr x) = Some s ->
    type_as_of m r = Some (AsPointer (slot_type s) false vol) -> op_rule m f x [] r
| rule_global_addr g r vol :
    op x = COG_IR_OP_GLOBAL_ADDR -> cog_ir_get_global m (as_global_addr x) = Some g ->
    type_as_of m r = Some (AsPointer (global_type g) (global_is_readonly g) vol) ->
    op_rule m f x [] r
| rule_load p t ro vol :
    op x = COG_IR_OP_LOAD -> type_as_of m p = Some (AsPointer t ro vol) ->
    (vol = true -> snd (as_load x) = true) -> op_rule m f x [p] t
| rule_store p t vol :
    op x = COG_IR_OP_STORE -> type_as_of m p = Some (AsPointer t false vol) ->
    (vol = true -> snd (as_store x) = true) -> op_rule m f x [p; t] COG_IR_ID_INVALID
| rule_integer_binary t bits s :
    integer_binary_op (op x) = true -> type_as_of m t = Some (AsInteger bits s) ->
    op_rule m f x [t; t] t
| rule_shift t u bits s bits' s' :
    shift_op (op x) = true ->
    type_as_of m t = Some (AsInteger bits s) -> type_as_of m u = Some (AsInteger bits' s') ->
    (op x = COG_IR_OP_SHR_SIGNED_CHECKED_COUNT -> s = true) ->
    (op x = COG_IR_OP_SHR_UNSIGNED_CHECKED_COUNT -> s = false) -> op_rule m f x [t; u] t
| rule_integer_unary t bits s :
    integer_unary_op (op x) = true -> type_as_of m t = Some (AsInteger bits s) ->
    op_rule m f x [t] t
| rule_float_binary t bits :
    float_binary_op (op x) = true -> type_as_of m t = Some (AsFloat bits) ->
    op_rule m f x [t; t] t
| rule_fneg t bits :
    op x = COG_IR_OP_FNEG -> type_as_of m t = Some (AsFloat bits) -> op_rule m f x [t] t
| rule_icmp t r bits s :
    integer_compare_op (op x) = true -> type_as_of m t = Some (AsInteger bits s) ->
    (signed_compare_op (op x) = true -> s = true) ->
    (unsigned_compare_op (op x) = true -> s = false) ->
    type_as_of m r = Some AsBool -> op_rule m f x [t; t] r
| rule_icmp_enum t r e :
    integer_compare_op (op x) = true -> type_as_of m t = Some (AsEnum e) ->
    type_as_of m r = Some AsBool -> op_rule m f x [t; t] r
| rule_icmp_bool t r :
    integer_compare_op (op x) = true -> type_as_of m t = Some AsBool ->
    type_as_of m r = Some AsBool -> op_rule m f x [t; t] r
| rule_fcmp t r bits :
    float_compare_op (op x) = true -> type_as_of m t = Some (AsFloat bits) ->
    type_as_of m r = Some AsBool -> op_rule m f x [t; t] r
| rule_ptr_compare t r :
    pointer_compare_op (op x) = true -> is_pointer_comparable_type m t = true ->
    type_as_of m r = Some AsBool -> op_rule m f x [t; t] r
| rule_bool_not t :
    op x = COG_IR_OP_BOOL_NOT -> type_as_of m t = Some AsBool -> op_rule m f x [t] t
| rule_ptr_qualify t p ro vol ro' vol' :
    op x = COG_IR_OP_PTR_QUALIFY ->
    type_as_of m t = Some (AsPointer p ro vol) ->
    type_as_of m (snd (as_conversion x)) = Some (AsPointer p ro' vol') ->
    (ro = true -> ro' = true) -> (vol = true -> vol' = true) ->
    op_rule m f x [t] (snd (as_conversion x))
| rule_opaque_qualify t ro vol ro' vol' :
    op x = COG_IR_OP_PTR_QUALIFY ->
    type_as_of m t = Some (AsOpaquePointer ro vol) ->
    type_as_of m (snd (as_conversion x)) = Some (AsOpaquePointer ro' vol') ->
    (ro = true -> ro' = true) -> (vol = true -> vol' = true) ->
    op_rule m f x [t] (snd (as_conversion x))
| rule_cast_same t a :
    op x = COG_IR_OP_CAST_CHECKED -> snd (as_conversion x) = t -> type_as_of m t = Some a ->
    op_rule m f x [t] t
| rule_cast_numeric t a a' :
    op x = COG_IR_OP_CAST_CHECKED ->
    type_as_of m t = Some a -> is_numeric a = true ->
    type_as_of m (snd (as_conversion x)) = Some a' -> is_numeric a' = true ->
    op_rule m f x [t] (snd (as_conversion x))
| rule_cast_enum t e bits s :
    op x = COG_IR_OP_CAST_CHECKED -> type_as_of m t = Some (AsEnum e) ->
    type_as_of m (snd (as_conversion x)) = Some (AsInteger bits s) ->
    op_rule m f x [t] (snd (as_conversion x))
| rule_int_truncate t bits s bits' s' :
    op x = COG_IR_OP_INT_TRUNCATE -> type_as_of m t = Some (AsInteger bits s) ->
    type_as_of m (snd (as_conversion x)) = Some (AsInteger bits' s') ->
    op_rule m f x [t] (snd (as_conversion x))
| rule_reinterpret_opaque t p ro vol ro' vol' :
    op x = COG_IR_OP_PTR_REINTERPRET ->
    type_as_of m t = Some (AsPointer p ro vol) ->
    type_as_of m (snd (as_conversion x)) = Some (AsOpaquePointer ro' vol') ->
    (ro = true -> ro' = true) -> (vol = true -> vol' = true) ->
    op_rule m f x [t] (snd (as_conversion x))
| rule_reinterpret_typed t p ro vol ro' vol' :
    op x = COG_IR_OP_PTR_REINTERPRET ->
    type_as_of m t = Some (AsOpaquePointer ro vol) ->
    type_as_of m (snd (as_conversion x)) = Some (AsPointer p ro' vol') ->
    (ro = true -> ro' = true) -> (vol = true -> vol' = true) ->
    op_rule m f x [t] (snd (as_conversion x))
| rule_c_vararg_promote t :
    op x = COG_IR_OP_C_VARARG_PROMOTE ->
    c_vararg_promotion_valid m (cog_ir_get_type m t)
      (cog_ir_get_type m (snd (as_conversion x))) = true ->
    op_rule m f x [t] (snd (as_conversion x))
| rule_asm r bits s :
    op x = COG_IR_OP_ASM -> type_as_of m r = Some (AsInteger bits s) ->
    fst (as_asm x) <> "+r"%string -> asm_constraint_is_valid_for_ir (fst (as_asm x)) true = true ->
    Forall (fun i => asm_constraint_is_valid_for_ir (fst i) false = true) (snd (as_asm x)) ->
    op_rule m f x (replicate (length (snd (as_asm x))) r) r
| rule_asm_read_write r bits s i rest :
    op x = COG_IR_OP_ASM -> type_as_of m r = Some (AsInteger bits s) ->
    fst (as_asm x) = "+r"%string -> snd (as_asm x) = i :: rest ->
    fst i = "+r"%string \/ asm_constraint_is_valid_for_ir (fst i) false = true ->
    Forall (fun i => asm_constraint_is_valid_for_ir (fst i) false = true) rest ->
    op_rule m f x (replicate (length (snd (as_asm x))) r) r
| rule_call ct ft extra a :
    op x = COG_IR_OP_CALL -> type_as_of m ct = Some (AsFunction ft) ->
    (ft_abi ft = COG_IR_ABI_C -> callee_abi_ok m f (fst (as_call x)) = true) ->
    Forall (variadic_argument_ok m ft) extra ->
    type_as_of m (result_type ft) = Some a ->
    op_rule m f x (ct :: parameter_types ft ++ extra)
      (if bool_decide (a = AsVoid) then COG_IR_ID_INVALID else result_type ft)
| rule_field_addr p agg g fld r ro vol :
    op x = COG_IR_OP_FIELD_ADDR -> type_as_of m p = Some (AsPointer agg ro vol) ->
    type_as_of m agg = Some (AsStruct g) \/ type_as_of m agg = Some (AsUnion g) ->
    agg_fields g !! N.to_nat (snd (as_field_addr x)) = Some fld ->
    type_as_of m r = Some (AsPointer (field_type fld) ro vol) -> op_rule m f x [p] r
| rule_array_elem_addr p i arr e n r ro vol bits s :
    op x = COG_IR_OP_ARRAY_ELEM_ADDR -> type_as_of m p = Some (AsPointer arr ro vol) ->
    type_as_of m arr = Some (AsArray e n) -> type_as_of m i = Some (AsInteger bits s) ->
    type_as_of m r = Some (AsPointer e ro vol) -> op_rule m f x [p; i] r
| rule_ptr_index_addr p i e ro vol bits s :
    op x = COG_IR_OP_PTR_INDEX_ADDR -> type_as_of m p = Some (AsPointer e ro vol) ->
    type_as_of m i = Some (AsInteger bits s) -> op_rule m f x [p; i] p
| rule_make_struct r g :
    op x = COG_IR_OP_MAKE_STRUCT -> type_as_of m r = Some (AsStruct g) -> is_complete g = true ->
    op_rule m f x (field_type <$> agg_fields g) r
| rule_make_array r e n :
    op x = COG_IR_OP_MAKE_ARRAY -> type_as_of m r = Some (AsArray e n) ->
    op_rule m f x (replicate (N.to_nat n) e) r
| rule_extract_field t g fld :
    op x = COG_IR_OP_EXTRACT_FIELD ->
    type_as_of m t = Some (AsStruct g) \/ type_as_of m t = Some (AsUnion g) ->
    agg_fields g !! N.to_nat (snd (as_extract x)) = Some fld -> op_rule m f x [t] (field_type fld)
| rule_extract_element t e n :
    op x = COG_IR_OP_EXTRACT_ELEMENT -> type_as_of m t = Some (AsArray e n) ->
    (snd (as_extract x) < n)%N -> op_rule m f x [t] e.

(** The operands of [x] exist and are available at its place, and its operation accepts
    their types and has the result type. *)
Definition well_typed (m : CogIrModule) (f : CogIrFunction) (block : CogIrBlockId) (ord : nat)
    (x : CogIrInstruction) : Prop :=
  Forall (fun v => value_available f block (N.of_nat ord) v = true) (operands x)
  /\ exists ts, Forall2 (fun v t => type_of_value f v = Some t) (operands x) ts
       /\ op_rule m f x ts (insn_result_type x).

(** ** The verifier follows the rules *)

(** A check's success as facts: conjunctions split, tests decided. *)
Ltac check_facts :=
  repeat match goal with
  | H : fst (_ &&& _) = true |- _ => apply fst_and_then in H; destruct H
  | H : fst (error_if _ _ _ _) = true |- _ => apply fst_error_if in H
  | H : fst (REQUIRE_VALUE _ _ _ _ _ _) = true |- _ => apply fst_error_if in H
  | H : fst (ir_error _ _ _) = true |- _ => discriminate H
  | H : negb _ = false |- _ => apply negb_false_iff in H
  | H : negb _ = true |- _ => apply negb_true_iff in H
  | H : _ && _ = true |- _ => apply andb_true_iff in H; destruct H
  | H : _ || _ = false |- _ => apply orb_false_iff in H; destruct H
  | H : bool_decide _ = true |- _ => apply bool_decide_eq_true in H
  | H : (_ =? _)%N = true |- _ => apply N.eqb_eq in H
  | H : (_ =? _)%nat = true |- _ => apply Nat.eqb_eq in H
  | H : (_ =? _) = true |- _ => apply Z.eqb_eq in H
  | H : (_ <? _)%N = true |- _ => apply N.ltb_lt in H
  | H : Bool.eqb _ _ = true |- _ => apply Bool.eqb_prop in H
  | H : false = true |- _ => discriminate H
  | H : true = false |- _ => discriminate H
  end.

Definition kind_of (a : TypeAs) : CogIrTypeKind :=
  match a with
  | AsVoid => COG_IR_TYPE_VOID
  | AsBool => COG_IR_TYPE_BOOL
  | AsInteger _ _ => COG_IR_TYPE_INTEGER
  | AsFloat _ => COG_IR_TYPE_FLOAT
  | AsPointer _ _ _ => COG_IR_TYPE_POINTER
  | AsOpaquePointer _ _ => COG_IR_TYPE_OPAQUE_POINTER
  | AsArray _ _ => COG_IR_TYPE_ARRAY
  | AsStruct _ => COG_IR_TYPE_STRUCT
  | AsUnion _ => COG_IR_TYPE_UNION
  | AsEnum _ => COG_IR_TYPE_ENUM
  | AsFunction _ => COG_IR_TYPE_FUNCTION
  end.

Lemma type_has_kind_as m t k :
  type_has_kind m t k = true -> exists a, type_as_of m t = Some a
    /\ k = kind_of a.
Proof.
  unfold type_has_kind, type_as_of. destruct (cog_ir_get_type m t) as [u|]; [|done].
  intros H. apply bool_decide_eq_true in H. exists (type_as u). split; [done|].
  rewrite <- H. unfold type_kind. by destruct (type_as u).
Qed.

Lemma kind_integer m t :
  type_has_kind m t COG_IR_TYPE_INTEGER = true -> exists bits s, type_as_of m t = Some (AsInteger bits s).
Proof. intros (a & Ha & Hk)%type_has_kind_as. destruct a; try done. eauto. Qed.

Lemma kind_float m t :
  type_has_kind m t COG_IR_TYPE_FLOAT = true -> exists bits, type_as_of m t = Some (AsFloat bits).
Proof. intros (a & Ha & Hk)%type_has_kind_as. destruct a; try done. eauto. Qed.

Lemma kind_enum m t :
  type_has_kind m t COG_IR_TYPE_ENUM = true -> exists e, type_as_of m t = Some (AsEnum e).
Proof. intros (a & Ha & Hk)%type_has_kind_as. destruct a; try done. eauto. Qed.

Lemma kind_bool m t :
  type_has_kind m t COG_IR_TYPE_BOOL = true -> type_as_of m t = Some AsBool.
Proof. intros (a & Ha & Hk)%type_has_kind_as. by destruct a. Qed.

Lemma kind_pointer m t :
  type_has_kind m t COG_IR_TYPE_POINTER = true ->
  exists p ro vol, type_as_of m t = Some (AsPointer p ro vol).
Proof. intros (a & Ha & Hk)%type_has_kind_as. destruct a; try done. eauto. Qed.

Lemma pointer_pointee_as m t p ro vol :
  pointer_pointee m t = Some (p, ro, vol) <-> type_as_of m t = Some (AsPointer p ro vol).
Proof.
  unfold pointer_pointee, type_as_of. destruct (cog_ir_get_type m t) as [u|]; simpl; [|done].
  destruct (type_as u); naive_solver.
Qed.

Lemma operand_as_Some m f v a :
  operand_as m f v = Some a <-> exists t, type_of_value f v = Some t /\ type_as_of m t = Some a.
Proof.
  unfold operand_as, operand_type. destruct (type_of_value f v); simpl; naive_solver.
Qed.

Lemma operand_pointee_Some m f v p ro vol :
  operand_pointee m f v = Some (p, ro, vol)
  <-> exists t, type_of_value f v = Some t /\ type_as_of m t = Some (AsPointer p ro vol).
Proof.
  unfold operand_pointee, operand_type. destruct (type_of_value f v) as [t|]; simpl.
  - rewrite pointer_pointee_as. naive_solver.
  - naive_solver.
Qed.

Lemma is_kind_Some m f v k :
  is_kind m f v k = true <-> exists t, type_of_value f v = Some t /\ type_has_kind m t k = true.
Proof. unfold is_kind, operand_type. destruct (type_of_value f v); naive_solver. Qed.

Lemma operand_is_result_Some f x v :
  operand_is_result f x v = true <-> type_of_value f v = Some (insn_result_type x).
Proof. unfold operand_is_result, operand_type. apply bool_decide_eq_true. Qed.

Lemma same_operand_types_Some f x :
  same_operand_types f x = true
  <-> exists t, type_of_value f (fst (as_binary x)) = Some t
                /\ type_of_value f (snd (as_binary x)) = Some t.
Proof.
  unfold same_operand_types, operand_type.
  destruct (type_of_value f _), (type_of_value f _); try naive_solver.
  rewrite N.eqb_eq. naive_solver.
Qed.

(** The same, down to the members of the types involved. *)
Ltac typing_facts :=
  repeat (check_facts; match goal with
  | H : same_operand_types _ _ = true |- _ =>
      apply same_operand_types_Some in H; destruct H as (? & ? & ?)
  | H : operand_is_result _ _ _ = true |- _ => apply operand_is_result_Some in H
  | H : is_kind _ _ _ _ = true |- _ => apply is_kind_Some in H; destruct H as (? & ? & ?)
  | H : is_integer_type _ _ = true |- _ => apply kind_integer in H; destruct H as (? & ? & ?)
  | H : type_has_kind _ _ COG_IR_TYPE_INTEGER = true |- _ =>
      apply kind_integer in H; destruct H as (? & ? & ?)
  | H : type_has_kind _ _ COG_IR_TYPE_FLOAT = true |- _ =>
      apply kind_float in H; destruct H as (? & ?)
  | H : type_has_kind _ _ COG_IR_TYPE_ENUM = true |- _ =>
      apply kind_enum in H; destruct H as (? & ?)
  | H : type_has_kind _ _ COG_IR_TYPE_BOOL = true |- _ => apply kind_bool in H
  | H : type_has_kind _ _ COG_IR_TYPE_POINTER = true |- _ =>
      apply kind_pointer in H; destruct H as (? & ? & ? & ?)
  | H : result_is_bool _ _ = true |- _ => apply kind_bool in H
  | H : operand_pointee _ _ _ = Some _ |- _ =>
      apply operand_pointee_Some in H; destruct H as (? & ? & ?)
  | H : operand_as _ _ _ = Some _ |- _ =>
      apply operand_as_Some in H; destruct H as (? & ? & ?)
  | H : pointer_pointee _ _ = Some _ |- _ => apply pointer_pointee_as in H
  end); check_facts; unfold operand_type in *; simplify_eq.

Section Agreement.
Context (m : CogIrModule) (f : CogIrFunction) (block : CogIrBlockId) (ord : nat)
  (x : CogIrInstruction).

Local Abbreviation avail v := (value_available f block (N.of_nat ord) v = true).
Local Abbreviation wt := (well_typed m f block ord x).
Local Abbreviation rule ts := (op_rule m f x ts (insn_result_type x)).

Lemma well_typed_0 : operands x = [] -> rule [] -> wt.
Proof. intros Ho Hr. split; rewrite Ho; [done|]. by exists []. Qed.

Lemma well_typed_1 v t :
  operands x = [v] -> avail v -> type_of_value f v = Some t -> rule [t] -> wt.
Proof.
  intros Ho Ha Ht Hr. split; rewrite Ho; [by apply Forall_singleton|].
  exists [t]. split; [by repeat constructor | done].
Qed.

Lemma well_typed_2 v w t u :
  operands x = [v; w] -> avail v -> avail w ->
  type_of_value f v = Some t -> type_of_value f w = Some u -> rule [t; u] -> wt.
Proof.
  intros Ho Hv Hw Ht Hu Hr. split; rewrite Ho; [by repeat constructor|].
  exists [t; u]. split; [by repeat constructor | done].
Qed.

Lemma verify_const_sound : op x = COG_IR_OP_CONST -> fst (verify_const m x) = true -> wt.
Proof.
  unfold verify_const. intros Ho H. check_facts.
  destruct (cog_ir_get_constant m (as_constant x)) as [c|] eqn:Hc; check_facts.
  apply well_typed_0; [unfold operands; by rewrite Ho|]. rewrite <- H0.
  apply rule_const; [done..|]. rewrite H0. by apply N.eqb_neq.
Qed.

Lemma verify_function_ref_sound :
  op x = COG_IR_OP_FUNCTION_REF -> fst (verify_function_ref m x) = true -> wt.
Proof.
  unfold verify_function_ref. intros Ho H. check_facts.
  destruct (cog_ir_get_function m (as_function_ref x)) as [g|] eqn:Hg; check_facts.
  apply well_typed_0; [unfold operands; by rewrite Ho|]. rewrite H. by apply rule_function_ref.
Qed.

Lemma verify_type_query_sound :
  op x = COG_IR_OP_SIZE_OF \/ op x = COG_IR_OP_ALIGN_OF ->
  fst (verify_type_query m x) = true -> wt.
Proof.
  unfold verify_type_query. intros Ho H. check_facts.
  destruct (type_as_of m (insn_result_type x)) as [[]|] eqn:Ht; check_facts. subst.
  apply well_typed_0; [unfold operands; by destruct Ho as [-> | ->]|].
  by eapply rule_type_query.
Qed.

Lemma verify_local_addr_sound :
  op x = COG_IR_OP_LOCAL_ADDR -> fst (verify_local_addr m f x) = true -> wt.
Proof.
  unfold verify_local_addr. intros Ho H. check_facts.
  destruct (cog_ir_get_slot f (as_local_addr x)) as [s|] eqn:Hs; [|done].
  destruct (pointer_pointee m (insn_result_type x)) as [[[p ro] vol]|] eqn:Hp; check_facts.
  subst. apply pointer_pointee_as in Hp.
  apply well_typed_0; [unfold operands; by rewrite Ho|]. by eapply rule_local_addr.
Qed.

Lemma verify_global_addr_sound :
  op x = COG_IR_OP_GLOBAL_ADDR -> fst (verify_global_addr m x) = true -> wt.
Proof.
  unfold verify_global_addr. intros Ho H. check_facts.
  destruct (cog_ir_get_global m (as_global_addr x)) as [s|] eqn:Hs; [|done].
  destruct (pointer_pointee m (insn_result_type x)) as [[[p ro] vol]|] eqn:Hp; check_facts.
  subst. apply pointer_pointee_as in Hp.
  apply well_typed_0; [unfold operands; by rewrite Ho|]. by eapply rule_global_addr.
Qed.

(** A test [a && !b] is an implication. *)
Lemma guard_implies a b : a && negb b = false -> a = true -> b = true.
Proof. by destruct a, b. Qed.

Lemma guard_false (P : Prop) `{Decision P} b : bool_decide P && b = false -> P -> b = false.
Proof. intros Hb HP. by rewrite (bool_decide_eq_true_2 P HP) in Hb. Qed.

Lemma verify_load_sound :
  op x = COG_IR_OP_LOAD -> fst (verify_load m f block ord x) = true -> wt.
Proof.
  unfold verify_load. intros Ho H. destruct (as_load x) as [address is_vol] eqn:Has. check_facts.
  destruct (operand_pointee m f address) as [[[p ro] vol]|] eqn:Hp; check_facts. subst.
  apply operand_pointee_Some in Hp. destruct Hp as (t & Ht & Hp).
  eapply well_typed_1; [unfold operands; by rewrite Ho, Has | done | done |].
  eapply rule_load; [done..|]. rewrite Has. by apply guard_implies.
Qed.

Lemma verify_store_sound :
  op x = COG_IR_OP_STORE -> fst (verify_store m f block ord x) = true -> wt.
Proof.
  unfold verify_store, operand_type. intros Ho H.
  destruct (as_store x) as [[address value] is_vol] eqn:Has. check_facts.
  destruct (operand_pointee m f address) as [[[p ro] vol]|] eqn:Hp; [|done].
  destruct (type_of_value f value) as [u|] eqn:Hu; check_facts. subst.
  apply operand_pointee_Some in Hp. destruct Hp as (t & Ht & Hp).
  eapply (well_typed_2 address value); [unfold operands; by rewrite Ho, Has | done.. |].
  match goal with H : insn_result_type x = _ |- _ => rewrite H end.
  eapply rule_store; [done..|]. rewrite Has. by apply guard_implies.
Qed.

Lemma binary_operands :
  integer_binary_op (op x) || shift_op (op x) || float_binary_op (op x)
    || integer_compare_op (op x) || float_compare_op (op x) || pointer_compare_op (op x) = true ->
  operands x = [fst (as_binary x); snd (as_binary x)].
Proof. unfold operands. by destruct (op x). Qed.

Lemma verify_integer_binary_sound :
  integer_binary_op (op x) = true -> fst (verify_integer_binary m f block ord x) = true -> wt.
Proof.
  unfold verify_integer_binary, require_binary. intros Ho H. typing_facts.
  eapply well_typed_2; [apply binary_operands; by rewrite Ho | done.. |].
  by eapply rule_integer_binary.
Qed.

Lemma verify_shift_sound :
  shift_op (op x) = true -> fst (verify_shift m f block ord x) = true -> wt.
Proof.
  unfold verify_shift, require_binary. intros Ho H. check_facts.
  destruct (operand_as m f (fst (as_binary x))) as [[]|] eqn:Hl; try done.
  destruct (is_kind m f _ _ && _) eqn:Hk; [|done]. typing_facts.
  eapply well_typed_2; [apply binary_operands; by rewrite Ho, orb_true_r | done.. |].
  eapply rule_shift; [done.. | |]; intros He.
  - apply negb_false_iff. by apply (guard_false (op x = COG_IR_OP_SHR_SIGNED_CHECKED_COUNT)).
  - by apply (guard_false (op x = COG_IR_OP_SHR_UNSIGNED_CHECKED_COUNT)).
Qed.

Lemma unary_operands : integer_unary_op (op x) = true -> operands x = [as_unary x].
Proof. unfold operands. by destruct (op x). Qed.

Lemma verify_integer_unary_sound :
  integer_unary_op (op x) = true -> fst (verify_integer_unary m f block ord x) = true -> wt.
Proof.
  unfold verify_integer_unary. intros Ho H. typing_facts.
  eapply well_typed_1; [by apply unary_operands | done.. |]. by eapply rule_integer_unary.
Qed.

Lemma verify_float_binary_sound :
  float_binary_op (op x) = true -> fst (verify_float_binary m f block ord x) = true -> wt.
Proof.
  unfold verify_float_binary, require_binary. intros Ho H. typing_facts.
  eapply well_typed_2; [apply binary_operands; by rewrite Ho, !orb_true_r | done.. |].
  by eapply rule_float_binary.
Qed.

Lemma verify_fneg_sound :
  op x = COG_IR_OP_FNEG -> fst (verify_fneg m f block ord x) = true -> wt.
Proof.
  unfold verify_fneg. intros Ho H. typing_facts.
  eapply well_typed_1; [unfold operands; by rewrite Ho | done.. |]. by eapply rule_fneg.
Qed.

Lemma signed_compare_between :
  op_between x COG_IR_OP_ICMP_SLT COG_IR_OP_ICMP_SGE = signed_compare_op (op x).
Proof. unfold op_between. by destruct (op x). Qed.

Lemma unsigned_compare_between :
  op_between x COG_IR_OP_ICMP_ULT COG_IR_OP_ICMP_UGE = unsigned_compare_op (op x).
Proof. unfold op_between. by destruct (op x). Qed.

Lemma verify_icmp_sound :
  integer_compare_op (op x) = true -> fst (verify_icmp m f block ord x) = true -> wt.
Proof.
  unfold verify_icmp, require_binary. rewrite signed_compare_between, unsigned_compare_between.
  intros Ho H. check_facts.
  match goal with H : (_ || _) || _ = true |- _ => rename H into Hk end.
  match goal with H : fst (match operand_as _ _ _ with _ => _ end) = true |- _ =>
    rename H into Hsign end.
  assert (Hops : operands x = [fst (as_binary x); snd (as_binary x)])
    by (apply binary_operands; by rewrite Ho, !orb_true_r).
  destruct (is_kind m f (fst (as_binary x)) COG_IR_TYPE_INTEGER) eqn:Hi.
  - typing_facts. eapply well_typed_2; [done.. |].
    erewrite (proj2 (operand_as_Some _ _ _ _)) in Hsign by eauto.
    apply fst_error_if, orb_false_iff in Hsign. destruct Hsign as [Hs Hu].
    eapply rule_icmp; [done | done | | | done]; intros Hop; rewrite Hop in *.
    + by apply negb_false_iff.
    + done.
  - simpl in Hk. apply orb_true_iff in Hk. destruct Hk; typing_facts.
    + eapply well_typed_2; [done.. |]. by eapply rule_icmp_enum.
    + eapply well_typed_2; [done.. |]. by eapply rule_icmp_bool.
Qed.

Lemma verify_fcmp_sound :
  float_compare_op (op x) = true -> fst (verify_fcmp m f block ord x) = true -> wt.
Proof.
  unfold verify_fcmp, require_binary. intros Ho H. typing_facts.
  eapply well_typed_2; [apply binary_operands; by rewrite Ho, !orb_true_r | done.. |].
  by eapply rule_fcmp.
Qed.

Lemma verify_ptr_compare_sound :
  pointer_compare_op (op x) = true -> fst (verify_ptr_compare m f block ord x) = true -> wt.
Proof.
  unfold verify_ptr_compare, require_binary. intros Ho H. typing_facts.
  match goal with H : type_of_value f (fst _) = Some _ |- _ => rewrite H in * end.
  eapply well_typed_2; [apply binary_operands; by rewrite Ho, !orb_true_r | done.. |].
  by eapply rule_ptr_compare.
Qed.

Lemma verify_bool_not_sound :
  op x = COG_IR_OP_BOOL_NOT -> fst (verify_bool_not m f block ord x) = true -> wt.
Proof.
  unfold verify_bool_not. intros Ho H. typing_facts.
  eapply well_typed_1; [unfold operands; by rewrite Ho | done.. |]. by eapply rule_bool_not.
Qed.

Lemma only_adds_spec a b : only_adds a b = true <-> (a = true -> b = true).
Proof. destruct a, b; simpl; naive_solver. Qed.

Lemma conversion_operands :
  match op x with
  | COG_IR_OP_CAST_CHECKED | COG_IR_OP_INT_TRUNCATE | COG_IR_OP_PTR_REINTERPRET
  | COG_IR_OP_PTR_QUALIFY | COG_IR_OP_C_VARARG_PROMOTE => True
  | _ => False
  end -> operands x = [fst (as_conversion x)].
Proof. unfold operands. by destruct (op x). Qed.

Lemma verify_ptr_qualify_sound :
  op x = COG_IR_OP_PTR_QUALIFY -> fst (verify_ptr_qualify m f block ord x) = true -> wt.
Proof.
  unfold verify_ptr_qualify. intros Ho H.
  assert (Hops := conversion_operands). rewrite Ho in Hops. specialize (Hops I).
  destruct (as_conversion x) as [operand to] eqn:Hc. check_facts.
  destruct (operand_as m f operand) as [[]|] eqn:Ha; try done;
    destruct (type_as_of m to) as [[]|] eqn:Hto; try done; typing_facts;
    rewrite !only_adds_spec in *; eapply well_typed_1; try done.
  - replace (insn_result_type x) with (snd (as_conversion x)) by by rewrite Hc.
    eapply rule_ptr_qualify; rewrite ?Hc; done.
  - replace (insn_result_type x) with (snd (as_conversion x)) by by rewrite Hc.
    eapply rule_opaque_qualify; rewrite ?Hc; done.
Qed.

Lemma conversion_typed t :
  operands x = [fst (as_conversion x)] -> snd (as_conversion x) = insn_result_type x ->
  avail (fst (as_conversion x)) -> type_of_value f (fst (as_conversion x)) = Some t ->
  op_rule m f x [t] (snd (as_conversion x)) -> wt.
Proof. intros Ho Hr Ha Ht Hrule. eapply well_typed_1; [done..|]. by rewrite <- Hr. Qed.

Lemma verify_cast_checked_sound :
  op x = COG_IR_OP_CAST_CHECKED -> fst (verify_cast_checked m f block ord x) = true -> wt.
Proof.
  unfold verify_cast_checked. intros Ho H.
  assert (Hops := conversion_operands). rewrite Ho in Hops. specialize (Hops I).
  destruct (as_conversion x) as [operand to] eqn:Hc. check_facts.
  destruct (operand_as m f operand) as [a|] eqn:Ha; [|done].
  destruct (type_as_of m (insn_result_type x)) as [a'|] eqn:Ha'; [|done].
  apply operand_as_Some in Ha. destruct Ha as (t & Ht & Ha).
  match goal with H : _ || _ = true |- _ => rename H into Hk end.
  apply (conversion_typed t); rewrite ?Hc; simpl; try done.
  destruct (operand_is_result f x operand) eqn:Hsame.
  - typing_facts. by eapply rule_cast_same; rewrite ?Hc.
  - simpl in Hk. apply orb_true_iff in Hk. subst to.
    replace (insn_result_type x) with (snd (as_conversion x)) in * by by rewrite Hc.
    destruct Hk as [Hk|Hk].
    + check_facts. by eapply rule_cast_numeric.
    + destruct a, a'; try done. by eapply rule_cast_enum.
Qed.

Lemma verify_int_truncate_sound :
  op x = COG_IR_OP_INT_TRUNCATE -> fst (verify_int_truncate m f block ord x) = true -> wt.
Proof.
  unfold verify_int_truncate. intros Ho H.
  assert (Hops := conversion_operands). rewrite Ho in Hops. specialize (Hops I).
  destruct (as_conversion x) as [operand to] eqn:Hc. typing_facts.
  eapply conversion_typed; rewrite ?Hc; try done. simpl.
  replace (insn_result_type x) with (snd (as_conversion x)) in * by by rewrite Hc.
  by eapply rule_int_truncate.
Qed.

Lemma verify_ptr_reinterpret_sound :
  op x = COG_IR_OP_PTR_REINTERPRET -> fst (verify_ptr_reinterpret m f block ord x) = true -> wt.
Proof.
  unfold verify_ptr_reinterpret. intros Ho H.
  assert (Hops := conversion_operands). rewrite Ho in Hops. specialize (Hops I).
  destruct (as_conversion x) as [operand to] eqn:Hc. check_facts.
  destruct (operand_as m f operand) as [[]|] eqn:Ha; try done;
    destruct (type_as_of m (insn_result_type x)) as [[]|] eqn:Hto; try done; typing_facts;
    rewrite !only_adds_spec in *; (eapply conversion_typed; rewrite ?Hc; try done); simpl;
    replace (insn_result_type x) with (snd (as_conversion x)) in * by by rewrite Hc.
  - by eapply rule_reinterpret_opaque.
  - by eapply rule_reinterpret_typed.
Qed.

Lemma verify_c_vararg_promote_sound :
  op x = COG_IR_OP_C_VARARG_PROMOTE -> fst (verify_c_vararg_promote m f block ord x) = true -> wt.
Proof.
  unfold verify_c_vararg_promote, operand_type. intros Ho H.
  assert (Hops := conversion_operands). rewrite Ho in Hops. specialize (Hops I).
  destruct (as_conversion x) as [operand to] eqn:Hc. check_facts.
  destruct (type_of_value f operand) as [t|] eqn:Ht; [|done].
  eapply conversion_typed; rewrite ?Hc; try done. simpl. subst to.
  replace (insn_result_type x) with (snd (as_conversion x)) in * by by rewrite Hc.
  by eapply rule_c_vararg_promote.
Qed.

Lemma verify_field_addr_sound :
  op x = COG_IR_OP_FIELD_ADDR -> fst (verify_field_addr m f block ord x) = true -> wt.
Proof.
  unfold verify_field_addr. intros Ho H.
  destruct (as_field_addr x) as [base index] eqn:Hf. check_facts.
  destruct (operand_pointee m f base) as [[[p ro] vol]|] eqn:Hp; [|done].
  destruct (type_as_of m p) as [[]|] eqn:Hagg; try done;
    destruct (pointer_pointee m (insn_result_type x)) as [[[p' ro'] vol']|] eqn:Hr; try done;
    destruct (agg_fields _ !! _) as [fld|] eqn:Hfld; try done; typing_facts;
    (eapply well_typed_1; [unfold operands; by rewrite Ho, Hf | done | done |]);
    eapply rule_field_addr; rewrite ?Hf; eauto.
Qed.

Lemma verify_array_elem_addr_sound :
  op x = COG_IR_OP_ARRAY_ELEM_ADDR -> fst (verify_array_elem_addr m f block ord x) = true -> wt.
Proof.
  unfold verify_array_elem_addr. intros Ho H.
  destruct (as_index_addr x) as [base index] eqn:Hf. check_facts.
  destruct (operand_pointee m f base) as [[[p ro] vol]|] eqn:Hp; [|done].
  destruct (type_as_of m p) as [[]|] eqn:Harr; try done.
  destruct (pointer_pointee m (insn_result_type x)) as [[[p' ro'] vol']|] eqn:Hr; try done.
  typing_facts. eapply (well_typed_2 base index); [unfold operands; by rewrite Ho, Hf | done.. |].
  by eapply rule_array_elem_addr.
Qed.

Lemma verify_ptr_index_addr_sound :
  op x = COG_IR_OP_PTR_INDEX_ADDR -> fst (verify_ptr_index_addr m f block ord x) = true -> wt.
Proof.
  unfold verify_ptr_index_addr. intros Ho H.
  destruct (as_index_addr x) as [base index] eqn:Hf. typing_facts.
  eapply (well_typed_2 base index); [unfold operands; by rewrite Ho, Hf | done.. |].
  by eapply rule_ptr_index_addr.
Qed.

Lemma verify_extract_field_sound :
  op x = COG_IR_OP_EXTRACT_FIELD -> fst (verify_extract_field m f block ord x) = true -> wt.
Proof.
  unfold verify_extract_field. intros Ho H.
  destruct (as_extract x) as [agg index] eqn:Hf. check_facts.
  destruct (operand_as m f agg) as [[]|] eqn:Ha; try done;
    destruct (agg_fields _ !! _) as [fld|] eqn:Hfld; try done; typing_facts;
    (eapply well_typed_1; [unfold operands; by rewrite Ho, Hf | done | done |]);
    match goal with H : insn_result_type x = _ |- _ => rewrite H end;
    eapply rule_extract_field; rewrite ?Hf; eauto.
Qed.

Lemma verify_extract_element_sound :
  op x = COG_IR_OP_EXTRACT_ELEMENT -> fst (verify_extract_element m f block ord x) = true -> wt.
Proof.
  unfold verify_extract_element. intros Ho H.
  destruct (as_extract x) as [agg index] eqn:Hf. check_facts.
  destruct (operand_as m f agg) as [[]|] eqn:Ha; try done. typing_facts.
  eapply well_typed_1; [unfold operands; by rewrite Ho, Hf | done | done |].
  eapply rule_extract_element; rewrite ?Hf; eauto.
Qed.

(** The operands of an operation with a list of them. *)
Lemma well_typed_list vs ts :
  operands x = vs -> Forall (fun v => avail v) vs ->
  Forall2 (fun v t => type_of_value f v = Some t) vs ts -> rule ts -> wt.
Proof. intros Ho Ha Ht Hr. split; rewrite Ho; [done|]. by exists ts. Qed.

Lemma Forall_lookups {A} (P : A -> Prop) (xs : list A) :
  (forall i y, xs !! i = Some y -> P y) -> Forall P xs.
Proof. intros H. by apply Forall_lookup. Qed.

Lemma verify_make_array_sound :
  op x = COG_IR_OP_MAKE_ARRAY -> fst (verify_make_array m f block ord x) = true -> wt.
Proof.
  unfold verify_make_array. intros Ho H.
  destruct (type_as_of m (insn_result_type x)) as [[]|] eqn:Ha; try done.
  destruct (negb _) eqn:Hn; [done|]. check_facts. rewrite fst_check_all in H.
  eapply well_typed_list; [unfold operands; by rewrite Ho | | | by eapply rule_make_array].
  - apply Forall_lookups. intros i v Hv. specialize (H i v Hv). by check_facts.
  - rewrite <- Hn, Nat2N.id. apply Forall2_same_length_lookup_2; [by rewrite length_replicate|].
    intros i v t Hv Ht. apply lookup_replicate in Ht. destruct Ht as [-> _].
    specialize (H i v Hv). by check_facts.
Qed.

Lemma verify_make_struct_sound :
  op x = COG_IR_OP_MAKE_STRUCT -> fst (verify_make_struct m f block ord x) = true -> wt.
Proof.
  unfold verify_make_struct. intros Ho H.
  destruct (type_as_of m (insn_result_type x)) as [[]|] eqn:Ha; try done.
  destruct (negb _ || _) eqn:Hn; [done|]. check_facts. rewrite fst_check_all in H.
  assert (Hz : forall i v fld, as_aggregate x !! i = Some v ->
            agg_fields aggregate !! i = Some fld ->
            avail v /\ type_of_value f v = Some (field_type fld)).
  { intros i v fld Hv Hfld. specialize (H i (v, fld)). simpl in H.
    rewrite lookup_zip_with, Hv, Hfld in H. specialize (H eq_refl). by check_facts. }
  eapply well_typed_list; [unfold operands; by rewrite Ho | | | by eapply rule_make_struct].
  - apply Forall_lookups. intros i v Hv. pose proof (lookup_lt_Some _ _ _ Hv) as Hlt.
    rewrite H1 in Hlt. apply lookup_lt_is_Some_2 in Hlt. destruct Hlt as [fld Hfld].
    by eapply Hz.
  - apply Forall2_same_length_lookup_2; [by rewrite length_fmap|].
    intros i v t Hv Ht. rewrite list_lookup_fmap in Ht.
    destruct (agg_fields aggregate !! i) as [fld|] eqn:Hfld; [|done].
    injection Ht as <-. by eapply Hz.
Qed.

Lemma verify_asm_sound :
  op x = COG_IR_OP_ASM -> fst (verify_asm m f block ord x) = true -> wt.
Proof.
  unfold verify_asm. intros Ho H. destruct (as_asm x) as [out ins] eqn:Has. check_facts.
  match goal with H : forallb _ _ = true |- _ =>
    rewrite <- Is_true_true, forallb_True, Forall_lookup in H; rename H into Hins end.
  assert (Hin : forall i p, ins !! i = Some p ->
            type_of_value f (snd p) = Some (insn_result_type x)
            /\ ((out =? "+r")%string && (i =? 0)%nat && (fst p =? "+r")%string
                || asm_constraint_is_valid_for_ir (fst p) false) = true).
  { intros i p Hp. specialize (Hins i (i, p)). rewrite list_lookup_imap, Hp in Hins.
    specialize (Hins eq_refl). apply Is_true_true in Hins. unfold asm_input_ok in Hins.
    simpl in Hins. by typing_facts. }
  match goal with H : fst (check_all _ _) = true |- _ => rewrite fst_check_all in H;
    rename H into Hav end.
  typing_facts.
  assert (Hrule : rule (replicate (length (snd (as_asm x))) (insn_result_type x))).
  { destruct (String.eqb_spec out "+r") as [->|Hne].
    - destruct ins as [|p ins]; [by check_facts|].
      eapply rule_asm_read_write; rewrite ?Has; simpl; try done.
      + destruct (Hin 0%nat p eq_refl) as [_ Hp]. apply orb_true_iff in Hp.
        simpl in Hp. rewrite String.eqb_eq in Hp. done.
      + apply Forall_lookups. intros i q Hq. destruct (Hin (S i) q Hq) as [_ Hp].
        by rewrite andb_false_r in Hp.
    - eapply rule_asm; rewrite ?Has; simpl; try done.
      apply Forall_lookups. intros i q Hq. by destruct (Hin i q Hq) as [_ Hp]. }
  eapply well_typed_list; [unfold operands; by rewrite Ho | | | done].
  - rewrite Has. apply Forall_fmap, Forall_lookups. intros i p Hp. specialize (Hav i p Hp).
    simpl in Hav. by check_facts.
  - rewrite Has. simpl. apply Forall2_same_length_lookup_2; [by rewrite length_fmap, length_replicate|].
    intros i v t Hv Ht. apply lookup_replicate in Ht. destruct Ht as [-> _].
    rewrite list_lookup_fmap in Hv. destruct (ins !! i) as [p|] eqn:Hp; [|done].
    injection Hv as <-. by eapply Hin.
Qed.

(** The types of the arguments: those of the parameters, then admissible ones. *)
Lemma call_argument_types ft args :
  (forall i v, args !! i = Some v -> fst (verify_call_argument m f block ord x ft i v) = true) ->
  (length (parameter_types ft) <= length args)%nat ->
  (is_variadic ft = true \/ length args = length (parameter_types ft)) ->
  (forall v, v ∈ args -> is_Some (type_of_value f v)) ->
  exists extra, Forall2 (fun v t => type_of_value f v = Some t) args
                  (parameter_types ft ++ extra)
    /\ Forall (variadic_argument_ok m ft) extra.
Proof.
  intros Hargs Hlen Hvar Hex. set (n := length (parameter_types ft)).
  assert (Htys : exists ts, Forall2 (fun v t => type_of_value f v = Some t) args ts).
  { clear Hargs Hlen Hvar. induction args as [|v vs IH].
    - by exists [].
    - destruct (Hex v) as [t Ht]; [by left|].
      destruct IH as [ts Hts]; [intros w Hw; apply Hex; by right|].
      exists (t :: ts). by constructor. }
  destruct Htys as [ts Hts]. pose proof (Forall2_length _ _ _ Hts) as Hl.
  assert (Hat : forall i v t, args !! i = Some v -> ts !! i = Some t -> type_of_value f v = Some t)
    by (intros i v t; by apply Forall2_lookup_lr with (1 := Hts)).
  exists (drop n ts).
  assert (Htake : take n ts = parameter_types ft).
  { apply list_eq_same_length with n; [done | rewrite length_take; lia |].
    intros i t p Hi Ht Hp. rewrite lookup_take, decide_True in Ht by done.
    assert (Hi' : (i < length args)%nat) by lia.
    apply lookup_lt_is_Some_2 in Hi'. destruct Hi' as [v Hv].
    pose proof (Hargs i v Hv) as Ha. unfold verify_call_argument in Ha. rewrite Hp in Ha.
    check_facts. unfold operand_type in *. pose proof (Hat i v t Hv Ht). congruence. }
  split; [by rewrite <- Htake, take_drop|].
  apply Forall_lookups. intros i t Ht. rewrite lookup_drop in Ht.
  pose proof (lookup_lt_Some _ _ _ Ht) as Hi. rewrite <- Hl in Hi.
  apply lookup_lt_is_Some_2 in Hi. destruct Hi as [v Hv].
  pose proof (Hargs _ v Hv) as Ha. unfold verify_call_argument in Ha.
  rewrite (proj2 (lookup_ge_None _ _)) in Ha by lia. check_facts.
  unfold operand_type in *. rewrite (Hat _ v t Hv Ht) in *.
  destruct Hvar as [Hvar|Hvar]; [|apply lookup_lt_Some in Hv; lia].
  split; [done|]. intros Habi. rewrite Hvar, bool_decide_eq_true_2 in * by done.
  simpl in *. by apply negb_false_iff.
Qed.

Lemma available_exists v : avail v -> is_Some (type_of_value f v).
Proof.
  unfold value_available, type_of_value. destruct (cog_ir_get_value f v) as [u|]; [|done].
  intros _. by exists (value_type u).
Qed.

Lemma verify_call_result_as ft :
  fst (verify_call_result m x ft) = true -> exists a, type_as_of m (result_type ft) = Some a
    /\ insn_result_type x = (if bool_decide (a = AsVoid) then COG_IR_ID_INVALID else result_type ft).
Proof.
  unfold verify_call_result, type_as_of. destruct (cog_ir_get_type m (result_type ft)) as [t|]; [|done].
  intros H. exists (type_as t). split; [done|]. unfold type_kind in H.
  destruct (decide (type_as t = AsVoid)) as [He|Hne].
  - rewrite He in H. simpl in H. check_facts. by rewrite bool_decide_eq_true_2.
  - rewrite bool_decide_eq_false_2 by done. destruct (type_as t); try done; simpl in H; by check_facts.
Qed.

Lemma verify_call_sound :
  op x = COG_IR_OP_CALL -> fst (verify_call m f block ord x) = true -> wt.
Proof.
  unfold verify_call. intros Ho H. destruct (as_call x) as [callee args] eqn:Has. check_facts.
  destruct (operand_as m f callee) as [[]|] eqn:Hc; try done. check_facts.
  match goal with H : fst (check_all _ _) = true |- _ => rewrite fst_check_all in H;
    rename H into Hargs end.
  match goal with H : fst (verify_call_result _ _ _) = true |- _ =>
    apply verify_call_result_as in H; destruct H as (a & Hra & Hres) end.
  assert (Hav : Forall (fun v => avail v) args).
  { apply Forall_lookups. intros i v Hv. specialize (Hargs i v Hv).
    unfold verify_call_argument in Hargs. by check_facts. }
  match goal with H : (_ <? _)%nat = false |- _ => apply Nat.ltb_ge in H; rename H into Hlen end.
  destruct (call_argument_types function args) as (extra & Hts & Hextra); [done | done | | |].
  { match goal with H : negb (is_variadic _) && _ = false |- _ => rename H into Hv end.
    destruct (is_variadic function); [by left|]. right. simpl in Hv.
    apply negb_false_iff in Hv. by apply Nat.eqb_eq. }
  { intros v Hv. rewrite Forall_forall in Hav. by apply available_exists, Hav. }
  apply operand_as_Some in Hc. destruct Hc as (ct & Hct & Hcas).
  eapply well_typed_list; [unfold operands; by rewrite Ho, Has | by constructor | |].
  - constructor; [exact Hct | exact Hts].
  - rewrite Hres. eapply rule_call; [done | done | | done | done].
    intros Habi. rewrite Has. simpl.
    match goal with H : bool_decide _ && negb (callee_abi_ok _ _ _) = false |- _ =>
      rewrite bool_decide_eq_true_2 in H by done; simpl in H; by apply negb_false_iff end.
Qed.

(** What the result of a verified instruction is. *)
Definition result_recorded : Prop :=
  if (insn_result_type x =? COG_IR_ID_INVALID)%N
  then insn_result x = COG_IR_ID_INVALID /\ result_is_discarded x = false
  else exists r, cog_ir_get_value f (insn_result x) = Some r
         /\ value_type r = insn_result_type x /\ value_kind r = COG_IR_VALUE_INSTRUCTION
         /\ value_block r = block /\ ordinal r = N.of_nat ord.

Lemma verify_result_sound : fst (verify_result m f block ord x) = true -> result_recorded.
Proof.
  unfold verify_result, result_recorded. intros H. check_facts.
  destruct (_ =? _)%N; check_facts; [done|].
  destruct (cog_ir_get_value f (insn_result x)) as [r|]; check_facts. by exists r.
Qed.

Lemma verify_instruction_sound :
  fst (verify_instruction m f block ord x) = true -> wt /\ result_recorded.
Proof.
  unfold verify_instruction. intros [Hr Hop]%fst_and_then. split; [|by apply verify_result_sound].
  unfold verify_op in Hop. destruct (op x) eqn:Ho; eauto using verify_const_sound,
    verify_function_ref_sound, verify_local_addr_sound, verify_global_addr_sound,
    verify_type_query_sound, verify_load_sound, verify_store_sound, verify_fneg_sound,
    verify_bool_not_sound, verify_ptr_qualify_sound, verify_cast_checked_sound,
    verify_int_truncate_sound, verify_ptr_reinterpret_sound, verify_c_vararg_promote_sound,
    verify_asm_sound, verify_call_sound, verify_field_addr_sound, verify_array_elem_addr_sound,
    verify_ptr_index_addr_sound, verify_make_struct_sound, verify_make_array_sound,
    verify_extract_field_sound, verify_extract_element_sound;
    first [ apply verify_integer_binary_sound; [by rewrite Ho | done]
          | apply verify_shift_sound; [by rewrite Ho | done]
          | apply verify_integer_unary_sound; [by rewrite Ho | done]
          | apply verify_float_binary_sound; [by rewrite Ho | done]
          | apply verify_icmp_sound; [by rewrite Ho | done]
          | apply verify_fcmp_sound; [by rewrite Ho | done]
          | apply verify_ptr_compare_sound; [by rewrite Ho | done] ].
Qed.

(** *** The converse: what the rules admit is accepted *)

Lemma type_has_kind_of t a k :
  type_as_of m t = Some a -> type_has_kind m t k = bool_decide (kind_of a = k).
Proof.
  unfold type_has_kind, type_as_of. destruct (cog_ir_get_type m t) as [u|]; [|done].
  intros [= <-]. unfold type_kind. by destruct (type_as u).
Qed.

Lemma operand_kind v t a k :
  type_of_value f v = Some t -> type_as_of m t = Some a ->
  is_kind m f v k = bool_decide (kind_of a = k).
Proof. intros Ht Ha. unfold is_kind, operand_type. rewrite Ht. by apply type_has_kind_of. Qed.

Lemma required v label : avail v -> fst (REQUIRE_VALUE f block ord x v label) = true.
Proof. intros H. unfold REQUIRE_VALUE. by rewrite H. Qed.

Lemma accepted_pair v w t u ts :
  Forall (fun v => avail v) [v; w] -> Forall2 (fun v t => type_of_value f v = Some t) [v; w] ts ->
  ts = [t; u] ->
  avail v /\ avail w /\ type_of_value f v = Some t /\ type_of_value f w = Some u.
Proof.
  intros Ha Ht ->. apply Forall_cons in Ha. destruct Ha as [Hv Hw]. rewrite Forall_singleton in Hw.
  apply Forall2_cons in Ht. destruct Ht as [Htv Htw]. apply Forall2_cons in Htw.
  destruct Htw as [Htw _]. by split_and!.
Qed.

Lemma accepted_one v t ts :
  Forall (fun v => avail v) [v] -> Forall2 (fun v t => type_of_value f v = Some t) [v] ts ->
  ts = [t] -> avail v /\ type_of_value f v = Some t.
Proof.
  intros Ha Ht ->. rewrite Forall_singleton in Ha. apply Forall2_cons in Ht. by destruct Ht.
Qed.

(** Rewrite with what is known of the operands, then compute. *)
Ltac accept :=
  rewrite ?fst_and_then, ?andb_true_iff, ?fst_error_if; split_and?; try (by apply required);
  unfold operand_is_result, same_operand_types, is_kind, operand_as, operand_pointee,
    operand_type, result_is_bool, is_pointer_comparable_type;
  repeat match goal with
  | H : type_of_value f ?v = Some _ |- context [type_of_value f ?v] => rewrite H; simpl
  | H : type_as_of m ?t = Some ?a |- context [type_has_kind m ?t ?k] =>
      rewrite (type_has_kind_of t a k H); simpl
  | H : type_as_of m ?t = Some (AsPointer ?p ?ro ?vol) |- context [pointer_pointee m ?t] =>
      rewrite (proj2 (pointer_pointee_as m t p ro vol) H); simpl
  | H : type_as_of m ?t = Some _ |- context [type_as_of m ?t] => rewrite H; simpl
  | H : ?g = Some ?c |- context [?g] => rewrite H; simpl
  | H : insn_result_type x = _ |- _ => rewrite H
  end; simpl;
  rewrite ?N.eqb_refl, ?Z.eqb_refl, ?Bool.eqb_reflx, ?bool_decide_eq_true_2 by done; simpl.

(** The payload of the instruction, in the goal and in the premises. *)
Ltac payload :=
  repeat match goal with
  | |- context [let '(_, _) := ?p in _] =>
      let E := fresh "E" in destruct p as [? ?] eqn:E;
      repeat match goal with H : context [p] |- _ => lazymatch H with E => fail | _ => rewrite E in H end end
  end; simpl in *.

(** The operands' availability and types, one by one. *)
Ltac operand_facts :=
  repeat match goal with
  | H : Forall _ (_ :: _) |- _ => apply Forall_cons in H; destruct H
  | H : Forall2 _ (_ :: _) (_ :: _) |- _ => apply Forall2_cons in H; destruct H
  end.

Lemma only_adds_true a b : (a = true -> b = true) -> only_adds a b = true.
Proof. by rewrite only_adds_spec. Qed.

Lemma guard_from a b : (a = true -> b = true) -> a && negb b = false.
Proof. destruct a, b; simpl; naive_solver. Qed.

Lemma guard_holds (P : Prop) `{Decision P} b : (P -> b = false) -> bool_decide P && b = false.
Proof. intros Hb. destruct (decide P) as [HP|HP]; [by rewrite Hb, andb_false_r|].
  by rewrite bool_decide_eq_false_2. Qed.

Lemma verify_op_integer_binary :
  integer_binary_op (op x) = true ->
  verify_op m f block ord x = verify_integer_binary m f block ord x.
Proof. unfold verify_op. by destruct (op x). Qed.
Lemma verify_op_shift :
  shift_op (op x) = true -> verify_op m f block ord x = verify_shift m f block ord x.
Proof. unfold verify_op. by destruct (op x). Qed.
Lemma verify_op_integer_unary :
  integer_unary_op (op x) = true ->
  verify_op m f block ord x = verify_integer_unary m f block ord x.
Proof. unfold verify_op. by destruct (op x). Qed.
Lemma verify_op_float_binary :
  float_binary_op (op x) = true ->
  verify_op m f block ord x = verify_float_binary m f block ord x.
Proof. unfold verify_op. by destruct (op x). Qed.
Lemma verify_op_icmp :
  integer_compare_op (op x) = true -> verify_op m f block ord x = verify_icmp m f block ord x.
Proof. unfold verify_op. by destruct (op x). Qed.
Lemma verify_op_fcmp :
  float_compare_op (op x) = true -> verify_op m f block ord x = verify_fcmp m f block ord x.
Proof. unfold verify_op. by destruct (op x). Qed.
Lemma verify_op_ptr_compare :
  pointer_compare_op (op x) = true ->
  verify_op m f block ord x = verify_ptr_compare m f block ord x.
Proof. unfold verify_op. by destruct (op x). Qed.

(** Rules of an operation of their own. *)
Ltac own_rule :=
  match goal with H : op x = _ |- _ =>
    unfold operands in *; rewrite H in *; unfold verify_op; rewrite H
  end; operand_facts.

Lemma verify_make_array_accepts e n :
  Forall (fun v => avail v) (as_aggregate x) ->
  Forall2 (fun v t => type_of_value f v = Some t) (as_aggregate x) (replicate (N.to_nat n) e) ->
  type_as_of m (insn_result_type x) = Some (AsArray e n) ->
  fst (verify_make_array m f block ord x) = true.
Proof.
  intros Hav Hts Ha. unfold verify_make_array. rewrite Ha.
  pose proof (Forall2_length _ _ _ Hts) as Hl. rewrite length_replicate in Hl.
  rewrite Hl, N2Nat.id, N.eqb_refl. simpl. apply fst_check_all. intros i v Hv.
  rewrite fst_and_then, fst_error_if. split.
  - apply required. rewrite Forall_lookup in Hav. by eapply Hav.
  - apply negb_false_iff, bool_decide_eq_true. unfold operand_type.
    eapply Forall2_lookup_lr in Hts; [exact Hts | done|]. apply lookup_replicate_2.
    rewrite <- Hl. by eapply lookup_lt_Some.
Qed.

Lemma verify_make_struct_accepts g :
  Forall (fun v => avail v) (as_aggregate x) ->
  Forall2 (fun v t => type_of_value f v = Some t) (as_aggregate x)
    (field_type <$> agg_fields g) ->
  type_as_of m (insn_result_type x) = Some (AsStruct g) -> is_complete g = true ->
  fst (verify_make_struct m f block ord x) = true.
Proof.
  intros Hav Hts Ha Hc. unfold verify_make_struct. rewrite Ha, Hc.
  pose proof (Forall2_length _ _ _ Hts) as Hl. rewrite length_fmap in Hl.
  rewrite Hl, Nat.eqb_refl. simpl. apply fst_check_all. intros i [v fld] Hz.
  apply lookup_zip_with_Some in Hz. destruct Hz as (v' & fld' & [= -> ->] & Hv & Hfld).
  rewrite fst_and_then, fst_error_if. split.
  - apply required. rewrite Forall_lookup in Hav. by eapply Hav.
  - apply negb_false_iff, bool_decide_eq_true. unfold operand_type. simpl.
    eapply Forall2_lookup_lr in Hts; [exact Hts | done|].
    by rewrite list_lookup_fmap, Hfld.
Qed.

Lemma verify_asm_accepts bits s :
  Forall (fun v => avail v) (snd <$> snd (as_asm x)) ->
  Forall2 (fun v t => type_of_value f v = Some t) (snd <$> snd (as_asm x))
    (replicate (length (snd (as_asm x))) (insn_result_type x)) ->
  type_as_of m (insn_result_type x) = Some (AsInteger bits s) ->
  (String.eqb (fst (as_asm x)) "+r" = true /\ snd (as_asm x) <> []
   \/ String.eqb (fst (as_asm x)) "+r" = false
      /\ asm_constraint_is_valid_for_ir (fst (as_asm x)) true = true) ->
  (forall i p, snd (as_asm x) !! i = Some p ->
     String.eqb (fst (as_asm x)) "+r" && (i =? 0)%nat && String.eqb (fst p) "+r"
     || asm_constraint_is_valid_for_ir (fst p) false = true) ->
  fst (verify_asm m f block ord x) = true.
Proof.
  intros Hav Hts Ha Hout Hins. unfold verify_asm. destruct (as_asm x) as [out ins]. simpl in *.
  rewrite fst_and_then, fst_error_if, fst_check_all. split.
  - intros i p Hp. apply required. rewrite Forall_fmap, Forall_lookup in Hav. by eapply Hav.
  - apply negb_false_iff. rewrite !andb_true_iff. split_and!.
    + destruct Hout as [[-> _]|[-> ->]]; done.
    + by rewrite (type_has_kind_of _ _ _ Ha).
    + destruct Hout as [[-> Hne]|[-> _]]; [by destruct ins | done].
    + apply Is_true_true, forallb_True, Forall_lookup. intros i q Hq.
      rewrite list_lookup_imap in Hq. destruct (ins !! i) as [p|] eqn:Hp; [|done].
      injection Hq as <-. apply Is_true_true. unfold asm_input_ok. simpl.
      assert (Hty : type_of_value f (snd p) = Some (insn_result_type x)).
      { eapply Forall2_lookup_lr in Hts; [exact Hts | by rewrite list_lookup_fmap, Hp |].
        apply lookup_replicate_2. by eapply lookup_lt_Some. }
      rewrite (operand_kind _ _ _ _ Hty Ha), (proj2 (operand_is_result_Some _ _ _) Hty).
      by apply Hins.
Qed.

Lemma verify_call_argument_accepts ft args extra i v :
  Forall (fun v => avail v) args ->
  Forall2 (fun v t => type_of_value f v = Some t) args (parameter_types ft ++ extra) ->
  Forall (variadic_argument_ok m ft) extra -> args !! i = Some v ->
  fst (verify_call_argument m f block ord x ft i v) = true.
Proof.
  intros Hav Hts Hex Hv. unfold verify_call_argument. rewrite fst_and_then. split.
  { apply required. rewrite Forall_lookup in Hav. by eapply Hav. }
  destruct (Forall2_lookup_l _ _ _ _ _ Hts Hv) as (t & Ht & Hty). unfold operand_type.
  destruct (parameter_types ft !! i) as [p|] eqn:Hp; apply fst_error_if.
  - rewrite (lookup_app_l_Some _ _ _ _ Hp) in Ht. injection Ht as <-.
    by apply negb_false_iff, bool_decide_eq_true.
  - apply lookup_ge_None in Hp. rewrite lookup_app_r in Ht by done.
    rewrite Forall_lookup in Hex. destruct (Hex _ _ Ht) as [Hvar Habi]. rewrite Hvar, Hty. simpl.
    apply guard_holds. intros Hc. by rewrite Habi.
Qed.

Lemma verify_call_accepts ct ft extra a :
  Forall (fun v => avail v) (fst (as_call x) :: snd (as_call x)) ->
  Forall2 (fun v t => type_of_value f v = Some t) (fst (as_call x) :: snd (as_call x))
    (ct :: parameter_types ft ++ extra) ->
  type_as_of m ct = Some (AsFunction ft) ->
  (ft_abi ft = COG_IR_ABI_C -> callee_abi_ok m f (fst (as_call x)) = true) ->
  Forall (variadic_argument_ok m ft) extra ->
  type_as_of m (result_type ft) = Some a ->
  insn_result_type x = (if bool_decide (a = AsVoid) then COG_IR_ID_INVALID else result_type ft) ->
  fst (verify_call m f block ord x) = true.
Proof.
  intros Hav Hts Hct Habi Hex Ha Hres. unfold verify_call.
  destruct (as_call x) as [callee args]. simpl in *. operand_facts.
  match goal with H : Forall2 _ args _ |- _ => rename H into Hargs end.
  pose proof (Forall2_length _ _ _ Hargs) as Hl. rewrite length_app in Hl.
  rewrite fst_and_then. split; [by apply required|].
  rewrite (proj2 (operand_as_Some m f callee (AsFunction ft))) by eauto.
  rewrite !fst_and_then, !fst_error_if, fst_check_all. split_and!.
  - apply guard_holds. intros Hc. by rewrite Habi.
  - apply orb_false_iff. split; [apply Nat.ltb_ge; lia|].
    destruct (is_variadic ft) eqn:Hv; [done|]. simpl. apply negb_false_iff, Nat.eqb_eq.
    destruct extra as [|t extra]; [simpl in Hl; lia|]. apply Forall_cons in Hex.
    destruct Hex as [[? _] _]. congruence.
  - intros i v Hv. by eapply verify_call_argument_accepts.
  - unfold verify_call_result. unfold type_as_of in Ha.
    destruct (cog_ir_get_type m (result_type ft)) as [t|]; [|done]. injection Ha as Ha.
    unfold type_kind. rewrite Ha. destruct (decide (a = AsVoid)) as [->|Hne].
    + simpl. rewrite Hres. by rewrite bool_decide_eq_true_2.
    + rewrite bool_decide_eq_false_2 in Hres by done.
      rewrite bool_decide_eq_false_2 by by destruct a. by rewrite Hres, N.eqb_refl.
Qed.

Lemma verify_op_accepts : wt -> fst (verify_op m f block ord x) = true.
Proof.
  intros (Hav & ts & Hts & Hr). remember (insn_result_type x) as r eqn:Hres. symmetry in Hres.
  destruct Hr.
  - own_rule. unfold verify_const. accept. by rewrite (proj2 (N.eqb_neq _ _)).
  - own_rule. unfold verify_function_ref. by accept.
  - unfold verify_op. destruct H as [-> | ->]; unfold verify_type_query; rewrite H0; accept;
      by rewrite H2, Z.eqb_refl.
  - own_rule. unfold verify_local_addr. by accept.
  - own_rule. unfold verify_global_addr. by accept.
  - own_rule. unfold verify_load. payload. accept. by rewrite guard_from.
  - own_rule. unfold verify_store. payload. accept. by rewrite guard_from.
  - rewrite verify_op_integer_binary by done. rewrite binary_operands in * by (by rewrite H).
    operand_facts. unfold verify_integer_binary, require_binary. by accept.
  - rewrite verify_op_shift by done. rewrite binary_operands in * by (by rewrite H, orb_true_r).
    operand_facts. unfold verify_shift, require_binary. accept.
    rewrite fst_and_then, !fst_error_if. split; apply guard_holds; [|done].
    intros Ho. by rewrite H2.
  - rewrite verify_op_integer_unary by done. rewrite unary_operands in * by done.
    operand_facts. unfold verify_integer_unary. by accept.
  - rewrite verify_op_float_binary by done.
    rewrite binary_operands in * by (by rewrite H, !orb_true_r).
    operand_facts. unfold verify_float_binary, require_binary. by accept.
  - own_rule. unfold verify_fneg. by accept.
  - rewrite verify_op_icmp by done. rewrite binary_operands in * by (by rewrite H, !orb_true_r).
    operand_facts. unfold verify_icmp, require_binary.
    rewrite signed_compare_between, unsigned_compare_between. accept; [done|].
    apply fst_error_if. rewrite guard_from by done. simpl.
    destruct (unsigned_compare_op (op x)), s; naive_solver.
  - rewrite verify_op_icmp by done. rewrite binary_operands in * by (by rewrite H, !orb_true_r).
    operand_facts. unfold verify_icmp, require_binary. by accept.
  - rewrite verify_op_icmp by done. rewrite binary_operands in * by (by rewrite H, !orb_true_r).
    operand_facts. unfold verify_icmp, require_binary. by accept.
  - rewrite verify_op_fcmp by done. rewrite binary_operands in * by (by rewrite H, !orb_true_r).
    operand_facts. unfold verify_fcmp, require_binary. by accept.
  - rewrite verify_op_ptr_compare by done. rewrite binary_operands in * by (by rewrite H, !orb_true_r).
    operand_facts. unfold verify_ptr_compare, require_binary.
    rewrite ?fst_and_then, fst_error_if. split_and!; try by apply required.
    unfold same_operand_types, operand_type, result_is_bool.
    match goal with Hl : type_of_value f (fst _) = _, Hr : type_of_value f (snd _) = _ |- _ =>
      rewrite Hl, Hr end.
    rewrite Hres, (type_has_kind_of r AsBool), N.eqb_refl by done. by rewrite H0.
  - own_rule. unfold verify_bool_not. by accept.
  - own_rule. unfold verify_ptr_qualify. payload. subst. accept. by rewrite !only_adds_true.
  - own_rule. unfold verify_ptr_qualify. payload. subst. accept. by rewrite !only_adds_true.
  - own_rule. unfold verify_cast_checked. payload. subst. accept. done.
  - own_rule. unfold verify_cast_checked. payload. subst. accept. rewrite H1, H3, orb_true_r. done.
  - own_rule. unfold verify_cast_checked. payload. subst. accept. rewrite !orb_true_r. done.
  - own_rule. unfold verify_int_truncate. payload. subst. by accept.
  - own_rule. unfold verify_ptr_reinterpret. payload. subst. accept. by rewrite !only_adds_true.
  - own_rule. unfold verify_ptr_reinterpret. payload. subst. accept. by rewrite !only_adds_true.
  - own_rule. unfold verify_c_vararg_promote. payload. subst. accept. by rewrite H0.
  - own_rule. subst r. eapply verify_asm_accepts; [done.. | |].
    + right. by rewrite (proj2 (String.eqb_neq _ _)).
    + intros i p Hp. rewrite Forall_lookup in H3. by rewrite (H3 i p Hp), orb_true_r.
  - own_rule. subst r. eapply verify_asm_accepts; [done.. | |].
    + left. rewrite H1, String.eqb_refl, H2. done.
    + rewrite H1, H2, String.eqb_refl. intros [|j] p Hp; simpl in *.
      * injection Hp as <-. destruct H3 as [-> | ->]; [done | by rewrite orb_true_r].
      * rewrite Forall_lookup in H4. by rewrite (H4 j p Hp).
  - unfold operands in *. unfold verify_op. rewrite H in *. by eapply verify_call_accepts.
  - own_rule. unfold verify_field_addr. payload. destruct H1 as [Hagg|Hagg]; by accept.
  - own_rule. unfold verify_array_elem_addr. payload. by accept.
  - own_rule. unfold verify_ptr_index_addr. payload. by accept.
  - own_rule. subst r. by eapply verify_make_struct_accepts.
  - own_rule. subst r. by eapply verify_make_array_accepts.
  - own_rule. unfold verify_extract_field. payload. destruct H0 as [Hagg|Hagg]; by accept.
  - own_rule. unfold verify_extract_element. payload. accept.
    apply negb_false_iff, andb_true_iff. split; [by apply N.ltb_lt | done].
Qed.

Lemma verify_result_iff :
  fst (verify_result m f block ord x) = true
  <-> valid_span m (insn_span x) = true /\ result_recorded.
Proof.
  split.
  - intros H. split; [|by apply verify_result_sound].
    unfold verify_result in H. by check_facts.
  - unfold verify_result, result_recorded. intros [Hs Hr].
    rewrite fst_and_then, fst_error_if, Hs. split; [done|].
    destruct (_ =? _)%N.
    + destruct Hr as [-> ->]. done.
    + destruct Hr as (r & -> & -> & -> & -> & ->). by rewrite !N.eqb_refl, bool_decide_eq_true_2.
Qed.

Lemma verify_instruction_iff :
  fst (verify_instruction m f block ord x) = true
  <-> valid_span m (insn_span x) = true /\ result_recorded /\ wt.
Proof.
  unfold verify_instruction. rewrite fst_and_then, verify_result_iff. split.
  - intros [[Hs Hr] Ho]. split_and!; [done..|]. apply verify_instruction_sound.
    unfold verify_instruction. by rewrite fst_and_then, verify_result_iff.
  - intros (Hs & Hr & Hw). split; [done | by apply verify_op_accepts].
Qed.
End Agreement.

(** ** The verifier decides the rules *)

(** C10. The verifier decides the typing rules: an instruction passes exactly when its span
    lies in a file of the module, its result is recorded as the value defined at its
    place (or it has none and discards none), its operands are available there, and its
    operation accepts their types and has its result type. *)
Theorem verify_instruction_correct m f block ord x :
  fst (verify_instruction m f block ord x) = true
  <-> valid_span m (insn_span x) = true /\ result_recorded f block ord x
      /\ well_typed m f block ord x.
Proof. apply verify_instruction_iff. Qed.
