(* ===== verification/CogIrSafety.v ===== *)
(** What verification buys: an abstract machine that runs CogIR functions on values
    known by their types only, and the proof that a verified function never uses a
    value that has not been computed, nor one of a wrong type. *)
From S2P Require Import Prelude Source Target CogIr CogIrBuilder CogIrInvariant CogIrTheory.
From S2P Require Import CogIrVerify CogIrTyping.

(** ** The machine *)

(** The values computed so far in the block being executed, with those of the
    function's parameters: for each its type. *)
Abbreviation env := (gmap N CogIrTypeId).

Definition params_env (f : CogIrFunction) (ft : CogIrFunctionType) : env :=
  list_to_map (zip (function_parameters f) (parameter_types ft)).

Definition block_env (b : CogIrBlock) (ts : list CogIrTypeId) : env :=
  list_to_map (zip (param_value <$> items (block_parameters b)) ts).

Inductive state : Type :=
| Executing (block : CogIrBlockId) (i : nat) (G : env)
| Jumping (e : CogIrBranchEdge) (G : env)
| Finished (result : option CogIrTypeId)
| Trapping (reason : CogIrTrapReason)
| Lost.

Definition final (s : state) : Prop :=
  match s with
  | Finished _ | Trapping _ | Lost => True
  | Executing _ _ _ | Jumping _ _ => False
  end.

(** The values [vs] are there and have types [ts]. *)
Definition held (G : env) (vs : list CogIrValueId) (ts : list CogIrTypeId) : Prop :=
  Forall2 (fun v t => G !! v = Some t) vs ts.

(** A discarded result is not kept. *)
Definition bind_result (x : CogIrInstruction) (G : env) : env :=
  if (insn_result_type x =? COG_IR_ID_INVALID)%N || result_is_discarded x then G
  else <[insn_result x := insn_result_type x]> G.

Definition switchable (a : TypeAs) : bool :=
  match a with AsInteger _ _ | AsBool | AsEnum _ => true | _ => false end.

Definition key_of_type (m : CogIrModule) (t : CogIrTypeId) (c : CogIrSwitchCase) : Prop :=
  exists k, cog_ir_get_constant m (key c) = Some k /\ const_type k = t.

Inductive step (m : CogIrModule) (f : CogIrFunction) (ft : CogIrFunctionType)
    : state -> state -> Prop :=
| step_instruction b i G blk x ts :
    cog_ir_get_block f b = Some blk -> items (instructions blk) !! i = Some x ->
    held G (operands x) ts -> op_rule m f x ts (insn_result_type x) ->
    step m f ft (Executing b i G) (Executing b (S i) (bind_result x G))
| step_br b G blk e :
    cog_ir_get_block f b = Some blk -> term_as (terminator blk) = TermBr e ->
    step m f ft (Executing b (length (items (instructions blk))) G) (Jumping e G)
| step_cond_br b G blk c t e1 e2 e :
    cog_ir_get_block f b = Some blk -> term_as (terminator blk) = TermCondBr c e1 e2 ->
    G !! c = Some t -> type_as_of m t = Some AsBool -> e = e1 \/ e = e2 ->
    step m f ft (Executing b (length (items (instructions blk))) G) (Jumping e G)
| step_switch b G blk v t a cases default e :
    cog_ir_get_block f b = Some blk -> term_as (terminator blk) = TermSwitch v cases default ->
    G !! v = Some t -> type_as_of m t = Some a -> switchable a = true ->
    Forall (key_of_type m t) (elements cases) ->
    e ∈ default :: (case_edge <$> elements cases) ->
    step m f ft (Executing b (length (items (instructions blk))) G) (Jumping e G)
| step_ret_void b G blk :
    cog_ir_get_block f b = Some blk -> term_as (terminator blk) = TermRet None ->
    type_as_of m (result_type ft) = Some AsVoid ->
    step m f ft (Executing b (length (items (instructions blk))) G) (Finished None)
| step_ret b G blk v a :
    cog_ir_get_block f b = Some blk -> term_as (terminator blk) = TermRet (Some v) ->
    type_as_of m (result_type ft) = Some a -> a <> AsVoid -> G !! v = Some (result_type ft) ->
    step m f ft (Executing b (length (items (instructions blk))) G)
      (Finished (Some (result_type ft)))
| step_trap b G blk r :
    cog_ir_get_block f b = Some blk -> term_as (terminator blk) = TermTrap r ->
    step m f ft (Executing b (length (items (instructions blk))) G) (Trapping r)
| step_unreachable b G blk :
    cog_ir_get_block f b = Some blk -> term_as (terminator blk) = TermUnreachable ->
    step m f ft (Executing b (length (items (instructions blk))) G) Lost
| step_jump e G blk :
    cog_ir_get_block f (target e) = Some blk ->
    held G (arguments e) (param_type <$> items (block_parameters blk)) ->
    step m f ft (Jumping e G)
      (Executing (target e) 0
         (block_env blk (param_type <$> items (block_parameters blk)) ∪ params_env f ft)).

(** A call: the function's parameters and nothing else. *)
Definition initial (f : CogIrFunction) (ft : CogIrFunctionType) : state :=
  Executing (entry_block f) 0 (params_env f ft).

(** ** Safety of one function *)

Section Function.
Context (m : CogIrModule) (f : CogIrFunction) (ft : CogIrFunctionType).
Hypothesis Hfn : fn_ok (types m) f.
Hypothesis Htype : type_as_of m (function_type f) = Some (AsFunction ft).
Hypothesis Hver : fst (verify_definition m f ft) = true.

Lemma get_block_items b blk :
  cog_ir_get_block f b = Some blk <-> items (blocks f) !! N.to_nat b = Some blk.
Proof. unfold cog_ir_get_block. rewrite table_get_ok; [done | apply (fn_tables _ _ Hfn)]. Qed.

Lemma get_value_items v u :
  cog_ir_get_value f v = Some u <-> items (values f) !! N.to_nat v = Some u.
Proof. unfold cog_ir_get_value. rewrite table_get_ok; [done | apply (fn_tables _ _ Hfn)]. Qed.

Lemma verified_block b blk :
  cog_ir_get_block f b = Some blk -> fst (verify_block m f ft (N.to_nat b) blk) = true.
Proof.
  intros Hb%get_block_items. unfold verify_definition in Hver.
  rewrite !fst_and_then, !fst_check_all in Hver. naive_solver.
Qed.

Lemma block_id_of b blk : cog_ir_get_block f b = Some blk -> block_id blk = b.
Proof.
  intros Hb%get_block_items. destruct (fn_blocks _ _ Hfn _ _ Hb) as [-> _]. apply N2Nat.id.
Qed.

Lemma verified_instruction b blk i x :
  cog_ir_get_block f b = Some blk -> items (instructions blk) !! i = Some x ->
  well_typed m f b i x /\ result_recorded f b i x.
Proof.
  intros Hb Hx. pose proof (verified_block _ _ Hb) as Hv. unfold verify_block in Hv.
  rewrite !fst_and_then, !fst_check_all in Hv. destruct Hv as [[[_ _] Hi] _].
  specialize (Hi i x Hx). rewrite (block_id_of _ _ Hb) in Hi.
  by apply verify_instruction_sound in Hi.
Qed.

(** *** Environments *)

(** Everything available before instruction [i] of block [b] is there. *)
Definition env_ok (b : CogIrBlockId) (i : nat) (G : env) : Prop :=
  forall v t, value_available f b (N.of_nat i) v = true -> type_of_value f v = Some t ->
    G !! v = Some t.

Lemma type_of_value_items v t :
  type_of_value f v = Some t
  <-> exists u, items (values f) !! N.to_nat v = Some u /\ value_type u = t.
Proof.
  unfold type_of_value. destruct (cog_ir_get_value f v) as [u|] eqn:Hu; simpl.
  - apply get_value_items in Hu. naive_solver.
  - split; [done|]. intros (u & Hu' & _). apply get_value_items in Hu'. congruence.
Qed.

Lemma held_operands b i G vs ts :
  env_ok b i G -> Forall (fun v => value_available f b (N.of_nat i) v = true) vs ->
  Forall2 (fun v t => type_of_value f v = Some t) vs ts -> held G vs ts.
Proof.
  intros HG Hav Hts. unfold held. induction Hts; [constructor|].
  apply Forall_cons in Hav. destruct Hav. constructor; [by apply HG | by apply IHHts].
Qed.

(** The instruction that defines an available value. *)
Lemma available_instruction b i v u :
  value_available f b (N.of_nat i) v = true -> items (values f) !! N.to_nat v = Some u ->
  value_kind u = COG_IR_VALUE_INSTRUCTION ->
  exists blk x, cog_ir_get_block f b = Some blk
    /\ items (instructions blk) !! N.to_nat (ordinal u) = Some x
    /\ (ordinal u < N.of_nat i)%N /\ result_is_discarded x = false
    /\ insn_result x = v /\ insn_result_type x = value_type u.
Proof.
  unfold value_available. intros Hav Hu Hk. rewrite (proj2 (get_value_items v u) Hu), Hk in Hav.
  destruct (negb _ || _) eqn:Hg; [done|]. check_facts. apply N.leb_gt in H0.
  destruct (fn_values _ _ Hfn _ _ Hu) as [_ Hsite]. unfold site_ok in Hsite. rewrite Hk in Hsite.
  destruct Hsite as (blk & x & Hb & Hx & Hr & Hrt). rewrite Hb, Hx in Hav.
  exists blk, x. rewrite N2Nat.id in Hr. split_and!; try done.
  - apply get_block_items. by rewrite <- H.
  - by apply negb_true_iff.
Qed.

Lemma env_ok_step b blk i x G :
  cog_ir_get_block f b = Some blk -> items (instructions blk) !! i = Some x ->
  env_ok b i G -> env_ok b (S i) (bind_result x G).
Proof.
  intros Hb Hx HG v t Hav Ht. destruct (verified_instruction b blk i x Hb Hx) as [_ Hrec].
  apply type_of_value_items in Ht as Hu. destruct Hu as (u & Hu & <-).
  unfold bind_result. unfold result_recorded in Hrec.
  destruct (decide (value_available f b (N.of_nat i) v = true)) as [Hold|Hnew].
  - specialize (HG v _ Hold Ht). destruct (_ =? _)%N; [done|].
    destruct (result_is_discarded x); [done|]. simpl.
    destruct (decide (insn_result x = v)) as [<-|Hne]; [|by rewrite lookup_insert_ne].
    destruct Hrec as (r & Hr & Hrt & _). rewrite lookup_insert_eq. f_equal.
    apply get_value_items in Hr. simplify_eq. congruence.
  - assert (Hk : value_kind u = COG_IR_VALUE_INSTRUCTION).
    { unfold value_available in Hav, Hnew. rewrite (proj2 (get_value_items v u) Hu) in *.
      by destruct (value_kind u). }
    destruct (available_instruction b (S i) v u Hav Hu Hk)
      as (blk' & y & Hb' & Hy & Hlt & Hdis & Hres & Hrt). simplify_eq.
    assert (Ho : ordinal u = N.of_nat i).
    { destruct (decide (ordinal u < N.of_nat i)%N) as [Hlt'|]; [|lia]. exfalso. apply Hnew.
      unfold value_available in *. rewrite (proj2 (get_value_items _ u) Hu), Hk in *.
      destruct (negb (value_block u =? b)%N) eqn:Hbl; [done|]. simpl in *.
      rewrite (proj2 (N.leb_gt _ _)) in Hav by done. by rewrite (proj2 (N.leb_gt _ _)). }
    rewrite Ho, Nat2N.id in Hy. simplify_eq. rewrite Hdis.
    destruct (N.eqb_spec (insn_result_type x) COG_IR_ID_INVALID) as [He|_].
    { destruct (fn_values _ _ Hfn _ _ Hu) as [Hex _]. rewrite <- Hrt, He in Hex.
      by apply type_exists_valid in Hex. }
    simpl. by rewrite lookup_insert_eq, Hrt.
Qed.

Lemma elem_of_zip_lookup {A B} (xs : list A) (ys : list B) x y :
  (x, y) ∈ zip xs ys <-> exists i, xs !! i = Some x /\ ys !! i = Some y.
Proof.
  rewrite list_elem_of_lookup. setoid_rewrite lookup_zip_with_Some. split.
  - intros (i & x' & y' & [= <- <-] & Hx & Hy). eauto.
  - intros (i & Hx & Hy). exists i, x, y. done.
Qed.

Lemma params_lookup v u :
  items (values f) !! N.to_nat v = Some u -> value_kind u = COG_IR_VALUE_FUNCTION_PARAMETER ->
  params_env f ft !! v = Some (value_type u).
Proof.
  intros Hu Hk. destruct (fn_signature _ _ Hfn) as (t & ft' & Ht & Has & Hps).
  assert (ft' = ft) as ->.
  { unfold type_as_of, cog_ir_get_type in Htype. rewrite Ht in Htype. simpl in Htype. congruence. }
  assert (Hall : forall i y, function_parameters f !! i = Some v -> parameter_types ft !! i = Some y ->
            y = value_type u).
  { intros i y Hi Hy. destruct (Hps i v Hi) as (ty & Hty & w & Hw & _ & _ & _ & Hwt).
    congruence. }
  destruct (fn_values _ _ Hfn _ _ Hu) as [_ Hsite]. unfold site_ok in Hsite.
  rewrite Hk, N2Nat.id in Hsite. destruct (Hps _ _ Hsite) as (ty & Hty & _).
  unfold params_env. apply elem_of_list_to_map_1'.
  - intros y Hy. apply elem_of_zip_lookup in Hy. destruct Hy as (i & Hi & Hyi).
    symmetry. by eapply Hall.
  - apply elem_of_zip_lookup. exists (N.to_nat (ordinal u)).
    rewrite <- (Hall _ _ Hsite Hty). done.
Qed.

Lemma block_params_lookup b blk v u :
  cog_ir_get_block f b = Some blk -> items (values f) !! N.to_nat v = Some u ->
  value_kind u = COG_IR_VALUE_BLOCK_PARAMETER -> value_block u = b ->
  block_env blk (param_type <$> items (block_parameters blk)) !! v = Some (value_type u).
Proof.
  intros Hb%get_block_items Hu Hk Hub. destruct (fn_values _ _ Hfn _ _ Hu) as [_ Hsite].
  unfold site_ok in Hsite. rewrite Hk, N2Nat.id, Hub in Hsite.
  destruct Hsite as (blk' & p & Hb' & Hp & Hpv & Hpt). simplify_eq.
  destruct (fn_blocks _ _ Hfn _ _ Hb) as (_ & Hps & _).
  unfold block_env. apply elem_of_list_to_map_1'.
  - intros y Hy. apply elem_of_zip_lookup in Hy. destruct Hy as (i & Hi & Hyi).
    rewrite list_lookup_fmap in Hi, Hyi.
    destruct (items (block_parameters blk) !! i) as [q|] eqn:Hq; [|done].
    injection Hi as Hi. injection Hyi as <-.
    destruct (Hps i q Hq) as (w & Hw & _ & _ & _ & Hwt). rewrite Hi in Hw. congruence.
  - apply elem_of_zip_lookup. exists (N.to_nat (ordinal u)).
    rewrite !list_lookup_fmap, Hp. simpl. by rewrite Hpt.
Qed.

(** A function parameter is no block parameter. *)
Lemma block_env_params b blk v u :
  cog_ir_get_block f b = Some blk -> items (values f) !! N.to_nat v = Some u ->
  value_kind u = COG_IR_VALUE_FUNCTION_PARAMETER ->
  block_env blk (param_type <$> items (block_parameters blk)) !! v = None.
Proof.
  intros Hb%get_block_items Hu Hk. apply not_elem_of_list_to_map_1.
  intros Hin. apply list_elem_of_fmap in Hin. destruct Hin as ([v' y] & -> & Hin).
  apply elem_of_zip_lookup in Hin. destruct Hin as (i & Hi & _).
  rewrite list_lookup_fmap in Hi.
  destruct (items (block_parameters blk) !! i) as [q|] eqn:Hq; [|done]. injection Hi as Hi.
  destruct (fn_blocks _ _ Hfn _ _ Hb) as (_ & Hps & _).
  destruct (Hps i q Hq) as (w & Hw & Hwk & _). simpl in *. rewrite Hi in Hw. congruence.
Qed.

(** At the start of a block only parameters are available. *)
Lemma available_at_start b v u :
  value_available f b 0 v = true -> items (values f) !! N.to_nat v = Some u ->
  value_kind u = COG_IR_VALUE_FUNCTION_PARAMETER
  \/ value_kind u = COG_IR_VALUE_BLOCK_PARAMETER /\ value_block u = b.
Proof.
  unfold value_available. intros Hav Hu. rewrite (proj2 (get_value_items v u) Hu) in Hav.
  destruct (value_kind u); [by left | right; split; [done|by apply N.eqb_eq] |].
  rewrite (proj2 (N.leb_le 0 (ordinal u))) in Hav by lia. by rewrite orb_true_r in Hav.
Qed.

Lemma env_ok_enter b blk :
  cog_ir_get_block f b = Some blk ->
  env_ok b 0 (block_env blk (param_type <$> items (block_parameters blk)) ∪ params_env f ft).
Proof.
  intros Hb v t Hav (u & Hu & <-)%type_of_value_items.
  destruct (available_at_start b v u Hav Hu) as [Hk|[Hk Hub]].
  - rewrite lookup_union_r by by eapply block_env_params. by apply params_lookup.
  - apply lookup_union_Some_l. by eapply block_params_lookup.
Qed.

Lemma env_ok_initial b blk :
  cog_ir_get_block f b = Some blk -> items (block_parameters blk) = [] ->
  env_ok b 0 (params_env f ft).
Proof.
  intros Hb Hnil. pose proof (env_ok_enter b blk Hb) as H. rewrite Hnil in H.
  unfold block_env in H. rewrite Hnil in H. simpl in H. by rewrite (left_id_L ∅ (∪)) in H.
Qed.

(** *** Terminators *)

(** At the end of a block everything the terminator may use is there. *)
Lemma terminator_available b blk v :
  cog_ir_get_block f b = Some blk -> terminator_value_available f b v = true ->
  value_available f b (N.of_nat (length (items (instructions blk)))) v = true.
Proof.
  intros Hb. unfold terminator_value_available, value_available.
  destruct (cog_ir_get_value f v) as [u|] eqn:Hu; [|done].
  destruct (value_kind u) eqn:Hk; [done..|].
  destruct (negb (value_block u =? b)%N) eqn:Hub; [done|]. check_facts. simpl.
  destruct (_ <=? _)%N; [done|].
  destruct (items (blocks f) !! _) as [blk'|] eqn:Hb'; [|done].
  destruct (items (instructions blk') !! _) as [y|] eqn:Hy; [|done]. intros Hd.
  rewrite (proj2 (N.leb_gt _ _)); [done|]. apply lookup_lt_Some in Hy.
  assert (blk' = blk) as -> by (apply get_block_items in Hb; rewrite Hub in Hb'; congruence).
  lia.
Qed.

Lemma held_value b blk G v t :
  cog_ir_get_block f b = Some blk -> env_ok b (length (items (instructions blk))) G ->
  terminator_value_available f b v = true -> type_of_value f v = Some t -> G !! v = Some t.
Proof. intros Hb HG Hv Ht. apply HG; [by apply terminator_available | done]. Qed.

(** The edge can be taken from here. *)
Definition edge_ready (e : CogIrBranchEdge) (G : env) : Prop :=
  exists blk, cog_ir_get_block f (target e) = Some blk
    /\ held G (arguments e) (param_type <$> items (block_parameters blk)).

Lemma verified_edge b blk G e span :
  cog_ir_get_block f b = Some blk -> env_ok b (length (items (instructions blk))) G ->
  fst (verify_edge f b e span) = true -> edge_ready e G.
Proof.
  intros Hb HG. unfold verify_edge, edge_ready.
  destruct (cog_ir_get_block f (target e)) as [tb|] eqn:Htb; [|done].
  destruct (negb _) eqn:Hl; [done|]. check_facts. intros Hz. exists tb. split; [done|].
  rewrite fst_check_until in Hz.
  apply Forall2_same_length_lookup_2; [by rewrite length_fmap|].
  intros i v t Hv Ht. rewrite list_lookup_fmap in Ht.
  destruct (items (block_parameters tb) !! i) as [p|] eqn:Hp; [|done]. injection Ht as <-.
  specialize (Hz i (v, p)). rewrite lookup_zip_with, Hv, Hp in Hz. specialize (Hz eq_refl).
  check_facts. by eapply (held_value b blk).
Qed.

Lemma found_available_iff b blk v :
  cog_ir_get_block f b = Some blk -> found_available f blk v = true ->
  terminator_value_available f b v = true /\ is_Some (type_of_value f v).
Proof.
  intros Hb. unfold found_available, type_of_value.
  destruct (cog_ir_get_value f v) as [u|] eqn:Hu; [|done]. intros Hav. split; [|by eexists].
  rewrite (block_id_of _ _ Hb) in Hav. apply get_value_items in Hu.
  rewrite (fn_values_numbered _ _ Hfn _ _ Hu), N2Nat.id in Hav. done.
Qed.

Lemma value_has_kind_type v k :
  value_has_kind m f v k = true -> exists t a, type_of_value f v = Some t
    /\ type_as_of m t = Some a /\ k = kind_of a.
Proof.
  unfold value_has_kind. destruct (type_of_value f v) as [t|]; [|done].
  intros (a & Ha & Hk)%type_has_kind_as. eauto.
Qed.

Lemma verified_cases b span v t cs :
  type_of_value f v = Some t -> forall i before,
  fst (verify_cases m f b span v i before cs) = true ->
  Forall (key_of_type m t) cs
  /\ Forall (fun c => fst (verify_edge f (block_id b) (case_edge c) span) = true) cs.
Proof.
  intros Ht. induction cs as [|c cs IH]; intros i before; cbn [verify_cases]; [done|].
  rewrite !fst_and_then, fst_error_if. intros [[[Hk _] He] Hcs]. apply IH in Hcs.
  destruct Hcs as [Hks Hes]. split; constructor; try done. unfold key_of_type.
  destruct (cog_ir_get_constant m (key c)) as [k|]; [|done]. check_facts. exists k. split; congruence.
Qed.

(** *** The invariant *)

Definition state_ok (s : state) : Prop :=
  match s with
  | Executing b i G => exists blk, cog_ir_get_block f b = Some blk
      /\ (i <= length (items (instructions blk)))%nat /\ env_ok b i G
  | Jumping e G => edge_ready e G
  | Finished _ | Trapping _ | Lost => True
  end.

Lemma verified_terminator b blk :
  cog_ir_get_block f b = Some blk -> fst (verify_terminator m f ft blk) = true.
Proof.
  intros Hb. pose proof (verified_block _ _ Hb) as Hv. unfold verify_block in Hv.
  by rewrite !fst_and_then in Hv; destruct Hv.
Qed.

(** Every edge of a verified terminator can be taken. *)
Definition edges (t : CogIrTerminator) : list CogIrBranchEdge :=
  match term_as t with
  | TermBr e => [e]
  | TermCondBr _ e1 e2 => [e1; e2]
  | TermSwitch _ cases default => default :: (case_edge <$> elements cases)
  | _ => []
  end.

Lemma verified_edges b blk G :
  cog_ir_get_block f b = Some blk -> env_ok b (length (items (instructions blk))) G ->
  Forall (fun e => edge_ready e G) (edges (terminator blk)).
Proof.
  intros Hb HG. pose proof (verified_terminator _ _ Hb) as Hv.
  assert (Hedge : forall e span, fst (verify_edge f (block_id blk) e span) = true -> edge_ready e G).
  { intros e span. rewrite (block_id_of _ _ Hb). by eapply verified_edge. }
  unfold verify_terminator, edges in *. destruct (term_as (terminator blk)); try done;
    rewrite !fst_and_then in Hv; destruct Hv as [_ Hv].
  - constructor; [by eapply Hedge | done].
  - destruct Hv as [[_ H1] H2]. repeat constructor; by eapply Hedge.
  - destruct Hv as [[H1 H2] H3]. constructor; [by eapply Hedge|].
    rewrite fst_error_if in H1. check_facts.
    destruct (found_available_iff b blk value Hb) as [_ [t Ht]]; [done|].
    destruct (verified_cases blk _ value t _ Ht _ _ H2) as [_ Hes].
    apply Forall_fmap. eapply Forall_impl; [exact Hes|]. intros c. simpl. by apply Hedge.
Qed.

(** The terminator of a block whose instructions have run takes a step. *)
Lemma terminator_progress b blk G :
  cog_ir_get_block f b = Some blk -> env_ok b (length (items (instructions blk))) G ->
  exists s', step m f ft (Executing b (length (items (instructions blk))) G) s'.
Proof.
  intros Hb HG. pose proof (verified_terminator _ _ Hb) as Hv. unfold verify_terminator in Hv.
  destruct (term_as (terminator blk)) as [|e|c e1 e2|v cases default|[v|]|r|] eqn:Ht;
    [done|..]; rewrite !fst_and_then in Hv; destruct Hv as [_ Hv].
  - eexists. by eapply step_br.
  - destruct Hv as [[H _] _]. check_facts.
    destruct (found_available_iff b blk c Hb H) as [Hav _].
    destruct (value_has_kind_type _ _ H0) as (t & a & Hc & Ha & Hk). destruct a; try done.
    eexists. eapply step_cond_br; [done | done | by eapply held_value | done | by left].
  - destruct Hv as [[H Hcs] _]. check_facts.
    destruct (found_available_iff b blk v Hb H) as [Hav [t Htv]].
    destruct (verified_cases blk _ v t _ Htv _ _ Hcs) as [Hks _].
    assert (Hsw : exists a, type_as_of m t = Some a /\ switchable a = true).
    { rewrite !orb_true_iff in H0. destruct H0 as [[Hk|Hk]|Hk];
        apply value_has_kind_type in Hk; destruct Hk as (t' & a & Ht' & Ha & Hka);
        simplify_eq; exists a; (split; [done | by destruct a]). }
    destruct Hsw as (a & Ha & Hsw).
    eexists. eapply step_switch; [done | done | by eapply held_value | done | done | done | by left].
  - unfold verify_return, type_as_of in *.
    destruct (cog_ir_get_type m (result_type ft)) as [t|] eqn:Hr; [|done].
    destruct (bool_decide _) eqn:Hvoid; [done|]. apply bool_decide_eq_false in Hvoid. check_facts.
    eexists. eapply step_ret with (a := type_as t); [done | done | unfold type_as_of; by rewrite Hr | |].
    + intros He. apply Hvoid. unfold type_kind. by rewrite He.
    + eapply held_value; [done | done | | done]. by rewrite <- (block_id_of _ _ Hb).
  - unfold verify_return in *.
    destruct (cog_ir_get_type m (result_type ft)) as [t|] eqn:Hr; [|done].
    destruct (bool_decide _) eqn:Hvoid; [|done]. apply bool_decide_eq_true in Hvoid.
    eexists. eapply step_ret_void; [done | done |]. unfold type_as_of. rewrite Hr. simpl.
    unfold type_kind in Hvoid. by destruct (type_as t).
  - eexists. by eapply step_trap.
  - eexists. by eapply step_unreachable.
Qed.

Lemma state_ok_step s s' : state_ok s -> step m f ft s s' -> state_ok s'.
Proof.
  intros Hs Hst.
  assert (Hjump : forall b G blk e, cog_ir_get_block f b = Some blk ->
            state_ok (Executing b (length (items (instructions blk))) G) ->
            e ∈ edges (terminator blk) -> edge_ready e G).
  { intros b G blk e Hb (blk' & Hb' & _ & HG) He. simplify_eq.
    pose proof (verified_edges b blk G Hb HG) as Hall. rewrite Forall_forall in Hall. by apply Hall. }
  destruct Hst; try done; try (eapply Hjump; [done..|]; unfold edges;
    match goal with H : term_as _ = _ |- _ => rewrite H end).
  - destruct Hs as (blk' & Hb' & _ & HG). assert (blk' = blk) as -> by congruence.
    exists blk. split_and!; [done | |].
    + apply lookup_lt_Some in H0. lia.
    + by eapply env_ok_step.
  - by left.
  - destruct H3 as [-> | ->]; set_solver.
  - done.
  - exists blk. split_and!; [done | lia |]. by apply env_ok_enter.
Qed.

Lemma state_ok_progress s : state_ok s -> final s \/ exists s', step m f ft s s'.
Proof.
  destruct s as [b i G|e G| | |]; simpl; try (by left); right.
  - destruct H as (blk & Hb & Hi & HG).
    destruct (decide (i = length (items (instructions blk)))) as [->|Hne].
    + by apply terminator_progress.
    + assert (Hlt : (i < length (items (instructions blk)))%nat) by lia.
      apply lookup_lt_is_Some_2 in Hlt. destruct Hlt as [x Hx].
      destruct (verified_instruction b blk i x Hb Hx) as [(Hav & ts & Hts & Hr) _].
      eexists. eapply step_instruction; [done | done | | done]. by eapply held_operands.
  - destruct H as (blk & Hb & Hheld). eexists. by eapply step_jump.
Qed.
End Function.

(** ** Reports *)

(** Failure and diagnostics go together. *)
Definition explained (r : report) : Prop := fst r = true <-> snd r = [].

Lemma explained_passed : explained passed.
Proof. done. Qed.

Lemma explained_error span format args : explained (ir_error span format args).
Proof. done. Qed.

Lemma explained_error_if b span format args : explained (error_if b span format args).
Proof. by destruct b. Qed.

Lemma explained_and_then r1 r2 : explained r1 -> explained r2 -> explained (r1 &&& r2).
Proof.
  unfold explained. rewrite fst_and_then, snd_and_then, app_nil. intros -> ->. done.
Qed.

Lemma explained_foldr (rs : list report) :
  Forall explained rs -> explained (foldr and_then passed rs).
Proof. induction 1; simpl; [apply explained_passed | by apply explained_and_then]. Qed.

Lemma explained_check_all {A} (check : nat -> A -> report) xs :
  (forall i x, xs !! i = Some x -> explained (check i x)) -> explained (check_all check xs).
Proof.
  intros H. apply explained_foldr, Forall_lookup. intros i r Hr.
  rewrite list_lookup_imap in Hr. destruct (xs !! i) as [x|] eqn:Hx; [|done].
  injection Hr as <-. by apply H.
Qed.

Lemma explained_check_until {A} (check : nat -> A -> report) xs : forall k,
  (forall i x, explained (check i x)) -> explained (check_until check k xs).
Proof.
  induction xs as [|x xs IH]; intros k H; cbn [check_until]; [apply explained_passed|].
  destruct (fst (check k x)); [|done]. apply explained_and_then; [done | by apply IH].
Qed.

Ltac explain :=
  repeat first
    [ apply explained_passed | apply explained_error | apply explained_error_if
    | apply explained_and_then | apply explained_check_all; intros
    | apply explained_check_until; intros
    | match goal with |- explained (match ?x with _ => _ end) => destruct x eqn:? end ].

Section Explained.
Context (m : CogIrModule).
Hypothesis Hm : module_ok m.

(** The types a type refers to exist. *)
Lemma function_result_exists id ft :
  type_as_of m id = Some (AsFunction ft) -> is_Some (cog_ir_get_type m (result_type ft)).
Proof.
  unfold type_as_of. destruct (cog_ir_get_type m id) as [t|] eqn:Ht; [|done]. intros [= Has].
  destruct (mod_types m Hm) as (_ & _ & Hrefs & _). apply table_get_items in Ht.
  destruct (Hrefs _ _ Ht) as [Hr _]. rewrite Has in Hr. apply Forall_cons in Hr. apply Hr.
Qed.

Lemma explained_result f b i x : explained (verify_result m f b i x).
Proof. unfold verify_result. explain. Qed.

Lemma explained_call f b i x : explained (verify_call m f b i x).
Proof.
  unfold verify_call. destruct (as_call x) as [callee args].
  apply explained_and_then; [apply explained_error_if|].
  destruct (operand_as m f callee) as [[]|] eqn:Hc; explain.
  apply operand_as_Some in Hc. destruct Hc as (t & _ & Ht).
  destruct (function_result_exists _ _ Ht) as [rt Hrt].
  unfold verify_call_result. rewrite Hrt. explain.
Qed.

Lemma explained_op f b i x : explained (verify_op m f b i x).
Proof.
  unfold verify_op. destruct (op x); try apply explained_call;
    unfold verify_const, verify_function_ref, verify_type_query, verify_local_addr,
      verify_global_addr, verify_load, verify_store, verify_integer_binary, verify_shift,
      verify_integer_unary, verify_float_binary, verify_fneg, verify_icmp, verify_fcmp,
      verify_ptr_compare, verify_bool_not, verify_ptr_qualify, verify_cast_checked,
      verify_int_truncate, verify_ptr_reinterpret, verify_c_vararg_promote, verify_asm,
      verify_field_addr, verify_array_elem_addr, verify_ptr_index_addr, verify_make_struct,
      verify_make_array, verify_extract_field, verify_extract_element, require_binary,
      REQUIRE_VALUE; explain.
Qed.

Lemma explained_instruction f b i x : explained (verify_instruction m f b i x).
Proof. apply explained_and_then; [apply explained_result | apply explained_op]. Qed.

Lemma explained_edge f b e span : explained (verify_edge f b e span).
Proof. unfold verify_edge. explain. Qed.

Lemma explained_cases f b span v cs : forall i before,
  explained (verify_cases m f b span v i before cs).
Proof.
  induction cs as [|c cs IH]; intros i before; cbn [verify_cases]; [apply explained_passed|].
  apply explained_and_then; [|apply IH]. apply explained_and_then; [|apply explained_edge].
  explain.
Qed.

Lemma explained_terminator f ft b :
  type_as_of m (function_type f) = Some (AsFunction ft) -> explained (verify_terminator m f ft b).
Proof.
  intros Hf. destruct (function_result_exists _ _ Hf) as [rt Hrt].
  unfold verify_terminator, verify_return. rewrite Hrt.
  explain; try apply explained_edge. apply explained_cases.
Qed.

Lemma explained_function f : explained (verify_function m f).
Proof.
  unfold verify_function. destruct (type_as_of m (function_type f)) as [[]|] eqn:Hf;
    try apply explained_error.
  unfold verify_signature, verify_value_abi, verify_no_body, verify_definition, verify_entry,
    verify_parameter, verify_slot, verify_block, verify_block_parameter.
  explain; first [apply explained_op | by apply explained_terminator].
Qed.

Lemma explained_module : explained (verify_module m).
Proof.
  destruct Hm as [_ _ (_ & Hc & _) _ (_ & Hf & _)].
  unfold verify_module, verify_target, verify_entry_function, verify_init_function. explain.
  - unfold verify_constant. rewrite (Hc _ _ H), N.eqb_refl. simpl.
    unfold constant_matches_type. explain.
  - unfold verify_module_function. rewrite (Hf _ _ H), N.eqb_refl. simpl.
    apply explained_function.
Qed.
End Explained.

(** ** The guarantees

    For the modules of any producer. *)

Section Guarantees.
Context (made : CogIrModule -> Prop) {P : ModuleProducer made}.

(** The module is read without a null dereference and passes. *)
Lemma verified_function m ds fid f :
  cog_ir_verify m = Some (true, ds) -> cog_ir_get_function m fid = Some f ->
  fst (verify_function m f) = true.
Proof.
  intros Hv Hf%table_get_items. unfold cog_ir_verify in Hv.
  destruct (forallb _ _); [|done]. apply (inj Some) in Hv. apply (f_equal fst) in Hv.
  unfold verify_module in Hv. simpl in Hv. rewrite !fst_and_then, !fst_check_all in Hv.
  destruct Hv as [[[_ Hfs] _] _]. specialize (Hfs _ _ Hf). unfold verify_module_function in Hfs.
  by destruct (negb _).
Qed.


(** C40. A rejected module is always explained: the verifier of a well-formed module
    fails exactly when it has added a diagnostic. *)
Theorem verification_explained m r :
  made m -> cog_ir_verify m = Some r -> explained r.
Proof.
  intros Hb Hv. unfold cog_ir_verify in Hv. destruct (forallb _ _); [|done].
  apply (inj Some) in Hv as <-. by apply explained_module, produced_ok.
Qed.
End Guarantees.


Lemma verification_explained_witness :
  cog_ir_verify demo = Some (true, []) /\ explained (true, []).
Proof.
  split; [vm_compute; reflexivity|].
  apply (verification_explained built demo); [apply demo_built | vm_compute; reflexivity].
Defined.

(** ** What the verifier does not see *)

(** [fn g() -> i32], whose entry block has a parameter and returns it. *)
Definition bad_i32 := cog_ir_type_integer (cog_ir_module_init demo_target) 32 true.
Definition bad_fn := cog_ir_type_function (snd bad_i32) 0 (Array [])
  COG_IR_ABI_COGLET COG_IR_CALL_DEFAULT false.
Definition bad_add := cog_ir_add_function (snd bad_fn) "g" source_span_invalid 1
  COG_IR_FUNCTION_DEFINITION COG_IR_LINKAGE_INTERNAL false None.
Definition bad_entry := cog_ir_add_block (snd bad_add) 0 "entry" source_span_invalid.
Definition bad_param := cog_ir_add_block_parameter (snd bad_entry) 0 0 0 "p" source_span_invalid.
Definition bad_ret : CogIrTerminator := mkTerminator source_span_invalid (TermRet (Some 0%N)).
Definition bad : CogIrModule := snd (cog_ir_set_terminator (snd bad_param) 0 0 (Some bad_ret)).

Lemma bad_built : built bad.
Proof.
  apply (built_step (snd bad_param)), step_set_terminator.
  apply (built_step (snd bad_entry)), step_add_block_parameter.
  apply (built_step (snd bad_add)), step_add_block.
  apply (built_step (snd bad_fn)), step_add_function.
  apply (built_step (snd bad_i32)), step_type_function.
  apply (built_step (cog_ir_module_init demo_target)), step_type_integer.
  apply demo_init_built.
Qed.

(** The condition on the entry block is needed: the builder accepts parameters on an
    entry block and the verifier passes the module, although the block reads a value
    that nothing defines.  The call is stuck at once. *)
Theorem entry_parameters_unverified :
  built bad /\ cog_ir_verify bad = Some (true, [])
  /\ exists f ft, cog_ir_get_function bad 0 = Some f
       /\ type_as_of bad (function_type f) = Some (AsFunction ft)
       /\ ~ final (initial f ft) /\ ~ exists s', step bad f ft (initial f ft) s'.
Proof.
  split; [apply bad_built|]. split; [vm_compute; reflexivity|].
  destruct (cog_ir_get_function bad 0) as [f|] eqn:Hf; [|vm_compute in Hf; discriminate].
  destruct (type_as_of bad (function_type f)) as [[]|] eqn:Ht;
    try (vm_compute in Hf; injection Hf as <-; vm_compute in Ht; discriminate).
  exists f, function. split_and!; [done | done | by intros [] |].
  intros [s' Hst]. unfold initial in Hst. vm_compute in Hf. injection Hf as <-.
  vm_compute in Ht. injection Ht as <-.
  inversion Hst; subst;
    repeat match goal with H : cog_ir_get_block _ _ = Some _ |- _ =>
      vm_compute in H; injection H as <- end; try discriminate; simplify_eq/=.
Qed.

(** A switch refused for its missing cases ([cog_ir_set_terminator]) makes the verifier
    read through a null pointer. *)
Example incomplete_switch_unreadable :
  let r := cog_ir_set_terminator (snd demo_neg) 0 0 (Some demo_bad_switch) in
  fst r = false /\ cog_ir_verify (snd r) = None.
Proof. split; vm_compute; reflexivity. Qed.
