(* ===== verification/TypeRelations.v ===== *)
(** Relations on semantic types ([src/semantic_anal.c]): type equality, the predicates on
    types, and the conversions a type allows.

    Types are read through pointers into the type store; a null pointer is [None], and
    the pointers of the compiler's types stay inside the store.  The recursive functions
    follow [element], [parameters], [return_type] and [type_arguments], never a structure's
    fields: [structured] says that these links are well founded, as they are for the types
    the compiler makes from source types.  They take as fuel the size of the store plus one,
    and answer [None] when it runs out; on a structured store it never does. *)
From Stdlib Require Import SpecFloat.
From S2P Require Import Prelude Types IntegerValue.

(** ** Floating kinds *)

Definition is_concrete_float_kind (k : TypeKind) : bool :=
  match k with TYPE_F32 | TYPE_F64 => true | _ => false end.

Definition is_float_kind (k : TypeKind) : bool :=
  is_concrete_float_kind k || bool_decide (k = TYPE_UNTYPED_FLOAT).

Definition is_untyped_numeric_kind (k : TypeKind) : bool :=
  match k with TYPE_UNTYPED_INT | TYPE_UNTYPED_FLOAT => true | _ => false end.

(** How the value of an expression is adapted to the type its context expects. *)
Inductive SemContextConversionKind : Set :=
| SEM_CONTEXT_CONVERSION_NONE
| SEM_CONTEXT_CONVERSION_INT_MATERIALIZE
| SEM_CONTEXT_CONVERSION_INT_TO_FLOAT_MATERIALIZE
| SEM_CONTEXT_CONVERSION_FLOAT_MATERIALIZE
| SEM_CONTEXT_CONVERSION_NULL_TO_POINTER
| SEM_CONTEXT_CONVERSION_POINTER_QUALIFICATION
| SEM_CONTEXT_CONVERSION_SLICE_QUALIFICATION
| SEM_CONTEXT_CONVERSION_ARRAY_TO_SLICE
| SEM_CONTEXT_CONVERSION_C_STRING_TO_POINTER.

#[global] Instance SemContextConversionKind_eq_dec : EqDecision SemContextConversionKind.
Proof. solve_decision. Defined.

(** [a && b] and [for (...) if (!f(x, y)) return 0;] with calls that may not answer. *)
Definition and_also (a b : option bool) : option bool :=
  match a with
  | Some true => b
  | _ => a
  end.

Fixpoint all_pairs {A B} (f : A -> B -> option bool) (xs : list A) (ys : list B)
    : option bool :=
  match xs, ys with
  | x :: xs, y :: ys => and_also (f x y) (all_pairs f xs ys)
  | _, _ => Some true
  end.

(** [for (...) if (f(x)) return 1; return 0;] *)
Fixpoint any {A} (f : A -> option bool) (xs : list A) : option bool :=
  match xs with
  | [] => Some false
  | x :: xs => match f x with Some false => any f xs | r => r end
  end.

Definition access_eqb (a b : PointerAccess) : bool := bool_decide (a = b).

Section Relations.
Context (store : TypeStore).

Definition deref (p : TypePtr) : option Type_ := i ← p; store !! i.

(** [p && p->kind == k] *)
Definition has_kind (p : TypePtr) (k : TypeKind) : bool :=
  match deref p with Some t => bool_decide (kind t = k) | None => false end.

(** [p && f(p->kind)] *)
Definition kind_satisfies (f : TypeKind -> bool) (p : TypePtr) : bool :=
  match deref p with Some t => f (kind t) | None => false end.

(** ** Equality *)

Fixpoint type_equal_rec (fuel : nat) (a b : TypePtr) : option bool :=
  match fuel with
  | O => None
  | S fuel =>
      match a, b with
      | Some i, Some j =>
          if (i =? j)%nat then Some true
          else match store !! i, store !! j with
          | Some ta, Some tb =>
              if negb (bool_decide (kind ta = kind tb)) then Some false
              else match kind ta with
              | TYPE_VOID | TYPE_BOOL | TYPE_S8 | TYPE_S16 | TYPE_S32 | TYPE_S64
              | TYPE_U8 | TYPE_U16 | TYPE_U32 | TYPE_U64 | TYPE_F32 | TYPE_F64
              | TYPE_UNTYPED_INT | TYPE_UNTYPED_FLOAT | TYPE_NULL => Some true
              | TYPE_OPAQUE_POINTER =>
                  Some (access_eqb (pointer_access ta) (pointer_access tb)
                        && Bool.eqb (pointer_is_volatile ta) (pointer_is_volatile tb))
              | TYPE_POINTER =>
                  if access_eqb (pointer_access ta) (pointer_access tb)
                     && Bool.eqb (pointer_is_volatile ta) (pointer_is_volatile tb)
                  then type_equal_rec fuel (element ta) (element tb)
                  else Some false
              | TYPE_ARRAY =>
                  if array_size ta =? array_size tb
                  then type_equal_rec fuel (element ta) (element tb) else Some false
              | TYPE_SLICE =>
                  if access_eqb (pointer_access ta) (pointer_access tb)
                  then type_equal_rec fuel (element ta) (element tb) else Some false
              | TYPE_FUNCTION =>
                  if negb (bool_decide (function_abi ta = function_abi tb))
                     || negb (bool_decide (function_call_conv ta = function_call_conv tb))
                     || negb (Bool.eqb (function_is_variadic ta) (function_is_variadic tb))
                  then Some false
                  else if negb (length (parameters ta) =? length (parameters tb))%nat
                  then Some false
                  else and_also (all_pairs (type_equal_rec fuel) (parameters ta) (parameters tb))
                         (type_equal_rec fuel (return_type ta) (return_type tb))
              | TYPE_NAMED =>
                  if negb (String.eqb (named_module ta) (named_module tb))
                     || negb (String.eqb (named_name ta) (named_name tb))
                     || negb (length (type_arguments ta) =? length (type_arguments tb))%nat
                  then Some false
                  else all_pairs (type_equal_rec fuel) (type_arguments ta) (type_arguments tb)
              | TYPE_STRUCT | TYPE_ENUM => Some false
              end
          | _, _ => None
          end
      | _, _ => Some false
      end
  end.

Definition TYPE_FUEL : nat := S (length store).

Definition type_equal (a b : TypePtr) : bool := default false (type_equal_rec TYPE_FUEL a b).

(** ** Predicates *)

Fixpoint contains_void_type_rec (fuel : nat) (p : TypePtr) : option bool :=
  match fuel with
  | O => None
  | S fuel =>
      match p with
      | None => Some false
      | Some i =>
          t ← store !! i;
          match kind t with
          | TYPE_VOID => Some true
          | TYPE_POINTER | TYPE_ARRAY | TYPE_SLICE => contains_void_type_rec fuel (element t)
          | TYPE_FUNCTION => any (contains_void_type_rec fuel) (parameters t)
          | _ => Some false
          end
      end
  end.

Definition contains_void_type (p : TypePtr) : bool :=
  default false (contains_void_type_rec TYPE_FUEL p).

Definition invalid_value_type (p : TypePtr) : bool := contains_void_type p.

Definition invalid_return_type (p : TypePtr) : bool :=
  if has_kind p TYPE_VOID then false else contains_void_type p.

Definition is_resource_type (p : TypePtr) : bool :=
  match deref p with
  | Some t => bool_decide (kind t = TYPE_STRUCT) && struct_is_resource t
  | None => false
  end.

(** The recursion shared by [contains_resource_by_value] and
    [contains_incomplete_struct_by_value]: through arrays down to a structure. *)
Fixpoint by_value_rec (fuel : nat) (found : Type_ -> bool) (p : TypePtr) : option bool :=
  match fuel with
  | O => None
  | S fuel =>
      match p with
      | None => Some false
      | Some i =>
          t ← store !! i;
          match kind t with
          | TYPE_STRUCT => Some (found t)
          | TYPE_ARRAY => by_value_rec fuel found (element t)
          | _ => Some false
          end
      end
  end.

Definition contains_resource_by_value (p : TypePtr) : bool :=
  default false (by_value_rec TYPE_FUEL struct_is_resource p).

Definition contains_incomplete_struct_by_value (p : TypePtr) : bool :=
  default false (by_value_rec TYPE_FUEL struct_is_incomplete p).

Definition is_untyped_numeric_type (p : TypePtr) : bool :=
  kind_satisfies is_untyped_numeric_kind p.
Definition is_u8_type (p : TypePtr) : bool := has_kind p TYPE_U8.
Definition is_integer_type (p : TypePtr) : bool := kind_satisfies is_integer_kind p.
Definition is_numeric_type (p : TypePtr) : bool :=
  kind_satisfies (fun k => is_integer_kind k || is_float_kind k) p.
Definition is_bool_type (p : TypePtr) : bool := has_kind p TYPE_BOOL.
Definition is_enum_type (p : TypePtr) : bool := has_kind p TYPE_ENUM.
Definition is_null_type (p : TypePtr) : bool := has_kind p TYPE_NULL.
Definition is_typed_pointer_type (p : TypePtr) : bool := has_kind p TYPE_POINTER.
Definition is_opaque_pointer_type (p : TypePtr) : bool := has_kind p TYPE_OPAQUE_POINTER.
Definition is_raw_pointer_type (p : TypePtr) : bool :=
  is_typed_pointer_type p || is_opaque_pointer_type p.
Definition is_slice_type (p : TypePtr) : bool := has_kind p TYPE_SLICE.

Definition is_c_function_pointer_type (p : TypePtr) : bool :=
  match deref p with
  | Some t => bool_decide (kind t = TYPE_FUNCTION) && bool_decide (function_abi t = FUNCTION_ABI_C)
  | None => false
  end.

Definition is_nullable_pointer_type (p : TypePtr) : bool :=
  is_raw_pointer_type p || is_c_function_pointer_type p.

Definition is_bool_cast_pair (to from : TypePtr) : bool := is_bool_type to && is_bool_type from.
Definition is_numeric_cast_pair (to from : TypePtr) : bool :=
  is_numeric_type to && is_numeric_type from.
Definition is_enum_to_integer_cast (to from : TypePtr) : bool :=
  kind_satisfies is_integer_kind to && is_enum_type from.
Definition is_integer_to_enum_cast (to from : TypePtr) : bool :=
  is_enum_type to && kind_satisfies is_integer_kind from.

Definition is_equality_comparable_type (p : TypePtr) : bool :=
  kind_satisfies (fun k => is_integer_kind k || is_float_kind k
                           || bool_decide (k = TYPE_BOOL) || bool_decide (k = TYPE_ENUM)) p
  || is_raw_pointer_type p || is_c_function_pointer_type p.

Definition is_switchable_type (p : TypePtr) : bool :=
  kind_satisfies (fun k => is_integer_kind k || bool_decide (k = TYPE_BOOL)
                           || bool_decide (k = TYPE_ENUM)) p.

(** [if (!a || !b) return 0;] *)
Definition both (a b : TypePtr) (r : Type_ -> Type_ -> bool) : bool :=
  match deref a, deref b with
  | Some ta, Some tb => r ta tb
  | _, _ => false
  end.

Definition switch_case_type_compatible (switch_type case_type : TypePtr) : bool :=
  both switch_type case_type (fun st ct =>
    type_equal switch_type case_type
    || bool_decide (kind ct = TYPE_UNTYPED_INT) && is_concrete_integer_kind (kind st)).

Definition is_null_to_pointer_cast (to from : TypePtr) : bool :=
  is_nullable_pointer_type to && is_null_type from.

(** ** Pointer conversions *)

Definition pointer_identity_equal_ignoring_qualifiers (left right : TypePtr) : bool :=
  if negb (is_raw_pointer_type left) || negb (is_raw_pointer_type right) then false
  else both left right (fun l r =>
    if negb (bool_decide (kind l = kind r)) then false
    else if bool_decide (kind l = TYPE_OPAQUE_POINTER) then true
    else type_equal (element l) (element r)).

(** The two tests that keep a conversion from dropping [readonly] or [volatile]. *)
Definition discards_qualifiers (target source : Type_) : bool :=
  access_eqb (pointer_access source) POINTER_ACCESS_READONLY
    && access_eqb (pointer_access target) POINTER_ACCESS_MUTABLE
  || pointer_is_volatile source && negb (pointer_is_volatile target).

Definition pointer_qualification_conversion_allowed (target source : TypePtr) : bool :=
  if negb (pointer_identity_equal_ignoring_qualifiers target source) then false
  else both target source (fun t s =>
    if discards_qualifiers t s then false
    else negb (access_eqb (pointer_access t) (pointer_access s))
         || negb (Bool.eqb (pointer_is_volatile t) (pointer_is_volatile s))).

Definition slice_qualification_conversion_allowed (target source : TypePtr) : bool :=
  if negb (is_slice_type target) || negb (is_slice_type source) then false
  else both target source (fun t s =>
    if negb (type_equal (element t) (element s)) then false
    else access_eqb (pointer_access s) POINTER_ACCESS_MUTABLE
         && access_eqb (pointer_access t) POINTER_ACCESS_READONLY).

Definition array_to_slice_conversion_allowed (target source : TypePtr) : bool :=
  is_slice_type target
  && both target source (fun t s =>
       bool_decide (kind s = TYPE_ARRAY) && (0 <=? array_size s)
       && type_equal (element t) (element s)).

Definition pointer_equality_compatible (left right : TypePtr) : bool :=
  pointer_identity_equal_ignoring_qualifiers left right.

Definition reinterpret_pointer_conversion_allowed (target source : TypePtr) : bool :=
  if negb (is_raw_pointer_type target) || negb (is_raw_pointer_type source) then false
  else if Bool.eqb (is_opaque_pointer_type target) (is_opaque_pointer_type source) then false
  else both target source (fun t s => negb (discards_qualifiers t s)).

(** ** Conversions by context, casts *)

Definition classify_context_conversion (target source : TypePtr) : SemContextConversionKind :=
  match deref target, deref source with
  | Some t, Some s =>
      if type_equal target source then SEM_CONTEXT_CONVERSION_NONE
      else if bool_decide (kind s = TYPE_UNTYPED_INT) && is_concrete_integer_kind (kind t)
      then SEM_CONTEXT_CONVERSION_INT_MATERIALIZE
      else if bool_decide (kind s = TYPE_UNTYPED_INT) && is_concrete_float_kind (kind t)
      then SEM_CONTEXT_CONVERSION_INT_TO_FLOAT_MATERIALIZE
      else if bool_decide (kind s = TYPE_UNTYPED_FLOAT) && is_concrete_float_kind (kind t)
      then SEM_CONTEXT_CONVERSION_FLOAT_MATERIALIZE
      else if is_null_type source && is_nullable_pointer_type target
      then SEM_CONTEXT_CONVERSION_NULL_TO_POINTER
      else if pointer_qualification_conversion_allowed target source
      then SEM_CONTEXT_CONVERSION_POINTER_QUALIFICATION
      else if slice_qualification_conversion_allowed target source
      then SEM_CONTEXT_CONVERSION_SLICE_QUALIFICATION
      else if array_to_slice_conversion_allowed target source
      then SEM_CONTEXT_CONVERSION_ARRAY_TO_SLICE
      else SEM_CONTEXT_CONVERSION_NONE
  | _, _ => SEM_CONTEXT_CONVERSION_NONE
  end.

Definition initializer_compatible (declared init_type : TypePtr) : bool :=
  match deref declared, deref init_type with
  | Some d, Some s =>
      if type_equal declared init_type then true
      else if pointer_qualification_conversion_allowed declared init_type then true
      else if slice_qualification_conversion_allowed declared init_type
              || array_to_slice_conversion_allowed declared init_type then true
      else if is_nullable_pointer_type declared && is_null_type init_type then true
      else match kind s with
           | TYPE_UNTYPED_INT =>
               is_concrete_integer_kind (kind d) || is_concrete_float_kind (kind d)
           | TYPE_UNTYPED_FLOAT => is_concrete_float_kind (kind d)
           | _ => false
           end
  | _, _ => true
  end.

Definition is_allowed_explicit_cast (to from : TypePtr) : bool :=
  both to from (fun _ _ =>
    type_equal to from
    || pointer_qualification_conversion_allowed to from
    || is_null_to_pointer_cast to from
    || is_bool_cast_pair to from
    || is_numeric_cast_pair to from
    || is_enum_to_integer_cast to from
    || is_integer_to_enum_cast to from).

Definition is_pointer_null_pair (left right : TypePtr) : bool :=
  both left right (fun _ _ =>
    is_nullable_pointer_type left && is_null_type right
    || is_null_type left && is_nullable_pointer_type right).

(** ** The type of an operation on two numbers *)

Definition common_numeric_type (a b : TypePtr) : TypePtr :=
  if negb (is_numeric_type a) || negb (is_numeric_type b) then None
  else
    let a_is_untyped := is_untyped_numeric_type a in
    let b_is_untyped := is_untyped_numeric_type b in
    if a_is_untyped && negb b_is_untyped then b
    else if b_is_untyped && negb a_is_untyped then a
    else if a_is_untyped && b_is_untyped then
      if has_kind a TYPE_UNTYPED_FLOAT then a
      else if has_kind b TYPE_UNTYPED_FLOAT then b
      else a
    else if negb (type_equal a b) then None
    else a.

Definition common_integer_type (a b : TypePtr) : TypePtr :=
  if negb (is_integer_type a) || negb (is_integer_type b) then None
  else
    let a_is_untyped := has_kind a TYPE_UNTYPED_INT in
    let b_is_untyped := has_kind b TYPE_UNTYPED_INT in
    if a_is_untyped && negb b_is_untyped then b
    else if b_is_untyped && negb a_is_untyped then a
    else if a_is_untyped && b_is_untyped then a
    else if negb (type_equal a b) then None
    else a.
End Relations.

(** ** Constants

    [ConstValue]: a [double] is a [spec_float], an IEEE number; [==] is [SFeqb]. *)

Inductive ConstValueAs : Set :=
| CONST_VALUE_INT (v : IntegerValue)
| CONST_VALUE_FLOAT (d : spec_float)
| CONST_VALUE_BOOL (b : bool)
| CONST_VALUE_NULL.

Record ConstValue : Set := mkConstValue {
  const_value_type : TypePtr;
  const_value_as : ConstValueAs;
}.

Definition const_values_equal (a b : ConstValue) : bool :=
  match const_value_as a, const_value_as b with
  | CONST_VALUE_INT x, CONST_VALUE_INT y => integer_values_equal x y
  | CONST_VALUE_FLOAT x, CONST_VALUE_FLOAT y => SFeqb x y
  | CONST_VALUE_BOOL x, CONST_VALUE_BOOL y => Bool.eqb x y
  | CONST_VALUE_NULL, CONST_VALUE_NULL => true
  | _, _ => false
  end.

(** The array with the value appended; [None] is the error "duplicate switch case". *)
Definition record_switch_case_value (checked : list ConstValue) (v : ConstValue)
    : option (list ConstValue) :=
  if existsb (fun c => const_values_equal c v) checked then None else Some (checked ++ [v]).

Definition default_numeric_operation_rank (k : TypeKind) : Z :=
  match k with
  | TYPE_S8 | TYPE_U8 => 1
  | TYPE_S16 | TYPE_U16 => 2
  | TYPE_S32 | TYPE_U32 => 3
  | TYPE_S64 | TYPE_U64 => 4
  | TYPE_F32 => 5
  | TYPE_F64 => 6
  | _ => 0
  end.

Definition find_enum_member (t : option Type_) (name : string) : option EnumMember :=
  match t with
  | Some t => if bool_decide (kind t = TYPE_ENUM)
              then List.find (fun m => String.eqb (em_name m) name) (enum_members t) else None
  | None => None
  end.

Definition find_enum_member_by_value (t : option Type_) (v : IntegerValue) : option EnumMember :=
  match t with
  | Some t => if bool_decide (kind t = TYPE_ENUM)
              then List.find (fun m => integer_values_equal (em_value m) v) (enum_members t)
              else None
  | None => None
  end.

Section Constants.
Context (store : TypeStore).

Definition default_numeric_kind_for_constant (v : ConstValue) : outcome (option TypeKind) :=
  let by_value :=
    match const_value_as v with
    | CONST_VALUE_INT i => default_integer_kind_for_value i
    | CONST_VALUE_FLOAT _ => Returned (Some TYPE_F64)
    | _ => Returned None
    end in
  match deref store (const_value_type v) with
  | Some t =>
      if is_untyped_numeric_kind (kind t) then by_value
      else if is_concrete_integer_kind (kind t) || is_concrete_float_kind (kind t)
      then Returned (Some (kind t)) else Returned None
  | None => by_value
  end.

Definition constant_numeric_operation_kind (left right : ConstValue) (common_type : TypePtr)
    : outcome (option TypeKind) :=
  match deref store common_type with
  | None => Returned None
  | Some t =>
      if is_concrete_integer_kind (kind t) || is_concrete_float_kind (kind t)
      then Returned (Some (kind t))
      else if negb (is_untyped_numeric_type store common_type) then Returned None
      else
        let? left_kind := default_numeric_kind_for_constant left in
        let? right_kind := default_numeric_kind_for_constant right in
        let left_rank := default_numeric_operation_rank left_kind in
        let right_rank := default_numeric_operation_rank right_kind in
        Returned
          (if (left_rank =? 0) || (right_rank =? 0) then None
           else if negb (left_rank =? right_rank) then
             Some (if right_rank <? left_rank then left_kind else right_kind)
           else if bool_decide (left_kind = TYPE_U64) || bool_decide (right_kind = TYPE_U64)
           then Some TYPE_U64
           else Some left_kind)
  end.

(** The loops of [switch_case_values_are_exhaustive]: [has] is the flag found so far, the
    assertions hold of every case looked at. *)
Fixpoint covers_booleans (switch_type : TypePtr) (cases : list ConstValue)
    (has_true has_false : bool) : outcome bool :=
  match cases with
  | [] => Returned (has_true && has_false)
  | c :: cases =>
      assert! bool_decide (const_value_type c = switch_type);
      match const_value_as c with
      | CONST_VALUE_BOOL true => covers_booleans switch_type cases true has_false
      | CONST_VALUE_BOOL false => covers_booleans switch_type cases has_true true
      | _ => Aborted
      end
  end.

Fixpoint covers_member (switch_type : TypePtr) (cases : list ConstValue) (m : EnumMember)
    : outcome bool :=
  match cases with
  | [] => Returned false
  | c :: cases =>
      assert! bool_decide (const_value_type c = switch_type);
      match const_value_as c with
      | CONST_VALUE_INT v =>
          if integer_values_equal v (em_value m) then Returned true
          else covers_member switch_type cases m
      | _ => Aborted
      end
  end.

Fixpoint covers_members (switch_type : TypePtr) (cases : list ConstValue)
    (ms : list EnumMember) : outcome bool :=
  match ms with
  | [] => Returned true
  | m :: ms =>
      let! found := covers_member switch_type cases m in
      if (found : bool) then covers_members switch_type cases ms else Returned false
  end.

Definition switch_case_values_are_exhaustive (switch_type : TypePtr)
    (cases : list ConstValue) (has_default : bool) : outcome bool :=
  if has_default then Returned true
  else match deref store switch_type with
  | None => Returned false
  | Some t =>
      if (length cases =? 0)%nat then Returned false
      else if bool_decide (kind t = TYPE_BOOL) then covers_booleans switch_type cases false false
      else if negb (bool_decide (kind t = TYPE_ENUM)) then Returned false
      else if (length (enum_members t) =? 0)%nat then Returned false
      else covers_members switch_type cases (enum_members t)
  end.
End Constants.

(** ** Specification *)

(** What a type is, up to the identity of structures and enumerations: the tree its
    structural links spell out. *)
Inductive shape : Set :=
| ShAtom (k : TypeKind)
| ShNominal (id : nat)
| ShOpaque (access : PointerAccess) (is_volatile : bool)
| ShPointer (access : PointerAccess) (is_volatile : bool) (to : shape)
| ShArray (size : Z) (elt : shape)
| ShSlice (access : PointerAccess) (elt : shape)
| ShFunction (abi : FunctionAbi) (conv : CCallingConvention) (variadic : bool)
    (ps : list shape) (r : shape)
| ShNamed (module_name name : string) (args : list shape).

(** The kinds without identity-bearing members. *)
Definition is_atom (k : TypeKind) : bool :=
  match k with
  | TYPE_POINTER | TYPE_OPAQUE_POINTER | TYPE_ARRAY | TYPE_SLICE | TYPE_NAMED | TYPE_STRUCT
  | TYPE_ENUM | TYPE_FUNCTION => false
  | _ => true
  end.

(** The pointers type equality follows. *)
Definition links (t : Type_) : list TypePtr :=
  match kind t with
  | TYPE_POINTER | TYPE_ARRAY | TYPE_SLICE => [element t]
  | TYPE_FUNCTION => return_type t :: parameters t
  | TYPE_NAMED => type_arguments t
  | _ => []
  end.

Section Specification.
Context (store : TypeStore).

Definition valid (p : TypePtr) : Prop := is_Some (deref store p).

(** The links of every type lead to types of smaller rank. *)
Record structured (rank : nat -> nat) : Prop := {
  rank_bound i t : store !! i = Some t -> (rank i < length store)%nat;
  links_ok i t p : store !! i = Some t -> p ∈ links t ->
    exists j, p = Some j /\ is_Some (store !! j) /\ (rank j < rank i)%nat;
}.

Definition spell_links (spell : TypePtr -> option shape) (i : nat) (t : Type_)
    : option shape :=
  match kind t with
  | TYPE_STRUCT | TYPE_ENUM => Some (ShNominal i)
  | TYPE_OPAQUE_POINTER => Some (ShOpaque (pointer_access t) (pointer_is_volatile t))
  | TYPE_POINTER =>
      s ← spell (element t);
      Some (ShPointer (pointer_access t) (pointer_is_volatile t) s)
  | TYPE_ARRAY => s ← spell (element t); Some (ShArray (array_size t) s)
  | TYPE_SLICE => s ← spell (element t); Some (ShSlice (pointer_access t) s)
  | TYPE_FUNCTION =>
      ps ← mapM spell (parameters t);
      r ← spell (return_type t);
      Some (ShFunction (function_abi t) (function_call_conv t) (function_is_variadic t) ps r)
  | TYPE_NAMED =>
      args ← mapM spell (type_arguments t);
      Some (ShNamed (named_module t) (named_name t) args)
  | k => Some (ShAtom k)
  end.

Fixpoint spell (fuel : nat) (p : TypePtr) : option shape :=
  match fuel with
  | O => None
  | S fuel => i ← p; t ← store !! i; spell_links (spell fuel) i t
  end.

Definition shape_of (p : TypePtr) : option shape := spell (TYPE_FUEL store) p.

Section Structured.
Context (rank : nat -> nat) (Hstore : structured rank).

(** Every link of a type of rank below [S n] is a type of rank below [n]. *)
Lemma link_rank n i t p :
  (rank i < S n)%nat -> store !! i = Some t -> p ∈ links t ->
  exists j, p = Some j /\ is_Some (store !! j) /\ (rank j < n)%nat.
Proof.
  intros Hi Ht Hp. destruct (links_ok _ Hstore i t p Ht Hp) as (j & -> & Hj & Hr).
  exists j. split_and!; [done | done | lia].
Qed.

Lemma spell_links_ext f g i t :
  (forall p, p ∈ links t -> f p = g p) -> spell_links f i t = spell_links g i t.
Proof.
  assert (Hmap : forall ps, (forall p, p ∈ ps -> f p = g p) -> mapM f ps = mapM g ps).
  { intros ps Hps. induction ps as [|p ps IH]; [done|]. simpl. rewrite Hps by left.
    destruct (g p); simpl; [|done]. by rewrite IH by (intros q Hq; apply Hps; by right). }
  unfold links, spell_links. intros H.
  destruct (kind t); try done; rewrite ?H by left; try done; rewrite Hmap; try done.
  intros p Hp. apply H. by right.
Qed.

Lemma spell_links_total f i t :
  (forall p, p ∈ links t -> is_Some (f p)) -> is_Some (spell_links f i t).
Proof.
  assert (Hmap : forall ps, (forall p, p ∈ ps -> is_Some (f p)) -> is_Some (mapM f ps)).
  { intros ps Hps. apply mapM_is_Some, Forall_forall. intros p Hp. by apply Hps. }
  unfold links, spell_links. intros H.
  destruct (kind t); try (eexists; reflexivity);
    try (destruct (H (element t) ltac:(left)) as [s ->]; eexists; reflexivity).
  - destruct (Hmap (type_arguments t) H) as [ss ->]. eexists. reflexivity.
  - destruct (Hmap (parameters t)) as [ss ->]; [intros p Hp; apply H; by right|].
    destruct (H (return_type t) ltac:(left)) as [s ->]. eexists. reflexivity.
Qed.

(** Enough fuel spells the shape out, and more fuel gives the same. *)
Lemma spell_enough n m i :
  (rank i < n)%nat -> (rank i < m)%nat -> is_Some (store !! i) ->
  is_Some (spell n (Some i)) /\ spell m (Some i) = spell n (Some i).
Proof.
  revert m i. induction n as [|n IH]; intros [|m] i Hn Hm [t Ht]; [lia..|].
  assert (Hlink : forall p, p ∈ links t -> is_Some (spell n p) /\ spell m p = spell n p).
  { intros p Hp. destruct (links_ok _ Hstore i t p Ht Hp) as (j & -> & Hj & Hr).
    apply IH; [lia..|done]. }
  simpl. rewrite Ht. simpl. split; [apply spell_links_total | apply spell_links_ext];
    intros p Hp; by apply Hlink.
Qed.

Lemma shape_of_some i : is_Some (store !! i) -> is_Some (shape_of (Some i)).
Proof.
  intros [t Ht]. pose proof (rank_bound _ Hstore i t Ht). unfold shape_of, TYPE_FUEL.
  eapply (spell_enough _ (S (length store))); [lia..|eauto].
Qed.

Lemma shape_of_links i t :
  store !! i = Some t -> shape_of (Some i) = spell_links shape_of i t.
Proof.
  intros Ht. unfold shape_of at 1, TYPE_FUEL. simpl. rewrite Ht. simpl.
  apply spell_links_ext. intros p Hp.
  pose proof (rank_bound _ Hstore i t Ht).
  destruct (links_ok _ Hstore i t p Ht Hp) as (j & -> & Hj & Hr).
  unfold shape_of, TYPE_FUEL. symmetry. eapply spell_enough; [lia..|done].
Qed.

(** A computed answer decides [P]. *)
Definition decides (r : option bool) (P : Prop) : Prop :=
  exists b, r = Some b /\ (b = true <-> P).

Lemma decides_bool (b : bool) P : (b = true <-> P) -> decides (Some b) P.
Proof. intros H. by exists b. Qed.

Lemma decides_if (c : bool) r P Q :
  (c = true <-> P) -> (c = true -> decides r Q) -> decides (if c then r else Some false) (P /\ Q).
Proof.
  intros Hc Hr. destruct c.
  - destruct Hr as (b & -> & Hb); [done|]. exists b. split; [done|]. tauto.
  - exists false. split; [done|]. split; [done|]. intros [HP _]. by apply Hc in HP.
Qed.

Lemma decides_unless (c : bool) r P Q :
  (c = false <-> P) -> (c = false -> decides r Q) ->
  decides (if c then Some false else r) (P /\ Q).
Proof.
  intros Hc Hr. replace (if c then Some false else r) with (if negb c then r else Some false)
    by by destruct c.
  apply decides_if; rewrite negb_true_iff; done.
Qed.

Lemma decides_iff r P Q : (P <-> Q) -> decides r P -> decides r Q.
Proof. intros H (b & Hr & Hb). exists b. split; [done | by rewrite Hb]. Qed.

Lemma decides_also r1 r2 P Q : decides r1 P -> decides r2 Q -> decides (and_also r1 r2) (P /\ Q).
Proof.
  intros (b1 & -> & H1) (b2 & -> & H2). destruct b1; simpl.
  - exists b2. split; [done|]. tauto.
  - exists false. split; [done|]. split; [done|]. intros [HP _]. by apply H1 in HP.
Qed.

Lemma all_pairs_decides f xs ys :
  length xs = length ys ->
  (forall x, x ∈ xs -> is_Some (shape_of x)) -> (forall y, y ∈ ys -> is_Some (shape_of y)) ->
  (forall x y, x ∈ xs -> y ∈ ys -> decides (f x y) (shape_of x = shape_of y)) ->
  decides (all_pairs f xs ys) (mapM shape_of xs = mapM shape_of ys).
Proof.
  revert ys. induction xs as [|x xs IH]; intros [|y ys] Hlen Hx Hy Hf; try done;
    [by exists true|].
  eapply decides_iff; [|apply (decides_also _ _ (shape_of x = shape_of y)
      (mapM shape_of xs = mapM shape_of ys))].
  - simpl. destruct (Hx x ltac:(left)) as [sx ->], (Hy y ltac:(left)) as [sy ->].
    assert (is_Some (mapM shape_of xs)) as [ss Hss].
    { apply mapM_is_Some, Forall_forall. intros z Hz. apply Hx. by right. }
    assert (is_Some (mapM shape_of ys)) as [ss' Hss'].
    { apply mapM_is_Some, Forall_forall. intros z Hz. apply Hy. by right. }
    rewrite Hss, Hss'. simpl. unfold mret, option_ret.
    split; [intros [H1 H2]; congruence | intros H; split; congruence].
  - apply Hf; left.
  - apply IH; [by injection Hlen | intros; apply Hx; by right | intros; apply Hy; by right |].
    intros; apply Hf; by right.
Qed.

Lemma access_eqb_spec a b : access_eqb a b = true <-> a = b.
Proof. apply bool_decide_eq_true. Qed.

Lemma shapes_same_length xs ys ss :
  mapM shape_of xs = Some ss -> mapM shape_of ys = Some ss -> length xs = length ys.
Proof. intros H1%length_mapM H2%length_mapM. congruence. Qed.

(** The shape of a type, by the kind of the type. *)
Definition describes (s : shape) (i : nat) (t : Type_) : Prop :=
  match s with
  | ShAtom k => kind t = k /\ is_atom k = true
  | ShNominal id => (kind t = TYPE_STRUCT \/ kind t = TYPE_ENUM) /\ id = i
  | ShOpaque acc vol =>
      kind t = TYPE_OPAQUE_POINTER /\ acc = pointer_access t /\ vol = pointer_is_volatile t
  | ShPointer acc vol s =>
      kind t = TYPE_POINTER /\ acc = pointer_access t /\ vol = pointer_is_volatile t
      /\ shape_of (element t) = Some s
  | ShArray n s => kind t = TYPE_ARRAY /\ n = array_size t /\ shape_of (element t) = Some s
  | ShSlice acc s => kind t = TYPE_SLICE /\ acc = pointer_access t /\ shape_of (element t) = Some s
  | ShFunction abi conv var ps r =>
      kind t = TYPE_FUNCTION /\ abi = function_abi t /\ conv = function_call_conv t
      /\ var = function_is_variadic t /\ mapM shape_of (parameters t) = Some ps
      /\ shape_of (return_type t) = Some r
  | ShNamed m n args =>
      kind t = TYPE_NAMED /\ m = named_module t /\ n = named_name t
      /\ mapM shape_of (type_arguments t) = Some args
  end.

Lemma shape_of_describes i t s :
  store !! i = Some t -> shape_of (Some i) = Some s -> describes s i t.
Proof.
  intros Ht. rewrite (shape_of_links i t Ht). unfold spell_links.
  destruct (kind t) eqn:Hk; simpl; intros Hs;
    repeat match goal with
    | H : mbind _ _ = Some _ |- _ => apply bind_Some in H as (? & ? & ?)
    end; simplify_eq; unfold describes; rewrite ?Hk; split_and?; auto.
Qed.

Ltac use_shapes :=
  repeat match goal with
  | H : shape_of _ = Some _ |- _ => rewrite H; clear H
  | H : mapM shape_of _ = Some _ |- _ => rewrite H
  end.

Lemma type_equal_rec_shape n i j :
  (rank i < n)%nat -> is_Some (store !! i) -> is_Some (store !! j) ->
  decides (type_equal_rec store n (Some i) (Some j)) (shape_of (Some i) = shape_of (Some j)).
Proof.
  revert i j. induction n as [|n IH]; intros i j Hn [ta Ha] [tb Hb]; [lia|].
  assert (Hlink : forall p q, p ∈ links ta -> q ∈ links tb ->
            decides (type_equal_rec store n p q) (shape_of p = shape_of q)).
  { intros p q Hp Hq. destruct (link_rank n i ta p Hn Ha Hp) as (i' & -> & Hi' & Hr).
    destruct (links_ok _ Hstore j tb q Hb Hq) as (j' & -> & Hj' & _). by apply IH. }
  assert (Htotal : forall k t p, store !! k = Some t -> p ∈ links t -> is_Some (shape_of p)).
  { intros k t p Hk Hp. destruct (links_ok _ Hstore k t p Hk Hp) as (? & -> & ? & _).
    by apply shape_of_some. }
  pose proof (Htotal i ta) as HtA. pose proof (Htotal j tb) as HtB. clear Htotal.
  simpl. destruct (Nat.eqb_spec i j) as [->|Hij]; [by exists true|]. rewrite Ha, Hb.
  destruct (shape_of_some i ltac:(eauto)) as [sa Hsa], (shape_of_some j ltac:(eauto)) as [sb Hsb].
  rewrite Hsa, Hsb.
  apply (shape_of_describes i ta sa Ha) in Hsa. apply (shape_of_describes j tb sb Hb) in Hsb.
  case_bool_decide as Hk; simpl.
  - unfold links in HtA, HtB, Hlink. unfold describes in Hsa, Hsb. rewrite <- Hk in Hsb, HtB, Hlink. clear Hk.
    destruct (kind ta) eqn:Ka; (destruct sa; destruct_and?; simplify_eq/=; try intuition congruence).
    all: destruct sb; destruct_and?; simplify_eq/=; try intuition congruence.
    all: try (by exists true).
    + eapply decides_iff; [|eapply decides_if; [|intros _; apply Hlink; left]].
      2: by rewrite andb_true_iff, access_eqb_spec, eqb_true_iff.
      use_shapes. intuition congruence.
    + apply decides_bool. rewrite andb_true_iff, access_eqb_spec, eqb_true_iff.
      intuition congruence.
    + eapply decides_iff; [|eapply decides_if; [apply Z.eqb_eq | intros _; apply Hlink; left]].
      use_shapes. intuition congruence.
    + eapply decides_iff; [|eapply decides_if; [apply access_eqb_spec | intros _; apply Hlink; left]].
      use_shapes. intuition congruence.
    + eapply decides_iff; [|eapply decides_unless; [|intros Hlen; apply all_pairs_decides; auto]].
      2: by rewrite !orb_false_iff, !negb_false_iff, !String.eqb_eq, Nat.eqb_eq.
      * use_shapes. intuition try congruence. simplify_eq.
        by eapply shapes_same_length.
      * apply orb_false_iff in Hlen as [_ Hlen]. by apply negb_false_iff, Nat.eqb_eq in Hlen.
    + apply decides_bool. split; [done | congruence].
    + apply decides_bool. split; [done | congruence].
    + assert (Hin : forall t p, p ∈ parameters t -> p ∈ return_type t :: parameters t)
        by (intros; by right).
      eapply decides_iff; [|eapply decides_unless; [|intros _; eapply decides_unless; [|intros Hlen;
        apply decides_also; [apply all_pairs_decides; auto | apply Hlink; left]]]].
      2: by rewrite !orb_false_iff, !negb_false_iff, !bool_decide_eq_true, eqb_true_iff.
      2: by rewrite negb_false_iff, Nat.eqb_eq.
      * use_shapes. intuition try congruence. simplify_eq. by eapply shapes_same_length.
      * by apply negb_false_iff, Nat.eqb_eq in Hlen.
  - apply decides_bool. split; [done|]. intros [= ->]. exfalso.
    destruct sb; simpl in *; destruct_and?; intuition congruence.
Qed.
End Structured.
End Specification.

(** ** Conversions, as steps *)

Section Conversions.
Context (store : TypeStore).

(** A value of type [s] is accepted, or may be cast, where [t] is wanted. *)
Inductive adapts (s t : TypePtr) : Prop :=
| adapts_context : initializer_compatible store t s = true -> adapts s t
| adapts_cast : is_allowed_explicit_cast store t s = true -> adapts s t.

Inductive converts (s t : TypePtr) : Prop :=
| converts_adapts : valid store t -> adapts s t -> converts s t
| converts_reinterpret : reinterpret_pointer_conversion_allowed store t s = true -> converts s t.

(** [t] restricts access to the memory behind the pointer at least as [s] does. *)
Definition keeps_qualifiers (s t : TypePtr) : Prop :=
  exists ts tt, deref store s = Some ts /\ deref store t = Some tt
    /\ is_raw_pointer_type store t = true
    /\ (pointer_access ts = POINTER_ACCESS_READONLY -> pointer_access tt = POINTER_ACCESS_READONLY)
    /\ (pointer_is_volatile ts = true -> pointer_is_volatile tt = true).

Lemma raw_pointer_kind p t :
  deref store p = Some t ->
  is_raw_pointer_type store p = true <-> kind t = TYPE_POINTER \/ kind t = TYPE_OPAQUE_POINTER.
Proof.
  intros Hp. unfold is_raw_pointer_type, is_typed_pointer_type, is_opaque_pointer_type, has_kind.
  rewrite Hp, orb_true_iff, !bool_decide_eq_true. done.
Qed.

Lemma type_equal_unfold a b ta tb :
  deref store a = Some ta -> deref store b = Some tb -> type_equal store a b = true ->
  kind ta = kind tb
  /\ (kind ta = TYPE_POINTER \/ kind ta = TYPE_OPAQUE_POINTER ->
      pointer_access ta = pointer_access tb /\ pointer_is_volatile ta = pointer_is_volatile tb).
Proof.
  unfold deref, type_equal, TYPE_FUEL. destruct a as [i|], b as [j|]; try done. simpl.
  intros Ha Hb. destruct (Nat.eqb_spec i j) as [->|_].
  { rewrite Ha in Hb. injection Hb as <-. done. }
  rewrite Ha, Hb. case_bool_decide as Hk; [|done]. simpl. intros Heq. split; [done|].
  intros [Hp|Hp]; rewrite Hp in Heq.
  - destruct (_ && _) eqn:Hq in Heq; [|done].
    apply andb_true_iff in Hq as [Hacc Hvol]. by apply access_eqb_spec in Hacc; apply eqb_prop in Hvol.
  - simpl in Heq. apply andb_true_iff in Heq as [Hacc Hvol].
    by apply access_eqb_spec in Hacc; apply eqb_prop in Hvol.
Qed.

Lemma not_discards t s :
  discards_qualifiers t s = false ->
  (pointer_access s = POINTER_ACCESS_READONLY -> pointer_access t = POINTER_ACCESS_READONLY)
  /\ (pointer_is_volatile s = true -> pointer_is_volatile t = true).
Proof.
  unfold discards_qualifiers, access_eqb.
  destruct (pointer_access s), (pointer_access t), (pointer_is_volatile s), (pointer_is_volatile t);
    done.
Qed.

Lemma qualification_keeps t s :
  pointer_qualification_conversion_allowed store t s = true -> keeps_qualifiers s t.
Proof.
  unfold pointer_qualification_conversion_allowed, pointer_identity_equal_ignoring_qualifiers, both.
  destruct (is_raw_pointer_type store t) eqn:Ht; [|done].
  destruct (is_raw_pointer_type store s); [|done]. simpl.
  destruct (deref store t) as [tt|] eqn:Hdt, (deref store s) as [ts|] eqn:Hds; try done.
  destruct (negb _); [done|]. destruct (discards_qualifiers tt ts) eqn:Hd; [done|]. intros _.
  apply not_discards in Hd as [Hro Hvol]. by exists ts, tt.
Qed.

Lemma reinterpret_keeps t s :
  reinterpret_pointer_conversion_allowed store t s = true -> keeps_qualifiers s t.
Proof.
  unfold reinterpret_pointer_conversion_allowed, both.
  destruct (is_raw_pointer_type store t) eqn:Ht; [|done].
  destruct (is_raw_pointer_type store s); [|done]. simpl. destruct (Bool.eqb _ _); [done|].
  destruct (deref store t) as [tt|] eqn:Hdt, (deref store s) as [ts|] eqn:Hds; try done.
  rewrite negb_true_iff. intros [Hro Hvol]%not_discards. by exists ts, tt.
Qed.

Lemma type_equal_keeps t s :
  valid store s -> valid store t -> is_raw_pointer_type store s = true ->
  type_equal store t s = true -> keeps_qualifiers s t.
Proof.
  intros [ts Hs] [tt Ht] Hraw Heq. destruct (type_equal_unfold _ _ _ _ Ht Hs Heq) as [Hk Hq].
  apply (raw_pointer_kind _ _ Hs) in Hraw. rewrite <- Hk in Hraw.
  destruct (Hq Hraw) as [Ha Hv]. exists ts, tt.
  split_and!; [done | done | by apply (raw_pointer_kind _ _ Ht) | congruence..].
Qed.

(** Everything else that is accepted starts from another kind. *)
Lemma adapts_pointer s t :
  valid store s -> valid store t -> is_raw_pointer_type store s = true -> adapts s t ->
  type_equal store t s = true \/ pointer_qualification_conversion_allowed store t s = true.
Proof.
  intros [ts Hs] [tt Ht] Hraw. pose proof (proj1 (raw_pointer_kind _ _ Hs) Hraw) as Hk.
  intros [H|H].
  - unfold initializer_compatible in H. rewrite Ht, Hs in H.
    destruct (type_equal _ _ _); [by left|]. destruct (pointer_qualification_conversion_allowed _ _ _);
      [by right|].
    unfold slice_qualification_conversion_allowed, array_to_slice_conversion_allowed, both,
      is_null_type, is_slice_type, has_kind in H.
    rewrite Ht, Hs in H. destruct Hk as [Hk|Hk]; rewrite Hk in H; simpl in H;
      by rewrite ?andb_false_r, ?orb_true_r in H.
  - unfold is_allowed_explicit_cast, both in H. rewrite Ht, Hs in H.
    destruct (type_equal _ _ _); [by left|]. destruct (pointer_qualification_conversion_allowed _ _ _);
      [by right|].
    unfold is_null_to_pointer_cast, is_bool_cast_pair, is_numeric_cast_pair, is_enum_to_integer_cast,
      is_integer_to_enum_cast, is_null_type, is_bool_type, is_numeric_type, is_enum_type,
      kind_satisfies, has_kind in H.
    rewrite Ht, Hs in H. destruct Hk as [Hk|Hk]; rewrite Hk in H; simpl in H;
      by rewrite ?andb_false_r in H.
Qed.

Lemma converts_keeps s t :
  valid store s -> is_raw_pointer_type store s = true -> converts s t -> keeps_qualifiers s t.
Proof.
  intros Hs Hraw [Ht Ha|Hr].
  - destruct (adapts_pointer _ _ Hs Ht Hraw Ha);
      [by apply type_equal_keeps | by apply qualification_keeps].
  - by apply reinterpret_keeps.
Qed.

Lemma keeps_trans s t u : keeps_qualifiers s t -> keeps_qualifiers t u -> keeps_qualifiers s u.
Proof.
  intros (ts & tt & Hs & Ht & Hraw & H1 & H2) (tt' & tu & Ht' & Hu & Hraw' & H3 & H4).
  rewrite Ht in Ht'. injection Ht' as <-. exists ts, tu. naive_solver.
Qed.

End Conversions.

(** ** What the relations guarantee *)

Section Guarantees.
Context (store : TypeStore).

(** A conversion the compiler applies where a value of type [s] meets the type [t]. *)
Definition accepted (s t : TypePtr) : Prop := valid store t /\ adapts store s t.

(** [t] points to a type of the same shape as [s] does. *)
Definition same_pointee (s t : TypePtr) : Prop :=
  exists ts tt, deref store s = Some ts /\ deref store t = Some tt
    /\ kind ts = TYPE_POINTER /\ kind tt = TYPE_POINTER
    /\ shape_of store (element ts) = shape_of store (element tt).

(** C32. Type equality always answers, and it answers 1 exactly for two types that spell
    out the same shape: the same structure or enumeration, or the same constructor with
    the same qualifiers, length, calling convention, module and name, applied to types of
    the same shape, however many copies of them the compiler allocated. *)
Theorem type_equal_correct rank a b :
  structured store rank -> valid store a -> valid store b ->
  type_equal_rec store (TYPE_FUEL store) a b = Some (type_equal store a b)
  /\ (type_equal store a b = true <-> shape_of store a = shape_of store b).
Proof.
  intros Hstore [ta Ha] [tb Hb]. destruct a as [i|], b as [j|]; try done. simpl in Ha, Hb.
  destruct (type_equal_rec_shape store rank Hstore (TYPE_FUEL store) i j) as (r & Hr & Heq);
    [| eauto..].
  { pose proof (rank_bound _ _ Hstore i ta Ha). unfold TYPE_FUEL. lia. }
  unfold type_equal. by rewrite Hr.
Qed.

Section Shapes.
Context (rank : nat -> nat) (Hstore : structured store rank).

Lemma link_shape_equal i j p q :
  valid store i -> valid store j ->
  (exists t, deref store i = Some t /\ p ∈ links t) ->
  (exists t, deref store j = Some t /\ q ∈ links t) ->
  type_equal store p q = true -> shape_of store p = shape_of store q.
Proof.
  intros [ti Hi] [tj Hj] (t & Ht & Hp) (t' & Ht' & Hq) Heq.
  destruct i as [i|], j as [j|]; try done. simpl in *.
  destruct (links_ok _ _ Hstore i t p Ht Hp) as (i' & -> & Hi' & _).
  destruct (links_ok _ _ Hstore j t' q Ht' Hq) as (j' & -> & Hj' & _).
  destruct (type_equal_rec_shape store rank Hstore (TYPE_FUEL store) i' j')
    as (r & Hr & Hiff); [|done|done|].
  { destruct Hi' as [u Hu]. pose proof (rank_bound _ _ Hstore i' u Hu). unfold TYPE_FUEL. lia. }
  apply Hiff. unfold type_equal in Heq. by rewrite Hr in Heq.
Qed.

Lemma pointer_link p t : deref store p = Some t -> kind t = TYPE_POINTER -> element t ∈ links t.
Proof. intros _ Hk. unfold links. rewrite Hk. by left. Qed.

Lemma accepted_same_pointee s t :
  valid store s -> has_kind store s TYPE_POINTER = true -> accepted s t -> same_pointee s t.
Proof.
  intros [ts Hs] Hk [[tt Ht] Ha]. unfold has_kind in Hk. rewrite Hs in Hk.
  apply bool_decide_eq_true in Hk.
  assert (Hraw : is_raw_pointer_type store s = true)
    by (apply (raw_pointer_kind _ _ _ Hs); by left).
  exists ts, tt.
  destruct (adapts_pointer store s t ltac:(by eexists) ltac:(by eexists) Hraw Ha) as [Heq|Hq].
  - assert (Hkt : kind tt = TYPE_POINTER).
    { destruct (type_equal_unfold _ _ _ _ _ Ht Hs Heq). congruence. }
    split_and!; [done..|]. destruct s as [i|], t as [j|]; try done. simpl in *.
    destruct (type_equal_rec_shape store rank Hstore (TYPE_FUEL store) j i)
      as (r & Hr & Hiff); [| eauto..].
    { pose proof (rank_bound _ _ Hstore j tt Ht). unfold TYPE_FUEL. lia. }
    unfold type_equal in Heq. rewrite Hr in Heq. apply Hiff in Heq.
    rewrite (shape_of_links _ _ Hstore _ _ Ht), (shape_of_links _ _ Hstore _ _ Hs) in Heq.
    unfold spell_links in Heq. rewrite Hk, Hkt in Heq.
    destruct (links_ok _ _ Hstore i ts (element ts) Hs) as (i' & Hi' & Hv & _);
      [by apply (pointer_link (Some i))|].
    destruct (shape_of_some _ _ Hstore i' Hv) as [s Hshape]. rewrite <- Hi' in Hshape.
    rewrite Hshape in Heq |- *. destruct (shape_of store (element tt)); simpl in Heq; congruence.
  - unfold pointer_qualification_conversion_allowed, pointer_identity_equal_ignoring_qualifiers,
      both in Hq. rewrite Hraw in Hq. rewrite Ht, Hs in Hq.
    destruct (is_raw_pointer_type store t); [|done]. simpl in Hq.
    case_bool_decide as Hkk; [|done]. simpl in Hq.
    rewrite (bool_decide_false (kind tt = TYPE_OPAQUE_POINTER)) in Hq by congruence.
    destruct (type_equal store (element tt) (element ts)) eqn:He; [|done].
    split_and!; [done | done | done | congruence |]. symmetry.
    apply (link_shape_equal t s); [by eexists | by eexists | exists tt | exists ts | done];
      (split; [done|]); eapply pointer_link; eauto; congruence.
Qed.
End Shapes.

(** C33. No sequence of implicit conversions, casts and [reinterpret]s takes a raw pointer to
    a type that grants more access to the memory behind it: readonly stays readonly and
    volatile stays volatile.  Without [reinterpret], a typed pointer moreover keeps the shape
    of what it points to. *)
Theorem pointer_conversions_sound rank s t :
  structured store rank -> valid store s -> is_raw_pointer_type store s = true ->
  (rtc (converts store) s t -> keeps_qualifiers store s t)
  /\ (rtc accepted s t -> has_kind store s TYPE_POINTER = true -> same_pointee s t).
Proof.
  intros Hstore Hs Hraw. split.
  - intros Hst. revert Hs Hraw. induction Hst as [s|s u t Hsu Hut IH]; intros Hs Hraw.
    + destruct Hs as [ts Hs]. by exists ts, ts.
    + pose proof (converts_keeps _ _ _ Hs Hraw Hsu) as Hk. eapply keeps_trans; [done|].
      destruct Hk as (? & tu & _ & Hu & Hr & _). apply IH; [by exists tu | done].
  - clear Hraw. intros Hst. revert Hs. induction Hst as [s|s u t Hsu Hut IH]; intros Hs Hp.
    + destruct Hs as [ts Hs]. unfold has_kind in Hp. rewrite Hs in Hp.
      apply bool_decide_eq_true in Hp. by exists ts, ts.
    + destruct (accepted_same_pointee rank Hstore s u Hs Hp Hsu)
        as (ts & tu & Ht & Hu & Hk & Hk' & Hsh).
      destruct (IH ltac:(by exists tu)) as (tu' & tt & Hu' & Htt & Hku & Hkt & Hsh').
      { unfold has_kind. rewrite Hu. by apply bool_decide_eq_true. }
      rewrite Hu in Hu'. injection Hu' as <-. exists ts, tt. split_and!; congruence.
Qed.

(** A value is accepted where a type is expected exactly when it has that type or the
    semantic analyser records, for code generation, which conversion turns it into one. *)
Theorem initializer_compatible_classified declared init_type :
  valid store declared -> valid store init_type ->
  initializer_compatible store declared init_type = true <->
  type_equal store declared init_type = true
  \/ classify_context_conversion store declared init_type <> SEM_CONTEXT_CONVERSION_NONE.
Proof.
  intros [d Hd] [s Hs]. unfold initializer_compatible, classify_context_conversion.
  rewrite Hd, Hs. destruct (type_equal _ _ _); [intuition|].
  rewrite (andb_comm (is_nullable_pointer_type store declared)).
  generalize (is_null_type store init_type && is_nullable_pointer_type store declared).
  generalize (pointer_qualification_conversion_allowed store declared init_type).
  generalize (slice_qualification_conversion_allowed store declared init_type).
  generalize (array_to_slice_conversion_allowed store declared init_type).
  generalize (is_concrete_integer_kind (kind d)) (is_concrete_float_kind (kind d)).
  intros [] [] [] [] [] []; destruct (kind s); simpl;
    split; first [done | intros _; by right | intros [|]; done].
Qed.

(** The value of a case of an exhaustive [switch] on a boolean or an enumeration. *)
Definition case_value_ok (switch_type : TypePtr) (k : TypeKind) (c : ConstValue) : Prop :=
  const_value_type c = switch_type
  /\ match k with
     | TYPE_BOOL => exists b, const_value_as c = CONST_VALUE_BOOL b
     | TYPE_ENUM => exists v, const_value_as c = CONST_VALUE_INT v
     | _ => True
     end.

(** What an exhaustive [switch] covers. *)
Definition covers (t : Type_) (cases : list ConstValue) : Prop :=
  match kind t with
  | TYPE_BOOL => forall b, exists c, c ∈ cases /\ const_value_as c = CONST_VALUE_BOOL b
  | TYPE_ENUM =>
      enum_members t <> []
      /\ forall m, m ∈ enum_members t ->
           exists c v, c ∈ cases /\ const_value_as c = CONST_VALUE_INT v
             /\ integer_values_equal v (em_value m) = true
  | _ => False
  end.

Lemma exists_in_cons {A} (P : A -> Prop) x xs :
  (exists y, y ∈ x :: xs /\ P y) <-> P x \/ exists y, y ∈ xs /\ P y.
Proof.
  setoid_rewrite elem_of_cons. split.
  - intros (y & [->|Hy] & HP); eauto.
  - intros [HP | (y & Hy & HP)]; eauto.
Qed.

Lemma exists_in_nil {A} (P : A -> Prop) : ~ exists y, y ∈ [] /\ P y.
Proof. intros (y & Hy & _). by apply not_elem_of_nil in Hy. Qed.

Lemma covers_booleans_spec p cases has_true has_false :
  Forall (case_value_ok p TYPE_BOOL) cases ->
  exists r, covers_booleans p cases has_true has_false = Returned r
    /\ (r = true <->
        (has_true = true \/ exists c, c ∈ cases /\ const_value_as c = CONST_VALUE_BOOL true)
        /\ (has_false = true \/ exists c, c ∈ cases /\ const_value_as c = CONST_VALUE_BOOL false)).
Proof.
  intros Hc. revert has_true has_false.
  induction Hc as [|c cases [Ht [b Hb]] _ IH]; intros ht hf.
  - eexists. split; [done|]. rewrite andb_true_iff.
    split; [intuition | intros [[|H] [|H']]; try (by apply exists_in_nil in H);
                        try (by apply exists_in_nil in H'); done].
  - simpl. rewrite bool_decide_true, Hb by done. simpl.
    destruct b; [destruct (IH true hf) as (r & -> & Hr) | destruct (IH ht true) as (r & -> & Hr)];
      (exists r; split; [done|]);
      rewrite (exists_in_cons (fun x => const_value_as x = CONST_VALUE_BOOL true)),
        (exists_in_cons (fun x => const_value_as x = CONST_VALUE_BOOL false)), Hr, Hb;
      intuition congruence.
Qed.

Lemma covers_member_spec p cases m :
  Forall (case_value_ok p TYPE_ENUM) cases ->
  exists r, covers_member p cases m = Returned r
    /\ (r = true <-> exists c v, c ∈ cases /\ const_value_as c = CONST_VALUE_INT v
                       /\ integer_values_equal v (em_value m) = true).
Proof.
  induction 1 as [|c cases [Ht [v Hv]] _ (r & Hr & Hiff)].
  - exists false. set_solver.
  - simpl. rewrite bool_decide_true, Hv by done. simpl. destruct (integer_values_equal v _) eqn:He.
    + exists true. split; [done|]. split; [|done]. intros _. exists c, v. split; [left|done].
    + exists r. split; [done|]. rewrite Hiff. setoid_rewrite elem_of_cons.
      split.
      * intros (c' & v' & Hin & Hv'). exists c', v'. by split; [right|].
      * intros (c' & v' & [->|Hin] & Hv' & He'); [|by exists c', v'].
        rewrite Hv in Hv'. injection Hv' as <-. congruence.
Qed.

Lemma covers_members_spec p cases ms :
  Forall (case_value_ok p TYPE_ENUM) cases ->
  exists r, covers_members p cases ms = Returned r
    /\ (r = true <-> forall m, m ∈ ms ->
          exists c v, c ∈ cases /\ const_value_as c = CONST_VALUE_INT v
            /\ integer_values_equal v (em_value m) = true).
Proof.
  intros Hc. induction ms as [|m ms (r & Hr & Hiff)]; [exists true; set_solver|].
  simpl. destruct (covers_member_spec p cases m Hc) as (b & -> & Hb). simpl.
  destruct b; [exists r | exists false]; (split; [done|]); setoid_rewrite elem_of_cons.
  - rewrite Hiff. split; [intros H m' [->|]; [by apply Hb | auto] | auto].
  - split; [done|]. intros H. apply Hb. apply H. by left.
Qed.

Lemma exhaustive_returns switch_type t cases has_default :
  deref store switch_type = Some t -> Forall (case_value_ok switch_type (kind t)) cases ->
  exists r, switch_case_values_are_exhaustive store switch_type cases has_default = Returned r
    /\ (r = true <-> has_default = true \/ covers t cases).
Proof.
  intros Ht Hc. unfold switch_case_values_are_exhaustive. rewrite Ht.
  destruct has_default; [exists true; intuition|].
  destruct (Nat.eqb_spec (length cases) 0) as [Hlen|Hlen].
  { destruct cases; [|done]. exists false. split; [done|]. split; [done|].
    unfold covers. intros [|H]; [done|]. destruct (kind t); try done.
    - destruct (H true) as (c & Hin & _). by apply not_elem_of_nil in Hin.
    - destruct H as [Hne H]. destruct (enum_members t) as [|m ms]; [done|].
      destruct (H m ltac:(left)) as (c & ? & Hin & _). by apply not_elem_of_nil in Hin. }
  unfold covers. case_bool_decide as Hb.
  { rewrite Hb in *. destruct (covers_booleans_spec switch_type cases false false Hc)
      as (r & -> & Hr). exists r. split; [done|]. rewrite Hr.
    split; [intros [[|] [|]]; try done; right; intros [|]; done|].
    intros [|H]; [done|]. split; right; apply H. }
  case_bool_decide as He; simpl.
  2: { exists false. split; [done|]. split; [done|]. intros [|H]; [done|].
       by destruct (kind t). }
  rewrite He in *. destruct (Nat.eqb_spec (length (enum_members t)) 0) as [Hz|Hz].
  { exists false. split; [done|]. split; [done|]. intros [|[H _]]; [done|].
    by destruct (enum_members t). }
  destruct (covers_members_spec switch_type cases (enum_members t) Hc) as (r & -> & Hr).
  exists r. split; [done|]. rewrite Hr. split.
  - intros H. right. split; [by destruct (enum_members t) | done].
  - by intros [|[_ H]].
Qed.
(** When the cases of a [switch] have the type of its expression, the exhaustiveness
    check never fails an assertion, and it answers 1 exactly for a default case, for a
    boolean with both values among the cases, and for a non-empty enumeration each of whose
    values is the value of a case. *)
Theorem switch_exhaustiveness switch_type t cases has_default :
  deref store switch_type = Some t -> Forall (case_value_ok switch_type (kind t)) cases ->
  exists r, switch_case_values_are_exhaustive store switch_type cases has_default = Returned r
    /\ (r = true <-> has_default = true \/ covers t cases).
Proof. apply exhaustive_returns. Qed.
End Guarantees.

(** ** Instances *)

(** [s32], a pointer to it three times over ([*s32], [*readonly s32], [*s32] again),
    [*readonly volatile opaque] and an enumeration of two values. *)
Definition sample_pointer (access : PointerAccess) (vol : bool) (k : TypeKind) (e : TypePtr)
    : Type_ :=
  {| kind := k; element := e; pointer_access := access;
     pointer_is_volatile := vol; array_size := -1; named_module := "";
     named_name := ""; type_arguments := []; struct_name := "";
     fields := []; struct_is_repr_c := false; struct_is_resource := false;
     struct_repr_c_packed := false; struct_repr_c_align := 0;
     struct_is_union := false; struct_is_incomplete := false; parameters := [];
     return_type := None; function_abi := FUNCTION_ABI_COGLET;
     function_call_conv := C_CALL_DEFAULT; function_is_variadic := false;
     enum_name := ""; enum_is_repr_c := false; enum_backing_type := None;
     enum_members := if bool_decide (k = TYPE_ENUM)
       then [{| em_name := "Off"; em_value := mkIntegerValue 0 false |};
             {| em_name := "On"; em_value := mkIntegerValue 1 false |}] else [] |}.

Definition sample_types : TypeStore :=
  [type_of_kind TYPE_S32;
   sample_pointer POINTER_ACCESS_MUTABLE false TYPE_POINTER (Some 0%nat);
   sample_pointer POINTER_ACCESS_READONLY false TYPE_POINTER (Some 0%nat);
   sample_pointer POINTER_ACCESS_MUTABLE false TYPE_POINTER (Some 0%nat);
   sample_pointer POINTER_ACCESS_READONLY true TYPE_OPAQUE_POINTER None;
   sample_pointer POINTER_ACCESS_MUTABLE false TYPE_ENUM None].

Lemma sample_types_structured : structured sample_types (fun i => i).
Proof.
  split.
  - intros i t Hi. by apply lookup_lt_Some in Hi.
  - intros i t p Hi Hp. destruct i as [|[|[|[|[|[|i]]]]]]; [injection Hi as <-; vm_compute in Hp..|done].
    all: try (by apply not_elem_of_nil in Hp).
    all: apply list_elem_of_singleton in Hp as ->; exists 0%nat; (split_and!; [done | by eexists | lia]).
Qed.

Lemma type_equal_correct_witness :
  type_equal sample_types (Some 1%nat) (Some 3%nat) = true
  /\ type_equal sample_types (Some 1%nat) (Some 2%nat) = false
  /\ (type_equal sample_types (Some 1%nat) (Some 3%nat) = true <->
      shape_of sample_types (Some 1%nat) = shape_of sample_types (Some 3%nat)).
Proof.
  split_and!; [reflexivity | reflexivity |].
  apply (type_equal_correct sample_types (fun i => i)); [apply sample_types_structured | by eexists..].
Defined.

Lemma pointer_conversions_sound_witness :
  keeps_qualifiers sample_types (Some 1%nat) (Some 4%nat).
Proof.
  apply (pointer_conversions_sound sample_types (fun i => i)).
  - apply sample_types_structured.
  - by eexists.
  - reflexivity.
  - apply (rtc_l _ _ (Some 2%nat)); [apply converts_adapts; [by eexists | apply adapts_context]|].
    + reflexivity.
    + apply rtc_once, converts_reinterpret. reflexivity.
Defined.

Lemma initializer_compatible_classified_witness :
  initializer_compatible sample_types (Some 2%nat) (Some 1%nat) = true
  /\ classify_context_conversion sample_types (Some 2%nat) (Some 1%nat)
     = SEM_CONTEXT_CONVERSION_POINTER_QUALIFICATION.
Proof.
  split; [|reflexivity].
  apply (initializer_compatible_classified sample_types); [by eexists | by eexists |].
  right. vm_compute. discriminate.
Defined.

Definition sample_cases (values : list Z) : list ConstValue :=
  map (fun z => mkConstValue (Some 5%nat) (CONST_VALUE_INT (mkIntegerValue z false))) values.

Lemma switch_exhaustiveness_witness :
  exists r, switch_case_values_are_exhaustive sample_types (Some 5%nat) (sample_cases [1; 0]) false
      = Returned r
    /\ (r = true <-> false = true \/ covers (sample_pointer POINTER_ACCESS_MUTABLE false TYPE_ENUM None)
                                       (sample_cases [1; 0])).
Proof.
  apply switch_exhaustiveness; [reflexivity|].
  repeat apply Forall_cons_2; [.. | apply Forall_nil_2]; split; try reflexivity; by eexists.
Defined.

Example missing_case :
  switch_case_values_are_exhaustive sample_types (Some 5%nat) (sample_cases [1]) false
  = Returned false.
Proof. reflexivity. Qed.

Example repeated_case :
  record_switch_case_value (sample_cases [1; 0])
    (mkConstValue (Some 5%nat) (CONST_VALUE_INT (mkIntegerValue 0 false))) = None.
Proof. reflexivity. Qed.
