(* ===== verification/FlowState.v ===== *)
(** The state of definite-assignment and ownership analysis ([src/semantic_anal.c],
    "definite-assignment / ownership flow state"; [FlowState], [Symbol] and [Scope] of
    [src/include/semantic_anal.h]).

    A [FlowState] is a value: the compiler copies the structure and reallocates the arrays
    before it writes to a copy, so no two live states share an array that is written to.
    The arrays are lists of [capacity] bytes.  [size_t] counts and slots are naturals (each
    slot occupies memory, so they never reach the limit); the doubling of the capacity, which
    the code guards against overflow, is computed on machine words.  An identifier that may
    be [INVALID_..._ID] is an option. *)
From S2P Require Import Prelude Types TypeRelations.

Inductive SymbolKind : Set :=
| SYMBOL_VARIABLE | SYMBOL_FUNCTION | SYMBOL_TYPE | SYMBOL_CONSTANT | SYMBOL_BUILTIN.

#[global] Instance SymbolKind_eq_dec : EqDecision SymbolKind.
Proof. solve_decision. Defined.

Inductive VariableStorage : Set :=
| VARIABLE_STORAGE_NONE | VARIABLE_STORAGE_GLOBAL | VARIABLE_STORAGE_LOCAL
| VARIABLE_STORAGE_PARAMETER.

#[global] Instance VariableStorage_eq_dec : EqDecision VariableStorage.
Proof. solve_decision. Defined.

(** The members of [Symbol] that flow analysis and name lookup read.  What the declaration of
    a function is looked up for is whether it has type parameters. *)
Record Symbol : Set := mkSymbol {
  sym_name : string;
  sym_kind : SymbolKind;
  sym_type : TypePtr;
  variable_storage : VariableStorage;
  flow_owner_id : option nat;
  variable_id : option nat;
  has_type_parameters : bool;
}.

#[global] Instance Symbol_eq_dec : EqDecision Symbol.
Proof. solve_decision. Defined.

Record FlowState : Set := mkFlowState {
  owner_id : option nat;
  initialized : list Z;
  resource_owner : list bool;
  count : nat;
  capacity : nat;
  reachable : bool;
}.

Definition FLOW_MAY_BE_UNINITIALIZED : Z := 1.
Definition FLOW_MAY_BE_INITIALIZED : Z := 2.
Definition FLOW_DEFINITELY_UNINITIALIZED : Z := FLOW_MAY_BE_UNINITIALIZED.
Definition FLOW_DEFINITELY_INITIALIZED : Z := FLOW_MAY_BE_INITIALIZED.

(** [state->initialized[i]] and [state->resource_owner[i]]. *)
Definition mask (state : FlowState) (i : nat) : Z := default 0 (initialized state !! i).
Definition owner (state : FlowState) (i : nat) : bool := default false (resource_owner state !! i).

Definition set_reachable (b : bool) (s : FlowState) : FlowState :=
  {| owner_id := owner_id s; initialized := initialized s; resource_owner := resource_owner s;
     count := count s; capacity := capacity s; reachable := b |}.

Definition set_mask (i : nat) (m : Z) (s : FlowState) : FlowState :=
  {| owner_id := owner_id s; initialized := <[i := m]> (initialized s);
     resource_owner := resource_owner s;
     count := count s; capacity := capacity s; reachable := reachable s |}.

Definition flow_init (id : option nat) : FlowState :=
  {| owner_id := id; initialized := []; resource_owner := []; count := 0; capacity := 0;
     reachable := true |}.

(** The loop that doubles the capacity. *)
Fixpoint grow_capacity (fuel : nat) (new_capacity minimum_capacity : Z) : outcome Z :=
  match fuel with
  | O => Aborted
  | S fuel =>
      if new_capacity <? minimum_capacity then
        if SIZE_MAX / 2 <? new_capacity then Returned minimum_capacity
        else grow_capacity fuel (u64 (new_capacity * 2)) minimum_capacity
      else Returned new_capacity
  end.

Definition GROW_FUEL : nat := 64.

Definition flow_reserve (state : FlowState) (minimum_capacity : nat) : outcome FlowState :=
  if (minimum_capacity <=? capacity state)%nat then Returned state
  else
    let start := if (capacity state =? 0)%nat then 8 else Z.of_nat (capacity state) in
    let! new_capacity := grow_capacity GROW_FUEL start (Z.of_nat minimum_capacity) in
    let n := Z.to_nat new_capacity in
    let c := count state in
    Returned {| owner_id := owner_id state;
                initialized := take c (initialized state) ++ replicate (n - c) 0;
                resource_owner := take c (resource_owner state) ++ replicate (n - c) false;
                count := c; capacity := n; reachable := reachable state |}.

Definition flow_truncate_to (state : FlowState) (n : nat) : outcome FlowState :=
  assert! (n <=? count state)%nat;
  if (n =? count state)%nat then Returned state
  else
    let cleared := (count state - n)%nat in
    Returned {| owner_id := owner_id state;
                initialized := take n (initialized state) ++ replicate cleared 0
                               ++ drop (count state) (initialized state);
                resource_owner := take n (resource_owner state) ++ replicate cleared false
                                  ++ drop (count state) (resource_owner state);
                count := n; capacity := capacity state; reachable := reachable state |}.

(** ** Symbols *)

Definition symbol_has_flow_state (symbol : option Symbol) : outcome bool :=
  match symbol with
  | None => Returned false
  | Some s =>
      if negb (bool_decide (sym_kind s = SYMBOL_VARIABLE)) then Returned false
      else match variable_storage s with
      | VARIABLE_STORAGE_LOCAL | VARIABLE_STORAGE_PARAMETER =>
          assert! bool_decide (is_Some (flow_owner_id s));
          assert! bool_decide (is_Some (variable_id s));
          Returned true
      | VARIABLE_STORAGE_GLOBAL | VARIABLE_STORAGE_NONE => Returned false
      end
  end.

Definition symbol_belongs_to_flow (s : Symbol) (state : FlowState) : outcome bool :=
  let! has := symbol_has_flow_state (Some s) in
  assert! has;
  Returned (bool_decide (flow_owner_id s = owner_id state)).

(** The slot of a symbol that has flow state in [state]: the assertions
    [symbol_belongs_to_flow(symbol, &ctx->flow)] and [symbol->variable_id < ctx->flow.count]. *)
Definition slot_of (state : FlowState) (s : Symbol) : outcome nat :=
  let! belongs := symbol_belongs_to_flow s state in
  assert! belongs;
  match variable_id s with
  | Some i => assert! (i <? count state)%nat; Returned i
  | None => Aborted
  end.

(** [if (!symbol_has_flow_state(symbol)) return otherwise;], then the slot. *)
Definition with_slot {A} (state : FlowState) (symbol : option Symbol) (otherwise : A)
    (k : nat -> A) : outcome A :=
  let! has := symbol_has_flow_state symbol in
  match symbol with
  | Some s => if (has : bool) then let! i := slot_of state s in Returned (k i) else Returned otherwise
  | None => Returned otherwise
  end.

Section Registration.
Context (store : TypeStore).

Definition flow_register_variable (state : FlowState) (symbol : Symbol) (is_initialized : bool)
    : outcome FlowState :=
  let! has := symbol_has_flow_state (Some symbol) in
  assert! has;
  let! belongs := symbol_belongs_to_flow symbol state in
  assert! belongs;
  match variable_id symbol with
  | None => Aborted
  | Some i =>
      let required_count := S i in
      let! state := flow_reserve state required_count in
      Returned
        {| owner_id := owner_id state;
           initialized := <[i := if is_initialized then FLOW_DEFINITELY_INITIALIZED
                                 else FLOW_DEFINITELY_UNINITIALIZED]> (initialized state);
           resource_owner :=
             <[i := contains_resource_by_value store (sym_type symbol)]> (resource_owner state);
           count := if (count state <? required_count)%nat then required_count else count state;
           capacity := capacity state; reachable := reachable state |}
  end.
End Registration.

Definition flow_mark_variable_initialized (state : FlowState) (symbol : option Symbol)
    : outcome FlowState :=
  with_slot state symbol state (fun i => set_mask i FLOW_DEFINITELY_INITIALIZED state).

Definition flow_mark_variable_uninitialized (state : FlowState) (symbol : option Symbol)
    : outcome FlowState :=
  with_slot state symbol state (fun i => set_mask i FLOW_DEFINITELY_UNINITIALIZED state).

Definition flow_variable_is_initialized (state : FlowState) (symbol : option Symbol)
    : outcome bool :=
  with_slot state symbol true (fun i => mask state i =? FLOW_DEFINITELY_INITIALIZED).

Definition flow_variable_is_definitely_uninitialized (state : FlowState)
    (symbol : option Symbol) : outcome bool :=
  with_slot state symbol false (fun i => mask state i =? FLOW_DEFINITELY_UNINITIALIZED).

Definition flow_variable_may_be_initialized (state : FlowState) (symbol : option Symbol)
    : outcome bool :=
  with_slot state symbol true (fun i => negb (Z.land (mask state i) FLOW_MAY_BE_INITIALIZED =? 0)).

(** ** Copies and merges *)

Definition flow_clone (source : FlowState) : outcome FlowState :=
  let! clone := flow_reserve (flow_init (owner_id source)) (count source) in
  let c := count source in
  Returned {| owner_id := owner_id clone;
              initialized := take c (initialized source) ++ drop c (initialized clone);
              resource_owner := take c (resource_owner source) ++ drop c (resource_owner clone);
              count := c; capacity := capacity clone; reachable := reachable source |}.

(** [for (i = 0; i < n; i++) result.initialized[i] = left[i] | right[i];] *)
Fixpoint merge_masks (n : nat) (ls rs result : list Z) : list Z :=
  match n, ls, rs, result with
  | S n, l :: ls, r :: rs, _ :: result => Z.lor l r :: merge_masks n ls rs result
  | _, _, _, _ => result
  end.

Definition clone_truncated (state : FlowState) (n : nat) : outcome FlowState :=
  let! result := flow_clone state in
  flow_truncate_to result n.

Definition flow_merge_continuing_paths (left right : FlowState) (active_variable_count : nat)
    : outcome FlowState :=
  assert! bool_decide (owner_id left = owner_id right);
  assert! (active_variable_count <=? count left)%nat;
  assert! (active_variable_count <=? count right)%nat;
  match reachable left, reachable right with
  | false, false =>
      let! result := clone_truncated left active_variable_count in
      Returned (set_reachable false result)
  | true, false => clone_truncated left active_variable_count
  | false, true => clone_truncated right active_variable_count
  | true, true =>
      let! result := clone_truncated left active_variable_count in
      assert! bool_decide (take active_variable_count (resource_owner left)
                           = take active_variable_count (resource_owner right));
      Returned {| owner_id := owner_id result;
                  initialized := merge_masks active_variable_count (initialized left)
                                   (initialized right) (initialized result);
                  resource_owner := resource_owner result;
                  count := count result; capacity := capacity result; reachable := true |}
  end.

(** The accumulator is absent while [*has_accumulator] is 0. *)
Definition flow_accumulate_reachable_path (accumulator : option FlowState) (path : FlowState)
    (active_variable_count : nat) : outcome (option FlowState) :=
  assert! (active_variable_count <=? count path)%nat;
  assert! match accumulator with
          | Some a => bool_decide (owner_id a = owner_id path)
          | None => true
          end;
  if negb (reachable path) then Returned accumulator
  else match accumulator with
  | None =>
      let! a := clone_truncated path active_variable_count in
      Returned (Some a)
  | Some a =>
      let! a := flow_merge_continuing_paths a path active_variable_count in
      Returned (Some a)
  end.

(** [LoopFlowContext]; a flow is absent while its [has_..._flow] is 0, and the parent is the
    rest of the list of enclosing loops. *)
Record LoopFlowContext : Set := mkLoop {
  active_variable_count : nat;
  break_flow : option FlowState;
  continue_flow : option FlowState;
}.

Definition loop_record_break (loop : LoopFlowContext) (flow : FlowState)
    : outcome (LoopFlowContext * FlowState) :=
  let! f := flow_accumulate_reachable_path (break_flow loop) flow (active_variable_count loop) in
  Returned ({| active_variable_count := active_variable_count loop;
               break_flow := f; continue_flow := continue_flow loop |},
            set_reachable false flow).

Definition loop_record_continue (loop : LoopFlowContext) (flow : FlowState)
    : outcome (LoopFlowContext * FlowState) :=
  let! f := flow_accumulate_reachable_path (continue_flow loop) flow (active_variable_count loop) in
  Returned ({| active_variable_count := active_variable_count loop;
               break_flow := break_flow loop; continue_flow := f |},
            set_reachable false flow).

Definition loop_iteration_flow (loop : LoopFlowContext) (body_flow : FlowState)
    : outcome FlowState :=
  let! result := clone_truncated body_flow (active_variable_count loop) in
  match continue_flow loop with
  | Some f => flow_merge_continuing_paths result f (active_variable_count loop)
  | None => Returned result
  end.

Definition loop_exit_flow (loop : LoopFlowContext) (normal_exit : FlowState)
    (condition_is_always_true : bool) : outcome FlowState :=
  if condition_is_always_true then
    match break_flow loop with
    | Some f => flow_clone f
    | None => Aborted
    end
  else
    let! result := flow_clone normal_exit in
    match break_flow loop with
    | Some f => flow_merge_continuing_paths result f (active_variable_count loop)
    | None => Returned result
    end.

(** The slot whose ownership the loop changes, if any: the first resource owner whose state
    at the backedge is not its state at the entry. *)
Fixpoint changed_owner (entry backedge : FlowState) (i n : nat) : outcome (option nat) :=
  match n with
  | O => Returned None
  | S n =>
      if negb (owner entry i) then changed_owner entry backedge (S i) n
      else
        assert! owner backedge i;
        if mask entry i =? mask backedge i then changed_owner entry backedge (S i) n
        else Returned (Some i)
  end.

Definition flow_validate_loop_backedge_resources (entry backedge : FlowState)
    (active_variable_count : nat) : outcome (option nat) :=
  assert! (active_variable_count <=? count entry)%nat;
  assert! (active_variable_count <=? count backedge)%nat;
  if negb (reachable backedge) then Returned None
  else changed_owner entry backedge 0 active_variable_count.

(** ** Well-formed states *)

(** The arrays have [capacity] bytes, at least [count], and are zero behind [count]. *)
Record flow_wf (s : FlowState) : Prop := {
  wf_initialized : length (initialized s) = capacity s;
  wf_resource_owner : length (resource_owner s) = capacity s;
  wf_count : (count s <= capacity s)%nat;
  wf_mask_zero i : (count s <= i)%nat -> mask s i = 0;
  wf_owner_zero i : (count s <= i)%nat -> owner s i = false;
}.

(** Equality of states up to the capacity of their arrays. *)
#[global] Instance flow_equiv : Equiv FlowState := fun s t =>
  owner_id s = owner_id t /\ count s = count t /\ reachable s = reachable t
  /\ (forall i, mask s i = mask t i) /\ (forall i, owner s i = owner t i).

#[global] Instance flow_equivalence : Equivalence (≡@{FlowState}).
Proof.
  split.
  - by intros s.
  - intros s t (? & ? & ? & ? & ?). by split_and!.
  - intros s t u (E1 & E2 & E3 & Hm & Ho) (F1 & F2 & F3 & Hm' & Ho').
    split_and!; [congruence.. | intros i; by rewrite Hm | intros i; by rewrite Ho].
Qed.

#[global] Instance mask_proper : Proper ((≡) ==> (=) ==> (=)) mask.
Proof. intros s t (_ & _ & _ & H & _) i _ <-. apply H. Qed.

#[global] Instance owner_proper : Proper ((≡) ==> (=) ==> (=)) owner.
Proof. intros s t (_ & _ & _ & _ & H) i _ <-. apply H. Qed.

#[global] Instance count_proper : Proper ((≡) ==> (=)) count.
Proof. by intros s t (_ & ? & _). Qed.

#[global] Instance reachable_proper : Proper ((≡) ==> (=)) reachable.
Proof. by intros s t (_ & _ & ? & _). Qed.

#[global] Instance owner_id_proper : Proper ((≡) ==> (=)) owner_id.
Proof. by intros s t (? & _). Qed.

Lemma flow_init_wf id : flow_wf (flow_init id).
Proof. by split. Qed.

(** A computation that returns a state with the given properties. *)
Definition returns {A} (m : outcome A) (P : A -> Prop) : Prop := exists a, m = Returned a /\ P a.

Lemma returns_ret {A} (a : A) (P : A -> Prop) : P a -> returns (Returned a) P.
Proof. intros H. by exists a. Qed.

Lemma returns_bind {A B} (m : outcome A) (k : A -> outcome B) P Q :
  returns m P -> (forall a, P a -> returns (k a) Q) -> returns (obind m k) Q.
Proof. intros (a & -> & Ha) Hk. exact (Hk a Ha). Qed.

Lemma returns_assert {A} (b : bool) (k : unit -> outcome A) Q :
  b = true -> returns (k tt) Q -> returns (obind (c_assert b) k) Q.
Proof. by intros ->. Qed.

Lemma returns_mono {A} (m : outcome A) (P Q : A -> Prop) :
  returns m P -> (forall a, P a -> Q a) -> returns m Q.
Proof. intros (a & -> & Ha) H. exists a. split; [done | auto]. Qed.

Lemma returns_inv {A} (m : outcome A) P a : returns m P -> m = Returned a -> P a.
Proof. intros (b & -> & Hb) [= ->]. done. Qed.

Lemma grow_capacity_spec fuel c m :
  0 < c -> SIZE_MAX < 2 * c * 2 ^ Z.of_nat fuel ->
  returns (grow_capacity (S fuel) c m) (fun r => m <= r /\ 0 < r).
Proof.
  revert c. induction fuel as [|fuel IH]; intros c Hc Hbig.
  - simpl in *. destruct (Z.ltb_spec c m); [|by exists c].
    destruct (Z.ltb_spec (SIZE_MAX / 2) c) as [|Hguard]; [exists m; split; [done|lia]|].
    unfold SIZE_MAX, UINT64_MAX in *. change ((2 ^ 64 - 1) / 2) with (2 ^ 63 - 1) in Hguard. lia.
  - cbn [grow_capacity]. destruct (Z.ltb_spec c m); [|by exists c].
    destruct (Z.ltb_spec (SIZE_MAX / 2) c) as [Hguard|Hguard]; [exists m; split; [done|lia]|].
    assert (c * 2 <= SIZE_MAX).
    { unfold SIZE_MAX, UINT64_MAX in *. change ((2 ^ 64 - 1) / 2) with (2 ^ 63 - 1) in Hguard. lia. }
    rewrite u64_small by (unfold SIZE_MAX, UINT64_MAX in *; lia).
    apply IH; [lia|].
    rewrite Nat2Z.inj_succ, Z.pow_succ_r in Hbig by lia. lia.
Qed.

Lemma default_lookup_replicate {A} (d : A) k i : default d (replicate k d !! i) = d.
Proof. destruct (replicate k d !! i) eqn:Hi; [by apply lookup_replicate in Hi as [-> _] | done]. Qed.

(** Looking up in the array a state is rebuilt from. *)
Lemma default_lookup_take_app {A} (d : A) (l : list A) n k i :
  (n <= length l)%nat ->
  default d ((take n l ++ replicate k d) !! i) = if decide (i < n)%nat then default d (l !! i) else d.
Proof.
  intros Hn. case_decide.
  - rewrite lookup_app_l by (rewrite length_take; lia). by rewrite lookup_take_lt.
  - rewrite lookup_app_r, length_take by (rewrite length_take; lia).
    apply default_lookup_replicate.
Qed.

Lemma flow_reserve_spec s m :
  flow_wf s ->
  returns (flow_reserve s m) (fun t => flow_wf t /\ t ≡ s /\ (m <= capacity t)%nat).
Proof.
  intros Hs. pose proof (wf_count _ Hs). unfold flow_reserve.
  destruct (Nat.leb_spec m (capacity s)); [by exists s|].
  eapply returns_bind.
  { apply (grow_capacity_spec 63).
    - destruct (Nat.eqb_spec (capacity s) 0); lia.
    - destruct (Nat.eqb_spec (capacity s) 0); unfold SIZE_MAX, UINT64_MAX;
        change (Z.of_nat 63) with 63; lia. }
  intros r [Hr _]. apply returns_ret.
  assert (Hmask : forall i, default 0 ((take (count s) (initialized s)
            ++ replicate (Z.to_nat r - count s) 0) !! i) = mask s i).
  { intros i. rewrite default_lookup_take_app by (rewrite (wf_initialized _ Hs); lia).
    case_decide; [done|]. symmetry. apply (wf_mask_zero _ Hs). lia. }
  assert (Howner : forall i, default false ((take (count s) (resource_owner s)
            ++ replicate (Z.to_nat r - count s) false) !! i) = owner s i).
  { intros i. rewrite default_lookup_take_app by (rewrite (wf_resource_owner _ Hs); lia).
    case_decide; [done|]. symmetry. apply (wf_owner_zero _ Hs). lia. }
  split_and!; [split | | simpl; lia]; simpl.
  - rewrite length_app, length_take, length_replicate, (wf_initialized _ Hs). lia.
  - rewrite length_app, length_take, length_replicate, (wf_resource_owner _ Hs). lia.
  - lia.
  - intros i Hi. unfold mask at 1. simpl. rewrite Hmask. by apply (wf_mask_zero _ Hs).
  - intros i Hi. unfold owner at 1. simpl. rewrite Howner. by apply (wf_owner_zero _ Hs).
  - by split_and!.
Qed.

(** [t] is [s] cut down to its first [n] slots. *)
Definition truncated (s : FlowState) (n : nat) (t : FlowState) : Prop :=
  owner_id t = owner_id s /\ count t = n /\ reachable t = reachable s
  /\ (forall i, mask t i = if decide (i < n)%nat then mask s i else 0)
  /\ (forall i, owner t i = if decide (i < n)%nat then owner s i else false).

Lemma default_lookup_clear {A} (d : A) (l : list A) n c i :
  (n <= c <= length l)%nat -> (forall j, (c <= j)%nat -> default d (l !! j) = d) ->
  default d ((take n l ++ replicate (c - n) d ++ drop c l) !! i)
  = if decide (i < n)%nat then default d (l !! i) else d.
Proof.
  intros Hn Hz. case_decide as Hi.
  - rewrite lookup_app_l by (rewrite length_take; lia). by rewrite lookup_take_lt.
  - rewrite lookup_app_r, length_take by (rewrite length_take; lia).
    destruct (decide (i - n `min` length l < c - n)%nat) as [Hlt|Hge].
    + rewrite lookup_app_l by (by rewrite length_replicate). apply default_lookup_replicate.
    + rewrite lookup_app_r, length_replicate, lookup_drop by (rewrite length_replicate; lia).
      apply Hz. lia.
Qed.

Lemma flow_truncate_to_spec s n :
  flow_wf s -> (n <= count s)%nat ->
  returns (flow_truncate_to s n) (fun t => flow_wf t /\ truncated s n t).
Proof.
  intros Hs Hn. pose proof (wf_count _ Hs). unfold flow_truncate_to.
  apply returns_assert; [by apply Nat.leb_le|].
  destruct (Nat.eqb_spec n (count s)) as [->|Hne]; apply returns_ret.
  - split; [done|]. split_and!; [done..| |]; intros i; case_decide; try done;
      [apply (wf_mask_zero _ Hs) | apply (wf_owner_zero _ Hs)]; lia.
  - assert (Hmask : forall i, default 0 ((take n (initialized s) ++ replicate (count s - n) 0
              ++ drop (count s) (initialized s)) !! i) = if decide (i < n)%nat then mask s i else 0).
    { intros i. apply default_lookup_clear; [rewrite (wf_initialized _ Hs); lia|].
      apply (wf_mask_zero _ Hs). }
    assert (Howner : forall i, default false ((take n (resource_owner s)
              ++ replicate (count s - n) false ++ drop (count s) (resource_owner s)) !! i)
            = if decide (i < n)%nat then owner s i else false).
    { intros i. apply default_lookup_clear; [rewrite (wf_resource_owner _ Hs); lia|].
      apply (wf_owner_zero _ Hs). }
    split; [split|by split_and!]; simpl.
    + rewrite !length_app, length_take, length_replicate, length_drop, (wf_initialized _ Hs). lia.
    + rewrite !length_app, length_take, length_replicate, length_drop, (wf_resource_owner _ Hs). lia.
    + lia.
    + intros i Hi. unfold mask. simpl. rewrite Hmask. case_decide; [lia|done].
    + intros i Hi. unfold owner. simpl. rewrite Howner. case_decide; [lia|done].
Qed.

Lemma default_lookup_copy {A} (d : A) (l k : list A) c i :
  (c <= length l)%nat -> (forall j, (c <= j)%nat -> default d (k !! j) = d) ->
  (forall j, (c <= j)%nat -> default d (l !! j) = d) ->
  default d ((take c l ++ drop c k) !! i) = default d (l !! i).
Proof.
  intros Hc Hk Hl. destruct (decide (i < c)%nat).
  - rewrite lookup_app_l by (rewrite length_take; lia). by rewrite lookup_take_lt.
  - rewrite lookup_app_r, length_take, lookup_drop by (rewrite length_take; lia).
    rewrite Hk, Hl by lia. done.
Qed.

Lemma flow_clone_spec s :
  flow_wf s -> returns (flow_clone s) (fun t => flow_wf t /\ t ≡ s).
Proof.
  intros Hs. pose proof (wf_count _ Hs). unfold flow_clone. eapply returns_bind.
  { apply (flow_reserve_spec _ (count s)), flow_init_wf. }
  intros c (Hc & (Hid & _ & _ & Hm & Ho) & Hcap). apply returns_ret.
  assert (Hmask : forall i, default 0 ((take (count s) (initialized s)
            ++ drop (count s) (initialized c)) !! i) = mask s i).
  { intros i. apply default_lookup_copy; [rewrite (wf_initialized _ Hs); lia | |].
    - intros j _. exact (Hm j).
    - apply (wf_mask_zero _ Hs). }
  assert (Howner : forall i, default false ((take (count s) (resource_owner s)
            ++ drop (count s) (resource_owner c)) !! i) = owner s i).
  { intros i. apply default_lookup_copy; [rewrite (wf_resource_owner _ Hs); lia | |].
    - intros j _. exact (Ho j).
    - apply (wf_owner_zero _ Hs). }
  split; [split|by split_and!]; simpl.
  - rewrite length_app, length_take, length_drop, (wf_initialized _ Hs), (wf_initialized _ Hc). lia.
  - rewrite length_app, length_take, length_drop, (wf_resource_owner _ Hs), (wf_resource_owner _ Hc).
    lia.
  - done.
  - intros i Hi. unfold mask. simpl. rewrite Hmask. by apply (wf_mask_zero _ Hs).
  - intros i Hi. unfold owner. simpl. rewrite Howner. by apply (wf_owner_zero _ Hs).
Qed.

Lemma truncated_proper s s' n t : s ≡ s' -> truncated s n t -> truncated s' n t.
Proof.
  intros (H1 & H2 & H3 & Hm & Ho) (T1 & T2 & T3 & Tm & To).
  split_and!; [congruence.. | intros i; by rewrite Tm, Hm | intros i; by rewrite To, Ho].
Qed.

Lemma clone_truncated_spec s n :
  flow_wf s -> (n <= count s)%nat ->
  returns (clone_truncated s n) (fun t => flow_wf t /\ truncated s n t).
Proof.
  intros Hs Hn. unfold clone_truncated. eapply returns_bind; [by apply flow_clone_spec|].
  intros c [Hc Heq]. eapply returns_mono.
  { apply flow_truncate_to_spec; [done|]. by rewrite Heq. }
  intros t [Ht Htr]. split; [done|]. by eapply truncated_proper.
Qed.

(** The mask of a slot where two paths meet: a path that is not reachable contributes
    nothing. *)
Definition join_mask (l r : FlowState) (i : nat) : Z :=
  match reachable l, reachable r with
  | true, true => Z.lor (mask l i) (mask r i)
  | false, true => mask r i
  | _, false => mask l i
  end.

Definition merged (l r : FlowState) (n : nat) (t : FlowState) : Prop :=
  owner_id t = owner_id l /\ count t = n /\ reachable t = reachable l || reachable r
  /\ (forall i, mask t i = if decide (i < n)%nat then join_mask l r i else 0)
  /\ (forall i, owner t i = if decide (i < n)%nat then owner l i else false).

(** States of one function that agree on which of their first [n] slots own resources. *)
Definition compatible (n : nat) (s t : FlowState) : Prop :=
  owner_id s = owner_id t /\ (forall i, (i < n)%nat -> owner s i = owner t i).

Lemma merge_masks_length n ls rs res : length (merge_masks n ls rs res) = length res.
Proof.
  revert ls rs res. induction n as [|n IH]; intros [|] [|] [|]; simpl; auto.
Qed.

Lemma merge_masks_lookup n ls rs res i :
  (n <= length ls)%nat -> (n <= length rs)%nat -> (n <= length res)%nat ->
  merge_masks n ls rs res !! i
  = if decide (i < n)%nat then Some (Z.lor (default 0 (ls !! i)) (default 0 (rs !! i)))
    else res !! i.
Proof.
  revert ls rs res i. induction n as [|n IH]; intros ls rs res i Hl Hr Hres.
  { by case_decide; [lia|]. }
  destruct ls as [|l ls], rs as [|r rs], res as [|x res]; simpl in Hl, Hr, Hres; try lia.
  destruct i as [|i]; [done|]. simpl. rewrite IH by lia. do 2 case_decide; first [done | lia].
Qed.

Lemma take_owner_eq n s t :
  flow_wf s -> flow_wf t -> (n <= count s)%nat -> (n <= count t)%nat ->
  (forall i, (i < n)%nat -> owner s i = owner t i) ->
  take n (resource_owner s) = take n (resource_owner t).
Proof.
  intros Hs Ht Hn Hn' Heq. pose proof (wf_count _ Hs). pose proof (wf_count _ Ht).
  pose proof (wf_resource_owner _ Hs). pose proof (wf_resource_owner _ Ht).
  apply list_eq. intros i. destruct (decide (i < n)%nat) as [Hi|Hi].
  - rewrite !lookup_take_lt by done. specialize (Heq i Hi). unfold owner in Heq.
    destruct (lookup_lt_is_Some_2 (resource_owner s) i) as [a Ha]; [lia|].
    destruct (lookup_lt_is_Some_2 (resource_owner t) i) as [b Hb]; [lia|].
    rewrite Ha, Hb in *. by simpl in Heq; subst.
  - rewrite !lookup_take_ge by lia. done.
Qed.

Lemma flow_merge_spec l r n :
  flow_wf l -> flow_wf r -> compatible n l r -> (n <= count l)%nat -> (n <= count r)%nat ->
  returns (flow_merge_continuing_paths l r n) (fun t => flow_wf t /\ merged l r n t).
Proof.
  intros Hl Hr [Hid Hown] Hnl Hnr. unfold flow_merge_continuing_paths.
  apply returns_assert; [by apply bool_decide_eq_true|].
  apply returns_assert; [by apply Nat.leb_le|]. apply returns_assert; [by apply Nat.leb_le|].
  pose proof (clone_truncated_spec l n Hl Hnl) as Hcl.
  pose proof (clone_truncated_spec r n Hr Hnr) as Hcr.
  destruct (reachable l) eqn:El, (reachable r) eqn:Er; unfold merged, join_mask; rewrite El, Er.
  - eapply returns_bind; [exact Hcl|]. intros t (Ht & T1 & T2 & T3 & Tm & To).
    pose proof (wf_count _ Ht). apply returns_assert.
    { by apply bool_decide_eq_true, take_owner_eq. }
    apply returns_ret.
    assert (Hmask : forall i, default 0 (merge_masks n (initialized l) (initialized r)
              (initialized t) !! i)
            = if decide (i < n)%nat then Z.lor (mask l i) (mask r i) else 0).
    { intros i. rewrite merge_masks_lookup.
      2: rewrite (wf_initialized _ Hl); pose proof (wf_count _ Hl); lia.
      2: rewrite (wf_initialized _ Hr); pose proof (wf_count _ Hr); lia.
      2: rewrite (wf_initialized _ Ht); lia.
      case_decide as Hi; [done|]. fold (mask t i). rewrite Tm. by rewrite decide_False. }
    split; [split|split_and!; try done]; simpl.
    + rewrite merge_masks_length. apply Ht.
    + apply Ht.
    + apply Ht.
    + intros i Hi. unfold mask at 1. simpl. rewrite Hmask. by rewrite decide_False by lia.
    + apply Ht.
  - eapply returns_mono; [exact Hcl|]. intros t (Ht & ? & ? & ? & ? & ?).
    split_and!; first [done | simpl; congruence].
  - eapply returns_mono; [exact Hcr|]. intros t (Ht & T1 & T2 & T3 & Tm & To).
    split_and!; [done | congruence | done | simpl; congruence | done |].
    intros i. rewrite To. case_decide; [|done].
    symmetry. by apply Hown.
  - eapply returns_bind; [exact Hcl|]. intros t (Ht & T1 & T2 & T3 & Tm & To).
    apply returns_ret. split; [split; apply Ht | by split_and!].
Qed.

(** ** Order on what a state admits *)

(** Every possibility the mask [a] records is recorded by [b]. *)
Definition sub_mask (a b : Z) : Prop := forall k, Z.testbit a k = true -> Z.testbit b k = true.

#[global] Instance sub_mask_preorder : PreOrder sub_mask.
Proof. split; [by intros a k | intros a b c Hab Hbc k Hk; auto]. Qed.

Lemma sub_mask_lor_l a b : sub_mask a (Z.lor a b).
Proof. intros k Hk. by rewrite Z.lor_spec, Hk. Qed.

Lemma sub_mask_lor_r a b : sub_mask b (Z.lor a b).
Proof. intros k Hk. by rewrite Z.lor_spec, Hk, orb_true_r. Qed.

(** [s] admits no more than [t] on the first [n] slots. *)
Definition below (n : nat) (s t : FlowState) : Prop :=
  forall i, (i < n)%nat -> sub_mask (mask s i) (mask t i).

#[global] Instance below_preorder n : PreOrder (below n).
Proof.
  split; [intros s i _; reflexivity | intros s t u Hst Htu i Hi; etrans; [by apply Hst | by apply Htu]].
Qed.

Lemma merged_below_l l r n t :
  merged l r n t -> reachable l = true -> below n l t.
Proof.
  intros (_ & _ & _ & Hm & _) Hl i Hi. rewrite Hm, decide_True by done. unfold join_mask. rewrite Hl.
  destruct (reachable r); [apply sub_mask_lor_l | reflexivity].
Qed.

Lemma merged_below_r l r n t :
  merged l r n t -> reachable r = true -> below n r t.
Proof.
  intros (_ & _ & _ & Hm & _) Hr i Hi. rewrite Hm, decide_True by done. unfold join_mask. rewrite Hr.
  destruct (reachable l); [apply sub_mask_lor_r | reflexivity].
Qed.

Lemma merged_compatible l r n t : merged l r n t -> compatible n t l.
Proof.
  intros (Hid & _ & _ & _ & Ho). split; [done|]. intros i Hi. by rewrite Ho, decide_True.
Qed.

Lemma truncated_compatible s n t : truncated s n t -> compatible n t s.
Proof.
  intros (Hid & _ & _ & _ & Ho). split; [done|]. intros i Hi. by rewrite Ho, decide_True.
Qed.

Lemma truncated_below s n t : truncated s n t -> below n s t.
Proof. intros (_ & _ & _ & Hm & _) i Hi. rewrite Hm, decide_True by done. reflexivity. Qed.

Lemma compatible_sym n s t : compatible n s t -> compatible n t s.
Proof. intros [Hid Ho]. split; [done|]. intros i Hi. symmetry. by apply Ho. Qed.

Lemma compatible_trans n s t u : compatible n s t -> compatible n t u -> compatible n s u.
Proof.
  intros [Hid Ho] [Hid' Ho']. split; [congruence|]. intros i Hi. rewrite Ho by done. by apply Ho'.
Qed.

Lemma compatible_le n m s t : (m <= n)%nat -> compatible n s t -> compatible m s t.
Proof. intros Hle [Hid Ho]. split; [done|]. intros i Hi. apply Ho. lia. Qed.

Lemma compatible_refl n s : compatible n s s.
Proof. done. Qed.

Lemma equiv_compatible n s t : s ≡ t -> compatible n s t.
Proof. intros (? & _ & _ & _ & ?). split; [done|]. by intros. Qed.

Lemma equiv_below n s t : s ≡ t -> below n s t.
Proof. intros (_ & _ & _ & Hm & _) i _. rewrite Hm. reflexivity. Qed.

(** The flows recorded for a loop are reachable, have the loop's slots, and belong with the
    state [ref] that is current. *)
Definition recorded_ok (n : nat) (ref : FlowState) (acc : option FlowState) : Prop :=
  forall a, acc = Some a ->
    flow_wf a /\ count a = n /\ reachable a = true /\ compatible n a ref.

(** Nothing recorded is lost; [P] of a slot's masks survives. *)
Definition grows (n : nat) (acc acc' : option FlowState) : Prop :=
  forall a, acc = Some a -> exists a', acc' = Some a' /\ below n a a'.

#[global] Instance grows_preorder n : PreOrder (grows n).
Proof.
  split.
  - intros acc a Ha. exists a. split; [done | reflexivity].
  - intros x y z Hxy Hyz a Ha. destruct (Hxy a Ha) as (b & Hb & Hab).
    destruct (Hyz b Hb) as (c & Hc & Hbc). exists c. split; [done | by etrans].
Qed.

(** The slot [i] is definitely initialised in what was recorded. *)
Definition recorded_initialized (i : nat) (acc : option FlowState) : Prop :=
  forall a, acc = Some a -> mask a i = FLOW_DEFINITELY_INITIALIZED.

Lemma flow_accumulate_spec acc path n :
  flow_wf path -> (n <= count path)%nat -> recorded_ok n path acc ->
  returns (flow_accumulate_reachable_path acc path n) (fun acc' =>
    recorded_ok n path acc' /\ grows n acc acc'
    /\ (reachable path = true -> exists a, acc' = Some a /\ below n path a)
    /\ (forall i, (i < n)%nat -> mask path i = FLOW_DEFINITELY_INITIALIZED ->
          recorded_initialized i acc -> recorded_initialized i acc')).
Proof.
  intros Hp Hn Hacc. unfold flow_accumulate_reachable_path.
  apply returns_assert; [by apply Nat.leb_le|]. apply returns_assert.
  { destruct acc as [a|]; [|done]. apply bool_decide_eq_true. apply (Hacc a eq_refl). }
  destruct (reachable path) eqn:Hr; simpl.
  2: { apply returns_ret. split_and!; [done | reflexivity | done | done]. }
  destruct acc as [a|]; simpl.
  - destruct (Hacc a eq_refl) as (Ha & Hca & Hra & Hc). eapply returns_bind.
    { apply (flow_merge_spec a path n); [done | done | done | lia | done]. }
    intros t [Ht Hm]. apply returns_ret. split_and!.
    + intros ? [= <-]. pose proof (merged_compatible _ _ _ _ Hm) as Hc'.
      destruct Hm as (_ & Hct & Hrt & _). split_and!; [done | done | by rewrite Hrt, Hra |].
      by eapply compatible_trans.
    + intros ? [= <-]. exists t. split; [done | by eapply merged_below_l].
    + intros _. exists t. split; [done | by eapply merged_below_r].
    + intros i Hi H2 Hrec ? [= <-]. destruct Hm as (_ & _ & _ & Hm & _).
      rewrite Hm, decide_True by done. unfold join_mask. rewrite Hra, Hr, H2.
      by rewrite (Hrec a eq_refl).
  - eapply returns_bind; [by apply clone_truncated_spec|].
    intros t [Ht Htr]. apply returns_ret. split_and!.
    + intros ? [= <-]. pose proof (truncated_compatible _ _ _ Htr).
      destruct Htr as (_ & ? & ? & _). split_and!; [done | done | congruence | done].
    + done.
    + intros _. exists t. split; [done | by apply truncated_below].
    + intros i Hi H2 _ ? [= <-]. destruct Htr as (_ & _ & _ & Hm & _). by rewrite Hm, decide_True.
Qed.

Lemma loop_iteration_flow_spec loop body :
  flow_wf body -> (active_variable_count loop <= count body)%nat ->
  recorded_ok (active_variable_count loop) body (continue_flow loop) ->
  returns (loop_iteration_flow loop body) (fun t =>
    flow_wf t /\ count t = active_variable_count loop
    /\ compatible (active_variable_count loop) t body
    /\ (reachable body = true -> reachable t = true /\ below (active_variable_count loop) body t)
    /\ (forall f, continue_flow loop = Some f ->
          reachable t = true /\ below (active_variable_count loop) f t)
    /\ (forall i, (i < active_variable_count loop)%nat ->
          mask body i = FLOW_DEFINITELY_INITIALIZED ->
          recorded_initialized i (continue_flow loop) ->
          mask t i = FLOW_DEFINITELY_INITIALIZED)).
Proof.
  intros Hb Hn Hrec. unfold loop_iteration_flow.
  eapply returns_bind; [by apply clone_truncated_spec|]. intros s [Hs Htr].
  pose proof (truncated_compatible _ _ _ Htr) as Hcs. pose proof (truncated_below _ _ _ Htr) as Hbs.
  destruct Htr as (T1 & T2 & T3 & Tm & To).
  destruct (continue_flow loop) as [f|] eqn:Hf.
  - destruct (Hrec f eq_refl) as (Wf & Cf & Rf & Hc). eapply returns_mono.
    { apply flow_merge_spec; [done | done | | lia | lia].
      eapply compatible_trans; [done | by apply compatible_sym]. }
    intros t [Ht Hm]. pose proof (merged_compatible _ _ _ _ Hm) as Hct.
    assert (Hrt : reachable t = true).
    { destruct Hm as (_ & _ & -> & _). by rewrite Rf, orb_true_r. }
    split_and!; [done | by destruct Hm as (_ & ? & _) | by eapply compatible_trans | | |].
    + intros Hr. split; [done|]. etrans; [done|]. eapply merged_below_l; [done | congruence].
    + intros ? [= <-]. split; [done|]. by eapply merged_below_r.
    + intros i Hi H2 Hri. destruct Hm as (_ & _ & _ & Hm & _). rewrite Hm, decide_True by done.
      unfold join_mask. rewrite Rf, Tm, decide_True, H2, (Hri f eq_refl) by done.
      by destruct (reachable s).
  - apply returns_ret. split_and!; [done | done | done | | done |].
    + intros Hr. split; [congruence | done].
    + intros i Hi H2 _. by rewrite Tm, decide_True.
Qed.

Lemma loop_exit_flow_spec loop exit always :
  flow_wf exit -> (active_variable_count loop <= count exit)%nat ->
  recorded_ok (active_variable_count loop) exit (break_flow loop) ->
  (always = true -> is_Some (break_flow loop)) ->
  (always = false -> count exit = active_variable_count loop) ->
  returns (loop_exit_flow loop exit always) (fun t =>
    flow_wf t /\ count t = active_variable_count loop
    /\ compatible (active_variable_count loop) t exit
    /\ (always = false -> reachable exit = true ->
        reachable t = true /\ below (active_variable_count loop) exit t)
    /\ (forall f, break_flow loop = Some f ->
          reachable t = true /\ below (active_variable_count loop) f t)
    /\ (forall i, (i < active_variable_count loop)%nat ->
          mask exit i = FLOW_DEFINITELY_INITIALIZED ->
          recorded_initialized i (break_flow loop) ->
          mask t i = FLOW_DEFINITELY_INITIALIZED)).
Proof.
  intros He Hn Hrec Halways Hcount. unfold loop_exit_flow. destruct always.
  - destruct (Halways eq_refl) as [f Hf]. rewrite Hf.
    destruct (Hrec f Hf) as (Wf & Cf & Rf & Hc).
    eapply returns_mono; [by apply flow_clone_spec|]. intros t [Ht Heq].
    split_and!; [done | by rewrite Heq | | done | |].
    + eapply compatible_trans; [by apply equiv_compatible | done].
    + intros ? [= <-]. split; [by rewrite Heq|]. apply equiv_below. by symmetry.
    + intros i Hi _ Hri. rewrite Heq. by apply Hri.
  - eapply returns_bind; [by apply flow_clone_spec|]. intros s [Hs Heq].
    destruct (break_flow loop) as [f|] eqn:Hf.
    + destruct (Hrec f eq_refl) as (Wf & Cf & Rf & Hc). eapply returns_mono.
      { apply flow_merge_spec; [done | done | | rewrite Heq; lia | lia].
        eapply compatible_trans; [by apply equiv_compatible | by apply compatible_sym]. }
      intros t [Ht Hm]. pose proof (merged_compatible _ _ _ _ Hm) as Hct.
      assert (Hrt : reachable t = true).
      { destruct Hm as (_ & _ & -> & _). by rewrite Rf, orb_true_r. }
      split_and!; [done | by destruct Hm as (_ & ? & _) | | | |].
      * eapply compatible_trans; [done | by apply equiv_compatible].
      * intros _ Hr. split; [done|]. etrans; [apply equiv_below; symmetry; exact Heq|].
        eapply merged_below_l; [done | by rewrite Heq].
      * intros ? [= <-]. split; [done|]. by eapply merged_below_r.
      * intros i Hi H2 Hri. destruct Hm as (_ & _ & _ & Hm & _). rewrite Hm, decide_True by done.
        assert (Hs2 : mask s i = FLOW_DEFINITELY_INITIALIZED) by (by rewrite Heq).
        unfold join_mask. rewrite Rf, Hs2, (Hri f eq_refl). by destruct (reachable s).
    + apply returns_ret. split_and!; [done | rewrite Heq; auto | by apply equiv_compatible | | done |].
      * intros _ Hr. split; [by rewrite Heq|]. apply equiv_below. by symmetry.
      * intros i Hi H2 _. by rewrite Heq.
Qed.

(** ** Symbols and their slots *)

(** [s] is a local variable or parameter of the function whose state is [state], in slot [i]. *)
Definition flow_symbol (id : option nat) (s : Symbol) (i : nat) : Prop :=
  sym_kind s = SYMBOL_VARIABLE
  /\ (variable_storage s = VARIABLE_STORAGE_LOCAL
      \/ variable_storage s = VARIABLE_STORAGE_PARAMETER)
  /\ is_Some id /\ flow_owner_id s = id /\ variable_id s = Some i.

Lemma flow_symbol_has id s i :
  flow_symbol id s i -> symbol_has_flow_state (Some s) = Returned true.
Proof.
  intros (Hk & Hs & Hid & Ho & Hi). unfold symbol_has_flow_state. rewrite Hk, bool_decide_true by done.
  simpl. rewrite Ho, Hi, !bool_decide_true by eauto. by destruct Hs as [-> | ->].
Qed.

Lemma flow_symbol_belongs state s i :
  flow_symbol (owner_id state) s i -> symbol_belongs_to_flow s state = Returned true.
Proof.
  intros H. unfold symbol_belongs_to_flow. rewrite (flow_symbol_has _ _ _ H). simpl.
  destruct H as (_ & _ & _ & -> & _). by rewrite bool_decide_true.
Qed.

Lemma slot_of_spec state s i :
  flow_symbol (owner_id state) s i -> (i < count state)%nat -> slot_of state s = Returned i.
Proof.
  intros H Hi. unfold slot_of. rewrite (flow_symbol_belongs _ _ _ H). simpl.
  destruct H as (_ & _ & _ & _ & ->). by rewrite (proj2 (Nat.ltb_lt _ _) Hi).
Qed.

Lemma with_slot_spec {A} state s i (d : A) k :
  flow_symbol (owner_id state) s i -> (i < count state)%nat ->
  with_slot state (Some s) d k = Returned (k i).
Proof.
  intros H Hi. unfold with_slot. rewrite (flow_symbol_has _ _ _ H). simpl.
  by rewrite (slot_of_spec _ _ _ H Hi).
Qed.

Lemma with_slot_none {A} state symbol (d : A) k :
  symbol_has_flow_state symbol = Returned false -> with_slot state symbol d k = Returned d.
Proof. unfold with_slot. intros ->. simpl. by destruct symbol. Qed.

Lemma mask_set_mask s i m j :
  flow_wf s -> (i < count s)%nat ->
  mask (set_mask i m s) j = if decide (j = i) then m else mask s j.
Proof.
  intros Hs Hi. unfold mask, set_mask. simpl. case_decide as Hj.
  - subst j. rewrite list_lookup_insert_eq; [done|].
    rewrite (wf_initialized _ Hs). pose proof (wf_count _ Hs). lia.
  - by rewrite list_lookup_insert_ne.
Qed.

Lemma set_mask_wf s i m : flow_wf s -> (i < count s)%nat -> flow_wf (set_mask i m s).
Proof.
  intros Hs Hi. split; try apply Hs.
  - simpl. rewrite length_insert. apply Hs.
  - intros j Hj. rewrite mask_set_mask by done. simpl in Hj. case_decide; [lia|].
    by apply (wf_mask_zero _ Hs).
Qed.

Lemma flow_register_spec store state s i init :
  flow_wf state -> flow_symbol (owner_id state) s i -> (count state <= i)%nat ->
  returns (flow_register_variable store state s init) (fun t =>
    flow_wf t /\ owner_id t = owner_id state /\ count t = S i /\ reachable t = reachable state
    /\ (forall j, mask t j = if decide (j = i) then
                               (if init then FLOW_DEFINITELY_INITIALIZED
                                else FLOW_DEFINITELY_UNINITIALIZED) else mask state j)
    /\ (forall j, owner t j = if decide (j = i) then
                                contains_resource_by_value store (sym_type s) else owner state j)).
Proof.
  intros Hs Hsym Hi. unfold flow_register_variable.
  rewrite (flow_symbol_has _ _ _ Hsym), (flow_symbol_belongs _ _ _ Hsym). simpl.
  destruct Hsym as (_ & _ & _ & _ & Hvar). rewrite Hvar.
  eapply returns_bind; [by apply flow_reserve_spec|].
  intros c (Hc & (Hid & Hcount & Hreach & Hm & Ho) & Hcap). apply returns_ret.
  assert (Hmask : forall j x, default 0 (<[i := x]> (initialized c) !! j)
            = if decide (j = i) then x else mask state j).
  { intros j x. case_decide as Hj.
    - subst j. rewrite list_lookup_insert_eq by (rewrite (wf_initialized _ Hc); lia). done.
    - rewrite list_lookup_insert_ne by done. apply Hm. }
  assert (Howner : forall j x, default false (<[i := x]> (resource_owner c) !! j)
            = if decide (j = i) then x else owner state j).
  { intros j x. case_decide as Hj.
    - subst j. rewrite list_lookup_insert_eq by (rewrite (wf_resource_owner _ Hc); lia). done.
    - rewrite list_lookup_insert_ne by done. apply Ho. }
  assert (Hlt : (count c <? S i)%nat = true) by (apply Nat.ltb_lt; lia). rewrite Hlt.
  split_and!; [split | done | done | done | intros j; apply Hmask | intros j; apply Howner]; simpl.
  - rewrite length_insert. apply Hc.
  - rewrite length_insert. apply Hc.
  - lia.
  - intros j Hj. unfold mask at 1. simpl. rewrite Hmask. case_decide; [lia|].
    apply (wf_mask_zero _ Hs). lia.
  - intros j Hj. unfold owner at 1. simpl. rewrite Howner. case_decide; [lia|].
    apply (wf_owner_zero _ Hs). lia.
Qed.

Lemma changed_owner_spec entry backedge i n :
  (forall j, (i <= j < i + n)%nat -> owner entry j = owner backedge j) ->
  returns (changed_owner entry backedge i n) (fun r =>
    r = None -> forall j, (i <= j < i + n)%nat -> owner entry j = true ->
      mask entry j = mask backedge j).
Proof.
  revert i. induction n as [|n IH]; intros i Ho; simpl.
  { apply returns_ret. intros _ j Hj. lia. }
  specialize (IH (S i) ltac:(intros j Hj; apply Ho; lia)).
  destruct (owner entry i) eqn:Hi; simpl.
  2: { eapply returns_mono; [exact IH|]. intros r Hr Hnone j Hj Hown.
       destruct (decide (j = i)) as [->|]; [congruence | apply Hr; [done | lia | done]]. }
  rewrite <- Ho, Hi by lia. apply returns_assert; [done|].
  destruct (Z.eqb_spec (mask entry i) (mask backedge i)); [|by apply returns_ret].
  eapply returns_mono; [exact IH|]. intros r Hr Hnone j Hj Hown.
  destruct (decide (j = i)) as [->|]; [done | apply Hr; [done | lia | done]].
Qed.

Lemma flow_validate_spec entry backedge n :
  compatible n entry backedge -> (n <= count entry)%nat -> (n <= count backedge)%nat ->
  returns (flow_validate_loop_backedge_resources entry backedge n) (fun r =>
    r = None -> reachable backedge = true -> forall i, (i < n)%nat -> owner entry i = true ->
      mask entry i = mask backedge i).
Proof.
  intros [_ Ho] Hn Hn'. unfold flow_validate_loop_backedge_resources.
  apply returns_assert; [by apply Nat.leb_le|]. apply returns_assert; [by apply Nat.leb_le|].
  destruct (reachable backedge); simpl; [|by apply returns_ret].
  eapply returns_mono; [apply changed_owner_spec; intros j Hj; apply Ho; lia|].
  intros r Hr Hnone _ i Hi. apply Hr; [done | lia].
Qed.

(** ** The merge of two paths *)

(** C22. Two states of one function merge without a failed assertion; the result is reachable
    when one of them is, and then a slot admits exactly the possibilities that a reachable one of
    them admits; the ownership flags and the function are kept, and slots that are no longer
    active are cleared. *)
Theorem flow_merge_correct l r n :
  flow_wf l -> flow_wf r -> compatible n l r -> (n <= count l)%nat -> (n <= count r)%nat ->
  exists t, flow_merge_continuing_paths l r n = Returned t /\ flow_wf t
    /\ owner_id t = owner_id l /\ count t = n /\ reachable t = reachable l || reachable r
    /\ (forall i, (i < n)%nat -> owner t i = owner l i)
    /\ (forall i, (n <= i)%nat -> mask t i = 0 /\ owner t i = false)
    /\ (reachable t = true -> forall i k, (i < n)%nat ->
          Z.testbit (mask t i) k = reachable l && Z.testbit (mask l i) k
                                   || reachable r && Z.testbit (mask r i) k).
Proof.
  intros Hl Hr Hc Hnl Hnr.
  destruct (flow_merge_spec l r n Hl Hr Hc Hnl Hnr) as (t & Ht & Hwf & Hid & Hcount & Hreach & Hm & Ho).
  exists t. split_and!; try done.
  - intros i Hi. by rewrite Ho, decide_True.
  - intros i Hi. rewrite Ho, Hm, !decide_False by lia. done.
  - intros Htr i k Hi. rewrite Hm, decide_True by done. unfold join_mask. rewrite Hreach in Htr.
    destruct (reachable l), (reachable r); simpl in *; try done.
    + apply Z.lor_spec.
    + by rewrite orb_false_r.
Qed.

Definition sample_flow (masks : list Z) (r : bool) : FlowState :=
  {| owner_id := Some 0%nat; initialized := masks; resource_owner := replicate (length masks) true;
     count := length masks; capacity := length masks; reachable := r |}.

Lemma sample_flow_wf masks r : flow_wf (sample_flow masks r).
Proof.
  split; simpl; [done | apply length_replicate | done | |]; intros i Hi; unfold mask, owner; simpl.
  - by rewrite lookup_ge_None_2.
  - rewrite lookup_ge_None_2; [done|]. by rewrite length_replicate.
Qed.

Lemma flow_merge_correct_witness :
  exists t, flow_merge_continuing_paths (sample_flow [1; 2; 2] true) (sample_flow [2; 2] true) 2
    = Returned t /\ flow_wf t.
Proof.
  destruct (flow_merge_correct (sample_flow [1; 2; 2] true) (sample_flow [2; 2] true) 2)
    as (t & Ht & Hwf & _).
  - apply sample_flow_wf.
  - apply sample_flow_wf.
  - split; [reflexivity|]. intros [|[|i]] Hi; [reflexivity | reflexivity | lia].
  - simpl. lia.
  - simpl. lia.
  - exists t. split; [exact Ht | exact Hwf].
Defined.

Example merge_maybe :
  match flow_merge_continuing_paths (sample_flow [1; 2; 2] true) (sample_flow [2; 2] true) 2 with
  | Returned t => (mask t 0, mask t 1, mask t 2, count t)
  | Aborted => (0, 0, 0, 0%nat)
  end = (3, 2, 0, 2%nat).
Proof. reflexivity. Qed.
