(* ===== verification/SemContext.v ===== *)
(** The semantic context ([src/semantic_anal.c], [src/include/semantic_anal.h],
    [src/include/semantic_info.h]): types, symbols, scopes, and what is recorded about
    declarations and expressions.

    Objects that are shared by pointer live in lists of the context, in the order of their
    creation, and a pointer is a position: [Type *], [Symbol *], [Scope *], [SemanticModule *].
    A [SemDeclId] is the position of its [SemDeclInfo], as the code counts it.  A [Node *] that
    is compared is compared by its tree, which holds its span: the copies of a declaration that
    generic specialisation makes are outside this model.  The text of a [StringView] is a list
    of characters. *)
From S2P Require Import Prelude Token Types Source Lexer IntegerValue TypeRelations Target FlowState Ast.

(** ** Decidable equality of trees *)

#[local] Ltac tree_dec IH IH' :=
  decide equality;
  first [ apply IH | apply IH' | apply (list_eq_dec (dec := IH)) | apply (option_eq_dec (dec := IH))
        | apply (list_eq_dec (dec := prod_eq_dec (EqDecision1 := IH))) | solve_decision ].

#[global] Instance SourceType_eq_dec : EqDecision SourceType.
Proof. unfold EqDecision, Decision. fix IH 1. intros x y. tree_dec IH IH. Defined.

#[global] Instance Token_eq_dec : EqDecision Lexer.Token.
Proof. solve_decision. Defined.
#[global] Instance FloatValue_eq_dec : EqDecision FloatValue.
Proof. solve_decision. Defined.
#[global] Instance NumberLiteral_eq_dec : EqDecision NumberLiteral.
Proof. solve_decision. Defined.
#[global] Instance GenericTypeParameter_eq_dec : EqDecision GenericTypeParameter.
Proof. solve_decision. Defined.
#[global] Instance StructOperatorDecl_eq_dec : EqDecision StructOperatorDecl.
Proof. solve_decision. Defined.
#[global] Instance FuncInfo_eq_dec : EqDecision FuncInfo.
Proof. solve_decision. Defined.
#[global] Instance StructInfo_eq_dec : EqDecision StructInfo.
Proof. solve_decision. Defined.
#[global] Instance CastKind_eq_dec : EqDecision CastKind.
Proof. solve_decision. Defined.

Definition Node_eq_decision : forall x y : Node, {x = y} + {x <> y}.
Proof.
  fix IH 1 with (IHa (x : NodeAs) : forall y, {x = y} + {x <> y}).
  - intros x y. tree_dec IH IHa.
  - intros x y. tree_dec IH IHa.
Defined.

#[global] Instance Node_eq_dec : EqDecision Node := Node_eq_decision.

(** ** Data *)

Inductive ValueCategory : Set :=
| VALUE_CATEGORY_NONE | VALUE_CATEGORY_RVALUE | VALUE_CATEGORY_LVALUE.

Inductive ValueAccess : Set := VALUE_ACCESS_NONE | VALUE_ACCESS_READONLY | VALUE_ACCESS_WRITABLE.

Record Symbol : Set := mkSymbol {
  sym_name : Text;
  sym_kind : SymbolKind;
  sym_builtin : BuiltinKind;
  sym_type : TypePtr;
  declaration : option Node;
  declaration_id : option nat;       (* [None]: [INVALID_SEM_DECL_ID] *)
}.

(** [symbols] is the linked list, the newest first. *)
Record Scope : Set := mkScope {
  scope_symbols : list nat;
  scope_parent : option nat;
}.

Record SemanticModule : Set := mkModule {
  module_name : Text;                (* empty for the root *)
  module_scope : nat;
  is_root : bool;
}.

Record SemanticImportBinding : Set := mkImport {
  import_module : nat;
  import_alias : Text;
}.

Record SemanticSourceModule : Set := mkSourceModule {
  source_id : Z;
  source_module : option nat;
  imports : list SemanticImportBinding;
  module_decl : option Node;
  saw_import_directive : bool;
  saw_non_directive : bool;
}.

(** The members of [SemDeclInfo] that the checks of constants and the lookup of names use. *)
Record SemDeclInfo : Set := mkDeclInfo {
  decl_node : Node;
  decl_type : TypePtr;
  decl_symbol : option nat;
  is_exported : bool;
  semantic_check_started : bool;
  semantic_check_complete : bool;
  decl_constant_value : option ConstValue;      (* [has_constant_value] *)
}.

(** The members of [SemExprInfo] that constant evaluation and the record of an expression use. *)
Record SemExprInfo : Set := mkExprInfo {
  expr_node : Node;
  expr_type : TypePtr;
  contextual_type : TypePtr;
  contextual_conversion : SemContextConversionKind;
  expr_symbol : option nat;
  value_category : ValueCategory;
  value_access : ValueAccess;
  value_is_volatile : bool;
  expr_constant_value : option ConstValue;      (* [has_constant_value] *)
  builtin_layout_value : option Z;              (* [has_builtin_layout_value] *)
}.

Record Diagnostic : Set := mkDiagnostic { diagnostic_span : SourceSpan; message : string }.

(** [decl_infos] in the order of the identifiers, [expr_infos] as the linked list, the newest
    first; [had_error] and [error_count] are the length of [diagnostics]. *)
Record SemanticContext : Type := mkContext {
  types : TypeStore;
  builtin_types : TypeKind -> TypePtr;          (* [type_s8], ..., [type_null] *)
  type_isize : TypePtr;
  type_usize : TypePtr;
  target_config : TargetConfig;
  symbols : list Symbol;
  scopes : list Scope;
  builtin_scope : option nat;
  current_scope : option nat;
  modules : list SemanticModule;
  current_module : option nat;
  source_modules : list SemanticSourceModule;
  current_source_id : Z;
  decl_infos : list SemDeclInfo;
  expr_infos : list SemExprInfo;
  const_eval_silent : bool;
  diagnostics : list Diagnostic;
  error_count : nat;
}.

(** Updates of the context *)

Definition set_types (x : TypeStore) (c : SemanticContext) : SemanticContext :=
  mkContext x (builtin_types c) (type_isize c) (type_usize c) (target_config c) (symbols c)
    (scopes c) (builtin_scope c) (current_scope c) (modules c) (current_module c)
    (source_modules c) (current_source_id c) (decl_infos c) (expr_infos c) (const_eval_silent c)
    (diagnostics c) (error_count c).
Definition set_symbols (x : list Symbol) (c : SemanticContext) : SemanticContext :=
  mkContext (types c) (builtin_types c) (type_isize c) (type_usize c) (target_config c) x
    (scopes c) (builtin_scope c) (current_scope c) (modules c) (current_module c)
    (source_modules c) (current_source_id c) (decl_infos c) (expr_infos c) (const_eval_silent c)
    (diagnostics c) (error_count c).
Definition set_scopes (x : list Scope) (c : SemanticContext) : SemanticContext :=
  mkContext (types c) (builtin_types c) (type_isize c) (type_usize c) (target_config c)
    (symbols c) x (builtin_scope c) (current_scope c) (modules c) (current_module c)
    (source_modules c) (current_source_id c) (decl_infos c) (expr_infos c) (const_eval_silent c)
    (diagnostics c) (error_count c).
Definition set_builtin_scope (x : option nat) (c : SemanticContext) : SemanticContext :=
  mkContext (types c) (builtin_types c) (type_isize c) (type_usize c) (target_config c)
    (symbols c) (scopes c) x (current_scope c) (modules c) (current_module c) (source_modules c)
    (current_source_id c) (decl_infos c) (expr_infos c) (const_eval_silent c) (diagnostics c)
    (error_count c).
Definition set_modules (x : list SemanticModule) (c : SemanticContext) : SemanticContext :=
  mkContext (types c) (builtin_types c) (type_isize c) (type_usize c) (target_config c)
    (symbols c) (scopes c) (builtin_scope c) (current_scope c) x (current_module c)
    (source_modules c) (current_source_id c) (decl_infos c) (expr_infos c) (const_eval_silent c)
    (diagnostics c) (error_count c).
Definition set_source_modules (x : list SemanticSourceModule) (c : SemanticContext) : SemanticContext :=
  mkContext (types c) (builtin_types c) (type_isize c) (type_usize c) (target_config c)
    (symbols c) (scopes c) (builtin_scope c) (current_scope c) (modules c) (current_module c) x
    (current_source_id c) (decl_infos c) (expr_infos c) (const_eval_silent c) (diagnostics c)
    (error_count c).
Definition set_decl_infos (x : list SemDeclInfo) (c : SemanticContext) : SemanticContext :=
  mkContext (types c) (builtin_types c) (type_isize c) (type_usize c) (target_config c)
    (symbols c) (scopes c) (builtin_scope c) (current_scope c) (modules c) (current_module c)
    (source_modules c) (current_source_id c) x (expr_infos c) (const_eval_silent c)
    (diagnostics c) (error_count c).
Definition set_expr_infos (x : list SemExprInfo) (c : SemanticContext) : SemanticContext :=
  mkContext (types c) (builtin_types c) (type_isize c) (type_usize c) (target_config c)
    (symbols c) (scopes c) (builtin_scope c) (current_scope c) (modules c) (current_module c)
    (source_modules c) (current_source_id c) (decl_infos c) x (const_eval_silent c)
    (diagnostics c) (error_count c).
Definition set_const_eval_silent (x : bool) (c : SemanticContext) : SemanticContext :=
  mkContext (types c) (builtin_types c) (type_isize c) (type_usize c) (target_config c)
    (symbols c) (scopes c) (builtin_scope c) (current_scope c) (modules c) (current_module c)
    (source_modules c) (current_source_id c) (decl_infos c) (expr_infos c) x (diagnostics c)
    (error_count c).
Definition set_place (source : Z) (module scope : option nat) (c : SemanticContext) : SemanticContext :=
  mkContext (types c) (builtin_types c) (type_isize c) (type_usize c) (target_config c)
    (symbols c) (scopes c) (builtin_scope c) scope (modules c) module (source_modules c) source
    (decl_infos c) (expr_infos c) (const_eval_silent c) (diagnostics c) (error_count c).
Definition set_pointer_types (isize usize : TypePtr) (c : SemanticContext) : SemanticContext :=
  mkContext (types c) (builtin_types c) isize usize (target_config c) (symbols c) (scopes c)
    (builtin_scope c) (current_scope c) (modules c) (current_module c) (source_modules c)
    (current_source_id c) (decl_infos c) (expr_infos c) (const_eval_silent c) (diagnostics c)
    (error_count c).
Definition set_errors (ds : list Diagnostic) (count : nat) (c : SemanticContext) : SemanticContext :=
  mkContext (types c) (builtin_types c) (type_isize c) (type_usize c) (target_config c)
    (symbols c) (scopes c) (builtin_scope c) (current_scope c) (modules c) (current_module c)
    (source_modules c) (current_source_id c) (decl_infos c) (expr_infos c) (const_eval_silent c)
    ds count.

(** ** Computations

    A function of the analysis changes the context or aborts where an assertion fails; [None] is
    the return value 0 or a null pointer. *)

Definition M (A : Type) : Type := SemanticContext -> outcome (A * SemanticContext).

#[global] Instance M_ret : MRet M := fun _ a c => Returned (a, c).
#[global] Instance M_bind : MBind M := fun _ _ k m c =>
  match m c with
  | Returned (a, c') => k a c'
  | Aborted => Aborted
  end.

Definition get {A} (f : SemanticContext -> A) : M A := fun c => Returned (f c, c).
Definition modify (f : SemanticContext -> SemanticContext) : M unit := fun c => Returned (tt, f c).
Definition lift {A} (m : outcome A) : M A := fun c => obind m (fun a => Returned (a, c)).
Definition require (b : bool) : M unit := lift (c_assert b).

(** [if (!f(..., &x)) return 0;] *)
Definition try_bind {A B} (m : M (option A)) (k : A -> M (option B)) : M (option B) :=
  o ← m; match o with Some a => k a | None => mret None end.

Notation "x '←?' m ; k" := (try_bind m (fun x => k))
  (at level 100, m at level 200, k at level 200, right associativity) : coglet_scope.

(** The object a pointer refers to. *)
Definition object {A} (f : SemanticContext -> list A) (p : option nat) : M (option A) :=
  get (fun c => i ← p; f c !! i).

(** ** Diagnostics *)

Definition str (t : Text) : string := string_of_list_ascii t.
Definition quoted (t : Text) : string := ("'" ++ str t ++ "'")%string.

(** Nothing is reported while the evaluator only probes. *)
Definition semantic_error (n : Node) (msg : string) : M unit := modify (fun c =>
  if const_eval_silent c then c
  else set_errors (diagnostics c ++ [mkDiagnostic (span_of n) msg]) (S (error_count c)) c).

(** [semantic_error_fmt] with its arguments in place. *)
Definition semantic_error_fmt (n : Node) (msg : string) : M unit := semantic_error n msg.

Definition semantic_error_name (n : Node) (prefix : string) (name : Text) : M unit :=
  semantic_error n (prefix ++ " " ++ quoted name)%string.

(** [semantic_error(ctx, node, msg); return 0;] *)
Definition fail {A} (n : Node) (msg : string) : M (option A) := semantic_error n msg ;; mret None.

(** ** Types *)

Definition add_type (t : Type_) : M TypePtr := fun c =>
  Returned (Some (length (types c)), set_types (types c ++ [t]) c).

Definition new_type (k : TypeKind) : M TypePtr := add_type (type_of_kind k).

Definition builtin_type (k : TypeKind) : M TypePtr :=
  match k with
  | TYPE_S8 | TYPE_S16 | TYPE_S32 | TYPE_S64 | TYPE_U8 | TYPE_U16 | TYPE_U32 | TYPE_U64
  | TYPE_F32 | TYPE_F64 | TYPE_BOOL | TYPE_VOID | TYPE_NULL => get (fun c => builtin_types c k)
  | _ => mret None
  end.

(** A question about the types of the store. *)
Definition ask {A} (f : TypeStore -> A) : M A := get (fun c => f (types c)).

Definition kind_of (p : TypePtr) : M (option TypeKind) :=
  ask (fun ts => option_map kind (deref ts p)).

Definition assert_canonical_builtin_type (p : TypePtr) : M unit :=
  t ← ask (fun ts => deref ts p);
  match t with
  | None => mret tt
  | Some t => canonical ← builtin_type (kind t);
              require (bool_decide (canonical = None) || bool_decide (p = canonical))
  end.

(** ** Declarations and expressions *)

Fixpoint find_position {A} (f : A -> bool) (l : list A) : option nat :=
  match l with
  | [] => None
  | x :: l => if f x then Some O else option_map S (find_position f l)
  end.

Definition sem_find_decl_info (n : Node) : M (option nat) :=
  get (fun c => find_position (fun i => bool_decide (decl_node i = n)) (decl_infos c)).

Definition sem_find_decl_info_by_id (id : option nat) : M (option SemDeclInfo) :=
  object decl_infos id.

Definition decl_exported (n : Node) : bool := match n with mkNode _ _ e => e | NullNode => false end.

Definition sem_get_or_create_decl_info (n : Node) : M nat :=
  i ← sem_find_decl_info n;
  match i with
  | Some i => mret i
  | None => fun c => Returned (length (decl_infos c), set_decl_infos (decl_infos c ++
      [mkDeclInfo n None None (decl_exported n) false false None]) c)
  end.

Definition update_decl_info (f : SemDeclInfo -> SemDeclInfo) (i : nat) : M unit :=
  modify (fun c => set_decl_infos (alter f i (decl_infos c)) c).

Definition set_started (b : bool) (i : SemDeclInfo) : SemDeclInfo :=
  mkDeclInfo (decl_node i) (decl_type i) (decl_symbol i) (is_exported i) b
    (semantic_check_complete i) (decl_constant_value i).
Definition set_complete (i : SemDeclInfo) : SemDeclInfo :=
  mkDeclInfo (decl_node i) (decl_type i) (decl_symbol i) (is_exported i)
    (semantic_check_started i) true (decl_constant_value i).
Definition set_decl_constant (v : ConstValue) (i : SemDeclInfo) : SemDeclInfo :=
  mkDeclInfo (decl_node i) (decl_type i) (decl_symbol i) (is_exported i)
    (semantic_check_started i) (semantic_check_complete i) (Some v).
Definition set_declared (t : TypePtr) (s : option nat) (i : SemDeclInfo) : SemDeclInfo :=
  mkDeclInfo (decl_node i) t s (is_exported i)
    (semantic_check_started i) (semantic_check_complete i) (decl_constant_value i).

Definition update_symbol (f : Symbol -> Symbol) (s : nat) : M unit :=
  modify (fun c => set_symbols (alter f s (symbols c)) c).

Definition set_symbol_type (t : TypePtr) (s : Symbol) : Symbol :=
  mkSymbol (sym_name s) (sym_kind s) (sym_builtin s) t (declaration s) (declaration_id s).
Definition set_symbol_declaration (n : Node) (id : nat) (s : Symbol) : Symbol :=
  mkSymbol (sym_name s) (sym_kind s) (sym_builtin s) (sym_type s) (Some n) (Some id).

(** [if (p) assert(p == q)] *)
Definition same_if_set {A} `{EqDecision A} (p q : option A) : bool :=
  bool_decide (p = None) || bool_decide (p = q).

Definition sem_record_decl_info (n : Node) (t : TypePtr) (symbol : option nat) : M nat :=
  require (bool_decide (is_Some t)) ;;
  assert_canonical_builtin_type t ;;
  i ← sem_get_or_create_decl_info n;
  info ← sem_find_decl_info_by_id (Some i);
  let info := default (mkDeclInfo n None None false false false None) info in
  require (same_if_set (decl_type info) t) ;;
  require (bool_decide (symbol = None) || same_if_set (decl_symbol info) symbol) ;;
  match symbol with
  | None => update_decl_info (set_declared t (decl_symbol info)) i ;; mret i
  | Some s =>
      update_decl_info (set_declared t (Some s)) i ;;
      sym ← object symbols (Some s);
      match sym with
      | None => lift Aborted
      | Some sym =>
          require (same_if_set (declaration sym) (Some n)) ;;
          require (same_if_set (declaration_id sym) (Some i)) ;;
          update_symbol (set_symbol_declaration n i) s ;; mret i
      end
  end.

Definition sem_find_expr_info (n : Node) : M (option SemExprInfo) :=
  get (fun c => List.find (fun i => bool_decide (expr_node i = n)) (expr_infos c)).

Definition new_expr_info (n : Node) : SemExprInfo :=
  mkExprInfo n None None SEM_CONTEXT_CONVERSION_NONE None VALUE_CATEGORY_NONE VALUE_ACCESS_NONE
    false None None.

(** The entry of a node, created if there is none, is changed by [f]. *)
Fixpoint change_expr_info (f : SemExprInfo -> SemExprInfo) (n : Node) (l : list SemExprInfo)
    : option (list SemExprInfo) :=
  match l with
  | [] => None
  | i :: l => if bool_decide (expr_node i = n) then Some (f i :: l)
              else option_map (cons i) (change_expr_info f n l)
  end.

Definition with_expr_info (f : SemExprInfo -> SemExprInfo) (n : Node) : M unit := modify (fun c =>
  set_expr_infos (default (f (new_expr_info n) :: expr_infos c)
                          (change_expr_info f n (expr_infos c))) c).

Definition sem_record_context_conversion (n : Node) (target : TypePtr)
    (conversion : SemContextConversionKind) : M unit :=
  require (bool_decide (is_Some target)) ;;
  require (negb (bool_decide (conversion = SEM_CONTEXT_CONVERSION_NONE))) ;;
  info ← sem_find_expr_info n;
  match info with
  | None => lift Aborted
  | Some info =>
      require (bool_decide (is_Some (expr_type info))) ;;
      if negb (bool_decide (contextual_conversion info = SEM_CONTEXT_CONVERSION_NONE)) then
        require (bool_decide (contextual_conversion info = conversion)) ;;
        require (bool_decide (contextual_type info = target))
      else
        with_expr_info (fun i =>
          mkExprInfo (expr_node i) (expr_type i) target conversion (expr_symbol i)
            (value_category i) (value_access i) (value_is_volatile i) (expr_constant_value i)
            (builtin_layout_value i)) n
  end.

Definition sem_record_context_conversion_if_needed (n : Node) (target source : TypePtr) : M unit :=
  conversion ← ask (fun ts => classify_context_conversion ts target source);
  if bool_decide (conversion = SEM_CONTEXT_CONVERSION_NONE) then mret tt
  else sem_record_context_conversion n target conversion.

Definition sem_record_expr_info (n : Node) (t : TypePtr) (symbol : option nat)
    (category : ValueCategory) : M unit :=
  if bool_decide (n = NullNode) then mret tt
  else
    assert_canonical_builtin_type t ;;
    with_expr_info (fun i =>
      mkExprInfo (expr_node i) t (contextual_type i) (contextual_conversion i) symbol category
        (match category with
         | VALUE_CATEGORY_NONE | VALUE_CATEGORY_RVALUE => VALUE_ACCESS_NONE
         | VALUE_CATEGORY_LVALUE => VALUE_ACCESS_WRITABLE
         end)
        (match category with
         | VALUE_CATEGORY_NONE | VALUE_CATEGORY_RVALUE => false
         | VALUE_CATEGORY_LVALUE => value_is_volatile i
         end)
        (expr_constant_value i) (builtin_layout_value i)) n.

(** The end of [eval_const_expr] and [try_eval_const_expr]. *)
Definition set_expr_constant (v : ConstValue) (i : SemExprInfo) : SemExprInfo :=
  mkExprInfo (expr_node i) (expr_type i) (contextual_type i) (contextual_conversion i)
    (expr_symbol i) (value_category i) (value_access i) (value_is_volatile i) (Some v)
    (builtin_layout_value i).

(** ** Scopes *)

Definition scope_new (parent : option nat) : M nat := fun c =>
  Returned (length (scopes c), set_scopes (scopes c ++ [mkScope [] parent]) c).

Definition scope_push : M unit :=
  s ← get current_scope;
  s ← scope_new s;
  modify (fun c => set_place (current_source_id c) (current_module c) (Some s) c).

(** Without the flow state, which [FlowCheck] models. *)
Definition scope_pop : M unit :=
  s ← get current_scope;
  scope ← object scopes s;
  match scope with
  | None => lift Aborted
  | Some scope =>
      require (bool_decide (is_Some (scope_parent scope))) ;;
      modify (fun c => set_place (current_source_id c) (current_module c) (scope_parent scope) c)
  end.

Definition names_equal (a b : Text) : bool := bool_decide (a = b).

Section Lookup.
Context (c : SemanticContext).

Definition has_name (name : Text) (s : nat) : bool :=
  match symbols c !! s with Some sym => names_equal (sym_name sym) name | None => false end.

Definition scope_find_local (scope : nat) (name : Text) : option nat :=
  match scopes c !! scope with
  | Some sc => List.find (has_name name) (scope_symbols sc)
  | None => None
  end.

(** A scope is created after its parent, so a chain has at most as many scopes as there are. *)
Fixpoint lookup_from (fuel : nat) (scope : option nat) (name : Text) : option nat :=
  match fuel, scope with
  | S fuel, Some s =>
      match scope_find_local s name with
      | Some sym => Some sym
      | None => lookup_from fuel (sc ← scopes c !! s; scope_parent sc) name
      end
  | _, _ => None
  end.

Definition scope_lookup (scope : option nat) (name : Text) : option nat :=
  lookup_from (S (length (scopes c))) scope name.

Fixpoint defining_from (fuel : nat) (scope : option nat) (name : Text) : option nat :=
  match fuel, scope with
  | S fuel, Some s =>
      match scope_find_local s name with
      | Some _ => Some s
      | None => defining_from fuel (sc ← scopes c !! s; scope_parent sc) name
      end
  | _, _ => None
  end.

Definition scope_find_defining_scope (scope : option nat) (name : Text) : option nat :=
  defining_from (S (length (scopes c))) scope name.

Definition scope_count_local_functions_named (scope : option nat) (name : Text) : nat :=
  match i ← scope; scopes c !! i with
  | None => 0
  | Some sc =>
      length (List.filter (fun s => has_name name s &&
        match symbols c !! s with
        | Some sym => bool_decide (sym_kind sym = SYMBOL_FUNCTION)
        | None => false
        end) (scope_symbols sc))
  end.
End Lookup.

(** The symbol a name stands for where the analysis is. *)
Definition lookup_name (name : Text) : M (option (nat * Symbol)) := get (fun c =>
  s ← scope_lookup c (current_scope c) name; sym ← symbols c !! s; Some (s, sym)).

#[global] Instance BuiltinKind_eq_dec : EqDecision BuiltinKind.
Proof. solve_decision. Defined.

Definition assert_symbol_builtin_invariant (s : Symbol) : M unit :=
  if bool_decide (sym_kind s = SYMBOL_BUILTIN) then
    require (negb (bool_decide (sym_builtin s = BUILTIN_NONE))) ;;
    require (bool_decide (sym_type s = None))
  else require (bool_decide (sym_builtin s = BUILTIN_NONE)).

(** The new symbol comes first in its scope. *)
Definition push_symbol (symbol : Symbol) (scope : nat) : M nat := fun c =>
  let s := length (symbols c) in
  let push sc := mkScope (s :: scope_symbols sc) (scope_parent sc) in
  Returned (s, set_scopes (alter push scope (scopes c)) (set_symbols (symbols c ++ [symbol]) c)).

Definition scope_define_symbol (name : Text) (kind : SymbolKind) (builtin : BuiltinKind)
    (t : TypePtr) : M nat :=
  require (if bool_decide (kind = SYMBOL_BUILTIN) then negb (bool_decide (builtin = BUILTIN_NONE))
           else bool_decide (builtin = BUILTIN_NONE)) ;;
  let symbol := mkSymbol name kind builtin t None None in
  assert_symbol_builtin_invariant symbol ;;
  scope ← get current_scope;
  match scope with
  | None => lift Aborted
  | Some scope => push_symbol symbol scope
  end.

Definition scope_define (name : Text) (kind : SymbolKind) (t : TypePtr) : M nat :=
  require (negb (bool_decide (kind = SYMBOL_BUILTIN))) ;;
  scope_define_symbol name kind BUILTIN_NONE t.

Definition scope_define_declared (n : Node) (name : Text) (kind : SymbolKind) (t : TypePtr)
    : M nat :=
  require (negb (bool_decide (kind = SYMBOL_BUILTIN))) ;;
  require (bool_decide (is_Some t)) ;;
  s ← scope_define name kind t;
  sem_record_decl_info n t (Some s) ;;
  mret s.

Definition scope_predeclare_declared (n : Node) (name : Text) (kind : SymbolKind) : M nat :=
  require (negb (bool_decide (kind = SYMBOL_BUILTIN))) ;;
  s ← scope_define name kind None;
  i ← sem_get_or_create_decl_info n;
  info ← sem_find_decl_info_by_id (Some i);
  require (bool_decide ((i ← info; decl_symbol i) = None)) ;;
  update_decl_info (fun d => set_declared (decl_type d) (Some s) d) i ;;
  update_symbol (set_symbol_declaration n i) s ;;
  mret s.

Definition scope_define_builtin (name : Text) (kind : BuiltinKind) : M nat :=
  require (negb (bool_decide (kind = BUILTIN_NONE))) ;;
  scope_define_symbol name SYMBOL_BUILTIN kind None.
