(* ===== verification/Modules.v ===== *)
(** Modules, imports and qualified names ([src/semantic_anal.c]).

    Every source file belongs to a module, the root unless it declares another, and sees the
    members of the modules it imports under a qualifier, the module's name or an alias.  A
    dotted path is read as a qualifier followed by members; the longest visible qualifier that
    is a prefix of the path is taken. *)
From S2P Require Import Prelude Token Types Source Lexer IntegerValue TypeRelations Target FlowState Ast SemContext.

#[local] Notation DOT := "."%char.

Definition semantic_source_module (id : Z) : M (option nat) := get (fun c =>
  if id =? SOURCE_FILE_ID_INVALID then None
  else find_position (fun s => source_id s =? id) (source_modules c)).

Definition is_empty (t : Text) : bool := (length t =? 0)%nat.

Section Tables.
Context (c : SemanticContext).

(** The name of a module a pointer refers to. *)
Definition name_of (m : nat) : Text :=
  match modules c !! m with Some md => module_name md | None => [] end.

Definition is_root_module (m : nat) : bool :=
  match modules c !! m with Some md => is_root md | None => false end.

(** [ctx->modules], the newest first *)
Definition module_list : list nat := rev (seq 0 (length (modules c))).

Definition semantic_find_module (name : Text) : option nat :=
  if is_empty name then None
  else List.find (fun m => negb (is_root_module m) && bool_decide (name_of m = name)) module_list.

Definition semantic_import_qualifier (module : nat) (alias : Text) : Text :=
  if negb (is_empty alias) then alias else name_of module.

Definition qualifier_of (b : SemanticImportBinding) : Text :=
  semantic_import_qualifier (import_module b) (import_alias b).

Definition semantic_source_imports_module (source : SemanticSourceModule) (module : nat) : bool :=
  existsb (fun b => bool_decide (import_module b = module)) (imports source).

Definition semantic_source_has_import_qualifier (source : SemanticSourceModule) (qualifier : Text)
    : bool :=
  existsb (fun b => bool_decide (qualifier_of b = qualifier)) (imports source).

Definition semantic_source_resolve_import_qualifier (source : option SemanticSourceModule)
    (name : Text) : option nat :=
  match source with
  | None => None
  | Some source =>
      if is_empty name then None
      else option_map import_module
             (List.find (fun b => bool_decide (qualifier_of b = name)) (imports source))
  end.

(** The entry of the file that is checked. *)
Definition current_source : option SemanticSourceModule :=
  if current_source_id c =? SOURCE_FILE_ID_INVALID then None
  else List.find (fun s => source_id s =? current_source_id c) (source_modules c).
End Tables.

Definition semantic_create_module (name : Text) (root : bool) : M nat :=
  parent ← get builtin_scope;
  scope ← scope_new parent;
  m ← get (fun c => length (modules c));
  modify (fun c => set_modules (modules c ++ [mkModule name scope root]) c) ;;
  mret m.

Definition semantic_select_source_module (id : Z) : M unit :=
  source ← semantic_source_module id;
  entry ← object source_modules source;
  let module := entry ← entry; source_module entry in
  md ← object modules module;
  match md with
  | None => lift Aborted
  | Some md => modify (set_place id module (Some (module_scope md)))
  end.

(** ** Qualified names *)

Definition semantic_resolve_module_qualifier (name : Text) (use_node : Node) : M (option nat) :=
  c ← get id;
  if bool_decide ((m ← current_module c; Some (name_of c m)) = Some name) then mret (current_module c)
  else
    match semantic_source_resolve_import_qualifier c (current_source c) name with
    | Some m => mret (Some m)
    | None =>
        match semantic_find_module c name with
        | Some _ => fail use_node ("module " ++ quoted name ++ " is not imported in this file")
        | None => fail use_node ("unknown module or import alias " ++ quoted name)
        end
    end.

(** [if (diagnose) ...; return NULL;] *)
Definition refuse {A} (diagnose : bool) (n : Node) (msg : string) : M (option A) :=
  if diagnose then fail n msg else mret None.

Definition semantic_lookup_symbol_in_module (module : nat) (qualifier member_name : Text)
    (use_node : Node) (diagnose : bool) : M (option nat) :=
  c ← get id;
  match md ← modules c !! module; s ← scope_find_local c (module_scope md) member_name;
        sym ← symbols c !! s; Some (s, sym) with
  | None => refuse diagnose use_node
              ("module " ++ quoted qualifier ++ " has no member " ++ quoted member_name)
  | Some (s, sym) =>
      if bool_decide (current_module c = Some module) then mret (Some s)
      else
        info ← sem_find_decl_info_by_id (declaration_id sym);
        if match info with Some i => is_exported i | None => false end then mret (Some s)
        else refuse diagnose use_node
               ("module " ++ quoted qualifier ++ " member " ++ quoted member_name ++ " is private")
  end.

Definition semantic_lookup_qualified_symbol (module_name member_name : Text) (use_node : Node)
    : M (option nat) :=
  module ←? semantic_resolve_module_qualifier module_name use_node;
  semantic_lookup_symbol_in_module module module_name member_name use_node true.

Definition semantic_visible_module_qualifier (name : Text) : M (option nat) := get (fun c =>
  if bool_decide ((m ← current_module c; Some (name_of c m)) = Some name) then current_module c
  else semantic_source_resolve_import_qualifier c (current_source c) name).

Definition semantic_lookup_visible_qualified_symbol_no_diag (module_name member_name : Text)
    : M (option nat) :=
  module ←? semantic_visible_module_qualifier module_name;
  semantic_lookup_symbol_in_module module module_name member_name NullNode false.

(** ** Dotted paths *)

(** The text before the first dot and the text after it. *)
Fixpoint split_dot (path : Text) : Text * option Text :=
  match path with
  | [] => ([], None)
  | ch :: rest =>
      if bool_decide (ch = DOT) then ([], Some rest)
      else let '(first, second) := split_dot rest in (ch :: first, second)
  end.

Definition dotted_first_component (path : Text) : Text := (split_dot path).1.

Definition count_dots (path : Text) : nat :=
  length (List.filter (fun ch => bool_decide (ch = DOT)) path).

Definition path_has_module_qualifier_prefix (path qualifier : Text) : bool :=
  negb (is_empty qualifier)
  && (length qualifier + 1 <? length path)%nat
  && bool_decide (take (length qualifier) path = qualifier)
  && bool_decide (path !! length qualifier = Some DOT).

(** The components that follow the module's name in a path, when there are
    [expected_components] of them (1 or 2). *)
Definition dotted_module_suffix (path module_name : Text) (expected_components : nat)
    : option (Text * Text) :=
  if (length path <=? length module_name + 1)%nat
     || negb (bool_decide (take (length module_name) path = module_name))
     || negb (bool_decide (path !! length module_name = Some DOT)) then None
  else
    let suffix := drop (length module_name + 1) path in
    if negb (count_dots suffix + 1 =? expected_components)%nat then None
    else if (expected_components =? 1)%nat then Some (suffix, [])
    else let '(first, second) := split_dot suffix in Some (first, default [] second).

Section Paths.
Context (c : SemanticContext).

Definition semantic_dotted_path_shadowed (path : Text) : bool :=
  let first := dotted_first_component path in
  negb (is_empty first)
  && bool_decide (is_Some (scope_lookup c (current_scope c) first)).

(** The current module's own name, unless it is the root. *)
Definition own_qualifier : option (nat * Text) :=
  match current_module c with
  | Some m => if is_root_module c m then None else Some (m, name_of c m)
  | None => None
  end.

Definition import_qualifiers : list (nat * Text) :=
  match current_source c with
  | Some s => map (fun b => (import_module b, qualifier_of c b)) (imports s)
  | None => []
  end.

Definition semantic_has_visible_module_prefix (path : Text) : bool :=
  if is_empty path || semantic_dotted_path_shadowed path then false
  else
    match own_qualifier with
    | Some (_, q) => path_has_module_qualifier_prefix path q
    | None => false
    end
    || existsb (fun mq => path_has_module_qualifier_prefix path mq.2) import_qualifiers.

(** One step of the loops that keep the longest qualifier. *)
Definition longer (path : Text) (best : option (nat * Text)) (candidate : nat * Text)
    : option (nat * Text) :=
  if negb (path_has_module_qualifier_prefix path candidate.2) then best
  else match best with
       | None => Some candidate
       | Some b => if (length b.2 <? length candidate.2)%nat then Some candidate else best
       end.

Definition semantic_longest_module_prefix (path : Text) (suffix_components : nat)
    (visible_only : bool) : option (nat * Text * Text) :=
  if is_empty path || semantic_dotted_path_shadowed path then None
  else
    let best :=
      if visible_only then
        let own := match own_qualifier with
                   | Some q => longer path None q
                   | None => None
                   end in
        fold_left (longer path) import_qualifiers own
      else
        fold_left (longer path)
          (map (fun m => (m, name_of c m))
               (List.filter (fun m => negb (is_root_module c m)) (module_list c))) None in
    match best with
    | None => None
    | Some (m, qualifier) =>
        match dotted_module_suffix path qualifier suffix_components with
        | Some (first, second) => Some (m, first, second)
        | None => None
        end
    end.

Definition dotted_path_of (n : Node) : Text :=
  match as_of n with Some (NODE_FIELD _ _ path) => path | _ => [] end.

(** The module of a path, and whether it is one that is not visible; only with [diagnose] is
    an invisible module looked for. *)
Definition qualified_location (path : Text) (suffix_components : nat) (diagnose : bool)
    : option (nat * Text * Text * bool) :=
  match semantic_longest_module_prefix path suffix_components true with
  | Some (m, first, second) => Some (m, first, second, false)
  | None =>
      if diagnose && negb (semantic_has_visible_module_prefix path) then
        match semantic_longest_module_prefix path suffix_components false with
        | Some (m, first, second) => Some (m, first, second, true)
        | None => None
        end
      else None
  end.
End Paths.

(** The module and the member's name; the flag is [*out_recognized]. *)
Definition semantic_resolve_qualified_field_location (n : Node) (diagnose : bool)
    : M (option (nat * Text) * bool) :=
  c ← get id;
  if is_empty (dotted_path_of n) then mret (None, false)
  else
    match qualified_location c (dotted_path_of n) 1 diagnose with
    | None => mret (None, false)
    | Some (m, member, _, true) =>
        semantic_error_fmt n
          ("module " ++ quoted (name_of c m) ++ " is not imported in this file") ;;
        mret (None, true)
    | Some (m, member, _, false) => mret (Some (m, member), true)
    end.

Definition semantic_lookup_qualified_field_symbol (n : Node) (diagnose : bool)
    : M (option nat * bool) :=
  location ← semantic_resolve_qualified_field_location n diagnose;
  match location.1 with
  | None => mret (None, location.2)
  | Some (m, member) =>
      name ← get (fun c => name_of c m);
      symbol ← semantic_lookup_symbol_in_module m name member n diagnose;
      mret (symbol, location.2)
  end.

(** The three results of [semantic_qualified_enum_member]: 0, -1 and 1. *)
Inductive QualifiedEnumMember : Set :=
| NOT_QUALIFIED_ENUM_MEMBER
| QUALIFIED_ENUM_MEMBER_ERROR
| QUALIFIED_ENUM_MEMBER (symbol : nat) (member : EnumMember).

(** [if (diagnose) { error; return -1; } return 0;] *)
Definition refuse_enum (diagnose : bool) (report : M unit) : M QualifiedEnumMember :=
  if diagnose then report ;; mret QUALIFIED_ENUM_MEMBER_ERROR else mret NOT_QUALIFIED_ENUM_MEMBER.

Definition semantic_qualified_enum_member (n : Node) (diagnose : bool) : M QualifiedEnumMember :=
  c ← get id;
  if is_empty (dotted_path_of n) then mret NOT_QUALIFIED_ENUM_MEMBER
  else
    match qualified_location c (dotted_path_of n) 2 diagnose with
    | None => mret NOT_QUALIFIED_ENUM_MEMBER
    | Some (m, _, _, true) =>
        semantic_error_fmt n
          ("module " ++ quoted (name_of c m) ++ " is not imported in this file") ;;
        mret QUALIFIED_ENUM_MEMBER_ERROR
    | Some (m, type_name, member_name, false) =>
        symbol ← semantic_lookup_symbol_in_module m (name_of c m) type_name n diagnose;
        match s ← symbol; sym ← symbols c !! s; Some (s, sym) with
        | None => mret (if diagnose then QUALIFIED_ENUM_MEMBER_ERROR else NOT_QUALIFIED_ENUM_MEMBER)
        | Some (s, sym) =>
            if negb (bool_decide (sym_kind sym = SYMBOL_TYPE)) then mret NOT_QUALIFIED_ENUM_MEMBER
            else
              t ← ask (fun ts => deref ts (sym_type sym));
              if negb (bool_decide (option_map kind t = Some TYPE_ENUM)) then
                refuse_enum diagnose (semantic_error_fmt n
                  ("'" ++ str (name_of c m) ++ "." ++ str type_name ++ "' is not an enum type"))
              else
                match find_enum_member t (str member_name) with
                | None => refuse_enum diagnose
                            (semantic_error_name n "unknown enum member" member_name)
                | Some member => mret (QUALIFIED_ENUM_MEMBER s member)
                end
        end
    end.

Definition semantic_qualified_enum_member_no_diag (n : Node) : M (option (nat * EnumMember)) :=
  r ← semantic_qualified_enum_member n false;
  mret (match r with QUALIFIED_ENUM_MEMBER s m => Some (s, m) | _ => None end).

(** ** Modules and imports of a program *)

Definition update_source (f : SemanticSourceModule -> SemanticSourceModule) (i : nat) : M unit :=
  modify (fun c => set_source_modules (alter f i (source_modules c)) c).

Definition set_module (m : nat) (n : Node) (s : SemanticSourceModule) : SemanticSourceModule :=
  mkSourceModule (source_id s) (Some m) (imports s) (Some n) (saw_import_directive s)
    (saw_non_directive s).
Definition set_saw_import (s : SemanticSourceModule) : SemanticSourceModule :=
  mkSourceModule (source_id s) (source_module s) (imports s) (module_decl s) true
    (saw_non_directive s).
Definition set_saw_non_directive (s : SemanticSourceModule) : SemanticSourceModule :=
  mkSourceModule (source_id s) (source_module s) (imports s) (module_decl s)
    (saw_import_directive s) true.
Definition add_import (b : SemanticImportBinding) (s : SemanticSourceModule)
    : SemanticSourceModule :=
  mkSourceModule (source_id s) (source_module s) (imports s ++ [b]) (module_decl s)
    (saw_import_directive s) (saw_non_directive s).

(** The array's capacity is not represented. *)
Definition semantic_append_import (source : nat) (module : nat) (alias : Text) : M unit :=
  update_source (add_import (mkImport module alias)) source.

Definition when (b : bool) (m : M unit) : M unit := if b then m else mret tt.

Definition declare_module (n : Node) (name : Text) (i : nat) (source : SemanticSourceModule)
    : M unit :=
  if bool_decide (is_Some (module_decl source)) then
    semantic_error n "duplicate module declaration in source file"
  else
    when (saw_import_directive source)
      (semantic_error n "module declaration must precede imports") ;;
    when (saw_non_directive source)
      (semantic_error n "module declaration must precede other top-level declarations/statements") ;;
    found ← get (fun c => semantic_find_module c name);
    m ← match found with Some m => mret m | None => semantic_create_module name false end;
    update_source (set_module m n) i.

(** The body of the first loop of [prepare_program_modules]. *)
Definition discover_module (n : Node) : M unit :=
  source ← semantic_source_module (file_id (span_of n));
  entry ← object source_modules source;
  match source, entry with
  | Some i, Some entry =>
      match as_of n with
      | Some (NODE_MODULE_DECL name) => declare_module n name i entry
      | Some (NODE_IMPORT_DECL _ _) =>
          update_source set_saw_import i ;;
          when (saw_non_directive entry) (semantic_error n
            "import declarations must precede other top-level declarations/statements")
      | _ => update_source set_saw_non_directive i
      end
  | _, _ => mret tt
  end.

(** The body of the second. *)
Definition resolve_import (n : Node) : M unit :=
  match as_of n with
  | Some (NODE_IMPORT_DECL name alias) =>
      source ← semantic_source_module (file_id (span_of n));
      entry ← object source_modules source;
      c ← get id;
      match source, entry with
      | Some i, Some entry =>
          match semantic_find_module c name with
          | None => semantic_error_fmt n ("unknown module " ++ quoted name)
          | Some m =>
              let qualifier := semantic_import_qualifier c m alias in
              if bool_decide (Some m = source_module entry) then
                semantic_error_fmt n ("module " ++ quoted (name_of c m) ++ " cannot import itself")
              else if semantic_source_imports_module entry m then
                semantic_error_fmt n ("duplicate import of module " ++ quoted (name_of c m))
              else if bool_decide ((m ← source_module entry; Some (name_of c m)) = Some qualifier)
              then semantic_error_fmt n ("import qualifier " ++ quoted qualifier
                                         ++ " conflicts with the current module name")
              else if semantic_source_has_import_qualifier c entry qualifier then
                semantic_error_fmt n ("duplicate import qualifier " ++ quoted qualifier)
              else semantic_append_import i m alias
          end
      | _, _ => mret tt
      end
  | _ => mret tt
  end.

Fixpoint for_each {A} (f : A -> M unit) (l : list A) : M unit :=
  match l with
  | [] => mret tt
  | x :: l => f x ;; for_each f l
  end.

Definition program_statements (n : Node) : list Node :=
  match as_of n with Some (NODE_PROGRAM stmts) => stmts | _ => [] end.

Definition prepare_program_modules (program : Node) : M unit :=
  for_each discover_module (program_statements program) ;;
  for_each resolve_import (program_statements program).

(** ** The start of an analysis *)

Definition fixed_integer_type_for_bits (bit_width : Z) (is_signed : bool) : M TypePtr :=
  if bit_width =? 8 then builtin_type (if is_signed then TYPE_S8 else TYPE_U8)
  else if bit_width =? 16 then builtin_type (if is_signed then TYPE_S16 else TYPE_U16)
  else if bit_width =? 32 then builtin_type (if is_signed then TYPE_S32 else TYPE_U32)
  else if bit_width =? 64 then builtin_type (if is_signed then TYPE_S64 else TYPE_U64)
  else mret None.

(** A message on stderr that counts as an error. *)
Definition print_error : M unit :=
  modify (fun c => set_errors (diagnostics c) (S (error_count c)) c).

Definition define_type (name : string) (t : TypePtr) : M unit :=
  scope_define (cstr name) SYMBOL_TYPE t ;; mret tt.

Definition register_c_abi_type_alias (name : string) (t : TypePtr) : M unit :=
  if bool_decide (is_Some t) then define_type name t else print_error.

Definition register_target_c_integer_alias (name : string) (bit_width : Z) (is_signed : bool)
    : M unit :=
  t ← fixed_integer_type_for_bits bit_width is_signed;
  register_c_abi_type_alias name t.

Definition register_target_c_float_alias (name : string) (t : TypePtr)
    (actual_format expected_format : TargetFloatFormat) : M unit :=
  if negb (bool_decide (actual_format = expected_format)) then print_error
  else define_type name t.

Definition register_target_pointer_integer_aliases (target : TargetInfo) : M unit :=
  isize ← fixed_integer_type_for_bits (pointer_bits target) true;
  usize ← fixed_integer_type_for_bits (pointer_bits target) false;
  modify (set_pointer_types isize usize) ;;
  if negb (bool_decide (is_Some isize)) || negb (bool_decide (is_Some usize)) then print_error
  else define_type "isize" isize ;; define_type "usize" usize.

Definition register_target_c_abi_type_aliases (t : TargetInfo) : M unit :=
  register_target_c_integer_alias "c_char" (c_char_bits t) (c_char_is_signed t) ;;
  register_target_c_integer_alias "c_schar" (c_char_bits t) true ;;
  register_target_c_integer_alias "c_uchar" (c_char_bits t) false ;;
  register_target_c_integer_alias "c_short" (c_short_bits t) true ;;
  register_target_c_integer_alias "c_ushort" (c_short_bits t) false ;;
  register_target_c_integer_alias "c_int" (c_int_bits t) true ;;
  register_target_c_integer_alias "c_uint" (c_int_bits t) false ;;
  register_target_c_integer_alias "c_long" (c_long_bits t) true ;;
  register_target_c_integer_alias "c_ulong" (c_long_bits t) false ;;
  register_target_c_integer_alias "c_longlong" (c_long_long_bits t) true ;;
  register_target_c_integer_alias "c_ulonglong" (c_long_long_bits t) false ;;
  register_target_c_integer_alias "c_size" (c_size_bits t) false ;;
  bool ← builtin_type TYPE_BOOL;
  define_type "c_bool" bool ;;
  f32 ← builtin_type TYPE_F32;
  register_target_c_float_alias "c_float" f32 (c_float_format t)
    TARGET_FLOAT_FORMAT_IEEE_BINARY32 ;;
  f64 ← builtin_type TYPE_F64;
  register_target_c_float_alias "c_double" f64 (c_double_format t)
    TARGET_FLOAT_FORMAT_IEEE_BINARY64.

Definition define_builtin (name : string) (k : BuiltinKind) : M unit :=
  scope_define_builtin (cstr name) k ;; mret tt.

Definition register_builtin_symbols (target : TargetInfo) : M unit :=
  register_target_pointer_integer_aliases target ;;
  register_target_c_abi_type_aliases target ;;
  define_builtin "wrapping_add" BUILTIN_WRAPPING_ADD ;;
  define_builtin "wrapping_sub" BUILTIN_WRAPPING_SUB ;;
  define_builtin "wrapping_mul" BUILTIN_WRAPPING_MUL ;;
  define_builtin "wrapping_neg" BUILTIN_WRAPPING_NEG ;;
  define_builtin "size_of" BUILTIN_SIZE_OF ;;
  define_builtin "align_of" BUILTIN_ALIGN_OF ;;
  define_builtin "slice" BUILTIN_SLICE.

(** [type_s8], ..., [type_null], in the order they are created. *)
Definition builtin_kinds : list TypeKind :=
  [TYPE_S8; TYPE_S16; TYPE_S32; TYPE_S64; TYPE_U8; TYPE_U16; TYPE_U32; TYPE_U64;
   TYPE_F32; TYPE_F64; TYPE_BOOL; TYPE_VOID; TYPE_NULL].

Definition empty_context (config : TargetConfig) : SemanticContext :=
  mkContext (map type_of_kind builtin_kinds)
    (fun k => find_position (fun k' => bool_decide (k' = k)) builtin_kinds)
    None None config [] [] None None [] None [] SOURCE_FILE_ID_INVALID [] [] false [] 0.

(** [semantic_check], up to the check of the program. *)
Definition semantic_start (target : TargetInfo) (sources : SourceManager) : M unit :=
  builtins ← scope_new None;
  modify (set_builtin_scope (Some builtins)) ;;
  modify (set_place SOURCE_FILE_ID_INVALID None (Some builtins)) ;;
  register_builtin_symbols target ;;
  root ← semantic_create_module [] true;
  scope ← object modules (Some root);
  modify (set_place SOURCE_FILE_ID_INVALID (Some root) (option_map module_scope scope)) ;;
  modify (set_source_modules
    (map (fun f => mkSourceModule (sf_id f) (Some root) [] None false false) (files sources))).
