(* ===== verification/ModulesTheory.v ===== *)
(** What holds of modules, imports and qualified names.

    After the modules of a program are prepared, no two modules share a name and every
    qualifier of a file means one module.  The longest qualifier decides how a dotted path is
    read, and a qualified name reaches another module's member only if it is exported. *)
From S2P Require Import Prelude Token Types Source Lexer IntegerValue TypeRelations Target FlowState Ast SemContext Modules.

#[local] Notation DOT := "."%char.

(** ** Runs *)

Lemma bind_returned {A B} (m : M A) (k : A -> M B) c b c' :
  (x ← m; k x) c = Returned (b, c') <-> exists a c1, m c = Returned (a, c1) /\ k a c1 = Returned (b, c').
Proof.
  unfold mbind, M_bind. destruct (m c) as [[a c1]|]; split.
  - eauto.
  - by intros (? & ? & [= <- <-] & ?).
  - done.
  - by intros (? & ? & ? & ?).
Qed.

(** A computation that returns in a context that satisfies [Q] whenever [P] held. *)
Definition keeps (P : SemanticContext -> Prop) (m : M unit) : Prop :=
  forall c, P c -> exists c', m c = Returned (tt, c') /\ P c'.

Lemma keeps_for_each {A} P (f : A -> M unit) l : Forall (fun x => keeps P (f x)) l -> keeps P (for_each f l).
Proof.
  induction 1 as [|x l Hx Hl IH]; intros c Hc; [by exists c|].
  destruct (Hx c Hc) as (c1 & H1 & Hc1). destruct (IH c1 Hc1) as (c2 & H2 & Hc2).
  exists c2. split; [|done]. cbn. apply bind_returned. eauto.
Qed.

Lemma keeps_seq P m1 m2 : keeps P m1 -> keeps P m2 -> keeps P (m1 ;; m2).
Proof.
  intros K1 K2 c Hc. destruct (K1 c Hc) as (c1 & H1 & Hc1). destruct (K2 c1 Hc1) as (c2 & H2 & Hc2).
  exists c2. split; [|done]. apply bind_returned. eauto.
Qed.

(** An error changes nothing but the report. *)
Lemma error_run n msg c :
  exists c', semantic_error n msg c = Returned (tt, c') /\ modules c' = modules c
    /\ source_modules c' = source_modules c.
Proof. unfold semantic_error, modify. destruct (const_eval_silent c); eexists; by split_and!. Qed.

(** ** Modules of a program *)

(** The modules but the root, by name. *)
Definition module_names (c : SemanticContext) : list Text :=
  map module_name (List.filter (fun md => negb (is_root md)) (modules c)).

(** The modules a pointer of a file's entry refers to exist. *)
Definition entry_valid (c : SemanticContext) (s : SemanticSourceModule) : Prop :=
  (forall m, source_module s = Some m -> (m < length (modules c))%nat)
  /\ Forall (fun b => import_module b < length (modules c))%nat (imports s).

(** Every module is imported once, never by itself, and under a qualifier that is neither
    another import's nor the name of the file's own module. *)
Record imports_ok (c : SemanticContext) (s : SemanticSourceModule) : Prop := {
  imports_valid : entry_valid c s;
  imports_distinct : NoDup (map import_module (imports s));
  imports_not_self : forall b, b ∈ imports s -> Some (import_module b) <> source_module s;
  qualifiers_distinct : NoDup (map (qualifier_of c) (imports s));
  qualifiers_not_own : forall b m, b ∈ imports s -> source_module s = Some m ->
    name_of c m <> qualifier_of c b;
}.

Definition modules_ok (c : SemanticContext) : Prop := NoDup (module_names c).

(** Before the imports are resolved no file has one. *)
Definition discovering (c : SemanticContext) : Prop :=
  modules_ok c /\ forall s, s ∈ source_modules c ->
    imports s = [] /\ forall m, source_module s = Some m -> (m < length (modules c))%nat.

Definition resolving (c : SemanticContext) : Prop :=
  modules_ok c /\ forall s, s ∈ source_modules c -> imports_ok c s.

Lemma discovering_resolving c : discovering c -> resolving c.
Proof.
  intros [Hm Hs]. split; [done|]. intros s Hin. destruct (Hs s Hin) as [Hi Hv].
  constructor; unfold entry_valid; rewrite Hi; try done.
  - constructor.
  - by intros b Hb%elem_of_nil.
  - constructor.
  - by intros b m Hb%elem_of_nil.
Qed.

Lemma name_of_app c ms m :
  (m < length (modules c))%nat -> name_of (set_modules (modules c ++ ms) c) m = name_of c m.
Proof. intros Hm. unfold name_of. cbn. by rewrite lookup_app_l. Qed.

(** ** The search for a module *)

Lemma module_list_spec c m : In m (module_list c) <-> (m < length (modules c))%nat.
Proof. unfold module_list. rewrite <- in_rev, in_seq. lia. Qed.

Lemma find_module_some c name m :
  semantic_find_module c name = Some m ->
  (m < length (modules c))%nat /\ is_root_module c m = false /\ name_of c m = name /\ name <> [].
Proof.
  unfold semantic_find_module. destruct name as [|ch name]; [done|]. cbn [is_empty length Nat.eqb].
  intros [Hin H]%List.find_some. apply andb_true_iff in H as [Hr Hn].
  apply module_list_spec in Hin. apply negb_true_iff in Hr. by apply bool_decide_eq_true in Hn.
Qed.

Lemma find_module_none c name :
  semantic_find_module c name = None -> name <> [] -> name ∉ module_names c.
Proof.
  unfold semantic_find_module. destruct name as [|ch name]; [done|]. cbn [is_empty length Nat.eqb].
  intros Hf _ Hin. unfold module_names in Hin.
  apply list_elem_of_In, in_map_iff in Hin as (md & Hname & [Hmd Hroot]%filter_In).
  apply list_elem_of_In, list_elem_of_lookup in Hmd as [m Hm].
  eapply List.find_none in Hf; [|apply module_list_spec; by eapply lookup_lt_Some].
  unfold is_root_module, name_of in Hf. rewrite Hm, Hroot, Hname in Hf. cbn [negb andb] in Hf.
  by rewrite bool_decide_eq_true_2 in Hf.
Qed.

Lemma names_app c md :
  module_names (set_modules (modules c ++ [md]) c)
  = module_names c ++ (if is_root md then [] else [module_name md]).
Proof. unfold module_names. cbn. rewrite List.filter_app, map_app. cbn. by destruct (is_root md). Qed.

(** ** The first pass *)

Definition named_decl (n : Node) : Prop :=
  forall name, as_of n = Some (NODE_MODULE_DECL name) -> name <> [].

Lemma discovering_same c c' :
  modules c' = modules c -> source_modules c' = source_modules c -> discovering c -> discovering c'.
Proof. unfold discovering, modules_ok, module_names. by intros -> ->. Qed.

Lemma keeps_error n msg : keeps discovering (semantic_error n msg).
Proof.
  intros c Hc. destruct (error_run n msg c) as (c' & Hr & Hm & Hs). exists c'. split; [done|].
  by eapply discovering_same.
Qed.

Lemma keeps_when P b m : keeps P m -> keeps P (when b m).
Proof. intros Hm. destruct b; [done|]. intros c Hc. by exists c. Qed.

Lemma discovering_update c f i :
  discovering c ->
  (forall s, s ∈ source_modules c -> imports (f s) = imports s) ->
  (forall s m, s ∈ source_modules c -> source_module (f s) = Some m -> (m < length (modules c))%nat) ->
  discovering (set_source_modules (alter f i (source_modules c)) c).
Proof.
  intros [Hm Hs] Hi Hf. split; [done|]. intros s [j Hj]%list_elem_of_lookup. cbn in Hj.
  assert (Hold : forall k x, source_modules c !! k = Some x -> x ∈ source_modules c)
    by (intros k x Hx; by eapply list_elem_of_lookup_2).
  destruct (decide (j = i)) as [->|Hne].
  - rewrite list_lookup_alter_eq in Hj. destruct (source_modules c !! i) as [x|] eqn:Hx; [|done].
    injection Hj as <-. specialize (Hold i x Hx). destruct (Hs x Hold) as [Hx1 _].
    split; [by rewrite Hi|]. intros m. by apply Hf.
  - rewrite list_lookup_alter_ne in Hj by done. eapply Hs, Hold, Hj.
Qed.

Lemma keeps_update f i :
  (forall s, imports (f s) = imports s) -> (forall s, source_module (f s) = source_module s) ->
  keeps discovering (update_source f i).
Proof.
  intros Hi Hm c Hc. eexists. split; [done|]. apply discovering_update; [done|auto|].
  intros s m Hs. rewrite Hm. by apply Hc.
Qed.

Lemma create_module_run name c :
  exists c', semantic_create_module name false c = Returned (length (modules c), c')
    /\ modules c' = modules c ++ [mkModule name (length (scopes c)) false]
    /\ source_modules c' = source_modules c.
Proof. eexists. by split_and!. Qed.

Lemma discovering_created c c' name scope :
  modules c' = modules c ++ [mkModule name scope false] -> source_modules c' = source_modules c ->
  name ∉ module_names c -> discovering c -> discovering c'.
Proof.
  intros Hm Hs Hname [Hok Hsrc]. split.
  - unfold modules_ok, module_names. rewrite Hm, List.filter_app, map_app. cbn.
    apply NoDup_app. split_and!; [exact Hok| |apply NoDup_singleton].
    intros x Hx ->%list_elem_of_singleton. done.
  - intros s Hin. rewrite Hs in Hin. destruct (Hsrc s Hin) as [Hi Hv]. split; [done|].
    intros m Hsm. rewrite Hm, length_app. specialize (Hv m Hsm). lia.
Qed.

Lemma keeps_declare n name i entry : name <> [] -> keeps discovering (declare_module n name i entry).
Proof.
  intros Hname. unfold declare_module. destruct (bool_decide _); [apply keeps_error|].
  apply keeps_seq; [apply keeps_when, keeps_error|]. apply keeps_seq; [apply keeps_when, keeps_error|].
  intros c Hc. destruct (semantic_find_module c name) as [m|] eqn:Hf.
  - apply find_module_some in Hf as Hm. destruct Hm as [Hm _].
    eexists. split.
    { apply bind_returned. eexists _, c. split; [reflexivity|]. cbn. rewrite Hf. reflexivity. }
    apply discovering_update; [done|done|]. by intros s m' _ [= <-].
  - destruct (create_module_run name c) as (c1 & Hrun & Hm1 & Hs1).
    pose proof (find_module_none _ _ Hf Hname) as Hnew.
    assert (Hc1 : discovering c1) by by eapply discovering_created.
    exists (set_source_modules (alter (set_module (length (modules c)) n) i (source_modules c1)) c1). split.
    { apply bind_returned. eexists _, c. split; [reflexivity|]. rewrite Hf.
      apply bind_returned. eexists _, c1. split; [exact Hrun|reflexivity]. }
    apply discovering_update; [done|done|]. intros s m' _ [= <-]. rewrite Hm1, length_app. cbn. lia.
Qed.

Lemma keeps_get {A} P (f : SemanticContext -> A) k :
  (forall c, P c -> exists c', k (f c) c = Returned (tt, c') /\ P c') -> keeps P (a ← get f; k a).
Proof. intros Hk c Hc. by apply Hk. Qed.

Lemma keeps_ret P : keeps P (mret tt).
Proof. intros c Hc. by exists c. Qed.

Lemma keeps_discover n : named_decl n -> keeps discovering (discover_module n).
Proof.
  intros Hn. unfold discover_module, semantic_source_module. apply keeps_get. intros c Hc.
  match goal with |- context [if ?b then None else ?x] => destruct (if b then None else x) as [i|] end;
    [|by apply keeps_ret].
  revert c Hc. unfold object. apply keeps_get. intros c Hc. cbn [mbind option_bind].
  destruct (source_modules c !! i) as [entry|]; [|by apply keeps_ret]. revert c Hc.
  assert (Hother : keeps discovering (update_source set_saw_non_directive i)) by by apply keeps_update.
  destruct (as_of n) as [a|] eqn:Ha; [|exact Hother].
  destruct a; try exact Hother.
  - by apply keeps_declare, Hn.
  - apply keeps_seq; [by apply keeps_update|apply keeps_when, keeps_error].
Qed.

(** ** The second pass *)

Lemma resolving_same c c' :
  modules c' = modules c -> source_modules c' = source_modules c -> resolving c -> resolving c'.
Proof.
  intros Hm Hs [Hok Hr]. split; [unfold modules_ok, module_names; by rewrite Hm|].
  intros s Hin. rewrite Hs in Hin. destruct (Hr s Hin) as [[V1 V2] D1 N1 D2 N2].
  assert (Hq : forall b, qualifier_of c' b = qualifier_of c b)
    by (intros b; unfold qualifier_of, semantic_import_qualifier, name_of; by rewrite Hm).
  constructor; try done.
  - split; by rewrite Hm.
  - by rewrite (map_ext _ (qualifier_of c) Hq).
  - intros b m Hb Hsm. rewrite Hq. unfold name_of. rewrite Hm. by apply N2.
Qed.

Lemma keeps_resolving_error n msg : keeps resolving (semantic_error n msg).
Proof.
  intros c Hc. destruct (error_run n msg c) as (c' & Hr & Hm & Hs). exists c'. split; [done|].
  by eapply resolving_same.
Qed.

(** The file's entry after an import that passed the tests. *)
Lemma imports_ok_add c entry m alias :
  imports_ok c entry -> (m < length (modules c))%nat -> Some m <> source_module entry ->
  semantic_source_imports_module entry m = false ->
  (m ← source_module entry; Some (name_of c m)) <> Some (semantic_import_qualifier c m alias) ->
  semantic_source_has_import_qualifier c entry (semantic_import_qualifier c m alias) = false ->
  imports_ok c (add_import (mkImport m alias) entry).
Proof.
  intros [[V1 V2] D1 N1 D2 N2] Hm Hself Hmod Hown Hqual.
  assert (Hmod' : m ∉ map import_module (imports entry)).
  { intros (b & Hb & Hin)%list_elem_of_In%in_map_iff. apply not_true_iff_false in Hmod. apply Hmod.
    apply existsb_exists. exists b. split; [done|]. by apply bool_decide_eq_true. }
  assert (Hqual' : semantic_import_qualifier c m alias ∉ map (qualifier_of c) (imports entry)).
  { intros (b & Hb & Hin)%list_elem_of_In%in_map_iff. apply not_true_iff_false in Hqual. apply Hqual.
    apply existsb_exists. exists b. split; [done|]. by apply bool_decide_eq_true. }
  constructor; cbn.
  - split; [exact V1|]. apply Forall_app. split; [done|by apply Forall_singleton].
  - rewrite map_app. apply NoDup_app. split_and!; [done| |apply NoDup_singleton].
    intros x Hx ->%list_elem_of_singleton. done.
  - intros b [Hb| ->%list_elem_of_singleton]%elem_of_app; [by apply N1|done].
  - rewrite map_app. apply NoDup_app. split_and!; [done| |apply NoDup_singleton].
    intros x Hx ->%list_elem_of_singleton. done.
  - intros b m' [Hb| ->%list_elem_of_singleton]%elem_of_app Hsm; [by apply N2|].
    intros E. apply Hown. rewrite Hsm. cbn. by rewrite E.
Qed.

Lemma resolving_update c i entry entry' :
  resolving c -> source_modules c !! i = Some entry -> imports_ok c entry' ->
  forall f, f entry = entry' -> resolving (set_source_modules (alter f i (source_modules c)) c).
Proof.
  intros [Hok Hr] Hi Hentry f Hf. split; [done|]. intros s [j Hj]%list_elem_of_lookup. cbn in Hj.
  assert (imports_ok c s) as [V1 D1 N1 D2 N2]; [|by constructor].
  destruct (decide (j = i)) as [->|Hne].
  - rewrite list_lookup_alter_eq, Hi in Hj. injection Hj as <-. by rewrite Hf.
  - rewrite list_lookup_alter_ne in Hj by done. eapply Hr, list_elem_of_lookup_2, Hj.
Qed.

Lemma keeps_resolve n : keeps resolving (resolve_import n).
Proof.
  unfold resolve_import. destruct (as_of n) as [a|]; [|by apply keeps_ret].
  destruct a; try by apply keeps_ret. unfold semantic_source_module. apply keeps_get. intros c Hc.
  match goal with |- context [if ?b then None else ?x] => destruct (if b then None else x) as [i|] end.
  2:{ revert c Hc. unfold object. apply keeps_get. intros c Hc. cbn [mbind option_bind].
      revert c Hc. apply keeps_get. intros c Hc. by exists c. }
  revert c Hc. unfold object. apply keeps_get. intros c Hc. cbn [mbind option_bind].
  destruct (source_modules c !! i) as [entry|] eqn:Hentry.
  2:{ exists c. split; [|done]. apply bind_returned. eexists c, c. done. }
  assert (Hok : imports_ok c entry) by (apply Hc; by eapply list_elem_of_lookup_2).
  assert (Hgoal : forall k : SemanticContext -> M unit,
    (exists c', k c c = Returned (tt, c') /\ resolving c') ->
    exists c', (c ← get id; k c) c = Returned (tt, c') /\ resolving c').
  { intros k (c' & Hk & Hc'). exists c'. split; [|done]. apply bind_returned. by exists c, c. }
  apply Hgoal. clear Hgoal.
  destruct (semantic_find_module c name) as [m|] eqn:Hf; [|by apply keeps_resolving_error].
  apply find_module_some in Hf as (Hm & Hroot & Hname & Hne).
  destruct (bool_decide_reflect (Some m = source_module entry)) as [|Hself]; [by apply keeps_resolving_error|].
  destruct (semantic_source_imports_module entry m) eqn:Hmod; [by apply keeps_resolving_error|].
  destruct (bool_decide_reflect ((m ← source_module entry; Some (name_of c m))
    = Some (semantic_import_qualifier c m alias))) as [|Hown]; [by apply keeps_resolving_error|].
  destruct (semantic_source_has_import_qualifier c entry _) eqn:Hqual; [by apply keeps_resolving_error|].
  eexists. split; [reflexivity|]. eapply resolving_update; [done|done| |reflexivity].
  by apply imports_ok_add.
Qed.

(** C23. Import qualifiers are unambiguous. For any program whose module declarations are named,
    [prepare_program_modules] returns; then no two modules share a name, and in every source
    file each imported module exists, is imported once and is not the file's own, and the
    qualifiers -- names or aliases -- are pairwise different and different from the name of
    the file's own module, so that a qualifier stands for one module. *)
Theorem import_qualifiers_unambiguous c program :
  NoDup (module_names c) -> Forall named_decl (program_statements program) ->
  (forall s, s ∈ source_modules c ->
     imports s = [] /\ forall m, source_module s = Some m -> (m < length (modules c))%nat) ->
  exists c', prepare_program_modules program c = Returned (tt, c')
    /\ NoDup (module_names c') /\ forall s, s ∈ source_modules c' -> imports_ok c' s.
Proof.
  intros Hnames Hdecls Hsources. unfold prepare_program_modules.
  assert (Hd : discovering c) by done.
  destruct (keeps_for_each discovering discover_module (program_statements program)) with (c := c)
    as (c1 & H1 & Hc1); [|done|].
  { eapply Forall_impl; [exact Hdecls|]. apply keeps_discover. }
  destruct (keeps_for_each resolving resolve_import (program_statements program)) with (c := c1)
    as (c2 & H2 & Hc2); [|by apply discovering_resolving|].
  { apply Forall_true. apply keeps_resolve. }
  exists c2. split; [|exact Hc2]. apply bind_returned. eauto.
Qed.

(** ** Dotted paths *)

(** The path is the qualifier, a dot, and something. *)
Definition qualifies (path q : Text) : Prop := q <> [] /\ exists rest, rest <> [] /\ path = q ++ DOT :: rest.

(** What the qualifier leaves of the path are [k] components, 1 or 2. *)
Definition reads_as (path q : Text) (k : nat) (first second : Text) : Prop :=
  DOT ∉ first /\ DOT ∉ second /\
  if (k =? 1)%nat then path = q ++ DOT :: first /\ second = []
  else path = q ++ DOT :: first ++ DOT :: second.

Lemma take_dot (path q : Text) :
  take (length q) path = q -> path !! length q = Some DOT -> path = q ++ DOT :: drop (length q + 1) path.
Proof.
  intros Ht Hd. rewrite <- (take_drop (length q) path) at 1. rewrite Ht. f_equal.
  rewrite (drop_S _ _ _ Hd). by rewrite Nat.add_1_r.
Qed.

Lemma qualifier_prefix path q : path_has_module_qualifier_prefix path q = true <-> qualifies path q.
Proof.
  unfold path_has_module_qualifier_prefix, qualifies. rewrite !andb_true_iff, !bool_decide_eq_true, Nat.ltb_lt.
  split.
  - intros (((Hq & Hlen) & Ht) & Hd). split; [by intros ->|]. exists (drop (length q + 1) path).
    split; [|by apply take_dot]. intros E. apply (f_equal length) in E. rewrite length_drop in E. cbn in E. lia.
  - intros (Hq & rest & Hrest & ->). rewrite length_app, take_app_length, list_lookup_middle by done. cbn.
    split_and!; try done; [by destruct q|]. destruct rest; [done|cbn; lia].
Qed.

Lemma split_dot_spec path :
  let '(first, second) := split_dot path in
  DOT ∉ first /\ match second with Some rest => path = first ++ DOT :: rest | None => path = first end.
Proof.
  induction path as [|ch path IH]; [split; [by intros []%elem_of_nil|done]|]. cbn [split_dot].
  destruct (bool_decide_reflect (ch = DOT)) as [->|Hne].
  - split; [by intros []%elem_of_nil|done].
  - destruct (split_dot path) as [first second]. destruct IH as [Hf Hs].
    split; [intros [E|E]%elem_of_cons; [congruence|done]|]. by destruct second; subst.
Qed.

Lemma count_dots_cons ch t : count_dots (ch :: t) = ((if bool_decide (ch = DOT) then 1 else 0) + count_dots t)%nat.
Proof. unfold count_dots. cbn. by destruct (bool_decide _). Qed.

Lemma count_dots_app a b : count_dots (a ++ b) = (count_dots a + count_dots b)%nat.
Proof. unfold count_dots. by rewrite List.filter_app, length_app. Qed.

Lemma count_dots_zero t : count_dots t = 0%nat <-> DOT ∉ t.
Proof.
  induction t as [|ch t IH]; [split; [by intros _ []%elem_of_nil|done]|].
  rewrite count_dots_cons, not_elem_of_cons. case_bool_decide as Hd.
  - split; [lia|]. intros [Hne _]. congruence.
  - rewrite <- IH. split; [intros; split; [congruence|lia]|lia].
Qed.

Lemma module_suffix path q k first second :
  k = 1%nat \/ k = 2%nat ->
  dotted_module_suffix path q k = Some (first, second) -> reads_as path q k first second.
Proof.
  intros Hk. unfold dotted_module_suffix, reads_as.
  destruct (_ || _) eqn:Hc; [done|]. rewrite !orb_false_iff, !negb_false_iff, !bool_decide_eq_true in Hc.
  destruct Hc as [[Hlen Ht] Hd]. pose proof (take_dot path q Ht Hd) as Hpath.
  set (suffix := drop (length q + 1) path) in *.
  destruct (Nat.eqb_spec (count_dots suffix + 1) k) as [Hn|]; [|done]. cbn [negb].
  destruct Hk as [-> | ->]; cbn [Nat.eqb].
  - intros [= <- <-]. split_and!; [by apply count_dots_zero; lia|by intros []%elem_of_nil|done..].
  - pose proof (split_dot_spec suffix) as Hs. destruct (split_dot suffix) as [a b]. destruct Hs as [Ha Hb].
    intros [= <- <-]. destruct b as [rest|]; cbn [default].
    + split_and!; [done| |by rewrite Hpath, Hb].
      apply count_dots_zero. apply count_dots_zero in Ha. rewrite Hb, count_dots_app, count_dots_cons in Hn.
      change (id rest) with rest. case_bool_decide; [lia|done].
    + exfalso. apply count_dots_zero in Ha. rewrite Hb, Ha in Hn. done.
Qed.

Lemma module_suffix_none path q k first second :
  k = 1%nat \/ k = 2%nat -> qualifies path q ->
  dotted_module_suffix path q k = None -> ~ reads_as path q k first second.
Proof.
  intros Hk (Hq & rest & Hrest & Hpath) Hnone (Hf & Hs & Hr). unfold dotted_module_suffix in Hnone.
  subst path. rewrite length_app, take_app_length, list_lookup_middle, !bool_decide_eq_true_2 in Hnone by done.
  cbn [length negb orb] in Hnone. rewrite (proj2 (Nat.leb_gt _ _)) in Hnone by (destruct rest; [done|cbn; lia]).
  cbn [orb] in Hnone. rewrite drop_app_ge in Hnone by lia.
  replace (length q + 1 - length q)%nat with 1%nat in Hnone by lia.
  change (drop 1 (DOT :: rest)) with (drop 0 rest) in Hnone. rewrite drop_0 in Hnone.
  apply count_dots_zero in Hf, Hs. destruct Hk as [-> | ->]; cbn [Nat.eqb] in Hr.
  - destruct Hr as [Hr _]. apply app_inv_head in Hr. injection Hr as ->. by rewrite Hf in Hnone.
  - apply app_inv_head in Hr. injection Hr as ->. rewrite count_dots_app, count_dots_cons, Hf, Hs in Hnone.
    rewrite bool_decide_eq_true_2 in Hnone by done. cbn in Hnone.
    by destruct (split_dot (first ++ DOT :: second)).
Qed.

Lemma longer_spec path best x :
  match longer path best x with
  | Some y => (best = Some y \/ y = x /\ qualifies path x.2)
              /\ (qualifies path x.2 -> (length x.2 <= length y.2)%nat)
              /\ (forall b, best = Some b -> (length b.2 <= length y.2)%nat)
  | None => best = None /\ ~ qualifies path x.2
  end.
Proof.
  unfold longer. destruct (path_has_module_qualifier_prefix path x.2) eqn:Hx; cbn [negb].
  - apply qualifier_prefix in Hx. destruct best as [b|]; [destruct (Nat.ltb_spec (length b.2) (length x.2))|].
    + split_and!; [by right|done|]. intros b' [= <-]. lia.
    + split_and!; [by left|done|]. by intros b' [= <-].
    + split_and!; [by right|done|done].
  - assert (Hn : ~ qualifies path x.2) by (rewrite <- qualifier_prefix; congruence).
    destruct best as [b|]; [|done]. split_and!; [by left|done|by intros b' [= <-]].
Qed.

(** The loops keep the first of the longest candidates. *)
Lemma fold_longer path l best :
  match fold_left (longer path) l best with
  | Some x => (best = Some x \/ x ∈ l /\ qualifies path x.2)
              /\ (forall y, y ∈ l -> qualifies path y.2 -> (length y.2 <= length x.2)%nat)
              /\ (forall y, best = Some y -> (length y.2 <= length x.2)%nat)
  | None => best = None /\ forall y, y ∈ l -> ~ qualifies path y.2
  end.
Proof.
  revert best. induction l as [|x l IH]; intros best; cbn [fold_left].
  - destruct best as [b|]; [|by split; [|intros y []%elem_of_nil]].
    split_and!; [by left|by intros y []%elem_of_nil|by intros y [= ->]].
  - specialize (IH (longer path best x)). pose proof (longer_spec path best x) as Hx.
    destruct (fold_left (longer path) l (longer path best x)) as [z|].
    + destruct IH as (Hz & Hl & Hb). destruct (longer path best x) as [w|] eqn:Hw.
      * destruct Hx as (Hw1 & Hw2 & Hw3). specialize (Hb w eq_refl). split_and!.
        -- destruct Hz as [[= <-]|[Hz1 Hz2]]; [|right; split; [by right|done]].
           destruct Hw1 as [->|[-> Hq]]; [by left|right; split; [by left|done]].
        -- intros y [->|Hy]%elem_of_cons Hq; [specialize (Hw2 Hq); lia|by apply Hl].
        -- intros y Hy. specialize (Hw3 y Hy). lia.
      * destruct Hx as [-> Hq]. split_and!; [|by intros y [->|Hy]%elem_of_cons Hq'; [|apply Hl]|done].
        destruct Hz as [|[Hz1 Hz2]]; [done|]. right. split; [by right|done].
    + destruct IH as [Hw Hl]. rewrite Hw in Hx. destruct Hx as [-> Hq]. split; [done|].
      by intros y [->|Hy]%elem_of_cons; [|apply Hl].
Qed.

(** The qualifiers that are looked at: those the file sees, or those of all modules. *)
Definition candidates (c : SemanticContext) (visible_only : bool) : list (nat * Text) :=
  if visible_only then match own_qualifier c with Some q => [q] | None => [] end ++ import_qualifiers c
  else map (fun m => (m, name_of c m)) (List.filter (fun m => negb (is_root_module c m)) (module_list c)).

(** The qualifier is a candidate of the path, and none is longer. *)
Definition longest (c : SemanticContext) (path : Text) (visible_only : bool) (x : nat * Text) : Prop :=
  x ∈ candidates c visible_only /\ qualifies path x.2
  /\ forall y, y ∈ candidates c visible_only -> qualifies path y.2 -> (length y.2 <= length x.2)%nat.

Lemma best_candidate c path (visible_only : bool) :
  match (if visible_only then fold_left (longer path) (import_qualifiers c)
           (match own_qualifier c with Some q => longer path None q | None => None end)
         else fold_left (longer path) (map (fun m => (m, name_of c m))
           (List.filter (fun m => negb (is_root_module c m)) (module_list c))) None) with
  | Some x => longest c path visible_only x
  | None => forall y, y ∈ candidates c visible_only -> ~ qualifies path y.2
  end.
Proof.
  assert (Hfold : forall l, match fold_left (longer path) l None with
    | Some x => (x ∈ l /\ qualifies path x.2) /\ forall y, y ∈ l -> qualifies path y.2 -> (length y.2 <= length x.2)%nat
    | None => forall y, y ∈ l -> ~ qualifies path y.2 end).
  { intros l. pose proof (fold_longer path l None) as H. destruct (fold_left _ _ _) as [x|]; [|by destruct H].
    destruct H as ([?|H] & H2 & _); done. }
  unfold longest, candidates. destruct visible_only.
  - set (own := match own_qualifier c with Some q => [q] | None => [] end).
    assert (E : (match own_qualifier c with Some q => longer path None q | None => None end)
      = fold_left (longer path) own None) by (unfold own; by destruct (own_qualifier c)).
    rewrite E, <- fold_left_app. specialize (Hfold (own ++ import_qualifiers c)).
    destruct (fold_left _ _ _); [|done]. naive_solver.
  - specialize (Hfold (map (fun m => (m, name_of c m)) (List.filter (fun m => negb (is_root_module c m)) (module_list c)))).
    destruct (fold_left _ _ _); [|done]. naive_solver.
Qed.

(** C25. The longest qualifier decides. When a dotted path is split, the qualifier is one of
    those the file sees (or of all modules, for the diagnostics), the qualifier, a dot and the
    one or two components found spell the path, and no other qualifier that begins the path is
    longer. When it is not split, the path is empty or its first component is a name in scope,
    or no qualifier begins it, or a longest one leaves another number of components. *)
Theorem longest_qualifier_decides c path k visible_only :
  k = 1%nat \/ k = 2%nat ->
  match semantic_longest_module_prefix c path k visible_only with
  | Some (m, first, second) =>
      path <> [] /\ semantic_dotted_path_shadowed c path = false
      /\ exists q, longest c path visible_only (m, q) /\ reads_as path q k first second
  | None =>
      path = [] \/ semantic_dotted_path_shadowed c path = true
      \/ (forall y, y ∈ candidates c visible_only -> ~ qualifies path y.2)
      \/ exists x, longest c path visible_only x /\ forall first second, ~ reads_as path x.2 k first second
  end.
Proof.
  intros Hk. unfold semantic_longest_module_prefix.
  destruct path as [|ch path]; [by left|]. cbn [is_empty length Nat.eqb orb].
  destruct (semantic_dotted_path_shadowed c (ch :: path)) eqn:Hs; [by right; left|].
  pose proof (best_candidate c (ch :: path) visible_only) as Hbest. cbv zeta.
  match goal with |- context [match ?x with Some _ => _ | None => None end] => destruct x as [[m q]|] end;
    [|by right; right; left].
  destruct (dotted_module_suffix (ch :: path) q k) as [[first second]|] eqn:Hd.
  - split_and!; [done|done|]. exists q. split; [done|]. by apply module_suffix.
  - right. right. right. exists (m, q). split; [done|]. intros first second.
    apply module_suffix_none; [done|apply Hbest|done].
Qed.

(** ** Qualified names *)

(** The file sees the module under the qualifier. *)
Definition sees (c : SemanticContext) (source : SemanticSourceModule) (m : nat) (qualifier : Text) : Prop :=
  (current_module c = Some m /\ name_of c m = qualifier)
  \/ (qualifier <> [] /\ exists b, b ∈ imports source /\ import_module b = m /\ qualifier_of c b = qualifier).

(** A member of the module by that name, which the analysis may use where it is. *)
Definition accessible (c : SemanticContext) (m : nat) (name : Text) (s : nat) : Prop :=
  exists md sym, modules c !! m = Some md /\ scope_find_local c (module_scope md) name = Some s
    /\ symbols c !! s = Some sym
    /\ (current_module c = Some m
        \/ exists i d, declaration_id sym = Some i /\ decl_infos c !! i = Some d /\ is_exported d = true).

(** One error at the node, unless the analysis is silent. *)
Definition reports (n : Node) (c c' : SemanticContext) : Prop :=
  if const_eval_silent c then c' = c
  else exists msg, c' = set_errors (diagnostics c ++ [mkDiagnostic (span_of n) msg]) (S (error_count c)) c.

Lemma fail_run {A} n msg c : exists c', fail (A := A) n msg c = Returned (None, c') /\ reports n c c'.
Proof.
  unfold fail, reports, semantic_error, modify, mbind, M_bind.
  destruct (const_eval_silent c); eexists; split; eauto.
Qed.

Lemma find_distinct {A} (f : A -> Text) l b :
  NoDup (map f l) -> b ∈ l -> List.find (fun x => bool_decide (f x = f b)) l = Some b.
Proof.
  induction l as [|x l IH]; [by intros _ Hb%elem_of_nil|]. cbn. intros [Hx Hl]%NoDup_cons [->|Hb]%elem_of_cons.
  - by rewrite bool_decide_eq_true_2.
  - case_bool_decide as E; [|by apply IH]. exfalso. apply Hx. rewrite E. apply list_elem_of_In, in_map.
    by apply list_elem_of_In.
Qed.

Section Lookup.
Context (c : SemanticContext) (source : SemanticSourceModule).
Hypotheses (Hsource : current_source c = Some source) (Hok : imports_ok c source)
  (Hmodule : source_module source = current_module c).

Lemma resolve_spec q :
  match semantic_source_resolve_import_qualifier c (current_source c) q with
  | Some m => q <> [] /\ exists b, b ∈ imports source /\ import_module b = m /\ qualifier_of c b = q
  | None => forall b, q <> [] -> b ∈ imports source -> qualifier_of c b <> q
  end.
Proof using Hsource.
  rewrite Hsource. unfold semantic_source_resolve_import_qualifier.
  destruct q as [|ch q]; [by intros b []|]. cbn [is_empty length Nat.eqb].
  destruct (List.find _ (imports source)) as [b|] eqn:Hf; cbn.
  - apply List.find_some in Hf as [Hin Hq]. apply bool_decide_eq_true in Hq.
    split; [done|]. exists b. split; [by apply list_elem_of_In|done].
  - intros b _ Hb%list_elem_of_In. by eapply List.find_none, bool_decide_eq_false in Hf.
Qed.

(** The module that a qualifier stands for is the one that is found. *)
Lemma qualifier_run q n :
  exists r c', semantic_resolve_module_qualifier q n c = Returned (r, c')
    /\ (forall m, r = Some m <-> sees c source m q)
    /\ match r with Some _ => c' = c | None => reports n c c' end.
Proof using Hsource Hok Hmodule.
  unfold semantic_resolve_module_qualifier. pose proof (resolve_spec q) as Hr.
  assert (Hrun : forall A (k : SemanticContext -> M A), (x ← get id; k x) c = k c c) by done.
  rewrite Hrun. destruct (bool_decide_reflect ((m ← current_module c; Some (name_of c m)) = Some q)) as [Hown|Hown].
  - destruct (current_module c) as [m0|] eqn:Hm; [|done]. cbn in Hown. injection Hown as Hq.
    exists (Some m0), c. split_and!; [done| |done]. intros m. split.
    + intros [= <-]. by left.
    + intros [[Hm' _]|(Hne & b & Hb & _ & Hqb)]; [congruence|].
      exfalso. by apply (qualifiers_not_own c source Hok b m0 Hb); [|congruence].
  - destruct (semantic_source_resolve_import_qualifier _ _ _) as [m0|].
    + exists (Some m0), c. split_and!; [done| |done]. intros m. split.
      * intros [= <-]. by right.
      * intros [[Hm Hq]|(Hne & b & Hb & Hbm & Hqb)]; [by rewrite Hm in Hown; cbn in Hown; rewrite Hq in Hown|].
        destruct Hr as (_ & b' & Hb' & Hbm' & Hqb').
        pose proof (find_distinct (qualifier_of c) (imports source) b (qualifiers_distinct c source Hok) Hb) as F1.
        pose proof (find_distinct (qualifier_of c) (imports source) b' (qualifiers_distinct c source Hok) Hb') as F2.
        rewrite Hqb in F1. rewrite Hqb', F1 in F2. congruence.
    + assert (Hno : forall m, None = Some m <-> sees c source m q).
      { intros m. split; [done|]. intros [[Hm Hq]|(Hne & b & Hb & _ & Hqb)]; [|by destruct (Hr b)].
        exfalso. apply Hown. rewrite Hm. cbn. by rewrite Hq. }
      destruct (semantic_find_module c q).
      * destruct (fail_run (A := nat) n ("module " ++ quoted q ++ " is not imported in this file") c) as (c' & H1 & H2).
        by exists None, c'.
      * destruct (fail_run (A := nat) n ("unknown module or import alias " ++ quoted q) c) as (c' & H1 & H2).
        by exists None, c'.
Qed.

Lemma member_run m q name n :
  exists r c', semantic_lookup_symbol_in_module m q name n true c = Returned (r, c')
    /\ (forall s, r = Some s <-> accessible c m name s)
    /\ match r with Some _ => c' = c | None => reports n c c' end.
Proof using.
  unfold semantic_lookup_symbol_in_module, refuse.
  assert (Hrun : forall A (k : SemanticContext -> M A), (x ← get id; k x) c = k c c) by done.
  rewrite Hrun.
  assert (Hfail : forall msg, (forall s, ~ accessible c m name s) ->
    exists r c', fail (A := nat) n msg c = Returned (r, c') /\ (forall s, r = Some s <-> accessible c m name s)
      /\ match r with Some _ => c' = c | None => reports n c c' end).
  { intros msg Hno. destruct (fail_run (A := nat) n msg c) as (c' & H1 & H2). exists None, c'.
    split_and!; [done| |done]. intros s. split; [done|]. intros Hs. by destruct (Hno s). }
  destruct (modules c !! m) as [md|] eqn:Hmd.
  2:{ cbn [mbind option_bind]. apply Hfail. intros s (md & sym & Hx & _). congruence. }
  cbn [mbind option_bind]. destruct (scope_find_local c (module_scope md) name) as [s|] eqn:Hs.
  2:{ cbn [mbind option_bind]. apply Hfail. intros s (md' & sym & Hx & Hy & _). congruence. }
  cbn [mbind option_bind]. destruct (symbols c !! s) as [sym|] eqn:Hsym.
  2:{ cbn [mbind option_bind]. apply Hfail. intros s' (md' & sym & Hx & Hy & Hz & _). congruence. }
  cbn [mbind option_bind].
  assert (Hyes : (current_module c = Some m \/ exists i d, declaration_id sym = Some i
       /\ decl_infos c !! i = Some d /\ is_exported d = true) ->
    exists r c', (mret (Some s) : M (option nat)) c = Returned (r, c') /\ (forall s, r = Some s <-> accessible c m name s)
      /\ match r with Some _ => c' = c | None => reports n c c' end).
  { intros Hacc. exists (Some s), c. split_and!; [done| |done]. intros s'. split.
    - intros [= <-]. by exists md, sym.
    - intros (md' & sym' & Hx & Hy & _). congruence. }
  destruct (bool_decide_reflect (current_module c = Some m)) as [Hcur|Hcur]; [by apply Hyes; left|].
  unfold sem_find_decl_info_by_id, object.
  assert (Hrun2 : forall A B (f : SemanticContext -> B) (k : B -> M A), (x ← get f; k x) c = k (f c) c) by done.
  rewrite Hrun2.
  destruct (i ← declaration_id sym; decl_infos c !! i) as [d|] eqn:Hd.
  - assert (Hid : exists i, declaration_id sym = Some i /\ decl_infos c !! i = Some d)
      by (destruct (declaration_id sym) as [i|]; [by exists i|done]).
    destruct Hid as (i & Hi & Hdi). destruct (is_exported d) eqn:He.
    + apply Hyes. right. by exists i, d.
    + apply Hfail. intros s' (md' & sym' & Hx & Hy & Hz & [?|(i' & d' & Hi' & Hd' & He')]); congruence.
  - apply Hfail. intros s' (md' & sym' & Hx & Hy & Hz & [?|(i' & d' & Hi' & Hd' & He')]); [congruence|].
    assert (sym' = sym) as -> by congruence. rewrite Hi' in Hd. cbn in Hd. congruence.
Qed.
End Lookup.

(** C24. Qualified names respect imports and privacy. In a file whose imports are unambiguous, a
    qualified name denotes a symbol exactly when the qualifier is the name of the file's own
    module or the qualifier of one of its imports, and that module has a member of the name
    which is exported unless the module is the file's own. The lookup changes nothing then;
    otherwise it reports one error at the use. *)
Theorem qualified_names_respect_privacy c source q name n :
  current_source c = Some source -> imports_ok c source -> source_module source = current_module c ->
  exists r c', semantic_lookup_qualified_symbol q name n c = Returned (r, c')
    /\ (forall s, r = Some s <-> exists m, sees c source m q /\ accessible c m name s)
    /\ match r with Some _ => c' = c | None => reports n c c' end.
Proof.
  intros Hsource Hok Hmodule. destruct (qualifier_run c source Hsource Hok Hmodule q n) as (r & c1 & Hrun & Hr & Hc1).
  unfold semantic_lookup_qualified_symbol, try_bind, mbind, M_bind. rewrite Hrun.
  destruct r as [m|].
  - subst c1. destruct (member_run c m q name n) as (r & c' & Hrun2 & Hr2 & Hc').
    exists r, c'. split_and!; [done| |done]. intros s. rewrite Hr2. split.
    + intros Ha. exists m. split; [by apply Hr|done].
    + intros (m' & Hm' & Ha). apply Hr in Hm'. by injection Hm' as <-.
  - exists None, c1. split_and!; [done| |done]. intros s. split; [done|].
    intros (m & Hm & _). by apply Hr in Hm.
Qed.

(** ** Examples

    File 1 is the module [a] with an exported constant [P] and a private one [Q], file 2 the
    module [a.b], and file 3 imports both, [a] as itself and [a.b] as [x]. *)

Definition in_file (f l : Z) (a : NodeAs) (exported : bool) : Node := mkNode a (mkSpan f l l l 1) exported.

Definition P_decl : Node :=
  in_file 1 2 (NODE_CONST_DECL None (cstr "P") (in_file 1 3 (NODE_BOOL true) false)) true.
Definition Q_decl : Node :=
  in_file 1 4 (NODE_CONST_DECL None (cstr "Q") (in_file 1 5 (NODE_BOOL true) false)) false.

Definition sample_modules_program : Node :=
  in_file 1 0 (NODE_PROGRAM
    [in_file 1 1 (NODE_MODULE_DECL (cstr "a")) false; P_decl; Q_decl;
     in_file 2 1 (NODE_MODULE_DECL (cstr "a.b")) false;
     in_file 3 1 (NODE_IMPORT_DECL (cstr "a") []) false;
     in_file 3 2 (NODE_IMPORT_DECL (cstr "a.b") (cstr "x")) false]) false.

Definition sample_modules_start : SemanticContext :=
  set_source_modules (map (fun i => mkSourceModule i (Some 0%nat) [] None false false) [1; 2; 3])
    (set_modules [mkModule [] 1 true]
      (set_scopes [mkScope [] None; mkScope [] (Some 0%nat)]
        (set_builtin_scope (Some 0%nat) (empty_context (mkConfig TARGET_ARCH_X86_64 TARGET_OS_LINUX TARGET_ABI_SYSV))))).

Lemma import_qualifiers_unambiguous_witness :
  exists c', prepare_program_modules sample_modules_program sample_modules_start = Returned (tt, c')
    /\ NoDup (module_names c') /\ forall s, s ∈ source_modules c' -> imports_ok c' s.
Proof.
  apply (import_qualifiers_unambiguous sample_modules_start sample_modules_program).
  - constructor.
  - repeat constructor; intros name; by intros [= <-].
  - intros s Hs. cbn in Hs. repeat (apply elem_of_cons in Hs as [->|Hs];
      [split; [reflexivity|]; intros m [= <-]; cbn; lia|]). by apply elem_of_nil in Hs.
Defined.

(** The context of file 3 afterwards, with the members of [a]. *)
Definition sample_file_3 : SemanticSourceModule :=
  mkSourceModule 3 (Some 0%nat) [mkImport 1 []; mkImport 2 (cstr "x")] None true false.

Definition sample_modules : SemanticContext :=
  mkContext [] (fun _ => None) None None (mkConfig TARGET_ARCH_X86_64 TARGET_OS_LINUX TARGET_ABI_SYSV)
    [mkSymbol (cstr "P") SYMBOL_CONSTANT BUILTIN_NONE None (Some P_decl) (Some 0%nat);
     mkSymbol (cstr "Q") SYMBOL_CONSTANT BUILTIN_NONE None (Some Q_decl) (Some 1%nat)]
    [mkScope [] None; mkScope [] (Some 0%nat); mkScope [1%nat; 0%nat] (Some 0%nat); mkScope [] (Some 0%nat)]
    (Some 0%nat) (Some 1%nat)
    [mkModule [] 1 true; mkModule (cstr "a") 2 false; mkModule (cstr "a.b") 3 false] (Some 0%nat)
    [mkSourceModule 1 (Some 1%nat) [] None false true; mkSourceModule 2 (Some 2%nat) [] None false false;
     sample_file_3] 3
    [mkDeclInfo P_decl None (Some 0%nat) true false false None;
     mkDeclInfo Q_decl None (Some 1%nat) false false false None] [] false [] 0.

Lemma longest_qualifier_decides_witness :
  semantic_longest_module_prefix sample_modules (cstr "a.b.c") 1 false = Some (2%nat, cstr "c", [])
  /\ exists q, longest sample_modules (cstr "a.b.c") false (2%nat, q) /\ reads_as (cstr "a.b.c") q 1 (cstr "c") [].
Proof.
  pose proof (longest_qualifier_decides sample_modules (cstr "a.b.c") 1 false (or_introl eq_refl)) as H.
  assert (E : semantic_longest_module_prefix sample_modules (cstr "a.b.c") 1 false = Some (2%nat, cstr "c", []))
    by (vm_compute; reflexivity).
  rewrite E in H. split; [exact E|]. exact (proj2 (proj2 H)).
Defined.

Lemma sample_imports_ok : imports_ok sample_modules sample_file_3.
Proof.
  constructor.
  - split; [intros m [= <-]; cbn; lia|]. repeat constructor.
  - apply (bool_decide_unpack _). vm_compute. reflexivity.
  - intros b Hb. cbn in Hb. repeat (apply elem_of_cons in Hb as [->|Hb]; [done|]). by apply elem_of_nil in Hb.
  - apply (bool_decide_unpack _). vm_compute. reflexivity.
  - intros b m Hb [= <-]. cbn in Hb. repeat (apply elem_of_cons in Hb as [->|Hb]; [done|]). by apply elem_of_nil in Hb.
Qed.

Lemma qualified_names_respect_privacy_witness :
  (exists r c', semantic_lookup_qualified_symbol (cstr "a") (cstr "Q") P_decl sample_modules = Returned (r, c')
    /\ (forall s, r = Some s <-> exists m, sees sample_modules sample_file_3 m (cstr "a")
                                           /\ accessible sample_modules m (cstr "Q") s)
    /\ match r with Some _ => c' = sample_modules | None => reports P_decl sample_modules c' end)
  /\ semantic_lookup_qualified_symbol (cstr "a") (cstr "P") P_decl sample_modules
     = Returned (Some 0%nat, sample_modules).
Proof.
  split; [|vm_compute; reflexivity].
  exact (qualified_names_respect_privacy sample_modules sample_file_3 (cstr "a") (cstr "Q") P_decl
           eq_refl sample_imports_ok eq_refl).
Defined.
