(* ===== verification/ConstantEvaluation.v ===== *)
(** Compile-time constants ([src/semantic_anal.c], "compile-time constant evaluation", the
    casts and builtin calls of constants, and the checks that read constant operands).

    The evaluator walks the parser's tree.  A [double] is a [spec_float], an IEEE binary64
    datum; the arithmetic of [float] is that of binary32 on converted operands.

    What constants ask of the rest of the analysis is the class [Checker]: the resolution of
    written types and the check of an expression's type.  Checking a constant's declaration
    evaluates its value, which may check the declarations of other constants: the evaluator
    is a section over that check, and [check_const_decl] ties the knot with a bound on the
    depth of such checks (see [ConstantTheory]). *)
From Stdlib Require Import SpecFloat.
From stdpp Require Import pretty.
From S2P Require Import Prelude Token Types Source Lexer IntegerValue StringDecode TypeRelations Target FlowState Ast SemContext Modules.

Class Checker : Type := {
  resolve_type : SourceType -> Node -> M TypePtr;
  check_value_expression : Node -> M TypePtr;
}.

(** ** Floating point *)

Definition is_finite (d : spec_float) : bool :=
  match d with S754_zero _ | S754_finite _ _ _ => true | _ => false end.

(** [(float)d] and [(double)f] *)
Definition to_f32 (d : spec_float) : spec_float :=
  match d with S754_finite s m e => binary_round 24 128 s m e | _ => d end.
Definition to_f64 (d : spec_float) : spec_float :=
  match d with S754_finite s m e => binary_round 53 1024 s m e | _ => d end.

(** [(double)n] and [(float)n] of an unsigned integer *)
Definition f64_of_Z (n : Z) : spec_float := binary_normalize 53 1024 n 0 false.
Definition f32_of_Z (n : Z) : spec_float := binary_normalize 24 128 n 0 false.

Definition COGLET_F32_MAX : spec_float := binary_normalize 53 1024 (2 ^ 24 - 1) 104 false.

(** The quotient of two positive integers to 64 bits, with a last bit that is set unless the
    quotient is exact: enough for every rounding to fewer bits. *)
Definition quotient (n d : Z) : Z * Z :=
  let shift := Z.max 0 (66 + Z.log2 d - Z.log2 n) in
  let n := n * 2 ^ shift in
  (2 * (n / d) + (if n mod d =? 0 then 0 else 1), - shift - 1).

(** The [double] nearest to a literal, as [strtod] rounds it. *)
Definition double_of (v : FloatValue) : spec_float :=
  if mantissa v =? 0 then S754_zero false
  else if 0 <=? exponent v then binary_normalize 53 1024 (mantissa v * base v ^ exponent v) 0 false
  else let '(q, e) := quotient (mantissa v) (base v ^ (- exponent v)) in
       binary_normalize 53 1024 q e false.

Definition integer_value_to_double (v : IntegerValue) : spec_float :=
  let d := f64_of_Z (magnitude v) in if is_negative v then SFopp d else d.

Definition round_float_for_type (d : spec_float) (k : TypeKind) : option spec_float :=
  match k with
  | TYPE_F32 =>
      if is_finite d && (SFltb COGLET_F32_MAX d || SFltb d (SFopp COGLET_F32_MAX)) then None
      else Some (to_f64 (to_f32 d))
  | TYPE_F64 | TYPE_UNTYPED_FLOAT => Some d
  | _ => None
  end.

Inductive CheckedFloatToIntegerCastStatus : Set :=
| CHECKED_FLOAT_TO_INTEGER_CAST_VALID (v : IntegerValue)
| CHECKED_FLOAT_TO_INTEGER_CAST_NON_FINITE
| CHECKED_FLOAT_TO_INTEGER_CAST_OUT_OF_RANGE.

(** The integer part of a finite magnitude: [(uint64_t)magnitude] below 2^64. *)
Definition truncate_float (d : spec_float) : Z :=
  match d with
  | S754_finite _ m e => if 0 <=? e then Zpos m * 2 ^ e else Zpos m / 2 ^ (- e)
  | _ => 0
  end.

Definition classify_checked_float_to_integer_cast (source : spec_float) (target_kind : TypeKind)
    : outcome CheckedFloatToIntegerCastStatus :=
  assert! is_concrete_integer_kind target_kind;
  if negb (is_finite source) then Returned CHECKED_FLOAT_TO_INTEGER_CAST_NON_FINITE
  else
    let negative := SFltb source (S754_zero false) in
    let mag := if (negative : bool) then SFopp source else source in
    if SFleb (f64_of_Z (2 ^ 64)) mag then Returned CHECKED_FLOAT_TO_INTEGER_CAST_OUT_OF_RANGE
    else
      let v := integer_value_make (truncate_float mag) negative in
      let! status := classify_checked_integer_cast v target_kind in
      Returned (match status with
                | CHECKED_INTEGER_CAST_VALID => CHECKED_FLOAT_TO_INTEGER_CAST_VALID v
                | CHECKED_INTEGER_CAST_OUT_OF_RANGE => CHECKED_FLOAT_TO_INTEGER_CAST_OUT_OF_RANGE
                end).

(** ** Values and types *)

Definition kind_is (f : TypeKind -> bool) (k : option TypeKind) : bool :=
  match k with Some k => f k | None => false end.

Definition const_value_to_float_type (v : ConstValue) (target_kind : TypeKind)
    : option spec_float :=
  if negb (is_float_kind target_kind) then None
  else match const_value_as v with
  | CONST_VALUE_INT i =>
      if bool_decide (target_kind = TYPE_F32) then
        let converted := f32_of_Z (magnitude i) in
        let converted := if is_negative i then SFopp converted else converted in
        if negb (is_finite converted) then None else Some (to_f64 converted)
      else
        let d := integer_value_to_double i in
        if is_finite d then Some d else None
  | CONST_VALUE_FLOAT d => round_float_for_type d target_kind
  | CONST_VALUE_BOOL _ | CONST_VALUE_NULL => None
  end.

Definition untyped_integer_type_for_value (v : IntegerValue) : M TypePtr :=
  kind ← lift (default_integer_kind_for_value v);
  match kind with
  | None => mret None
  | Some _ => new_type TYPE_UNTYPED_INT
  end.

Definition const_value_default_type (v : ConstValue) : M TypePtr :=
  match const_value_type v with
  | Some t => mret (Some t)
  | None =>
      match const_value_as v with
      | CONST_VALUE_INT i => untyped_integer_type_for_value i
      | CONST_VALUE_FLOAT _ => new_type TYPE_UNTYPED_FLOAT
      | CONST_VALUE_BOOL _ => builtin_type TYPE_BOOL
      | CONST_VALUE_NULL => builtin_type TYPE_NULL
      end
  end.

Definition default_concrete_type_for_constant (v : ConstValue) : M TypePtr :=
  ts ← get types;
  if bool_decide (is_Some (const_value_type v))
     && negb (is_untyped_numeric_type ts (const_value_type v)) then
    if is_null_type ts (const_value_type v) then mret None
    else
      match deref ts (const_value_type v) with
      | None => mret None
      | Some t =>
          canonical ← builtin_type (kind t);
          mret (if bool_decide (is_Some canonical) then canonical else const_value_type v)
      end
  else
    match const_value_as v with
    | CONST_VALUE_INT i =>
        kind ← lift (default_integer_kind_for_value i);
        match kind with Some k => builtin_type k | None => mret None end
    | CONST_VALUE_FLOAT _ => builtin_type TYPE_F64
    | CONST_VALUE_BOOL _ => builtin_type TYPE_BOOL
    | CONST_VALUE_NULL => mret None
    end.

Definition fits (v : IntegerValue) (k : TypeKind) : M bool := lift (integer_value_fits_type v k).

(** [out->kind = kind; out->as = as; out->type = type; return 1;] *)
Definition result (t : TypePtr) (a : ConstValueAs) : M (option ConstValue) :=
  mret (Some (mkConstValue t a)).

Definition boolean_result (b : bool) : M (option ConstValue) :=
  t ← builtin_type TYPE_BOOL; result t (CONST_VALUE_BOOL b).

Definition integer_constant_result (n : Node) (result_type : TypePtr) (operation_kind : TypeKind)
    (v : IntegerValue) : M (option ConstValue) :=
  k ← kind_of result_type;
  if negb (kind_is is_integer_kind k) || negb (is_concrete_integer_kind operation_kind) then
    fail n "integer constant expression has no integer operation type"
  else
    fits_operation ← fits v operation_kind;
    fits_untyped ← fits v TYPE_UNTYPED_INT;
    if negb fits_operation || bool_decide (k = Some TYPE_UNTYPED_INT) && negb fits_untyped then
      fail n "integer overflow in constant expression"
    else result result_type (CONST_VALUE_INT v).

Definition float_constant_result (n : Node) (result_type : TypePtr) (operation_kind : TypeKind)
    (d : spec_float) : M (option ConstValue) :=
  k ← kind_of result_type;
  match round_float_for_type d operation_kind with
  | Some rounded =>
      if kind_is is_float_kind k && is_concrete_float_kind operation_kind then
        result result_type (CONST_VALUE_FLOAT rounded)
      else fail n "floating-point overflow in constant expression"
  | None => fail n "floating-point overflow in constant expression"
  end.

(** ** Operators *)

(** The operator of [float] or [double] arithmetic, of the precision and exponent range. *)
Definition float_operation (prec emax : Z) (op : TokenType)
    : option (spec_float -> spec_float -> spec_float) :=
  match op with
  | TOK_PLUS => Some (SFadd prec emax)
  | TOK_MINUS => Some (SFsub prec emax)
  | TOK_STAR => Some (SFmul prec emax)
  | TOK_SLASH => Some (SFdiv prec emax)
  | _ => None
  end.

Definition eval_float_binary_operation (n : Node) (op : TokenType) (result_type : TypePtr)
    (operation_kind : TypeKind) (left right : ConstValue) : M (option ConstValue) :=
  k ← kind_of result_type;
  if negb (kind_is is_float_kind k) || negb (is_concrete_float_kind operation_kind) then
    fail n "floating-point constant expression has no floating-point operation type"
  else
    match const_value_to_float_type left operation_kind,
          const_value_to_float_type right operation_kind with
    | Some l, Some r =>
        if bool_decide (operation_kind = TYPE_F32) then
          match float_operation 24 128 op with
          | Some f => float_constant_result n result_type operation_kind
                        (to_f64 (f (to_f32 l) (to_f32 r)))
          | None => mret None
          end
        else
          match float_operation 53 1024 op with
          | Some f => float_constant_result n result_type operation_kind (f l r)
          | None => mret None
          end
    | _, _ => fail n "floating-point constant operand does not fit operation type"
    end.

Definition is_equality (op : TokenType) : bool :=
  match op with TOK_EQUAL_EQUAL | TOK_BANG_EQUAL => true | _ => false end.

(** The last [switch] on a three-way comparison. *)
Definition ordered_result (op : TokenType) (comparison : Z) : M (option ConstValue) :=
  match op with
  | TOK_EQUAL_EQUAL => boolean_result (comparison =? 0)
  | TOK_BANG_EQUAL => boolean_result (negb (comparison =? 0))
  | TOK_LESS => boolean_result (comparison <? 0)
  | TOK_LESS_EQUAL => boolean_result (comparison <=? 0)
  | TOK_GREATER => boolean_result (0 <? comparison)
  | TOK_GREATER_EQUAL => boolean_result (0 <=? comparison)
  | _ => mret None
  end.

Definition float_comparison (op : TokenType) (l r : spec_float) : M (option ConstValue) :=
  match op with
  | TOK_EQUAL_EQUAL => boolean_result (SFeqb l r)
  | TOK_BANG_EQUAL => boolean_result (negb (SFeqb l r))
  | TOK_LESS => boolean_result (SFltb l r)
  | TOK_LESS_EQUAL => boolean_result (SFleb l r)
  | TOK_GREATER => boolean_result (SFltb r l)
  | TOK_GREATER_EQUAL => boolean_result (SFleb r l)
  | _ => mret None
  end.

Definition eval_numeric_comparison (n : Node) (op : TokenType) (left right : ConstValue)
    (left_type right_type : TypePtr) : M (option ConstValue) :=
  ts ← get types;
  let common := common_numeric_type ts left_type right_type in
  operation_kind ← lift (constant_numeric_operation_kind ts left right common);
  match common, operation_kind with
  | Some _, Some operation_kind =>
      if is_concrete_integer_kind operation_kind then
        let misfit := fail n "integer constant operand does not fit comparison type" in
        match const_value_as left, const_value_as right with
        | CONST_VALUE_INT l, CONST_VALUE_INT r =>
            left_fits ← fits l operation_kind;
            right_fits ← fits r operation_kind;
            if negb left_fits || negb right_fits then misfit
            else ordered_result op (integer_value_compare l r)
        | _, _ => misfit
        end
      else
        match (if is_concrete_float_kind operation_kind
               then const_value_to_float_type left operation_kind else None),
              const_value_to_float_type right operation_kind with
        | Some l, Some r => float_comparison op l r
        | _, _ => fail n "floating-point comparison operand does not fit comparison type"
        end
  | _, _ => fail n "comparison operands have incompatible numeric types"
  end.

Definition eval_const_comparison (n : Node) (op : TokenType) (left right : ConstValue)
    : M (option ConstValue) :=
  left_type ← const_value_default_type left;
  right_type ← const_value_default_type right;
  ts ← get types;
  if is_numeric_type ts left_type && is_numeric_type ts right_type then
    eval_numeric_comparison n op left right left_type right_type
  else
    match const_value_as left, const_value_as right with
    | CONST_VALUE_BOOL l, CONST_VALUE_BOOL r =>
        if negb (is_equality op) then fail n "ordered comparison requires numeric constants"
        else ordered_result op (if Bool.eqb l r then 0 else if l then 1 else -1)
    | CONST_VALUE_NULL, CONST_VALUE_NULL =>
        if negb (is_equality op) then fail n "ordered comparison requires numeric constants"
        else ordered_result op 0
    | CONST_VALUE_INT l, CONST_VALUE_INT r =>
        if has_kind ts left_type TYPE_ENUM && type_equal ts left_type right_type
           && is_equality op
        then ordered_result op (integer_value_compare l r)
        else fail n "comparison operands are not compatible constants"
    | _, _ => fail n "comparison operands are not compatible constants"
    end.

Definition overflow_message : string := "integer overflow in constant expression".

Definition eval_const_negation (n : Node) (operand : ConstValue) : M (option ConstValue) :=
  match const_value_as operand with
  | CONST_VALUE_INT i =>
      result_type ← const_value_default_type operand;
      k ← kind_of result_type;
      if kind_is is_unsigned_integer_kind k then
        fail n "unary '-' cannot be applied to an unsigned value"
      else
        let mathematical_value := integer_value_negated i in
        default_kind ← lift (default_integer_kind_for_value mathematical_value);
        let negate operation_kind :=
          status ← lift (evaluate_checked_integer_negation i operation_kind);
          match status with
          | (CHECKED_INTEGER_ARITHMETIC_VALID, Some v) =>
              integer_constant_result n result_type operation_kind v
          | _ => fail n overflow_message
          end in
        if bool_decide (k = Some TYPE_UNTYPED_INT) then
          match default_kind with
          | None => fail n overflow_message
          | Some operation_kind => negate operation_kind
          end
        else
          match k with
          | Some k => if is_signed_integer_kind k then negate k
                      else fail n "integer constant expression has no integer type"
          | None => fail n "integer constant expression has no integer type"
          end
  | CONST_VALUE_FLOAT d =>
      result_type ← const_value_default_type operand;
      ts ← get types;
      operation_kind ← lift (default_numeric_kind_for_constant ts operand);
      match operation_kind with
      | Some operation_kind =>
          if is_concrete_float_kind operation_kind then
            float_constant_result n result_type operation_kind (SFopp d)
          else fail n "floating-point constant expression has no floating-point type"
      | None => fail n "floating-point constant expression has no floating-point type"
      end
  | CONST_VALUE_BOOL _ | CONST_VALUE_NULL => fail n "unary '-' requires a numeric constant"
  end.

Definition eval_const_complement (n : Node) (operand : ConstValue) : M (option ConstValue) :=
  match const_value_as operand with
  | CONST_VALUE_INT i =>
      result_type ← const_value_default_type operand;
      k ← kind_of result_type;
      let complement operation_kind :=
        v ← lift (integer_value_bitwise_not i operation_kind);
        match v with
        | None => fail n "integer constant operand does not fit operation type"
        | Some v => integer_constant_result n result_type operation_kind v
        end in
      match k with
      | Some k =>
          if is_concrete_integer_kind k then complement k
          else if bool_decide (k = TYPE_UNTYPED_INT) then
            default_kind ← lift (default_integer_kind_for_value i);
            match default_kind with
            | None => fail n "integer constant expression has no integer operation type"
            | Some operation_kind => complement operation_kind
            end
          else fail n "unary '~' requires an integer constant"
      | None => fail n "unary '~' requires an integer constant"
      end
  | _ => fail n "unary '~' requires an integer constant"
  end.

(** [case NODE_UNARY:], after the operand *)
Definition eval_const_unary (n : Node) (op : TokenType) (operand : ConstValue)
    : M (option ConstValue) :=
  match op with
  | TOK_MINUS => eval_const_negation n operand
  | TOK_TILDE => eval_const_complement n operand
  | TOK_BANG =>
      match const_value_as operand with
      | CONST_VALUE_BOOL b => boolean_result (negb b)
      | _ => fail n "unary '!' requires a boolean constant"
      end
  | _ => fail n "operator not allowed in a constant expression"
  end.

Definition is_logical (op : TokenType) : bool :=
  match op with TOK_AND_AND | TOK_OR_OR => true | _ => false end.

(** The value that decides [&&] or [||]: [false], or [true]. *)
Definition deciding (op : TokenType) : bool := bool_decide (op = TOK_OR_OR).

Definition eval_const_logical (n : Node) (op : TokenType) (left right : ConstValue)
    : M (option ConstValue) :=
  match const_value_as left, const_value_as right with
  | CONST_VALUE_BOOL l, CONST_VALUE_BOOL r =>
      boolean_result (if bool_decide (op = TOK_AND_AND) then l && r else l || r)
  | _, _ => fail n "operands must be boolean constants"
  end.

Definition eval_const_bitwise (n : Node) (op : TokenType) (left right : ConstValue)
    : M (option ConstValue) :=
  left_type ← const_value_default_type left;
  right_type ← const_value_default_type right;
  ts ← get types;
  let operands := "bitwise operators require integer constants" in
  match const_value_as left, const_value_as right with
  | CONST_VALUE_INT l, CONST_VALUE_INT r =>
      if negb (is_integer_type ts left_type) || negb (is_integer_type ts right_type) then
        fail n operands
      else
        let result_type := common_integer_type ts left_type right_type in
        operation_kind ← lift (constant_numeric_operation_kind ts left right result_type);
        match result_type, operation_kind with
        | Some _, Some operation_kind =>
            if negb (is_concrete_integer_kind operation_kind) then
              fail n "constant operands have incompatible integer types"
            else
              left_fits ← fits l operation_kind;
              right_fits ← fits r operation_kind;
              if negb left_fits || negb right_fits then
                fail n "integer constant operand does not fit operation type"
              else
                v ← lift (integer_values_bitwise l r operation_kind op);
                match v with
                | None => fail n "integer constant expression has no integer operation type"
                | Some v => integer_constant_result n result_type operation_kind v
                end
        | _, _ => fail n "constant operands have incompatible integer types"
        end
  | _, _ => fail n operands
  end.

Definition eval_const_shift (n right_node : Node) (op : TokenType) (left right : ConstValue)
    : M (option ConstValue) :=
  left_type ← const_value_default_type left;
  right_type ← const_value_default_type right;
  ts ← get types;
  match const_value_as left with
  | CONST_VALUE_INT l =>
      if negb (is_integer_type ts left_type) then
        fail n "left operand of shift must be an integer constant"
      else
        match const_value_as right with
        | CONST_VALUE_INT r =>
            if negb (is_integer_type ts right_type) then
              fail n "right operand of shift must be an integer constant"
            else
              k ← kind_of left_type;
              default_kind ← lift (default_integer_kind_for_value l);
              match (if kind_is is_concrete_integer_kind k then k
                     else if bool_decide (k = Some TYPE_UNTYPED_INT) then default_kind
                     else None) with
              | None => fail n "shift expression has no integer operation type"
              | Some operation_kind =>
                  left_fits ← fits l operation_kind;
                  if negb left_fits then fail n "left operand does not fit shift operation type"
                  else
                    match integer_kind_bit_width operation_kind with
                    | None => fail n "shift expression has no integer operation type"
                    | Some width =>
                        match classify_shift_count r width with
                        | SHIFT_COUNT_NEGATIVE =>
                            fail right_node "shift count cannot be negative"
                        | SHIFT_COUNT_OUT_OF_RANGE =>
                            fail right_node
                              "shift count must be less than left operand bit width"
                        | SHIFT_COUNT_VALID count =>
                            v ← lift (integer_value_shift l operation_kind op count);
                            match v with
                            | None => fail n "could not evaluate integer shift"
                            | Some v => integer_constant_result n left_type operation_kind v
                            end
                        end
                    end
              end
        | _ => fail n "right operand of shift must be an integer constant"
        end
  | _ => fail n "left operand of shift must be an integer constant"
  end.

(** [+ - * / %] of integers that fit the operation's type *)
Definition eval_integer_arithmetic (n : Node) (op : TokenType) (l r : IntegerValue)
    (operation_kind : TypeKind) : M (option IntegerValue) :=
  match op with
  | TOK_PLUS | TOK_MINUS | TOK_STAR =>
      status ← lift (evaluate_checked_integer_binary op l r operation_kind);
      match status with
      | (CHECKED_INTEGER_ARITHMETIC_VALID, Some v) => mret (Some v)
      | _ => fail n overflow_message
      end
  | TOK_SLASH | TOK_PERCENT =>
      let is_slash := bool_decide (op = TOK_SLASH) in
      status ← lift (classify_integer_division l r operation_kind);
      match status with
      | INTEGER_DIVISION_VALID =>
          mret (Some (if is_slash
                      then integer_value_make (magnitude l / magnitude r)
                             (negb (eqb (is_negative l) (is_negative r)))
                      else integer_value_make (magnitude l mod magnitude r) (is_negative l)))
      | INTEGER_DIVISION_ZERO_DIVISOR =>
          fail n (if is_slash then "division by zero in constant expression"
                  else "remainder by zero in constant expression")
      | INTEGER_DIVISION_SIGNED_OVERFLOW => fail n overflow_message
      end
  | _ => lift Aborted
  end.

Definition eval_const_arithmetic (n : Node) (op : TokenType) (left right : ConstValue)
    : M (option ConstValue) :=
  left_type ← const_value_default_type left;
  right_type ← const_value_default_type right;
  ts ← get types;
  if negb (is_numeric_type ts left_type) || negb (is_numeric_type ts right_type) then
    fail n "operands must be numeric constants"
  else if bool_decide (op = TOK_PERCENT)
          && (negb (is_integer_type ts left_type) || negb (is_integer_type ts right_type)) then
    fail n "'%' requires integer constants"
  else
    let result_type := common_numeric_type ts left_type right_type in
    operation_kind ← lift (constant_numeric_operation_kind ts left right result_type);
    match result_type, operation_kind with
    | Some _, Some operation_kind =>
        let otherwise :=
          if bool_decide (op = TOK_PERCENT) then fail n "'%' requires integer constants"
          else eval_float_binary_operation n op result_type operation_kind left right in
        match const_value_as left, const_value_as right with
        | CONST_VALUE_INT l, CONST_VALUE_INT r =>
            if is_concrete_integer_kind operation_kind then
              left_fits ← fits l operation_kind;
              right_fits ← fits r operation_kind;
              if negb left_fits || negb right_fits then
                fail n "integer constant operand does not fit operation type"
              else
                v ←? eval_integer_arithmetic n op l r operation_kind;
                integer_constant_result n result_type operation_kind v
            else otherwise
        | _, _ => otherwise
        end
    | _, _ => fail n "constant operands have incompatible numeric types"
    end.

(** [case NODE_BINARY:], after both operands *)
Definition eval_const_binary (n right_node : Node) (op : TokenType) (left right : ConstValue)
    : M (option ConstValue) :=
  match op with
  | TOK_AND_AND | TOK_OR_OR => eval_const_logical n op left right
  | TOK_EQUAL_EQUAL | TOK_BANG_EQUAL | TOK_LESS | TOK_LESS_EQUAL | TOK_GREATER
  | TOK_GREATER_EQUAL => eval_const_comparison n op left right
  | TOK_AND | TOK_OR | TOK_XOR => eval_const_bitwise n op left right
  | TOK_SHIFT_LEFT | TOK_SHIFT_RIGHT => eval_const_shift n right_node op left right
  | TOK_PLUS | TOK_MINUS | TOK_STAR | TOK_SLASH | TOK_PERCENT =>
      eval_const_arithmetic n op left right
  | _ => fail n "operator not allowed in a constant expression"
  end.

(** ** Conversions *)

(** The value is copied and its type replaced; then it is checked to fit. *)
Definition try_coerce_constant_to_type (v : ConstValue) (target : TypePtr)
    : M (option ConstValue) :=
  require (bool_decide (is_Some target)) ;;
  k ← kind_of target;
  match k with
  | None => lift Aborted
  | Some k =>
      if is_integer_kind k then
        match const_value_as v with
        | CONST_VALUE_INT i =>
            ok ← fits i k;
            if (ok : bool) then result target (CONST_VALUE_INT i) else mret None
        | _ => mret None
        end
      else if is_float_kind k then
        match const_value_to_float_type v k with
        | Some d => result target (CONST_VALUE_FLOAT d)
        | None => mret None
        end
      else result target (const_value_as v)
  end.

Definition coerce_constant_to_type (n : Node) (v : ConstValue) (target : TypePtr)
    (integer_range_message float_range_message : string) : M (option ConstValue) :=
  converted ← try_coerce_constant_to_type v target;
  match converted with
  | Some converted => mret (Some converted)
  | None =>
      k ← kind_of target;
      fail n (if kind_is is_float_kind k then float_range_message else integer_range_message)
  end.

(** ** Target constants *)

Definition target_arch_value (a : TargetArch) : Z :=
  match a with TARGET_ARCH_X86_64 => 0 | TARGET_ARCH_AARCH64 => 1 end.
Definition target_os_value (o : TargetOs) : Z :=
  match o with TARGET_OS_LINUX => 0 | TARGET_OS_WINDOWS => 1 end.
Definition target_abi_value (a : TargetAbi) : Z :=
  match a with TARGET_ABI_SYSV => 0 | TARGET_ABI_WINDOWS => 1 end.

Definition target_value (config : TargetConfig) (object_name field_name : Text) : option Z :=
  let named s t := names_equal t (cstr s) in
  if named "target"%string object_name then
    if named "arch"%string field_name then Some (target_arch_value (arch config))
    else if named "os"%string field_name then Some (target_os_value (os config))
    else if named "abi"%string field_name then Some (target_abi_value (abi config))
    else None
  else if named "arch"%string object_name then
    if named "x86_64"%string field_name then Some (target_arch_value TARGET_ARCH_X86_64)
    else if named "aarch64"%string field_name then Some (target_arch_value TARGET_ARCH_AARCH64)
    else None
  else if named "os"%string object_name then
    if named "linux"%string field_name then Some (target_os_value TARGET_OS_LINUX)
    else if named "windows"%string field_name then Some (target_os_value TARGET_OS_WINDOWS)
    else None
  else if named "abi"%string object_name then
    if named "sysv"%string field_name then Some (target_abi_value TARGET_ABI_SYSV)
    else if named "windows"%string field_name then Some (target_abi_value TARGET_ABI_WINDOWS)
    else None
  else None.

Definition target_constant_value (n : Node) : M (option ConstValue) :=
  match as_of n with
  | Some (NODE_FIELD obj field_name _) =>
      match as_of obj with
      | Some (NODE_IDENT object_name) =>
          config ← get target_config;
          match target_value config object_name field_name with
          | None => mret None
          | Some v =>
              t ← builtin_type TYPE_U64;
              sem_record_expr_info obj t None VALUE_CATEGORY_RVALUE ;;
              result t (CONST_VALUE_INT (integer_value_make v false))
          end
      | _ => mret None
      end
  | _ => mret None
  end.

(** ** Builtin calls *)

Definition builtin_kind_name (k : BuiltinKind) : string :=
  match k with
  | BUILTIN_NONE => "<none>"
  | BUILTIN_WRAPPING_ADD => "wrapping_add"
  | BUILTIN_WRAPPING_SUB => "wrapping_sub"
  | BUILTIN_WRAPPING_MUL => "wrapping_mul"
  | BUILTIN_WRAPPING_NEG => "wrapping_neg"
  | BUILTIN_SIZE_OF => "size_of"
  | BUILTIN_ALIGN_OF => "align_of"
  | BUILTIN_SLICE => "slice"
  end.

Definition resolve_builtin_callee (callee : Node) : M (option Symbol) :=
  match as_of callee with
  | Some (NODE_IDENT name) =>
      found ← lookup_name name;
      match found with
      | Some (_, symbol) =>
          if negb (bool_decide (sym_kind symbol = SYMBOL_BUILTIN)) then mret None
          else assert_symbol_builtin_invariant symbol ;; mret (Some symbol)
      | None => mret None
      end
  | _ => mret None
  end.

Definition check_builtin_argument_count (call : Node) (builtin : Symbol)
    (expected_count actual_count : nat) : M bool :=
  require (bool_decide (sym_kind builtin = SYMBOL_BUILTIN)) ;;
  if (actual_count =? expected_count)%nat then mret true
  else
    semantic_error_fmt call
      ("wrong number of arguments to builtin '" ++ builtin_kind_name (sym_builtin builtin)
       ++ "': expected " ++ pretty expected_count ++ ", got " ++ pretty actual_count) ;;
    mret false.

(** A valid status comes with the result's type. *)
Inductive WrappingBuiltinTypeStatus : Set :=
| WRAPPING_BUILTIN_TYPE_VALID (result_type : TypePtr)
| WRAPPING_BUILTIN_TYPE_REQUIRES_CONCRETE_INTEGER
| WRAPPING_BUILTIN_TYPE_MISMATCHED_ARGUMENTS.

Definition has_concrete_integer_kind (ts : TypeStore) (p : TypePtr) : bool :=
  kind_satisfies ts is_concrete_integer_kind p.

Definition classify_wrapping_binary_types (ts : TypeStore) (left_type right_type : TypePtr)
    : WrappingBuiltinTypeStatus :=
  if negb (has_concrete_integer_kind ts left_type)
     || negb (has_concrete_integer_kind ts right_type)
  then WRAPPING_BUILTIN_TYPE_REQUIRES_CONCRETE_INTEGER
  else if negb (type_equal ts left_type right_type)
  then WRAPPING_BUILTIN_TYPE_MISMATCHED_ARGUMENTS
  else WRAPPING_BUILTIN_TYPE_VALID left_type.

Definition classify_wrapping_neg_type (ts : TypeStore) (argument_type : TypePtr)
    : WrappingBuiltinTypeStatus :=
  if negb (has_concrete_integer_kind ts argument_type)
  then WRAPPING_BUILTIN_TYPE_REQUIRES_CONCRETE_INTEGER
  else WRAPPING_BUILTIN_TYPE_VALID argument_type.

Definition report_wrapping_builtin_type_error (owner : Node) (builtin : Symbol)
    (status : WrappingBuiltinTypeStatus) : M unit :=
  require (bool_decide (sym_kind builtin = SYMBOL_BUILTIN)) ;;
  let name := ("builtin '" ++ builtin_kind_name (sym_builtin builtin) ++ "'")%string in
  match status with
  | WRAPPING_BUILTIN_TYPE_VALID _ => lift Aborted
  | WRAPPING_BUILTIN_TYPE_REQUIRES_CONCRETE_INTEGER =>
      if bool_decide (sym_builtin builtin = BUILTIN_WRAPPING_NEG)
      then semantic_error_fmt owner (name ++ " requires a concrete integer argument")
      else semantic_error_fmt owner (name ++ " requires concrete integer arguments")
  | WRAPPING_BUILTIN_TYPE_MISMATCHED_ARGUMENTS =>
      semantic_error_fmt owner (name ++ " requires arguments of the same integer type")
  end.

Definition internal_wrapping_message : string :=
  "internal error: could not evaluate wrapping integer builtin".

(** The call on its arguments' values. *)
Definition wrapping_binary_value (call : Node) (builtin : Symbol) (left right : ConstValue)
    : M (option ConstValue) :=
  left_type ← const_value_default_type left;
  right_type ← const_value_default_type right;
  ts ← get types;
  match classify_wrapping_binary_types ts left_type right_type with
  | WRAPPING_BUILTIN_TYPE_VALID result_type =>
      require (bool_decide (is_Some result_type)) ;;
      match const_value_as left, const_value_as right, option_map kind (deref ts result_type) with
      | CONST_VALUE_INT l, CONST_VALUE_INT r, Some k =>
          v ← lift (evaluate_wrapping_integer_binary (sym_builtin builtin) l r k);
          match v with
          | None => fail call internal_wrapping_message
          | Some v => integer_constant_result call result_type k v
          end
      | _, _, _ => lift Aborted
      end
  | status => report_wrapping_builtin_type_error call builtin status ;; mret None
  end.

(** The arguments are the computations [eval_const_expr(ctx, arguments.items[i], ...)]. *)
Definition eval_const_wrapping_binary_call (call : Node) (builtin : Symbol)
    (arguments : list (M (option ConstValue))) : M (option ConstValue) :=
  count_ok ← check_builtin_argument_count call builtin 2 (length arguments);
  match (count_ok : bool), arguments with
  | true, first :: second :: _ =>
      left ←? first;
      right ←? second;
      wrapping_binary_value call builtin left right
  | _, _ => mret None
  end.

Definition wrapping_neg_value (call : Node) (builtin : Symbol) (operand : ConstValue)
    : M (option ConstValue) :=
  operand_type ← const_value_default_type operand;
  ts ← get types;
  match classify_wrapping_neg_type ts operand_type with
  | WRAPPING_BUILTIN_TYPE_VALID result_type =>
      require (bool_decide (is_Some result_type)) ;;
      match const_value_as operand, option_map kind (deref ts result_type) with
      | CONST_VALUE_INT i, Some k =>
          v ← lift (evaluate_wrapping_integer_negation i k);
          match v with
          | None => fail call internal_wrapping_message
          | Some v => integer_constant_result call result_type k v
          end
      | _, _ => lift Aborted
      end
  | status => report_wrapping_builtin_type_error call builtin status ;; mret None
  end.

Definition eval_const_wrapping_neg_call (call : Node) (builtin : Symbol)
    (arguments : list (M (option ConstValue))) : M (option ConstValue) :=
  count_ok ← check_builtin_argument_count call builtin 1 (length arguments);
  match (count_ok : bool), arguments with
  | true, operand :: _ => operand ←? operand; wrapping_neg_value call builtin operand
  | _, _ => mret None
  end.

Definition not_constant {A} (n : Node) : M (option A) :=
  fail n "expression is not a compile-time constant".

Definition eval_const_builtin_call (call callee : Node) (arguments : list (M (option ConstValue)))
    : M (option ConstValue) :=
  builtin ← resolve_builtin_callee callee;
  match builtin with
  | None => not_constant call
  | Some builtin =>
      match sym_builtin builtin with
      | BUILTIN_WRAPPING_ADD | BUILTIN_WRAPPING_SUB | BUILTIN_WRAPPING_MUL =>
          eval_const_wrapping_binary_call call builtin arguments
      | BUILTIN_WRAPPING_NEG => eval_const_wrapping_neg_call call builtin arguments
      | BUILTIN_SIZE_OF | BUILTIN_ALIGN_OF =>
          info ← sem_find_expr_info call;
          match i ← info; builtin_layout_value i with
          | None => not_constant call
          | Some v =>
              t ← get type_usize;
              result t (CONST_VALUE_INT (integer_value_make v false))
          end
      | BUILTIN_SLICE => not_constant call
      | BUILTIN_NONE => lift Aborted
      end
  end.

Section Evaluator.
Context `{Checker} (check_const_decl : Node -> M unit).

(** ** Casts *)

Definition out_of_range_cast : string := "integer cast value does not fit in target type".

(** The conversion of a constant to the target's type. *)
Definition checked_cast_value (n : Node) (v : ConstValue) (target_type : TypePtr) (t : Type_)
    : M (option ConstValue) :=
  ts ← get types;
  let k := kind t in
  if is_raw_pointer_type ts target_type then
    match const_value_as v with
    | CONST_VALUE_NULL => result target_type CONST_VALUE_NULL
    | _ => fail n "pointer cast requires a null constant"
    end
  else if bool_decide (k = TYPE_ENUM) then
    match const_value_as v with
    | CONST_VALUE_INT i =>
        let unfit := fail n "enum cast value does not fit in backing type" in
        match deref ts (enum_backing_type t) with
        | None => unfit
        | Some backing =>
            ok ← fits i (kind backing);
            if negb ok then unfit
            else
              match find_enum_member_by_value (Some t) i with
              | None => semantic_error_fmt n
                          ("integer value is not a declared member of enum " ++ enum_name t) ;;
                        mret None
              | Some _ => result target_type (CONST_VALUE_INT i)
              end
        end
    | _ => fail n "enum cast requires an integer constant"
    end
  else if is_integer_kind k then
    require (is_concrete_integer_kind k) ;;
    match const_value_as v with
    | CONST_VALUE_INT i =>
        status ← lift (classify_checked_integer_cast i k);
        match status with
        | CHECKED_INTEGER_CAST_VALID => result target_type (CONST_VALUE_INT i)
        | CHECKED_INTEGER_CAST_OUT_OF_RANGE => fail n out_of_range_cast
        end
    | CONST_VALUE_FLOAT d =>
        status ← lift (classify_checked_float_to_integer_cast d k);
        match status with
        | CHECKED_FLOAT_TO_INTEGER_CAST_VALID i => result target_type (CONST_VALUE_INT i)
        | _ => fail n out_of_range_cast
        end
    | _ => fail n "integer cast requires numeric constant"
    end
  else if is_float_kind k then
    match const_value_to_float_type v k with
    | Some d => result target_type (CONST_VALUE_FLOAT d)
    | None => fail n "float cast value does not fit in target type"
    end
  else if bool_decide (k = TYPE_BOOL) then
    match const_value_as v with
    | CONST_VALUE_BOOL b => result target_type (CONST_VALUE_BOOL b)
    | _ => fail n "bool cast requires boolean constant"
    end
  else fail n "invalid constant cast".

(** The cast of a value, after [if (!eval_const_expr(...)) return 0;] *)
Definition checked_cast_of (n : Node) (v : ConstValue) (target : SourceType)
    : M (option ConstValue) :=
  target_type ← resolve_type target n;
  if negb (bool_decide (is_Some target_type)) then mret None
  else
    source_type ← const_value_default_type v;
    ts ← get types;
    if negb (is_allowed_explicit_cast ts target_type source_type) then
      fail n "invalid explicit cast"
    else
      match deref ts target_type with
      | None => lift Aborted
      | Some t => checked_cast_value n v target_type t
      end.

(** [operand] is the evaluation of the cast expression. *)
Definition eval_const_checked_cast (n : Node) (operand : M (option ConstValue))
    (target : SourceType) : M (option ConstValue) :=
  v ←? operand; checked_cast_of n v target.

Definition truncating_cast_of (n : Node) (v : ConstValue) (target : SourceType)
    : M (option ConstValue) :=
  target_type ← resolve_type target n;
  if negb (bool_decide (is_Some target_type)) then mret None
  else
    k ← kind_of target_type;
    match k with
    | Some k =>
        if negb (is_concrete_integer_kind k) then
          fail n "truncate target must be a concrete integer type"
        else
          match const_value_as v with
          | CONST_VALUE_INT i =>
              r ← lift (truncate_integer_value i k);
              match r with
              | None => fail n "could not evaluate truncating integer conversion"
              | Some r => result target_type (CONST_VALUE_INT r)
              end
          | _ => fail n "truncate source must be an integer"
          end
    | None => lift Aborted
    end.

Definition eval_const_truncating_cast (n : Node) (operand : M (option ConstValue))
    (target : SourceType) : M (option ConstValue) :=
  v ←? operand; truncating_cast_of n v target.

Definition eval_const_cast (n : Node) (kind : CastKind) (operand : M (option ConstValue))
    (target : SourceType) : M (option ConstValue) :=
  match kind with
  | CAST_CHECKED => eval_const_checked_cast n operand target
  | CAST_TRUNCATING => eval_const_truncating_cast n operand target
  | CAST_REINTERPRET => fail n "reinterpret is not a compile-time constant conversion"
  end.

(** ** Named constants *)

(** The declaration is checked in the module of its file. *)
Definition check_declaration_in_module (decl : Node) (id : option nat) : M bool :=
  source ← get current_source_id;
  module ← get current_module;
  scope ← get current_scope;
  semantic_select_source_module (file_id (span_of decl)) ;;
  check_const_decl decl ;;
  modify (set_place source module scope) ;;
  info ← sem_find_decl_info_by_id id;
  mret (match info with
        | Some i => semantic_check_complete i && bool_decide (is_Some (decl_constant_value i))
        | None => false
        end).

Definition ensure_constant_symbol_checked (symbol : Symbol) : M bool :=
  let is_const_decl n :=
    match as_of n with Some (NODE_CONST_DECL _ _ _) => true | _ => false end in
  match declaration symbol with
  | None => mret false
  | Some decl =>
      if negb (bool_decide (sym_kind symbol = SYMBOL_CONSTANT)) || negb (is_const_decl decl)
      then mret false
      else
        let id := declaration_id symbol in
        info ← sem_find_decl_info_by_id id;
        match id, info with
        | Some i, Some info =>
            if semantic_check_complete info then
              mret (bool_decide (is_Some (decl_constant_value info)))
            else if semantic_check_started info then
              semantic_error_name decl "cyclic constant definition" (sym_name symbol) ;;
              update_decl_info set_complete i ;;
              mret false
            else check_declaration_in_module decl id
        | _, _ => check_declaration_in_module decl id
        end
  end.

(** The value of a constant's symbol. *)
Definition constant_symbol_value (symbol : Symbol) : M (option ConstValue) :=
  checked ← ensure_constant_symbol_checked symbol;
  if negb checked then mret None
  else
    info ← sem_find_decl_info_by_id (declaration_id symbol);
    mret (i ← info; decl_constant_value i).

(** ** The evaluator *)

Definition eval_const_ident (n : Node) (name : Text) : M (option ConstValue) :=
  found ← lookup_name name;
  match found with
  | Some (_, symbol) =>
      if bool_decide (sym_kind symbol = SYMBOL_CONSTANT) then constant_symbol_value symbol
      else not_constant n
  | None => not_constant n
  end.

(** [Enum.member] where [Enum] is an identifier; the outer option says whether it is one. *)
Definition local_enum_member (n obj : Node) (name : Text) : M (option (option ConstValue)) :=
  match as_of obj with
  | Some (NODE_IDENT object_name) =>
      found ← lookup_name object_name;
      match found with
      | Some (_, symbol) =>
          t ← ask (fun ts => deref ts (sym_type symbol));
          if bool_decide (sym_kind symbol = SYMBOL_TYPE)
             && bool_decide (option_map kind t = Some TYPE_ENUM) then
            match find_enum_member t (str name) with
            | None => semantic_error_name n "unknown enum member" name ;; mret (Some None)
            | Some m => mret (Some (Some (mkConstValue (sym_type symbol) (CONST_VALUE_INT (em_value m)))))
            end
          else mret None
      | None => mret None
      end
  | _ => mret None
  end.

Definition qualified_constant (n : Node) : M (option ConstValue) :=
  qualified ← semantic_lookup_qualified_field_symbol n true;
  let '(symbol, recognized) := qualified in
  if negb recognized then not_constant n
  else
    symbol ← object symbols symbol;
    match symbol with
    | None => mret None
    | Some symbol =>
        if bool_decide (sym_kind symbol = SYMBOL_CONSTANT) then constant_symbol_value symbol
        else not_constant n
    end.

Definition eval_const_field (n obj : Node) (name : Text) : M (option ConstValue) :=
  target ← target_constant_value n;
  match target with
  | Some v => mret (Some v)
  | None =>
      qualified ← semantic_qualified_enum_member_no_diag n;
      match qualified with
      | Some (s, m) =>
          symbol ← object symbols (Some s);
          result (d ← symbol; sym_type d) (CONST_VALUE_INT (em_value m))
      | None =>
          member ← local_enum_member n obj name;
          match member with
          | Some r => mret r
          | None => qualified_constant n
          end
      end
  end.

(** The evaluation of a node is [eval_const_expr_impl]; [eval_const_expr] also records the
    value with the expression. *)
Definition cached (n : Node) (m : M (option ConstValue)) : M (option ConstValue) :=
  v ←? m; with_expr_info (set_expr_constant v) n ;; mret (Some v).

Fixpoint eval_const_expr_impl (n : Node) : M (option ConstValue) :=
  let eval_const_expr e := cached e (eval_const_expr_impl e) in
  match n with
  | NullNode => mret None
  | mkNode a _ _ =>
      match a with
      | NODE_NUMBER (LITERAL_FLOAT d) =>
          t ← new_type TYPE_UNTYPED_FLOAT; result t (CONST_VALUE_FLOAT (double_of d))
      | NODE_NUMBER (LITERAL_INTEGER i) =>
          let v := integer_value_make i false in
          t ← untyped_integer_type_for_value v; result t (CONST_VALUE_INT v)
      | NODE_BOOL b => boolean_result b
      | NODE_NULL => t ← builtin_type TYPE_NULL; result t CONST_VALUE_NULL
      | NODE_CAST kind target e => eval_const_cast n kind (eval_const_expr e) target
      | NODE_CALL callee _ arguments =>
          eval_const_builtin_call n callee (map eval_const_expr arguments)
      | NODE_IDENT name => eval_const_ident n name
      | NODE_FIELD obj name _ => eval_const_field n obj name
      | NODE_UNARY op e =>
          operand ←? eval_const_expr e;
          eval_const_unary n op operand
      | NODE_BINARY op l r =>
          left ←? eval_const_expr l;
          let both_operands :=
            right ←? eval_const_expr r;
            eval_const_binary n r op left right in
          if is_logical op then
            match const_value_as left with
            | CONST_VALUE_BOOL b =>
                if Bool.eqb b (deciding op) then boolean_result b else both_operands
            | _ => fail n "operands must be boolean constants"
            end
          else both_operands
      | _ => not_constant n
      end
  end.

Definition eval_const_expr (n : Node) : M (option ConstValue) :=
  cached n (eval_const_expr_impl n).

(** The same evaluator without diagnostics. *)
Definition try_eval_const_expr (n : Node) : M (option ConstValue) :=
  if bool_decide (n = NullNode) then mret None
  else
    saved ← get const_eval_silent;
    modify (set_const_eval_silent true) ;;
    r ← eval_const_expr_impl n;
    modify (set_const_eval_silent saved) ;;
    match r with
    | Some v => with_expr_info (set_expr_constant v) n ;; mret (Some v)
    | None => mret None
    end.

(** ** Uses of constants in the checks of expressions *)

Definition concretize_inferred_type (e : Node) (t : TypePtr) : M TypePtr :=
  ts ← get types;
  if is_null_type ts t then
    semantic_error e "cannot infer a concrete pointer type from null" ;; mret None
  else if negb (is_untyped_numeric_type ts t) then mret t
  else
    v ← eval_const_expr e;
    match v with
    | None =>
        semantic_error e "cannot infer a concrete type from a non-constant untyped expression" ;;
        mret None
    | Some v =>
        concrete ← default_concrete_type_for_constant v;
        if bool_decide (is_Some concrete) then
          sem_record_context_conversion_if_needed e concrete t ;; mret concrete
        else
          semantic_error e "could not determine a default concrete numeric type" ;; mret None
    end.

Definition check_constant_value_against_type (n : Node) (target : TypePtr)
    (integer_range_message float_range_message : string) : M bool :=
  v ← try_eval_const_expr n;
  match v with
  | None => mret true
  | Some v =>
      converted ← coerce_constant_to_type n v target integer_range_message float_range_message;
      mret (bool_decide (is_Some converted))
  end.

Definition binary_operands (n : Node) : Node * Node :=
  match as_of n with Some (NODE_BINARY _ l r) => (l, r) | _ => (NullNode, NullNode) end.

(** One operand of the loop of [check_binary_constant_operands]. *)
Definition check_untyped_operand (operand : Node) (operand_type operation_type : TypePtr)
    (integer_range_message float_range_message : string) : M bool :=
  untyped ← ask (fun ts => is_untyped_numeric_type ts operand_type);
  if negb untyped then mret true
  else
    ok ← check_constant_value_against_type operand operation_type
           integer_range_message float_range_message;
    if negb ok then mret false
    else
      sem_record_context_conversion_if_needed operand operation_type operand_type ;; mret true.

(** The second result is the new value of [*evaluated_type]; [None] leaves it. *)
Definition check_binary_constant_operands (n : Node) (left_type right_type operation_type : TypePtr)
    (integer_range_message float_range_message : string) : M (bool * TypePtr) :=
  let '(l, r) := binary_operands n in
  v ← try_eval_const_expr n;
  match v with
  | Some v => mret (true, const_value_type v)
  | None =>
      left_value ← try_eval_const_expr l;
      right_value ← match left_value with Some _ => try_eval_const_expr r | None => mret None end;
      whole ← match right_value with
              | Some _ => v ← eval_const_expr n; mret (bool_decide (is_Some v))
              | None => mret true
              end;
      if negb whole then mret (false, None)
      else
        left_ok ← check_untyped_operand l left_type operation_type
                    integer_range_message float_range_message;
        if negb left_ok then mret (false, None)
        else
          right_ok ← check_untyped_operand r right_type operation_type
                       integer_range_message float_range_message;
          mret (right_ok, None)
  end.

Definition check_known_integer_divisor (operation : TokenType) (divisor : Node)
    (operation_type : TypePtr) : M bool :=
  let is_division := bool_decide (operation = TOK_SLASH \/ operation = TOK_SLASH_EQUAL) in
  let is_remainder := bool_decide (operation = TOK_PERCENT \/ operation = TOK_PERCENT_EQUAL) in
  integer ← ask (fun ts => is_integer_type ts operation_type);
  if bool_decide (divisor = NullNode) || negb is_division && negb is_remainder || negb integer
  then mret true
  else
    v ← try_eval_const_expr divisor;
    match v with
    | None => mret true
    | Some _ =>
        v ← eval_const_expr divisor;
        match v with
        | None => mret false
        | Some v =>
            match const_value_as v with
            | CONST_VALUE_INT i =>
                if negb (magnitude i =? 0) then mret true
                else semantic_error divisor (if is_division then "division by zero"
                                             else "remainder by zero") ;; mret false
            | _ => mret true
            end
        end
    end.

Definition check_known_shift_count (count_node : Node) (left_type : TypePtr) : M bool :=
  k ← kind_of left_type;
  match k ≫= integer_kind_bit_width with
  | None => mret true
  | Some width =>
      if bool_decide (count_node = NullNode) then mret true
      else
        count ← try_eval_const_expr count_node;
        match count with
        | None => mret true
        | Some count =>
            let reject msg := semantic_error count_node msg ;; mret false in
            match const_value_as count with
            | CONST_VALUE_INT i =>
                match classify_shift_count i width with
                | SHIFT_COUNT_NEGATIVE => reject "shift count cannot be negative"%string
                | SHIFT_COUNT_OUT_OF_RANGE =>
                    reject "shift count must be less than left operand bit width"%string
                | SHIFT_COUNT_VALID _ => mret true
                end
            | _ => reject "shift count must be integer"%string
            end
        end
  end.

Definition expression_compile_time_bool_value (n : Node) : M (option bool) :=
  v ← try_eval_const_expr n;
  mret (match v with
        | Some v => match const_value_as v with CONST_VALUE_BOOL b => Some b | _ => None end
        | None => None
        end).

Definition expression_is_compile_time_true (n : Node) : M bool :=
  v ← expression_compile_time_bool_value n; mret (default false v).

(** The text of a string literal: [None] is the error of its escapes. *)
Definition check_string_escapes (n : Node) (literal : Text) (context : string) : M bool :=
  let info := string_analyze literal in
  if ok info then mret true
  else if bool_decide (invalid_escape info = NUL) then
    semantic_error n ("unterminated escape sequence in " ++ context) ;; mret false
  else
    semantic_error_fmt n ("invalid escape sequence '\" ++ String (invalid_escape info) ""
                          ++ "' in " ++ context) ;; mret false.

Definition check_static_assert_statement (n : Node) : M unit :=
  match as_of n with
  | Some (NODE_STATIC_ASSERT condition msg) =>
      condition_type ← check_value_expression condition;
      if negb (bool_decide (is_Some condition_type)) then mret tt
      else
        is_bool ← ask (fun ts => is_bool_type ts condition_type);
        if negb is_bool then
          semantic_error condition "static_assert condition must have type bool"
        else
          message_ok ← match msg with
            | None => mret true
            | Some m =>
                match as_of m with
                | Some (NODE_STRING literal) => check_string_escapes m literal "static_assert message"
                | _ => semantic_error m "static_assert message must be a string literal" ;;
                       mret false
                end
            end;
          if negb message_ok then mret tt
          else
            v ← eval_const_expr condition;
            match v with
            | None => mret tt
            | Some v =>
                match const_value_as v with
                | CONST_VALUE_BOOL true => mret tt
                | CONST_VALUE_BOOL false =>
                    match m ← msg; as_of m with
                    | Some (NODE_STRING literal) =>
                        if is_empty literal then semantic_error n "static assertion failed"
                        else semantic_error_fmt n ("static assertion failed: " ++ str literal)
                    | _ => semantic_error n "static assertion failed"
                    end
                | _ => semantic_error condition
                         "static_assert condition must be a boolean constant"
                end
            end
  | _ => lift Aborted
  end.

(** ** Constant declarations *)

Definition is_integer_zero_to_pointer (ts : TypeStore) (expected : TypePtr) (n : Node) : bool :=
  is_nullable_pointer_type ts expected
  && match as_of n with Some (NODE_NUMBER (LITERAL_INTEGER i)) => i =? 0 | _ => false end.

(** [semantic_error(...); return NULL;], for the steps of [check_const_decl] *)
Definition reject {A} (n : Node) (msg : string) : M (option A) := fail n msg.

(** The type and the value of a constant with a declared type. *)
Definition declared_constant (n value : Node) (const_type : SourceType) (v : ConstValue)
    (value_type : TypePtr) : M (option (TypePtr * ConstValue)) :=
  t ← resolve_type const_type n;
  ts ← get types;
  if negb (bool_decide (is_Some t)) then reject n "could not resolve constant type"
  else if invalid_value_type ts t then reject n "constant cannot have type void"
  else if negb (initializer_compatible ts t value_type) then
    if is_integer_zero_to_pointer ts t value then
      reject value "integer zero is not a pointer; use null"
    else reject n "constant value does not match declared type"
  else
    converted ←? coerce_constant_to_type value v t
      "constant integer value does not fit declared type"
      "constant floating-point value does not fit declared type";
    sem_record_context_conversion_if_needed value t value_type ;;
    mret (Some (t, converted)).

(** Those of a constant whose type is inferred. *)
Definition inferred_constant (n value : Node) (v : ConstValue) (value_type : TypePtr)
    : M (option (TypePtr * ConstValue)) :=
  null ← ask (fun ts => is_null_type ts value_type);
  if (null : bool) then reject value "cannot infer a concrete pointer type from null"
  else
    t ← const_value_default_type v;
    if bool_decide (is_Some t) then mret (Some (t, mkConstValue t (const_value_as v)))
    else reject n "could not infer constant type".

(** The value of a declaration, between the start of its check and its symbol. *)
Definition constant_definition (n value : Node) (const_type : option SourceType)
    : M (option (TypePtr * ConstValue)) :=
  v ←? eval_const_expr value;
  value_type ← check_value_expression value;
  if negb (bool_decide (is_Some value_type)) then mret None
  else
    match const_type with
    | Some t => declared_constant n value t v value_type
    | None => inferred_constant n value v value_type
    end.

(** The symbol: the predeclared one, or a new one in the current scope. *)
Definition define_constant (n : Node) (name : Text) (existing : option nat) (t : TypePtr)
    : M unit :=
  match existing with
  | None => scope_define_declared n name SYMBOL_CONSTANT t ;; mret tt
  | Some s =>
      symbol ← object symbols (Some s);
      require (bool_decide (option_map sym_kind symbol = Some SYMBOL_CONSTANT)) ;;
      require (bool_decide ((d ← symbol; sym_type d) = None)) ;;
      update_symbol (set_symbol_type t) s ;;
      sem_record_decl_info n t (Some s) ;; mret tt
  end.

Definition set_checked (v : ConstValue) (i : SemDeclInfo) : SemDeclInfo :=
  set_complete (set_started false (set_decl_constant v i)).

(** The end of the check: the symbol and the value are recorded, or the check may start again. *)
Definition finish_const_decl (n : Node) (name : Text) (existing : option nat) (i : nat)
    (definition : option (TypePtr * ConstValue)) : M unit :=
  match definition with
  | None => update_decl_info (set_started false) i
  | Some (t, v) =>
      define_constant n name existing t ;;
      j ← sem_find_decl_info n;
      match j with
      | None => lift Aborted
      | Some j => update_decl_info (set_checked v) j
      end
  end.

(** [check_const_decl]: the declarations that evaluation meets are checked by the argument of
    the section. *)
Definition check_const_decl_with (n : Node) : M unit :=
  match as_of n with
  | Some (NODE_CONST_DECL const_type name value) =>
      i ← sem_get_or_create_decl_info n;
      info ← sem_find_decl_info_by_id (Some i);
      match info with
      | None => lift Aborted
      | Some info =>
          if semantic_check_complete info then mret tt
          else if semantic_check_started info then
            semantic_error_name n "cyclic constant definition" name
          else
            existing ← get (fun c => s ← current_scope c; scope_find_local c s name);
            symbol ← object symbols existing;
            if bool_decide (is_Some existing)
               && negb (bool_decide ((d ← symbol; declaration d) = Some n)) then
              semantic_error_name n "duplicate declaration" name
            else
              update_decl_info (set_started true) i ;;
              definition ← constant_definition n value const_type;
              finish_const_decl n name existing i definition
      end
  | _ => lift Aborted
  end.
End Evaluator.

(** The checks nest at most as deep as there are declarations that are not being checked. *)
Fixpoint check_const_decl `{Checker} (fuel : nat) (n : Node) : M unit :=
  match fuel with
  | O => lift Aborted
  | S fuel => check_const_decl_with (check_const_decl fuel) n
  end.

Definition check_constant_declaration `{Checker} (n : Node) : M unit := fun c =>
  check_const_decl (S (S (length (decl_infos c)))) n c.

(** ** String initialisers *)

Definition check_string_initializer (expected : TypePtr) (initializer : Node) : M bool :=
  ts ← get types;
  let reject msg := semantic_error initializer msg ;; mret false in
  match deref ts expected, as_of initializer with
  | None, _ | _, None => mret false
  | Some t, Some (NODE_STRING literal) =>
      escapes_ok ← check_string_escapes initializer literal "string literal";
      if negb escapes_ok then mret false
      else if bool_decide (kind t = TYPE_SLICE) then
        if negb (is_u8_type ts (element t)) then
          reject "string literal slice destination must have element type u8"%string
        else if negb (bool_decide (pointer_access t = POINTER_ACCESS_READONLY)) then
          reject "string literal can only initialize readonly u8[]"%string
        else mret true
      else if negb (bool_decide (kind t = TYPE_ARRAY)) then
        reject "string literal requires a u8 array or readonly u8[] slice"%string
      else if negb (is_u8_type ts (element t)) then
        reject "string literal destination must be u8 array"%string
      else
        let required_size := to_int (Z.of_nat (decoded_length (string_analyze literal)) + 1) in
        if negb (array_size t =? required_size) then
          reject ("string literal requires destination array size " ++ pretty required_size
                  ++ ", got " ++ pretty (array_size t))%string
        else mret true
  | Some _, Some _ => reject "internal error: expected string literal"%string
  end.

(** ** Values for later phases *)

Definition semantic_get_constant_value (n : Node) : M (option ConstValue) :=
  info ← sem_find_expr_info n;
  match info with
  | Some (mkExprInfo _ t contextual _ _ _ _ _ (Some v) _) =>
      if bool_decide (is_Some contextual) then try_coerce_constant_to_type v contextual
      else if bool_decide (is_Some t) then mret (Some (mkConstValue t (const_value_as v)))
      else mret (Some v)
  | _ =>
      i ← sem_find_decl_info n;
      info ← object decl_infos i;
      mret (d ← info; decl_constant_value d)
  end.

Definition semantic_get_effective_expr_type (n : Node) : M TypePtr :=
  info ← sem_find_expr_info n;
  mret (match info with
        | None => None
        | Some i => if bool_decide (is_Some (contextual_type i)) then contextual_type i
                    else expr_type i
        end).
