(* ===== verification/ConstantFloat.v ===== *)
(** Floating-point constants: the values that the evaluator's operations produce, and the
    conversion of a [double] to an integer type. *)
From Stdlib Require Import SpecFloat.
From S2P Require Import Prelude Token Types IntegerValue TypeRelations Ast ConstantEvaluation.

(** ** Mantissas *)

(** The mantissa has at most [p] bits. *)
Definition mantissa_fits (p : Z) (d : spec_float) : Prop :=
  match d with S754_finite _ m _ => Zpos m < 2 ^ p | _ => True end.

Lemma digits2_bounds m : 2 ^ (Zpos (digits2_pos m) - 1) <= Zpos m < 2 ^ Zpos (digits2_pos m).
Proof.
  induction m as [m IH|m IH|]; cbn [digits2_pos]; [| |done];
    rewrite Pos2Z.inj_succ, Z.pow_succ_r, Z.sub_succ_l by lia;
    replace (Z.succ (Zpos (digits2_pos m) - 1)) with (Z.succ (Zpos (digits2_pos m) - 1)) by done;
    rewrite Z.pow_succ_r by (pose proof (Pos2Z.is_pos (digits2_pos m)); lia); lia.
Qed.

Lemma shr_1_half mrs : 0 <= shr_m mrs -> shr_m (shr_1 mrs) = shr_m mrs / 2.
Proof.
  destruct mrs as [[|m|m] r s]; cbn; [done| |lia]. intros _.
  destruct m; cbn; [|by rewrite Pos2Z.inj_xO, Z.mul_comm, Z.div_mul|done].
  rewrite Pos2Z.inj_xI. apply Z.div_unique with 1; lia.
Qed.

Lemma shr_iter n mrs : 0 <= shr_m mrs -> shr_m (SpecFloat.iter_pos shr_1 n mrs) = shr_m mrs / 2 ^ Zpos n.
Proof.
  revert mrs. induction n as [n IH|n IH|]; intros mrs Hm; cbn [SpecFloat.iter_pos].
  - assert (H1 : 0 <= shr_m (shr_1 mrs)) by (rewrite shr_1_half by done; apply Z.div_pos; lia).
    assert (H2 : 0 <= shr_m (SpecFloat.iter_pos shr_1 n (shr_1 mrs)))
      by (rewrite IH by done; apply Z.div_pos; lia).
    rewrite !IH, shr_1_half, !Z.div_div by lia. f_equal.
    replace (Zpos n~1) with (1 + Zpos n + Zpos n) by lia. rewrite !Z.pow_add_r by lia. lia.
  - assert (H2 : 0 <= shr_m (SpecFloat.iter_pos shr_1 n mrs)) by (rewrite IH by done; apply Z.div_pos; lia).
    rewrite !IH, Z.div_div by lia. f_equal.
    replace (Zpos n~0) with (Zpos n + Zpos n) by lia. rewrite Z.pow_add_r by lia. lia.
  - by apply shr_1_half.
Qed.

Lemma shr_m_of_loc m l : shr_m (shr_record_of_loc m l) = m.
Proof. by destruct l as [|[]]. Qed.

Section Rounding.
Context (prec emax : Z) (Hprec : 0 < prec).

(** Shifting to the format's exponent leaves at most [prec] bits. *)
Lemma shr_fexp_fits m e l :
  0 <= m -> 0 <= shr_m (shr_fexp prec emax m e l).1 < 2 ^ prec.
Proof using Hprec.
  intros Hm. unfold shr_fexp.
  assert (Hpos : 0 < 2 ^ prec) by (apply Z.pow_pos_nonneg; lia).
  set (n := fexp prec emax (Zdigits2 m + e) - e).
  assert (Hn : Zdigits2 m - prec <= n) by (subst n; unfold fexp; lia).
  assert (Hd : m < 2 ^ Zdigits2 m) by (destruct m; [cbn; lia|apply digits2_bounds|lia]).
  assert (H0 : 0 <= Zdigits2 m) by (destruct m; cbn; lia).
  destruct n as [|n|n]; cbn [shr fst];
    [rewrite shr_m_of_loc | rewrite shr_iter, shr_m_of_loc by (by rewrite shr_m_of_loc)
    | rewrite shr_m_of_loc].
  - split; [lia|]. eapply Z.lt_le_trans; [exact Hd|]. apply Z.pow_le_mono_r; lia.
  - split; [apply Z.div_pos; lia|]. apply Z.div_lt_upper_bound; [lia|].
    rewrite <- Z.pow_add_r by lia. eapply Z.lt_le_trans; [exact Hd|]. apply Z.pow_le_mono_r; lia.
  - split; [lia|]. eapply Z.lt_le_trans; [exact Hd|]. apply Z.pow_le_mono_r; lia.
Qed.

Lemma round_aux_fits s m e l : 0 <= m -> mantissa_fits prec (binary_round_aux prec emax s m e l).
Proof using Hprec.
  intros Hm. unfold binary_round_aux.
  pose proof (shr_fexp_fits m e l Hm) as H1. destruct (shr_fexp prec emax m e l) as [mrs e1].
  cbn in H1. set (x := round_nearest_even _ _).
  assert (Hx : 0 <= x).
  { subst x. unfold round_nearest_even. destruct (loc_of_shr_record mrs) as [|[]]; repeat case_match; lia. }
  pose proof (shr_fexp_fits x e1 loc_Exact Hx) as H2.
  destruct (shr_fexp prec emax x e1 loc_Exact) as [mrs2 e2]. cbn in H2.
  destruct (shr_m mrs2) as [|m'|m']; [done| |done].
  destruct (e2 <=? emax - prec); [|done]. apply H2.
Qed.

Lemma round_fits s m e : mantissa_fits prec (binary_round prec emax s m e).
Proof using Hprec. unfold binary_round. destruct (shl_align _ _ _). apply round_aux_fits; lia. Qed.

Lemma normalize_fits m e z : mantissa_fits prec (binary_normalize prec emax m e z).
Proof using Hprec. destruct m; [done|apply round_fits|apply round_fits]. Qed.

Lemma opp_fits d : mantissa_fits prec d -> mantissa_fits prec (SFopp d).
Proof. by destruct d. Qed.

(** The arithmetic of a format stays in the format. *)
Lemma operation_fits op f x y :
  float_operation prec emax op = Some f -> mantissa_fits prec x -> mantissa_fits prec y ->
  mantissa_fits prec (f x y).
Proof using Hprec.
  intros Hf Hx Hy. destruct op; try done; injection Hf as <-.
  - destruct x as [[]|[]| |], y as [[]|[]| |]; try done; apply normalize_fits.
  - destruct x as [[]|[]| |], y as [[]|[]| |]; try done; apply normalize_fits.
  - destruct x, y; try done. apply round_aux_fits; lia.
  - destruct x, y; try done. unfold SFdiv, SFdiv_core_binary.
    match goal with |- context [Z.div_eucl ?a ?b] =>
      pose proof (Z.div_pos a b) as Hq; unfold Z.div in Hq; destruct (Z.div_eucl a b) as [q r] end.
    apply round_aux_fits. apply Hq; [|done]. repeat case_match; try done.
    apply Z.shiftl_nonneg. lia.
Qed.
End Rounding.

Lemma to_f64_fits d : mantissa_fits 53 (to_f64 d).
Proof. destruct d; try done. by apply round_fits. Qed.

Lemma f64_of_Z_fits z : mantissa_fits 53 (f64_of_Z z).
Proof. by apply normalize_fits. Qed.

Lemma double_of_fits v : mantissa_fits 53 (double_of v).
Proof.
  unfold double_of. destruct (_ =? 0); [done|]. destruct (_ <=? _); [by apply normalize_fits|].
  destruct (quotient _ _). by apply normalize_fits.
Qed.

(** ** Single precision *)

(** A result of rounding to [float]. *)
Definition single_precision (d : spec_float) : Prop := exists x, d = to_f64 (to_f32 x).

Lemma round_opp prec emax s m e :
  SFopp (binary_round prec emax s m e) = binary_round prec emax (negb s) m e.
Proof.
  unfold binary_round, binary_round_aux. destruct (shl_align _ _ _) as [mz ez].
  destruct (shr_fexp _ _ (Zpos mz) _ _). destruct (shr_fexp _ _ _ _ _) as [mrs e2].
  destruct (shr_m mrs); try done. by case_match.
Qed.

Lemma single_of_Z z : 0 <= z ->
  exists x, f32_of_Z z = to_f32 x /\ SFopp (f32_of_Z z) = to_f32 (SFopp x).
Proof.
  intros Hz. destruct z as [|p|p]; [|exists (S754_finite false p 0)|lia].
  - exists (S754_zero false). done.
  - split; [done|]. cbn. apply round_opp.
Qed.

Lemma round_float_fits d k r :
  mantissa_fits 53 d -> round_float_for_type d k = Some r ->
  mantissa_fits 53 r /\ (k = TYPE_F32 -> single_precision r).
Proof.
  intros Hd Hr. destruct k; try done; cbn in Hr.
  - destruct (_ && _); [done|]. injection Hr as <-. split; [apply to_f64_fits|]. by eexists.
  - by injection Hr as <-.
  - by injection Hr as <-.
Qed.

Lemma const_float_fits v k d :
  (forall x, const_value_as v = CONST_VALUE_FLOAT x -> mantissa_fits 53 x) ->
  (forall i, const_value_as v = CONST_VALUE_INT i -> 0 <= magnitude i) ->
  const_value_to_float_type v k = Some d ->
  mantissa_fits 53 d /\ (k = TYPE_F32 -> single_precision d).
Proof.
  intros Hf Hi. unfold const_value_to_float_type. destruct (negb _); [done|].
  destruct (const_value_as v) as [i|x| |] eqn:Hv; try done.
  - specialize (Hi i eq_refl). case_bool_decide as Hk.
    + destruct (negb _); [done|]. intros [= <-]. split; [apply to_f64_fits|]. intros _.
      destruct (single_of_Z (magnitude i) Hi) as (x & H1 & H2).
      destruct (is_negative i); [exists (SFopp x); by rewrite H2 | exists x; by rewrite H1].
    + destruct (is_finite _); [|done]. intros [= <-]. split; [|done].
      unfold integer_value_to_double. pose proof (f64_of_Z_fits (magnitude i)).
      destruct (is_negative i); [by apply opp_fits|done].
  - apply round_float_fits. by apply Hf.
Qed.

(** ** Conversion to an integer type *)

(** The number a [double] stands for, without its fraction. *)
Definition integer_part (d : spec_float) : option Z :=
  match d with
  | S754_zero _ => Some 0
  | S754_finite s m e => let q := truncate_float d in Some (if s then - q else q)
  | S754_infinity _ | S754_nan => None
  end.

Lemma truncate_nonneg d : 0 <= truncate_float d.
Proof.
  destruct d as [| | |s m e]; cbn; try lia. destruct (Z.leb_spec 0 e).
  - apply Z.mul_nonneg_nonneg; [lia|]. apply Z.pow_nonneg. lia.
  - apply Z.div_pos; [lia|]. apply Z.pow_pos_nonneg; lia.
Qed.

Lemma f64_two64 : f64_of_Z (2 ^ 64) = S754_finite false 4503599627370496 12.
Proof. vm_compute. reflexivity. Qed.

(** The comparison with 2^64, of mantissas of 53 bits. *)
Lemma below_two64 m e :
  Zpos m < 2 ^ 53 -> SFleb (f64_of_Z (2 ^ 64)) (S754_finite false m e) = false ->
  truncate_float (S754_finite false m e) < 2 ^ 64.
Proof.
  intros Hm. rewrite f64_two64.
  unfold SFleb, SFcompare. destruct (Z.compare_spec 12 e) as [<-|Hlt|Hgt]; try done; intros Hle.
  - change (Pos.compare_cont Eq 4503599627370496 m) with (4503599627370496 ?= m)%positive in Hle.
    destruct (Pos.compare_spec 4503599627370496 m) as [|Hlt|Hgt]; try done.
    change (truncate_float _) with (Zpos m * 4096). change (2 ^ 64) with 18446744073709551616.
    assert (Hb : Zpos m < 4503599627370496) by (apply Pos2Z.pos_lt_pos; assumption).
    clear - Hb. lia.
  - cbn [truncate_float]. destruct (Z.leb_spec 0 e) as [He|He].
    + assert (2 ^ e <= 2 ^ 11) by (apply Z.pow_le_mono_r; lia).
      assert (0 < 2 ^ e) by (apply Z.pow_pos_nonneg; lia). nia.
    + apply Z.div_lt_upper_bound; [apply Z.pow_pos_nonneg; lia|].
      assert (1 <= 2 ^ (- e)) by (change 1 with (2 ^ 0); apply Z.pow_le_mono_r; lia). nia.
Qed.

(** The invariant of [double]: a normal number has all 53 bits. *)
Definition double_ok (d : spec_float) : Prop := valid_binary 53 1024 d = true.

Lemma double_mantissa s m e :
  double_ok (S754_finite s m e) -> Zpos m < 2 ^ 53 /\ (12 <= e -> 2 ^ 52 <= Zpos m).
Proof.
  unfold double_ok, valid_binary, bounded, canonical_mantissa, fexp, emin.
  intros [Hc _]%andb_true_iff. apply Z.eqb_eq in Hc. pose proof (digits2_bounds m) as [Hlo Hhi]. split.
  - eapply Z.lt_le_trans; [exact Hhi|]. apply Z.pow_le_mono_r; lia.
  - intros He. etrans; [|exact Hlo]. apply Z.pow_le_mono_r; lia.
Qed.

Lemma double_fits d : double_ok d -> mantissa_fits 53 d.
Proof. destruct d as [| | |s m e]; try done. by intros [? _]%double_mantissa. Qed.

Lemma above_two64 m e :
  double_ok (S754_finite false m e) -> SFleb (f64_of_Z (2 ^ 64)) (S754_finite false m e) = true ->
  2 ^ 64 <= truncate_float (S754_finite false m e).
Proof.
  intros Hd. pose proof (double_mantissa _ _ _ Hd) as [_ Hm].
  rewrite f64_two64.
  unfold SFleb, SFcompare. destruct (Z.compare_spec 12 e) as [<-|Hlt|Hgt]; try done; intros _.
  - specialize (Hm ltac:(lia)). change (2 ^ 52) with 4503599627370496 in Hm.
    change (truncate_float _) with (Zpos m * 4096). change (2 ^ 64) with 18446744073709551616.
    clear - Hm. lia.
  - specialize (Hm ltac:(lia)). cbn [truncate_float]. rewrite (proj2 (Z.leb_le 0 e)) by lia.
    assert (2 ^ 12 <= 2 ^ e) by (apply Z.pow_le_mono_r; lia). nia.
Qed.

Lemma classify_checked_integer_run v k info :
  integer_type_info k = Some info -> canonical v ->
  classify_checked_integer_cast v k
  = Returned (if bool_decide (in_range info (value_of v)) then CHECKED_INTEGER_CAST_VALID
              else CHECKED_INTEGER_CAST_OUT_OF_RANGE).
Proof.
  intros Hk Hv. unfold classify_checked_integer_cast.
  rewrite (concrete_kind k info), (fits_spec k info) by done. cbn. by destruct (bool_decide _).
Qed.

(** The magnitude of a finite number, and what the sign test says. *)
Lemma sign_test d :
  is_finite d = true ->
  (exists s, d = S754_zero s) \/
  exists m e, (d = S754_finite false m e /\ SFltb d (S754_zero false) = false)
              \/ (d = S754_finite true m e /\ SFltb d (S754_zero false) = true).
Proof. destruct d as [s| | |[] m e]; try done; intros _; [left|right|right]; eauto 10. Qed.

(** Whatever the float, the conversion returns, and a valid result fits the kind. *)
Lemma float_cast_returns d k :
  is_concrete_integer_kind k = true -> mantissa_fits 53 d ->
  exists r, classify_checked_float_to_integer_cast d k = Returned r /\
    match r with
    | CHECKED_FLOAT_TO_INTEGER_CAST_VALID v =>
        canonical v /\ integer_value_fits_type v k = Returned true
    | _ => True
    end.
Proof.
  intros Hk Hd. unfold classify_checked_float_to_integer_cast. rewrite Hk. cbn.
  apply bool_decide_eq_true in Hk as [info Hk].
  destruct (is_finite d) eqn:Hfin; [|by eexists]. cbn.
  set (neg := SFltb d (S754_zero false)). set (mag := if neg then SFopp d else d).
  destruct (SFleb (f64_of_Z (2 ^ 64)) mag) eqn:Hle; [by eexists|].
  assert (Hb : 0 <= truncate_float mag < 2 ^ 64).
  { split; [apply truncate_nonneg|]. subst mag neg.
    destruct (sign_test d Hfin) as [[s ->] | (m & e & [[-> Hs]|[-> Hs]])]; [done| |];
      rewrite Hs in *; by apply below_two64. }
  assert (Hc : canonical (integer_value_make (truncate_float mag) neg)).
  { rewrite make_of_value by lia. apply of_value_canonical. destruct neg; lia. }
  rewrite (classify_checked_integer_run _ k info) by done. cbn.
  destruct (bool_decide _) eqn:Hr; [|by eexists]. eexists. split; [done|]. split; [done|].
  rewrite (fits_spec k info) by done. by rewrite Hr.
Qed.


