(* ===== verification/ConstantInvariant.v ===== *)
(** What holds of a context while constants are evaluated, and what an evaluation may change.

    [context_ok] is the invariant: the builtin types are in place, every recorded constant has
    a value of its type, and every symbol of a constant has its declaration.  [extends] is what
    an evaluation may do to the context: it creates types, records values, completes the check
    of declarations and reports errors, and leaves the rest as it is.  [evaluates] is the
    triple that the rules below compose. *)
From Stdlib Require Import SpecFloat.
From S2P Require Import Prelude Token Types Source Lexer IntegerValue TypeRelations Target FlowState Ast SemContext Modules ConstantEvaluation ConstantFloat.

(** ** Values of a type *)

(** The type and range of an integer: fits as the evaluator decides it. *)
Definition int_fits (k : TypeKind) (i : IntegerValue) : Prop :=
  integer_value_fits_type i k = Returned true.

Definition admits (ts : TypeStore) (p : TypePtr) (a : ConstValueAs) : Prop :=
  exists t, deref ts p = Some t /\
  match a with
  | CONST_VALUE_INT i =>
      canonical i /\
      (kind t = TYPE_ENUM /\ (exists m, m ∈ enum_members t /\ em_value m = i)
       \/ is_integer_kind (kind t) = true /\ int_fits (kind t) i)
  | CONST_VALUE_FLOAT d =>
      is_float_kind (kind t) = true /\ mantissa_fits 53 d
      /\ (kind t = TYPE_F32 -> single_precision d)
  | CONST_VALUE_BOOL _ => kind t = TYPE_BOOL
  | CONST_VALUE_NULL => kind t = TYPE_NULL \/ is_nullable_pointer_type ts p = true
  end.

(** A type of a builtin kind is the builtin type of that kind. *)
Definition canonical_type (c : SemanticContext) (p : TypePtr) : Prop :=
  exists t, deref (types c) p = Some t
            /\ (kind t ∈ builtin_kinds -> builtin_types c (kind t) = p).

Definition value_ok (c : SemanticContext) (v : ConstValue) : Prop :=
  canonical_type c (const_value_type v) /\ admits (types c) (const_value_type v) (const_value_as v).

(** ** Declarations *)

Definition constant_name (n : Node) : option Text :=
  match as_of n with Some (NODE_CONST_DECL _ name _) => Some name | _ => None end.

(** A constant with a symbol whose check can still start. *)
Definition pending (d : SemDeclInfo) : bool :=
  bool_decide (is_Some (constant_name (decl_node d))) && bool_decide (is_Some (decl_symbol d))
  && negb (semantic_check_started d) && negb (semantic_check_complete d).

Definition pending_count (c : SemanticContext) : nat :=
  length (List.filter pending (decl_infos c)).

(** The entry of a file, as [semantic_select_source_module] finds it. *)
Definition file_entry (c : SemanticContext) (id : Z) : option SemanticSourceModule :=
  if id =? SOURCE_FILE_ID_INVALID then None
  else i ← find_position (fun s => source_id s =? id) (source_modules c); source_modules c !! i.

Definition file_module (c : SemanticContext) (id : Z) : option SemanticModule :=
  e ← file_entry c id; m ← source_module e; modules c !! m.

(** The symbol is found by its name in the module of the declaration's file. *)
Definition predeclared (c : SemanticContext) (s : nat) (name : Text) (n : Node) : Prop :=
  exists md, file_module c (file_id (span_of n)) = Some md
             /\ scope_find_local c (module_scope md) name = Some s.

Record constant_symbol_ok (c : SemanticContext) (s : nat) (sym : Symbol) (n : Node) (i : nat)
    (d : SemDeclInfo) : Prop := {
  symbol_declares : declaration sym = Some n;
  symbol_constant_name : constant_name n = Some (sym_name sym);
  symbol_id : declaration_id sym = Some i;
  symbol_info : decl_infos c !! i = Some d;
  symbol_info_node : decl_node d = n;
  symbol_info_symbol : decl_symbol d = Some s;
  symbol_predeclared : semantic_check_complete d = false -> predeclared c s (sym_name sym) n;
  symbol_checked : is_Some (decl_constant_value d) -> semantic_check_complete d = true;
  symbol_unchecked : decl_constant_value d = None -> sym_type sym = None /\ decl_type d = None;
}.

Record symbol_ok (c : SemanticContext) (s : nat) (sym : Symbol) : Prop := {
  symbol_builtin : sym_kind sym = SYMBOL_BUILTIN -> sym_builtin sym <> BUILTIN_NONE /\ sym_type sym = None;
  symbol_constant : sym_kind sym = SYMBOL_CONSTANT -> exists n i d, constant_symbol_ok c s sym n i d;
  symbol_of_constant : forall n name, declaration sym = Some n -> constant_name n = Some name ->
    sym_kind sym = SYMBOL_CONSTANT;
}.

Record context_ok (c : SemanticContext) : Prop := {
  ok_builtin : forall k, k ∈ builtin_kinds -> has_kind (types c) (builtin_types c k) k = true;
  ok_usize : canonical_type c (type_usize c)
             /\ has_concrete_integer_kind (types c) (type_usize c) = true;
  ok_layout : forall e v, e ∈ expr_infos c -> builtin_layout_value e = Some v ->
    admits (types c) (type_usize c) (CONST_VALUE_INT (integer_value_make v false));
  ok_enums : forall i t m, types c !! i = Some t -> m ∈ enum_members t -> canonical (em_value m);
  ok_values : forall i d v, decl_infos c !! i = Some d -> decl_constant_value d = Some v ->
    value_ok c v;
  ok_scopes : forall i sc s, scopes c !! i = Some sc -> s ∈ scope_symbols sc ->
    is_Some (symbols c !! s);
  ok_nodes : NoDup (map decl_node (decl_infos c));
  ok_symbols : forall s sym, symbols c !! s = Some sym -> symbol_ok c s sym;
}.

(** An error was reported for every constant whose check ended without a value. *)
Definition honest (c : SemanticContext) : Prop :=
  const_eval_silent c = true \/
  forall i d, decl_infos c !! i = Some d -> semantic_check_complete d = true ->
    decl_constant_value d = None -> (0 < error_count c)%nat.

(** The user is told. *)
Definition reported (c : SemanticContext) : Prop :=
  honest c -> const_eval_silent c = true \/ (0 < error_count c)%nat.

(** ** What an evaluation changes *)

Record info_extends (d d' : SemDeclInfo) : Prop := {
  info_node : decl_node d' = decl_node d;
  info_symbol : decl_symbol d' = decl_symbol d;
  info_exported : is_exported d' = is_exported d;
  info_started : semantic_check_started d' = semantic_check_started d;
  info_complete : semantic_check_complete d = true -> semantic_check_complete d' = true;
  info_value : forall v, decl_constant_value d = Some v -> decl_constant_value d' = Some v;
  info_type : forall i, decl_type d = Some i -> decl_type d' = Some i;
  info_busy : semantic_check_started d = true ->
    decl_constant_value d' = decl_constant_value d /\ decl_type d' = decl_type d;
}.

Record symbol_extends (c : SemanticContext) (sym sym' : Symbol) : Prop := {
  extends_name : sym_name sym' = sym_name sym;
  extends_kind : sym_kind sym' = sym_kind sym;
  extends_builtin : sym_builtin sym' = sym_builtin sym;
  extends_declaration : declaration sym' = declaration sym;
  extends_id : declaration_id sym' = declaration_id sym;
  extends_type : forall i, sym_type sym = Some i -> sym_type sym' = Some i;
  extends_busy : forall i d, declaration_id sym = Some i -> decl_infos c !! i = Some d ->
    semantic_check_started d = true -> sym_type sym' = sym_type sym;
}.

Record extends (c c' : SemanticContext) : Prop := {
  extends_types : types c `prefix_of` types c';
  extends_builtins : builtin_types c' = builtin_types c;
  extends_usize : type_usize c' = type_usize c;
  extends_config : target_config c' = target_config c;
  extends_scopes : scopes c' = scopes c;
  extends_scope : current_scope c' = current_scope c;
  extends_modules : modules c' = modules c;
  extends_module : current_module c' = current_module c;
  extends_sources : source_modules c' = source_modules c;
  extends_source : current_source_id c' = current_source_id c;
  extends_silent : const_eval_silent c' = const_eval_silent c;
  extends_symbols : forall s sym, symbols c !! s = Some sym ->
    exists sym', symbols c' !! s = Some sym' /\ symbol_extends c sym sym';
  extends_infos : forall i d, decl_infos c !! i = Some d ->
    exists d', decl_infos c' !! i = Some d' /\ info_extends d d';
  extends_new : forall i d, (length (decl_infos c) <= i)%nat -> decl_infos c' !! i = Some d ->
    pending d = false;
  extends_errors : (error_count c <= error_count c')%nat;
  extends_quiet : const_eval_silent c = true ->
    diagnostics c' = diagnostics c /\ error_count c' = error_count c;
}.

(** ** Composition *)

Lemma info_extends_refl d : info_extends d d.
Proof. by constructor. Qed.

Lemma info_extends_trans d1 d2 d3 : info_extends d1 d2 -> info_extends d2 d3 -> info_extends d1 d3.
Proof.
  intros [] []. constructor; try congruence; auto.
  intros Hs. destruct info_busy0 as [? ?]; [done|]. destruct info_busy1 as [? ?]; [congruence|].
  split; congruence.
Qed.

Lemma symbol_extends_refl c s : symbol_extends c s s.
Proof. by constructor. Qed.

Lemma extends_refl c : extends c c.
Proof.
  constructor; eauto using info_extends_refl, symbol_extends_refl.
  intros i d Hi Hd. apply lookup_lt_Some in Hd. lia.
Qed.

Lemma pending_extends d d' : info_extends d d' -> pending d = false -> pending d' = false.
Proof.
  intros [] Hp. unfold pending in *. rewrite info_node0, info_symbol0, info_started0.
  destruct (semantic_check_complete d) eqn:Hc; [by rewrite info_complete0, andb_false_r|].
  rewrite andb_true_r in Hp. by rewrite Hp.
Qed.

Lemma extends_trans c1 c2 c3 : extends c1 c2 -> extends c2 c3 -> extends c1 c3.
Proof.
  intros H12 H23. destruct H12, H23. constructor; try congruence.
  - by etrans.
  - intros s sym Hs. destruct (extends_symbols0 s sym Hs) as (sym2 & H2 & E2).
    destruct (extends_symbols1 s sym2 H2) as (sym3 & H3 & E3). exists sym3. split; [done|].
    pose proof (extends_busy _ _ _ E2) as B2. pose proof (extends_busy _ _ _ E3) as B3.
    destruct E2, E3. constructor; try congruence; auto.
    intros i d Hi Hd Hst. destruct (extends_infos0 i d Hd) as (d2 & Hd2 & Ed2).
    transitivity (sym_type sym2); [|by eapply B2].
    eapply B3; [|done|]; [congruence|]. by rewrite (info_started _ _ Ed2).
  - intros i d Hi. destruct (extends_infos0 i d Hi) as (d2 & H2 & E2).
    destruct (extends_infos1 i d2 H2) as (d3 & H3 & E3). eauto using info_extends_trans.
  - intros i d Hi Hd. destruct (decide (length (decl_infos c2) <= i)%nat) as [|Hlt]; [eauto|].
    destruct (lookup_lt_is_Some_2 (decl_infos c2) i ltac:(lia)) as [d2 H2].
    destruct (extends_infos1 i d2 H2) as (d3 & H3 & E3). simplify_eq.
    eauto using pending_extends.
  - lia.
  - intros Hq. destruct (extends_quiet0 Hq), extends_quiet1; [congruence|]. split; congruence.
Qed.

#[global] Instance extends_preorder : PreOrder extends.
Proof. split; [exact extends_refl | exact extends_trans]. Qed.

(** Fewer declarations are pending afterwards. *)
Lemma filter_length_le {A} (f : A -> bool) (l l' : list A) :
  (forall i x', l' !! i = Some x' -> f x' = true -> exists x, l !! i = Some x /\ f x = true) ->
  (length (List.filter f l') <= length (List.filter f l))%nat.
Proof.
  revert l. induction l' as [|x' l' IH]; intros l H; simpl; [lia|].
  destruct l as [|x l].
  - destruct (f x') eqn:Hf; [by destruct (H 0%nat x') as (? & ? & ?)|].
    apply (IH []). intros i y Hy Hfy. destruct (H (S i) y Hy Hfy) as (? & ? & ?). done.
  - assert (IH' := IH l (fun i => H (S i))). simpl.
    destruct (f x') eqn:Hf.
    + destruct (H 0%nat x' eq_refl Hf) as (y & [= ->] & ->). simpl. lia.
    + destruct (f x); simpl; lia.
Qed.

Lemma pending_extends_count c c' : extends c c' -> (pending_count c' <= pending_count c)%nat.
Proof.
  intros He. apply filter_length_le. intros i d' Hd' Hp.
  destruct (decide (length (decl_infos c) <= i)%nat) as [Hle|Hlt].
  - by rewrite (extends_new _ _ He i d') in Hp.
  - destruct (lookup_lt_is_Some_2 (decl_infos c) i ltac:(lia)) as [d Hd]. exists d. split; [done|].
    destruct (extends_infos _ _ He i d Hd) as (d2 & H2 & E2). simplify_eq.
    destruct (pending d) eqn:Hpd; [done|]. by rewrite (pending_extends d d') in Hp.
Qed.

(** ** What extension preserves *)

Section Extension.
Context (c c' : SemanticContext) (He : extends c c').

Lemma deref_extends p t : deref (types c) p = Some t -> deref (types c') p = Some t.
Proof using He.
  destruct p as [i|]; [|done]. cbn. intros Hi.
  eapply prefix_lookup_Some; [exact Hi|]. apply He.
Qed.

Lemma has_kind_extends p k : has_kind (types c) p k = true -> has_kind (types c') p k = true.
Proof using He.
  unfold has_kind. destruct (deref (types c) p) as [t|] eqn:Ht; [|done].
  by rewrite (deref_extends p t).
Qed.

Lemma kind_satisfies_extends f p :
  kind_satisfies (types c) f p = true -> kind_satisfies (types c') f p = true.
Proof using He.
  unfold kind_satisfies. destruct (deref (types c) p) as [t|] eqn:Ht; [|done].
  by rewrite (deref_extends p t).
Qed.

Lemma nullable_extends p :
  is_nullable_pointer_type (types c) p = true -> is_nullable_pointer_type (types c') p = true.
Proof using He.
  unfold is_nullable_pointer_type, is_raw_pointer_type, is_typed_pointer_type,
    is_opaque_pointer_type, is_c_function_pointer_type, has_kind.
  destruct (deref (types c) p) as [t|] eqn:Ht; [|done]. by rewrite (deref_extends p t).
Qed.

Lemma admits_extends p a : admits (types c) p a -> admits (types c') p a.
Proof using He.
  intros (t & Ht & Ha). exists t. split; [by apply deref_extends|].
  destruct a; try done. destruct Ha as [Ha|Ha]; [by left | right; by apply nullable_extends].
Qed.

Lemma canonical_extends p : canonical_type c p -> canonical_type c' p.
Proof using He.
  intros (t & Ht & Hb). exists t. split; [by apply deref_extends|].
  by rewrite (extends_builtins _ _ He).
Qed.

Lemma value_extends v : value_ok c v -> value_ok c' v.
Proof using He. intros [? ?]. split; eauto using canonical_extends, admits_extends. Qed.

Hypothesis Hc : context_ok c.

Lemma has_name_extends name s : is_Some (symbols c !! s) -> has_name c' name s = has_name c name s.
Proof using He.
  intros [sym Hs]. unfold has_name. destruct (extends_symbols _ _ He s sym Hs) as (sym' & -> & E).
  by rewrite Hs, (extends_name _ _ _ E).
Qed.

Lemma find_ext_in {A} (f g : A -> bool) l :
  (forall x, x ∈ l -> f x = g x) -> List.find f l = List.find g l.
Proof.
  induction l as [|x l IH]; intros H; [done|]. cbn. rewrite (H x) by left.
  rewrite IH by (intros; apply H; by right). done.
Qed.

Lemma find_local_extends scope name : scope_find_local c' scope name = scope_find_local c scope name.
Proof using He Hc.
  unfold scope_find_local. rewrite (extends_scopes _ _ He).
  destruct (scopes c !! scope) as [sc|] eqn:Hsc; [|done].
  apply find_ext_in. intros s Hs. apply has_name_extends. by eapply ok_scopes.
Qed.

Lemma file_module_extends id : file_module c' id = file_module c id.
Proof using He.
  unfold file_module, file_entry. by rewrite (extends_sources _ _ He), (extends_modules _ _ He).
Qed.

Lemma predeclared_extends s name n : predeclared c s name n -> predeclared c' s name n.
Proof using He Hc.
  intros (md & Hf & Hs). exists md. by rewrite file_module_extends, find_local_extends.
Qed.
End Extension.

#[export] Hint Resolve deref_extends has_kind_extends kind_satisfies_extends nullable_extends
  admits_extends canonical_extends value_extends : coglet.

(** ** Triples *)

(** [m] returns from [c], keeps the invariant, changes only what it may, and its result and
    the final context satisfy [Q]. *)
Definition evaluates {A} (c : SemanticContext) (m : M A) (Q : A -> SemanticContext -> Prop) : Prop :=
  exists a c', m c = Returned (a, c') /\ context_ok c' /\ extends c c'
               /\ (honest c -> honest c') /\ Q a c'.

(** The postcondition of a function that returns 0 only with an error. *)
Definition succeeds {A} (P : A -> SemanticContext -> Prop) (o : option A) (c : SemanticContext)
    : Prop :=
  match o with Some a => P a c | None => reported c end.

Lemma evaluates_ret {A} c (a : A) Q : context_ok c -> Q a c -> evaluates c (mret a) Q.
Proof. intros Hc H. exists a, c. split_and!; try done. Qed.

Lemma evaluates_bind {A B} c (m : M A) (k : A -> M B) P Q :
  evaluates c m P ->
  (forall a c', context_ok c' -> extends c c' -> P a c' -> evaluates c' (k a) Q) ->
  evaluates c (a ← m; k a) Q.
Proof.
  intros (a & c1 & Hm & Hc1 & E1 & H1 & HP) Hk.
  destruct (Hk a c1 Hc1 E1 HP) as (b & c2 & Hb & Hc2 & E2 & H2 & HQ).
  exists b, c2. unfold mbind, M_bind. rewrite Hm. split_and!; auto. by etrans.
Qed.

Lemma evaluates_try {A B} c (m : M (option A)) (k : A -> M (option B)) P Q :
  evaluates c m (succeeds P) ->
  (forall a c', context_ok c' -> extends c c' -> P a c' -> evaluates c' (k a) (succeeds Q)) ->
  evaluates c (a ←? m; k a) (succeeds Q).
Proof.
  intros Hm Hk. unfold try_bind. eapply evaluates_bind; [done|].
  intros [a|] c' Hc' He HP; [by apply Hk|]. by apply evaluates_ret.
Qed.

Lemma evaluates_mono {A} c (m : M A) (P Q : A -> SemanticContext -> Prop) :
  evaluates c m P -> (forall a c', context_ok c' -> extends c c' -> P a c' -> Q a c') ->
  evaluates c m Q.
Proof. intros (a & c' & ? & ? & ? & ? & ?) HPQ. exists a, c'. eauto 8. Qed.

(** A step that only looks. *)
Lemma evaluates_get {A B} c (f : SemanticContext -> A) (k : A -> M B) Q :
  evaluates c (k (f c)) Q -> evaluates c (a ← get f; k a) Q.
Proof. done. Qed.

Lemma evaluates_lift {A B} c (m : outcome A) (a : A) (k : A -> M B) Q :
  m = Returned a -> evaluates c (k a) Q -> evaluates c (x ← lift m; k x) Q.
Proof. intros ->. done. Qed.

Lemma evaluates_require {B} c (b : bool) (k : M B) Q :
  b = true -> evaluates c k Q -> evaluates c (require b ;; k) Q.
Proof. intros ->. done. Qed.

(** A step that returns and leaves the context alone. *)
Lemma evaluates_pure {A B} c (m : M A) (a : A) (k : A -> M B) Q :
  m c = Returned (a, c) -> evaluates c (k a) Q -> evaluates c (x ← m; k x) Q.
Proof. intros Hm Hk. unfold evaluates, mbind, M_bind. by rewrite Hm. Qed.

(** ** Single steps *)

(** A step that leaves declarations and symbols alone. *)
Lemma context_ok_update c c' :
  context_ok c -> extends c c' -> decl_infos c' = decl_infos c -> symbols c' = symbols c ->
  (forall e v, e ∈ expr_infos c' -> builtin_layout_value e = Some v ->
     exists e0, e0 ∈ expr_infos c /\ builtin_layout_value e0 = Some v) ->
  (forall i t m, types c' !! i = Some t -> m ∈ enum_members t ->
     types c !! i = Some t \/ canonical (em_value m)) ->
  context_ok c'.
Proof.
  intros Hc He Hd Hs Hl Ht. pose proof (extends_builtins _ _ He) as Hb.
  pose proof (extends_usize _ _ He) as Hu. constructor.
  - intros k Hk. rewrite Hb. eapply has_kind_extends; [done|]. by apply (ok_builtin c).
  - destruct (ok_usize c Hc). rewrite Hu. split; [by eapply canonical_extends|].
    unfold has_concrete_integer_kind in *. by eapply kind_satisfies_extends.
  - intros e v He' Hv. destruct (Hl e v He' Hv) as (e0 & H0 & Hv0). rewrite Hu.
    eapply admits_extends; [done|]. by eapply (ok_layout c).
  - intros i t m Hi Hm. destruct (Ht i t m Hi Hm) as [H|H]; [by eapply (ok_enums c)|done].
  - intros i d v Hi Hv. rewrite Hd in Hi. eapply value_extends; [done|]. by eapply (ok_values c).
  - intros i sc s. rewrite (extends_scopes _ _ He), Hs. by apply (ok_scopes c).
  - rewrite Hd. apply Hc.
  - intros s sym. rewrite Hs. intros Hsym. destruct (ok_symbols c Hc s sym Hsym) as [H1 H2 H3].
    constructor; [done| |done]. intros Hk. destruct (H2 Hk) as (n & i & d & []). exists n, i, d.
    constructor; rewrite ?Hd; try done. intros Hcomp. eapply predeclared_extends; eauto.
Qed.

Ltac extends_easy :=
  constructor; cbn; intros; try done; try lia;
  eauto using info_extends_refl, symbol_extends_refl;
  try (match goal with H : _ !! _ = Some _ |- _ => apply lookup_lt_Some in H; lia end).

Lemma extends_error n msg c :
  exists c', semantic_error n msg c = Returned (tt, c') /\ extends c c'
    /\ decl_infos c' = decl_infos c /\ symbols c' = symbols c /\ expr_infos c' = expr_infos c
    /\ types c' = types c /\ (const_eval_silent c' = true \/ (0 < error_count c')%nat).
Proof.
  unfold semantic_error, modify. destruct (const_eval_silent c) eqn:Hs.
  - exists c. split_and!; try done. by left.
  - eexists. split; [done|]. split; [extends_easy; congruence|]. cbn. split_and!; try done. right. lia.
Qed.

Lemma evaluates_error n msg c :
  context_ok c -> evaluates c (semantic_error n msg) (fun _ => reported).
Proof.
  intros Hc. destruct (extends_error n msg c) as (c' & Hm & He & Hd & Hs & Hx & Ht & Hr).
  exists tt, c'. split_and!; try done.
  - eapply context_ok_update; eauto.
    + intros e v. rewrite Hx. eauto.
    + intros i t m. rewrite Ht. by left.
  - intros [Hh|Hh]; [left; by rewrite (extends_silent _ _ He)|].
    right. intros i d. rewrite Hd. intros Hi Hcomp Hv. pose proof (extends_errors _ _ He).
    specialize (Hh i d Hi Hcomp Hv). lia.
  - intros ?. exact Hr.
Qed.

Lemma evaluates_fail {A} n msg c (P : A -> SemanticContext -> Prop) :
  context_ok c -> evaluates c (fail n msg) (succeeds P).
Proof.
  intros Hc. unfold fail. eapply evaluates_bind; [by apply evaluates_error|].
  intros [] c' Hc' _ Hr. by apply evaluates_ret.
Qed.

Lemma evaluates_add_type t c :
  context_ok c -> enum_members t = [] ->
  evaluates c (add_type t) (fun p c' => deref (types c') p = Some t).
Proof.
  intros Hc Ht. assert (He : extends c (set_types (types c ++ [t]) c)).
  { extends_easy. apply prefix_app_r. reflexivity. }
  eexists _, _. split; [done|]. split_and!; try done.
  - eapply context_ok_update; [done|exact He|done|done|eauto|].
    intros i t' m Hi Hm. cbn in Hi. apply lookup_app_Some in Hi as [Hi|[_ Hi]]; [by left|].
    apply list_lookup_singleton_Some in Hi as [_ <-]. rewrite Ht in Hm. by apply elem_of_nil in Hm.
  - cbn. by apply list_lookup_middle.
Qed.

Lemma evaluates_new_type k c :
  context_ok c -> k ∉ builtin_kinds ->
  evaluates c (new_type k) (fun p c' => canonical_type c' p /\ deref (types c') p = Some (type_of_kind k)).
Proof.
  intros Hc Hk. eapply evaluates_mono; [by apply evaluates_add_type|].
  intros p c' _ _ Ht. split; [|done]. by exists (type_of_kind k).
Qed.

Lemma builtin_type_run k c : k ∈ builtin_kinds -> builtin_type k c = Returned (builtin_types c k, c).
Proof. intros Hk. unfold builtin_kinds in Hk. repeat (apply elem_of_cons in Hk as [->|Hk]; [done|]). by apply elem_of_nil in Hk. Qed.

Lemma builtin_type_other k c : k ∉ builtin_kinds -> builtin_type k c = Returned (None, c).
Proof. intros Hk. destruct k; try done; exfalso; apply Hk; unfold builtin_kinds; repeat (first [by left | right]). Qed.

(** Membership of a kind among the builtin kinds, by evaluation. *)
Ltac builtin_kind := apply (bool_decide_unpack _); reflexivity.

Lemma builtin_canonical c k :
  context_ok c -> k ∈ builtin_kinds ->
  canonical_type c (builtin_types c k) /\ has_kind (types c) (builtin_types c k) k = true.
Proof.
  intros Hc Hk. pose proof (ok_builtin c Hc k Hk) as H. split; [|done].
  unfold has_kind in H. destruct (deref _ _) as [t|] eqn:Ht; [|done]. apply bool_decide_eq_true in H.
  exists t. subst k. done.
Qed.

Lemma has_kind_deref ts p k :
  has_kind ts p k = true <-> exists t, deref ts p = Some t /\ kind t = k.
Proof.
  unfold has_kind. destruct (deref ts p) as [t|]; split.
  - intros H. apply bool_decide_eq_true in H. eauto.
  - intros (t' & [= <-] & ?). by apply bool_decide_eq_true.
  - done.
  - by intros (? & ? & ?).
Qed.

Lemma change_expr_info_layout f n l l' :
  (forall i, builtin_layout_value (f i) = builtin_layout_value i) ->
  change_expr_info f n l = Some l' ->
  forall e v, e ∈ l' -> builtin_layout_value e = Some v ->
    exists e0, e0 ∈ l /\ builtin_layout_value e0 = Some v.
Proof.
  intros Hf. revert l'. induction l as [|i l IH]; intros l' H; cbn in H; [done|].
  destruct (bool_decide (expr_node i = n)).
  - injection H as <-. intros e v He Hv. apply elem_of_cons in He as [->|He].
    + exists i. split; [by left|]. by rewrite <- Hf.
    + exists e. split; [by right|done].
  - destruct (change_expr_info f n l) as [l2|]; [|done]. injection H as <-.
    intros e v He Hv. apply elem_of_cons in He as [->|He].
    + exists i. split; [by left|done].
    + destruct (IH l2 eq_refl e v He Hv) as (e0 & ? & ?). exists e0. split; [by right|done].
Qed.

Lemma evaluates_expr_info f n c :
  context_ok c -> (forall i, builtin_layout_value (f i) = builtin_layout_value i) ->
  evaluates c (with_expr_info f n) (fun _ _ => True).
Proof.
  intros Hc Hf. set (l := default (f (new_expr_info n) :: expr_infos c)
                            (change_expr_info f n (expr_infos c))).
  assert (He : extends c (set_expr_infos l c)) by extends_easy.
  eexists tt, _. split; [done|]. split_and!; try done.
  eapply context_ok_update; [done|exact He|done|done| |by left].
  cbn. unfold l. destruct (change_expr_info f n (expr_infos c)) as [l'|] eqn:Hl; cbn.
  - by eapply change_expr_info_layout.
  - intros e v Hin Hv. apply elem_of_cons in Hin as [->|Hin]; [by rewrite Hf in Hv|eauto].
Qed.

(** The entry is the one that is found afterwards. *)
Lemma find_changed f n l :
  (forall i, expr_node (f i) = expr_node i) ->
  exists i, List.find (fun i => bool_decide (expr_node i = n))
              (default (f (new_expr_info n) :: l) (change_expr_info f n l)) = Some (f i).
Proof.
  intros Hf. destruct (change_expr_info f n l) as [l'|] eqn:Hl; cbn.
  - revert l' Hl. induction l as [|i l IH]; intros l' Hl; [done|]. cbn in Hl.
    destruct (bool_decide (expr_node i = n)) eqn:Hn.
    + injection Hl as <-. cbn. rewrite Hf, Hn. by exists i.
    + destruct (change_expr_info f n l) as [l1|]; [|done]. injection Hl as <-.
      cbn. rewrite Hn. by apply IH.
  - exists (new_expr_info n). rewrite Hf. by rewrite bool_decide_eq_true_2.
Qed.
