(* ===== verification/ConstantArithmetic.v ===== *)
(** The operators of constant evaluation on integers, against arithmetic on [Z].

    An integer constant has a kind, a concrete integer kind or [TYPE_UNTYPED_INT], and a value
    in the range of its kind.  For every operator there is a function on kinds and values that
    computes in [Z], and the evaluator's operator is shown to agree with it, failures
    included.  One operator can abort: the negation of the untyped -2^63. *)
From Stdlib Require Import SpecFloat.
From S2P Require Import Prelude Token Types Source Lexer IntegerValue TypeRelations Target FlowState Ast SemContext Modules ConstantEvaluation ConstantInvariant.

(** ** Ranges *)

Definition in_range_of (k : TypeKind) (z : Z) : bool :=
  match integer_type_info k with
  | Some info => bool_decide (in_range info z)
  | None => bool_decide (k = TYPE_UNTYPED_INT) && (- 2 ^ 63 <=? z) && (z <? 2 ^ 64)
  end.

#[global] Arguments in_range_of : simpl never.

(** The kind an untyped integer has by default. *)
Definition default_kind (z : Z) : option TypeKind :=
  if in_range_of TYPE_S32 z then Some TYPE_S32
  else if in_range_of TYPE_S64 z then Some TYPE_S64
  else if in_range_of TYPE_U64 z then Some TYPE_U64
  else None.

Lemma concrete_info k : is_concrete_integer_kind k = true -> exists info, integer_type_info k = Some info.
Proof. unfold is_concrete_integer_kind. intros H. by apply bool_decide_eq_true in H. Qed.

Lemma integer_kind_cases k :
  is_integer_kind k = true -> is_concrete_integer_kind k = true \/ k = TYPE_UNTYPED_INT.
Proof. unfold is_integer_kind. intros [H|H]%orb_true_iff; [by left|right]. by apply bool_decide_eq_true in H. Qed.

Lemma fits_range v k :
  canonical v -> is_integer_kind k = true ->
  integer_value_fits_type v k = Returned (in_range_of k (value_of v)).
Proof.
  intros Hc Hk. unfold in_range_of. apply integer_kind_cases in Hk as [Hk| ->].
  - apply concrete_info in Hk as [info Hi]. rewrite Hi. by apply fits_spec.
  - unfold integer_value_fits_type. cbn. f_equal. destruct Hc as [Hm Hn]. unfold value_of.
    replace (one_shl 63) with (2 ^ 63) by reflexivity.
    destruct (is_negative v); cbn; split_tests.
Qed.

Lemma default_kind_spec v :
  canonical v -> default_integer_kind_for_value v = Returned (default_kind (value_of v)).
Proof.
  intros Hc. unfold default_integer_kind_for_value, default_kind. rewrite !fits_range by done. cbn.
  repeat case_match; done.
Qed.

Lemma default_kind_range z k :
  default_kind z = Some k ->
  in_range_of k z = true /\ (k = TYPE_S32 \/ k = TYPE_S64 \/ k = TYPE_U64).
Proof. unfold default_kind. repeat case_match; intros [= <-]; auto. Qed.

Lemma default_kind_some z : in_range_of TYPE_UNTYPED_INT z = true -> is_Some (default_kind z).
Proof.
  unfold default_kind, in_range_of. cbn. intros H. to_props.
  repeat (case_match; [by eexists|]). exfalso.
  repeat match goal with H : bool_decide _ = false |- _ => apply bool_decide_eq_false in H end.
  unfold in_range, type_min, type_max in *. cbn in *. lia.
Qed.

Lemma in_range_of_bound k z : is_integer_kind k = true -> in_range_of k z = true -> - 2 ^ 64 < z < 2 ^ 64.
Proof.
  intros Hk H. unfold in_range_of in H. apply integer_kind_cases in Hk as [Hk| ->].
  - apply concrete_info in Hk as [info Hi]. rewrite Hi in H. apply bool_decide_eq_true in H.
    eapply in_range_bound; [|done]. by eapply integer_type_info_valid.
  - cbn in H. to_props. lia.
Qed.

(** ** Meanings *)

(** What an integer or boolean constant stands for. *)
Inductive meaning : Set :=
| MInt (k : TypeKind) (z : Z)
| MBool (b : bool).

Definition represents (c : SemanticContext) (v : ConstValue) (m : meaning) : Prop :=
  canonical_type c (const_value_type v) /\
  match m with
  | MInt k z =>
      has_kind (types c) (const_value_type v) k = true /\ is_integer_kind k = true
      /\ in_range_of k z = true /\ const_value_as v = CONST_VALUE_INT (of_value z)
  | MBool b =>
      has_kind (types c) (const_value_type v) TYPE_BOOL = true
      /\ const_value_as v = CONST_VALUE_BOOL b
  end.

(** A computation that gives the meaning, or fails with an error where there is none. *)
Definition gives (c : SemanticContext) (m : M (option ConstValue)) (r : option meaning) : Prop :=
  evaluates c m (fun o c' =>
    match r, o with
    | Some x, Some v => represents c' v x
    | None, None => reported c'
    | _, _ => False
    end).

Lemma represents_extends c c' v m : extends c c' -> represents c v m -> represents c' v m.
Proof.
  intros He [Hc Hm]. split; [by eapply canonical_extends|].
  destruct m; [destruct Hm as (? & ? & ? & ?)|destruct Hm];
    eauto using has_kind_extends.
Qed.

Lemma represents_ok c v m : represents c v m -> value_ok c v.
Proof.
  intros [Hc Hm]. split; [done|]. destruct m.
  - destruct Hm as ((t & Ht & Hk)%has_kind_deref & Hi & Hr & Ha). exists t. split; [done|].
    rewrite Ha. pose proof (in_range_of_bound _ _ Hi Hr).
    assert (canonical (of_value z)) by by apply of_value_canonical.
    split; [done|]. right. rewrite Hk. split; [done|]. unfold int_fits.
    rewrite fits_range, value_of_of_value by done. by rewrite Hr.
  - destruct Hm as ((t & Ht & Hk)%has_kind_deref & Ha). exists t. by rewrite Ha.
Qed.

(** An integer constant is an enumeration's member or has a meaning. *)
Lemma value_ok_int c v i :
  value_ok c v -> const_value_as v = CONST_VALUE_INT i ->
  has_kind (types c) (const_value_type v) TYPE_ENUM = true
  \/ exists k, represents c v (MInt k (value_of i)).
Proof.
  intros [Hc (t & Ht & Ha)] Hi. rewrite Hi in Ha. destruct Ha as (Hcan & [[Hk _]|[Hk Hf]]).
  - left. apply has_kind_deref. eauto.
  - right. exists (kind t). split; [done|]. split_and!; [apply has_kind_deref; eauto|done| |].
    + unfold int_fits in Hf. rewrite fits_range in Hf by done. by injection Hf.
    + rewrite Hi. f_equal. by apply canonical_of_value.
Qed.

Lemma value_ok_bool c v b : value_ok c v -> const_value_as v = CONST_VALUE_BOOL b -> represents c v (MBool b).
Proof.
  intros [Hc (t & Ht & Ha)] Hb. split; [done|]. rewrite Hb in Ha. split; [|done].
  apply has_kind_deref. eauto.
Qed.

Lemma gives_fail c n msg : context_ok c -> gives c (fail n msg) None.
Proof. intros Hc. eapply evaluates_mono; [by apply (evaluates_fail n msg c (fun _ _ => False))|]. by intros [] c'. Qed.

Lemma gives_result c p a m :
  context_ok c -> represents c (mkConstValue p a) m -> gives c (result p a) (Some m).
Proof. intros Hc H. by apply evaluates_ret. Qed.

Lemma gives_bool c b : context_ok c -> gives c (boolean_result b) (Some (MBool b)).
Proof.
  intros Hc. unfold boolean_result, gives.
  eapply evaluates_pure; [apply builtin_type_run; builtin_kind|].
  apply gives_result; [done|].
  destruct (builtin_canonical c TYPE_BOOL Hc) as [? ?]; [builtin_kind|]. done.
Qed.

Lemma gives_succeeds c m r : gives c m r -> evaluates c m (succeeds (fun v c' => value_ok c' v)).
Proof.
  intros H. eapply evaluates_mono; [exact H|]. intros o c' _ _. destruct r, o; cbn; try done.
  intros Hr. by eapply represents_ok.
Qed.

(** ** Result types *)

Lemma default_type_run c v :
  canonical_type c (const_value_type v) ->
  const_value_default_type v c = Returned (const_value_type v, c).
Proof.
  intros (t & Ht & _). unfold const_value_default_type.
  by destruct (const_value_type v).
Qed.

(** The result's type and the kind of the operation. *)
Definition checked_result (k operation_kind : TypeKind) (z : Z) : option meaning :=
  if in_range_of operation_kind z && (negb (bool_decide (k = TYPE_UNTYPED_INT)) || in_range_of k z)
  then Some (MInt k z) else None.

Lemma gives_integer_result c n p k operation_kind i :
  context_ok c -> canonical_type c p -> has_kind (types c) p k = true -> is_integer_kind k = true ->
  is_concrete_integer_kind operation_kind = true ->
  (is_concrete_integer_kind k = true -> operation_kind = k) -> canonical i ->
  gives c (integer_constant_result n p operation_kind i) (checked_result k operation_kind (value_of i)).
Proof.
  intros Hc Hp Hk Hi Hop Hsame Hcan. unfold integer_constant_result, kind_of, ask, fits.
  apply evaluates_get. pose proof Hk as (t & Ht & Hkt)%has_kind_deref. rewrite Ht. cbn.
  rewrite Hkt, Hi, Hop. cbn.
  eapply evaluates_lift; [by apply fits_range; [|unfold is_integer_kind; by rewrite Hop]|].
  eapply evaluates_lift; [by apply fits_range|].
  unfold checked_result. destruct (in_range_of operation_kind _) eqn:Hr; cbn; [|by apply gives_fail].
  destruct (bool_decide_reflect (k = TYPE_UNTYPED_INT)) as [->|Hne]; cbn.
  - rewrite bool_decide_eq_true_2 by done. cbn.
    destruct (in_range_of TYPE_UNTYPED_INT (value_of i)) eqn:Hu; [|by apply gives_fail].
    apply gives_result; [done|]. split; [done|]. split_and!; try done.
    cbn. f_equal. by apply canonical_of_value.
  - rewrite bool_decide_eq_false_2 by congruence. cbn.
    apply gives_result; [done|]. split; [done|]. split_and!; try done.
    + apply integer_kind_cases in Hi as [Hi|]; [|done]. by rewrite <- Hsame.
    + cbn. f_equal. by apply canonical_of_value.
Qed.

Definition common_kind (k1 k2 : TypeKind) : option TypeKind :=
  if bool_decide (k1 = TYPE_UNTYPED_INT) then Some k2
  else if bool_decide (k2 = TYPE_UNTYPED_INT) || bool_decide (k1 = k2) then Some k1
  else None.

(** The larger of two default kinds; at the same rank, the unsigned one. *)
Definition larger_kind (k1 k2 : TypeKind) : TypeKind :=
  let r1 := default_numeric_operation_rank k1 in
  let r2 := default_numeric_operation_rank k2 in
  if negb (r1 =? r2) then if r2 <? r1 then k1 else k2
  else if bool_decide (k1 = TYPE_U64) || bool_decide (k2 = TYPE_U64) then TYPE_U64 else k1.

Definition operation_kind (common : TypeKind) (z1 z2 : Z) : option TypeKind :=
  if is_concrete_integer_kind common then Some common
  else k1 ← default_kind z1; k2 ← default_kind z2; Some (larger_kind k1 k2).

Lemma type_equal_integer ts p q k1 k2 :
  has_kind ts p k1 = true -> has_kind ts q k2 = true -> is_integer_kind k1 = true ->
  type_equal ts p q = bool_decide (k1 = k2).
Proof.
  intros (t1 & H1 & <-)%has_kind_deref (t2 & H2 & <-)%has_kind_deref Hi.
  unfold type_equal, TYPE_FUEL. destruct p as [i|], q as [j|]; try done. cbn in H1, H2. cbn.
  destruct (Nat.eqb_spec i j) as [->|_]; [by simplify_eq; rewrite bool_decide_eq_true_2|].
  rewrite H1, H2. destruct (bool_decide_reflect (kind t1 = kind t2)) as [Hk|]; [|done]. cbn.
  by destruct (kind t1).
Qed.

Section Common.
Context (ts : TypeStore) (p q : TypePtr) (k1 k2 : TypeKind).
Hypotheses (Hp : has_kind ts p k1 = true) (Hq : has_kind ts q k2 = true)
  (H1 : is_integer_kind k1 = true) (H2 : is_integer_kind k2 = true).

Lemma integer_type_kind r k : has_kind ts r k = true -> is_integer_type ts r = is_integer_kind k.
Proof. intros (t & Ht & <-)%has_kind_deref. unfold is_integer_type, kind_satisfies. by rewrite Ht. Qed.

Lemma integer_numeric r k :
  has_kind ts r k = true -> is_integer_kind k = true ->
  is_numeric_type ts r = true /\ is_untyped_numeric_type ts r = bool_decide (k = TYPE_UNTYPED_INT)
  /\ forall k', has_kind ts r k' = bool_decide (k = k').
Proof.
  intros (t & Ht & <-)%has_kind_deref Hi.
  unfold is_numeric_type, is_untyped_numeric_type, kind_satisfies, has_kind. rewrite Ht, Hi.
  split_and!; try done. by destruct (kind t).
Qed.

Lemma common_type_spec :
  common_integer_type ts p q = common_numeric_type ts p q /\
  match common_kind k1 k2 with
  | Some k => exists r, common_numeric_type ts p q = r /\ (r = p \/ r = q)
                        /\ has_kind ts r k = true /\ is_integer_kind k = true
  | None => common_numeric_type ts p q = None
  end.
Proof using Hp Hq H1 H2.
  unfold common_integer_type, common_numeric_type.
  destruct (integer_numeric p k1 Hp H1) as (-> & -> & Hkp).
  destruct (integer_numeric q k2 Hq H2) as (-> & -> & Hkq).
  rewrite !(integer_type_kind p k1), !(integer_type_kind q k2), H1, H2, !Hkp, !Hkq by done.
  rewrite (type_equal_integer ts p q k1 k2) by done. cbn. unfold common_kind.
  destruct (bool_decide_reflect (k1 = TYPE_UNTYPED_INT)) as [->|Hn1],
    (bool_decide_reflect (k2 = TYPE_UNTYPED_INT)) as [->|Hn2]; cbn; split; try done; eauto 10.
  destruct (bool_decide_reflect (k1 = k2)) as [->|]; cbn; [|done]. eauto 10.
Qed.
End Common.

Lemma default_constant_kind c v k z :
  represents c v (MInt k z) ->
  default_numeric_kind_for_constant (types c) v
  = Returned (if is_concrete_integer_kind k then Some k else default_kind z).
Proof.
  intros [_ ((t & Ht & <-)%has_kind_deref & Hi & Hr & Ha)].
  unfold default_numeric_kind_for_constant. rewrite Ht, Ha.
  assert (Hcan : canonical (of_value z)) by eauto using of_value_canonical, in_range_of_bound.
  rewrite default_kind_spec, value_of_of_value by done.
  apply integer_kind_cases in Hi as [Hi|Hi].
  - rewrite Hi. by destruct (kind t).
  - by rewrite Hi.
Qed.

Lemma operation_kind_spec c v1 v2 k1 z1 k2 z2 r k :
  represents c v1 (MInt k1 z1) -> represents c v2 (MInt k2 z2) ->
  common_kind k1 k2 = Some k -> has_kind (types c) r k = true ->
  constant_numeric_operation_kind (types c) v1 v2 r = Returned (operation_kind k z1 z2).
Proof.
  intros R1 R2 Hk (t & Ht & Hkt)%has_kind_deref. unfold constant_numeric_operation_kind.
  rewrite Ht. unfold is_untyped_numeric_type, kind_satisfies. rewrite Ht, Hkt. unfold operation_kind.
  rewrite (default_constant_kind c v1 k1 z1), (default_constant_kind c v2 k2 z2) by done.
  destruct R1 as [_ (_ & H1 & _)], R2 as [_ (_ & H2 & _)].
  assert (Hi : is_integer_kind k = true) by (unfold common_kind in Hk; repeat case_match; congruence).
  apply integer_kind_cases in Hi as [Hi| ->]; [by rewrite Hi|]. cbn.
  unfold common_kind in Hk.
  destruct (bool_decide_reflect (k1 = TYPE_UNTYPED_INT)) as [->|Hn1]; [injection Hk as ->|].
  2:{ destruct (_ || _); [|done]. congruence. }
  cbn. destruct (default_kind z1) as [d1|] eqn:E1; [|done]. cbn.
  destruct (default_kind z2) as [d2|] eqn:E2; [|done]. cbn. f_equal.
  apply default_kind_range in E1 as [_ E1], E2 as [_ E2].
  unfold larger_kind. destruct E1 as [-> | [-> | ->]], E2 as [-> | [-> | ->]]; done.
Qed.

(** ** Operators *)

(** The value of an operation in a concrete kind; where it leaves the kind, the result is
    refused afterwards. *)
Definition integer_operation (op : TokenType) (k : TypeKind) (z1 z2 : Z) : option Z :=
  match op with
  | TOK_PLUS => Some (z1 + z2)
  | TOK_MINUS => Some (z1 - z2)
  | TOK_STAR => Some (z1 * z2)
  | TOK_SLASH =>
      if negb (z2 =? 0) && in_range_of k (Z.quot z1 z2) then Some (Z.quot z1 z2) else None
  | TOK_PERCENT =>
      if negb (z2 =? 0) && in_range_of k (Z.quot z1 z2) then Some (Z.rem z1 z2) else None
  | TOK_AND => Some (Z.land z1 z2)
  | TOK_OR => Some (Z.lor z1 z2)
  | TOK_XOR => Some (Z.lxor z1 z2)
  | _ => None
  end.

(** Both operands are taken to the kind of the operation. *)
Definition integer_binary (op : TokenType) (k1 : TypeKind) (z1 : Z) (k2 : TypeKind) (z2 : Z)
    : option meaning :=
  k ← common_kind k1 k2;
  ok ← operation_kind k z1 z2;
  if in_range_of ok z1 && in_range_of ok z2
  then z ← integer_operation op ok z1 z2; checked_result k ok z
  else None.

Lemma operation_kind_concrete k z1 z2 ok :
  operation_kind k z1 z2 = Some ok ->
  is_concrete_integer_kind ok = true /\ (is_concrete_integer_kind k = true -> ok = k).
Proof.
  unfold operation_kind. destruct (is_concrete_integer_kind k) eqn:Hk; [by intros [= <-]|].
  destruct (default_kind z1) as [k1|] eqn:H1; [|done].
  destruct (default_kind z2) as [k2|] eqn:H2; [|done]. cbn. intros [= <-].
  apply default_kind_range in H1 as [_ H1], H2 as [_ H2]. split; [|done].
  destruct H1 as [-> | [-> | ->]], H2 as [-> | [-> | ->]]; done.
Qed.

Lemma in_range_info k info z : integer_type_info k = Some info -> in_range_of k z = bool_decide (in_range info z).
Proof. intros H. unfold in_range_of. by rewrite H. Qed.

Lemma division_value a b :
  canonical a -> canonical b -> value_of b <> 0 ->
  integer_value_make (magnitude a / magnitude b) (negb (eqb (is_negative a) (is_negative b)))
    = of_value (Z.quot (value_of a) (value_of b))
  /\ integer_value_make (magnitude a mod magnitude b) (is_negative a)
    = of_value (Z.rem (value_of a) (value_of b)).
Proof.
  intros [Ha _] [Hb _] Hz. unfold value_of in *.
  assert (0 < magnitude b) by (destruct (is_negative b); lia).
  rewrite !make_of_value by (apply Z.mod_pos_bound || apply Z.div_pos; lia).
  rewrite <- Z.quot_div_nonneg, <- Z.rem_mod_nonneg by lia.
  split; f_equal; destruct (is_negative a), (is_negative b); cbn;
    rewrite ?Z.quot_opp_l, ?Z.quot_opp_r, ?Z.rem_opp_l, ?Z.rem_opp_r by lia; lia.
Qed.

Definition is_arithmetic (op : TokenType) : bool :=
  match op with TOK_PLUS | TOK_MINUS | TOK_STAR | TOK_SLASH | TOK_PERCENT => true | _ => false end.

(** What an operator gives: the exact value, which may still be refused, or a failure. *)
Definition operation_result (k : TypeKind) (r : option Z) (o : option IntegerValue)
    (c : SemanticContext) : Prop :=
  match r, o with
  | Some z, Some v => v = of_value z /\ canonical v
  | Some z, None => in_range_of k z = false /\ reported c
  | None, None => reported c
  | None, Some _ => False
  end.

Lemma operation_fails c n msg k r :
  context_ok c -> (forall z, r = Some z -> in_range_of k z = false) ->
  evaluates c (fail n msg) (operation_result k r).
Proof.
  intros Hc Hr. eapply evaluates_mono; [by apply (evaluates_fail n msg c (fun _ _ => False))|].
  intros [] c' _ _; [done|]. cbn. destruct r; cbn; auto.
Qed.

Lemma in_range_canonical info z : valid_info info -> in_range info z -> canonical (of_value z).
Proof. intros. apply of_value_canonical. by eapply in_range_bound. Qed.

Lemma rem_canonical a b : canonical a -> value_of b <> 0 -> canonical (of_value (Z.rem (value_of a) (value_of b))).
Proof.
  intros Ha Hb. apply of_value_canonical. pose proof (value_of_bound a Ha).
  pose proof (Z.quot_rem (value_of a) (value_of b) Hb).
  pose proof (Z.rem_bound_abs (value_of a) (value_of b) Hb).
  assert (Z.abs (Z.rem (value_of a) (value_of b)) <= Z.abs (value_of a)); [|lia].
  rewrite <- Z.rem_abs by done. apply Z.rem_le; lia.
Qed.

Lemma integer_arithmetic_spec c n op k a b :
  context_ok c -> is_arithmetic op = true -> is_concrete_integer_kind k = true ->
  canonical a -> canonical b ->
  in_range_of k (value_of a) = true -> in_range_of k (value_of b) = true ->
  evaluates c (eval_integer_arithmetic n op a b k)
    (operation_result k (integer_operation op k (value_of a) (value_of b))).
Proof.
  intros Hc Hop Hk Ha Hb Hra Hrb. apply concrete_info in Hk as [info Hi].
  pose proof (in_range_info k info) as Hr. rewrite Hr in Hra, Hrb by done.
  apply bool_decide_eq_true in Hra, Hrb. pose proof (integer_type_info_valid k info Hi) as Hv.
  destruct (checked_arithmetic_correct k info a b Hi Ha Hb Hra Hrb) as (Hadd & Hsub & Hmul).
  pose proof (classify_integer_division_correct k info a b Hi Ha Hb Hra Hrb) as Hdiv.
  destruct op; try done; cbn [eval_integer_arithmetic integer_operation].
  1-3: (eapply evaluates_lift; [eassumption|]); cbn; unfold checked;
    (case_bool_decide;
      [apply evaluates_ret; [done|]; split; [done|by eapply in_range_canonical]
      |apply operation_fails; [done|]; intros ? [= <-]; rewrite Hr by done;
       by apply bool_decide_eq_false_2]).
  all: eapply evaluates_lift; [exact Hdiv|]; rewrite Hr by done;
    destruct (Z.eqb_spec (value_of b) 0) as [Hz|Hz];
    [rewrite decide_True by done; by apply operation_fails|]; rewrite decide_False by done; cbn;
    (destruct (bool_decide_reflect (in_range info (Z.quot (value_of a) (value_of b)))) as [Hq|Hq];
    [rewrite decide_True by done | rewrite decide_False by done; by apply operation_fails]); cbn;
    destruct (division_value a b Ha Hb Hz) as [Hquot Hrem]; apply evaluates_ret; try done.
  - rewrite Hquot. split; [done|]. by eapply in_range_canonical.
  - rewrite Hrem. split; [done|]. by apply rem_canonical.
Qed.

Lemma gives_operation c n p k ok m r :
  canonical_type c p -> has_kind (types c) p k = true -> is_integer_kind k = true ->
  is_concrete_integer_kind ok = true -> (is_concrete_integer_kind k = true -> ok = k) ->
  evaluates c m (operation_result ok r) ->
  gives c (v ←? m; integer_constant_result n p ok v) (z ← r; checked_result k ok z).
Proof.
  intros Hp Hk Hi Hok Hsame Hm. unfold gives, try_bind. eapply evaluates_bind; [exact Hm|].
  intros o c' Hc' He Ho. destruct r as [z|], o as [v|]; cbn in *; try done.
  - destruct Ho as [-> Hcan].
    pose proof (gives_integer_result c' n p k ok (of_value z)) as H. rewrite value_of_of_value in H.
    apply H; try done; [by eapply canonical_extends|by eapply has_kind_extends].
  - destruct Ho as [Ho Hrep]. unfold checked_result. rewrite Ho. by apply evaluates_ret.
  - by apply evaluates_ret.
Qed.

Definition is_bitwise (op : TokenType) : bool :=
  match op with TOK_AND | TOK_OR | TOK_XOR => true | _ => false end.

Lemma bitwise_operation k op z1 z2 :
  is_concrete_integer_kind k = true -> is_bitwise op = true ->
  in_range_of k z1 = true -> in_range_of k z2 = true ->
  exists z, integer_operation op k z1 z2 = Some z /\ canonical (of_value z)
    /\ integer_values_bitwise (of_value z1) (of_value z2) k op = Returned (Some (of_value z)).
Proof.
  intros [info Hi]%concrete_info Hop Hr1 Hr2. pose proof (integer_type_info_valid _ _ Hi) as Hv.
  rewrite (in_range_info k info) in Hr1, Hr2 by done. apply bool_decide_eq_true in Hr1, Hr2.
  pose proof (in_range_canonical info _ Hv Hr1) as C1.
  pose proof (in_range_canonical info _ Hv Hr2) as C2.
  pose proof (integer_values_bitwise_correct k info (of_value z1) (of_value z2)) as H.
  rewrite !value_of_of_value in H. destruct (H Hi C1 C2 Hr1 Hr2) as (Hand & Hor & Hxor).
  destruct op; try done; (eexists; split; [reflexivity|]; split; [|eassumption]);
    apply (in_range_canonical info); try done.
  - apply (in_range_bitwise info Z.land); auto using Z.shiftr_land.
  - apply (in_range_bitwise info Z.lor); auto using Z.shiftr_lor.
  - apply (in_range_bitwise info Z.lxor); auto using Z.shiftr_lxor.
Qed.

(** A left shift drops the bits that leave the kind; a right shift rounds down.  The left
    operand alone decides the kind. *)
Definition integer_shift (op : TokenType) (k : TypeKind) (z count : Z) : option meaning :=
  ok ← (if is_concrete_integer_kind k then Some k else default_kind z);
  info ← integer_type_info ok;
  if (0 <=? count) && (count <? bit_width info)
  then checked_result k ok (if bool_decide (op = TOK_SHIFT_LEFT)
                            then wrap info (z * 2 ^ count) else z / 2 ^ count)
  else None.

Definition is_shift (op : TokenType) : bool :=
  match op with TOK_SHIFT_LEFT | TOK_SHIFT_RIGHT => true | _ => false end.

Lemma shift_operation k info op z count :
  integer_type_info k = Some info -> is_shift op = true ->
  in_range info z -> 0 <= count < bit_width info ->
  let r := if bool_decide (op = TOK_SHIFT_LEFT) then wrap info (z * 2 ^ count) else z / 2 ^ count in
  canonical (of_value r) /\ integer_value_shift (of_value z) k op count = Returned (Some (of_value r)).
Proof.
  intros Hi Hop Hr Hn. pose proof (integer_type_info_valid _ _ Hi) as Hv. cbn zeta.
  pose proof (in_range_canonical info _ Hv Hr) as Hz. destruct op; try done.
  - rewrite bool_decide_eq_true_2 by done. split; [by eapply in_range_canonical, wrap_in_range|].
    rewrite (shift_left_spec k info); rewrite ?value_of_of_value; done.
  - rewrite bool_decide_eq_false_2 by done. split.
    + eapply in_range_canonical; [done|]. rewrite <- Z.shiftr_div_pow2 by lia.
      eapply shift_right_range; [done|lia|done].
    + rewrite (shift_right_spec k info); rewrite ?value_of_of_value; done.
Qed.

Lemma classify_count z width :
  width <= 64 ->
  classify_shift_count (of_value z) width
  = if z <? 0 then SHIFT_COUNT_NEGATIVE else if width <=? z then SHIFT_COUNT_OUT_OF_RANGE
    else SHIFT_COUNT_VALID z.
Proof.
  intros Hw. unfold classify_shift_count. cbn. destruct (Z.ltb_spec z 0); [done|].
  rewrite Z.abs_eq by lia. destruct (Z.leb_spec width z); [done|].
  f_equal. unfold u32. apply Z.mod_small. lia.
Qed.

(** Comparisons *)

Definition compare_with (op : TokenType) (comparison : Z) : option bool :=
  match op with
  | TOK_EQUAL_EQUAL => Some (comparison =? 0)
  | TOK_BANG_EQUAL => Some (negb (comparison =? 0))
  | TOK_LESS => Some (comparison <? 0)
  | TOK_LESS_EQUAL => Some (comparison <=? 0)
  | TOK_GREATER => Some (0 <? comparison)
  | TOK_GREATER_EQUAL => Some (0 <=? comparison)
  | _ => None
  end.

Definition integer_comparison (op : TokenType) (z1 z2 : Z) : option bool :=
  match op with
  | TOK_EQUAL_EQUAL => Some (z1 =? z2)
  | TOK_BANG_EQUAL => Some (negb (z1 =? z2))
  | TOK_LESS => Some (z1 <? z2)
  | TOK_LESS_EQUAL => Some (z1 <=? z2)
  | TOK_GREATER => Some (z2 <? z1)
  | TOK_GREATER_EQUAL => Some (z2 <=? z1)
  | _ => None
  end.

Definition is_comparison (op : TokenType) : bool :=
  match op with
  | TOK_EQUAL_EQUAL | TOK_BANG_EQUAL | TOK_LESS | TOK_LESS_EQUAL | TOK_GREATER
  | TOK_GREATER_EQUAL => true
  | _ => false
  end.

Lemma compare_spec z1 z2 : integer_value_compare (of_value z1) (of_value z2) = Z.sgn (z1 - z2).
Proof.
  unfold integer_value_compare, of_value. cbn.
  destruct (Z.ltb_spec z1 0), (Z.ltb_spec z2 0); cbn; split_tests;
    first [rewrite Z.sgn_neg by lia; done | rewrite Z.sgn_pos by lia; done
          | replace (z1 - z2) with 0 by lia; done].
Qed.

Lemma compare_with_sgn op z1 z2 : compare_with op (Z.sgn (z1 - z2)) = integer_comparison op z1 z2.
Proof.
  destruct op; try done; cbn; apply (f_equal Some);
    destruct (Z.compare_spec z1 z2);
    first [rewrite Z.sgn_neg by lia | rewrite Z.sgn_pos by lia | replace (z1 - z2) with 0 by lia];
    cbn; split_tests.
Qed.

Lemma ordered_result_gives c op x :
  context_ok c -> is_comparison op = true ->
  gives c (ordered_result op x) (MBool <$> compare_with op x).
Proof. intros Hc Hop. destruct op; try done; by apply gives_bool. Qed.

(** The comparison of two integers is made in their common type. *)
Definition integer_compare (op : TokenType) (k1 : TypeKind) (z1 : Z) (k2 : TypeKind) (z2 : Z)
    : option meaning :=
  k ← common_kind k1 k2;
  ok ← operation_kind k z1 z2;
  if in_range_of ok z1 && in_range_of ok z2 then MBool <$> integer_comparison op z1 z2 else None.

Section Binary.
Context (c : SemanticContext) (Hc : context_ok c) (n : Node) (l r : ConstValue)
  (k1 k2 : TypeKind) (z1 z2 : Z)
  (Hl : represents c l (MInt k1 z1)) (Hr : represents c r (MInt k2 z2)).

(** The types of the operands are there already. *)
Lemma operand_types {A} (k : TypePtr -> TypePtr -> M A) Q :
  evaluates c (k (const_value_type l) (const_value_type r)) Q ->
  evaluates c (left_type ← const_value_default_type l;
               right_type ← const_value_default_type r; k left_type right_type) Q.
Proof using Hl Hr.
  intros H. eapply evaluates_pure; [apply default_type_run, Hl|].
  eapply evaluates_pure; [apply default_type_run, Hr|]. done.
Qed.

Lemma operand_kinds :
  has_kind (types c) (const_value_type l) k1 = true /\ is_integer_kind k1 = true
  /\ has_kind (types c) (const_value_type r) k2 = true /\ is_integer_kind k2 = true.
Proof using Hl Hr. destruct Hl as (_ & ? & ? & _), Hr as (_ & ? & ? & _). done. Qed.

Lemma operands_canonical : canonical (of_value z1) /\ canonical (of_value z2).
Proof using Hl Hr.
  destruct Hl as (_ & _ & ? & ? & _), Hr as (_ & _ & ? & ? & _).
  split; eauto using of_value_canonical, in_range_of_bound.
Qed.

Lemma operand_values :
  const_value_as l = CONST_VALUE_INT (of_value z1) /\ const_value_as r = CONST_VALUE_INT (of_value z2).
Proof using Hl Hr. destruct Hl as (_ & _ & _ & _ & ?), Hr as (_ & _ & _ & _ & ?). done. Qed.

(** The common type of the operands and the kind of the operation. *)
Lemma common_result_type :
  match common_kind k1 k2 with
  | Some k =>
      exists i, common_numeric_type (types c) (const_value_type l) (const_value_type r) = Some i
        /\ canonical_type c (Some i) /\ has_kind (types c) (Some i) k = true
        /\ is_integer_kind k = true
        /\ constant_numeric_operation_kind (types c) l r (Some i) = Returned (operation_kind k z1 z2)
  | None => common_numeric_type (types c) (const_value_type l) (const_value_type r) = None
  end.
Proof using Hl Hr.
  destruct operand_kinds as (Hk1 & Hi1 & Hk2 & Hi2).
  destruct (common_type_spec (types c) _ _ k1 k2 Hk1 Hk2 Hi1 Hi2) as [_ Hcommon].
  destruct (common_kind k1 k2) as [k|] eqn:Hk; [|done].
  destruct Hcommon as (p & Hp & Hpq & Hpk & Hik). rewrite Hp.
  destruct p as [i|]; [|by unfold has_kind in Hpk]. exists i. split_and!; try done.
  - destruct Hl as [Hcl _], Hr as [Hcr _]. destruct Hpq as [Hpq|Hpq]; by rewrite Hpq.
  - by eapply operation_kind_spec.
Qed.

Lemma fits_value {A} k z (f : bool -> M A) Q :
  is_concrete_integer_kind k = true -> canonical (of_value z) ->
  evaluates c (f (in_range_of k z)) Q -> evaluates c (b ← fits (of_value z) k; f b) Q.
Proof.
  intros Hk Hz H. eapply evaluates_lift; [apply fits_range; [done|]|by rewrite value_of_of_value].
  unfold is_integer_kind. by rewrite Hk.
Qed.

Lemma arithmetic_gives op :
  is_arithmetic op = true ->
  gives c (eval_const_arithmetic n op l r) (integer_binary op k1 z1 k2 z2).
Proof using All.
  intros Hop. destruct operand_kinds as (Hk1 & Hi1 & Hk2 & Hi2).
  destruct operands_canonical as [Hc1 Hc2]. destruct operand_values as [Hv1 Hv2].
  pose proof common_result_type as Hcommon.
  unfold eval_const_arithmetic, integer_binary, gives. apply operand_types, evaluates_get.
  destruct (integer_numeric (types c) _ _ Hk1 Hi1) as (-> & _).
  destruct (integer_numeric (types c) _ _ Hk2 Hi2) as (-> & _). cbn [negb orb].
  rewrite !(integer_type_kind _ _ _ Hk1), !(integer_type_kind _ _ _ Hk2), Hi1, Hi2, andb_false_r.
  destruct (common_kind k1 k2) as [k|]; cbn.
  2:{ rewrite Hcommon. eapply evaluates_lift; [done|]. by apply gives_fail. }
  destruct Hcommon as (i & -> & Hcan & Hik & Hint & Hok).
  eapply evaluates_lift; [exact Hok|].
  destruct (operation_kind k z1 z2) as [ok|] eqn:Hopk; cbn; [|by apply gives_fail].
  apply operation_kind_concrete in Hopk as [Hconc Hsame]. rewrite Hv1, Hv2, Hconc.
  apply fits_value; [done..|]. apply fits_value; [done..|].
  destruct (in_range_of ok z1) eqn:Hr1; [|by apply gives_fail]. cbn.
  destruct (in_range_of ok z2) eqn:Hr2; [|by apply gives_fail]. cbn.
  apply gives_operation; try done.
  pose proof (integer_arithmetic_spec c n op ok (of_value z1) (of_value z2)) as H.
  rewrite !value_of_of_value in H. by apply H.
Qed.

Lemma bitwise_gives op :
  is_bitwise op = true ->
  gives c (eval_const_bitwise n op l r) (integer_binary op k1 z1 k2 z2).
Proof using All.
  intros Hop. destruct operand_kinds as (Hk1 & Hi1 & Hk2 & Hi2).
  destruct operands_canonical as [Hc1 Hc2]. destruct operand_values as [Hv1 Hv2].
  pose proof common_result_type as Hcommon.
  unfold eval_const_bitwise, integer_binary, gives. apply operand_types, evaluates_get.
  rewrite Hv1, Hv2, !(integer_type_kind _ _ _ Hk1), !(integer_type_kind _ _ _ Hk2), Hi1, Hi2.
  cbn [negb orb]. destruct (common_type_spec (types c) _ _ k1 k2 Hk1 Hk2 Hi1 Hi2) as [-> _].
  destruct (common_kind k1 k2) as [k|]; cbn.
  2:{ rewrite Hcommon. eapply evaluates_lift; [done|]. by apply gives_fail. }
  destruct Hcommon as (i & -> & Hcan & Hik & Hint & Hok).
  eapply evaluates_lift; [exact Hok|].
  destruct (operation_kind k z1 z2) as [ok|] eqn:Hopk; cbn; [|by apply gives_fail].
  apply operation_kind_concrete in Hopk as [Hconc Hsame]. rewrite Hconc. cbn.
  apply fits_value; [done..|]. apply fits_value; [done..|].
  destruct (in_range_of ok z1) eqn:Hr1; [|by apply gives_fail]. cbn.
  destruct (in_range_of ok z2) eqn:Hr2; [|by apply gives_fail]. cbn.
  pose proof (bitwise_operation ok op z1 z2 Hconc Hop Hr1 Hr2) as (z & -> & Hz & Hbits).
  eapply evaluates_lift; [exact Hbits|]. cbn.
  pose proof (gives_integer_result c n (Some i) k ok (of_value z)) as H.
  rewrite value_of_of_value in H. by apply H.
Qed.

Lemma shift_gives op right_node :
  is_shift op = true ->
  gives c (eval_const_shift n right_node op l r) (integer_shift op k1 z1 z2).
Proof using All.
  intros Hop. destruct operand_kinds as (Hk1 & Hi1 & Hk2 & Hi2).
  destruct operands_canonical as [Hc1 Hc2]. destruct operand_values as [Hv1 Hv2].
  assert (Hrange1 : in_range_of k1 z1 = true) by apply Hl.
  unfold eval_const_shift, integer_shift, gives. apply operand_types, evaluates_get.
  rewrite Hv1, Hv2, !(integer_type_kind _ _ _ Hk1), !(integer_type_kind _ _ _ Hk2), Hi1, Hi2.
  cbn [negb]. unfold kind_of, ask. apply evaluates_get.
  pose proof Hk1 as (t & Ht & Htk)%has_kind_deref. rewrite Ht. cbn. rewrite Htk.
  eapply evaluates_lift; [by apply default_kind_spec|]. rewrite value_of_of_value.
  assert (Hok : (if is_concrete_integer_kind k1 then Some k1
                 else if bool_decide (Some k1 = Some TYPE_UNTYPED_INT) then default_kind z1 else None)
                = (if is_concrete_integer_kind k1 then Some k1 else default_kind z1)).
  { apply integer_kind_cases in Hi1 as [->| ->]; [done|by rewrite bool_decide_eq_true_2]. }
  rewrite Hok. destruct (if is_concrete_integer_kind k1 then Some k1 else default_kind z1) as [ok|] eqn:E;
    cbn; [|by apply gives_fail].
  assert (Hconc : is_concrete_integer_kind ok = true /\ in_range_of ok z1 = true
                  /\ (is_concrete_integer_kind k1 = true -> ok = k1)).
  { destruct (is_concrete_integer_kind k1) eqn:Hk; [by injection E as <-|].
    apply default_kind_range in E as [? [-> | [-> | ->]]]; done. }
  destruct Hconc as (Hconc & Hrange & Hsame). apply fits_value; [done..|]. rewrite Hrange. cbn.
  apply concrete_info in Hconc as Hinfo. destruct Hinfo as [info Hi].
  rewrite (kind_width ok info), Hi by done. cbn.
  pose proof (integer_type_info_valid _ _ Hi) as [_ Hw]. rewrite classify_count by done.
  destruct (Z.ltb_spec z2 0).
  { rewrite (proj2 (Z.leb_gt 0 z2)) by lia. by apply gives_fail. }
  rewrite (proj2 (Z.leb_le 0 z2)) by lia. cbn.
  destruct (Z.leb_spec (bit_width info) z2).
  { rewrite (proj2 (Z.ltb_ge z2 _)) by lia. by apply gives_fail. }
  rewrite (proj2 (Z.ltb_lt z2 _)) by lia.
  rewrite (in_range_info ok info) in Hrange by done. apply bool_decide_eq_true in Hrange.
  destruct (shift_operation ok info op z1 z2 Hi Hop Hrange ltac:(lia)) as [Hcan Hshift].
  eapply evaluates_lift; [exact Hshift|]. cbn zeta in Hcan |- *.
  pose (res := if bool_decide (op = TOK_SHIFT_LEFT) then wrap info (z1 * 2 ^ z2) else z1 / 2 ^ z2).
  pose proof (gives_integer_result c n (const_value_type l) k1 ok (of_value res)) as Hg.
  rewrite value_of_of_value in Hg. apply Hg; try done.
  apply Hl.
Qed.

Lemma comparison_gives op :
  is_comparison op = true ->
  gives c (eval_const_comparison n op l r) (integer_compare op k1 z1 k2 z2).
Proof using All.
  intros Hop. destruct operand_kinds as (Hk1 & Hi1 & Hk2 & Hi2).
  destruct operands_canonical as [Hc1 Hc2]. destruct operand_values as [Hv1 Hv2].
  pose proof common_result_type as Hcommon.
  unfold eval_const_comparison, integer_compare, gives. apply operand_types, evaluates_get.
  destruct (integer_numeric (types c) _ _ Hk1 Hi1) as (-> & _).
  destruct (integer_numeric (types c) _ _ Hk2 Hi2) as (-> & _). cbn [andb].
  unfold eval_numeric_comparison. apply evaluates_get.
  destruct (common_kind k1 k2) as [k|]; cbn.
  2:{ rewrite Hcommon. eapply evaluates_lift; [done|]. by apply gives_fail. }
  destruct Hcommon as (i & -> & Hcan & Hik & Hint & Hok).
  eapply evaluates_lift; [exact Hok|].
  destruct (operation_kind k z1 z2) as [ok|] eqn:Hopk; cbn; [|by apply gives_fail].
  apply operation_kind_concrete in Hopk as [Hconc Hsame]. rewrite Hv1, Hv2, Hconc.
  apply fits_value; [done..|]. apply fits_value; [done..|].
  destruct (in_range_of ok z1) eqn:Hr1; [|by apply gives_fail]. cbn.
  destruct (in_range_of ok z2) eqn:Hr2; [|by apply gives_fail]. cbn.
  rewrite compare_spec, <- compare_with_sgn. by apply ordered_result_gives.
Qed.
End Binary.

(** ** Unary operators *)

(** [Aborted] is a failed assertion: the default kind of 2^63 is unsigned, and the negation
    asserts a signed kind. *)
Definition integer_negation (k : TypeKind) (z : Z) : outcome (option meaning) :=
  if is_unsigned_integer_kind k then Returned None
  else if is_concrete_integer_kind k then Returned (checked_result k k (- z))
  else match default_kind (- z) with
       | None => Returned None
       | Some TYPE_U64 => Aborted
       | Some ok => Returned (checked_result k ok (- z))
       end.

Definition integer_complement (k : TypeKind) (z : Z) : option meaning :=
  ok ← (if is_concrete_integer_kind k then Some k else default_kind z);
  info ← integer_type_info ok;
  checked_result k ok (wrap info (-1 - z)).

(** The operand of the negation that aborts. *)
Lemma negation_aborts k z :
  is_integer_kind k = true -> in_range_of k z = true ->
  integer_negation k z = Aborted <-> k = TYPE_UNTYPED_INT /\ z = - 2 ^ 63.
Proof.
  intros [Hk| ->]%integer_kind_cases Hr; unfold integer_negation.
  - rewrite Hk. split; [by destruct (is_unsigned_integer_kind k)|]. by intros [-> _].
  - cbn [is_unsigned_integer_kind integer_type_info is_concrete_integer_kind].
    unfold default_kind, in_range_of in *. cbn in *. to_props.
    repeat case_bool_decide; unfold in_range, type_min, type_max in *; cbn in *;
      split; try done; intros; first [split; [done|lia] | lia].
Qed.

Section Unary.
Context (c : SemanticContext) (Hc : context_ok c) (n : Node) (v : ConstValue)
  (k : TypeKind) (z : Z) (Hv : represents c v (MInt k z)).

Lemma operand_type {A} (f : TypePtr -> M A) Q :
  evaluates c (f (const_value_type v)) Q ->
  evaluates c (t ← const_value_default_type v; f t) Q.
Proof using Hv. intros H. eapply evaluates_pure; [apply default_type_run, Hv|]. done. Qed.

Lemma untyped_operand_kind {A} (f : option TypeKind -> M A) Q :
  evaluates c (f (Some k)) Q -> evaluates c (k ← kind_of (const_value_type v); f k) Q.
Proof using Hv.
  intros H. destruct Hv as (_ & (t & Ht & <-)%has_kind_deref & _).
  unfold kind_of, ask. apply evaluates_get. by rewrite Ht.
Qed.

Lemma operand_canonical : canonical (of_value z).
Proof using Hv.
  destruct Hv as (_ & _ & ? & ? & _). eauto using of_value_canonical, in_range_of_bound.
Qed.

Lemma result_gives ok x :
  is_concrete_integer_kind ok = true -> (is_concrete_integer_kind k = true -> ok = k) ->
  canonical (of_value x) ->
  gives c (integer_constant_result n (const_value_type v) ok (of_value x)) (checked_result k ok x).
Proof using Hc Hv.
  intros Hok Hsame Hx.
  pose proof (gives_integer_result c n (const_value_type v) k ok (of_value x)) as H.
  rewrite value_of_of_value in H. destruct Hv as (? & ? & ? & _). by apply H.
Qed.

(** The negation in a signed kind. *)
Definition negate_in (ok : TypeKind) : M (option ConstValue) :=
  status ← lift (evaluate_checked_integer_negation (of_value z) ok);
  match status with
  | (CHECKED_INTEGER_ARITHMETIC_VALID, Some x) =>
      integer_constant_result n (const_value_type v) ok x
  | _ => fail n overflow_message
  end.

Lemma negate_in_kind ok info :
  integer_type_info ok = Some info -> is_signed info = true ->
  (is_concrete_integer_kind k = true -> ok = k) -> gives c (negate_in ok) (checked_result k ok (- z)).
Proof using Hc Hv.
  intros Hi Hs Hsame. unfold gives, negate_in.
  eapply evaluates_lift; [by apply checked_negation_correct; [..|apply operand_canonical]|].
  rewrite value_of_of_value. unfold checked.
  destruct (bool_decide_reflect (in_range info (- z))) as [Hin|Hout].
  - apply result_gives; [by eapply concrete_kind|done|].
    by eapply in_range_canonical; [eapply integer_type_info_valid|].
  - unfold checked_result. rewrite (in_range_info ok info) by done.
    rewrite bool_decide_eq_false_2 by done. by apply gives_fail.
Qed.

(** What the negation does once the operand's type is known. *)
Lemma negation_run :
  eval_const_negation n v c =
  (if is_unsigned_integer_kind k then fail n "unary '-' cannot be applied to an unsigned value"
   else if is_concrete_integer_kind k then negate_in k
   else match default_kind (- z) with
        | Some ok => negate_in ok
        | None => fail n overflow_message
        end) c.
Proof using Hv.
  pose proof Hv as (Hcan & (t & Ht & Hk)%has_kind_deref & Hi & Hr & Ha).
  pose proof (negated_canonical _ operand_canonical) as Hn.
  unfold eval_const_negation. rewrite Ha. unfold mbind, M_bind.
  rewrite (default_type_run c v Hcan). unfold kind_of, ask, get. rewrite Ht. cbn. rewrite Hk.
  destruct (is_unsigned_integer_kind k) eqn:Hu; [done|].
  unfold lift at 1. rewrite default_kind_spec by done. cbn.
  rewrite value_of_negated, !value_of_of_value by apply operand_canonical.
  apply integer_kind_cases in Hi as [Hconc| ->].
  - rewrite Hconc, bool_decide_eq_false_2 by (intros [= ->]; done).
    apply concrete_info in Hconc as [info Hinfo].
    unfold is_signed_integer_kind, is_unsigned_integer_kind in *. rewrite Hinfo in *.
    by destruct (is_signed info).
  - rewrite bool_decide_eq_true_2 by done. by destruct (default_kind (- z)).
Qed.

Lemma negation_gives :
  match integer_negation k z with
  | Returned r => gives c (eval_const_negation n v) r
  | Aborted => eval_const_negation n v c = Aborted
  end.
Proof using Hc Hv.
  assert (Hrun : forall m, eval_const_negation n v c = m c -> forall r, gives c m r ->
            gives c (eval_const_negation n v) r).
  { intros m Hm r Hr. unfold gives, evaluates in *. by rewrite Hm. }
  pose proof negation_run as E. unfold integer_negation.
  pose proof Hv as (_ & _ & Hi & _).
  destruct (is_unsigned_integer_kind k) eqn:Hu; [by eapply Hrun, gives_fail|].
  destruct (is_concrete_integer_kind k) eqn:Hconc.
  - eapply Hrun; [exact E|]. apply concrete_info in Hconc as [info Hinfo].
    eapply negate_in_kind; [done| |done]. unfold is_unsigned_integer_kind in Hu.
    rewrite Hinfo in Hu. by apply negb_false_iff.
  - destruct (default_kind (- z)) as [ok|] eqn:Hd; [|by eapply Hrun, gives_fail].
    apply default_kind_range in Hd as [_ [-> | [-> | ->]]].
    + eapply Hrun; [exact E|]. by eapply negate_in_kind; [..|rewrite Hconc].
    + eapply Hrun; [exact E|]. by eapply negate_in_kind; [..|rewrite Hconc].
    + by rewrite E.
Qed.

Lemma complement_gives : gives c (eval_const_complement n v) (integer_complement k z).
Proof using Hc Hv.
  pose proof Hv as (Hcan & Hk & Hi & Hr & Ha). pose proof operand_canonical as Hz0.
  unfold eval_const_complement, integer_complement, gives.
  rewrite Ha. apply operand_type, untyped_operand_kind.
  assert (Hin : forall ok, is_concrete_integer_kind ok = true -> in_range_of ok z = true ->
    (is_concrete_integer_kind k = true -> ok = k) ->
    gives c (x ← lift (integer_value_bitwise_not (of_value z) ok);
             match x with
             | None => fail n "integer constant operand does not fit operation type"
             | Some x => integer_constant_result n (const_value_type v) ok x
             end) (info ← integer_type_info ok; checked_result k ok (wrap info (-1 - z)))).
  { intros ok Hok Hz Hsame. apply concrete_info in Hok as Hinfo. destruct Hinfo as [info Hinfo].
    rewrite (in_range_info ok info) in Hz by done. apply bool_decide_eq_true in Hz.
    pose proof (integer_value_shift_correct ok info (of_value z) 0 Hinfo operand_canonical) as H.
    rewrite value_of_of_value in H. destruct (H Hz ltac:(lia)) as [Hnot _].
    unfold gives. eapply evaluates_lift; [exact Hnot|]. rewrite Hinfo. cbn.
    apply result_gives; [done..|]. pose proof (integer_type_info_valid _ _ Hinfo).
    by eapply in_range_canonical, wrap_in_range. }
  apply integer_kind_cases in Hi as [Hconc| ->].
  - rewrite Hconc. cbn. by apply Hin.
  - cbn. eapply evaluates_lift; [by apply default_kind_spec|].
    rewrite value_of_of_value. destruct (default_kind z) as [ok|] eqn:Hd; [|by apply gives_fail].
    apply default_kind_range in Hd as [Hz Hok]. cbn.
    apply Hin; [by destruct Hok as [-> | [-> | ->]]|done|done].
Qed.
End Unary.

(** ** Wrapping builtins *)

Definition wrapped (b : BuiltinKind) (z1 z2 : Z) : Z :=
  match b with
  | BUILTIN_WRAPPING_ADD => z1 + z2
  | BUILTIN_WRAPPING_SUB => z1 - z2
  | _ => z1 * z2
  end.

(** Both arguments have the same concrete type. *)
Definition integer_wrapping (b : BuiltinKind) (k1 : TypeKind) (z1 : Z) (k2 : TypeKind) (z2 : Z)
    : option meaning :=
  info ← integer_type_info k1;
  if bool_decide (k1 = k2) then Some (MInt k1 (wrap info (wrapped b z1 z2))) else None.

Definition integer_wrapping_neg (k : TypeKind) (z : Z) : option meaning :=
  info ← integer_type_info k; Some (MInt k (wrap info (- z))).

Definition is_wrapping_binary (b : BuiltinKind) : bool :=
  match b with
  | BUILTIN_WRAPPING_ADD | BUILTIN_WRAPPING_SUB | BUILTIN_WRAPPING_MUL => true
  | _ => false
  end.

Lemma gives_type_error c call b status :
  context_ok c -> sym_kind b = SYMBOL_BUILTIN ->
  (forall p, status <> WRAPPING_BUILTIN_TYPE_VALID p) ->
  gives c (report_wrapping_builtin_type_error call b status ;; mret None) None.
Proof.
  intros Hc Hb Hs. unfold gives. eapply evaluates_bind.
  { unfold report_wrapping_builtin_type_error. apply evaluates_require; [by apply bool_decide_eq_true|].
    instantiate (1 := fun _ => reported).
    destruct status; [by destruct (Hs result_type)|destruct (bool_decide _)|]; by apply evaluates_error. }
  intros [] c' Hc' _ Hr. by apply evaluates_ret.
Qed.

Lemma concrete_kind_type ts p k :
  has_kind ts p k = true -> has_concrete_integer_kind ts p = is_concrete_integer_kind k.
Proof. intros (t & Ht & <-)%has_kind_deref. unfold has_concrete_integer_kind, kind_satisfies. by rewrite Ht. Qed.


Section Wrapping.
Context (c : SemanticContext) (Hc : context_ok c) (call : Node) (b : Symbol)
  (Hb : sym_kind b = SYMBOL_BUILTIN).

(** The result of a builtin that computed its value. *)
Lemma wrapped_gives p k info z :
  integer_type_info k = Some info -> canonical_type c p -> has_kind (types c) p k = true ->
  gives c (integer_constant_result call p k (of_value (wrap info z))) (Some (MInt k (wrap info z))).
Proof using Hc.
  intros Hi Hp Hk. pose proof (integer_type_info_valid _ _ Hi) as Hv.
  pose proof (wrap_in_range info z Hv) as Hw. pose proof (concrete_kind _ _ Hi) as Hconc.
  pose proof (gives_integer_result c call p k k (of_value (wrap info z))) as H.
  rewrite value_of_of_value in H. unfold checked_result in H.
  rewrite (in_range_info k info), bool_decide_eq_true_2 in H by done.
  rewrite bool_decide_eq_false_2 in H by (intros ->; done). apply H; try done.
  - unfold is_integer_kind. by rewrite Hconc.
  - by eapply in_range_canonical.
Qed.

Lemma wrapping_gives l r k1 k2 z1 z2 :
  represents c l (MInt k1 z1) -> represents c r (MInt k2 z2) ->
  is_wrapping_binary (sym_builtin b) = true ->
  gives c (wrapping_binary_value call b l r) (integer_wrapping (sym_builtin b) k1 z1 k2 z2).
Proof using Hc Hb.
  intros Hl Hr Hw. unfold wrapping_binary_value, integer_wrapping, gives.
  eapply operand_types; [exact Hl|exact Hr|]. apply evaluates_get.
  destruct Hl as (Cl & Kl & Il & Rl & Vl), Hr as (Cr & Kr & Ir & Rr & Vr).
  unfold classify_wrapping_binary_types.
  rewrite (concrete_kind_type _ _ _ Kl), (concrete_kind_type _ _ _ Kr),
    (type_equal_integer _ _ _ _ _ Kl Kr Il).
  destruct (integer_type_info k1) as [info|] eqn:Hi; cbn.
  2:{ unfold is_concrete_integer_kind at 1. rewrite Hi. cbn. by apply gives_type_error. }
  rewrite (concrete_kind _ _ Hi). cbn.
  destruct (bool_decide_reflect (k1 = k2)) as [<-|Hne].
  - rewrite (concrete_kind _ _ Hi). cbn.
    pose proof Kl as (t & Ht & Hkt)%has_kind_deref.
    destruct (const_value_type l) as [i|] eqn:Hp; [|done].
    apply evaluates_require; [done|]. rewrite Vl, Vr, Ht. cbn. rewrite Hkt.
    rewrite (in_range_info k1 info) in Rl, Rr by done. apply bool_decide_eq_true in Rl, Rr.
    pose proof (integer_type_info_valid _ _ Hi) as Hv.
    destruct (wrapping_builtins_correct k1 info (of_value z1) (of_value z2) Hi) as (Ha & Hs & Hm & _);
      rewrite ?value_of_of_value; try done; try by eapply in_range_canonical.
    rewrite !value_of_of_value in Ha, Hs, Hm.
    eapply (evaluates_lift _ _ (Some (of_value (wrap info (wrapped (sym_builtin b) z1 z2)))));
      [by destruct (sym_builtin b)|by apply (wrapped_gives (Some i))].
  - destruct (negb (is_concrete_integer_kind k2)); by apply gives_type_error.
Qed.

Lemma wrapping_neg_gives v k z :
  represents c v (MInt k z) -> gives c (wrapping_neg_value call b v) (integer_wrapping_neg k z).
Proof using Hc Hb.
  intros Hv. unfold wrapping_neg_value, integer_wrapping_neg, gives.
  eapply operand_type; [exact Hv|]. apply evaluates_get.
  destruct Hv as (Cv & Kv & Iv & Rv & Vv). unfold classify_wrapping_neg_type.
  rewrite (concrete_kind_type _ _ _ Kv).
  destruct (integer_type_info k) as [info|] eqn:Hi; cbn.
  2:{ unfold is_concrete_integer_kind at 1. rewrite Hi. cbn. by apply gives_type_error. }
  rewrite (concrete_kind _ _ Hi). cbn. pose proof Kv as (t & Ht & Hkt)%has_kind_deref.
  destruct (const_value_type v) as [i|] eqn:Hp; [|done].
  apply evaluates_require; [done|]. rewrite Vv, Ht. cbn. rewrite Hkt.
  rewrite (in_range_info k info) in Rv by done. apply bool_decide_eq_true in Rv.
  pose proof (integer_type_info_valid _ _ Hi) as Hvi.
  destruct (wrapping_builtins_correct k info (of_value z) (of_value z) Hi) as (_ & _ & _ & Hn);
    rewrite ?value_of_of_value; try done; try by eapply in_range_canonical.
  rewrite value_of_of_value in Hn. eapply evaluates_lift; [exact Hn|].
  by apply (wrapped_gives (Some i) k info (- z)).
Qed.
End Wrapping.
