(* ===== verification/ConstantTyping.v ===== *)
(** The operators of constant evaluation keep constants within their types.

    Applied to constants that their types admit, every operator returns, with a constant that
    its type admits or with an error; the one exception is the negation of
    [ConstantArithmetic]. *)
From Stdlib Require Import SpecFloat.
From S2P Require Import Prelude Token Types Source Lexer IntegerValue TypeRelations Target FlowState Ast SemContext Modules ConstantEvaluation ConstantFloat ConstantInvariant ConstantArithmetic.

(** A constant of its type, or an error. *)
Definition typed (c : SemanticContext) (m : M (option ConstValue)) : Prop :=
  evaluates c m (succeeds (fun v c' => value_ok c' v)).

Lemma typed_fail c n msg : context_ok c -> typed c (fail n msg).
Proof. intros. by apply evaluates_fail. Qed.

Lemma typed_result c p a : context_ok c -> canonical_type c p -> admits (types c) p a -> typed c (result p a).
Proof. intros. by apply evaluates_ret. Qed.

Lemma typed_bool c b : context_ok c -> typed c (boolean_result b).
Proof. intros. by eapply gives_succeeds, gives_bool. Qed.

#[export] Hint Resolve typed_fail typed_bool : coglet.

(** Every branch reports an error or has a boolean. *)
Ltac typed_branches := repeat case_match; auto with coglet.

Lemma values_equal a b : integer_values_equal a b = true -> a = b.
Proof.
  destruct a, b. unfold integer_values_equal. cbn. intros [H1%Z.eqb_eq H2%eqb_prop]%andb_true_iff.
  by subst.
Qed.

Section Operators.
Context (c : SemanticContext) (Hc : context_ok c).

Lemma evaluates_type {A} v (f : TypePtr -> M A) Q :
  value_ok c v -> evaluates c (f (const_value_type v)) Q ->
  evaluates c (t ← const_value_default_type v; f t) Q.
Proof. intros [Hv _] H. eapply evaluates_pure; [by apply default_type_run|]. done. Qed.

Lemma value_int_canonical v i : value_ok c v -> const_value_as v = CONST_VALUE_INT i -> canonical i.
Proof. intros [_ (t & _ & Ha)] Hi. rewrite Hi in Ha. apply Ha. Qed.

Lemma value_float v d :
  value_ok c v -> const_value_as v = CONST_VALUE_FLOAT d ->
  mantissa_fits 53 d /\ kind_satisfies (types c) is_float_kind (const_value_type v) = true.
Proof.
  intros [_ (t & Ht & Ha)] Hi. rewrite Hi in Ha. destruct Ha as (Hk & Hm & _).
  unfold kind_satisfies. by rewrite Ht.
Qed.

Lemma default_kind_returns i : canonical i -> exists r, default_integer_kind_for_value i = Returned r.
Proof. intros H. rewrite default_kind_spec by done. by eexists. Qed.

Lemma default_numeric_kind_returns v :
  value_ok c v -> exists r, default_numeric_kind_for_constant (types c) v = Returned r.
Proof.
  intros Hv. unfold default_numeric_kind_for_constant.
  assert (Hby : exists r, match const_value_as v with
                | CONST_VALUE_INT i => default_integer_kind_for_value i
                | CONST_VALUE_FLOAT _ => Returned (Some TYPE_F64)
                | _ => Returned None end = Returned r).
  { destruct (const_value_as v) eqn:Ha; try by eexists.
    eapply default_kind_returns, value_int_canonical; eauto. }
  destruct (deref _ _); [|done]. destruct (is_untyped_numeric_kind _); [done|].
  destruct (_ || _); by eexists.
Qed.

(** The kind of an operation; a concrete common type decides it. *)
Lemma operation_kind_returns l r p :
  value_ok c l -> value_ok c r ->
  exists o, constant_numeric_operation_kind (types c) l r p = Returned o /\
    forall t, deref (types c) p = Some t ->
      is_concrete_integer_kind (kind t) || is_concrete_float_kind (kind t) = true ->
      o = Some (kind t).
Proof.
  intros Hl Hr. unfold constant_numeric_operation_kind.
  destruct (deref (types c) p) as [t|] eqn:Ht; [|by eexists].
  destruct (_ || _) eqn:Hk; [eexists; split; [done|]; by intros ? [= <-]|].
  assert (Hno : forall o : option TypeKind, exists o', Returned o = Returned o' /\
    forall t0, Some t = Some t0 ->
    is_concrete_integer_kind (kind t0) || is_concrete_float_kind (kind t0) = true ->
    o' = Some (kind t0)).
  { intros o. exists o. split; [done|]. intros t0 [= <-]. congruence. }
  destruct (negb _); [apply Hno|].
  destruct (default_numeric_kind_returns l Hl) as [[lk|] ->]; [|apply Hno].
  destruct (default_numeric_kind_returns r Hr) as [[rk|] ->]; [cbn|apply Hno].
  repeat case_match; apply Hno.
Qed.

Lemma common_type_operand p q :
  common_numeric_type (types c) p q = None \/ common_numeric_type (types c) p q = p
  \/ common_numeric_type (types c) p q = q.
Proof. unfold common_numeric_type. repeat case_match; auto. Qed.

Lemma const_to_float v k d :
  value_ok c v -> const_value_to_float_type v k = Some d ->
  mantissa_fits 53 d /\ (k = TYPE_F32 -> single_precision d).
Proof.
  intros Hv. apply const_float_fits.
  - intros x Hx. by destruct (value_float v x Hv Hx).
  - intros i Hi. destruct (value_int_canonical v i Hv Hi). lia.
Qed.

Lemma float_result_typed n p ok d :
  canonical_type c p -> mantissa_fits 53 d ->
  (has_kind (types c) p TYPE_F32 = true -> ok = TYPE_F32) ->
  typed c (float_constant_result n p ok d).
Proof.
  intros Hp Hd Hok. unfold float_constant_result, typed, kind_of, ask. apply evaluates_get.
  destruct (round_float_for_type d ok) as [r|] eqn:Hr; [|by apply typed_fail].
  destruct (kind_is _ _ && _) eqn:Hk; [|by apply typed_fail].
  apply andb_true_iff in Hk as [Hk _]. pose proof Hp as (t & Ht & _). rewrite Ht in Hk. cbn in Hk.
  apply typed_result; [done|done|]. exists t. split; [done|]. split; [done|].
  destruct (round_float_fits d ok r Hd Hr) as [Hm Hs]. split; [done|].
  intros H32. apply Hs, Hok, has_kind_deref. eauto.
Qed.

Lemma negation_typed n v :
  value_ok c v ->
  typed c (eval_const_negation n v)
  \/ (eval_const_negation n v c = Aborted /\ represents c v (MInt TYPE_UNTYPED_INT (- 2 ^ 63))).
Proof.
  intros Hv. destruct (const_value_as v) as [i|d|b|] eqn:Ha.
  - destruct (value_ok_int c v i Hv Ha) as [(t & Ht & Hk)%has_kind_deref|[k Hr]].
    + left. unfold eval_const_negation, typed. rewrite Ha. apply evaluates_type; [done|].
      unfold kind_of, ask. apply evaluates_get. rewrite Ht. cbn. rewrite Hk. cbn.
      pose proof (value_int_canonical v i Hv Ha) as Hi.
      destruct (default_kind_returns _ (negated_canonical _ Hi)) as [r Hr].
      eapply evaluates_lift; [exact Hr|]. by apply typed_fail.
    + pose proof (negation_gives c Hc n v k (value_of i) Hr) as Hn.
      destruct (integer_negation k (value_of i)) as [r|] eqn:E; [left; by eapply gives_succeeds|].
      right. split; [done|]. pose proof Hr as (_ & _ & Hik & Hrange & _).
      apply negation_aborts in E as [-> Hz]; [|done..]. by rewrite Hz in Hr.
  - left. unfold eval_const_negation, typed. rewrite Ha. apply evaluates_type; [done|].
    apply evaluates_get. destruct (value_float v d Hv Ha) as [Hd Hf].
    unfold default_numeric_kind_for_constant. unfold kind_satisfies in Hf.
    destruct (deref (types c) (const_value_type v)) as [t|] eqn:Ht; [|done]. rewrite Ha.
    eapply evaluates_lift.
    { instantiate (1 := Some (if is_untyped_numeric_kind (kind t) then TYPE_F64 else kind t)).
      by destruct (kind t). }
    set (ok := if is_untyped_numeric_kind (kind t) then TYPE_F64 else kind t).
    cbv beta iota. assert (is_concrete_float_kind ok = true) as -> by (subst ok; by destruct (kind t)).
    apply float_result_typed; [apply Hv|by apply opp_fits|].
    intros (t' & Ht' & Hk)%has_kind_deref. simplify_eq. subst ok. by rewrite Hk.
  - left. unfold eval_const_negation. rewrite Ha. by apply typed_fail.
  - left. unfold eval_const_negation. rewrite Ha. by apply typed_fail.
Qed.

Lemma complement_typed n v : value_ok c v -> typed c (eval_const_complement n v).
Proof.
  intros Hv. destruct (const_value_as v) as [i|d|b|] eqn:Ha.
  2-4: unfold eval_const_complement; rewrite Ha; by apply typed_fail.
  destruct (value_ok_int c v i Hv Ha) as [(t & Ht & Hk)%has_kind_deref|[k Hr]].
  - unfold eval_const_complement, typed. rewrite Ha. apply evaluates_type; [done|].
    unfold kind_of, ask. apply evaluates_get. rewrite Ht. cbn. rewrite Hk. by apply typed_fail.
  - by eapply gives_succeeds, complement_gives.
Qed.

(** Operators on two constants *)

Section Operands.
Context (n : Node) (l r : ConstValue) (Hl : value_ok c l) (Hr : value_ok c r).

Lemma evaluates_types {A} (f : TypePtr -> TypePtr -> M A) Q :
  evaluates c (f (const_value_type l) (const_value_type r)) Q ->
  evaluates c (left_type ← const_value_default_type l;
               right_type ← const_value_default_type r; f left_type right_type) Q.
Proof using Hl Hr. intros H. by apply evaluates_type, evaluates_type. Qed.

(** An operand of an enumeration's type is neither an integer nor a number. *)
Lemma enum_types p :
  has_kind (types c) p TYPE_ENUM = true ->
  is_integer_type (types c) p = false /\ is_numeric_type (types c) p = false.
Proof.
  intros (t & Ht & Hk)%has_kind_deref. unfold is_integer_type, is_numeric_type, kind_satisfies.
  by rewrite Ht, Hk.
Qed.

Lemma logical_typed op : typed c (eval_const_logical n op l r).
Proof using Hc. unfold eval_const_logical. typed_branches. Qed.

Lemma bitwise_typed op : is_bitwise op = true -> typed c (eval_const_bitwise n op l r).
Proof using Hc Hl Hr.
  intros Hop. destruct (const_value_as l) as [i| | |] eqn:Ha, (const_value_as r) as [j| | |] eqn:Hb;
    try (unfold eval_const_bitwise, typed; apply evaluates_types, evaluates_get;
         rewrite Ha, ?Hb; by apply typed_fail).
  destruct (value_ok_int c l i Hl Ha) as [He|[k1 R1]], (value_ok_int c r j Hr Hb) as [He'|[k2 R2]];
    try (unfold eval_const_bitwise, typed; apply evaluates_types, evaluates_get;
         rewrite Ha, Hb; destruct (enum_types _ He) as [-> _] || destruct (enum_types _ He') as [-> _];
         rewrite ?orb_true_r; by apply typed_fail).
  by eapply gives_succeeds, bitwise_gives.
Qed.

Lemma shift_typed op right_node : is_shift op = true -> typed c (eval_const_shift n right_node op l r).
Proof using Hc Hl Hr.
  intros Hop. destruct (const_value_as l) as [i| | |] eqn:Ha;
    try (unfold eval_const_shift, typed; apply evaluates_types, evaluates_get;
         rewrite Ha; by apply typed_fail).
  destruct (value_ok_int c l i Hl Ha) as [He|[k1 R1]];
    [unfold eval_const_shift, typed; apply evaluates_types, evaluates_get;
     rewrite Ha; destruct (enum_types _ He) as [-> _]; by apply typed_fail|].
  destruct (const_value_as r) as [j| | |] eqn:Hb;
    try (unfold eval_const_shift, typed; apply evaluates_types, evaluates_get;
         rewrite Ha, Hb; destruct (negb _); by apply typed_fail).
  destruct (value_ok_int c r j Hr Hb) as [He'|[k2 R2]];
    [unfold eval_const_shift, typed; apply evaluates_types, evaluates_get;
     rewrite Ha, Hb; destruct (enum_types _ He') as [-> _]; destruct (negb _); by apply typed_fail|].
  by eapply gives_succeeds, shift_gives.
Qed.

Lemma ordered_typed op x : is_comparison op = true -> typed c (ordered_result op x).
Proof using Hc. intros Hop. by eapply gives_succeeds, ordered_result_gives. Qed.

Lemma float_comparison_typed op x y : is_comparison op = true -> typed c (float_comparison op x y).
Proof using Hc. intros Hop. destruct op; try done; by apply typed_bool. Qed.

Lemma evaluates_fits {A} v i k (f : bool -> M A) Q :
  value_ok c v -> const_value_as v = CONST_VALUE_INT i -> is_concrete_integer_kind k = true ->
  (forall b, evaluates c (f b) Q) -> evaluates c (b ← fits i k; f b) Q.
Proof.
  intros Hv Hi Hk Hf. eapply evaluates_lift; [|apply Hf].
  apply fits_range; [by eapply value_int_canonical|]. unfold is_integer_kind. by rewrite Hk.
Qed.

Lemma numeric_comparison_typed op p q :
  is_comparison op = true -> typed c (eval_numeric_comparison n op l r p q).
Proof using Hc Hl Hr.
  intros Hop. unfold eval_numeric_comparison, typed. apply evaluates_get.
  destruct (operation_kind_returns l r (common_numeric_type (types c) p q) Hl Hr) as (o & Ho & _).
  eapply evaluates_lift; [exact Ho|].
  destruct (common_numeric_type _ _ _); [|by apply typed_fail].
  destruct o as [ok|]; [|by apply typed_fail].
  destruct (is_concrete_integer_kind ok) eqn:Hok.
  - destruct (const_value_as l) eqn:Ha, (const_value_as r) eqn:Hb; try by apply typed_fail.
    eapply evaluates_fits; [exact Hl|done..|]. intros b1.
    eapply evaluates_fits; [exact Hr|done..|]. intros b2.
    destruct (_ || _); [by apply typed_fail|by apply ordered_typed].
  - destruct (if is_concrete_float_kind ok then _ else None); [|by apply typed_fail].
    destruct (const_value_to_float_type r ok); [by apply float_comparison_typed|by apply typed_fail].
Qed.

Lemma comparison_typed op : is_comparison op = true -> typed c (eval_const_comparison n op l r).
Proof using Hc Hl Hr.
  intros Hop. unfold eval_const_comparison, typed. apply evaluates_types, evaluates_get.
  destruct (_ && _); [by apply numeric_comparison_typed|].
  repeat case_match; first [by apply typed_fail | by apply ordered_typed].
Qed.

Lemma float_binary_typed op p ok :
  is_arithmetic op = true -> op <> TOK_PERCENT -> canonical_type c p ->
  (has_kind (types c) p TYPE_F32 = true -> ok = TYPE_F32) ->
  typed c (eval_float_binary_operation n op p ok l r).
Proof using Hc Hl Hr.
  intros Hop Hne Hp Hok. unfold eval_float_binary_operation, typed, kind_of, ask. apply evaluates_get.
  destruct (_ || _); [by apply typed_fail|].
  destruct (const_value_to_float_type l ok) as [x|] eqn:Hx; [|by apply typed_fail].
  destruct (const_value_to_float_type r ok) as [y|] eqn:Hy; [|by apply typed_fail].
  apply (const_to_float l) in Hx as [Hx _]; [|done]. apply (const_to_float r) in Hy as [Hy _]; [|done].
  destruct (bool_decide _).
  - destruct (float_operation 24 128 op) eqn:Hf; [|by destruct op].
    apply float_result_typed; [done|apply to_f64_fits|done].
  - destruct (float_operation 53 1024 op) eqn:Hf; [|by destruct op].
    apply float_result_typed; [done|by eapply operation_fits|done].
Qed.

Lemma arithmetic_typed op : is_arithmetic op = true -> typed c (eval_const_arithmetic n op l r).
Proof using Hc Hl Hr.
  intros Hop.
  assert (Hother : (forall i j, const_value_as l = CONST_VALUE_INT i ->
            const_value_as r = CONST_VALUE_INT j -> False) -> typed c (eval_const_arithmetic n op l r)).
  { intros Hno. unfold eval_const_arithmetic, typed. apply evaluates_types, evaluates_get.
    destruct (_ || _); [by apply typed_fail|].
    destruct (_ && _) eqn:Hp; [by apply typed_fail|].
    set (p := common_numeric_type _ _ _).
    destruct (operation_kind_returns l r p Hl Hr) as (o & Ho & Hokind).
    eapply evaluates_lift; [exact Ho|].
    destruct p as [i|] eqn:Hpi; [|by apply typed_fail]. destruct o as [ok|]; [|by apply typed_fail].
    assert (Hcan : canonical_type c (Some i)).
    { destruct (common_type_operand (const_value_type l) (const_value_type r)) as [E|[E|E]];
        fold p in E; rewrite Hpi in E; [done|rewrite E; apply Hl|rewrite E; apply Hr]. }
    assert (typed c (if bool_decide (op = TOK_PERCENT) then fail n "'%' requires integer constants"
                     else eval_float_binary_operation n op (Some i) ok l r)).
    { case_bool_decide; [by apply typed_fail|]. apply float_binary_typed; try done.
      intros (t & Ht & Hk)%has_kind_deref. specialize (Hokind t Ht). rewrite Hk in Hokind.
      specialize (Hokind eq_refl). congruence. }
    destruct (const_value_as l), (const_value_as r); try done. by exfalso; eapply Hno. }
  destruct (const_value_as l) as [i| | |] eqn:Ha; try (apply Hother; congruence).
  destruct (const_value_as r) as [j| | |] eqn:Hb; try (apply Hother; congruence).
  destruct (value_ok_int c l i Hl Ha) as [He|[k1 R1]], (value_ok_int c r j Hr Hb) as [He'|[k2 R2]];
    try (unfold eval_const_arithmetic, typed; apply evaluates_types, evaluates_get;
         destruct (enum_types _ He) as [_ ->] || destruct (enum_types _ He') as [_ ->];
         rewrite ?orb_true_r; by apply typed_fail).
  by eapply gives_succeeds, arithmetic_gives.
Qed.

(** [case NODE_BINARY:], after the operands. *)
Lemma binary_typed op right_node : typed c (eval_const_binary n right_node op l r).
Proof using Hc Hl Hr.
  unfold eval_const_binary. destruct op; try (by apply typed_fail);
    first [apply logical_typed | by apply comparison_typed | by apply bitwise_typed
          | by apply shift_typed | by apply arithmetic_typed].
Qed.
End Operands.

(** ** Unary operators, wrapping builtins *)

Lemma unary_typed n op v :
  value_ok c v ->
  typed c (eval_const_unary n op v)
  \/ (op = TOK_MINUS /\ eval_const_unary n op v c = Aborted
      /\ represents c v (MInt TYPE_UNTYPED_INT (- 2 ^ 63))).
Proof using Hc.
  intros Hv. destruct op; try (left; by apply typed_fail); cbn [eval_const_unary].
  all: first [by left; apply complement_typed | by left; typed_branches | idtac].
  destruct (negation_typed n v Hv) as [|[? ?]]; [by left|by right].
Qed.

(** A value of a concrete integer type is an integer. *)
Lemma concrete_value v :
  value_ok c v -> has_concrete_integer_kind (types c) (const_value_type v) = true ->
  exists k z, represents c v (MInt k z).
Proof using.
  intros Hv Hk. pose proof Hv as [_ (t & Ht & Ha)].
  unfold has_concrete_integer_kind, kind_satisfies in Hk. rewrite Ht in Hk.
  destruct (const_value_as v) as [i|d|b|] eqn:E.
  - destruct (value_ok_int c v i Hv E) as [(t' & Ht' & He)%has_kind_deref|[k Hr]]; [|by eauto].
    simplify_eq. by rewrite He in Hk.
  - destruct Ha as [Ha _]. by destruct (kind t).
  - by rewrite Ha in Hk.
  - unfold is_nullable_pointer_type, is_raw_pointer_type, is_typed_pointer_type,
      is_opaque_pointer_type, is_c_function_pointer_type, has_kind in Ha. rewrite Ht in Ha.
    by destruct (kind t), Ha.
Qed.

Lemma typed_type_error call b status :
  sym_kind b = SYMBOL_BUILTIN -> (forall p, status <> WRAPPING_BUILTIN_TYPE_VALID p) ->
  typed c (report_wrapping_builtin_type_error call b status ;; mret None).
Proof using Hc. intros. by eapply gives_succeeds, gives_type_error. Qed.

Lemma wrapping_binary_typed call b l r :
  sym_kind b = SYMBOL_BUILTIN -> is_wrapping_binary (sym_builtin b) = true ->
  value_ok c l -> value_ok c r -> typed c (wrapping_binary_value call b l r).
Proof using Hc.
  intros Hb Hw Hl Hr.
  destruct (has_concrete_integer_kind (types c) (const_value_type l)) eqn:E1;
    [destruct (has_concrete_integer_kind (types c) (const_value_type r)) eqn:E2|].
  - destruct (concrete_value l Hl E1) as (k1 & z1 & R1), (concrete_value r Hr E2) as (k2 & z2 & R2).
    by eapply gives_succeeds, wrapping_gives.
  - unfold wrapping_binary_value, typed. apply evaluates_types, evaluates_get; [done..|].
    unfold classify_wrapping_binary_types. rewrite E1, E2. by apply typed_type_error.
  - unfold wrapping_binary_value, typed. apply evaluates_types, evaluates_get; [done..|].
    unfold classify_wrapping_binary_types. rewrite E1. by apply typed_type_error.
Qed.

Lemma wrapping_neg_typed call b v :
  sym_kind b = SYMBOL_BUILTIN -> value_ok c v -> typed c (wrapping_neg_value call b v).
Proof using Hc.
  intros Hb Hv.
  destruct (has_concrete_integer_kind (types c) (const_value_type v)) eqn:E.
  - destruct (concrete_value v Hv E) as (k & z & R). by eapply gives_succeeds, wrapping_neg_gives.
  - unfold wrapping_neg_value, typed. apply evaluates_type, evaluates_get; [done|].
    unfold classify_wrapping_neg_type. rewrite E. by apply typed_type_error.
Qed.

(** ** Conversions *)

Lemma fits_returns i k : canonical i -> exists b, integer_value_fits_type i k = Returned b.
Proof using.
  intros Hi. destruct (is_integer_kind k) eqn:Hk; [rewrite fits_range by done; by eexists|].
  unfold is_integer_kind, is_concrete_integer_kind in Hk. apply orb_false_iff in Hk as [Hk Hu].
  unfold integer_value_fits_type. rewrite Hu. destruct (integer_type_info k); [done|by eexists].
Qed.

Lemma admits_int t p i :
  deref (types c) p = Some t -> is_integer_kind (kind t) = true -> canonical i ->
  integer_value_fits_type i (kind t) = Returned true -> admits (types c) p (CONST_VALUE_INT i).
Proof using. intros Ht Hk Hi Hf. exists t. split; [done|]. split; [done|]. by right. Qed.

(** A cast makes a value of its target. *)
Lemma checked_cast_typed n v p t :
  value_ok c v -> canonical_type c p -> deref (types c) p = Some t ->
  is_untyped_numeric_kind (kind t) = false -> typed c (checked_cast_value n v p t).
Proof using Hc.
  intros Hv Hp Ht Hu. unfold checked_cast_value, typed. apply evaluates_get.
  destruct (is_raw_pointer_type (types c) p) eqn:Hraw.
  { case_match; try by apply typed_fail. apply typed_result; [done..|]. exists t. split; [done|].
    right. unfold is_nullable_pointer_type. by rewrite Hraw. }
  case_bool_decide as He.
  { destruct (const_value_as v) as [i| | |] eqn:Ha; try by apply typed_fail.
    pose proof (value_int_canonical v i Hv Ha) as Hi.
    destruct (deref _ (enum_backing_type t)) as [backing|]; [|by apply typed_fail].
    destruct (fits_returns i (kind backing) Hi) as [b Hb]. eapply evaluates_lift; [exact Hb|].
    destruct b; [|by apply typed_fail]. cbn [negb].
    destruct (find_enum_member_by_value (Some t) i) as [m|] eqn:Hm; [|by apply typed_fail].
    apply typed_result; [done..|]. exists t. split; [done|]. split; [done|]. left. split; [done|].
    unfold find_enum_member_by_value in Hm. rewrite bool_decide_eq_true_2 in Hm by done.
    apply List.find_some in Hm as [Hin Heq]. exists m. split; [by apply list_elem_of_In|].
    by apply values_equal. }
  destruct (is_integer_kind (kind t)) eqn:Hk.
  { assert (Hconc : is_concrete_integer_kind (kind t) = true)
      by (apply integer_kind_cases in Hk as [|Hk]; [done|by rewrite Hk in Hu]).
    apply evaluates_require; [done|].
    destruct (const_value_as v) as [i|d| |] eqn:Ha; try by apply typed_fail.
    - pose proof (value_int_canonical v i Hv Ha) as Hi.
      unfold classify_checked_integer_cast. rewrite Hconc. cbn.
      destruct (fits_returns i (kind t) Hi) as [b Hb]. rewrite Hb.
      eapply evaluates_lift; [done|]. destruct b; [|by apply typed_fail].
      apply typed_result; [done..|]. by eapply admits_int.
    - destruct (value_float v d Hv Ha) as [Hd _].
      destruct (float_cast_returns d (kind t) Hconc Hd) as (res & Hres & Hok).
      eapply evaluates_lift; [exact Hres|]. destruct res; try by apply typed_fail.
      apply typed_result; [done..|]. destruct Hok. by eapply admits_int. }
  destruct (is_float_kind (kind t)) eqn:Hf.
  { destruct (const_value_to_float_type v (kind t)) as [d|] eqn:Hd; [|by apply typed_fail].
    apply (const_to_float v) in Hd as [Hm Hs]; [|done]. apply typed_result; [done..|]. by exists t. }
  case_bool_decide; [|by apply typed_fail].
  destruct (const_value_as v); try by apply typed_fail. apply typed_result; [done..|]. by exists t.
Qed.

Lemma truncating_result n v p k :
  value_ok c v -> canonical_type c p -> has_kind (types c) p k = true ->
  is_concrete_integer_kind k = true ->
  typed c match const_value_as v with
          | CONST_VALUE_INT i =>
              r ← lift (truncate_integer_value i k);
              match r with
              | None => fail n "could not evaluate truncating integer conversion"
              | Some r => result p (CONST_VALUE_INT r)
              end
          | _ => fail n "truncate source must be an integer"
          end.
Proof using Hc.
  intros Hv Hp (t & Ht & Hkt)%has_kind_deref Hk.
  destruct (const_value_as v) as [i| | |] eqn:Ha; try by apply typed_fail.
  pose proof (value_int_canonical v i Hv Ha) as Hi. apply concrete_info in Hk as [info Hinfo].
  pose proof (integer_type_info_valid _ _ Hinfo) as Hvi.
  pose proof (wrap_in_range info (value_of i) Hvi) as Hw.
  assert (Hcan : canonical (of_value (wrap info (value_of i)))) by by eapply in_range_canonical.
  unfold typed. eapply evaluates_lift; [by apply truncate_integer_value_wraps|].
  apply typed_result; [done..|].
  assert (Hik : is_integer_kind k = true) by (unfold is_integer_kind; by rewrite (concrete_kind _ _ Hinfo)).
  eapply admits_int; rewrite ?Hkt; try done. rewrite fits_range, value_of_of_value by done.
  rewrite (in_range_info k info) by done. by rewrite bool_decide_eq_true_2.
Qed.
End Operators.
