(* ===== verification/ConstantNames.v ===== *)
(** Constant evaluation of names and calls: the parts of the evaluator that read the context.

    The names of enumeration members, target constants and builtins return with values of their
    types and report nothing but their own errors.  What the evaluator asks of the rest of the
    analysis is the class [CheckerLaws]. *)
From Stdlib Require Import SpecFloat.
From S2P Require Import Prelude Token Types Source Lexer IntegerValue TypeRelations Target FlowState Ast SemContext Modules ConstantEvaluation ConstantFloat ConstantInvariant ConstantArithmetic ConstantTyping.

(** ** What the evaluator asks of the analysis *)

(** The expression has a type and no conversion. *)
Definition conversion_free (c : SemanticContext) (e : Node) : Prop :=
  exists i, List.find (fun i => bool_decide (expr_node i = e)) (expr_infos c) = Some i
            /\ is_Some (expr_type i) /\ contextual_conversion i = SEM_CONTEXT_CONVERSION_NONE.

(** The evaluator recorded the value with the expression. *)
Definition recorded (c : SemanticContext) (e : Node) (v : ConstValue) : Prop :=
  exists i, List.find (fun i => bool_decide (expr_node i = e)) (expr_infos c) = Some i
            /\ expr_constant_value i = Some v.

(** The resolution of a written type gives a type that a value can have, and the check of an
    expression gives a type that admits its constant; where they give none, there is an error.
    Both keep the invariant. *)
Class CheckerLaws `{Checker} : Prop := {
  resolve_type_ok t n c :
    context_ok c ->
    evaluates c (resolve_type t n) (fun p c' =>
      match p with
      | Some _ => canonical_type c' p /\ is_untyped_numeric_type (types c') p = false
                  /\ (forall e, conversion_free c e -> conversion_free c' e)
      | None => reported c'
      end);
  check_value_expression_ok e c :
    context_ok c ->
    evaluates c (check_value_expression e) (fun p c' =>
      match p with
      | Some _ => canonical_type c' p /\ conversion_free c' e
                  /\ (forall v, recorded c e v -> admits (types c') p (const_value_as v))
      | None => reported c'
      end);
}.

Section Names.
Context (c : SemanticContext) (Hc : context_ok c).

Definition finds (name : Text) (o : option (nat * Symbol)) : Prop :=
  match o with Some (s, sym) => symbols c !! s = Some sym | None => True end.

Lemma lookup_returns name : exists o, lookup_name name c = Returned (o, c) /\ finds name o.
Proof.
  unfold lookup_name, get. eexists. split; [done|].
  destruct (scope_lookup c _ name) as [s|]; [|done]. cbn. by destruct (symbols c !! s) eqn:E.
Qed.

Lemma evaluates_lookup {A} name (f : option (nat * Symbol) -> M A) Q :
  (forall o, finds name o -> evaluates c (f o) Q) ->
  evaluates c (found ← lookup_name name; f found) Q.
Proof.
  intros H. destruct (lookup_returns name) as (o & Ho & Hs).
  eapply evaluates_pure; [exact Ho|by apply H].
Qed.

Lemma typed_not_constant n : typed c (not_constant n).
Proof using Hc. by apply typed_fail. Qed.

(** A member of an enumeration *)
Lemma enum_member_typed p t m :
  deref (types c) p = Some t -> kind t = TYPE_ENUM -> m ∈ enum_members t ->
  value_ok c (mkConstValue p (CONST_VALUE_INT (em_value m))).
Proof using Hc.
  intros Ht Hk Hm. split.
  - exists t. split; [done|]. rewrite Hk. intros Hin. exfalso. revert Hin. apply (bool_decide_unpack _). reflexivity.
  - exists t. split; [done|]. split.
    + destruct p as [i|]; [|done]. by eapply ok_enums.
    + left. eauto.
Qed.

Lemma find_enum_member_spec t name m :
  find_enum_member t name = Some m -> exists t', t = Some t' /\ kind t' = TYPE_ENUM /\ m ∈ enum_members t'.
Proof.
  destruct t as [t|]; [|done]. cbn. case_bool_decide; [|done]. intros [Hin _]%List.find_some.
  exists t. split_and!; try done. by apply list_elem_of_In.
Qed.

Lemma local_enum_typed n obj name :
  evaluates c (local_enum_member n obj name)
    (fun r c' => match r with Some o => succeeds (fun v c' => value_ok c' v) o c' | None => c' = c end).
Proof using Hc.
  unfold local_enum_member. destruct (as_of obj) as [a|]; [|by apply evaluates_ret].
  destruct a; try by apply evaluates_ret. apply evaluates_lookup. intros [[s sym]|] Hs; [|by apply evaluates_ret].
  unfold ask. apply evaluates_get. destruct (_ && _) eqn:Hk; [|by apply evaluates_ret].
  destruct (find_enum_member _ _) as [m|] eqn:Hm.
  - apply evaluates_ret; [done|]. apply find_enum_member_spec in Hm as (t & Ht & Hkt & Hm).
    by eapply enum_member_typed.
  - eapply evaluates_bind; [by apply evaluates_error|]. intros [] c' Hc' _ Hr. by apply evaluates_ret.
Qed.

(** Lookups without diagnostics only look. *)
Lemma lookup_in_module_quiet m qualifier name n :
  exists r, semantic_lookup_symbol_in_module m qualifier name n false c = Returned (r, c)
    /\ forall s, r = Some s -> is_Some (symbols c !! s).
Proof.
  unfold semantic_lookup_symbol_in_module, get, mbind, M_bind. cbn -[scope_find_local].
  destruct (modules c !! m) as [md|]; [|by eexists]. cbn -[scope_find_local].
  destruct (scope_find_local c _ name) as [s|]; [|by eexists]. cbn.
  destruct (symbols c !! s) as [sym|] eqn:Hs; [|by eexists]. cbn.
  destruct (bool_decide _); [eexists; split; [done|]; intros ? [= <-]; by eexists|].
  destruct (match declaration_id sym ≫= _ with Some i => _ | None => _ end); cbn;
    (eexists; split; [done|]); [intros ? [= <-]; by eexists|done].
Qed.

Lemma qualified_location_quiet path k m a b flag :
  qualified_location c path k false = Some (m, a, b, flag) -> flag = false.
Proof. unfold qualified_location. repeat case_match; naive_solver. Qed.

Lemma qualified_enum_typed {A} n (f : option (nat * EnumMember) -> M A) Q :
  (forall r, (forall s m, r = Some (s, m) -> exists sym, symbols c !! s = Some sym /\
               value_ok c (mkConstValue (sym_type sym) (CONST_VALUE_INT (em_value m)))) ->
     evaluates c (f r) Q) ->
  evaluates c (r ← semantic_qualified_enum_member_no_diag n; f r) Q.
Proof using Hc.
  intros Hf.
  assert (exists r, semantic_qualified_enum_member_no_diag n c = Returned (r, c) /\
    forall s m, r = Some (s, m) -> exists sym, symbols c !! s = Some sym /\
      value_ok c (mkConstValue (sym_type sym) (CONST_VALUE_INT (em_value m)))) as (r & Hr & Hok).
  2:{ eapply evaluates_pure; [exact Hr|]. by apply Hf. }
  unfold semantic_qualified_enum_member_no_diag, semantic_qualified_enum_member, mbind, M_bind, get.
  cbn -[qualified_location semantic_lookup_symbol_in_module].
  destruct (is_empty _); [by eexists|].
  destruct (qualified_location _ _ _ _) as [[[[m a] b] flag]|] eqn:Hq; [|by eexists].
  apply qualified_location_quiet in Hq as ->.
  destruct (lookup_in_module_quiet m (name_of c m) a n) as (r & -> & Hs).
  destruct r as [s|]; [|by eexists]. cbn. destruct (Hs s eq_refl) as [sym Hsym]. rewrite Hsym. cbn.
  destruct (negb _); [by eexists|]. destruct (bool_decide_reflect (option_map kind (deref (types c) (sym_type sym)) = Some TYPE_ENUM)) as [Hk|]; [|by eexists]. cbn.
  destruct (find_enum_member _ _) as [mem|] eqn:Hm; [|by eexists]. cbn.
  eexists. split; [done|]. intros ? ? [= <- <-]. exists sym. split; [done|].
  apply find_enum_member_spec in Hm as (t & Ht & Hkt & Hin). by eapply enum_member_typed.
Qed.

(** Lookups with diagnostics report why there is no symbol. *)
Lemma lookup_in_module_reports m qualifier name n :
  evaluates c (semantic_lookup_symbol_in_module m qualifier name n true)
    (succeeds (fun s c' => is_Some (symbols c' !! s))).
Proof using Hc.
  unfold semantic_lookup_symbol_in_module, refuse. apply evaluates_get. cbn [id].
  destruct (modules c !! m) as [md|]; [|by apply evaluates_fail]. cbn -[scope_find_local].
  destruct (scope_find_local c _ name) as [s|]; [|by apply evaluates_fail]. cbn.
  destruct (symbols c !! s) as [sym|] eqn:Hs; [|by apply evaluates_fail]. cbn.
  destruct (bool_decide _); [apply evaluates_ret; [done|]; by eexists|].
  unfold sem_find_decl_info_by_id, object. apply evaluates_get.
  destruct (match (i ← declaration_id sym; decl_infos c !! i) with Some i => is_exported i | None => false end);
    [|by apply evaluates_fail].
  apply evaluates_ret; [done|]; by eexists.
Qed.
End Names.

Section Calls.
Context (c : SemanticContext) (Hc : context_ok c).

Lemma qualified_field_reports n :
  evaluates c (semantic_lookup_qualified_field_symbol n true) (fun r c' =>
    if r.2 then succeeds (fun s c' => is_Some (symbols c' !! s)) r.1 c' else True).
Proof using Hc.
  unfold semantic_lookup_qualified_field_symbol.
  assert (Hloc : evaluates c (semantic_resolve_qualified_field_location n true) (fun r c' =>
    match r with (None, true) => reported c' | (None, false) => True | (Some _, b) => b = true end)).
  { unfold semantic_resolve_qualified_field_location. apply evaluates_get.
    destruct (is_empty _); [by apply evaluates_ret|]. cbn [id].
    destruct (qualified_location _ _ _ _) as [[[[m a] b] []]|]; try by apply evaluates_ret.
    eapply evaluates_bind; [by apply evaluates_error|]. intros [] c' Hc' _ Hr. by apply evaluates_ret. }
  eapply evaluates_bind; [exact Hloc|]. intros [[[m name]|] b] c' Hc' _ Hr; cbn.
  - subst b. apply evaluates_get. eapply evaluates_bind.
    { by apply lookup_in_module_reports. }
    intros o c2 Hc2 _ Ho. by apply evaluates_ret.
  - apply evaluates_ret; [done|]. cbn. by destruct b.
Qed.

(** ** Target constants *)

Lemma u64_value v : (v = 0 \/ v = 1) ->
  value_ok c (mkConstValue (builtin_types c TYPE_U64) (CONST_VALUE_INT (integer_value_make v false))).
Proof using Hc.
  intros Hv. destruct (builtin_canonical c TYPE_U64 Hc) as [Hp Hk]; [builtin_kind|].
  replace (integer_value_make v false) with (of_value v) by (destruct Hv as [-> | ->]; done).
  apply (represents_ok c _ (MInt TYPE_U64 v)). split; [done|]. split_and!; try done.
  destruct Hv as [-> | ->]; done.
Qed.

Lemma target_value_bit config obj name v : target_value config obj name = Some v -> v = 0 \/ v = 1.
Proof.
  unfold target_value. intros H. repeat case_match; try done; injection H as <-;
    first [destruct (arch config); cbn; tauto | destruct (os config); cbn; tauto
          | destruct (abi config); cbn; tauto | cbn; tauto].
Qed.

Lemma evaluates_record_expr n k category :
  k ∈ builtin_kinds ->
  evaluates c (sem_record_expr_info n (builtin_types c k) None category) (fun _ _ => True).
Proof using Hc.
  intros Hk. unfold sem_record_expr_info. case_bool_decide; [by apply evaluates_ret|].
  destruct (builtin_canonical c k Hc Hk) as [_ (t & Ht & Htk)%has_kind_deref].
  eapply evaluates_pure; [|by apply evaluates_expr_info].
  unfold assert_canonical_builtin_type, ask, get, mbind, M_bind. rewrite Ht, Htk.
  rewrite builtin_type_run by done. unfold require.
  case_bool_decide; [done|]. by rewrite (bool_decide_eq_true_2 (_ = _)) by done.
Qed.

Lemma target_constant_typed n :
  evaluates c (target_constant_value n) (fun o c' => forall v, o = Some v -> value_ok c' v).
Proof using Hc.
  unfold target_constant_value. destruct (as_of n) as [a|]; [|by apply evaluates_ret].
  destruct a; try by apply evaluates_ret. destruct (as_of object) as [b|]; [|by apply evaluates_ret].
  destruct b; try by apply evaluates_ret. apply evaluates_get.
  destruct (target_value _ _ _) as [v|] eqn:Hv; [|by apply evaluates_ret].
  eapply evaluates_pure; [apply builtin_type_run; builtin_kind|].
  eapply evaluates_bind; [apply evaluates_record_expr; builtin_kind|].
  intros [] c' Hc' He _. apply evaluates_ret; [done|]. intros ? [= <-].
  eapply value_extends; [done|]. by eapply u64_value, target_value_bit.
Qed.
End Calls.

(** ** Builtin calls *)

(** [G] is what a caller keeps besides the invariant. *)
Section Arguments.
Context (G : SemanticContext -> Prop)
  (HG : forall c c', G c -> context_ok c' -> extends c c' -> G c').

Definition computes (m : M (option ConstValue)) : Prop := forall c, context_ok c -> G c -> typed c m.

Lemma typed_error c n msg : context_ok c -> typed c (semantic_error n msg ;; mret None).
Proof. intros Hc. by apply typed_fail. Qed.

Lemma argument_count_ok {A} c call b expected actual (f : bool -> M A) Q :
  context_ok c -> sym_kind b = SYMBOL_BUILTIN ->
  (actual = expected -> evaluates c (f true) Q) ->
  (actual <> expected -> forall c', context_ok c' -> extends c c' -> reported c' -> evaluates c' (f false) Q) ->
  evaluates c (count_ok ← check_builtin_argument_count call b expected actual; f count_ok) Q.
Proof.
  intros Hc Hb Htrue Hfalse. unfold check_builtin_argument_count.
  destruct (Nat.eqb_spec actual expected) as [He|Hne].
  - eapply evaluates_pure; [|by apply Htrue]. rewrite Hb. done.
  - eapply (evaluates_bind _ _ _ (fun b c' => b = false /\ reported c')).
    + apply evaluates_require; [by apply bool_decide_eq_true|].
      eapply evaluates_bind; [by apply evaluates_error|]. intros [] c' Hc' _ Hr. by apply evaluates_ret.
    + intros x c' Hc' He [-> Hr]. by apply Hfalse.
Qed.

Lemma binary_call_typed c call b ms :
  context_ok c -> G c -> sym_kind b = SYMBOL_BUILTIN -> is_wrapping_binary (sym_builtin b) = true ->
  Forall computes ms -> typed c (eval_const_wrapping_binary_call call b ms).
Proof using HG.
  intros Hc Hg Hb Hw Hms. unfold eval_const_wrapping_binary_call, typed.
  apply argument_count_ok; [done..| |].
  - intros Hlen. destruct ms as [|m1 [|m2 [|]]]; try done.
    apply Forall_cons_1 in Hms as [H1 [H2 _]%Forall_cons_1].
    eapply evaluates_try; [by apply H1|]. intros l c1 Hc1 E1 Hl.
    eapply evaluates_try; [by apply H2; [|eapply HG]|]. intros r c2 Hc2 E2 Hr.
    apply wrapping_binary_typed; try done. by eapply value_extends.
  - intros _ c' Hc' _ Hr. destruct ms as [|? [|]]; by apply evaluates_ret.
Qed.

Lemma neg_call_typed c call b ms :
  context_ok c -> G c -> sym_kind b = SYMBOL_BUILTIN -> Forall computes ms ->
  typed c (eval_const_wrapping_neg_call call b ms).
Proof using.
  intros Hc Hg Hb Hms. unfold eval_const_wrapping_neg_call, typed.
  apply argument_count_ok; [done..| |].
  - intros Hlen. destruct ms as [|m [|]]; try done. apply Forall_cons_1 in Hms as [H1 _].
    eapply evaluates_try; [by apply H1|]. intros l c1 Hc1 E1 Hl. by apply wrapping_neg_typed.
  - intros _ c' Hc' _ Hr. destruct ms as [|]; by apply evaluates_ret.
Qed.

Lemma layout_value_typed c call :
  context_ok c ->
  typed c (info ← sem_find_expr_info call;
           match i ← info; builtin_layout_value i with
           | None => not_constant call
           | Some v => t ← get type_usize; result t (CONST_VALUE_INT (integer_value_make v false))
           end).
Proof.
  intros Hc. unfold typed, sem_find_expr_info. apply evaluates_get.
  destruct (List.find _ _) as [i|] eqn:Hi; [cbn|by apply typed_not_constant].
  apply List.find_some in Hi as [Hin _]. apply list_elem_of_In in Hin.
  destruct (builtin_layout_value i) as [v|] eqn:Hv; [|by apply typed_not_constant].
  apply evaluates_get, typed_result; [done| |by eapply ok_layout]. by destruct (ok_usize c Hc).
Qed.

Lemma builtin_call_typed c call callee ms :
  context_ok c -> G c -> Forall computes ms -> typed c (eval_const_builtin_call call callee ms).
Proof using HG.
  intros Hc Hg Hms. unfold eval_const_builtin_call, typed.
  assert (Hcallee : exists o, resolve_builtin_callee callee c = Returned (o, c) /\
    forall b, o = Some b -> sym_kind b = SYMBOL_BUILTIN /\ sym_builtin b <> BUILTIN_NONE).
  { unfold resolve_builtin_callee. destruct (as_of callee) as [a|]; [|by eexists].
    destruct a; try by eexists.
    destruct (lookup_returns c name) as (o & Ho & Hs).
    unfold mbind, M_bind. rewrite Ho. destruct o as [[s sym]|]; [|by eexists]. cbn in Hs |- *.
    case_bool_decide as Hk; [|by eexists]. cbn.
    destruct (ok_symbols c Hc s sym Hs) as [Hbuiltin _ _]. destruct (Hbuiltin Hk) as [Hn Ht].
    unfold assert_symbol_builtin_invariant. rewrite bool_decide_eq_true_2 by done.
    unfold require. rewrite (bool_decide_eq_false_2 (sym_builtin sym = BUILTIN_NONE)), Ht by done. cbn.
    eexists. split; [done|]. by intros b [= <-]. }
  destruct Hcallee as (o & Ho & Hb). eapply evaluates_pure; [exact Ho|].
  destruct o as [b|]; [|by apply typed_not_constant]. destruct (Hb b eq_refl) as [Hk Hn].
  destruct (sym_builtin b) eqn:Eb; try done.
  1-3: by apply binary_call_typed; rewrite ?Eb.
  - by apply neg_call_typed.
  - by apply layout_value_typed.
  - by apply layout_value_typed.
  - by apply typed_not_constant.
Qed.

(** ** Casts *)

Context `{CheckerLaws}.

Lemma cast_typed c n k target m :
  context_ok c -> G c -> computes m -> typed c (eval_const_cast n k m target).
Proof using All.
  intros Hc Hg Hm. destruct k; cbn; [| |by apply typed_fail].
  - unfold eval_const_checked_cast, typed. eapply evaluates_try; [by apply Hm|].
    intros v c1 Hc1 E1 Hv. unfold checked_cast_of. eapply evaluates_bind; [by apply resolve_type_ok|].
    intros [p|] c2 Hc2 E2 Hp; [|by apply evaluates_ret]. destruct Hp as (Hp & Hu & _). cbn.
    apply evaluates_type; [by eapply value_extends|]. apply evaluates_get.
    destruct (negb _); [by apply typed_fail|]. pose proof Hp as (t & Ht & _). pose proof Ht as Ht2. cbn in Ht2. rewrite Ht2.
    apply checked_cast_typed; try done; [by eapply value_extends|].
    unfold is_untyped_numeric_type, kind_satisfies in Hu. by rewrite Ht in Hu.
  - unfold eval_const_truncating_cast, typed. eapply evaluates_try; [by apply Hm|].
    intros v c1 Hc1 E1 Hv. unfold truncating_cast_of. eapply evaluates_bind; [by apply resolve_type_ok|].
    intros [p|] c2 Hc2 E2 Hp; [|by apply evaluates_ret]. destruct Hp as (Hp & Hu & _). cbn.
    unfold kind_of, ask. apply evaluates_get. pose proof Hp as (t & Ht & _). rewrite Ht. cbn.
    destruct (is_concrete_integer_kind (kind t)) eqn:Hk; [|by apply typed_fail]. cbn.
    apply truncating_result; try done; [by eapply value_extends|]. apply has_kind_deref. eauto.
Qed.
End Arguments.
