(* ===== verification/ConstantSafety.v ===== *)
(** The evaluation of constants returns, with a value of its type or an error, and so does the
    check of the constants it needs.

    [later] is what holds between the context at the start and any context the evaluator meets
    on its way, inside the checks of other declarations too.  The evaluator is followed for a
    check of declarations that settles them ([settles]); the check of a declaration settles it,
    by induction on the declarations whose check can still start. *)
From Stdlib Require Import SpecFloat.
From S2P Require Import Prelude Token Types Source Lexer IntegerValue TypeRelations Target FlowState Ast SemContext Modules ConstantEvaluation ConstantFloat ConstantInvariant ConstantArithmetic ConstantTyping ConstantNames.

(** ** Values of related types *)

Lemma nullable_kind ts p t :
  deref ts p = Some t -> is_nullable_pointer_type ts p = true ->
  kind t = TYPE_POINTER \/ kind t = TYPE_OPAQUE_POINTER \/ (kind t = TYPE_FUNCTION /\ function_abi t = FUNCTION_ABI_C).
Proof.
  unfold is_nullable_pointer_type, is_raw_pointer_type, is_typed_pointer_type,
    is_opaque_pointer_type, is_c_function_pointer_type, has_kind. intros ->.
  intros [[Hk|Hk]%orb_true_iff|[Hk Ha]%andb_true_iff]%orb_true_iff;
    repeat match goal with X : bool_decide _ = true |- _ => apply bool_decide_eq_true in X end; auto.
Qed.

Lemma equal_types_alike ts p q t s :
  deref ts p = Some t -> deref ts q = Some s -> type_equal ts p q = true ->
  kind t = kind s /\ (kind t = TYPE_ENUM -> p = q) /\ (kind t = TYPE_FUNCTION -> function_abi t = function_abi s).
Proof.
  destruct p as [i|], q as [j|]; try done. cbn. intros Ht Hs. unfold type_equal, TYPE_FUEL. cbn.
  destruct (Nat.eqb_spec i j) as [->|_]; [by simplify_eq|]. rewrite Ht, Hs.
  destruct (bool_decide_reflect (kind t = kind s)) as [Hk|]; [|done]. cbn. intros He. split; [done|].
  destruct (kind t) eqn:E; try done. split; [done|]. intros _.
  destruct (bool_decide_reflect (function_abi t = function_abi s)); [done|done].
Qed.

(** Only the null constant has a pointer's type; none has a slice's or an array's. *)
Lemma admits_null ts p s a :
  deref ts p = Some s -> admits ts p a ->
  kind s = TYPE_POINTER \/ kind s = TYPE_OPAQUE_POINTER \/ kind s = TYPE_SLICE \/ kind s = TYPE_ARRAY ->
  a = CONST_VALUE_NULL /\ (kind s = TYPE_POINTER \/ kind s = TYPE_OPAQUE_POINTER).
Proof.
  intros Hs (s' & Hs' & Ha) Hk. simplify_eq. destruct a as [i|d|b|].
  - destruct Ha as (_ & [[E _]|[E _]]); destruct Hk as [Hk|[Hk|[Hk|Hk]]]; by rewrite Hk in E.
  - destruct Ha as [E _]; destruct Hk as [Hk|[Hk|[Hk|Hk]]]; by rewrite Hk in E.
  - destruct Hk as [Hk|[Hk|[Hk|Hk]]]; by rewrite Hk in Ha.
  - split; [done|]. destruct Ha as [E|E].
    + destruct Hk as [Hk|[Hk|[Hk|Hk]]]; by rewrite Hk in E.
    + apply (nullable_kind _ _ s) in E; [|done]. destruct Hk as [Hk|[Hk|[Hk|Hk]]]; rewrite Hk in *; naive_solver.
Qed.

Lemma qualification_kinds ts target p t s :
  deref ts target = Some t -> deref ts p = Some s ->
  pointer_qualification_conversion_allowed ts target p = true
  \/ slice_qualification_conversion_allowed ts target p || array_to_slice_conversion_allowed ts target p = true ->
  (kind s = TYPE_POINTER \/ kind s = TYPE_OPAQUE_POINTER \/ kind s = TYPE_SLICE \/ kind s = TYPE_ARRAY)
  /\ (kind s = TYPE_POINTER \/ kind s = TYPE_OPAQUE_POINTER -> is_nullable_pointer_type ts target = true).
Proof.
  intros Ht Hs [E|[E|E]%orb_true_iff].
  - unfold pointer_qualification_conversion_allowed, pointer_identity_equal_ignoring_qualifiers in E.
    destruct (is_raw_pointer_type ts target) eqn:Hr1; [|done].
    destruct (is_raw_pointer_type ts p) eqn:Hr2; [|done].
    apply (raw_pointer_kind ts p s Hs) in Hr2. split; [naive_solver|].
    intros _. unfold is_nullable_pointer_type. by rewrite Hr1.
  - unfold slice_qualification_conversion_allowed, is_slice_type, has_kind in E. rewrite Ht, Hs in E.
    destruct (bool_decide_reflect (kind s = TYPE_SLICE)) as [Hk|]; [|by rewrite orb_true_r in E].
    rewrite Hk. split; [naive_solver|]. by intros [?|?].
  - unfold array_to_slice_conversion_allowed, both in E. rewrite Ht, Hs in E.
    destruct (bool_decide_reflect (kind s = TYPE_ARRAY)) as [Hk|]; [|by rewrite andb_false_r in E].
    rewrite Hk. split; [naive_solver|]. by intros [?|?].
Qed.

Lemma equal_admits ts target p t a :
  deref ts target = Some t -> is_integer_kind (kind t) = false -> is_float_kind (kind t) = false ->
  type_equal ts target p = true -> admits ts p a -> admits ts target a.
Proof.
  intros Ht Hi Hf Heq (s & Hs & Ha). exists t. split; [done|].
  destruct (equal_types_alike _ _ _ _ _ Ht Hs Heq) as (Hk & Henum & Habi).
  rewrite Hk in Hi, Hf. destruct a as [i|d|b|].
  - destruct Ha as (Hcan & [[Hks Hm]|[Hks _]]); [|by rewrite Hi in Hks].
    rewrite <- Hk in Hks. specialize (Henum Hks). subst p. simplify_eq. eauto.
  - by rewrite Hf in Ha; destruct Ha.
  - congruence.
  - destruct Ha as [Ha|Ha]; [left; congruence|right].
    unfold is_nullable_pointer_type, is_raw_pointer_type, is_typed_pointer_type,
      is_opaque_pointer_type, is_c_function_pointer_type, has_kind in *. rewrite Ht. rewrite Hs in Ha.
    rewrite Hk. destruct (bool_decide_reflect (kind s = TYPE_FUNCTION)) as [E|]; [|exact Ha].
    rewrite Habi by congruence. exact Ha.
Qed.

(** A value of a type that initialises the target is a value of the target, numbers apart. *)
Lemma initializer_admits ts target p t a :
  deref ts target = Some t -> is_integer_kind (kind t) = false -> is_float_kind (kind t) = false ->
  initializer_compatible ts target p = true -> admits ts p a -> admits ts target a.
Proof.
  intros Ht Hi Hf Hcompat Ha. pose proof Ha as (s & Hs & _).
  unfold initializer_compatible in Hcompat. rewrite Ht, Hs in Hcompat.
  destruct (type_equal ts target p) eqn:Heq; [by eapply equal_admits|].
  assert (Hqual : pointer_qualification_conversion_allowed ts target p = true
    \/ slice_qualification_conversion_allowed ts target p || array_to_slice_conversion_allowed ts target p = true ->
    admits ts target a).
  { intros Hq. destruct (qualification_kinds _ _ _ _ _ Ht Hs Hq) as [Hk Hn].
    destruct (admits_null _ _ _ _ Hs Ha Hk) as [-> Hp]. exists t. split; [done|]. right. by apply Hn. }
  destruct (pointer_qualification_conversion_allowed ts target p); [by apply Hqual; left|].
  destruct (_ || _); [by apply Hqual; right|].
  destruct (is_nullable_pointer_type ts target && is_null_type ts p) eqn:Hn.
  { apply andb_true_iff in Hn as [Hn1 (s' & Hs' & Hks)%has_kind_deref]. simplify_eq.
    exists t. split; [done|]. destruct Ha as (s'' & Hs'' & Ha). simplify_eq.
    destruct a as [i|d|b|]; [|by rewrite Hks in Ha; destruct Ha|by rewrite Hks in Ha|by right].
    destruct Ha as (_ & [[E _]|[E _]]); by rewrite Hks in E. }
  exfalso. unfold is_integer_kind, is_float_kind in Hi, Hf. apply orb_false_iff in Hi as [Hi _], Hf as [Hf _].
  destruct (kind s); try done; rewrite ?Hi, ?Hf in Hcompat; done.
Qed.

(** ** Contexts along an evaluation *)

Record later (c c' : SemanticContext) : Prop := {
  later_types : types c `prefix_of` types c';
  later_scopes : scopes c' = scopes c;
  later_symbols : forall s sym, symbols c !! s = Some sym ->
    exists sym', symbols c' !! s = Some sym' /\ sym_name sym' = sym_name sym
                 /\ sym_kind sym' = sym_kind sym /\ declaration_id sym' = declaration_id sym;
  later_infos : forall i d, decl_infos c !! i = Some d ->
    exists d', decl_infos c' !! i = Some d' /\ decl_node d' = decl_node d
               /\ (forall v, decl_constant_value d = Some v -> decl_constant_value d' = Some v)
               /\ (pending d = false -> pending d' = false);
  later_new : forall i d, (length (decl_infos c) <= i)%nat -> decl_infos c' !! i = Some d ->
    pending d = false;
}.

Lemma context_later_refl c : later c c.
Proof.
  constructor; [done|done|by eauto 10|by eauto 10|].
  intros i d Hi Hd. apply lookup_lt_Some in Hd. lia.
Qed.

Lemma context_later_trans c1 c2 c3 : later c1 c2 -> later c2 c3 -> later c1 c3.
Proof.
  intros [T1 S1 Y1 I1 N1] [T2 S2 Y2 I2 N2]. constructor.
  - by etrans.
  - congruence.
  - intros s sym Hs. destruct (Y1 s sym Hs) as (y & Hy & ? & ? & ?).
    destruct (Y2 s y Hy) as (z & Hz & ? & ? & ?). exists z. split_and!; congruence.
  - intros i d Hd. destruct (I1 i d Hd) as (d2 & Hd2 & E2 & V2 & P2).
    destruct (I2 i d2 Hd2) as (d3 & Hd3 & E3 & V3 & P3). exists d3.
    split_and!; [done|congruence|auto|auto].
  - intros i d Hi Hd. destruct (decide (length (decl_infos c2) <= i)%nat) as [|Hlt]; [eauto|].
    destruct (lookup_lt_is_Some_2 (decl_infos c2) i ltac:(lia)) as [d2 H2].
    destruct (I2 i d2 H2) as (d3 & H3 & _ & _ & Hp). simplify_eq. eauto.
Qed.

Lemma extends_later c c' : extends c c' -> later c c'.
Proof.
  intros He. constructor; try apply He.
  - intros s sym Hs. destruct (extends_symbols _ _ He s sym Hs) as (y & Hy & []). eauto 10.
  - intros i d Hd. destruct (extends_infos _ _ He i d Hd) as (d' & Hd' & E). exists d'.
    pose proof (pending_extends d d' E). destruct E. split_and!; auto.
Qed.

(** Where the analysis stands does not matter. *)
Lemma later_place c source m scope : later c (set_place source m scope c).
Proof. destruct (context_later_refl c). by constructor. Qed.

(** ** Changes of one declaration *)

Definition change_decl (f : SemDeclInfo -> SemDeclInfo) (i : nat) (c : SemanticContext) : SemanticContext :=
  set_decl_infos (alter f i (decl_infos c)) c.

(** A change that keeps a declaration's identity and its results. *)
Record keeps_info (f : SemDeclInfo -> SemDeclInfo) : Prop := {
  keeps_node : forall d, decl_node (f d) = decl_node d;
  keeps_symbol : forall d, decl_symbol (f d) = decl_symbol d;
  keeps_type : forall d, decl_type (f d) = decl_type d;
  keeps_value : forall d, decl_constant_value (f d) = decl_constant_value d;
  keeps_complete : forall d, semantic_check_complete d = true -> semantic_check_complete (f d) = true;
}.

Lemma keeps_started b : keeps_info (set_started b).
Proof. by constructor. Qed.

Lemma keeps_set_complete : keeps_info set_complete.
Proof. by constructor. Qed.

Lemma alter_lookup_cases {A} (f : A -> A) i (l : list A) j x :
  alter f i l !! j = Some x -> exists y, l !! j = Some y /\ (x = y /\ i <> j \/ x = f y /\ i = j).
Proof.
  destruct (decide (i = j)) as [->|Hne].
  - rewrite list_lookup_alter_eq. destruct (l !! j) as [y|]; [|done]. intros [= <-]. eauto.
  - rewrite list_lookup_alter_ne by done. eauto.
Qed.

Lemma alter_lookup_exists {A} (f : A -> A) i (l : list A) j y :
  l !! j = Some y -> exists x, alter f i l !! j = Some x /\ (x = y \/ x = f y /\ i = j).
Proof.
  intros Hy. destruct (decide (i = j)) as [->|Hne].
  - exists (f y). split; [by rewrite list_lookup_alter_eq, Hy|]. by right.
  - exists y. split; [by rewrite list_lookup_alter_ne|]. by left.
Qed.

Lemma map_alter {A B} (g : A -> B) (f : A -> A) i l :
  (forall x, g (f x) = g x) -> map g (alter f i l) = map g l.
Proof.
  intros Hf. revert i. induction l as [|x l IH]; intros i; [done|].
  destruct i as [|i]; cbn; [by rewrite Hf|]. f_equal. apply IH.
Qed.

Lemma context_ok_change c f i :
  keeps_info f -> context_ok c -> context_ok (change_decl f i c).
Proof.
  intros [Kn Ks Kt Kv Kc] [H1 H2 H3 H4 H5 H6 H7 H8]. constructor; try done.
  - intros j d v Hd Hv. cbn in Hd. apply alter_lookup_cases in Hd as (d0 & Hd0 & [[-> _]|[-> _]]).
    + by apply (H5 j d0).
    + rewrite Kv in Hv. by apply (H5 j d0).
  - cbn. by rewrite map_alter.
  - intros s sym Hs. destruct (H8 s sym Hs) as [B1 B2 B3]. constructor; [done| |done].
    intros Hk. destruct (B2 Hk) as (n & j & d & Hok). destruct Hok as [S1 S2 S3 S4 S5 S6 S7 S8 S9].
    destruct (alter_lookup_exists f i _ j d S4) as (d' & Hd' & [-> | [-> ->]]).
    + exists n, j, d. by constructor.
    + exists n, j, (f d). constructor; cbn; rewrite ?Kn, ?Ks, ?Kt, ?Kv; try done; auto.
      intros Hf. apply S7. destruct (semantic_check_complete d) eqn:E; [|done].
      by rewrite (Kc d E) in Hf.
Qed.

Lemma honest_change c f i :
  keeps_info f -> (forall d, semantic_check_complete (f d) = semantic_check_complete d) ->
  honest (change_decl f i c) <-> honest c.
Proof.
  intros [_ _ _ Kv _] Kc. unfold honest. cbn. split; (intros [H|H]; [by left|right]);
    intros j d Hd Hcomp Hv.
  - destruct (alter_lookup_exists f i _ j d Hd) as (d' & Hd' & [-> | [-> ->]]); [by eapply H|].
    eapply H; [exact Hd'|by rewrite Kc|by rewrite Kv].
  - apply alter_lookup_cases in Hd as (d0 & Hd0 & [[-> _]|[-> _]]); [by eapply H|].
    rewrite Kc in Hcomp. rewrite Kv in Hv. by eapply H.
Qed.

(** The cycle: the check of the declaration that was met again is over. *)
Lemma extends_complete c i d :
  decl_infos c !! i = Some d -> semantic_check_started d = true ->
  extends c (change_decl set_complete i c).
Proof.
  intros Hd Hs. constructor; cbn; try done.
  - intros s sym Hsym. exists sym. split; [done|]. apply symbol_extends_refl.
  - intros j d0 Hd0. destruct (alter_lookup_exists set_complete i _ j d0 Hd0) as (d' & Hd' & [-> | [-> ->]]).
    + exists d0. split; [done|]. apply info_extends_refl.
    + exists (set_complete d0). split; [done|]. by constructor.
  - intros j d0 Hj Hd0. apply lookup_lt_Some in Hd0. rewrite length_alter in Hd0. lia.
Qed.

Lemma evaluates_cycle c i d n msg :
  context_ok c -> decl_infos c !! i = Some d -> semantic_check_started d = true ->
  evaluates c (semantic_error n msg ;; update_decl_info set_complete i ;; mret false)
    (fun b c' => b = false /\ reported c').
Proof.
  intros Hc Hd Hs. destruct (extends_error n msg c) as (c1 & Hm & He & Hdi & Hsy & Hx & Ht & Hr).
  destruct (evaluates_error n msg c Hc) as (u & c1' & Hm' & Hc1 & _ & Hh & _).
  rewrite Hm in Hm'. injection Hm' as <- <-. rewrite <- Hdi in Hd.
  exists false, (change_decl set_complete i c1).
  unfold mbind, M_bind. rewrite Hm. split_and!; try done.
  - apply context_ok_change; [apply keeps_set_complete|done].
  - etrans; [exact He|]. by eapply extends_complete.
  - intros _. destruct Hr as [Hr|Hr]; [by left|]. by right.
  - intros _. exact Hr.
Qed.

(** ** Programs whose evaluation cannot abort *)

Section Safety.
Context `{CheckerLaws}.

(** A literal is a [uint64_t], and no unary minus of the tree applies to an operand that
    evaluates, from a context that can follow [c], to the untyped constant -2^63. *)
Definition safe (c : SemanticContext) (a : NodeAs) (_ : SourceSpan) : Prop :=
  match a with
  | NODE_NUMBER (LITERAL_INTEGER i) => 0 <= i < 2 ^ 64
  | NODE_UNARY TOK_MINUS e =>
      forall fuel c1 v c2, context_ok c1 -> later c c1 ->
        eval_const_expr (check_const_decl fuel) e c1 = Returned (Some v, c2) ->
        ~ represents c2 v (MInt TYPE_UNTYPED_INT (- 2 ^ 63))
  | _ => True
  end.

(** So in every constant that is declared. *)
Definition constants_safe (c : SemanticContext) : Prop :=
  forall i d, decl_infos c !! i = Some d -> is_Some (constant_name (decl_node d)) ->
    everywhere (safe c) (decl_node d).

Section Evaluation.
Context (c0 : SemanticContext) (Hsafe : constants_safe c0) (fuel : nat).

(** The check of a declaration has at most the bound of pending declarations before it. *)
Definition within (c : SemanticContext) : Prop := later c0 c /\ (pending_count c <= fuel)%nat.

Lemma within_extends c c' : within c -> context_ok c' -> extends c c' -> within c'.
Proof.
  intros [Hl Hp] _ He. split; [eapply context_later_trans; [done|by apply extends_later]|].
  pose proof (pending_extends_count c c' He). lia.
Qed.

Context (check : Node -> M unit).

(** After its check a declaration has its value, or an error was reported. *)
Definition settled (i : nat) (b : bool) (c : SemanticContext) : Prop :=
  if b then exists d v, decl_infos c !! i = Some d /\ decl_constant_value d = Some v
  else reported c.

Definition settles : Prop := forall c s sym n i d,
  context_ok c -> within c -> symbols c !! s = Some sym -> constant_symbol_ok c s sym n i d ->
  pending d = true -> evaluates c (check_declaration_in_module check n (Some i)) (settled i).

Hypothesis Hsettles : settles.

Lemma ensure_settles c s sym i :
  context_ok c -> within c -> symbols c !! s = Some sym -> sym_kind sym = SYMBOL_CONSTANT ->
  declaration_id sym = Some i ->
  evaluates c (ensure_constant_symbol_checked check sym) (settled i).
Proof using Hsettles.
  intros Hc Hw Hs Hk Hi. destruct (ok_symbols c Hc s sym Hs) as [_ Hconst _].
  destruct (Hconst Hk) as (n & i' & d & Hok). pose proof Hok as Hok'.
  destruct Hok as [S1 S2 S3 S4 S5 S6 S7 S8 S9]. rewrite Hi in S3. injection S3 as <-.
  unfold ensure_constant_symbol_checked. rewrite S1, Hk, Hi.
  assert (Hn : (match as_of n with Some (NODE_CONST_DECL _ _ _) => true | _ => false end) = true).
  { unfold constant_name in S2. destruct (as_of n) as [[]|]; done. }
  rewrite bool_decide_eq_true_2, Hn by done. cbn [negb orb].
  unfold sem_find_decl_info_by_id, object. apply evaluates_get. cbn. rewrite S4.
  destruct (semantic_check_complete d) eqn:Hcomp.
  - apply evaluates_ret; [done|]. unfold settled.
    destruct (decl_constant_value d) as [v|] eqn:Hv; cbn; [eauto|].
    intros [Hh|Hh]; [by left|]. right. by eapply Hh.
  - destruct (semantic_check_started d) eqn:Hst.
    + eapply evaluates_mono; [by eapply evaluates_cycle|]. by intros b c' _ _ [-> Hr].
    + eapply Hsettles; try done. unfold pending. rewrite S5, S6, S2, Hcomp, Hst. done.
Qed.

Lemma symbol_value_typed c s sym :
  context_ok c -> within c -> symbols c !! s = Some sym -> sym_kind sym = SYMBOL_CONSTANT ->
  typed c (constant_symbol_value check sym).
Proof using Hsettles.
  intros Hc Hw Hs Hk. destruct (ok_symbols c Hc s sym Hs) as [_ Hconst _].
  destruct (Hconst Hk) as (n & i & d & Hok). pose proof (symbol_id _ _ _ _ _ _ Hok) as Hi.
  unfold constant_symbol_value, typed. eapply evaluates_bind; [by eapply ensure_settles|].
  intros b c' Hc' He Hb. destruct b; [|by apply evaluates_ret]. destruct Hb as (d' & v & Hd & Hv).
  unfold sem_find_decl_info_by_id, object. apply evaluates_get. rewrite Hi. cbn. rewrite Hd. cbn.
  apply evaluates_ret; [done|]. rewrite Hv. by eapply ok_values.
Qed.

(** ** The evaluator *)

Lemma ident_typed c n name : context_ok c -> within c -> typed c (eval_const_ident check n name).
Proof using Hsettles.
  intros Hc Hw. unfold eval_const_ident, typed. apply evaluates_lookup. intros [[s sym]|] Hs.
  - case_bool_decide; [by eapply symbol_value_typed|by apply typed_not_constant].
  - by apply typed_not_constant.
Qed.

Lemma qualified_typed c n : context_ok c -> within c -> typed c (qualified_constant check n).
Proof using Hsettles.
  intros Hc Hw. unfold qualified_constant, typed.
  eapply evaluates_bind; [by apply qualified_field_reports|].
  intros [o b] c' Hc' He Hr. destruct b; [|by apply typed_not_constant]. cbn in Hr |- *.
  unfold object. apply evaluates_get. destruct o as [s|]; [|by apply evaluates_ret].
  destruct Hr as [sym Hs]. cbn. rewrite Hs.
  case_bool_decide; [|by apply typed_not_constant].
  eapply symbol_value_typed; try done. by eapply within_extends.
Qed.

Lemma field_typed c n obj name :
  context_ok c -> within c -> typed c (eval_const_field check n obj name).
Proof using Hsettles.
  intros Hc Hw. unfold eval_const_field, typed.
  eapply evaluates_bind; [by apply target_constant_typed|]. intros [v|] c1 Hc1 E1 Hv.
  { apply evaluates_ret; [done|]. by apply Hv. }
  apply qualified_enum_typed; [done|]. intros [[s m]|] Hr.
  { destruct (Hr s m eq_refl) as (sym & Hs & Hok). unfold object. apply evaluates_get.
    cbn. rewrite Hs. by apply evaluates_ret. }
  eapply evaluates_bind; [by apply local_enum_typed|]. intros [r|] c2 Hc2 E2 Hr2.
  { by apply evaluates_ret. }
  apply qualified_typed; [done|]. eapply within_extends; [|done|exact E2]. by eapply within_extends.
Qed.

Lemma cached_typed c n m :
  typed c m -> evaluates c (cached n m) (succeeds (fun v c' => value_ok c' v /\ recorded c' n v)).
Proof.
  intros Hm. unfold cached. eapply evaluates_try; [exact Hm|]. intros v c1 Hc1 E1 Hv.
  eapply (evaluates_bind _ _ _ (fun _ c' => recorded c' n v)).
  - destruct (evaluates_expr_info (set_expr_constant v) n c1 Hc1) as (u & c2 & Hrun & ? & ? & ? & _); [done|].
    exists u, c2. split_and!; try done. injection Hrun as <- <-.
    destruct (find_changed (set_expr_constant v) n (expr_infos c1)) as [i Hi]; [done|].
    by exists (set_expr_constant v i).
  - intros [] c2 Hc2 E2 Hr. apply evaluates_ret; [done|]. split; [by eapply value_extends|done].
Qed.

Lemma cached_computes n m : computes within m -> computes within (cached n m).
Proof.
  intros Hm c Hc Hw. eapply evaluates_mono; [apply cached_typed, Hm; done|].
  intros [v|] c' _ _; [by intros [? _]|done].
Qed.

Hypothesis Hcheck : exists f, check = check_const_decl f.

(** The operand's run is known where the operator is applied to it. *)
Lemma evaluates_try_run {A B} c (m : M (option A)) (k : A -> M (option B)) P Q :
  evaluates c m (succeeds P) ->
  (forall a c', m c = Returned (Some a, c') -> context_ok c' -> extends c c' -> P a c' ->
     evaluates c' (k a) (succeeds Q)) ->
  evaluates c (a ←? m; k a) (succeeds Q).
Proof using.
  intros Hm Hk. destruct Hm as (o & c1 & Hrun & Hc1 & E1 & H1 & HP).
  destruct o as [a|].
  - destruct (Hk a c1 Hrun Hc1 E1 HP) as (b & c2 & Hb & Hc2 & E2 & H2 & HQ).
    exists b, c2. unfold try_bind, mbind, M_bind. rewrite Hrun. split_and!; auto. by etrans.
  - exists None, c1. unfold try_bind, mbind, M_bind. rewrite Hrun. done.
Qed.

Lemma literal_typed c i :
  context_ok c -> 0 <= i < 2 ^ 64 ->
  typed c (t ← untyped_integer_type_for_value (integer_value_make i false);
           result t (CONST_VALUE_INT (integer_value_make i false))).
Proof using.
  intros Hc Hi. rewrite make_of_value by lia. cbn [negb].
  assert (Hcan : canonical (of_value i)) by (apply of_value_canonical; lia).
  assert (Hr : in_range_of TYPE_UNTYPED_INT i = true).
  { unfold in_range_of. cbn. apply andb_true_iff. split; [apply Z.leb_le; lia|apply Z.ltb_lt; lia]. }
  unfold typed, untyped_integer_type_for_value.
  eapply evaluates_bind.
  { eapply evaluates_lift; [by apply default_kind_spec|]. rewrite value_of_of_value.
    destruct (default_kind_some i Hr) as [k ->]. apply evaluates_new_type; [done|].
    apply (bool_decide_unpack _). reflexivity. }
  intros p c' Hc' He [Hp Ht]. apply typed_result; [done..|]. eapply admits_int; [exact Ht|done..|].
  cbn. rewrite fits_range, value_of_of_value by done. by rewrite Hr.
Qed.

Lemma float_literal_typed c d :
  context_ok c ->
  typed c (t ← new_type TYPE_UNTYPED_FLOAT; result t (CONST_VALUE_FLOAT (double_of d))).
Proof using.
  intros Hc. unfold typed. eapply evaluates_bind.
  { apply evaluates_new_type; [done|]. apply (bool_decide_unpack _). reflexivity. }
  intros p c' Hc' He [Hp Ht]. apply typed_result; [done..|]. exists (type_of_kind TYPE_UNTYPED_FLOAT).
  split_and!; [done|done|apply double_of_fits|done].
Qed.

Lemma impl_computes n :
  everywhere (safe c0) n -> computes within (eval_const_expr_impl check n).
Proof using Hsettles Hcheck H0.
  induction n as [|a s e IH] using Node_ind'; intros Hn c Hc Hw; [inversion Hn|].
  inversion Hn as [a' s' e' Ha Hch]; subst a' s' e'.
  assert (Hsub : Forall (fun m => computes within (cached m (eval_const_expr_impl check m))) (children a)).
  { clear - IH Hch H0. induction (children a) as [|m l IHl]; [by constructor|].
    inversion IH; inversion Hch; subst. constructor; [|by apply IHl].
    by apply cached_computes, H3. }
  clear IH Hch. destruct a; cbn [eval_const_expr_impl]; cbn [children] in Hsub;
    try (by apply typed_not_constant).
  - destruct value; [by apply literal_typed|by apply float_literal_typed].
  - by apply ident_typed.
  - by apply typed_bool.
  - unfold typed. eapply evaluates_pure; [apply builtin_type_run; builtin_kind|].
    destruct (builtin_canonical c TYPE_NULL Hc) as [Hp (t & Ht & Hk)%has_kind_deref]; [builtin_kind|].
    apply typed_result; [done..|]. exists t. split; [done|]. by left.
  - apply Forall_cons_1 in Hsub as [H1 _]. by apply (cast_typed within within_extends).
  - apply Forall_cons_1 in Hsub as [H1 _]. eapply evaluates_try_run; [by apply H1|].
    intros v c1 Hrun Hc1 E1 Hv.
    match goal with |- evaluates _ (eval_const_unary ?n _ _) _ =>
      destruct (unary_typed c1 Hc1 n op v Hv) as [|(-> & _ & Hmin)]; [done|] end. exfalso. destruct Hcheck as [f ->].
    eapply Ha; [exact Hc| |exact Hrun|exact Hmin]. apply Hw.
  - apply Forall_cons_1 in Hsub as [H1 [H2 _]%Forall_cons_1].
    eapply evaluates_try; [by apply H1|]. intros l c1 Hc1 E1 Hl.
    match goal with |- context [if is_logical _ then _ else ?both] => assert (Hboth : typed c1 both) end.
    { eapply evaluates_try; [apply H2; [done|by eapply within_extends]|]. intros r c2 Hc2 E2 Hr.
      apply binary_typed; try done. by eapply value_extends. }
    destruct (is_logical op); [|done]. destruct (const_value_as l); try by apply typed_fail.
    destruct (Bool.eqb _ _); [by apply typed_bool|done].
  - apply Forall_cons_1 in Hsub as [_ Hargs]. apply (builtin_call_typed within within_extends); [done..|].
    by apply Forall_map.
  - by apply field_typed.
Qed.

Lemma expr_computes c n :
  everywhere (safe c0) n -> context_ok c -> within c ->
  evaluates c (eval_const_expr check n) (succeeds (fun v c' => value_ok c' v /\ recorded c' n v)).
Proof using Hsettles Hcheck H0. intros Hn Hc Hw. by apply cached_typed, impl_computes. Qed.

(** ** The definition of a constant *)

Lemma coerce_typed c e v t p int_message float_message :
  context_ok c -> value_ok c v -> canonical_type c t -> is_untyped_numeric_type (types c) t = false ->
  initializer_compatible (types c) t p = true -> admits (types c) p (const_value_as v) ->
  evaluates c (coerce_constant_to_type e v t int_message float_message)
    (succeeds (fun v' c' => value_ok c' v' /\ c' = c)).
Proof using.
  intros Hc Hv Hp Hu Hi Ha. pose proof Hp as (ty & Ht & _).
  unfold is_untyped_numeric_type, kind_satisfies in Hu. rewrite Ht in Hu.
  unfold coerce_constant_to_type.
  eapply (evaluates_bind _ _ _ (fun o c' => forall v', o = Some v' -> value_ok c' v' /\ c' = c)).
  2:{ intros [v'|] c' Hc' He Hok; [apply evaluates_ret; [done|]; by apply Hok|].
      unfold kind_of, ask. apply evaluates_get. by apply evaluates_fail. }
  unfold try_coerce_constant_to_type. apply evaluates_require.
  { apply bool_decide_eq_true. destruct t; [by eexists|done]. }
  unfold kind_of, ask. apply evaluates_get. rewrite Ht. cbn [option_map].
  assert (Hres : forall a, admits (types c) t a ->
    evaluates c (result t a) (fun o c' => forall v', o = Some v' -> value_ok c' v' /\ c' = c)).
  { intros a Hadm. apply evaluates_ret; [done|]. by intros v' [= <-]. }
  destruct (is_integer_kind (kind ty)) eqn:Hk.
  - destruct (const_value_as v) as [i| | |] eqn:E; try by apply evaluates_ret.
    pose proof (value_int_canonical c v i Hv E) as Hcan.
    destruct (fits_returns i (kind ty) Hcan) as [b Hb]. eapply evaluates_lift; [exact Hb|].
    destruct b; [|by apply evaluates_ret]. apply Hres. by eapply admits_int.
  - destruct (is_float_kind (kind ty)) eqn:Hf.
    + destruct (const_value_to_float_type v (kind ty)) as [d|] eqn:Hd; [|by apply evaluates_ret].
      apply (const_to_float c v) in Hd as [Hm Hs]; [|done]. apply Hres. by exists ty.
    + apply Hres. by eapply initializer_admits.
Qed.

Lemma evaluates_conversion c e t p :
  context_ok c -> canonical_type c t -> conversion_free c e ->
  evaluates c (sem_record_context_conversion_if_needed e t p) (fun _ _ => True).
Proof using.
  intros Hc (ty & Ht & _) (i & Hi & Hty & Hconv). unfold sem_record_context_conversion_if_needed, ask.
  apply evaluates_get. case_bool_decide as Hn; [by apply evaluates_ret|].
  unfold sem_record_context_conversion. apply evaluates_require.
  { apply bool_decide_eq_true. destruct t; [by eexists|done]. }
  apply evaluates_require; [by rewrite bool_decide_eq_false_2|].
  unfold sem_find_expr_info. apply evaluates_get. rewrite Hi.
  apply evaluates_require; [by apply bool_decide_eq_true|].
  rewrite Hconv. cbn. by apply evaluates_expr_info.
Qed.

(** A constant's declaration has a type and a value of a type. *)
Definition defines (d : TypePtr * ConstValue) (c : SemanticContext) : Prop :=
  canonical_type c d.1 /\ value_ok c d.2.

Lemma definition_typed c n value const_type :
  everywhere (safe c0) value -> context_ok c -> within c ->
  evaluates c (constant_definition check n value const_type) (succeeds defines).
Proof using Hsettles Hcheck H0.
  intros Hn Hc Hw. unfold constant_definition.
  eapply evaluates_try; [by apply expr_computes|]. intros v c1 Hc1 E1 [Hv Hrec].
  eapply evaluates_bind; [by apply check_value_expression_ok|].
  intros [p|] c2 Hc2 E2 Hp; [|by apply evaluates_ret]. destruct Hp as (Hp & Hfree & Hadm).
  specialize (Hadm v Hrec). rewrite bool_decide_eq_true_2 by (by eexists). cbn [negb].
  destruct const_type as [t|].
  - unfold declared_constant. eapply evaluates_bind; [by apply resolve_type_ok|].
    intros [t'|] c3 Hc3 E3 Ht'.
    2:{ apply evaluates_get. by apply evaluates_fail. }
    destruct Ht' as (Ht' & Hu & Hkeep). apply evaluates_get.
    rewrite bool_decide_eq_true_2 by (by eexists). cbn [negb].
    destruct (invalid_value_type _ _); [by apply evaluates_fail|].
    destruct (initializer_compatible (types c3) (Some t') (Some p)) eqn:Hi; cbn [negb].
    2:{ destruct (is_integer_zero_to_pointer _ _ _); by apply evaluates_fail. }
    eapply evaluates_try.
    { apply (coerce_typed c3 value v (Some t') (Some p)); try done.
      - eapply value_extends; [|exact Hv]. by etrans.
      - by eapply admits_extends. }
    intros v' c4 Hc4 E4 [Hv' ->]. eapply evaluates_bind.
    { apply evaluates_conversion; [done..|]. by apply Hkeep. }
    intros [] c5 Hc5 E5 _. apply evaluates_ret; [done|].
    split; cbn; [by eapply canonical_extends|by eapply value_extends].
  - unfold inferred_constant, ask. apply evaluates_get.
    destruct (is_null_type _ _); [by apply evaluates_fail|].
    assert (Hv2 : value_ok c2 v) by by eapply value_extends.
    apply evaluates_type; [done|]. pose proof Hv2 as [Hcan Ha].
    destruct (const_value_type v) as [i|] eqn:Hty; [|by destruct Hcan as (? & ? & _)].
    apply evaluates_ret; [done|]. split; cbn; [done|]. split; cbn; [done|]. done.
Qed.
End Evaluation.

(** ** The check of a declaration *)

Lemma context_ok_place c source m scope : context_ok c -> context_ok (set_place source m scope c).
Proof.
  intros [H1 H2 H3 H4 H5 H6 H7 H8]. constructor; try done.
  intros s sym Hs. destruct (H8 s sym Hs) as [B1 B2 B3]. constructor; [done| |done].
  intros Hk. destruct (B2 Hk) as (n & i & d & []). exists n, i, d. by constructor.
Qed.

Lemma pending_change c f i d :
  decl_infos c !! i = Some d -> pending d = true -> pending (f d) = false ->
  (pending_count (change_decl f i c) < pending_count c)%nat.
Proof.
  unfold pending_count, change_decl. cbn. generalize (decl_infos c). clear c.
  intros l. revert i. induction l as [|x l IH]; intros i Hd Hp Hf; [done|].
  destruct i as [|i]; cbn in *.
  - injection Hd as ->. rewrite Hp, Hf. cbn. lia.
  - specialize (IH i Hd Hp Hf). destruct (pending x); [by apply -> Nat.succ_lt_mono|done].
Qed.

Lemma later_begin c i d :
  decl_infos c !! i = Some d -> pending d = true -> later c (change_decl (set_started true) i c).
Proof.
  intros Hd Hp. destruct (context_later_refl c) as [T S Y I N]. constructor; try done.
  - intros j d0 Hd0. destruct (alter_lookup_exists (set_started true) i _ j d0 Hd0) as (d' & Hd' & [-> | [-> ->]]).
    + exists d0. done.
    + exists (set_started true d0). split_and!; try done. unfold pending. cbn. by rewrite andb_false_r.
  - intros j d0 Hj Hd0. apply lookup_lt_Some in Hd0. cbn in Hd0. rewrite length_alter in Hd0. lia.
Qed.

Section Declaration.
Context (c : SemanticContext) (s : nat) (sym : Symbol) (n : Node) (i : nat) (d : SemDeclInfo)
  (source : Z) (m : option nat) (scope : option nat).
Hypotheses (Hc : context_ok c) (Hs : symbols c !! s = Some sym)
  (Hok : constant_symbol_ok c s sym n i d) (Hp : pending d = true).

(** The context in which the value is evaluated. *)
Definition begun : SemanticContext := change_decl (set_started true) i (set_place source m scope c).

Definition finish_info (o : option (TypePtr * ConstValue)) : SemDeclInfo -> SemDeclInfo :=
  match o with
  | None => set_started false
  | Some (t, v) => fun d => set_checked v (set_declared t (Some s) d)
  end.

Definition finish_symbol (o : option (TypePtr * ConstValue)) : Symbol -> Symbol :=
  match o with None => id | Some (t, _) => set_symbol_type t end.

(** The context at the end of the check. *)
Definition finished (o : option (TypePtr * ConstValue)) (c' : SemanticContext) : SemanticContext :=
  set_decl_infos (alter (finish_info o) i (decl_infos c'))
    (set_symbols (alter (finish_symbol o) s (symbols c')) c').

Definition returned (c' : SemanticContext) : SemanticContext :=
  set_place (current_source_id c) (current_module c) (current_scope c) c'.

Lemma pending_flags :
  semantic_check_started d = false /\ semantic_check_complete d = false /\ decl_constant_value d = None
  /\ decl_type d = None /\ sym_type sym = None.
Proof using Hok Hp.
  unfold pending in Hp. apply andb_true_iff in Hp as [[Hp' Hst]%andb_true_iff Hcomp].
  apply negb_true_iff in Hst, Hcomp.
  destruct (decl_constant_value d) as [v|] eqn:Hv.
  { pose proof (symbol_checked _ _ _ _ _ _ Hok) as Hx. rewrite Hv in Hx. rewrite Hx in Hcomp; [done|by eexists]. }
  destruct (symbol_unchecked _ _ _ _ _ _ Hok Hv). done.
Qed.

Lemma begun_ok : context_ok begun.
Proof using Hc. apply context_ok_change; [apply keeps_started|by apply context_ok_place]. Qed.

Lemma begun_later : later c begun.
Proof using Hok Hp.
  eapply context_later_trans; [apply later_place|]. eapply later_begin; [|exact Hp]. apply Hok.
Qed.

Lemma begun_pending : (pending_count begun < pending_count c)%nat.
Proof using Hok Hp.
  change (pending_count c) with (pending_count (set_place source m scope c)).
  eapply pending_change; [apply Hok|done|]. unfold pending. cbn. by rewrite andb_false_r.
Qed.

Lemma begun_honest : honest c -> honest begun.
Proof using. intros Hh. by apply honest_change; [apply keeps_started|..]. Qed.

Section Finish.
Context (c' : SemanticContext) (Hc' : context_ok c') (He : extends begun c').

(** The declaration and its symbol, at the end of the evaluation. *)
Lemma declaration_after :
  exists d' sym', decl_infos c' !! i = Some d' /\ info_extends (set_started true d) d'
    /\ decl_constant_value d' = None /\ decl_type d' = None
    /\ symbols c' !! s = Some sym' /\ symbol_extends begun sym sym' /\ sym_type sym' = None
    /\ constant_symbol_ok c' s sym' n i d'.
Proof using Hc' He Hs Hok Hp.
  destruct pending_flags as (Hst & Hcomp & Hv & Ht & Hty).
  pose proof Hok as [S1 S2 S3 S4 S5 S6 S7 S8 S9].
  assert (Hd : decl_infos begun !! i = Some (set_started true d)).
  { cbn. by rewrite list_lookup_alter_eq, S4. }
  destruct (extends_infos _ _ He i _ Hd) as (d' & Hd' & E).
  destruct (extends_symbols _ _ He s sym Hs) as (sym' & Hs' & Es).
  exists d', sym'. destruct (info_busy _ _ E eq_refl) as [Hv' Ht'].
  assert (Hty' : sym_type sym' = sym_type sym) by by eapply extends_busy.
  cbn in Hv', Ht'. split_and!; try done; try congruence.
  destruct (ok_symbols _ Hc' s sym' Hs') as [_ B2 B3].
  assert (Hk : sym_kind sym' = SYMBOL_CONSTANT).
  { eapply B3; [by rewrite (extends_declaration _ _ _ Es)|exact S2]. }
  destruct (B2 Hk) as (n' & j & d2 & Hok2). pose proof Hok2 as [Q1 Q2 Q3 Q4 _ _ _ _ _].
  rewrite (extends_declaration _ _ _ Es), S1 in Q1. injection Q1 as <-.
  rewrite (extends_id _ _ _ Es), S3 in Q3. injection Q3 as <-.
  rewrite Hd' in Q4. by injection Q4 as <-.
Qed.

Lemma finish_extends o : extends c (returned (finished o c')).
Proof using Hc' He Hs Hok Hp.
  destruct pending_flags as (Hst & Hcomp & Hv & Ht & Hty).
  destruct declaration_after as (d' & sym' & Hd' & Ed & Hv' & Ht' & Hs' & Es & Hty' & Hok').
  constructor; cbn; try done; try apply He.
  - intros s0 sym0 Hs0. destruct (extends_symbols _ _ He s0 sym0 Hs0) as (sym1 & Hs1 & E1).
    destruct (alter_lookup_exists (finish_symbol o) s _ s0 sym1 Hs1) as (sym2 & Hs2 & Hcase).
    exists sym2. split; [done|].
    assert (Hbusy : forall j d0, declaration_id sym0 = Some j -> decl_infos c !! j = Some d0 ->
              semantic_check_started d0 = true -> sym_type sym1 = sym_type sym0).
    { intros j d0 Hj Hd0 Hst0.
      destruct (alter_lookup_exists (set_started true) i _ j d0 Hd0) as (d1 & Hd1 & Hd01).
      eapply (extends_busy _ _ _ E1); [exact Hj|exact Hd1|]. by destruct Hd01 as [-> | [-> _]]. }
    destruct E1 as [X1 X2 X3 X4 X5 X6 X7]. destruct Hcase as [-> | [-> <-]].
    + by constructor.
    + simplify_eq. destruct o as [[t v]|]; [|by constructor]. constructor; try done; cbn; try congruence.
      intros j d0 Hj Hd0 Hst0. pose proof (symbol_id _ _ _ _ _ _ Hok).
      pose proof (symbol_info _ _ _ _ _ _ Hok). congruence.
  - intros j d0 Hd0. destruct (alter_lookup_exists (set_started true) i _ j d0 Hd0) as (d1 & Hd1 & Hd01).
    destruct (extends_infos _ _ He j d1 Hd1) as (d2 & Hd2 & E2).
    destruct (alter_lookup_exists (finish_info o) i _ j d2 Hd2) as (d3 & Hd3 & Hd23).
    exists d3. split; [done|]. pose proof (symbol_info _ _ _ _ _ _ Hok) as Hi.
    pose proof (symbol_info_symbol _ _ _ _ _ _ Hok) as Hsym.
    destruct (decide (j = i)) as [->|Hne].
    + simplify_eq. assert (Hd3' : d3 = finish_info o d').
      { rewrite list_lookup_alter_eq, Hd' in Hd3. by injection Hd3 as <-. }
      subst d3. pose proof (info_symbol _ _ Ed) as Hsd. cbn in Hsd.
      destruct Ed as [X1 X2 X3 X4 X5 X6 X7 X8]. cbn in *.
      destruct o as [[t v]|]; constructor; cbn; congruence.
    + destruct Hd01 as [-> | [_ ?]]; [|congruence]. by destruct Hd23 as [-> | [_ ?]]; [|congruence].
  - intros j d0 Hj Hd0. apply alter_lookup_cases in Hd0 as (d1 & Hd1 & Hcase).
    pose proof (symbol_info _ _ _ _ _ _ Hok) as Hi. apply lookup_lt_Some in Hi.
    destruct Hcase as [[-> _]|[_ <-]]; [|lia].
    eapply (extends_new _ _ He); [|exact Hd1]. cbn. by rewrite length_alter.
Qed.

Definition defines_in (o : option (TypePtr * ConstValue)) : Prop :=
  match o with Some x => defines x c' | None => True end.

Lemma finish_names o name x : has_name (finished o c') name x = has_name c' name x.
Proof using.
  unfold has_name. cbn.
  destruct (decide (x = s)) as [->|Hne]; [|by rewrite list_lookup_alter_ne].
  rewrite list_lookup_alter_eq. destruct (symbols c' !! s) as [sy|]; [|done]. by destruct o as [[]|].
Qed.

Lemma finish_predeclared o s0 name n0 :
  predeclared c' s0 name n0 -> predeclared (finished o c') s0 name n0.
Proof using.
  intros (md & Hm & Hf). exists md. split; [exact Hm|].
  rewrite <- Hf. unfold scope_find_local. cbn. destruct (scopes c' !! _); [|done].
  apply find_ext_in. intros x _. apply finish_names.
Qed.

Lemma finish_ok o : defines_in o -> context_ok (finished o c').
Proof using Hc' He Hs Hok Hp.
  intros Ho. destruct declaration_after as (d' & sym' & Hd' & Ed & Hv' & Ht' & Hs' & Es & Hty' & Hok').
  pose proof Hc' as [H1 H2 H3 H4 H5 H6 H7 H8]. constructor; try done.
  - intros j d0 v Hd0 Hv. cbn in Hd0. apply alter_lookup_cases in Hd0 as (d1 & Hd1 & [[-> _]|[-> <-]]).
    + by apply (H5 j d1).
    + simplify_eq. destruct o as [[t v']|]; cbn in Hv; [|by rewrite Hv' in Hv].
      injection Hv as <-. apply Ho.
  - intros j sc x Hsc Hx. destruct (H6 j sc x Hsc Hx) as [y Hy]. cbn.
    destruct (alter_lookup_exists (finish_symbol o) s _ x y Hy) as (z & Hz & _). by exists z.
  - cbn. rewrite map_alter; [done|]. by destruct o as [[]|].
  - intros s0 sym2 Hs2. cbn in Hs2. apply alter_lookup_cases in Hs2 as (sym1 & Hs1 & Hcase).
    destruct (H8 s0 sym1 Hs1) as [B1 B2 B3]. destruct Hcase as [[-> Hne]|[-> <-]].
    + constructor; [done| |done]. intros Hk. destruct (B2 Hk) as (n0 & j & d0 & Hok0).
      destruct Hok0 as [S1 S2 S3 S4 S5 S6 S7 S8 S9]. exists n0, j, d0.
      assert (j <> i).
      { intros ->. pose proof (symbol_info_symbol _ _ _ _ _ _ Hok'). congruence. }
      constructor; try done; [by cbn; rewrite list_lookup_alter_ne|].
      intros Hcomp. by apply finish_predeclared, S7.
    + simplify_eq. destruct Hok' as [S1 S2 S3 S4 S5 S6 S7 S8 S9].
      assert (Hk : sym_kind sym' = SYMBOL_CONSTANT) by by eapply B3.
      constructor; [|intros _|by destruct o as [[]|]].
      * destruct o as [[]|]; cbn; by rewrite Hk.
      * exists n, i, (finish_info o d'). destruct o as [[t v]|]; constructor; cbn; try done;
          try (by rewrite list_lookup_alter_eq, Hd'); try by eauto.
        intros Hcomp. apply (finish_predeclared None). by apply S7.
Qed.

Lemma finish_honest o : honest c' -> honest (finished o c').
Proof using Hc' He Hs Hok Hp.
  destruct declaration_after as (d' & sym' & Hd' & Ed & Hv' & Ht' & Hs' & Es & Hty' & Hok').
  intros [Hh|Hh]; [by left|right]. intros j d0 Hd0 Hcomp Hv. cbn in Hd0.
  apply alter_lookup_cases in Hd0 as (d1 & Hd1 & [[-> _]|[-> <-]]); [by eapply Hh|].
  simplify_eq. destruct o as [[t v]|]; [done|]. by eapply Hh.
Qed.

Lemma reported_finish : reported c' -> reported (finished None c').
Proof using.
  intros Hr Hh. apply Hr. destruct Hh as [Hh|Hh]; [by left|right]. intros j d0 Hd0 Hcomp Hv.
  destruct (alter_lookup_exists (finish_info None) i _ j d0 Hd0) as (d1 & Hd1 & [-> | [-> _]]);
    by eapply Hh.
Qed.

Lemma find_position_spec {A} (f : A -> bool) l j x :
  l !! j = Some x -> f x = true -> (forall k y, l !! k = Some y -> f y = true -> k = j) ->
  find_position f l = Some j.
Proof.
  revert j. induction l as [|y l IH]; intros j Hx Hf Hu; [done|]. cbn.
  destruct (f y) eqn:Hy; [by rewrite <- (Hu 0%nat y eq_refl Hy)|].
  destruct j as [|j]; [injection Hx as ->; congruence|].
  rewrite (IH j); [done|done|done|]. intros k z Hz Hfz. by injection (Hu (S k) z Hz Hfz).
Qed.

Lemma find_position_nodes n0 l :
  find_position (fun x => bool_decide (decl_node x = n0)) l
  = find_position (fun y => bool_decide (y = n0)) (map decl_node l).
Proof using. induction l as [|x l IH]; [done|]. cbn. by rewrite IH. Qed.

(** A declaration is found by its tree. *)
Lemma find_decl cx j dx :
  context_ok cx -> decl_infos cx !! j = Some dx ->
  sem_find_decl_info (decl_node dx) cx = Returned (Some j, cx).
Proof using.
  intros Hcx Hdx. unfold sem_find_decl_info, get. do 2 f_equal.
  eapply find_position_spec; [exact Hdx|by apply bool_decide_eq_true|].
  intros k y Hy Hn. apply bool_decide_eq_true in Hn.
  eapply (NoDup_lookup (map decl_node (decl_infos cx))); [apply Hcx| |].
  - rewrite list_lookup_fmap, Hy. cbn. by rewrite Hn.
  - by rewrite list_lookup_fmap, Hdx.
Qed.

Lemma alter_same {A} (f : A -> A) j (l : list A) x : l !! j = Some x -> f x = x -> alter f j l = l.
Proof using.
  intros Hx Hf. apply list_eq. intros k. destruct (decide (k = j)) as [->|].
  - by rewrite list_lookup_alter_eq, Hx; cbn; rewrite Hf.
  - by rewrite list_lookup_alter_ne.
Qed.

Lemma alter_agree {A} (f g : A -> A) j (l : list A) x :
  l !! j = Some x -> f x = g x -> alter f j l = alter g j l.
Proof using.
  intros Hx Hf. apply list_eq. intros k. destruct (decide (k = j)) as [->|].
  - by rewrite !list_lookup_alter_eq, Hx; cbn; rewrite Hf.
  - by rewrite !list_lookup_alter_ne.
Qed.

Lemma alter_twice {A} (f g : A -> A) j (l : list A) : alter f j (alter g j l) = alter (fun x => f (g x)) j l.
Proof using.
  apply list_eq. intros k. destruct (decide (k = j)) as [->|].
  - rewrite !list_lookup_alter_eq. by destruct (l !! j).
  - by rewrite !list_lookup_alter_ne.
Qed.

Lemma canonical_assertion cx p :
  canonical_type cx p -> assert_canonical_builtin_type p cx = Returned (tt, cx).
Proof using.
  intros (ty & Ht & Hcan). unfold assert_canonical_builtin_type, ask, get, mbind, M_bind. rewrite Ht.
  destruct (decide (kind ty ∈ builtin_kinds)) as [Hk|Hk].
  - rewrite builtin_type_run, Hcan by done. unfold require.
    rewrite (bool_decide_eq_true_2 (p = p)), orb_true_r by done. done.
  - by rewrite builtin_type_other.
Qed.

Lemma run_bind {A B} (f : A -> M B) (k : M A) cx a cy :
  k cx = Returned (a, cy) -> (x ← k; f x) cx = f a cy.
Proof using. intros E. unfold mbind, M_bind. by rewrite E. Qed.

Lemma same_set {A} `{EqDecision A} (x : A) : same_if_set (Some x) (Some x) = true.
Proof using. unfold same_if_set. by rewrite (bool_decide_eq_true_2 (Some x = Some x)), orb_true_r. Qed.

Lemma record_run cx j dx sx n0 t :
  sem_find_decl_info n0 cx = Returned (Some j, cx) -> decl_infos cx !! j = Some dx ->
  symbols cx !! s = Some sx -> canonical_type cx t ->
  decl_type dx = None -> decl_symbol dx = Some s -> declaration sx = Some n0 ->
  declaration_id sx = Some j ->
  sem_record_decl_info n0 t (Some s) cx
  = Returned (j, set_symbols (alter (set_symbol_declaration n0 j) s (symbols cx))
                   (set_decl_infos (alter (set_declared t (Some s)) j (decl_infos cx)) cx)).
Proof using.
  intros Hfind Hd0 Hs0 Hcan Ht0 Hsym0 Hdecl0 Hid0. unfold sem_record_decl_info.
  destruct t as [ti|]; [|by destruct Hcan as (? & ? & _)].
  erewrite run_bind; [|reflexivity].
  erewrite run_bind; [|by apply canonical_assertion].
  erewrite run_bind.
  2:{ unfold sem_get_or_create_decl_info. erewrite run_bind; [|exact Hfind]. reflexivity. }
  erewrite run_bind; [|unfold sem_find_decl_info_by_id, object, get; cbn; by rewrite Hd0].
  cbv [default from_option]. cbn [id]. rewrite Ht0, Hsym0. erewrite run_bind; [|reflexivity].
  erewrite run_bind.
  2:{ rewrite same_set, orb_true_r. reflexivity. }
  erewrite run_bind; [|reflexivity].
  erewrite run_bind; [|unfold object, get; cbn; by rewrite Hs0].
  cbn beta iota. rewrite Hdecl0, Hid0, !same_set. reflexivity.
Qed.

Lemma finish_run name o :
  defines_in o -> finish_const_decl n name (Some s) i o c' = Returned (tt, finished o c').
Proof using Hc' He Hs Hok Hp.
  intros Ho. destruct declaration_after as (d' & sym' & Hd' & Ed & Hv' & Ht' & Hs' & Es & Hty' & Hok').
  destruct Hok' as [S1 S2 S3 S4 S5 S6 S7 S8 S9]. destruct o as [[t v]|]; cbn [finish_const_decl].
  2:{ unfold update_decl_info, modify, finished. cbn. do 2 f_equal.
      rewrite (alter_same id s _ sym') by done. by destruct c'. }
  assert (Hk : sym_kind sym' = SYMBOL_CONSTANT).
  { by eapply (symbol_of_constant c' s sym'); [apply (ok_symbols c' Hc')|..]. }
  destruct Ho as [Hcan Hval]. cbn in Hcan, Hval.
  set (c1 := set_symbols (alter (set_symbol_type t) s (symbols c')) c').
  assert (Hs1 : symbols c1 !! s = Some (set_symbol_type t sym')).
  { cbn. by rewrite list_lookup_alter_eq, Hs'. }
  assert (Hfind : forall cx, map decl_node (decl_infos cx) = map decl_node (decl_infos c') ->
    sem_find_decl_info n cx = Returned (Some i, cx)).
  { intros cx Hcx. pose proof (find_decl c' i d' Hc' Hd') as E. rewrite S5 in E.
    unfold sem_find_decl_info, get in *. rewrite find_position_nodes in *. rewrite Hcx.
    by injection E as ->. }
  erewrite run_bind.
  2:{ unfold define_constant. erewrite run_bind; [|unfold object, get; cbn; by rewrite Hs'].
      cbn [mbind option_bind option_map]. rewrite Hk, Hty'.
      erewrite run_bind; [|reflexivity]. erewrite run_bind; [|reflexivity].
      erewrite (run_bind _ (update_symbol _ _)); [|reflexivity]. fold c1.
      erewrite run_bind; [reflexivity|]. eapply record_run; try done. by apply Hfind. }
  erewrite run_bind.
  2:{ apply Hfind. cbn. by rewrite map_alter. }
  unfold update_decl_info, modify, finished. cbn. do 2 f_equal.
  subst c1. cbn. rewrite !alter_twice.
  rewrite (alter_agree _ (set_symbol_type t) s _ sym' Hs'); [done|].
  unfold set_symbol_declaration, set_symbol_type. cbn. by rewrite S1, S3.
Qed.
End Finish.

(** The check, from its start to its end. *)
Lemma check_run check const_type value name :
  as_of n = Some (NODE_CONST_DECL const_type name value) ->
  (exists sc, scope = Some sc /\ scope_find_local c sc name = Some s) ->
  check_const_decl_with check n (set_place source m scope c)
  = (definition ← constant_definition check n value const_type;
     finish_const_decl n name (Some s) i definition) begun.
Proof using Hc Hs Hok Hp.
  intros Hn (sc & Hsc & Hfind). destruct pending_flags as (Hst & Hcomp & Hv & Ht & Hty).
  pose proof Hok as [S1 S2 S3 S4 S5 S6 S7 S8 S9].
  unfold check_const_decl_with. rewrite Hn.
  pose proof (find_decl _ i d (context_ok_place c source m scope Hc) S4) as Hi. rewrite S5 in Hi.
  erewrite run_bind.
  2:{ unfold sem_get_or_create_decl_info. erewrite run_bind; [|exact Hi]. reflexivity. }
  erewrite run_bind; [|unfold sem_find_decl_info_by_id, object, get; cbn; by rewrite S4].
  cbn beta iota. rewrite Hcomp, Hst. cbn beta iota.
  erewrite (run_bind _ _ _ (Some s)); [|unfold get; cbn; rewrite Hsc; cbn; by rewrite <- Hfind].
  erewrite run_bind; [|unfold object, get; cbn; by rewrite Hs].
  cbn [mbind option_bind]. rewrite S1, !bool_decide_eq_true_2 by (done || by eexists).
  reflexivity.
Qed.
End Declaration.

Lemma select_run c id md :
  file_module c id = Some md ->
  exists m, semantic_select_source_module id c = Returned (tt, set_place id m (Some (module_scope md)) c).
Proof.
  unfold file_module, file_entry, semantic_select_source_module, semantic_source_module, get, object, get,
    mbind, M_bind. cbn. intros Hf.
  destruct (id =? SOURCE_FILE_ID_INVALID); [done|].
  destruct (find_position _ _) as [j|]; [|done]. cbn in Hf |- *.
  destruct (source_modules c !! j) as [entry|]; [|done]. cbn in Hf |- *.
  destruct (source_module entry) as [m|]; [|done]. cbn in Hf |- *. rewrite Hf.
  by exists (Some m).
Qed.

Lemma constant_name_decl n name :
  constant_name n = Some name -> exists t v, as_of n = Some (NODE_CONST_DECL t name v).
Proof. unfold constant_name. destruct (as_of n) as [[]|]; try done. intros [= <-]. eauto. Qed.

(** The tree of a pending declaration is one of those the program started with. *)
Lemma pending_safe c0 c i d :
  constants_safe c0 -> later c0 c -> decl_infos c !! i = Some d -> pending d = true ->
  everywhere (safe c0) (decl_node d).
Proof.
  intros Hsafe Hl Hd Hp. destruct (decide (length (decl_infos c0) <= i)%nat) as [Hle|Hlt].
  { by rewrite (later_new _ _ Hl i d) in Hp. }
  destruct (lookup_lt_is_Some_2 (decl_infos c0) i ltac:(lia)) as [d0 Hd0].
  destruct (later_infos _ _ Hl i d0 Hd0) as (d' & Hd' & Hn & _). simplify_eq. rewrite Hn.
  eapply Hsafe; [exact Hd0|]. rewrite <- Hn. unfold pending in Hp.
  apply andb_true_iff in Hp as [[[Hp _]%andb_true_iff _]%andb_true_iff _].
  by apply bool_decide_eq_true in Hp.
Qed.

(** A declaration's check settles it if the checks of fewer pending declarations do. *)
Lemma settles_next c0 fuel :
  constants_safe c0 -> settles c0 fuel (check_const_decl fuel) ->
  settles c0 (S fuel) (check_const_decl (S fuel)).
Proof.
  intros Hsafe IH c s sym n i d Hc [Hl Hcount] Hs Hok Hp.
  pose proof Hok as [S1 S2 S3 S4 S5 S6 S7 S8 S9].
  destruct (pending_flags c s sym n i d Hok Hp) as (Hst & Hcomp & Hv & _ & _).
  destruct (S7 Hcomp) as (md & Hfile & Hname). destruct (select_run c _ md Hfile) as [m Hsel].
  destruct (constant_name_decl _ _ S2) as (const_type & value & Hn).
  set (source := file_id (span_of n)) in *. set (scope := Some (module_scope md)) in *.
  assert (Hvalue : everywhere (safe c0) value).
  { pose proof (pending_safe c0 c i d Hsafe Hl S4 Hp) as Hall. rewrite S5 in Hall.
    destruct n as [|a sp e]; [done|]. injection Hn as ->. inversion Hall as [? ? ? _ Hch]; subst.
    by apply Forall_cons_1 in Hch as [? _]. }
  pose proof (begun_ok c i source m scope Hc) as Hbok.
  assert (Hw : within c0 fuel (begun c i source m scope)).
  { split; [eapply context_later_trans; [exact Hl|by eapply begun_later]|].
    pose proof (begun_pending c s sym n i d source m scope Hok Hp). lia. }
  destruct (definition_typed c0 fuel (check_const_decl fuel) IH (ex_intro _ fuel eq_refl) _ n value
    const_type Hvalue Hbok Hw) as (o & c3 & Hrun & Hc3 & He3 & Hh3 & Ho).
  assert (Hdef : defines_in c3 o) by by destruct o.
  destruct (declaration_after c s sym n i d source m scope Hs Hok Hp c3 Hc3 He3)
    as (d' & sym' & Hd' & _ & Hv' & _).
  assert (Hafter : decl_infos (finished s i o c3) !! i = Some (finish_info s o d')).
  { cbn. by rewrite list_lookup_alter_eq, Hd'. }
  assert (Hb : check_declaration_in_module (check_const_decl (S fuel)) n (Some i) c
    = Returned (bool_decide (is_Some o), returned c (finished s i o c3))).
  { unfold check_declaration_in_module. do 3 (erewrite run_bind; [|reflexivity]).
    erewrite run_bind; [|exact Hsel].
    erewrite run_bind.
    2:{ cbn [check_const_decl].
        rewrite (check_run c s sym n i d source m scope Hc Hs Hok Hp _ const_type value (sym_name sym) Hn)
          by (exists (module_scope md); done).
        erewrite run_bind; [|exact Hrun]. by eapply finish_run. }
    erewrite run_bind; [|reflexivity].
    erewrite (run_bind _ _ _ (Some (finish_info s o d'))); [|unfold sem_find_decl_info_by_id, object, get; do 2 f_equal; exact Hafter].
    unfold mret, M_ret. do 2 f_equal. f_equal. destruct o as [[t v]|]; cbn; [done|].
    rewrite Hv'. by rewrite andb_false_r. }
  eexists _, _. split; [exact Hb|]. split_and!.
  - apply context_ok_place. by eapply finish_ok.
  - by eapply finish_extends.
  - intros Hh. change (honest (finished s i o c3)). eapply finish_honest; try done.
    apply Hh3. by apply begun_honest.
  - destruct o as [[t v]|]; cbn.
    + exists (finish_info s (Some (t, v)) d'), v. done.
    + change (reported (finished s i None c3)). by apply reported_finish.
Qed.

(** Nothing is pending, so nothing is checked. *)
Lemma settles_zero c0 : settles c0 0 (check_const_decl 0).
Proof.
  intros c s sym n i d Hc [_ Hcount] Hs Hok Hp. exfalso.
  pose proof (symbol_info _ _ _ _ _ _ Hok) as Hd. unfold pending_count in Hcount.
  assert (In d (List.filter pending (decl_infos c))) as Hin.
  { apply filter_In. split; [|done]. apply list_elem_of_In. by eapply list_elem_of_lookup_2. }
  destruct (List.filter pending (decl_infos c)); [done|cbn in Hcount; lia].
Qed.

Lemma settles_all c0 fuel : constants_safe c0 -> settles c0 fuel (check_const_decl fuel).
Proof.
  intros Hsafe. induction fuel as [|fuel IH]; [apply settles_zero|by apply settles_next].
Qed.

(** The evaluator with enough fuel. *)
Lemma impl_sound c n fuel :
  context_ok c -> constants_safe c -> everywhere (safe c) n -> (pending_count c <= fuel)%nat ->
  typed c (eval_const_expr_impl (check_const_decl fuel) n).
Proof.
  intros Hc Hsafe Hn Hfuel.
  apply (impl_computes c fuel _ (settles_all c fuel Hsafe) (ex_intro _ fuel eq_refl) n Hn c Hc).
  split; [apply context_later_refl|done].
Qed.
End Safety.
