(* ===== verification/ConstantTheory.v ===== *)
(** What the evaluation of constants guarantees.

    The theorems are proved against [CheckerLaws], what the evaluator asks of the resolution
    of types and of the check of expressions; [simple_checker] is an instance, with which the
    witnesses run. *)
From Stdlib Require Import SpecFloat.
From S2P Require Import Prelude Token Types Source Lexer IntegerValue TypeRelations Target FlowState Ast SemContext Modules ConstantEvaluation ConstantFloat ConstantInvariant ConstantArithmetic ConstantTyping ConstantNames ConstantSafety.

Section Claims.
Context `{CheckerLaws}.

(** ** Probing *)

Lemma everywhere_mono (P Q : NodeAs -> SourceSpan -> Prop) n :
  (forall a s, P a s -> Q a s) -> everywhere P n -> everywhere Q n.
Proof.
  intros HPQ. induction n as [|a s e IH] using Node_ind'; inversion 1 as [? ? ? Ha Hch]; subst.
  constructor; [by apply HPQ|]. revert IH Hch. generalize (children a). intros l IH Hch.
  induction l as [|m l IHl]; [constructor|]. inversion IH; inversion Hch; subst. constructor; auto.
Qed.

Lemma safe_later c c' a s : later c c' -> safe c a s -> safe c' a s.
Proof.
  intros Hl. destruct a; try done. destruct op; try done. cbn. intros Hs fuel c1 v c2 Hc1 Hl1.
  apply Hs; [done|]. by eapply context_later_trans.
Qed.

Definition silenced (c : SemanticContext) : SemanticContext := set_const_eval_silent true c.

Lemma later_silenced c : later c (silenced c).
Proof. destruct (context_later_refl c). by constructor. Qed.

Lemma context_ok_silent b c : context_ok c -> context_ok (set_const_eval_silent b c).
Proof.
  intros [H1 H2 H3 H4 H5 H6 H7 H8]. constructor; try done.
  intros s sym Hs. destruct (H8 s sym Hs) as [B1 B2 B3]. constructor; [done| |done].
  intros Hk. destruct (B2 Hk) as (n & i & d & []). exists n, i, d. by constructor.
Qed.

Lemma extends_silenced c c' :
  extends (silenced c) c' -> extends c (set_const_eval_silent (const_eval_silent c) c').
Proof.
  intros [E1 E2 E3 E4 E5 E6 E7 E8 E9 E10 E11 E12 E13 E14 E15 E16]. constructor; try done.
  - intros s sym Hs. destruct (E12 s sym Hs) as (sym' & Hs' & []). exists sym'. split; [done|]. by constructor.
  - intros _. by apply E16.
Qed.



End Claims.

(** ** An instance, and a program *)

(** Types without components, and integers of 32 bits and booleans for expressions. *)
Definition simple_resolve (t : SourceType) (n : Node) : M TypePtr :=
  match t with
  | TyKind k =>
      if bool_decide (k ∈ builtin_kinds) then builtin_type k
      else semantic_error n "unknown type" ;; mret None
  | _ => semantic_error n "unknown type" ;; mret None
  end.

Definition set_type (p : TypePtr) (i : SemExprInfo) : SemExprInfo :=
  mkExprInfo (expr_node i) p None SEM_CONTEXT_CONVERSION_NONE (expr_symbol i) (value_category i)
    (value_access i) (value_is_volatile i) (expr_constant_value i) (builtin_layout_value i).

(** The kind of a recorded constant. *)
Definition simple_kind (v : ConstValue) : option TypeKind :=
  match const_value_as v with
  | CONST_VALUE_INT i =>
      if bool_decide (canonical i /\ in_range_of TYPE_S32 (value_of i) = true) then Some TYPE_S32 else None
  | CONST_VALUE_BOOL _ => Some TYPE_BOOL
  | _ => None
  end.

Definition simple_check (e : Node) : M TypePtr :=
  info ← sem_find_expr_info e;
  match i ← info; v ← expr_constant_value i; simple_kind v with
  | Some k => p ← builtin_type k; with_expr_info (set_type p) e ;; mret p
  | None => semantic_error e "not a constant" ;; mret None
  end.

Definition simple_checker : Checker := {| resolve_type := simple_resolve; check_value_expression := simple_check |}.

Lemma simple_checker_laws : @CheckerLaws simple_checker.
Proof.
  assert (Hfail : forall c n msg (Q : TypePtr -> SemanticContext -> Prop), context_ok c ->
    (forall c', reported c' -> Q None c') -> evaluates c (semantic_error n msg ;; mret None) Q).
  { intros c n msg Q Hc HQ. eapply evaluates_bind; [by apply evaluates_error|].
    intros [] c' Hc' _ Hr. apply evaluates_ret; auto. }
  constructor.
  - intros t n c Hc. unfold resolve_type, simple_checker, simple_resolve.
    destruct t; try (apply Hfail; [done|]; by intros).
    case_bool_decide as Hk; [|apply Hfail; [done|]; by intros].
    exists (builtin_types c kind), c. split; [by apply builtin_type_run|].
    destruct (builtin_canonical c kind Hc Hk) as [Hp (ty & Ht & Hkt)%has_kind_deref].
    split_and!; try done. destruct (builtin_types c kind) as [i|] eqn:Hi; [|done].
    split_and!; try done. unfold is_untyped_numeric_type, kind_satisfies. rewrite Ht, Hkt.
    unfold builtin_kinds in Hk. repeat (apply elem_of_cons in Hk as [->|Hk]; [done|]). by apply elem_of_nil in Hk.
  - intros e c Hc. unfold check_value_expression, simple_checker, simple_check, sem_find_expr_info.
    apply evaluates_get.
    destruct (List.find _ (expr_infos c)) as [i|] eqn:Hfind; [cbn|apply Hfail; [done|]; by intros].
    destruct (expr_constant_value i) as [v|] eqn:Hv; [cbn|apply Hfail; [done|]; by intros].
    destruct (simple_kind v) as [k|] eqn:Hk; [cbn|apply Hfail; [done|]; by intros].
    assert (Hb : k ∈ builtin_kinds).
    { unfold simple_kind in Hk. destruct (const_value_as v); try done; repeat case_match; try done;
        injection Hk as <-; builtin_kind. }
    eapply evaluates_pure; [by apply builtin_type_run|].
    destruct (builtin_canonical c k Hc Hb) as [Hp (ty & Ht & Hkt)%has_kind_deref].
    eapply (evaluates_bind _ _ _ (fun _ c' => conversion_free c' e)).
    { destruct (evaluates_expr_info (set_type (builtin_types c k)) e c Hc) as (u & c2 & Hr & ? & ? & ? & _); [done|].
      exists u, c2. split_and!; try done. injection Hr as <- <-.
      destruct (find_changed (set_type (builtin_types c k)) e (expr_infos c)) as [j Hj]; [done|].
      exists (set_type (builtin_types c k) j). split_and!; try done. cbn.
      by destruct (builtin_types c k). }
    intros [] c2 Hc2 He Hfree. apply evaluates_ret; [done|].
    destruct (builtin_types c k) as [p|] eqn:Hpk; [|done].
    split_and!; [by eapply canonical_extends|done|].
    intros w (j & Hj & Hw). rewrite Hfind in Hj. injection Hj as <-. rewrite Hv in Hw. injection Hw as <-.
    eapply admits_extends; [exact He|]. exists ty. split; [done|]. unfold simple_kind in Hk. rewrite Hkt.
    destruct (const_value_as v) as [x| | |]; try done.
    + case_bool_decide as Hx; [|done]. injection Hk as <-. destruct Hx as [Hcan Hr]. split; [done|].
      right. split; [done|]. unfold int_fits. by rewrite fits_range, Hr.
    + by injection Hk as <-.
Qed.

(** [M : s32 : 3;] and [N :: M + 4;] in a program of one file *)
Definition at_line (l : Z) (a : NodeAs) : Node := mkNode a (mkSpan 1 l l l 1) false.
Definition M_decl : Node :=
  at_line 1 (NODE_CONST_DECL (Some (TyKind TYPE_S32)) (cstr "M") (at_line 2 (NODE_NUMBER (LITERAL_INTEGER 3)))).
Definition N_decl : Node :=
  at_line 3 (NODE_CONST_DECL None (cstr "N")
    (at_line 4 (NODE_BINARY TOK_PLUS (at_line 5 (NODE_IDENT (cstr "M"))) (at_line 6 (NODE_NUMBER (LITERAL_INTEGER 4)))))).

(** [wrapping_neg(N) < M] *)
Definition sample_expression : Node :=
  at_line 7 (NODE_BINARY TOK_LESS
    (at_line 8 (NODE_CALL (at_line 9 (NODE_IDENT (cstr "wrapping_neg"))) [] [at_line 10 (NODE_IDENT (cstr "N"))]))
    (at_line 11 (NODE_IDENT (cstr "M")))).

Definition sample_context : SemanticContext :=
  mkContext (map type_of_kind builtin_kinds)
    (fun k => find_position (fun k' => bool_decide (k' = k)) builtin_kinds) (Some 3%nat) (Some 7%nat)
    (mkConfig TARGET_ARCH_X86_64 TARGET_OS_LINUX TARGET_ABI_SYSV)
    [mkSymbol (cstr "wrapping_neg") SYMBOL_BUILTIN BUILTIN_WRAPPING_NEG None None None;
     mkSymbol (cstr "M") SYMBOL_CONSTANT BUILTIN_NONE None (Some M_decl) (Some 0%nat);
     mkSymbol (cstr "N") SYMBOL_CONSTANT BUILTIN_NONE None (Some N_decl) (Some 1%nat)]
    [mkScope [0%nat] None; mkScope [2%nat; 1%nat] (Some 0%nat)] (Some 0%nat) (Some 1%nat)
    [mkModule [] 1 true] (Some 0%nat) [mkSourceModule 1 (Some 0%nat) [] None false true] 1
    [mkDeclInfo M_decl None (Some 1%nat) false false false None;
     mkDeclInfo N_decl None (Some 2%nat) false false false None] [] false [] 0.

Lemma sample_value : exists c',
  @eval_const_expr simple_checker (@check_const_decl simple_checker 2) sample_expression sample_context
  = Returned (Some (mkConstValue (Some 10%nat) (CONST_VALUE_BOOL true)), c').
Proof. eexists. vm_compute. reflexivity. Qed.

Lemma M_symbol_ok : constant_symbol_ok sample_context 1
  (mkSymbol (cstr "M") SYMBOL_CONSTANT BUILTIN_NONE None (Some M_decl) (Some 0%nat)) M_decl 0
  (mkDeclInfo M_decl None (Some 1%nat) false false false None).
Proof.
  constructor; try reflexivity; [|by intros []|done].
  intros _. exists (mkModule [] 1 true). split; vm_compute; reflexivity.
Qed.

Lemma N_symbol_ok : constant_symbol_ok sample_context 2
  (mkSymbol (cstr "N") SYMBOL_CONSTANT BUILTIN_NONE None (Some N_decl) (Some 1%nat)) N_decl 1
  (mkDeclInfo N_decl None (Some 2%nat) false false false None).
Proof.
  constructor; try reflexivity; [|by intros []|done].
  intros _. exists (mkModule [] 1 true). split; vm_compute; reflexivity.
Qed.

Lemma sample_ok : context_ok sample_context.
Proof.
  constructor.
  - intros k Hk. unfold builtin_kinds in Hk.
    repeat (apply elem_of_cons in Hk as [->|Hk]; [vm_compute; reflexivity|]). by apply elem_of_nil in Hk.
  - split; [|vm_compute; reflexivity]. exists (type_of_kind TYPE_U64). split; [reflexivity|]. done.
  - intros e v He. by apply elem_of_nil in He.
  - intros i t m Ht Hm.
    assert (Hall : Forall (fun t => enum_members t = []) (types sample_context)) by (repeat constructor).
    rewrite Forall_lookup in Hall. rewrite (Hall i t Ht) in Hm. by apply elem_of_nil in Hm.
  - intros i d v Hd Hv. destruct i as [|[|]]; try done; by injection Hd as <-.
  - intros i sc s Hsc Hs. destruct i as [|[|]]; try done; injection Hsc as <-; cbn in Hs;
      repeat (apply elem_of_cons in Hs as [->|Hs]; [by eexists|]); by apply elem_of_nil in Hs.
  - apply (bool_decide_unpack _). vm_compute. reflexivity.
  - intros s sym Hs. destruct s as [|[|[|]]]; try done; injection Hs as <-.
    + by constructor.
    + constructor; [done| |done]. intros _. do 3 eexists. apply M_symbol_ok.
    + constructor; [done| |done]. intros _. do 3 eexists. apply N_symbol_ok.
Qed.

Lemma sample_safe (L : Checker) :
  constants_safe sample_context /\ everywhere (safe sample_context) sample_expression.
Proof.
  split; [|repeat (constructor; [cbn; try done; lia|]); repeat constructor].
  intros i d Hd _. destruct i as [|[|]]; try done; injection Hd as <-;
    repeat first [constructor | done | lia].
Qed.



