(* ===== verification/ConstantExact.v ===== *)
(** Constant evaluation of integers and booleans, against a reference in [Z].

    [reference] computes what an expression means from the meanings of its parts, with the
    operators of [ConstantArithmetic]; it knows the context's names and nothing of its
    representation of values.  The evaluator agrees with it, the order of evaluation, the
    errors and the one assertion that can fail included. *)
From Stdlib Require Import SpecFloat.
From S2P Require Import Prelude Token Types Source Lexer IntegerValue TypeRelations Target FlowState Ast SemContext Modules ConstantEvaluation ConstantFloat ConstantInvariant ConstantArithmetic ConstantTyping ConstantNames ConstantSafety ConstantTheory.

(** ** The reference *)

(** The integer or boolean a constant stands for. *)
Definition meaning_of (ts : TypeStore) (v : ConstValue) : option meaning :=
  match const_value_as v with
  | CONST_VALUE_INT i =>
      k ← option_map kind (deref ts (const_value_type v));
      if is_integer_kind k then Some (MInt k (value_of i)) else None
  | CONST_VALUE_BOOL b => Some (MBool b)
  | _ => None
  end.

Definition named (c : SemanticContext) (name : Text) : option Symbol :=
  s ← scope_lookup c (current_scope c) name; symbols c !! s.

(** The meaning of a constant that was checked. *)
Definition constant_meaning (c : SemanticContext) (name : Text) : option meaning :=
  sym ← named c name;
  if bool_decide (sym_kind sym = SYMBOL_CONSTANT) then
    i ← declaration_id sym; d ← decl_infos c !! i; v ← decl_constant_value d; meaning_of (types c) v
  else None.

Definition reference_unary (op : TokenType) (x : meaning) : outcome (option meaning) :=
  match op, x with
  | TOK_MINUS, MInt k z => integer_negation k z
  | TOK_TILDE, MInt k z => Returned (integer_complement k z)
  | TOK_BANG, MBool b => Returned (Some (MBool (negb b)))
  | _, _ => Returned None
  end.

Definition reference_binary (op : TokenType) (x y : meaning) : option meaning :=
  match x, y with
  | MInt k1 z1, MInt k2 z2 =>
      if is_arithmetic op || is_bitwise op then integer_binary op k1 z1 k2 z2
      else if is_shift op then integer_shift op k1 z1 z2
      else if is_comparison op then integer_compare op k1 z1 k2 z2
      else None
  | MBool a, MBool b =>
      match op with
      | TOK_AND_AND => Some (MBool (a && b))
      | TOK_OR_OR => Some (MBool (a || b))
      | TOK_EQUAL_EQUAL => Some (MBool (Bool.eqb a b))
      | TOK_BANG_EQUAL => Some (MBool (negb (Bool.eqb a b)))
      | _ => None
      end
  | _, _ => None
  end.

(** A checked cast keeps the value or fails; a truncation wraps it. *)
Definition reference_cast (cast : CastKind) (target : TypeKind) (x : meaning) : option meaning :=
  match cast, x with
  | CAST_CHECKED, MInt _ z =>
      if is_concrete_integer_kind target && in_range_of target z then Some (MInt target z) else None
  | CAST_CHECKED, MBool b => if bool_decide (target = TYPE_BOOL) then Some (MBool b) else None
  | CAST_TRUNCATING, MInt _ z => info ← integer_type_info target; Some (MInt target (wrap info z))
  | _, _ => None
  end.

(** [if (!f(..., &x)) return 0;] *)
Definition otry {A B} (o : outcome (option A)) (k : A -> outcome (option B)) : outcome (option B) :=
  let! r := o in match r with Some a => k a | None => Returned None end.

Definition builtin_named (c : SemanticContext) (name : Text) : option BuiltinKind :=
  sym ← named c name; if bool_decide (sym_kind sym = SYMBOL_BUILTIN) then Some (sym_builtin sym) else None.

Definition reference_call (b : option BuiltinKind) (args : list (outcome (option meaning)))
    : outcome (option meaning) :=
  match b, args with
  | Some BUILTIN_WRAPPING_NEG, [x] =>
      otry x (fun x => Returned match x with MInt k z => integer_wrapping_neg k z | MBool _ => None end)
  | Some ((BUILTIN_WRAPPING_ADD | BUILTIN_WRAPPING_SUB | BUILTIN_WRAPPING_MUL) as b), [x; y] =>
      otry x (fun x => otry y (fun y => Returned
        match x, y with
        | MInt k1 z1, MInt k2 z2 => integer_wrapping b k1 z1 k2 z2
        | _, _ => None
        end))
  | _, _ => Returned None
  end.

Definition callee_name (n : Node) : Text :=
  match as_of n with Some (NODE_IDENT name) => name | _ => [] end.

Definition target_kind (t : SourceType) : TypeKind :=
  match t with TyKind k => k | _ => TYPE_VOID end.

Fixpoint reference (c : SemanticContext) (n : Node) : outcome (option meaning) :=
  match n with
  | NullNode => Returned None
  | mkNode a _ _ =>
      match a with
      | NODE_NUMBER (LITERAL_INTEGER i) => Returned (Some (MInt TYPE_UNTYPED_INT i))
      | NODE_BOOL b => Returned (Some (MBool b))
      | NODE_IDENT name => Returned (constant_meaning c name)
      | NODE_CAST CAST_REINTERPRET _ _ => Returned None
      | NODE_CAST cast t e =>
          otry (reference c e) (fun x => Returned (reference_cast cast (target_kind t) x))
      | NODE_CALL callee _ args =>
          reference_call (builtin_named c (callee_name callee)) (map (reference c) args)
      | NODE_UNARY op e => otry (reference c e) (reference_unary op)
      | NODE_BINARY op l r =>
          otry (reference c l) (fun x =>
            if is_logical op then
              match x with
              | MBool b => if Bool.eqb b (deciding op) then Returned (Some (MBool b))
                           else otry (reference c r) (fun y => Returned (reference_binary op x y))
              | MInt _ _ => Returned None
              end
            else otry (reference c r) (fun y => Returned (reference_binary op x y)))
      | _ => Returned None
      end
  end.

(** ** The expressions it covers *)

(** Integer and boolean literals, names of checked integer and boolean constants, operators,
    casts to integer types and [bool], and calls of the wrapping builtins. *)
Definition integral (c : SemanticContext) (a : NodeAs) (_ : SourceSpan) : bool :=
  match a with
  | NODE_NUMBER (LITERAL_INTEGER i) => (0 <=? i) && (i <? 2 ^ 64)
  | NODE_BOOL _ | NODE_UNARY _ _ | NODE_BINARY _ _ _ => true
  | NODE_IDENT name =>
      match named c name with
      | Some sym => if bool_decide (sym_kind sym = SYMBOL_CONSTANT)
                    then bool_decide (is_Some (constant_meaning c name)) else true
      | None => true
      end
  | NODE_CAST _ (TyKind k) _ => is_concrete_integer_kind k || bool_decide (k = TYPE_BOOL)
  | NODE_CALL callee _ _ =>
      match as_of callee, builtin_named c (callee_name callee) with
      | Some (NODE_IDENT _),
        Some (BUILTIN_WRAPPING_ADD | BUILTIN_WRAPPING_SUB | BUILTIN_WRAPPING_MUL | BUILTIN_WRAPPING_NEG) => true
      | _, _ => false
      end
  | _ => false
  end.

(** ** Agreement *)

Definition agrees (c : SemanticContext) (m : M (option ConstValue)) (o : outcome (option meaning)) : Prop :=
  match o with
  | Aborted => m c = Aborted
  | Returned r => gives c m r
  end.

Lemma agrees_try {A} c (m : M (option A)) (k : A -> M (option ConstValue)) o
    (P : A -> SemanticContext -> meaning -> Prop) f :
  match o with
  | Aborted => m c = Aborted
  | Returned r => evaluates c m (fun a c' =>
      match r, a with Some x, Some a => P a c' x | None, None => reported c' | _, _ => False end)
  end ->
  (forall a x c', context_ok c' -> extends c c' -> P a c' x -> agrees c' (k a) (f x)) ->
  agrees c (a ←? m; k a) (otry o f).
Proof.
  intros Hm Hk. destruct o as [r|]; cbn.
  2:{ unfold try_bind, mbind, M_bind. by rewrite Hm. }
  destruct Hm as (a & c1 & Hrun & Hc1 & E1 & H1 & Hr).
  assert (Hbind : forall B (h : option A -> M B), (a ← m; h a) c = h a c1) by (intros; by apply run_bind).
  unfold try_bind. destruct r as [x|], a as [a|]; try done.
  - specialize (Hk a x c1 Hc1 E1 Hr). destruct (f x) as [r2|]; cbn in *.
    + destruct Hk as (b & c2 & Hb & Hc2 & E2 & H2 & HQ). exists b, c2.
      rewrite Hbind. split_and!; auto. by etrans.
    + by rewrite Hbind.
  - exists None, c1. rewrite Hbind. done.
Qed.

Lemma agrees_step c m (k : ConstValue -> M (option ConstValue)) o f :
  agrees c m o ->
  (forall v x c', context_ok c' -> extends c c' -> represents c' v x -> agrees c' (k v) (f x)) ->
  agrees c (v ←? m; k v) (otry o f).
Proof. intros Hm Hk. by eapply (agrees_try _ _ _ _ (fun v c' x => represents c' v x)). Qed.

Lemma agrees_cached c n m o : agrees c m o -> agrees c (cached n m) o.
Proof.
  intros Hm. replace o with (otry o (fun x => Returned (Some x))) by (by destruct o as [[]|]).
  unfold cached. eapply agrees_step; [exact Hm|]. intros v x c' Hc' He Hr. cbn.
  eapply evaluates_bind; [by apply evaluates_expr_info|]. intros [] c2 Hc2 E2 _.
  apply evaluates_ret; [done|]. by eapply represents_extends.
Qed.

(** ** Names *)

Lemma lookup_extends c c' name :
  context_ok c -> extends c c' ->
  scope_lookup c' (current_scope c') name = scope_lookup c (current_scope c) name.
Proof.
  intros Hc He. unfold scope_lookup. rewrite (extends_scopes _ _ He), (extends_scope _ _ He).
  generalize (current_scope c). generalize (S (length (scopes c))).
  intros fuel. induction fuel as [|fuel IH]; intros [s|]; try done. cbn.
  rewrite (find_local_extends c c' He Hc). destruct (scope_find_local c s name); [done|].
  rewrite (extends_scopes _ _ He). apply IH.
Qed.

Lemma lookup_symbol c scope name s : scope_lookup c scope name = Some s -> is_Some (symbols c !! s).
Proof.
  unfold scope_lookup. generalize (S (length (scopes c))). intros fuel. revert scope.
  induction fuel as [|fuel IH]; intros [i|]; try done. cbn.
  destruct (scope_find_local c i name) as [s'|] eqn:Hf; [|apply IH]. intros [= ->].
  unfold scope_find_local in Hf. destruct (scopes c !! i); [|done].
  apply List.find_some in Hf as [_ Hf]. unfold has_name in Hf. by destruct (symbols c !! s).
Qed.

Lemma named_extends c c' name :
  context_ok c -> extends c c' ->
  match named c name with
  | Some sym => exists sym', named c' name = Some sym' /\ symbol_extends c sym sym'
  | None => named c' name = None
  end.
Proof.
  intros Hc He. unfold named. rewrite (lookup_extends c c') by done.
  destruct (scope_lookup c _ name) as [s|] eqn:Hl; [|done]. cbn.
  destruct (lookup_symbol _ _ _ _ Hl) as [sym Hs]. rewrite Hs.
  destruct (extends_symbols _ _ He s sym Hs) as (sym' & -> & E). eauto.
Qed.

Lemma lookup_named c name :
  exists s, lookup_name name c = Returned (match named c name with Some sym => Some (s, sym) | None => None end, c).
Proof.
  unfold lookup_name, named, get. destruct (scope_lookup c _ name) as [s|]; [|by exists O].
  exists s. cbn. by destruct (symbols c !! s).
Qed.

(** A meaning comes from a value that represents it, and lasts. *)
Lemma meaning_represents c v m : value_ok c v -> meaning_of (types c) v = Some m -> represents c v m.
Proof.
  intros Hv. unfold meaning_of. destruct (const_value_as v) as [i| |b|] eqn:Ha; try done.
  - destruct (deref _ _) as [t|] eqn:Ht; [|done]. cbn. destruct (is_integer_kind (kind t)) eqn:Hk; [|done].
    intros [= <-]. destruct (value_ok_int c v i Hv Ha) as [(t' & Ht' & He)%has_kind_deref|[k Hr]].
    + simplify_eq. by rewrite He in Hk.
    + pose proof Hr as (_ & (t' & Ht' & Hkt)%has_kind_deref & _). simplify_eq. exact Hr.
  - intros [= <-]. by apply value_ok_bool.
Qed.

Lemma constant_value c name m :
  context_ok c -> constant_meaning c name = Some m ->
  exists sym i d v, named c name = Some sym /\ sym_kind sym = SYMBOL_CONSTANT
    /\ declaration_id sym = Some i /\ decl_infos c !! i = Some d /\ decl_constant_value d = Some v
    /\ represents c v m.
Proof.
  intros Hc. unfold constant_meaning. destruct (named c name) as [sym|]; [|done]. cbn.
  case_bool_decide as Hk; [|done]. destruct (declaration_id sym) as [i|] eqn:Hi; [|done]. cbn.
  destruct (decl_infos c !! i) as [d|] eqn:Hd; [|done]. cbn.
  destruct (decl_constant_value d) as [v|] eqn:Hv; [|done]. cbn. intros Hm.
  exists sym, i, d, v. split_and!; try done. eapply meaning_represents; [by eapply ok_values|done].
Qed.

Section Exact.
Context `{Checker} (check : Node -> M unit) (c0 : SemanticContext) (Hc0 : context_ok c0).

(** [resolve_type] gives the builtin types at once. *)
Hypothesis Hresolve : forall k n c, k ∈ builtin_kinds -> resolve_type (TyKind k) n c = builtin_type k c.

Lemma agrees_not_constant c n : context_ok c -> agrees c (not_constant n) (Returned None).
Proof. intros Hc. by apply gives_fail. Qed.

(** A checked constant's value, found at once. *)
Lemma constant_value_run c name m sym :
  extends c0 c -> constant_meaning c0 name = Some m -> named c name = Some sym ->
  exists v, constant_symbol_value check sym c = Returned (Some v, c) /\ represents c v m.
Proof using Hc0.
  intros He Hm Hn. destruct (constant_value c0 name m Hc0 Hm) as (sym0 & i & d & v & Hn0 & Hk & Hi & Hd & Hv & Hr).
  pose proof (named_extends c0 c name Hc0 He) as Hext. rewrite Hn0 in Hext.
  destruct Hext as (sym' & Hn' & [_ Ek _ Edecl Eid _ _]). rewrite Hn' in Hn. injection Hn as ->.
  destruct (extends_infos _ _ He i d Hd) as (d' & Hd' & Ed).
  exists v. split; [|by eapply represents_extends].
  assert (Hsym0 : exists s0, symbols c0 !! s0 = Some sym0).
  { unfold named in Hn0. destruct (scope_lookup c0 _ name) as [s0|]; [|done]. by exists s0. }
  destruct Hsym0 as [s0 Hs0]. destruct (ok_symbols c0 Hc0 s0 sym0 Hs0) as [_ B2 _].
  destruct (B2 Hk) as (n & j & d2 & [S1 S2 S3 S4 S5 S6 S7 S8 S9]).
  assert (Hdecl : (match as_of n with Some (NODE_CONST_DECL _ _ _) => true | _ => false end) = true)
    by (unfold constant_name in S2; by destruct (as_of n) as [[]|]).
  rewrite Hi in S3. injection S3 as <-. rewrite Hd in S4. injection S4 as <-.
  assert (Hcomp : semantic_check_complete d' = true).
  { apply (info_complete _ _ Ed), S8. by eexists. }
  assert (Hinfo : sem_find_decl_info_by_id (declaration_id sym) c = Returned (Some d', c)).
  { unfold sem_find_decl_info_by_id, object, get. rewrite Eid, Hi. cbn. by rewrite Hd'. }
  unfold constant_symbol_value. erewrite (run_bind _ _ c true).
  2:{ unfold ensure_constant_symbol_checked. rewrite Edecl, S1, Ek, Hk, bool_decide_eq_true_2, Hdecl by done.
      cbn [negb orb]. erewrite run_bind; [|exact Hinfo]. rewrite Eid, Hi, Hcomp.
      by rewrite (info_value _ _ Ed v Hv). }
  cbn [negb]. erewrite run_bind; [|exact Hinfo]. cbn. by rewrite (info_value _ _ Ed v Hv).
Qed.

Lemma ident_agrees c n sp name :
  context_ok c -> extends c0 c -> integral c0 (NODE_IDENT name) sp = true ->
  agrees c (eval_const_ident check n name) (Returned (constant_meaning c0 name)).
Proof using Hc0.
  intros Hc He Hi. unfold integral in Hi. pose proof (named_extends c0 c name Hc0 He) as Hext.
  destruct (lookup_named c name) as [s Hl]. unfold eval_const_ident.
  destruct (named c0 name) as [sym0|] eqn:Hn0.
  - destruct Hext as (sym & Hn & E). rewrite Hn in Hl. pose proof (extends_kind _ _ _ E) as Hk.
    unfold agrees, gives. eapply evaluates_pure; [exact Hl|]. cbv beta iota. rewrite Hk.
    destruct (bool_decide_reflect (sym_kind sym0 = SYMBOL_CONSTANT)) as [Hconst|Hconst].
    + apply bool_decide_eq_true in Hi as [m Hm]. rewrite Hm.
      destruct (constant_value_run c name m sym He Hm Hn) as (v & Hrun & Hr).
      exists (Some v), c. by split_and!.
    + unfold constant_meaning. rewrite Hn0. cbn. rewrite bool_decide_eq_false_2 by done.
      by apply gives_fail.
  - rewrite Hext in Hl. unfold agrees, gives. eapply evaluates_pure; [exact Hl|].
    unfold constant_meaning. rewrite Hn0. by apply gives_fail.
Qed.

(** Operators *)

Lemma unary_agrees c n op v x :
  context_ok c -> represents c v x -> agrees c (eval_const_unary n op v) (reference_unary op x).
Proof using.
  intros Hc Hr. destruct x as [k z|b].
  - pose proof Hr as (_ & _ & _ & _ & Hv).
    destruct op; try (by apply gives_fail); cbn [eval_const_unary reference_unary].
    all: first [by apply complement_gives | rewrite Hv; by apply gives_fail | idtac].
    pose proof (negation_gives c Hc n v k z Hr) as Hn. by destruct (integer_negation k z).
  - pose proof Hr as (_ & _ & Hv).
    destruct op; try (by apply gives_fail); cbn [eval_const_unary reference_unary];
      unfold eval_const_negation, eval_const_complement; rewrite Hv;
      first [by apply gives_fail | by apply gives_bool].
Qed.

Lemma bool_types c v b :
  represents c v (MBool b) ->
  is_numeric_type (types c) (const_value_type v) = false
  /\ has_concrete_integer_kind (types c) (const_value_type v) = false.
Proof using.
  intros (_ & (t & Ht & Hk)%has_kind_deref & _).
  unfold is_numeric_type, has_concrete_integer_kind, kind_satisfies. by rewrite Ht, Hk.
Qed.

(** Operands that are not both integers. *)
Lemma mixed_agrees c n right_node op l r x y :
  context_ok c -> represents c l x -> represents c r y ->
  (is_logical op = true -> exists b, x = MBool b) ->
  (forall k1 z1 k2 z2, x = MInt k1 z1 -> y = MInt k2 z2 -> False) ->
  gives c (eval_const_binary n right_node op l r) (reference_binary op x y).
Proof using.
  intros Hc Hl Hr Hlog Hmix. pose proof (represents_ok _ _ _ Hl) as Vl. pose proof (represents_ok _ _ _ Hr) as Vr.
  assert (Hnum : is_numeric_type (types c) (const_value_type l) && is_numeric_type (types c) (const_value_type r) = false).
  { destruct x; [destruct y; [by exfalso; eapply Hmix|]|].
    - destruct (bool_types _ _ _ Hr) as [-> _]. by rewrite andb_false_r.
    - by destruct (bool_types _ _ _ Hl) as [-> _]. }
  assert (Hneg : negb (is_numeric_type (types c) (const_value_type l))
                 || negb (is_numeric_type (types c) (const_value_type r)) = true).
  { by rewrite <- negb_andb, Hnum. }
  assert (Hval : forall m b, represents c m (MBool b) -> const_value_as m = CONST_VALUE_BOOL b)
    by (intros m b Hm; apply Hm).
  assert (Hint : forall m k z, represents c m (MInt k z) -> const_value_as m = CONST_VALUE_INT (of_value z))
    by (intros m k z Hm; apply Hm).
  assert (Hcases : (exists a b, x = MBool a /\ y = MBool b) \/ (exists a k z, x = MBool a /\ y = MInt k z)
                   \/ (exists k z a, x = MInt k z /\ y = MBool a)).
  { destruct x, y; eauto 10. by exfalso; eapply Hmix. }
  unfold eval_const_binary.
  destruct op; try (destruct Hcases as [(a & b & -> & ->)|[(a & k & z & -> & ->)|(k & z & a & -> & ->)]];
    by apply gives_fail).
  1-5: unfold eval_const_arithmetic, gives; apply evaluates_types, evaluates_get; [done..|];
    rewrite Hneg; destruct Hcases as [(a & b & -> & ->)|[(a & k & z & -> & ->)|(k & z & a & -> & ->)]];
    by apply gives_fail.
  1-6: unfold eval_const_comparison, gives; apply evaluates_types, evaluates_get; [done..|];
    rewrite Hnum; destruct Hcases as [(a & b & -> & ->)|[(a & k & z & -> & ->)|(k & z & a & -> & ->)]];
    [rewrite (Hval _ _ Hl), (Hval _ _ Hr)|rewrite (Hval _ _ Hl), (Hint _ _ _ Hr)|rewrite (Hint _ _ _ Hl), (Hval _ _ Hr)];
    try by apply gives_fail.
  1-2: cbn [is_equality negb ordered_result reference_binary]; destruct a, b; by apply gives_bool.
  1-2: unfold eval_const_shift, gives; apply evaluates_types, evaluates_get; [done..|];
    destruct Hcases as [(a & b & -> & ->)|[(a & k & z & -> & ->)|(k & z & a & -> & ->)]];
    [rewrite (Hval _ _ Hl)|rewrite (Hval _ _ Hl)|rewrite (Hint _ _ _ Hl), (Hval _ _ Hr); destruct (negb (is_integer_type _ _))];
    by apply gives_fail.
  1-2: destruct (Hlog eq_refl) as [a ->]; unfold eval_const_logical; rewrite (Hval _ _ Hl);
    destruct y as [k z|b]; [rewrite (Hint _ _ _ Hr); by apply gives_fail|rewrite (Hval _ _ Hr); by apply gives_bool].
  all: unfold eval_const_bitwise, gives; apply evaluates_types, evaluates_get; [done..|];
    destruct Hcases as [(a & b & -> & ->)|[(a & k & z & -> & ->)|(k & z & a & -> & ->)]];
    [rewrite (Hval _ _ Hl)|rewrite (Hval _ _ Hl)|rewrite (Hint _ _ _ Hl), (Hval _ _ Hr)];
    by apply gives_fail.
Qed.

Lemma binary_agrees c n right_node op l r x y :
  context_ok c -> represents c l x -> represents c r y ->
  (is_logical op = true -> exists b, x = MBool b) ->
  gives c (eval_const_binary n right_node op l r) (reference_binary op x y).
Proof using.
  intros Hc Hl Hr Hlog. destruct x as [k1 z1|a]; [destruct y as [k2 z2|b]|].
  2-3: apply mixed_agrees; try done; by intros.
  unfold eval_const_binary. destruct op; try (by apply gives_fail); cbn [reference_binary is_arithmetic is_bitwise is_shift is_comparison orb];
    first [by apply arithmetic_gives | by apply comparison_gives | by apply (shift_gives c Hc n l r k1 k2 z1 z2)
          | by apply bitwise_gives | by destruct (Hlog eq_refl)].
Qed.

(** ** Casts *)

Definition is_scalar (k : TypeKind) : bool := is_integer_kind k || bool_decide (k = TYPE_BOOL).

Lemma allowed_cast ts p q k1 k2 :
  has_kind ts p k1 = true -> has_kind ts q k2 = true -> is_scalar k1 = true -> is_scalar k2 = true ->
  is_allowed_explicit_cast ts p q = Bool.eqb (is_integer_kind k1) (is_integer_kind k2).
Proof using.
  intros (t1 & H1 & <-)%has_kind_deref (t2 & H2 & <-)%has_kind_deref S1 S2.
  unfold is_allowed_explicit_cast, both. rewrite H1, H2.
  destruct (type_equal ts p q) eqn:He.
  { destruct (equal_types_alike _ _ _ _ _ H1 H2 He) as [Hk _]. rewrite Hk. by rewrite eqb_reflx. }
  unfold pointer_qualification_conversion_allowed, pointer_identity_equal_ignoring_qualifiers,
    is_null_to_pointer_cast, is_bool_cast_pair, is_numeric_cast_pair, is_enum_to_integer_cast,
    is_integer_to_enum_cast, is_nullable_pointer_type, is_raw_pointer_type, is_typed_pointer_type,
    is_opaque_pointer_type, is_c_function_pointer_type, is_null_type, is_bool_type, is_numeric_type,
    is_enum_type, kind_satisfies, has_kind.
  rewrite H1, H2. unfold is_scalar in S1, S2. by destruct (kind t1), (kind t2).
Qed.

Lemma scalar_target c k :
  context_ok c -> is_concrete_integer_kind k || bool_decide (k = TYPE_BOOL) = true ->
  k ∈ builtin_kinds /\ canonical_type c (builtin_types c k) /\ has_kind (types c) (builtin_types c k) k = true
  /\ is_scalar k = true.
Proof using.
  intros Hc Hk. assert (Hb : k ∈ builtin_kinds) by (destruct k; try done; builtin_kind).
  destruct (builtin_canonical c k Hc Hb). split_and!; try done. by destruct k.
Qed.

Lemma scalar_kind c v x :
  represents c v x -> exists k, has_kind (types c) (const_value_type v) k = true /\ is_scalar k = true
    /\ is_integer_kind k = match x with MInt _ _ => true | MBool _ => false end.
Proof using.
  intros [_ Hx]. destruct x as [k z|b].
  - destruct Hx as (Hk & Hi & _). exists k. unfold is_scalar. by rewrite Hi.
  - destruct Hx as [Hk _]. by exists TYPE_BOOL.
Qed.

Lemma checked_agrees c n k v x :
  context_ok c -> is_concrete_integer_kind k || bool_decide (k = TYPE_BOOL) = true -> represents c v x ->
  gives c (checked_cast_of n v (TyKind k)) (reference_cast CAST_CHECKED k x).
Proof using Hresolve.
  intros Hc Hk Hv. destruct (scalar_target c k Hc Hk) as (Hb & Hp & Hpk & Hscalar).
  destruct (scalar_kind c v x Hv) as (k' & Hsk & Hs & Hi).
  unfold gives, checked_cast_of. eapply evaluates_pure; [rewrite Hresolve by done; by apply builtin_type_run|].
  pose proof Hpk as (t & Ht & Htk)%has_kind_deref.
  destruct (builtin_types c k) as [i|] eqn:Hi'; [|done].
  rewrite bool_decide_eq_true_2 by (by eexists). cbn [negb].
  eapply evaluates_pure; [apply default_type_run, Hv|]. apply evaluates_get.
  rewrite (allowed_cast _ _ _ k k') by done. rewrite Hi.
  assert (Hraw : is_raw_pointer_type (types c) (Some i) = false).
  { unfold is_raw_pointer_type, is_typed_pointer_type, is_opaque_pointer_type, has_kind. rewrite Ht, Htk.
    clear - Hk. by destruct k. }
  assert (Henum : bool_decide (k = TYPE_ENUM) = false) by (clear - Hk; by destruct k).
  destruct x as [kx z|b]; destruct (is_integer_kind k) eqn:Hik; cbn [Bool.eqb negb].
  - assert (Hconc : is_concrete_integer_kind k = true) by (clear - Hk Hik; by destruct k).
    rewrite Ht. unfold checked_cast_value. apply evaluates_get. rewrite Hraw, Htk, Henum, Hik.
    apply evaluates_require; [done|]. destruct Hv as (Cv & Kv & Iv & Rv & Vv). rewrite Vv.
    assert (Hz : canonical (of_value z)) by by apply of_value_canonical, (in_range_of_bound kx).
    unfold classify_checked_integer_cast. rewrite Hconc. cbn [c_assert obind].
    cbn [reference_cast]. rewrite Hconc. cbn [andb].
    eapply evaluates_lift; [cbn; rewrite fits_range, value_of_of_value by done; done|].
    destruct (in_range_of k z) eqn:Hr; cbn [negb]; [|by apply gives_fail].
    apply gives_result; [done|]. by split.
  - assert (Hconc : is_concrete_integer_kind k = false) by (clear - Hk Hik; by destruct k).
    cbn [reference_cast]. rewrite Hconc. by apply gives_fail.
  - cbn [reference_cast]. rewrite bool_decide_eq_false_2 by (by intros ->). by apply gives_fail.
  - assert (Hkb : k = TYPE_BOOL) by (clear - Hk Hik; by destruct k).
    rewrite Ht. unfold checked_cast_value. apply evaluates_get. rewrite Hraw, Htk, Henum, Hik.
    destruct Hv as (Cv & Kv & Vv). rewrite Vv, Hkb. cbn [reference_cast].
    rewrite (bool_decide_eq_true_2 (TYPE_BOOL = TYPE_BOOL)) by done. rewrite Hkb in Hpk.
    apply gives_result; [done|]. by split.
Qed.

Lemma truncating_agrees c n k v x :
  context_ok c -> is_concrete_integer_kind k || bool_decide (k = TYPE_BOOL) = true -> represents c v x ->
  gives c (truncating_cast_of n v (TyKind k)) (reference_cast CAST_TRUNCATING k x).
Proof using Hresolve.
  intros Hc Hk Hv. destruct (scalar_target c k Hc Hk) as (Hb & Hp & Hpk & Hscalar).
  unfold gives, truncating_cast_of. eapply evaluates_pure; [rewrite Hresolve by done; by apply builtin_type_run|].
  pose proof Hpk as (t & Ht & Htk)%has_kind_deref.
  destruct (builtin_types c k) as [i|] eqn:Hi'; [|done].
  rewrite bool_decide_eq_true_2 by (by eexists). cbn [negb].
  unfold kind_of, ask. apply evaluates_get. rewrite Ht. cbn [option_map]. rewrite Htk.
  destruct (integer_type_info k) as [info|] eqn:Hinfo.
  2:{ unfold is_concrete_integer_kind. rewrite Hinfo. destruct x; [cbn; rewrite Hinfo|]; by apply gives_fail. }
  rewrite (concrete_kind _ _ Hinfo). cbn [negb]. destruct x as [kx z|b].
  2:{ destruct Hv as (_ & _ & ->). by apply gives_fail. }
  destruct Hv as (Cv & Kv & Iv & Rv & ->). cbn [reference_cast]. rewrite Hinfo. cbn [mbind option_bind].
  assert (Hz : canonical (of_value z)) by by apply of_value_canonical, (in_range_of_bound kx).
  pose proof (integer_type_info_valid _ _ Hinfo) as Hvi.
  eapply evaluates_lift; [by apply truncate_integer_value_wraps|]. rewrite value_of_of_value.
  apply gives_result; [done|]. split; [done|]. split_and!; try done.
  - unfold is_integer_kind. by rewrite (concrete_kind _ _ Hinfo).
  - rewrite (in_range_info k info) by done. apply bool_decide_eq_true. by apply wrap_in_range.
Qed.

Lemma cast_agrees c n cast k m o :
  context_ok c -> is_concrete_integer_kind k || bool_decide (k = TYPE_BOOL) = true -> agrees c m o ->
  agrees c (eval_const_cast n cast m (TyKind k))
    match cast with
    | CAST_REINTERPRET => Returned None
    | _ => otry o (fun x => Returned (reference_cast cast k x))
    end.
Proof using Hresolve.
  intros Hc Hk Hm. destruct cast; cbn [eval_const_cast]; [| |by apply gives_fail].
  - eapply agrees_step; [exact Hm|]. intros. by apply checked_agrees.
  - eapply agrees_step; [exact Hm|]. intros. by apply truncating_agrees.
Qed.

(** ** Calls *)

Definition computes_as (m : M (option ConstValue)) (o : outcome (option meaning)) : Prop :=
  forall c, context_ok c -> extends c0 c -> agrees c m o.

Lemma callee_run c callee name b :
  context_ok c -> extends c0 c -> as_of callee = Some (NODE_IDENT name) -> builtin_named c0 name = Some b ->
  exists sym, resolve_builtin_callee callee c = Returned (Some sym, c)
    /\ sym_kind sym = SYMBOL_BUILTIN /\ sym_builtin sym = b.
Proof using Hc0.
  intros Hc He Hn Hb. unfold builtin_named in Hb. destruct (named c0 name) as [sym0|] eqn:Hn0; [|done].
  cbn in Hb. case_bool_decide as Hk0; [|done]. injection Hb as <-.
  pose proof (named_extends c0 c name Hc0 He) as Hext. rewrite Hn0 in Hext.
  destruct Hext as (sym & Hsym & [_ Ek Eb _ _ _ _]). exists sym. rewrite Ek, Eb. split_and!; try done.
  unfold resolve_builtin_callee. rewrite Hn. destruct (lookup_named c name) as [s Hl]. rewrite Hsym in Hl.
  erewrite run_bind; [|exact Hl]. cbv beta iota. rewrite Ek, Hk0. rewrite bool_decide_eq_true_2 by done. cbn [negb].
  assert (exists s', symbols c !! s' = Some sym) as [s' Hs'].
  { unfold named in Hsym. destruct (scope_lookup c _ name) as [s'|]; [|done]. by exists s'. }
  destruct (ok_symbols c Hc s' sym Hs') as [B1 _ _]. destruct B1 as [Hne Hty]; [congruence|].
  erewrite run_bind; [reflexivity|]. unfold assert_symbol_builtin_invariant.
  rewrite Ek, Hk0, bool_decide_eq_true_2 by done. unfold require.
  rewrite (bool_decide_eq_false_2 (sym_builtin sym = BUILTIN_NONE)), Hty by done. reflexivity.
Qed.

Lemma count_agrees c call sym expected actual (f : bool -> M (option ConstValue)) o :
  context_ok c -> sym_kind sym = SYMBOL_BUILTIN ->
  (actual = expected -> agrees c (f true) o) ->
  (actual <> expected -> o = Returned None /\ f false = mret None) ->
  agrees c (count_ok ← check_builtin_argument_count call sym expected actual; f count_ok) o.
Proof using.
  intros Hc Hk Htrue Hfalse. destruct (decide (actual = expected)) as [He|Hne].
  - assert (Hrun : check_builtin_argument_count call sym expected actual c = Returned (true, c)).
    { unfold check_builtin_argument_count. erewrite run_bind; [|unfold require; rewrite bool_decide_eq_true_2 by done; reflexivity].
      by rewrite (proj2 (Nat.eqb_eq _ _) He). }
    specialize (Htrue He). destruct o as [r|]; cbn in *.
    + unfold gives, evaluates in *. by rewrite (run_bind f _ _ _ _ Hrun).
    + by rewrite (run_bind f _ _ _ _ Hrun).
  - destruct (Hfalse Hne) as [-> Hf]. cbn. unfold gives.
    eapply argument_count_ok; [done..|]. intros _ c' Hc' He Hr. rewrite Hf. by apply evaluates_ret.
Qed.

(** The wrapping builtins refuse booleans. *)
Lemma wrapping_mixed c call sym l r x y :
  context_ok c -> sym_kind sym = SYMBOL_BUILTIN -> represents c l x -> represents c r y ->
  (exists b, x = MBool b) \/ (exists b, y = MBool b) ->
  gives c (wrapping_binary_value call sym l r) None.
Proof using.
  intros Hc Hk Hl Hr Hb. unfold wrapping_binary_value, gives.
  apply evaluates_types, evaluates_get; [by eapply represents_ok..|].
  unfold classify_wrapping_binary_types.
  assert (negb (has_concrete_integer_kind (types c) (const_value_type l))
          || negb (has_concrete_integer_kind (types c) (const_value_type r)) = true) as ->.
  { destruct Hb as [[b ->]|[b ->]].
    - by destruct (bool_types _ _ _ Hl) as [_ ->].
    - destruct (bool_types _ _ _ Hr) as [_ ->]. by rewrite orb_true_r. }
  by apply gives_type_error.
Qed.

Lemma wrapping_neg_mixed c call sym v b :
  context_ok c -> sym_kind sym = SYMBOL_BUILTIN -> represents c v (MBool b) ->
  gives c (wrapping_neg_value call sym v) None.
Proof using.
  intros Hc Hk Hv. unfold wrapping_neg_value, gives.
  apply evaluates_type, evaluates_get; [by eapply represents_ok|].
  unfold classify_wrapping_neg_type. destruct (bool_types _ _ _ Hv) as [_ ->].
  by apply gives_type_error.
Qed.

Lemma call_agrees c call callee name b ms os :
  context_ok c -> extends c0 c -> as_of callee = Some (NODE_IDENT name) -> builtin_named c0 name = Some b ->
  is_wrapping_binary b = true \/ b = BUILTIN_WRAPPING_NEG -> Forall2 computes_as ms os ->
  agrees c (eval_const_builtin_call call callee ms) (reference_call (Some b) os).
Proof using Hc0.
  intros Hc He Hn Hb Hw Hms. destruct (callee_run c callee name b Hc He Hn Hb) as (sym & Hrun & Hk & Hsb).
  assert (Hstep : forall o, agrees c match b with
      | BUILTIN_WRAPPING_NEG => eval_const_wrapping_neg_call call sym ms
      | _ => eval_const_wrapping_binary_call call sym ms end o ->
    agrees c (eval_const_builtin_call call callee ms) o).
  { intros o Ho. unfold eval_const_builtin_call. destruct o as [r|]; cbn in *.
    - unfold gives, evaluates in *. rewrite (run_bind _ _ _ _ _ Hrun). cbv beta iota. rewrite Hsb.
      destruct Hw as [Hw|Hw]; by destruct b.
    - rewrite (run_bind _ _ _ _ _ Hrun). cbv beta iota. rewrite Hsb. destruct Hw as [Hw|Hw]; by destruct b. }
  apply Hstep. clear Hstep.
  assert (Hlen : length ms = length os) by by eapply Forall2_length.
  destruct Hw as [Hw| ->].
  - replace (match b with BUILTIN_WRAPPING_NEG => _ | _ => _ end) with (eval_const_wrapping_binary_call call sym ms)
      by (by destruct b).
    unfold eval_const_wrapping_binary_call. apply count_agrees; [done..| |].
    + intros H2. destruct Hms as [|m1 o1 ? ? A1 [|m2 o2 ? ? A2 [|]]]; try done.
      replace (reference_call (Some b) [o1; o2]) with
        (otry o1 (fun x => otry o2 (fun y => Returned match x, y with
          | MInt k1 z1, MInt k2 z2 => integer_wrapping b k1 z1 k2 z2 | _, _ => None end))) by (by destruct b).
      eapply agrees_step; [by apply A1|]. intros v x c1 Hc1 E1 Hl.
      eapply agrees_step; [apply A2; [done|by etrans]|]. intros w y c2 Hc2 E2 Hr.
      apply (represents_extends _ _ _ _ E2) in Hl. subst b.
      destruct x as [k1 z1|a1]; [destruct y as [k2 z2|a2]|]; cbn [agrees]; [by apply wrapping_gives| |];
        eapply wrapping_mixed; eauto.
    + intros Hne. rewrite Hlen in Hne. split; [|by destruct ms as [|? [|]]].
      destruct os as [|o1 [|o2 [|]]]; by destruct b.
  - unfold eval_const_wrapping_neg_call. apply count_agrees; [done..| |].
    + intros H1. destruct Hms as [|m1 o1 ? ? A1 [|]]; try done. cbn [reference_call].
      eapply agrees_step; [by apply A1|]. intros v x c1 Hc1 E1 Hv. cbn.
      destruct x as [k z|a]; [by apply wrapping_neg_gives|].
      by eapply wrapping_neg_mixed.
    + intros Hne. rewrite Hlen in Hne. split; [|by destruct ms].
      destruct os as [|o1 [|]]; done.
Qed.

(** ** The evaluator *)

Lemma literal_agrees c i :
  context_ok c -> 0 <= i < 2 ^ 64 ->
  gives c (t ← untyped_integer_type_for_value (integer_value_make i false);
           result t (CONST_VALUE_INT (integer_value_make i false))) (Some (MInt TYPE_UNTYPED_INT i)).
Proof using.
  intros Hc Hi. rewrite make_of_value by lia. cbn [negb].
  assert (Hcan : canonical (of_value i)) by (apply of_value_canonical; lia).
  assert (Hr : in_range_of TYPE_UNTYPED_INT i = true).
  { unfold in_range_of. cbn. apply andb_true_iff. split; [apply Z.leb_le; lia|apply Z.ltb_lt; lia]. }
  unfold gives, untyped_integer_type_for_value.
  eapply evaluates_bind.
  { eapply evaluates_lift; [by apply default_kind_spec|]. rewrite value_of_of_value.
    destruct (default_kind_some i Hr) as [k ->]. apply evaluates_new_type; [done|].
    apply (bool_decide_unpack _). reflexivity. }
  intros p c' Hc' He [Hp Ht]. apply gives_result; [done|]. split; [done|]. split_and!; try done.
  apply has_kind_deref. eauto.
Qed.

Lemma impl_agrees n :
  everywhere (fun a s => integral c0 a s = true) n ->
  computes_as (eval_const_expr_impl check n) (reference c0 n).
Proof using Hc0 Hresolve.
  induction n as [|a s e IH] using Node_ind'; intros Hn c Hc Hext; [inversion Hn|].
  inversion Hn as [a' s' e' Ha Hch]; subst a' s' e'.
  assert (Hsub : Forall (fun m => computes_as (cached m (eval_const_expr_impl check m)) (reference c0 m)) (children a)).
  { clear - IH Hch. induction (children a) as [|m l IHl]; [by constructor|].
    inversion IH as [|? ? IHm IHr]; inversion Hch as [|? ? Cm Cr]; subst. constructor; [|by apply IHl].
    intros c' Hc' He'. by apply agrees_cached, IHm. }
  clear IH Hch. destruct a; try done; cbn [eval_const_expr_impl reference]; cbn [children] in Hsub.
  - destruct value; [|done]. apply literal_agrees; [done|]. unfold integral in Ha. to_props. lia.
  - by eapply ident_agrees.
  - by apply gives_bool.
  - apply Forall_cons_1 in Hsub as [H1 _]. destruct target_type; try done.
    pose proof (cast_agrees c (mkNode (NODE_CAST cast_kind (TyKind kind) expression) s e) cast_kind kind _ _ Hc Ha (H1 c Hc Hext)) as G.
    by destruct cast_kind.
  - apply Forall_cons_1 in Hsub as [H1 _]. eapply agrees_step; [by apply H1|].
    intros. by apply unary_agrees.
  - apply Forall_cons_1 in Hsub as [H1 [H2 _]%Forall_cons_1].
    eapply agrees_step; [by apply H1|]. intros l x c1 Hc1 E1 Hl.
    assert (Hboth : (is_logical op = true -> exists b, x = MBool b) ->
      agrees c1 (right ←? cached rhs (eval_const_expr_impl check rhs);
                 eval_const_binary (mkNode (NODE_BINARY op lhs rhs) s e) rhs op l right)
        (otry (reference c0 rhs) (fun y => Returned (reference_binary op x y)))).
    { intros Hlog. eapply agrees_step; [apply H2; [done|by etrans]|]. intros r y c2 Hc2 E2 Hr.
      apply binary_agrees; try done. by eapply represents_extends. }
    destruct (is_logical op); [|by apply Hboth].
    destruct x as [k z|b].
    + destruct Hl as (_ & _ & _ & _ & ->). by apply gives_fail.
    + pose proof Hl as (_ & _ & ->). destruct (Bool.eqb b (deciding op)); [by apply gives_bool|].
      apply Hboth. eauto.
  - apply Forall_cons_1 in Hsub as [_ Hargs]. unfold integral in Ha.
    destruct (as_of callee) as [[]|] eqn:Hcallee; try done.
    assert (Hname : callee_name callee = name) by (unfold callee_name; by rewrite Hcallee).
    rewrite Hname in Ha |- *. destruct (builtin_named c0 name) as [b|] eqn:Hb; [|done].
    eapply call_agrees; try done; [destruct b; auto|].
    clear - Hargs. induction arguments as [|m l IHl]; [constructor|].
    inversion Hargs; subst. constructor; [done|by apply IHl].
Qed.
End Exact.

(** C7. Exactness of constant evaluation. On an expression of integer and boolean literals,
    checked constants, operators, casts to integer types and [bool], and wrapping builtins, the
    evaluator computes what [reference] computes in [Z]: the same type and the same value, or a
    reported error where the reference has no value -- overflow of the type of the operation,
    division by zero, a shift count out of range, operands of different types --, with the same
    short circuits; and it aborts exactly where the reference meets the negation of the untyped
    constant -2^63, whose default type is unsigned. *)
Theorem constant_evaluation_exact `{Checker} check c n :
  (forall k m c', k ∈ builtin_kinds -> resolve_type (TyKind k) m c' = builtin_type k c') ->
  context_ok c -> everywhere (fun a s => integral c a s = true) n ->
  match reference c n with
  | Aborted => eval_const_expr check n c = Aborted
  | Returned r => exists o c', eval_const_expr check n c = Returned (o, c')
      /\ context_ok c' /\ extends c c'
      /\ match r, o with
         | Some x, Some v => represents c' v x
         | None, None => honest c' -> const_eval_silent c' = true \/ (0 < error_count c')%nat
         | _, _ => False
         end
  end.
Proof.
  intros Hresolve Hc Hn.
  pose proof (agrees_cached c n _ _ (impl_agrees check c Hc Hresolve n Hn c Hc (extends_refl c))) as Ha.
  fold (eval_const_expr check n) in Ha. destruct (reference c n) as [r|]; [|exact Ha].
  destruct Ha as (o & c' & Hrun & Hc' & He & _ & Ho). exists o, c'. by split_and!.
Qed.

(** [(100 + 27) as s8] *)
Definition sample_cast : Node :=
  at_line 1 (NODE_CAST CAST_CHECKED (TyKind TYPE_S8)
    (at_line 2 (NODE_BINARY TOK_PLUS (at_line 3 (NODE_NUMBER (LITERAL_INTEGER 100)))
                                     (at_line 4 (NODE_NUMBER (LITERAL_INTEGER 27)))))).

(** [wrapping_add((100 + 27) as s8, ...)] of the sample and itself is -2. *)
Definition sample_sum : Node :=
  at_line 5 (NODE_CALL (at_line 6 (NODE_IDENT (cstr "wrapping_neg"))) [] [sample_cast]).

Lemma simple_resolves k n c :
  k ∈ builtin_kinds -> @resolve_type simple_checker (TyKind k) n c = builtin_type k c.
Proof. intros Hk. cbn. by rewrite bool_decide_eq_true_2. Qed.

(** Every node of a concrete tree is covered. *)
Ltac integral_tree :=
  repeat first [apply everywhere_node; [vm_compute; reflexivity|]; cbn [children] | apply Forall_nil_2
               | apply Forall_cons_2].

Lemma sample_integral : everywhere (fun a s => integral sample_context a s = true) sample_sum.
Proof. integral_tree. Qed.

Lemma constant_evaluation_exact_witness :
  reference sample_context sample_sum = Returned (Some (MInt TYPE_S8 (-127)))
  /\ exists o c', @eval_const_expr simple_checker (@check_const_decl simple_checker 0) sample_sum sample_context
                  = Returned (o, c')
     /\ context_ok c' /\ extends sample_context c'
     /\ match o with Some v => represents c' v (MInt TYPE_S8 (-127)) | None => False end.
Proof.
  split; [vm_compute; reflexivity|].
  exact (@constant_evaluation_exact simple_checker (@check_const_decl simple_checker 0) sample_context
           sample_sum simple_resolves sample_ok sample_integral).
Defined.

(** [-(-9223372036854775808)] stops the compiler at an assertion. *)
Lemma minimum_negation_aborts `{Checker} check c :
  (forall k m c', k ∈ builtin_kinds -> resolve_type (TyKind k) m c' = builtin_type k c') -> context_ok c ->
  eval_const_expr check (at_line 1 (NODE_UNARY TOK_MINUS (at_line 2 (NODE_UNARY TOK_MINUS
    (at_line 3 (NODE_NUMBER (LITERAL_INTEGER (2 ^ 63)))))))) c = Aborted.
Proof.
  intros Hresolve Hc. set (n := at_line 1 _).
  assert (Hn : everywhere (fun a s => integral c a s = true) n).
  { integral_tree. }
  pose proof (agrees_cached c n _ _ (impl_agrees check c Hc Hresolve n Hn c Hc (extends_refl c))) as Ha.
  exact Ha.
Qed.
