(* ===== verification/FlowCheck.v ===== *)
(** Definite-assignment and ownership analysis of function bodies ([src/semantic_anal.c]):
    the statements and expressions that move the flow state, from [check_function_body] down to
    identifiers.

    A checker is a computation on the [SemanticContext] that aborts where an assertion fails.
    The tree is the part of the AST these functions branch on.  Every other expression is an
    [NOperation]: its operands are checked in order, then its typing rule answers what the node
    records ([None] after an error of the rule).  A first branch and a loop body are lists of
    statements, because the parser wraps them in a block; an [else] branch and the body of a
    case are any statements.  The answers of code
    that does not touch the flow state are part of the tree: a resolved type annotation, the type
    inferred for an initializer, whether the checks after type compatibility accept it, and
    whether an assignment target is writable. *)
From S2P Require Import Prelude Token Types TypeRelations FlowState.

Inductive ValueCategory : Set :=
| VALUE_CATEGORY_NONE | VALUE_CATEGORY_RVALUE | VALUE_CATEGORY_LVALUE.

#[global] Instance ValueCategory_eq_dec : EqDecision ValueCategory.
Proof. solve_decision. Defined.

(** [SemExprInfo], with the type the checker returns. *)
Record ExprInfo : Set := mkInfo {
  info_type : TypePtr;
  info_symbol : option Symbol;
  value_category : ValueCategory;
}.

(** ** The tree *)

Inductive Node : Set :=
| NIdent (name : string)
| NIfExpr (condition then_value else_value : Node)
| NMove (operand : Node)
| NLogical (op : TokenType) (lhs rhs : Node)
| NOperation (result : option (nat * ValueCategory)) (literal : option ConstValue)
    (operands : list Node).

Record Initializer : Set := mkInitializer {
  init_node : Node;
  init_accepted : bool;
}.

(** The expressions [check_statement_expression] distinguishes. *)
Inductive StatementExpr : Set :=
| EAssign (target : Node) (value : Initializer) (writable : bool)
| EDiscard (operand : Node)
| EValue (node : Node) (must_use : bool).

Inductive Statement : Set :=
| SBlock (statements : list Statement)
| SVarDecl (name : string) (declared : option TypePtr) (initializer : option Initializer)
    (inferred : TypePtr)
| SExpr (e : StatementExpr)
| SIf (condition : Node) (then_branch : list Statement) (else_branch : option Statement)
| SCompileIf (condition : Node) (then_branch : list Statement) (else_branch : option Statement)
| SWhile (condition : Node) (body : list Statement)
| SFor (condition : option Node) (post : option StatementExpr) (body : list Statement)
| SSwitch (expression : Node) (concrete : TypePtr)
    (cases : list (option Node * Statement))   (* [None]: the default case *)
| SBreak
| SContinue
| SReturn (value : option Initializer)
| SDefer (statement : Statement).

(** What the constant evaluator answers about an expression, and a constant converted to a
    type. *)
Class ConstantEvaluator := {
  const_value : Node -> option ConstValue;
  coerce_constant : ConstValue -> TypePtr -> option ConstValue;
}.

(** ** The context *)

Record Scope : Set := mkScope {
  symbols : list Symbol;            (* the newest first *)
  flow_count_mark : nat;
}.

(** [current_scope] and its parents are a list, and so are [current_loop] and its parents. *)
Record SemanticContext : Set := mkContext {
  diagnostics : list string;
  current_scope : list Scope;
  loop_depth : nat;
  current_loop : list LoopFlowContext;
  function_depth : nat;
  defer_depth : nat;
  active_deferred_resources : list Symbol;
  captured_deferred_resources : list Symbol;
  next_flow_owner_id : nat;
  next_variable_id : nat;
  flow : FlowState;
  current_return_type : TypePtr;
}.

Definition set_diagnostics x c := mkContext x (current_scope c) (loop_depth c) (current_loop c)
  (function_depth c) (defer_depth c) (active_deferred_resources c) (captured_deferred_resources c)
  (next_flow_owner_id c) (next_variable_id c) (flow c) (current_return_type c).
Definition set_scope x c := mkContext (diagnostics c) x (loop_depth c) (current_loop c)
  (function_depth c) (defer_depth c) (active_deferred_resources c) (captured_deferred_resources c)
  (next_flow_owner_id c) (next_variable_id c) (flow c) (current_return_type c).
Definition set_loops n x c := mkContext (diagnostics c) (current_scope c) n x
  (function_depth c) (defer_depth c) (active_deferred_resources c) (captured_deferred_resources c)
  (next_flow_owner_id c) (next_variable_id c) (flow c) (current_return_type c).
Definition set_function_depth x c := mkContext (diagnostics c) (current_scope c) (loop_depth c)
  (current_loop c) x (defer_depth c) (active_deferred_resources c) (captured_deferred_resources c)
  (next_flow_owner_id c) (next_variable_id c) (flow c) (current_return_type c).
Definition set_defers d act cap c := mkContext (diagnostics c) (current_scope c) (loop_depth c)
  (current_loop c) (function_depth c) d act cap
  (next_flow_owner_id c) (next_variable_id c) (flow c) (current_return_type c).
Definition set_ids o v c := mkContext (diagnostics c) (current_scope c) (loop_depth c)
  (current_loop c) (function_depth c) (defer_depth c) (active_deferred_resources c)
  (captured_deferred_resources c) o v (flow c) (current_return_type c).
Definition set_flow x c := mkContext (diagnostics c) (current_scope c) (loop_depth c)
  (current_loop c) (function_depth c) (defer_depth c) (active_deferred_resources c)
  (captured_deferred_resources c) (next_flow_owner_id c) (next_variable_id c) x
  (current_return_type c).
Definition set_return_type x c := mkContext (diagnostics c) (current_scope c) (loop_depth c)
  (current_loop c) (function_depth c) (defer_depth c) (active_deferred_resources c)
  (captured_deferred_resources c) (next_flow_owner_id c) (next_variable_id c) (flow c) x.

Definition M (A : Type) : Type := SemanticContext -> outcome (A * SemanticContext).

#[global] Instance M_ret : MRet M := fun _ a c => Returned (a, c).
#[global] Instance M_bind : MBind M := fun _ _ k m c =>
  match m c with
  | Returned (a, c') => k a c'
  | Aborted => Aborted
  end.

Definition get {A} (f : SemanticContext -> A) : M A := fun c => Returned (f c, c).
Definition modify (f : SemanticContext -> SemanticContext) : M unit := fun c => Returned (tt, f c).
Definition run {A} (m : outcome A) : M A :=
  fun c => match m with Returned a => Returned (a, c) | Aborted => Aborted end.
Definition require (b : bool) : M unit := run (c_assert b).
Definition semantic_error (message : string) : M unit :=
  modify (fun c => set_diagnostics (diagnostics c ++ [message]) c).

(** [ctx->flow = f(ctx->flow)] *)
Definition update_flow (f : FlowState -> outcome FlowState) : M unit :=
  s ← get flow; t ← run (f s); modify (set_flow t).
Definition ask_flow {A} (f : FlowState -> outcome A) : M A := s ← get flow; run (f s).

Fixpoint each {A} (f : A -> M unit) (xs : list A) : M unit :=
  match xs with
  | [] => mret tt
  | x :: xs => f x ;; each f xs
  end.

(** [for (...) if (!f(x)) return 0; return 1;] *)
Fixpoint all_succeed {A} (f : A -> M bool) (xs : list A) : M bool :=
  match xs with
  | [] => mret true
  | x :: xs => ok ← f x; if (ok : bool) then all_succeed f xs else mret false
  end.

(** ** Scopes *)

Definition scope_push : M unit :=
  modify (fun c => set_scope (mkScope [] (count (flow c)) :: current_scope c) c).

Definition scope_pop : M unit :=
  scopes ← get current_scope;
  match scopes with
  | scope :: (_ :: _) as parents =>
      update_flow (fun s => flow_truncate_to s (flow_count_mark scope)) ;;
      modify (fun c => set_scope (tail (current_scope c)) c)
  | _ => require false
  end.

Definition scope_find_local (scope : Scope) (name : string) : option Symbol :=
  List.find (fun s => String.eqb (sym_name s) name) (symbols scope).

Fixpoint scope_lookup (scopes : list Scope) (name : string) : option Symbol :=
  match scopes with
  | [] => None
  | scope :: parents =>
      match scope_find_local scope name with
      | Some s => Some s
      | None => scope_lookup parents name
      end
  end.

Fixpoint scope_find_defining_scope (scopes : list Scope) (name : string) : option Scope :=
  match scopes with
  | [] => None
  | scope :: parents =>
      match scope_find_local scope name with
      | Some _ => Some scope
      | None => scope_find_defining_scope parents name
      end
  end.

Definition scope_count_local_functions_named (scope : option Scope) (name : string) : nat :=
  match scope with
  | None => 0
  | Some scope => length (List.filter (fun s => bool_decide (sym_kind s = SYMBOL_FUNCTION)
                                                && String.eqb (sym_name s) name) (symbols scope))
  end.

Definition symbol_is_generic_template (symbol : Symbol) : bool :=
  bool_decide (sym_kind symbol = SYMBOL_FUNCTION) && has_type_parameters symbol.

(** The new symbol becomes the first of the current scope. *)
Definition scope_define_symbol (s : Symbol) : M unit :=
  scopes ← get current_scope;
  match scopes with
  | scope :: parents =>
      modify (set_scope (mkScope (s :: symbols scope) (flow_count_mark scope) :: parents))
  | [] => require false
  end.

Definition scope_define (name : string) (kind : SymbolKind) (type : TypePtr) : M Symbol :=
  require (negb (bool_decide (kind = SYMBOL_BUILTIN))) ;;
  let s := {| sym_name := name; sym_kind := kind; sym_type := type;
              variable_storage := VARIABLE_STORAGE_NONE; flow_owner_id := None;
              variable_id := None; has_type_parameters := false |} in
  scope_define_symbol s ;; mret s.

(** The write through [symbol], which is the newest symbol of the current scope. *)
Definition update_newest_symbol (s : Symbol) : M unit :=
  modify (fun c => match current_scope c with
                   | scope :: parents =>
                       set_scope (mkScope (s :: tail (symbols scope)) (flow_count_mark scope)
                                  :: parents) c
                   | [] => c
                   end).

Definition classify_variable_symbol (symbol : Symbol) (storage : VariableStorage) : M Symbol :=
  require (bool_decide (sym_kind symbol = SYMBOL_VARIABLE)) ;;
  require (bool_decide (variable_storage symbol = VARIABLE_STORAGE_NONE)) ;;
  match storage with
  | VARIABLE_STORAGE_GLOBAL =>
      let s := mkSymbol (sym_name symbol) (sym_kind symbol) (sym_type symbol) storage None None
                 (has_type_parameters symbol) in
      update_newest_symbol s ;; mret s
  | VARIABLE_STORAGE_LOCAL | VARIABLE_STORAGE_PARAMETER =>
      id ← get (fun c => owner_id (flow c));
      require (bool_decide (is_Some id)) ;;
      n ← get next_variable_id;
      let s := mkSymbol (sym_name symbol) (sym_kind symbol) (sym_type symbol) storage id (Some n)
                 (has_type_parameters symbol) in
      modify (fun c => set_ids (next_flow_owner_id c) (S n) c) ;;
      update_newest_symbol s ;; mret s
  | VARIABLE_STORAGE_NONE => require false ;; mret symbol
  end.

Definition is_flow_symbol_at (id : option nat) (i : nat) (s : Symbol) : bool :=
  match symbol_has_flow_state (Some s) with
  | Returned true => bool_decide (flow_owner_id s = id) && bool_decide (variable_id s = Some i)
  | _ => false
  end.

(** The search through the scopes for the symbol in a slot, to name it in a diagnostic. *)
Definition flow_find_symbol_by_variable_id (scopes : list Scope) (state : FlowState) (i : nat)
    : option Symbol :=
  List.find (is_flow_symbol_at (owner_id state) i) (concat (map symbols scopes)).

Section Checker.
Context (store : TypeStore) (type_bool : TypePtr) {evaluator : ConstantEvaluator}.

(** ** Deferred resources *)

(** Two symbols with flow state are the same object when they are the same slot. *)
Definition deferred_resource_list_contains (uses : list Symbol) (s : Symbol) : bool :=
  existsb (fun u => bool_decide (flow_owner_id u = flow_owner_id s)
                    && bool_decide (variable_id u = variable_id s)) uses.

Definition capture_deferred_resource_use (s : Symbol) : M unit :=
  depth ← get defer_depth;
  captured ← get captured_deferred_resources;
  if (depth =? 0)%nat then mret tt
  else
    has ← run (symbol_has_flow_state (Some s));
    if negb has || negb (contains_resource_by_value store (sym_type s))
       || deferred_resource_list_contains captured s
    then mret tt
    else modify (fun c => set_defers (defer_depth c) (active_deferred_resources c)
                            (s :: captured_deferred_resources c) c).

(** The loop of [activate_captured_deferred_resources]: each captured use goes in front of the
    active ones unless its symbol is among them. *)
Fixpoint activate (captured active : list Symbol) : list Symbol :=
  match captured with
  | [] => active
  | s :: captured =>
      activate captured (if deferred_resource_list_contains active s then active else s :: active)
  end.

Definition activate_captured_deferred_resources : M unit :=
  modify (fun c => set_defers (defer_depth c)
    (activate (captured_deferred_resources c) (active_deferred_resources c)) [] c).

(** ** Expressions *)

Inductive IdentifierUse : Set := IDENTIFIER_USE_READ | IDENTIFIER_USE_WRITE_TARGET.

Definition reject {A} (message : string) : M (option A) := semantic_error message ;; mret None.

Definition identifier_info (sym : Symbol) : ExprInfo :=
  {| info_type := sym_type sym; info_symbol := Some sym;
     value_category := if bool_decide (sym_kind sym = SYMBOL_VARIABLE)
                       then VALUE_CATEGORY_LVALUE else VALUE_CATEGORY_RVALUE |}.

(** A use of the value or the storage of [sym]. *)
Definition check_symbol_use (sym : Symbol) (use : IdentifierUse) : M (option ExprInfo) :=
  capture_deferred_resource_use sym ;;
  has ← run (symbol_has_flow_state (Some sym));
  belongs ← (if (has : bool) then ask_flow (symbol_belongs_to_flow sym) else mret true);
  if has && negb belongs then
    reject "nested function cannot capture variable '%.*s' from an enclosing function"
  else
    match use with
    | IDENTIFIER_USE_READ =>
        ok ← ask_flow (fun s => flow_variable_is_initialized s (Some sym));
        if (ok : bool) then mret (Some (identifier_info sym))
        else if contains_resource_by_value store (sym_type sym)
        then reject "resource '%.*s' may be uninitialized or moved"
        else reject "variable '%.*s' may be uninitialized"
    | IDENTIFIER_USE_WRITE_TARGET => mret (Some (identifier_info sym))
    end.

(** A symbol without a type is a global or a constant whose declaration is not checked yet;
    here it counts as undefined. *)
Definition check_identifier_expression (name : string) (use : IdentifierUse)
    : M (option ExprInfo) :=
  scopes ← get current_scope;
  match scope_lookup scopes name with
  | None => reject "undefined identifier"
  | Some sym =>
      match sym_kind sym with
      | SYMBOL_BUILTIN => reject "builtin '%.*s' can only be used as a call target"
      | SYMBOL_TYPE => reject "type name cannot be used as a value"
      | _ =>
          if symbol_is_generic_template sym
          then reject "generic function '%.*s' can only be used as a call target"
          else if bool_decide (sym_kind sym = SYMBOL_FUNCTION)
                  && (1 <? scope_count_local_functions_named
                             (scope_find_defining_scope scopes name) name)%nat
          then reject "overloaded function '%.*s' can only be used as a call target"
          else if negb (bool_decide (is_Some (sym_type sym))) then reject "undefined identifier"
          else check_symbol_use sym use
      end
  end.

(** The result [m] of [check_expression] must be a value. *)
Definition require_value (m : M (option ExprInfo)) : M (option ExprInfo) :=
  info ← m;
  match info with
  | None => mret None
  | Some i =>
      if has_kind store (info_type i) TYPE_VOID
         || bool_decide (value_category i = VALUE_CATEGORY_NONE)
      then reject "expression does not produce a value"
      else mret (Some i)
  end.

Definition rvalue (t : TypePtr) : ExprInfo := mkInfo t None VALUE_CATEGORY_RVALUE.

(** [ctx->flow = flow_clone(ctx, &state)] *)
Definition restart_from (state : FlowState) : M unit :=
  s ← run (flow_clone state); modify (set_flow s).

(** [then] and [else] are checked from the same state; the paths that continue are merged. *)
Definition merge_after {A B} (n : nat) (incoming : FlowState) (first : M A) (second : M B)
    : M (A * B) :=
  restart_from incoming ;;
  a ← first;
  then_flow ← get flow;
  restart_from incoming ;;
  b ← second;
  else_flow ← get flow;
  s ← run (flow_merge_continuing_paths then_flow else_flow n);
  modify (set_flow s) ;;
  mret (a, b).

Definition if_expression_type (then_type else_type : TypePtr) : TypePtr :=
  if type_equal store then_type else_type then then_type
  else if is_numeric_type store then_type && is_numeric_type store else_type
  then common_numeric_type store then_type else_type
  else if initializer_compatible store then_type else_type then then_type
  else if initializer_compatible store else_type then_type then else_type
  else None.

Definition check_if_expression (check_value : Node -> M (option ExprInfo))
    (condition then_value else_value : Node) : M (option ExprInfo) :=
  c ← check_value condition;
  match c with
  | None => mret None
  | Some c =>
      if negb (is_bool_type store (info_type c))
      then reject "if expression condition must be a boolean expression"
      else
        incoming ← ask_flow flow_clone;
        '(t, e) ← merge_after (count incoming) incoming (check_value then_value)
                    (check_value else_value);
        match t, e with
        | Some t, Some e =>
            match if_expression_type (info_type t) (info_type e) with
            | None => reject "if expression branches have incompatible types"
            | result => mret (Some (rvalue result))
            end
        | _, _ => mret None
        end
  end.

Definition check_move (check_value : Node -> M (option ExprInfo)) (operand : Node)
    : M (option ExprInfo) :=
  o ← check_value operand;
  match o with
  | None => mret None
  | Some info =>
      if negb (contains_resource_by_value store (info_type info))
      then reject "move requires a resource value"
      else
        let bad := reject "move currently requires a local or parameter resource variable" in
        match operand, info_symbol info with
        | NIdent _, Some sym =>
            if negb (bool_decide (sym_kind sym = SYMBOL_VARIABLE)) then bad
            else
              has ← run (symbol_has_flow_state (Some sym));
              if negb has then bad
              else
                active ← get active_deferred_resources;
                if deferred_resource_list_contains active sym then
                  reject "cannot move resource '%.*s' after a defer has registered cleanup using it"
                else
                  update_flow (fun s => flow_mark_variable_uninitialized s (Some sym)) ;;
                  mret (Some (rvalue (info_type info)))
        | _, _ => bad
        end
  end.

Definition expression_compile_time_bool_value (node : Node) : option bool :=
  match const_value node with
  | Some v => match const_value_as v with CONST_VALUE_BOOL b => Some b | _ => None end
  | None => None
  end.

Definition expression_is_compile_time_true (node : Node) : bool :=
  default false (expression_compile_time_bool_value node).

(** The right operand of [&&] and [||] is checked from the state behind the left one; when the
    left one is constant it is known whether the right one is evaluated. *)
Definition check_logical (check_value : Node -> M (option ExprInfo)) (op : TokenType)
    (l r : Node) : M (option ExprInfo) :=
  lhs ← check_value l;
  match lhs with
  | None => mret None
  | Some lhs =>
      after_left ← ask_flow flow_clone;
      restart_from after_left ;;
      rhs ← check_value r;
      after_right ← get flow;
      let constant := if is_bool_type store (info_type lhs)
                      then expression_compile_time_bool_value l else None in
      match constant with
      | Some b =>
          let rhs_executes := if bool_decide (op = TOK_AND_AND) then b else negb b in
          restart_from (if (rhs_executes : bool) then after_right else after_left)
      | None =>
          s ← run (flow_merge_continuing_paths after_left after_right (count after_left));
          modify (set_flow s)
      end ;;
      if negb (is_bool_type store (info_type lhs)) then reject "left operand must be boolean"
      else match rhs with
      | None => mret None
      | Some rhs =>
          if negb (is_bool_type store (info_type rhs)) then reject "right operand must be boolean"
          else mret (Some (rvalue type_bool))
      end
  end.

Definition check_operation (check_value : Node -> M (option ExprInfo))
    (result : option (nat * ValueCategory)) (operands : list Node) : M (option ExprInfo) :=
  ok ← all_succeed (fun n => o ← check_value n; mret (bool_decide (is_Some o))) operands;
  if (ok : bool) then
    match result with
    | None => reject "the typing rule of the expression fails"
    | Some (t, category) => mret (Some (mkInfo (Some t) None category))
    end
  else mret None.

Fixpoint check_expression (node : Node) : M (option ExprInfo) :=
  match node with
  | NIdent name => check_identifier_expression name IDENTIFIER_USE_READ
  | NIfExpr c t e => check_if_expression (fun n => require_value (check_expression n)) c t e
  | NMove o => check_move (fun n => require_value (check_expression n)) o
  | NLogical op l r => check_logical (fun n => require_value (check_expression n)) op l r
  | NOperation result _ operands =>
      check_operation (fun n => require_value (check_expression n)) result operands
  end.

Definition check_value_expression (node : Node) : M (option ExprInfo) :=
  require_value (check_expression node).

(** ** Values stored in variables *)

Definition check_resource_transfer_expression (type : TypePtr) (info : ExprInfo) : M bool :=
  if negb (contains_resource_by_value store type) then mret true
  else if bool_decide (value_category info = VALUE_CATEGORY_LVALUE) then
    semantic_error "resource value cannot be copied; use move to transfer ownership" ;;
    mret false
  else mret true.

Definition check_initializer_against_type (expected : TypePtr) (init : Initializer) : M bool :=
  if negb (bool_decide (is_Some expected)) then mret false
  else
    actual ← check_value_expression (init_node init);
    match actual with
    | None => mret false
    | Some info =>
        ok ← check_resource_transfer_expression (info_type info) info;
        if negb ok then mret false
        else if negb (initializer_compatible store expected (info_type info)) then
          semantic_error "initializer type does not match declared type" ;; mret false
        else if negb (init_accepted init) then
          semantic_error "the value does not fit the destination" ;; mret false
        else mret true
    end.

Definition check_assignment_target_expression (target : Node) : M (option ExprInfo) :=
  match target with
  | NIdent name => check_identifier_expression name IDENTIFIER_USE_WRITE_TARGET
  | _ => check_expression target
  end.

Definition direct_assignment_target_symbol (target : Node) (info : ExprInfo) : option Symbol :=
  match target, info_symbol info with
  | NIdent _, Some s => if bool_decide (sym_kind s = SYMBOL_VARIABLE) then Some s else None
  | _, _ => None
  end.

(** The test that an assignment to a resource does not overwrite a live owner. *)
Definition check_resource_assignment (target_symbol : option Symbol) : M bool :=
  has ← run (symbol_has_flow_state target_symbol);
  if negb has then
    semantic_error
      "resource assignment currently requires a direct local or parameter variable" ;;
    mret false
  else
    free ← ask_flow (fun s => flow_variable_is_definitely_uninitialized s target_symbol);
    if negb free then
      may ← ask_flow (fun s => flow_variable_may_be_initialized s target_symbol);
      must ← ask_flow (fun s => flow_variable_is_initialized s target_symbol);
      semantic_error
        (if may && negb must
         then "resource assignment may overwrite an initialized owner; move the existing owner first"
         else "resource assignment would overwrite an initialized owner; move the existing owner first") ;;
      mret false
    else mret true.

Definition check_assignment_statement (target : Node) (value : Initializer) (writable : bool)
    : M bool :=
  t ← check_assignment_target_expression target;
  match t with
  | None => mret false
  | Some info =>
      if negb writable then semantic_error "assignment target is readonly" ;; mret false
      else
        let target_symbol := direct_assignment_target_symbol target info in
        ok ← (if contains_resource_by_value store (info_type info)
              then check_resource_assignment target_symbol else mret true);
        if negb ok then mret false
        else
          ok ← check_initializer_against_type (info_type info) value;
          if negb ok then mret false
          else
            update_flow (fun s => flow_mark_variable_initialized s target_symbol) ;;
            mret true
  end.

Definition check_statement_expression (e : StatementExpr) : M bool :=
  match e with
  | EAssign target value writable => check_assignment_statement target value writable
  | EDiscard operand =>
      d ← check_value_expression operand;
      match d with
      | None => mret false
      | Some info =>
          if contains_resource_by_value store (info_type info) then
            semantic_error "resource-owning values cannot be discarded; bind or transfer the owner and manage it explicitly" ;;
            mret false
          else mret true
      end
  | EValue node must_use =>
      v ← check_expression node;
      match v with
      | None => mret false
      | Some info =>
          if has_kind store (info_type info) TYPE_VOID
             || bool_decide (value_category info = VALUE_CATEGORY_NONE) then mret true
          else if negb must_use then mret true
          else
            semantic_error
              "function result must be used or explicitly discarded with 'discard'" ;;
            mret false
      end
  end.

(** A type a variable may have; the message of the test that fails. *)
Definition storable_type (type : TypePtr) : option string :=
  if invalid_value_type store type then Some "variable cannot have type void"%string
  else if contains_incomplete_struct_by_value store type
  then Some "incomplete C struct cannot be stored by value; use a pointer"%string
  else None.

(** The declared type, resolved and tested: [None] after an error. *)
Definition declared_type (declared : option TypePtr) : M (option TypePtr) :=
  match declared with
  | None => mret (Some None)
  | Some None => semantic_error "the type cannot be resolved" ;; mret None
  | Some type =>
      match storable_type type with
      | Some message => semantic_error message ;; mret None
      | None => mret (Some type)
      end
  end.

(** The type of the variable after its initializer is checked; [None] after an error. *)
Definition initialized_type (type : TypePtr) (init : option Initializer) (inferred : TypePtr)
    : M (option TypePtr) :=
  match init with
  | None => mret (Some type)
  | Some i =>
      if bool_decide (is_Some type) then
        ok ← check_initializer_against_type type i;
        mret (if (ok : bool) then Some type else None)
      else
        v ← check_value_expression (init_node i);
        match v with
        | None => mret None
        | Some info =>
            ok ← check_resource_transfer_expression (info_type info) info;
            if negb ok then mret None
            else match inferred with
                 | None => semantic_error "the type cannot be inferred" ;; mret None
                 | Some _ => mret (Some inferred)
                 end
        end
  end.

Definition check_var_decl (name : string) (declared : option TypePtr)
    (init : option Initializer) (inferred : TypePtr) : M unit :=
  scopes ← get current_scope;
  match scope_find_local (default (mkScope [] 0) (head scopes)) name with
  | Some _ => semantic_error "duplicate variable declaration"
  | None =>
      d ← declared_type declared;
      match d with
      | None => mret tt
      | Some type =>
          t ← initialized_type type init inferred;
          match t with
          | None => mret tt
          | Some None => semantic_error "could not infer variable type"
          | Some type =>
              match storable_type type with
              | Some message => semantic_error message
              | None =>
                  depth ← get function_depth;
                  let storage := if (0 <? depth)%nat then VARIABLE_STORAGE_LOCAL
                                 else VARIABLE_STORAGE_GLOBAL in
                  if bool_decide (storage = VARIABLE_STORAGE_GLOBAL)
                     && contains_resource_by_value store type
                  then semantic_error
                    "resource variables are currently supported only as locals and parameters"
                  else
                    s ← scope_define name SYMBOL_VARIABLE type;
                    s ← classify_variable_symbol s storage;
                    if bool_decide (storage = VARIABLE_STORAGE_LOCAL) then
                      update_flow (fun f =>
                        flow_register_variable store f s (bool_decide (is_Some init)))
                    else mret tt
              end
          end
      end
  end.

Definition check_param_decl (name : string) (type : TypePtr) : M unit :=
  scopes ← get current_scope;
  match scope_find_local (default (mkScope [] 0) (head scopes)) name with
  | Some _ => semantic_error "duplicate param declaration"
  | None =>
      match type with
      | None => semantic_error "could not determine parameter type"
      | _ =>
          if invalid_value_type store type then semantic_error "parameter cannot have type void"
          else if contains_incomplete_struct_by_value store type then
            semantic_error "incomplete C struct cannot be passed by value; use a pointer"
          else
            s ← scope_define name SYMBOL_VARIABLE type;
            s ← classify_variable_symbol s VARIABLE_STORAGE_PARAMETER;
            update_flow (fun f => flow_register_variable store f s true)
      end
  end.

(** ** Statements *)

(** What the cases of a [switch] have collected: the values, whether a default was seen. *)
Record SwitchLabels : Set := mkLabels {
  checked_case_values : list ConstValue;
  seen_default : bool;
}.

Definition check_switch_case_label (label : option Node) (comparison_type : TypePtr)
    (switch_type_is_valid : bool) (labels : SwitchLabels) : M SwitchLabels :=
  match label with
  | None =>
      (if seen_default labels then semantic_error "duplicate default case" else mret tt) ;;
      mret (mkLabels (checked_case_values labels) true)
  | Some node =>
      v ← check_value_expression node;
      match v with
      | None => mret labels
      | Some info =>
          if negb switch_type_is_valid then mret labels
          else if negb (switch_case_type_compatible store comparison_type (info_type info)) then
            semantic_error "switch case type is incompatible with switch expression type" ;;
            mret labels
          else match const_value node with
          | None => semantic_error "expression is not a compile-time constant" ;; mret labels
          | Some value =>
              match coerce_constant value comparison_type with
              | None =>
                  semantic_error "switch case value does not fit switch expression type" ;;
                  mret labels
              | Some converted =>
                  match record_switch_case_value (checked_case_values labels) converted with
                  | None => semantic_error "duplicate switch case" ;; mret labels
                  | Some values => mret (mkLabels values (seen_default labels))
                  end
              end
          end
      end
  end.

Section Node.
Context (check_node : Statement -> M unit).

Definition check_block (statements : list Statement) : M unit :=
  saved_deferred_resources ← get active_deferred_resources;
  scope_push ;;
  diagnose_local_unreachable ← get (fun c => reachable (flow c));
  each (fun statement =>
    live ← get (fun c => reachable (flow c));
    (if (diagnose_local_unreachable : bool) && negb live
     then semantic_error "unreachable statement" else mret tt) ;;
    check_node statement) statements ;;
  scope_pop ;;
  modify (fun c => set_defers (defer_depth c) saved_deferred_resources
                     (captured_deferred_resources c) c).

Definition check_if_statement (condition : Node) (then_branch : list Statement)
    (else_branch : option Statement) : M unit :=
  cond ← check_value_expression condition;
  match cond with
  | Some info =>
      if negb (is_bool_type store (info_type info))
      then semantic_error "if condition must be a boolean expression" else mret tt
  | None => mret tt
  end ;;
  incoming ← ask_flow flow_clone;
  merge_after (count incoming) incoming
    (check_block then_branch)
    (match else_branch with Some s => check_node s | None => mret tt end) ;;
  mret tt.

Definition check_compile_if_statement (condition : Node) (then_branch : list Statement)
    (else_branch : option Statement) : M unit :=
  cond ← check_value_expression condition;
  match cond with
  | None => mret tt
  | Some info =>
      if negb (is_bool_type store (info_type info)) then
        semantic_error "compile-time #if condition must evaluate to a boolean"
      else match const_value condition with
      | None => semantic_error "expression is not a compile-time constant"
      | Some v =>
          match const_value_as v with
          | CONST_VALUE_BOOL true => check_block then_branch
          | CONST_VALUE_BOOL false =>
              match else_branch with Some s => check_node s | None => mret tt end
          | _ => semantic_error "compile-time #if condition must evaluate to a boolean"
          end
      end
  end.

(** [ctx->current_loop = &loop; ctx->loop_depth++;] around the check of a loop body. *)
Definition enter_loop (active : nat) : M unit :=
  modify (fun c => set_loops (S (loop_depth c)) (mkLoop active None None :: current_loop c) c).

Definition leave_loop : M LoopFlowContext :=
  loops ← get current_loop;
  match loops with
  | loop :: parents => modify (fun c => set_loops (pred (loop_depth c)) parents c) ;; mret loop
  | [] => require false ;; mret (mkLoop 0 None None)
  end.

(** The diagnostic of [flow_validate_loop_backedge_resources]. *)
Definition validate_backedge (condition_entry backedge : FlowState) (n : nat) : M unit :=
  changed ← run (flow_validate_loop_backedge_resources condition_entry backedge n);
  match changed with
  | None => mret tt
  | Some i =>
      scopes ← get current_scope;
      match flow_find_symbol_by_variable_id scopes condition_entry i with
      | Some _ => semantic_error "resource '%.*s' changes ownership state on a loop backedge; restore it to its loop-entry state before the next iteration"
      | None => semantic_error "resource ownership state changes on a loop backedge; restore each owner to its loop-entry state before the next iteration"
      end
  end.

(** The state behind a loop. *)
Definition after_loop (loop : LoopFlowContext) (condition_exit : FlowState)
    (condition_is_always_true : bool) : M unit :=
  if condition_is_always_true && negb (bool_decide (is_Some (break_flow loop))) then
    restart_from condition_exit ;;
    modify (fun c => set_flow (set_reachable false (flow c)) c)
  else
    s ← run (loop_exit_flow loop condition_exit condition_is_always_true);
    modify (set_flow s).

Definition check_while_statement (condition : Node) (body : list Statement) : M unit :=
  condition_entry ← ask_flow flow_clone;
  cond ← check_value_expression condition;
  match cond with
  | Some info =>
      if negb (is_bool_type store (info_type info))
      then semantic_error "while condition must be a boolean expression" else mret tt
  | None => mret tt
  end ;;
  let condition_is_always_true :=
    match cond with
    | Some info => is_bool_type store (info_type info) && expression_is_compile_time_true condition
    | None => false
    end in
  condition_exit ← ask_flow flow_clone;
  enter_loop (count condition_entry) ;;
  restart_from condition_exit ;;
  check_block body ;;
  body_flow ← get flow;
  loop ← get (fun c => head (current_loop c));
  match loop with
  | None => require false
  | Some loop =>
      backedge ← run (loop_iteration_flow loop body_flow);
      loop ← leave_loop;
      validate_backedge condition_entry backedge (active_variable_count loop) ;;
      after_loop loop condition_exit condition_is_always_true
  end.

(** The condition of a [for]: whether it is always true. *)
Definition check_for_condition (condition : option Node) : M bool :=
  match condition with
  | None => mret true
  | Some condition =>
      cond ← check_value_expression condition;
      match cond with
      | Some info =>
          if is_bool_type store (info_type info)
          then mret (expression_is_compile_time_true condition)
          else semantic_error "for condition must be a boolean expression" ;; mret false
      | None => mret false
      end
  end.

Definition check_for_statement (condition : option Node) (post : option StatementExpr)
    (body : list Statement) : M unit :=
  condition_entry ← ask_flow flow_clone;
  condition_is_always_true ← check_for_condition condition;
  condition_exit ← ask_flow flow_clone;
  enter_loop (count condition_entry) ;;
  restart_from condition_exit ;;
  check_block body ;;
  body_flow ← get flow;
  loop ← get (fun c => head (current_loop c));
  match loop with
  | None => require false
  | Some loop =>
      s ← run (loop_iteration_flow loop body_flow);
      modify (set_flow s) ;;
      match post with
      | Some e => check_statement_expression e ;; mret tt
      | None => mret tt
      end ;;
      backedge ← get flow;
      loop ← leave_loop;
      validate_backedge condition_entry backedge (active_variable_count loop) ;;
      after_loop loop condition_exit condition_is_always_true
  end.

(** The cases, from [incoming] each: the labels and the merged state. *)
Fixpoint check_switch_cases (cases : list (option Node * Statement))
    (comparison_type : TypePtr) (valid : bool) (incoming : FlowState) (labels : SwitchLabels)
    (merged_case_flow : option FlowState) : M (SwitchLabels * option FlowState) :=
  match cases with
  | [] => mret (labels, merged_case_flow)
  | (label, body) :: cases =>
      restart_from incoming ;;
      labels ← check_switch_case_label label comparison_type valid labels;
      check_node body ;;
      case_flow ← get flow;
      m ← run (match merged_case_flow with
               | None => clone_truncated case_flow (count incoming)
               | Some m => flow_merge_continuing_paths m case_flow (count incoming)
               end);
      check_switch_cases cases comparison_type valid incoming labels (Some m)
  end.

Definition check_switch_statement (expression : Node) (concrete : TypePtr)
    (cases : list (option Node * Statement)) : M unit :=
  t ← check_value_expression expression;
  match t with
  | None => mret tt
  | Some info =>
      let comparison_type := if has_kind store (info_type info) TYPE_UNTYPED_INT
                             then concrete else info_type info in
      if negb (bool_decide (is_Some comparison_type)) then
        semantic_error "the type cannot be inferred"
      else
        let valid := is_switchable_type store comparison_type in
        (if negb valid
         then semantic_error "switch expression must be integer, bool, or enum" else mret tt) ;;
        incoming ← ask_flow flow_clone;
        '(labels, merged_case_flow) ←
          check_switch_cases cases comparison_type valid incoming (mkLabels [] false) None;
        match merged_case_flow with
        | None => modify (set_flow incoming)
        | Some m =>
            exhaustive ← run (switch_case_values_are_exhaustive store comparison_type
                                (checked_case_values labels) (seen_default labels));
            if (exhaustive : bool) then modify (set_flow m)
            else
              s ← run (flow_merge_continuing_paths m incoming (count incoming));
              modify (set_flow s)
        end
  end.

(** [break] and [continue]. *)
Definition check_loop_exit (record : LoopFlowContext -> FlowState
                                     -> outcome (LoopFlowContext * FlowState))
    (inside_defer outside_loop : string) : M unit :=
  defers ← get defer_depth;
  depth ← get loop_depth;
  if (0 <? defers)%nat then semantic_error inside_defer
  else if (depth =? 0)%nat then semantic_error outside_loop
  else
    loops ← get current_loop;
    s ← get flow;
    match loops with
    | [] => require false
    | loop :: parents =>
        '(loop, s) ← run (record loop s);
        modify (fun c => set_flow s (set_loops (loop_depth c) (loop :: parents) c))
    end.

Definition check_defer (statement : Statement) : M unit :=
  functions ← get function_depth;
  defers ← get defer_depth;
  if (functions =? 0)%nat then semantic_error "defer outside function"
  else if (0 <? defers)%nat then semantic_error "nested defer is not supported"
  else
    saved_flow ← ask_flow flow_clone;
    saved_capture ← get captured_deferred_resources;
    modify (fun c => set_defers (S (defer_depth c)) (active_deferred_resources c) [] c) ;;
    check_node statement ;;
    modify (fun c => set_defers (pred (defer_depth c)) (active_deferred_resources c)
                       (captured_deferred_resources c) c) ;;
    activate_captured_deferred_resources ;;
    modify (fun c => set_flow saved_flow
                       (set_defers (defer_depth c) (active_deferred_resources c) saved_capture c)).

Definition check_return (value : option Initializer) : M unit :=
  defers ← get defer_depth;
  functions ← get function_depth;
  if (0 <? defers)%nat then semantic_error "return is not allowed inside defer"
  else if (functions =? 0)%nat then semantic_error "return outside function"
  else
    modify (fun c => set_flow (set_reachable false (flow c)) c) ;;
    expected ← get current_return_type;
    match expected with
    | None => semantic_error "could not determine function return type"
    | Some _ =>
        match value with
        | None =>
            if has_kind store expected TYPE_VOID then mret tt
            else semantic_error "non-void function must return a value"
        | Some v =>
            if has_kind store expected TYPE_VOID
            then semantic_error "void function cannot return a value"
            else check_initializer_against_type expected v ;; mret tt
        end
    end.
End Node.

Fixpoint check_node (node : Statement) : M unit :=
  match node with
  | SBlock statements => check_block check_node statements
  | SVarDecl name declared init inferred => check_var_decl name declared init inferred
  | SExpr e => check_statement_expression e ;; mret tt
  | SIf condition t e => check_if_statement check_node condition t e
  | SCompileIf condition t e => check_compile_if_statement check_node condition t e
  | SWhile condition body => check_while_statement check_node condition body
  | SFor condition post body => check_for_statement check_node condition post body
  | SSwitch expression concrete cases => check_switch_statement check_node expression concrete cases
  | SBreak => check_loop_exit loop_record_break "break is not allowed inside defer"
                "break statement not inside loop"
  | SContinue => check_loop_exit loop_record_continue "continue is not allowed inside defer"
                   "continue statement not inside loop"
  | SReturn value => check_return value
  | SDefer statement => check_defer check_node statement
  end.

Definition check_function_body (params : list (string * TypePtr)) (return_type : TypePtr)
    (body : list Statement) : M unit :=
  saved ← get id;
  modify (fun c => set_flow (flow_init (Some (next_flow_owner_id c)))
                     (set_ids (S (next_flow_owner_id c)) 0 c)) ;;
  scope_push ;;
  each (fun p => check_param_decl p.1 p.2) params ;;
  modify (fun c => set_function_depth (S (function_depth c)) (set_return_type return_type
                     (set_defers 0 [] [] (set_loops 0 [] c)))) ;;
  check_node (SBlock body) ;;
  live ← get (fun c => reachable (flow c));
  (if bool_decide (is_Some return_type) && negb (has_kind store return_type TYPE_VOID) && live
   then semantic_error "non-void function may not return a value" else mret tt) ;;
  modify (fun c => set_function_depth (function_depth saved)
    (set_return_type (current_return_type saved)
      (set_defers (defer_depth saved) (active_deferred_resources saved)
         (captured_deferred_resources saved) (set_loops (loop_depth saved) (current_loop saved) c)))) ;;
  scope_pop ;;
  modify (fun c => set_flow (flow saved) (set_ids (next_flow_owner_id c) (next_variable_id saved) c)).
End Checker.
