(* ===== verification/FlowInvariant.v ===== *)
(** The checker of FlowCheck.v never fails an assertion.

    [good] is what holds of the context between two statements of a function body; every
    checker preserves it, returns, and changes of the context only what [evolves] allows. *)
From S2P Require Import Prelude Token Types TypeRelations FlowState FlowCheck.

#[global] Arguments symbol_has_flow_state : simpl never.

(** [m] returns from [c], and the result satisfies [Q]. *)
Definition steps {A} (m : M A) (c : SemanticContext) (Q : A -> SemanticContext -> Prop) : Prop :=
  exists a c', m c = Returned (a, c') /\ Q a c'.

Section Steps.
Context {A B : Type}.
Implicit Types (Q : A -> SemanticContext -> Prop) (c : SemanticContext).

Lemma steps_ret (a : A) c Q : Q a c -> steps (mret a) c Q.
Proof. intros H. by exists a, c. Qed.

Lemma steps_bind (m : M B) (k : B -> M A) c P Q :
  steps m c P -> (forall b c', P b c' -> steps (k b) c' Q) -> steps (b ← m; k b) c Q.
Proof.
  intros (b & c1 & Hm & Hb) Hk. destruct (Hk b c1 Hb) as (a & c2 & Ha & HQ).
  exists a, c2. split; [|done]. unfold mbind, M_bind. by rewrite Hm.
Qed.

Lemma steps_mono (m : M A) c P Q :
  steps m c P -> (forall a c', P a c' -> Q a c') -> steps m c Q.
Proof. intros (a & c' & Hm & HP) H. exists a, c'. auto. Qed.

Lemma steps_get (f : SemanticContext -> A) c Q : Q (f c) c -> steps (get f) c Q.
Proof. intros H. by exists (f c), c. Qed.

Lemma steps_run (m : outcome A) c P Q :
  returns m P -> (forall a, P a -> Q a c) -> steps (run m) c Q.
Proof. intros (a & Hm & HP) H. exists a, c. unfold run. rewrite Hm. auto. Qed.

Lemma steps_inv (m : M A) c Q a c' : steps m c Q -> m c = Returned (a, c') -> Q a c'.
Proof. intros (b & c1 & Hm & HQ) Heq. rewrite Hm in Heq. by injection Heq as -> ->. Qed.

(** A bind that returned went through a state in the middle. *)
Lemma bind_inv (m : M B) (k : B -> M A) c a c' :
  (b ← m; k b) c = Returned (a, c') ->
  exists b c1, m c = Returned (b, c1) /\ k b c1 = Returned (a, c').
Proof.
  unfold mbind, M_bind. destruct (m c) as [[b c1]|] eqn:Hm; [|done]. intros H. by exists b, c1.
Qed.

Lemma run_inv (m : outcome A) c a c' : run m c = Returned (a, c') -> m = Returned a /\ c' = c.
Proof. unfold run. destruct m; [|done]. intros [= <- <-]. done. Qed.
End Steps.

Lemma steps_modify f c (Q : unit -> SemanticContext -> Prop) :
  Q tt (f c) -> steps (modify f) c Q.
Proof. intros H. by exists tt, (f c). Qed.

Lemma steps_modify_eq f c : steps (modify f) c (fun _ c' => c' = f c).
Proof. by apply steps_modify. Qed.

Lemma steps_require b c (Q : unit -> SemanticContext -> Prop) :
  b = true -> Q tt c -> steps (require b) c Q.
Proof. intros -> H. by exists tt, c. Qed.

(** ** The invariant *)

Section Invariant.
Context (store : TypeStore).

(** The slot of a symbol. *)
Definition slot (s : Symbol) : nat := default 0%nat (variable_id s).

(** A symbol that the function with flow state [id] cannot use as one of its variables. *)
Definition foreign (id : option nat) (s : Symbol) : Prop :=
  exists b, symbol_has_flow_state (Some s) = Returned b /\ (b = true -> flow_owner_id s <> id).

(** A variable with a slot between [lo] and [hi] and the ownership its type says. *)
Definition slot_ok (f : FlowState) (lo hi : nat) (s : Symbol) : Prop :=
  flow_symbol (owner_id f) s (slot s) /\ (lo <= slot s < hi)%nat /\ is_Some (sym_type s)
  /\ owner f (slot s) = contains_resource_by_value store (sym_type s).

(** The slots of each scope lie between its mark and the mark of the scope inside it. *)
Fixpoint locals_ok (f : FlowState) (n : nat) (scopes : list Scope) : Prop :=
  match scopes with
  | [] => True
  | sc :: rest =>
      (flow_count_mark sc <= n)%nat /\ Forall (slot_ok f (flow_count_mark sc) n) (symbols sc)
      /\ NoDup (map slot (symbols sc)) /\ locals_ok f (flow_count_mark sc) rest
  end.

Definition loop_ok (f : FlowState) (l : LoopFlowContext) : Prop :=
  (active_variable_count l <= count f)%nat
  /\ recorded_ok (active_variable_count l) f (break_flow l)
  /\ recorded_ok (active_variable_count l) f (continue_flow l).

Record good (locals globals : list Scope) (c : SemanticContext) : Prop := {
  g_scopes : current_scope c = locals ++ globals;
  g_nonempty : locals <> [] /\ globals <> [];
  g_flow : flow_wf (flow c);
  g_owner : is_Some (owner_id (flow c));
  g_next : (count (flow c) <= next_variable_id c)%nat;
  g_globals : Forall (fun sc => Forall (foreign (owner_id (flow c))) (symbols sc)) globals;
  g_locals : locals_ok (flow c) (count (flow c)) locals;
  g_loops : Forall (loop_ok (flow c)) (current_loop c);
  g_depth : loop_depth c = length (current_loop c);
  g_function : (0 < function_depth c)%nat;
}.

(** ** Change *)

Definition errors (c : SemanticContext) : nat := length (diagnostics c).

Definition loop_grows (l l' : LoopFlowContext) : Prop :=
  active_variable_count l' = active_variable_count l
  /\ grows (active_variable_count l) (break_flow l) (break_flow l')
  /\ grows (active_variable_count l) (continue_flow l) (continue_flow l').

Definition uses_grow (u u' : list Symbol) : Prop :=
  forall s, deferred_resource_list_contains u s = true -> deferred_resource_list_contains u' s = true.

Record evolves (c c' : SemanticContext) : Prop := {
  ev_errors : (errors c <= errors c')%nat;
  ev_next : (next_variable_id c <= next_variable_id c')%nat;
  ev_count : (count (flow c) <= count (flow c'))%nat;
  ev_flow : compatible (count (flow c)) (flow c) (flow c');
  ev_loops : Forall2 loop_grows (current_loop c) (current_loop c');
  ev_loop_depth : loop_depth c' = loop_depth c;
  ev_function : function_depth c' = function_depth c;
  ev_defer : defer_depth c' = defer_depth c;
  ev_return : current_return_type c' = current_return_type c;
  ev_active : uses_grow (active_deferred_resources c) (active_deferred_resources c');
  ev_captured : uses_grow (captured_deferred_resources c) (captured_deferred_resources c');
}.

(** What checking an expression may change. *)
Record expression_step (c c' : SemanticContext) : Prop := {
  es_evolves : evolves c c';
  es_scope : current_scope c' = current_scope c;
  es_count : count (flow c') = count (flow c);
  es_reachable : reachable (flow c') = reachable (flow c);
  es_loops : current_loop c' = current_loop c;
  es_active : active_deferred_resources c' = active_deferred_resources c;
  es_next : next_variable_id c' = next_variable_id c;
}.

#[global] Instance loop_grows_preorder : PreOrder loop_grows.
Proof.
  split.
  - intros l. split_and!; reflexivity.
  - intros x y z (H1 & H2 & H3) (H4 & H5 & H6). rewrite H1 in H5, H6.
    split_and!; [congruence | by etrans | by etrans].
Qed.

#[global] Instance uses_grow_preorder : PreOrder uses_grow.
Proof. split; [by intros u s | intros u v w H1 H2 s Hs; auto]. Qed.

#[global] Instance evolves_preorder : PreOrder evolves.
Proof.
  split.
  - intros c. split; try reflexivity. apply compatible_refl.
  - intros a b c [] []. split; try lia; try congruence; try by etrans.
    eapply compatible_trans; [done|]. by eapply compatible_le.
Qed.

#[global] Instance expression_step_preorder : PreOrder expression_step.
Proof.
  split; [intros c; by split | intros a b c [] []; split; try congruence; by etrans].
Qed.

Lemma slot_ok_compatible f g lo hi n s :
  (hi <= n)%nat -> compatible n f g -> slot_ok f lo hi s -> slot_ok g lo hi s.
Proof.
  intros Hle [Hid Ho] (Hs & Hr & Ht & Hown). split_and!; try done.
  - by rewrite <- Hid.
  - lia.
  - lia.
  - rewrite <- Ho by lia. done.
Qed.

Lemma locals_ok_compatible f g n m scopes :
  (n <= m)%nat -> compatible m f g -> locals_ok f n scopes -> locals_ok g n scopes.
Proof.
  revert n. induction scopes as [|sc scopes IH]; intros n Hle Hc; [done|].
  intros (Hm & Hs & Hnd & Hl). split_and!; [done | | done | apply IH; [lia | done | done]].
  eapply Forall_impl; [exact Hs|]. intros s. by apply slot_ok_compatible with (n := m).
Qed.

Lemma locals_ok_le f n m scopes : (n <= m)%nat -> locals_ok f n scopes -> locals_ok f m scopes.
Proof.
  destruct scopes as [|sc scopes]; intros Hle; [done|]. intros (Hm & Hs & Hnd & Hl).
  split_and!; [lia | | done | done]. eapply Forall_impl; [exact Hs|].
  intros s (? & ? & ? & ?). split_and!; try done; lia.
Qed.

Lemma loop_ok_compatible f g l :
  (count f <= count g)%nat -> compatible (count f) f g -> loop_ok f l -> loop_ok g l.
Proof.
  intros Hle Hc (Ha & Hb & Hcont). split_and!; [lia | |]; intros a Heq.
  - destruct (Hb a Heq) as (? & ? & ? & Hac). split_and!; try done.
    eapply compatible_trans; [done|]. by eapply compatible_le.
  - destruct (Hcont a Heq) as (? & ? & ? & Hac). split_and!; try done.
    eapply compatible_trans; [done|]. by eapply compatible_le.
Qed.

(** A new flow state on the same slots, and new diagnostics and deferred uses. *)
Lemma good_flow locals globals c f :
  good locals globals c -> flow_wf f -> count f = count (flow c) ->
  compatible (count (flow c)) (flow c) f -> good locals globals (set_flow f c).
Proof.
  intros [] Hf Hcount Hc. pose proof (proj1 Hc) as Hid.
  split; simpl; try done; try (by rewrite <- Hid); try lia.
  - rewrite Hcount. by apply (locals_ok_compatible (flow c) _ _ (count (flow c))).
  - eapply Forall_impl; [done|]. intros l. apply loop_ok_compatible; [lia | done].
Qed.

Lemma good_other locals globals c c' :
  good locals globals c -> current_scope c' = current_scope c -> flow c' = flow c ->
  next_variable_id c' = next_variable_id c -> current_loop c' = current_loop c ->
  loop_depth c' = loop_depth c -> function_depth c' = function_depth c -> good locals globals c'.
Proof.
  intros [] Hs Hf Hn Hl Hd Hfd. split; rewrite ?Hs, ?Hf, ?Hn, ?Hl, ?Hd, ?Hfd; done.
Qed.

(** New loop contexts of the same nesting. *)
Lemma good_loops locals globals c ls :
  good locals globals c -> Forall (loop_ok (flow c)) ls -> length ls = length (current_loop c) ->
  good locals globals (set_loops (loop_depth c) ls c).
Proof. intros [] Hls Hlen. split; simpl; try done. congruence. Qed.

(** The result of an expression checker: a rejection leaves a diagnostic. *)
Definition expression_post (locals globals : list Scope) (c : SemanticContext)
    (r : option ExprInfo) (c' : SemanticContext) : Prop :=
  good locals globals c' /\ expression_step c c'
  /\ match r with
     | None => (errors c < errors c')%nat
     | Some info => is_Some (info_type info)
     end.

Definition silent (m : M unit) : Prop := forall c, m c = Returned (tt, c).

Lemma good_error locals globals c msg :
  good locals globals c -> good locals globals (set_diagnostics (diagnostics c ++ [msg]) c).
Proof. intros H. by eapply good_other. Qed.

Lemma errors_error c msg : errors (set_diagnostics (diagnostics c ++ [msg]) c) = S (errors c).
Proof. unfold errors. simpl. rewrite length_app. simpl. lia. Qed.

Lemma step_error c msg : expression_step c (set_diagnostics (diagnostics c ++ [msg]) c).
Proof.
  split; try done. split; try done; try reflexivity. rewrite errors_error. lia.
Qed.

Lemma steps_error msg locals globals c :
  good locals globals c ->
  steps (semantic_error msg) c (fun _ c' =>
    good locals globals c' /\ expression_step c c' /\ errors c' = S (errors c)).
Proof.
  intros H. apply steps_modify. split_and!; [by apply good_error | apply step_error | apply errors_error].
Qed.

Lemma steps_reject {A} msg locals globals c :
  good locals globals c ->
  steps (@reject A msg) c (fun r c' =>
    good locals globals c' /\ expression_step c c' /\ r = None /\ (errors c < errors c')%nat).
Proof.
  intros H. unfold reject. eapply steps_bind; [by apply steps_error|].
  intros _ c' (Hg & Hs & He). apply steps_ret. split_and!; [done | done | done | lia].
Qed.

(** The checker continues after a step that keeps the invariant. *)
Lemma post_after locals globals c c1 r c2 :
  expression_step c c1 -> expression_post locals globals c1 r c2 ->
  expression_post locals globals c r c2.
Proof.
  intros H1 (Hg & H2 & Hr). split_and!; [done | by etrans |].
  pose proof (ev_errors _ _ (es_evolves _ _ H1)). destruct r; [done | lia].
Qed.

Lemma reject_post msg locals globals c c1 :
  good locals globals c1 -> expression_step c c1 ->
  steps (reject msg) c1 (expression_post locals globals c).
Proof.
  intros Hg H. eapply steps_mono; [by apply (steps_reject msg)|].
  intros r c' (Hg' & H' & -> & He). eapply post_after; [done|]. split_and!; [done | done | lia].
Qed.

Lemma flow_step c f :
  flow_wf f -> count f = count (flow c) -> reachable f = reachable (flow c) ->
  compatible (count (flow c)) (flow c) f -> expression_step c (set_flow f c).
Proof.
  intros Hf Hc Hr Hcomp. split; simpl; try done.
  split; simpl; try reflexivity; try done; lia.
Qed.
End Invariant.

(** ** Names *)

Section Names.
Context (store : TypeStore).

Lemma find_local sc x s :
  scope_find_local sc x = Some s -> s ∈ symbols sc /\ sym_name s = x.
Proof.
  unfold scope_find_local. intros H. apply List.find_some in H as [Hin Heq].
  apply list_elem_of_In in Hin. by apply String.eqb_eq in Heq.
Qed.

Lemma locals_slot_ok f n scopes sc s :
  locals_ok store f n scopes -> sc ∈ scopes -> s ∈ symbols sc -> slot_ok store f 0 n s.
Proof.
  revert n. induction scopes as [|sc' scopes IH]; intros n Hl Hsc Hs.
  { by apply not_elem_of_nil in Hsc. }
  destruct Hl as (Hm & Hss & _ & Hl). apply elem_of_cons in Hsc as [->|Hsc].
  - rewrite Forall_forall in Hss. destruct (Hss s Hs) as (? & ? & ? & ?). split_and!; try done; lia.
  - destruct (IH _ Hl Hsc Hs) as (? & ? & ? & ?). split_and!; try done; lia.
Qed.

Lemma lookup_app scopes scopes' x :
  scope_lookup (scopes ++ scopes') x
  = match scope_lookup scopes x with Some s => Some s | None => scope_lookup scopes' x end.
Proof.
  induction scopes as [|sc scopes IH]; [done|]. simpl. by destruct (scope_find_local sc x).
Qed.

Lemma lookup_in scopes x s :
  scope_lookup scopes x = Some s -> exists sc, sc ∈ scopes /\ s ∈ symbols sc /\ sym_name s = x.
Proof.
  induction scopes as [|sc scopes IH]; [done|]. simpl.
  destruct (scope_find_local sc x) eqn:Hf.
  - intros [= <-]. apply find_local in Hf as [Hs Hn]. exists sc. split_and!; [left | done..].
  - intros H. destruct (IH H) as (sc' & ? & ? & ?). exists sc'. split_and!; [by right | done..].
Qed.

(** A name means a variable of the function or something it does not own. *)
Lemma lookup_cases locals globals c x s :
  good store locals globals c -> scope_lookup (current_scope c) x = Some s ->
  (scope_lookup locals x = Some s /\ slot_ok store (flow c) 0 (count (flow c)) s)
  \/ (scope_lookup locals x = None /\ scope_lookup globals x = Some s
      /\ foreign (owner_id (flow c)) s).
Proof.
  intros Hg. rewrite (g_scopes _ _ _ _ Hg), lookup_app.
  destruct (scope_lookup locals x) as [s'|] eqn:Hl; [intros [= ->]; left | intros Hs; right].
  - split; [done|]. apply lookup_in in Hl as (sc & Hsc & Hs & _).
    eapply locals_slot_ok; [apply (g_locals _ _ _ _ Hg) | done | done].
  - split_and!; [done | done |]. apply lookup_in in Hs as (sc & Hsc & Hs & _).
    pose proof (g_globals _ _ _ _ Hg) as Hgl. rewrite Forall_forall in Hgl.
    specialize (Hgl sc Hsc). rewrite Forall_forall in Hgl. by apply Hgl.
Qed.

(** ** Identifiers *)

Lemma contains_cons u s t :
  deferred_resource_list_contains (u :: t) s
  = bool_decide (flow_owner_id u = flow_owner_id s) && bool_decide (variable_id u = variable_id s)
    || deferred_resource_list_contains t s.
Proof. reflexivity. Qed.

Lemma contains_self s t : deferred_resource_list_contains (s :: t) s = true.
Proof. rewrite contains_cons, !bool_decide_true by done. done. Qed.

(** A use of [s] inside a deferred statement is recorded. *)
Definition is_captured (s : Symbol) (c : SemanticContext) : Prop :=
  defer_depth c <> 0%nat -> contains_resource_by_value store (sym_type s) = true ->
  symbol_has_flow_state (Some s) = Returned true ->
  deferred_resource_list_contains (captured_deferred_resources c) s = true.

Lemma capture_spec locals globals c s b :
  good store locals globals c -> symbol_has_flow_state (Some s) = Returned b ->
  steps (capture_deferred_resource_use store s) c (fun _ c' =>
    good store locals globals c' /\ expression_step c c' /\ flow c' = flow c
    /\ errors c' = errors c /\ is_captured s c').
Proof.
  intros Hg Hb. unfold capture_deferred_resource_use.
  eapply steps_bind; [apply (steps_get _ _ (fun x c' => x = defer_depth c /\ c' = c)); done|].
  intros ? ? [-> ->].
  eapply steps_bind; [apply (steps_get _ _ (fun x c' => x = captured_deferred_resources c /\ c' = c)); done|].
  intros ? ? [-> ->]. destruct (Nat.eqb_spec (defer_depth c) 0) as [Hz|Hz].
  { apply steps_ret. split_and!; try done; try reflexivity. by intros ?. }
  eapply steps_bind.
  { apply (steps_run _ _ (fun x => x = b) (fun x c' => x = b /\ c' = c)); [by exists b | done]. }
  intros ? ? [-> ->]. destruct (_ || _) eqn:Hskip.
  - apply steps_ret. split_and!; try done; try reflexivity. intros _ Hres Hhas.
    rewrite Hhas in Hb. injection Hb as <-. rewrite Hres in Hskip. simpl in Hskip. done.
  - apply steps_modify. split_and!; try done; try by (eapply good_other; done).
    + split; simpl; try done. split; simpl; try done; try reflexivity.
      intros u Hu. rewrite contains_cons, Hu. apply orb_true_r.
    + intros _ _ _. apply contains_self.
Qed.

(** [x] is a variable of the function, or a symbol outside it without flow state. *)
Definition means (locals globals : list Scope) (f : FlowState) (x : string) (s : Symbol) : Prop :=
  scope_lookup locals x = Some s /\ slot_ok store f 0 (count f) s
  \/ scope_lookup locals x = None /\ scope_lookup globals x = Some s
     /\ symbol_has_flow_state (Some s) = Returned false.

(** What an accepted use of a name tells. *)
Definition identifier_result (locals globals : list Scope) (x : string) (use : IdentifierUse)
    (c c' : SemanticContext) (r : option ExprInfo) : Prop :=
  forall info, r = Some info ->
    flow c' = flow c /\ exists s, means locals globals (flow c) x s
      /\ info = identifier_info s /\ is_captured s c'
      /\ (use = IDENTIFIER_USE_READ -> slot_ok store (flow c) 0 (count (flow c)) s ->
          mask (flow c) (slot s) = FLOW_DEFINITELY_INITIALIZED).

Lemma steps_const {A} (m : M A) c a : m c = Returned (a, c) -> steps m c (fun x c' => x = a /\ c' = c).
Proof. intros H. by exists a, c. Qed.

Lemma slot_ok_has f lo hi s : slot_ok store f lo hi s -> symbol_has_flow_state (Some s) = Returned true.
Proof. intros [H _]. by eapply flow_symbol_has. Qed.

Lemma slot_ok_slot f s : slot_ok store f 0 (count f) s -> slot_of f s = Returned (slot s).
Proof. intros (H & Hr & _). apply slot_of_spec; [done | lia]. Qed.

Lemma slot_ok_with_slot {A} f s (d : A) k :
  slot_ok store f 0 (count f) s -> with_slot f (Some s) d k = Returned (k (slot s)).
Proof. intros (H & Hr & _). apply with_slot_spec; [done | lia]. Qed.

Lemma check_symbol_use_spec locals globals c x s use :
  good store locals globals c -> scope_lookup (current_scope c) x = Some s ->
  is_Some (sym_type s) ->
  steps (check_symbol_use store s use) c (fun r c' =>
    expression_post store locals globals c r c'
    /\ identifier_result locals globals x use c c' r).
Proof.
  intros Hg Hlook Hty. pose proof (lookup_cases _ _ _ _ _ Hg Hlook) as Hcases.
  assert (exists b, symbol_has_flow_state (Some s) = Returned b) as [b Hb].
  { destruct Hcases as [[_ H]|(_ & _ & (b & H & _))];
      [exists true; by eapply slot_ok_has | by exists b]. }
  unfold check_symbol_use.
  eapply steps_bind; [by apply (capture_spec locals globals c s b)|].
  intros _ c1 (Hg1 & Hs1 & Hf1 & He1 & Hcap).
  assert (Hreject : forall msg, steps (reject msg) c1 (fun r c' =>
    expression_post store locals globals c r c' /\ identifier_result locals globals x use c c' r)).
  { intros msg. eapply steps_mono; [by apply (steps_reject store msg)|].
    intros r c' (Hg' & H' & -> & He). split; [|done].
    apply (post_after _ _ _ _ c1); [done|]. split_and!; [done | done | lia]. }
  assert (Hret : means locals globals (flow c) x s ->
     (use = IDENTIFIER_USE_READ -> slot_ok store (flow c) 0 (count (flow c)) s ->
        mask (flow c) (slot s) = FLOW_DEFINITELY_INITIALIZED) ->
     expression_post store locals globals c (Some (identifier_info s)) c1
     /\ identifier_result locals globals x use c c1 (Some (identifier_info s))).
  { intros Hmeans Hinit. split; [by split_and!|]. intros ? [= <-]. split; [done|].
    exists s. by split_and!. }
  eapply steps_bind; [apply (steps_const _ _ b); unfold run; by rewrite Hb|]. intros ? ? [-> ->].
  destruct Hcases as [[Hl Hok]|(Hl & Hgl & (b' & Hb' & Hforeign))].
  - pose proof (slot_ok_has _ _ _ _ Hok) as Hhas. rewrite Hhas in Hb. injection Hb as <-.
    eapply steps_bind.
    { apply (steps_const _ _ true). unfold ask_flow, run, get, mbind, M_bind.
      by rewrite Hf1, (flow_symbol_belongs _ _ _ (proj1 Hok)). }
    intros ? ? [-> ->]. simpl. destruct use.
    + eapply steps_bind.
      { apply (steps_const _ _ (mask (flow c) (slot s) =? FLOW_DEFINITELY_INITIALIZED)).
        unfold ask_flow, run, get, mbind, M_bind. rewrite Hf1.
        unfold flow_variable_is_initialized. by rewrite slot_ok_with_slot. }
      intros ? ? [-> ->]. destruct (Z.eqb_spec (mask (flow c) (slot s)) FLOW_DEFINITELY_INITIALIZED).
      * apply steps_ret. apply Hret; [by left | done].
      * destruct (contains_resource_by_value _ _); apply Hreject.
    + apply steps_ret. apply Hret; [by left | done].
  - rewrite Hb in Hb'. injection Hb' as <-. destruct b; simpl.
    + eapply steps_bind.
      { apply (steps_const _ _ false). unfold ask_flow, run, get, mbind, M_bind.
        unfold symbol_belongs_to_flow. rewrite Hb. simpl. rewrite Hf1.
        by rewrite bool_decide_false by auto. }
      intros ? ? [-> ->]. apply Hreject.
    + eapply steps_bind; [by apply (steps_const _ _ true)|]. intros ? ? [-> ->]. simpl.
      destruct use.
      * eapply steps_bind.
        { apply (steps_const _ _ true). unfold ask_flow, run, get, mbind, M_bind.
          unfold flow_variable_is_initialized. by rewrite with_slot_none. }
        intros ? ? [-> ->]. apply steps_ret. apply Hret; [by right|]. intros _ Hok.
        rewrite (slot_ok_has _ _ _ _ Hok) in Hb. done.
      * apply steps_ret. apply Hret; [by right | done].
Qed.

Lemma check_identifier_spec locals globals c x use :
  good store locals globals c ->
  steps (check_identifier_expression store x use) c (fun r c' =>
    expression_post store locals globals c r c'
    /\ identifier_result locals globals x use c c' r).
Proof.
  intros Hg. unfold check_identifier_expression.
  eapply steps_bind; [apply (steps_const _ _ (current_scope c)); reflexivity|]. intros ? ? [-> ->].
  assert (Hreject : forall msg, steps (reject msg) c (fun r c' =>
    expression_post store locals globals c r c' /\ identifier_result locals globals x use c c' r)).
  { intros msg. eapply steps_mono; [by apply (steps_reject store msg)|].
    intros r c' (Hg' & H' & -> & He). split; [|done]. split_and!; [done | done | lia]. }
  destruct (scope_lookup (current_scope c) x) as [s|] eqn:Hlook; [|apply Hreject].
  assert (Huse : forall (template : bool) kind n, steps
    (if template then reject "generic function '%.*s' can only be used as a call target"
     else if bool_decide (kind = SYMBOL_FUNCTION) && n
     then reject "overloaded function '%.*s' can only be used as a call target"
     else if negb (bool_decide (is_Some (sym_type s))) then reject "undefined identifier"
     else check_symbol_use store s use) c (fun r c' =>
    expression_post store locals globals c r c' /\ identifier_result locals globals x use c c' r)).
  { intros template kind n. destruct template; [apply Hreject|].
    destruct (_ && n); [apply Hreject|].
    case_bool_decide; simpl; [by apply check_symbol_use_spec | apply Hreject]. }
  destruct (sym_kind s); first [apply Hreject | apply Huse].
Qed.
End Names.

(** ** Induction on the tree *)

Section NodeInduction.
Context (P : Node -> Prop).
Hypothesis (Hident : forall x, P (NIdent x)).
Hypothesis (Hif : forall c t e, P c -> P t -> P e -> P (NIfExpr c t e)).
Hypothesis (Hmove : forall o, P o -> P (NMove o)).
Hypothesis (Hlogical : forall op l r, P l -> P r -> P (NLogical op l r)).
Hypothesis (Hoperation : forall result lit ns, Forall P ns -> P (NOperation result lit ns)).

Fixpoint Node_tree_ind (n : Node) : P n :=
  match n with
  | NIdent x => Hident x
  | NIfExpr c t e => Hif c t e (Node_tree_ind c) (Node_tree_ind t) (Node_tree_ind e)
  | NMove o => Hmove o (Node_tree_ind o)
  | NLogical op l r => Hlogical op l r (Node_tree_ind l) (Node_tree_ind r)
  | NOperation result lit ns =>
      Hoperation result lit ns
        ((fix all (ns : list Node) : Forall P ns :=
            match ns with
            | [] => Forall_nil_2 P
            | n :: ns => Forall_cons_2 P n ns (Node_tree_ind n) (all ns)
            end) ns)
  end.
End NodeInduction.

(** ** States that are set aside and merged *)

(** What a checker that leaves no new variable may change: a block, or an expression. *)
Record block_step (c c' : SemanticContext) : Prop := {
  bs_evolves : evolves c c';
  bs_scope : current_scope c' = current_scope c;
  bs_count : count (flow c') = count (flow c);
}.

#[global] Instance block_step_preorder : PreOrder block_step.
Proof.
  split; [intros c; by split | intros a b c [] []; split; try congruence; by etrans].
Qed.

Lemma expression_block_step c c' : expression_step c c' -> block_step c c'.
Proof. by intros []. Qed.

Lemma block_step_flow c f :
  count f = count (flow c) -> compatible (count (flow c)) (flow c) f -> block_step c (set_flow f c).
Proof. intros Hc Hcomp. split; simpl; try done. split; simpl; try reflexivity; try done; lia. Qed.

Lemma steps_run_const {A} (m : outcome A) a c : m = Returned a -> steps (run m) c (fun x c' => x = a /\ c' = c).
Proof. intros H. exists a, c. unfold run. by rewrite H. Qed.

Section Steps.
Context (store : TypeStore) (locals globals : list Scope).

Lemma ask_clone_spec c :
  good store locals globals c ->
  steps (ask_flow flow_clone) c (fun f c' => c' = c /\ flow_wf f /\ f ≡ flow c).
Proof.
  intros Hg. destruct (flow_clone_spec (flow c) (g_flow _ _ _ _ Hg)) as (f & Hf & Hwf & Heq).
  exists f, c. unfold ask_flow, get, run, mbind, M_bind. by rewrite Hf.
Qed.

(** A state that fits the slots of the current one replaces it. *)
Definition fits (c : SemanticContext) (f : FlowState) : Prop :=
  flow_wf f /\ count f = count (flow c) /\ compatible (count (flow c)) (flow c) f.

Lemma fits_equiv c f : flow_wf f -> f ≡ flow c -> fits c f.
Proof.
  intros Hf Heq. split_and!; [done | by rewrite Heq|]. apply equiv_compatible. by symmetry.
Qed.

Lemma fits_self c : good store locals globals c -> fits c (flow c).
Proof. intros Hg. split_and!; [apply (g_flow _ _ _ _ Hg) | done | done]. Qed.

Lemma fits_reachable c b : good store locals globals c -> fits c (set_reachable b (flow c)).
Proof.
  intros Hg. destruct (g_flow _ _ _ _ Hg) as [H1 H2 H3 H4 H5]. split_and!; [by split | done | done].
Qed.

Lemma fits_step c c' f : block_step c c' -> fits c f -> fits c' f.
Proof.
  intros [Hev _ Hcount] (Hf & Hc & Hcomp). split_and!; [done | congruence|].
  rewrite Hcount. eapply compatible_trans; [apply compatible_sym, Hev | done].
Qed.

Lemma good_fits c f : good store locals globals c -> fits c f -> good store locals globals (set_flow f c).
Proof. intros Hg (? & ? & ?). by apply good_flow. Qed.

Lemma restart_spec c f :
  good store locals globals c -> fits c f ->
  steps (restart_from f) c (fun _ c' => exists g, c' = set_flow g c /\ g ≡ f
    /\ good store locals globals c' /\ block_step c c').
Proof.
  intros Hg Hfit. pose proof Hfit as (Hf & Hcount & Hcomp).
  destruct (flow_clone_spec f Hf) as (g & Hclone & Hwf & Heq).
  assert (Hgfit : fits c g).
  { split_and!; [done | by rewrite Heq|]. eapply compatible_trans; [done|].
    apply equiv_compatible. by symmetry. }
  eapply steps_bind; [by apply (steps_run_const _ g)|]. intros ? ? [-> ->].
  apply steps_modify. exists g. split_and!; [done | done | by apply good_fits |].
  apply block_step_flow; apply Hgfit.
Qed.

(** The merge of the states of two paths that both fit. *)
Lemma merge_spec c l r n :
  good store locals globals c -> fits c l -> fits c r -> n = count (flow c) ->
  returns (flow_merge_continuing_paths l r n) (fun t => fits c t /\ merged l r n t).
Proof.
  intros Hg (Hl & Hcl & Hol) (Hr & Hcr & Hor) ->. eapply returns_mono.
  { apply flow_merge_spec; [done | done | | lia | lia].
    apply (compatible_trans _ _ (flow c)); [by apply compatible_sym | done]. }
  intros t [Ht Hm]. split; [|done]. split_and!; [done | by destruct Hm as (_ & ? & _) |].
  apply (compatible_trans _ _ l); [done|]. apply compatible_sym. by eapply merged_compatible.
Qed.

Lemma steps_merge c l r n :
  good store locals globals c -> fits c l -> fits c r -> n = count (flow c) ->
  steps (run (flow_merge_continuing_paths l r n)) c (fun t c' =>
    c' = c /\ fits c t /\ merged l r n t).
Proof.
  intros Hg Hl Hr Hn. eapply steps_run; [by apply merge_spec|]. by intros t [? ?].
Qed.

Section Merge.
Context (P : SemanticContext -> SemanticContext -> Prop) (keep : bool) `{!PreOrder P}.
Hypothesis (P_block : forall c c', P c c' -> block_step c c').
Hypothesis (P_reachable : forall c c', P c c' -> keep = true ->
  reachable (flow c') = reachable (flow c)).
Hypothesis (P_flow : forall c f, good store locals globals c -> fits c f ->
  (keep = true -> reachable f = reachable (flow c)) -> P c (set_flow f c)).

Lemma P_restart c f :
  good store locals globals c -> fits c f -> (keep = true -> reachable f = reachable (flow c)) ->
  steps (restart_from f) c (fun _ c' => good store locals globals c' /\ P c c').
Proof.
  intros Hg Hf Hk. eapply steps_mono; [by apply restart_spec|].
  intros _ c' (g & -> & Heq & Hg' & Hs). split; [done|]. apply P_flow; [done | |].
  - destruct Hf as (Hwf & Hcount & Hcomp). destruct Hs as [[] _ Hc]. simpl in *.
    split_and!; [apply (g_flow _ _ _ _ Hg') | done | done].
  - intros Hkeep. rewrite Heq. by apply Hk.
Qed.

Lemma merge_after_spec {A B} (m1 : M A) (m2 : M B) (fails1 : A -> Prop) (fails2 : B -> Prop) c incoming :
  good store locals globals c -> flow_wf incoming -> incoming ≡ flow c ->
  (forall c, good store locals globals c -> steps m1 c (fun a c' =>
     good store locals globals c' /\ P c c' /\ (fails1 a -> (errors c < errors c')%nat))) ->
  (forall c, good store locals globals c -> steps m2 c (fun b c' =>
     good store locals globals c' /\ P c c' /\ (fails2 b -> (errors c < errors c')%nat))) ->
  steps (merge_after (count incoming) incoming m1 m2) c (fun ab c' =>
    good store locals globals c' /\ P c c'
    /\ (fails1 ab.1 \/ fails2 ab.2 -> (errors c < errors c')%nat)).
Proof.
  intros Hg Hwf Heq H1 H2. pose proof (fits_equiv _ _ Hwf Heq) as Hfit.
  unfold merge_after.
  eapply steps_bind; [apply P_restart; [done | done | by intros _; rewrite Heq]|].
  intros _ c1 [Hg1 Hp1]. eapply steps_bind; [by apply H1|].
  intros a c2 (Hg2 & Hp2 & Hf1).
  eapply steps_bind; [apply (steps_const _ _ (flow c2)); reflexivity|]. intros ? ? [-> ->].
  assert (Hp02 : P c c2) by (by etrans).
  eapply steps_bind.
  { apply P_restart; [done | by eapply fits_step; [apply P_block|] |].
    intros Hk. rewrite Heq. symmetry. by apply P_reachable. }
  intros _ c3 [Hg3 Hp3]. eapply steps_bind; [by apply H2|]. intros b c4 (Hg4 & Hp4 & Hf2).
  eapply steps_bind; [apply (steps_const _ _ (flow c4)); reflexivity|]. intros ? ? [-> ->].
  assert (Hp24 : P c2 c4) by (by etrans). assert (Hp04 : P c c4) by (by etrans).
  assert (Hl : fits c4 (flow c2)).
  { apply (fits_step c2); [by apply P_block | by apply fits_self]. }
  eapply steps_bind.
  { apply (steps_merge c4 (flow c2) (flow c4)); [done | done | by apply fits_self |].
    rewrite (bs_count _ _ (P_block _ _ Hp04)), Heq. done. }
  intros t ? (-> & Ht & Hm). eapply steps_bind; [apply steps_modify_eq|].
  intros _ ? ->. apply steps_ret.
  assert (Herr : forall c c', P c c' -> (errors c <= errors c')%nat)
    by (intros; by apply ev_errors, bs_evolves, P_block).
  split_and!.
  - by apply good_fits.
  - etrans; [exact Hp04|]. apply P_flow; [done | done |]. intros Hk.
    destruct Hm as (_ & _ & -> & _). rewrite (P_reachable _ _ Hp24 Hk). by rewrite orb_diag.
  - simpl. intros Hf. pose proof (Herr _ _ Hp1). pose proof (Herr _ _ Hp2).
    pose proof (Herr _ _ Hp3). pose proof (Herr _ _ Hp4). unfold errors in *. simpl.
    destruct Hf as [Hf|Hf]; [specialize (Hf1 Hf) | specialize (Hf2 Hf)]; lia.
Qed.
End Merge.

Lemma merge_after_inv {A B} (m1 : M A) (m2 : M B) n incoming c ab c' :
  merge_after n incoming m1 m2 c = Returned (ab, c') ->
  exists f1 c1 f2 c2 t,
    flow_clone incoming = Returned f1 /\ m1 (set_flow f1 c) = Returned (ab.1, c1)
    /\ flow_clone incoming = Returned f2 /\ m2 (set_flow f2 c1) = Returned (ab.2, c2)
    /\ flow_merge_continuing_paths (flow c1) (flow c2) n = Returned t
    /\ c' = set_flow t c2.
Proof.
  unfold merge_after. intros H.
  apply bind_inv in H as ([] & d1 & H1 & H). apply bind_inv in H1 as (f1 & d2 & Hf1 & H1).
  apply run_inv in Hf1 as [Hf1 ->]. injection H1 as <-.
  apply bind_inv in H as (a & c1 & Ha & H). apply bind_inv in H as (? & ? & [= <- <-] & H).
  apply bind_inv in H as ([] & d3 & H2 & H). apply bind_inv in H2 as (f2 & d4 & Hf2 & H2).
  apply run_inv in Hf2 as [Hf2 ->]. injection H2 as <-.
  apply bind_inv in H as (b & c2 & Hb & H). apply bind_inv in H as (? & ? & [= <- <-] & H).
  apply bind_inv in H as (t & d5 & Ht & H). apply run_inv in Ht as [Ht ->].
  injection H as <- <-. exists f1, c1, f2, c2, t. by split_and!.
Qed.
End Steps.

(** ** Expressions *)

Section Expressions.
Context (store : TypeStore) (type_bool : TypePtr) {evaluator : ConstantEvaluator}
  (Hbool : is_Some type_bool) (locals globals : list Scope).

Abbreviation post c := (expression_post store locals globals c).

Lemma expression_fits_step c f :
  good store locals globals c -> fits c f -> reachable f = reachable (flow c) ->
  expression_step c (set_flow f c).
Proof. intros _ (? & ? & ?) ?. by apply flow_step. Qed.

Lemma require_value_spec m c :
  steps m c (post c) -> steps (require_value store m) c (post c).
Proof.
  intros Hm. unfold require_value. eapply steps_bind; [exact Hm|].
  intros [info|] c1 Hp; [|by apply steps_ret].
  destruct (_ || _); [|by apply steps_ret]. destruct Hp as (Hg & Hs & _). by apply reject_post.
Qed.

Lemma expression_merge_spec (m1 m2 : M (option ExprInfo)) c incoming :
  good store locals globals c -> flow_wf incoming -> incoming ≡ flow c ->
  (forall c, good store locals globals c -> steps m1 c (post c)) ->
  (forall c, good store locals globals c -> steps m2 c (post c)) ->
  steps (merge_after (count incoming) incoming m1 m2) c (fun ab c' =>
    good store locals globals c' /\ expression_step c c'
    /\ (ab.1 = None \/ ab.2 = None -> (errors c < errors c')%nat)).
Proof.
  intros Hg Hwf Heq H1 H2.
  apply (merge_after_spec store locals globals expression_step true
           expression_block_step (fun c c' H _ => es_reachable c c' H)
           (fun c f Hg Hf Hr => expression_fits_step c f Hg Hf (Hr eq_refl))
           m1 m2 (fun r => r = None) (fun r => r = None)); try done;
    intros c1 Hg1; (eapply steps_mono; [by first [apply H1 | apply H2]|]);
    intros r c' (Hg' & Hs & Hr); split_and!; try done; by intros ->.
Qed.

Lemma check_if_spec check cond t e c :
  (forall n c, n = cond \/ n = t \/ n = e -> good store locals globals c ->
     steps (check n) c (post c)) ->
  good store locals globals c -> steps (check_if_expression store check cond t e) c (post c).
Proof.
  intros Hcheck Hg. unfold check_if_expression.
  eapply steps_bind; [apply Hcheck; [by left | done]|].
  intros [info|] c1 Hp; [|by apply steps_ret]. pose proof Hp as (Hg1 & Hs1 & _).
  destruct (is_bool_type store (info_type info)); simpl; [|by apply reject_post].
  eapply steps_bind; [by eapply ask_clone_spec|]. intros incoming ? (-> & Hwf & Heq).
  eapply steps_bind.
  { apply (expression_merge_spec (check t) (check e)); [done | done | done | |];
      intros c2 Hg2; apply Hcheck; auto. }
  intros [a b] c2 (Hg2 & Hs2 & Hf). simpl in *.
  assert (Hs : expression_step c c2) by (by etrans).
  assert (Hnone : a = None \/ b = None -> post c None c2).
  { intros H. split_and!; [done | done |]. specialize (Hf H).
    pose proof (ev_errors _ _ (es_evolves _ _ Hs1)). lia. }
  destruct a as [a|]; [|apply steps_ret, Hnone; by left].
  destruct b as [b|]; [|apply steps_ret, Hnone; by right].
  destruct (if_expression_type store (info_type a) (info_type b)); [|by apply reject_post].
  apply steps_ret. by split_and!.
Qed.

Lemma mark_spec c s m (f : FlowState -> option Symbol -> outcome FlowState) :
  good store locals globals c ->
  (slot_ok store (flow c) 0 (count (flow c)) s ->
     f (flow c) (Some s) = Returned (set_mask (slot s) m (flow c))) ->
  slot_ok store (flow c) 0 (count (flow c)) s ->
  steps (update_flow (fun fl => f fl (Some s))) c (fun _ c' =>
    c' = set_flow (set_mask (slot s) m (flow c)) c /\ good store locals globals c'
    /\ expression_step c c').
Proof.
  intros Hg Hf Hok. unfold update_flow.
  eapply steps_bind; [apply (steps_const _ _ (flow c)); reflexivity|]. intros ? ? [-> ->].
  eapply steps_bind; [by apply steps_run_const, Hf|]. intros ? ? [-> ->].
  destruct Hok as (_ & Hr & _).
  assert (Hfit : fits c (set_mask (slot s) m (flow c))).
  { split_and!; [|done|done]. apply set_mask_wf; [apply (g_flow _ _ _ _ Hg) | lia]. }
  apply steps_modify. split_and!; [done | by apply good_fits | by apply expression_fits_step].
Qed.

Lemma mark_uninitialized_spec c s :
  good store locals globals c -> slot_ok store (flow c) 0 (count (flow c)) s ->
  steps (update_flow (fun fl => flow_mark_variable_uninitialized fl (Some s))) c (fun _ c' =>
    c' = set_flow (set_mask (slot s) FLOW_DEFINITELY_UNINITIALIZED (flow c)) c
    /\ good store locals globals c' /\ expression_step c c').
Proof.
  intros Hg Hok. apply mark_spec; [done | | done]. intros _.
  unfold flow_mark_variable_uninitialized. by rewrite (slot_ok_with_slot store).
Qed.

(** The symbol of a name that was read is one the name can mean. *)
Lemma check_move_spec check o c :
  (forall c, good store locals globals c -> steps (check o) c (post c)) ->
  (forall x, o = NIdent x -> forall c, good store locals globals c ->
     steps (check o) c (fun r c' => post c r c'
       /\ identifier_result store locals globals x IDENTIFIER_USE_READ c c' r)) ->
  good store locals globals c -> steps (check_move store check o) c (post c).
Proof.
  intros Hcheck Hident Hg. unfold check_move.
  assert (Hrejected : forall c1 msg, good store locals globals c1 -> expression_step c c1 ->
            steps (reject msg) c1 (post c)) by (intros; by apply reject_post).
  destruct o as [x | | | |].
  2-5: eapply steps_bind; [by apply Hcheck|]; intros [info|] c1 (Hg1 & Hs1 & Hr1);
    [destruct (negb _); by apply Hrejected | by apply steps_ret].
  eapply steps_bind; [by apply (Hident x)|].
  intros [info|] c1 [(Hg1 & Hs1 & Hr1) Hid]; [|by apply steps_ret].
  destruct (negb (contains_resource_by_value store (info_type info))); [by apply Hrejected|].
  destruct (Hid info eq_refl) as (Hflow & s & Hmeans & -> & _ & _). simpl.
  case_bool_decide as Hvar; simpl; [|by apply Hrejected].
  destruct Hmeans as [[_ Hok]|(_ & _ & Hb)].
  - assert (Hok' : slot_ok store (flow c1) 0 (count (flow c1)) s) by (by rewrite Hflow).
    eapply steps_bind; [apply (steps_run_const _ true); by eapply slot_ok_has|].
    intros ? ? [-> ->]. simpl.
    eapply steps_bind; [apply (steps_const _ _ (active_deferred_resources c1)); reflexivity|].
    intros ? ? [-> ->]. destruct (deferred_resource_list_contains _ _); [by apply Hrejected|].
    eapply steps_bind; [by apply mark_uninitialized_spec|]. intros _ c2 (_ & Hg2 & Hs2).
    apply steps_ret. split_and!; [done | by etrans | done].
  - eapply steps_bind; [by apply (steps_run_const _ false)|]. intros ? ? [-> ->].
    by apply Hrejected.
Qed.

Lemma check_logical_spec check op l r c :
  (forall n c, n = l \/ n = r -> good store locals globals c -> steps (check n) c (post c)) ->
  good store locals globals c -> steps (check_logical store type_bool check op l r) c (post c).
Proof.
  intros Hcheck Hg. unfold check_logical.
  eapply steps_bind; [apply Hcheck; [by left | done]|].
  intros [lhs|] c1 Hp1; [|by apply steps_ret]. destruct Hp1 as (Hg1 & Hs1 & _).
  eapply steps_bind; [by eapply ask_clone_spec|]. intros after_left ? (-> & Hwf & Heq).
  eapply steps_bind.
  { apply (P_restart store locals globals expression_step true
      (fun c f Hg Hf Hr => expression_fits_step c f Hg Hf (Hr eq_refl))); [done | by apply fits_equiv |].
    intros _. by rewrite Heq. }
  intros _ c2 [Hg2 Hs2]. eapply steps_bind; [apply Hcheck; [by right | done]|].
  intros rhs c3 (Hg3 & Hs3 & Hr3).
  assert (Hs13 : expression_step c1 c3) by (by etrans).
  assert (Hs03 : expression_step c c3) by (by etrans).
  eapply steps_bind; [apply (steps_const _ _ (flow c3)); reflexivity|]. intros ? ? [-> ->].
  assert (Hfl : fits c3 after_left).
  { apply (fits_step c1); [by apply expression_block_step | by apply fits_equiv]. }
  assert (Hrl : reachable after_left = reachable (flow c3)).
  { rewrite Heq. symmetry. by apply es_reachable. }
  eapply steps_bind.
  { assert (Hq : forall m : M unit, steps m c3 (fun _ c' => good store locals globals c' /\ expression_step c3 c')
      -> steps m c3 (fun _ c' => good store locals globals c' /\ expression_step c3 c')) by done.
    apply Hq. destruct (if is_bool_type _ _ then _ else _) as [b|].
    - apply (P_restart store locals globals expression_step true
        (fun c f Hg Hf Hr => expression_fits_step c f Hg Hf (Hr eq_refl))); [done | |];
        destruct (if bool_decide _ then _ else _); try done; by apply (fits_self store locals globals).
    - eapply steps_bind.
      { apply (steps_merge store locals globals c3 after_left (flow c3));
          [done | done | by apply (fits_self store locals globals) | by destruct Hfl as (_ & ? & _)]. }
      intros t ? (-> & Ht & Hm). apply steps_modify. split; [by apply good_fits|].
      apply expression_fits_step; [done | done |]. destruct Hm as (_ & _ & -> & _).
      rewrite Hrl. apply orb_diag. }
  intros _ c4 [Hg4 Hs4]. assert (Hs04 : expression_step c c4) by (by etrans).
  destruct (is_bool_type store (info_type lhs)); simpl; [|by apply reject_post].
  destruct rhs as [rhs|].
  2: { apply steps_ret. split_and!; [done | done |].
       pose proof (ev_errors _ _ (es_evolves _ _ Hs1)). pose proof (ev_errors _ _ (es_evolves _ _ Hs2)).
       pose proof (ev_errors _ _ (es_evolves _ _ Hs4)). lia. }
  destruct (is_bool_type store (info_type rhs)); simpl; [|by apply reject_post].
  apply steps_ret. by split_and!.
Qed.

Lemma operands_spec (check : Node -> M (option ExprInfo)) ns c :
  Forall (fun n => forall c, good store locals globals c -> steps (check n) c (post c)) ns ->
  good store locals globals c ->
  steps (all_succeed (fun n => o ← check n; mret (bool_decide (is_Some o))) ns) c (fun ok c' =>
    good store locals globals c' /\ expression_step c c'
    /\ (ok = false -> (errors c < errors c')%nat)).
Proof.
  intros Hns. revert c. induction Hns as [|n ns Hn _ IH]; intros c Hg; simpl.
  { apply steps_ret. split_and!; [done | reflexivity | done]. }
  eapply (steps_bind _ _ _ (fun b c1 => exists o, b = bool_decide (is_Some o) /\ post c o c1)).
  { eapply steps_bind; [by apply Hn|]. intros o c1 Hp. apply steps_ret. by exists o. }
  intros ? c1 (o & -> & Hg1 & Hs1 & Hr1). destruct o as [o|]; simpl.
  - eapply steps_mono; [by apply IH|]. intros ok c2 (Hg2 & Hs2 & Hok).
    split_and!; [done | by etrans |]. intros H. specialize (Hok H).
    pose proof (ev_errors _ _ (es_evolves _ _ Hs1)). lia.
  - apply steps_ret. by split_and!.
Qed.

Lemma check_expression_both n :
  (forall c, good store locals globals c -> steps (check_expression store type_bool n) c (post c))
  /\ (forall c, good store locals globals c ->
       steps (check_value_expression store type_bool n) c (post c)).
Proof.
  apply (proj1 (conj (fun H => conj H (fun c Hg => require_value_spec _ c (H c Hg))) I)).
  induction n as [x|cond t e IHc IHt IHe|o IHo|op l r IHl IHr|result lit ns IH] using Node_tree_ind;
    intros c Hg; cbn [check_expression].
  - eapply steps_mono; [by apply check_identifier_spec|]. by intros r c' [H _].
  - apply check_if_spec; [|done]. intros n c1 [->|[->| ->]] Hg1; by apply require_value_spec; auto.
  - apply check_move_spec; [intros c1 Hg1; by apply require_value_spec; auto | | done].
    intros x -> c1 Hg1. cbn [check_expression]. unfold require_value.
    eapply steps_bind; [by apply check_identifier_spec|].
    intros [info|] c2 [Hp Hid]; [|by apply steps_ret].
    destruct (_ || _); [|by apply steps_ret]. destruct Hp as (Hg2 & Hs2 & _).
    eapply steps_mono; [by apply (steps_reject store "expression does not produce a value")|].
    intros r c' (Hg' & Hs' & -> & He). split; [|done].
    apply (post_after _ _ _ _ c2); [done|]. split_and!; [done | done | lia].
  - apply check_logical_spec; [|done]. intros n c1 [->| ->] Hg1; by apply require_value_spec; auto.
  - unfold check_operation. eapply steps_bind.
    { apply operands_spec; [|done]. eapply Forall_impl; [exact IH|].
      intros n Hn c1 Hg1. apply require_value_spec. by apply Hn. }
    intros ok c1 (Hg1 & Hs1 & Hok). destruct ok.
    + destruct result as [[ty cat]|]; [|by apply reject_post]. apply steps_ret. by split_and!.
    + apply steps_ret. by split_and!; auto.
Qed.

Lemma check_expression_spec n c :
  good store locals globals c -> steps (check_expression store type_bool n) c (post c).
Proof. apply check_expression_both. Qed.

Lemma check_value_spec n c :
  good store locals globals c -> steps (check_value_expression store type_bool n) c (post c).
Proof. apply check_expression_both. Qed.
End Expressions.

(** ** Stores into variables *)

Section Stores.
Context (store : TypeStore) (type_bool : TypePtr) {evaluator : ConstantEvaluator}
  (Hbool : is_Some type_bool) (locals globals : list Scope).

(** A checker that answers 0 has left a diagnostic. *)
Definition bool_post (c : SemanticContext) (ok : bool) (c' : SemanticContext) : Prop :=
  good store locals globals c' /\ expression_step c c' /\ (ok = false -> (errors c < errors c')%nat).

Lemma bool_post_after c c1 ok c2 : expression_step c c1 -> bool_post c1 ok c2 -> bool_post c ok c2.
Proof.
  intros H1 (Hg & H2 & Hok). split_and!; [done | by etrans |]. intros H.
  pose proof (ev_errors _ _ (es_evolves _ _ H1)). specialize (Hok H). lia.
Qed.

Lemma error_false_spec msg c :
  good store locals globals c -> steps (semantic_error msg ;; mret false) c (bool_post c).
Proof.
  intros Hg. eapply steps_bind; [by apply (steps_error store msg)|]. intros _ c' (Hg' & Hs & He).
  apply steps_ret. split_and!; [done | done | lia].
Qed.

Lemma error_false_after msg c c1 :
  good store locals globals c1 -> expression_step c c1 ->
  steps (semantic_error msg ;; mret false) c1 (bool_post c).
Proof.
  intros Hg Hs. eapply steps_mono; [by apply error_false_spec|]. intros ok c'.
  by apply bool_post_after.
Qed.

Lemma ret_bool c b c1 :
  good store locals globals c1 -> expression_step c c1 -> (b = false -> (errors c < errors c1)%nat) ->
  steps (mret b) c1 (bool_post c).
Proof. intros. apply steps_ret. by split_and!. Qed.

Lemma transfer_spec ty info c :
  good store locals globals c ->
  steps (check_resource_transfer_expression store ty info) c (bool_post c).
Proof.
  intros Hg. unfold check_resource_transfer_expression.
  destruct (negb _); [by apply ret_bool|]. destruct (bool_decide _); [by apply error_false_spec|].
  by apply ret_bool.
Qed.

Lemma check_initializer_spec expected init c :
  is_Some expected -> good store locals globals c ->
  steps (check_initializer_against_type store type_bool expected init) c (bool_post c).
Proof.
  intros He Hg. unfold check_initializer_against_type. rewrite bool_decide_true by done. simpl.
  eapply steps_bind; [by apply check_value_spec|].
  intros [info|] c1 (Hg1 & Hs1 & Hr1); [|by apply ret_bool].
  eapply steps_bind; [by apply transfer_spec|]. intros ok c2 (Hg2 & Hs2 & Hok).
  assert (Hs : expression_step c c2) by (by etrans).
  destruct ok; simpl.
  2: { apply ret_bool; [done | done |]. intros _. specialize (Hok eq_refl).
       pose proof (ev_errors _ _ (es_evolves _ _ Hs1)). lia. }
  destruct (negb _); [by apply error_false_after|].
  destruct (negb _); [by apply error_false_after|]. by apply ret_bool.
Qed.

(** The symbol an assignment writes to. *)
Definition assignable (f : FlowState) (t : option Symbol) : Prop :=
  match t with
  | None => True
  | Some s => slot_ok store f 0 (count f) s \/ symbol_has_flow_state (Some s) = Returned false
  end.

Lemma assignable_has f t :
  assignable f t -> exists b, symbol_has_flow_state t = Returned b
    /\ (b = true -> exists s, t = Some s /\ slot_ok store f 0 (count f) s).
Proof.
  destruct t as [s|]; simpl; [|by exists false].
  intros [H|H]; [exists true | by exists false]. split; [by eapply slot_ok_has|]. eauto.
Qed.

Definition has_flow (t : option Symbol) : bool :=
  match symbol_has_flow_state t with Returned true => true | _ => false end.

Lemma has_flow_eq t b : symbol_has_flow_state t = Returned b -> has_flow t = b.
Proof. unfold has_flow. intros ->. by destruct b. Qed.

Lemma ask_slot_spec {A} c t (d : A) k :
  assignable (flow c) t ->
  steps (ask_flow (fun s => with_slot s t d (k s))) c (fun a c' => c' = c
    /\ a = match t with
           | Some s => if has_flow t
                       then k (flow c) (slot s) else d
           | None => d
           end).
Proof.
  intros Ht. unfold ask_flow. eapply steps_bind; [apply (steps_const _ _ (flow c)); reflexivity|].
  intros ? ? [-> ->]. destruct (assignable_has _ _ Ht) as (b & Hb & Hs).
  destruct b.
  - destruct (Hs eq_refl) as (s & -> & Hok). rewrite (has_flow_eq _ _ Hb).
    eapply steps_mono; [apply steps_run_const; by apply (slot_ok_with_slot store)|].
    by intros a c' [-> ->].
  - eapply steps_mono; [apply steps_run_const; by apply with_slot_none|].
    intros a c' [-> ->]. split; [done|]. destruct t; [|done]. by rewrite (has_flow_eq _ _ Hb).
Qed.

Lemma resource_assignment_spec t c :
  assignable (flow c) t -> good store locals globals c ->
  steps (check_resource_assignment t) c (fun ok c' => bool_post c ok c' /\ flow c' = flow c
    /\ (ok = true -> exists s, t = Some s /\ slot_ok store (flow c) 0 (count (flow c)) s
          /\ mask (flow c) (slot s) = FLOW_DEFINITELY_UNINITIALIZED)).
Proof.
  intros Ht Hg. unfold check_resource_assignment.
  assert (Herr : forall msg, steps (semantic_error msg ;; mret false) c (fun ok c' => bool_post c ok c'
      /\ flow c' = flow c
      /\ (ok = true -> exists s, t = Some s /\ slot_ok store (flow c) 0 (count (flow c)) s
            /\ mask (flow c) (slot s) = FLOW_DEFINITELY_UNINITIALIZED))).
  { intros msg. destruct (error_false_spec msg c Hg) as (ok & c' & Heq & Hp).
    exists ok, c'. split; [done|]. injection Heq as <- <-. by split_and!. }
  destruct (assignable_has _ _ Ht) as (b & Hb & Hs).
  eapply steps_bind; [by apply steps_run_const|]. intros ? ? [-> ->].
  destruct b; simpl; [|apply Herr].
  destruct (Hs eq_refl) as (s & -> & Hok).
  eapply steps_bind; [by apply ask_slot_spec|]. intros free ? [-> ->]. rewrite (has_flow_eq _ _ Hb).
  destruct (Z.eqb_spec (mask (flow c) (slot s)) FLOW_DEFINITELY_UNINITIALIZED) as [Hm|Hm]; simpl.
  - apply steps_ret. split_and!; [by split_and! | done |]. intros _. by exists s.
  - eapply steps_bind; [by apply ask_slot_spec|]. intros may ? [-> _].
    eapply steps_bind; [by apply ask_slot_spec|]. intros must ? [-> _]. apply Herr.
Qed.

Lemma mark_initialized_spec t c :
  assignable (flow c) t -> good store locals globals c ->
  steps (update_flow (fun s => flow_mark_variable_initialized s t)) c (fun _ c' =>
    good store locals globals c' /\ expression_step c c'
    /\ flow c' = match t with
                 | Some s => if has_flow t
                             then set_mask (slot s) FLOW_DEFINITELY_INITIALIZED (flow c) else flow c
                 | None => flow c
                 end).
Proof.
  intros Ht Hg. destruct (assignable_has _ _ Ht) as (b & Hb & Hs). destruct b.
  - destruct (Hs eq_refl) as (s & -> & Hok). rewrite (has_flow_eq _ _ Hb).
    eapply steps_mono; [apply mark_spec with (store := store) (s := s) (m := FLOW_DEFINITELY_INITIALIZED)|].
    + exact Hg.
    + intros _. unfold flow_mark_variable_initialized. by rewrite (slot_ok_with_slot store).
    + done.
    + by intros _ c' (-> & ? & ?).
  - unfold update_flow. eapply steps_bind; [apply (steps_const _ _ (flow c)); reflexivity|].
    intros ? ? [-> ->].
    eapply steps_bind; [apply (steps_run_const _ (flow c)); by apply with_slot_none|].
    intros ? ? [-> ->]. apply steps_modify. split_and!.
    + eapply good_other; done.
    + apply flow_step; try done. apply (g_flow _ _ _ _ Hg).
    + destruct t; [|done]. by rewrite (has_flow_eq _ _ Hb).
Qed.

(** The target of an assignment. *)
Lemma check_target_spec target c :
  good store locals globals c ->
  steps (check_assignment_target_expression store type_bool target) c (fun r c' =>
    expression_post store locals globals c r c'
    /\ forall info, r = Some info -> assignable (flow c') (direct_assignment_target_symbol target info)).
Proof.
  intros Hg. unfold check_assignment_target_expression. destruct target as [x| | | |].
  2-5: eapply steps_mono; [by apply check_expression_spec|]; intros r c' Hp; by split.
  eapply steps_mono; [by apply check_identifier_spec|]. intros r c' [Hp Hid]. split; [done|].
  intros info ->. destruct (Hid info eq_refl) as (Hf & s & Hmeans & -> & _).
  unfold direct_assignment_target_symbol. simpl. case_bool_decide; [|done]. rewrite Hf.
  destruct Hmeans as [[_ ?]|(_ & _ & ?)]; [by left | by right].
Qed.

Lemma assignable_step c c' t :
  expression_step c c' -> assignable (flow c) t -> assignable (flow c') t.
Proof.
  intros Hs. destruct t as [s|]; [|done]. intros [Hok|Hok]; [left | by right].
  rewrite (es_count _ _ Hs). eapply slot_ok_compatible; [| apply Hs | done]. lia.
Qed.

Lemma check_assignment_spec target value w c :
  good store locals globals c ->
  steps (check_assignment_statement store type_bool target value w) c (bool_post c).
Proof.
  intros Hg. unfold check_assignment_statement.
  eapply steps_bind; [by apply check_target_spec|].
  intros [info|] c1 [(Hg1 & Hs1 & Hr1) Ht]; [|by apply ret_bool]. specialize (Ht info eq_refl).
  destruct (negb w); [by apply error_false_after|].
  eapply (steps_bind _ _ _ (fun ok c2 => bool_post c ok c2 /\ expression_step c1 c2)).
  { destruct (contains_resource_by_value _ _).
    - eapply steps_mono; [by apply resource_assignment_spec|]. intros ok c2 (Hp & _).
      split; [by eapply bool_post_after | by destruct Hp as (_ & ? & _)].
    - apply steps_ret. by split_and!. }
  intros ok c2 [(Hg2 & Hs2 & Hok) Hs12]. destruct ok; simpl; [|by apply ret_bool; auto].
  eapply steps_bind; [by apply check_initializer_spec|]. intros ok c3 (Hg3 & Hs3 & Hok').
  assert (Hs03 : expression_step c c3) by (by etrans).
  destruct ok; simpl.
  2: { apply ret_bool; [done | done |]. intros _. specialize (Hok' eq_refl).
       pose proof (ev_errors _ _ (es_evolves _ _ Hs2)). lia. }
  eapply steps_bind.
  { apply mark_initialized_spec; [|done]. apply (assignable_step c2); [done|].
    by apply (assignable_step c1). }
  intros _ c4 (Hg4 & Hs4 & _). apply ret_bool; [done | by etrans | done].
Qed.

Lemma check_statement_expression_spec e c :
  good store locals globals c ->
  steps (check_statement_expression store type_bool e) c (bool_post c).
Proof.
  intros Hg. destruct e as [target value w|n|n u]; simpl.
  - by apply check_assignment_spec.
  - eapply steps_bind; [by apply check_value_spec|].
    intros [info|] c1 (Hg1 & Hs1 & Hr1); [|by apply ret_bool].
    destruct (contains_resource_by_value _ _); [by apply error_false_after | by apply ret_bool].
  - eapply steps_bind; [by apply check_expression_spec|].
    intros [info|] c1 (Hg1 & Hs1 & Hr1); [|by apply ret_bool].
    destruct (_ || _); [by apply ret_bool|]. destruct (negb u); [by apply ret_bool|].
    by apply error_false_after.
Qed.
End Stores.
