(* ===== verification/FlowTotal.v ===== *)
(** Statements keep the invariant of FlowInvariant.v: [check_node] and [check_function_body]
    return from every context the analyser can be in. *)
From S2P Require Import Prelude Token Types TypeRelations FlowState FlowCheck FlowInvariant.

(** A statement that is not a declaration or a [defer]: it leaves its scope as it is. *)
Definition self_contained (s : Statement) : bool :=
  match s with SVarDecl _ _ _ _ | SDefer _ => false | _ => true end.

(** The parser makes a block or a conditional of what follows [else], and a block or an
    expression statement of what follows [defer].  It takes any statement as the body of a case:
    a bare declaration or [defer] is excluded here (see [case_declaration_aborts]). *)
Fixpoint parsed (s : Statement) : bool :=
  match s with
  | SBlock b => forallb parsed b
  | SVarDecl _ _ _ _ | SExpr _ | SBreak | SContinue | SReturn _ => true
  | SIf _ t e | SCompileIf _ t e =>
      forallb parsed t && match e with Some e => self_contained e && parsed e | None => true end
  | SWhile _ b | SFor _ _ b => forallb parsed b
  | SSwitch _ _ cases => forallb (fun p => self_contained (snd p) && parsed (snd p)) cases
  | SDefer d => match d with SBlock _ | SExpr _ => parsed d | _ => false end
  end.

Section StatementInduction.
Context (P : Statement -> Prop).
Hypothesis (Hblock : forall b, Forall P b -> P (SBlock b)).
Hypothesis (Hdecl : forall x d i t, P (SVarDecl x d i t)).
Hypothesis (Hexpr : forall e, P (SExpr e)).
Hypothesis (Hif : forall c t e, Forall P t -> (forall s, e = Some s -> P s) -> P (SIf c t e)).
Hypothesis (Hcif : forall c t e, Forall P t -> (forall s, e = Some s -> P s) ->
  P (SCompileIf c t e)).
Hypothesis (Hwhile : forall c b, Forall P b -> P (SWhile c b)).
Hypothesis (Hfor : forall c p b, Forall P b -> P (SFor c p b)).
Hypothesis (Hswitch : forall n t cases, Forall (fun p => P (snd p)) cases ->
  P (SSwitch n t cases)).
Hypothesis (Hbreak : P SBreak) (Hcontinue : P SContinue) (Hreturn : forall v, P (SReturn v)).
Hypothesis (Hdefer : forall d, P d -> P (SDefer d)).

Fixpoint Statement_tree_ind (s : Statement) : P s :=
  let all := fix all (b : list Statement) : Forall P b :=
    match b with
    | [] => Forall_nil_2 P
    | s :: b => Forall_cons_2 P s b (Statement_tree_ind s) (all b)
    end in
  let opt := fun e : option Statement =>
    match e return forall s, e = Some s -> P s with
    | Some b => fun s H => match H in _ = o return match o with Some s => P s | None => True end with
                           | eq_refl => Statement_tree_ind b
                           end
    | None => fun s H => match H in _ = o return match o with Some s => P s | None => True end with
                         | eq_refl => I
                         end
    end in
  match s with
  | SBlock b => Hblock b (all b)
  | SVarDecl x d i t => Hdecl x d i t
  | SExpr e => Hexpr e
  | SIf c t e => Hif c t e (all t) (opt e)
  | SCompileIf c t e => Hcif c t e (all t) (opt e)
  | SWhile c b => Hwhile c b (all b)
  | SFor c p b => Hfor c p b (all b)
  | SSwitch n t cases =>
      Hswitch n t cases
        ((fix each (cases : list (option Node * Statement))
            : Forall (fun p => P (snd p)) cases :=
            match cases with
            | [] => Forall_nil_2 _
            | p :: cases => Forall_cons_2 _ p cases (Statement_tree_ind (snd p)) (each cases)
            end) cases)
  | SBreak => Hbreak
  | SContinue => Hcontinue
  | SReturn v => Hreturn v
  | SDefer d => Hdefer d (Statement_tree_ind d)
  end.
End StatementInduction.

Section Statements.
Context (store : TypeStore) (type_bool : TypePtr) {evaluator : ConstantEvaluator}
  (Hbool : is_Some type_bool) (globals : list Scope).

(** The current scope has new symbols, the others are the same. *)
Definition extends (scopes scopes' : list Scope) : Prop :=
  match scopes, scopes' with
  | sc :: rest, sc' :: rest' =>
      rest' = rest /\ flow_count_mark sc' = flow_count_mark sc
      /\ exists new, symbols sc' = new ++ symbols sc
  | [], [] => True
  | _, _ => False
  end.

#[global] Instance extends_preorder : PreOrder extends.
Proof.
  split.
  - intros [|sc rest]; simpl; [done|]. split_and!; [done | done | by exists []].
  - intros [|a x] [|b y] [|c z]; simpl; try done.
    intros (-> & Hm & new & Hn) (-> & Hm' & new' & Hn').
    split_and!; [done | congruence |]. exists (new' ++ new). by rewrite Hn', Hn, app_assoc.
Qed.

Definition statement_post (locals : list Scope) (c c' : SemanticContext) : Prop :=
  exists locals', good store locals' globals c' /\ evolves c c' /\ extends locals locals'.

(** What a block leaves: the scopes and the slots are those before it. *)
Definition scoped_post (locals : list Scope) (c c' : SemanticContext) : Prop :=
  good store locals globals c' /\ block_step c c'
  /\ active_deferred_resources c' = active_deferred_resources c.

Lemma scoped_statement locals c c' : scoped_post locals c c' -> statement_post locals c c'.
Proof. intros (Hg & Hs & _). exists locals. split_and!; [done | apply Hs | reflexivity]. Qed.

Lemma step_scoped locals c c' :
  good store locals globals c' -> expression_step c c' -> scoped_post locals c c'.
Proof. intros Hg Hs. split_and!; [done | by apply expression_block_step | apply Hs]. Qed.

Lemma scoped_trans locals c c1 c2 :
  scoped_post locals c c1 -> scoped_post locals c1 c2 -> scoped_post locals c c2.
Proof. intros (_ & H1 & A1) (Hg & H2 & A2). split_and!; [done | by etrans | congruence]. Qed.

Lemma statement_trans locals locals1 c c1 c2 :
  evolves c c1 -> extends locals locals1 -> statement_post locals1 c1 c2 -> statement_post locals c c2.
Proof.
  intros H1 He (locals2 & Hg & H2 & He'). exists locals2. split_and!; [done | by etrans | by etrans].
Qed.

(** ** Declarations *)

(** The new symbol of a declaration. *)
Definition declared_symbol (x : string) (t : TypePtr) (storage : VariableStorage)
    (c : SemanticContext) : Symbol :=
  mkSymbol x SYMBOL_VARIABLE t storage (owner_id (flow c)) (Some (next_variable_id c)) false.

Definition push_symbol (s : Symbol) (scopes : list Scope) : list Scope :=
  match scopes with
  | sc :: rest => mkScope (s :: symbols sc) (flow_count_mark sc) :: rest
  | [] => []
  end.

Lemma declare_spec locals c x t storage init :
  good store locals globals c -> is_Some t ->
  storage = VARIABLE_STORAGE_LOCAL \/ storage = VARIABLE_STORAGE_PARAMETER ->
  steps (s ← scope_define x SYMBOL_VARIABLE t;
         s ← classify_variable_symbol s storage;
         update_flow (fun f => flow_register_variable store f s init)) c (fun _ c' =>
    let s := declared_symbol x t storage c in
    good store (push_symbol s locals) globals c' /\ evolves c c'
    /\ extends locals (push_symbol s locals) /\ reachable (flow c') = reachable (flow c)
    /\ current_loop c' = current_loop c
    /\ (forall i, mask (flow c') i = if decide (i = next_variable_id c)
                    then (if init then FLOW_DEFINITELY_INITIALIZED
                          else FLOW_DEFINITELY_UNINITIALIZED)
                    else mask (flow c) i)
    /\ active_deferred_resources c' = active_deferred_resources c
    /\ captured_deferred_resources c' = captured_deferred_resources c).
Proof.
  intros Hg Ht Hst. pose proof (g_scopes _ _ _ _ Hg) as Hscopes.
  destruct locals as [|sc rest]; [by destruct (g_nonempty _ _ _ _ Hg)|].
  set (s := declared_symbol x t storage c).
  assert (Hsym : flow_symbol (owner_id (flow c)) s (next_variable_id c))
    by (split_and!; [done | by destruct Hst; [left|right] | apply (g_owner _ _ _ _ Hg) | done | done]).
  destruct (flow_register_spec store (flow c) s (next_variable_id c) init)
    as (f & Hreg & Hwf & Hid & Hcount & Hreach & Hm & Ho);
    [apply (g_flow _ _ _ _ Hg) | done | apply (g_next _ _ _ _ Hg) |].
  set (c' := set_flow f (set_scope (mkScope (s :: symbols sc) (flow_count_mark sc) :: rest ++ globals)
               (set_ids (next_flow_owner_id c) (S (next_variable_id c)) c))).
  exists tt, c'. split.
  { unfold scope_define, scope_define_symbol, classify_variable_symbol, update_newest_symbol,
      update_flow, require, run, get, modify, mbind, M_bind, mret, M_ret. simpl. rewrite Hscopes. simpl.
    destruct (g_owner _ _ _ _ Hg) as [id Hid'].
    unfold c', s, declared_symbol in *.
    destruct Hst as [-> | ->]; simpl; rewrite bool_decide_true by (by eexists); simpl;
      rewrite Hreg; reflexivity. }
  pose proof (g_next _ _ _ _ Hg) as Hnext.
  assert (Hcomp : compatible (count (flow c)) (flow c) f).
  { split; [done|]. intros i Hi. rewrite Ho, decide_False by lia. done. }
  simpl. split_and!; try done.
  - destruct Hg. split; simpl; try done; try (by rewrite Hid).
    + split; [done | apply g_nonempty].
    + lia.
    + destruct g_locals as (Hmark & Hs & Hnd & Hl). rewrite Hcount.
      split_and!; [lia | | |].
      * apply Forall_cons. split.
        -- split_and!; [by rewrite Hid | unfold slot; simpl; lia | unfold slot; simpl; lia | done |].
           unfold slot. simpl. by rewrite Ho, decide_True.
        -- eapply Forall_impl; [exact Hs|]. intros u Hu.
           apply (slot_ok_compatible store (flow c) f _ _ (count (flow c))) in Hu; [| done | done].
           destruct Hu as (? & ? & ? & ?). split_and!; try done; lia.
      * simpl. apply NoDup_cons. split; [|done]. intros Hin.
        apply list_elem_of_fmap in Hin as (u & Hu & Hin). rewrite Forall_forall in Hs.
        destruct (Hs u Hin) as (_ & Hr & _). unfold slot at 1 in Hu. simpl in Hu. lia.
      * by apply (locals_ok_compatible store (flow c) _ _ (count (flow c))).
    + eapply Forall_impl; [exact g_loops|]. intros l. apply loop_ok_compatible; [lia | done].
  - split; simpl; try done; try reflexivity; lia.
  - by exists [s].
Qed.

Lemma error_scoped msg locals c c1 :
  good store locals globals c1 -> expression_step c c1 ->
  steps (semantic_error msg) c1 (fun _ c' => scoped_post locals c c').
Proof.
  intros Hg Hs. eapply steps_mono; [by apply (steps_error store msg)|].
  intros _ c' (Hg' & Hs' & _). apply step_scoped; [done | by etrans].
Qed.

Lemma declared_type_spec locals d c :
  good store locals globals c ->
  steps (declared_type store d) c (fun r c' => good store locals globals c' /\ expression_step c c'
    /\ (r = None -> (errors c < errors c')%nat)
    /\ (forall t, r = Some t -> t = match d with Some (Some t) => Some t | _ => None end)).
Proof.
  intros Hg. unfold declared_type.
  assert (Herr : forall msg, steps (semantic_error msg ;; mret None) c (fun (r : option TypePtr) c' =>
    good store locals globals c' /\ expression_step c c' /\ (r = None -> (errors c < errors c')%nat)
    /\ (forall t, r = Some t -> t = match d with Some (Some t) => Some t | _ => None end))).
  { intros msg. eapply steps_bind; [by apply (steps_error store msg)|]. intros _ c' (Hg' & Hs & He).
    apply steps_ret. split_and!; [done | done | lia | done]. }
  destruct d as [[t|]|].
  - destruct (storable_type store (Some t)); [apply Herr|]. apply steps_ret.
    split_and!; [done | reflexivity | done | by intros ? [= <-]].
  - apply Herr.
  - apply steps_ret. split_and!; [done | reflexivity | done | by intros ? [= <-]].
Qed.

Lemma initialized_type_spec locals t init inferred c :
  good store locals globals c ->
  steps (initialized_type store type_bool t init inferred) c (fun r c' =>
    good store locals globals c' /\ expression_step c c'
    /\ (r = None -> (errors c < errors c')%nat)
    /\ (forall u, r = Some (Some u) -> t = Some u \/ t = None /\ inferred = Some u)).
Proof.
  intros Hg. unfold initialized_type. destruct init as [i|].
  2: { apply steps_ret. split_and!; [done | reflexivity | done |]. intros u [= ->]. by left. }
  destruct t as [t|]; simpl.
  - eapply steps_bind; [by apply check_initializer_spec|]. intros ok c1 (Hg1 & Hs1 & Hok).
    apply steps_ret. split_and!; [done | done | destruct ok; [done | auto] |].
    destruct ok; [|done]. intros ? [= <-]. by left.
  - eapply steps_bind; [by apply check_value_spec|].
    intros [info|] c1 (Hg1 & Hs1 & Hr1); [|by apply steps_ret].
    eapply steps_bind; [by apply transfer_spec|]. intros ok c2 (Hg2 & Hs2 & Hok).
    assert (Hs : expression_step c c2) by (by etrans).
    pose proof (ev_errors _ _ (es_evolves _ _ Hs1)). destruct ok; simpl.
    2: { apply steps_ret. split_and!; [done | done | | done]. intros _. specialize (Hok eq_refl). lia. }
    destruct inferred as [u|].
    + apply steps_ret. split_and!; [done | done | done |]. intros ? [= <-]. by right.
    + eapply steps_bind; [by apply (steps_error store "the type cannot be inferred")|].
      intros _ c3 (Hg3 & Hs3 & He). apply steps_ret.
      pose proof (ev_errors _ _ (es_evolves _ _ Hs2)).
      split_and!; [done | by etrans | lia | done].
Qed.

Lemma check_var_decl_spec locals x d init inferred c :
  good store locals globals c ->
  steps (check_var_decl store type_bool x d init inferred) c (fun _ c' => statement_post locals c c').
Proof.
  intros Hg. unfold check_var_decl.
  eapply steps_bind; [apply (steps_const _ _ (current_scope c)); reflexivity|]. intros ? ? [-> ->].
  assert (Herr : forall msg c1, good store locals globals c1 -> expression_step c c1 ->
            steps (semantic_error msg) c1 (fun _ c' => statement_post locals c c')).
  { intros msg c1 Hg1 Hs1. eapply steps_mono; [by apply error_scoped|].
    intros ? c'. apply scoped_statement. }
  assert (Hret : forall c1, good store locals globals c1 -> expression_step c c1 ->
            steps (mret tt) c1 (fun _ c' => statement_post locals c c')).
  { intros c1 Hg1 Hs1. by apply steps_ret, scoped_statement, step_scoped. }
  destruct (scope_find_local _ _); [by apply Herr|].
  eapply steps_bind; [by apply (declared_type_spec locals)|].
  intros [t|] c1 (Hg1 & Hs1 & _ & _); [|by apply Hret].
  eapply steps_bind; [by apply (initialized_type_spec locals)|].
  intros [u|] c2 (Hg2 & Hs2 & _ & _); [|apply Hret; [done | by etrans]].
  assert (Hs : expression_step c c2) by (by etrans).
  destruct u as [u|]; [|by apply Herr]. destruct (storable_type store (Some u)); [by apply Herr|].
  eapply steps_bind; [apply (steps_const _ _ (function_depth c2)); reflexivity|]. intros ? ? [-> ->].
  rewrite (proj2 (Nat.ltb_lt _ _) (g_function _ _ _ _ Hg2)). simpl.
  eapply steps_mono; [apply (declare_spec locals c2 x (Some u) VARIABLE_STORAGE_LOCAL); eauto|].
  intros _ c3 (Hg3 & He3 & Hx & _).
  eexists. split_and!; [done | etrans; [apply Hs | done] | done].
Qed.

Lemma check_param_decl_spec locals x t c :
  good store locals globals c ->
  steps (check_param_decl store x t) c (fun _ c' => statement_post locals c c').
Proof.
  intros Hg. unfold check_param_decl.
  eapply steps_bind; [apply (steps_const _ _ (current_scope c)); reflexivity|]. intros ? ? [-> ->].
  assert (Herr : forall msg, steps (semantic_error msg) c (fun _ c' => statement_post locals c c')).
  { intros msg. eapply steps_mono; [by apply error_scoped|]. intros ? c'. apply scoped_statement. }
  destruct (scope_find_local _ _); [by apply Herr|]. destruct t as [t|]; [|by apply Herr].
  destruct (invalid_value_type _ _); [by apply Herr|].
  destruct (contains_incomplete_struct_by_value _ _); [by apply Herr|].
  eapply steps_mono; [apply (declare_spec locals c x (Some t) VARIABLE_STORAGE_PARAMETER); eauto|].
  intros _ c1 (Hg1 & He1 & Hx & _). by eexists.
Qed.

(** ** Blocks *)

Abbreviation node s := (check_node store type_bool s).
Abbreviation block b := (check_block (check_node store type_bool) b).

Definition node_ok (s : Statement) : Prop :=
  forall locals c, good store locals globals c ->
    steps (node s) c (fun _ c' => statement_post locals c c').

Definition block_ok (b : list Statement) : Prop :=
  forall locals c, good store locals globals c ->
    steps (block b) c (fun _ c' => scoped_post locals c c').

(** The statements of a block, one after the other. *)
Definition check_statements (diagnose : bool) (b : list Statement) : M unit :=
  each (fun statement =>
    live ← get (fun c => reachable (flow c));
    (if diagnose && negb live
     then semantic_error "unreachable statement" else mret tt) ;;
    node statement) b.

Lemma optional_error_spec locals (b : bool) msg c :
  good store locals globals c ->
  steps (if b then semantic_error msg else mret tt) c (fun _ c' =>
    good store locals globals c' /\ expression_step c c' /\ (b = true -> (errors c < errors c')%nat)
    /\ (b = false -> c' = c)).
Proof.
  intros Hg. destruct b.
  - eapply steps_mono; [by apply (steps_error store msg)|]. intros _ c' (? & ? & ?).
    split_and!; [done | done | lia | done].
  - apply steps_ret. split_and!; [done | reflexivity | done | done].
Qed.

Lemma check_statements_spec diagnose b locals c :
  Forall node_ok b -> good store locals globals c ->
  steps (check_statements diagnose b) c (fun _ c' => statement_post locals c c').
Proof.
  intros Hb. revert locals c. induction Hb as [|s b Hs _ IH]; intros locals c Hg; simpl.
  { apply steps_ret. exists locals. split_and!; [done | reflexivity | reflexivity]. }
  eapply (steps_bind _ _ _ (fun _ c1 => statement_post locals c c1)).
  - eapply steps_bind; [apply (steps_const _ _ (reachable (flow c))); reflexivity|].
    intros ? ? [-> ->]. eapply steps_bind; [by apply (optional_error_spec locals)|].
    intros _ c1 (Hg1 & Hs1 & _). eapply steps_mono; [by apply Hs|]. intros ? c2.
    apply statement_trans; [apply Hs1 | reflexivity].
  - intros _ c1 (locals1 & Hg1 & He1 & Hx1). eapply steps_mono; [by apply IH|]. intros ? c2.
    by apply statement_trans.
Qed.

Lemma push_good locals c :
  good store locals globals c ->
  good store (mkScope [] (count (flow c)) :: locals) globals
    (set_scope (mkScope [] (count (flow c)) :: current_scope c) c).
Proof.
  intros []. split; simpl; try done; [by f_equal | by split; [|apply g_nonempty] |].
  split_and!; [done | by apply Forall_nil_2 | by apply NoDup_nil_2 | done].
Qed.

(** Leaving a scope whose slots start at [n]. *)
Lemma pop_spec c sc locals n :
  good store (sc :: locals) globals c -> locals <> [] -> flow_count_mark sc = n ->
  (forall l, l ∈ current_loop c -> (active_variable_count l <= n)%nat) ->
  steps scope_pop c (fun _ c' => exists f,
    c' = set_scope (locals ++ globals) (set_flow f c) /\ flow_wf f /\ truncated (flow c) n f
    /\ good store locals globals c').
Proof.
  intros Hg Hne Hmark Hloops. unfold scope_pop. pose proof Hg as [].
  eapply steps_bind; [apply (steps_const _ _ (current_scope c)); reflexivity|].
  intros ? ? [-> ->]. rewrite g_scopes. destruct locals as [|sc' rest] eqn:Hlocals; [done|].
  simpl. destruct g_locals as (Hle & Hs & Hnd & Hl). rewrite Hmark in *.
  destruct (flow_truncate_to_spec (flow c) n) as (f & Htr & Hwf & Hf); [done | done |].
  eapply (steps_bind _ _ _ (fun _ c' => c' = set_flow f c)).
  { unfold update_flow. eapply steps_bind; [apply (steps_const _ _ (flow c)); reflexivity|].
    intros ? ? [-> ->]. eapply steps_bind; [by apply steps_run_const|]. intros ? ? [-> ->].
    apply steps_modify_eq. }
  intros _ ? ->. apply steps_modify. exists f. simpl. rewrite g_scopes.
  split_and!; [reflexivity | done | done |].
  pose proof (truncated_compatible _ _ _ Hf) as Hcomp. pose proof Hf as (Hid & Hcount & _).
  split; simpl; try done; try (by rewrite Hid).
  - split; [done | apply g_nonempty].
  - lia.
  - change (locals_ok store f (count f) (sc' :: rest)). rewrite Hcount.
    apply (locals_ok_compatible store (flow c) _ _ n); [done | | done].
    by apply compatible_sym.
  - rewrite Forall_forall in g_loops |- *. intros l Hin. specialize (Hloops l Hin).
    destruct (g_loops l Hin) as (_ & Hb & Hc).
    assert (Hlcomp : compatible (active_variable_count l) (flow c) f).
    { eapply compatible_le; [done | by apply compatible_sym]. }
    split_and!; [lia | |]; intros a Ha.
    + destruct (Hb a Ha) as (? & ? & ? & ?). split_and!; try done. by eapply compatible_trans.
    + destruct (Hc a Ha) as (? & ? & ? & ?). split_and!; try done. by eapply compatible_trans.
Qed.

Lemma loops_active c c' l :
  Forall2 loop_grows (current_loop c) (current_loop c') -> l ∈ current_loop c' ->
  exists l0, l0 ∈ current_loop c /\ active_variable_count l = active_variable_count l0.
Proof.
  intros Hf Hl. apply list_elem_of_lookup in Hl as [i Hi].
  apply (Forall2_lookup_r _ _ _ _ _ Hf) in Hi as (l0 & Hi & Hg & _).
  exists l0. split; [by eapply list_elem_of_lookup_2 | done].
Qed.

(** What happens between the entry of a scope and its end leaves the scopes around it. *)
Lemma scoped_after_pop locals c c1 f saved :
  good store locals globals c ->
  evolves (set_scope (mkScope [] (count (flow c)) :: current_scope c) c) c1 ->
  truncated (flow c1) (count (flow c)) f ->
  good store locals globals (set_scope (locals ++ globals) (set_flow f c1)) ->
  saved = active_deferred_resources c ->
  scoped_post locals c
    (set_defers (defer_depth c1) saved (captured_deferred_resources c1)
       (set_scope (locals ++ globals) (set_flow f c1))).
Proof.
  intros Hg [] Hf Hg' ->. simpl in *. split_and!; [by eapply good_other | |done].
  split; simpl.
  - split; simpl; try done; try reflexivity.
    + destruct Hf as (_ & Hc & _). lia.
    + eapply compatible_trans; [exact ev_flow|]. apply compatible_sym. by apply truncated_compatible.
  - symmetry. apply (g_scopes _ _ _ _ Hg).
  - by destruct Hf as (_ & ? & _).
Qed.

Lemma check_block_spec b : Forall node_ok b -> block_ok b.
Proof.
  intros Hb locals c Hg. unfold check_block.
  eapply steps_bind; [apply (steps_const _ _ (active_deferred_resources c)); reflexivity|].
  intros ? ? [-> ->]. eapply steps_bind; [apply steps_modify_eq|]. intros _ ? ->.
  set (c0 := set_scope _ c). pose proof (push_good _ _ Hg) as Hg0. fold c0 in Hg0.
  eapply steps_bind; [apply (steps_const _ _ (reachable (flow c0))); reflexivity|].
  intros ? ? [-> ->].
  eapply steps_bind; [by eapply (check_statements_spec (reachable (flow c0)) b)|].
  intros _ c1 (locals1 & Hg1 & He1 & Hx1). destruct locals1 as [|sc1 rest]; [done|].
  destruct Hx1 as (-> & Hmark & _). simpl in Hmark.
  eapply steps_bind.
  { apply (pop_spec c1 sc1 locals (count (flow c))); [done | apply (g_nonempty _ _ _ _ Hg) | done |].
    intros l Hl. destruct (loops_active _ _ _ (ev_loops _ _ He1) Hl) as (l0 & Hl0 & ->).
    pose proof (g_loops _ _ _ _ Hg) as Hloops. rewrite Forall_forall in Hloops. by apply Hloops. }
  intros _ c2 (f & -> & Hwf & Hf & Hg2). apply steps_modify. simpl.
  by apply scoped_after_pop.
Qed.

(** ** Branches *)

(** A statement that is checked like a block. *)
Definition scoped_ok (s : Statement) : Prop :=
  forall locals c, good store locals globals c ->
    steps (node s) c (fun _ c' => scoped_post locals c c').

Definition empty_or_node (e : option Statement) : M unit :=
  match e with Some s => node s | None => mret tt end.

Lemma empty_or_node_spec e : (forall s, e = Some s -> scoped_ok s) -> forall locals c,
  good store locals globals c -> steps (empty_or_node e) c (fun _ c' => scoped_post locals c c').
Proof.
  destruct e as [b|]; intros Hb locals c Hg; [by apply (Hb b)|].
  apply steps_ret. split_and!; [done | reflexivity | done].
Qed.

Lemma scoped_flow locals c f :
  good store locals globals c -> fits c f -> scoped_post locals c (set_flow f c).
Proof.
  intros Hg Hf. split_and!; [by apply good_fits | | done].
  apply block_step_flow; apply Hf.
Qed.

Record scoped_step (c c' : SemanticContext) : Prop := {
  ss_block : block_step c c';
  ss_active : active_deferred_resources c' = active_deferred_resources c;
}.

#[global] Instance scoped_step_preorder : PreOrder scoped_step.
Proof. split; [by intros c | intros a b c [] []; split; [by etrans | congruence]]. Qed.

Lemma merge_blocks_spec (m1 m2 : M unit) locals c incoming :
  good store locals globals c -> flow_wf incoming -> incoming ≡ flow c ->
  (forall c, good store locals globals c -> steps m1 c (fun _ c' => scoped_post locals c c')) ->
  (forall c, good store locals globals c -> steps m2 c (fun _ c' => scoped_post locals c c')) ->
  steps (merge_after (count incoming) incoming m1 m2) c (fun _ c' => scoped_post locals c c').
Proof.
  intros Hg Hwf Heq H1 H2. eapply steps_mono.
  { apply (merge_after_spec store locals globals scoped_step false ss_block) with
      (m1 := m1) (m2 := m2) (fails1 := fun _ => False) (fails2 := fun _ => False); try done.
    - intros c1 f Hg1 Hf _. destruct (scoped_flow _ _ _ Hg1 Hf) as (_ & ? & ?). by split.
    - intros c1 Hg1. eapply steps_mono; [by apply H1|]. intros [] c' (? & ? & ?).
      split_and!; [done | by split | done].
    - intros c1 Hg1. eapply steps_mono; [by apply H2|]. intros [] c' (? & ? & ?).
      split_and!; [done | by split | done]. }
  intros [] c' (Hg' & [] & _). by split_and!.
Qed.

(** The check that a condition is boolean. *)
Lemma condition_error_spec locals (cond : option ExprInfo) msg c :
  good store locals globals c ->
  steps (match cond with
         | Some info => if negb (is_bool_type store (info_type info)) then semantic_error msg else mret tt
         | None => mret tt
         end) c (fun _ c' => good store locals globals c' /\ expression_step c c').
Proof.
  intros Hg. destruct cond as [info|]; [|apply steps_ret; by split].
  eapply steps_mono; [by apply (optional_error_spec locals)|]. by intros ? c' (? & ? & _).
Qed.

Lemma check_if_statement_spec cond t e :
  block_ok t -> (forall s, e = Some s -> scoped_ok s) -> forall locals c, good store locals globals c ->
  steps (check_if_statement store type_bool (fun s => node s) cond t e) c (fun _ c' =>
    scoped_post locals c c').
Proof.
  intros Ht He locals c Hg. unfold check_if_statement.
  eapply steps_bind; [by apply check_value_spec|]. intros r c1 (Hg1 & Hs1 & _).
  eapply steps_bind; [by apply (condition_error_spec locals)|]. intros _ c2 [Hg2 Hs2].
  eapply steps_bind; [by eapply ask_clone_spec|]. intros incoming ? (-> & Hwf & Heq).
  eapply steps_bind.
  { apply (merge_blocks_spec (block t) (empty_or_node e) locals); [done | done | done | |].
    - intros c3 Hg3. by apply Ht.
    - by apply empty_or_node_spec. }
  intros ? c3 Hsc. apply steps_ret. eapply scoped_trans; [|exact Hsc].
  apply step_scoped; [done | by etrans].
Qed.

Lemma check_compile_if_spec cond t e :
  block_ok t -> (forall s, e = Some s -> scoped_ok s) -> forall locals c, good store locals globals c ->
  steps (check_compile_if_statement store type_bool (fun s => node s) cond t e) c (fun _ c' =>
    scoped_post locals c c').
Proof.
  intros Ht He locals c Hg. unfold check_compile_if_statement.
  eapply steps_bind; [by apply check_value_spec|].
  intros [info|] c1 (Hg1 & Hs1 & _); [|by apply steps_ret, step_scoped].
  assert (Hafter : forall m : M unit, steps m c1 (fun _ c' => scoped_post locals c1 c') ->
            steps m c1 (fun _ c' => scoped_post locals c c')).
  { intros m Hm. eapply steps_mono; [exact Hm|]. intros ? c'. apply scoped_trans.
    by apply step_scoped. }
  destruct (negb _); [by apply error_scoped|].
  destruct (const_value cond) as [v|]; [|by apply error_scoped].
  destruct (const_value_as v) as [| |[]|]; try by apply error_scoped.
  - by apply Hafter, Ht.
  - apply Hafter. by apply (empty_or_node_spec e).
Qed.

(** ** Loops *)

Lemma enter_good locals c :
  good store locals globals c ->
  good store locals globals
    (set_loops (S (loop_depth c)) (mkLoop (count (flow c)) None None :: current_loop c) c).
Proof.
  intros []. split; simpl; try done; [|by f_equal].
  apply Forall_cons. split; [by split_and!|done].
Qed.

(** The body of a loop is checked between [enter_loop] and [leave_loop]. *)
Definition entered (c : SemanticContext) : SemanticContext :=
  set_loops (S (loop_depth c)) (mkLoop (count (flow c)) None None :: current_loop c) c.

Definition leaving (c : SemanticContext) (l : LoopFlowContext) (ls : list LoopFlowContext)
    : SemanticContext := set_loops (pred (loop_depth c)) ls c.

Lemma leave_post locals c c' l ls :
  good store locals globals c' -> block_step (entered c) c' -> current_loop c' = l :: ls ->
  active_deferred_resources c' = active_deferred_resources c ->
  scoped_post locals c (leaving c' l ls) /\ loop_ok (flow c') l
  /\ active_variable_count l = count (flow c).
Proof.
  intros Hg [[] Hscope Hcount] Hl Hact. simpl in *. pose proof Hg as [].
  rewrite Hl in ev_loops, g_loops, g_depth. simpl in g_depth.
  apply Forall2_cons in ev_loops as [(Hn & _) Hls]. apply Forall_cons in g_loops as [Hok Hoks].
  unfold scoped_post, leaving.
  split_and!; [split; simpl; try done; lia | | done | done | done].
  split; simpl; [|done | done]. split; simpl; try done. by rewrite ev_loop_depth.
Qed.

Lemma validate_spec locals c entry backedge n :
  good store locals globals c -> compatible n entry backedge -> (n <= count entry)%nat ->
  (n <= count backedge)%nat ->
  steps (validate_backedge entry backedge n) c (fun _ c' => good store locals globals c'
    /\ expression_step c c'
    /\ (errors c' = errors c -> reachable backedge = true -> forall i, (i < n)%nat ->
          owner entry i = true -> mask entry i = mask backedge i)
    /\ flow c' = flow c /\ current_loop c' = current_loop c).
Proof.
  intros Hg Hc Hn Hn'. unfold validate_backedge.
  destruct (flow_validate_spec entry backedge n Hc Hn Hn') as (r & Hr & Hspec).
  eapply steps_bind; [by apply steps_run_const|]. intros ? ? [-> ->].
  destruct r as [i|].
  2: { apply steps_ret. split_and!; [done | reflexivity | by intros _; apply Hspec | done | done]. }
  eapply steps_bind; [apply (steps_const _ _ (current_scope c)); reflexivity|]. intros ? ? [-> ->].
  destruct (flow_find_symbol_by_variable_id _ _ _); apply steps_modify;
    (split_and!; [by apply good_error | apply step_error | rewrite errors_error; lia | done | done]).
Qed.

Lemma after_loop_spec locals c l exit always :
  good store locals globals c -> fits c exit -> active_variable_count l = count (flow c) ->
  loop_ok (flow c) l ->
  steps (after_loop l exit always) c (fun _ c' => scoped_post locals c c' /\ errors c' = errors c
    /\ (forall f, break_flow l = Some f -> reachable (flow c') = true
          /\ below (count (flow c)) f (flow c'))
    /\ (always = false -> reachable exit = true -> reachable (flow c') = true
          /\ below (count (flow c)) exit (flow c'))
    /\ current_loop c' = current_loop c).
Proof.
  intros Hg Hfit Hn (Hle & Hb & Hcont). pose proof Hfit as (Hwf & Hcount & Hcomp). unfold after_loop.
  destruct (always && negb (bool_decide (is_Some (break_flow l)))) eqn:Hc.
  - apply andb_true_iff in Hc as [-> Hnone]. apply negb_true_iff, bool_decide_eq_false in Hnone.
    eapply steps_bind; [by apply (restart_spec store locals globals)|].
    intros _ c' (g & -> & Heq & Hg' & Hs). apply steps_modify.
    assert (Hfit' : fits c (set_reachable false g)).
    { destruct Hs as [[] _ ?]. pose proof (g_flow _ _ _ _ Hg') as []. by split_and!. }
    split_and!; [by apply (scoped_flow locals c _ Hg Hfit') | done | | done | done].
    intros f Hf. rewrite Hf in Hnone. destruct Hnone. eauto.
  - destruct (loop_exit_flow_spec l exit always) as (t & Ht & Hwft & Hct & Hcompt & Hexit & Hbr & _);
      [done | lia | | | |].
    + intros a Ha. destruct (Hb a Ha) as (? & ? & ? & ?). split_and!; try done.
      eapply compatible_trans; [done|]. by rewrite Hn.
    + intros ->. simpl in Hc. apply negb_false_iff, bool_decide_eq_true in Hc. done.
    + intros _. lia.
    + eapply steps_bind; [by apply steps_run_const|]. intros ? ? [-> ->]. apply steps_modify.
      assert (Hfit' : fits c t).
      { split_and!; [done | lia |]. eapply compatible_trans; [done|]. rewrite <- Hn.
        by apply compatible_sym. }
      rewrite Hn in *. split_and!; [by apply scoped_flow | done | done | done | done].
Qed.

(** Reading the loop that encloses the current statement. *)
Lemma head_loop_spec c l ls :
  current_loop c = l :: ls ->
  steps (get (fun c => head (current_loop c))) c (fun x c' => x = Some l /\ c' = c).
Proof. intros H. apply steps_const. unfold get. by rewrite H. Qed.

Lemma leave_loop_spec c l ls :
  current_loop c = l :: ls ->
  steps leave_loop c (fun x c' => x = l /\ c' = leaving c l ls).
Proof.
  intros H. unfold leave_loop.
  eapply steps_bind; [apply (steps_const _ _ (current_loop c)); reflexivity|].
  intros ? ? [-> ->]. rewrite H. eapply steps_bind; [apply steps_modify_eq|].
  intros _ ? ->. by apply steps_ret.
Qed.

(** The state at the end of the body, with the states recorded by [continue]. *)
Lemma iteration_spec locals c l ls :
  good store locals globals c -> current_loop c = l :: ls -> active_variable_count l = count (flow c) ->
  returns (loop_iteration_flow l (flow c)) (fun t => fits c t
    /\ (reachable (flow c) = true -> reachable t = true /\ below (count (flow c)) (flow c) t)
    /\ (forall f, continue_flow l = Some f -> reachable t = true /\ below (count (flow c)) f t)).
Proof.
  intros Hg Hl Hn. pose proof (g_loops _ _ _ _ Hg) as Hloops. rewrite Hl in Hloops.
  apply Forall_cons in Hloops as [(Hle & Hb & Hc) _].
  eapply returns_mono; [apply loop_iteration_flow_spec; [apply (g_flow _ _ _ _ Hg) | done | done]|].
  rewrite Hn. intros t (Hwf & Hct & Hcomp & Hr & Hcont & _). split_and!; [|done|done].
  split_and!; [done | done | by apply compatible_sym].
Qed.

(** The state before the body. *)
Lemma enter_spec locals c exit :
  good store locals globals c -> fits c exit ->
  steps (enter_loop (count (flow c)) ;; restart_from exit) c (fun _ c' => exists g,
    c' = set_flow g (entered c) /\ g ≡ exit /\ good store locals globals c'
    /\ block_step (entered c) c').
Proof.
  intros Hg Hfit. eapply steps_bind; [apply steps_modify_eq|]. intros _ ? ->.
  apply (restart_spec store locals globals (entered c) exit); [by apply enter_good | done].
Qed.

Lemma entered_loop c c' : block_step (entered c) c' -> exists l ls, current_loop c' = l :: ls.
Proof.
  intros [[] _ _]. simpl in ev_loops. apply Forall2_cons_inv_l in ev_loops as (l & ls & _ & _ & ->). eauto.
Qed.

(** A condition that is checked before a loop. *)
Definition condition_step (c c' : SemanticContext) : Prop := expression_step c c'.

Lemma check_for_condition_spec locals cond c :
  good store locals globals c ->
  steps (check_for_condition store type_bool cond) c (fun _ c' =>
    good store locals globals c' /\ expression_step c c').
Proof.
  intros Hg. unfold check_for_condition.
  destruct cond as [cond|]; [|apply steps_ret; by split].
  eapply steps_bind; [by apply check_value_spec|].
  intros [info|] c1 (Hg1 & Hs1 & _); [|by apply steps_ret].
  destruct (is_bool_type _ _); [by apply steps_ret|].
  eapply steps_bind; [by apply (steps_error store "for condition must be a boolean expression")|].
  intros _ c2 (Hg2 & Hs2 & _). apply steps_ret. split; [done | by etrans].
Qed.

(** The end of a loop: from the state [c1] behind the body (and the post expression) to the
    state behind the loop. *)
Lemma finish_loop_spec locals c c1 entry exit backedge l ls always :
  good store locals globals c -> good store locals globals c1 ->
  block_step (entered c) c1 -> current_loop c1 = l :: ls ->
  active_deferred_resources c1 = active_deferred_resources c ->
  fits c entry -> fits c exit -> fits c1 backedge ->
  steps (loop ← leave_loop; validate_backedge entry backedge (active_variable_count loop) ;;
         after_loop loop exit always) c1 (fun _ c' => scoped_post locals c c').
Proof.
  intros Hg Hg1 Hs1 Hl Hact He Hx Hbk.
  eapply steps_bind; [by apply (leave_loop_spec c1 l ls)|]. intros ? ? [-> ->].
  destruct (leave_post _ _ _ _ _ Hg1 Hs1 Hl Hact) as (Hsc & Hok & Hn).
  pose proof Hsc as (Hg2 & Hs2 & _).
  pose proof (fits_step _ _ _ Hs2 He) as (_ & Hce & Hcompe).
  destruct Hbk as (Hwfb & Hcb & Hcompb).
  assert (Hcount : count (flow c1) = count (flow c)) by apply (bs_count _ _ Hs2).
  eapply steps_bind.
  { apply (validate_spec locals); [done | | |].
    - rewrite Hn, <- Hcount.
      apply (compatible_trans _ _ (flow c1)); [by apply compatible_sym | done].
    - rewrite Hn. simpl in Hce. lia.
    - lia. }
  intros _ c2 (Hg3 & Hs3 & _ & Hf3 & _).
  assert (Hsc3 : scoped_post locals c c2).
  { eapply scoped_trans; [exact Hsc | by apply step_scoped]. }
  eapply steps_mono.
  { apply (after_loop_spec locals); [done | | |].
    - by eapply fits_step; [apply Hsc3|].
    - rewrite Hf3. simpl. lia.
    - by rewrite Hf3. }
  intros ? c' (Hsc4 & _). by eapply scoped_trans.
Qed.

Lemma check_while_spec cond b :
  block_ok b -> forall locals c, good store locals globals c ->
  steps (check_while_statement store type_bool (fun s => node s) cond b) c (fun _ c' =>
    scoped_post locals c c').
Proof.
  intros Hb locals c Hg. unfold check_while_statement.
  eapply steps_bind; [by eapply ask_clone_spec|]. intros entry ? (-> & Hwfe & Heqe).
  eapply steps_bind; [by apply check_value_spec|]. intros r c1 (Hg1 & Hs1 & _).
  eapply steps_bind; [by apply (condition_error_spec locals)|]. intros _ c2 [Hg2 Hs2].
  assert (Hs : expression_step c c2) by (by etrans).
  eapply steps_bind; [by eapply ask_clone_spec|]. intros exit ? (-> & Hwfx & Heqx).
  pose proof (fits_equiv _ _ Hwfx Heqx) as Hfx.
  assert (Hfe : fits c2 entry).
  { apply (fits_step c); [by apply expression_block_step | by apply fits_equiv]. }
  assert (Hcount : count entry = count (flow c2)) by apply Hfe. rewrite Hcount.
  eapply steps_bind; [apply steps_modify_eq|]. intros _ ? ->.
  eapply steps_bind; [apply (restart_spec store locals globals (entered c2) exit);
                      [by apply enter_good | done]|].
  intros _ c3 (g & -> & Heqg & Hg3 & Hs3).
  eapply steps_bind; [by apply Hb|]. intros ? c4 (Hg4 & Hs4 & Ha4).
  assert (Hs24 : block_step (entered c2) c4) by (by etrans).
  eapply steps_bind; [apply (steps_const _ _ (flow c4)); reflexivity|]. intros ? ? [-> ->].
  destruct (entered_loop _ _ Hs24) as (l & ls & Hl).
  eapply steps_bind; [by eapply head_loop_spec|]. intros ? ? [-> ->].
  destruct (leave_post _ _ _ _ _ Hg4 Hs24 Hl Ha4) as (_ & _ & Hn).
  assert (Hc4 : count (flow c4) = count (flow c2)) by apply (bs_count _ _ Hs24).
  destruct (iteration_spec _ _ _ _ Hg4 Hl ltac:(lia)) as (backedge & Hbk & Hfb & _).
  eapply steps_bind; [by apply steps_run_const|]. intros ? ? [-> ->].
  eapply steps_mono; [by eapply (finish_loop_spec locals c2 c4)|].
  intros ? c5 Hsc. eapply scoped_trans; [by apply (step_scoped locals c c2) | done].
Qed.

Lemma check_for_spec cond post b :
  block_ok b -> forall locals c, good store locals globals c ->
  steps (check_for_statement store type_bool (fun s => node s) cond post b) c (fun _ c' =>
    scoped_post locals c c').
Proof.
  intros Hb locals c Hg. unfold check_for_statement.
  eapply steps_bind; [by eapply ask_clone_spec|]. intros entry ? (-> & Hwfe & Heqe).
  eapply steps_bind; [by apply (check_for_condition_spec locals)|]. intros always c2 [Hg2 Hs].
  eapply steps_bind; [by eapply ask_clone_spec|]. intros exit ? (-> & Hwfx & Heqx).
  pose proof (fits_equiv _ _ Hwfx Heqx) as Hfx.
  assert (Hfe : fits c2 entry).
  { apply (fits_step c); [by apply expression_block_step | by apply fits_equiv]. }
  assert (Hcount : count entry = count (flow c2)) by apply Hfe. rewrite Hcount.
  eapply steps_bind; [apply steps_modify_eq|]. intros _ ? ->.
  eapply steps_bind; [apply (restart_spec store locals globals (entered c2) exit);
                      [by apply enter_good | done]|].
  intros _ c3 (g & -> & Heqg & Hg3 & Hs3).
  eapply steps_bind; [by apply Hb|]. intros ? c4 (Hg4 & Hs4 & Ha4).
  assert (Hs24 : block_step (entered c2) c4) by (by etrans).
  eapply steps_bind; [apply (steps_const _ _ (flow c4)); reflexivity|]. intros ? ? [-> ->].
  destruct (entered_loop _ _ Hs24) as (l & ls & Hl).
  eapply steps_bind; [by eapply head_loop_spec|]. intros ? ? [-> ->].
  destruct (leave_post _ _ _ _ _ Hg4 Hs24 Hl Ha4) as (_ & _ & Hn).
  assert (Hc4 : count (flow c4) = count (flow c2)) by apply (bs_count _ _ Hs24).
  destruct (iteration_spec _ _ _ _ Hg4 Hl ltac:(lia)) as (it & Hit & Hfit & _).
  eapply steps_bind; [by apply steps_run_const|]. intros ? ? [-> ->].
  eapply steps_bind; [apply steps_modify_eq|]. intros _ ? ->.
  destruct (scoped_flow locals c4 it Hg4 Hfit) as (Hg5 & Hs5 & Ha5).
  eapply (steps_bind _ _ _ (fun _ c6 => good store locals globals c6 /\ expression_step (set_flow it c4) c6)).
  { destruct post as [e|]; [|apply steps_ret; by split].
    eapply steps_bind; [by apply check_statement_expression_spec|].
    intros ok c6 (Hg6 & Hs6 & _). by apply steps_ret. }
  intros _ c6 [Hg6 Hs6].
  eapply steps_bind; [apply (steps_const _ _ (flow c6)); reflexivity|]. intros ? ? [-> ->].
  assert (Hl6 : current_loop c6 = l :: ls) by (by rewrite (es_loops _ _ Hs6)).
  assert (Hs26 : block_step (entered c2) c6).
  { etrans; [exact Hs24|]. etrans; [exact Hs5|]. by apply expression_block_step. }
  eapply steps_mono; [eapply (finish_loop_spec locals c2 c6 entry exit (flow c6)); try done|].
  - rewrite (es_active _ _ Hs6). done.
  - by apply (fits_self store locals globals).
  - intros ? c7 Hsc. eapply scoped_trans; [by apply (step_scoped locals c c2) | done].
Qed.

(** ** Switches *)

(** The values collected from the labels have the type of the expression. *)
Definition labels_ok (t : TypePtr) (values : list ConstValue) : Prop :=
  forall ty, deref store t = Some ty -> Forall (case_value_ok t (kind ty)) values.

(** Converting a constant to a type gives a constant of that type. *)
Definition coercion_typed : Prop := forall c t c' ty,
  coerce_constant c t = Some c' -> deref store t = Some ty -> case_value_ok t (kind ty) c'.

Lemma label_spec locals label t valid labels c :
  coercion_typed -> good store locals globals c -> labels_ok t (checked_case_values labels) ->
  steps (check_switch_case_label store type_bool label t valid labels) c (fun labels' c' =>
    good store locals globals c' /\ expression_step c c' /\ labels_ok t (checked_case_values labels')).
Proof.
  intros Hco Hg Hl. unfold check_switch_case_label.
  assert (Herr : forall msg c1, good store locals globals c1 -> expression_step c c1 ->
    steps (semantic_error msg ;; mret labels) c1 (fun labels' c' =>
      good store locals globals c' /\ expression_step c c' /\ labels_ok t (checked_case_values labels'))).
  { intros msg c1 Hg1 Hs1. eapply steps_bind; [by apply (steps_error store msg)|].
    intros _ c2 (Hg2 & Hs2 & _). apply steps_ret. split_and!; [done | by etrans | done]. }
  destruct label as [n|].
  2: { eapply steps_bind; [by apply (optional_error_spec locals)|]. intros _ c1 (Hg1 & Hs1 & _).
       apply steps_ret. by split_and!. }
  eapply steps_bind; [by apply check_value_spec|].
  intros [info|] c1 (Hg1 & Hs1 & _); [|apply steps_ret; by split_and!].
  destruct (negb valid); [apply steps_ret; by split_and!|].
  destruct (negb _); [by apply Herr|].
  destruct (const_value n) as [v|]; [|by apply Herr].
  destruct (coerce_constant v t) as [v'|] eqn:Hv; [|by apply Herr].
  destruct (record_switch_case_value _ _) as [values|] eqn:Hrec; [|by apply Herr].
  apply steps_ret. split_and!; [done | done |]. simpl.
  unfold record_switch_case_value in Hrec. destruct (existsb _ _); [done|]. injection Hrec as <-.
  intros ty Hty. apply Forall_app. split; [by apply Hl|].
  apply Forall_singleton. by eapply Hco.
Qed.

Definition merged_fits (c : SemanticContext) (m : option FlowState) : Prop :=
  forall f, m = Some f -> fits c f.

Lemma switch_cases_spec cases t valid incoming labels m locals c :
  coercion_typed -> Forall (fun p => scoped_ok p.2) cases ->
  good store locals globals c -> fits c incoming -> merged_fits c m ->
  labels_ok t (checked_case_values labels) ->
  steps (check_switch_cases store type_bool (fun s => node s) cases t valid incoming labels m) c
    (fun r c' => scoped_post locals c c' /\ labels_ok t (checked_case_values r.1)
       /\ merged_fits c' r.2).
Proof.
  intros Hco Hcases. revert labels m c.
  induction Hcases as [|[label b] cases Hb _ IH]; intros labels m c Hg Hin Hm Hl; simpl.
  { apply steps_ret. split_and!; [split_and!; [done | reflexivity | done] | done | done]. }
  eapply steps_bind; [by apply (restart_spec store locals globals)|].
  intros _ c1 (g & -> & Heq & Hg1 & Hs1).
  eapply steps_bind; [by apply (label_spec locals)|]. intros labels' c2 (Hg2 & Hs2 & Hl2).
  eapply steps_bind; [by apply Hb|]. intros ? c3 (Hg3 & Hs3 & Ha3).
  assert (Hs03 : block_step c c3).
  { etrans; [exact Hs1|]. etrans; [by apply expression_block_step | done]. }
  assert (Hsc : scoped_post locals c c3).
  { split_and!; [done | done |]. rewrite Ha3, (es_active _ _ Hs2). done. }
  eapply steps_bind; [apply (steps_const _ _ (flow c3)); reflexivity|]. intros ? ? [-> ->].
  pose proof (fits_step _ _ _ Hs03 Hin) as Hin3.
  assert (Hci : count incoming = count (flow c3)) by apply Hin3.
  eapply (steps_bind _ _ _ (fun f c' => c' = c3 /\ fits c3 f)).
  { destruct m as [f|].
    - eapply steps_mono; [apply (steps_merge store locals globals)|].
      + done.
      + eapply fits_step; [done | by apply Hm].
      + by apply (fits_self store locals globals).
      + done.
      + by intros t' ? (-> & ? & _).
    - eapply steps_run; [apply clone_truncated_spec; [apply (g_flow _ _ _ _ Hg3) | lia]|].
      intros t' [Hwf Ht']. split; [done|]. split_and!; [done | | ].
      + destruct Ht' as (_ & ? & _). lia.
      + rewrite <- Hci. apply compatible_sym. by apply truncated_compatible. }
  intros f ? [-> Hf]. eapply steps_mono.
  { apply IH; [done | done | | done]. by intros ? [= <-]. }
  intros r c' (Hsc' & ? & ?). split_and!; [by eapply scoped_trans | done | done].
Qed.

Lemma exhaustive_spec t labels c :
  labels_ok t (checked_case_values labels) ->
  steps (run (switch_case_values_are_exhaustive store t (checked_case_values labels)
                (seen_default labels))) c (fun _ c' => c' = c).
Proof.
  intros Hl. destruct (deref store t) as [ty|] eqn:Hty.
  - destruct (exhaustive_returns store t ty (checked_case_values labels) (seen_default labels))
      as (r & Hr & _); [done | by apply Hl |].
    eapply steps_mono; [by apply steps_run_const|]. by intros ? ? [_ ->].
  - unfold switch_case_values_are_exhaustive. rewrite Hty. exists (seen_default labels), c.
    split; [by destruct (seen_default labels) | done].
Qed.

Lemma check_switch_spec n concrete cases :
  coercion_typed -> Forall (fun p => scoped_ok p.2) cases ->
  forall locals c, good store locals globals c ->
  steps (check_switch_statement store type_bool (fun s => node s) n concrete cases) c (fun _ c' =>
    scoped_post locals c c').
Proof.
  intros Hco Hcases locals c Hg. unfold check_switch_statement.
  eapply steps_bind; [by apply check_value_spec|].
  intros [info|] c1 (Hg1 & Hs1 & _); [|by apply steps_ret, step_scoped].
  set (t := if has_kind store (info_type info) TYPE_UNTYPED_INT then concrete else info_type info).
  destruct (negb (bool_decide (is_Some t))); [by apply error_scoped|].
  eapply steps_bind; [by apply (optional_error_spec locals)|]. intros _ c2 (Hg2 & Hs2 & _).
  eapply steps_bind; [by eapply ask_clone_spec|]. intros incoming ? (-> & Hwf & Heq).
  pose proof (fits_equiv _ _ Hwf Heq) as Hin.
  assert (Hs : scoped_post locals c c2) by (by apply step_scoped; [|etrans]).
  eapply steps_bind.
  { apply (switch_cases_spec cases t (is_switchable_type store t) incoming (mkLabels [] false) None locals);
      try done. intros ty _. apply Forall_nil_2. }
  intros [labels m] c3 (Hsc & Hl & Hm). simpl in Hl, Hm.
  pose proof (scoped_trans _ _ _ _ Hs Hsc) as Hsc3. pose proof Hsc as (Hg3 & Hs3 & _).
  pose proof (fits_step _ _ _ Hs3 Hin) as Hin3.
  assert (Hset : forall f, fits c3 f -> steps (modify (set_flow f)) c3 (fun _ c' => scoped_post locals c c')).
  { intros f Hf. apply steps_modify. eapply scoped_trans; [exact Hsc3 | by apply scoped_flow]. }
  destruct m as [f|]; [|by apply Hset].
  eapply steps_bind; [by apply exhaustive_spec|]. intros e ? ->.
  destruct e; [by apply Hset, Hm|].
  eapply steps_bind.
  { apply (steps_merge store locals globals); [done | by apply Hm | done | apply Hin3]. }
  intros f' ? (-> & Hf' & _). by apply Hset.
Qed.

(** ** Jumps *)

Lemma record_spec (record : LoopFlowContext -> FlowState -> outcome (LoopFlowContext * FlowState)) msg1 msg2
    locals c :
  (forall l f, flow_wf f -> loop_ok f l -> returns (record l f) (fun r =>
     r.2 = set_reachable false f /\ loop_grows l r.1 /\ loop_ok f r.1)) ->
  good store locals globals c ->
  steps (check_loop_exit record msg1 msg2) c (fun _ c' => scoped_post locals c c').
Proof.
  intros Hrec Hg. unfold check_loop_exit.
  eapply steps_bind; [apply (steps_const _ _ (defer_depth c)); reflexivity|]. intros ? ? [-> ->].
  eapply steps_bind; [apply (steps_const _ _ (loop_depth c)); reflexivity|]. intros ? ? [-> ->].
  destruct (0 <? _)%nat; [by apply error_scoped|].
  destruct (Nat.eqb_spec (loop_depth c) 0) as [|Hd]; [by apply error_scoped|].
  eapply steps_bind; [apply (steps_const _ _ (current_loop c)); reflexivity|]. intros ? ? [-> ->].
  eapply steps_bind; [apply (steps_const _ _ (flow c)); reflexivity|]. intros ? ? [-> ->].
  pose proof (g_depth _ _ _ _ Hg) as Hdepth. pose proof (g_loops _ _ _ _ Hg) as Hloops.
  destruct (current_loop c) as [|l ls] eqn:Hl; [done|]. apply Forall_cons in Hloops as [Hok Hoks].
  destruct (Hrec l (flow c) (g_flow _ _ _ _ Hg) Hok) as ([l' f] & Hr & Hf & Hgrows & Hok').
  simpl in Hf, Hgrows, Hok'. subst f.
  eapply steps_bind; [by apply steps_run_const|]. intros ? ? [-> ->].
  apply steps_modify.
  assert (Hg1 : good store locals globals (set_loops (loop_depth c) (l' :: ls) c)).
  { apply good_loops; [done | by apply Forall_cons | by rewrite Hl]. }
  split_and!; [| |done].
  - apply (good_fits store locals globals _ _ Hg1).
    by apply (fits_reachable store locals globals _ false Hg1).
  - split; simpl; try done. split; simpl; try done; try reflexivity.
    rewrite Hl. apply Forall2_cons. split; [done | reflexivity].
Qed.

Lemma loop_ok_active (l : LoopFlowContext) f : loop_ok f l -> (active_variable_count l <= count f)%nat.
Proof. by intros []. Qed.

Lemma record_break_spec l f :
  flow_wf f -> loop_ok f l -> returns (loop_record_break l f) (fun r =>
    r.2 = set_reachable false f /\ loop_grows l r.1 /\ loop_ok f r.1).
Proof.
  intros Hwf (Hle & Hb & Hc). unfold loop_record_break.
  eapply returns_bind; [by apply flow_accumulate_spec|]. intros acc (Hacc & Hgr & _).
  apply returns_ret. split_and!; [done | split_and!; [done | done | reflexivity] | by split_and!].
Qed.

Lemma record_continue_spec l f :
  flow_wf f -> loop_ok f l -> returns (loop_record_continue l f) (fun r =>
    r.2 = set_reachable false f /\ loop_grows l r.1 /\ loop_ok f r.1).
Proof.
  intros Hwf (Hle & Hb & Hc). unfold loop_record_continue.
  eapply returns_bind; [by apply flow_accumulate_spec|]. intros acc (Hacc & Hgr & _).
  apply returns_ret. split_and!; [done | split_and!; [done | reflexivity | done] | by split_and!].
Qed.

Lemma check_return_spec v locals c :
  good store locals globals c ->
  steps (check_return store type_bool v) c (fun _ c' => scoped_post locals c c').
Proof.
  intros Hg. unfold check_return.
  eapply steps_bind; [apply (steps_const _ _ (defer_depth c)); reflexivity|]. intros ? ? [-> ->].
  eapply steps_bind; [apply (steps_const _ _ (function_depth c)); reflexivity|]. intros ? ? [-> ->].
  destruct (0 <? _)%nat; [by apply error_scoped|].
  destruct (_ =? 0)%nat; [by apply error_scoped|].
  eapply steps_bind; [apply steps_modify_eq|]. intros _ ? ->.
  assert (Hsc : scoped_post locals c (set_flow (set_reachable false (flow c)) c)).
  { apply scoped_flow; [done|]. by apply (fits_reachable store locals globals). }
  set (c1 := set_flow _ c) in *. pose proof Hsc as (Hg1 & _ & _).
  assert (Herr : forall msg, steps (semantic_error msg) c1 (fun _ c' => scoped_post locals c c')).
  { intros msg. eapply steps_mono; [by apply (error_scoped msg locals c1 c1)|].
    intros ? c'. by apply scoped_trans. }
  eapply steps_bind; [apply (steps_const _ _ (current_return_type c1)); reflexivity|].
  intros ? ? [-> ->]. destruct (current_return_type c1) as [t|] eqn:Ht; [|apply Herr].
  destruct v as [v|]; destruct (has_kind _ _ _); try apply Herr.
  - eapply steps_bind; [by apply check_initializer_spec|]. intros ok c2 (Hg2 & Hs2 & _).
    apply steps_ret. eapply scoped_trans; [exact Hsc | by apply step_scoped].
  - by apply steps_ret.
Qed.

(** ** Deferred statements *)

Lemma uses_activate captured active : uses_grow active (activate captured active).
Proof.
  revert active. induction captured as [|s captured IH]; intros active; simpl; [reflexivity|].
  destruct (deferred_resource_list_contains active s) eqn:Hs; [apply IH|].
  etrans; [|apply IH]. intros u Hu. rewrite contains_cons, Hu. apply orb_true_r.
Qed.

Definition deferring (c : SemanticContext) : SemanticContext :=
  set_defers (S (defer_depth c)) (active_deferred_resources c) [] c.

Lemma check_defer_spec d locals c :
  (forall locals c, good store locals globals c ->
     steps (node d) c (fun _ c' => scoped_post locals c c')) ->
  good store locals globals c ->
  steps (check_defer (fun s => node s) d) c (fun _ c' => good store locals globals c'
    /\ block_step c c').
Proof.
  intros Hd Hg. unfold check_defer.
  assert (Herr : forall msg, steps (semantic_error msg) c (fun _ c' => good store locals globals c'
      /\ block_step c c')).
  { intros msg. eapply steps_mono; [by apply (error_scoped msg locals c c)|].
    by intros ? c' (? & ? & _). }
  eapply steps_bind; [apply (steps_const _ _ (function_depth c)); reflexivity|]. intros ? ? [-> ->].
  eapply steps_bind; [apply (steps_const _ _ (defer_depth c)); reflexivity|]. intros ? ? [-> ->].
  destruct (_ =? 0)%nat; [apply Herr|]. destruct (0 <? _)%nat; [apply Herr|].
  eapply steps_bind; [by eapply ask_clone_spec|]. intros saved ? (-> & Hwf & Heq).
  eapply steps_bind; [apply (steps_const _ _ (captured_deferred_resources c)); reflexivity|].
  intros ? ? [-> ->]. eapply steps_bind; [apply steps_modify_eq|]. intros _ ? ->. fold (deferring c).
  eapply steps_bind; [apply (Hd locals); by eapply good_other|]. intros ? c1 (Hg1 & Hs1 & Ha1).
  eapply steps_bind; [apply steps_modify_eq|]. intros _ ? ->.
  eapply steps_bind; [apply steps_modify_eq|]. intros _ ? ->.
  apply steps_modify. simpl in *.
  assert (Hfit : fits c1 saved).
  { eapply fits_step; [exact Hs1|]. apply fits_equiv; [done|]. exact Heq. }
  split.
  - eapply good_other; [by apply (good_fits store locals globals c1)|..]; done.
  - destruct Hs1 as [[] Hscope Hcount]. destruct Hfit as (_ & Hc & Hcomp). simpl in *.
    split; simpl; [|done|congruence]. split; simpl; try done.
    + lia.
    + apply equiv_compatible. by symmetry.
    + by rewrite ev_defer.
    + rewrite Ha1. apply uses_activate.
Qed.

(** ** Every statement *)

Lemma forall_parsed (Q : Statement -> Prop) b :
  Forall (fun s => parsed s = true -> Q s) b -> forallb parsed b = true -> Forall Q b.
Proof.
  rewrite forallb_forall, !Forall_forall. intros H Hp s Hs. apply H; [done|]. apply Hp.
  by apply list_elem_of_In.
Qed.

Lemma parsed_block b :
  Forall (fun s => parsed s = true -> node_ok s) b -> forallb parsed b = true -> block_ok b.
Proof. intros H Hp. by apply check_block_spec, forall_parsed. Qed.

Lemma scoped_node_ok s : scoped_ok s -> node_ok s.
Proof.
  intros H locals c Hg. eapply steps_mono; [by apply H|]. intros ? c'. apply scoped_statement.
Qed.

Lemma expr_scoped_ok e : scoped_ok (SExpr e).
Proof.
  intros locals c Hg. cbn [check_node].
  eapply steps_bind; [by apply check_statement_expression_spec|]. intros ok c1 (Hg1 & Hs1 & _).
  by apply steps_ret, step_scoped.
Qed.

Context (Hcoerce : coercion_typed).

Definition statement_ok (s : Statement) : Prop :=
  node_ok s /\ (self_contained s = true -> scoped_ok s).

Lemma parsed_nodes b :
  Forall (fun s => parsed s = true -> statement_ok s) b ->
  Forall (fun s => parsed s = true -> node_ok s) b.
Proof. intros H. eapply Forall_impl; [exact H|]. intros s Hs Hp. by apply Hs. Qed.

Lemma parsed_branches t e :
  Forall (fun s => parsed s = true -> statement_ok s) t ->
  (forall s, e = Some s -> parsed s = true -> statement_ok s) ->
  forallb parsed t && match e with Some e => self_contained e && parsed e | None => true end = true ->
  block_ok t /\ (forall s, e = Some s -> scoped_ok s).
Proof.
  intros Ht He [Hp Hq]%andb_true_iff. split; [by apply parsed_block, Hp; apply parsed_nodes|].
  intros s ->. apply andb_true_iff in Hq as [Hs Hq]. by apply (He s).
Qed.

Lemma check_node_ok s : parsed s = true -> statement_ok s.
Proof.
  assert (Hone : forall s, scoped_ok s -> statement_ok s).
  { intros s' Hs. split; [by apply scoped_node_ok | by destruct s']. }
  induction s as [b IH|x d i t|e|cond t e IHt IHe|cond t e IHt IHe|cond b IH|cond p b IH|n t cases IH
                 | | |v|d IH] using Statement_tree_ind; cbn [parsed]; intros Hp.
  - apply Hone. intros locals c. apply parsed_block; [by apply parsed_nodes | done].
  - split; [|done]. intros locals c Hg. by apply check_var_decl_spec.
  - apply Hone, expr_scoped_ok.
  - destruct (parsed_branches t e IHt IHe Hp). apply Hone.
    intros locals c. by apply check_if_statement_spec.
  - destruct (parsed_branches t e IHt IHe Hp). apply Hone.
    intros locals c. by apply check_compile_if_spec.
  - apply Hone. intros locals c. apply check_while_spec, parsed_block; [by apply parsed_nodes | done].
  - apply Hone. intros locals c. apply check_for_spec, parsed_block; [by apply parsed_nodes | done].
  - apply Hone. intros locals c. apply check_switch_spec; [done|].
    rewrite forallb_forall in Hp. rewrite Forall_forall in IH |- *. intros p Hin.
    destruct (proj1 (andb_true_iff _ _) (Hp p (proj1 (list_elem_of_In _ _) Hin))). by apply (IH p).
  - apply Hone. intros locals c. apply record_spec, record_break_spec.
  - apply Hone. intros locals c. apply record_spec, record_continue_spec.
  - apply Hone. intros locals c. apply check_return_spec.
  - split; [|done]. intros locals c Hg. eapply steps_mono.
    { apply (check_defer_spec d locals); [|done]. intros locals' c' Hg'.
      destruct d; try done; by apply IH. }
    intros ? c' [Hg' Hs']. exists locals. split_and!; [done | apply Hs' | reflexivity].
Qed.

(** ** Functions *)

Lemma params_spec params locals c :
  good store locals globals c ->
  steps (each (fun p => check_param_decl store p.1 p.2) params) c (fun _ c' =>
    statement_post locals c c').
Proof.
  revert locals c. induction params as [|p params IH]; intros locals c Hg; simpl.
  { apply steps_ret. exists locals. split_and!; [done | reflexivity | reflexivity]. }
  eapply steps_bind; [by apply check_param_decl_spec|]. intros ? c1 (locals1 & Hg1 & He1 & Hx1).
  eapply steps_mono; [by apply IH|]. intros ? c2. by apply statement_trans.
Qed.

(** The check of a parameter does not read the depth of functions. *)
Lemma param_depth x t n c :
  check_param_decl store x t (set_function_depth n c)
  = match check_param_decl store x t c with
    | Returned (u, c') => Returned (u, set_function_depth n c')
    | Aborted => Aborted
    end.
Proof.
  unfold check_param_decl, scope_define, scope_define_symbol, classify_variable_symbol,
    update_newest_symbol, update_flow, require, run, get, modify, semantic_error, mbind, M_bind,
    mret, M_ret. simpl.
  destruct (scope_find_local _ _); [done|]. destruct t as [t|]; [|done].
  destruct (invalid_value_type _ _); [done|].
  destruct (contains_incomplete_struct_by_value _ _); [done|]. simpl.
  destruct (current_scope c); [done|]. simpl. destruct (bool_decide _); [|done]. simpl.
  destruct (flow_register_variable _ _ _ _); done.
Qed.

(** A context between two declarations of a module: no function is being checked. *)
Record outside (c : SemanticContext) : Prop := {
  o_scopes : current_scope c = globals;
  o_nonempty : globals <> [];
  o_globals : Forall (fun sc => Forall (fun s =>
                symbol_has_flow_state (Some s) = Returned false) (symbols sc)) globals;
  o_loops : current_loop c = [] /\ loop_depth c = 0%nat;
}.

(** The context in which the parameters of a function are checked. *)
Definition function_entry (c : SemanticContext) : SemanticContext :=
  set_scope (mkScope [] 0 :: current_scope c)
    (set_flow (flow_init (Some (next_flow_owner_id c)))
       (set_ids (S (next_flow_owner_id c)) 0 c)).

(** The context in which its body is checked. *)
Definition body_context (rt : TypePtr) (c : SemanticContext) : SemanticContext :=
  set_function_depth (S (function_depth c))
    (set_return_type rt (set_defers 0 [] [] (set_loops 0 [] c))).

Lemma entry_good c n :
  outside c -> (0 < n)%nat ->
  good store [mkScope [] 0] globals (set_function_depth n (function_entry c)).
Proof.
  intros [Hs Hne Hg [Hl Hd]] Hn. split; simpl; try done.
  - by rewrite Hs.
  - eapply Forall_impl; [exact Hg|]. intros sc Hsc. eapply Forall_impl; [exact Hsc|].
    intros s Hns. by exists false.
  - split_and!; [lia | by apply Forall_nil_2 | by apply NoDup_nil_2 | done].
  - by rewrite Hl.
  - by rewrite Hl.
Qed.

Lemma params_depth params n c c1 :
  each (fun p => check_param_decl store p.1 p.2) params (set_function_depth n c)
    = Returned (tt, c1) ->
  exists c2, each (fun p => check_param_decl store p.1 p.2) params c = Returned (tt, c2)
    /\ c1 = set_function_depth n c2.
Proof.
  revert c. induction params as [|p params IH]; intros c H; simpl in *.
  - injection H as <-. by exists c.
  - unfold mbind, M_bind in *. rewrite param_depth in H.
    destruct (check_param_decl _ _ _ c) as [[u c']|]; [|done]. by apply IH.
Qed.

Lemma params_function_depth params c c1 :
  each (fun p => check_param_decl store p.1 p.2) params c = Returned (tt, c1) ->
  function_depth c1 = function_depth c.
Proof.
  intros H. destruct (params_depth params (function_depth c) c c1) as (c2 & Hc2 & ->); [|done].
  rewrite <- H. f_equal. by destruct c.
Qed.

(** The parameters, and the invariant when the body is entered. *)
Lemma parameters_spec params rt c :
  outside c ->
  steps (each (fun p => check_param_decl store p.1 p.2) params) (function_entry c) (fun _ c1 =>
    exists sc, good store [sc] globals (body_context rt c1)
      /\ flow_count_mark sc = 0%nat /\ evolves (function_entry c) c1).
Proof.
  intros Hc. destruct (params_spec params _ _ (entry_good c 1 Hc ltac:(lia)))
    as ([] & c1 & Hrun & locals1 & Hg1 & He1 & Hx1).
  destruct (params_depth _ _ _ _ Hrun) as (c2 & Hrun2 & ->).
  exists tt, c2. split; [done|]. destruct locals1 as [|sc rest]; [done|].
  destruct Hx1 as (-> & Hmark & _). exists sc. split_and!; [|done|].
  - destruct Hg1. split; simpl in *; try done. lia.
  - destruct He1. split; simpl in *; try done.
    pose proof (params_function_depth params _ _ Hrun2) as H. done.
Qed.

(** Leaving the scope of the parameters. *)
Lemma pop_last_spec c sc :
  current_scope c = sc :: globals -> globals <> [] -> flow_wf (flow c) ->
  (flow_count_mark sc <= count (flow c))%nat ->
  steps scope_pop c (fun _ c' => exists f, c' = set_scope globals (set_flow f c)).
Proof.
  intros Hscopes Hne Hwf Hle. unfold scope_pop.
  eapply steps_bind; [apply (steps_const _ _ (current_scope c)); reflexivity|].
  intros ? ? [-> ->]. rewrite Hscopes.
  destruct globals as [|sc' rest] eqn:Hglobals; [done|].
  destruct (flow_truncate_to_spec (flow c) (flow_count_mark sc)) as (f & Htr & _);
    [done | done |].
  eapply (steps_bind _ _ _ (fun _ c' => c' = set_flow f c)).
  { unfold update_flow. eapply steps_bind; [apply (steps_const _ _ (flow c)); reflexivity|].
    intros ? ? [-> ->]. eapply steps_bind; [by apply steps_run_const|]. intros ? ? [-> ->].
    apply steps_modify_eq. }
  intros _ ? ->. apply steps_modify. exists f. simpl. by rewrite Hscopes.
Qed.

(** What the check of a function leaves of the context. *)
Record restores (c c' : SemanticContext) : Prop := {
  r_outside : outside c';
  r_flow : flow c' = flow c;
  r_depths : function_depth c' = function_depth c /\ defer_depth c' = defer_depth c;
  r_return : current_return_type c' = current_return_type c;
  r_defers : active_deferred_resources c' = active_deferred_resources c
             /\ captured_deferred_resources c' = captured_deferred_resources c;
  r_variable : next_variable_id c' = next_variable_id c;
  r_errors : (errors c <= errors c')%nat;
}.

Lemma function_body_spec params rt body c :
  outside c -> forallb parsed body = true ->
  steps (check_function_body store type_bool params rt body) c (fun _ c' => restores c c').
Proof.
  intros Hc Hbody. unfold check_function_body.
  eapply steps_bind; [apply (steps_const _ _ c); reflexivity|]. intros ? ? [-> ->].
  eapply steps_bind; [apply steps_modify_eq|]. intros _ ? ->.
  eapply steps_bind; [apply steps_modify_eq|]. intros _ ? ->.
  eapply steps_bind; [exact (parameters_spec params rt c Hc)|].
  intros ? c1 (sc & Hg1 & Hmark & He1).
  eapply steps_bind; [apply steps_modify_eq|]. intros _ ? ->. fold (body_context rt c1).
  eapply steps_bind.
  { destruct (check_node_ok (SBlock body)) as [_ H]; [by apply Hbody|]. by apply (H eq_refl [sc]). }
  intros ? c2 (Hg2 & Hs2 & Ha2).
  eapply steps_bind; [apply (steps_const _ _ (reachable (flow c2))); reflexivity|].
  intros ? ? [-> ->]. eapply steps_bind; [by apply (optional_error_spec [sc])|].
  intros _ c3 (Hg3 & Hs3 & _).
  eapply steps_bind; [apply steps_modify_eq|]. intros _ ? ->.
  eapply steps_bind.
  { apply (pop_last_spec _ sc); simpl.
    - apply (g_scopes _ _ _ _ Hg3).
    - apply Hc.
    - apply (g_flow _ _ _ _ Hg3).
    - by destruct (g_locals _ _ _ _ Hg3). }
  intros _ c5 (f5 & ->). apply steps_modify.
  destruct Hc as [Hsc Hne Hgl [Hl Hd]]. split; simpl; try done.
  pose proof (ev_errors _ _ He1). pose proof (ev_errors _ _ (bs_evolves _ _ Hs2)).
  pose proof (ev_errors _ _ (es_evolves _ _ Hs3)). unfold errors in *. simpl in *. lia.
Qed.
End Statements.

(** ** The claim *)


(** A store with a resource and an evaluator that knows literals. *)
Definition program_resource : Type_ :=
  {| kind := TYPE_STRUCT; element := None; pointer_access := POINTER_ACCESS_MUTABLE;
     pointer_is_volatile := false; array_size := -1; named_module := "";
     named_name := ""; type_arguments := []; struct_name := "File";
     fields := []; struct_is_repr_c := false; struct_is_resource := true;
     struct_repr_c_packed := false; struct_repr_c_align := 0;
     struct_is_union := false; struct_is_incomplete := false; parameters := [];
     return_type := None; function_abi := FUNCTION_ABI_COGLET;
     function_call_conv := C_CALL_DEFAULT; function_is_variadic := false;
     enum_name := ""; enum_is_repr_c := false; enum_backing_type := None;
     enum_members := [] |}.

Definition program_types : TypeStore :=
  [type_of_kind TYPE_BOOL; program_resource; type_of_kind TYPE_VOID; type_of_kind TYPE_S32].

Definition a_bool : TypePtr := Some 0%nat.
Definition a_resource : TypePtr := Some 1%nat.
Definition a_void : TypePtr := Some 2%nat.
Definition an_s32 : TypePtr := Some 3%nat.

#[global] Instance literal_evaluator : ConstantEvaluator := {|
  const_value n := match n with
                   | NOperation _ (Some (mkConstValue t (CONST_VALUE_BOOL b))) [] =>
                       Some (mkConstValue t (CONST_VALUE_BOOL b))
                   | _ => None
                   end;
  coerce_constant c t :=
    match const_value_as c with
    | CONST_VALUE_BOOL b =>
        if bool_decide (t = a_bool) then Some (mkConstValue t (CONST_VALUE_BOOL b)) else None
    | _ => None
    end
|}.

Lemma sample_coercion : coercion_typed program_types.
Proof.
  intros [t v] p c' ty Hc Hty. simpl in Hc. destruct v; try discriminate.
  case_bool_decide; [|discriminate]. subst p. injection Hc as <-. injection Hty as <-.
  split; [reflexivity | by exists b].
Qed.

(** Calls and literals of the samples. *)
Definition call (t : nat) (operands : list Node) : Node :=
  NOperation (Some (t, VALUE_CATEGORY_RVALUE)) None operands.
Definition truth (b : bool) : Node :=
  NOperation (Some (0%nat, VALUE_CATEGORY_RVALUE))
    (Some (mkConstValue a_bool (CONST_VALUE_BOOL b))) [].
Definition make : Initializer := mkInitializer (call 1 []) true.
Definition perform (n : Node) : Statement := SExpr (EValue n false).

Definition sample_context : SemanticContext :=
  mkContext [] [mkScope [] 0] 0 [] 0 0 [] [] 0 0 (flow_init None) None.

(** An owner that a loop moves and restores, a [switch] on a boolean, and a deferred call. *)
Definition sample_body : list Statement :=
  [ SVarDecl "f" (Some a_resource) (Some make) None;
    SWhile (NIdent "go")
      [ perform (call 2 [NMove (NIdent "f")]);
        SExpr (EAssign (NIdent "f") make true);
        SIf (call 0 []) [SBreak] (Some SContinue) ];
    SSwitch (NIdent "go") None
      [ (Some (truth true), perform (call 2 [NIdent "f"])); (Some (truth false), SBlock []) ];
    SDefer (perform (call 2 [NIdent "f"]));
    SReturn (Some (mkInitializer (call 3 []) true)) ].

Lemma sample_outside : outside [mkScope [] 0] sample_context.
Proof. split; [done | done | by repeat constructor | done]. Qed.


(** The new diagnostics of the check of a body. *)
Definition sample_diagnostics params rt body : option (list string) :=
  match check_function_body program_types a_bool params rt body sample_context with
  | Returned (_, c) => Some (diagnostics c)
  | Aborted => None
  end.

Example sample_accepted : sample_diagnostics [("go"%string, a_bool)] an_s32 sample_body = Some [].
Proof. vm_compute. reflexivity. Qed.

(** A bare declaration as the body of a case leaves its name in the scope around the [switch]
    and gives up its slot: the next use of the name fails an assertion. *)
Example case_declaration_aborts :
  sample_diagnostics [("go"%string, a_bool)] a_void
    [ SSwitch (NIdent "go") None
        [ (Some (truth true), SVarDecl "x" (Some a_bool) (Some (mkInitializer (truth true) true)) None);
          (None, SBlock []) ];
      perform (NIdent "x") ] = None.
Proof. vm_compute. reflexivity. Qed.

(** Without the assignment the loop would move [f] twice. *)
Example sample_rejected :
  sample_diagnostics [("go"%string, a_bool)] a_void
    [ SVarDecl "f" (Some a_resource) (Some make) None;
      SWhile (NIdent "go") [perform (call 2 [NMove (NIdent "f")])] ]
  = Some ["resource '%.*s' changes ownership state on a loop backedge; restore it to its loop-entry state before the next iteration"%string].
Proof. vm_compute. reflexivity. Qed.
