(* ===== verification/FlowRun.v ===== *)
(** Execution of the tree of FlowCheck.v, as far as definite assignment and ownership go.

    A run-time variable is live when it holds a value: after its initialisation and, for the
    owner of a resource, until it is moved from.  Reading a variable that is not live and
    overwriting a live owner are faults.  The value of a leaf is any value, or the one the
    constant evaluator knows, so a condition may go either way unless it is constant; a [switch]
    runs any of its cases, or none when no label has the value of the expression, a value of the
    type compared, and there is no default.  Deferred statements run when their block is left, whatever way it is
    left, the last one first, and see the variables declared before them. *)
From S2P Require Import Prelude Token Types IntegerValue TypeRelations FlowState FlowCheck.

Inductive Value : Set :=
| VConst (c : ConstValueAs)
| VObject.

Record Cell : Set := mkCell {
  var_type : TypePtr;
  live : bool;
}.

Abbreviation Frame := (list (string * Cell)).
Abbreviation Environment := (list Frame).

Definition frame_lookup (f : Frame) (x : string) : option Cell :=
  snd <$> List.find (fun p => String.eqb (fst p) x) f.

Fixpoint lookup_variable (env : Environment) (x : string) : option Cell :=
  match env with
  | [] => None
  | f :: env =>
      match frame_lookup f x with
      | Some v => Some v
      | None => lookup_variable env x
      end
  end.

Fixpoint frame_set (f : Frame) (x : string) (b : bool) : Frame :=
  match f with
  | [] => []
  | (y, v) :: f =>
      if String.eqb y x then (y, mkCell (var_type v) b) :: f else (y, v) :: frame_set f x b
  end.

(** The nearest variable of that name becomes live or dead. *)
Fixpoint set_live (env : Environment) (x : string) (b : bool) : Environment :=
  match env with
  | [] => []
  | f :: env =>
      match frame_lookup f x with
      | Some _ => frame_set f x b :: env
      | None => f :: set_live env x b
      end
  end.

Definition declare (env : Environment) (x : string) (v : Cell) : Environment :=
  match env with
  | [] => [[(x, v)]]
  | f :: env => ((x, v) :: f) :: env
  end.

Inductive Completion : Set := Normal | Broken | Continued | Left_function | Faulted.

#[global] Instance Completion_eq_dec : EqDecision Completion.
Proof. solve_decision. Defined.

(** The type of a declaration: as written, or as inferred. *)
Definition declaration_type (declared : option TypePtr) (inferred : TypePtr) : TypePtr :=
  match declared with Some (Some t) => Some t | _ => inferred end.

Section Run.
Context (store : TypeStore) (type_bool : TypePtr) (globals : list Scope)
  {evaluator : ConstantEvaluator}.

(** The values of a type: a boolean type has booleans, an enumeration its members' values. *)
Definition inhabits (t : TypePtr) (v : Value) : Prop :=
  forall ty, deref store t = Some ty ->
    match kind ty with
    | TYPE_BOOL => exists b, v = VConst (CONST_VALUE_BOOL b)
    | TYPE_ENUM =>
        exists i m, v = VConst (CONST_VALUE_INT i) /\ m ∈ enum_members ty
          /\ integer_values_equal i (em_value m) = true
    | _ => True
    end.

(** The type of an expression. *)
Fixpoint expression_type (env : Environment) (node : Node) : TypePtr :=
  match node with
  | NIdent x =>
      match lookup_variable env x with
      | Some var => var_type var
      | None => s ← scope_lookup globals x; sym_type s
      end
  | NIfExpr _ t e => if_expression_type store (expression_type env t) (expression_type env e)
  | NMove o => expression_type env o
  | NLogical _ _ _ => type_bool
  | NOperation result _ _ => fst <$> result
  end.

(** The type a [switch] compares values of. *)
Definition compared_type (env : Environment) (node : Node) (concrete : TypePtr) : TypePtr :=
  if has_kind store (expression_type env node) TYPE_UNTYPED_INT then concrete
  else expression_type env node.

(** A leaf has its constant value when that is a boolean. *)
Definition leaf_value (node : Node) (v : Value) : Prop :=
  forall b, expression_compile_time_bool_value node = Some b -> v = VConst (CONST_VALUE_BOOL b).

(** The operand of a move. *)
Definition moved (operand : Node) (env : Environment) : Environment :=
  match operand with
  | NIdent x => set_live env x false
  | _ => env
  end.

Definition rhs_executes (op : TokenType) (b : bool) : bool :=
  if bool_decide (op = TOK_AND_AND) then b else negb b.

(** [eval env node r]: the environment and the value after the expression, or a fault. *)
Inductive eval : Environment -> Node -> option (Environment * Value) -> Prop :=
| eval_local env x var v :
    lookup_variable env x = Some var -> live var = true -> leaf_value (NIdent x) v ->
    eval env (NIdent x) (Some (env, v))
| eval_dead env x var :
    lookup_variable env x = Some var -> live var = false -> eval env (NIdent x) None
| eval_global env x s v :
    lookup_variable env x = None -> scope_lookup globals x = Some s ->
    leaf_value (NIdent x) v ->
    eval env (NIdent x) (Some (env, v))
| eval_if_fault env c t e :
    eval env c None -> eval env (NIfExpr c t e) None
| eval_if env c t e env' b r :
    eval env c (Some (env', VConst (CONST_VALUE_BOOL b))) ->
    eval env' (if (b : bool) then t else e) r ->
    eval env (NIfExpr c t e) r
| eval_move_fault env o :
    eval env o None -> eval env (NMove o) None
| eval_move env o env' v :
    eval env o (Some (env', v)) -> eval env (NMove o) (Some (moved o env', v))
| eval_logical_fault env op l r :
    eval env l None -> eval env (NLogical op l r) None
| eval_logical_short env op l r env' b :
    eval env l (Some (env', VConst (CONST_VALUE_BOOL b))) -> rhs_executes op b = false ->
    eval env (NLogical op l r) (Some (env', VConst (CONST_VALUE_BOOL b)))
| eval_logical env op l r env' b res :
    eval env l (Some (env', VConst (CONST_VALUE_BOOL b))) -> rhs_executes op b = true ->
    eval env' r res ->
    eval env (NLogical op l r) res
| eval_operation_fault env result lit operands :
    eval_all env operands None -> eval env (NOperation result lit operands) None
| eval_operation env t category lit operands env' v :
    eval_all env operands (Some env') ->
    leaf_value (NOperation (Some (t, category)) lit operands) v ->
    eval env (NOperation (Some (t, category)) lit operands) (Some (env', v))
with eval_all : Environment -> list Node -> option Environment -> Prop :=
| eval_none env : eval_all env [] (Some env)
| eval_first_fault env n ns : eval env n None -> eval_all env (n :: ns) None
| eval_next env n ns env' v r :
    eval env n (Some (env', v)) -> eval_all env' ns r -> eval_all env (n :: ns) r.

(** What storing into the variable does: a fault when it is a live owner. *)
Definition overwrites_owner (env : Environment) (x : string) : bool :=
  match lookup_variable env x with
  | Some var => contains_resource_by_value store (var_type var) && live var
  | None => false
  end.

Inductive exec_expr : Environment -> StatementExpr -> option Environment -> Prop :=
| exec_assign_fault env x value w :
    eval env (init_node value) None -> exec_expr env (EAssign (NIdent x) value w) None
| exec_assign_overwrite env x value w env' v :
    eval env (init_node value) (Some (env', v)) -> overwrites_owner env' x = true ->
    exec_expr env (EAssign (NIdent x) value w) None
| exec_assign env x value w env' v :
    eval env (init_node value) (Some (env', v)) -> overwrites_owner env' x = false ->
    exec_expr env (EAssign (NIdent x) value w) (Some (set_live env' x true))
| exec_store_target_fault env target value w :
    (forall x, target <> NIdent x) -> eval env target None ->
    exec_expr env (EAssign target value w) None
| exec_store_fault env target value w env' v :
    (forall x, target <> NIdent x) -> eval env target (Some (env', v)) ->
    eval env' (init_node value) None ->
    exec_expr env (EAssign target value w) None
| exec_store env target value w env' v env'' v' :
    (forall x, target <> NIdent x) -> eval env target (Some (env', v)) ->
    eval env' (init_node value) (Some (env'', v')) ->
    exec_expr env (EAssign target value w) (Some env'')
| exec_discard_fault env n : eval env n None -> exec_expr env (EDiscard n) None
| exec_discard env n env' v :
    eval env n (Some (env', v)) -> exec_expr env (EDiscard n) (Some env')
| exec_value_fault env n u : eval env n None -> exec_expr env (EValue n u) None
| exec_value env n u env' v :
    eval env n (Some (env', v)) -> exec_expr env (EValue n u) (Some env').

(** The label does not have the value [v]. *)
Definition label_misses (v : Value) (label : option Node) : Prop :=
  exists node c, label = Some node /\ const_value node = Some c
    /\ forall a, v = VConst a -> const_values_equal c (mkConstValue None a) = false.

(** How execution continues after an expression statement. *)
Definition after_expr (env : Environment) (r : option Environment) : Environment * Completion :=
  match r with
  | Some env' => (env', Normal)
  | None => (env, Faulted)
  end.

(** [exec env s env' out].  In [exec_block], the deferred statements of the block so far, the
    last one first, each with the number of variables its block had when it was reached. *)
Inductive exec : Environment -> Statement -> Environment -> Completion -> Prop :=
| exec_SBlock env b env' out :
    exec_scope env b env' out -> exec env (SBlock b) env' out
| exec_SVarDecl_none env x d inferred :
    exec env (SVarDecl x d None inferred)
      (declare env x (mkCell (declaration_type d inferred) false)) Normal
| exec_SVarDecl_fault env x d i inferred :
    eval env (init_node i) None ->
    exec env (SVarDecl x d (Some i) inferred) env Faulted
| exec_SVarDecl env x d i inferred env' v :
    eval env (init_node i) (Some (env', v)) ->
    exec env (SVarDecl x d (Some i) inferred)
      (declare env' x (mkCell (declaration_type d inferred) true)) Normal
| exec_SExpr env e r :
    exec_expr env e r -> exec env (SExpr e) (after_expr env r).1 (after_expr env r).2
| exec_SIf_fault env c t e : eval env c None -> exec env (SIf c t e) env Faulted
| exec_SIf_then env c t e env' env'' out :
    eval env c (Some (env', VConst (CONST_VALUE_BOOL true))) -> exec_scope env' t env'' out ->
    exec env (SIf c t e) env'' out
| exec_SIf_else env c t e env' env'' out :
    eval env c (Some (env', VConst (CONST_VALUE_BOOL false))) -> exec env' e env'' out ->
    exec env (SIf c t (Some e)) env'' out
| exec_SIf_skip env c t env' :
    eval env c (Some (env', VConst (CONST_VALUE_BOOL false))) ->
    exec env (SIf c t None) env' Normal
| exec_SCompileIf_then env c t e env' out :
    expression_compile_time_bool_value c = Some true -> exec_scope env t env' out ->
    exec env (SCompileIf c t e) env' out
| exec_SCompileIf_else env c t e env' out :
    expression_compile_time_bool_value c = Some false -> exec env e env' out ->
    exec env (SCompileIf c t (Some e)) env' out
| exec_SCompileIf_skip env c t :
    expression_compile_time_bool_value c = Some false ->
    exec env (SCompileIf c t None) env Normal
| exec_SWhile env c b env' out :
    exec_loop env (Some c) None b env' out -> exec env (SWhile c b) env' out
| exec_SFor env c p b env' out :
    exec_loop env c p b env' out -> exec env (SFor c p b) env' out
| exec_SSwitch_fault env n t cases : eval env n None -> exec env (SSwitch n t cases) env Faulted
| exec_SSwitch_case env n t cases env' v label b env'' out :
    eval env n (Some (env', v)) -> (label, b) ∈ cases -> exec env' b env'' out ->
    exec env (SSwitch n t cases) env'' out
| exec_SSwitch_none env n t cases env' v :
    eval env n (Some (env', v)) -> inhabits (compared_type env n t) v ->
    Forall (label_misses v) (map fst cases) ->
    exec env (SSwitch n t cases) env' Normal
| exec_SBreak env : exec env SBreak env Broken
| exec_SContinue env : exec env SContinue env Continued
| exec_SReturn_none env : exec env (SReturn None) env Left_function
| exec_SReturn_fault env i :
    eval env (init_node i) None -> exec env (SReturn (Some i)) env Faulted
| exec_SReturn env i env' v :
    eval env (init_node i) (Some (env', v)) -> exec env (SReturn (Some i)) env' Left_function
with exec_scope : Environment -> list Statement -> Environment -> Completion -> Prop :=
| exec_enter env b f env' out :
    exec_block ([] :: env) b [] (f :: env') out -> exec_scope env b env' out
with exec_block : Environment -> list Statement -> list (nat * Statement) -> Environment
                  -> Completion -> Prop :=
| exec_end env defers env' out :
    exec_defers env defers Normal env' out -> exec_block env [] defers env' out
| exec_register f env s b defers env' out :
    exec_block (f :: env) b ((length f, s) :: defers) env' out ->
    exec_block (f :: env) (SDefer s :: b) defers env' out
| exec_step env s b defers env' env'' out :
    exec env s env' Normal -> exec_block env' b defers env'' out ->
    exec_block env (s :: b) defers env'' out
| exec_stop env s b defers env' left env'' out :
    exec env s env' left -> left <> Normal -> left <> Faulted ->
    exec_defers env' defers left env'' out ->
    exec_block env (s :: b) defers env'' out
| exec_fault env s b defers env' :
    exec env s env' Faulted -> exec_block env (s :: b) defers env' Faulted
with exec_defers : Environment -> list (nat * Statement) -> Completion -> Environment
                   -> Completion -> Prop :=
| defers_done env out : exec_defers env [] out env out
| defers_next newer older env n s defers out older' env' env'' out' :
    length older = n -> exec (older :: env) s (older' :: env') Normal ->
    exec_defers ((newer ++ older') :: env') defers out env'' out' ->
    exec_defers ((newer ++ older) :: env) ((n, s) :: defers) out env'' out'
| defers_fault newer older env n s defers out env' :
    length older = n -> exec (older :: env) s env' Faulted ->
    exec_defers ((newer ++ older) :: env) ((n, s) :: defers) out env' Faulted
with exec_loop : Environment -> option Node -> option StatementExpr -> list Statement
                 -> Environment -> Completion -> Prop :=
| loop_condition_fault env c p b :
    eval env c None -> exec_loop env (Some c) p b env Faulted
| loop_exit env c p b env' :
    eval env c (Some (env', VConst (CONST_VALUE_BOOL false))) ->
    exec_loop env (Some c) p b env' Normal
| loop_iterate env c p b env1 env2 out env3 env4 out' :
    loop_condition env c env1 -> exec_scope env1 b env2 out -> out = Normal \/ out = Continued ->
    exec_post env2 p (Some env3) -> exec_loop env3 c p b env4 out' ->
    exec_loop env c p b env4 out'
| loop_post_fault env c p b env1 env2 out :
    loop_condition env c env1 -> exec_scope env1 b env2 out -> out = Normal \/ out = Continued ->
    exec_post env2 p None ->
    exec_loop env c p b env2 Faulted
| loop_break env c p b env1 env2 :
    loop_condition env c env1 -> exec_scope env1 b env2 Broken -> exec_loop env c p b env2 Normal
| loop_leave env c p b env1 env2 out :
    loop_condition env c env1 -> exec_scope env1 b env2 out ->
    out = Left_function \/ out = Faulted ->
    exec_loop env c p b env2 out
with loop_condition : Environment -> option Node -> Environment -> Prop :=
| condition_none env : loop_condition env None env
| condition_true env c env' :
    eval env c (Some (env', VConst (CONST_VALUE_BOOL true))) -> loop_condition env (Some c) env'
with exec_post : Environment -> option StatementExpr -> option Environment -> Prop :=
| post_none env : exec_post env None (Some env)
| post_expr env e r : exec_expr env e r -> exec_post env (Some e) r.

(** A run of a function body: the parameters are live. *)
Definition enter_function (params : list (string * TypePtr)) : Environment :=
  [rev (map (fun p => (p.1, mkCell p.2 true)) params)].

Definition runs (params : list (string * TypePtr)) (body : list Statement) (out : Completion)
    : Prop :=
  exists env, exec (enter_function params) (SBlock body) env out.

(** ** What the constant evaluator promises *)

(** The expression moves a resource. *)
Fixpoint moves (n : Node) : bool :=
  match n with
  | NIdent _ => false
  | NIfExpr c t e => moves c || moves t || moves e
  | NMove _ => true
  | NLogical _ l r => moves l || moves r
  | NOperation _ _ operands => existsb moves operands
  end.

(** A constant moves nothing and has the value that execution gives it, and converting it to
    a type gives a constant of that type with the same boolean or enumerator value. *)
Class EvaluatorLaws := {
  constant_pure n c : const_value n = Some c -> moves n = false;
  constant_sound n b env env' v :
    expression_compile_time_bool_value n = Some b -> eval env n (Some (env', v)) ->
    v = VConst (CONST_VALUE_BOOL b);
  coerce_typed c t c' ty :
    coerce_constant c t = Some c' -> deref store t = Some ty -> case_value_ok t (kind ty) c';
  coerce_value c t c' ty :
    coerce_constant c t = Some c' -> deref store t = Some ty ->
    kind ty = TYPE_BOOL \/ kind ty = TYPE_ENUM -> const_value_as c' = const_value_as c;
}.
End Run.
