(* ===== verification/FlowTrack.v ===== *)
(** How the flow state describes a running function.

    [holds] relates scopes and frames: they have the same variables, live where one predicate
    says so and dead where another does.  [tracked] takes the predicates from a flow state: a
    variable is live where the state says that it is definitely initialised, and an owner is dead
    where the state says that it is definitely uninitialised. *)
From S2P Require Import Prelude Token Types IntegerValue TypeRelations FlowState FlowCheck.
From S2P Require Import FlowInvariant FlowTotal FlowRun.

(** ** Scopes and frames *)

Section Holds.
Implicit Types (A D : Symbol -> Prop).

(** The variable [p] is the symbol [s], live if [A] says so and dead if [D] does. *)
Definition cell_ok A D (s : Symbol) (p : string * Cell) : Prop :=
  p.1 = sym_name s /\ var_type p.2 = sym_type s
  /\ (A s -> live p.2 = true) /\ (D s -> live p.2 = false).

Definition frame_ok A D (sc : Scope) (f : Frame) : Prop := Forall2 (cell_ok A D) (symbols sc) f.

Definition holds A D : list Scope -> Environment -> Prop := Forall2 (frame_ok A D).

Definition in_scopes (scopes : list Scope) (s : Symbol) : Prop :=
  exists sc, sc ∈ scopes /\ s ∈ symbols sc.

Lemma Forall2_impl_in {X Y} (P Q : X -> Y -> Prop) l k :
  Forall2 P l k -> (forall x y, x ∈ l -> P x y -> Q x y) -> Forall2 Q l k.
Proof.
  induction 1 as [|x y l k Hxy _ IH]; intros H; constructor.
  - apply H; [left | done].
  - apply IH. intros x' y' Hx. apply H. by right.
Qed.

Lemma holds_mono A D A' D' scopes env :
  (forall s, in_scopes scopes s -> A' s -> A s) -> (forall s, in_scopes scopes s -> D' s -> D s) ->
  holds A D scopes env -> holds A' D' scopes env.
Proof.
  intros HA HD H. eapply Forall2_impl_in; [exact H|]. intros sc f Hsc Hf.
  eapply Forall2_impl_in; [exact Hf|]. intros s p Hs (Hn & Ht & Ha & Hd).
  assert (in_scopes scopes s) by (by exists sc). split_and!; [done | done | auto | auto].
Qed.

Lemma frame_lookup_ok A D sc f x :
  frame_ok A D sc f ->
  match scope_find_local sc x with
  | Some s => exists v, frame_lookup f x = Some v /\ cell_ok A D s (x, v)
  | None => frame_lookup f x = None
  end.
Proof.
  unfold scope_find_local, frame_lookup. destruct sc as [ss mark]. unfold frame_ok. simpl. intros H.
  induction H as [|s [y v] ss f (Hn & Ht & Ha & Hd) _ IH]; simpl in *; [done|]. subst y.
  destruct (String.eqb_spec (sym_name s) x) as [<-|]; [|done].
  exists v. by split_and!.
Qed.

Lemma lookup_ok A D scopes env x :
  holds A D scopes env ->
  match scope_lookup scopes x with
  | Some s => exists v, lookup_variable env x = Some v /\ cell_ok A D s (x, v)
  | None => lookup_variable env x = None
  end.
Proof.
  induction 1 as [|sc f scopes env Hf _ IH]; simpl; [done|].
  pose proof (frame_lookup_ok _ _ _ _ x Hf) as Hl.
  destruct (scope_find_local sc x) as [s|].
  - destruct Hl as (v & -> & Hok). by exists v.
  - by rewrite Hl.
Qed.

(** Setting the variable that [s] names. *)
Lemma frame_set_ok A D A' D' sc f x s b :
  frame_ok A D sc f -> scope_find_local sc x = Some s -> NoDup (map slot (symbols sc)) ->
  (forall s', s' ∈ symbols sc -> slot s' <> slot s -> (A' s' -> A s') /\ (D' s' -> D s')) ->
  (A' s -> b = true) -> (D' s -> b = false) ->
  frame_ok A' D' sc (frame_set f x b).
Proof.
  unfold scope_find_local, frame_ok. destruct sc as [ss mark]. simpl. intros H.
  induction H as [|u [y v] ss f (Hn & Ht & Ha & Hd) Hf IH]; simpl; [done|].
  intros Hfind Hnd Hother HA HD. apply NoDup_cons in Hnd as [Hnew Hnd]. simpl in *. subst y.
  assert (Hrest : forall A'' D'' f', Forall2 (cell_ok A'' D'') ss f' ->
    (forall s', s' ∈ ss -> (A' s' -> A'' s') /\ (D' s' -> D'' s')) -> Forall2 (cell_ok A' D') ss f').
  { intros A'' D'' f' Hf' Himp. eapply Forall2_impl_in; [exact Hf'|].
    intros s' p Hs' (? & ? & ? & ?). destruct (Himp s' Hs'). split_and!; auto. }
  destruct (String.eqb_spec (sym_name u) x) as [Heq|Hne].
  - injection Hfind as ->. constructor.
    + split_and!; [done | done | done | done].
    + apply (Hrest A D); [done|]. intros s' Hs'. apply Hother; [by right|].
      intros Hslot. apply Hnew. rewrite <- Hslot. by apply list_elem_of_fmap_2.
  - constructor.
    + destruct (Hother u) as [HAu HDu]; [by left | |].
      * intros Hslot. apply Hnew. rewrite Hslot. apply list_elem_of_fmap_2.
        apply List.find_some in Hfind as [Hin _]. by apply list_elem_of_In.
      * split_and!; auto.
    + apply IH; try done. intros s' Hs'. apply Hother. by right.
Qed.

Section Locals.
Context (store : TypeStore).

(** The symbols of the outer scopes have smaller slots. *)
Lemma outer_slots f n scopes s :
  locals_ok store f n scopes -> in_scopes scopes s -> (slot s < n)%nat.
Proof.
  intros Hl (sc & Hsc & Hs). destruct (locals_slot_ok store f n scopes sc s Hl Hsc Hs) as (_ & ? & _). lia.
Qed.

Lemma scope_lookup_in scopes x s : scope_lookup scopes x = Some s -> in_scopes scopes s.
Proof. intros H. apply lookup_in in H as (sc & ? & ? & _). by exists sc. Qed.

Lemma set_live_ok A D A' D' f n scopes env x s b :
  holds A D scopes env -> scope_lookup scopes x = Some s -> locals_ok store f n scopes ->
  (forall s', in_scopes scopes s' -> slot s' <> slot s -> (A' s' -> A s') /\ (D' s' -> D s')) ->
  (A' s -> b = true) -> (D' s -> b = false) ->
  holds A' D' scopes (set_live env x b).
Proof.
  intros H. revert n. induction H as [|sc fr scopes env Hf Hrest IH]; intros n; simpl; [done|].
  intros Hlook (Hmark & Hss & Hnd & Hl) Hother HA HD.
  pose proof (frame_lookup_ok _ _ _ _ x Hf) as Hfr.
  assert (Hin : forall sc' s', sc' ∈ scopes -> s' ∈ symbols sc' -> in_scopes (sc :: scopes) s').
  { intros sc' s' ? ?. exists sc'. split; [by right | done]. }
  assert (Hhere : forall s', s' ∈ symbols sc -> in_scopes (sc :: scopes) s').
  { intros s' ?. exists sc. split; [by left | done]. }
  rewrite Forall_forall in Hss.
  destruct (scope_find_local sc x) as [u|] eqn:Hfind.
  - injection Hlook as ->. destruct Hfr as (v & -> & _). constructor.
    + eapply frame_set_ok; try done. intros s' Hs'. apply Hother. by apply Hhere.
    + eapply holds_mono; [| | exact Hrest]; intros s' Hs'.
      all: destruct (Hother s') as [? ?]; [destruct Hs' as (? & ? & ?); by eapply Hin | | done].
      all: pose proof (outer_slots _ _ _ _ Hl Hs');
        apply find_local in Hfind as [Hu _]; destruct (Hss s Hu) as (_ & ? & _); lia.
  - rewrite Hfr. constructor.
    + eapply Forall2_impl_in; [exact Hf|]. intros s' p Hs' (? & ? & ? & ?).
      destruct (Hother s') as [? ?]; [by apply Hhere | |split_and!; auto].
      pose proof (outer_slots _ _ _ s Hl (scope_lookup_in _ _ _ Hlook)).
      destruct (Hss s' Hs') as (_ & ? & _). lia.
    + eapply IH; try done. intros s' (sc' & ? & ?). apply Hother. by eapply Hin.
Qed.
End Locals.
End Holds.

(** ** The state and the environment *)

Section Tracked.
Context (store : TypeStore) (T : Symbol -> Prop) (full : bool).
Implicit Types (K D : Symbol -> Prop) (F G : FlowState).

(** The slots below [n] whose state [F] knows: the symbols in [T] that it says are initialised,
    and, if [full], the owners it says are not.  [K] and [D] are further symbols that are live
    and dead. *)
Definition alive_by F n s : Prop :=
  T s /\ (slot s < n)%nat /\ Z.testbit (mask F (slot s)) 0 = false.

Definition dead_by F n s : Prop :=
  full = true /\ (slot s < n)%nat /\ contains_resource_by_value store (sym_type s) = true
  /\ Z.testbit (mask F (slot s)) 1 = false.

Definition tracked K D n F : list Scope -> Environment -> Prop :=
  holds (fun s => K s \/ alive_by F n s) (fun s => D s \/ dead_by F n s).

Lemma tracked_weaken K D K' D' n m F G scopes env :
  (m <= n)%nat -> below m F G -> (forall s, K' s -> K s \/ alive_by F n s) ->
  (forall s, D' s -> D s \/ dead_by F n s) ->
  tracked K D n F scopes env -> tracked K' D' m G scopes env.
Proof.
  intros Hle Hb HK HD. apply holds_mono; intros s _ [Hs|Hs]; auto; right.
  - destruct Hs as (Ht & Hn & Hm). split_and!; [done | lia |].
    destruct (Z.testbit (mask F (slot s)) 0) eqn:Hbit; [|done].
    apply (Hb (slot s)) in Hbit; [congruence | done].
  - destruct Hs as (Ht & Hn & Hres & Hm). split_and!; [done | lia | done |].
    destruct (Z.testbit (mask F (slot s)) 1) eqn:Hbit; [|done].
    apply (Hb (slot s)) in Hbit; [congruence | done].
Qed.

Lemma tracked_below K D n F G scopes env :
  below n F G -> tracked K D n F scopes env -> tracked K D n G scopes env.
Proof. intros Hb. apply tracked_weaken; [done | done | by left | by left]. Qed.

(** Two states with the same masks. *)
Definition same_masks F G : Prop := forall i, mask F i = mask G i.

Lemma same_below n F G : same_masks F G -> below n F G.
Proof. intros H i _. rewrite (H i). reflexivity. Qed.

Lemma equiv_same F G : F ≡ G -> same_masks F G.
Proof. by intros (_ & _ & _ & H & _). Qed.

(** What checking an expression keeps of the context, besides the masks. *)
Record steady (c c' : SemanticContext) : Prop := {
  st_active : active_deferred_resources c' = active_deferred_resources c;
  st_captured : uses_grow (captured_deferred_resources c) (captured_deferred_resources c');
  st_defer : defer_depth c' = defer_depth c;
  st_count : count (flow c') = count (flow c);
  st_reachable : reachable (flow c') = reachable (flow c);
}.

#[global] Instance steady_preorder : PreOrder steady.
Proof. split; [by intros c | intros a b c [] []; split; try congruence; by etrans]. Qed.

Lemma expression_steady c c' : expression_step c c' -> steady c c'.
Proof. intros [[] ? ? ? ? ? ?]. by split. Qed.

Lemma flow_steady c f :
  count f = count (flow c) -> reachable f = reachable (flow c) -> steady c (set_flow f c).
Proof. intros. by split. Qed.

(** The uses of resources up to [c] are in [T]: all symbols are, or a deferred statement is
    checked and the resources it uses are recorded. *)
Definition uses_ok (c : SemanticContext) : Prop :=
  (forall s, T s)
  \/ defer_depth c <> 0%nat
     /\ (forall s, contains_resource_by_value store (sym_type s) = false -> T s)
     /\ forall s, deferred_resource_list_contains (captured_deferred_resources c) s = true -> T s.

Lemma uses_ok_before c c' :
  uses_grow (captured_deferred_resources c) (captured_deferred_resources c') ->
  defer_depth c' = defer_depth c -> uses_ok c' -> uses_ok c.
Proof.
  intros Hu Hd [H|(H1 & H2 & H3)]; [by left | right]. rewrite <- Hd. split_and!; auto.
Qed.

Lemma uses_ok_steady c c' : steady c c' -> uses_ok c' -> uses_ok c.
Proof. intros []. by apply uses_ok_before. Qed.

Lemma uses_ok_evolves c c' : evolves c c' -> uses_ok c' -> uses_ok c.
Proof. intros []. by apply uses_ok_before. Qed.

(** The symbols in [K] cannot be moved from: they own nothing, or a deferred statement uses
    them. *)
Definition guarded K (c : SemanticContext) : Prop :=
  forall s, K s -> (slot s < count (flow c))%nat
    /\ (contains_resource_by_value store (sym_type s) = false
        \/ deferred_resource_list_contains (active_deferred_resources c) s = true).

Lemma guarded_steady K c c' : steady c c' -> guarded K c -> guarded K c'.
Proof. intros [] H s Hs. rewrite st_active0, st_count0. by apply H. Qed.

Lemma guarded_evolves K c c' : evolves c c' -> guarded K c -> guarded K c'.
Proof.
  intros [] H s Hs. destruct (H s Hs) as [Hn [Hr|Ha]]; (split; [lia|]); [by left | right; auto].
Qed.
End Tracked.
