(* ===== verification/FlowExpression.v ===== *)
(** Accepted expressions run without a fault, and the flow state behind them describes the
    variables. *)
From S2P Require Import Prelude Token Types IntegerValue TypeRelations FlowState FlowCheck.
From S2P Require Import FlowInvariant FlowTotal FlowRun FlowTrack.

(** No move depends on a condition that is evaluated at run time. *)
Fixpoint unconditional (n : Node) : bool :=
  match n with
  | NIdent _ => true
  | NIfExpr c t e => unconditional c && negb (moves t) && negb (moves e)
  | NMove o => unconditional o
  | NLogical _ l r => unconditional l && negb (moves r)
  | NOperation _ _ operands => forallb unconditional operands
  end.

Section Expressions.
Context (store : TypeStore) (type_bool : TypePtr) {evaluator : ConstantEvaluator}
  (Hbool : is_Some type_bool) (locals globals : list Scope).

Abbreviation well c := (good store locals globals c).
Abbreviation accepts n c i c' :=
  (check_expression store type_bool n c = Returned (Some i, c')).
Abbreviation accepts_value n c i c' :=
  (check_value_expression store type_bool n c = Returned (Some i, c')).

(** ** What an accepted expression was checked as *)

Lemma value_inv n c i c' : accepts_value n c i c' -> accepts n c i c'.
Proof.
  unfold check_value_expression, require_value. intros H.
  apply bind_inv in H as ([j|] & c1 & Hj & H); [|done].
  destruct (_ || _); [done|]. by injection H as -> ->.
Qed.

Lemma accepts_good n c i c' : well c -> accepts n c i c' -> well c' /\ expression_step c c'.
Proof.
  intros Hg H. destruct (steps_inv _ _ _ _ _ (check_expression_spec _ _ Hbool _ _ n c Hg) H) as (? & ? & _).
  done.
Qed.

Lemma get_inv {A} (f : SemanticContext -> A) c a c' : get f c = Returned (a, c') -> a = f c /\ c' = c.
Proof. by intros [= <- <-]. Qed.

Lemma modify_inv f c a c' : modify f c = Returned (a, c') -> c' = f c.
Proof. by intros [= <- <-]. Qed.

Lemma ask_inv {A} (f : FlowState -> outcome A) c a c' :
  ask_flow f c = Returned (a, c') -> f (flow c) = Returned a /\ c' = c.
Proof.
  intros H. apply bind_inv in H as (? & ? & [= <- <-] & H). by apply run_inv in H.
Qed.

Lemma update_inv (f : FlowState -> outcome FlowState) c a c' :
  update_flow f c = Returned (a, c') -> exists t, f (flow c) = Returned t /\ c' = set_flow t c.
Proof.
  intros H. apply bind_inv in H as (? & ? & [= <- <-] & H).
  apply bind_inv in H as (t & ? & Ht & H). apply run_inv in Ht as [Ht ->].
  apply modify_inv in H. eauto.
Qed.

Lemma clone_inv s t : flow_wf s -> flow_clone s = Returned t -> flow_wf t /\ t ≡ s.
Proof. intros Hs H. exact (returns_inv _ _ _ (flow_clone_spec s Hs) H). Qed.

Lemma restart_inv f c a c' :
  restart_from f c = Returned (a, c') -> flow_wf f ->
  exists g, c' = set_flow g c /\ g ≡ f /\ flow_wf g.
Proof.
  intros H Hf. apply bind_inv in H as (g & ? & Hg & H). apply run_inv in Hg as [Hg ->].
  apply modify_inv in H. destruct (clone_inv _ _ Hf Hg). eauto.
Qed.

Lemma restart_good c f g :
  well c -> fits c f -> g ≡ f -> flow_wf g -> well (set_flow g c).
Proof.
  intros Hg (Hf & Hc & Hcomp) Heq Hwf. apply good_fits; [done|].
  split_and!; [done | by rewrite Heq |]. eapply compatible_trans; [done|].
  apply equiv_compatible. by symmetry.
Qed.

(** A state from which an operand was checked, and the state behind it. *)
Record checked_from (F : FlowState) (n : Node) (i : ExprInfo) (c c' : SemanticContext) : Prop := {
  ck_accepts : accepts n c i c';
  ck_good : well c;
  ck_flow : flow c ≡ F;
}.

Lemma checked_good F n i c c' : checked_from F n i c c' -> well c' /\ expression_step c c'.
Proof. intros [H Hg _]. by eapply accepts_good. Qed.

Lemma merge_good c l r n t :
  well c -> fits c l -> fits c r -> n = count (flow c) ->
  flow_merge_continuing_paths l r n = Returned t -> fits c t /\ merged l r n t.
Proof. intros Hg Hl Hr Hn H. exact (returns_inv _ _ _ (merge_spec _ _ _ c l r n Hg Hl Hr Hn) H). Qed.

(** [mask] of a state where two paths met, when the paths have the same masks. *)
Lemma merged_same l r n t F :
  merged l r n t -> same_masks l F -> same_masks r F -> (forall i, (n <= i)%nat -> mask F i = 0) ->
  same_masks t F.
Proof.
  intros (_ & _ & _ & Hm & _) Hl Hr Hz i. rewrite Hm. case_decide; [|symmetry; apply Hz; lia].
  unfold join_mask. rewrite (Hl i), (Hr i). destruct (reachable l), (reachable r); try done.
  apply Z.lor_diag.
Qed.

Lemma if_inv q t e c i c' :
  well c -> accepts (NIfExpr q t e) c i c' ->
  exists iq c1 it ct c2 ie ce c3 f,
    checked_from (flow c) q iq c c1
    /\ checked_from (flow c1) t it ct c2 /\ steady c1 ct
    /\ checked_from (flow c1) e ie ce c3 /\ steady c2 ce
    /\ merged (flow c2) (flow c3) (count (flow c)) f /\ c' = set_flow f c3
    /\ steady c3 c' /\ info_type i = if_expression_type store (info_type it) (info_type ie).
Proof.
  intros Hg H. cbn [check_expression] in H. unfold check_if_expression in H.
  apply bind_inv in H as ([iq|] & c1 & Hq & H); [|done]. apply value_inv in Hq.
  destruct (accepts_good _ _ _ _ Hg Hq) as [Hg1 Hs1].
  destruct (negb (is_bool_type _ _)); [by apply bind_inv in H as (? & ? & _ & H)|].
  apply bind_inv in H as (inc & ? & Hinc & H). apply ask_inv in Hinc as [Hinc ->].
  destruct (clone_inv _ _ (g_flow _ _ _ _ Hg1) Hinc) as [Hwf Heq].
  apply bind_inv in H as ([[it|] [ie|]] & c4 & Hm & H); try done.
  apply merge_after_inv in Hm as (f1 & c2 & f2 & c3 & f & Hf1 & Ht & Hf2 & He & Hf & ->).
  simpl in Ht, He. apply value_inv in Ht, He.
  destruct (clone_inv _ _ Hwf Hf1) as [Hwf1 Heq1]. destruct (clone_inv _ _ Hwf Hf2) as [Hwf2 Heq2].
  pose proof (fits_equiv c1 _ Hwf Heq) as Hfit.
  pose proof (restart_good _ _ _ Hg1 Hfit Heq1 Hwf1) as Hgt.
  destruct (accepts_good _ _ _ _ Hgt Ht) as [Hg2 Hs2].
  assert (Hb12 : block_step c1 c2).
  { etrans; [|by apply expression_block_step]. apply block_step_flow.
    - by rewrite Heq1, Heq.
    - apply equiv_compatible. symmetry. by etrans. }
  pose proof (fits_step _ _ _ Hb12 Hfit) as Hfit2.
  pose proof (restart_good _ _ _ Hg2 Hfit2 Heq2 Hwf2) as Hge.
  destruct (accepts_good _ _ _ _ Hge He) as [Hg3 Hs3].
  assert (Hb23 : block_step c2 c3).
  { etrans; [|by apply expression_block_step]. apply block_step_flow.
    - rewrite Heq2. apply Hfit2.
    - eapply compatible_trans; [apply Hfit2|]. apply equiv_compatible. by symmetry. }
  assert (Hcount : count inc = count (flow c)) by (rewrite Heq; apply (es_count _ _ Hs1)).
  destruct (merge_good c3 (flow c2) (flow c3) (count inc) f) as [Hfitf Hmerged]; [done | | | | done |].
  { eapply fits_step; [exact Hb23|]. by apply (fits_self store locals globals). }
  { by apply (fits_self store locals globals). }
  { rewrite (bs_count _ _ Hb23), (bs_count _ _ Hb12). by rewrite Heq. }
  rewrite Hcount in Hmerged.
  destruct (if_expression_type _ _ _) as [ty|] eqn:Hty; [|by apply bind_inv in H as (? & ? & _ & H)].
  injection H as <- <-.
  assert (Hst1 : steady c1 (set_flow f1 c1)) by (apply flow_steady; by rewrite Heq1, Heq).
  assert (Hst2 : steady c2 (set_flow f2 c2)).
  { apply flow_steady; rewrite Heq2; [apply Hfit2|]. rewrite (es_reachable _ _ Hs2). simpl.
    by rewrite Heq1. }
  exists iq, c1, it, (set_flow f1 c1), c2, ie, (set_flow f2 c2), c3, f.
  assert (checked_from (flow c1) t it (set_flow f1 c1) c2) by (split; [done | done | by etrans]).
  assert (checked_from (flow c1) e ie (set_flow f2 c2) c3) by (split; [done | done | by etrans]).
  split_and!; try done.
  apply flow_steady; [apply Hfitf|]. destruct Hmerged as (_ & _ & -> & _).
  rewrite (es_reachable _ _ Hs2), (es_reachable _ _ Hs3). simpl. rewrite Heq1, Heq2.
  by rewrite orb_diag.
Qed.

Lemma ident_inv x c i c' :
  well c -> accepts (NIdent x) c i c' ->
  flow c' = flow c /\ expression_step c c' /\ exists s, means store locals globals (flow c) x s
    /\ i = identifier_info s /\ is_captured store s c'
    /\ (slot_ok store (flow c) 0 (count (flow c)) s ->
        mask (flow c) (slot s) = FLOW_DEFINITELY_INITIALIZED).
Proof.
  intros Hg H. cbn [check_expression] in H.
  destruct (steps_inv _ _ _ _ _ (check_identifier_spec _ _ _ _ x IDENTIFIER_USE_READ Hg) H)
    as [(_ & Hs & _) Hid].
  destruct (Hid i eq_refl) as (Hf & s & Hm & Hi & Hc & Hinit). split_and!; [done | done |].
  exists s. split_and!; auto.
Qed.

Lemma move_inv o c i c' :
  well c -> accepts (NMove o) c i c' ->
  exists x s c1, o = NIdent x /\ accepts (NIdent x) c (identifier_info s) c1
    /\ expression_step c c1 /\ flow c1 = flow c
    /\ scope_lookup locals x = Some s /\ slot_ok store (flow c) 0 (count (flow c)) s
    /\ contains_resource_by_value store (sym_type s) = true
    /\ deferred_resource_list_contains (active_deferred_resources c1) s = false
    /\ c' = set_flow (set_mask (slot s) FLOW_DEFINITELY_UNINITIALIZED (flow c)) c1
    /\ info_type i = sym_type s.
Proof.
  intros Hg H. cbn [check_expression] in H. unfold check_move in H.
  apply bind_inv in H as ([io|] & c1 & Ho & H); [|done]. apply value_inv in Ho.
  destruct (contains_resource_by_value store (info_type io)) eqn:Hres; simpl in H;
    [|by apply bind_inv in H as (? & ? & _ & H)].
  destruct o as [x| | | |]; try by apply bind_inv in H as (? & ? & _ & H).
  destruct (ident_inv _ _ _ _ Hg Ho) as (Hf & Hs1 & s & Hm & -> & _ & _). simpl in H, Hres.
  destruct (negb _); [by apply bind_inv in H as (? & ? & _ & H)|].
  apply bind_inv in H as (has & ? & Hhas & H). apply run_inv in Hhas as [Hhas ->].
  destruct has; [|by apply bind_inv in H as (? & ? & _ & H)]. simpl in H.
  destruct Hm as [[Hl Hok]|(_ & _ & Hno)]; [|congruence].
  apply bind_inv in H as (act & ? & Hact & H). apply get_inv in Hact as [-> ->].
  destruct (deferred_resource_list_contains _ s) eqn:Hin;
    [by apply bind_inv in H as (? & ? & _ & H)|].
  apply bind_inv in H as ([] & c2 & Hmark & H). injection H as <- <-.
  apply update_inv in Hmark as (t & Ht & ->).
  unfold flow_mark_variable_uninitialized in Ht. rewrite Hf in Ht.
  rewrite (slot_ok_with_slot store) in Ht by done. injection Ht as <-.
  exists x, s, c1. by split_and!.
Qed.

Lemma merged_equiv_l l l' r n t : l ≡ l' -> merged l r n t -> merged l' r n t.
Proof.
  intros Heq (H1 & H2 & H3 & Hm & Ho). split_and!; [by rewrite <- Heq | done | by rewrite <- Heq | |].
  - intros i. rewrite Hm. unfold join_mask.
    by rewrite (reachable_proper _ _ Heq), (mask_proper _ _ Heq i i eq_refl).
  - intros i. rewrite Ho. case_decide; [by rewrite Heq | done].
Qed.

Lemma logical_inv op l r c i c' :
  well c -> accepts (NLogical op l r) c i c' ->
  exists il c1 ir cr c2 F,
    checked_from (flow c) l il c c1 /\ checked_from (flow c1) r ir cr c2 /\ steady c1 cr
    /\ c' = set_flow F c2 /\ steady c2 c' /\ info_type i = type_bool
    /\ match expression_compile_time_bool_value l with
       | Some b => F ≡ if rhs_executes op b then flow c2 else flow c1
       | None => merged (flow c1) (flow c2) (count (flow c)) F
       end.
Proof.
  intros Hg H. cbn [check_expression] in H. unfold check_logical in H.
  apply bind_inv in H as ([il|] & c1 & Hl & H); [|done]. apply value_inv in Hl.
  destruct (accepts_good _ _ _ _ Hg Hl) as [Hg1 Hs1].
  apply bind_inv in H as (left & ? & Hleft & H). apply ask_inv in Hleft as [Hleft ->].
  destruct (clone_inv _ _ (g_flow _ _ _ _ Hg1) Hleft) as [Hwf Heq].
  pose proof (fits_equiv c1 _ Hwf Heq) as Hfit.
  apply bind_inv in H as ([] & ? & Hcr & H).
  apply restart_inv in Hcr as (g & -> & Heqg & Hwfg); [|done].
  pose proof (restart_good _ _ _ Hg1 Hfit Heqg Hwfg) as Hgr.
  apply bind_inv in H as (ir & c2 & Hr & H).
  apply bind_inv in H as (right & ? & [-> ->]%get_inv & H).
  apply bind_inv in H as ([] & c3 & Hflow & H).
  destruct (is_bool_type store (info_type il)) eqn:Hb; [|by apply bind_inv in H as (? & ? & _ & H)].
  simpl in H. destruct ir as [ir|]; [|done]. apply value_inv in Hr.
  destruct (accepts_good _ _ _ _ Hgr Hr) as [Hg2 Hs2].
  destruct (negb _); [by apply bind_inv in H as (? & ? & _ & H)|]. injection H as <- <-.
  assert (Hst1 : steady c1 (set_flow g c1)) by (apply flow_steady; by rewrite Heqg, Heq).
  pose proof (expression_steady _ _ Hs2) as Hst2.
  assert (Hb12 : block_step c1 c2).
  { etrans; [|by apply expression_block_step]. apply block_step_flow.
    - by rewrite Heqg, Heq.
    - apply equiv_compatible. symmetry. by etrans. }
  pose proof (fits_step _ _ _ Hb12 Hfit) as Hfit2.
  assert (Hrl : reachable left = reachable (flow c2)).
  { rewrite (st_reachable _ _ Hst2), (st_reachable _ _ Hst1). by rewrite Heq. }
  assert (checked_from (flow c1) r ir (set_flow g c1) c2) by (split; [done | done | by etrans]).
  unfold rhs_executes. destruct (expression_compile_time_bool_value l) as [b|].
  - apply restart_inv in Hflow as (F & -> & HF & HwfF).
    2: { destruct (if bool_decide _ then _ else _); [apply (g_flow _ _ _ _ Hg2) | done]. }
    exists il, c1, ir, (set_flow g c1), c2, F. split_and!; try done.
    + apply flow_steady; rewrite HF; destruct (if bool_decide _ then _ else _); try done.
      apply Hfit2.
    + rewrite HF. by destruct (if bool_decide _ then _ else _).
  - apply bind_inv in Hflow as (F & ? & HF & Hset). apply run_inv in HF as [HF ->].
    apply modify_inv in Hset as ->.
    destruct (merge_good c2 left (flow c2) (count left) F) as [HfitF Hm]; try done.
    { by apply (fits_self store locals globals). }
    { apply Hfit2. }
    exists il, c1, ir, (set_flow g c1), c2, F. split_and!; try done.
    + apply flow_steady; [apply HfitF|]. destruct Hm as (_ & _ & -> & _). rewrite Hrl. apply orb_diag.
    + apply (merged_equiv_l left); [done|]. rewrite <- (es_count _ _ Hs1).
      by replace (count (flow c1)) with (count left) by (by rewrite Heq).
Qed.

Fixpoint accepts_all (ns : list Node) (c c' : SemanticContext) : Prop :=
  match ns with
  | [] => c' = c
  | n :: ns => exists i c1, accepts n c i c1 /\ accepts_all ns c1 c'
  end.

Lemma operation_inv result lit ns c i c' :
  accepts (NOperation result lit ns) c i c' ->
  accepts_all ns c c' /\ info_type i = fst <$> result.
Proof.
  intros H. cbn [check_expression] in H. unfold check_operation in H.
  apply bind_inv in H as (ok & c1 & Hall & H). destruct ok; [|done].
  destruct result as [[t cat]|]; [|by apply bind_inv in H as (? & ? & _ & H)].
  injection H as <- <-. split; [|done]. clear -Hall. revert c Hall.
  induction ns as [|n ns IH]; intros c Hall; simpl in *; [by injection Hall as <-|].
  apply bind_inv in Hall as (ok & c2 & Hn & Hall). apply bind_inv in Hn as (o & c3 & Ho & Hn).
  injection Hn as <- <-. destruct o as [io|]; simpl in Hall; [|done].
  apply value_inv in Ho. exists io, c3. auto.
Qed.

Lemma accepts_all_good ns c c' : well c -> accepts_all ns c c' -> well c' /\ expression_step c c'.
Proof.
  revert c. induction ns as [|n ns IH]; intros c Hg; simpl; [by intros ->|].
  intros (i & c1 & H1 & H). destruct (accepts_good _ _ _ _ Hg H1) as [Hg1 Hs1].
  destruct (IH _ Hg1 H). split; [done | by etrans].
Qed.

(** An expression that moves nothing leaves the masks. *)
Lemma accepts_pure n c i c' :
  moves n = false -> well c -> accepts n c i c' -> same_masks (flow c') (flow c).
Proof.
  assert (Htrans : forall F G H, same_masks F G -> same_masks G H -> same_masks F H).
  { intros F G H H1 H2 j. by rewrite H1. }
  revert c i c'. induction n as [x|q t e IHq IHt IHe|o IHo|op l r IHl IHr|result lit ns IH]
    using Node_tree_ind; intros c i c'; cbn [moves].
  - intros _ Hg H. destruct (ident_inv _ _ _ _ Hg H) as (-> & _). done.
  - intros [[Hq Ht]%orb_false_iff He]%orb_false_iff Hg H.
    destruct (if_inv _ _ _ _ _ _ Hg H) as (iq & c1 & it & ct & c2 & ie & ce & c3 & f & Kq & Kt & St
      & Ke & Se & Hm & -> & _).
    pose proof (IHq _ _ _ Hq (ck_good _ _ _ _ _ Kq) (ck_accepts _ _ _ _ _ Kq)) as Mq.
    pose proof (IHt _ _ _ Ht (ck_good _ _ _ _ _ Kt) (ck_accepts _ _ _ _ _ Kt)) as Mt.
    pose proof (IHe _ _ _ He (ck_good _ _ _ _ _ Ke) (ck_accepts _ _ _ _ _ Ke)) as Me.
    apply (merged_same _ _ _ _ _ Hm).
    + eapply Htrans; [exact Mt|]. eapply Htrans; [apply equiv_same, Kt | done].
    + eapply Htrans; [exact Me|]. eapply Htrans; [apply equiv_same, Ke | done].
    + apply (wf_mask_zero _ (g_flow _ _ _ _ Hg)).
  - done.
  - intros [Hl Hr]%orb_false_iff Hg H.
    destruct (logical_inv _ _ _ _ _ _ Hg H) as (il & c1 & ir & cr & c2 & F & Kl & Kr & Sr & -> & _ & _ & HF).
    pose proof (IHl _ _ _ Hl (ck_good _ _ _ _ _ Kl) (ck_accepts _ _ _ _ _ Kl)) as Ml.
    pose proof (IHr _ _ _ Hr (ck_good _ _ _ _ _ Kr) (ck_accepts _ _ _ _ _ Kr)) as Mr.
    assert (M2 : same_masks (flow c2) (flow c)).
    { eapply Htrans; [exact Mr|]. eapply Htrans; [apply equiv_same, Kr | done]. }
    destruct (expression_compile_time_bool_value l) as [b|].
    + apply equiv_same in HF. eapply Htrans; [exact HF|]. by destruct (rhs_executes _ _).
    + apply (merged_same _ _ _ _ _ HF); [done | done |]. apply (wf_mask_zero _ (g_flow _ _ _ _ Hg)).
  - intros Hns Hg [H _]%operation_inv. clear result lit. revert c Hg H.
    induction IH as [|n ns Hn _ IH]; intros c Hg H; simpl in *; [by subst|].
    apply orb_false_iff in Hns as [Hmn Hmns]. destruct H as (j & c1 & H1 & H).
    destruct (accepts_good _ _ _ _ Hg H1) as [Hg1 _].
    eapply Htrans; [by apply (IH Hmns c1) | by eapply Hn].
Qed.

(** The type an accepted expression has is the type of its values. *)
Lemma accepts_type n c i c' A D env :
  well c -> accepts n c i c' -> holds A D locals env ->
  info_type i = expression_type store type_bool globals env n.
Proof.
  intros Hg H Henv. revert c i c' Hg H.
  induction n as [x|q t e IHq IHt IHe|o IHo|op l r IHl IHr|result lit ns IH]
    using Node_tree_ind; intros c i c' Hg H; simpl.
  - destruct (ident_inv _ _ _ _ Hg H) as (_ & _ & s & Hm & -> & _).
    pose proof (lookup_ok _ _ _ _ x Henv) as Hl.
    destruct Hm as [[Hx _]|(Hx & Hgl & _)]; rewrite Hx in Hl.
    + destruct Hl as (v & -> & _ & Ht & _). simpl in Ht. by rewrite Ht.
    + by rewrite Hl, Hgl.
  - destruct (if_inv _ _ _ _ _ _ Hg H) as (iq & c1 & it & ct & c2 & ie & ce & c3 & f & Kq & Kt & St
      & Ke & Se & Hm & -> & _ & ->).
    by rewrite (IHt _ _ _ (ck_good _ _ _ _ _ Kt) (ck_accepts _ _ _ _ _ Kt)),
      (IHe _ _ _ (ck_good _ _ _ _ _ Ke) (ck_accepts _ _ _ _ _ Ke)).
  - destruct (move_inv _ _ _ _ Hg H) as (x & s & c1 & -> & Hx & _ & _ & _ & _ & _ & _ & _ & ->).
    by rewrite <- (IHo _ _ _ Hg Hx).
  - by destruct (logical_inv _ _ _ _ _ _ Hg H) as (il & c1 & ir & cr & c2 & F & _ & _ & _ & _ & _ & -> & _).
  - by destruct (operation_inv _ _ _ _ _ _ H) as [_ ->].
Qed.

(** ** Runs *)

Context {laws : EvaluatorLaws store globals} (T : Symbol -> Prop) (full : bool).
Implicit Types (K D : Symbol -> Prop).

(** The variables are as the flow state of [c] says. *)
Abbreviation tracks K D n c env := (tracked store T full K D n (flow c) locals env).

Definition sound_node (n : Node) : Prop := forall K D c i c' env r,
  well c -> accepts n c i c' -> uses_ok store T c' -> guarded store K c ->
  reachable (flow c) = true \/ unconditional n = true ->
  tracks K D (count (flow c)) c env -> eval globals env n r ->
  exists env' v, r = Some (env', v) /\ tracks K D (count (flow c)) c' env'.

(** Operands after each other. *)
Lemma sound_operands ns :
  Forall sound_node ns -> forall K D c c' env r,
  well c -> accepts_all ns c c' -> uses_ok store T c' -> guarded store K c ->
  reachable (flow c) = true \/ forallb unconditional ns = true ->
  tracks K D (count (flow c)) c env -> eval_all globals env ns r ->
  exists env', r = Some env' /\ tracks K D (count (flow c)) c' env'.
Proof.
  intros Hns K D. induction Hns as [|n ns Hn _ IH]; intros c c' env r Hg Ha Hu HK Hr Htr Hev;
    simpl in Ha.
  - subst c'. inversion Hev; subst. eauto.
  - destruct Ha as (i & c1 & H1 & Ha). destruct (accepts_good _ _ _ _ Hg H1) as [Hg1 Hs1].
    destruct (accepts_all_good _ _ _ Hg1 Ha) as [_ Hs2].
    assert (Hu1 : uses_ok store T c1) by (by eapply uses_ok_steady; [apply expression_steady|]).
    assert (Hr1 : reachable (flow c) = true \/ unconditional n = true).
    { destruct Hr as [?|[? ?]%andb_true_iff]; auto. }
    assert (Hrun : forall r', eval globals env n r' -> exists env' v, r' = Some (env', v)
              /\ tracks K D (count (flow c)) c1 env') by (intros; by eapply Hn).
    inversion Hev as [|? ? ? He|? ? ? env1 v1 ? He Hrest]; subst.
    + destruct (Hrun _ He) as (? & ? & ? & _). done.
    + destruct (Hrun _ He) as (? & ? & [= <- <-] & Htr1). rewrite <- (es_count _ _ Hs1) in *.
      eapply IH; try done.
      * eapply guarded_steady; [by apply expression_steady | done].
      * rewrite (es_reachable _ _ Hs1). destruct Hr as [?|[? ?]%andb_true_iff]; auto.
Qed.

Lemma testbit_initialized : Z.testbit FLOW_DEFINITELY_INITIALIZED 0 = false.
Proof. reflexivity. Qed.

(** A local variable that may be read is live. *)
Lemma read_live K D c x s c' env :
  scope_lookup locals x = Some s -> slot_ok store (flow c) 0 (count (flow c)) s ->
  mask (flow c) (slot s) = FLOW_DEFINITELY_INITIALIZED -> is_captured store s c' ->
  uses_ok store T c' -> tracks K D (count (flow c)) c env ->
  exists v, lookup_variable env x = Some v /\ live v = true.
Proof.
  intros Hx Hok Hm Hcap Hu Htr. pose proof (lookup_ok _ _ _ _ x Htr) as Hl. rewrite Hx in Hl.
  destruct Hl as (v & Hv & _ & _ & Halive & _). exists v. split; [done|]. apply Halive. right.
  destruct Hok as (Hsym & [_ Hlt] & _). split_and!; [|done|by rewrite Hm].
  destruct Hu as [?|(Hd & Hn & Hc)]; [done|].
  destruct (contains_resource_by_value store (sym_type s)) eqn:Hres; [|by apply Hn].
  apply Hc, Hcap; [done | done |]. by eapply flow_symbol_has.
Qed.

Lemma sound_ident x : sound_node (NIdent x).
Proof.
  intros K D c i c' env r Hg H Hu _ _ Htr Hev.
  destruct (ident_inv _ _ _ _ Hg H) as (Hf & _ & s & Hm & -> & Hcap & Hinit). rewrite Hf.
  pose proof (lookup_ok _ _ _ _ x Htr) as Hl.
  destruct Hm as [[Hx Hok]|(Hx & Hgl & _)]; rewrite Hx in Hl.
  - destruct (read_live K D c x s c' env Hx Hok (Hinit Hok) Hcap Hu Htr) as (v & Hv & Hlive).
    inversion Hev; subst; try congruence. eauto.
  - inversion Hev; subst; try congruence. eauto.
Qed.

(** The state behind a use of a name is the state before it. *)
Lemma flow_tracks K D n c c' env : flow c' = flow c -> tracks K D n c env -> tracks K D n c' env.
Proof. by intros ->. Qed.

Lemma sound_move o : sound_node o -> sound_node (NMove o).
Proof.
  intros IH K D c i c' env r Hg H Hu HK Hr Htr Hev.
  destruct (move_inv _ _ _ _ Hg H) as (x & s & c1 & -> & Hx & Hs1 & Hf & Hl & Hok & Hres & Hact & -> & _).
  assert (Hu1 : uses_ok store T c1).
  { eapply uses_ok_steady; [|exact Hu]. by apply flow_steady; rewrite Hf. }
  assert (Hrun : forall r', eval globals env (NIdent x) r' -> exists env' v, r' = Some (env', v)
            /\ tracks K D (count (flow c)) c1 env').
  { intros r' Hr'. by eapply IH; try done; right. }
  inversion Hev as [| | | | |? ? He|? ? env1 v1 He| | | | |]; subst.
  { destruct (Hrun _ He) as (? & ? & ? & _). done. }
  destruct (Hrun _ He) as (? & ? & [= <- <-] & Htr1). eexists _, _. split; [done|]. simpl.
  pose proof Hok as (_ & [_ Hlt] & _).
  assert (Hmask : forall s', mask (set_mask (slot s) FLOW_DEFINITELY_UNINITIALIZED (flow c)) (slot s')
            = if decide (slot s' = slot s) then FLOW_DEFINITELY_UNINITIALIZED
              else mask (flow c) (slot s')).
  { intros s'. apply mask_set_mask; [apply (g_flow _ _ _ _ Hg) | done]. }
  unfold tracked in Htr1. rewrite Hf in Htr1.
  eapply (set_live_ok store _ _ _ _ (flow c)); [exact Htr1 | done | apply (g_locals _ _ _ _ Hg) | | |].
  - intros s' _ Hne. unfold alive_by, dead_by. by rewrite Hmask, decide_False.
  - intros [HKs|(_ & _ & Hbit)].
    + destruct (HK s HKs) as [_ [?|Hin]]; [congruence|].
      rewrite <- (es_active _ _ Hs1) in Hin. congruence.
    + by rewrite Hmask, decide_True in Hbit.
  - done.
Qed.

Lemma checked_reachable F n i c c' : checked_from F n i c c' -> reachable (flow c) = reachable F.
Proof. intros [_ _ Heq]. by rewrite Heq. Qed.

(** An operand from a state that the environment satisfies. *)
Lemma sound_operand n K D c0 c i c' env r :
  sound_node n -> checked_from (flow c0) n i c c' -> steady c0 c -> uses_ok store T c' ->
  guarded store K c0 -> reachable (flow c0) = true \/ unconditional n = true ->
  tracks K D (count (flow c0)) c0 env -> eval globals env n r ->
  exists env' v, r = Some (env', v) /\ tracks K D (count (flow c0)) c' env'.
Proof.
  intros IH Kn Hst Hu HK Hr Htr Hev. pose proof Kn as [Ha Hg Heq].
  rewrite <- (st_count _ _ Hst). eapply IH; try done.
  - by eapply guarded_steady.
  - by rewrite (checked_reachable _ _ _ _ _ Kn).
  - rewrite (st_count _ _ Hst). eapply tracked_below; [|exact Htr].
    apply equiv_below. by symmetry.
Qed.

(** One of the two paths of a merge was taken. *)
Lemma merged_tracks K D n cl cr F env (l r : FlowState) c0 :
  merged l r n F -> (reachable (flow c0) = true \/ same_masks l r) ->
  reachable l = reachable (flow c0) -> reachable r = reachable (flow c0) ->
  flow cl = l -> flow cr = r ->
  tracks K D n cl env \/ tracks K D n cr env -> tracked store T full K D n F locals env.
Proof.
  intros Hm Hor Hl Hr <- <- Htr.
  assert (Hbelow : below n (flow cl) F /\ below n (flow cr) F).
  { destruct Hor as [Hre|Hsame].
    - rewrite Hre in *. split; [by eapply merged_below_l | by eapply merged_below_r].
    - assert (HF : forall i, (i < n)%nat -> mask F i = mask (flow cl) i).
      { intros i Hi. destruct Hm as (_ & _ & _ & Hm & _). rewrite Hm, decide_True by done.
        unfold join_mask. rewrite (Hsame i), Hl, Hr. destruct (reachable (flow c0)); [|done].
        apply Z.lor_diag. }
      split; intros i Hi; rewrite HF by done; [reflexivity|]. rewrite (Hsame i). reflexivity. }
  destruct Htr as [Htr|Htr]; (eapply tracked_below; [|exact Htr]); apply Hbelow.
Qed.

Lemma checked_pure F n i c c' : checked_from F n i c c' -> moves n = false -> same_masks (flow c') F.
Proof.
  intros [Ha Hg Heq] Hm j. rewrite (accepts_pure _ _ _ _ Hm Hg Ha j). by apply equiv_same.
Qed.

Lemma pure_unconditional n : moves n = false -> unconditional n = true.
Proof.
  induction n as [x|q t e IHq IHt IHe|o IHo|op l r IHl IHr|result lit ns IH]
    using Node_tree_ind; simpl; try done.
  - intros [[Hq Ht]%orb_false_iff He]%orb_false_iff. by rewrite IHq, Ht, He.
  - intros [Hl Hr]%orb_false_iff. by rewrite IHl, Hr.
  - induction IH as [|n ns Hn _ IH]; simpl; [done|]. intros [H1 H2]%orb_false_iff.
    by rewrite Hn, IH.
Qed.

Lemma sound_if q t e :
  sound_node q -> sound_node t -> sound_node e -> sound_node (NIfExpr q t e).
Proof.
  intros IHq IHt IHe K D c i c' env r Hg H Hu HK Hr Htr Hev.
  destruct (if_inv _ _ _ _ _ _ Hg H) as (iq & c1 & it & ct & c2 & ie & ce & c3 & f & Kq & Kt & St
    & Ke & Se & Hm & -> & S3 & _).
  destruct (checked_good _ _ _ _ _ Kq) as [Hg1 Hs1%expression_steady].
  destruct (checked_good _ _ _ _ _ Kt) as [Hg2 Hs2%expression_steady].
  destruct (checked_good _ _ _ _ _ Ke) as [Hg3 Hs3%expression_steady].
  assert (H12 : steady c1 c2) by (by etrans). assert (H23 : steady c2 c3) by (by etrans).
  assert (H1e : steady c1 ce) by (by etrans).
  pose proof (uses_ok_steady store T _ _ S3 Hu) as Hu3.
  pose proof (uses_ok_steady store T _ _ H23 Hu3) as Hu2.
  pose proof (uses_ok_steady store T _ _ H12 Hu2) as Hu1.
  assert (Hr1 : reachable (flow c1) = true \/ moves t = false /\ moves e = false).
  { rewrite (st_reachable _ _ Hs1). destruct Hr as [?|Hun]; [by left | right].
    simpl in Hun. apply andb_true_iff in Hun as [[_ ?%negb_true_iff]%andb_true_iff ?%negb_true_iff].
    done. }
  assert (Hrq : forall r', eval globals env q r' -> exists env' v, r' = Some (env', v)
            /\ tracks K D (count (flow c1)) c1 env').
  { intros r' Hr'. rewrite (st_count _ _ Hs1).
    eapply (IHq K D c); try done; try apply Kq. destruct Hr as [?|Hun]; [by left | right].
    simpl in Hun. by apply andb_true_iff in Hun as [[? _]%andb_true_iff _]. }
  assert (HK1 : guarded store K c1) by (by eapply guarded_steady).
  assert (Hgoal : forall env', tracks K D (count (flow c1)) c2 env'
            \/ tracks K D (count (flow c1)) c3 env' ->
            tracks K D (count (flow c)) (set_flow f c3) env').
  { rewrite <- (st_count _ _ Hs1) in *. intros env'.
    apply (merged_tracks K D _ c2 c3 f env' _ _ c1 Hm); try done.
    - destruct Hr1 as [?|[Ht He]]; [by left | right]. intros j.
      by rewrite (checked_pure _ _ _ _ _ Kt Ht j), (checked_pure _ _ _ _ _ Ke He j).
    - apply (st_reachable _ _ H12).
    - rewrite (st_reachable _ _ H23). apply (st_reachable _ _ H12). }
  inversion Hev as [| | |? ? ? ? He|? ? ? ? env1 b ? He Hb| | | | | | |]; subst.
  { destruct (Hrq _ He) as (? & ? & ? & _). done. }
  destruct (Hrq _ He) as (? & ? & [= <- <-] & Htr1). destruct b.
  - destruct (sound_operand t K D c1 ct it c2 env1 r IHt) as (env' & v & -> & Htr2); try done.
    { destruct Hr1 as [?|[? _]]; auto using pure_unconditional. }
    eexists _, _. split; [done|]. apply Hgoal. by left.
  - destruct (sound_operand e K D c1 ce ie c3 env1 r IHe) as (env' & v & -> & Htr2); try done.
    { destruct Hr1 as [?|[_ ?]]; auto using pure_unconditional. }
    eexists _, _. split; [done|]. apply Hgoal. by right.
Qed.

Lemma sound_logical op l r : sound_node l -> sound_node r -> sound_node (NLogical op l r).
Proof.
  intros IHl IHr K D c i c' env res Hg H Hu HK Hr Htr Hev.
  destruct (logical_inv _ _ _ _ _ _ Hg H) as (il & c1 & ir & cr & c2 & F & Kl & Kr & Sr & -> & S2 & _ & HF).
  destruct (checked_good _ _ _ _ _ Kl) as [Hg1 Hs1%expression_steady].
  destruct (checked_good _ _ _ _ _ Kr) as [Hg2 Hs2%expression_steady].
  assert (H12 : steady c1 c2) by (by etrans).
  pose proof (uses_ok_steady store T _ _ S2 Hu) as Hu2.
  pose proof (uses_ok_steady store T _ _ H12 Hu2) as Hu1.
  assert (Hr1 : reachable (flow c1) = true \/ moves r = false).
  { rewrite (st_reachable _ _ Hs1). destruct Hr as [?|Hun]; [by left | right].
    simpl in Hun. by apply andb_true_iff in Hun as [_ ?%negb_true_iff]. }
  assert (HK1 : guarded store K c1) by (by eapply guarded_steady).
  assert (Hrl : forall r', eval globals env l r' -> exists env' v, r' = Some (env', v)
            /\ tracks K D (count (flow c1)) c1 env').
  { intros r' Hr'. rewrite (st_count _ _ Hs1).
    eapply (IHl K D c); try done; try apply Kl. destruct Hr as [?|Hun]; [by left | right].
    simpl in Hun. by apply andb_true_iff in Hun as [? _]. }
  assert (Hmerge : merged (flow c1) (flow c2) (count (flow c1)) F -> forall env',
            tracks K D (count (flow c1)) c1 env' \/ tracks K D (count (flow c1)) c2 env' ->
            tracks K D (count (flow c1)) (set_flow F c2) env').
  { intros Hm env'. apply (merged_tracks K D _ c1 c2 F env' _ _ c1 Hm); try done.
    - destruct Hr1 as [?|Hp]; [by left | right]. intros j.
      by rewrite (checked_pure _ _ _ _ _ Kr Hp j).
    - apply (st_reachable _ _ H12). }
  rewrite <- (st_count _ _ Hs1) in *.
  inversion Hev as [| | | | | | |? ? ? ? He|? ? ? ? env1 b He Hb|? ? ? ? env1 b ? He Hb Her| | ]; subst.
  { destruct (Hrl _ He) as (? & ? & ? & _). done. }
  - destruct (Hrl _ He) as (? & ? & [= <- <-] & Htr1). eexists _, _. split; [done|].
    destruct (expression_compile_time_bool_value l) as [b0|] eqn:Hconst.
    + pose proof (constant_sound store globals l b0 _ _ _ Hconst He) as [= ->].
      rewrite Hb in HF. eapply tracked_below; [|exact Htr1]. apply equiv_below. by symmetry.
    + apply (Hmerge HF). by left.
  - destruct (Hrl _ He) as (? & ? & [= <- <-] & Htr1).
    destruct (sound_operand r K D c1 cr ir c2 env1 res IHr) as (env' & v & -> & Htr2); try done.
    { destruct Hr1; auto using pure_unconditional. }
    eexists _, _. split; [done|].
    destruct (expression_compile_time_bool_value l) as [b0|] eqn:Hconst.
    + pose proof (constant_sound store globals l b0 _ _ _ Hconst He) as [= ->].
      rewrite Hb in HF. eapply tracked_below; [|exact Htr2]. apply equiv_below. by symmetry.
    + apply (Hmerge HF). by right.
Qed.

Lemma sound_expression n : sound_node n.
Proof.
  induction n as [x|q t e IHq IHt IHe|o IHo|op l r IHl IHr|result lit ns IH] using Node_tree_ind.
  - apply sound_ident.
  - by apply sound_if.
  - by apply sound_move.
  - by apply sound_logical.
  - intros K D c i c' env r Hg [H _]%operation_inv Hu HK Hr Htr Hev.
    assert (Hrun : forall r', eval_all globals env ns r' -> exists env', r' = Some env'
              /\ tracks K D (count (flow c)) c' env') by (intros r'; by apply (sound_operands ns IH)).
    inversion Hev as [| | | | | | | | | |? ? ? ? He|? ? ? ? ? env1 v He Hv]; subst.
    + destruct (Hrun _ He) as (? & ? & _). done.
    + destruct (Hrun _ He) as (? & [= <-] & ?). eauto.
Qed.

(** The value form, when the state is reachable. *)
Lemma sound_value K D n c i c' env r :
  well c -> accepts_value n c i c' -> uses_ok store T c' -> guarded store K c ->
  reachable (flow c) = true \/ unconditional n = true ->
  tracks K D (count (flow c)) c env -> eval globals env n r ->
  exists env' v, r = Some (env', v) /\ tracks K D (count (flow c)) c' env'.
Proof. intros Hg H%value_inv. exact (sound_expression n K D c i c' env r Hg H). Qed.
End Expressions.
