(* ===== verification/FlowDefer.v ===== *)
(** Deferred statements at run time: a plain statement leaves the owners as they are and kills
    no variable, and the deferred statements of a block, if each is ready for the variables
    it sees, run to the end. *)
From S2P Require Import Prelude Token Types IntegerValue TypeRelations FlowState FlowCheck.
From S2P Require Import FlowInvariant FlowTotal FlowRun FlowTrack.

Section Defers.
Context (store : TypeStore) (type_bool : TypePtr) (globals : list Scope)
  {evaluator : ConstantEvaluator} (N : string -> bool).

(** ** Plain statements

    [N] says which names may be the names of owners. *)

Definition plain_expr (e : StatementExpr) : bool :=
  match e with
  | EAssign (NIdent x) value _ => negb (N x) && negb (moves (init_node value))
  | EAssign target value _ => negb (moves target) && negb (moves (init_node value))
  | EDiscard n | EValue n _ => negb (moves n)
  end.

(** Blocks and conditionals of expressions that move nothing and assign to no owner. *)
Fixpoint plain (s : Statement) : bool :=
  match s with
  | SBlock b => forallb plain b
  | SExpr e => plain_expr e
  | SIf c t e =>
      negb (moves c) && forallb plain t && match e with Some s => plain s | None => true end
  | _ => false
  end.

(** The same variables: what is live stays live, and an owner does not change. *)
Definition cell_le (p q : string * Cell) : Prop :=
  p.1 = q.1 /\ var_type p.2 = var_type q.2 /\ (live p.2 = true -> live q.2 = true)
  /\ (N p.1 = true -> live q.2 = live p.2).

Definition frame_le : Frame -> Frame -> Prop := Forall2 cell_le.
Definition env_le : Environment -> Environment -> Prop := Forall2 frame_le.

#[global] Instance cell_le_preorder : PreOrder cell_le.
Proof.
  split; [by intros p | intros p q r (H1 & H2 & H3 & H4) (H1' & H2' & H3' & H4')].
  split_and!; [congruence | congruence | auto |]. intros Hp. rewrite H4'; [auto|]. by rewrite <- H1.
Qed.

#[global] Instance env_le_preorder : PreOrder env_le := _.

Lemma eval_pure env n env' v :
  moves n = false -> eval globals env n (Some (env', v)) -> env' = env.
Proof.
  revert env env' v. induction n as [x|q t e IHq IHt IHe|o IHo|op l r IHl IHr|result lit ns IH]
    using Node_tree_ind; intros env env' v; simpl.
  - intros _ H. by inversion H.
  - intros [[Hq Ht]%orb_false_iff He]%orb_false_iff H.
    inversion H as [| | | |? ? ? ? env1 b ? H1 H2| | | | | | |]; subst.
    rewrite (IHq _ _ _ Hq H1) in *. destruct b; eauto.
  - done.
  - intros [Hl Hr]%orb_false_iff H. inversion H; subst; [eauto|].
    rewrite (IHl env env'0 _ Hl) in * by done. eauto.
  - intros Hns H. inversion H as [| | | | | | | | | | |? ? ? ? ? ? ? Hall _]; subst. clear H.
    revert Hns env Hall. induction IH as [|n ns Hn _ IH]; intros Hns env Hall; simpl in Hns.
    + by inversion Hall.
    + apply orb_false_iff in Hns as [H1 H2].
      inversion Hall as [| |? ? ? env1 v1 ? He Hrest]; subst.
      rewrite (Hn _ _ _ H1 He) in *. auto.
Qed.

Lemma frame_set_le f x : N x = false -> frame_le f (frame_set f x true).
Proof.
  intros Hx. induction f as [|[y v] f IH]; simpl; [constructor|].
  destruct (String.eqb_spec y x) as [->|]; constructor; try reflexivity; [|done].
  split_and!; simpl; try done. congruence.
Qed.

Lemma set_live_le env x : N x = false -> env_le env (set_live env x true).
Proof.
  intros Hx. induction env as [|f env IH]; simpl; [constructor|].
  destruct (frame_lookup f x); constructor; try reflexivity; [by apply frame_set_le | done].
Qed.

Lemma plain_expr_le env e env' :
  plain_expr e = true -> exec_expr store globals env e (Some env') -> env_le env env'.
Proof.
  intros Hp H. inversion H as [|? ? ? ?|? ? ? ? ? ? He|? ? ? ? |? ? ? ? ? ? Hx He|? ? ? ? ? ? ? ? Hx Ht He
    |?|? ? ? ? He|?|? ? ? ? ? He]; subst; simpl in Hp.
  - apply andb_true_iff in Hp as [Hn%negb_true_iff Hm%negb_true_iff].
    rewrite (eval_pure _ _ _ _ Hm He). by apply set_live_le.
  - assert (moves target = false /\ moves (init_node value) = false) as [Hm Hm'].
    { destruct target as [y| | | |]; [by destruct (Hx y)|..];
        by apply andb_true_iff in Hp as [?%negb_true_iff ?%negb_true_iff]. }
    rewrite (eval_pure _ _ _ _ Hm' He), (eval_pure _ _ _ _ Hm Ht). reflexivity.
  - apply negb_true_iff in Hp. rewrite (eval_pure _ _ _ _ Hp He). reflexivity.
  - apply negb_true_iff in Hp. rewrite (eval_pure _ _ _ _ Hp He). reflexivity.
Qed.

Definition plain_run (s : Statement) : Prop :=
  plain s = true -> forall env env' out, exec store type_bool globals env s env' out ->
  out <> Faulted -> out = Normal /\ env_le env env'.

(** The ways a block of at least one statement runs. *)
Lemma block_cases env s b defers env' out :
  exec_block store type_bool globals env (s :: b) defers env' out ->
  (exists d f env0, s = SDefer d /\ env = f :: env0
     /\ exec_block store type_bool globals env b ((length f, d) :: defers) env' out)
  \/ (exists env1, exec store type_bool globals env s env1 Normal
        /\ exec_block store type_bool globals env1 b defers env' out)
  \/ (exists env1 left, exec store type_bool globals env s env1 left /\ left <> Normal
        /\ left <> Faulted /\ exec_defers store type_bool globals env1 defers left env' out)
  \/ out = Faulted /\ exec store type_bool globals env s env' Faulted.
Proof.
  inversion 1; subst; [left | right; left | right; right; left | right; right; right]; eauto 10.
Qed.

Lemma plain_block b : Forall plain_run b -> forallb plain b = true -> forall env env' out,
  exec_scope store type_bool globals env b env' out -> out <> Faulted -> out = Normal /\ env_le env env'.
Proof.
  intros Hb Hp env env' out H Hout. inversion H as [? ? f ? ? Hrun]; subst. clear H.
  cut (out = Normal /\ env_le ([] :: env) (f :: env')).
  { intros [? Hle]. split; [done|]. by apply Forall2_cons in Hle as [_ ?]. }
  revert Hrun. generalize ([] :: env) (f :: env'). clear env env' f.
  intros env env'. revert env. induction Hb as [|s b Hs _ IH]; intros env Hrun.
  - inversion Hrun as [? ? ? ? Hd| | | |]; subst. inversion Hd; subst. by split.
  - simpl in Hp. apply andb_true_iff in Hp as [Hps Hpb]. specialize (IH Hpb).
    apply block_cases in Hrun as [(d & f & env0 & -> & _)|[(env1 & H1 & H2)|[(env1 & lft & H1 & Hn & Hf & _)
      |[? _]]]]; try done.
    + destruct (Hs Hps _ _ _ H1) as [_ Hle1]; [done|]. destruct (IH _ H2) as [? Hle2].
      split; [done | by etrans].
    + by destruct (Hs Hps _ _ _ H1) as [? _].
Qed.

Lemma plain_runs s : plain_run s.
Proof.
  induction s as [b IH|x d i t|e|cond t e IHt IHe|cond t e IHt IHe|cond b IH|cond p b IH
                 |n t cases IH| | |v|d IH] using Statement_tree_ind;
    intros Hp env env' out H Hout; try done.
  - inversion H; subst. by eapply plain_block.
  - inversion H; subst. destruct r as [env1|]; [|done]. split; [done|]. by eapply plain_expr_le.
  - cbn [plain] in Hp. apply andb_true_iff in Hp as [[Hc%negb_true_iff Ht]%andb_true_iff He].
    assert (Hcond : forall env1 v, eval globals env cond (Some (env1, v)) -> env1 = env)
      by (intros env1 v; by apply eval_pure).
    inversion H as [| | | | |? ? ? ? Hv|? ? ? ? env1 ? ? Hv Hb|? ? ? ? env1 ? ? Hv Hb|? ? ? ? Hv| | | | | | | | | | | | |];
      subst; try done; apply Hcond in Hv; subst.
    + by eapply (plain_block t).
    + by eapply (IHe e0 eq_refl).
    + by split.
Qed.

(** ** What a deferred statement needs *)

(** The names of the owners. *)
Definition named (scopes : list Scope) : Prop :=
  forall s, in_scopes scopes s -> contains_resource_by_value store (sym_type s) = true ->
    N (sym_name s) = true.

Lemma holds_le A D scopes env env' :
  named scopes -> (forall s, D s -> contains_resource_by_value store (sym_type s) = true) ->
  env_le env env' -> holds A D scopes env -> holds A D scopes env'.
Proof.
  intros Hn HD Hle H. revert env' Hle Hn.
  induction H as [|sc f scopes env Hf _ IH]; intros env' Hle Hn; inversion Hle as [|? f' ? env2 Hff Hrest]; subst.
  { constructor. }
  constructor.
  - assert (Hhere : forall s, s ∈ symbols sc -> contains_resource_by_value store (sym_type s) = true ->
              N (sym_name s) = true).
    { intros s Hs. apply Hn. exists sc. split; [by left | done]. }
    unfold frame_ok in *. clear -Hf Hff Hhere HD. revert f' Hff.
    induction Hf as [|s p ss f (Hname & Ht & Ha & Hd) _ IH]; intros f' Hff;
      inversion Hff as [|? q ? f2 (Q1 & Q2 & Q3 & Q4) Hrest]; subst; constructor.
    + split_and!; [congruence | congruence | auto |]. intros HDs.
      rewrite Q4; [auto|]. rewrite Hname. apply Hhere; [by left | auto].
    + apply IH; [|done]. intros s' Hs'. apply Hhere. by right.
  - apply IH; [done|]. intros s (sc' & Hsc & Hs). apply Hn. exists sc'. split; [by right | done].
Qed.

Definition nothing (s : Symbol) : Prop := False.

(** The deferred statement [p], reached when its block had [p.1] variables, runs from every
    environment with these variables in which the symbols in [K] are live. *)
Definition ready (K : Symbol -> Prop) (locals : list Scope) (p : nat * Statement) : Prop :=
  exists sc rest newer older, locals = sc :: rest /\ symbols sc = newer ++ older
    /\ length older = p.1 /\ plain p.2 = true
    /\ forall f env env' out,
         holds K nothing (mkScope older (flow_count_mark sc) :: rest) (f :: env) ->
         exec store type_bool globals (f :: env) p.2 env' out -> out <> Faulted.

Lemma ready_mono (K K' : Symbol -> Prop) locals p :
  (forall s, K s -> K' s) -> ready K locals p -> ready K' locals p.
Proof.
  intros HK (sc & rest & newer & older & -> & Hs & Hlen & Hp & Hrun).
  exists sc, rest, newer, older. split_and!; try done. intros f env env' out Hh.
  apply Hrun. eapply holds_mono; [| |exact Hh]; auto.
Qed.

Lemma ready_extends K locals locals' p :
  extends locals locals' -> ready K locals p -> ready K locals' p.
Proof.
  intros Hx (sc & rest & newer & older & -> & Hs & Hlen & Hp & Hrun).
  destruct locals' as [|sc' rest']; [done|]. destruct Hx as (-> & Hmark & new & Hnew).
  exists sc', rest, (new ++ newer), older. split_and!; try done.
  - by rewrite Hnew, Hs, app_assoc.
  - by rewrite Hmark.
Qed.

Lemma frame_split A D newer_s older_s m newer older :
  frame_ok A D (mkScope (newer_s ++ older_s) m) (newer ++ older) -> length older_s = length older ->
  Forall2 (cell_ok A D) newer_s newer /\ frame_ok A D (mkScope older_s m) older.
Proof.
  unfold frame_ok. simpl. intros H Hlen. apply Forall2_app_inv in H; [done|].
  apply Forall2_length in H. rewrite !length_app in H. lia.
Qed.

Lemma defers_run K locals defers env out env' out' :
  named locals -> Forall (ready K locals) defers -> holds K nothing locals env ->
  exec_defers store type_bool globals env defers out env' out' -> out' = out /\ env_le env env'.
Proof.
  intros Hn Hd. revert env. induction Hd as [|[n s] defers Hr _ IH]; intros env Hh H.
  { by inversion H. }
  destruct Hr as (sc & rest & newer_s & older_s & -> & Hs & Hlen & Hp & Hrun). simpl in *.
  assert (Hstart : forall newer older env0, env = (newer ++ older) :: env0 -> length older = n ->
            Forall2 (cell_ok K nothing) newer_s newer
            /\ frame_ok K nothing (mkScope older_s (flow_count_mark sc)) older
            /\ holds K nothing rest env0).
  { intros newer older env0 -> Ho. apply Forall2_cons in Hh as [Hf Hrest].
    destruct sc as [ss mark]. simpl in Hs. subst ss.
    destruct (frame_split _ _ _ _ _ _ _ Hf) as [H1 H2]; [congruence | done]. }
  inversion H as [|newer older env0 ? ? ? ? older' env1 ? ? Ho Hex Hrest|newer older env0 ? ? ? ? ? Ho Hex]; subst.
  - destruct (Hstart _ _ _ eq_refl Ho) as (H1 & H2 & H3).
    destruct (plain_runs s Hp _ _ _ Hex) as [_ Hle]; [done|].
    apply Forall2_cons in Hle as [Hle1 Hle2].
    assert (Hle : env_le ((newer ++ older) :: env0) ((newer ++ older') :: env1)).
    { constructor; [|done]. apply Forall2_app; [reflexivity | done]. }
    destruct (IH ((newer ++ older') :: env1)) as [-> Hle'].
    + eapply holds_le; [exact Hn | | exact Hle | exact Hh]. done.
    + done.
    + split; [done | by etrans].
  - destruct (Hstart _ _ _ eq_refl Ho) as (H1 & H2 & H3).
    exfalso. eapply Hrun; [|exact Hex|done]. by constructor.
Qed.
End Defers.
