(* ===== verification/FlowAssign.v ===== *)
(** Accepted expression statements run without a fault: in particular an assignment never
    overwrites a live owner. *)
From S2P Require Import Prelude Token Types IntegerValue TypeRelations FlowState FlowCheck.
From S2P Require Import FlowInvariant FlowTotal FlowRun FlowTrack FlowExpression FlowDefer.

(** ** What an accepted statement was checked as *)

Section Inversion.
Context (store : TypeStore) (type_bool : TypePtr) {evaluator : ConstantEvaluator}
  (Hbool : is_Some type_bool) (locals globals : list Scope).

Abbreviation well c := (good store locals globals c).
Abbreviation accepts_value n c i c' :=
  (check_value_expression store type_bool n c = Returned (Some i, c')).

Lemma value_good n c i c' : well c -> accepts_value n c i c' -> well c' /\ expression_step c c'.
Proof. intros Hg H%value_inv. by eapply accepts_good. Qed.

(** The value of an expression is checked against an expected type. *)
Lemma initializer_inv t i c c' :
  well c -> check_initializer_against_type store type_bool t i c = Returned (true, c') ->
  exists info c1, accepts_value (init_node i) c info c1 /\ well c1 /\ expression_step c c1
    /\ c' = c1.
Proof.
  intros Hg. unfold check_initializer_against_type. destruct (negb _); [done|]. intros H.
  apply bind_inv in H as ([info|] & c1 & Hv & H); [|done].
  destruct (value_good _ _ _ _ Hg Hv) as [Hg1 Hs1].
  apply bind_inv in H as (ok & c2 & Hok & H).
  assert (Hc : ok = true -> c2 = c1).
  { unfold check_resource_transfer_expression in Hok. destruct (negb _); [by injection Hok|].
    destruct (bool_decide _); [by apply bind_inv in Hok as (? & ? & _ & [= <- _])|]. by injection Hok. }
  destruct ok; simpl in H; [|done]. specialize (Hc eq_refl). subst c2.
  destruct (negb _); [by apply bind_inv in H as (? & ? & _ & [=])|].
  destruct (negb _); [by apply bind_inv in H as (? & ? & _ & [=])|]. injection H as <-. eauto 10.
Qed.

(** An expression statement is accepted exactly when it answers 1. *)
Lemma statement_expression_accepts e c ok c' :
  well c -> check_statement_expression store type_bool e c = Returned (ok, c') ->
  errors c' = errors c -> ok = true.
Proof.
  intros Hg H He.
  destruct (steps_inv _ _ _ _ _ (check_statement_expression_spec _ _ Hbool _ _ e c Hg) H) as (_ & _ & Hok).
  destruct ok; [done|]. specialize (Hok eq_refl). lia.
Qed.

Lemma target_inv target c r c' :
  well c -> check_assignment_target_expression store type_bool target c = Returned (Some r, c') ->
  well c' /\ expression_step c c'
  /\ match target with
     | NIdent x => flow c' = flow c /\ exists s, means store locals globals (flow c) x s
                     /\ r = identifier_info s
     | _ => check_expression store type_bool target c = Returned (Some r, c')
     end.
Proof.
  intros Hg H.
  destruct (steps_inv _ _ _ _ _ (check_target_spec _ _ Hbool _ _ target c Hg) H) as [(Hg' & Hs & _) _].
  split_and!; [done | done |]. destruct target as [x| | | |]; try done. simpl in H.
  destruct (steps_inv _ _ _ _ _ (check_identifier_spec _ _ _ _ x IDENTIFIER_USE_WRITE_TARGET Hg) H)
    as [_ Hid].
  destruct (Hid r eq_refl) as (Hf & s & Hm & Hi & _). split; [done|]. by exists s.
Qed.

(** The assignment: the target, for an owner the test that it holds nothing, the value, and the
    mark that the variable is initialised. *)
Lemma assignment_inv target value w c c' :
  well c -> check_assignment_statement store type_bool target value w c = Returned (true, c') ->
  exists r c1 c2 info c3,
    check_assignment_target_expression store type_bool target c = Returned (Some r, c1)
    /\ well c1 /\ expression_step c c1
    /\ expression_step c1 c2 /\ flow c2 = flow c1 /\ well c2
    /\ (contains_resource_by_value store (info_type r) = true ->
        exists s, direct_assignment_target_symbol target r = Some s
          /\ mask (flow c1) (slot s) = FLOW_DEFINITELY_UNINITIALIZED)
    /\ accepts_value (init_node value) c2 info c3 /\ well c3 /\ expression_step c2 c3
    /\ steady c3 c'
    /\ flow c' = match direct_assignment_target_symbol target r with
                 | Some s => if has_flow (Some s)
                             then set_mask (slot s) FLOW_DEFINITELY_INITIALIZED (flow c3)
                             else flow c3
                 | None => flow c3
                 end.
Proof.
  intros Hg H. unfold check_assignment_statement in H.
  apply bind_inv in H as ([r|] & c1 & Ht & H); [|done].
  destruct (steps_inv _ _ _ _ _ (check_target_spec _ _ Hbool _ _ target c Hg) Ht) as [(Hg1 & Hs1 & _) Ha].
  specialize (Ha r eq_refl).
  destruct (negb w); [by apply bind_inv in H as (? & ? & _ & [=])|].
  apply bind_inv in H as (ok & c2 & Hres & H). destruct ok; simpl in H; [|done].
  assert (H2 : well c2 /\ expression_step c1 c2 /\ flow c2 = flow c1
    /\ (contains_resource_by_value store (info_type r) = true ->
        exists s, direct_assignment_target_symbol target r = Some s
          /\ mask (flow c1) (slot s) = FLOW_DEFINITELY_UNINITIALIZED)).
  { destruct (contains_resource_by_value store (info_type r)).
    - destruct (steps_inv _ _ _ _ _ (resource_assignment_spec _ _ _ _ c1 Ha Hg1) Hres)
        as ((Hg2 & Hs2 & _) & Hf2 & Hs).
      destruct (Hs eq_refl) as (s & ? & _ & ?). split_and!; [done | done | done |]. by exists s.
    - injection Hres as <-. by split_and!. }
  destruct H2 as (Hg2 & Hs2 & Hf2 & Hdead).
  apply bind_inv in H as (ok & c3 & Hi & H). destruct ok; simpl in H; [|done].
  destruct (initializer_inv _ _ _ _ Hg2 Hi) as (info & ? & Hv & Hg3 & Hs3 & <-).
  apply bind_inv in H as ([] & c4 & Hm & H). injection H as <-.
  assert (Ha3 : assignable store (flow c3) (direct_assignment_target_symbol target r)).
  { apply (assignable_step _ c2); [done|]. by apply (assignable_step _ c1). }
  destruct (steps_inv _ _ _ _ _ (mark_initialized_spec _ _ _ _ c3 Ha3 Hg3) Hm) as (Hg4 & Hs4 & Hf4).
  exists r, c1, c2, info, c3. split_and!; try done; [by apply expression_steady|].
  rewrite Hf4. by destruct (direct_assignment_target_symbol target r).
Qed.
End Inversion.

(** ** Runs of expression statements *)

Section Runs.
Context (store : TypeStore) (type_bool : TypePtr) {evaluator : ConstantEvaluator}
  (Hbool : is_Some type_bool) (globals : list Scope) {laws : EvaluatorLaws store globals}
  (N : string -> bool).
Implicit Types (K : Symbol -> Prop).

(** What a statement is run with: the context is well formed and reachable, its uses of resources
    are in [T], nothing in [K] can be moved, the owners have names in [N], and the environment is
    as the flow state says. *)
Record entry (T : Symbol -> Prop) (full : bool) K (locals : list Scope) (c c' : SemanticContext)
    (env : Environment) : Prop := {
  en_good : good store locals globals c;
  en_uses : uses_ok store T c';
  en_guarded : guarded store K c;
  en_named : named store N locals;
  en_tracked : tracked store T full K nothing (count (flow c)) (flow c) locals env;
}.

Lemma set_live_none env x b : lookup_variable env x = None -> set_live env x b = env.
Proof.
  induction env as [|f env IH]; simpl; [done|]. destruct (frame_lookup f x); [done|].
  intros H. by rewrite IH.
Qed.

Lemma store_tracked T full K n F locals env x s :
  flow_wf F -> locals_ok store F (count F) locals -> (slot s < count F)%nat ->
  scope_lookup locals x = Some s -> tracked store T full K nothing n F locals env ->
  tracked store T full K nothing n (set_mask (slot s) FLOW_DEFINITELY_INITIALIZED F) locals
    (set_live env x true).
Proof.
  intros Hwf Hl Hlt Hx Htr.
  eapply (set_live_ok store _ _ _ _ F); [exact Htr | done | done | | done |].
  - intros s' _ Hne. unfold alive_by, dead_by. by rewrite mask_set_mask, decide_False.
  - intros [[]|(_ & _ & _ & Hbit)]. by rewrite mask_set_mask, decide_True in Hbit.
Qed.

Lemma means_local locals f x s :
  means store locals globals f x s -> symbol_has_flow_state (Some s) = Returned true ->
  scope_lookup locals x = Some s /\ slot_ok store f 0 (count f) s.
Proof. intros [[? ?]|(_ & _ & Hno)]; [done | congruence]. Qed.

Lemma sound_assign T full K locals c c' env x value w r :
  entry T full K locals c c' env ->
  check_assignment_statement store type_bool (NIdent x) value w c = Returned (true, c') ->
  reachable (flow c) = true -> (full = false -> N x = false) ->
  exec_expr store globals env (EAssign (NIdent x) value w) r ->
  exists env', r = Some env' /\ tracked store T full K nothing (count (flow c)) (flow c') locals env'.
Proof.
  intros [Hg Hu HK Hn Htr] H Hr Hfull Hex.
  destruct (assignment_inv _ _ Hbool _ _ _ _ _ _ _ Hg H)
    as (ti & c1 & c2 & info & c3 & Ht & Hg1 & Hs1 & Hs2 & Hf2 & Hg2 & Hdead & Hv & Hg3 & Hs3 & Hst & Hf').
  destruct (target_inv _ _ Hbool _ _ _ _ _ _ Hg Ht) as (_ & _ & Hf1 & s & Hm & ->).
  rewrite Hf1 in *. simpl in Hdead, Hf'.
  set (D := fun s' : Symbol => dead_by store full (flow c) (count (flow c)) s').
  assert (Hrun : forall r', eval globals env (init_node value) r' -> exists env' v, r' = Some (env', v)
            /\ tracked store T full K D (count (flow c)) (flow c3) locals env').
  { intros r' Hr'. assert (Hst2 : steady c c2) by (etrans; by apply expression_steady).
    rewrite <- (st_count _ _ Hst2).
    eapply (sound_value store type_bool Hbool locals globals T full K D (init_node value) c2); try done.
    - by eapply uses_ok_steady.
    - by eapply guarded_steady.
    - left. by rewrite Hf2.
    - rewrite Hf2. eapply tracked_weaken; [done | reflexivity | by left | | exact Htr].
      intros s' Hs'. by right. }
  assert (Hnot : forall env', tracked store T full K D (count (flow c)) (flow c3) locals env' ->
            overwrites_owner store env' x = false).
  { intros env' Htr'. unfold overwrites_owner. pose proof (lookup_ok _ _ _ _ x Htr') as Hl.
    destruct Hm as [[Hx Hok]|(Hx & _)]; rewrite Hx in Hl; [|by rewrite Hl].
    destruct Hl as (v & -> & Hname & Hty & _ & Hd). simpl in Hty, Hd, Hname. rewrite Hty.
    destruct (contains_resource_by_value store (sym_type s)) eqn:Hres; [|done].
    destruct (Hdead eq_refl) as (s' & Hs' & Hmask).
    destruct (bool_decide _); [|done]. injection Hs' as <-. simpl.
    destruct full.
    - rewrite Hd; [done|]. left. pose proof Hok as (_ & [_ ?] & _).
      split_and!; [done | done | done |]. by rewrite Hmask.
    - specialize (Hfull eq_refl). apply scope_lookup_in in Hx.
      specialize (Hn s Hx Hres). congruence. }
  assert (Hkeep : forall env', tracked store T full K D (count (flow c)) (flow c3) locals env' ->
            tracked store T full K nothing (count (flow c)) (flow c3) locals env').
  { intros env'. apply tracked_weaken; [done | reflexivity | by left | by left]. }
  inversion Hex as [? ? ? ? He|? ? ? ? env' v He Hover|? ? ? ? env' v He Hover|? ? ? ? Hne
    |? ? ? ? ? ? Hne|? ? ? ? ? ? ? ? Hne| | | |]; subst; try (by destruct (Hne x)).
  - by destruct (Hrun _ He) as (? & ? & ? & _).
  - destruct (Hrun _ He) as (? & ? & [= <- <-] & Htr'). by rewrite Hnot in Hover.
  - destruct (Hrun _ He) as (? & ? & [= <- <-] & Htr'). eexists. split; [done|].
    pose proof (Hkeep _ Htr') as Hk. pose proof (lookup_ok _ _ _ _ x Hk) as Hl.
    destruct Hm as [[Hx Hok]|(Hx & _ & Hno)].
    + assert (Hst3 : steady c c3).
      { etrans; [by apply expression_steady|]. etrans; by apply expression_steady. }
      pose proof (flow_symbol_has _ _ _ (proj1 Hok)) as Hhas.
      rewrite bool_decide_true in Hf' by apply Hok.
      rewrite (has_flow_eq _ _ Hhas) in Hf'. rewrite Hf'.
      apply store_tracked; try done; try apply Hg3.
      rewrite (st_count _ _ Hst3). by destruct Hok as (_ & [_ ?] & _).
    + rewrite Hx in Hl. rewrite (set_live_none _ _ _ Hl).
      case_bool_decide; [rewrite (has_flow_eq _ _ Hno) in Hf'|]; by rewrite Hf'.
Qed.

(** An operand evaluated from a state that the environment satisfies; the state behind it. *)
Lemma sound_step T full K locals c n i c1 env r :
  good store locals globals c -> check_expression store type_bool n c = Returned (Some i, c1) ->
  uses_ok store T c1 -> guarded store K c -> reachable (flow c) = true \/ unconditional n = true ->
  tracked store T full K nothing (count (flow c)) (flow c) locals env -> eval globals env n r ->
  exists env' v, r = Some (env', v)
    /\ tracked store T full K nothing (count (flow c1)) (flow c1) locals env'.
Proof.
  intros Hg H Hu HK Hr Htr Hev. destruct (accepts_good _ _ Hbool _ _ _ _ _ _ Hg H) as [_ Hs].
  rewrite (es_count _ _ Hs).
  exact (sound_expression store type_bool Hbool locals globals T full n K nothing c i c1 env r
           Hg H Hu HK Hr Htr Hev).
Qed.

Lemma sound_store T full K locals c c' env target value w r :
  entry T full K locals c c' env ->
  check_assignment_statement store type_bool target value w c = Returned (true, c') ->
  reachable (flow c) = true -> (forall x, target <> NIdent x) ->
  exec_expr store globals env (EAssign target value w) r ->
  exists env', r = Some env' /\ tracked store T full K nothing (count (flow c')) (flow c') locals env'.
Proof.
  intros [Hg Hu HK Hn Htr] H Hr Hne Hex.
  destruct (assignment_inv _ _ Hbool _ _ _ _ _ _ _ Hg H)
    as (ti & c1 & c2 & info & c3 & Ht & Hg1 & Hs1 & Hs2 & Hf2 & Hg2 & Hdead & Hv & Hg3 & Hs3 & Hst & Hf').
  destruct (target_inv _ _ Hbool _ _ _ _ _ _ Hg Ht) as (_ & _ & Hexp).
  assert (Hf3 : flow c' = flow c3) by (by destruct target; [destruct (Hne name)|..]).
  assert (Hacc : check_expression store type_bool target c = Returned (Some ti, c1))
    by (by destruct target; [destruct (Hne name)|..]).
  pose proof (uses_ok_steady _ _ _ _ Hst Hu) as Hu3.
  pose proof (uses_ok_steady _ _ _ _ (expression_steady _ _ Hs3) Hu3) as Hu2.
  pose proof (uses_ok_steady _ _ _ _ (expression_steady _ _ Hs2) Hu2) as Hu1.
  assert (Hrt : forall r', eval globals env target r' -> exists env' v, r' = Some (env', v)
            /\ tracked store T full K nothing (count (flow c2)) (flow c2) locals env').
  { intros r' Hr'. rewrite Hf2. eapply (sound_step _ _ _ _ c); try done. by left. }
  assert (Hrv : forall env1 r',
            tracked store T full K nothing (count (flow c2)) (flow c2) locals env1 ->
            eval globals env1 (init_node value) r' -> exists env' v, r' = Some (env', v)
            /\ tracked store T full K nothing (count (flow c')) (flow c') locals env').
  { intros env1 r' Htr1 Hr'. rewrite Hf3.
    eapply (sound_step _ _ _ _ c2); [done | by apply value_inv | done | | | done | done].
    - eapply guarded_steady; [|exact HK]. etrans; by apply expression_steady.
    - left. by rewrite (es_reachable _ _ Hs2), (es_reachable _ _ Hs1). }
  inversion Hex as [| | |? ? ? ? _ He|? ? ? ? env1 v1 _ He1 He2|? ? ? ? env1 v1 env2 v2 _ He1 He2
    | | | |]; subst; try (exfalso; by eapply Hne).
  - by destruct (Hrt _ He) as (? & ? & ? & _).
  - destruct (Hrt _ He1) as (? & ? & [= <- <-] & Htr1).
    by destruct (Hrv _ _ Htr1 He2) as (? & ? & ? & _).
  - destruct (Hrt _ He1) as (? & ? & [= <- <-] & Htr1).
    destruct (Hrv _ _ Htr1 He2) as (? & ? & [= <- <-] & Htr2). eauto.
Qed.

Lemma sound_statement_expression T full K locals c c' env e r :
  entry T full K locals c c' env ->
  check_statement_expression store type_bool e c = Returned (true, c') ->
  reachable (flow c) = true -> (full = false -> plain_expr N e = true) ->
  exec_expr store globals env e r ->
  exists env', r = Some env' /\ tracked store T full K nothing (count (flow c')) (flow c') locals env'.
Proof.
  intros Hen H Hr Hfull Hex. pose proof Hen as [Hg Hu HK Hn Htr].
  assert (Hone : forall n i, check_expression store type_bool n c = Returned (Some i, c') ->
            forall r', eval globals env n r' -> exists env' v, r' = Some (env', v)
            /\ tracked store T full K nothing (count (flow c')) (flow c') locals env').
  { intros n i Hn' r' Hr'. eapply (sound_step _ _ _ _ c); try done. by left. }
  destruct e as [target value w|n|n u]; simpl in H.
  - destruct target as [x| | | |]; [|by eapply sound_store..].
    destruct (steps_inv _ _ _ _ _ (check_assignment_spec _ _ Hbool _ _ (NIdent x) value w c Hg) H)
      as (_ & Hs & _). rewrite (es_count _ _ Hs).
    eapply sound_assign; try done. intros Hf. specialize (Hfull Hf). simpl in Hfull.
    by apply andb_true_iff in Hfull as [?%negb_true_iff _].
  - apply bind_inv in H as ([i|] & c1 & Hv & H); [|done]. apply value_inv in Hv.
    destruct (contains_resource_by_value _ _); [by apply bind_inv in H as (? & ? & _ & [=])|].
    injection H as ->. inversion Hex as [| | | | | |? ? He|? ? env' v He| |]; subst;
      destruct (Hone _ _ Hv _ He) as (? & ? & Heq & ?); [done|]. injection Heq as <- <-. eauto.
  - apply bind_inv in H as ([i|] & c1 & Hv & H); [|done].
    assert (c1 = c') as ->.
    { destruct (_ || _); [by injection H|]. destruct (negb u); [by injection H|].
      by apply bind_inv in H as (? & ? & _ & [=]). }
    inversion Hex as [| | | | | | | |? ? ? He|? ? ? env' v He]; subst;
      destruct (Hone _ _ Hv _ He) as (? & ? & Heq & ?); [done|]. injection Heq as <- <-. eauto.
Qed.
End Runs.

#[global] Arguments en_good {store globals N T full K locals c c' env}.
#[global] Arguments en_uses {store globals N T full K locals c c' env}.
#[global] Arguments en_guarded {store globals N T full K locals c c' env}.
#[global] Arguments en_named {store globals N T full K locals c c' env}.
#[global] Arguments en_tracked {store globals N T full K locals c c' env}.
