(* ===== verification/FlowStatement.v ===== *)
(** Accepted statements: what they were checked as, and how what they were checked with
    relates to the context behind them. *)
From S2P Require Import Prelude Token Types IntegerValue TypeRelations FlowState FlowCheck.
From S2P Require Import FlowInvariant FlowTotal FlowRun FlowTrack FlowExpression FlowDefer FlowAssign.

(** What the check of further code does to the context. *)
Record later (c c' : SemanticContext) : Prop := {
  lt_loops : Forall2 loop_grows (current_loop c) (current_loop c');
  lt_captured : uses_grow (captured_deferred_resources c) (captured_deferred_resources c');
  lt_defer : defer_depth c' = defer_depth c;
  lt_errors : (errors c <= errors c')%nat;
}.

#[global] Instance later_preorder : PreOrder later.
Proof.
  split; [intros c; split; try done; reflexivity|].
  intros a b c [] []. split; [by etrans | by etrans | congruence | lia].
Qed.

Lemma evolves_later c c' : evolves c c' -> later c c'.
Proof. by intros []. Qed.

Lemma block_later c c' : block_step c c' -> later c c'.
Proof. intros []. by apply evolves_later. Qed.

Lemma expression_later c c' : expression_step c c' -> later c c'.
Proof. intros []. by apply evolves_later. Qed.

Lemma flow_later c f : later c (set_flow f c).
Proof. split; try done; reflexivity. Qed.

Lemma uses_ok_later store T c c' : later c c' -> uses_ok store T c' -> uses_ok store T c.
Proof. intros []. by apply uses_ok_before. Qed.

Section Statements.
Context (store : TypeStore) (type_bool : TypePtr) {evaluator : ConstantEvaluator}
  (Hbool : is_Some type_bool) (globals : list Scope).

Abbreviation well locals c := (good store locals globals c).
Abbreviation accepts_value n c i c' :=
  (check_value_expression store type_bool n c = Returned (Some i, c')).
Abbreviation node s := (check_node store type_bool s).
Abbreviation block b := (check_block (check_node store type_bool) b).

Lemma value_spec_inv locals n c r c' :
  well locals c -> check_value_expression store type_bool n c = Returned (r, c') ->
  well locals c' /\ expression_step c c' /\ (errors c' = errors c -> is_Some r).
Proof.
  intros Hg H. destruct (steps_inv _ _ _ _ _ (check_value_spec _ _ Hbool _ _ n c Hg) H) as (Hg' & Hs & Hr).
  split_and!; [done | done |]. intros He. destruct r; [by eexists|lia].
Qed.

Lemma error_inv msg c c' : semantic_error msg c = Returned (tt, c') -> errors c' = S (errors c).
Proof. intros [= <-]. apply errors_error. Qed.

(** ** Declarations *)

Lemma declared_type_inv d c t c' :
  declared_type store d c = Returned (Some t, c') ->
  c' = c /\ t = match d with Some (Some t) => Some t | _ => None end.
Proof.
  unfold declared_type. destruct d as [[t0|]|].
  - destruct (storable_type _ _); [by intros (? & ? & _ & [=])%bind_inv|]. by intros [= <- <-].
  - by intros (? & ? & _ & [=])%bind_inv.
  - by intros [= <- <-].
Qed.

(** The initializer of a declaration. *)
Definition initialized_from (init : option Initializer) (c c' : SemanticContext) : Prop :=
  match init with
  | None => c' = c
  | Some i => exists info, accepts_value (init_node i) c info c'
  end.

Lemma initialized_type_inv locals t init inferred u c c' :
  well locals c ->
  initialized_type store type_bool t init inferred c = Returned (Some (Some u), c') ->
  initialized_from init c c' /\ (t = Some u \/ t = None /\ inferred = Some u).
Proof.
  intros Hg. unfold initialized_type. destruct init as [i|]; [|intros [= -> <-]; by split; [|left]].
  destruct t as [t|]; simpl.
  - intros (ok & c1 & Hi & H)%bind_inv. destruct ok; [|done]. injection H as -> <-.
    destruct (initializer_inv _ _ Hbool _ _ _ _ _ _ Hg Hi) as (info & c2 & Hv & _ & _ & ->).
    split; [by exists info | by left].
  - intros ([info|] & c1 & Hv & H)%bind_inv; [|done].
    apply bind_inv in H as (ok & c2 & Htr & H). destruct ok; simpl in H; [|done].
    assert (c2 = c1) as ->.
    { unfold check_resource_transfer_expression in Htr. destruct (negb _); [by injection Htr|].
      destruct (bool_decide _); [by apply bind_inv in Htr as (? & ? & _ & [=])|]. by injection Htr. }
    destruct inferred as [u'|]; [|by apply bind_inv in H as (? & ? & _ & [=])].
    injection H as -> <-. split; [by exists info | by right].
Qed.

Lemma var_decl_inv locals x d init inferred c c' :
  well locals c -> check_var_decl store type_bool x d init inferred c = Returned (tt, c') ->
  errors c' = errors c ->
  exists t c1, initialized_from init c c1 /\ declaration_type d inferred = t
    /\ well locals c1 /\ expression_step c c1
    /\ let s := declared_symbol x t VARIABLE_STORAGE_LOCAL c1 in
       well (push_symbol s locals) c' /\ evolves c1 c' /\ extends locals (push_symbol s locals)
       /\ reachable (flow c') = reachable (flow c1)
       /\ forall i, mask (flow c') i = if decide (i = next_variable_id c1)
                      then (if bool_decide (is_Some init) then FLOW_DEFINITELY_INITIALIZED
                            else FLOW_DEFINITELY_UNINITIALIZED)
                      else mask (flow c1) i.
Proof.
  intros Hg H He. unfold check_var_decl in H.
  apply bind_inv in H as (? & ? & [-> ->]%get_inv & H).
  destruct (scope_find_local _ _); [apply error_inv in H; lia|].
  apply bind_inv in H as (r & c1 & Hd & H).
  destruct (steps_inv _ _ _ _ _ (declared_type_spec _ _ locals d c Hg) Hd) as (Hg1 & Hs1 & Hnone & _).
  destruct r as [t|]; [|injection H as <-; specialize (Hnone eq_refl); lia].
  apply declared_type_inv in Hd as [-> ->].
  apply bind_inv in H as (r & c2 & Hi & H).
  destruct (steps_inv _ _ _ _ _ (initialized_type_spec _ _ Hbool _ locals _ _ _ _ Hg1) Hi)
    as (Hg2 & Hs2 & Hnone2 & _).
  destruct r as [u|]; [|injection H as <-; specialize (Hnone2 eq_refl); lia].
  pose proof (ev_errors _ _ (es_evolves _ _ Hs2)).
  destruct u as [u|]; [|apply error_inv in H; lia].
  apply (initialized_type_inv locals) in Hi as [Hfrom Htype]; [|done].
  destruct (storable_type _ _); [apply error_inv in H; lia|].
  apply bind_inv in H as (? & ? & [-> ->]%get_inv & H).
  rewrite (proj2 (Nat.ltb_lt _ _) (g_function _ _ _ _ Hg2)) in H. simpl in H.
  destruct (steps_inv _ _ _ _ _ (declare_spec store globals locals c2 x (Some u) VARIABLE_STORAGE_LOCAL
              (bool_decide (is_Some init)) Hg2 ltac:(eauto) ltac:(by left)) H)
    as (Hg3 & Hev & Hx & Hr & _ & Hm & _).
  exists (Some u), c2. split_and!; try done.
  unfold declaration_type. destruct Htype as [Ht|[Ht ->]]; destruct d as [[?|]|]; congruence.
Qed.

(** ** Blocks *)

Context (Hco : coercion_typed store).

Lemma node_inv locals s c c' :
  parsed s = true -> well locals c -> node s c = Returned (tt, c') -> statement_post store globals locals c c'.
Proof.
  intros Hp Hg H. destruct (check_node_ok store type_bool Hbool globals Hco s Hp) as [Hs _].
  exact (steps_inv _ _ _ _ _ (Hs locals c Hg) H).
Qed.

(** Only a declaration changes the scopes. *)
Lemma node_scoped locals s c c' :
  parsed s = true -> self_contained s = true ->
  well locals c -> node s c = Returned (tt, c') -> scoped_post store globals locals c c'.
Proof.
  intros Hp Hs Hg H. destruct (check_node_ok store type_bool Hbool globals Hco s Hp) as [_ Hok].
  exact (steps_inv _ _ _ _ _ (Hok Hs locals c Hg) H).
Qed.

(** The [else] branch of a conditional. *)
Definition parsed_else (e : option Statement) : Prop :=
  forall s, e = Some s -> parsed s = true /\ self_contained s = true.

Lemma else_ok e : parsed_else e -> forall s, e = Some s -> scoped_ok store type_bool globals s.
Proof.
  intros H s ->. destruct (H s eq_refl). by apply (check_node_ok store type_bool Hbool globals Hco).
Qed.

Lemma parsed_ok b : forallb parsed b = true -> Forall (node_ok store type_bool globals) b.
Proof.
  intros Hp. rewrite forallb_forall in Hp. apply Forall_forall. intros s Hs.
  apply (check_node_ok store type_bool Hbool globals Hco). apply Hp. by apply list_elem_of_In.
Qed.

Lemma statements_inv locals diag b c c' :
  forallb parsed b = true -> well locals c ->
  check_statements store type_bool diag b c = Returned (tt, c') ->
  statement_post store globals locals c c'.
Proof.
  intros Hp Hg H.
  exact (steps_inv _ _ _ _ _ (check_statements_spec store type_bool globals diag b locals c
           (parsed_ok b Hp) Hg) H).
Qed.

(** The context in which the statements of a block are checked. *)
Definition opened (c : SemanticContext) : SemanticContext :=
  set_scope (mkScope [] (count (flow c)) :: current_scope c) c.

Lemma block_inv locals b c c' :
  forallb parsed b = true -> well locals c -> block b c = Returned (tt, c') ->
  scoped_post store globals locals c c'
  /\ exists diag c1,
       check_statements store type_bool diag b (opened c) = Returned (tt, c1)
       /\ well (mkScope [] (count (flow c)) :: locals) (opened c)
       /\ truncated (flow c1) (count (flow c)) (flow c')
       /\ current_loop c' = current_loop c1
       /\ captured_deferred_resources c' = captured_deferred_resources c1
       /\ defer_depth c' = defer_depth c1 /\ errors c' = errors c1.
Proof.
  intros Hp Hg H.
  pose proof (steps_inv _ _ _ _ _ (check_block_spec store type_bool globals b (parsed_ok b Hp) locals c Hg) H)
    as Hpost.
  split; [done|]. unfold check_block in H.
  apply bind_inv in H as (? & ? & [-> ->]%get_inv & H).
  apply bind_inv in H as ([] & ? & Hpush & H). apply modify_inv in Hpush as ->. fold (opened c) in H.
  apply bind_inv in H as (diag & ? & [-> ->]%get_inv & H).
  apply bind_inv in H as ([] & c1 & Hst & H).
  pose proof (push_good store globals locals c Hg) as Hg0. fold (opened c) in Hg0.
  destruct (statements_inv _ _ _ _ _ Hp Hg0 Hst) as (locals1 & Hg1 & He1 & Hx1).
  destruct locals1 as [|sc1 rest]; [done|]. destruct Hx1 as (-> & Hmark & _).
  apply bind_inv in H as ([] & c2 & Hpop & H). apply modify_inv in H as ->.
  destruct (steps_inv _ _ _ _ _ (pop_spec store globals c1 sc1 locals (count (flow c)) Hg1
    (proj1 (g_nonempty _ _ _ _ Hg)) Hmark
    (fun l Hl => match loops_active _ _ _ (ev_loops _ _ He1) Hl with
                 | ex_intro _ l0 (conj Hl0 Heq) =>
                     eq_ind_r (fun n => (n <= count (flow c))%nat)
                       (proj1 (proj1 (Forall_forall _ _) (g_loops _ _ _ _ Hg) l0 Hl0)) Heq
                 end)) Hpop) as (f & -> & _ & Hf & _).
  by exists (reachable (flow c)), c1.
Qed.

(** ** Branches *)

Lemma condition_inv (cond : option ExprInfo) msg c c' :
  match cond with
  | Some info => if negb (is_bool_type store (info_type info)) then semantic_error msg else mret tt
  | None => mret tt
  end c = Returned (tt, c') -> errors c' = errors c -> c' = c.
Proof.
  destruct cond as [info|]; [|by intros [= <-]].
  destruct (negb _); [|by intros [= <-]]. intros H He. apply error_inv in H. lia.
Qed.

(** An accepted path of a branch: the state it starts from, and that of the context behind
    it. *)
Record branch (locals : list Scope) (F : FlowState) (s : Statement) (c c' : SemanticContext)
    : Prop := {
  br_node : node s c = Returned (tt, c');
  br_good : well locals c;
  br_flow : flow c ≡ F;
  br_errors : errors c' = errors c;
}.

Lemma restart_block locals F c g : well locals c -> fits c F -> g ≡ F -> flow_wf g -> block_step c (set_flow g c).
Proof.
  intros Hg (Hwf & Hc & Hcomp) Heq Hwfg. apply block_step_flow; [by rewrite Heq|].
  eapply compatible_trans; [exact Hcomp|]. apply equiv_compatible. by symmetry.
Qed.

Lemma scoped_good locals c c' : scoped_post store globals locals c c' -> well locals c'.
Proof. by intros []. Qed.

(** The check of the branches of a conditional. *)
Definition check_branches (t : list Statement) (e : option Statement) : M unit :=
  incoming ← ask_flow flow_clone;
  merge_after (count incoming) incoming (block t)
    (match e with Some s => node s | None => mret tt end) ;; mret tt.

Lemma branches_scoped locals t e c c' :
  forallb parsed t = true -> parsed_else e -> well locals c ->
  check_branches t e c = Returned (tt, c') -> scoped_post store globals locals c c'.
Proof.
  intros Ht He Hg H.
  apply (steps_inv _ c (fun _ c' => scoped_post store globals locals c c') _ _) in H; [done|].
  unfold check_branches. clear H.
  eapply steps_bind; [by eapply ask_clone_spec|]. intros incoming ? (-> & Hwf & Heq).
  eapply steps_bind.
  { apply (merge_blocks_spec store globals (block t) (empty_or_node store type_bool e) locals);
      [done | done | done | |].
    - intros c3. apply check_block_spec. by apply parsed_ok.
    - by apply empty_or_node_spec, else_ok. }
  intros ? c3 Hsc. by apply steps_ret.
Qed.

(** A conditional: an absent branch is an empty one. *)
Lemma branches_inv locals t e c c' :
  forallb parsed t = true -> parsed_else e -> well locals c ->
  check_branches t e c = Returned (tt, c') -> errors c' = errors c ->
  exists ct c2 ce c3 f,
    branch locals (flow c) (SBlock t) ct c2 /\ later c ct /\ active_deferred_resources ct = active_deferred_resources c
    /\ match e with Some s => branch locals (flow c) s ce c3 | None => c3 = ce /\ flow ce ≡ flow c end
    /\ later c2 ce /\ active_deferred_resources ce = active_deferred_resources c
    /\ merged (flow c2) (flow c3) (count (flow c)) f /\ c' = set_flow f c3 /\ later c3 c'.
Proof.
  intros Hpt Hpe Hg H He.
  apply bind_inv in H as (inc & ? & [Hinc ->]%ask_inv & H).
  apply bind_inv in H as ([[] []] & c4 & Hm & H). injection H as <-.
  destruct (clone_inv _ _ (g_flow _ _ _ _ Hg) Hinc) as [Hwf Heq].
  apply merge_after_inv in Hm as (f1 & c2 & f2 & c3 & f & Hf1 & Ht & Hf2 & Hb & Hf & ->). simpl in Ht, Hb.
  destruct (clone_inv _ _ Hwf Hf1) as [Hwf1 Heq1]. destruct (clone_inv _ _ Hwf Hf2) as [Hwf2 Heq2].
  pose proof (fits_equiv c _ Hwf Heq) as Hfit.
  pose proof (restart_good _ _ _ _ _ _ Hg Hfit Heq1 Hwf1) as Hgt.
  pose proof (restart_block _ _ _ _ Hg Hfit Heq1 Hwf1) as Hst.
  destruct (block_inv _ _ _ _ Hpt Hgt Ht) as [(Hg2 & Hs2 & Ha2) _].
  assert (Hc2 : block_step c c2) by (by etrans).
  pose proof (fits_step _ _ _ Hc2 Hfit) as Hfit2.
  pose proof (restart_good _ _ _ _ _ _ Hg2 Hfit2 Heq2 Hwf2) as Hge.
  pose proof (restart_block _ _ _ _ Hg2 Hfit2 Heq2 Hwf2) as Hse.
  assert (Hpost : scoped_post store globals locals (set_flow f2 c2) c3).
  { destruct e as [b|]; [destruct (Hpe b eq_refl); by eapply node_scoped|]. injection Hb as <-.
    split_and!; [done | reflexivity | done]. }
  destruct Hpost as (Hg3 & Hs3 & Ha3).
  assert (Hc3 : block_step c c3) by (etrans; [exact Hc2|]; by etrans).
  pose proof (lt_errors _ _ (block_later _ _ Hs2)) as E2.
  pose proof (lt_errors _ _ (block_later _ _ Hs3)) as E3. unfold errors in *. simpl in *.
  destruct (merge_good _ _ _ c3 (flow c2) (flow c3) (count inc) f Hg3) as [Hfitf Hmerged]; try done.
  { apply (fits_step c2); [by etrans | by apply (fits_self store locals globals)]. }
  { by apply (fits_self store locals globals). }
  { rewrite (bs_count _ _ Hc3). by rewrite Heq. }
  assert (Hcount : count inc = count (flow c)) by (by rewrite Heq). rewrite Hcount in Hmerged.
  exists (set_flow f1 c), c2, (set_flow f2 c2), c3, f.
  split_and!; try apply flow_later; try done.
  - split; [done | done | simpl; by etrans | unfold errors; simpl; lia].
  - destruct e as [b|]; [|injection Hb as <-; split; [done | simpl; by etrans]].
    split; [done | done | simpl; by etrans | unfold errors; simpl; lia].
Qed.

(** ** Deferred statements *)

Lemma activate_captured captured active s :
  deferred_resource_list_contains captured s = true ->
  deferred_resource_list_contains (activate captured active) s = true.
Proof.
  revert active. induction captured as [|u captured IH]; intros active; [done|].
  rewrite contains_cons. intros [Hu|Hs]%orb_true_iff; simpl; [|by apply IH].
  apply andb_true_iff in Hu as [Ho%bool_decide_eq_true Hv%bool_decide_eq_true].
  apply (uses_activate captured). destruct (deferred_resource_list_contains active u) eqn:Hin.
  - clear -Hin Ho Hv. induction active as [|w active IH]; [done|].
    rewrite contains_cons in *. rewrite <- Ho, <- Hv.
    destruct (_ && _); [done|]. simpl in *. by apply IH.
  - rewrite contains_cons, !bool_decide_true by done. done.
Qed.

Lemma defer_inv locals d c c' :
  parsed (SDefer d) = true -> well locals c -> node (SDefer d) c = Returned (tt, c') ->
  errors c' = errors c ->
  defer_depth c = 0%nat /\ well locals c' /\ block_step c c' /\ flow c' ≡ flow c
  /\ exists c2, well locals (deferring c) /\ node d (deferring c) = Returned (tt, c2)
       /\ errors c2 = errors c /\ defer_depth c2 <> 0%nat
       /\ active_deferred_resources c'
          = activate (captured_deferred_resources c2) (active_deferred_resources c2).
Proof.
  intros Hp Hg H He. cbn [check_node] in H.
  assert (Hd : forall locals c, well locals c -> steps (node d) c (fun _ c' => scoped_post store globals locals c c')).
  { intros locals0 c0 Hg0.
    destruct d as [b| |e| | | | | | | | |]; try done.
    - exact (proj2 (check_node_ok store type_bool Hbool globals Hco (SBlock b) Hp) eq_refl locals0 c0 Hg0).
    - exact (proj2 (check_node_ok store type_bool Hbool globals Hco (SExpr e) Hp) eq_refl locals0 c0 Hg0). }
  destruct (steps_inv _ _ _ _ _ (check_defer_spec store type_bool globals d locals c Hd Hg) H) as [Hg' Hs'].
  unfold check_defer in H.
  apply bind_inv in H as (? & ? & [-> ->]%get_inv & H).
  apply bind_inv in H as (? & ? & [-> ->]%get_inv & H).
  destruct (_ =? 0)%nat; [apply error_inv in H; lia|].
  destruct (Nat.ltb_spec 0 (defer_depth c)); [apply error_inv in H; lia|].
  apply bind_inv in H as (saved & ? & [Hsaved ->]%ask_inv & H).
  apply bind_inv in H as (? & ? & [-> ->]%get_inv & H).
  apply bind_inv in H as ([] & ? & ->%modify_inv & H). fold (deferring c) in H.
  apply bind_inv in H as ([] & c2 & Hnode & H).
  apply bind_inv in H as ([] & ? & ->%modify_inv & H).
  apply bind_inv in H as ([] & ? & ->%modify_inv & H). apply modify_inv in H as ->. simpl in *.
  destruct (clone_inv _ _ (g_flow _ _ _ _ Hg) Hsaved) as [_ Heq].
  assert (Hgd : well locals (deferring c)) by (by apply (good_other store locals globals c)).
  destruct (steps_inv _ _ _ _ _ (Hd locals _ Hgd) Hnode) as (_ & [[] _ _] & _).
  split_and!; [lia | done | done | done |]. exists c2. split_and!; [done | done | | | done].
  - unfold errors in *. simpl in *. lia.
  - rewrite ev_defer. simpl. lia.
Qed.

(** ** Jumps *)

Lemma loop_exit_inv (record : LoopFlowContext -> FlowState -> outcome (LoopFlowContext * FlowState))
    msg1 msg2 c c' :
  check_loop_exit record msg1 msg2 c = Returned (tt, c') -> errors c' = errors c ->
  exists l ls l' f, current_loop c = l :: ls /\ record l (flow c) = Returned (l', f)
    /\ current_loop c' = l' :: ls /\ flow c' = f.
Proof.
  intros H He. unfold check_loop_exit in H.
  apply bind_inv in H as (? & ? & [-> ->]%get_inv & H).
  apply bind_inv in H as (? & ? & [-> ->]%get_inv & H).
  destruct (0 <? _)%nat; [apply error_inv in H; lia|].
  destruct (_ =? 0)%nat; [apply error_inv in H; lia|].
  apply bind_inv in H as (? & ? & [-> ->]%get_inv & H).
  apply bind_inv in H as (? & ? & [-> ->]%get_inv & H).
  destruct (current_loop c) as [|l ls]; [done|].
  apply bind_inv in H as ([l' f] & ? & Hr & H). apply run_inv in Hr as [Hr ->].
  apply modify_inv in H as ->. by exists l, ls, l', f.
Qed.

(** The path that reaches a jump is recorded. *)
Lemma recorded_break l f l' f' :
  flow_wf f -> loop_ok f l -> reachable f = true -> loop_record_break l f = Returned (l', f') ->
  active_variable_count l' = active_variable_count l
  /\ exists a, break_flow l' = Some a /\ below (active_variable_count l) f a.
Proof.
  intros Hwf (Hle & Hb & _) Hr H. unfold loop_record_break in H.
  destruct (flow_accumulate_spec (break_flow l) f (active_variable_count l) Hwf Hle Hb)
    as (acc & Hacc & _ & _ & Hrec & _).
  rewrite Hacc in H. injection H as <- _. split; [done | by apply Hrec].
Qed.

Lemma recorded_continue l f l' f' :
  flow_wf f -> loop_ok f l -> reachable f = true -> loop_record_continue l f = Returned (l', f') ->
  active_variable_count l' = active_variable_count l
  /\ exists a, continue_flow l' = Some a /\ below (active_variable_count l) f a.
Proof.
  intros Hwf (Hle & _ & Hc) Hr H. unfold loop_record_continue in H.
  destruct (flow_accumulate_spec (continue_flow l) f (active_variable_count l) Hwf Hle Hc)
    as (acc & Hacc & _ & _ & Hrec & _).
  rewrite Hacc in H. injection H as <- _. split; [done | by apply Hrec].
Qed.

Lemma return_inv locals v c c' :
  well locals c -> check_return store type_bool v c = Returned (tt, c') -> errors c' = errors c ->
  match v with
  | None => True
  | Some i => well locals (set_flow (set_reachable false (flow c)) c)
      /\ exists info, accepts_value (init_node i) (set_flow (set_reachable false (flow c)) c) info c'
  end.
Proof.
  intros Hg H He. unfold check_return in H.
  apply bind_inv in H as (? & ? & [-> ->]%get_inv & H).
  apply bind_inv in H as (? & ? & [-> ->]%get_inv & H).
  destruct (0 <? _)%nat; [apply error_inv in H; lia|].
  destruct (_ =? 0)%nat; [apply error_inv in H; lia|].
  apply bind_inv in H as ([] & ? & ->%modify_inv & H). set (c1 := set_flow _ c) in *.
  assert (Hc1 : errors c1 = errors c) by done.
  apply bind_inv in H as (rt & ? & [-> ->]%get_inv & H).
  destruct (current_return_type c1); [|apply error_inv in H; lia].
  destruct v as [i|]; [|done].
  destruct (has_kind _ _ _); [apply error_inv in H; lia|].
  assert (Hg1 : well locals c1).
  { apply good_fits; [done|]. by apply (fits_reachable store locals globals). }
  split; [done|]. apply bind_inv in H as (ok & c2 & Hi & H). injection H as <-.
  destruct (steps_inv _ _ _ _ _ (check_initializer_spec store type_bool Hbool locals globals _ i c1
    ltac:(by eexists) Hg1) Hi) as (_ & _ & Hok).
  destruct ok; [|specialize (Hok eq_refl); lia].
  destruct (initializer_inv _ _ Hbool _ _ _ _ _ _ Hg1 Hi) as (info & c3 & Hv & _ & _ & ->). by exists info.
Qed.

(** ** Loops *)

(** The deferred uses recorded so far stay recorded. *)
Definition keeps_uses (c c' : SemanticContext) : Prop :=
  uses_grow (captured_deferred_resources c) (captured_deferred_resources c')
  /\ defer_depth c' = defer_depth c.

#[global] Instance keeps_uses_preorder : PreOrder keeps_uses.
Proof. split; [by intros c | intros a b c [] []; split; [by etrans | congruence]]. Qed.

Lemma later_keeps c c' : later c c' -> keeps_uses c c'.
Proof. by intros []. Qed.

Lemma uses_ok_keeps T c c' : keeps_uses c c' -> uses_ok store T c' -> uses_ok store T c.
Proof. intros []. by apply uses_ok_before. Qed.

(** The end of an accepted loop, from the context [c6] behind its body, in which the state
    [backedge] goes back to the condition. *)
Lemma finish_inv locals c c6 c' entry exit backedge l ls always :
  well locals c -> well locals c6 -> block_step (entered c) c6 -> current_loop c6 = l :: ls ->
  active_deferred_resources c6 = active_deferred_resources c ->
  fits c entry -> fits c exit -> fits c6 backedge ->
  (loop ← leave_loop; validate_backedge entry backedge (active_variable_count loop) ;;
   after_loop loop exit always) c6 = Returned (tt, c') ->
  (errors c6 <= errors c')%nat /\ keeps_uses c6 c' /\ count (flow c') = count (flow c)
  /\ (errors c' = errors c6 -> reachable backedge = true -> forall i, (i < count (flow c))%nat -> owner entry i = true ->
        mask entry i = mask backedge i)
  /\ (forall f, break_flow l = Some f -> reachable (flow c') = true
        /\ below (count (flow c)) f (flow c'))
  /\ (always = false -> reachable exit = true -> reachable (flow c') = true
        /\ below (count (flow c)) exit (flow c')).
Proof.
  intros Hg Hg6 Hs6 Hl Hact He Hx Hbk H.
  apply bind_inv in H as (l' & ? & Hleave & H).
  destruct (steps_inv _ _ _ _ _ (leave_loop_spec c6 l ls Hl) Hleave) as [-> ->].
  destruct (leave_post _ _ _ _ _ _ _ Hg6 Hs6 Hl Hact) as (Hsc & Hok & Hn).
  pose proof Hsc as (Hg2 & Hs2 & _). pose proof (fits_step _ _ _ Hs2 He) as (_ & Hce & Hcompe).
  destruct Hbk as (Hwfb & Hcb & Hcompb).
  assert (Hcount : count (flow c6) = count (flow c)) by apply (bs_count _ _ Hs2).
  apply bind_inv in H as ([] & c7 & Hval & H).
  assert (Hcomp : compatible (active_variable_count l) entry backedge).
  { rewrite Hn, <- Hcount. apply (compatible_trans _ _ (flow c6)); [by apply compatible_sym | done]. }
  destruct (steps_inv _ _ _ _ _ (validate_spec store globals locals _ entry backedge _ Hg2 Hcomp
    ltac:(simpl in Hce; lia) ltac:(lia)) Hval) as (Hg7 & Hs7 & Hvalid & Hf7 & _).
  assert (Hsc7 : scoped_post store globals locals c c7).
  { eapply scoped_trans; [exact Hsc | by apply step_scoped]. }
  destruct (steps_inv _ _ _ _ _ (after_loop_spec store globals locals c7 l exit always Hg7
    (fits_step _ _ _ (proj1 (proj2 Hsc7)) Hx) ltac:(rewrite Hf7; simpl; lia) ltac:(by rewrite Hf7)) H)
    as (Hsc8 & Herr8 & Hbr & Hexit & _).
  assert (Hc7 : count (flow c7) = count (flow c)) by (rewrite Hf7; simpl; lia). rewrite Hc7 in *.
  pose proof (lt_errors _ _ (expression_later _ _ Hs7)) as E7.
  assert (E67 : (errors c6 <= errors c7)%nat) by done.
  rewrite Hn in Hvalid. split_and!; try done; [lia | | |].
  - apply (later_keeps (leaving c6 l ls)). etrans; [by apply expression_later|].
    by apply block_later, Hsc8.
  - rewrite (bs_count _ _ (proj1 (proj2 Hsc8))). done.
  - intros Herr. apply Hvalid. change (errors c7 = errors c6). lia.
Qed.

(** What an accepted loop with the body [b] and the post expression [p] was checked as: [c] is
    the context before its condition and [c1] the one behind it. *)
Definition checked_loop (locals : list Scope) (b : list Statement) (p : option StatementExpr)
    (always : bool) (c c1 c' : SemanticContext) : Prop :=
  exists cb c4 l ls it c6,
    branch locals (flow c1) (SBlock b) cb c4 /\ active_deferred_resources cb = active_deferred_resources c1
    /\ current_loop c4 = l :: ls /\ active_variable_count l = count (flow c)
    /\ fits c4 it /\ count (flow c4) = count (flow c)
    /\ (reachable (flow c4) = true -> reachable it = true /\ below (count (flow c)) (flow c4) it)
    /\ (forall f, continue_flow l = Some f -> reachable it = true /\ below (count (flow c)) f it)
    /\ match p with
       | None => flow c6 = it
       | Some e => check_statement_expression store type_bool e (set_flow it c4) = Returned (true, c6)
           /\ active_deferred_resources c4 = active_deferred_resources c1
       end
    /\ keeps_uses c1 c4 /\ keeps_uses c4 c6 /\ keeps_uses c6 c' /\ count (flow c') = count (flow c)
    /\ (reachable (flow c6) = true -> forall i, (i < count (flow c))%nat -> owner (flow c) i = true ->
          mask (flow c) i = mask (flow c6) i)
    /\ (forall f, break_flow l = Some f -> reachable (flow c') = true
          /\ below (count (flow c)) f (flow c'))
    /\ (always = false -> reachable (flow c1) = true -> reachable (flow c') = true
          /\ below (count (flow c)) (flow c1) (flow c')).

(** The body of a loop, entered from the state [exit] behind the condition. *)
Lemma body_inv locals b c exit cb c4 (entry : FlowState) :
  forallb parsed b = true -> well locals c -> flow_wf exit -> exit ≡ flow c -> count entry = count (flow c) ->
  (enter_loop (count entry) ;; restart_from exit) c = Returned (tt, cb) ->
  block b cb = Returned (tt, c4) -> 
  well locals cb /\ flow cb ≡ flow c /\ block_step (entered c) c4
  /\ active_deferred_resources cb = active_deferred_resources c
  /\ active_deferred_resources c4 = active_deferred_resources c /\ well locals c4
  /\ errors cb = errors c /\ exists l ls, current_loop c4 = l :: ls.
Proof.
  intros Hp Hg Hwf Heq Hcount Henter Hb. rewrite Hcount in Henter.
  destruct (steps_inv _ _ _ _ _ (enter_spec store globals locals c exit Hg (fits_equiv _ _ Hwf Heq)) Henter)
    as (g & -> & Heqg & Hg3 & Hs3).
  destruct (block_inv _ _ _ _ Hp Hg3 Hb) as [(Hg4 & Hs4 & Ha4) _].
  assert (Hs : block_step (entered c) c4) by (by etrans).
  split_and!; try done; [simpl; by etrans | by eapply entered_loop].
Qed.
Lemma while_inv locals cond b c c' :
  forallb parsed b = true -> well locals c ->
  check_while_statement store type_bool (check_node store type_bool) cond b c = Returned (tt, c') ->
  errors c' = errors c ->
  exists i c1 always, accepts_value cond c i c1 /\ well locals c1 /\ expression_step c c1
    /\ (always = true -> expression_compile_time_bool_value cond = Some true)
    /\ checked_loop locals b None always c c1 c'.
Proof.
  intros Hp Hg H Herr. unfold check_while_statement in H.
  apply bind_inv in H as (entry & ? & [Hentry ->]%ask_inv & H).
  destruct (clone_inv _ _ (g_flow _ _ _ _ Hg) Hentry) as [Hwfe Heqe].
  apply bind_inv in H as (r & c1 & Hv & H).
  destruct (value_spec_inv _ _ _ _ _ Hg Hv) as (Hg1 & Hs1 & Hsome).
  apply bind_inv in H as ([] & c2 & Hcond & H).
  destruct (steps_inv _ _ _ _ _ (condition_error_spec store globals locals r _ c1 Hg1) Hcond) as [Hg2 Hs2].
  apply bind_inv in H as (exit & ? & [Hexit ->]%ask_inv & H).
  destruct (clone_inv _ _ (g_flow _ _ _ _ Hg2) Hexit) as [Hwfx Heqx].
  assert (Hcount : count entry = count (flow c2)).
  { rewrite Heqe, (es_count _ _ Hs2). symmetry. apply (es_count _ _ Hs1). }
  apply bind_inv in H as ([] & c3 & Henter & H). apply bind_inv in H as ([] & cb & Hrestart & H).
  apply bind_inv in H as ([] & c4 & Hbody & H).
  assert (Hent : (enter_loop (count entry) ;; restart_from exit) c2 = Returned (tt, cb))
    by (unfold mbind, M_bind; by rewrite Henter).
  destruct (body_inv locals b c2 exit cb c4 entry Hp Hg2 Hwfx Heqx Hcount Hent Hbody)
    as (Hgb & Heqb & Hs4 & Hab & Ha4 & Hg4 & Eb & l & ls & Hl).
  apply bind_inv in H as (bf & ? & [-> ->]%get_inv & H).
  apply bind_inv in H as (l' & ? & [-> ->]%get_inv & H). rewrite Hl in H. simpl in H.
  apply bind_inv in H as (it & ? & [Hit ->]%run_inv & H).
  destruct (leave_post _ _ _ _ _ _ _ Hg4 Hs4 Hl Ha4) as (_ & _ & Hn).
  assert (Hc4 : count (flow c4) = count (flow c2)) by apply (bs_count _ _ Hs4).
  destruct (returns_inv _ _ _ (iteration_spec store globals locals c4 l ls Hg4 Hl ltac:(lia)) Hit)
    as (Hfit & Hitb & Hitc).
  assert (Hfe : fits c2 entry).
  { apply (fits_step c); [|by apply fits_equiv]. etrans; by apply expression_block_step. }
  destruct (finish_inv locals c2 c4 c' entry exit it l ls _ Hg2 Hg4 Hs4 Hl Ha4 Hfe
    (fits_equiv _ _ Hwfx Heqx) Hfit H) as (E4 & Hkeeps & Hc' & Hvalid & Hbr & Hex).
  pose proof (lt_errors _ _ (expression_later _ _ Hs1)) as E1.
  pose proof (lt_errors _ _ (expression_later _ _ Hs2)) as E2.
  pose proof (block_later _ _ Hs4) as L4. pose proof (lt_errors _ _ L4) as E24.
  change (errors (entered c2)) with (errors c2) in E24.
  apply condition_inv in Hcond; [|lia]. subst c2. destruct (Hsome ltac:(lia)) as [i ->].
  assert (Hcc : count (flow c1) = count (flow c)) by apply (es_count _ _ Hs1). rewrite Hc4, Hcc in *.
  eexists i, c1, _. split_and!; [done | done | done | |].
  2: { exists cb, c4, l, ls, it, (set_flow it c4).
       split_and!; try done.
       - split; [done | done | done | lia].
       - exact (later_keeps (entered c1) c4 L4).
       - intros Hr j Hj Ho. rewrite <- (equiv_same _ _ Heqe). simpl.
         apply Hvalid; [lia | done | done |]. by rewrite Heqe.
       - intros Ha Hr. destruct (Hex Ha) as [? Hbelow]; [by rewrite Heqx|]. split; [done|].
         etrans; [|exact Hbelow]. apply equiv_below. by symmetry. }
  intros [_ Htrue]%andb_true_iff. unfold expression_is_compile_time_true in Htrue.
  destruct (expression_compile_time_bool_value cond) as [[]|]; done.
Qed.
(** The condition of a [for]. *)
Definition checked_condition (cond : option Node) (always : bool) (c c1 : SemanticContext) : Prop :=
  match cond with
  | None => c1 = c
  | Some n => (exists i, accepts_value n c i c1)
      /\ (always = true -> expression_compile_time_bool_value n = Some true)
  end.

Lemma for_condition_inv locals cond always c c1 :
  well locals c -> check_for_condition store type_bool cond c = Returned (always, c1) ->
  well locals c1 /\ expression_step c c1 /\ (errors c1 = errors c -> checked_condition cond always c c1).
Proof.
  intros Hg H.
  destruct (steps_inv _ _ _ _ _ (check_for_condition_spec store type_bool Hbool globals locals cond c Hg) H)
    as [Hg1 Hs1].
  split_and!; [done | done |]. intros He. unfold check_for_condition in H.
  destruct cond as [n|]; [|by injection H as _ <-].
  apply bind_inv in H as (r & c0 & Hv & H).
  destruct (value_spec_inv _ _ _ _ _ Hg Hv) as (Hg0 & Hs0 & Hsome).
  pose proof (lt_errors _ _ (expression_later _ _ Hs0)).
  destruct r as [i|].
  2: { injection H as <- <-. by destruct (Hsome He). }
  destruct (is_bool_type _ _).
  - injection H as <- <-. split; [by exists i|]. unfold expression_is_compile_time_true.
    by destruct (expression_compile_time_bool_value n) as [[]|].
  - apply bind_inv in H as ([] & ? & Hmsg & H). injection H as <- <-. apply error_inv in Hmsg. lia.
Qed.

(** The expression a [for] ends each iteration with. *)
Definition checked_post (p : option StatementExpr) (c c' : SemanticContext) : Prop :=
  match p with
  | None => c' = c
  | Some e => check_statement_expression store type_bool e c = Returned (true, c')
  end.

Lemma for_post_inv locals p c c' :
  well locals c ->
  match p with
  | Some e => check_statement_expression store type_bool e ;; mret tt
  | None => mret tt
  end c = Returned (tt, c') ->
  well locals c' /\ expression_step c c' /\ (errors c' = errors c -> checked_post p c c').
Proof.
  intros Hg H. destruct p as [e|].
  2: { injection H as <-. by split_and!. }
  apply bind_inv in H as (ok & c1 & H & Hret). injection Hret as <-.
  destruct (steps_inv _ _ _ _ _ (check_statement_expression_spec _ _ Hbool _ _ e c Hg) H) as (Hg1 & Hs1 & _).
  split_and!; [done | done |]. intros He. simpl.
  by rewrite <- (statement_expression_accepts _ _ Hbool _ _ _ _ _ _ Hg H He).
Qed.

Lemma for_inv locals cond p b c c' :
  forallb parsed b = true -> well locals c ->
  check_for_statement store type_bool (check_node store type_bool) cond p b c = Returned (tt, c') ->
  errors c' = errors c ->
  exists c1 always, checked_condition cond always c c1 /\ well locals c1 /\ expression_step c c1
    /\ checked_loop locals b p always c c1 c' /\ (cond = None -> always = true).
Proof.
  intros Hp Hg H Herr. unfold check_for_statement in H.
  apply bind_inv in H as (entry & ? & [Hentry ->]%ask_inv & H).
  destruct (clone_inv _ _ (g_flow _ _ _ _ Hg) Hentry) as [Hwfe Heqe].
  apply bind_inv in H as (always & c1 & Hcond & H).
  destruct (for_condition_inv _ _ _ _ _ Hg Hcond) as (Hg1 & Hs1 & Hcc).
  apply bind_inv in H as (exit & ? & [Hexit ->]%ask_inv & H).
  destruct (clone_inv _ _ (g_flow _ _ _ _ Hg1) Hexit) as [Hwfx Heqx].
  assert (Hcount : count entry = count (flow c1)).
  { rewrite Heqe. symmetry. apply (es_count _ _ Hs1). }
  apply bind_inv in H as ([] & c3 & Henter & H). apply bind_inv in H as ([] & cb & Hrestart & H).
  apply bind_inv in H as ([] & c4 & Hbody & H).
  assert (Hent : (enter_loop (count entry) ;; restart_from exit) c1 = Returned (tt, cb))
    by (unfold mbind, M_bind; by rewrite Henter).
  destruct (body_inv locals b c1 exit cb c4 entry Hp Hg1 Hwfx Heqx Hcount Hent Hbody)
    as (Hgb & Heqb & Hs4 & Hab & Ha4 & Hg4 & Eb & l & ls & Hl).
  apply bind_inv in H as (bf & ? & [-> ->]%get_inv & H).
  apply bind_inv in H as (l' & ? & [-> ->]%get_inv & H). rewrite Hl in H. simpl in H.
  apply bind_inv in H as (it & ? & [Hit ->]%run_inv & H).
  apply bind_inv in H as ([] & ? & ->%modify_inv & H).
  apply bind_inv in H as ([] & c6 & Hpost & H).
  apply bind_inv in H as (bk & ? & [-> ->]%get_inv & H).
  destruct (leave_post _ _ _ _ _ _ _ Hg4 Hs4 Hl Ha4) as (_ & _ & Hn).
  assert (Hc4 : count (flow c4) = count (flow c1)) by apply (bs_count _ _ Hs4).
  destruct (returns_inv _ _ _ (iteration_spec store globals locals c4 l ls Hg4 Hl ltac:(lia)) Hit)
    as (Hfit & Hitb & Hitc).
  destruct (scoped_flow store globals locals c4 it Hg4 Hfit) as (Hg5 & Hs5 & Ha5).
  destruct (for_post_inv _ _ _ _ Hg5 Hpost) as (Hg6 & Hs6 & Hchecked).
  assert (Hs16 : block_step (entered c1) c6).
  { etrans; [exact Hs4|]. etrans; [exact Hs5|]. by apply expression_block_step. }
  assert (Hl6 : current_loop c6 = l :: ls) by (by rewrite (es_loops _ _ Hs6)).
  assert (Hfe : fits c1 entry).
  { apply (fits_step c); [by apply expression_block_step | by apply fits_equiv]. }
  destruct (finish_inv locals c1 c6 c' entry exit (flow c6) l ls always Hg1 Hg6 Hs16 Hl6
    ltac:(rewrite (es_active _ _ Hs6); done) Hfe (fits_equiv _ _ Hwfx Heqx)
    (fits_self store locals globals c6 Hg6) H) as (E6 & Hkeeps & Hc' & Hvalid & Hbr & Hex).
  pose proof (lt_errors _ _ (expression_later _ _ Hs1)) as E1.
  pose proof (lt_errors _ _ (block_later _ _ Hs4)) as E4.
  pose proof (lt_errors _ _ (expression_later _ _ Hs6)) as E56.
  change (errors (entered c1)) with (errors c1) in E4.
  change (errors (set_flow it c4)) with (errors c4) in E56.
  specialize (Hchecked ltac:(change (errors (set_flow it c4)) with (errors c4); lia)).
  assert (Hcount1 : count (flow c1) = count (flow c)) by apply (es_count _ _ Hs1).
  rewrite Hc4, Hcount1 in *.
  exists c1, always. split_and!; [apply Hcc; lia | done | done | |].
  2: { intros ->. by injection Hcond as <-. }
  exists cb, c4, l, ls, it, c6. split_and!; try done.
  - split; [done | done | done | lia].
  - destruct p; [by split | by rewrite Hchecked].
  - exact (later_keeps (entered c1) c4 (block_later _ _ Hs4)).
  - exact (later_keeps (set_flow it c4) c6 (expression_later _ _ Hs6)).
  - intros Hr j Hj Ho. rewrite <- (equiv_same _ _ Heqe).
    apply Hvalid; [lia | done | done |]. by rewrite Heqe.
  - intros Ha Hr. destruct (Hex Ha) as [? Hbelow]; [by rewrite Heqx|]. split; [done|].
    etrans; [|exact Hbelow]. apply equiv_below. by symmetry.
Qed.
End Statements.
