(* ===== verification/FlowSwitch.v ===== *)
(** Accepted [switch] statements: what their cases were checked from, what their labels
    collect, and that an exhaustive one has a case for every value. *)
From S2P Require Import Prelude Token Types IntegerValue TypeRelations FlowState FlowCheck.
From S2P Require Import FlowInvariant FlowTotal FlowRun FlowTrack FlowExpression FlowDefer FlowAssign.
From S2P Require Import FlowStatement.

Section Switch.
Context (store : TypeStore) (type_bool : TypePtr) {evaluator : ConstantEvaluator}
  (Hbool : is_Some type_bool) (globals : list Scope) {laws : EvaluatorLaws store globals}
  (Hco : coercion_typed store).

Abbreviation well locals c := (good store locals globals c).
Abbreviation accepts_value n c i c' :=
  (check_value_expression store type_bool n c = Returned (Some i, c')).
Abbreviation block b := (check_block (check_node store type_bool) b).

(** A constant expression leaves the whole state. *)
Lemma constant_flow locals n i v c c' :
  well locals c -> accepts_value n c i c' -> const_value n = Some v -> flow c' ≡ flow c.
Proof.
  intros Hg Hv%value_inv Hc. destruct (accepts_good _ _ Hbool _ _ _ _ _ _ Hg Hv) as [Hg' Hs].
  pose proof (accepts_pure store type_bool Hbool locals globals n c i c'
    (constant_pure store globals n v Hc) Hg Hv) as Hsame.
  pose proof (ev_flow _ _ (es_evolves _ _ Hs)) as [Hid Hown].
  split_and!; [done | apply (es_count _ _ Hs) | apply (es_reachable _ _ Hs) | apply Hsame |].
  intros j. destruct (decide (j < count (flow c))%nat); [by rewrite Hown|].
  rewrite (wf_owner_zero _ (g_flow _ _ _ _ Hg)) by lia.
  apply (wf_owner_zero _ (g_flow _ _ _ _ Hg')). rewrite (es_count _ _ Hs). lia.
Qed.

(** ** Labels *)

(** [labels'] is [labels] with what [label] adds. *)
Definition adds_label (t : TypePtr) (label : option Node) (labels labels' : SwitchLabels) : Prop :=
  match label with
  | None => labels' = mkLabels (checked_case_values labels) true
  | Some node => exists v v', const_value node = Some v /\ coerce_constant v t = Some v'
      /\ labels' = mkLabels (checked_case_values labels ++ [v']) (seen_default labels)
  end.

Lemma label_inv locals label t labels c labels' c' :
  well locals c ->
  check_switch_case_label store type_bool label t true labels c = Returned (labels', c') ->
  errors c' = errors c ->
  well locals c' /\ expression_step c c' /\ flow c' ≡ flow c /\ adds_label t label labels labels'.
Proof.
  intros Hg H He. unfold check_switch_case_label in H. destruct label as [node|].
  2: { apply bind_inv in H as ([] & c1 & Hopt & H). injection H as <- <-.
       destruct (seen_default labels); [apply error_inv in Hopt; lia|]. by injection Hopt as <-. }
  apply bind_inv in H as (r & c1 & Hv & H).
  destruct (value_spec_inv store type_bool Hbool globals _ _ _ _ _ Hg Hv) as (Hg1 & Hs1 & Hsome).
  pose proof (lt_errors _ _ (expression_later _ _ Hs1)) as E1.
  assert (Hbad : forall msg, (semantic_error msg ;; mret labels) c1 = Returned (labels', c') -> False).
  { intros msg ([] & c2 & Hmsg%error_inv & Hret)%bind_inv. injection Hret as <- <-. lia. }
  destruct r as [info|]; [|injection H as <- <-; by destruct (Hsome He)]. simpl in H.
  destruct (negb _); [by destruct (Hbad _ H)|].
  destruct (const_value node) as [v|] eqn:Hc; [|by destruct (Hbad _ H)].
  destruct (coerce_constant v t) as [v'|] eqn:Hv'; [|by destruct (Hbad _ H)].
  unfold record_switch_case_value in H.
  destruct (existsb _ _); [by destruct (Hbad _ H)|]. injection H as <- <-.
  split_and!; [done | done | by eapply constant_flow |]. by exists v, v'.
Qed.

(** What the labels of the cases [ls] collect. *)
Definition collected (t : TypePtr) (ls : list (option Node)) (labels labels' : SwitchLabels) : Prop :=
  (forall v', v' ∈ checked_case_values labels' -> v' ∈ checked_case_values labels
     \/ exists node v, Some node ∈ ls /\ const_value node = Some v /\ coerce_constant v t = Some v')
  /\ (seen_default labels' = true -> seen_default labels = true \/ None ∈ ls).

Lemma collected_cons t label ls labels labels1 labels2 :
  adds_label t label labels labels1 -> collected t ls labels1 labels2 ->
  collected t (label :: ls) labels labels2.
Proof.
  intros Ha [Hv Hd]. split.
  - intros v' [Hin|(node & v & Hin & Hrest)]%Hv; [|right; exists node, v; split; [by right | done]].
    destruct label as [node|]; simpl in Ha.
    + destruct Ha as (v & w & Hc & Hw & ->). simpl in Hin. apply elem_of_app in Hin as [?|Hin]; [by left|].
      apply list_elem_of_singleton in Hin as ->. right. exists node, v. split; [by left | done].
    + subst. by left.
  - intros [Hin|Hin]%Hd; [|right; by right].
    destruct label as [node|]; simpl in Ha; [|right; by left].
    destruct Ha as (v & w & _ & _ & ->). by left.
Qed.

(** ** Cases *)

(** The case [b] is checked from [F] and what continues behind it is part of [m]. *)
Definition checked_case (locals : list Scope) (F : FlowState) (n : nat) (m : option FlowState)
    (c c' : SemanticContext) (b : Statement) : Prop :=
  exists cb cb', branch store type_bool globals locals F b cb cb' /\ later cb' c'
    /\ active_deferred_resources cb = active_deferred_resources c
    /\ (reachable (flow cb') = true -> exists f, m = Some f /\ reachable f = true /\ below n (flow cb') f).

(** What was accumulated stays part of it. *)
Definition accumulates (n : nat) (m m' : option FlowState) : Prop :=
  forall f, m = Some f -> exists f', m' = Some f'
    /\ (reachable f = true -> reachable f' = true /\ below n f f').

#[local] Instance accumulates_preorder n : PreOrder (accumulates n).
Proof.
  split.
  - intros m f ->. exists f. split; [done|]. intros ?. split; [done | reflexivity].
  - intros a b c Hab Hbc f Hf. destruct (Hab f Hf) as (g & Hg & Hfg).
    destruct (Hbc g Hg) as (h & Hh & Hgh). exists h. split; [done|]. intros Hr.
    destruct (Hfg Hr) as [Hr' ?]. destruct (Hgh Hr') as [? ?]. split; [done | by etrans].
Qed.

(** The merge of a case with those before it. *)
Lemma case_merge_inv locals c m incoming f :
  well locals c -> fits c incoming -> merged_fits c m ->
  match m with
  | None => clone_truncated (flow c) (count incoming)
  | Some m => flow_merge_continuing_paths m (flow c) (count incoming)
  end = Returned f ->
  fits c f /\ accumulates (count incoming) m (Some f)
  /\ (reachable (flow c) = true -> reachable f = true /\ below (count incoming) (flow c) f).
Proof.
  intros Hg Hin Hm H. pose proof Hin as (_ & Hci & _). destruct m as [g|].
  - destruct (merge_good store locals globals c g (flow c) (count incoming) f Hg (Hm g eq_refl)
      (fits_self store locals globals c Hg) Hci H) as [Hf Hmerged].
    assert (Hrf : reachable f = reachable g || reachable (flow c)) by apply Hmerged.
    split_and!; [done | |].
    + intros ? [= <-]. exists f. split; [done|]. intros Hr. rewrite Hrf, Hr.
      split; [done | by eapply merged_below_l].
    + intros Hr. rewrite Hrf, Hr, orb_true_r. split; [done | by eapply merged_below_r].
  - destruct (returns_inv _ _ _ (clone_truncated_spec (flow c) (count incoming) (g_flow _ _ _ _ Hg)
      ltac:(lia)) H) as [Hwf Ht].
    split_and!; [|done|].
    + split_and!; [done | destruct Ht as (_ & ? & _); lia |]. rewrite <- Hci. apply compatible_sym.
      by apply truncated_compatible.
    + intros Hr. split; [by destruct Ht as (_ & _ & -> & _) | by apply truncated_below].
Qed.

Lemma cases_ok (cases : list (option Node * Statement)) :
  forallb (fun p => self_contained (snd p) && parsed (snd p)) cases = true ->
  Forall (fun p => scoped_ok store type_bool globals p.2) cases.
Proof.
  rewrite forallb_forall. intros Hp. apply Forall_forall. intros q Hq%list_elem_of_In.
  destruct (proj1 (andb_true_iff _ _) (Hp q Hq)).
  by apply (check_node_ok store type_bool Hbool globals Hco).
Qed.

Lemma cases_inv locals cases t incoming labels m c labels' m' c' :
  forallb (fun p => self_contained (snd p) && parsed (snd p)) cases = true ->
  well locals c -> fits c incoming -> merged_fits c m -> labels_ok store t (checked_case_values labels) ->
  check_switch_cases store type_bool (check_node store type_bool) cases t true incoming labels m c
    = Returned ((labels', m'), c') ->
  errors c' = errors c ->
  accumulates (count incoming) m m' /\ collected t (map fst cases) labels labels'
  /\ (cases <> [] -> is_Some m')
  /\ forall label b, (label, b) ∈ cases ->
       checked_case locals incoming (count incoming) m' c c' b.
Proof.
  revert labels m c. induction cases as [|[label b] cases IH]; intros labels m c Hp Hg Hin Hm Hl H He.
  { injection H as <- <- <-. split_and!; [reflexivity | split; by left | done |].
    by intros ? ? ?%not_elem_of_nil. }
  cbn [forallb snd] in Hp. apply andb_true_iff in Hp as [[Hpc Hpb]%andb_true_iff Hp].
  assert (Hpost : forall labels m c, well locals c -> fits c incoming -> merged_fits c m ->
    labels_ok store t (checked_case_values labels) -> forall r c',
    check_switch_cases store type_bool (check_node store type_bool) cases t true incoming labels m c
      = Returned (r, c') -> scoped_post store globals locals c c').
  { intros labels0 m0 c0 Hg0 Hin0 Hm0 Hl0 r c0' H0.
    exact (proj1 (steps_inv _ _ _ _ _ (switch_cases_spec store type_bool Hbool globals cases t true incoming
      labels0 m0 locals c0 Hco (cases_ok _ Hp) Hg0 Hin0 Hm0 Hl0) H0)). }
  simpl in H. apply bind_inv in H as ([] & c1 & Hre & H).
  apply restart_inv in Hre as (g & -> & Heqg & Hwfg); [|apply Hin].
  pose proof (restart_good _ _ _ _ _ _ Hg Hin Heqg Hwfg) as Hg1.
  pose proof (restart_block _ _ _ _ _ _ Hg Hin Heqg Hwfg) as Hs1.
  apply bind_inv in H as (labels1 & c2 & Hlabel & H).
  destruct (steps_inv _ _ _ _ _ (label_spec store type_bool Hbool globals locals label t true labels _ Hco Hg1 Hl)
    Hlabel) as (Hg2 & Hs2 & Hl1).
  apply bind_inv in H as ([] & c3 & Hblock & H).
  destruct (node_scoped store type_bool Hbool globals Hco _ _ _ _ Hpb Hpc Hg2 Hblock) as (Hg3 & Hs3 & Ha3).
  apply bind_inv in H as (? & ? & [-> ->]%get_inv & H). apply bind_inv in H as (f & ? & [Hf ->]%run_inv & H).
  assert (Hs03 : block_step c c3).
  { etrans; [exact Hs1|]. etrans; [by apply expression_block_step | done]. }
  pose proof (fits_step _ _ _ Hs03 Hin) as Hin3.
  assert (Hm3 : merged_fits c3 m) by (intros q Hq; eapply fits_step; [exact Hs03 | by apply Hm]).
  destruct (case_merge_inv _ _ _ _ _ Hg3 Hin3 Hm3 Hf) as (Hff & Hacc & Hcase).
  assert (Hmf : merged_fits c3 (Some f)) by (by intros ? [= <-]).
  pose proof (Hpost _ _ _ Hg3 Hin3 Hmf Hl1 _ _ H) as (Hg' & Hs' & Ha').
  pose proof (lt_errors _ _ (expression_later _ _ Hs2)) as E2. change (errors (set_flow g c)) with (errors c) in E2.
  pose proof (lt_errors _ _ (block_later _ _ Hs3)) as E3. pose proof (lt_errors _ _ (block_later _ _ Hs')) as E4.
  destruct (label_inv _ _ _ _ _ _ _ Hg1 Hlabel) as (_ & _ & Heq2 & Hadds);
    [change (errors (set_flow g c)) with (errors c); lia|].
  destruct (IH _ _ _ Hp Hg3 Hin3 Hmf Hl1 H ltac:(lia)) as (Hacc' & Hcoll & Hne & Hcases).
  pose proof (transitivity Hacc Hacc') as Hall.
  split_and!; [done | by eapply collected_cons | |].
  { intros _. destruct (Hacc' f eq_refl) as (f' & -> & _). by eexists. }
  intros label' b' [Heq|Hin']%elem_of_cons.
  - injection Heq as -> ->. exists c2, c3. split_and!.
    + split; [done | done | by etrans | lia].
    + by apply block_later.
    + apply (es_active _ _ Hs2).
    + intros Hr. destruct (Hcase Hr) as [Hrf Hbf]. destruct (Hacc' f eq_refl) as (f' & -> & Hf').
      destruct (Hf' Hrf). exists f'. split_and!; [done | done | by etrans].
  - destruct (Hcases _ _ Hin') as (cb & cb' & Hbr & Hlat & Hact & Hend).
    exists cb, cb'. split_and!; [done | done | | done]. rewrite Hact, Ha3. apply (es_active _ _ Hs2).
Qed.

(** ** The statement *)

(** The state behind a [switch] admits the paths through its cases, and, when it is not
    exhaustive, the path around them. *)
Definition checked_switch (locals : list Scope) (t : TypePtr) (cases : list (option Node * Statement))
    (c1 c' : SemanticContext) : Prop :=
  later c1 c' /\ count (flow c') = count (flow c1)
  /\ (forall label b, (label, b) ∈ cases -> exists cb cb',
        branch store type_bool globals locals (flow c1) b cb cb' /\ later cb' c'
        /\ active_deferred_resources cb = active_deferred_resources c1
        /\ (reachable (flow cb') = true ->
              reachable (flow c') = true /\ below (count (flow c1)) (flow cb') (flow c')))
  /\ (reachable (flow c1) = true ->
       reachable (flow c') = true /\ below (count (flow c1)) (flow c1) (flow c')
       \/ exists ty labels, deref store t = Some ty
            /\ collected t (map fst cases) (mkLabels [] false) labels
            /\ (seen_default labels = true \/ covers ty (checked_case_values labels))).

(** The end of an accepted [switch], where [m] is what its cases have accumulated. *)
Lemma switch_end_inv locals t labels m incoming c c' :
  well locals c -> fits c incoming -> merged_fits c m ->
  match m with
  | None => modify (set_flow incoming)
  | Some m =>
      exhaustive ← run (switch_case_values_are_exhaustive store t
                          (checked_case_values labels) (seen_default labels));
      if (exhaustive : bool) then modify (set_flow m)
      else
        s ← run (flow_merge_continuing_paths m incoming (count incoming));
        modify (set_flow s)
  end c = Returned (tt, c') ->
  later c c' /\ errors c' = errors c /\ count (flow c') = count incoming
  /\ (forall f, m = Some f -> reachable f = true -> reachable (flow c') = true
        /\ below (count incoming) f (flow c'))
  /\ ((reachable incoming = true -> reachable (flow c') = true /\ below (count incoming) incoming (flow c'))
     \/ switch_case_values_are_exhaustive store t (checked_case_values labels) (seen_default labels)
        = Returned true).
Proof.
  intros Hg Hin Hm H. destruct m as [f|].
  - pose proof (Hm f eq_refl) as Hf. pose proof (proj1 (proj2 Hin)) as Hci.
    apply bind_inv in H as (e & ? & [Hex ->]%run_inv & H). destruct e.
    + apply modify_inv in H as ->. split_and!; [apply flow_later | done | simpl; rewrite Hci; apply Hf | | by right].
      intros ? [= <-] ?. split; [done | reflexivity].
    + apply bind_inv in H as (f' & ? & [Hmerge ->]%run_inv & H). apply modify_inv in H as ->.
      destruct (merge_good store locals globals c f incoming (count incoming) f' Hg Hf Hin Hci Hmerge)
        as [Hf' Hmerged].
      assert (Hrf : reachable f' = reachable f || reachable incoming) by apply Hmerged.
      split_and!; [apply flow_later | done | by destruct Hmerged as (_ & ? & _) | |].
      * intros ? [= <-] Hr. simpl. rewrite Hrf, Hr. split; [done | by eapply merged_below_l].
      * left. intros Hr. simpl. rewrite Hrf, Hr, orb_true_r. split; [done | by eapply merged_below_r].
  - apply modify_inv in H as ->. split_and!; [apply flow_later | done | done | done |].
    left. intros ?. split; [done | reflexivity].
Qed.

Lemma switch_inv locals n concrete cases c c' :
  forallb (fun p => self_contained (snd p) && parsed (snd p)) cases = true -> well locals c ->
  check_switch_statement store type_bool (check_node store type_bool) n concrete cases c = Returned (tt, c') ->
  errors c' = errors c ->
  exists i c1, accepts_value n c i c1 /\ well locals c1 /\ expression_step c c1
    /\ let t := if has_kind store (info_type i) TYPE_UNTYPED_INT then concrete else info_type i in
       checked_switch locals t cases c1 c'.
Proof.
  intros Hp Hg H He. unfold check_switch_statement in H.
  apply bind_inv in H as (r & c1 & Hv & H).
  destruct (value_spec_inv store type_bool Hbool globals _ _ _ _ _ Hg Hv) as (Hg1 & Hs1 & Hsome).
  pose proof (lt_errors _ _ (expression_later _ _ Hs1)) as E1.
  destruct r as [i|]; [|injection H as <-; by destruct (Hsome He)].
  set (t := if has_kind store (info_type i) TYPE_UNTYPED_INT then concrete else info_type i) in *.
  destruct (negb (bool_decide (is_Some t))); [apply error_inv in H; lia|].
  apply bind_inv in H as ([] & c2 & Hopt & H).
  destruct (steps_inv _ _ _ _ _ (optional_error_spec store globals locals _ _ c1 Hg1) Hopt)
    as (Hg2 & Hs2 & Hbad & Hok).
  pose proof (lt_errors _ _ (expression_later _ _ Hs2)) as E2.
  apply bind_inv in H as (incoming & ? & [Hinc ->]%ask_inv & H).
  destruct (clone_inv _ _ (g_flow _ _ _ _ Hg2) Hinc) as [Hwf Heq].
  pose proof (fits_equiv _ _ Hwf Heq) as Hin.
  apply bind_inv in H as ([labels m] & c3 & Hcases & H).
  destruct (steps_inv _ _ _ _ _ (switch_cases_spec store type_bool Hbool globals cases t _ incoming
    (mkLabels [] false) None locals c2 Hco (cases_ok _ Hp) Hg2 Hin ltac:(done) ltac:(intros ty _; constructor))
    Hcases) as ((Hg3 & Hs3 & Ha3) & Hlab & Hfits). simpl in Hlab, Hfits.
  pose proof (lt_errors _ _ (block_later _ _ Hs3)) as E3.
  pose proof (fits_step _ _ _ Hs3 Hin) as Hin3.
  destruct (switch_end_inv locals t labels m incoming c3 c' Hg3 Hin3 Hfits H) as (L4 & E4 & Hc' & Hpaths & Hex).
  destruct (is_switchable_type store t) eqn:Hvalid; [|specialize (Hbad eq_refl); lia].
  rewrite (Hok eq_refl) in *. clear Hok Hbad.
  destruct (cases_inv locals cases t incoming (mkLabels [] false) None c1 labels m c3 Hp Hg2 Hin
    ltac:(done) ltac:(intros ty _; constructor) Hcases ltac:(lia)) as (_ & Hcoll & _ & Hall).
  assert (Hcount : count incoming = count (flow c1)) by (by rewrite Heq). rewrite Hcount in *.
  exists i, c1. split_and!; [done | done | done |]. fold t.
  split; [etrans; [by apply block_later | done]|]. split; [done|]. split.
  - intros label b Hin'. destruct (Hall label b Hin') as (cb & cb' & [Hb Hgb Heqb Heb] & Hlat & Hact & Hend).
    exists cb, cb'. split_and!; [split; [done | done | by etrans | done] | by etrans | done |].
    intros Hr. destruct (Hend Hr) as (f & Hf & Hrf & Hbf). destruct (Hpaths f Hf Hrf) as [? Hbc].
    split; [done | by etrans].
  - intros Hr. destruct Hex as [Hex|Hex].
    + left. destruct Hex as [? Hb]; [by rewrite Heq|]. split; [done|]. etrans; [|exact Hb].
      apply equiv_below. by symmetry.
    + right. unfold is_switchable_type, kind_satisfies in Hvalid.
      destruct (deref store t) as [ty|] eqn:Hty; [|done].
      destruct (exhaustive_returns store t ty (checked_case_values labels) (seen_default labels) Hty
        (Hlab ty Hty)) as (r & Hr' & Hiff). rewrite Hr' in Hex. injection Hex as ->.
      exists ty, labels. split_and!; [done | done | by apply Hiff].
Qed.

(** ** Values *)

Lemma equal_values_trans v w m :
  integer_values_equal v m = true -> integer_values_equal w m = true -> integer_values_equal v w = true.
Proof.
  unfold integer_values_equal.
  intros [H1%Z.eqb_eq H2%eqb_prop]%andb_true_iff [H3%Z.eqb_eq H4%eqb_prop]%andb_true_iff.
  apply andb_true_iff. rewrite H1, H2, H3, H4. split; [apply Z.eqb_refl | apply eqb_reflx].
Qed.

(** When the labels cover the type, no value of the type misses them all. *)
Lemma covered_hit t ty cases labels v :
  deref store t = Some ty -> collected t cases (mkLabels [] false) labels ->
  seen_default labels = true \/ covers ty (checked_case_values labels) ->
  inhabits store t v -> Forall (label_misses v) cases -> False.
Proof.
  intros Hty [Hvals Hdef] Hcov Hv Hmiss. rewrite Forall_forall in Hmiss.
  assert (Hhit : forall c, c ∈ checked_case_values labels -> kind ty = TYPE_BOOL \/ kind ty = TYPE_ENUM ->
            forall a, v = VConst a -> const_values_equal c (mkConstValue None a) = true -> False).
  { intros c Hc Hk a Ha Heq. destruct (Hvals c Hc) as [[]%not_elem_of_nil|(node & c0 & Hin & Hconst & Hco')].
    destruct (Hmiss _ Hin) as (node' & c1 & [= <-] & Hc1 & Hnot).
    rewrite Hconst in Hc1. injection Hc1 as <-. specialize (Hnot a Ha).
    unfold const_values_equal in *. rewrite (coerce_value store globals c0 t c ty Hco' Hty Hk) in Heq. congruence. }
  destruct Hcov as [Hd|Hcov].
  { destruct (Hdef Hd) as [?|Hin]; [done|]. by destruct (Hmiss _ Hin) as (? & ? & ? & _). }
  specialize (Hv ty Hty). unfold covers in Hcov. destruct (kind ty) eqn:Hk; try done.
  - destruct Hv as [b ->]. destruct (Hcov b) as (c & Hc & Hb).
    apply (Hhit c Hc (or_introl eq_refl) _ eq_refl). unfold const_values_equal. rewrite Hb. apply eqb_reflx.
  - destruct Hv as (x & m & -> & Hm & Hx). destruct Hcov as [_ Hcov].
    destruct (Hcov m Hm) as (c & w & Hc & Hw & Heq).
    apply (Hhit c Hc (or_intror eq_refl) _ eq_refl). unfold const_values_equal. rewrite Hw. simpl.
    by apply (equal_values_trans _ _ (em_value m)).
Qed.
End Switch.
