(* ===== verification/FlowSafety.v ===== *)
(** Accepted functions never read a variable that is not live and never overwrite a live
    owner.

    The proof is by induction on the statement: [sound_statement] says how a run of an accepted
    statement may end and that the flow state recorded for that way of ending describes the
    variables. *)
From S2P Require Import Prelude Token Types IntegerValue TypeRelations FlowState FlowCheck.
From S2P Require Import FlowInvariant FlowTotal FlowRun FlowTrack FlowExpression FlowDefer FlowAssign.
From S2P Require Import FlowStatement FlowSwitch.

Section Safety.
Context (store : TypeStore) (type_bool : TypePtr) {evaluator : ConstantEvaluator}
  (Hbool : is_Some type_bool) (globals : list Scope) {laws : EvaluatorLaws store globals}
  (N : string -> bool).
Implicit Types (T K : Symbol -> Prop).

Abbreviation well locals c := (good store locals globals c).
Abbreviation node s := (check_node store type_bool s).
Abbreviation block b := (check_block (check_node store type_bool) b).
Abbreviation run s := (exec store type_bool globals s).
Abbreviation tracks T full K c locals env :=
  (tracked store T full K nothing (count (flow c)) (flow c) locals env).

(** What the theorem asks of a body besides that it is accepted: a returned value moves nothing
    under a condition, deferred statements are plain, and owners have names in [N]. *)
Fixpoint admissible (s : Statement) : bool :=
  match s with
  | SBlock b => forallb admissible b
  | SVarDecl x d _ inferred =>
      implb (contains_resource_by_value store (declaration_type d inferred)) (N x)
  | SExpr _ | SBreak | SContinue => true
  | SIf _ t e | SCompileIf _ t e =>
      forallb admissible t && match e with Some s => admissible s | None => true end
  | SWhile _ b | SFor _ _ b => forallb admissible b
  | SSwitch _ _ cases => forallb (fun p => admissible (snd p)) cases
  | SReturn v => match v with Some i => unconditional (init_node i) | None => true end
  | SDefer d => plain N d && admissible d
  end.

(** ** The ways a statement may end *)

(** The state recorded for the innermost loop describes the variables it has. *)
Definition leaves T full K (recorded : LoopFlowContext -> option FlowState) (locals : list Scope)
    (c : SemanticContext) (env : Environment) : Prop :=
  exists l ls F, current_loop c = l :: ls /\ recorded l = Some F
    /\ tracked store T full K nothing (active_variable_count l) F locals env.

Definition outcome_ok T full K (locals : list Scope) (c : SemanticContext) (env : Environment)
    (out : Completion) : Prop :=
  match out with
  | Normal => reachable (flow c) = true /\ tracks T full K c locals env
  | Broken => leaves T full K break_flow locals c env
  | Continued => leaves T full K continue_flow locals c env
  | Left_function => holds K nothing locals env
  | Faulted => False
  end.

Lemma tracked_holds T full K n F locals env :
  tracked store T full K nothing n F locals env -> holds K nothing locals env.
Proof. apply holds_mono; intros s _ Hs; by left. Qed.

Lemma outcome_holds T full K locals c env out :
  outcome_ok T full K locals c env out -> holds K nothing locals env.
Proof.
  destruct out; simpl; try done.
  - intros [_ H]. by eapply tracked_holds.
  - intros (? & ? & ? & _ & _ & H). by eapply tracked_holds.
  - intros (? & ? & ? & _ & _ & H). by eapply tracked_holds.
Qed.

(** The context moves on; what was recorded for a jump stays recorded. *)
Lemma outcome_later T full K locals c c' env out :
  out <> Normal -> later c c' -> outcome_ok T full K locals c env out ->
  outcome_ok T full K locals c' env out.
Proof.
  intros Hout [Hloops _ _ _].
  assert (Hleaves : forall recorded,
    (forall l l', loop_grows l l' -> grows (active_variable_count l) (recorded l) (recorded l')) ->
    leaves T full K recorded locals c env -> leaves T full K recorded locals c' env).
  { intros recorded Hgrow (l & ls & F & Hl & HF & Htr). rewrite Hl in Hloops.
    apply Forall2_cons_inv_l in Hloops as (l' & ls' & Hg & _ & Hl').
    destruct (Hgrow _ _ Hg _ HF) as (F' & HF' & Hb). destruct Hg as (Hn & _).
    exists l', ls', F'. split_and!; [done | done |]. rewrite Hn. by eapply tracked_below. }
  destruct out; simpl; try done; apply Hleaves; intros l l' (_ & ? & ?); done.
Qed.

Lemma tracked_le T full K n F locals env env' :
  named store N locals -> env_le N env env' -> tracked store T full K nothing n F locals env ->
  tracked store T full K nothing n F locals env'.
Proof. intros Hn Hle. apply (holds_le store N); [done | by intros s [[]|(_ & _ & ? & _)] | done]. Qed.

Lemma outcome_le T full K locals c env env' out :
  named store N locals -> env_le N env env' -> outcome_ok T full K locals c env out ->
  outcome_ok T full K locals c env' out.
Proof.
  intros Hn Hle. destruct out; simpl.
  - intros [? ?]. split; [done | by eapply tracked_le].
  - intros (l & ls & F & ? & ? & ?). exists l, ls, F. split_and!; [done | done | by eapply tracked_le].
  - intros (l & ls & F & ? & ? & ?). exists l, ls, F. split_and!; [done | done | by eapply tracked_le].
  - by apply (holds_le store N).
  - done.
Qed.

(** Fewer symbols that must stay live. *)
Lemma outcome_mono T full K K' locals c env out :
  (forall s, K' s -> K s) -> outcome_ok T full K locals c env out ->
  outcome_ok T full K' locals c env out.
Proof.
  intros HK.
  assert (Htr : forall n F, tracked store T full K nothing n F locals env ->
            tracked store T full K' nothing n F locals env).
  { intros n F. apply tracked_weaken; [done | reflexivity | by left; apply HK | by left]. }
  destruct out; simpl; try done.
  - intros [? ?]. auto.
  - intros (l & ls & F & ? & ? & ?). exists l, ls, F. auto.
  - intros (l & ls & F & ? & ? & ?). exists l, ls, F. auto.
  - apply holds_mono; auto.
Qed.

(** ** Statements and blocks *)

Definition sound_statement (s : Statement) : Prop := forall T full K locals c c' env env' out,
  entry store globals N T full K locals c c' env -> node s c = Returned (tt, c') ->
  errors c' = errors c -> reachable (flow c) = true -> (full = false -> plain N s = true) ->
  run env s env' out ->
  exists locals', well locals' c' /\ extends locals locals' /\ named store N locals'
    /\ outcome_ok T full K locals' c' env' out.

Definition sound_block (b : list Statement) : Prop := forall T full K locals c c' env env' out,
  entry store globals N T full K locals c c' env -> block b c = Returned (tt, c') ->
  errors c' = errors c -> reachable (flow c) = true ->
  (full = false -> forallb (plain N) b = true) ->
  exec_scope store type_bool globals env b env' out -> outcome_ok T full K locals c' env' out.

(** A statement that leaves the scopes as they are. *)
Definition sound_scoped (s : Statement) : Prop := forall T full K locals c c' env env' out,
  entry store globals N T full K locals c c' env -> node s c = Returned (tt, c') ->
  errors c' = errors c -> reachable (flow c) = true -> (full = false -> plain N s = true) ->
  run env s env' out -> outcome_ok T full K locals c' env' out.

(** The deferred statement of a registration too. *)
Definition sound_both (s : Statement) : Prop :=
  sound_statement s /\ (self_contained s = true -> sound_scoped s)
  /\ match s with SDefer d => sound_statement d | _ => True end.

Context (Hco : coercion_typed store).

Lemma extends_named locals locals' :
  extends locals locals' -> named store N locals' -> named store N locals.
Proof.
  destruct locals as [|sc rest], locals' as [|sc' rest']; try done.
  intros (-> & _ & new & Hnew) Hn s (u & Hu & Hs). apply Hn.
  apply elem_of_cons in Hu as [->|Hu].
  - exists sc'. split; [by left|]. rewrite Hnew. apply elem_of_app. by right.
  - exists u. split; [by right | done].
Qed.

(** A deferred statement is registered: the owners it uses join the symbols that stay live. *)
Lemma register_ready T full K locals c c1 d f env :
  parsed (SDefer d) = true -> admissible (SDefer d) = true -> sound_statement d ->
  entry store globals N T full K locals c c1 (f :: env) -> node (SDefer d) c = Returned (tt, c1) ->
  errors c1 = errors c -> reachable (flow c) = true ->
  exists K1, (forall s, K s -> K1 s) /\ well locals c1 /\ later c c1
    /\ guarded store K1 c1 /\ reachable (flow c1) = true
    /\ tracks T full K1 c1 locals (f :: env)
    /\ ready store type_bool globals N K1 locals (length f, d).
Proof.
  intros Hp Hadm IH [Hg Hu HK Hn Htr] H He Hr. cbn [admissible] in Hadm.
  apply andb_true_iff in Hadm as [Hplain _].
  destruct (defer_inv store type_bool Hbool globals Hco locals d c c1 Hp Hg H He)
    as (Hdepth & Hg1 & Hs1 & Heq & c2 & Hgd & Hd & He2 & Hdepth2 & Hact).
  set (Td := fun s => contains_resource_by_value store (sym_type s) = false
               \/ deferred_resource_list_contains (captured_deferred_resources c2) s = true).
  set (Kd := fun s => in_scopes locals s /\ alive_by Td (flow c) (count (flow c)) s).
  assert (HT : forall s, T s).
  { destruct Hu as [HT|[Hz _]]; [done|]. rewrite (lt_defer _ _ (block_later _ _ Hs1)) in Hz. done. }
  exists (fun s => K s \/ Kd s). split_and!.
  - by left.
  - done.
  - by apply block_later.
  - intros s [Hs|[_ (Hs & Hlt & _)]].
    + apply (guarded_evolves store K c); [apply Hs1 | done | done].
    + rewrite (bs_count _ _ Hs1). split; [done|]. destruct Hs as [Hs|Hs]; [by left | right].
      rewrite Hact. by apply activate_captured.
  - by rewrite Heq.
  - rewrite (bs_count _ _ Hs1). eapply tracked_weaken; [done | | | by left | exact Htr].
    + apply equiv_below. by symmetry.
    + intros s [?|[_ (_ & ? & ?)]]; [by left | right; by split_and!].
  - destruct (g_nonempty _ _ _ _ Hg) as [Hne _]. destruct locals as [|sc rest]; [done|].
    exists sc, rest, [], (symbols sc). split_and!; [done | done | | done |].
    { apply Forall2_cons in Htr as [Hf _]. by apply Forall2_length in Hf. }
    simpl. intros f' env0 env' out Hh Hrun.
    destruct (IH Td false nothing (sc :: rest) (deferring c) c2 (f' :: env0) env' out)
      as (locals' & _ & _ & _ & Hout); try done.
    + split; try done.
      * right. split_and!; [done | by left | by right].
      * replace sc with (mkScope (symbols sc) (flow_count_mark sc)) by (by destruct sc).
        eapply holds_mono; [| |exact Hh].
        -- intros s Hin [[]|Hs]. right. split; [|done]. by destruct sc.
        -- intros s _ [[]|[? _]]. done.
    + by intros ->.
Qed.

(** The check of a list of statements, the first one accepted. *)
Lemma statements_cons_inv locals diag s b c c' :
  parsed s = true -> forallb parsed b = true -> well locals c ->
  check_statements store type_bool diag (s :: b) c = Returned (tt, c') -> errors c' = errors c ->
  exists locals1 c1, node s c = Returned (tt, c1) /\ errors c1 = errors c
    /\ well locals1 c1 /\ evolves c c1 /\ extends locals locals1
    /\ check_statements store type_bool diag b c1 = Returned (tt, c') /\ errors c' = errors c1
    /\ later c1 c'.
Proof.
  intros Hps Hpb Hg H He. apply bind_inv in H as ([] & c1 & H1 & H).
  apply bind_inv in H1 as (live & ? & [-> ->]%get_inv & H1).
  apply bind_inv in H1 as ([] & c0 & Hopt & Hnode).
  destruct (steps_inv _ _ _ _ _ (optional_error_spec store globals locals _ _ c Hg) Hopt)
    as (Hg0 & Hs0 & Htrue & Hfalse).
  destruct (node_inv store type_bool Hbool globals Hco _ _ _ _ Hps Hg0 Hnode) as (locals1 & Hg1 & He1 & Hx1).
  destruct (statements_inv store type_bool Hbool globals Hco _ _ _ _ _ Hpb Hg1 H) as (_ & _ & He2 & _).
  pose proof (ev_errors _ _ (es_evolves _ _ Hs0)). pose proof (ev_errors _ _ He1).
  pose proof (ev_errors _ _ He2). destruct (diag && _).
  { specialize (Htrue eq_refl). lia. }
  rewrite (Hfalse eq_refl) in *. exists locals1, c1. split_and!; try done; try lia.
  by apply evolves_later.
Qed.

(** The statements of a block, and the deferred statements registered before and in them. *)
Lemma sound_statements b diag T full K defers locals c c' env env' out :
  Forall sound_both b -> forallb parsed b = true -> forallb admissible b = true ->
  entry store globals N T full K locals c c' env ->
  check_statements store type_bool diag b c = Returned (tt, c') -> errors c' = errors c ->
  reachable (flow c) = true -> (full = false -> forallb (plain N) b = true) ->
  Forall (ready store type_bool globals N K locals) defers ->
  exec_block store type_bool globals env b defers env' out ->
  exists locals', extends locals locals' /\ outcome_ok T full K locals' c' env' out.
Proof.
  intros Hb. revert K defers locals c env.
  induction Hb as [|s b [Hs Hd] _ IH]; intros K defers locals c env Hp Hadm Hen H He Hr Hfull Hdef Hrun.
  - injection H as <-. destruct Hen as [Hg _ _ Hn Htr]. inversion Hrun as [? ? ? ? Hx| | | |]; subst.
    destruct (defers_run _ _ _ _ _ _ _ _ _ _ _ Hn Hdef (tracked_holds _ _ _ _ _ _ _ Htr) Hx) as [-> Hle].
    exists locals. split; [reflexivity|]. eapply outcome_le; [done | exact Hle | by split].
  - cbn [forallb] in Hp, Hadm, Hfull. apply andb_true_iff in Hp as [Hps Hpb].
    apply andb_true_iff in Hadm as [Has Hab].
    pose proof Hen as [Hg Hu HK Hn Htr].
    destruct (statements_cons_inv _ _ _ _ _ _ Hps Hpb Hg H He)
      as (locals1 & c1 & Hnode & He1 & Hg1 & Hev & Hx1 & H1 & He' & Hlater).
    assert (Hfull' : full = false -> plain N s = true /\ forallb (plain N) b = true)
      by (intros Hf; by apply andb_true_iff, Hfull).
    pose proof (uses_ok_later _ _ _ _ Hlater Hu) as Hu1.
    assert (Hen1 : entry store globals N T full K locals c c1 env) by by split.
    apply block_cases in Hrun as [(d & f & env0 & -> & -> & Hrun)|[(env1 & Hs1 & Hrun)
      |[(env1 & out1 & Hs1 & Hn1 & Hf1 & Hrun)|[-> Hs1]]]].
    + destruct (register_ready T full K locals c c1 d f env0 Hps Has (proj2 Hd) Hen1 Hnode He1 Hr)
        as (K1 & HK1 & Hgc1 & _ & Hguard & Hr1 & Htr1 & Hready).
      destruct (IH K1 ((length f, d) :: defers) locals c1 (f :: env0)) as (locals' & Hx & Hout); try done.
      * naive_solver.
      * apply Forall_cons. split; [done|]. eapply Forall_impl; [exact Hdef|]. intros p.
        by apply ready_mono.
      * exists locals'. split; [done|]. by eapply outcome_mono.
    + destruct (Hs T full K locals c c1 env env1 Normal) as (locals2 & Hg2 & Hx2 & Hn2 & Hr2 & Htr2);
        try done; [naive_solver|].
      destruct (IH K defers locals2 c1 env1) as (locals' & Hx & Hout); try done.
      * split; try done. by eapply guarded_evolves.
      * naive_solver.
      * eapply Forall_impl; [exact Hdef|]. intros p. by apply ready_extends.
      * exists locals'. split; [by etrans | done].
    + destruct (Hs T full K locals c c1 env env1 out1) as (locals2 & Hg2 & Hx2 & Hn2 & Hout2);
        try done; [naive_solver|].
      assert (Hdef2 : Forall (ready store type_bool globals N K locals2) defers).
      { eapply Forall_impl; [exact Hdef|]. intros p. by apply ready_extends. }
      destruct (defers_run _ _ _ _ _ _ _ _ _ _ _ Hn2 Hdef2 (outcome_holds _ _ _ _ _ _ _ Hout2) Hrun)
        as [-> Hle].
      exists locals2. split; [done|]. apply (outcome_later _ _ _ _ c1); [done | done |].
      by eapply outcome_le.
    + destruct (Hs T full K locals c c1 env env' Faulted) as (_ & _ & _ & _ & []);
        try done. naive_solver.
Qed.

(** Leaving the scope of a block. *)
Lemma outcome_pop T full K sc locals c c' fr env out n :
  current_loop c' = current_loop c -> truncated (flow c) n (flow c') -> (n <= count (flow c))%nat ->
  outcome_ok T full K (sc :: locals) c (fr :: env) out -> outcome_ok T full K locals c' env out.
Proof.
  intros Hl Htr Hle.
  assert (Htail : forall m F, tracked store T full K nothing m F (sc :: locals) (fr :: env) ->
            tracked store T full K nothing m F locals env)
    by (intros m F H; by apply Forall2_cons in H as [_ ?]).
  destruct out; simpl; try done.
  - intros [Hr H]. pose proof Htr as (_ & Hc & Hre & _ & _). split; [congruence|]. rewrite Hc.
    eapply tracked_weaken; [exact Hle | by apply truncated_below | by left | by left | by eapply Htail].
  - intros (l & ls & F & ? & ? & ?). exists l, ls, F. rewrite Hl. eauto.
  - intros (l & ls & F & ? & ? & ?). exists l, ls, F. rewrite Hl. eauto.
  - by intros [_ ?]%Forall2_cons.
Qed.

Lemma opened_tracks T full K locals c env :
  tracks T full K c locals env ->
  tracks T full K (opened c) (mkScope [] (count (flow c)) :: locals) ([] :: env).
Proof. intros H. constructor; [constructor | exact H]. Qed.

Lemma block_sound b :
  Forall sound_both b -> forallb parsed b = true -> forallb admissible b = true -> sound_block b.
Proof.
  intros Hb Hp Hadm T full K locals c c' env env' out [Hg Hu HK Hn Htr] H He Hr Hfull Hrun.
  destruct (block_inv store type_bool Hbool globals Hco _ _ _ _ Hp Hg H)
    as ((Hg' & Hs' & Ha') & diag & c1 & Hst & Hg0 & Htrunc & Hl & Hcap & Hdef & Herr).
  inversion Hrun as [? ? fr ? ? Hrun']; subst.
  destruct (statements_inv store type_bool Hbool globals Hco _ _ _ _ _ Hp Hg0 Hst)
    as (_ & _ & Hev & _).
  destruct (sound_statements b diag T full K [] (mkScope [] (count (flow c)) :: locals) (opened c) c1
              ([] :: env) (fr :: env') out) as (locals' & Hx & Hout); try done.
  - split; try done.
    + destruct Hu as [?|(Hd & ? & Hc)]; [by left | right]. rewrite <- Hdef, <- Hcap. done.
    + intros s (sc & Hsc & Hs). apply Hn. apply elem_of_cons in Hsc as [->|Hsc].
      * by apply not_elem_of_nil in Hs.
      * by exists sc.
    + by apply opened_tracks.
  - simpl. unfold errors in *. simpl. lia.
  - destruct locals' as [|sc' rest]; [done|]. destruct Hx as (-> & _ & _).
    eapply outcome_pop; [done | exact Htrunc | | exact Hout].
    pose proof (ev_count _ _ Hev). simpl in *. lia.
Qed.

(** ** From one context to the next *)

(** The state behind a path is merged into a state that admits all of it. *)
Lemma outcome_flow T full K locals c c' env out :
  later c c' -> count (flow c') = count (flow c) ->
  (reachable (flow c) = true -> reachable (flow c') = true
     /\ below (count (flow c)) (flow c) (flow c')) ->
  outcome_ok T full K locals c env out -> outcome_ok T full K locals c' env out.
Proof.
  intros Hl Hc Hb Hout. destruct (decide (out = Normal)) as [->|Hne]; [|by eapply outcome_later].
  destruct Hout as [Hr Htr]. destruct (Hb Hr) as [Hr' Hbelow]. split; [done|].
  rewrite Hc. by eapply tracked_below.
Qed.

Lemma entry_next T full K locals c c' env c1 c1' env1 :
  entry store globals N T full K locals c c' env -> well locals c1 -> later c1' c' ->
  count (flow c1) = count (flow c) ->
  uses_grow (active_deferred_resources c) (active_deferred_resources c1) ->
  tracks T full K c1 locals env1 -> entry store globals N T full K locals c1 c1' env1.
Proof.
  intros [Hg Hu HK Hn Htr] Hg1 Hl Hc Ha Htr1. split; try done; [by eapply uses_ok_later|].
  intros s Hs. rewrite Hc. destruct (HK s Hs) as [? [?|?]]; auto.
Qed.

(** A state with the same slots that admits no less. *)
Lemma tracks_flow T full K locals c c1 env :
  count (flow c1) = count (flow c) -> below (count (flow c)) (flow c) (flow c1) ->
  tracks T full K c locals env -> tracks T full K c1 locals env.
Proof. intros Hc Hb. rewrite Hc. by apply tracked_below. Qed.

(** The expression that a statement starts with. *)
Lemma sound_condition T full K locals c c' env n i c1 r :
  entry store globals N T full K locals c c' env ->
  check_value_expression store type_bool n c = Returned (Some i, c1) -> later c1 c' ->
  reachable (flow c) = true -> eval globals env n r ->
  exists env1 v, r = Some (env1, v) /\ tracks T full K c1 locals env1.
Proof.
  intros [Hg Hu HK Hn Htr] Hv%value_inv Hl Hr Hev.
  eapply (sound_step store type_bool Hbool globals); try done; [by eapply uses_ok_later | by left].
Qed.

Lemma entry_expression T full K locals c c' env c1 env1 :
  entry store globals N T full K locals c c' env -> well locals c1 -> expression_step c c1 ->
  tracks T full K c1 locals env1 -> entry store globals N T full K locals c1 c' env1.
Proof.
  intros Hen Hg1 [] Htr. eapply entry_next; try done. by rewrite es_active.
Qed.

Lemma scoped_sound s :
  parsed s = true -> self_contained s = true ->
  sound_scoped s -> sound_statement s.
Proof.
  intros Hp Hs H T full K locals c c' env env' out Hen Hn He Hr Hfull Hrun.
  destruct (node_scoped store type_bool Hbool globals Hco _ _ _ _ Hp Hs (en_good Hen) Hn) as [Hg _].
  exists locals. split_and!; [done | reflexivity | exact (en_named Hen) | by eapply H].
Qed.

Lemma sound_SBlock b : sound_block b -> sound_scoped (SBlock b).
Proof.
  intros Hb T full K locals c c' env env' out Hen H He Hr Hfull Hrun. inversion Hrun; subst.
  by eapply Hb.
Qed.

(** A branch of a conditional, from the state behind its condition. *)
Lemma sound_branch T full K locals c c' env b cb cb' env' out :
  sound_scoped b -> entry store globals N T full K locals c c' env -> reachable (flow c) = true ->
  branch store type_bool globals locals (flow c) b cb cb' -> later cb' c' ->
  active_deferred_resources cb = active_deferred_resources c ->
  (full = false -> plain N b = true) ->
  run env b env' out -> outcome_ok T full K locals cb' env' out.
Proof.
  intros Hb Hen Hr [Hblock Hg Heq He] Hl Ha Hfull Hrun.
  eapply (Hb T full K locals cb cb' env env' out); try done.
  - eapply entry_next; try done; [by rewrite Heq | by rewrite Ha |].
    apply (tracks_flow _ _ _ _ c); [by rewrite Heq | | exact (en_tracked Hen)]. apply equiv_below. by symmetry.
  - by rewrite Heq.
Qed.

Lemma sound_SExpr e : sound_scoped (SExpr e).
Proof.
  intros T full K locals c c' env env' out Hen H He Hr Hfull Hrun. pose proof (en_good Hen) as Hg.
  cbn [check_node] in H. apply bind_inv in H as (ok & c1 & H & Hret). injection Hret as <-.
  rewrite (statement_expression_accepts _ _ Hbool _ _ _ _ _ _ Hg H He) in H.
  destruct (steps_inv _ _ _ _ _ (check_statement_expression_spec _ _ Hbool _ _ e c Hg) H) as (Hg1 & Hs & _).
  inversion Hrun; subst.
  destruct (sound_statement_expression store type_bool Hbool globals N T full K locals c c1 env e r)
    as (env1 & -> & Htr); try done.
  split; [by rewrite (es_reachable _ _ Hs) | done].
Qed.

(** ** Conditionals *)

Lemma plain_if cond t e :
  plain N (SIf cond t e) = true -> forallb (plain N) t = true /\ (forall s, e = Some s -> plain N s = true).
Proof. intros [[_ ?]%andb_true_iff He]%andb_true_iff. split; [done | by intros s ->]. Qed.

(** The two paths of a conditional whose condition is evaluated to [env1]. *)
Lemma sound_branches T full K locals c c' env t e :
  forallb parsed t = true -> parsed_else e ->
  sound_block t -> (forall s, e = Some s -> sound_scoped s) ->
  entry store globals N T full K locals c c' env -> reachable (flow c) = true ->
  check_branches store type_bool t e c = Returned (tt, c') -> errors c' = errors c ->
  (full = false -> forallb (plain N) t = true /\ (forall s, e = Some s -> plain N s = true)) ->
  (forall env' out, exec_scope store type_bool globals env t env' out ->
     outcome_ok T full K locals c' env' out)
  /\ match e with
     | Some s => forall env' out, run env s env' out ->
                   outcome_ok T full K locals c' env' out
     | None => outcome_ok T full K locals c' env Normal
     end.
Proof.
  intros Hpt Hpe Ht He Hen Hr H Herr Hfull.
  destruct (branches_inv store type_bool Hbool globals Hco _ _ _ _ _ Hpt Hpe (en_good Hen) H Herr)
    as (ct & c2 & ce & c3 & f & Bt & Lt & At & Be & Le & Ae & Hm & -> & L3).
  pose proof Bt as [Hbt Hgt Heqt Het].
  destruct (node_scoped store type_bool Hbool globals Hco _ (SBlock t) _ _ Hpt eq_refl Hgt Hbt) as (_ & Hst & _).
  assert (Hct : count (flow c2) = count (flow c)) by (rewrite (bs_count _ _ Hst); by rewrite Heqt).
  assert (Hlater3 : later ce c3 /\ count (flow c3) = count (flow c)).
  { destruct e as [b|]; [|destruct Be as [-> Heqe]; split; [reflexivity | by rewrite Heqe]].
    destruct Be as [Hbb Hgb Heqb _].
    destruct (Hpe b eq_refl) as [Hpb Hsc].
    destruct (node_scoped store type_bool Hbool globals Hco _ _ _ _ Hpb Hsc Hgb Hbb) as (_ & Hsb & _).
    split; [by apply block_later|]. rewrite (bs_count _ _ Hsb). by rewrite Heqb. }
  destruct Hlater3 as [L03 Hc3].
  assert (L2 : later c2 (set_flow f c3)) by (etrans; [exact Le|]; by etrans).
  assert (Hcf : count f = count (flow c)) by (by destruct Hm as (_ & ? & _)).
  assert (Hrf : reachable f = reachable (flow c2) || reachable (flow c3)) by apply Hm.
  split.
  - intros env' out Hrun. apply (outcome_flow T full K locals c2); [done | simpl; lia | |].
    + intros Hr2. simpl. split; [by rewrite Hrf, Hr2|]. rewrite Hct. by eapply merged_below_l.
    + eapply (sound_branch T full K locals c _ env (SBlock t) ct c2); try done;
        [by apply sound_SBlock | naive_solver | by constructor].
  - assert (Hb3 : reachable (flow c3) = true -> reachable f = true /\ below (count (flow c3)) (flow c3) f).
    { intros Hr3. split; [by rewrite Hrf, Hr3, orb_true_r|]. rewrite Hc3. by eapply merged_below_r. }
    destruct e as [b|].
    + intros env' out Hrun. apply (outcome_flow T full K locals c3); [done | simpl; lia | done |].
      eapply (sound_branch T full K locals c _ env b ce c3); try done; naive_solver.
    + destruct Be as [-> Heqe]. destruct Hb3 as [Hrf' Hb3]; [by rewrite Heqe|].
      split; [done|]. apply (tracks_flow T full K locals ce (set_flow f ce)); [simpl; lia | done |].
      apply (tracks_flow T full K locals c ce); [done | | exact (en_tracked Hen)].
      apply equiv_below. by symmetry.
Qed.

Lemma sound_SIf cond t e :
  forallb parsed t = true -> parsed_else e ->
  sound_block t -> (forall s, e = Some s -> sound_scoped s) -> sound_scoped (SIf cond t e).
Proof.
  intros Hpt Hpe Ht He T full K locals c c' env env' out Hen H Herr Hr Hfull Hrun.
  pose proof (en_good Hen) as Hg. cbn [check_node] in H. unfold check_if_statement in H.
  apply bind_inv in H as (r & c1 & Hv & H).
  destruct (value_spec_inv store type_bool Hbool globals _ _ _ _ _ Hg Hv) as (Hg1 & Hs1 & Hsome).
  apply bind_inv in H as ([] & c2 & Hcond & H). fold (check_branches store type_bool t e) in H.
  destruct (steps_inv _ _ _ _ _ (condition_error_spec store globals locals r _ c1 Hg1) Hcond) as [Hg2 Hs2].
  pose proof (branches_scoped store type_bool Hbool globals Hco _ _ _ _ _ Hpt Hpe Hg2 H) as (_ & Hs3 & _).
  pose proof (lt_errors _ _ (expression_later _ _ Hs1)) as E1.
  pose proof (lt_errors _ _ (expression_later _ _ Hs2)) as E2.
  pose proof (lt_errors _ _ (block_later _ _ Hs3)) as E3.
  apply condition_inv in Hcond; [|lia]. subst c2. destruct (Hsome ltac:(lia)) as [i ->].
  assert (L1 : later c1 c') by by apply block_later.
  assert (Hcond : forall r, eval globals env cond r -> exists env1 v, r = Some (env1, v)
            /\ entry store globals N T full K locals c1 c' env1).
  { intros r Hev. destruct (sound_condition _ _ _ _ _ _ _ _ _ _ r Hen Hv L1 Hr Hev) as (env1 & v & -> & Htr).
    exists env1, v. split; [done|]. by apply (entry_expression _ _ _ _ c _ env). }
  assert (Hr1 : reachable (flow c1) = true) by (by rewrite (es_reachable _ _ Hs1)).
  assert (Hbr : forall env1, entry store globals N T full K locals c1 c' env1 -> _) by
    (intros env1 Hen1; exact (sound_branches T full K locals c1 c' env1 t e Hpt Hpe Ht He Hen1 Hr1 H
       ltac:(lia) (fun Hf => plain_if cond t e (Hfull Hf)))).
  inversion Hrun as [| | | | |? ? ? ? Hev|? ? ? ? env1 ? ? Hev Hb|? ? ? ? env1 ? ? Hev Hb|? ? ? ? Hev
    | | | | | | | | | | | | |]; subst;
    destruct (Hcond _ Hev) as (? & ? & Heq & Hen1); try done; injection Heq as <- <-;
    destruct (Hbr _ Hen1) as [Hthen Helse]; eauto.
Qed.

(** A constant expression leaves the state as it is. *)
Lemma constant_tracks T full K locals n i v c c1 env :
  well locals c -> check_value_expression store type_bool n c = Returned (Some i, c1) ->
  const_value n = Some v -> tracks T full K c locals env -> tracks T full K c1 locals env.
Proof.
  intros Hg Hv%value_inv Hc Htr. destruct (accepts_good _ _ Hbool _ _ _ _ _ _ Hg Hv) as [_ Hs].
  apply (tracks_flow T full K locals c); [apply (es_count _ _ Hs) | | done].
  pose proof (constant_pure store globals n v Hc) as Hm.
  pose proof (accepts_pure store type_bool Hbool locals globals n c i c1 Hm Hg Hv) as Hsame.
  apply same_below. intros j. symmetry. apply Hsame.
Qed.

Lemma node_errors locals s c c' :
  parsed s = true -> self_contained s = true -> well locals c -> node s c = Returned (tt, c') ->
  (errors c <= errors c')%nat.
Proof.
  intros Hp Hs Hg H.
  destruct (node_scoped store type_bool Hbool globals Hco _ _ _ _ Hp Hs Hg H) as (_ & Hb & _).
  apply (lt_errors _ _ (block_later _ _ Hb)).
Qed.

Lemma sound_SCompileIf cond t e :
  forallb parsed t = true -> parsed_else e ->
  sound_block t -> (forall s, e = Some s -> sound_scoped s) -> sound_scoped (SCompileIf cond t e).
Proof.
  intros Hpt Hpe Ht He T full K locals c c' env env' out Hen H Herr Hr Hfull Hrun.
  pose proof (en_good Hen) as Hg. cbn [check_node] in H. unfold check_compile_if_statement in H.
  assert (full = true) as -> by (destruct full; [done | by specialize (Hfull eq_refl)]).
  apply bind_inv in H as (r & c1 & Hv & H).
  destruct (value_spec_inv store type_bool Hbool globals _ _ _ _ _ Hg Hv) as (Hg1 & Hs1 & Hsome).
  pose proof (lt_errors _ _ (expression_later _ _ Hs1)) as E1.
  assert (Hbad : forall msg, semantic_error msg c1 = Returned (tt, c') -> False).
  { intros msg Hmsg%error_inv. lia. }
  destruct r as [i|]; [|injection H as <-; by destruct (Hsome Herr)].
  destruct (negb _); [by destruct (Hbad _ H)|].
  destruct (const_value cond) as [v|] eqn:Hc; [|by destruct (Hbad _ H)].
  assert (Htr1 : tracks T true K c1 locals env) 
    by exact (constant_tracks T true K locals cond i v c c1 env Hg Hv Hc (en_tracked Hen)).
  assert (Hen1 : entry store globals N T true K locals c1 c' env)
    by by apply (entry_expression _ _ _ _ c _ env).
  assert (Hr1 : reachable (flow c1) = true) by (by rewrite (es_reachable _ _ Hs1)).
  assert (Hval : expression_compile_time_bool_value cond
            = match const_value_as v with CONST_VALUE_BOOL b => Some b | _ => None end)
    by (unfold expression_compile_time_bool_value; by rewrite Hc).
  destruct (const_value_as v) as [| |[]|]; try by destruct (Hbad _ H).
  - pose proof (node_errors _ (SBlock t) _ _ Hpt eq_refl Hg1 H). inversion Hrun; subst; try congruence.
    eapply (Ht T true K locals c1); try done. lia.
  - destruct e as [b|].
    + destruct (Hpe b eq_refl) as [Hpb Hsc]. pose proof (node_errors _ _ _ _ Hpb Hsc Hg1 H).
      inversion Hrun; subst; try congruence.
      eapply (He b eq_refl T true K locals c1); try done. lia.
    + injection H as <-. inversion Hrun; subst; try congruence. by split.
Qed.

(** ** Declarations *)

(** The new variable is live when it is initialised. *)
Lemma declare_tracks T full K locals c1 c' x t storage (initialized : bool) env :
  well locals c1 -> well (push_symbol (declared_symbol x t storage c1) locals) c' ->
  (forall s, K s -> (slot s < count (flow c1))%nat) ->
  (forall i, mask (flow c') i = if decide (i = next_variable_id c1)
     then (if initialized then FLOW_DEFINITELY_INITIALIZED else FLOW_DEFINITELY_UNINITIALIZED)
     else mask (flow c1) i) ->
  tracks T full K c1 locals env ->
  tracks T full K c' (push_symbol (declared_symbol x t storage c1) locals)
    (declare env x (mkCell t initialized)).
Proof.
  intros Hg Hg' HK Hm Htr. pose proof (g_next _ _ _ _ Hg) as Hnext.
  destruct (g_nonempty _ _ _ _ Hg) as [Hne _]. destruct locals as [|sc rest]; [done|].
  set (s := declared_symbol x t storage c1) in *.
  assert (Hold : tracked store T full K nothing (count (flow c')) (flow c') (sc :: rest) env).
  { eapply holds_mono; [| |exact Htr]; intros u Hu.
    all: pose proof (outer_slots store _ _ _ u (g_locals _ _ _ _ Hg) Hu) as Hslot.
    - intros [?|(Ht & _ & Hbit)]; [by left | right]. rewrite Hm, decide_False in Hbit by lia. done.
    - intros [[]|(Hf & _ & Hres & Hbit)]. rewrite Hm, decide_False in Hbit by lia. by right. }
  destruct env as [|f env]; [by inversion Htr|]. apply Forall2_cons in Hold as [Hf Hrest].
  constructor; [|exact Hrest]. constructor; [|exact Hf].
  assert (Hslot : slot s = next_variable_id c1) by done.
  split_and!; [done | done | |]; simpl.
  - intros [Hs|(_ & _ & Hbit)]; [specialize (HK s Hs); lia|].
    rewrite Hm, decide_True in Hbit by done. by destruct initialized.
  - intros [[]|(_ & _ & _ & Hbit)]. rewrite Hm, decide_True in Hbit by done. by destruct initialized.
Qed.

Lemma push_named locals x t storage c :
  implb (contains_resource_by_value store t) (N x) = true -> named store N locals ->
  named store N (push_symbol (declared_symbol x t storage c) locals).
Proof.
  intros Himp Hn. destruct locals as [|sc rest]; [done|]. intros s (u & Hu & Hs) Hres.
  apply elem_of_cons in Hu as [->|Hu]; [|apply Hn; [exists u; split; [by right | done] | done]].
  apply elem_of_cons in Hs as [->|Hs]; [|apply Hn; [exists sc; split; [by left | done] | done]].
  simpl in *. by rewrite Hres in Himp.
Qed.

Lemma sound_SVarDecl x d init inferred :
  admissible (SVarDecl x d init inferred) = true -> sound_statement (SVarDecl x d init inferred).
Proof.
  intros Hadm T full K locals c c' env env' out Hen H Herr Hr _ Hrun. pose proof (en_good Hen) as Hg.
  destruct (var_decl_inv store type_bool Hbool globals _ _ _ _ _ _ _ Hg H Herr)
    as (t & c1 & Hfrom & <- & Hg1 & Hs1 & Hg' & Hev & Hx & Hr' & Hm).
  eexists. split; [exact Hg'|]. split; [exact Hx|].
  split; [by apply push_named; [|exact (en_named Hen)]|].
  assert (HK : forall s, K s -> (slot s < count (flow c1))%nat).
  { intros s Hs. rewrite (es_count _ _ Hs1). by apply (en_guarded Hen s). }
  assert (Hr1 : reachable (flow c') = true) by (by rewrite Hr', (es_reachable _ _ Hs1)).
  destruct init as [i|].
  - destruct Hfrom as [info Hv].
    assert (Hval : forall r, eval globals env (init_node i) r -> exists env1 v, r = Some (env1, v)
              /\ tracks T full K c1 locals env1).
    { intros r Hev'. eapply sound_condition; try done. by apply evolves_later. }
    inversion Hrun as [| |? ? ? ? ? He|? ? ? ? ? env1 v He| | | | | | | | | | | | | | | | | |]; subst;
      destruct (Hval _ He) as (? & ? & Heq & Htr1); try done. injection Heq as <- <-.
    split; [done|]. by apply declare_tracks.
  - simpl in Hfrom. subst c1. inversion Hrun; subst. split; [done|].
    apply declare_tracks; try done. exact (en_tracked Hen).
Qed.

(** ** Jumps *)

Lemma sound_jump (recorded : LoopFlowContext -> option FlowState) T full K locals c c' env l ls l' a :
  entry store globals N T full K locals c c' env -> current_loop c = l :: ls ->
  current_loop c' = l' :: ls -> recorded l' = Some a ->
  active_variable_count l' = active_variable_count l -> below (active_variable_count l) (flow c) a ->
  leaves T full K recorded locals c' env.
Proof.
  intros Hen Hl Hl' Ha Hn Hb. exists l', ls, a. split_and!; [done | done |]. rewrite Hn.
  pose proof (g_loops _ _ _ _ (en_good Hen)) as Hloops. rewrite Hl in Hloops.
  apply Forall_cons in Hloops as [[Hle _] _].
  by apply (tracked_weaken store T full K nothing K nothing (count (flow c)) _ (flow c));
    [| | left | left | exact (en_tracked Hen)].
Qed.

Lemma sound_SBreak : sound_scoped SBreak.
Proof.
  intros T full K locals c c' env env' out Hen H Herr Hr _ Hrun. inversion Hrun; subst.
  pose proof (en_good Hen) as Hg.
  destruct (loop_exit_inv _ _ _ _ _ H Herr) as (l & ls & l' & f & Hl & Hrec & Hl' & _).
  pose proof (g_loops _ _ _ _ Hg) as Hloops. rewrite Hl in Hloops. apply Forall_cons in Hloops as [Hok _].
  destruct (recorded_break _ _ _ _ (g_flow _ _ _ _ Hg) Hok Hr Hrec) as (Hn & a & Ha & Hb).
  by apply (sound_jump break_flow T full K locals c c' env' l ls l' a).
Qed.

Lemma sound_SContinue : sound_scoped SContinue.
Proof.
  intros T full K locals c c' env env' out Hen H Herr Hr _ Hrun. inversion Hrun; subst.
  pose proof (en_good Hen) as Hg.
  destruct (loop_exit_inv _ _ _ _ _ H Herr) as (l & ls & l' & f & Hl & Hrec & Hl' & _).
  pose proof (g_loops _ _ _ _ Hg) as Hloops. rewrite Hl in Hloops. apply Forall_cons in Hloops as [Hok _].
  destruct (recorded_continue _ _ _ _ (g_flow _ _ _ _ Hg) Hok Hr Hrec) as (Hn & a & Ha & Hb).
  by apply (sound_jump continue_flow T full K locals c c' env' l ls l' a).
Qed.

(** The value of a [return] is checked in a state that counts as unreachable, where paths that
    meet are not merged: it must not move anything under a condition. *)
Lemma sound_SReturn v : admissible (SReturn v) = true -> sound_scoped (SReturn v).
Proof.
  intros Hadm T full K locals c c' env env' out Hen H Herr Hr _ Hrun. pose proof (en_good Hen) as Hg.
  pose proof (return_inv store type_bool Hbool globals _ _ _ _ Hg H Herr) as Hv.
  destruct v as [i|].
  - destruct Hv as [Hg1 (info & Hv%value_inv)]. set (c1 := set_flow _ c) in *.
    assert (Hval : forall r, eval globals env (init_node i) r -> exists env1 v, r = Some (env1, v)
              /\ tracks T full K c' locals env1).
    { intros r Hev. apply (sound_step store type_bool Hbool globals T full K locals c1 (init_node i) info c' env r);
        try done; [exact (en_uses Hen) | exact (en_guarded Hen) | by right | exact (en_tracked Hen)]. }
    inversion Hrun; subst; match goal with H : eval _ _ _ _ |- _ => destruct (Hval _ H) as (? & ? & Heq & Htr) end;
      [done|]. injection Heq as <- <-. by eapply tracked_holds.
  - inversion Hrun; subst. simpl. eapply tracked_holds. exact (en_tracked Hen).
Qed.

(** ** Loops *)

(** The rule of loops: [J] before the condition, [B] before the body, [E] where [continue] and the
    end of the body arrive, [X] behind the loop. *)
Lemma loop_rule (J B E X L : Environment -> Prop) cond p b :
  (forall env c, J env -> cond = Some c -> eval globals env c None -> False) ->
  (forall env env' c, J env -> cond = Some c ->
     eval globals env c (Some (env', VConst (CONST_VALUE_BOOL false))) -> X env') ->
  (forall env env', J env -> loop_condition store type_bool globals env cond env' -> B env') ->
  (forall env env' out, B env -> exec_scope store type_bool globals env b env' out ->
     match out with
     | Normal | Continued => E env'
     | Broken => X env'
     | Left_function => L env'
     | Faulted => False
     end) ->
  (forall env r, E env -> exec_post store type_bool globals env p r -> exists env', r = Some env' /\ J env') ->
  forall env env' out, J env -> exec_loop store type_bool globals env cond p b env' out ->
  out = Normal /\ X env' \/ out = Left_function /\ L env'.
Proof.
  intros Hfault Hexit Hcond Hbody Hpost env env' out HJ Hrun. revert HJ.
  induction Hrun as [env c p b He|env c p b env1 He|env c p b env1 env2 o env3 env4 o' Hc Hb Ho Hp _ IH
    |env c p b env1 env2 o Hc Hb Ho Hp|env c p b env1 env2 Hc Hb|env c p b env1 env2 o Hc Hb Ho]; intros HJ.
  - by destruct (Hfault _ _ HJ eq_refl He).
  - left. split; [done|]. by eapply Hexit.
  - pose proof (Hbody _ _ _ (Hcond _ _ HJ Hc) Hb) as HE.
    destruct (Hpost env2 (Some env3)) as (env5 & [= <-] & HJ3); [by destruct Ho as [-> | ->] | done |].
    by apply IH.
  - pose proof (Hbody _ _ _ (Hcond _ _ HJ Hc) Hb) as HE.
    destruct (Hpost env2 None) as (? & ? & _); [by destruct Ho as [-> | ->] | done | done].
  - left. split; [done|]. exact (Hbody _ _ _ (Hcond _ _ HJ Hc) Hb).
  - pose proof (Hbody _ _ _ (Hcond _ _ HJ Hc) Hb) as HE. destruct Ho as [-> | ->]; [by right | done].
Qed.

(** The symbols without a resource that [c] says are initialised: they stay live. *)
Definition settled T K (locals : list Scope) (c : SemanticContext) (s : Symbol) : Prop :=
  K s \/ in_scopes locals s /\ contains_resource_by_value store (sym_type s) = false
         /\ alive_by T (flow c) (count (flow c)) s.

Lemma entry_settled T full K locals c c' env :
  entry store globals N T full K locals c c' env ->
  entry store globals N T full (settled T K locals c) locals c c' env.
Proof.
  intros [Hg Hu HK Hn Htr]. split; try done.
  - intros s [Hs|(_ & Hres & (_ & Hlt & _))]; [by apply HK | by split; [|left]].
  - eapply tracked_weaken; [done | reflexivity | | by left | exact Htr].
    intros s [?|(_ & _ & ?)]; [by left | by right].
Qed.

Lemma tracked_settled T full K locals c n F env :
  tracked store T full (settled T K locals c) nothing n F locals env ->
  tracked store T full K nothing n F locals env.
Proof. apply tracked_weaken; [done | reflexivity | intros s Hs; left; by left | by left]. Qed.

(** The state at the end of an iteration describes the variables the way the state before the
    loop does: owners have not changed, and what else was initialised still is. *)
Lemma backedge_tracks T full K locals c F env :
  well locals c ->
  (forall i, (i < count (flow c))%nat -> owner (flow c) i = true -> mask (flow c) i = mask F i) ->
  tracked store T full (settled T K locals c) nothing (count (flow c)) F locals env ->
  tracks T full (settled T K locals c) c locals env.
Proof.
  intros Hg Hback Htr.
  assert (Hres : forall s, in_scopes locals s -> contains_resource_by_value store (sym_type s) = true ->
            mask (flow c) (slot s) = mask F (slot s)).
  { intros s (sc & Hsc & Hs) Hr.
    destruct (locals_slot_ok store _ _ _ sc s (g_locals _ _ _ _ Hg) Hsc Hs) as (_ & [_ ?] & _ & Ho).
    apply Hback; [done | congruence]. }
  eapply holds_mono; [| |exact Htr]; intros s Hin.
  - intros [Hs|(HT & Hlt & Hbit)]; [by left|].
    destruct (contains_resource_by_value store (sym_type s)) eqn:Hr.
    + right. split_and!; [done | done |]. by rewrite <- Hres.
    + left. right. by split_and!.
  - intros [[]|(Hf & Hlt & Hr & Hbit)]. right. split_and!; try done. by rewrite <- Hres.
Qed.

Lemma entry_keeps T full K locals c c' c'' env :
  keeps_uses c'' c' -> entry store globals N T full K locals c c' env ->
  entry store globals N T full K locals c c'' env.
Proof. intros Hk [Hg Hu HK Hn Htr]. split; try done. by eapply uses_ok_keeps. Qed.

(** One iteration: the condition, the body, and the post expression. *)
Section Iteration.
Context T K (locals : list Scope) (cond : option Node) (p : option StatementExpr)
  (always : bool) (c c1 c' : SemanticContext).
Hypothesis (Hg : well locals c) (Hg1 : well locals c1) (Hs1 : expression_step c c1).
Hypothesis (Hr : reachable (flow c) = true) (Hkeep : keeps_uses c1 c').
Hypothesis (Hcond : checked_condition store type_bool cond always c c1).

Let J (env : Environment) : Prop := entry store globals N T true (settled T K locals c) locals c c' env.
Let B (env : Environment) : Prop := entry store globals N T true (settled T K locals c) locals c1 c' env.

Lemma condition_sound env n r :
  J env -> cond = Some n -> eval globals env n r -> exists env1 v, r = Some (env1, v) /\ B env1.
Proof.
  intros HJ Hn Hev. pose proof Hcond as Hc. rewrite Hn in Hc. destruct Hc as [[i Hv] _].
  destruct (sound_condition T true _ locals c c1 env n i c1 r
    (entry_keeps _ _ _ _ _ _ _ _ Hkeep HJ) Hv (reflexivity _) Hr Hev) as (env1 & v & -> & Htr).
  exists env1, v. split; [done|]. by apply (entry_expression _ _ _ _ c _ env).
Qed.

Lemma body_entered env env1 : J env -> loop_condition store type_bool globals env cond env1 -> B env1.
Proof.
  intros HJ Hrun. inversion Hrun as [e He Hn Henv|e n e' Hev He Hn Henv].
  - pose proof Hcond as Hc. rewrite <- Hn in Hc. simpl in Hc. unfold B. rewrite Hc, <- Henv. exact HJ.
  - symmetry in Hn. destruct (condition_sound _ _ _ HJ Hn Hev) as (? & ? & [= <- <-] & HB). done.
Qed.

Lemma exit_possible env n env1 :
  J env -> cond = Some n -> eval globals env n (Some (env1, VConst (CONST_VALUE_BOOL false))) ->
  always = false /\ B env1.
Proof.
  intros HJ Hn Hev. split.
  - destruct always; [|done]. pose proof Hcond as Hc. rewrite Hn in Hc. destruct Hc as [_ Htrue].
    pose proof (constant_sound store globals n true _ _ _ (Htrue eq_refl) Hev) as [=].
  - destruct (condition_sound _ _ _ HJ Hn Hev) as (? & ? & [= <- <-] & HB). done.
Qed.
End Iteration.

Lemma entry_env T full K locals c c' env env' :
  entry store globals N T full K locals c c' env -> tracks T full K c locals env' ->
  entry store globals N T full K locals c c' env'.
Proof. by intros []. Qed.

(** The end of an iteration goes back to the state before the loop. *)
Lemma post_sound T K locals p c c1 c4 it c6 c' env0 env r :
  entry store globals N T true (settled T K locals c) locals c c' env0 -> expression_step c c1 ->
  well locals c4 -> count (flow c4) = count (flow c) -> fits c4 it -> reachable it = true ->
  match p with
  | None => flow c6 = it
  | Some e => check_statement_expression store type_bool e (set_flow it c4) = Returned (true, c6)
      /\ active_deferred_resources c4 = active_deferred_resources c1
  end ->
  keeps_uses c6 c' ->
  (reachable (flow c6) = true -> forall i, (i < count (flow c))%nat -> owner (flow c) i = true ->
     mask (flow c) i = mask (flow c6) i) ->
  tracked store T true (settled T K locals c) nothing (count (flow c)) it locals env ->
  exec_post store type_bool globals env p r ->
  exists env', r = Some env'
    /\ entry store globals N T true (settled T K locals c) locals c c' env'.
Proof.
  intros Hen Hs1 Hg4 Hc4 Hfit Hr Hpost K6 Hback Htr Hp.
  assert (Hend : forall env', reachable (flow c6) = true ->
    tracked store T true (settled T K locals c) nothing (count (flow c)) (flow c6) locals env' ->
    entry store globals N T true (settled T K locals c) locals c c' env').
  { intros env' Hr6 Htr6. apply (entry_env _ _ _ _ _ _ env0); [done|].
    apply (backedge_tracks T true K locals c (flow c6)); [exact (en_good Hen) | by apply Hback | done]. }
  inversion Hp as [? Henv Hnone|? e ? Hex Henv Hsome]; subst.
  - eexists. split; [done|]. rewrite <- Hpost in Hr, Htr. by apply Hend.
  - destruct Hpost as [Hcheck Hact].
    assert (Hg5 : well locals (set_flow it c4)) by by apply good_fits.
    assert (Hcount : count it = count (flow c)) by (rewrite <- Hc4; apply Hfit).
    destruct (steps_inv _ _ _ _ _ (check_statement_expression_spec _ _ Hbool _ _ e _ Hg5) Hcheck)
      as (Hg6 & Hs6 & _).
    destruct (sound_statement_expression store type_bool Hbool globals N T true (settled T K locals c)
      locals (set_flow it c4) c6 env e r) as (env' & -> & Htr'); try done.
    + split; try done.
      * eapply uses_ok_keeps; [exact K6 | exact (en_uses Hen)].
      * intros s Hs. simpl. rewrite Hcount, Hact, (es_active _ _ Hs1). by apply (en_guarded Hen).
      * exact (en_named Hen).
      * simpl. by rewrite Hcount.
    + exists env'. split; [done|]. apply Hend; [by rewrite (es_reachable _ _ Hs6)|].
      replace (count (flow c)) with (count (flow c6)) by (rewrite (es_count _ _ Hs6); done). done.
Qed.

Lemma sound_loop T K locals cond p b always c c1 c' env env' out :
  forallb parsed b = true -> sound_block b ->
  entry store globals N T true K locals c c' env -> reachable (flow c) = true ->
  well locals c1 -> expression_step c c1 ->
  checked_condition store type_bool cond always c c1 ->
  checked_loop store type_bool globals locals b p always c c1 c' ->
  exec_loop store type_bool globals env cond p b env' out ->
  outcome_ok T true K locals c' env' out.
Proof.
  intros Hp Hb Hen Hr Hg1 Hs1 Hcond
    (cb & c4 & l & ls & it & c6 & Hbranch & Hact & Hl & Hn & Hfit & Hc4 & Hitb & Hitc & Hpost & K14 & K46 & K6
      & Hc' & Hback & Hbr & Hex) Hrun.
  pose proof (en_good Hen) as Hg.
  destruct (block_inv store type_bool Hbool globals Hco _ _ _ _ Hp (br_good _ _ _ _ _ _ _ _ Hbranch)
    (br_node _ _ _ _ _ _ _ _ Hbranch)) as [(Hg4 & Hs4 & Ha4) _].
  assert (K4 : keeps_uses c4 c') by (by etrans).
  assert (K1 : keeps_uses c1 c') by (by etrans).
  assert (Hr1 : reachable (flow c1) = true) by (by rewrite (es_reachable _ _ Hs1)).
  set (J := fun env => entry store globals N T true (settled T K locals c) locals c c' env).
  set (B := fun env => entry store globals N T true (settled T K locals c) locals c1 c' env).
  set (E := fun env => reachable it = true
    /\ tracked store T true (settled T K locals c) nothing (count (flow c)) it locals env).
  assert (HE : forall env1 F, tracked store T true (settled T K locals c) nothing (count (flow c)) F locals env1 ->
    reachable it = true /\ below (count (flow c)) F it -> E env1).
  { intros env1 F Htr [? Hb']. split; [done|]. by eapply tracked_below. }
  set (X := fun env => reachable (flow c') = true
    /\ tracked store T true K nothing (count (flow c)) (flow c') locals env).
  assert (HX : forall env1 F, tracked store T true (settled T K locals c) nothing (count (flow c)) F locals env1 ->
    reachable (flow c') = true /\ below (count (flow c)) F (flow c') -> X env1).
  { intros env1 F Htr [? Hb']. split; [done|]. apply (tracked_settled T true K locals c).
    by eapply tracked_below. }
  assert (Hcount1 : count (flow c1) = count (flow c)) by apply (es_count _ _ Hs1).
  assert (Hout : (out = Normal /\ X env') \/ (out = Left_function /\ holds K nothing locals env')).
  2: { destruct Hout as [[-> [? ?]]|[-> ?]]; [split; [done | by rewrite Hc'] | done]. }
  apply (loop_rule J B E X (holds K nothing locals) cond p b) with (env := env); [| | | | | |done].
  - intros env1 n HJ Hn1 Hev.
    by destruct (condition_sound T K locals cond always c c1 c' Hg1 Hs1 Hr K1 Hcond env1 n None HJ Hn1 Hev)
      as (? & ? & ? & _).
  - intros env1 env2 n HJ Hn1 Hev.
    destruct (exit_possible T K locals cond always c c1 c' Hg1 Hs1 Hr K1 Hcond env1 n env2 HJ Hn1 Hev)
      as [Ha HB].
    apply (HX _ (flow c1)); [rewrite <- Hcount1; exact (en_tracked HB) | by apply Hex].
  - intros env1 env2 HJ Hc. exact (body_entered T K locals cond always c c1 c' Hg1 Hs1 Hr K1 Hcond _ _ HJ Hc).
  - intros env1 env2 o HB Hbody.
    assert (Hbo : outcome_ok T true (settled T K locals c) locals c4 env2 o).
    { apply (sound_branch T true _ locals c1 c4 env1 (SBlock b) cb c4); try done;
        [by apply sound_SBlock | | by constructor].
      by apply (entry_keeps _ _ _ _ _ c'). }
    destruct o; simpl in Hbo.
    + destruct Hbo as [Hr4 Htr4]. rewrite Hc4 in Htr4. by apply (HE _ (flow c4)); [|apply Hitb].
    + destruct Hbo as (l' & ls' & F & Hl' & HF & Htr). rewrite Hl in Hl'. injection Hl' as <- <-.
      rewrite Hn in Htr. apply (HX _ F); [done | by apply Hbr].
    + destruct Hbo as (l' & ls' & F & Hl' & HF & Htr). rewrite Hl in Hl'. injection Hl' as <- <-.
      rewrite Hn in Htr. apply (HE _ F); [done | by apply Hitc].
    + eapply holds_mono; [| |exact Hbo]; [intros s _ Hs; by left | done].
    + done.
  - intros env1 r [Hrit Htr] Hp1.
    by apply (post_sound T K locals p c c1 c4 it c6 c' env env1 r (entry_settled _ _ _ _ _ _ _ Hen)).
  - by apply entry_settled.
Qed.

Lemma sound_SWhile cond b : forallb parsed b = true -> sound_block b -> sound_scoped (SWhile cond b).
Proof.
  intros Hp Hb T full K locals c c' env env' out Hen H Herr Hr Hfull Hrun.
  assert (full = true) as -> by (destruct full; [done | by specialize (Hfull eq_refl)]).
  destruct (while_inv store type_bool Hbool globals Hco _ _ _ _ _ Hp (en_good Hen) H Herr)
    as (i & c1 & always & Hv & Hg1 & Hs1 & Ha & Hloop).
  inversion Hrun; subst. eapply (sound_loop T K locals (Some cond) None b always c c1); try done.
  split; [by exists i | done].
Qed.

Lemma sound_SFor cond p b : forallb parsed b = true -> sound_block b -> sound_scoped (SFor cond p b).
Proof.
  intros Hp Hb T full K locals c c' env env' out Hen H Herr Hr Hfull Hrun.
  assert (full = true) as -> by (destruct full; [done | by specialize (Hfull eq_refl)]).
  destruct (for_inv store type_bool Hbool globals Hco _ _ _ _ _ _ Hp (en_good Hen) H Herr)
    as (c1 & always & Hcond & Hg1 & Hs1 & Hloop & _).
  inversion Hrun; subst. by eapply (sound_loop T K locals cond p b always c c1).
Qed.

(** ** Switches *)

Lemma sound_SSwitch n concrete cases :
  forallb (fun p => self_contained (snd p) && parsed (snd p)) cases = true ->
  Forall (fun p => sound_scoped (snd p)) cases -> sound_scoped (SSwitch n concrete cases).
Proof.
  intros Hp Hcases T full K locals c c' env env' out Hen H Herr Hr Hfull Hrun.
  assert (full = true) as -> by (destruct full; [done | by specialize (Hfull eq_refl)]).
  pose proof (en_good Hen) as Hg.
  destruct (switch_inv store type_bool Hbool globals Hco _ _ _ _ _ _ Hp Hg H Herr)
    as (i & c1 & Hv & Hg1 & Hs1 & Hlater & Hc' & Hall & Haround).
  assert (Hr1 : reachable (flow c1) = true) by (by rewrite (es_reachable _ _ Hs1)).
  assert (K1 : keeps_uses c1 c') by by apply later_keeps.
  assert (Hval : forall r, eval globals env n r -> exists env1 v, r = Some (env1, v)
            /\ entry store globals N T true K locals c1 c' env1).
  { intros r Hev.
    destruct (sound_condition T true K locals c c1 env n i c1 r (entry_keeps _ _ _ _ _ _ _ _ K1 Hen) Hv
      (reflexivity _) Hr Hev) as (env1 & v & -> & Htr).
    exists env1, v. split; [done|]. by apply (entry_expression _ _ _ _ c _ env). }
  inversion Hrun as [| | | | | | | | | | | | | |? ? ? ? He|? ? ? ? env1 v label b ? ? He Hin Hb
    |? ? ? ? ? v He Hinh Hmiss| | | | |]; subst.
  - by destruct (Hval _ He) as (? & ? & ? & _).
  - destruct (Hval _ He) as (? & ? & [= <- <-] & Hen1).
    destruct (Hall _ _ Hin) as (cb & cb' & Hbr & Hlat & Hact & Hend).
    rewrite Forall_forall in Hcases. pose proof (Hcases _ Hin) as Hsound.
    pose proof Hp as Hp'. rewrite forallb_forall in Hp'.
    destruct (proj1 (andb_true_iff _ _) (Hp' (label, b) (proj1 (list_elem_of_In _ _) Hin))) as [Hsc Hpb].
    destruct (node_scoped store type_bool Hbool globals Hco locals b cb cb' Hpb Hsc) as (_ & Hsb & _);
      [apply Hbr | apply Hbr |].
    assert (Hcb : count (flow cb') = count (flow c1)).
    { rewrite (bs_count _ _ Hsb). destruct Hbr as [_ _ Heq _]. by rewrite Heq. }
    apply (outcome_flow T true K locals cb'); [done | congruence | by rewrite Hcb |].
    by apply (sound_branch T true K locals c1 c' env1 b cb cb').
  - destruct (Hval _ He) as (? & ? & [= <- <-] & Hen1).
    destruct (Haround Hr1) as [[Hr' Hb]|(ty & labels & Hty & Hcoll & Hcov)].
    + split; [done|]. apply (tracks_flow T true K locals c1); [done | done | exact (en_tracked Hen1)].
    + exfalso. pose proof (value_inv _ _ _ _ _ _ Hv) as Ha.
      pose proof (accepts_type store type_bool Hbool locals globals n c i c1 _ _ env Hg Ha (en_tracked Hen)) as Htype.
      unfold compared_type in Hinh. rewrite <- Htype in Hinh.
      by eapply (covered_hit store globals).
Qed.

(** ** Every statement *)

Lemma blocks_sound b :
  Forall (fun s => parsed s = true -> admissible s = true -> sound_both s) b ->
  forallb parsed b = true -> forallb admissible b = true -> sound_block b.
Proof.
  intros H Hp Ha. apply block_sound; [|done|done].
  rewrite forallb_forall in Hp, Ha. rewrite Forall_forall in H |- *.
  intros s Hs. apply H; [done | apply Hp | apply Ha]; by apply list_elem_of_In.
Qed.

Lemma branches_sound t e :
  Forall (fun s => parsed s = true -> admissible s = true -> sound_both s) t ->
  (forall s, e = Some s -> parsed s = true -> admissible s = true -> sound_both s) ->
  forallb parsed t && match e with Some s => self_contained s && parsed s | None => true end = true ->
  forallb admissible t && match e with Some s => admissible s | None => true end = true ->
  forallb parsed t = true /\ parsed_else e /\ sound_block t
  /\ (forall s, e = Some s -> sound_scoped s).
Proof.
  intros Ht He [Hpt Hpe]%andb_true_iff [Hat Hae]%andb_true_iff.
  assert (Hboth : forall s, e = Some s -> parsed s = true /\ self_contained s = true).
  { intros s ->. by apply andb_true_iff in Hpe as [? ?]. }
  split_and!; [done | done | by apply blocks_sound |].
  intros s ->. destruct (Hboth s eq_refl). by apply He.
Qed.

Lemma every_statement_sound s : parsed s = true -> admissible s = true -> sound_both s.
Proof.
  assert (Hone : forall s, parsed s = true ->
    self_contained s = true -> sound_scoped s -> sound_both s).
  { intros s' Hp Hs H. split_and!; [by apply scoped_sound | done | by destruct s']. }
  induction s as [b IH|x d i t|e|cond t e IHt IHe|cond t e IHt IHe|cond b IH|cond p b IH|n t cases IH
                 | | |v|d IH] using Statement_tree_ind; intros Hp Ha.
  - apply Hone; [done | done |]. by apply sound_SBlock, blocks_sound.
  - split; [by apply sound_SVarDecl | done].
  - apply Hone; [done | done | apply sound_SExpr].
  - apply Hone; [done | done |]. destruct (branches_sound t e IHt IHe Hp Ha) as (? & ? & ? & ?).
    by apply sound_SIf.
  - apply Hone; [done | done |]. destruct (branches_sound t e IHt IHe Hp Ha) as (? & ? & ? & ?).
    by apply sound_SCompileIf.
  - apply Hone; [done | done |]. apply sound_SWhile; [done | by apply blocks_sound].
  - apply Hone; [done | done |]. apply sound_SFor; [done | by apply blocks_sound].
  - apply Hone; [done | done |]. apply sound_SSwitch; [done|]. cbn [parsed admissible] in Hp, Ha.
    rewrite forallb_forall in Hp, Ha. rewrite Forall_forall in IH |- *. intros q Hq.
    pose proof (proj1 (list_elem_of_In _ _) Hq) as Hin.
    destruct (proj1 (andb_true_iff _ _) (Hp q Hin)). apply (IH q Hq); [done | by apply Ha | done].
  - apply Hone; [done | done | apply sound_SBreak].
  - apply Hone; [done | done | apply sound_SContinue].
  - apply Hone; [done | done | by apply sound_SReturn].
  - assert (Hd : sound_statement d).
    { cbn [admissible] in Ha. apply andb_true_iff in Ha as [_ Ha].
      apply IH; [by destruct d | done]. }
    split_and!; [|done|done]. intros T full K locals c c' env env' out _ _ _ _ _ Hrun. inversion Hrun.
Qed.

(** ** Functions *)

Definition everything (s : Symbol) : Prop := True.

Abbreviation check_params params := (each (fun p => check_param_decl store p.1 p.2) params).
Abbreviation cells params := (map (fun p : string * TypePtr => (p.1, mkCell p.2 true)) params).

Lemma param_decl_inv locals x t c c' :
  well locals c -> check_param_decl store x t c = Returned (tt, c') -> errors c' = errors c ->
  let s := declared_symbol x t VARIABLE_STORAGE_PARAMETER c in
  well (push_symbol s locals) c' /\ evolves c c' /\ reachable (flow c') = reachable (flow c)
  /\ forall i, mask (flow c') i = if decide (i = next_variable_id c)
                 then FLOW_DEFINITELY_INITIALIZED else mask (flow c) i.
Proof.
  intros Hg H He. unfold check_param_decl in H.
  apply bind_inv in H as (? & ? & [-> ->]%get_inv & H).
  destruct (scope_find_local _ _); [apply error_inv in H; lia|].
  destruct t as [t|]; [|apply error_inv in H; lia].
  destruct (invalid_value_type _ _); [apply error_inv in H; lia|].
  destruct (contains_incomplete_struct_by_value _ _); [apply error_inv in H; lia|].
  destruct (steps_inv _ _ _ _ _ (declare_spec store globals locals c x (Some t) VARIABLE_STORAGE_PARAMETER
              true Hg ltac:(eauto) ltac:(by right)) H) as (Hg' & Hev & _ & Hr & _ & Hm & _).
  by split_and!.
Qed.

(** The parameters are variables of the scope and the frame, the last one first. *)
Lemma params_tracked params sc c c' f :
  well [sc] c -> check_params params c = Returned (tt, c') -> errors c' = errors c ->
  reachable (flow c) = true -> named store N [sc] ->
  forallb (fun p => implb (contains_resource_by_value store p.2) (N p.1)) params = true ->
  tracks everything true nothing c [sc] [f] ->
  exists sc', well [sc'] c' /\ reachable (flow c') = true /\ named store N [sc'] /\ evolves c c'
    /\ tracks everything true nothing c' [sc'] [rev (cells params) ++ f].
Proof.
  revert sc c f. induction params as [|[x t] params IH]; intros sc c f Hg H He Hr Hn HN Htr.
  { injection H as <-. exists sc. by split_and!. }
  simpl in H, HN. apply andb_true_iff in HN as [HNx HN]. apply bind_inv in H as ([] & c1 & Hx & H).
  assert (Hg1 : exists sc1, well [sc1] c1).
  { destruct (steps_inv _ _ _ _ _ (check_param_decl_spec store globals [sc] x t c Hg) Hx)
      as ([|sc1 rest] & Hg1 & _ & Hx1); [done|]. destruct Hx1 as (-> & _). eauto. }
  destruct Hg1 as [sc1 Hg1].
  destruct (steps_inv _ _ _ _ _ (check_param_decl_spec store globals [sc] x t c Hg) Hx) as (_ & _ & He1 & _).
  destruct (steps_inv _ _ _ _ _ (params_spec store globals params [sc1] c1 Hg1) H) as (_ & _ & He2 & _).
  pose proof (ev_errors _ _ He1). pose proof (ev_errors _ _ He2).
  destruct (param_decl_inv _ _ _ _ _ Hg Hx ltac:(lia)) as (Hg1' & _ & Hr1 & Hm).
  set (s := declared_symbol x t VARIABLE_STORAGE_PARAMETER c) in *.
  destruct (IH (mkScope (s :: symbols sc) (flow_count_mark sc)) c1 ((x, mkCell t true) :: f))
    as (sc' & Hg' & Hr' & Hn' & He' & Htr'); try done; [lia | congruence | | |].
  - exact (push_named [sc] x t VARIABLE_STORAGE_PARAMETER c HNx Hn).
  - exact (declare_tracks everything true nothing [sc] c c1 x t VARIABLE_STORAGE_PARAMETER true [f]
      Hg Hg1' ltac:(done) Hm Htr).
  - exists sc'. split_and!; try done; [by etrans|].
    cbn [map rev]. by rewrite <- app_assoc.
Qed.

(** A function must return a value. *)
Definition returns_value (rt : TypePtr) : bool :=
  bool_decide (is_Some rt) && negb (has_kind store rt TYPE_VOID).

Lemma function_inv params rt body c c' :
  outside globals c -> forallb parsed body = true ->
  check_function_body store type_bool params rt body c = Returned (tt, c') -> errors c' = errors c ->
  exists sc c1 c3, check_params params (function_entry c) = Returned (tt, c1) /\ errors c1 = errors c
    /\ well [sc] (body_context rt c1)
    /\ node (SBlock body) (body_context rt c1) = Returned (tt, c3) /\ errors c3 = errors c
    /\ (reachable (flow c3) = true -> returns_value rt = false).
Proof.
  intros Hc Hp H He. unfold check_function_body in H.
  apply bind_inv in H as (? & ? & [-> ->]%get_inv & H).
  apply bind_inv in H as ([] & ? & ->%modify_inv & H). apply bind_inv in H as ([] & ? & ->%modify_inv & H).
  apply bind_inv in H as ([] & c1 & Hparams & H). change (check_params params (function_entry c) = Returned (tt, c1)) in Hparams.
  destruct (steps_inv _ _ _ _ _ (parameters_spec store globals params rt c Hc) Hparams) as (sc & Hg1 & Hmark & He1).
  apply bind_inv in H as ([] & ? & ->%modify_inv & H). fold (body_context rt c1) in H.
  apply bind_inv in H as ([] & c3 & Hbody & H).
  destruct (node_scoped store type_bool Hbool globals Hco _ (SBlock body) _ _ Hp eq_refl Hg1 Hbody) as (Hg3 & Hs3 & _).
  apply bind_inv in H as (live & ? & [-> ->]%get_inv & H). apply bind_inv in H as ([] & c4 & Hopt & H).
  destruct (steps_inv _ _ _ _ _ (optional_error_spec store globals [sc] _ _ c3 Hg3) Hopt) as (Hg4 & Hs4 & Hbad & _).
  apply bind_inv in H as ([] & ? & ->%modify_inv & H).
  apply bind_inv in H as ([] & c6 & Hpop & H). apply modify_inv in H as ->.
  match type of Hpop with _ ?c5 = _ =>
    destruct (steps_inv _ _ _ _ _ (pop_last_spec globals c5 sc (g_scopes _ _ _ _ Hg4) (o_nonempty _ _ Hc)
      (g_flow _ _ _ _ Hg4) (proj1 (g_locals _ _ _ _ Hg4))) Hpop) as (f & ->)
  end.
  pose proof (ev_errors _ _ He1) as E1. pose proof (lt_errors _ _ (block_later _ _ Hs3)) as E3.
  pose proof (lt_errors _ _ (expression_later _ _ Hs4)) as E4.
  change (errors c4 = errors c) in He. change (errors c <= errors c1)%nat in E1.
  change (errors c1 <= errors c3)%nat in E3.
  exists sc, c1, c3. split_and!; try done; [lia | lia |].
  intros Hr. rewrite Hr, andb_true_r in Hbad. apply not_true_is_false. intros Hv.
  specialize (Hbad Hv). lia.
Qed.

Lemma accepted_runs params rt body c c' out :
  outside globals c -> forallb parsed body = true -> forallb admissible body = true ->
  forallb (fun p => implb (contains_resource_by_value store p.2) (N p.1)) params = true ->
  check_function_body store type_bool params rt body c = Returned (tt, c') -> errors c' = errors c ->
  runs store type_bool globals params body out ->
  out = Left_function \/ out = Normal /\ returns_value rt = false.
Proof.
  intros Hc Hp Ha HN H He [env Hrun].
  destruct (function_inv _ _ _ _ _ Hc Hp H He) as (sc & c1 & c3 & Hparams & E1 & Hg1 & Hbody & E3 & Hret).
  pose proof (entry_good store globals c 1 Hc ltac:(lia)) as Hg0.
  destruct (params_spec store globals params _ _ Hg0) as ([] & c1d & Hrun1 & _).
  destruct (params_depth _ _ _ _ _ Hrun1) as (c2 & Hrun2 & ->).
  rewrite Hparams in Hrun2. injection Hrun2 as <-.
  destruct (params_tracked params (mkScope [] 0) _ _ [] Hg0 Hrun1) as (sc' & Hg' & Hr' & Hn' & _ & Htr'); try done.
  { intros s (u & Hu & Hs). apply list_elem_of_singleton in Hu as ->. by apply not_elem_of_nil in Hs. }
  { by repeat constructor. }
  pose proof (g_scopes _ _ _ _ Hg1) as Hsc1. pose proof (g_scopes _ _ _ _ Hg') as Hsc2.
  simpl in Hsc1, Hsc2. rewrite Hsc2 in Hsc1. injection Hsc1 as ->.
  assert (Hen : entry store globals N everything true nothing [sc] (body_context rt c1) c3 (enter_function params)).
  { split; [done | by left | by intros s [] | done |]. unfold enter_function. by rewrite app_nil_r in Htr'. }
  destruct (every_statement_sound (SBlock body) Hp Ha) as [Hsound _].
  destruct (Hsound everything true nothing [sc] (body_context rt c1) c3 (enter_function params) env out Hen Hbody)
    as (locals' & _ & _ & _ & Hout); [change (errors c3 = errors c1); lia | done | done | done |].
  destruct (node_scoped store type_bool Hbool globals Hco _ (SBlock body) _ _ Hp eq_refl Hg1 Hbody)
    as (_ & [[] _ _] & _). simpl in ev_loops. apply Forall2_nil_inv_l in ev_loops.
  destruct out; [right | | | by left | done].
  - split; [done|]. apply Hret, Hout.
  - destruct Hout as (l & ls & F & Hl & _). congruence.
  - destruct Hout as (l & ls & F & Hl & _). congruence.
Qed.

End Safety.

(** ** The claim *)


#[global] Instance literal_laws : EvaluatorLaws program_types [mkScope [] 0].
Proof.
  assert (Hconst : forall n c, const_value n = Some c -> exists r t b,
    n = NOperation r (Some (mkConstValue t (CONST_VALUE_BOOL b))) [] /\ c = mkConstValue t (CONST_VALUE_BOOL b)).
  { intros [| | | |r [[t [| |b|]]|] [|]] c [=]; subst. by exists r, t, b. }
  split.
  - intros n c H. destruct (Hconst n c H) as (r & t & b & -> & _). reflexivity.
  - intros n b env env' v Hb Hev. unfold expression_compile_time_bool_value in Hb.
    destruct (const_value n) as [c|] eqn:Hc; [|done].
    destruct (Hconst n c Hc) as (r & t & b' & -> & ->). simpl in Hb. injection Hb as ->.
    inversion Hev as [| | | | | | | | | | |? ? ? ? ? ? ? _ Hleaf]; subst. by apply Hleaf.
  - intros c t c' ty. apply sample_coercion.
  - intros [t0 v] t c' ty Hc Hty _. simpl in Hc. destruct v; try discriminate.
    case_bool_decide; [|discriminate]. by injection Hc as <-.
Qed.

(** The owner is moved on both ways of a condition, restored, and used by a deferred call. *)
Definition safe_body : list Statement :=
  [ SVarDecl "f" (Some a_resource) (Some make) None;
    SIf (NIdent "go") [perform (call 2 [NMove (NIdent "f")])]
      (Some (SBlock [perform (call 2 [NMove (NIdent "f")])]));
    SExpr (EAssign (NIdent "f") make true);
    SDefer (perform (call 2 [NIdent "f"]));
    SReturn (Some (mkInitializer (call 3 [NIdent "f"]) true)) ].

(** A call of a program that cannot fault. *)
Lemma eval_call globals env t ns env' :
  eval_all globals env ns (Some env') -> eval globals env (call t ns) (Some (env', VObject)).
Proof. intros H. by apply eval_operation. Qed.

Lemma eval_variable globals env x var :
  lookup_variable env x = Some var -> live var = true ->
  eval globals env (NIdent x) (Some (env, VObject)).
Proof. intros H1 H2. by eapply eval_local. Qed.

Section Samples.
Abbreviation sample_run := (exec program_types a_bool [mkScope [] 0]).
Abbreviation sample_eval := (eval [mkScope [] 0]).

Lemma perform_run env n r :
  sample_eval env n r -> sample_run env (perform n) (default env (fst <$> r))
    (if r then Normal else Faulted).
Proof.
  intros H. destruct r as [[env' v]|].
  - apply (exec_SExpr _ _ _ env _ (Some env')). by eapply exec_value.
  - apply (exec_SExpr _ _ _ env _ None). by apply exec_value_fault.
Qed.

Lemma eval_one env n env' v t :
  sample_eval env n (Some (env', v)) -> sample_eval env (call t [n]) (Some (env', VObject)).
Proof. intros H. apply eval_call. by eapply eval_next, eval_none. Qed.

Lemma eval_moved env x var :
  lookup_variable env x = Some var -> live var = true ->
  sample_eval env (NMove (NIdent x)) (Some (set_live env x false, VObject)).
Proof. intros H1 H2. by apply (eval_move _ env (NIdent x) env VObject), (eval_variable _ env x var). Qed.

Lemma perform_move env x var t env' :
  lookup_variable env x = Some var -> live var = true -> env' = set_live env x false ->
  sample_run env (perform (call t [NMove (NIdent x)])) env' Normal.
Proof.
  intros H1 H2 ->. apply (perform_run env _ (Some (_, VObject))).
  by eapply eval_one, eval_moved.
Qed.

Lemma eval_make env : sample_eval env (init_node make) (Some (env, VObject)).
Proof. apply eval_call, eval_none. Qed.

Lemma eval_used_dead env x var t :
  lookup_variable env x = Some var -> live var = false -> sample_eval env (call t [NIdent x]) None.
Proof. intros H1 H2. apply eval_operation_fault, eval_first_fault. by eapply eval_dead. Qed.

Lemma assign_make env x :
  overwrites_owner program_types env x = false ->
  sample_run env (SExpr (EAssign (NIdent x) make true)) (set_live env x true) Normal.
Proof.
  intros H. apply (exec_SExpr _ _ _ env _ (Some (set_live env x true))).
  by eapply exec_assign; [apply eval_make|].
Qed.

Lemma safe_body_runs :
  runs program_types a_bool [mkScope [] 0] [("go"%string, a_bool)] safe_body Left_function.
Proof.
  eexists. apply exec_SBlock, exec_enter with (f := [("f"%string, mkCell a_resource true)]).
  eapply exec_step; [by apply exec_SVarDecl with (v := VObject), eval_make|].
  eapply exec_step.
  { eapply exec_SIf_then; [by eapply eval_local|]. apply exec_enter with (f := []).
    eapply exec_step; [by eapply perform_move|]. apply exec_end, defers_done. }
  eapply exec_step.
  { by apply assign_make. }
  apply exec_register. eapply exec_stop.
  { eapply exec_SReturn, eval_one. by eapply eval_variable. }
  1-2: done.
  apply defers_next with (newer := []) (older := [("f"%string, mkCell a_resource true)])
    (older' := [("f"%string, mkCell a_resource true)]) (env' := [[("go"%string, mkCell a_bool true)]]);
    [done | | apply defers_done].
  by eapply (perform_run _ _ (Some (_, VObject))), eval_one, eval_variable.
Qed.
End Samples.


(** ** Accepted functions that fault *)

(** [defer] restores the flow state of its registration, and the end of the block forgets which
    resources its deferred statements use: a deferred move is not seen by what follows the
    block. *)
Definition deferred_move : list Statement :=
  [ SVarDecl "x" (Some a_resource) (Some make) None;
    SBlock [SDefer (perform (call 2 [NMove (NIdent "x")]))];
    perform (call 2 [NIdent "x"]) ].

(** The block moves [x] when it is left; the use behind it reads the variable all the same. *)
Theorem deferred_move_faults :
  sample_diagnostics [] a_void deferred_move = Some []
  /\ runs program_types a_bool [mkScope [] 0] [] deferred_move Faulted.
Proof.
  split; [vm_compute; reflexivity|].
  eexists. apply exec_SBlock, exec_enter with (f := [("x"%string, mkCell a_resource false)]).
  eapply exec_step; [by apply exec_SVarDecl with (v := VObject), eval_make|].
  eapply exec_step.
  { apply exec_SBlock, exec_enter with (f := []). apply exec_register, exec_end.
    apply defers_next with (newer := []) (older := []) (older' := [])
      (env' := [[("x"%string, mkCell a_resource false)]; []]); [done | | apply defers_done].
    by eapply perform_move. }
  apply exec_fault. by eapply (perform_run _ _ None), eval_used_dead.
Qed.

(** The value of a [return] is checked after the state was made unreachable; there the merge of
    the two ways of [&&] keeps the first only. *)
Definition conditional_return : list Statement :=
  [ SReturn (Some (mkInitializer
      (call 3 [NLogical TOK_AND_AND (NIdent "c") (call 0 [NMove (NIdent "x")]); call 3 [NIdent "x"]])
      true)) ].

Definition conditional_parameters : list (string * TypePtr) :=
  [("c"%string, a_bool); ("x"%string, a_resource)].

(** [return f(c && consume(move x), use(x));] is accepted and reads [x] after the move; as an
    expression statement the same call is rejected. *)
Theorem conditional_return_faults :
  sample_diagnostics conditional_parameters an_s32 conditional_return = Some []
  /\ runs program_types a_bool [mkScope [] 0] conditional_parameters conditional_return Faulted
  /\ (forall v u, conditional_return = [SReturn (Some v)] ->
        sample_diagnostics conditional_parameters a_void [SExpr (EValue (init_node v) u)]
        = Some ["resource '%.*s' may be uninitialized or moved"%string]).
Proof.
  split; [vm_compute; reflexivity|]. split.
  2: { intros v u [= <-]. destruct u; vm_compute; reflexivity. }
  eexists. eapply exec_SBlock, exec_enter, exec_fault, exec_SReturn_fault.
  apply eval_operation_fault. eapply eval_next.
  - eapply eval_logical; [by eapply eval_local | done |]. by eapply eval_one, eval_moved.
  - by eapply eval_first_fault, eval_used_dead.
Qed.

