(* ===== verification/RuntimeMemory.v ===== *)
(** Memory of the run-time library ([src/stdlib/runtime/coglet_runtime_mem.c]) and the contract
    of its allocators.

    The library gives compiled programs their storage: a heap over [malloc], a growable arena
    and a debugging allocator over any other allocator, and an arena in a buffer of the
    caller.  All of them have the interface [CogletRuntimeAllocator], three functions and a
    state; this file has the interface ([Allocator]) and what an allocator promises
    ([LawfulAllocator]).

    An address is an integer in [0, 2^64), [NULL] is 0, and sizes are [size_t] of 64 bits.
    [Bytes] is what the program stores; the library's own structures, which lie in storage it
    allocated, are records that carry their address.  A call ends with a value, or in
    [coglet_rt_mem_fail], which stops the process, or is undefined. *)
From S2P Require Import Prelude.

Inductive result (A : Type) : Type :=
| Done (a : A)
| OutOfMemory
| Undefined.
Arguments Done {A} a.
Arguments OutOfMemory {A}.
Arguments Undefined {A}.

Definition Bytes : Type := Z -> Z.
Notation Pointer := Z (only parsing).
Definition NULL : Pointer := 0.

(** A start and a size. *)
Notation Region := (Z * Z)%type (only parsing).

(** ** Computations on a state and the bytes *)

Definition R (St A : Type) : Type := St * Bytes -> result (A * (St * Bytes)).

#[global] Instance R_ret St : MRet (R St) := fun _ a w => Done (a, w).
#[global] Instance R_bind St : MBind (R St) := fun _ _ k m w =>
  match m w with
  | Done (a, w') => k a w'
  | OutOfMemory => OutOfMemory
  | Undefined => Undefined
  end.

Definition coglet_rt_mem_fail {St A} : R St A := fun _ => OutOfMemory.
Definition undefined {St A} : R St A := fun _ => Undefined.
Definition get_state {St} : R St St := fun w => Done (w.1, w).
Definition put_state {St} (s : St) : R St unit := fun w => Done (tt, (s, w.2)).
Definition on_bytes {St} (f : Bytes -> Bytes) : R St unit := fun w => Done (tt, (w.1, f w.2)).

(** A call of the allocator below. *)
Definition call_parent {St T A} (m : R St A) : R (T * St) A := fun w =>
  match m (w.1.2, w.2) with
  | Done (a, (s, b)) => Done (a, ((w.1.1, s), b))
  | OutOfMemory => OutOfMemory
  | Undefined => Undefined
  end.

(** ** Bytes *)

Definition within (p n a : Z) : bool := (p <=? a) && (a <? p + n).

Definition memset_bytes (p byte n : Z) (m : Bytes) : Bytes := fun a => if within p n a then byte else m a.

Definition memcpy_bytes (dst src n : Z) (m : Bytes) : Bytes :=
  fun a => if within dst n a then m (src + (a - dst)) else m a.

Definition disjoint_regions (a b : Region) : Prop := a.1 + a.2 <= b.1 \/ b.1 + b.2 <= a.1.

#[global] Instance disjoint_regions_dec a b : Decision (disjoint_regions a b).
Proof. unfold disjoint_regions. apply _. Defined.

Definition memset {St} (p byte n : Z) : R St unit := on_bytes (memset_bytes p byte n).

(** Copying between objects that overlap is undefined. *)
Definition memcpy {St} (dst src n : Z) : R St unit :=
  if decide (n = 0 \/ disjoint_regions (dst, n) (src, n)) then on_bytes (memcpy_bytes dst src n)
  else undefined.

(** ** Sizes and alignments *)

(** [sizeof(void * )] *)
Definition POINTER_SIZE : Z := 8.

(** The parameter is a [uint64_t] and [SIZE_MAX] is its maximum. *)
Definition coglet_rt_mem_checked_size {St} (value : Z) : R St Z :=
  if SIZE_MAX <? value then coglet_rt_mem_fail else mret value.

Definition coglet_rt_mem_checked_alignment {St} (value : Z) : R St Z :=
  if (value =? 0) || negb (Z.land value (u64 (value - 1)) =? 0) || (SIZE_MAX <? value)
  then coglet_rt_mem_fail
  else mret (if value <? POINTER_SIZE then POINTER_SIZE else value).

Definition coglet_rt_align_up_uintptr (value alignment : Z) : Z :=
  Z.land (u64 (value + u64 (alignment - 1))) (not64 (u64 (alignment - 1))).

(** ** The interface *)

(** [CogletRuntimeAllocator]; its functions are never null here. *)
Record Allocator (St : Type) : Type := mkAllocator {
  allocate : Z -> Z -> R St Pointer;                  (* size, alignment *)
  resize : Pointer -> Z -> Z -> Z -> R St Pointer;    (* pointer, old size, new size, alignment *)
  free : Pointer -> Z -> Z -> R St unit;              (* pointer, size, alignment *)
}.
Arguments mkAllocator {St}.
Arguments allocate {St}.
Arguments resize {St}.
Arguments free {St}.

(** ** What an allocator promises *)

Definition valid_alignment (a : Z) : Prop := exists k, 0 <= k < 64 /\ a = 2 ^ k.

Definition region_ok (r : Region) : Prop := 0 < r.1 /\ 0 < r.2 /\ r.1 + r.2 < 2 ^ 64.

Definition regions_ok (rs : list Region) : Prop :=
  Forall region_ok rs /\
  forall i j r r', rs !! i = Some r -> rs !! j = Some r' -> i <> j -> disjoint_regions r r'.

(** The bytes of the regions are the same. *)
Definition same_bytes (rs : list Region) (m m' : Bytes) : Prop :=
  forall r a, r ∈ rs -> within r.1 r.2 a = true -> m' a = m a.

(** [owns s mine others]: [mine] are regions the allocator has handed out and not taken back,
    [others] are regions in use elsewhere. Storage that is handed out is aligned, inside the
    address space and disjoint from everything in use, and no call disturbs the contents of a
    region in use; resizing keeps the contents. No call is undefined. *)
Class LawfulAllocator {St} (a : Allocator St) : Type := {
  owns : St -> list Region -> list Region -> Prop;
  owns_regions s mine others : owns s mine others -> regions_ok (mine ++ others);
  owns_perm s mine mine' others : mine ≡ₚ mine' -> owns s mine others -> owns s mine' others;
  allocate_ok s m mine others size alignment :
    owns s mine others -> 0 <= size < 2 ^ 64 -> valid_alignment alignment ->
    match allocate a size alignment (s, m) with
    | Done (p, (s', m')) =>
        same_bytes (mine ++ others) m m' /\
        if size =? 0 then p = NULL /\ owns s' mine others
        else (alignment | p) /\ owns s' ((p, size) :: mine) others
    | OutOfMemory => True
    | Undefined => False
    end;
  free_ok s m p size mine others alignment :
    owns s ((p, size) :: mine) others -> valid_alignment alignment ->
    exists s' m', free a p size alignment (s, m) = Done (tt, (s', m'))
      /\ same_bytes (mine ++ others) m m' /\ owns s' mine others;
  free_null size alignment w : free a NULL size alignment w = Done (tt, w);
  resize_ok s m p old_size mine others size alignment :
    owns s ((p, old_size) :: mine) others -> 0 <= size < 2 ^ 64 -> valid_alignment alignment ->
    match resize a p old_size size alignment (s, m) with
    | Done (q, (s', m')) =>
        same_bytes (mine ++ others) m m' /\
        if size =? 0 then q = NULL /\ owns s' mine others
        else (alignment | q) /\ owns s' ((q, size) :: mine) others
             /\ forall i, 0 <= i < Z.min old_size size -> m' (q + i) = m (p + i)
    | OutOfMemory => True
    | Undefined => False
    end;
  resize_null old_size size alignment :
    0 <= size < 2 ^ 64 -> valid_alignment alignment ->
    forall w, resize a NULL old_size size alignment w = allocate a size alignment w;
}.

(** ** Alignment *)

Lemma valid_alignment_bound a : valid_alignment a -> 0 < a < 2 ^ 64.
Proof.
  intros (k & Hk & ->). split; [apply pow2_pos; lia|]. apply Z.pow_lt_mono_r; lia.
Qed.

Lemma power_of_two_test x :
  0 < x -> Z.land x (x - 1) = 0 <-> x = 2 ^ Z.log2 x.
Proof.
  intros Hx. pose proof (Z.log2_spec x Hx) as [Hlo Hhi]. pose proof (Z.log2_nonneg x).
  split.
  - intros Hl. destruct (decide (x = 2 ^ Z.log2 x)) as [|Hne]; [done|exfalso].
    assert (Hb : Z.testbit (Z.land x (x - 1)) (Z.log2 x) = true).
    { assert (E : Z.log2 (x - 1) = Z.log2 x) by (apply Z.log2_unique; lia).
      pose proof (pow2_pos (Z.log2 x) ltac:(done)). rewrite Z.land_spec, Z.bit_log2 by lia.
      rewrite <- E, Z.bit_log2; [done|]. lia. }
    by rewrite Hl, Z.bits_0 in Hb.
  - intros E. rewrite E, land_ones_mod by lia. apply Z.mod_same. lia.
Qed.

Lemma checked_alignment_run {St} a (w : St * Bytes) :
  0 <= a < 2 ^ 64 ->
  (valid_alignment a -> coglet_rt_mem_checked_alignment a w = Done (Z.max a POINTER_SIZE, w))
  /\ (~ valid_alignment a -> coglet_rt_mem_checked_alignment a w = OutOfMemory).
Proof.
  intros Ha. unfold coglet_rt_mem_checked_alignment.
  destruct (SIZE_MAX <? a) eqn:Hm; [unfold SIZE_MAX, UINT64_MAX in Hm; to_props; lia|].
  rewrite orb_false_r. destruct (Z.eqb_spec a 0) as [->|Hz].
  { split; [|done]. intros Hv%valid_alignment_bound. lia. }
  rewrite u64_small by lia. cbn [orb].
  assert (Hiff : Z.land a (a - 1) = 0 <-> valid_alignment a).
  { rewrite power_of_two_test by lia. split.
    - intros E. exists (Z.log2 a). split; [|done]. split; [apply Z.log2_nonneg|].
      apply Z.log2_lt_pow2; lia.
    - intros (k & Hk & ->). by rewrite Z.log2_pow2 by lia. }
  split; intros Hv.
  - apply Hiff in Hv. rewrite Hv. cbn. f_equal. f_equal. unfold POINTER_SIZE.
    destruct (Z.ltb_spec a 8); [by rewrite Z.max_r by lia|by rewrite Z.max_l by lia].
  - destruct (Z.eqb_spec (Z.land a (a - 1)) 0) as [E|]; [by apply Hiff in E|done].
Qed.

Lemma max_alignment a : valid_alignment a -> valid_alignment (Z.max a POINTER_SIZE) /\ (a | Z.max a POINTER_SIZE).
Proof.
  intros (k & Hk & ->). unfold POINTER_SIZE. change 8 with (2 ^ 3).
  destruct (Z.le_gt_cases 3 k) as [Hle|Hlt].
  - rewrite Z.max_l by (apply Z.pow_le_mono_r; lia). split; [by exists k|]. exists 1. lia.
  - rewrite Z.max_r by (apply Z.pow_le_mono_r; lia). split; [by exists 3|].
    exists (2 ^ (3 - k)). rewrite <- Z.pow_add_r by lia. f_equal. lia.
Qed.

(** The round-up to a power of two, and what it is when the sum wraps. *)
Lemma align_up_round v a :
  valid_alignment a -> coglet_rt_align_up_uintptr v a = u64 (v + (a - 1)) / a * a.
Proof.
  intros Ha. pose proof (valid_alignment_bound a Ha). destruct Ha as (k & Hk & ->).
  unfold coglet_rt_align_up_uintptr. rewrite (u64_small (2 ^ k - 1)) by lia.
  set (x := u64 _). assert (Hx : 0 <= x < 2 ^ 64) by apply u64_range.
  unfold not64, u64. rewrite <- Z.shiftr_div_pow2, <- Z.shiftl_mul_pow2 by lia.
  apply Z.bits_inj'. intros i Hi. rewrite Z.land_spec, Z.shiftl_spec by lia.
  destruct (decide (i < k)) as [Hik|Hik].
  - rewrite (Z.testbit_neg_r _ (i - k)) by lia.
    rewrite Z.mod_pow2_bits_low, Z.lnot_spec by lia.
    replace (2 ^ k - 1) with (Z.ones k) by (rewrite Z.ones_equiv; lia).
    rewrite Z.ones_spec_low by lia. by rewrite andb_false_r.
  - rewrite Z.shiftr_spec by lia. replace (i - k + k) with i by lia.
    destruct (decide (i < 64)).
    + rewrite Z.mod_pow2_bits_low, Z.lnot_spec by lia.
      replace (2 ^ k - 1) with (Z.ones k) by (rewrite Z.ones_equiv; lia).
      rewrite Z.ones_spec_high by lia. by rewrite andb_true_r.
    + by rewrite (testbit_high_mod x 64) by lia.
Qed.

Lemma align_up_divides v a : valid_alignment a -> (a | coglet_rt_align_up_uintptr v a).
Proof. intros Ha. rewrite align_up_round by done. apply Z.divide_factor_r. Qed.

Lemma align_up_small v a :
  valid_alignment a -> 0 <= v -> v + (a - 1) < 2 ^ 64 -> v <= coglet_rt_align_up_uintptr v a < v + a.
Proof.
  intros Ha Hv Hs. pose proof (valid_alignment_bound a Ha).
  rewrite align_up_round, u64_small by (done || lia).
  pose proof (Z.div_mod (v + (a - 1)) a ltac:(lia)). pose proof (Z.mod_pos_bound (v + (a - 1)) a ltac:(lia)).
  lia.
Qed.

Lemma align_up_wraps v a :
  valid_alignment a -> 0 <= v < 2 ^ 64 -> 2 ^ 64 <= v + (a - 1) -> coglet_rt_align_up_uintptr v a = 0.
Proof.
  intros Ha Hv Hs. pose proof (valid_alignment_bound a Ha). rewrite align_up_round by done.
  assert (E : u64 (v + (a - 1)) = v + (a - 1) - 2 ^ 64).
  { unfold u64. symmetry. apply Z.mod_unique with 1; lia. }
  rewrite E, Z.div_small by lia. done.
Qed.

(** ** Regions *)

Lemma disjoint_regions_sym a b : disjoint_regions a b -> disjoint_regions b a.
Proof. unfold disjoint_regions. lia. Qed.

(** A region is disjoint from all those of a list. *)
Definition clear_of (r : Region) (rs : list Region) : Prop := Forall (disjoint_regions r) rs.

Lemma regions_ok_cons r rs : regions_ok (r :: rs) <-> region_ok r /\ clear_of r rs /\ regions_ok rs.
Proof.
  unfold regions_ok, clear_of. rewrite Forall_cons. split.
  - intros [[Hr Hrs] Hd]. split_and!; try done.
    + apply Forall_lookup. intros i r' Hi. by apply (Hd 0%nat (S i) r r').
    + intros i j x y Hi Hj Hne. apply (Hd (S i) (S j)); congruence || done.
  - intros (Hr & Hc & Hrs & Hd). split; [done|].
    intros [|i] [|j] x y Hx Hy Hne; cbn in *; simplify_eq.
    + by eapply (Forall_lookup_1 _ _ _ _ Hc).
    + apply disjoint_regions_sym. by eapply (Forall_lookup_1 _ _ _ _ Hc).
    + eapply Hd; [done..|congruence].
Qed.

Lemma regions_ok_nil : regions_ok [].
Proof. split; [constructor|]. intros i j r r' Hi. by rewrite lookup_nil in Hi. Qed.

#[global] Instance regions_ok_perm : Proper (Permutation ==> iff) regions_ok.
Proof.
  assert (H : forall l l', l ≡ₚ l' -> regions_ok l -> regions_ok l'); [|intros l l' E; split; by apply H].
  induction 1 as [|x l l' E IH|x y l|l1 l2 l3 E1 IH1 E2 IH2]; [done| | |by eauto].
  - rewrite !regions_ok_cons. intros (? & Hc & ?). split_and!; try done; [|by apply IH].
    unfold clear_of. by rewrite <- E.
  - rewrite !regions_ok_cons. unfold clear_of. rewrite !Forall_cons.
    intros (? & (? & ?) & ? & ? & ?). split_and!; auto using disjoint_regions_sym.
Qed.

Lemma regions_ok_app l1 l2 :
  regions_ok (l1 ++ l2) <-> regions_ok l1 /\ regions_ok l2 /\ Forall (fun r => clear_of r l2) l1.
Proof.
  induction l1 as [|r l1 IH]; cbn.
  - split; [|by intros (_ & ? & _)]. intros ?. split_and!; [apply regions_ok_nil|done|constructor].
  - rewrite !regions_ok_cons, IH, Forall_cons. unfold clear_of. rewrite Forall_app. naive_solver.
Qed.

Lemma same_bytes_refl rs m : same_bytes rs m m.
Proof. by intros r a. Qed.

Lemma same_bytes_trans rs m1 m2 m3 : same_bytes rs m1 m2 -> same_bytes rs m2 m3 -> same_bytes rs m1 m3.
Proof. intros H1 H2 r a Hr Ha. rewrite (H2 r a Hr Ha). by eapply H1. Qed.

Lemma same_bytes_incl rs rs' m m' : (forall r, r ∈ rs -> r ∈ rs') -> same_bytes rs' m m' -> same_bytes rs m m'.
Proof. intros Hin H r a Hr. apply H. by apply Hin. Qed.

Lemma within_true p n a : within p n a = true <-> p <= a < p + n.
Proof. unfold within. rewrite andb_true_iff, Z.leb_le, Z.ltb_lt. done. Qed.

(** Writing inside a region leaves those it is clear of alone. *)
Lemma same_bytes_write rs m (f : Bytes) p n :
  clear_of (p, n) rs ->
  same_bytes rs m (fun a => if within p n a then f a else m a).
Proof.
  unfold clear_of. rewrite Forall_forall. intros Hc r a Hr Ha. specialize (Hc r Hr).
  destruct (within p n a) eqn:Hw; [|done]. apply within_true in Hw, Ha.
  unfold disjoint_regions in Hc. cbn in Hc. lia.
Qed.

Lemma same_bytes_memset rs m p byte n : clear_of (p, n) rs -> same_bytes rs m (memset_bytes p byte n m).
Proof. intros Hc. apply (same_bytes_write rs m (fun _ => byte)), Hc. Qed.

Lemma same_bytes_memcpy rs m dst src n : clear_of (dst, n) rs -> same_bytes rs m (memcpy_bytes dst src n m).
Proof. intros Hc. apply (same_bytes_write rs m (fun a => m (src + (a - dst)))), Hc. Qed.

(** A part of a region is clear of what the region is clear of. *)
Definition inside (r r' : Region) : Prop := r'.1 <= r.1 /\ r.1 + r.2 <= r'.1 + r'.2.

Lemma disjoint_inside r r' q : inside r r' -> disjoint_regions r' q -> disjoint_regions r q.
Proof. unfold inside, disjoint_regions. lia. Qed.

Lemma clear_of_inside r r' rs : inside r r' -> clear_of r' rs -> clear_of r rs.
Proof. intros Hi Hc. eapply Forall_impl; [exact Hc|]. intros q. by apply disjoint_inside. Qed.

Lemma memcpy_run {St} dst src n (w : St * Bytes) :
  (n = 0 \/ disjoint_regions (dst, n) (src, n)) ->
  memcpy dst src n w = Done (tt, (w.1, memcpy_bytes dst src n w.2)).
Proof. intros H. unfold memcpy. by rewrite decide_True. Qed.

Lemma memcpy_copies dst src n m i : 0 <= i < n -> memcpy_bytes dst src n m (dst + i) = m (src + i).
Proof.
  intros Hi. unfold memcpy_bytes. rewrite (proj2 (within_true dst n (dst + i))) by lia. f_equal. lia.
Qed.

(** ** Runs *)

Lemma bind_done {St A B} (m : R St A) (k : A -> R St B) w a w' :
  m w = Done (a, w') -> (x ← m; k x) w = k a w'.
Proof. intros Hm. unfold mbind, R_bind. by rewrite Hm. Qed.

Lemma bind_fails {St A B} (m : R St A) (k : A -> R St B) w :
  m w = OutOfMemory -> (x ← m; k x) w = OutOfMemory.
Proof. intros Hm. unfold mbind, R_bind. by rewrite Hm. Qed.

Lemma checked_size_run {St} n (w : St * Bytes) :
  0 <= n < 2 ^ 64 -> coglet_rt_mem_checked_size n w = Done (n, w).
Proof.
  intros Hn. unfold coglet_rt_mem_checked_size.
  destruct (SIZE_MAX <? n) eqn:H; [unfold SIZE_MAX, UINT64_MAX in H; to_props; lia|done].
Qed.

(** Unfolds the steps of a computation that are pure or touch the state only. *)
Ltac run_steps :=
  unfold mbind, R_bind, get_state, put_state, on_bytes, call_parent, mret, R_ret; cbn [fst snd].

Lemma bind_checked_size {St A} (k : Z -> R St A) n w :
  0 <= n < 2 ^ 64 -> (n ← coglet_rt_mem_checked_size n; k n) w = k n w.
Proof. intros Hn. apply bind_done. by apply checked_size_run. Qed.

Lemma bind_checked_alignment {St A} (k : Z -> R St A) a w :
  valid_alignment a -> (a ← coglet_rt_mem_checked_alignment a; k a) w = k (Z.max a POINTER_SIZE) w.
Proof.
  intros Ha. apply bind_done. pose proof (valid_alignment_bound a Ha). by apply checked_alignment_run; [lia|].
Qed.

Lemma bind_call_parent {St T A B} (m : R St A) (k : A -> R (T * St) B) t s b :
  (x ← call_parent m; k x) ((t, s), b) =
  match m (s, b) with
  | Done (a, (s', b')) => k a ((t, s'), b')
  | OutOfMemory => OutOfMemory
  | Undefined => Undefined
  end.
Proof. unfold mbind, R_bind, call_parent. cbn. by destruct (m (s, b)) as [[a [s' b']]| |]. Qed.

(** ** The space regions take *)

Definition total_bytes_of (rs : list Region) : Z := foldr (fun r n => r.2 + n) 0 rs.

Definition bytes_of (rs : list Region) : list Z := rs ≫= fun r => seqZ r.1 r.2.

Lemma elem_of_bytes_of rs a : a ∈ bytes_of rs <-> exists r, r ∈ rs /\ r.1 <= a < r.1 + r.2.
Proof. unfold bytes_of. rewrite list_elem_of_bind. setoid_rewrite elem_of_seqZ. naive_solver. Qed.

Lemma bytes_of_nodup rs : regions_ok rs -> NoDup (bytes_of rs).
Proof.
  induction rs as [|r rs IH]; [constructor|]. intros (_ & Hc & Hrs)%regions_ok_cons.
  change (bytes_of (r :: rs)) with (seqZ r.1 r.2 ++ bytes_of rs). apply NoDup_app.
  split_and!; [apply NoDup_seqZ| |by apply IH]. intros a Ha%elem_of_seqZ (r' & Hin & Ha')%elem_of_bytes_of.
  eapply Forall_forall in Hc; [|exact Hin]. unfold disjoint_regions in Hc. lia.
Qed.

Lemma bytes_of_length rs : regions_ok rs -> Z.of_nat (length (bytes_of rs)) = total_bytes_of rs.
Proof.
  induction rs as [|r rs IH]; [done|]. intros ((_ & H & _) & _ & Hrs)%regions_ok_cons.
  change (bytes_of (r :: rs)) with (seqZ r.1 r.2 ++ bytes_of rs).
  rewrite length_app, length_seqZ, Nat2Z.inj_add, (IH Hrs), Z2Nat.id by lia. done.
Qed.

(** Disjoint regions are not more than the address space. *)
Lemma regions_total rs :
  regions_ok rs -> Z.of_nat (length rs) <= total_bytes_of rs < 2 ^ 64.
Proof.
  intros Hr. split.
  - destruct Hr as [Hall _]. induction Hall as [|r rs (_ & H & _) _ IH]; cbn [length total_bytes_of foldr]; [done|].
    unfold total_bytes_of in IH. lia.
  - rewrite <- bytes_of_length by done.
    assert (Hsub : bytes_of rs ⊆+ seqZ 1 (2 ^ 64 - 1)).
    { apply NoDup_submseteq; [by apply bytes_of_nodup|]. intros a (r & Hin & Ha)%elem_of_bytes_of.
      destruct Hr as [Hall _]. eapply Forall_forall in Hall as (H1 & H2 & H3); [|exact Hin].
      apply elem_of_seqZ. lia. }
    apply submseteq_length in Hsub. rewrite length_seqZ in Hsub. lia.
Qed.

(** ** Runs on concrete states *)

Definition finished {A} (x : result A) : bool := match x with Done _ => true | _ => false end.

Definition value {A} (x : result A) (default : A) : A := match x with Done a => a | _ => default end.

Lemma value_done {A} (x : result A) (default : A) : finished x = true -> x = Done (value x default).
Proof. by destruct x. Qed.

Definition zero_bytes : Bytes := fun _ => 0.
