(* ===== verification/RuntimeHeap.v ===== *)
(** The aligned heap of the run-time library ([src/stdlib/runtime/coglet_runtime_mem.c]).

    Every allocation is a block of [malloc]; the address the program gets is aligned inside it,
    and a header just before that address remembers the block and the size.  The C library's
    [malloc] and [free] are the state of the heap: the blocks that are live, and [Malloc], which
    chooses a block.  The headers are kept by their address.  Freeing what is not live is
    undefined. *)
From S2P Require Import Prelude RuntimeMemory.

(** [malloc(size)] where some blocks are live. *)
Class Malloc : Type := malloc : gmap Z Z -> Z -> Pointer.

(** A block is inside the address space and disjoint from those that are live. *)
Class MallocLaws `{Malloc} : Prop :=
  malloc_fresh blocks n : 0 < n -> malloc blocks n <> NULL ->
    region_ok (malloc blocks n, n)
    /\ forall q k, blocks !! q = Some k -> disjoint_regions (malloc blocks n, n) (q, k).

Record CogletRuntimeAllocationHeader : Set := mkHeader { header_base : Pointer; header_size : Z }.

Record Heap : Type := mkHeap {
  live_blocks : gmap Z Z;                              (* of [malloc]: start and size *)
  headers : gmap Z CogletRuntimeAllocationHeader;      (* by their address *)
}.

Definition empty_heap : Heap := mkHeap ∅ ∅.

(** [sizeof(CogletRuntimeAllocationHeader)] *)
Definition HEADER_SIZE : Z := 16.

Section Heap.
Context `{Malloc}.

Definition coglet_rt_mem_allocate_impl (size alignment : Z) : R Heap Pointer :=
  if size =? 0 then mret NULL
  else if (SIZE_MAX - HEADER_SIZE <? size) || (SIZE_MAX - (alignment - 1) <? size + HEADER_SIZE)
  then coglet_rt_mem_fail
  else
    let total := u64 (size + HEADER_SIZE + alignment - 1) in
    h ← get_state;
    let base := malloc (live_blocks h) total in
    if base =? NULL then coglet_rt_mem_fail
    else
      let first := u64 (base + HEADER_SIZE) in
      let aligned := coglet_rt_align_up_uintptr first alignment in
      put_state (mkHeap (<[base := total]> (live_blocks h))
                        (<[aligned - HEADER_SIZE := mkHeader base size]> (headers h))) ;;
      mret aligned.

Definition coglet_rt_mem_alloc (size alignment : Z) : R Heap Pointer :=
  size ← coglet_rt_mem_checked_size size;
  alignment ← coglet_rt_mem_checked_alignment alignment;
  coglet_rt_mem_allocate_impl size alignment.

Definition header_of (pointer : Pointer) : R Heap CogletRuntimeAllocationHeader :=
  h ← get_state;
  match headers h !! (pointer - HEADER_SIZE) with Some hd => mret hd | None => undefined end.

(** [free(base)]; the header at [header] was part of the block. *)
Definition libc_free (base header : Pointer) : R Heap unit :=
  h ← get_state;
  match live_blocks h !! base with
  | Some _ => put_state (mkHeap (delete base (live_blocks h)) (delete header (headers h)))
  | None => undefined
  end.

Definition coglet_rt_mem_free (pointer : Pointer) : R Heap unit :=
  if pointer =? NULL then mret tt
  else
    header ← header_of pointer;
    libc_free (header_base header) (pointer - HEADER_SIZE).

Definition coglet_rt_mem_resize (pointer : Pointer) (size alignment : Z) : R Heap Pointer :=
  new_size ← coglet_rt_mem_checked_size size;
  checked_alignment ← coglet_rt_mem_checked_alignment alignment;
  if pointer =? NULL then coglet_rt_mem_allocate_impl new_size checked_alignment
  else if new_size =? 0 then coglet_rt_mem_free pointer ;; mret NULL
  else
    old_header ← header_of pointer;
    let old_size := header_size old_header in
    resized ← coglet_rt_mem_allocate_impl new_size checked_alignment;
    memcpy resized pointer (if old_size <? new_size then old_size else new_size) ;;
    coglet_rt_mem_free pointer ;;
    mret resized.

Definition coglet_rt_mem_heap_alloc (size alignment : Z) : R Heap Pointer :=
  alignment ← coglet_rt_mem_checked_alignment alignment;
  coglet_rt_mem_allocate_impl size alignment.

Definition coglet_rt_mem_heap_resize (pointer : Pointer) (old_size new_size alignment : Z)
    : R Heap Pointer :=
  coglet_rt_mem_resize pointer new_size alignment.

Definition coglet_rt_mem_heap_free (pointer : Pointer) (size alignment : Z) : R Heap unit :=
  coglet_rt_mem_free pointer.

(** [std.heap.heap()] *)
Definition heap_allocator : Allocator Heap :=
  mkAllocator coglet_rt_mem_heap_alloc coglet_rt_mem_heap_resize coglet_rt_mem_heap_free.

(** ** The heap as an allocator *)

(** Every header lies with its allocation in a live block of its own. *)
Record heap_ok (h : Heap) : Prop := {
  heap_blocks : forall q k, live_blocks h !! q = Some k -> region_ok (q, k);
  heap_disjoint : forall q k q' k', live_blocks h !! q = Some k -> live_blocks h !! q' = Some k' ->
    q <> q' -> disjoint_regions (q, k) (q', k');
  heap_headers : forall a hd, headers h !! a = Some hd ->
    exists k, live_blocks h !! header_base hd = Some k /\ header_base hd <= a /\ 0 < header_size hd
              /\ a + HEADER_SIZE + header_size hd <= header_base hd + k;
  heap_one : forall a a' hd hd', headers h !! a = Some hd -> headers h !! a' = Some hd' ->
    header_base hd = header_base hd' -> a = a';
}.

Definition allocation (h : Heap) (r : Region) : Prop :=
  exists base, headers h !! (r.1 - HEADER_SIZE) = Some (mkHeader base r.2).

Definition heap_owns (h : Heap) (mine others : list Region) : Prop :=
  heap_ok h /\ NoDup (mine ++ others) /\ Forall (allocation h) (mine ++ others).

Lemma allocation_region h r : heap_ok h -> allocation h r -> region_ok r.
Proof.
  intros Hh [base Hb]. destruct (heap_headers h Hh _ _ Hb) as (k & Hk & H1 & H2 & H3).
  destruct (heap_blocks h Hh _ _ Hk) as (? & ? & ?). unfold region_ok, HEADER_SIZE in *. cbn in *. lia.
Qed.

Lemma allocations_disjoint h r r' :
  heap_ok h -> allocation h r -> allocation h r' -> r <> r' -> disjoint_regions r r'.
Proof.
  intros Hh [b Hb] [b' Hb'] Hne.
  destruct (heap_headers h Hh _ _ Hb) as (k & Hk & H1 & H2 & H3).
  destruct (heap_headers h Hh _ _ Hb') as (k' & Hk' & H1' & H2' & H3'). cbn in *.
  assert (b <> b') as Hbb.
  { intros ->. pose proof (heap_one h Hh _ _ _ _ Hb Hb' eq_refl) as E.
    assert (r.1 = r'.1) as E1 by lia. rewrite E1 in Hb. rewrite Hb in Hb'. simplify_eq.
    apply Hne. by destruct r, r'; cbn in *; subst. }
  pose proof (heap_disjoint h Hh _ _ _ _ Hk Hk' Hbb). unfold disjoint_regions, HEADER_SIZE in *. cbn in *. lia.
Qed.

Lemma heap_owns_regions h mine others : heap_owns h mine others -> regions_ok (mine ++ others).
Proof.
  intros (Hh & Hnd & Hall). split.
  - eapply Forall_impl; [exact Hall|]. intros r. by apply allocation_region.
  - intros i j r r' Hi Hj Hne. apply (allocations_disjoint h); [done| | |].
    + by eapply Forall_lookup_1.
    + by eapply Forall_lookup_1.
    + intros ->. apply Hne. by eapply NoDup_lookup.
Qed.

(** One allocation: the fields of the new block. *)
Lemma allocate_impl_run `{!MallocLaws} h m size alignment :
  heap_ok h -> 0 <= size < 2 ^ 64 -> valid_alignment alignment -> POINTER_SIZE <= alignment ->
  match coglet_rt_mem_allocate_impl size alignment (h, m) with
  | Done (p, (h', m')) =>
      m' = m /\
      if size =? 0 then p = NULL /\ h' = h
      else exists base total,
        total = size + HEADER_SIZE + alignment - 1 /\ (alignment | p)
        /\ live_blocks h !! base = None /\ region_ok (base, total)
        /\ (forall q k, live_blocks h !! q = Some k -> disjoint_regions (base, total) (q, k))
        /\ base <= p - HEADER_SIZE /\ p + size <= base + total
        /\ h' = mkHeap (<[base := total]> (live_blocks h))
                       (<[p - HEADER_SIZE := mkHeader base size]> (headers h))
  | OutOfMemory => 0 < size
  | Undefined => False
  end.
Proof.
  intros Hh Hs Ha Hmin. pose proof (valid_alignment_bound alignment Ha) as Hab.
  unfold coglet_rt_mem_allocate_impl. destruct (Z.eqb_spec size 0) as [->|Hz]; [done|].
  destruct (_ || _) eqn:Hg; [cbn; lia|]. apply orb_false_iff in Hg as [Hg1 Hg2].
  unfold SIZE_MAX, UINT64_MAX, HEADER_SIZE in *. to_props. rewrite (u64_small (size + 16 + alignment - 1)) by lia.
  run_steps.
  set (total := size + 16 + alignment - 1). assert (Ht : total = size + 16 + alignment - 1) by done.
  clearbody total. pose proof (malloc_fresh (live_blocks h) total ltac:(lia)) as Hmalloc.
  set (base := malloc (live_blocks h) total) in *. clearbody base.
  destruct (Z.eqb_spec base NULL) as [|Hb]; [cbn; lia|].
  destruct (Hmalloc Hb) as [Hok Hfresh].
  destruct Hok as (Hb1 & Hb2 & Hb3). cbn in *.
  rewrite (u64_small (base + 16)) by lia.
  destruct (align_up_small (base + 16) alignment Ha ltac:(lia) ltac:(lia)) as [Hal Hau].
  split; [done|]. exists base, total. split_and!; try done; try lia.
  - by apply align_up_divides.
  - destruct (live_blocks h !! base) as [k|] eqn:Hk; [|done]. specialize (Hfresh _ _ Hk).
    destruct (heap_blocks h Hh _ _ Hk) as (? & ? & ?). unfold disjoint_regions in Hfresh. cbn in *. lia.
Qed.

(** The new header is where no other header is. *)
Lemma header_is_new h base total a :
  heap_ok h -> region_ok (base, total) ->
  (forall q k, live_blocks h !! q = Some k -> disjoint_regions (base, total) (q, k)) ->
  base <= a -> a + HEADER_SIZE <= base + total -> headers h !! a = None.
Proof.
  intros Hh Hok Hfresh H1 H2. destruct (headers h !! a) as [hd|] eqn:Ha; [|done]. exfalso.
  destruct (heap_headers h Hh _ _ Ha) as (k & Hk & ? & ? & ?). specialize (Hfresh _ _ Hk).
  unfold disjoint_regions, HEADER_SIZE in *. cbn in *. lia.
Qed.

Lemma heap_ok_grow h base total p size :
  heap_ok h -> 0 < size -> region_ok (base, total) -> live_blocks h !! base = None ->
  (forall q k, live_blocks h !! q = Some k -> disjoint_regions (base, total) (q, k)) ->
  base <= p - HEADER_SIZE -> p + size <= base + total ->
  heap_ok (mkHeap (<[base := total]> (live_blocks h)) (<[p - HEADER_SIZE := mkHeader base size]> (headers h))).
Proof.
  intros Hh Hs Hok Hnew Hfresh H1 H2. constructor; cbn.
  - intros q k Hq. apply lookup_insert_Some in Hq as [[<- <-]|[_ Hq]]; [done|by eapply heap_blocks].
  - intros q k q' k' Hq Hq' Hne.
    apply lookup_insert_Some in Hq as [[<- <-]|[_ Hq]]; apply lookup_insert_Some in Hq' as [[<- <-]|[_ Hq']].
    + done.
    + by apply Hfresh.
    + by apply disjoint_regions_sym, Hfresh.
    + by eapply heap_disjoint.
  - intros a hd Ha. apply lookup_insert_Some in Ha as [[<- <-]|[_ Ha]]; cbn.
    + exists total. rewrite lookup_insert_eq. split_and!; [done|lia|done|unfold HEADER_SIZE in *; lia].
    + destruct (heap_headers h Hh _ _ Ha) as (k & Hk & Hrest). exists k. split; [|done].
      rewrite lookup_insert_ne; [done|]. intros E. rewrite <- E in Hk. congruence.
  - intros a a' hd hd' Ha Ha' E.
    apply lookup_insert_Some in Ha as [[<- <-]|[_ Ha]]; apply lookup_insert_Some in Ha' as [[<- <-]|[_ Ha']].
    + done.
    + destruct (heap_headers h Hh _ _ Ha') as (k & Hk & _). cbn in E. rewrite <- E in Hk. congruence.
    + destruct (heap_headers h Hh _ _ Ha) as (k & Hk & _). cbn in E. rewrite E in Hk. congruence.
    + by eapply heap_one.
Qed.

Lemma heap_owns_grow h mine others base total p size :
  heap_owns h mine others -> 0 < size -> region_ok (base, total) -> live_blocks h !! base = None ->
  (forall q k, live_blocks h !! q = Some k -> disjoint_regions (base, total) (q, k)) ->
  base <= p - HEADER_SIZE -> p + size <= base + total ->
  heap_owns (mkHeap (<[base := total]> (live_blocks h)) (<[p - HEADER_SIZE := mkHeader base size]> (headers h)))
    ((p, size) :: mine) others.
Proof.
  intros (Hh & Hnd & Hall) Hs Hok Hnew Hfresh H1 H2.
  assert (Hnone : headers h !! (p - HEADER_SIZE) = None).
  { eapply header_is_new; [done..|]. unfold HEADER_SIZE in *. lia. }
  assert (Hne : forall r, allocation h r -> r.1 - HEADER_SIZE <> p - HEADER_SIZE).
  { intros r [b Hb] E. rewrite E in Hb. congruence. }
  split; [by apply heap_ok_grow|]. cbn. split.
  - constructor; [|done]. intros Hin. eapply Forall_forall in Hall as Ha; [|exact Hin]. by apply Hne in Ha.
  - constructor; [exists base; cbn; by rewrite lookup_insert_eq|].
    eapply Forall_impl; [exact Hall|]. intros r Hr. pose proof (Hne r Hr) as Hr'. destruct Hr as [b Hb].
    exists b. cbn. by rewrite lookup_insert_ne.
Qed.

(** A region of the heap is given back. *)
Lemma heap_free_run h m p n mine others :
  heap_owns h ((p, n) :: mine) others ->
  exists h', coglet_rt_mem_free p (h, m) = Done (tt, (h', m)) /\ heap_owns h' mine others.
Proof.
  intros (Hh & Hnd & Hall). cbn in Hnd, Hall. apply NoDup_cons in Hnd as [Hnin Hnd].
  apply Forall_cons in Hall as [Hp Hall]. pose proof (allocation_region h _ Hh Hp) as (Hp0 & _ & _). cbn in Hp0.
  destruct Hp as [base Hb]. cbn in Hb. destruct (heap_headers h Hh _ _ Hb) as (k & Hk & _). cbn in Hk.
  unfold coglet_rt_mem_free, header_of, libc_free. destruct (Z.eqb_spec p NULL) as [E|_]; [unfold NULL in E; lia|].
  run_steps. rewrite Hb. cbn. rewrite Hk.
  eexists. split; [done|]. split.
  - constructor; cbn.
    + intros q k' [_ Hq]%lookup_delete_Some. by eapply heap_blocks.
    + intros q k1 q' k2 [_ Hq]%lookup_delete_Some [_ Hq']%lookup_delete_Some. by eapply heap_disjoint.
    + intros a hd [Hne Ha]%lookup_delete_Some. destruct (heap_headers h Hh _ _ Ha) as (k' & Hk' & Hrest).
      exists k'. split; [|done]. rewrite lookup_delete_ne; [done|]. intros E. apply Hne.
      by eapply (heap_one h Hh _ _ _ _ Hb Ha).
    + intros a a' hd hd' [_ Ha]%lookup_delete_Some [_ Ha']%lookup_delete_Some. by eapply heap_one.
  - split; [done|]. apply Forall_forall. intros r Hr. eapply Forall_forall in Hall as [b Hb']; [|exact Hr].
    exists b. cbn. rewrite lookup_delete_ne; [done|]. intros E. apply Hnin. rewrite <- E, Hb in Hb'.
    injection Hb' as -> ->. replace (p, r.2) with r; [done|]. rewrite (surjective_pairing r). cbn. f_equal. lia.
Qed.

Lemma heap_allocate_ok `{!MallocLaws} h m mine others size alignment :
  heap_owns h mine others -> 0 <= size < 2 ^ 64 -> valid_alignment alignment ->
  match coglet_rt_mem_allocate_impl size (Z.max alignment POINTER_SIZE) (h, m) with
  | Done (p, (h', m')) =>
      m' = m /\ if size =? 0 then p = NULL /\ heap_owns h' mine others
                else (alignment | p) /\ heap_owns h' ((p, size) :: mine) others
  | OutOfMemory => True
  | Undefined => False
  end.
Proof.
  intros Ho Hs Ha. destruct (max_alignment alignment Ha) as [Hm Hdiv].
  pose proof (allocate_impl_run h m size _ (proj1 Ho) Hs Hm ltac:(lia)) as Hrun.
  destruct (coglet_rt_mem_allocate_impl _ _ _) as [[p [h' m']]| |]; [|done|done].
  destruct Hrun as [-> Hrun]. split; [done|]. destruct (Z.eqb_spec size 0) as [->|Hz].
  - destruct Hrun as [-> ->]. done.
  - destruct Hrun as (base & total & -> & Hp & Hnew & Hok & Hfresh & H1 & H2 & ->).
    split; [by etrans|]. by apply heap_owns_grow; try lia.
Qed.

Lemma heap_owns_perm h mine mine' others : mine ≡ₚ mine' -> heap_owns h mine others -> heap_owns h mine' others.
Proof. intros E (Hh & Hnd & Hall). unfold heap_owns. by rewrite <- E. Qed.

(** What the contract says of [resize], for the heap. *)
Lemma heap_resize_ok `{!MallocLaws} h m p n mine others size alignment :
  heap_owns h ((p, n) :: mine) others -> 0 <= size < 2 ^ 64 -> valid_alignment alignment ->
  match coglet_rt_mem_resize p size alignment (h, m) with
  | Done (q, (h', m')) =>
      same_bytes (mine ++ others) m m' /\
      if size =? 0 then q = NULL /\ heap_owns h' mine others
      else (alignment | q) /\ heap_owns h' ((q, size) :: mine) others
           /\ forall i, 0 <= i < Z.min n size -> m' (q + i) = m (p + i)
  | OutOfMemory => True
  | Undefined => False
  end.
Proof.
  intros Ho Hs Ha. unfold coglet_rt_mem_resize.
  rewrite bind_checked_size, bind_checked_alignment by done.
  pose proof (heap_owns_regions _ _ _ Ho) as Hreg. cbn in Hreg. apply regions_ok_cons in Hreg as (Hp & Hcl & _).
  destruct Hp as (Hp0 & Hn & _). cbn in Hp0, Hn.
  destruct (Z.eqb_spec p NULL) as [E|_]; [unfold NULL in E; lia|].
  destruct (Z.eqb_spec size 0) as [->|Hz].
  { destruct (heap_free_run h m p n mine others Ho) as (h' & Hf & Ho'). erewrite bind_done by exact Hf.
    cbn. split; [apply same_bytes_refl|done]. }
  assert (Hhd : exists b, headers h !! (p - HEADER_SIZE) = Some (mkHeader b n)).
  { destruct Ho as (_ & _ & Hall). cbn in Hall. apply Forall_cons in Hall as [[b Hb] _]. by exists b. }
  destruct Hhd as [b Hb]. unfold header_of at 1. erewrite (bind_done _ _ _ (mkHeader b n) (h, m)).
  2:{ run_steps. by rewrite Hb. }
  cbn [header_size]. pose proof (heap_allocate_ok h m _ _ size alignment Ho Hs Ha) as Hrun.
  destruct (coglet_rt_mem_allocate_impl size _ (h, m)) as [[q [h1 m1]]| |] eqn:Hall;
    [|by rewrite (bind_fails _ _ _ Hall)|done].
  erewrite bind_done by exact Hall. destruct (Z.eqb_spec size 0) as [|_]; [done|].
  destruct Hrun as (-> & Hq & Ho1). pose proof (heap_owns_regions _ _ _ Ho1) as Hreg1.
  apply regions_ok_cons in Hreg1 as (_ & Hclq & _). apply Forall_cons in Hclq as [Hqp Hclq].
  set (k := if n <? size then n else size).
  assert (Hk : k = Z.min n size) by (unfold k; destruct (Z.ltb_spec n size); lia). clearbody k.
  erewrite bind_done.
  2:{ apply memcpy_run. right. unfold disjoint_regions in *. cbn in *. lia. }
  cbn [fst snd].
  destruct (heap_free_run h1 (memcpy_bytes q p k m) p n ((q, size) :: mine) others) as (h2 & Hf & Ho2).
  { eapply heap_owns_perm; [|exact Ho1]. apply perm_swap. }
  erewrite bind_done by exact Hf. cbn. split_and!; [|done|done|].
  - apply same_bytes_memcpy. eapply clear_of_inside; [|exact Hclq]. unfold inside. cbn. lia.
  - intros i Hi. apply memcpy_copies. lia.
Qed.

#[global] Instance heap_lawful `{!MallocLaws} : LawfulAllocator heap_allocator.
Proof.
  refine {| owns := heap_owns |}.
  - apply heap_owns_regions.
  - intros s mine mine' others. apply heap_owns_perm.
  - intros h m mine others size alignment Ho Hs Ha. cbn. unfold coglet_rt_mem_heap_alloc. rewrite bind_checked_alignment by done.
    pose proof (heap_allocate_ok h m mine others size alignment Ho Hs Ha) as Hrun.
    destruct (coglet_rt_mem_allocate_impl _ _ _) as [[p [h' m']]| |]; [|done|done].
    destruct Hrun as [-> Hrun]. split; [apply same_bytes_refl|done].
  - intros h m p size mine others alignment Ho _. cbn. unfold coglet_rt_mem_heap_free.
    destruct (heap_free_run h m p size mine others Ho) as (h' & Hf & Ho'). exists h', m. split_and!; try done.
  - done.
  - intros h m p old_size mine others size alignment Ho Hs Ha. cbn. unfold coglet_rt_mem_heap_resize.
    by apply heap_resize_ok.
  - intros old_size size alignment Hs Ha w. cbn.
    unfold coglet_rt_mem_heap_resize, coglet_rt_mem_resize, coglet_rt_mem_heap_alloc.
    by rewrite bind_checked_size, !bind_checked_alignment by done.
Defined.
End Heap.

(** A [malloc] that takes the space behind everything that is live. *)
Definition end_of_blocks (blocks : gmap Z Z) : Z := map_fold (fun q k n => Z.max (q + k) n) 16 blocks.

#[local] Instance bump_malloc : Malloc := fun blocks n =>
  if end_of_blocks blocks + n <? 2 ^ 64 then end_of_blocks blocks else NULL.

Lemma end_of_blocks_bound blocks :
  16 <= end_of_blocks blocks /\ forall q k, blocks !! q = Some k -> q + k <= end_of_blocks blocks.
Proof.
  unfold end_of_blocks. apply (map_fold_weak_ind (fun n (bs : gmap Z Z) => 16 <= n /\ forall q k, bs !! q = Some k -> q + k <= n)).
  - split; [done|]. intros q k Hq. by rewrite lookup_empty in Hq.
  - intros q k bs n Hq [H1 H2]. split; [lia|]. intros q' k' [[<- <-]|[_ Hq']]%lookup_insert_Some; [lia|].
    specialize (H2 _ _ Hq'). lia.
Qed.

#[local] Instance bump_malloc_laws : MallocLaws.
Proof.
  intros blocks n Hn Hne. unfold malloc, bump_malloc in *. destruct (end_of_blocks_bound blocks) as [H1 H2].
  destruct (Z.ltb_spec (end_of_blocks blocks + n) (2 ^ 64)); [|done].
  split; [unfold region_ok; cbn; lia|]. intros q k Hq. specialize (H2 q k Hq). unfold disjoint_regions. cbn. lia.
Qed.

Lemma empty_heap_owns : heap_owns empty_heap [] [].
Proof. split; [|by split; constructor]. constructor; cbn; intros *; rewrite lookup_empty; done. Qed.
