(* ===== verification/RuntimeArena.v ===== *)
(** The growable arena of the run-time library ([src/stdlib/runtime/coglet_runtime_mem.c]).

    An arena takes blocks from a parent allocator and hands out parts of them.  Single
    allocations are not freed; [reset] and [rewind] make the blocks usable again, [destroy]
    returns them.  The chain of blocks is a list, its head first; a block is identified by its
    address. *)
From S2P Require Import Prelude RuntimeMemory RuntimeHeap.

Record CogletRuntimeArenaBlock : Set := mkArenaBlock {
  block_address : Pointer;
  allocation_size : Z;
  block_capacity : Z;
  block_used : Z;
}.

Record CogletRuntimeArena : Set := mkRuntimeArena {
  arena_address : Pointer;
  arena_block_size : Z;
  chain : list CogletRuntimeArenaBlock;
  current_block : Pointer;
}.

(** [sizeof(CogletRuntimeArenaBlock)] and [sizeof(CogletRuntimeArena)] *)
Definition ARENA_BLOCK_SIZE : Z := 32.
Definition ARENA_SIZE : Z := 56.

Definition set_used (used : Z) (b : CogletRuntimeArenaBlock) : CogletRuntimeArenaBlock :=
  mkArenaBlock (block_address b) (allocation_size b) (block_capacity b) used.

Definition set_chain (bs : list CogletRuntimeArenaBlock) (current : Pointer) (ar : CogletRuntimeArena)
    : CogletRuntimeArena := mkRuntimeArena (arena_address ar) (arena_block_size ar) bs current.

(** [(uintptr_t)(block + 1)] *)
Definition payload (b : CogletRuntimeArenaBlock) : Pointer := u64 (block_address b + ARENA_BLOCK_SIZE).

(** The body of the loop over the blocks: the address in this block and the block afterwards. *)
Definition bump_block (size alignment : Z) (b : CogletRuntimeArenaBlock)
    : option (Pointer * CogletRuntimeArenaBlock) :=
  let base := payload b in
  let current := u64 (base + block_used b) in
  let aligned := coglet_rt_align_up_uintptr current alignment in
  if (base <=? aligned) && (size <=? block_capacity b)
     && (u64 (aligned - base) <=? block_capacity b - size)
  then Some (aligned, set_used (u64 (u64 (aligned - base) + size)) b)
  else None.

(** The first block with room; the third result is the chain afterwards. *)
Fixpoint bump_first (size alignment : Z) (bs : list CogletRuntimeArenaBlock)
    : option (Pointer * Pointer * list CogletRuntimeArenaBlock) :=
  match bs with
  | [] => None
  | b :: bs =>
      match bump_block size alignment b with
      | Some (p, b') => Some (p, block_address b, b' :: bs)
      | None =>
          match bump_first size alignment bs with
          | Some (p, current, bs') => Some (p, current, b :: bs')
          | None => None
          end
      end
  end.

(** The blocks before the current one, and those from it on; from the head if there is none. *)
Fixpoint split_at (current : Pointer) (bs : list CogletRuntimeArenaBlock)
    : list CogletRuntimeArenaBlock * list CogletRuntimeArenaBlock :=
  match bs with
  | [] => ([], [])
  | b :: bs => if block_address b =? current then ([], b :: bs)
               else let '(before, rest) := split_at current bs in (b :: before, rest)
  end.

Definition from_current (ar : CogletRuntimeArena)
    : list CogletRuntimeArenaBlock * list CogletRuntimeArenaBlock :=
  if current_block ar =? NULL then ([], chain ar) else split_at (current_block ar) (chain ar).

Section Arena.
Context {St : Type} (parent : Allocator St).

Definition get_arena : R (CogletRuntimeArena * St) CogletRuntimeArena := s ← get_state; mret s.1.
Definition put_arena (ar : CogletRuntimeArena) : R (CogletRuntimeArena * St) unit :=
  s ← get_state; put_state (ar, s.2).

Definition coglet_rt_mem_arena_new_block (minimum_payload requested_alignment : Z)
    : R (CogletRuntimeArena * St) CogletRuntimeArenaBlock :=
  ar ← get_arena;
  needed ← (if 1 <? requested_alignment then
              if SIZE_MAX - (requested_alignment - 1) <? minimum_payload then coglet_rt_mem_fail
              else mret (minimum_payload + (requested_alignment - 1))
            else mret minimum_payload);
  let capacity := if arena_block_size ar <? needed then needed else arena_block_size ar in
  if SIZE_MAX - ARENA_BLOCK_SIZE <? capacity then coglet_rt_mem_fail
  else
    let total := u64 (ARENA_BLOCK_SIZE + capacity) in
    block ← call_parent (allocate parent total POINTER_SIZE);
    if block =? NULL then coglet_rt_mem_fail
    else mret (mkArenaBlock block total capacity 0).

Definition coglet_rt_mem_arena_create (block_size : Z) : R St CogletRuntimeArena :=
  let block_size := if block_size =? 0 then 65536 else block_size in
  arena ← allocate parent ARENA_SIZE POINTER_SIZE;
  if arena =? NULL then coglet_rt_mem_fail
  else mret (mkRuntimeArena arena block_size [] NULL).

Definition coglet_rt_mem_arena_alloc (size alignment : Z) : R (CogletRuntimeArena * St) Pointer :=
  if size =? 0 then mret NULL
  else
    alignment ← coglet_rt_mem_checked_alignment alignment;
    ar ← get_arena;
    let '(before, rest) := from_current ar in
    match bump_first size alignment rest with
    | Some (p, current, rest') => put_arena (set_chain (before ++ rest') current ar) ;; mret p
    | None =>
        block ← coglet_rt_mem_arena_new_block size alignment;
        let base := payload block in
        let aligned := coglet_rt_align_up_uintptr base alignment in
        put_arena (set_chain (chain ar ++ [set_used (u64 (u64 (aligned - base) + size)) block])
                             (block_address block) ar) ;;
        mret aligned
    end.

Definition coglet_rt_mem_arena_resize (pointer : Pointer) (old_size new_size alignment : Z)
    : R (CogletRuntimeArena * St) Pointer :=
  if pointer =? NULL then coglet_rt_mem_arena_alloc new_size alignment
  else if new_size =? 0 then mret NULL
  else
    resized ← coglet_rt_mem_arena_alloc new_size alignment;
    memcpy resized pointer (if old_size <? new_size then old_size else new_size) ;;
    mret resized.

Definition coglet_rt_mem_arena_free (pointer : Pointer) (size alignment : Z)
    : R (CogletRuntimeArena * St) unit := mret tt.

Definition head_address (bs : list CogletRuntimeArenaBlock) : Pointer :=
  match bs with [] => NULL | b :: _ => block_address b end.

Definition coglet_rt_mem_arena_reset : R (CogletRuntimeArena * St) unit :=
  ar ← get_arena;
  put_arena (set_chain (map (set_used 0) (chain ar)) (head_address (chain ar)) ar).

Fixpoint free_blocks (bs : list CogletRuntimeArenaBlock) : R St unit :=
  match bs with
  | [] => mret tt
  | b :: bs => free parent (block_address b) (allocation_size b) POINTER_SIZE ;; free_blocks bs
  end.

Definition coglet_rt_mem_arena_destroy (ar : CogletRuntimeArena) : R St unit :=
  free_blocks (chain ar) ;;
  free parent (arena_address ar) ARENA_SIZE POINTER_SIZE.

(** [*out_block] and [*out_used] *)
Definition coglet_rt_mem_arena_mark : R (CogletRuntimeArena * St) (Pointer * Z) :=
  ar ← get_arena;
  mret match (from_current ar).2 with
       | [] => (NULL, 0)
       | b :: _ => (block_address b, block_used b)
       end.

Definition coglet_rt_mem_arena_rewind (mark_block : Pointer) (mark_used : Z)
    : R (CogletRuntimeArena * St) unit :=
  if mark_block =? NULL then coglet_rt_mem_arena_reset
  else
    ar ← get_arena;
    match split_at mark_block (chain ar) with
    | (before, block :: later) =>
        if block_capacity block <? mark_used then coglet_rt_mem_fail
        else put_arena (set_chain (before ++ set_used mark_used block :: map (set_used 0) later)
                                  mark_block ar)
    | (_, []) => coglet_rt_mem_fail
    end.

(** [std.heap.Arena.allocator] *)
Definition arena_allocator : Allocator (CogletRuntimeArena * St) :=
  mkAllocator coglet_rt_mem_arena_alloc coglet_rt_mem_arena_resize coglet_rt_mem_arena_free.

(** ** The arena as an allocator *)

Context `{!LawfulAllocator parent}.

Definition block_region (b : CogletRuntimeArenaBlock) : Region := (block_address b, allocation_size b).

(** What the arena has from its parent. *)
Definition internals (ar : CogletRuntimeArena) : list Region :=
  (arena_address ar, ARENA_SIZE) :: (block_region <$> chain ar).

Definition block_ok (b : CogletRuntimeArenaBlock) : Prop :=
  allocation_size b = ARENA_BLOCK_SIZE + block_capacity b
  /\ 0 <= block_used b <= block_capacity b /\ region_ok (block_region b).

(** The blocks after the current one are empty. *)
Record arena_ok (ar : CogletRuntimeArena) : Prop := {
  arena_blocks : Forall block_ok (chain ar);
  arena_size_ok : 0 <= arena_block_size ar < 2 ^ 64;
  arena_current : exists before rest, from_current ar = (before, rest) /\ chain ar = before ++ rest
    /\ match rest with [] => chain ar = [] | b :: _ => current_block ar = block_address b end
    /\ Forall (fun b => block_used b = 0) (tail rest);
}.

(** The region lies in the used part of a block's payload. *)
Definition held (bs : list CogletRuntimeArenaBlock) (r : Region) : Prop :=
  exists b, b ∈ bs /\ inside r (block_address b + ARENA_BLOCK_SIZE, block_used b).

Definition arena_owns (st : CogletRuntimeArena * St) (mine others : list Region) : Prop :=
  owns st.2 (internals st.1) others /\ arena_ok st.1 /\ regions_ok mine /\ Forall (held (chain st.1)) mine.

Lemma held_inside ar r : arena_ok ar -> held (chain ar) r -> exists r', r' ∈ internals ar /\ inside r r'.
Proof.
  intros Har (b & Hb & Hi). exists (block_region b). split.
  - right. by apply list_elem_of_fmap_2.
  - pose proof (arena_blocks ar Har) as Hall. rewrite Forall_forall in Hall.
    destruct (Hall b Hb) as (E & ? & _). unfold inside, block_region, ARENA_BLOCK_SIZE in *. cbn in *. lia.
Qed.

Lemma arena_owns_regions st mine others : arena_owns st mine others -> regions_ok (mine ++ others).
Proof.
  intros (Ho & Har & Hm & Hh). pose proof (owns_regions _ _ _ Ho) as Hr.
  apply regions_ok_app in Hr as (_ & Hoth & Hcl). apply regions_ok_app. split_and!; [done|done|].
  eapply Forall_impl; [exact Hh|]. intros r Hr. destruct (held_inside _ _ Har Hr) as (r' & Hin & Hi).
  rewrite Forall_forall in Hcl. eapply clear_of_inside; [exact Hi|by apply Hcl].
Qed.

(** The parent leaves the contents of the arena's allocations alone. *)
Lemma arena_same_bytes st mine others m m' :
  arena_owns st mine others -> same_bytes (internals st.1 ++ others) m m' -> same_bytes (mine ++ others) m m'.
Proof.
  intros (Ho & Har & Hm & Hh) Hs r a [Hr|Hr]%elem_of_app Ha.
  - rewrite Forall_forall in Hh. destruct (held_inside _ _ Har (Hh r Hr)) as (r' & Hin & Hi).
    apply (Hs r' a); [apply elem_of_app; by left|]. apply within_true in Ha. apply within_true.
    unfold inside in Hi. lia.
  - apply (Hs r a); [apply elem_of_app; by right|done].
Qed.

(** ** Blocks *)

Lemma payload_small b : block_ok b -> payload b = block_address b + ARENA_BLOCK_SIZE.
Proof.
  intros (E & ? & ? & ? & ?). apply u64_small. unfold block_region, ARENA_BLOCK_SIZE in *. cbn in *. lia.
Qed.

Lemma bump_block_spec size alignment b p b' :
  block_ok b -> 0 < size < 2 ^ 64 -> valid_alignment alignment ->
  bump_block size alignment b = Some (p, b') ->
  (alignment | p) /\ b' = set_used (p - (block_address b + ARENA_BLOCK_SIZE) + size) b
  /\ block_address b + ARENA_BLOCK_SIZE + block_used b <= p
  /\ p + size <= block_address b + ARENA_BLOCK_SIZE + block_capacity b.
Proof.
  intros Hb Hs Ha. pose proof (valid_alignment_bound alignment Ha). unfold bump_block. rewrite payload_small by done.
  destruct Hb as (E & Hu & Hr1 & Hr2 & Hr3). unfold block_region, ARENA_BLOCK_SIZE in *. cbn in Hr1, Hr2, Hr3.
  set (base := block_address b + 32). assert (Hbase : base = block_address b + 32) by done. clearbody base.
  rewrite (u64_small (base + block_used b)) by lia. pose proof (align_up_divides (base + block_used b) alignment Ha) as Hd.
  destruct (decide (base + block_used b + (alignment - 1) < 2 ^ 64)) as [Hw|Hw].
  - pose proof (align_up_small (base + block_used b) alignment Ha ltac:(lia) Hw).
    set (q := coglet_rt_align_up_uintptr _ _) in *. clearbody q.
    destruct (decide (q < 2 ^ 64)) as [Hq|Hq]; [|].
    + rewrite (u64_small (q - base)) by lia. destruct (_ && _) eqn:Ht; [|done]. to_props.
      rewrite u64_small by lia. intros [= <- <-]. split_and!; [done|done|lia|lia].
    + exfalso. apply Hq. destruct Ha as (k & Hk & ->). destruct Hd as [z ->]. nia.
  - rewrite align_up_wraps by (done || lia). destruct (Z.leb_spec base 0); [lia|done].
Qed.

Lemma bump_first_spec size alignment bs p current bs' :
  bump_first size alignment bs = Some (p, current, bs') ->
  exists pre b b' post, bs = pre ++ b :: post /\ bs' = pre ++ b' :: post
    /\ bump_block size alignment b = Some (p, b') /\ current = block_address b.
Proof.
  revert bs'. induction bs as [|b bs IH]; intros bs'; cbn; [done|].
  destruct (bump_block size alignment b) as [[q b']|] eqn:Hb.
  - intros [= <- <- <-]. by exists [], b, b', bs.
  - destruct (bump_first size alignment bs) as [[[q c] l]|]; [|done]. intros [= <- <- <-].
    destruct (IH l eq_refl) as (pre & b1 & b2 & post & -> & -> & Hb1 & ->). by exists (b :: pre), b1, b2, post.
Qed.

Lemma split_at_app current bs before rest :
  split_at current bs = (before, rest) ->
  bs = before ++ rest /\ Forall (fun b => block_address b <> current) before
  /\ match rest with [] => True | b :: _ => block_address b = current end.
Proof.
  revert before. induction bs as [|b bs IH]; intros before; cbn.
  - intros [= <- <-]. by split_and!.
  - destruct (Z.eqb_spec (block_address b) current) as [E|E].
    + intros [= <- <-]. by split_and!.
    + destruct (split_at current bs) as [l r]. intros [= <- <-].
      destruct (IH l eq_refl) as (-> & Hl & Hr). split_and!; [done|by constructor|done].
Qed.

Lemma split_at_middle l1 b l2 :
  Forall (fun b' => block_address b' <> block_address b) l1 ->
  split_at (block_address b) (l1 ++ b :: l2) = (l1, b :: l2).
Proof.
  induction 1 as [|x l1 Hx Hl IH]; cbn; [by rewrite Z.eqb_refl|].
  destruct (Z.eqb_spec (block_address x) (block_address b)); [done|]. by rewrite IH.
Qed.

Section Chain.
Context (s : St) (ar : CogletRuntimeArena) (others : list Region) (Ho : owns s (internals ar) others).

Lemma chain_regions : regions_ok (block_region <$> chain ar).
Proof using Ho.
  pose proof (owns_regions _ _ _ Ho) as Hr. cbn in Hr.
  apply regions_ok_cons in Hr as (_ & _ & Hr). by apply regions_ok_app in Hr as [Hr _].
Qed.

Lemma chain_clear l1 b l2 :
  chain ar = l1 ++ b :: l2 -> clear_of (block_region b) (block_region <$> l1 ++ l2) /\ region_ok (block_region b).
Proof using Ho.
  intros E. pose proof chain_regions as Hr. rewrite E, <- Permutation_middle in Hr. cbn in Hr.
  apply regions_ok_cons in Hr as (H1 & H2 & _). done.
Qed.

Lemma chain_addresses l1 b l2 x :
  chain ar = l1 ++ b :: l2 -> x ∈ l1 ++ l2 -> block_address x <> block_address b.
Proof using Ho.
  intros E Hx Heq. destruct (chain_clear l1 b l2 E) as [Hc (H1 & H2 & H3)].
  unfold clear_of in Hc. rewrite Forall_forall in Hc.
  specialize (Hc _ (list_elem_of_fmap_2 block_region _ _ Hx)).
  pose proof chain_regions as [Hall _]. rewrite Forall_forall in Hall.
  assert (Hxin : x ∈ chain ar).
  { rewrite E. apply elem_of_app in Hx as [Hx|Hx]; apply elem_of_app; [by left|right; by right]. }
  destruct (Hall _ (list_elem_of_fmap_2 block_region _ _ Hxin)) as (? & ? & ?).
  unfold disjoint_regions, block_region in *. cbn in *. lia.
Qed.

Lemma chain_before l1 b l2 :
  chain ar = l1 ++ b :: l2 -> Forall (fun b' => block_address b' <> block_address b) l1.
Proof using Ho.
  intros E. apply Forall_forall. intros x Hx. eapply chain_addresses; [exact E|]. apply elem_of_app. by left.
Qed.

(** A part of a block's free space is clear of what the arena holds. *)
Lemma free_space_clear l1 b l2 mine p size :
  chain ar = l1 ++ b :: l2 -> Forall block_ok (chain ar) -> Forall (held (chain ar)) mine -> 0 < size ->
  block_address b + ARENA_BLOCK_SIZE + block_used b <= p ->
  p + size <= block_address b + ARENA_BLOCK_SIZE + block_capacity b ->
  region_ok (p, size) /\ clear_of (p, size) mine.
Proof using Ho.
  intros E Hall Hheld Hs H1 H2. destruct (chain_clear l1 b l2 E) as [Hc (Ha1 & Ha2 & Ha3)].
  rewrite Forall_forall in Hall.
  destruct (Hall b) as (Eb & Hu & _); [rewrite E; apply elem_of_app; right; by left|].
  unfold block_region, ARENA_BLOCK_SIZE in *. cbn in Ha1, Ha2, Ha3.
  split; [unfold region_ok; cbn; lia|]. eapply Forall_impl; [exact Hheld|].
  intros r (x & Hx & Hi). unfold inside in Hi. cbn in Hi. rewrite E in Hx.
  assert (Hcase : x = b \/ x ∈ l1 ++ l2).
  { apply elem_of_app in Hx as [Hx|Hx]; [right; apply elem_of_app; by left|].
    apply elem_of_cons in Hx as [Hx|Hx]; [by left|right; apply elem_of_app; by right]. }
  destruct Hcase as [->|Hx']; [unfold disjoint_regions; cbn; unfold ARENA_BLOCK_SIZE in *; lia|].
  unfold clear_of in Hc. rewrite Forall_forall in Hc. specialize (Hc _ (list_elem_of_fmap_2 block_region _ _ Hx')).
  destruct (Hall x) as (Ex & Hux & _).
  { rewrite E. apply elem_of_app in Hx' as [?|?]; apply elem_of_app; [by left|right; by right]. }
  unfold disjoint_regions, block_region, ARENA_BLOCK_SIZE in *. cbn in *. lia.
Qed.
End Chain.

(** ** Allocation *)

Lemma held_grow l1 b l2 used r :
  held (l1 ++ b :: l2) r -> block_used b <= used -> held (l1 ++ set_used used b :: l2) r.
Proof.
  intros (x & Hx & Hi) Hu. apply elem_of_app in Hx as [Hx|[->|Hx]%elem_of_cons].
  - exists x. split; [apply elem_of_app; by left|done].
  - exists (set_used used b). split; [apply elem_of_app; right; by left|]. unfold inside in *. cbn in *. lia.
  - exists x. split; [apply elem_of_app; right; by right|done].
Qed.

Lemma current_at ar l1 b l2 :
  chain ar = l1 ++ b :: l2 -> current_block ar = block_address b -> block_address b <> NULL ->
  Forall (fun b' => block_address b' <> block_address b) l1 -> from_current ar = (l1, b :: l2).
Proof.
  intros E Hcur Hb Hl. unfold from_current. rewrite Hcur, E.
  destruct (Z.eqb_spec (block_address b) NULL); [done|]. by apply split_at_middle.
Qed.

(** A part of the free space of a block is handed out; the block becomes the current one. *)
Lemma arena_use s ar mine others l1 b l2 p size :
  arena_owns (ar, s) mine others -> chain ar = l1 ++ b :: l2 -> Forall (fun b => block_used b = 0) l2 ->
  0 < size -> block_address b + ARENA_BLOCK_SIZE + block_used b <= p ->
  p + size <= block_address b + ARENA_BLOCK_SIZE + block_capacity b ->
  arena_owns (set_chain (l1 ++ set_used (p - (block_address b + ARENA_BLOCK_SIZE) + size) b :: l2)
                        (block_address b) ar, s) ((p, size) :: mine) others.
Proof.
  intros (Ho & Har & Hm & Hh) E Hzero Hs H1 H2. cbn in Ho, Har, Hh.
  destruct (free_space_clear s ar others Ho l1 b l2 mine p size E (arena_blocks ar Har) Hh Hs H1 H2) as [Hreg Hclear].
  pose proof (arena_blocks ar Har) as Hall. rewrite E in Hall. apply Forall_app in Hall as [Hl1 Hl2].
  apply Forall_cons in Hl2 as [Hb Hl2]. pose proof Hb as (Ecap & Hu & Hbr).
  set (b' := set_used _ b). split_and!; cbn.
  - unfold internals. cbn. rewrite fmap_app. cbn. unfold internals in Ho. rewrite E, fmap_app in Ho. exact Ho.
  - constructor; cbn.
    + apply Forall_app. split; [done|]. constructor; [|done]. split_and!; [done|cbn; lia|cbn; lia|done].
    + apply Har.
    + exists l1, (b' :: l2). split_and!; [|done|done|done].
      apply (current_at (set_chain _ _ _) l1 b' l2);
        [done|done| |exact (chain_before s ar others Ho l1 b l2 E)].
      destruct Hbr as (Hpos & _). unfold block_region, NULL in *. cbn in *. lia.
  - by apply regions_ok_cons.
  - constructor.
    + exists b'. split; [apply elem_of_app; right; by left|]. unfold inside, b'. cbn. lia.
    + rewrite E in Hh. eapply Forall_impl; [exact Hh|]. intros r Hr. apply held_grow; [done|]. lia.
Qed.

Lemma arena_bump_ok s ar mine others size alignment before rest p current rest' :
  arena_owns (ar, s) mine others -> 0 < size < 2 ^ 64 -> valid_alignment alignment ->
  from_current ar = (before, rest) -> bump_first size alignment rest = Some (p, current, rest') ->
  (alignment | p) /\ arena_owns (set_chain (before ++ rest') current ar, s) ((p, size) :: mine) others.
Proof.
  intros Ho Hs Ha Hcur Hb. destruct (bump_first_spec _ _ _ _ _ _ Hb) as (pre & b & b' & post & -> & -> & Hb1 & ->).
  pose proof Ho as (_ & Har & _ & _). cbn in Har.
  destruct (arena_current ar Har) as (bf & rs & Hcur' & E & _ & Hzero). rewrite Hcur in Hcur'. simplify_eq.
  assert (Hblock : block_ok b).
  { pose proof (arena_blocks ar Har) as Hall. rewrite Forall_forall in Hall. apply Hall. rewrite E.
    apply elem_of_app. right. apply elem_of_app. right. by left. }
  destruct (bump_block_spec _ _ _ _ _ Hblock Hs Ha Hb1) as (Hd & -> & H1 & H2). split; [done|].
  rewrite app_assoc. rewrite app_assoc in E. apply arena_use with (1 := Ho); [done| |lia|lia|lia].
  destruct pre as [|x pre]; cbn in Hzero; [done|]. apply Forall_app in Hzero as [_ Hz]. by inversion Hz.
Qed.

(** A new, empty block at the end of the chain. *)
Lemma arena_new_block_owns s s' ar mine others a capacity :
  arena_owns (ar, s) mine others -> 0 <= capacity ->
  owns s' ((a, ARENA_BLOCK_SIZE + capacity) :: internals ar) others ->
  arena_owns (set_chain (chain ar ++ [mkArenaBlock a (ARENA_BLOCK_SIZE + capacity) capacity 0]) a ar, s') mine others.
Proof.
  intros (_ & Har & Hm & Hh) Hcap Ho. set (nb := mkArenaBlock _ _ _ _).
  set (ar' := set_chain _ _ _). cbn in Har, Hh.
  assert (Ho' : owns s' (internals ar') others).
  { eapply owns_perm; [|exact Ho]. unfold internals. cbn. rewrite fmap_app. cbn.
    change (a, ARENA_BLOCK_SIZE + capacity) with (block_region nb). rewrite <- Permutation_cons_append. apply perm_swap. }
  destruct (chain_clear s' ar' others Ho' (chain ar) nb [] eq_refl) as [_ Hreg].
  split_and!; cbn; [exact Ho'| |done|].
  - constructor; cbn.
    + apply Forall_app. split; [apply Har|]. constructor; [|constructor]. split_and!; [done|cbn; lia|cbn; lia|done].
    + apply Har.
    + exists (chain ar), [nb]. split_and!; [|done|done|by constructor].
      apply (current_at ar' (chain ar) nb []); 
        [done|done| |exact (chain_before s' ar' others Ho' (chain ar) nb [] eq_refl)].
      destruct Hreg as (Hpos & _). unfold block_region, NULL in *. cbn in *. lia.
  - eapply Forall_impl; [exact Hh|]. intros r (x & Hx & Hi). exists x. split; [apply elem_of_app; by left|done].
Qed.

(** ** What allocations leave alone *)

Definition empty_blocks (bs : list CogletRuntimeArenaBlock) : list CogletRuntimeArenaBlock := map (set_used 0) bs.

(** [ar] is [ar0] after allocations: the blocks before the current one of [ar0] are as they were,
    the others still follow, and the current one is among them. *)
Definition since (ar0 ar : CogletRuntimeArena) : Prop :=
  arena_address ar = arena_address ar0 /\ arena_block_size ar = arena_block_size ar0 /\
  match from_current ar0 with
  | (_, []) => True
  | (before, rest) => exists tail, chain ar = before ++ tail
      /\ empty_blocks rest `prefix_of` empty_blocks tail
      /\ current_block ar <> NULL
      /\ Forall (fun b => block_address b <> current_block ar) before
  end.

Lemma block_address_pos b : block_ok b -> block_address b <> NULL.
Proof. intros (_ & _ & Hp & _). unfold block_region, NULL in *. cbn in *. lia. Qed.

Lemma since_refl s ar mine others : arena_owns (ar, s) mine others -> since ar ar.
Proof.
  intros (Ho & Har & _). cbn in *. split_and!; [done|done|].
  destruct (arena_current ar Har) as (before & rest & Hcur & E & Hhead & _). rewrite Hcur.
  destruct rest as [|b rest]; [done|]. exists (b :: rest). rewrite Hhead.
  split_and!; [done|done| |exact (chain_before s ar others Ho before b rest E)].
  apply block_address_pos. pose proof (arena_blocks ar Har) as Hall. rewrite E in Hall.
  apply Forall_app in Hall as [_ Hall]. by inversion Hall.
Qed.

(** The blocks from the current one on lie behind those that are kept. *)
Lemma since_current before tail current :
  Forall (fun b => block_address b <> current) before ->
  split_at current (before ++ tail) = (before ++ (split_at current tail).1, (split_at current tail).2).
Proof.
  induction 1 as [|b before Hb Hall IH]; cbn; [by destruct (split_at current tail)|].
  destruct (Z.eqb_spec (block_address b) current); [done|]. rewrite IH. by destruct (split_at current tail).
Qed.

Lemma empty_blocks_app l1 l2 : empty_blocks (l1 ++ l2) = empty_blocks l1 ++ empty_blocks l2.
Proof. apply map_app. Qed.

(** An allocation keeps it so: in a block from the current one on, or in a new one. *)
Lemma since_bump s ar0 ar mine others size alignment l1 l2 p current l2' :
  arena_owns (ar, s) mine others -> since ar0 ar -> from_current ar = (l1, l2) ->
  bump_first size alignment l2 = Some (p, current, l2') -> since ar0 (set_chain (l1 ++ l2') current ar).
Proof.
  intros (Ho & Har & _) (Ha & Hsz & Hs) Hcur Hb. cbn in Ho, Har. split_and!; [done|done|].
  destruct (bump_first_spec _ _ _ _ _ _ Hb) as (pre & b & b' & post & -> & -> & Hb1 & ->).
  destruct (from_current ar0) as [before [|b0 rest0]]; [done|]. destruct Hs as (tail & E & Hpre & Hnull & Hbefore).
  destruct (arena_current ar Har) as (x & y & Hcur' & Echain & _). rewrite Hcur in Hcur'. simplify_eq.
  unfold from_current in Hcur. destruct (Z.eqb_spec (current_block ar) NULL); [done|].
  rewrite E, since_current in Hcur by done.
  destruct (split_at (current_block ar) tail) as [t1 t2] eqn:Ht. cbn in Hcur. injection Hcur as <- ->.
  apply split_at_app in Ht as (-> & _ & _). exists (t1 ++ pre ++ b' :: post). cbn.
  assert (Hadd : block_address b' = block_address b /\ set_used 0 b' = set_used 0 b).
  { unfold bump_block in Hb1. destruct (_ && _); [|done]. by injection Hb1 as _ <-. }
  split_and!.
  - by rewrite <- app_assoc.
  - rewrite !empty_blocks_app in *. cbn [empty_blocks map] in *. by rewrite (proj2 Hadd).
  - apply block_address_pos. pose proof (arena_blocks ar Har) as Hall. rewrite Echain in Hall.
    apply Forall_app in Hall as [_ Hall]. apply Forall_app in Hall as [_ Hall]. by inversion Hall.
  - rewrite app_assoc in Echain. pose proof (chain_before s ar others Ho _ _ _ Echain) as Hc.
    rewrite <- app_assoc in Hc. by apply Forall_app in Hc as [Hc _].
Qed.

Lemma since_push s ar0 ar b mine others :
  arena_owns (set_chain (chain ar ++ [b]) (block_address b) ar, s) mine others -> since ar0 ar ->
  since ar0 (set_chain (chain ar ++ [b]) (block_address b) ar).
Proof.
  intros (Ho & Har & _) (Ha & Hsz & Hs). split_and!; [done|done|].
  destruct (from_current ar0) as [before [|b0 rest0]]; [done|]. destruct Hs as (tail & E & Hpre & _ & _).
  cbn in *. set (ar1 := set_chain _ _ _) in *. exists (tail ++ [b]). rewrite E. split_and!.
  - by rewrite <- app_assoc.
  - rewrite empty_blocks_app. by apply prefix_app_r.
  - apply block_address_pos. pose proof (arena_blocks ar1 Har) as Hall. cbn in Hall.
    apply Forall_app in Hall as [_ Hall]. by inversion Hall.
  - pose proof (chain_before s ar1 others Ho (chain ar) b [] eq_refl) as Hc. rewrite E in Hc.
    by apply Forall_app in Hc as [Hc _].
Qed.

Lemma arena_new_block_ok s m ar others size alignment :
  owns s (internals ar) others -> arena_ok ar -> 0 < size < 2 ^ 64 -> valid_alignment alignment -> 1 < alignment ->
  match coglet_rt_mem_arena_new_block size alignment ((ar, s), m) with
  | Done (b, ((ar', s'), m')) =>
      ar' = ar /\ same_bytes (internals ar ++ others) m m' /\
      exists a capacity, b = mkArenaBlock a (ARENA_BLOCK_SIZE + capacity) capacity 0
        /\ size + (alignment - 1) <= capacity
        /\ owns s' ((a, ARENA_BLOCK_SIZE + capacity) :: internals ar) others
  | OutOfMemory => True
  | Undefined => False
  end.
Proof.
  intros Ho Har Hs Ha Hgt. pose proof (valid_alignment_bound alignment Ha). pose proof (arena_size_ok ar Har).
  unfold coglet_rt_mem_arena_new_block. rewrite (bind_done get_arena _ _ ar ((ar, s), m)) by done.
  destruct (Z.ltb_spec 1 alignment) as [_|]; [|lia].
  destruct (SIZE_MAX - (alignment - 1) <? size) eqn:Hov; [done|].
  rewrite (bind_done _ _ _ (size + (alignment - 1)) ((ar, s), m)) by done.
  set (capacity := if arena_block_size ar <? _ then _ else _).
  assert (Hcap : size + (alignment - 1) <= capacity).
  { unfold capacity. destruct (Z.ltb_spec (arena_block_size ar) (size + (alignment - 1))); lia. }
  clearbody capacity. destruct (SIZE_MAX - ARENA_BLOCK_SIZE <? capacity) eqn:Hmax; [done|].
  unfold SIZE_MAX, UINT64_MAX, ARENA_BLOCK_SIZE in *. to_props. rewrite (u64_small (32 + capacity)) by lia.
  rewrite bind_call_parent.
  pose proof (allocate_ok s m (internals ar) others (32 + capacity) POINTER_SIZE Ho ltac:(lia)
                ltac:(by exists 3)) as Hrun.
  destruct (allocate parent (32 + capacity) POINTER_SIZE (s, m)) as [[a [s' m']]| |]; [|done|done].
  destruct Hrun as [Hsame Hrun]. destruct (Z.eqb_spec (32 + capacity) 0) as [|_]; [lia|].
  destruct Hrun as [_ Ho']. destruct (Z.eqb_spec a NULL); [done|].
  split_and!; [done|done|]. by exists a, capacity.
Qed.

Lemma runtime_arena_alloc_ok s m ar mine others size alignment :
  arena_owns (ar, s) mine others -> 0 <= size < 2 ^ 64 -> valid_alignment alignment ->
  match coglet_rt_mem_arena_alloc size alignment ((ar, s), m) with
  | Done (p, (st', m')) =>
      same_bytes (mine ++ others) m m' /\ (forall ar0, since ar0 ar -> since ar0 st'.1) /\
      if size =? 0 then p = NULL /\ arena_owns st' mine others
      else (alignment | p) /\ arena_owns st' ((p, size) :: mine) others
  | OutOfMemory => True
  | Undefined => False
  end.
Proof.
  intros Ho Hs Ha. unfold coglet_rt_mem_arena_alloc. destruct (Z.eqb_spec size 0) as [->|Hz].
  { cbn. split; [apply same_bytes_refl|done]. }
  rewrite bind_checked_alignment by done. destruct (max_alignment alignment Ha) as [Hm Hdiv].
  set (al := Z.max alignment POINTER_SIZE) in *.
  assert (Hgt : 1 < al) by (unfold al, POINTER_SIZE; lia). clearbody al.
  rewrite (bind_done get_arena _ _ ar ((ar, s), m)) by done. pose proof Ho as (Hown & Har & _ & _). cbn in Hown, Har.
  destruct (from_current ar) as [before rest] eqn:Hcur.
  destruct (bump_first size al rest) as [[[p current] rest']|] eqn:Hb.
  - destruct (arena_bump_ok s ar mine others size al before rest p current rest' Ho ltac:(lia) Hm Hcur Hb) as [Hp Ho'].
    rewrite (bind_done _ _ _ tt ((set_chain (before ++ rest') current ar, s), m)) by done. cbn.
    split_and!; [apply same_bytes_refl| |by etrans|done].
    intros ar0 Hsince. by eapply since_bump.
  - pose proof (arena_new_block_ok s m ar others size al Hown Har ltac:(lia) Hm Hgt) as Hrun.
    destruct (coglet_rt_mem_arena_new_block size al _) as [[b [[ar' s'] m']]| |] eqn:Hnew;
      [|by rewrite (bind_fails _ _ _ Hnew)|done].
    rewrite (bind_done _ _ _ _ _ Hnew). destruct Hrun as (-> & Hsame & a & capacity & -> & Hcap & Ho1).
    pose proof (arena_new_block_owns s s' ar mine others a capacity Ho ltac:(lia) Ho1) as Ho2.
    set (nb := mkArenaBlock a (ARENA_BLOCK_SIZE + capacity) capacity 0) in *.
    assert (Hnb : block_ok nb).
    { pose proof Ho2 as (_ & Hok & _). pose proof (arena_blocks _ Hok) as Hall. cbn in Hall.
      apply Forall_app in Hall as [_ Hall]. by inversion Hall. }
    pose proof Hnb as (_ & _ & Hn1 & Hn2 & Hn3). rewrite payload_small by done.
    unfold block_region, nb, ARENA_BLOCK_SIZE in Hn1, Hn2, Hn3. cbn in Hn1, Hn2, Hn3.
    cbn [block_address nb]. unfold ARENA_BLOCK_SIZE.
    pose proof (align_up_divides (a + 32) al Hm) as Hd. pose proof (align_up_small (a + 32) al Hm ltac:(lia) ltac:(lia)).
    set (q := coglet_rt_align_up_uintptr _ _) in *. clearbody q.
    rewrite (u64_small (q - (a + 32))), u64_small by lia.
    rewrite (bind_done _ _ _ tt ((set_chain (chain ar ++ [set_used (q - (a + 32) + size) nb]) a ar, s'), m')) by done.
    assert (Ho3 : arena_owns (set_chain (chain ar ++ [set_used (q - (a + 32) + size) nb]) a ar, s') ((q, size) :: mine) others).
    { apply (arena_use s' _ mine others (chain ar) nb [] q size Ho2); try done; cbn; unfold ARENA_BLOCK_SIZE; lia. }
    cbn. split_and!; [exact (arena_same_bytes _ _ _ _ _ Ho Hsame)| |by etrans|done].
    intros ar0. by apply (since_push s' ar0 ar (set_used (q - (a + 32) + size) nb) ((q, size) :: mine) others).
Qed.

Lemma arena_owns_drop st r mine others : arena_owns st (r :: mine) others -> arena_owns st mine others.
Proof.
  intros (Ho & Har & Hm & Hh). apply regions_ok_cons in Hm as (_ & _ & Hm). apply Forall_cons in Hh as [_ Hh].
  by split_and!.
Qed.

Lemma arena_owns_perm st mine mine' others : mine ≡ₚ mine' -> arena_owns st mine others -> arena_owns st mine' others.
Proof. intros E (Ho & Har & Hm & Hh). unfold arena_owns. by rewrite <- E. Qed.

Lemma arena_resize_ok s m ar p n mine others size alignment :
  arena_owns (ar, s) ((p, n) :: mine) others -> 0 <= size < 2 ^ 64 -> valid_alignment alignment ->
  match coglet_rt_mem_arena_resize p n size alignment ((ar, s), m) with
  | Done (q, (st', m')) =>
      same_bytes (mine ++ others) m m' /\ (forall ar0, since ar0 ar -> since ar0 st'.1) /\
      if size =? 0 then q = NULL /\ arena_owns st' mine others
      else (alignment | q) /\ arena_owns st' ((q, size) :: mine) others
           /\ forall i, 0 <= i < Z.min n size -> m' (q + i) = m (p + i)
  | OutOfMemory => True
  | Undefined => False
  end.
Proof.
  intros Ho Hs Ha. unfold coglet_rt_mem_arena_resize.
  pose proof (arena_owns_regions _ _ _ Ho) as Hreg. cbn in Hreg. apply regions_ok_cons in Hreg as (Hp & _ & _).
  destruct Hp as (Hp0 & Hn & _). cbn in Hp0, Hn.
  destruct (Z.eqb_spec p NULL) as [E|_]; [unfold NULL in E; lia|].
  destruct (Z.eqb_spec size 0) as [->|Hz].
  { cbn. split_and!; [apply same_bytes_refl|done|done|by eapply arena_owns_drop]. }
  pose proof (runtime_arena_alloc_ok s m ar _ others size alignment Ho Hs Ha) as Hrun.
  destruct (coglet_rt_mem_arena_alloc size alignment _) as [[q [st1 m1]]| |] eqn:Hall;
    [|by rewrite (bind_fails _ _ _ Hall)|done].
  rewrite (bind_done _ _ _ _ _ Hall). destruct (Z.eqb_spec size 0) as [|_]; [done|].
  destruct Hrun as (Hsame & Hsince & Hq & Ho1). pose proof (arena_owns_regions _ _ _ Ho1) as Hreg1.
  apply regions_ok_cons in Hreg1 as (_ & Hclq & _). apply Forall_cons in Hclq as [Hqp Hclq].
  set (k := if n <? size then n else size).
  assert (Hk : k = Z.min n size) by (unfold k; destruct (Z.ltb_spec n size); lia). clearbody k.
  erewrite bind_done.
  2:{ apply memcpy_run. right. unfold disjoint_regions in *. cbn in *. lia. }
  cbn. split_and!; [|done|done|eapply arena_owns_drop, arena_owns_perm, Ho1; apply perm_swap|].
  - eapply same_bytes_trans; [eapply same_bytes_incl, Hsame; intros r; by right|].
    apply same_bytes_memcpy. eapply clear_of_inside; [|exact Hclq]. unfold inside. cbn. lia.
  - intros i Hi. rewrite memcpy_copies by lia. apply (Hsame (p, n)); [by left|]. apply within_true. cbn. lia.
Qed.

#[global] Instance arena_lawful : LawfulAllocator arena_allocator.
Proof.
  refine {| owns := arena_owns |}.
  - apply arena_owns_regions.
  - intros st mine mine' others. apply arena_owns_perm.
  - intros [ar s] m mine others size alignment Ho Hs Ha. cbn.
    pose proof (runtime_arena_alloc_ok s m ar mine others size alignment Ho Hs Ha) as Hrun.
    destruct (coglet_rt_mem_arena_alloc _ _ _) as [[p [st' m']]| |]; [|done|done]. by destruct Hrun as (? & _ & ?).
  - intros st m p size mine others alignment Ho _. exists st, m.
    split_and!; [done|apply same_bytes_refl|by eapply arena_owns_drop].
  - done.
  - intros [ar s] m p old_size mine others size alignment Ho Hs Ha. cbn.
    pose proof (arena_resize_ok s m ar p old_size mine others size alignment Ho Hs Ha) as Hrun.
    destruct (coglet_rt_mem_arena_resize _ _ _ _ _) as [[q [st' m']]| |]; [|done|done]. by destruct Hrun as (? & _ & ?).
  - intros old_size size alignment Hs Ha w. done.
Defined.

(** ** The life of an arena *)

Lemma arena_create_ok s m others block_size :
  owns s [] others -> 0 <= block_size < 2 ^ 64 ->
  match coglet_rt_mem_arena_create block_size (s, m) with
  | Done (ar, (s', m')) => same_bytes others m m' /\ arena_owns (ar, s') [] others
  | OutOfMemory => True
  | Undefined => False
  end.
Proof.
  intros Ho Hb. unfold coglet_rt_mem_arena_create.
  pose proof (allocate_ok s m [] others ARENA_SIZE POINTER_SIZE Ho ltac:(done) ltac:(by exists 3)) as Hrun.
  destruct (allocate parent ARENA_SIZE POINTER_SIZE (s, m)) as [[a [s' m']]| |] eqn:Hall;
    [|by rewrite (bind_fails _ _ _ Hall)|done].
  rewrite (bind_done _ _ _ _ _ Hall). cbn in Hrun. destruct Hrun as (Hsame & _ & Ho').
  destruct (Z.eqb_spec a NULL); [done|]. cbn. split; [done|]. split_and!; [done| |apply regions_ok_nil|constructor].
  constructor; cbn; [constructor| |by exists [], []; split_and!]. destruct (Z.eqb_spec block_size 0); lia.
Qed.

Lemma free_blocks_ok s m a bs others :
  owns s (a :: (block_region <$> bs)) others ->
  exists s' m', free_blocks bs (s, m) = Done (tt, (s', m')) /\ same_bytes (a :: others) m m' /\ owns s' [a] others.
Proof.
  revert s m. induction bs as [|b bs IH]; intros s m Ho; cbn.
  - exists s, m. split_and!; [done|apply same_bytes_refl|done].
  - eapply owns_perm in Ho; [|apply perm_swap].
    destruct (free_ok s m _ _ _ _ POINTER_SIZE Ho ltac:(by exists 3)) as (s1 & m1 & H1 & Hs1 & Ho1).
    destruct (IH s1 m1 Ho1) as (s2 & m2 & H2 & Hs2 & Ho2). exists s2, m2.
    rewrite (bind_done _ _ _ _ _ H1). split_and!; [done| |done].
    eapply same_bytes_trans; [|exact Hs2]. eapply same_bytes_incl, Hs1.
    intros r [->|Hr]%elem_of_cons; [by left|]. apply elem_of_app. by right.
Qed.

(** The blocks and the arena go back to the parent. *)
Lemma arena_destroy_ok s m ar mine others :
  arena_owns (ar, s) mine others ->
  exists s' m', coglet_rt_mem_arena_destroy ar (s, m) = Done (tt, (s', m')) /\ same_bytes others m m'
    /\ owns s' [] others.
Proof.
  intros (Ho & _). unfold coglet_rt_mem_arena_destroy.
  destruct (free_blocks_ok s m _ _ _ Ho) as (s1 & m1 & H1 & Hs1 & Ho1). rewrite (bind_done _ _ _ _ _ H1).
  destruct (free_ok s1 m1 _ _ _ _ POINTER_SIZE Ho1 ltac:(by exists 3)) as (s2 & m2 & H2 & Hs2 & Ho2).
  exists s2, m2. split_and!; [done| |done].
  eapply same_bytes_trans; [|exact Hs2]. eapply same_bytes_incl, Hs1. intros r Hr. by right.
Qed.


(** ** Scratch scopes *)

Definition mark_of (ar : CogletRuntimeArena) : Pointer * Z :=
  match (from_current ar).2 with
  | [] => (NULL, 0)
  | b :: _ => (block_address b, block_used b)
  end.

(** [ar] is [ar0] again, maybe with more blocks that are empty. *)
Definition rewound (ar0 ar : CogletRuntimeArena) : Prop :=
  arena_address ar = arena_address ar0 /\ arena_block_size ar = arena_block_size ar0 /\
  (exists k, chain ar = chain ar0 ++ k /\ Forall (fun b => block_used b = 0) k) /\
  (chain ar0 <> [] -> current_block ar = current_block ar0).

Lemma mark_run st m : coglet_rt_mem_arena_mark (st, m) = Done (mark_of st.1, (st, m)).
Proof. done. Qed.

Lemma empty_blocks_used bs : Forall (fun b => block_used b = 0) (empty_blocks bs).
Proof. induction bs; by constructor. Qed.

Lemma empty_blocks_same bs : Forall (fun b => block_used b = 0) bs -> empty_blocks bs = bs.
Proof.
  induction 1 as [|b bs Hb _ IH]; [done|]. cbn. unfold empty_blocks in IH. rewrite IH. f_equal.
  destruct b. cbn in *. by subst.
Qed.

Lemma empty_blocks_ok bs : Forall block_ok bs -> Forall block_ok (empty_blocks bs).
Proof.
  induction 1 as [|b bs (E & Hu & Hr) _ IH]; constructor; [|done]. split_and!; [done|cbn; lia|cbn; lia|done].
Qed.

Lemma empty_blocks_regions bs : block_region <$> empty_blocks bs = block_region <$> bs.
Proof. induction bs as [|b bs IH]; [done|]. cbn. by f_equal. Qed.

(** Nothing is held by an arena that has no block. *)
Lemma held_nil mine : Forall (held []) mine -> mine = [].
Proof. destruct mine as [|r mine]; [done|]. intros [(b & Hb & _) _]%Forall_cons. by apply elem_of_nil in Hb. Qed.

Lemma since_rewound outer ar0 ar :
  since outer ar0 -> rewound ar0 ar -> since outer ar.
Proof.
  intros (Ha & Hsz & Hs) (Ha' & Hsz' & (k & Ek & _) & Hcur). split_and!; [congruence|congruence|].
  destruct (from_current outer) as [before [|b rest]]; [done|]. destruct Hs as (tail & E & Hpre & Hnull & Hbefore).
  assert (Hne : chain ar0 <> []).
  { intros E0. rewrite E0 in E. symmetry in E. apply app_eq_nil in E as [_ ->]. destruct Hpre as [? Hpre]. done. }
  rewrite Hcur by done. exists (tail ++ k). split_and!; [|rewrite empty_blocks_app; by apply prefix_app_r|done|done].
  by rewrite Ek, E, <- app_assoc.
Qed.

(** The arena after a reset, from an arena that had no block when it was marked. *)
Lemma reset_ok s ar others :
  owns s (internals ar) others -> arena_ok ar ->
  arena_owns (set_chain (empty_blocks (chain ar)) (head_address (chain ar)) ar, s) [] others.
Proof.
  intros Ho Har. set (ar' := set_chain _ _ _).
  assert (Ho' : owns s (internals ar') others) by (unfold internals; cbn; by rewrite empty_blocks_regions).
  split_and!; cbn; [done| |apply regions_ok_nil|constructor]. constructor; cbn.
  - apply empty_blocks_ok, Har.
  - apply Har.
  - pose proof (arena_blocks ar Har) as Hall. unfold ar'. destruct (chain ar) as [|b bs] eqn:E; cbn.
    + by exists [], [].
    + apply Forall_cons in Hall as [Hb _]. exists [], (set_used 0 b :: map (set_used 0) bs).
      split_and!; [|done|done|apply empty_blocks_used]. unfold from_current. cbn.
      destruct (Z.eqb_spec (block_address b) NULL) as [E0|_]; [by apply block_address_pos in Hb|].
      by rewrite Z.eqb_refl.
Qed.

(** The arena after a rewind to a block that was current when it was marked. *)
Lemma rewind_to_ok s ar mine others before b0 rest0 b1 tail :
  owns s (internals ar) others -> arena_ok ar -> regions_ok mine ->
  Forall block_ok (before ++ b0 :: rest0) -> Forall (held (before ++ b0 :: rest0)) mine ->
  Forall (fun b => block_used b = 0) rest0 ->
  chain ar = before ++ b1 :: tail -> set_used 0 b1 = set_used 0 b0 -> rest0 `prefix_of` empty_blocks tail ->
  arena_owns (set_chain (before ++ b0 :: empty_blocks tail) (block_address b0) ar, s) mine others.
Proof.
  intros Ho Har Hm Hok Hh Hzero E Eb Hpre. set (ar' := set_chain _ _ _).
  assert (Ebr : block_region b1 = block_region b0) by (injection Eb; intros; unfold block_region; congruence).
  assert (Ho' : owns s (internals ar') others).
  { unfold internals in *. rewrite E in Ho. cbn in *. rewrite fmap_app in *. cbn in *.
    by rewrite empty_blocks_regions, <- Ebr. }
  pose proof (arena_blocks ar Har) as Hall. rewrite E in Hall. apply Forall_app in Hall as [_ Hall].
  apply Forall_cons in Hall as [_ Htail].
  apply Forall_app in Hok as [Hbefore Hok]. apply Forall_cons in Hok as [Hb0 _].
  split_and!; cbn; [exact Ho'| |done|].
  - constructor; cbn.
    + apply Forall_app. split; [done|]. constructor; [done|]. by apply empty_blocks_ok.
    + apply Har.
    + exists before, (b0 :: empty_blocks tail). split_and!; [|done|done|apply empty_blocks_used].
      apply (current_at ar' before b0); [done|done|by apply block_address_pos|].
      exact (chain_before s ar' others Ho' before b0 _ eq_refl).
  - eapply Forall_impl; [exact Hh|]. intros r (x & Hx & Hi). exists x. split; [|done].
    destruct Hpre as [k ->]. rewrite app_comm_cons, app_assoc. apply elem_of_app. by left.
Qed.

Lemma since_address before b0 rest0 ar :
  (exists tail, chain ar = before ++ tail /\ empty_blocks (b0 :: rest0) `prefix_of` empty_blocks tail
    /\ current_block ar <> NULL /\ Forall (fun b => block_address b <> current_block ar) before) ->
  exists b1 tail, chain ar = before ++ b1 :: tail /\ set_used 0 b1 = set_used 0 b0
    /\ empty_blocks rest0 `prefix_of` empty_blocks tail.
Proof.
  intros ([|b1 tail] & E & Hpre & _); destruct Hpre as [k Hk]; [done|].
  cbn in Hk. injection Hk as Haddr Hsize Hcap Hk. exists b1, tail. split_and!; [done|by unfold set_used; f_equal|].
  by exists k.
Qed.

(** Rewinding brings the arena back to where it was marked. *)
Lemma rewind_ok s0 ar0 mine s1 ar1 mine1 others m :
  arena_owns (ar0, s0) mine others -> arena_owns (ar1, s1) mine1 others -> since ar0 ar1 ->
  exists ar2, coglet_rt_mem_arena_rewind (mark_of ar0).1 (mark_of ar0).2 ((ar1, s1), m) = Done (tt, ((ar2, s1), m))
    /\ rewound ar0 ar2 /\ arena_owns (ar2, s1) mine others.
Proof.
  intros (_ & Har0 & Hm & Hh) (Ho1 & Har1 & _) (Ha & Hsz & Hs). cbn in Har0, Hh, Ho1, Har1.
  destruct (arena_current ar0 Har0) as (before & rest & Hcur & E0 & Hhead & Hzero).
  rewrite Hcur in Hs. unfold mark_of. rewrite Hcur. unfold coglet_rt_mem_arena_rewind. cbn [snd].
  destruct rest as [|b0 rest0]; cbn [fst snd].
  - exists (set_chain (empty_blocks (chain ar1)) (head_address (chain ar1)) ar1).
    rewrite Hhead in Hh. apply held_nil in Hh as ->. split_and!; [done| |by apply reset_ok].
    split_and!; [done|done| |by rewrite Hhead]. exists (empty_blocks (chain ar1)).
    rewrite Hhead. split; [done|apply empty_blocks_used].
  - pose proof (arena_blocks ar0 Har0) as Hok. rewrite E0 in Hok, Hh.
    apply since_address in Hs as (b1 & tail & E & Eb & Hpre). cbn [tl] in Hzero.
    rewrite (empty_blocks_same rest0) in Hpre by done.
    assert (Hb0 : block_ok b0) by (apply Forall_app in Hok as [_ Hok]; by inversion Hok).
    assert (Eaddr : block_address b1 = block_address b0 /\ block_capacity b1 = block_capacity b0
                    /\ set_used (block_used b0) b1 = b0).
    { unfold set_used in *. injection Eb as E1 E2 E3. split_and!; [done|done|]. destruct b0. cbn in *. congruence. }
    destruct Eaddr as (Eaddr & Ecap & Eused).
    destruct (Z.eqb_spec (block_address b0) NULL) as [E1|_]; [by apply block_address_pos in Hb0|].
    exists (set_chain (before ++ b0 :: empty_blocks tail) (block_address b0) ar1).
    rewrite (bind_done get_arena _ _ ar1 ((ar1, s1), m)) by done.
    rewrite E, <- Eaddr, split_at_middle by exact (chain_before s1 ar1 others Ho1 before b1 tail E).
    destruct (Z.ltb_spec (block_capacity b1) (block_used b0)); [destruct Hb0 as (_ & ? & _); lia|].
    rewrite Eused, Eaddr. split_and!; [done| |by eapply rewind_to_ok].
    split_and!; [done|done| |done]. destruct Hpre as [k Hk]. exists k. cbn. rewrite E0, Hk. split.
    + by rewrite <- app_assoc.
    + pose proof (empty_blocks_used tail) as Hu. rewrite Hk in Hu. by apply Forall_app in Hu as [_ Hu].
Qed.

(** What a program does with an arena while scratch scopes are open: it allocates, resizes, frees
    and writes to what it has, and opens and closes further scopes. *)
Inductive scratch_run (others : list Region) :
    (CogletRuntimeArena * St) * Bytes -> list Region -> (CogletRuntimeArena * St) * Bytes -> list Region -> Prop :=
| scratch_done w mine : scratch_run others w mine w mine
| scratch_allocate w mine size alignment p w1 w2 mine2 :
    0 <= size < 2 ^ 64 -> valid_alignment alignment ->
    coglet_rt_mem_arena_alloc size alignment w = Done (p, w1) ->
    scratch_run others w1 (if size =? 0 then mine else (p, size) :: mine) w2 mine2 ->
    scratch_run others w mine w2 mine2
| scratch_resize w mine p n mine' size alignment q w1 w2 mine2 :
    0 <= size < 2 ^ 64 -> valid_alignment alignment -> mine ≡ₚ (p, n) :: mine' ->
    coglet_rt_mem_arena_resize p n size alignment w = Done (q, w1) ->
    scratch_run others w1 (if size =? 0 then mine' else (q, size) :: mine') w2 mine2 ->
    scratch_run others w mine w2 mine2
| scratch_free w mine p n mine' alignment w1 w2 mine2 :
    mine ≡ₚ (p, n) :: mine' ->
    coglet_rt_mem_arena_free p n alignment w = Done (tt, w1) ->
    scratch_run others w1 mine' w2 mine2 ->
    scratch_run others w mine w2 mine2
| scratch_write st m m' mine w2 mine2 :
    (forall a, (forall r, r ∈ mine -> within r.1 r.2 a = false) -> m' a = m a) ->
    scratch_run others (st, m') mine w2 mine2 ->
    scratch_run others (st, m) mine w2 mine2
| scratch_scope w mine mark w0 w1 mine1 w2 w3 mine3 :
    coglet_rt_mem_arena_mark w = Done (mark, w0) ->
    scratch_run others w0 mine w1 mine1 ->
    coglet_rt_mem_arena_rewind mark.1 mark.2 w1 = Done (tt, w2) ->
    scratch_run others w2 mine w3 mine3 ->
    scratch_run others w mine w3 mine3.

Lemma write_same_bytes mine others m m' :
  regions_ok (mine ++ others) -> (forall a, (forall r, r ∈ mine -> within r.1 r.2 a = false) -> m' a = m a) ->
  same_bytes others m m'.
Proof.
  intros Hr Hw r a Hin Ha. apply Hw. intros r' Hin'. apply regions_ok_app in Hr as (_ & _ & Hc).
  rewrite Forall_forall in Hc. specialize (Hc r' Hin'). unfold clear_of in Hc. rewrite Forall_forall in Hc.
  specialize (Hc r Hin). destruct (within r'.1 r'.2 a) eqn:Ha'; [|done]. apply within_true in Ha, Ha'.
  unfold disjoint_regions in Hc. lia.
Qed.

Lemma same_bytes_others mine others m m' : same_bytes (mine ++ others) m m' -> same_bytes others m m'.
Proof. apply same_bytes_incl. intros r Hr. apply elem_of_app. by right. Qed.

(** The invariant of a run: the arena stays well-formed and behind every mark. *)
Lemma scratch_run_ok others w mine w1 mine1 :
  scratch_run others w mine w1 mine1 -> arena_owns w.1 mine others ->
  arena_owns w1.1 mine1 others /\ same_bytes others w.2 w1.2 /\ (forall ar0, since ar0 w.1.1 -> since ar0 w1.1.1).
Proof.
  induction 1 as [w mine|[[ar s] m] mine size alignment p [st1 m1] w2 mine2 Hs Ha Hrun _ IH
    |[[ar s] m] mine p n mine' size alignment q [st1 m1] w2 mine2 Hs Ha Hperm Hrun _ IH
    |[st m] mine p n mine' alignment w1 w2 mine2 Hperm Hrun _ IH
    |st m m' mine w2 mine2 Hw _ IH
    |[[ar s] m] mine mark w0 [[ar1 s1] m1] mine1 w2 w3 mine3 Hmark _ IH1 Hrew _ IH2]; intros Ho; cbn [fst snd] in *.
  - split_and!; [done|apply same_bytes_refl|done].
  - pose proof (runtime_arena_alloc_ok s m ar mine others size alignment Ho Hs Ha) as Hok. rewrite Hrun in Hok.
    destruct Hok as (Hsame & Hsince & Hok). destruct IH as (Ho2 & Hsame2 & Hsince2).
    { destruct (size =? 0); tauto. }
    split_and!; [done| |by auto]. by eapply same_bytes_trans; [eapply same_bytes_others|].
  - eapply arena_owns_perm in Ho; [|exact Hperm].
    pose proof (arena_resize_ok s m ar p n mine' others size alignment Ho Hs Ha) as Hok. rewrite Hrun in Hok.
    destruct Hok as (Hsame & Hsince & Hok). destruct IH as (Ho2 & Hsame2 & Hsince2).
    { destruct (size =? 0); tauto. }
    split_and!; [done| |by auto]. by eapply same_bytes_trans; [eapply same_bytes_others|].
  - injection Hrun as <-. apply IH. eapply arena_owns_drop, arena_owns_perm, Ho. exact Hperm.
  - destruct (IH Ho) as (Ho2 & Hsame2 & Hsince2). split_and!; [done| |done].
    eapply same_bytes_trans; [|exact Hsame2]. eapply write_same_bytes; [|exact Hw]. by eapply arena_owns_regions.
  - rewrite mark_run in Hmark. injection Hmark as <- <-. cbn [fst snd] in *.
    destruct (IH1 Ho) as (Ho1 & Hsame1 & Hsince1).
    destruct (rewind_ok s ar mine s1 ar1 mine1 others m1 Ho Ho1 (Hsince1 ar (since_refl s ar mine others Ho)))
      as (ar2 & Hrew' & Hback & Ho2).
    rewrite Hrew in Hrew'. injection Hrew' as ->. cbn [fst snd] in *. destruct (IH2 Ho2) as (Ho3 & Hsame3 & Hsince3).
    split_and!; [done|by eapply same_bytes_trans|]. intros ar0 H0. apply Hsince3. by eapply since_rewound.
Qed.

End Arena.

Section Scratch.
Context {St : Type} (parent : Allocator St) `{!LawfulAllocator parent}.

End Scratch.

(** An arena over the heap in which a block of 64 bytes has 40 in use, and a scope that needs
    a second block and has a scope inside it. *)
#[local] Existing Instances bump_malloc bump_malloc_laws.

Definition demo_new : CogletRuntimeArena * (Heap * Bytes) :=
  value (coglet_rt_mem_arena_create heap_allocator 64 (empty_heap, zero_bytes))
        (mkRuntimeArena NULL 0 [] NULL, (empty_heap, zero_bytes)).

Definition demo_alloc (w : (CogletRuntimeArena * Heap) * Bytes) (size : Z) : Pointer * ((CogletRuntimeArena * Heap) * Bytes) :=
  value (coglet_rt_mem_arena_alloc heap_allocator size 8 w) (NULL, w).

Definition demo_w0 : (CogletRuntimeArena * Heap) * Bytes := ((demo_new.1, demo_new.2.1), demo_new.2.2).
Definition demo_w1 := demo_alloc demo_w0 40.
Definition demo_w2 := demo_alloc demo_w1.2 48.
Definition demo_w3 := demo_alloc demo_w2.2 200.

Definition demo_w4 : (CogletRuntimeArena * Heap) * Bytes :=
  match coglet_rt_mem_arena_rewind (mark_of demo_w2.2.1.1).1 (mark_of demo_w2.2.1.1).2 demo_w3.2 with
  | Done (_, w) => w
  | _ => demo_w3.2
  end.

Lemma demo_alloc_done w size :
  finished (coglet_rt_mem_arena_alloc heap_allocator size 8 w) = true ->
  coglet_rt_mem_arena_alloc heap_allocator size 8 w = Done (demo_alloc w size).
Proof. apply value_done. Qed.

Lemma demo_runs :
  coglet_rt_mem_arena_alloc heap_allocator 40 8 demo_w0 = Done demo_w1
  /\ coglet_rt_mem_arena_alloc heap_allocator 48 8 demo_w1.2 = Done demo_w2
  /\ coglet_rt_mem_arena_alloc heap_allocator 200 8 demo_w2.2 = Done demo_w3
  /\ coglet_rt_mem_arena_rewind (mark_of demo_w2.2.1.1).1 (mark_of demo_w2.2.1.1).2 demo_w3.2 = Done (tt, demo_w4).
Proof.
  split; [|split; [|split]].
  - unfold demo_w1. apply demo_alloc_done. vm_compute. reflexivity.
  - unfold demo_w2. apply demo_alloc_done. vm_compute. reflexivity.
  - unfold demo_w3. apply demo_alloc_done. vm_compute. reflexivity.
  - unfold demo_w4. assert (Hf : finished (coglet_rt_mem_arena_rewind (mark_of demo_w2.2.1.1).1
      (mark_of demo_w2.2.1.1).2 demo_w3.2) = true) by (vm_compute; reflexivity).
    by destruct (coglet_rt_mem_arena_rewind _ _ _) as [[[] w]| |].
Qed.

Lemma demo_owns : arena_owns heap_allocator demo_w1.2.1 [(demo_w1.1, 40)] [].
Proof.
  assert (H0 : arena_owns heap_allocator demo_w0.1 [] []).
  { pose proof (arena_create_ok heap_allocator empty_heap zero_bytes [] 64 empty_heap_owns ltac:(done)) as H.
    rewrite (value_done (coglet_rt_mem_arena_create heap_allocator 64 (empty_heap, zero_bytes))
      (mkRuntimeArena NULL 0 [] NULL, (empty_heap, zero_bytes))) in H by (vm_compute; reflexivity).
    fold demo_new in H. unfold demo_w0. destruct demo_new as [ar [s m]]. apply H. }
  destruct demo_runs as (E1 & _). revert H0 E1. generalize demo_w1. destruct demo_w0 as [[ar s] m].
  intros [p [st' m']] H0 E1.
  pose proof (runtime_arena_alloc_ok heap_allocator s m ar [] [] 40 8 H0 ltac:(done) ltac:(by exists 3)) as H.
  rewrite E1 in H. apply H.
Qed.

