(* ===== verification/RuntimeFixedArena.v ===== *)
(** The arena in a buffer of the caller ([src/stdlib/runtime/coglet_runtime_mem.c]).

    The arena's state lies at the start of the buffer, and the rest is what it hands out.  It
    has no parent: when the buffer is full, an allocation fails. *)
From S2P Require Import Prelude RuntimeMemory.

Record CogletRuntimeFixedArena : Set := mkFixedArena {
  fixed_data : Pointer;
  fixed_capacity : Z;
  fixed_used : Z;
}.

(** [sizeof(CogletRuntimeFixedArena)] *)
Definition FIXED_ARENA_SIZE : Z := 24.

(** The offset of a structure of pointers and sizes behind one character. *)
Definition coglet_rt_mem_fixed_arena_alignment : Z := 8.

Definition set_fixed_used (used : Z) (ar : CogletRuntimeFixedArena) : CogletRuntimeFixedArena :=
  mkFixedArena (fixed_data ar) (fixed_capacity ar) used.

(** The address of the arena, which is returned, and the arena. *)
Definition coglet_rt_mem_fixed_arena_create (buffer buffer_size : Z)
    : result (Pointer * CogletRuntimeFixedArena) :=
  if (buffer =? NULL) || (buffer_size =? 0) then OutOfMemory
  else if UINT64_MAX - buffer_size <? buffer then OutOfMemory
  else
    let end_ := u64 (buffer + buffer_size) in
    let state_address := coglet_rt_align_up_uintptr buffer coglet_rt_mem_fixed_arena_alignment in
    if (end_ <? state_address) || (u64 (end_ - state_address) <? FIXED_ARENA_SIZE) then OutOfMemory
    else
      let data_address := u64 (state_address + FIXED_ARENA_SIZE) in
      if end_ <? data_address then OutOfMemory
      else Done (state_address, mkFixedArena data_address (u64 (end_ - data_address)) 0).

Definition coglet_rt_mem_fixed_arena_alloc (size alignment : Z) : R CogletRuntimeFixedArena Pointer :=
  if size =? 0 then mret NULL
  else
    alignment ← coglet_rt_mem_checked_alignment alignment;
    ar ← get_state;
    let base := fixed_data ar in
    let current := u64 (base + fixed_used ar) in
    let aligned := coglet_rt_align_up_uintptr current alignment in
    if (aligned <? base) || (fixed_capacity ar <? u64 (aligned - base))
       || (fixed_capacity ar - u64 (aligned - base) <? size)
    then coglet_rt_mem_fail
    else put_state (set_fixed_used (u64 (u64 (aligned - base) + size)) ar) ;; mret aligned.

Definition coglet_rt_mem_fixed_arena_resize (pointer : Pointer) (old_size new_size alignment : Z)
    : R CogletRuntimeFixedArena Pointer :=
  if pointer =? NULL then coglet_rt_mem_fixed_arena_alloc new_size alignment
  else if new_size =? 0 then mret NULL
  else
    resized ← coglet_rt_mem_fixed_arena_alloc new_size alignment;
    memcpy resized pointer (if old_size <? new_size then old_size else new_size) ;;
    mret resized.

Definition coglet_rt_mem_fixed_arena_free (pointer : Pointer) (size alignment : Z)
    : R CogletRuntimeFixedArena unit := mret tt.

Definition coglet_rt_mem_fixed_arena_reset : R CogletRuntimeFixedArena unit :=
  ar ← get_state; put_state (set_fixed_used 0 ar).

Definition coglet_rt_mem_fixed_arena_used (ar : CogletRuntimeFixedArena) : Z := fixed_used ar.

Definition coglet_rt_mem_fixed_arena_remaining (ar : CogletRuntimeFixedArena) : Z :=
  if fixed_capacity ar <? fixed_used ar then 0 else fixed_capacity ar - fixed_used ar.

(** [std.heap.FixedArena.allocator] *)
Definition fixed_arena_allocator : Allocator CogletRuntimeFixedArena :=
  mkAllocator coglet_rt_mem_fixed_arena_alloc coglet_rt_mem_fixed_arena_resize coglet_rt_mem_fixed_arena_free.

(** ** The arena as an allocator *)

Record fixed_ok (ar : CogletRuntimeFixedArena) : Prop := {
  fixed_start : 0 < fixed_data ar;
  fixed_room : 0 <= fixed_used ar <= fixed_capacity ar;
  fixed_end : fixed_data ar + fixed_capacity ar < 2 ^ 64;
}.

(** What the arena has handed out lies in the used part, and nothing else lies in its data. *)
Definition fixed_owns (ar : CogletRuntimeFixedArena) (mine others : list Region) : Prop :=
  fixed_ok ar /\ regions_ok (mine ++ others)
  /\ Forall (fun r => inside r (fixed_data ar, fixed_used ar)) mine
  /\ clear_of (fixed_data ar, fixed_capacity ar) others.

(** A multiple of an alignment above all but the last place of the address space is outside it. *)
Lemma next_multiple al v q : valid_alignment al -> (al | q) -> v <= q -> 2 ^ 64 <= v + (al - 1) -> 2 ^ 64 <= q.
Proof.
  intros (k & Hk & ->) [y ->] Hle Hv.
  assert (E : 2 ^ 64 = 2 ^ (64 - k) * 2 ^ k) by (rewrite <- Z.pow_add_r by lia; f_equal; lia).
  pose proof (pow2_pos k ltac:(lia)). rewrite E in Hv |- *.
  assert (2 ^ (64 - k) <= y); [|by apply Z.mul_le_mono_nonneg_r; lia].
  apply Z.lt_pred_le. apply (Z.mul_lt_mono_pos_r (2 ^ k)); lia.
Qed.

(** What the test of [alloc] finds: the next aligned address, if what is asked fits there. *)
Lemma fixed_alloc_run ar m size alignment :
  fixed_ok ar -> 0 < size < 2 ^ 64 -> valid_alignment alignment ->
  let first := fixed_data ar + fixed_used ar in
  let last := fixed_data ar + fixed_capacity ar in
  match coglet_rt_mem_fixed_arena_alloc size alignment (ar, m) with
  | Done (p, w) =>
      (Z.max alignment POINTER_SIZE | p) /\ first <= p /\ p + size <= last
      /\ (forall q, (Z.max alignment POINTER_SIZE | q) -> first <= q -> p <= q)
      /\ w = (set_fixed_used (p - fixed_data ar + size) ar, m)
  | OutOfMemory => forall q, (Z.max alignment POINTER_SIZE | q) -> first <= q -> last < q + size
  | Undefined => False
  end.
Proof.
  intros [H1 H2 H3] Hs Ha first last. unfold coglet_rt_mem_fixed_arena_alloc.
  destruct (Z.eqb_spec size 0); [lia|]. rewrite bind_checked_alignment by done.
  destruct (max_alignment alignment Ha) as [Hm _]. set (al := Z.max alignment POINTER_SIZE) in *. clearbody al.
  pose proof (valid_alignment_bound al Hm). rewrite (bind_done get_state _ _ ar (ar, m)) by done.
  fold first. rewrite (u64_small first) by (unfold first; lia).
  pose proof (align_up_divides first al Hm) as Hd.
  destruct (decide (first + (al - 1) < 2 ^ 64)) as [Hw|Hw].
  - pose proof (align_up_small first al Hm ltac:(unfold first; lia) Hw) as Hq.
    set (p := coglet_rt_align_up_uintptr first al) in *. clearbody p.
    assert (Hleast : forall q, (al | q) -> first <= q -> p <= q).
    { intros q [y ->] Hle. destruct Hd as [z ->]. destruct (Z.le_gt_cases z y); nia. }
    unfold first, last in *. destruct (_ || _) eqn:Ht.
    + cbn. intros q Hq' Hle. specialize (Hleast q Hq' Hle). destruct (decide (p < 2 ^ 64)) as [Hp|Hp]; [|lia].
      rewrite !(u64_small (p - fixed_data ar)) in Ht by lia. to_props. lia.
    + destruct (decide (p < 2 ^ 64)) as [Hp|Hp].
      * rewrite !(u64_small (p - fixed_data ar)) in Ht by lia. to_props.
        rewrite (u64_small (p - fixed_data ar)), u64_small by lia. cbn.
        split_and!; [done|lia|lia|done|done].
      * exfalso. destruct Hm as (k & Hk & ->). destruct Hd as [z ->].
        assert (2 ^ 64 = 2 ^ (64 - k) * 2 ^ k) by (rewrite <- Z.pow_add_r by lia; f_equal; lia). nia.
  - rewrite align_up_wraps by (done || (unfold first; lia)).
    destruct (Z.ltb_spec 0 (fixed_data ar)); [cbn|lia]. intros q Hq Hle.
    pose proof (next_multiple al first q Hm Hq Hle ltac:(lia)). unfold last. lia.
Qed.

Lemma fixed_alloc_ok ar m mine others size alignment :
  fixed_owns ar mine others -> 0 <= size < 2 ^ 64 -> valid_alignment alignment ->
  match coglet_rt_mem_fixed_arena_alloc size alignment (ar, m) with
  | Done (p, (ar', m')) =>
      m' = m /\ if size =? 0 then p = NULL /\ fixed_owns ar' mine others
                else (alignment | p) /\ fixed_owns ar' ((p, size) :: mine) others
  | OutOfMemory => True
  | Undefined => False
  end.
Proof.
  intros Ho Hs Ha. destruct (Z.eqb_spec size 0) as [->|Hz]; [done|].
  destruct Ho as (Hok & Hreg & Hin & Hcl). destruct (max_alignment alignment Ha) as [_ Hdiv].
  pose proof (fixed_alloc_run ar m size alignment Hok ltac:(lia) Ha) as Hrun. cbn zeta in Hrun.
  destruct (coglet_rt_mem_fixed_arena_alloc size alignment (ar, m)) as [[p w]| |]; [|done|done].
  destruct Hrun as (Hp & H1 & H2 & _ & ->). split; [done|]. split; [by etrans|].
  destruct Hok as [Hd Hu He]. split_and!; cbn.
  - constructor; cbn; lia.
  - apply regions_ok_cons. split_and!; [unfold region_ok; cbn; lia| |done].
    apply Forall_app. split.
    + eapply Forall_impl; [exact Hin|]. intros r Hr. unfold inside, disjoint_regions in *. cbn in *. lia.
    + eapply clear_of_inside; [|exact Hcl]. unfold inside. cbn. lia.
  - constructor; [unfold inside; cbn; lia|]. eapply Forall_impl; [exact Hin|].
    intros r Hr. unfold inside in *. cbn in *. lia.
  - done.
Qed.

Lemma fixed_owns_perm ar mine mine' others :
  mine ≡ₚ mine' -> fixed_owns ar mine others -> fixed_owns ar mine' others.
Proof. intros E (Hok & Hreg & Hin & Hcl). unfold fixed_owns. by rewrite <- E. Qed.

Lemma fixed_owns_drop ar r mine others : fixed_owns ar (r :: mine) others -> fixed_owns ar mine others.
Proof.
  intros (Hok & Hreg & Hin & Hcl). cbn in Hreg. apply regions_ok_cons in Hreg as (_ & _ & Hreg).
  apply Forall_cons in Hin as [_ Hin]. by split_and!.
Qed.

Lemma fixed_resize_ok ar m p n mine others size alignment :
  fixed_owns ar ((p, n) :: mine) others -> 0 <= size < 2 ^ 64 -> valid_alignment alignment ->
  match coglet_rt_mem_fixed_arena_resize p n size alignment (ar, m) with
  | Done (q, (ar', m')) =>
      same_bytes (mine ++ others) m m' /\
      if size =? 0 then q = NULL /\ fixed_owns ar' mine others
      else (alignment | q) /\ fixed_owns ar' ((q, size) :: mine) others
           /\ forall i, 0 <= i < Z.min n size -> m' (q + i) = m (p + i)
  | OutOfMemory => True
  | Undefined => False
  end.
Proof.
  intros Ho Hs Ha. unfold coglet_rt_mem_fixed_arena_resize.
  pose proof Ho as (_ & Hreg & _). cbn in Hreg. apply regions_ok_cons in Hreg as ((Hp0 & Hn & _) & _ & _).
  cbn in Hp0, Hn. destruct (Z.eqb_spec p NULL) as [E|_]; [unfold NULL in E; lia|].
  destruct (Z.eqb_spec size 0) as [->|Hz].
  { cbn. split_and!; [apply same_bytes_refl|done|by eapply fixed_owns_drop]. }
  pose proof (fixed_alloc_ok ar m _ others size alignment Ho Hs Ha) as Hrun.
  destruct (coglet_rt_mem_fixed_arena_alloc size alignment _) as [[q [ar1 m1]]| |] eqn:Hall;
    [|by rewrite (bind_fails _ _ _ Hall)|done].
  rewrite (bind_done _ _ _ _ _ Hall). destruct (Z.eqb_spec size 0) as [|_]; [done|].
  destruct Hrun as (-> & Hq & Ho1). pose proof Ho1 as (_ & Hreg1 & _).
  apply regions_ok_cons in Hreg1 as (_ & Hclq & _). apply Forall_cons in Hclq as [Hqp Hclq].
  assert (Hk : (if n <? size then n else size) = Z.min n size) by (destruct (Z.ltb_spec n size); lia). rewrite Hk.
  erewrite bind_done.
  2:{ apply memcpy_run. right. unfold disjoint_regions in *. cbn in *. lia. }
  cbn. split_and!; [|done|eapply fixed_owns_drop, fixed_owns_perm, Ho1; apply perm_swap|].
  - apply same_bytes_memcpy. eapply clear_of_inside; [|exact Hclq]. unfold inside. cbn. lia.
  - intros i Hi. by apply memcpy_copies.
Qed.

#[global] Instance fixed_arena_lawful : LawfulAllocator fixed_arena_allocator.
Proof.
  refine {| owns := fixed_owns |}.
  - by intros s mine others (_ & ? & _).
  - intros s mine mine' others. apply fixed_owns_perm.
  - intros ar m mine others size alignment Ho Hs Ha. cbn.
    pose proof (fixed_alloc_ok ar m mine others size alignment Ho Hs Ha) as Hrun.
    destruct (coglet_rt_mem_fixed_arena_alloc _ _ _) as [[p [ar' m']]| |]; [|done|done].
    destruct Hrun as [-> Hrun]. split; [apply same_bytes_refl|done].
  - intros ar m p size mine others alignment Ho _. exists ar, m.
    split_and!; [done|apply same_bytes_refl|by eapply fixed_owns_drop].
  - done.
  - intros ar m p old_size mine others size alignment Ho Hs Ha. cbn. by apply fixed_resize_ok.
  - done.
Defined.

(** ** The life of an arena *)

(** Where the next multiple of 8 is in the address space, creation succeeds iff the arena's
    state fits in the buffer, and the data is the rest of the buffer. *)
Lemma fixed_create_ok buffer buffer_size others :
  0 < buffer <= 2 ^ 64 - 8 -> 0 < buffer_size < 2 ^ 64 -> regions_ok others -> clear_of (buffer, buffer_size) others ->
  match coglet_rt_mem_fixed_arena_create buffer buffer_size with
  | Done (a, ar) =>
      (8 | a) /\ inside (a, FIXED_ARENA_SIZE) (buffer, buffer_size)
      /\ fixed_data ar = a + FIXED_ARENA_SIZE /\ fixed_data ar + fixed_capacity ar = buffer + buffer_size
      /\ fixed_used ar = 0 /\ fixed_owns ar [] others
  | OutOfMemory =>
      2 ^ 64 <= buffer + buffer_size \/
      forall a, (8 | a) -> buffer <= a -> buffer + buffer_size < a + FIXED_ARENA_SIZE
  | Undefined => False
  end.
Proof.
  intros Hb Hn Hreg Hcl. unfold coglet_rt_mem_fixed_arena_create, NULL.
  destruct (Z.eqb_spec buffer 0); [lia|]. destruct (Z.eqb_spec buffer_size 0); [lia|]. cbn [orb].
  unfold UINT64_MAX. destruct (Z.ltb_spec (2 ^ 64 - 1 - buffer_size) buffer); [left; lia|].
  rewrite (u64_small (buffer + buffer_size)) by lia. unfold coglet_rt_mem_fixed_arena_alignment, FIXED_ARENA_SIZE.
  assert (H8 : valid_alignment 8) by by exists 3.
  pose proof (align_up_divides buffer 8 H8) as Hd.
  assert (Hq : buffer <= coglet_rt_align_up_uintptr buffer 8 /\
               forall q, (8 | q) -> buffer <= q -> coglet_rt_align_up_uintptr buffer 8 <= q).
  { pose proof (align_up_small buffer 8 H8 ltac:(lia)) as Hq. specialize (Hq ltac:(lia)).
    split; [lia|]. intros q [y ->] Hle. destruct Hd as [z E]. rewrite E in *. lia. }
  destruct Hq as [Hq Hleast]. set (a := coglet_rt_align_up_uintptr buffer 8) in *. clearbody a.
  destruct (Z.ltb_spec (buffer + buffer_size) a); cbn [orb].
  { right. intros q Hq' Hle. specialize (Hleast q Hq' Hle). lia. }
  rewrite (u64_small (buffer + buffer_size - a)) by lia.
  destruct (Z.ltb_spec (buffer + buffer_size - a) 24).
  { right. intros q Hq' Hle. specialize (Hleast q Hq' Hle). lia. }
  rewrite (u64_small (a + 24)) by lia. destruct (Z.ltb_spec (buffer + buffer_size) (a + 24)); [lia|].
  rewrite u64_small by lia. unfold inside. cbn. split_and!; [done|lia|lia|done|lia|done|].
  split_and!; cbn; [constructor; cbn; lia|done|constructor|].
  eapply clear_of_inside; [|exact Hcl]. unfold inside. cbn. lia.
Qed.

(** A reset takes back everything, and the whole of the data is free again. *)
Lemma fixed_reset_ok ar m mine others :
  fixed_owns ar mine others ->
  exists ar', coglet_rt_mem_fixed_arena_reset (ar, m) = Done (tt, (ar', m)) /\ fixed_owns ar' [] others
    /\ coglet_rt_mem_fixed_arena_remaining ar' = fixed_capacity ar.
Proof.
  intros ([H1 H2 H3] & Hreg & _ & Hcl). apply regions_ok_app in Hreg as (_ & Hreg & _).
  exists (set_fixed_used 0 ar). split; [done|]. split.
  - split_and!; [constructor; cbn; lia|done|constructor|done].
  - unfold coglet_rt_mem_fixed_arena_remaining. cbn. destruct (Z.ltb_spec (fixed_capacity ar) 0); lia.
Qed.

(** At the very end of the address space, the round-up wraps to 0 and creation succeeds there. *)
Example fixed_create_wraps :
  coglet_rt_mem_fixed_arena_create (2 ^ 64 - 4) 2 = Done (0, mkFixedArena 24 (2 ^ 64 - 26) 0).
Proof. reflexivity. Qed.
