(* ===== verification/RuntimeDebug.v ===== *)
(** The debugging allocator of the run-time library ([src/stdlib/runtime/coglet_runtime_mem.c]).

    It allocates from any parent, and puts a record before and guard bytes on both sides of
    what it hands out.  The list of records is the state, its head first; the address of a
    record is where the parent's block starts.  What it prints on standard error is a list of
    [Report]s, the last one first. *)
From S2P Require Import Prelude RuntimeMemory.

Definition GUARD_SIZE : Z := 16.
Definition GUARD_BYTE : Z := 165.  (* 0xA5 *)
Definition ALLOC_BYTE : Z := 205.  (* 0xCD *)
Definition FREE_BYTE : Z := 221.   (* 0xDD *)

Record CogletRuntimeDebugBlock : Set := mkDebugBlock {
  record_address : Pointer;
  user : Pointer;
  user_size : Z;
  user_alignment : Z;
  total_size : Z;
  parent_alignment : Z;
  block_id : Z;
}.

Inductive Report : Set :=
| GuardCorruption (id : Z) (underflow overflow : bool) (size : Z) (pointer : Pointer)
| InvalidFree (pointer : Pointer)
| MismatchedLayout (id expected_size expected_alignment size alignment : Z)
| InvalidResize (pointer : Pointer)
| WrongOldSize (id expected size : Z)
| LiveAllocations (allocations bytes : Z)
| Leak (id size alignment : Z) (pointer : Pointer).

Record CogletRuntimeDebugAllocator : Set := mkDebug {
  debug_address : Pointer;
  debug_blocks : list CogletRuntimeDebugBlock;
  next_id : Z;
  live_allocations : Z;
  live_bytes : Z;
  total_allocations : Z;
  total_bytes : Z;
  error_count : Z;
  reports : list Report;
}.

(** [sizeof(CogletRuntimeDebugBlock)] and [sizeof(CogletRuntimeDebugAllocator)] *)
Definition DEBUG_BLOCK_SIZE : Z := 56.
Definition DEBUG_SIZE : Z := 88.

(** The offset of each structure behind one character. *)
Definition coglet_rt_mem_debug_block_alignment : Z := 8.
Definition coglet_rt_mem_debug_state_alignment : Z := 8.

Definition set_debug_blocks (bs : list CogletRuntimeDebugBlock) (d : CogletRuntimeDebugAllocator) :=
  mkDebug (debug_address d) bs (next_id d) (live_allocations d) (live_bytes d) (total_allocations d)
          (total_bytes d) (error_count d) (reports d).

(** [++debug->error_count] and the message *)
Definition add_error (r : Report) (d : CogletRuntimeDebugAllocator) :=
  mkDebug (debug_address d) (debug_blocks d) (next_id d) (live_allocations d) (live_bytes d)
          (total_allocations d) (total_bytes d) (u64 (error_count d + 1)) (r :: reports d).

Definition add_reports (rs : list Report) (d : CogletRuntimeDebugAllocator) :=
  mkDebug (debug_address d) (debug_blocks d) (next_id d) (live_allocations d) (live_bytes d)
          (total_allocations d) (total_bytes d) (error_count d) (rs ++ reports d).

Definition count_allocation (size : Z) (d : CogletRuntimeDebugAllocator) :=
  mkDebug (debug_address d) (debug_blocks d) (next_id d) (u64 (live_allocations d + 1))
          (u64 (live_bytes d + size)) (u64 (total_allocations d + 1)) (u64 (total_bytes d + size))
          (error_count d) (reports d).

Definition count_free (size : Z) (d : CogletRuntimeDebugAllocator) :=
  mkDebug (debug_address d) (debug_blocks d) (next_id d) (u64 (live_allocations d - 1))
          (u64 (live_bytes d - size)) (total_allocations d) (total_bytes d) (error_count d) (reports d).

(** The record goes to the head of the list; the block is [++next_id]'s. *)
Definition push_block (b : CogletRuntimeDebugBlock) (d : CogletRuntimeDebugAllocator) :=
  mkDebug (debug_address d) (b :: debug_blocks d) (u64 (next_id d + 1)) (live_allocations d) (live_bytes d)
          (total_allocations d) (total_bytes d) (error_count d) (reports d).

(** ** Guards *)

Definition coglet_rt_mem_debug_front_guard (b : CogletRuntimeDebugBlock) : Pointer := user b - GUARD_SIZE.
Definition coglet_rt_mem_debug_back_guard (b : CogletRuntimeDebugBlock) : Pointer := user b + user_size b.

Definition coglet_rt_mem_debug_guard_intact (m : Bytes) (guard : Pointer) : bool :=
  forallb (fun i => m (guard + i) =? GUARD_BYTE) (seqZ 0 GUARD_SIZE).

Definition coglet_rt_mem_debug_block_intact (m : Bytes) (b : CogletRuntimeDebugBlock) : bool :=
  coglet_rt_mem_debug_guard_intact m (coglet_rt_mem_debug_front_guard b)
  && coglet_rt_mem_debug_guard_intact m (coglet_rt_mem_debug_back_guard b).

(** The block whose user address is given, and the list without it. *)
Fixpoint coglet_rt_mem_debug_find (pointer : Pointer) (bs : list CogletRuntimeDebugBlock)
    : option (CogletRuntimeDebugBlock * list CogletRuntimeDebugBlock) :=
  match bs with
  | [] => None
  | b :: bs =>
      if user b =? pointer then Some (b, bs)
      else match coglet_rt_mem_debug_find pointer bs with
           | Some (b', bs') => Some (b', b :: bs')
           | None => None
           end
  end.

Section Debug.
Context {St : Type} (parent : Allocator St).

Notation D := (R (CogletRuntimeDebugAllocator * St)).

Definition get_debug : D CogletRuntimeDebugAllocator := s ← get_state; mret s.1.
Definition on_debug (f : CogletRuntimeDebugAllocator -> CogletRuntimeDebugAllocator) : D unit :=
  s ← get_state; put_state (f s.1, s.2).

Definition get_bytes : D Bytes := fun w => Done (w.2, w).

Definition coglet_rt_mem_debug_report_corruption (b : CogletRuntimeDebugBlock) : D unit :=
  m ← get_bytes;
  let front_ok := coglet_rt_mem_debug_guard_intact m (coglet_rt_mem_debug_front_guard b) in
  let back_ok := coglet_rt_mem_debug_guard_intact m (coglet_rt_mem_debug_back_guard b) in
  if front_ok && back_ok then mret tt
  else on_debug (add_error (GuardCorruption (block_id b) (negb front_ok) (negb back_ok) (user_size b) (user b))).

Definition coglet_rt_mem_debug_allocate_internal (size alignment : Z) : D Pointer :=
  if size =? 0 then mret NULL
  else
    alignment ← coglet_rt_mem_checked_alignment alignment;
    let block_alignment := coglet_rt_mem_debug_block_alignment in
    let block_alignment := if block_alignment <? POINTER_SIZE then POINTER_SIZE else block_alignment in
    let prefix := DEBUG_BLOCK_SIZE + GUARD_SIZE in
    if (SIZE_MAX - (alignment - 1) <? prefix) || (SIZE_MAX - size <? prefix + alignment - 1)
       || (SIZE_MAX - GUARD_SIZE <? prefix + alignment - 1 + size)
    then coglet_rt_mem_fail
    else
      let total := u64 (prefix + alignment - 1 + size + GUARD_SIZE) in
      raw ← call_parent (allocate parent total block_alignment);
      if raw =? NULL then coglet_rt_mem_fail
      else
        let first_user := u64 (raw + DEBUG_BLOCK_SIZE + GUARD_SIZE) in
        let user := coglet_rt_align_up_uintptr first_user alignment in
        d ← get_debug;
        on_debug (push_block (mkDebugBlock raw user size alignment total block_alignment (next_id d))) ;;
        memset (user - GUARD_SIZE) GUARD_BYTE GUARD_SIZE ;;
        memset user ALLOC_BYTE size ;;
        memset (user + size) GUARD_BYTE GUARD_SIZE ;;
        on_debug (count_allocation size) ;;
        mret user.

Definition coglet_rt_mem_debug_create : R St CogletRuntimeDebugAllocator :=
  let state_alignment := coglet_rt_mem_debug_state_alignment in
  let state_alignment := if state_alignment <? POINTER_SIZE then POINTER_SIZE else state_alignment in
  debug ← allocate parent DEBUG_SIZE state_alignment;
  if debug =? NULL then coglet_rt_mem_fail
  else mret (mkDebug debug [] 1 0 0 0 0 0 []).

Definition coglet_rt_mem_debug_alloc (size alignment : Z) : D Pointer :=
  coglet_rt_mem_debug_allocate_internal size alignment.

(** The comparison evaluates the second operand of [||] only if the sizes agree. *)
Definition layout_differs (b : CogletRuntimeDebugBlock) (size alignment : Z) : D bool :=
  if negb (size =? user_size b) then mret true
  else checked ← coglet_rt_mem_checked_alignment alignment; mret (negb (checked =? user_alignment b)).

Definition coglet_rt_mem_debug_free (pointer : Pointer) (size alignment : Z) : D unit :=
  if pointer =? NULL then mret tt
  else
    d ← get_debug;
    match coglet_rt_mem_debug_find pointer (debug_blocks d) with
    | None => on_debug (add_error (InvalidFree pointer))
    | Some (b, rest) =>
        differs ← layout_differs b size alignment;
        (if (differs : bool)
         then on_debug (add_error (MismatchedLayout (block_id b) (user_size b) (user_alignment b) size alignment))
         else mret tt) ;;
        coglet_rt_mem_debug_report_corruption b ;;
        memset (user b) FREE_BYTE (user_size b) ;;
        on_debug (set_debug_blocks rest) ;;
        on_debug (count_free (user_size b)) ;;
        call_parent (free parent (record_address b) (total_size b) (parent_alignment b))
    end.

Definition coglet_rt_mem_debug_resize (pointer : Pointer) (old_size new_size alignment : Z) : D Pointer :=
  if pointer =? NULL then coglet_rt_mem_debug_allocate_internal new_size alignment
  else if new_size =? 0 then coglet_rt_mem_debug_free pointer old_size alignment ;; mret NULL
  else
    d ← get_debug;
    match coglet_rt_mem_debug_find pointer (debug_blocks d) with
    | None => on_debug (add_error (InvalidResize pointer)) ;; mret NULL
    | Some (b, _) =>
        (if negb (old_size =? user_size b)
         then on_debug (add_error (WrongOldSize (block_id b) (user_size b) old_size))
         else mret tt) ;;
        resized ← coglet_rt_mem_debug_allocate_internal new_size alignment;
        if resized =? NULL then mret NULL
        else
          memcpy resized pointer (if user_size b <? new_size then user_size b else new_size) ;;
          coglet_rt_mem_debug_free pointer (user_size b) (user_alignment b) ;;
          mret resized
    end.

Definition coglet_rt_mem_debug_check (d : CogletRuntimeDebugAllocator) (m : Bytes) : bool :=
  forallb (coglet_rt_mem_debug_block_intact m) (debug_blocks d).

Definition coglet_rt_mem_debug_live_allocations (d : CogletRuntimeDebugAllocator) : Z := live_allocations d.
Definition coglet_rt_mem_debug_live_bytes (d : CogletRuntimeDebugAllocator) : Z := live_bytes d.
Definition coglet_rt_mem_debug_total_allocations (d : CogletRuntimeDebugAllocator) : Z := total_allocations d.
Definition coglet_rt_mem_debug_total_bytes (d : CogletRuntimeDebugAllocator) : Z := total_bytes d.
Definition coglet_rt_mem_debug_error_count (d : CogletRuntimeDebugAllocator) : Z := error_count d.

Definition leak_of (b : CogletRuntimeDebugBlock) : Report :=
  Leak (block_id b) (user_size b) (user_alignment b) (user b).

Definition coglet_rt_mem_debug_report_leaks : D Z :=
  d ← get_debug;
  if live_allocations d =? 0 then mret 0
  else
    on_debug (add_reports (rev (LiveAllocations (live_allocations d) (live_bytes d) :: map leak_of (debug_blocks d)))) ;;
    mret (live_allocations d).

Fixpoint free_debug_blocks (bs : list CogletRuntimeDebugBlock) : D unit :=
  match bs with
  | [] => mret tt
  | b :: bs =>
      coglet_rt_mem_debug_report_corruption b ;;
      memset (user b) FREE_BYTE (user_size b) ;;
      call_parent (free parent (record_address b) (total_size b) (parent_alignment b)) ;;
      free_debug_blocks bs
  end.

Definition coglet_rt_mem_debug_destroy : D unit :=
  coglet_rt_mem_debug_report_leaks ;;
  d ← get_debug;
  free_debug_blocks (debug_blocks d) ;;
  let state_alignment := coglet_rt_mem_debug_state_alignment in
  let state_alignment := if state_alignment <? POINTER_SIZE then POINTER_SIZE else state_alignment in
  call_parent (free parent (debug_address d) DEBUG_SIZE state_alignment).

(** [std.heap.DebugAllocator.allocator] *)
Definition debug_allocator : Allocator (CogletRuntimeDebugAllocator * St) :=
  mkAllocator coglet_rt_mem_debug_alloc coglet_rt_mem_debug_resize coglet_rt_mem_debug_free.

(** ** The allocator's promise *)

Context `{!LawfulAllocator parent}.

Definition record_region (b : CogletRuntimeDebugBlock) : Region := (record_address b, total_size b).
Definition user_region (b : CogletRuntimeDebugBlock) : Region := (user b, user_size b).

(** What the debugging allocator has from its parent. *)
Definition debug_internals (d : CogletRuntimeDebugAllocator) : list Region :=
  (debug_address d, DEBUG_SIZE) :: (record_region <$> debug_blocks d).

(** The record, the front guard, the user's bytes and the back guard lie in one block. *)
Record debug_block_ok (b : CogletRuntimeDebugBlock) : Prop := {
  block_region_ok : region_ok (record_region b);
  block_size_ok : 0 < user_size b;
  block_front : record_address b + DEBUG_BLOCK_SIZE + GUARD_SIZE <= user b;
  block_back : user b + user_size b + GUARD_SIZE <= record_address b + total_size b;
  block_alignment_ok : valid_alignment (user_alignment b) /\ POINTER_SIZE <= user_alignment b;
  block_parent : parent_alignment b = POINTER_SIZE;
}.

Definition sum_sizes (bs : list CogletRuntimeDebugBlock) : Z := foldr (fun b n => user_size b + n) 0 bs.

Record debug_ok (d : CogletRuntimeDebugAllocator) : Prop := {
  debug_blocks_ok : Forall debug_block_ok (debug_blocks d);
  debug_count : live_allocations d = u64 (Z.of_nat (length (debug_blocks d)));
  debug_size : live_bytes d = u64 (sum_sizes (debug_blocks d));
}.

Definition debug_owns (st : CogletRuntimeDebugAllocator * St) (mine others : list Region) : Prop :=
  owns st.2 (debug_internals st.1) others /\ debug_ok st.1 /\ mine ≡ₚ user_region <$> debug_blocks st.1.

Definition front_guard (b : CogletRuntimeDebugBlock) : Region := (coglet_rt_mem_debug_front_guard b, GUARD_SIZE).
Definition back_guard (b : CogletRuntimeDebugBlock) : Region := (coglet_rt_mem_debug_back_guard b, GUARD_SIZE).

Lemma block_parts b :
  debug_block_ok b ->
  inside (user_region b) (record_region b) /\ inside (front_guard b) (record_region b)
  /\ inside (back_guard b) (record_region b) /\ region_ok (user_region b).
Proof.
  intros [(H1 & H2 & H3) H4 H5 H6 _ _]. unfold inside, region_ok, user_region, record_region, front_guard, back_guard,
    coglet_rt_mem_debug_front_guard, coglet_rt_mem_debug_back_guard, DEBUG_BLOCK_SIZE, GUARD_SIZE in *. cbn in *. lia.
Qed.

(** ** Regions of the allocator *)

Lemma user_regions_ok bs :
  Forall debug_block_ok bs -> regions_ok (record_region <$> bs) -> regions_ok (user_region <$> bs).
Proof.
  induction 1 as [|b bs Hb Hbs IH]; cbn; [done|]. intros (_ & Hc & Hr)%regions_ok_cons.
  apply regions_ok_cons. destruct (block_parts b Hb) as (Hi & _ & _ & Hok). split_and!; [done| |by apply IH].
  apply Forall_forall. intros r (x & -> & Hx)%list_elem_of_fmap.
  eapply Forall_forall in Hc; [|by apply (list_elem_of_fmap_2 record_region)].
  eapply Forall_forall in Hbs; [|exact Hx]. destruct (block_parts x Hbs) as (Hix & _).
  eapply disjoint_inside; [exact Hi|]. apply disjoint_regions_sym. eapply disjoint_inside; [exact Hix|].
  by apply disjoint_regions_sym.
Qed.

Lemma debug_region_inside d r :
  debug_ok d -> r ∈ user_region <$> debug_blocks d -> exists r', r' ∈ debug_internals d /\ inside r r'.
Proof.
  intros Hok (b & -> & Hb)%list_elem_of_fmap. exists (record_region b). split.
  - right. by apply list_elem_of_fmap_2.
  - pose proof (debug_blocks_ok d Hok) as Hall. eapply Forall_forall in Hall; [|exact Hb].
    by destruct (block_parts b Hall).
Qed.

Lemma debug_owns_regions st mine others : debug_owns st mine others -> regions_ok (mine ++ others).
Proof.
  intros (Ho & Hok & Hm). pose proof (owns_regions _ _ _ Ho) as Hr.
  apply regions_ok_app in Hr as (Hr & Hoth & Hcl). unfold debug_internals in Hr.
  apply regions_ok_cons in Hr as (_ & _ & Hr). apply regions_ok_app. rewrite Hm.
  split_and!; [apply user_regions_ok; [apply Hok|done]|done|].
  apply Forall_forall. intros r Hin. destruct (debug_region_inside _ _ Hok Hin) as (r' & Hin' & Hi).
  eapply Forall_forall in Hcl; [|exact Hin']. by eapply clear_of_inside.
Qed.

(** A block whose contents do not change by calls of the parent. *)
Lemma same_bytes_inside rs rs' m m' :
  (forall r, r ∈ rs -> exists r', r' ∈ rs' /\ inside r r') -> same_bytes rs' m m' -> same_bytes rs m m'.
Proof.
  intros Hin Hs r a Hr Ha. destruct (Hin r Hr) as (r' & Hr' & Hi). apply (Hs r' a Hr').
  apply within_true in Ha. apply within_true. unfold inside in Hi. lia.
Qed.

Lemma debug_same_bytes st mine others m m' :
  debug_owns st mine others -> same_bytes (debug_internals st.1 ++ others) m m' -> same_bytes (mine ++ others) m m'.
Proof.
  intros (Ho & Hok & Hm). apply same_bytes_inside. intros r [Hr|Hr]%elem_of_app.
  - rewrite Hm in Hr. destruct (debug_region_inside _ _ Hok Hr) as (r' & Hin & Hi). exists r'.
    split; [apply elem_of_app; by left|done].
  - exists r. split; [apply elem_of_app; by right|]. unfold inside. lia.
Qed.

(** ** Guards *)

Lemma guard_intact_true m g :
  coglet_rt_mem_debug_guard_intact m g = true <-> forall i, 0 <= i < GUARD_SIZE -> m (g + i) = GUARD_BYTE.
Proof.
  unfold coglet_rt_mem_debug_guard_intact. rewrite forallb_forall. split.
  - intros H i Hi. apply Z.eqb_eq, (H i), list_elem_of_In, elem_of_seqZ. lia.
  - intros H i Hi%list_elem_of_In%elem_of_seqZ. apply Z.eqb_eq, H. lia.
Qed.

Lemma block_intact_same b m m' :
  debug_block_ok b -> same_bytes [record_region b] m m' ->
  coglet_rt_mem_debug_block_intact m' b = coglet_rt_mem_debug_block_intact m b.
Proof.
  intros Hb Hs. destruct (block_parts b Hb) as (_ & Hf & Hk & _).
  assert (Hg : forall g, inside (g, GUARD_SIZE) (record_region b) ->
    coglet_rt_mem_debug_guard_intact m' g = coglet_rt_mem_debug_guard_intact m g).
  { intros g Hi. apply eq_true_iff_eq. rewrite !guard_intact_true.
    assert (E : forall i, 0 <= i < GUARD_SIZE -> m' (g + i) = m (g + i)).
    { intros i Hi'. apply (Hs (record_region b)); [by left|]. apply within_true. unfold inside in Hi. cbn in *. lia. }
    split; intros H i Hi'; specialize (H i Hi'); rewrite <- H; by rewrite E. }
  unfold coglet_rt_mem_debug_block_intact. by rewrite !Hg.
Qed.

Lemma check_same d m m' rs :
  Forall debug_block_ok (debug_blocks d) -> (forall b, b ∈ debug_blocks d -> record_region b ∈ rs) ->
  same_bytes rs m m' -> coglet_rt_mem_debug_check d m' = coglet_rt_mem_debug_check d m.
Proof.
  unfold coglet_rt_mem_debug_check. intros Hall Hin Hs. induction Hall as [|b bs Hb _ IH]; [done|]. cbn. f_equal.
  - apply block_intact_same; [done|]. eapply same_bytes_incl, Hs. intros r ->%list_elem_of_singleton.
    apply Hin. by left.
  - apply IH. intros x Hx. apply Hin. by right.
Qed.

(** ** Allocation *)

(** The bytes of a fresh block: a guard, the user's bytes and a guard. *)
Definition fill_block (b : CogletRuntimeDebugBlock) (m : Bytes) : Bytes :=
  memset_bytes (user b + user_size b) GUARD_BYTE GUARD_SIZE
    (memset_bytes (user b) ALLOC_BYTE (user_size b)
       (memset_bytes (user b - GUARD_SIZE) GUARD_BYTE GUARD_SIZE m)).

Lemma fill_block_same b m rs :
  debug_block_ok b -> clear_of (record_region b) rs -> same_bytes rs m (fill_block b m).
Proof.
  intros Hb Hc. destruct (block_parts b Hb) as (Hu & Hf & Hk & _).
  eapply same_bytes_trans; [|eapply same_bytes_trans]; apply same_bytes_memset; by eapply clear_of_inside.
Qed.

Lemma memset_at p byte n m a : memset_bytes p byte n m a = if decide (p <= a < p + n) then byte else m a.
Proof.
  unfold memset_bytes. destruct (decide _) as [H|H]; [by rewrite (proj2 (within_true p n a) H)|].
  destruct (within p n a) eqn:E; [by apply within_true in E|done].
Qed.

Lemma fill_block_intact b m :
  0 < user_size b -> coglet_rt_mem_debug_block_intact (fill_block b m) b = true
  /\ forall i, 0 <= i < user_size b -> fill_block b m (user b + i) = ALLOC_BYTE.
Proof.
  intros Hn. unfold fill_block, GUARD_SIZE. split.
  - unfold coglet_rt_mem_debug_block_intact. rewrite andb_true_iff, !guard_intact_true.
    unfold coglet_rt_mem_debug_front_guard, coglet_rt_mem_debug_back_guard, GUARD_SIZE.
    split; intros i Hi; rewrite !memset_at; repeat case_decide; done || lia.
  - intros i Hi. rewrite !memset_at; repeat case_decide; done || lia.
Qed.

Lemma alloc_state d b size :
  debug_ok d -> debug_block_ok b -> user_size b = size -> debug_ok (count_allocation size (push_block b d)).
Proof.
  intros [H1 H2 H3] Hb <-. constructor; cbn; [by constructor| |].
  - rewrite H2. unfold u64. rewrite Zplus_mod_idemp_l. f_equal. lia.
  - rewrite H3. unfold u64. rewrite Zplus_mod_idemp_l. f_equal. fold (sum_sizes (debug_blocks d)). lia.
Qed.

Lemma debug_alloc_run d s m others size alignment :
  owns s (debug_internals d) others -> debug_ok d -> 0 < size < 2 ^ 64 -> valid_alignment alignment ->
  match coglet_rt_mem_debug_allocate_internal size alignment ((d, s), m) with
  | Done (p, ((d', s'), m')) =>
      exists b m1, p = user b /\ user_size b = size /\ user_alignment b = Z.max alignment POINTER_SIZE
        /\ (alignment | user b) /\ block_id b = next_id d /\ debug_block_ok b
        /\ d' = count_allocation size (push_block b d)
        /\ clear_of (record_region b) (debug_internals d ++ others)
        /\ same_bytes (debug_internals d ++ others) m m1 /\ m' = fill_block b m1
        /\ owns s' (debug_internals d') others
  | OutOfMemory => True
  | Undefined => False
  end.
Proof.
  intros Ho Hok Hs Ha. unfold coglet_rt_mem_debug_allocate_internal. destruct (Z.eqb_spec size 0); [lia|].
  rewrite bind_checked_alignment by done. destruct (max_alignment alignment Ha) as [Hm Hdiv].
  set (al := Z.max alignment POINTER_SIZE) in *. assert (Hal : POINTER_SIZE <= al) by (unfold al; lia). clearbody al.
  pose proof (valid_alignment_bound al Hm). cbn zeta.
  change (if coglet_rt_mem_debug_block_alignment <? POINTER_SIZE then POINTER_SIZE
          else coglet_rt_mem_debug_block_alignment) with POINTER_SIZE.
  destruct (_ || _) eqn:Hg; [done|]. apply orb_false_iff in Hg as [Hg Hg3]. apply orb_false_iff in Hg as [Hg1 Hg2].
  unfold SIZE_MAX, UINT64_MAX, DEBUG_BLOCK_SIZE, GUARD_SIZE in Hg1, Hg2, Hg3. to_props.
  set (total := u64 _). assert (Ht : total = 56 + 16 + al - 1 + size + 16).
  { unfold total, DEBUG_BLOCK_SIZE, GUARD_SIZE. apply u64_small. lia. } clearbody total.
  rewrite bind_call_parent.
  pose proof (allocate_ok s m _ others total POINTER_SIZE Ho ltac:(lia) ltac:(by exists 3)) as Hrun.
  destruct (allocate parent total POINTER_SIZE (s, m)) as [[raw [s' m1]]| |]; [|done|done].
  destruct Hrun as [Hsame Hrun]. destruct (Z.eqb_spec total 0); [lia|]. destruct Hrun as [_ Ho'].
  destruct (Z.eqb_spec raw NULL); [done|].
  pose proof (owns_regions _ _ _ Ho') as Hreg. apply regions_ok_cons in Hreg as ((Hr1 & Hr2 & Hr3) & Hcl & _).
  cbn in Hr1, Hr2, Hr3. unfold DEBUG_BLOCK_SIZE, GUARD_SIZE. rewrite (u64_small (raw + 56 + 16)) by lia.
  pose proof (align_up_divides (raw + 56 + 16) al Hm) as Hd.
  pose proof (align_up_small (raw + 56 + 16) al Hm ltac:(lia) ltac:(lia)) as Hup.
  set (u := coglet_rt_align_up_uintptr _ _) in *. clearbody u.
  run_steps. unfold get_debug, on_debug, memset. run_steps.
  set (b := mkDebugBlock raw u size al total POINTER_SIZE (next_id d)).
  assert (Hb : debug_block_ok b).
  { constructor; cbn; unfold DEBUG_BLOCK_SIZE, GUARD_SIZE; try lia; try done. }
  exists b, m1. split_and!; try done.
  - by etrans.
  - eapply owns_perm; [|exact Ho']. unfold debug_internals. cbn. apply perm_swap.
Qed.

Lemma debug_alloc_ok d s m mine others size alignment :
  debug_owns (d, s) mine others -> 0 <= size < 2 ^ 64 -> valid_alignment alignment ->
  match coglet_rt_mem_debug_alloc size alignment ((d, s), m) with
  | Done (p, (st', m')) =>
      same_bytes (mine ++ others) m m' /\
      if size =? 0 then p = NULL /\ debug_owns st' mine others
      else (alignment | p) /\ debug_owns st' ((p, size) :: mine) others
  | OutOfMemory => True
  | Undefined => False
  end.
Proof.
  intros Hown Hs Ha. unfold coglet_rt_mem_debug_alloc. destruct (Z.eqb_spec size 0) as [->|Hz].
  { cbn. split; [apply same_bytes_refl|done]. }
  pose proof Hown as (Ho & Hok & Hm). cbn in Ho, Hok, Hm.
  pose proof (debug_alloc_run d s m others size alignment Ho Hok ltac:(lia) Ha) as Hrun.
  destruct (coglet_rt_mem_debug_allocate_internal _ _ _) as [[p [[d' s'] m']]| |]; [|done|done].
  destruct Hrun as (b & m1 & -> & Hsize & _ & Hdiv & _ & Hb & -> & Hcl & Hsame & -> & Ho').
  split_and!; [|done|split_and!; [exact Ho'|by apply alloc_state|]].
  - apply (debug_same_bytes _ _ _ _ _ Hown). eapply same_bytes_trans; [exact Hsame|]. by apply fill_block_same.
  - cbn. rewrite Hm. unfold user_region. by rewrite Hsize.
Qed.

(** ** Freeing *)

Lemma find_some p bs b rest :
  coglet_rt_mem_debug_find p bs = Some (b, rest) ->
  user b = p /\ exists l1 l2, bs = l1 ++ b :: l2 /\ rest = l1 ++ l2.
Proof.
  revert rest. induction bs as [|x bs IH]; intros rest; cbn; [done|].
  destruct (Z.eqb_spec (user x) p) as [E|E].
  - intros [= -> ->]. split; [done|]. by exists [], rest.
  - destruct (coglet_rt_mem_debug_find p bs) as [[b' bs']|]; [|done]. intros [= -> <-].
    destruct (IH bs' eq_refl) as (Hu & l1 & l2 & -> & ->). split; [done|]. by exists (x :: l1), l2.
Qed.

Lemma find_none p bs : coglet_rt_mem_debug_find p bs = None <-> Forall (fun b => user b <> p) bs.
Proof.
  induction bs as [|x bs IH]; cbn; [done|]. rewrite Forall_cons. destruct (Z.eqb_spec (user x) p) as [E|E].
  - split; [done|]. by intros [? _].
  - destruct (coglet_rt_mem_debug_find p bs) as [[b' bs']|]; [|by rewrite <- IH]. rewrite <- IH. naive_solver.
Qed.

(** Two regions in use that start at the same address are the same. *)
Lemma regions_start rs p n n' : regions_ok rs -> (p, n) ∈ rs -> (p, n') ∈ rs -> n = n'.
Proof.
  intros [Hall Hd] (i & Hi)%list_elem_of_lookup (j & Hj)%list_elem_of_lookup.
  destruct (decide (i = j)) as [->|Hne]; [congruence|].
  pose proof (Hd i j _ _ Hi Hj Hne) as H. eapply Forall_lookup_1 in Hi; [|exact Hall].
  eapply Forall_lookup_1 in Hj; [|exact Hall]. unfold region_ok, disjoint_regions in *. cbn in *. lia.
Qed.

(** The block of an allocation that is freed. *)
Lemma find_owned d s p n mine others :
  debug_owns (d, s) ((p, n) :: mine) others ->
  exists b rest, coglet_rt_mem_debug_find p (debug_blocks d) = Some (b, rest) /\ user_region b = (p, n)
    /\ debug_block_ok b /\ debug_blocks d ≡ₚ b :: rest /\ mine ≡ₚ user_region <$> rest.
Proof.
  intros Hown. pose proof (debug_owns_regions _ _ _ Hown) as Hreg. apply regions_ok_app in Hreg as (Hreg & _ & _).
  destruct Hown as (Ho & Hok & Hm). cbn in Ho, Hok, Hm.
  assert (Hin : (p, n) ∈ user_region <$> debug_blocks d) by (rewrite <- Hm; by left).
  destruct (coglet_rt_mem_debug_find p (debug_blocks d)) as [[b rest]|] eqn:Hf.
  - apply find_some in Hf as (Hu & l1 & l2 & E & ->). exists b, (l1 ++ l2).
    assert (Hb : user_region b = (p, n)).
    { unfold user_region. rewrite Hu. f_equal. rewrite Hm in Hreg.
      apply (regions_start (user_region <$> debug_blocks d) p); [done| |done].
      rewrite E, <- Hu. apply (list_elem_of_fmap_2 user_region). apply elem_of_app. right. by left. }
    assert (Hp : debug_blocks d ≡ₚ b :: l1 ++ l2) by (rewrite E; symmetry; apply Permutation_middle).
    split_and!; [done|done| |done|].
    + pose proof (debug_blocks_ok d Hok) as Hall. rewrite E in Hall. apply Forall_app in Hall as [_ Hall]. by inversion Hall.
    + rewrite Hp in Hm. cbn in Hm. rewrite Hb in Hm. by apply Permutation_cons_inv in Hm.
  - exfalso. apply find_none in Hf. apply list_elem_of_fmap in Hin as (b & E & Hb).
    rewrite Forall_forall in Hf. apply (Hf b Hb). by injection E.
Qed.

(** The reports of a free, the last one first. *)
Definition free_reports (m : Bytes) (b : CogletRuntimeDebugBlock) (size alignment : Z) : list Report :=
  (if coglet_rt_mem_debug_block_intact m b then []
   else [GuardCorruption (block_id b)
           (negb (coglet_rt_mem_debug_guard_intact m (coglet_rt_mem_debug_front_guard b)))
           (negb (coglet_rt_mem_debug_guard_intact m (coglet_rt_mem_debug_back_guard b)))
           (user_size b) (user b)])
  ++ (if (size =? user_size b) && (Z.max alignment POINTER_SIZE =? user_alignment b) then []
      else [MismatchedLayout (block_id b) (user_size b) (user_alignment b) size alignment]).

(** The state after a free. *)
Definition freed (rest : list CogletRuntimeDebugBlock) (b : CogletRuntimeDebugBlock) (found : list Report)
    (d : CogletRuntimeDebugAllocator) : CogletRuntimeDebugAllocator :=
  count_free (user_size b) (set_debug_blocks rest (foldr add_error d found)).

Lemma report_corruption_run b d s m :
  coglet_rt_mem_debug_report_corruption b ((d, s), m) =
  Done (tt, ((if coglet_rt_mem_debug_block_intact m b then d
              else add_error (GuardCorruption (block_id b)
                (negb (coglet_rt_mem_debug_guard_intact m (coglet_rt_mem_debug_front_guard b)))
                (negb (coglet_rt_mem_debug_guard_intact m (coglet_rt_mem_debug_back_guard b)))
                (user_size b) (user b)) d, s), m)).
Proof.
  unfold coglet_rt_mem_debug_report_corruption, coglet_rt_mem_debug_block_intact, get_bytes, on_debug. run_steps.
  by destruct (_ && _).
Qed.

Lemma debug_free_run d s m b rest p size alignment :
  p <> NULL -> coglet_rt_mem_debug_find p (debug_blocks d) = Some (b, rest) -> valid_alignment alignment ->
  coglet_rt_mem_debug_free p size alignment ((d, s), m) =
  call_parent (free parent (record_address b) (total_size b) (parent_alignment b))
    ((freed rest b (free_reports m b size alignment) d, s), memset_bytes (user b) FREE_BYTE (user_size b) m).
Proof.
  intros Hp Hf Ha. unfold coglet_rt_mem_debug_free. destruct (Z.eqb_spec p NULL); [done|].
  rewrite (bind_done get_debug _ _ d ((d, s), m)) by done. rewrite Hf.
  set (good := (size =? user_size b) && (Z.max alignment POINTER_SIZE =? user_alignment b)).
  rewrite (bind_done (layout_differs b size alignment) _ _ (negb good) ((d, s), m)).
  2:{ unfold layout_differs, good. destruct (size =? user_size b); [|done]. cbn [negb andb].
      by rewrite bind_checked_alignment. }
  rewrite (bind_done _ _ _ tt ((if good then d
    else add_error (MismatchedLayout (block_id b) (user_size b) (user_alignment b) size alignment) d, s), m))
    by by destruct good.
  rewrite (bind_done _ _ _ _ _ (report_corruption_run b _ s m)).
  unfold memset, on_bytes, on_debug. run_steps. unfold freed, free_reports. fold good.
  by destruct (coglet_rt_mem_debug_block_intact m b), good.
Qed.

Lemma debug_blocks_errors d found : debug_blocks (foldr add_error d found) = debug_blocks d
  /\ debug_address (foldr add_error d found) = debug_address d
  /\ live_allocations (foldr add_error d found) = live_allocations d
  /\ live_bytes (foldr add_error d found) = live_bytes d
  /\ reports (foldr add_error d found) = found ++ reports d.
Proof. induction found as [|r found (H1 & H2 & H3 & H4 & H5)]; cbn; [done|]. by rewrite H5. Qed.

Lemma sum_sizes_perm bs bs' : bs ≡ₚ bs' -> sum_sizes bs = sum_sizes bs'.
Proof. unfold sum_sizes. induction 1; cbn in *; lia. Qed.

Lemma freed_ok d b rest found :
  debug_ok d -> debug_blocks d ≡ₚ b :: rest -> debug_ok (freed rest b found d).
Proof.
  intros [H1 H2 H3] Hp. destruct (debug_blocks_errors d found) as (E1 & E2 & E3 & E4 & _).
  constructor; cbn.
  - rewrite Hp in H1. by inversion H1.
  - rewrite E3, H2, Hp. unfold u64. rewrite Zminus_mod_idemp_l. f_equal. cbn [length]. lia.
  - rewrite E4, H3, (sum_sizes_perm _ _ Hp). unfold u64. rewrite Zminus_mod_idemp_l. f_equal. cbn. lia.
Qed.

Lemma debug_free_ok d s m p n mine others alignment :
  debug_owns (d, s) ((p, n) :: mine) others -> valid_alignment alignment ->
  exists b rest s' m', coglet_rt_mem_debug_find p (debug_blocks d) = Some (b, rest) /\ user_region b = (p, n)
    /\ let d' := freed rest b (free_reports m b n alignment) d in
       coglet_rt_mem_debug_free p n alignment ((d, s), m) = Done (tt, ((d', s'), m'))
       /\ same_bytes (debug_internals d' ++ others) m m' /\ debug_owns (d', s') mine others.
Proof.
  intros Hown Ha. destruct (find_owned _ _ _ _ _ _ Hown) as (b & rest & Hf & Hb & Hbok & Hp & Hm).
  pose proof Hown as (Ho & Hok & _). cbn in Ho, Hok. cbn zeta.
  destruct (block_parts b Hbok) as (Hi & _ & _ & Hreg). rewrite Hb in Hreg. destruct Hreg as (Hp0 & _).
  cbn in Hp0. set (d' := freed rest b (free_reports m b n alignment) d).
  assert (Ed : debug_internals d' = (debug_address d, DEBUG_SIZE) :: (record_region <$> rest)).
  { unfold debug_internals, d', freed. cbn. by destruct (debug_blocks_errors d (free_reports m b n alignment)) as (_ & -> & _). }
  assert (Ho' : owns s (record_region b :: debug_internals d') others).
  { eapply owns_perm; [|exact Ho]. rewrite Ed. unfold debug_internals. rewrite Hp. cbn. apply perm_swap. }
  pose proof (owns_regions _ _ _ Ho') as Hreg. apply regions_ok_cons in Hreg as (_ & Hcl & _).
  destruct (free_ok s (memset_bytes (user b) FREE_BYTE (user_size b) m) _ _ _ _ POINTER_SIZE Ho' ltac:(by exists 3))
    as (s' & m' & Hfree & Hsame & Ho2).
  exists b, rest, s', m'. split_and!; [done|done| | |].
  - rewrite (debug_free_run d s m b rest p n alignment) by (done || (unfold NULL; lia)).
    unfold call_parent. cbn [fst snd]. rewrite (block_parent b Hbok), Hfree. done.
  - eapply same_bytes_trans; [|exact Hsame]. apply same_bytes_memset. eapply clear_of_inside; [exact Hi|exact Hcl].
  - split_and!; [exact Ho2|by apply freed_ok|exact Hm].
Qed.

Lemma debug_owns_perm st mine mine' others : mine ≡ₚ mine' -> debug_owns st mine others -> debug_owns st mine' others.
Proof. intros E (Ho & Hok & Hm). unfold debug_owns. by rewrite <- E. Qed.

(** A resize allocates, copies and frees. *)
Lemma debug_resize_run d s m p n mine others size alignment :
  debug_owns (d, s) ((p, n) :: mine) others -> 0 < size < 2 ^ 64 -> valid_alignment alignment ->
  match coglet_rt_mem_debug_resize p n size alignment ((d, s), m) with
  | Done (q, (st', m')) =>
      exists b rest b1 m1 m2, coglet_rt_mem_debug_find p (debug_blocks d) = Some (b, rest) /\ user_region b = (p, n)
        /\ q = user b1 /\ user_size b1 = size /\ user_alignment b1 = Z.max alignment POINTER_SIZE
        /\ (alignment | q) /\ debug_block_ok b1
        /\ same_bytes (debug_internals d ++ others) m m1
        /\ m2 = memcpy_bytes q p (Z.min n size) (fill_block b1 m1)
        /\ clear_of (record_region b1) (debug_internals d ++ others)
        /\ st'.1 = freed (b1 :: rest) b (free_reports m2 b n (user_alignment b)) (count_allocation size (push_block b1 d))
        /\ same_bytes (debug_internals st'.1 ++ others) m2 m' /\ debug_owns st' ((q, size) :: mine) others
  | OutOfMemory => True
  | Undefined => False
  end.
Proof.
  intros Hown Hs Ha. unfold coglet_rt_mem_debug_resize.
  destruct (find_owned _ _ _ _ _ _ Hown) as (b & rest & Hf & Hb & Hbok & Hp & Hm).
  pose proof Hown as (Ho & Hok & Hmine). cbn in Ho, Hok, Hmine.
  destruct (block_parts b Hbok) as (_ & _ & _ & Hreg). rewrite Hb in Hreg. destruct Hreg as (Hp0 & Hn0 & _).
  cbn in Hp0, Hn0. destruct (Z.eqb_spec p NULL) as [E|_]; [unfold NULL in E; lia|].
  destruct (Z.eqb_spec size 0); [lia|]. rewrite (bind_done get_debug _ _ d ((d, s), m)) by done. rewrite Hf.
  injection Hb as Hu Hn. rewrite Hn, Z.eqb_refl. cbn [negb].
  rewrite (bind_done _ _ _ tt ((d, s), m)) by done.
  pose proof (debug_alloc_run d s m others size alignment Ho Hok Hs Ha) as Hrun.
  destruct (coglet_rt_mem_debug_allocate_internal _ _ _) as [[q [[d1 s1] m1']]| |] eqn:Hall;
    [|by rewrite (bind_fails _ _ _ Hall)|done].
  rewrite (bind_done _ _ _ _ _ Hall).
  destruct Hrun as (b1 & m1 & -> & Hsize & Hal & Hdiv & _ & Hb1 & -> & Hcl & Hsame & -> & Ho1).
  destruct (block_parts b1 Hb1) as (Hi1 & _ & _ & (Hq0 & _)). cbn in Hq0.
  destruct (Z.eqb_spec (user b1) NULL) as [E|_]; [unfold NULL in E; lia|].
  assert (Hk : (if n <? size then n else size) = Z.min n size) by (destruct (Z.ltb_spec n size); lia). rewrite Hk.
  set (d1 := count_allocation size (push_block b1 d)) in *.
  assert (Hown1 : debug_owns (d1, s1) ((p, n) :: (user b1, size) :: mine) others).
  { split_and!; [exact Ho1|by apply alloc_state|]. cbn. etrans; [apply perm_swap|].
    unfold user_region at 1. rewrite Hsize. by apply perm_skip. }
  pose proof (debug_owns_regions _ _ _ Hown1) as Hreg1. apply regions_ok_cons in Hreg1 as (_ & Hclp & _).
  apply Forall_cons in Hclp as [Hpq _].
  erewrite bind_done.
  2:{ apply memcpy_run. right. unfold disjoint_regions in *. cbn in *. lia. }
  cbn [fst snd]. set (m2 := memcpy_bytes _ _ _ _).
  destruct (debug_free_ok d1 s1 m2 p n _ others (user_alignment b) Hown1 (proj1 (block_alignment_ok b Hbok)))
    as (b' & rest' & s2 & m3 & Hf' & Hb' & Hfree & Hsame2 & Ho2).
  assert (E : Some (b', rest') = Some (b, b1 :: rest)).
  { rewrite <- Hf'. cbn. destruct (Z.eqb_spec (user b1) p) as [E|_]; [|by rewrite Hf].
    unfold disjoint_regions in Hpq. cbn in Hpq. lia. }
  injection E as -> ->. rewrite (bind_done _ _ _ _ _ Hfree). cbn.
  exists b, rest, b1, m1, m2. by split_and!.
Qed.

Lemma debug_resize_ok d s m p n mine others size alignment :
  debug_owns (d, s) ((p, n) :: mine) others -> 0 <= size < 2 ^ 64 -> valid_alignment alignment ->
  match coglet_rt_mem_debug_resize p n size alignment ((d, s), m) with
  | Done (q, (st', m')) =>
      same_bytes (mine ++ others) m m' /\
      if size =? 0 then q = NULL /\ debug_owns st' mine others
      else (alignment | q) /\ debug_owns st' ((q, size) :: mine) others
           /\ forall i, 0 <= i < Z.min n size -> m' (q + i) = m (p + i)
  | OutOfMemory => True
  | Undefined => False
  end.
Proof.
  intros Hown Hs Ha. pose proof (debug_owns_regions _ _ _ Hown) as Hreg.
  apply regions_ok_cons in Hreg as ((Hp0 & _) & _ & _). cbn in Hp0. destruct (Z.eqb_spec size 0) as [->|Hz].
  { unfold coglet_rt_mem_debug_resize. destruct (Z.eqb_spec p NULL) as [E|_]; [unfold NULL in E; lia|]. cbn [Z.eqb].
    destruct (debug_free_ok d s m p n mine others alignment Hown Ha) as (b & rest & s' & m' & _ & _ & Hfree & Hsame & Ho').
    rewrite (bind_done _ _ _ _ _ Hfree). cbn. split; [|done].
    eapply debug_same_bytes; [exact Ho'|exact Hsame]. }
  pose proof (debug_resize_run d s m p n mine others size alignment Hown ltac:(lia) Ha) as Hrun.
  destruct (coglet_rt_mem_debug_resize _ _ _ _ _) as [[q [st' m']]| |]; [|done|done].
  destruct Hrun as (b & rest & b1 & m1 & m2 & _ & Hb & -> & Hsize & _ & Hdiv & Hb1 & Hsame & Em2 & Hcl & _ & Hsame2 & Ho').
  destruct (block_parts b1 Hb1) as (Hi1 & _ & _ & _).
  assert (Hq : clear_of (user b1, Z.min n size) (mine ++ others)).
  { pose proof (debug_owns_regions _ _ _ Ho') as Hreg. apply regions_ok_cons in Hreg as (_ & Hc & _).
    eapply clear_of_inside; [|exact Hc]. unfold inside. cbn. lia. }
  assert (Hp : clear_of (record_region b1) ((p, n) :: mine ++ others)).
  { apply Forall_forall. intros r Hr. pose proof Hown as (_ & Hok & Hm). cbn in Hok, Hm.
    rewrite app_comm_cons, elem_of_app, Hm in Hr. destruct Hr as [Hr|Hr].
    - destruct (debug_region_inside _ _ Hok Hr) as (r' & Hin & Hi). apply disjoint_regions_sym.
      eapply disjoint_inside; [exact Hi|]. apply disjoint_regions_sym. eapply Forall_forall in Hcl; [exact Hcl|].
      apply elem_of_app. by left.
    - eapply Forall_forall in Hcl; [exact Hcl|]. apply elem_of_app. by right. }
  assert (Hsame1 : same_bytes ((p, n) :: mine ++ others) m (fill_block b1 m1)).
  { eapply same_bytes_trans; [exact (debug_same_bytes _ _ _ _ _ Hown Hsame)|]. by apply fill_block_same. }
  split; [|split; [done|split; [done|]]].
  - eapply same_bytes_trans; [eapply same_bytes_incl, Hsame1; intros r; by right|].
    eapply same_bytes_trans; [apply same_bytes_memcpy, Hq|]. rewrite Em2 in Hsame2.
    eapply same_bytes_incl; [|exact (debug_same_bytes _ _ _ _ _ Ho' Hsame2)]. intros r Hr. by right.
  - intros i Hi. pose proof (debug_same_bytes _ _ _ _ _ Ho' Hsame2) as Hs2.
    rewrite (Hs2 (user b1, size)); [|by left|apply within_true; cbn; lia]. rewrite Em2, memcpy_copies by done.
    apply (Hsame1 (p, n)); [by left|]. apply within_true. cbn. lia.
Qed.

#[global] Instance debug_lawful : LawfulAllocator debug_allocator.
Proof.
  refine {| owns := debug_owns |}.
  - apply debug_owns_regions.
  - intros s mine mine' others. apply debug_owns_perm.
  - intros [d s] m mine others size alignment Ho Hs Ha. cbn. by apply debug_alloc_ok.
  - intros [d s] m p size mine others alignment Ho Ha. cbn.
    destruct (debug_free_ok d s m p size mine others alignment Ho Ha) as (b & rest & s' & m' & _ & _ & Hf & Hs & Ho').
    eexists _, m'. split_and!; [exact Hf|eapply debug_same_bytes; [exact Ho'|exact Hs]|exact Ho'].
  - done.
  - intros [d s] m p old_size mine others size alignment Ho Hs Ha. cbn. by apply debug_resize_ok.
  - done.
Defined.
End Debug.
