(* ===== verification/RuntimeDebugReports.v ===== *)
(** What the debugging allocator reports ([src/stdlib/runtime/coglet_runtime_mem.c]).

    A program that uses its storage as it should is never accused: its run leaves the guards
    intact, the error count as it was, and counts that are those of what it holds.  A write
    into a guard, a second free and storage that is never freed are reported. *)
From S2P Require Import Prelude RuntimeMemory RuntimeHeap RuntimeDebug.

(** An allocation as the program knows it: pointer, size and alignment. *)
Notation ClientBlock := (Z * Z * Z)%type (only parsing).

Definition client_region (c : ClientBlock) : Region := c.1.
Definition client_layout (c : ClientBlock) : ClientBlock := (c.1, Z.max c.2 POINTER_SIZE).
Definition block_layout (b : CogletRuntimeDebugBlock) : ClientBlock := (user b, user_size b, user_alignment b).

(** The records are of what the program holds. *)
Definition client_view (d : CogletRuntimeDebugAllocator) (mine : list ClientBlock) : Prop :=
  client_layout <$> mine ≡ₚ block_layout <$> debug_blocks d.

Section Reports.
Context {St : Type} (parent : Allocator St).

Notation World := ((CogletRuntimeDebugAllocator * St) * Bytes)%type (only parsing).

(** What a program does that frees what it holds with the layout it asked for, and writes to
    what it holds only. *)
Inductive debug_run : World -> list ClientBlock -> World -> list ClientBlock -> Prop :=
| debug_done w mine : debug_run w mine w mine
| debug_allocates w mine size alignment p w1 w2 mine2 :
    0 <= size < 2 ^ 64 -> valid_alignment alignment ->
    coglet_rt_mem_debug_alloc parent size alignment w = Done (p, w1) ->
    debug_run w1 (if size =? 0 then mine else (p, size, alignment) :: mine) w2 mine2 ->
    debug_run w mine w2 mine2
| debug_frees w mine p n alignment mine' w1 w2 mine2 :
    mine ≡ₚ (p, n, alignment) :: mine' -> valid_alignment alignment ->
    coglet_rt_mem_debug_free parent p n alignment w = Done (tt, w1) ->
    debug_run w1 mine' w2 mine2 ->
    debug_run w mine w2 mine2
| debug_resizes w mine p n old_alignment mine' size alignment q w1 w2 mine2 :
    mine ≡ₚ (p, n, old_alignment) :: mine' -> valid_alignment alignment -> 0 <= size < 2 ^ 64 ->
    (size = 0 -> alignment = old_alignment) ->
    coglet_rt_mem_debug_resize parent p n size alignment w = Done (q, w1) ->
    debug_run w1 (if size =? 0 then mine' else (q, size, alignment) :: mine') w2 mine2 ->
    debug_run w mine w2 mine2
| debug_writes st m m' mine w2 mine2 :
    (forall a, (forall c, c ∈ mine -> within (client_region c).1 (client_region c).2 a = false) -> m' a = m a) ->
    debug_run (st, m') mine w2 mine2 ->
    debug_run (st, m) mine w2 mine2.

Context `{!LawfulAllocator parent}.

(** What holds between the calls of such a program. *)
Record debug_good (others : list Region) (errors : Z) (found : list Report) (w : World) (mine : list ClientBlock) : Prop := {
  good_owns : debug_owns parent w.1 (client_region <$> mine) others;
  good_view : client_view w.1.1 mine;
  good_guards : coglet_rt_mem_debug_check w.1.1 w.2 = true;
  good_errors : error_count w.1.1 = errors;
  good_reports : reports w.1.1 = found;
}.

Lemma check_forall d m :
  coglet_rt_mem_debug_check d m = true <-> Forall (fun b => coglet_rt_mem_debug_block_intact m b = true) (debug_blocks d).
Proof. unfold coglet_rt_mem_debug_check. rewrite forallb_forall, Forall_forall. setoid_rewrite <- list_elem_of_In. done. Qed.

Lemma view_perm d mine mine' : mine ≡ₚ mine' -> client_view d mine -> client_view d mine'.
Proof. unfold client_view. by intros ->. Qed.

Lemma view_owns d s mine others :
  owns s (debug_internals d) others -> debug_ok d -> client_view d mine ->
  debug_owns parent (d, s) (client_region <$> mine) others.
Proof.
  intros Ho Hok Hv. split_and!; [done|done|]. unfold client_view in Hv. cbn.
  apply (fmap_Permutation fst) in Hv. rewrite <- !list_fmap_compose in Hv. exact Hv.
Qed.

(** The block that is freed has the alignment the program asked for. *)
Lemma find_layout d s p n a mine others b rest :
  debug_owns parent (d, s) (client_region <$> (p, n, a) :: mine) others -> client_view d ((p, n, a) :: mine) ->
  coglet_rt_mem_debug_find p (debug_blocks d) = Some (b, rest) ->
  user_alignment b = Z.max a POINTER_SIZE /\ forall d', debug_blocks d' = rest -> client_view d' mine.
Proof.
  intros Hown Hv Hf. pose proof (debug_owns_regions _ _ _ _ Hown) as Hreg.
  apply regions_ok_app in Hreg as (Hreg & _ & _). destruct Hown as (_ & _ & Hm). cbn [fst] in Hm. rewrite Hm in Hreg.
  apply find_some in Hf as (Hu & l1 & l2 & E & ->). unfold client_view in *. cbn [fmap list_fmap] in Hv.
  assert (Hp : debug_blocks d ≡ₚ b :: l1 ++ l2) by (rewrite E; symmetry; apply Permutation_middle).
  assert (Hlay : client_layout (p, n, a) = block_layout b).
  { assert (Hin : client_layout (p, n, a) ∈ block_layout <$> debug_blocks d) by (rewrite <- Hv; by left).
    rewrite Hp in Hin. cbn in Hin. apply elem_of_cons in Hin as [|Hin]; [done|exfalso].
    apply list_elem_of_fmap in Hin as (x & Ex & Hx). injection Ex as Ep _ _.
    rewrite Hp in Hreg. cbn in Hreg. apply regions_ok_cons in Hreg as ((_ & Hsz & _) & Hc & Hrest).
    eapply Forall_forall in Hc; [|apply (list_elem_of_fmap_2 user_region), Hx].
    destruct Hrest as [Hall _]. eapply Forall_forall in Hall as (_ & Hsz' & _); [|apply (list_elem_of_fmap_2 user_region), Hx].
    unfold disjoint_regions, user_region in *. cbn in *. lia. }
  split; [injection Hlay; done|]. intros d' ->. change (client_layout (p, n, a) :: (client_layout <$> mine) ≡ₚ
    block_layout <$> debug_blocks d) in Hv. rewrite Hp in Hv. cbn [fmap list_fmap] in Hv.
  rewrite Hlay in Hv. by apply Permutation_cons_inv in Hv.
Qed.

Lemma no_reports m b alignment :
  coglet_rt_mem_debug_block_intact m b = true -> user_alignment b = Z.max alignment POINTER_SIZE ->
  free_reports m b (user_size b) alignment = [].
Proof. intros Hi Ha. unfold free_reports. by rewrite Hi, Ha, !Z.eqb_refl. Qed.

(** The records are of storage of the debugging allocator. *)
Lemma record_in d b others : b ∈ debug_blocks d -> record_region b ∈ debug_internals d ++ others.
Proof. intros Hb. apply elem_of_app. left. right. by apply list_elem_of_fmap_2. Qed.

Lemma check_after d s m m' mine others :
  debug_owns parent (d, s) mine others -> same_bytes (debug_internals d ++ others) m m' ->
  coglet_rt_mem_debug_check d m' = coglet_rt_mem_debug_check d m.
Proof.
  intros (_ & Hok & _) Hs. eapply check_same; [apply Hok| |exact Hs]. intros b. apply record_in.
Qed.

(** Writing to the user's bytes of a block leaves its guards alone. *)
Lemma user_write_intact b m m' :
  (forall a, within (user b) (user_size b) a = false -> within (record_address b) (total_size b) a = true -> m' a = m a) ->
  debug_block_ok b -> coglet_rt_mem_debug_block_intact m' b = coglet_rt_mem_debug_block_intact m b.
Proof.
  intros Hw Hb. destruct (block_parts b Hb) as (_ & Hf & Hk & _).
  assert (Hg : forall g, inside (g, GUARD_SIZE) (record_region b) ->
    (g + GUARD_SIZE <= user b \/ user b + user_size b <= g) ->
    coglet_rt_mem_debug_guard_intact m' g = coglet_rt_mem_debug_guard_intact m g).
  { intros g Hi Hg. apply eq_true_iff_eq. rewrite !guard_intact_true.
    assert (E : forall i, 0 <= i < GUARD_SIZE -> m' (g + i) = m (g + i)).
    { intros i Hi'. apply Hw.
      - destruct (within (user b) (user_size b) (g + i)) eqn:E; [apply within_true in E; lia|done].
      - apply within_true. unfold inside, record_region in Hi. cbn in Hi. lia. }
    split; intros H i Hi'; specialize (H i Hi'); rewrite <- H; by rewrite E. }
  unfold coglet_rt_mem_debug_block_intact. f_equal; apply Hg; try done;
    unfold coglet_rt_mem_debug_front_guard, coglet_rt_mem_debug_back_guard, GUARD_SIZE; lia.
Qed.

(** So does writing to what the program holds. *)
Lemma client_write_check d s m m' mine others :
  debug_owns parent (d, s) mine others ->
  (forall a, (forall r, r ∈ mine -> within r.1 r.2 a = false) -> m' a = m a) ->
  coglet_rt_mem_debug_check d m = true -> coglet_rt_mem_debug_check d m' = true.
Proof.
  intros (Ho & Hok & Hm) Hw. cbn in Ho, Hok, Hm. rewrite !check_forall, !Forall_forall. intros Hall b Hb.
  pose proof (debug_blocks_ok d Hok) as Hbs. rewrite Forall_forall in Hbs.
  rewrite (user_write_intact b m m'); [by apply Hall| |by apply Hbs].
  intros a Ha Hrec. apply Hw. intros r Hr. rewrite Hm in Hr. apply list_elem_of_fmap in Hr as (x & -> & Hx).
  destruct (within (user_region x).1 (user_region x).2 a) eqn:E; [exfalso|done].
  pose proof (owns_regions _ _ _ Ho) as Hreg. apply regions_ok_app in Hreg as (Hreg & _ & _).
  apply regions_ok_cons in Hreg as (_ & _ & Hreg).
  apply list_elem_of_lookup in Hb as [i Hi]. apply list_elem_of_lookup in Hx as [j Hj].
  destruct (decide (i = j)) as [->|Hne].
  { rewrite Hi in Hj. injection Hj as ->. cbn in E. congruence. }
  destruct Hreg as [_ Hd]. specialize (Hd i j (record_region b) (record_region x)).
  rewrite !list_lookup_fmap, Hi, Hj in Hd. specialize (Hd eq_refl eq_refl Hne).
  destruct (block_parts x (Hbs x (list_elem_of_lookup_2 _ _ _ Hj))) as (Hin & _).
  apply within_true in E, Hrec. unfold inside, disjoint_regions, user_region, record_region in *. cbn in *. lia.
Qed.

(** ** A correct program is not accused *)

Section Good.
Context (others : list Region) (errors : Z) (found : list Report).

Lemma good_alloc w mine size alignment p w1 :
  debug_good others errors found w mine -> 0 <= size < 2 ^ 64 -> valid_alignment alignment ->
  coglet_rt_mem_debug_alloc parent size alignment w = Done (p, w1) ->
  debug_good others errors found w1 (if size =? 0 then mine else (p, size, alignment) :: mine).
Proof.
  destruct w as [[d s] m]. intros [Hown Hv Hg He Hf] Hs Ha Hrun. cbn [fst snd] in *.
  unfold coglet_rt_mem_debug_alloc in Hrun. destruct (Z.eqb_spec size 0) as [->|Hz].
  { injection Hrun as _ <-. by constructor. }
  pose proof Hown as (Ho & Hok & Hm). cbn in Ho, Hok, Hm.
  pose proof (debug_alloc_run parent d s m others size alignment Ho Hok ltac:(lia) Ha) as Hal. rewrite Hrun in Hal.
  destruct w1 as [[d1 s1] m1'].
  destruct Hal as (b & m1 & -> & Hsize & Hbal & _ & _ & Hb & -> & Hcl & Hsame & -> & Ho1).
  assert (Hv1 : client_view (count_allocation size (push_block b d)) ((user b, size, alignment) :: mine)).
  { unfold client_view in *. cbn. unfold client_layout at 1. cbn. unfold block_layout at 1.
    rewrite Hsize, Hbal. by apply perm_skip. }
  constructor; cbn [fst snd]; [apply view_owns; [done|by apply alloc_state|done]|done| |done|done].
  unfold coglet_rt_mem_debug_check. cbn. apply andb_true_iff. split; [by apply fill_block_intact, Hb|].
  change (coglet_rt_mem_debug_check d (fill_block b m1) = true). rewrite <- Hg.
  eapply check_after; [exact Hown|]. eapply same_bytes_trans; [exact Hsame|]. by apply fill_block_same.
Qed.

Lemma good_free w mine p n alignment w1 :
  debug_good others errors found w ((p, n, alignment) :: mine) -> valid_alignment alignment ->
  coglet_rt_mem_debug_free parent p n alignment w = Done (tt, w1) -> debug_good others errors found w1 mine.
Proof.
  destruct w as [[d s] m]. intros [Hown Hv Hg He Hf] Ha Hrun. cbn [fst snd] in *.
  destruct (debug_free_ok parent d s m p n _ others alignment Hown Ha)
    as (b & rest & s' & m' & Hfind & Hb & Hfree & Hsame & Ho').
  rewrite Hrun in Hfree. injection Hfree as ->. injection Hb as Hu Hn.
  destruct (find_layout d s p n alignment mine others b rest Hown Hv Hfind) as [Hal Hview].
  destruct (find_some _ _ _ _ Hfind) as (_ & l1 & l2 & E & ->).
  apply check_forall in Hg. assert (Hi : coglet_rt_mem_debug_block_intact m b = true).
  { rewrite E in Hg. apply Forall_app in Hg as [_ Hg]. by inversion Hg. }
  rewrite <- Hn, no_reports in * by done.
  constructor; cbn [fst snd]; [done|by apply Hview| |done|done].
  rewrite (check_after _ _ _ _ _ _ Ho' Hsame). apply check_forall. cbn. rewrite E in Hg.
  apply Forall_app in Hg as [H1 H2]. apply Forall_app. split; [done|]. by inversion H2.
Qed.

(** A resize to another alignment is not reported either. *)
Lemma good_resize w mine p n old_alignment alignment size q w1 :
  debug_good others errors found w ((p, n, old_alignment) :: mine) -> valid_alignment alignment -> 0 <= size < 2 ^ 64 ->
  (size = 0 -> alignment = old_alignment) ->
  coglet_rt_mem_debug_resize parent p n size alignment w = Done (q, w1) ->
  debug_good others errors found w1 (if size =? 0 then mine else (q, size, alignment) :: mine).
Proof.
  intros Hgood Ha Hs Hsame0 Hrun. pose proof Hgood as [Hown Hv Hg He Hf]. destruct w as [[d s] m]. cbn [fst snd] in *.
  pose proof (debug_owns_regions _ _ _ _ Hown) as Hreg. apply regions_ok_cons in Hreg as ((Hp0 & _) & _ & _). cbn in Hp0.
  destruct (Z.eqb_spec size 0) as [->|Hz].
  { specialize (Hsame0 eq_refl) as ->. unfold coglet_rt_mem_debug_resize in Hrun. destruct (Z.eqb_spec p NULL) as [E|_]; [unfold NULL in E; lia|].
    cbn [Z.eqb] in Hrun. unfold mbind, R_bind in Hrun.
    destruct (coglet_rt_mem_debug_free _ _ _ _ _) as [[[] w2]| |] eqn:Hfree; [|done|done].
    injection Hrun as _ <-. by eapply good_free. }
  pose proof (debug_resize_run parent d s m p n _ others size alignment Hown ltac:(lia) Ha) as Hr. rewrite Hrun in Hr.
  destruct w1 as [[d1 s1] m1'].
  destruct Hr as (b & rest & b1 & m1 & m2 & Hfind & Hb & -> & Hsize & Hal1 & _ & Hb1 & Hsame & Em2 & Hcl & Ed & Hsame2 & Ho').
  cbn [fst snd] in *. destruct (find_layout d s p n old_alignment mine others b rest Hown Hv Hfind) as [Hal Hview].
  destruct (find_some _ _ _ _ Hfind) as (_ & l1 & l2 & E & ->). injection Hb as Hu Hn.
  assert (Hm2 : same_bytes (debug_internals d ++ others) m m2).
  { rewrite Em2. eapply same_bytes_trans; [exact Hsame|]. eapply same_bytes_trans; [by apply fill_block_same|].
    apply same_bytes_memcpy. eapply clear_of_inside; [|exact Hcl]. unfold inside. destruct (block_parts b1 Hb1) as (Hi & _).
    unfold inside, user_region, record_region in *. cbn in *. lia. }
  rewrite <- (check_after _ _ _ _ _ _ Hown Hm2) in Hg. apply check_forall in Hg. rewrite E in Hg.
  apply Forall_app in Hg as [Hg1 Hg2]. apply Forall_cons in Hg2 as [Hib Hg2].
  assert (Hib1 : coglet_rt_mem_debug_block_intact m2 b1 = true).
  { rewrite Em2, (user_write_intact b1 (fill_block b1 m1)); [by apply fill_block_intact, Hb1| |done].
    intros a Hua _. unfold memcpy_bytes. destruct (within (user b1) (Z.min n size) a) eqn:Hw; [|done].
    apply within_true in Hw. rewrite (proj2 (within_true (user b1) (user_size b1) a)) in Hua by lia. done. }
  assert (Hnone : free_reports m2 b n (user_alignment b) = []).
  { rewrite <- Hn. apply no_reports; [done|]. rewrite Hal. lia. }
  rewrite Hnone in Ed. rewrite Ed in *. constructor; cbn [fst snd].
  - exact Ho'.
  - specialize (Hview (set_debug_blocks (l1 ++ l2) d) eq_refl). unfold client_view in *. cbn in *.
    unfold client_layout at 1. cbn. unfold block_layout at 1. rewrite Hsize, Hal1. by apply perm_skip.
  - rewrite (check_after _ _ _ _ _ _ Ho' Hsame2). apply check_forall. cbn. constructor; [done|].
    by apply Forall_app.
  - exact He.
  - exact Hf.
Qed.

Lemma good_run w mine w1 mine1 :
  debug_run w mine w1 mine1 -> debug_good others errors found w mine -> debug_good others errors found w1 mine1.
Proof.
  induction 1 as [w mine|w mine size alignment p w1 w2 mine2 Hs Ha Hrun _ IH
    |w mine p n alignment mine' w1 w2 mine2 Hp Ha Hrun _ IH
    |w mine p n old_alignment mine' size alignment q w1 w2 mine2 Hp Ha Hs Hz Hrun _ IH
    |[d s] m m' mine w2 mine2 Hw _ IH]; intros Hgood; [done| | | |].
  - by eapply IH, good_alloc.
  - eapply IH, good_free; [|done|done]. destruct Hgood as [Ho Hv Hg He Hf].
    constructor; try done; [eapply debug_owns_perm, Ho; by rewrite Hp|by eapply view_perm].
  - eapply IH, good_resize; [|done|done|exact Hz|done]. destruct Hgood as [Ho Hv Hg He Hf].
    constructor; try done; [eapply debug_owns_perm, Ho; by rewrite Hp|by eapply view_perm].
  - apply IH. destruct Hgood as [Ho Hv Hg He Hf]. constructor; try done. cbn [fst snd] in *.
    eapply client_write_check; [exact Ho| |exact Hg]. intros a Ha. apply Hw. intros c Hc. apply Ha.
    by apply list_elem_of_fmap_2.
Qed.
End Good.

(** The counts are those of what the program holds. *)
Lemma counts_exact d s mine others :
  debug_owns parent (d, s) mine others ->
  live_allocations d = Z.of_nat (length mine) /\ live_bytes d = total_bytes_of mine.
Proof.
  intros Hown. pose proof (debug_owns_regions _ _ _ _ Hown) as Hreg. apply regions_ok_app in Hreg as (Hreg & _ & _).
  pose proof (regions_total mine Hreg) as Hb. destruct Hown as (_ & [_ Hc Hsz] & Hm). cbn in Hc, Hsz, Hm.
  assert (E : Z.of_nat (length (debug_blocks d)) = Z.of_nat (length mine)) by (rewrite Hm, length_fmap; done).
  assert (Et : sum_sizes (debug_blocks d) = total_bytes_of mine).
  { assert (Hperm : forall rs rs', rs ≡ₚ rs' -> total_bytes_of rs = total_bytes_of rs').
    { unfold total_bytes_of. induction 1; cbn in *; lia. }
    rewrite (Hperm _ _ Hm). clear. unfold sum_sizes, total_bytes_of. induction (debug_blocks d) as [|b bs IH]; [done|]. cbn in *. lia. }
  rewrite Hc, Hsz, E, Et. rewrite !u64_small by lia. done.
Qed.

Lemma debug_create_ok s m others :
  owns s [] others ->
  match coglet_rt_mem_debug_create parent (s, m) with
  | Done (d, (s', m')) =>
      same_bytes others m m' /\ debug_good others 0 [] ((d, s'), m') []
  | OutOfMemory => True
  | Undefined => False
  end.
Proof.
  intros Ho. unfold coglet_rt_mem_debug_create.
  change (if coglet_rt_mem_debug_state_alignment <? POINTER_SIZE then POINTER_SIZE
          else coglet_rt_mem_debug_state_alignment) with POINTER_SIZE. cbn zeta.
  pose proof (allocate_ok s m [] others DEBUG_SIZE POINTER_SIZE Ho ltac:(done) ltac:(by exists 3)) as Hrun.
  destruct (allocate parent DEBUG_SIZE POINTER_SIZE (s, m)) as [[a [s' m']]| |] eqn:Hall;
    [|by rewrite (bind_fails _ _ _ Hall)|done].
  rewrite (bind_done _ _ _ _ _ Hall). cbn in Hrun. destruct Hrun as (Hsame & _ & Ho').
  destruct (Z.eqb_spec a NULL); [done|]. split; [done|].
  constructor; try done. by unfold client_view.
Qed.


(** ** An incorrect one is *)

Lemma count_errors d found :
  error_count (foldr add_error d found) =
  match found with [] => error_count d | _ => u64 (error_count d + Z.of_nat (length found)) end.
Proof.
  induction found as [|r found IH]; [done|]. cbn [foldr add_error error_count]. rewrite IH.
  destruct found as [|r' found]; [cbn; f_equal; lia|]. unfold u64. rewrite Zplus_mod_idemp_l. f_equal. cbn. lia.
Qed.

Lemma guard_written m a byte g :
  byte <> GUARD_BYTE -> coglet_rt_mem_debug_guard_intact m g = true ->
  coglet_rt_mem_debug_guard_intact (memset_bytes a byte 1 m) g = negb (within g GUARD_SIZE a).
Proof.
  intros Hb Hm. rewrite guard_intact_true in Hm. destruct (within g GUARD_SIZE a) eqn:Hw; cbn [negb].
  - apply within_true in Hw. apply not_true_iff_false. rewrite guard_intact_true. intros H.
    specialize (H (a - g) ltac:(lia)). rewrite memset_at, decide_True in H by lia. done.
  - apply guard_intact_true. intros i Hi. rewrite memset_at, decide_False; [by apply Hm|].
    intros Ha. rewrite (proj2 (within_true g GUARD_SIZE a)) in Hw; [done|lia].
Qed.

(** C29. Any byte written into the 16 bytes before or after an allocation, unless it is the
    guard byte, is found by the check, and freeing the allocation counts an error and reports
    on which side it was. *)
Theorem debug_detects_overrun d s m p n mine others a byte alignment :
  debug_owns parent (d, s) ((p, n) :: mine) others -> coglet_rt_mem_debug_check d m = true ->
  (p - 16 <= a < p \/ p + n <= a < p + n + 16) -> byte <> GUARD_BYTE -> valid_alignment alignment ->
  let m1 := memset_bytes a byte 1 m in
  coglet_rt_mem_debug_check d m1 = false /\
  exists id rest d' s' m',
    coglet_rt_mem_debug_free parent p n alignment ((d, s), m1) = Done (tt, ((d', s'), m'))
    /\ reports d' = GuardCorruption id (a <? p) (p + n <=? a) n p :: rest ++ reports d
    /\ coglet_rt_mem_debug_error_count d' = u64 (error_count d + 1 + Z.of_nat (length rest)).
Proof.
  intros Hown Hg Hpos Hbyte Ha m1.
  destruct (debug_free_ok parent d s m1 p n mine others alignment Hown Ha)
    as (b & rest & s' & m' & Hfind & Hb & Hfree & _ & _).
  destruct (find_owned parent _ _ _ _ _ _ Hown) as (b' & rest' & Hf' & _ & Hbok & Hperm & _).
  rewrite Hfind in Hf'. injection Hf' as <- <-. injection Hb as Hu Hn. pose proof (block_size_ok b Hbok) as Hpn.
  apply check_forall in Hg. assert (Hi : coglet_rt_mem_debug_block_intact m b = true).
  { rewrite Hperm in Hg. by inversion Hg. }
  apply andb_true_iff in Hi as [Hi1 Hi2].
  assert (Hf : coglet_rt_mem_debug_guard_intact m1 (coglet_rt_mem_debug_front_guard b) = negb (a <? p)).
  { unfold m1. rewrite guard_written by done. f_equal. unfold coglet_rt_mem_debug_front_guard, within, GUARD_SIZE.
    rewrite Hu. destruct (Z.leb_spec (p - 16) a), (Z.ltb_spec a (p - 16 + 16)), (Z.ltb_spec a p); lia || done. }
  assert (Hk : coglet_rt_mem_debug_guard_intact m1 (coglet_rt_mem_debug_back_guard b) = negb (p + n <=? a)).
  { unfold m1. rewrite guard_written by done. f_equal. unfold coglet_rt_mem_debug_back_guard, within, GUARD_SIZE.
    rewrite Hu, Hn. destruct (Z.leb_spec (p + n) a), (Z.ltb_spec a (p + n + 16)); lia || done. }
  assert (Hbad : coglet_rt_mem_debug_block_intact m1 b = false).
  { unfold coglet_rt_mem_debug_block_intact. rewrite Hf, Hk. destruct (Z.ltb_spec a p), (Z.leb_spec (p + n) a); lia || done. }
  split.
  - apply not_true_iff_false. intros Hall%check_forall. rewrite Hperm in Hall. inversion Hall. congruence.
  - set (found := free_reports m1 b n alignment) in *.
    assert (E : exists tl, found = GuardCorruption (block_id b) (a <? p) (p + n <=? a) n p :: tl).
    { unfold found, free_reports. rewrite Hbad, Hf, Hk, !negb_involutive, Hu, Hn. by eexists. }
    destruct E as [tl E]. eexists (block_id b), tl, _, s', m'. split; [exact Hfree|].
    destruct (debug_blocks_errors d found) as (_ & _ & _ & _ & Hrep). unfold freed, coglet_rt_mem_debug_error_count.
    cbn [count_free set_debug_blocks reports error_count]. rewrite Hrep, count_errors, E. split; [done|].
    f_equal. cbn [length]. lia.
Qed.

(** The start of what was freed is not the start of anything else. *)
Lemma freed_unknown d s p n mine others b rest :
  debug_owns parent (d, s) ((p, n) :: mine) others -> coglet_rt_mem_debug_find p (debug_blocks d) = Some (b, rest) ->
  coglet_rt_mem_debug_find p rest = None.
Proof.
  intros Hown Hf. destruct (find_owned parent _ _ _ _ _ _ Hown) as (b' & rest' & Hf' & Hb & _ & _ & Hm).
  rewrite Hf in Hf'. injection Hf' as <- <-. pose proof (debug_owns_regions _ _ _ _ Hown) as Hreg.
  apply regions_ok_app in Hreg as (Hreg & _ & _). apply regions_ok_cons in Hreg as ((_ & Hn & _) & Hc & Hreg).
  apply find_none, Forall_forall. intros x Hx E. unfold clear_of in Hc. rewrite Hm in Hc, Hreg. rewrite Forall_forall in Hc.
  pose proof (list_elem_of_fmap_2 user_region _ _ Hx) as Hin. specialize (Hc _ Hin). destruct Hreg as [Hall _].
  eapply Forall_forall in Hall as (_ & Hn' & _); [|exact Hin].
  unfold disjoint_regions, user_region in *. cbn in *. lia.
Qed.

(** C30. What was freed is known to be: freeing or resizing it again is reported and counted,
    and changes nothing else, neither the contents of memory nor the parent. *)
Theorem debug_reports_double_free d s m p n mine others alignment :
  debug_owns parent (d, s) ((p, n) :: mine) others -> valid_alignment alignment ->
  exists d' s' m', coglet_rt_mem_debug_free parent p n alignment ((d, s), m) = Done (tt, ((d', s'), m'))
    /\ debug_owns parent (d', s') mine others
    /\ (forall n' alignment', coglet_rt_mem_debug_free parent p n' alignment' ((d', s'), m')
          = Done (tt, ((add_error (InvalidFree p) d', s'), m')))
    /\ (forall n' size' alignment', size' <> 0 ->
          coglet_rt_mem_debug_resize parent p n' size' alignment' ((d', s'), m')
          = Done (NULL, ((add_error (InvalidResize p) d', s'), m'))).
Proof.
  intros Hown Ha. destruct (debug_free_ok parent d s m p n mine others alignment Hown Ha)
    as (b & rest & s' & m' & Hfind & Hb & Hfree & _ & Ho').
  pose proof (freed_unknown _ _ _ _ _ _ _ _ Hown Hfind) as Hnone.
  pose proof (debug_owns_regions _ _ _ _ Hown) as Hreg. apply regions_ok_cons in Hreg as ((Hp & _) & _). cbn in Hp.
  eexists _, s', m'. split; [exact Hfree|]. split; [exact Ho'|]. split.
  - intros n' alignment'. unfold coglet_rt_mem_debug_free. destruct (Z.eqb_spec p NULL) as [E|_]; [unfold NULL in E; lia|].
    unfold get_debug. run_steps. cbn [freed count_free set_debug_blocks debug_blocks]. by rewrite Hnone.
  - intros n' size' alignment' Hs. unfold coglet_rt_mem_debug_resize.
    destruct (Z.eqb_spec p NULL) as [E|_]; [unfold NULL in E; lia|]. destruct (Z.eqb_spec size' 0); [done|].
    unfold get_debug. run_steps. cbn [freed count_free set_debug_blocks debug_blocks]. by rewrite Hnone.
Qed.

(** ** The end of the allocator *)

Lemma free_debug_blocks_ok bs d s m a others :
  owns s (a :: (record_region <$> bs)) others -> Forall debug_block_ok bs ->
  Forall (fun b => coglet_rt_mem_debug_block_intact m b = true) bs ->
  exists s' m', free_debug_blocks parent bs ((d, s), m) = Done (tt, ((d, s'), m'))
    /\ same_bytes (a :: others) m m' /\ owns s' [a] others.
Proof.
  revert s m. induction bs as [|b bs IH]; intros s m Ho Hbs Hi.
  { exists s, m. split_and!; [done|apply same_bytes_refl|done]. }
  apply Forall_cons in Hbs as [Hb Hbs], Hi as [Hib Hi]. cbn [fmap list_fmap] in Ho.
  eapply owns_perm in Ho; [|apply perm_swap]. pose proof (owns_regions _ _ _ Ho) as Hreg.
  apply regions_ok_cons in Hreg as (_ & Hcl & _). destruct (block_parts b Hb) as (Hu & _).
  set (m1 := memset_bytes (user b) FREE_BYTE (user_size b) m).
  destruct (free_ok s m1 _ _ _ _ POINTER_SIZE Ho ltac:(by exists 3)) as (s1 & m2 & Hfree & Hs1 & Ho1).
  assert (Hs : same_bytes ((a :: (record_region <$> bs)) ++ others) m m2).
  { eapply same_bytes_trans; [|exact Hs1]. apply same_bytes_memset. by eapply clear_of_inside. }
  assert (Hi2 : Forall (fun x => coglet_rt_mem_debug_block_intact m2 x = true) bs).
  { rewrite Forall_forall in Hi, Hbs |- *. intros x Hx. rewrite (block_intact_same x m m2); [by apply Hi|by apply Hbs|].
    eapply same_bytes_incl, Hs. intros r ->%list_elem_of_singleton. apply elem_of_app. left. right.
    by apply list_elem_of_fmap_2. }
  destruct (IH s1 m2 Ho1 Hbs Hi2) as (s2 & m3 & Hrest & Hs2 & Ho2). exists s2, m3. split_and!; [| |done].
  - cbn [free_debug_blocks]. rewrite (bind_done _ _ _ _ _ (report_corruption_run b d s m)), Hib.
    rewrite (bind_done _ _ _ tt ((d, s), m1)) by done. rewrite bind_call_parent, (block_parent b Hb), Hfree. exact Hrest.
  - eapply same_bytes_trans; [|exact Hs2]. eapply same_bytes_incl, Hs.
    intros r [->|Hr]%elem_of_cons; [by left|]. apply elem_of_app. by right.
Qed.

(** The reports at the end, the last one first. *)
Definition leak_reports (mine : list Region) (bs : list CogletRuntimeDebugBlock) : list Report :=
  match mine with
  | [] => []
  | _ => rev (LiveAllocations (Z.of_nat (length mine)) (total_bytes_of mine) :: map leak_of bs)
  end.

End Reports.

(** ** A debugging allocator over the heap *)

#[local] Existing Instances bump_malloc bump_malloc_laws.

Notation DemoWorld := ((CogletRuntimeDebugAllocator * Heap) * Bytes)%type (only parsing).

Definition demo_debug : CogletRuntimeDebugAllocator * (Heap * Bytes) :=
  value (coglet_rt_mem_debug_create heap_allocator (empty_heap, zero_bytes))
        (mkDebug NULL [] 0 0 0 0 0 0 [], (empty_heap, zero_bytes)).

Definition demo_d0 : DemoWorld := ((demo_debug.1, demo_debug.2.1), demo_debug.2.2).

(** 10 bytes, which the program writes, and resizes to 20. *)
Definition demo_d1 : Pointer * DemoWorld :=
  value (coglet_rt_mem_debug_alloc heap_allocator 10 8 demo_d0) (NULL, demo_d0).
Definition demo_d2 : DemoWorld := (demo_d1.2.1, memset_bytes demo_d1.1 7 10 demo_d1.2.2).
Definition demo_d3 : Pointer * DemoWorld :=
  value (coglet_rt_mem_debug_resize heap_allocator demo_d1.1 10 20 16 demo_d2) (NULL, demo_d2).

Lemma demo_debug_runs :
  coglet_rt_mem_debug_create heap_allocator (empty_heap, zero_bytes) = Done demo_debug
  /\ coglet_rt_mem_debug_alloc heap_allocator 10 8 demo_d0 = Done demo_d1
  /\ coglet_rt_mem_debug_resize heap_allocator demo_d1.1 10 20 16 demo_d2 = Done demo_d3.
Proof.
  split; [|split].
  - unfold demo_debug. apply value_done. vm_compute. reflexivity.
  - unfold demo_d1. apply value_done. vm_compute. reflexivity.
  - unfold demo_d3. apply value_done. vm_compute. reflexivity.
Qed.

Lemma demo_debug_good : debug_good heap_allocator [] 0 [] demo_d1.2 [(demo_d1.1, 10, 8)].
Proof.
  destruct demo_debug_runs as (E0 & E1 & _). unfold demo_d0 in E1. revert E0 E1. generalize demo_d1.
  intros [p w1]. destruct demo_debug as [d [s m]]. cbn [fst snd]. intros E0 E1.
  pose proof (debug_create_ok heap_allocator empty_heap zero_bytes [] empty_heap_owns) as H. rewrite E0 in H.
  destruct H as [_ H]. exact (good_alloc heap_allocator [] 0 [] _ [] 10 8 p w1 H ltac:(done) ltac:(by exists 3) E1).
Qed.


Lemma debug_detects_overrun_witness :
  let w := demo_d1.2 in
  let m1 := memset_bytes (demo_d1.1 + 10) 0 1 w.2 in
  coglet_rt_mem_debug_check w.1.1 m1 = false /\
  exists id rest d' s' m',
    coglet_rt_mem_debug_free heap_allocator demo_d1.1 10 8 (w.1, m1) = Done (tt, ((d', s'), m'))
    /\ reports d' = GuardCorruption id (demo_d1.1 + 10 <? demo_d1.1) (demo_d1.1 + 10 <=? demo_d1.1 + 10) 10 demo_d1.1
         :: rest ++ reports w.1.1
    /\ coglet_rt_mem_debug_error_count d' = u64 (error_count w.1.1 + 1 + Z.of_nat (length rest)).
Proof.
  pose proof demo_debug_good as [Ho _ Hg _ _]. destruct demo_d1 as [p [[d s] m]]. cbn [fst snd] in *.
  exact (debug_detects_overrun heap_allocator d s m p 10 [] [] (p + 10) 0 8 Ho Hg ltac:(lia) ltac:(done) ltac:(by exists 3)).
Defined.

Lemma debug_reports_double_free_witness :
  let w := demo_d1.2 in
  exists d' s' m', coglet_rt_mem_debug_free heap_allocator demo_d1.1 10 8 w = Done (tt, ((d', s'), m'))
    /\ coglet_rt_mem_debug_free heap_allocator demo_d1.1 10 8 ((d', s'), m')
       = Done (tt, ((add_error (InvalidFree demo_d1.1) d', s'), m')).
Proof.
  pose proof demo_debug_good as [Ho _ _ _ _]. destruct demo_d1 as [p [[d s] m]]. cbn [fst snd] in *.
  destruct (debug_reports_double_free heap_allocator d s m p 10 [] [] 8 Ho ltac:(by exists 3))
    as (d' & s' & m' & Hf & _ & Hagain & _).
  by exists d', s', m'.
Defined.

