(* ===== verification/RuntimeStore.v ===== *)
(** What a program sees of its storage: a store of allocations.

    The store maps the start of an allocation to its bytes.  Nothing else is visible: not where
    an allocator gets its space, not its records and guards, not which addresses it chooses.  The
    allocators of [src/stdlib/runtime/coglet_runtime_mem.c] all refine it. *)
From S2P Require Import Prelude RuntimeMemory RuntimeHeap RuntimeArena RuntimeFixedArena RuntimeDebug RuntimeDebugReports.

(** ** The store *)

Notation Store := (gmap Z (list Z)) (only parsing).

Inductive memory_op : Set :=
| OpAllocate (size alignment : Z)
| OpResize (pointer : Pointer) (old_size size alignment : Z)
| OpFree (pointer : Pointer) (size alignment : Z)
| OpWrite (pointer : Pointer) (offset byte : Z)
| OpRead (pointer : Pointer) (offset : Z).

Definition store_region (e : Z * list Z) : Region := (e.1, Z.of_nat (length e.2)).

(** The storage in use. *)
Definition store_regions (σ : Store) : list Region := store_region <$> map_to_list σ.

(** A place for an allocation: aligned, in the address space, and nothing else is there. *)
Definition free_place (σ : Store) (others : list Region) (p size alignment : Z) : Prop :=
  (alignment | p) /\ region_ok (p, size) /\ clear_of (p, size) (store_regions σ ++ others).

(** The steps of the store, with the result the program gets. *)
Inductive store_step (others : list Region) : Store -> memory_op -> Z -> Store -> Prop :=
| step_allocate_nothing σ alignment : store_step others σ (OpAllocate 0 alignment) NULL σ
| step_allocate σ size alignment p l :
    0 < size -> free_place σ others p size alignment -> Z.of_nat (length l) = size ->
    store_step others σ (OpAllocate size alignment) p (<[p := l]> σ)
| step_resize_null σ old_size size alignment p σ' :
    store_step others σ (OpAllocate size alignment) p σ' ->
    store_step others σ (OpResize NULL old_size size alignment) p σ'
| step_resize_nothing σ p l alignment :
    σ !! p = Some l -> store_step others σ (OpResize p (Z.of_nat (length l)) 0 alignment) NULL (delete p σ)
| step_resize σ p l size alignment q l' :
    σ !! p = Some l -> 0 < size -> free_place (delete p σ) others q size alignment ->
    Z.of_nat (length l') = size -> take (length l) l' = take (length l') l ->
    store_step others σ (OpResize p (Z.of_nat (length l)) size alignment) q (<[q := l']> (delete p σ))
| step_free_null σ size alignment : store_step others σ (OpFree NULL size alignment) 0 σ
| step_free σ p l alignment :
    σ !! p = Some l -> store_step others σ (OpFree p (Z.of_nat (length l)) alignment) 0 (delete p σ)
| step_write σ p l offset byte :
    σ !! p = Some l -> 0 <= offset < Z.of_nat (length l) ->
    store_step others σ (OpWrite p offset byte) 0 (<[p := <[Z.to_nat offset := byte]> l]> σ)
| step_read σ p l offset byte :
    σ !! p = Some l -> 0 <= offset -> l !! Z.to_nat offset = Some byte ->
    store_step others σ (OpRead p offset) byte σ.

(** What a program may ask for. *)
Definition op_ok (σ : Store) (op : memory_op) : Prop :=
  match op with
  | OpAllocate size alignment => 0 <= size < 2 ^ 64 /\ valid_alignment alignment
  | OpResize p old_size size alignment =>
      0 <= size < 2 ^ 64 /\ valid_alignment alignment
      /\ (p = NULL \/ exists l, σ !! p = Some l /\ old_size = Z.of_nat (length l))
  | OpFree p size alignment =>
      valid_alignment alignment /\ (p = NULL \/ exists l, σ !! p = Some l /\ size = Z.of_nat (length l))
  | OpWrite p offset _ | OpRead p offset => exists l, σ !! p = Some l /\ 0 <= offset < Z.of_nat (length l)
  end.

(** ** The operations on an allocator *)

Definition perform {St} (a : Allocator St) (op : memory_op) : R St Z :=
  match op with
  | OpAllocate size alignment => allocate a size alignment
  | OpResize p old_size size alignment => resize a p old_size size alignment
  | OpFree p size alignment => free a p size alignment ;; mret 0
  | OpWrite p offset byte => on_bytes (memset_bytes (p + offset) byte 1) ;; mret 0
  | OpRead p offset => fun w => Done (w.2 (p + offset), w)
  end.

(** The bytes of a region, as a list. *)
Definition contents (m : Bytes) (p n : Z) : list Z := (fun i => m (p + i)) <$> seqZ 0 n.

(** The allocator has handed out what is in the store, and the bytes are those of the store. *)
Definition represents {St} {a : Allocator St} `{!LawfulAllocator a} (others : list Region) (σ : Store) (w : St * Bytes) : Prop :=
  owns w.1 (store_regions σ) others
  /\ forall p l, σ !! p = Some l -> contents w.2 p (Z.of_nat (length l)) = l.

(** ** Contents *)

Lemma block_contents_length m p n : length (contents m p n) = Z.to_nat n.
Proof. unfold contents. by rewrite length_fmap, length_seqZ. Qed.

Lemma contents_lookup m p n i :
  0 <= i < n -> contents m p n !! Z.to_nat i = Some (m (p + i)).
Proof.
  intros Hi. unfold contents. rewrite list_lookup_fmap, lookup_seqZ_lt by lia. cbn. do 2 f_equal. lia.
Qed.

Lemma contents_same rs m m' p n :
  same_bytes rs m m' -> (p, n) ∈ rs -> contents m' p n = contents m p n.
Proof.
  intros Hs Hin. unfold contents. apply list_fmap_ext. intros i x Hx%lookup_seqZ.
  apply (Hs (p, n)); [done|]. apply within_true. cbn. lia.
Qed.

Lemma contents_ext m p m' q n k :
  (forall i, 0 <= i < Z.min n k -> m' (q + i) = m (p + i)) ->
  take (Z.to_nat n) (contents m' q k) = take (Z.to_nat k) (contents m p n).
Proof.
  intros H. apply list_eq. intros i.
  assert (Hget : forall m p n k, take k (contents m p n) !! i =
                   if decide ((i < k)%nat /\ Z.of_nat i < n) then Some (m (p + Z.of_nat i)) else None).
  { clear. intros m p n k. destruct (decide (i < k)%nat).
    - rewrite lookup_take_lt by done. destruct (decide (Z.of_nat i < n)).
      + rewrite decide_True by done. rewrite <- contents_lookup with (n := n) by lia. by rewrite Nat2Z.id.
      + rewrite decide_False by tauto. apply lookup_ge_None_2. rewrite block_contents_length. lia.
    - rewrite decide_False by tauto. apply lookup_ge_None_2. rewrite length_take, block_contents_length. lia. }
  rewrite !Hget. repeat case_decide; try lia; [f_equal; apply H; lia|done].
Qed.

(** ** Regions of the store *)

Lemma store_regions_insert σ p l :
  σ !! p = None -> store_regions (<[p := l]> σ) ≡ₚ (p, Z.of_nat (length l)) :: store_regions σ.
Proof. intros Hp. unfold store_regions. by rewrite map_to_list_insert. Qed.

Lemma store_regions_delete σ p l :
  σ !! p = Some l -> store_regions σ ≡ₚ (p, Z.of_nat (length l)) :: store_regions (delete p σ).
Proof. intros Hp. rewrite <- store_regions_insert, insert_delete_id; [done|done|apply lookup_delete_eq]. Qed.

Lemma store_region_in σ p l : σ !! p = Some l -> (p, Z.of_nat (length l)) ∈ store_regions σ.
Proof. intros Hp. rewrite (store_regions_delete σ p l Hp). by left. Qed.

Lemma store_regions_write σ p l l' :
  σ !! p = Some l -> length l' = length l -> store_regions (<[p := l']> σ) ≡ₚ store_regions σ.
Proof.
  intros Hp Hl. rewrite (store_regions_delete σ p l Hp), <- insert_delete_eq, store_regions_insert, Hl;
    [done|apply lookup_delete_eq].
Qed.

(** ** The simulation *)

Section Simulation.
Context {St : Type} (a : Allocator St) `{!LawfulAllocator a} (others : list Region).

Lemma represents_same σ s m s' m' mine :
  represents others σ (s, m) -> owns s' (store_regions σ) others -> same_bytes mine m m' ->
  (forall r, r ∈ store_regions σ -> r ∈ mine) -> represents others σ (s', m').
Proof.
  intros [_ Hc] Ho' Hs Hin. split; [done|]. intros p l Hp. cbn. rewrite (contents_same mine m m'); [by apply Hc|done|].
  apply Hin. by apply store_region_in.
Qed.

(** An allocation that is new to the store. *)
Lemma represents_insert σ s' m m' p size alignment :
  owns s' ((p, size) :: store_regions σ) others -> (alignment | p) ->
  (forall q l, σ !! q = Some l -> contents m q (Z.of_nat (length l)) = l) ->
  same_bytes (store_regions σ) m m' ->
  free_place σ others p size alignment /\ Z.of_nat (length (contents m' p size)) = size
  /\ 0 < size /\ represents others (<[p := contents m' p size]> σ) (s', m').
Proof using Type.
  intros Ho Hal Hc Hs. pose proof (owns_regions _ _ _ Ho) as Hreg. cbn in Hreg.
  apply regions_ok_cons in Hreg as (Hp & Hcl & Hreg). pose proof Hp as (_ & Hsz & _). cbn in Hsz.
  assert (Hlen : Z.of_nat (length (contents m' p size)) = size) by (rewrite block_contents_length; lia).
  assert (Hnew : σ !! p = None).
  { destruct (σ !! p) as [l|] eqn:E; [exfalso|done]. apply store_region_in in E.
    assert (Hin : (p, Z.of_nat (length l)) ∈ store_regions σ ++ others) by (apply elem_of_app; by left).
    eapply Forall_forall in Hcl; [|exact Hin]. destruct Hreg as [Hall _].
    eapply Forall_forall in Hall as (_ & H & _); [|exact Hin]. unfold disjoint_regions in *. cbn in *. lia. }
  split; [by split|]. split; [done|]. split; [done|]. split.
  - cbn. eapply owns_perm; [|exact Ho]. rewrite store_regions_insert by done. by rewrite Hlen.
  - intros q l [[<- <-]|[Hne Hq]]%lookup_insert_Some; cbn; [by rewrite Hlen|].
    rewrite (contents_same _ _ _ _ _ Hs); [by apply Hc|]. by apply store_region_in.
Qed.

Lemma simulates_allocate σ s m size alignment :
  represents others σ (s, m) -> 0 <= size < 2 ^ 64 -> valid_alignment alignment ->
  match allocate a size alignment (s, m) with
  | Done (p, w') => exists σ', store_step others σ (OpAllocate size alignment) p σ' /\ represents others σ' w'
  | OutOfMemory => True
  | Undefined => False
  end.
Proof using Type.
  intros Hr Hs Ha. pose proof Hr as [Ho Hc]. cbn in Ho, Hc.
  pose proof (allocate_ok s m _ _ size alignment Ho Hs Ha) as Hrun.
  destruct (allocate a size alignment (s, m)) as [[p [s' m']]| |]; [|done|done]. destruct Hrun as [Hsame Hrun].
  destruct (Z.eqb_spec size 0) as [->|Hz].
  - destruct Hrun as [-> Ho']. exists σ. split; [constructor|]. eapply represents_same; [done|done|exact Hsame|].
    intros r Hin. apply elem_of_app. by left.
  - destruct Hrun as [Hal Ho'].
    destruct (represents_insert σ s' m m' p size alignment Ho' Hal Hc) as (Hfree & Hlen & Hpos & Hr').
    { eapply same_bytes_incl, Hsame. intros r Hin. apply elem_of_app. by left. }
    eexists. split; [|exact Hr']. by constructor.
Qed.

Lemma simulates_resize σ s m p l size alignment :
  represents others σ (s, m) -> σ !! p = Some l -> 0 <= size < 2 ^ 64 -> valid_alignment alignment ->
  match resize a p (Z.of_nat (length l)) size alignment (s, m) with
  | Done (q, w') =>
      exists σ', store_step others σ (OpResize p (Z.of_nat (length l)) size alignment) q σ' /\ represents others σ' w'
  | OutOfMemory => True
  | Undefined => False
  end.
Proof using Type.
  intros [Ho Hc] Hp Hs Ha. cbn in Ho, Hc. eapply owns_perm in Ho; [|by apply store_regions_delete].
  pose proof (resize_ok s m p _ _ _ size alignment Ho Hs Ha) as Hrun.
  destruct (resize _ _ _ _ _ _) as [[q [s' m']]| |]; [|done|done]. destruct Hrun as [Hsame Hrun].
  assert (Hc' : forall q l', delete p σ !! q = Some l' -> contents m q (Z.of_nat (length l')) = l').
  { intros q' l' [_ Hq']%lookup_delete_Some. by apply Hc. }
  assert (Hsame' : same_bytes (store_regions (delete p σ)) m m').
  { eapply same_bytes_incl, Hsame. intros r Hin. apply elem_of_app. by left. }
  destruct (Z.eqb_spec size 0) as [->|Hz].
  - destruct Hrun as [-> Ho']. exists (delete p σ). split; [by constructor|]. split; [done|].
    intros q l' Hq. cbn. rewrite (contents_same _ _ _ _ _ Hsame'); [by apply Hc'|by apply store_region_in].
  - destruct Hrun as (Hal & Ho' & Hcopy).
    destruct (represents_insert _ s' m m' q size alignment Ho' Hal Hc' Hsame') as (Hfree & Hlen & Hpos & Hr').
    eexists. split; [|exact Hr']. constructor; try done.
    pose proof (contents_ext m p m' q (Z.of_nat (length l)) size Hcopy) as E. rewrite (Hc p l Hp), Nat2Z.id in E.
    rewrite E. f_equal. lia.
Qed.

Lemma simulates_free σ s m p l alignment :
  represents others σ (s, m) -> σ !! p = Some l -> valid_alignment alignment ->
  exists w', free a p (Z.of_nat (length l)) alignment (s, m) = Done (tt, w') /\ represents others (delete p σ) w'.
Proof using Type.
  intros [Ho Hc] Hp Ha. cbn in Ho, Hc. eapply owns_perm in Ho; [|by apply store_regions_delete].
  destruct (free_ok s m _ _ _ _ alignment Ho Ha) as (s' & m' & Hf & Hsame & Ho'). exists (s', m'). split; [done|].
  split; [done|]. intros q l' Hq. cbn. rewrite (contents_same (store_regions (delete p σ)) m m').
  - apply lookup_delete_Some in Hq as [_ Hq]. by apply Hc.
  - eapply same_bytes_incl, Hsame. intros r Hin. apply elem_of_app. by left.
  - by apply store_region_in.
Qed.

Lemma simulates_write σ s m p l offset byte :
  represents others σ (s, m) -> σ !! p = Some l -> 0 <= offset < Z.of_nat (length l) ->
  represents others (<[p := <[Z.to_nat offset := byte]> l]> σ) (s, memset_bytes (p + offset) byte 1 m).
Proof using Type.
  intros [Ho Hc] Hp Hoff. cbn in Ho, Hc. split; cbn.
  - eapply owns_perm; [|exact Ho]. symmetry. eapply store_regions_write; [exact Hp|]. apply length_insert.
  - intros q l' [[<- <-]|[Hne Hq]]%lookup_insert_Some.
    + rewrite length_insert. apply list_eq. intros i. destruct (decide (Z.of_nat i < Z.of_nat (length l))) as [Hi|Hi].
      * pose proof (contents_lookup (memset_bytes (p + offset) byte 1 m) p (Z.of_nat (length l)) (Z.of_nat i) ltac:(lia)) as E.
        rewrite Nat2Z.id in E. rewrite E. rewrite memset_at. destruct (decide _) as [Hd|Hd].
        -- replace i with (Z.to_nat offset) by lia. by rewrite list_lookup_insert_eq by lia.
        -- rewrite list_lookup_insert_ne by lia.
           pose proof (contents_lookup m p (Z.of_nat (length l)) (Z.of_nat i) ltac:(lia)) as E2.
           rewrite Nat2Z.id, (Hc p l Hp) in E2. done.
      * rewrite !lookup_ge_None_2; [done| |]; rewrite ?length_insert, ?block_contents_length; lia.
    + rewrite (contents_same [(q, Z.of_nat (length l'))] m); [by apply Hc| |by left].
      apply same_bytes_memset. constructor; [|constructor].
      pose proof (owns_regions _ _ _ Ho) as Hreg. apply regions_ok_app in Hreg as (Hreg & _ & _).
      rewrite (store_regions_delete σ p l Hp) in Hreg. apply regions_ok_cons in Hreg as (_ & Hcl & _).
      assert (Hin : (q, Z.of_nat (length l')) ∈ store_regions (delete p σ)).
      { apply store_region_in. by rewrite lookup_delete_ne. }
      eapply Forall_forall in Hcl; [|exact Hin]. unfold disjoint_regions in *. cbn in *. lia.
Qed.

Lemma contents_at σ w p l offset :
  represents others σ w -> σ !! p = Some l -> 0 <= offset < Z.of_nat (length l) ->
  l !! Z.to_nat offset = Some (w.2 (p + offset)).
Proof using Type.
  intros [_ Hc] Hp Hoff. pose proof (contents_lookup w.2 p (Z.of_nat (length l)) offset Hoff) as E.
  by rewrite (Hc p l Hp) in E.
Qed.

Lemma simulates_op σ w op :
  represents others σ w -> op_ok σ op ->
  match perform a op w with
  | Done (r, w') => exists σ', store_step others σ op r σ' /\ represents others σ' w'
  | OutOfMemory => True
  | Undefined => False
  end.
Proof using Type.
  destruct w as [s m]. intros Hr. destruct op as [size al|p old size al|p size al|p offset byte|p offset]; cbn [op_ok perform].
  - intros [Hs Ha]. by apply simulates_allocate.
  - intros (Hs & Ha & [->|(l & Hp & ->)]); [|by apply simulates_resize].
    rewrite resize_null by done. pose proof (simulates_allocate σ s m size al Hr Hs Ha) as H.
    destruct (allocate a size al (s, m)) as [[q w']| |]; [|done|done].
    destruct H as (σ' & Hstep & Hr'). exists σ'. split; [by constructor|done].
  - intros (Ha & [->|(l & Hp & ->)]).
    + rewrite (bind_done _ _ _ tt (s, m)) by apply free_null. exists σ. split; [constructor|done].
    + destruct (simulates_free σ s m p l al Hr Hp Ha) as (w' & Hf & Hr'). rewrite (bind_done _ _ _ _ _ Hf).
      exists (delete p σ). split; [by constructor|done].
  - intros (l & Hp & Hoff). eexists. split; [by eapply step_write|by eapply simulates_write].
  - intros (l & Hp & Hoff). exists σ. split; [|done]. eapply step_read; [exact Hp|lia|].
    by eapply (contents_at σ (s, m)).
Qed.
End Simulation.

(** ** Programs *)

(** A program chooses its next operation by the results of those before. *)
Notation Program := (list Z -> option memory_op) (only parsing).

(** The program on an allocator, for at most [n] operations; the results it got. *)
Fixpoint execute {St} (a : Allocator St) (program : Program) (n : nat) (results : list Z) : R St (list Z) :=
  match n with
  | O => mret results
  | S n =>
      match program results with
      | None => mret results
      | Some op => r ← perform a op; execute a program n (results ++ [r])
      end
  end.

(** The program on the store. *)
Inductive store_run (others : list Region) (program : Program) (σ0 : Store) : list Z -> Store -> Prop :=
| run_start : store_run others program σ0 [] σ0
| run_step results σ op r σ' :
    store_run others program σ0 results σ -> program results = Some op -> store_step others σ op r σ' ->
    store_run others program σ0 (results ++ [r]) σ'.

(** On the store, it never asks for what it may not: it frees and accesses only what it has. *)
Definition well_behaved (others : list Region) (program : Program) (σ0 : Store) : Prop :=
  forall results σ op, store_run others program σ0 results σ -> program results = Some op -> op_ok σ op.

(** Every run of the program on the allocator is one on the store, and none is undefined. *)
Definition refines_store {St} (a : Allocator St) `{!LawfulAllocator a} (others : list Region) (w : St * Bytes) : Prop :=
  forall program, well_behaved others program ∅ -> forall n,
  match execute a program n [] w with
  | Done (results, w') => exists σ, store_run others program ∅ results σ /\ represents others σ w'
  | OutOfMemory => True
  | Undefined => False
  end.

Lemma execute_run {St} (a : Allocator St) `{!LawfulAllocator a} others program σ0 n results σ w :
  well_behaved others program σ0 -> store_run others program σ0 results σ -> represents others σ w ->
  match execute a program n results w with
  | Done (results', w') => exists σ', store_run others program σ0 results' σ' /\ represents others σ' w'
  | OutOfMemory => True
  | Undefined => False
  end.
Proof.
  intros Hwell. revert results σ w. induction n as [|n IH]; intros results σ w Hrun Hr; cbn [execute]; [by exists σ|].
  destruct (program results) as [op|] eqn:Hop; [|by exists σ].
  pose proof (simulates_op a others σ w op Hr (Hwell _ _ _ Hrun Hop)) as H. unfold mbind, R_bind.
  destruct (perform a op w) as [[r w']| |]; [|done|done]. destruct H as (σ' & Hstep & Hr').
  apply (IH (results ++ [r]) σ' w'); [by econstructor|done].
Qed.

Lemma lawful_refines_store {St} (a : Allocator St) `{!LawfulAllocator a} others w :
  owns w.1 [] others -> refines_store a others w.
Proof.
  intros Ho program Hwell n. apply (execute_run a others program ∅ n [] ∅ w Hwell); [constructor|].
  split; [done|]. intros p l Hp. by rewrite lookup_empty in Hp.
Qed.

(** C28. A program that uses its storage as the store allows runs on the aligned heap as on the
    store, from an empty heap on. *)
Theorem heap_refines_store `{MallocLaws} (m : Bytes) : refines_store heap_allocator [] (empty_heap, m).
Proof. apply lawful_refines_store, empty_heap_owns. Qed.

(** C15. The same for an arena over any lawful parent, from its creation on. *)
Theorem arena_refines_store {St} (parent : Allocator St) `{!LawfulAllocator parent} s m others block_size ar w :
  owns s [] others -> 0 <= block_size < 2 ^ 64 ->
  coglet_rt_mem_arena_create parent block_size (s, m) = Done (ar, w) ->
  refines_store (arena_allocator parent) others ((ar, w.1), w.2).
Proof.
  intros Ho Hb Hc. apply lawful_refines_store. pose proof (arena_create_ok parent s m others block_size Ho Hb) as Hok.
  rewrite Hc in Hok. destruct w as [s' m']. by destruct Hok.
Qed.

(** C14. The same for a debugging allocator over any lawful parent: its records, guards and
    filling are not seen by the program. *)
Theorem debug_refines_store {St} (parent : Allocator St) `{!LawfulAllocator parent} s m others d w :
  owns s [] others -> coglet_rt_mem_debug_create parent (s, m) = Done (d, w) ->
  refines_store (debug_allocator parent) others ((d, w.1), w.2).
Proof.
  intros Ho Hc. apply lawful_refines_store. pose proof (debug_create_ok parent s m others Ho) as Hok.
  rewrite Hc in Hok. destruct w as [s' m']. by destruct Hok as [_ [? _ _ _ _]].
Qed.

(** The same for an arena in a buffer that nothing else uses. *)
Theorem fixed_arena_refines_store buffer buffer_size others address ar m :
  0 < buffer <= 2 ^ 64 - 8 -> 0 < buffer_size < 2 ^ 64 -> regions_ok others -> clear_of (buffer, buffer_size) others ->
  coglet_rt_mem_fixed_arena_create buffer buffer_size = Done (address, ar) ->
  refines_store fixed_arena_allocator others (ar, m).
Proof.
  intros Hb Hn Hreg Hcl Hc. apply lawful_refines_store.
  pose proof (fixed_create_ok buffer buffer_size others Hb Hn Hreg Hcl) as Hok. rewrite Hc in Hok. cbn. tauto.
Qed.

(** ** A program *)

#[local] Existing Instances bump_malloc bump_malloc_laws.

(** It allocates 10 bytes, writes one, resizes to 20, reads the byte again and frees. *)
Definition demo_program (results : list Z) : option memory_op :=
  match results with
  | [] => Some (OpAllocate 10 8)
  | [p] => Some (OpWrite p 3 7)
  | [p; _] => Some (OpResize p 10 20 8)
  | [_; _; q] => Some (OpRead q 3)
  | [_; _; q; _] => Some (OpFree q 20 8)
  | _ => None
  end.

Definition demo_state (results : list Z) (σ : Store) : Prop :=
  match results with
  | [p] | [p; _] => exists l, σ !! p = Some l /\ length l = 10%nat
  | [_; _; q] | [_; _; q; _] => exists l, σ !! q = Some l /\ length l = 20%nat
  | _ => True
  end.

Lemma demo_states others results σ : store_run others demo_program ∅ results σ -> demo_state results σ.
Proof.
  induction 1 as [|results σ op r σ' _ IH Hop Hstep]; [done|].
  destruct results as [|p [|x [|q [|y [|z results]]]]]; cbn in Hop; [injection Hop as <-..|done]; cbn in IH |- *.
  - inversion Hstep; subst. eexists. split; [apply lookup_insert_eq|lia].
  - destruct IH as (l & Hp & Hl). inversion Hstep; subst. eexists. split; [apply lookup_insert_eq|].
    rewrite length_insert. congruence.
  - inversion Hstep as [| |?????? Ha| |???????? Hpos Hfree Hlen| | | |]; subst.
    + inversion Ha; subst. eexists. split; [apply lookup_insert_eq|lia].
    + eexists. split; [apply lookup_insert_eq|lia].
  - inversion Hstep; subst. exact IH.
  - done.
Qed.

Lemma demo_well_behaved others : well_behaved others demo_program ∅.
Proof.
  intros results σ op Hrun Hop. pose proof (demo_states _ _ _ Hrun) as Hs.
  destruct results as [|p [|x [|q [|y [|z results]]]]]; cbn in Hop, Hs; [injection Hop as <-..|done]; cbn [op_ok].
  - split; [lia|by exists 3].
  - destruct Hs as (l & Hp & Hl). exists l. split; [done|lia].
  - destruct Hs as (l & Hp & Hl). split; [lia|]. split; [by exists 3|]. right. exists l. split; [done|lia].
  - destruct Hs as (l & Hp & Hl). exists l. split; [done|lia].
  - destruct Hs as (l & Hp & Hl). split; [by exists 3|]. right. exists l. split; [done|lia].
Qed.

(** The results on an allocator that does not run out are those of the store. *)
Lemma demo_execution {St} (a : Allocator St) `{!LawfulAllocator a} others w :
  refines_store a others w -> finished (execute a demo_program 5 [] w) = true ->
  exists results w' σ, execute a demo_program 5 [] w = Done (results, w')
    /\ store_run others demo_program ∅ results σ /\ represents others σ w'.
Proof.
  intros Hr Hf. specialize (Hr demo_program (demo_well_behaved others) 5%nat).
  destruct (execute _ _ _ _ _) as [[results w']| |]; [|done|done]. destruct Hr as (σ & H1 & H2). by exists results, w', σ.
Qed.

Lemma heap_refines_store_witness :
  exists results w' σ, execute heap_allocator demo_program 5 [] (empty_heap, zero_bytes) = Done (results, w')
    /\ store_run [] demo_program ∅ results σ /\ represents [] σ w' /\ results !! 3%nat = Some 7.
Proof.
  pose proof (heap_refines_store zero_bytes) as H.
  destruct (demo_execution _ _ _ H ltac:(vm_compute; reflexivity)) as (results & w' & σ & E & Hrun & Hr).
  exists results, w', σ. split; [exact E|]. split; [exact Hrun|]. split; [exact Hr|].
  assert (Hc : match execute heap_allocator demo_program 5 [] (empty_heap, zero_bytes) with
               | Done (results, _) => results !! 3%nat = Some 7 | _ => False end) by (vm_compute; reflexivity).
  by rewrite E in Hc.
Defined.

(** The debugging allocator over an arena over the heap. *)
Definition demo_arena : CogletRuntimeArena * (Heap * Bytes) :=
  value (coglet_rt_mem_arena_create heap_allocator 64 (empty_heap, zero_bytes))
        (mkRuntimeArena NULL 0 [] NULL, (empty_heap, zero_bytes)).

Definition demo_stack : CogletRuntimeDebugAllocator * ((CogletRuntimeArena * Heap) * Bytes) :=
  value (coglet_rt_mem_debug_create (arena_allocator heap_allocator) ((demo_arena.1, demo_arena.2.1), demo_arena.2.2))
        (mkDebug NULL [] 0 0 0 0 0 0 [], ((demo_arena.1, demo_arena.2.1), demo_arena.2.2)).

Lemma demo_arena_created :
  coglet_rt_mem_arena_create heap_allocator 64 (empty_heap, zero_bytes) = Done demo_arena.
Proof. unfold demo_arena. apply value_done. vm_compute. reflexivity. Qed.

Lemma demo_arena_owns : arena_owns heap_allocator (demo_arena.1, demo_arena.2.1) [] [].
Proof.
  pose proof (arena_create_ok heap_allocator empty_heap zero_bytes [] 64 empty_heap_owns ltac:(lia)) as H.
  rewrite demo_arena_created in H. destruct demo_arena as [ar [s m]]. apply H.
Qed.

Lemma demo_stack_created :
  coglet_rt_mem_debug_create (arena_allocator heap_allocator) ((demo_arena.1, demo_arena.2.1), demo_arena.2.2)
  = Done demo_stack.
Proof. unfold demo_stack. apply value_done. vm_compute. reflexivity. Qed.

Lemma arena_refines_store_witness :
  exists results w' σ,
    execute (arena_allocator heap_allocator) demo_program 5 [] ((demo_arena.1, demo_arena.2.1), demo_arena.2.2)
      = Done (results, w')
    /\ store_run [] demo_program ∅ results σ /\ represents [] σ w'.
Proof.
  assert (Hf : finished (execute (arena_allocator heap_allocator) demo_program 5 []
    ((demo_arena.1, demo_arena.2.1), demo_arena.2.2)) = true) by (vm_compute; reflexivity).
  refine (demo_execution _ _ _ _ Hf).
  exact (arena_refines_store heap_allocator empty_heap zero_bytes [] 64 demo_arena.1 demo_arena.2
    empty_heap_owns ltac:(lia) ltac:(rewrite demo_arena_created; by destruct demo_arena)).
Defined.

Lemma debug_refines_store_witness :
  exists results w' σ,
    execute (debug_allocator (arena_allocator heap_allocator)) demo_program 5 []
      ((demo_stack.1, demo_stack.2.1), demo_stack.2.2) = Done (results, w')
    /\ store_run [] demo_program ∅ results σ /\ represents [] σ w'.
Proof.
  assert (Hf : finished (execute (debug_allocator (arena_allocator heap_allocator)) demo_program 5 []
    ((demo_stack.1, demo_stack.2.1), demo_stack.2.2)) = true) by (vm_compute; reflexivity).
  refine (demo_execution _ _ _ _ Hf).
  exact (debug_refines_store (arena_allocator heap_allocator) _ _ [] demo_stack.1 demo_stack.2 demo_arena_owns
    ltac:(rewrite demo_stack_created; by destruct demo_stack)).
Defined.

Lemma fixed_arena_refines_store_witness :
  exists ar results w' σ,
    coglet_rt_mem_fixed_arena_create 1001 100 = Done (1008, ar)
    /\ execute fixed_arena_allocator demo_program 5 [] (ar, zero_bytes) = Done (results, w')
    /\ store_run [(2000, 8)] demo_program ∅ results σ /\ represents [(2000, 8)] σ w'.
Proof.
  exists (mkFixedArena 1032 69 0).
  assert (Hf : finished (execute fixed_arena_allocator demo_program 5 [] (mkFixedArena 1032 69 0, zero_bytes)) = true)
    by (vm_compute; reflexivity).
  destruct (demo_execution _ [(2000, 8)] _
    (fixed_arena_refines_store 1001 100 [(2000, 8)] 1008 (mkFixedArena 1032 69 0) zero_bytes ltac:(lia) ltac:(lia)
      ltac:(apply regions_ok_cons; split; [done|]; split; [constructor|apply regions_ok_nil])
      ltac:(constructor; [unfold disjoint_regions; cbn; lia|constructor]) ltac:(reflexivity)) Hf)
    as (results & w' & σ & H).
  exists results, w', σ. split; [reflexivity|exact H].
Defined.
